(* ===== verification/_CoqProject ===== *)
-Q . S2P
Prelude.v
Decimal.v
Assoc.v
Bloom.v
Core.v
Disk.v
PostingIndex.v
Idem.v
BookState.v
Frame.v
Replay.v
Segment.v
Snapshot.v
Writer.v
WriterBatch.v
WriterLog.v
WriterSpec.v
LogOpen.v
LogStore.v
StoreReads.v
StoreWrites.v
Subscribe.v
Api.v
Service.v
ServiceSpec.v
LedgerApi.v
Workload.v
Runner.v
BenchSpec.v
BenchReads.v
Router.v
RouterSpec.v
StoreImpl.v
Conformance.v
EventCodec.v
Sql.v
Sqlite.v
SqliteSpec.v
SqliteCommit.v
SqliteHistory.v
SqliteBatch.v
SqliteReads.v
SqlSubscribe.v
SqliteDemo.v
Http.v
HttpSpec.v
HttpDemo.v
ParseInt.v
Config.v
Cli.v
Seed.v
Startup.v
Init.v
Client.v
ClientSpec.v
ClientApi.v
ClientApiSpec.v
Command.v
SqliteClient.v
InitDemo.v
SqliteSubscribe.v
Pg.v
Postgres.v
PgSpec.v
PgCommit.v
PgHistory.v
PgReads.v
PgDefs.v
PgDrafts.v
PgBatch.v
PgPlan.v
PgFast.v
PgAnswers.v
PgFastRun.v
PgBatchSpec.v
PgSubscribe.v
PgDemo.v
StoresConform.v
ClientDemo.v
BenchDemo.v
