(* ===== verification/Prelude.v ===== *)
(** * talea: a verification library for the ledger

    talea is a double-entry ledger.  Books hold accounts; a transaction posts
    balanced amounts to the accounts of one book, at most once per idempotency
    key; every change is an event of its book's log, numbered without gaps, and
    everything a reader sees is a projection of the logs.  This development
    models its stores, its service with the write router, its HTTP server and
    client, its programs (the daemon, the command line and the benchmarks), and
    proves what each promises the others.

    ** The program and its model

    - Domain and API (src/talea-core): [Core.v] (types/, events.rs and the data of
      store.rs), [Api.v] (api/), [Decimal.v] (the rendering of amounts in
      api/mod.rs, integers as text), [ParseInt.v] (their parsing with errors).
    - The log store (src/talea-store-log).  [Disk.v] is the directory of a book:
      files with their durable length, and a script of I/O faults.  [Frame.v] is
      frame.rs, [Segment.v] segment.rs (append, sync, rotation, opening after a
      crash, scans), [PostingIndex.v] and [BookState.v] state.rs, [Bloom.v] and
      [Idem.v] idem_spill.rs, [Snapshot.v] snapshot.rs, [Assoc.v] the slices of
      pairs the runs are made of.  [Writer.v] is the batch loop of writer.rs,
      [LogOpen.v] the opening of a book in lib.rs, [LogStore.v] the operations of the
      [Store] trait there, [Subscribe.v] its subscriptions as a machine beside the
      writer.  [Replay.v] relates a log to the state replaying it gives.
    - The SQLite store (src/talea-store-sqlite).  [Sql.v] is the database: the tables
      of migrations/0001_init.sql, statements, one write transaction with
      savepoints, and a script of failing statements.  [Sqlite.v] is lib.rs, an
      operation for each of the [Store] trait's and the rebuild of the balances;
      [SqlSubscribe.v] is what the subscriptions of the SQL stores share,
      [SqliteSubscribe.v] this store's, as a machine beside its operations and the
      broadcast channel of their wake-ups.
    - The PostgreSQL store (src/talea-store-postgres), over the same tables.
      [Pg.v] is a session of the database beside others: transactions under read
      committed, savepoints, an aborted transaction, notifications sent at COMMIT,
      failing statements, the others' commits.  [Postgres.v] is lib.rs and
      helpers.rs, [PgBatch.v] batch.rs and the choice between its fast path and the
      loop over savepoints; [PgSubscribe.v] its subscriptions, beside the sessions
      that notify and a listener that may lose its connection.
    - The service (src/talea-service): [Service.v] is service.rs over the class
      [Store]; [Router.v] is write_router.rs as steps of submitters, committers and
      timers that interleave.  [LedgerApi.v] is the trait of api/mod.rs: its
      operations, code written against it ([LedgerCode], calls and what follows
      them) and the service as one of its implementations.
    - The server (src/talea-server): [Http.v] is http/ and the tokens of run.rs: a
      request is a route with what its extractors made of it; [Config.v] is
      config.rs; [Startup.v] is run.rs, from a configuration to the listeners, with
      the choice of the store that [talead init] makes too.
    - The client (src/talea-client): [Client.v] is the retry loop, the decoding of
      responses and the subscriptions, [ClientApi.v] the URLs, the requests and the
      builder, with the server's routes, so that a client over a network is another
      implementation of [LedgerApi.v]'s trait.
    - The command line (src/talea-cli): [Cli.v] is parse.rs, [Command.v] main.rs and
      cli/mod.rs, a command as code against the trait.
    - The daemon (src/talead): [Seed.v] is seed.rs, [Init.v] init.rs and serve.rs.
    - The benchmarks (src/talea-bench): [Workload.v] is workload.rs and seed.rs,
      [Runner.v] runner.rs, verify.rs and the scenarios that write, [BenchReads.v]
      the one that reads, all against the trait.
    - The tests every store must pass (src/talea-store-conformance): [Conformance.v],
      programs over any store with a clock and streams; [StoresConform.v] runs them on
      the three stores, with the codec of [EventCodec.v] for the events' JSON.  (That
      file has codecs for the API's types too, for the runs of client and server.)

    A request crosses the model as it crosses the program: a command or a benchmark
    asks for an operation, [ClientApi.client_api] makes a request of it, [Client.v] sends
    it, [ClientApi.route] matches its path, [Http.serve] finds its scope and calls a handler, the handler calls
    [Service.v], a write goes through the router to the store's [commit_batch], and
    the store runs one of its machines.  What one component needs of another is a
    class: [Store] is the trait; [StoreHistory] (ServiceSpec.v) what paging needs of
    a store, discharged for the log store in [StoreImpl.v]; [KeyedStore]
    (ClientSpec.v) what repeated posts need, discharged for SQLite in
    [SqliteClient.v]; [Definitions] (Seed.v) what seeding twice needs, discharged for
    SQLite in [InitDemo.v]; [CountedLedger] (BenchSpec.v) what the benchmarks' check
    relies on, discharged for SQLite, also behind a network that loses answers, in
    [BenchDemo.v].  [HashIter] is the unspecified order of hash maps,
    [Json], [Crc32], [KeyHashes], [UuidText], [Texts], [Toml], [SeedToml], [DotEnv],
    [Hex], [EventText], [ClientText], [UrlLib], [QueryText], [Serde], [Answers], [Reqwest],
    [CliTexts] and [Histograms] the codecs, texts and data of libraries, with their
    round trips as laws where a theorem needs them.

    ** What is proved

    - Crash safety of the log store: whatever the disk does, what was
      acknowledged is there after a crash and the log is not torn
      ([WriterSpec.batch_crash_safe], [Segment.crash_recovery]); a batch answers
      truthfully ([batch_answers]); subscribers see durable events only
      ([loop_broadcasts_durable_events]); reopening rebuilds book and keys
      ([LogOpen.restart_restores_book], [restart_restores_keys]), the book from any
      directory its life so far can leave ([LogOpen.life]: batches, snapshots that
      succeed or fail, crashes between batches and restarts from them).
    - Accounting: [BookState.validate_exact] says what is accepted,
      [accepted_batch_applies] and [accepted_batch_conserves] that it can be
      applied, within the integers, and keeps totals and minimum balances.
    - Refinement: an operation of the log store is a step of the book's ledger
      ([StoreWrites.v]), its reads are functions of the log ([StoreReads.v]); the
      SQLite tables are at all times the projections of a history ([db_ok] of
      SqliteSpec.v) that grows by what was answered ([SqliteHistory.v],
      [SqliteBatch.v]), a commit that is refused names what is wrong
      ([SqliteHistory.refusal], [commit_exact]), and its reads are functions of that
      history ([SqliteReads.v]).
    - The PostgreSQL store, beside other sessions and whatever statement fails:
      [PgSpec.v] is the calculus of its sessions (a [calm] session, one that has
      written and is [steady], what [peers] may do), [PgHistory.v] and [PgDefs.v] show
      that commits, registrations and openings append to the history the tables
      stand for ([pg_commit_atomic]; only where the connection failed at COMMIT
      itself, [commit_lost], may an event come with an error), [PgDrafts.v] the loop
      over savepoints.  For
      the fast path, [PgPlan.v] relates the plan to the history of writing the new
      drafts in turn, [PgFast.v] the write set to that history's tables,
      [PgAnswers.v] the answers, [PgFastRun.v] puts the path
      together; [PgBatchSpec.pg_batch_is_per_draft] says that it is the loop up to
      the commit times ([undated]; the two read the clock at different moments), as
      long as no sum leaves 64 bits ([PgAnswers.roomy]; [PgDemo.pg_batch_wraps] shows
      why), [pg_batch_atomic] what remains of that beside others, where there must be
      room after each of their commits ([PgAnswers.has_room]), and
      [PgBatchSpec.pg_history_grows] that any number of stores keep one history.
      [PgReads.v] gives the reads beside others as functions of the history;
      [channel_name_exact] is about the channels of the notifications.
    - Interleavings: the router loses and repeats no job and drains
      ([RouterSpec.v]); a subscription has no gap and no repetition under any
      interleaving with the writer ([Subscribe.v]); so do those of the SQL stores,
      because every operation announces the events it commits
      ([SqliteSubscribe.sq_announces], [PgSubscribe.op_tells]): what a waiting
      subscription has not yielded is announced to it
      ([sqlite_subscription_exact], [pg_subscription_exact]), and its turns come to
      an end with everything yielded ([sqlite_subscription_drains],
      [pg_subscription_drains]).  [PgDemo.pg_subscription_stalls] shows the one
      exception, a listener that connects anew by itself.
    - The service and the server: [ServiceSpec.v] (what a post accepts, paging to
      the end), [HttpSpec.v] (tokens, scopes, and a batch's items, each the single
      route's answer in its place whatever the router answers,
      [http_batch_in_place]).
    - End to end: a post over a network that loses messages takes effect once
      ([ClientSpec.client_post_exactly_once]); a subscription survives its
      connections ([subscription_resumes]); sending ends within its budget.  Over a
      network that delivers, code against the trait gives the same results and leaves
      the same ledger through a client, its URLs, the routes and the JSON of both
      sides, as against the service ([ClientApiSpec.code_runs_unchanged]); [talea post]
      posts the draft its arguments say ([Command.talea_post_posts]).
    - The benchmarks: a run ends and its check does not complain about the events of a
      ledger that keeps its promises ([BenchSpec.benchmark_never_alarms]), and accepts
      no other ([verify_books_exact]); drafts balance, keys and cursors do not collide,
      a mix is dealt in its ratio (Workload.v); a deep book is seeded once
      ([BenchReads.seed_depth_again]).  [BenchDemo.lost_batch_accused] and
      [timed_out_post_accused] are where the promises it relies on are not the
      program's.
    - Starting up: [talead init] touches no file but the environment file, can be
      repeated ([Init.init_twice]), and what it wrote [talead serve] reads back: the
      same store, the token, a server that is not open
      ([serve_starts_what_init_set_up]); a server listens only with the tokens it was
      configured with ([Startup.server_starts_guarded]).
      [InitDemo.truncated_env_opens_server] is what a failing write leaves.
    - The parts: run files and the Bloom filter never lose a key ([Idem.v]),
      snapshots fall back ([Snapshot.v]), frames and numbers round-trip, a seed can
      be applied twice, a posting argument means one thing ([Cli.v]).

    - The models behave as the program's own tests say.  This is evaluation, not
      proof: on its fixed inputs every test of the conformance suite passes on each
      of the three models ([StoresConform.stores_conform]).

    Files ending in Demo and the last section of most files evaluate the model at
    small ledgers and apply the theorems there.

    ** Conventions

    A Rust [Result] is [result], [?] is [let?].  Machine integers are [Z] with the
    checked, saturating or wrapping operation the code uses; arithmetic that the
    code leaves to the build profile wraps, as in a release build.  Mutable state
    is passed explicitly; [db] (Sql.v), over a connection or a session, and the io
    monad (Disk.v) thread it with errors.  A panic is an outcome of its own where the code can reach one.

    Recursion is structural, or has fuel that a theorem shows to be enough: the
    retry loop has one more than [max_attempts] ([send_with_retry_exact]), paging as
    many pages as postings ([history_pagination_complete]), decimal digits twenty
    ([u64_max] has as many), segment scans the length of what they scan.  Streams
    that do not end are modelled for any number of steps.

    ** Not modelled

    - Of the SQL stores connecting and migrating.  Beside a PostgreSQL
      subscription the operations of the stores take effect one after the other.
    - Operations of one log store run one after the other, except for the
      subscriptions and the router, whose interleavings are the subject; of the
      SQLite store each operation is one step.  Of the PostgreSQL store one session
      is followed statement by statement; the others act between its statements,
      and, once it has written, after its COMMIT (Pg.v says why that loses
      nothing: a book's counter row orders the writers of a book, and writes of
      different books commute).  Texts hold no NUL byte there.
    - Metrics, logging, the OpenAPI document, serving and shutdown, argument
      parsing (clap's), completions and manual pages.
    - Of the benchmarks, whose requests take effect one at a time: the reports and
      their summaries (floating point and tables), progress bars, the subscribers that
      time deliveries, and the overload scenario, which has an HTTP client of its own
      and whose subject is the server's load.
    - What libraries do: JSON, TOML, environment files, URLs, HTTP framing, the extraction of
      requests, the Debug texts of a few error messages, UUID texts.  They are
      parameters. *)

From Stdlib Require Export Strings.Ascii.
From stdpp Require Export base tactics option list numbers gmap strings.
From stdpp Require Import sorting.
From Stdlib Require Export ZArith Lia.
From Stdlib Require Import Strings.Byte.

Declare Scope talea_scope.
Delimit Scope talea_scope with talea.

(** ** Rust's [Result] *)

Inductive result (A E : Type) : Type :=
| Ok (a : A)
| Err (e : E).
Arguments Ok {A E} a.
Arguments Err {A E} e.

Definition is_ok {A E} (r : result A E) : bool :=
  match r with Ok _ => true | Err _ => false end.

Definition map_err {A E F} (f : E -> F) (r : result A E) : result A F :=
  match r with Ok a => Ok a | Err e => Err (f e) end.

Definition ok_or {A E} (o : option A) (e : E) : result A E :=
  match o with Some a => Ok a | None => Err e end.

(** The [?] operator: unwrap or return the error. *)
Notation "'let?' p ':=' e 'in' k" :=
  (match e with Ok p => k | Err err => Err err end)
  (at level 10, p pattern, e at level 200, k at level 200) : talea_scope.
#[global] Open Scope talea_scope.

#[export] Instance result_eq_dec {A E} `{EqDecision A} `{EqDecision E} :
  EqDecision (result A E).
Proof. solve_decision. Defined.

Create HintDb talea.
Create Rewrite HintDb talea.

#[global] Arguments String.append : simpl nomatch.

(** Case analysis on every [match] and [if] of the goal or the context,
    followed by [simplify_eq]: the routine step of the per-branch proofs. *)
Ltac destruct_results :=
  repeat match goal with
  | H : context [match ?x with _ => _ end] |- _ => destruct x eqn:?; simplify_eq/=
  end.

Ltac bool_to_prop :=
  repeat match goal with
  | H : (_ && _)%bool = true |- _ => apply andb_true_iff in H as [? ?]
  | H : (_ || _)%bool = false |- _ => apply orb_false_iff in H as [? ?]
  | H : negb _ = true |- _ => apply negb_true_iff in H
  | H : negb _ = false |- _ => apply negb_false_iff in H
  | H : (_ <? _)%Z = true |- _ => apply Z.ltb_lt in H
  | H : (_ <? _)%Z = false |- _ => apply Z.ltb_ge in H
  | H : (_ <=? _)%Z = true |- _ => apply Z.leb_le in H
  | H : (_ <=? _)%Z = false |- _ => apply Z.leb_gt in H
  | H : (_ =? _)%Z = true |- _ => apply Z.eqb_eq in H
  | H : (_ =? _)%Z = false |- _ => apply Z.eqb_neq in H
  | H : (_ =? _)%nat = true |- _ => apply Nat.eqb_eq in H
  | H : (_ =? _)%nat = false |- _ => apply Nat.eqb_neq in H
  | H : (_ <? _)%nat = true |- _ => apply Nat.ltb_lt in H
  | H : (_ <? _)%nat = false |- _ => apply Nat.ltb_ge in H
  | H : (_ <=? _)%nat = true |- _ => apply Nat.leb_le in H
  | H : (_ <=? _)%nat = false |- _ => apply Nat.leb_gt in H
  | H : String.eqb _ _ = true |- _ => apply String.eqb_eq in H
  | H : String.eqb _ _ = false |- _ => apply String.eqb_neq in H
  | H : bool_decide _ = true |- _ => apply bool_decide_eq_true in H
  | H : bool_decide _ = false |- _ => apply bool_decide_eq_false in H
  end.

(** ** Machine integers: [i64] as a [Z] with its range written out *)

Section i64.
Open Scope Z_scope.

Definition i64_min : Z := -9223372036854775808.
Definition i64_max : Z := 9223372036854775807.

Definition in_i64 (x : Z) : bool := (i64_min <=? x) && (x <=? i64_max).

(** [i64::checked_add], [i64::checked_sub]. *)
Definition checked_i64 (x : Z) : option Z := if in_i64 x then Some x else None.
Definition checked_add (x y : Z) : option Z := checked_i64 (x + y).
Definition checked_sub (x y : Z) : option Z := checked_i64 (x - y).

(** [i64::saturating_add], [i64::saturating_sub]. *)
Definition clamp_i64 (x : Z) : Z := Z.max i64_min (Z.min i64_max x).
Definition saturating_add (x y : Z) : Z := clamp_i64 (x + y).
Definition saturating_sub (x y : Z) : Z := clamp_i64 (x - y).

(** Unchecked arithmetic of a build without overflow checks: two's
    complement wrap-around. *)
Definition wrap_i64 (x : Z) : Z := (x - i64_min) mod (2 ^ 64) + i64_min.

Lemma in_i64_spec x : in_i64 x = true <-> i64_min <= x <= i64_max.
Proof. unfold in_i64. rewrite andb_true_iff, !Z.leb_le. tauto. Qed.

Lemma checked_i64_Some x y : checked_i64 x = Some y <-> y = x /\ i64_min <= x <= i64_max.
Proof.
  unfold checked_i64. destruct (in_i64 x) eqn:E.
  - apply in_i64_spec in E. split; [by intros [= <-]|by intros [-> _]].
  - split; [done|]. intros [_ H]. apply in_i64_spec in H. congruence.
Qed.

Lemma checked_i64_None x : checked_i64 x = None <-> ~ (i64_min <= x <= i64_max).
Proof.
  unfold checked_i64. rewrite <- in_i64_spec. destruct (in_i64 x); naive_solver.
Qed.

(** An inner wrap-around does not show. *)
Lemma wrap_i64_add x y : wrap_i64 (wrap_i64 x + y) = wrap_i64 (x + y).
Proof.
  unfold wrap_i64. f_equal. replace ((x - i64_min) mod 2 ^ 64 + i64_min + y - i64_min) with ((x - i64_min) mod 2 ^ 64 + y) by lia.
  rewrite Zplus_mod_idemp_l. f_equal. lia.
Qed.

Lemma wrap_i64_add_r x y : wrap_i64 (x + wrap_i64 y) = wrap_i64 (x + y).
Proof. by rewrite Z.add_comm, wrap_i64_add, Z.add_comm. Qed.

Lemma wrap_i64_id x : i64_min <= x <= i64_max -> wrap_i64 x = x.
Proof.
  unfold wrap_i64, i64_min, i64_max. intros H.
  rewrite Z.mod_small; [lia|]. change (2 ^ 64) with 18446744073709551616. lia.
Qed.

Lemma wrap_i64_range x : i64_min <= wrap_i64 x <= i64_max.
Proof.
  unfold wrap_i64, i64_min, i64_max.
  pose proof (Z.mod_pos_bound (x - -9223372036854775808) (2 ^ 64) ltac:(lia)).
  change (2 ^ 64) with 18446744073709551616 in *. lia.
Qed.

Lemma saturating_add_range x y : i64_min <= saturating_add x y <= i64_max.
Proof. unfold saturating_add, clamp_i64, i64_min, i64_max. lia. Qed.

Lemma saturating_add_exact x y :
  i64_min <= x + y <= i64_max -> saturating_add x y = x + y.
Proof. unfold saturating_add, clamp_i64. lia. Qed.
End i64.

#[export] Hint Resolve saturating_add_range wrap_i64_range : talea.

(** ** Little-endian [u32] fields *)

Section le32.
Open Scope Z_scope.

Definition byte_Z (b : byte) : Z := Z.of_N (Byte.to_N b).
Definition Z_byte (z : Z) : byte :=
  match Byte.of_N (Z.to_N (z mod 256)) with Some b => b | None => x00 end.

(** [u32::to_le_bytes] *)
Definition to_le_bytes (z : Z) : list byte :=
  [Z_byte z; Z_byte (z / 256); Z_byte (z / 65536); Z_byte (z / 16777216)].

(** [u32::from_le_bytes], on a chunk of four bytes *)
Definition from_le_bytes (l : list byte) : Z :=
  match l with
  | [a; b; c; d] => byte_Z a + 256 * byte_Z b + 65536 * byte_Z c + 16777216 * byte_Z d
  | _ => 0
  end.

Lemma byte_Z_range b : 0 <= byte_Z b < 256.
Proof. unfold byte_Z. destruct b; cbn; lia. Qed.

Lemma byte_Z_of_Z z : byte_Z (Z_byte z) = z mod 256.
Proof.
  unfold byte_Z, Z_byte. pose proof (Z.mod_pos_bound z 256 ltac:(lia)).
  destruct (Byte.of_N (Z.to_N (z mod 256))) eqn:E.
  - apply Byte.to_of_N in E. rewrite E. lia.
  - apply Byte.of_N_None_iff in E. lia.
Qed.

Lemma length_to_le_bytes z : length (to_le_bytes z) = 4%nat.
Proof. done. Qed.

Lemma from_to_le_bytes z : 0 <= z < 2 ^ 32 -> from_le_bytes (to_le_bytes z) = z.
Proof.
  intros H. unfold to_le_bytes, from_le_bytes. rewrite !byte_Z_of_Z.
  change (2 ^ 32) with 4294967296 in H.
  replace (z / 65536) with (z / 256 / 256) by (rewrite Z.div_div by lia; reflexivity).
  replace (z / 16777216) with (z / 256 / 256 / 256) by (rewrite !Z.div_div by lia; reflexivity).
  pose proof (Z.div_mod z 256 ltac:(lia)).
  pose proof (Z.div_mod (z / 256) 256 ltac:(lia)).
  pose proof (Z.div_mod (z / 256 / 256) 256 ltac:(lia)).
  assert (0 <= z / 256 / 256 / 256 < 256) as Htop.
  { rewrite !Z.div_div by lia. cbn.
    split; [apply Z.div_pos|apply Z.div_lt_upper_bound]; lia. }
  rewrite (Z.mod_small (z / 256 / 256 / 256) 256) by done.
  lia.
Qed.

Lemma from_le_bytes_range l : 0 <= from_le_bytes l < 2 ^ 32.
Proof.
  change (2 ^ 32) with 4294967296. unfold from_le_bytes.
  destruct l as [|a [|b [|c [|d [|? ?]]]]]; try lia.
  pose proof (byte_Z_range a). pose proof (byte_Z_range b).
  pose proof (byte_Z_range c). pose proof (byte_Z_range d). lia.
Qed.
End le32.

(** ** Slices: [partition_point] and [binary_search_by]

    The standard library bisects.  [bisect] keeps the half-open interval
    [lo, hi) of the candidates; the fuel is the length of the slice, and the
    interval shrinks at each step. *)

Section slices.
Context {A : Type}.

Fixpoint bisect (fuel : nat) (p : nat -> bool) (lo hi : nat) : nat :=
  match fuel with
  | O => lo
  | S fuel =>
      if (lo <? hi)%nat then
        let mid := (lo + (hi - lo) / 2)%nat in
        if p mid then bisect fuel p (S mid) hi else bisect fuel p lo mid
      else lo
  end.

Definition partition_point (p : A -> bool) (l : list A) : nat :=
  bisect (length l) (fun i => match l !! i with Some x => p x | None => false end)
    0 (length l).

(** The slice is partitioned at [k] by [p]: the documented precondition. *)
Definition partitioned_at (p : A -> bool) (l : list A) (k : nat) : Prop :=
  (k <= length l)%nat /\
  (forall i x, l !! i = Some x -> p x = bool_decide (i < k)%nat).

Lemma bisect_spec fuel p lo hi k :
  (hi - lo <= fuel)%nat -> (lo <= k <= hi)%nat ->
  (forall i, (lo <= i < hi)%nat -> p i = bool_decide (i < k)%nat) ->
  bisect fuel p lo hi = k.
Proof.
  revert lo hi. induction fuel as [|fuel IH]; intros lo hi Hf Hk Hp; cbn [bisect]; [lia|].
  destruct (lo <? hi)%nat eqn:E; bool_to_prop; [|lia].
  assert (lo <= lo + (hi - lo) / 2 < hi)%nat as Hm.
  { pose proof (Nat.div_lt (hi - lo) 2). lia. }
  set (mid := (lo + (hi - lo) / 2)%nat) in *. cbn zeta.
  rewrite Hp by lia. case_bool_decide.
  - apply IH; [lia..|]. intros; apply Hp; lia.
  - apply IH; [lia..|]. intros; apply Hp; lia.
Qed.

Lemma partition_point_at p (l : list A) k :
  partitioned_at p l k -> partition_point p l = k.
Proof.
  intros [Hk Hp]. apply bisect_spec; [lia..|].
  intros i Hi. destruct (l !! i) eqn:E; [by eapply Hp|].
  apply lookup_ge_None in E. lia.
Qed.

Lemma bisect_range fuel p lo hi : (lo <= hi)%nat -> (lo <= bisect fuel p lo hi <= hi)%nat.
Proof.
  revert lo hi. induction fuel as [|fuel IH]; intros lo hi Hle; cbn [bisect]; [lia|].
  destruct (lo <? hi)%nat eqn:E; bool_to_prop; [|lia].
  assert (lo <= lo + (hi - lo) / 2 < hi)%nat as Hm.
  { pose proof (Nat.div_lt (hi - lo) 2). lia. }
  set (mid := (lo + (hi - lo) / 2)%nat) in *. cbn zeta.
  destruct (p mid).
  - specialize (IH (S mid) hi). lia.
  - specialize (IH lo mid). lia.
Qed.

Lemma partition_point_le p (l : list A) : (partition_point p l <= length l)%nat.
Proof. unfold partition_point. pose proof (bisect_range (length l) (fun i =>
  match l !! i with Some x => p x | None => false end) 0 (length l)). lia. Qed.

(** The prefix on which [p] holds, and its length: on a slice sorted for
    [p] (no true after a false) this is the partition point. *)
Fixpoint prefix_len (p : A -> bool) (l : list A) : nat :=
  match l with
  | [] => 0
  | x :: l => if p x then S (prefix_len p l) else 0
  end.

(** [p] never comes back to true. *)
Definition monotone_cut (p : A -> bool) (l : list A) : Prop :=
  forall i j x y, l !! i = Some x -> l !! j = Some y -> (i <= j)%nat -> p y = true -> p x = true.

Lemma monotone_cut_cons p x (l : list A) : monotone_cut p (x :: l) -> monotone_cut p l.
Proof. intros H i j y z Hi Hj Hle. apply (H (S i) (S j)); auto; lia. Qed.

Lemma prefix_len_partitioned p (l : list A) :
  monotone_cut p l -> partitioned_at p l (prefix_len p l).
Proof.
  induction l as [|x l IH]; intros Hm.
  - split; [done|]. by intros i y.
  - destruct (IH (monotone_cut_cons _ _ _ Hm)) as [Hl Hp]. cbn.
    destruct (p x) eqn:Hx; split; cbn; try lia.
    + intros [|i] y Hy; cbn in Hy; simplify_eq; [rewrite Hx; by rewrite bool_decide_eq_true_2 by lia|].
      rewrite (Hp i) by done. apply bool_decide_ext. lia.
    + intros i y Hy. rewrite bool_decide_eq_false_2 by lia.
      destruct (p y) eqn:Ey; [|done].
      rewrite (Hm 0%nat i x y) in Hx; auto; lia.
Qed.

Lemma partition_point_prefix p (l : list A) :
  monotone_cut p l -> partition_point p l = prefix_len p l.
Proof. intros. by apply partition_point_at, prefix_len_partitioned. Qed.

Lemma filter_all (P : A -> Prop) `{forall x, Decision (P x)} (l : list A) :
  Forall P l -> filter P l = l.
Proof. induction 1; [done|]. rewrite filter_cons_True by done. by f_equal. Qed.

Lemma filter_none (P : A -> Prop) `{forall x, Decision (P x)} (l : list A) :
  Forall (fun x => ~ P x) l -> filter P l = [].
Proof. induction 1; [done|]. by rewrite filter_cons_False by done. Qed.

Lemma monotone_cut_false p x (l : list A) :
  monotone_cut p (x :: l) -> p x = false -> Forall (fun y => p y = false) l.
Proof.
  intros Hm Hx. apply Forall_forall. intros y [i Hi]%list_elem_of_lookup.
  apply not_true_iff_false. intros Hy.
  by rewrite (Hm 0%nat (S i) x y) in Hx; auto; lia.
Qed.

Lemma prefix_len_take p (l : list A) :
  monotone_cut p l -> take (prefix_len p l) l = filter (fun x => p x = true) l.
Proof.
  induction l as [|x l IH]; intros Hm; [done|]. cbn [prefix_len].
  destruct (p x) eqn:Hx.
  - rewrite filter_cons_True by done. cbn. f_equal. apply IH. by eapply monotone_cut_cons.
  - rewrite filter_cons_False by congruence. cbn. symmetry. apply filter_none.
    eapply Forall_impl; [by eapply monotone_cut_false|]. cbn. intros y ->. done.
Qed.

Lemma prefix_len_drop p (l : list A) :
  monotone_cut p l -> drop (prefix_len p l) l = filter (fun x => p x = false) l.
Proof.
  induction l as [|x l IH]; intros Hm; [done|]. cbn [prefix_len].
  destruct (p x) eqn:Hx.
  - rewrite filter_cons_False by congruence. cbn. apply IH. by eapply monotone_cut_cons.
  - rewrite filter_cons_True by done. cbn. f_equal. symmetry. apply filter_all.
    by eapply monotone_cut_false.
Qed.
End slices.

(** [<[T]>::binary_search_by]: the index of a match, or the insertion point.
    The first matching index is taken when several match (the library leaves
    the choice open; the callers search slices with distinct keys). *)
Definition binary_search_by {A} (cmp : A -> comparison) (l : list A) : result nat nat :=
  let i := partition_point (fun x => match cmp x with Lt => true | _ => false end) l in
  match l !! i with
  | Some x => match cmp x with Eq => Ok i | _ => Err i end
  | None => Err i
  end.

(** ** The stable sort of slices

    [sort_by] and [sort_by_key]: an insertion sort has the documented contract
    of the library's merge sort, a stable permutation in order. *)

Section stable_sort.
Context {A : Type} (leb : A -> A -> bool).

Fixpoint insert_by (x : A) (l : list A) : list A :=
  match l with
  | [] => [x]
  | y :: l' => if leb x y then x :: l else y :: insert_by x l'
  end.

Definition sort_by (l : list A) : list A := foldr insert_by [] l.

Lemma insert_by_perm x l : insert_by x l ≡ₚ x :: l.
Proof.
  induction l as [|y l IH]; cbn; [done|]. case_match; [done|]. rewrite IH. by constructor.
Qed.

Lemma sort_by_perm l : sort_by l ≡ₚ l.
Proof. induction l as [|x l IH]; cbn; [done|]. by rewrite insert_by_perm, IH. Qed.

Context (leb_total : forall x y, leb x y = true \/ leb y x = true).
Context (leb_trans : forall x y z, leb x y = true -> leb y z = true -> leb x z = true).

Lemma insert_by_sorted x l :
  StronglySorted (fun a b => leb a b = true) l ->
  StronglySorted (fun a b => leb a b = true) (insert_by x l).
Proof.
  induction 1 as [|y l Hs IH Hy]; cbn; [repeat constructor|].
  destruct (leb x y) eqn:E.
  - constructor; [by constructor|]. constructor; [done|].
    eapply Forall_impl; [done|]. cbn. eauto.
  - constructor; [done|]. rewrite insert_by_perm. constructor; [|done].
    destruct (leb_total x y) as [H|H]; [congruence|done].
Qed.

Lemma sort_by_sorted l : StronglySorted (fun a b => leb a b = true) (sort_by l).
Proof. induction l; cbn; [constructor|]. by apply insert_by_sorted. Qed.

(** A sorted list is its own sort. *)
Lemma sort_by_id l : StronglySorted (fun a b => leb a b = true) l -> sort_by l = l.
Proof.
  induction 1 as [|x l Hs IH Hx]; [done|]. change (sort_by (x :: l)) with (insert_by x (sort_by l)). rewrite IH. destruct l as [|y l]; [done|]. cbn.
  apply Forall_cons in Hx as [-> _]. done.
Qed.

Lemma insert_by_filter (P : A -> Prop) `{!forall x, Decision (P x)} x l :
  StronglySorted (fun a b => leb a b = true) l ->
  filter P (insert_by x l) = if decide (P x) then insert_by x (filter P l) else filter P l.
Proof.
  induction 1 as [|y l Hs IH Hy]; cbn [insert_by]; [rewrite filter_cons, filter_nil; by case_decide|].
  destruct (leb x y) eqn:E.
  - rewrite filter_cons. case_decide; [|done]. rewrite filter_cons. case_decide; cbn; [by rewrite E|].
    destruct (filter P l) as [|z r] eqn:Ef; [done|]. cbn.
    assert (z ∈ filter P l) as [_ Hz]%list_elem_of_filter by (rewrite Ef; by left).
    rewrite Forall_forall in Hy. by rewrite (leb_trans x y z E (Hy z Hz)).
  - rewrite !filter_cons, IH. repeat case_decide; cbn; try done. by rewrite E.
Qed.

(** Sorting is stable under a filter. *)
Lemma sort_by_filter (P : A -> Prop) `{!forall x, Decision (P x)} l : sort_by (filter P l) = filter P (sort_by l).
Proof.
  induction l as [|x l IH]; [done|]. change (sort_by (x :: l)) with (insert_by x (sort_by l)).
  rewrite insert_by_filter by apply sort_by_sorted. rewrite filter_cons. case_decide; [|done].
  change (sort_by (x :: filter P l)) with (insert_by x (sort_by (filter P l))). by rewrite IH.
Qed.
End stable_sort.

(** ** The order of a [HashMap]'s iteration

    The standard library leaves it unspecified: an implementation of
    [HashIter] lists a map's entries in some order. *)

Class HashIter := hash_iter : forall {V : Type}, gmap string V -> list (string * V).

Class HashIterLaws {H : HashIter} :=
  hash_iter_perm : forall {V : Type} (m : gmap string V), hash_iter m ≡ₚ map_to_list m.

(** One such order, for evaluation. *)
Definition some_hash_iter : HashIter := fun V m => map_to_list m.

Lemma some_hash_iter_laws : @HashIterLaws some_hash_iter.
Proof. intros V m. reflexivity. Qed.

Lemma elem_of_hash_iter `{HashIterLaws} {V} (m : gmap string V) k v :
  (k, v) ∈ hash_iter m <-> m !! k = Some v.
Proof. by rewrite hash_iter_perm, elem_of_map_to_list. Qed.
