(* ===== verification/Decimal.v ===== *)
(** Decimal text: the integer formatting and parsing of the Rust standard
    library that the ledger uses ([to_string], [{:020}], [str::parse]) and
    [format_minor] (talea-core/src/api/mod.rs), with their round trips. *)

From S2P Require Import Prelude.
Open Scope Z_scope.

(** ** Digits *)

Definition digit (d : Z) : ascii := ascii_of_N (Z.to_N (48 + d)).

Definition digit_val (a : ascii) : option Z :=
  let n := Z.of_N (N_of_ascii a) in
  if (48 <=? n) && (n <=? 57) then Some (n - 48) else None.

(** The decimal digits of [n] in front of [acc]; [fuel] bounds their number. *)
Fixpoint digits_of (fuel : nat) (n : Z) (acc : string) : string :=
  match fuel with
  | O => acc
  | S fuel =>
      if n <? 10 then String (digit n) acc
      else digits_of fuel (n / 10) (String (digit (n mod 10)) acc)
  end.

(** [u64::to_string]: twenty digits are enough for 2^64 - 1. *)
Definition u64_to_string (n : Z) : string := digits_of 20 n "".

(** [i64::to_string] *)
Definition i64_to_string (z : Z) : string :=
  if z <? 0 then String "-" (u64_to_string (- z)) else u64_to_string z.

Fixpoint zeros (n : nat) : string :=
  match n with O => EmptyString | S n => String "0" (zeros n) end.

(** [{:0>width$}] on a string, and [{:0width}] on a number (sign first). *)
Definition zero_pad (width : nat) (s : string) : string :=
  zeros (width - String.length s) +:+ s.

Definition i64_zero_padded (width : nat) (z : Z) : string :=
  if z <? 0 then String "-" (zero_pad (width - 1) (u64_to_string (- z)))
  else zero_pad width (u64_to_string z).

(** ** Parsing *)

Fixpoint parse_digits (s : string) (acc : Z) : option Z :=
  match s with
  | EmptyString => Some acc
  | String a s =>
      match digit_val a with
      | Some d => parse_digits s (acc * 10 + d)
      | None => None
      end
  end.

Definition parse_unsigned (s : string) : option Z :=
  match s with EmptyString => None | _ => parse_digits s 0 end.

(** [str::parse::<i64>]: one optional sign, then at least one digit, and the
    value in range. *)
Definition parse_i64 (s : string) : option Z :=
  match s with
  | String "-" s => match parse_unsigned s with Some n => checked_i64 (- n) | None => None end
  | String "+" s => match parse_unsigned s with Some n => checked_i64 n | None => None end
  | s => match parse_unsigned s with Some n => checked_i64 n | None => None end
  end.

(** [str::parse::<usize>] and [str::parse::<u64>] on a 64-bit target. *)
Definition parse_u64 (s : string) : option Z :=
  let body := match s with String "+" s => s | s => s end in
  match parse_unsigned body with
  | Some n => if n <? 2 ^ 64 then Some n else None
  | None => None
  end.

(** [str::split_at], by bytes (the digits are ASCII). *)
Fixpoint split_at (n : nat) (s : string) : string * string :=
  match n, s with
  | S n, String a s => let '(l, r) := split_at n s in (String a l, r)
  | _, s => (EmptyString, s)
  end.

(** [format_minor]: minor units as a decimal string at a precision. *)
Definition format_minor (minor : Z) (precision : nat) : string :=
  if (precision =? 0)%nat then i64_to_string minor
  else
    let sign := if minor <? 0 then "-"%string else ""%string in
    let digits := u64_to_string (Z.abs minor) in
    if (precision <? String.length digits)%nat then
      let '(whole, frac) := split_at (String.length digits - precision) digits in
      (sign +:+ whole +:+ "." +:+ frac)%string
    else (sign +:+ "0." +:+ zero_pad precision digits)%string.

(** ** Lemmas on digits *)

#[global] Arguments digit_val : simpl never.
#[global] Arguments digit : simpl never.
#[global] Arguments Z.mul : simpl never.
#[global] Arguments Z.add : simpl never.

Lemma digit_val_digit d : 0 <= d <= 9 -> digit_val (digit d) = Some d.
Proof.
  intros H. assert (d ∈ [0;1;2;3;4;5;6;7;8;9]) as Hin.
  { rewrite list_elem_of_In. cbn. lia. }
  repeat (apply elem_of_cons in Hin as [-> | Hin]; [done|]). by apply elem_of_nil in Hin.
Qed.

Lemma digit_not_sign d : 0 <= d <= 9 -> digit d <> "-"%char /\ digit d <> "+"%char /\ digit d <> "."%char.
Proof.
  intros H. pose proof (digit_val_digit d H). repeat split; intros E; rewrite E in *; done.
Qed.

Inductive all_digits : string -> Prop :=
| all_digits_nil : all_digits EmptyString
| all_digits_cons a s d : digit_val a = Some d -> all_digits s -> all_digits (String a s).
#[export] Hint Constructors all_digits : talea.

(** The number a digit string denotes, from an accumulator. *)
Fixpoint val_of (s : string) (acc : Z) : Z :=
  match s with
  | EmptyString => acc
  | String a s => val_of s (acc * 10 + default 0 (digit_val a))
  end.

Lemma parse_digits_val s acc : all_digits s -> parse_digits s acc = Some (val_of s acc).
Proof. intros H. revert acc. induction H as [|a s d Hd _ IH]; intros acc; cbn; [done|].
  by rewrite Hd, IH. Qed.

Lemma val_of_app s t acc : val_of (s +:+ t) acc = val_of t (val_of s acc).
Proof. revert acc. induction s as [|a s IH]; intros acc; cbn; auto. Qed.

Lemma all_digits_app s t : all_digits s -> all_digits t -> all_digits (s +:+ t).
Proof. intros H ?. induction H; cbn; eauto with talea. Qed.

Lemma all_digits_app_inv s t : all_digits (s +:+ t) -> all_digits s /\ all_digits t.
Proof.
  induction s as [|a s IH]; cbn; intros H; [eauto with talea|].
  inversion H; subst. destruct IH; eauto with talea.
Qed.

Lemma zeros_digits n : all_digits (zeros n).
Proof. induction n; cbn; econstructor; eauto. Qed.

Lemma val_of_zeros n : val_of (zeros n) 0 = 0.
Proof. induction n; cbn; auto. Qed.

Lemma length_zeros n : String.length (zeros n) = n.
Proof. induction n; cbn; auto. Qed.

Lemma length_append (s t : string) :
  String.length (s +:+ t) = (String.length s + String.length t)%nat.
Proof. induction s; cbn; auto. Qed.

Lemma digits_of_digits fuel n acc :
  0 <= n -> all_digits acc -> all_digits (digits_of fuel n acc).
Proof.
  revert n acc. induction fuel as [|fuel IH]; intros n acc Hn Ha; cbn; [done|].
  case_match; bool_to_prop.
  - econstructor; [apply digit_val_digit; lia|done].
  - apply IH; [apply Z.div_pos; lia|]. econstructor; [|done].
    apply digit_val_digit. pose proof (Z.mod_pos_bound n 10). lia.
Qed.

Lemma val_digits_of fuel n acc :
  0 <= n < 10 ^ Z.of_nat fuel -> val_of (digits_of fuel n acc) 0 = val_of acc n.
Proof.
  revert n acc. induction fuel as [|fuel IH]; intros n acc Hn; cbn [digits_of].
  - cbn in Hn. f_equal. lia.
  - case_match; bool_to_prop.
    + cbn. rewrite digit_val_digit by lia. done.
    + rewrite Nat2Z.inj_succ, Z.pow_succ_r in Hn by lia.
      rewrite IH by (split; [apply Z.div_pos|apply Z.div_lt_upper_bound]; lia).
      pose proof (Z.mod_pos_bound n 10 ltac:(lia)).
      cbn. rewrite digit_val_digit by lia. cbn. f_equal.
      pose proof (Z.div_mod n 10). lia.
Qed.

Lemma digits_of_cons_nonempty fuel n a acc : digits_of fuel n (String a acc) <> EmptyString.
Proof. revert n a acc. induction fuel; intros; cbn; [done|]. by case_match. Qed.

Lemma digits_of_nonempty fuel n acc : digits_of (S fuel) n acc <> EmptyString.
Proof. cbn. case_match; [done|]. apply digits_of_cons_nonempty. Qed.

Lemma append_empty_r (s : string) : s +:+ "" = s.
Proof. induction s; cbn; congruence. Qed.

Definition u64_max : Z := 18446744073709551615.

Lemma u64_to_string_digits n : 0 <= n -> all_digits (u64_to_string n).
Proof. intros. apply digits_of_digits; auto with talea. Qed.

Lemma val_u64_to_string n : 0 <= n <= u64_max -> val_of (u64_to_string n) 0 = n.
Proof. intros. unfold u64_to_string. rewrite val_digits_of; [done|].
  unfold u64_max in *. change (10 ^ Z.of_nat 20) with 100000000000000000000. lia. Qed.

Lemma zero_pad_digits w s : all_digits s -> all_digits (zero_pad w s).
Proof. intros. apply all_digits_app; [apply zeros_digits|done]. Qed.

Lemma val_zero_pad w s : val_of (zero_pad w s) 0 = val_of s 0.
Proof. unfold zero_pad. by rewrite val_of_app, val_of_zeros. Qed.

Lemma length_zero_pad w s : (String.length s <= w)%nat -> String.length (zero_pad w s) = w.
Proof. unfold zero_pad. rewrite length_append, length_zeros. lia. Qed.

Lemma split_at_app n s l r : split_at n s = (l, r) -> l +:+ r = s.
Proof.
  revert s l r. induction n as [|n IH]; intros [|a s] l r H; cbn in H; simplify_eq; auto.
  destruct (split_at n s) eqn:E; simplify_eq. cbn. f_equal. by apply IH.
Qed.

Lemma split_at_length n s l r :
  split_at n s = (l, r) -> (n <= String.length s)%nat -> String.length l = n.
Proof.
  revert s l r. induction n as [|n IH]; intros [|a s] l r H Hn; cbn in *; simplify_eq; auto; try lia.
  destruct (split_at n s) eqn:E; simplify_eq. cbn. f_equal. eapply IH; [done|]. lia.
Qed.

(** A digit string does not start with a sign. *)
Lemma parse_i64_digits s :
  all_digits s -> s <> EmptyString -> parse_i64 s = checked_i64 (val_of s 0).
Proof.
  intros H Hne. destruct s as [|a s]; [done|].
  assert (parse_unsigned (String a s) = Some (val_of (String a s) 0)) as Hp.
  { cbn [parse_unsigned]. by apply parse_digits_val. }
  inversion H as [|? ? d Hd _]; subst.
  assert (a <> "-"%char /\ a <> "+"%char) as [Hm Hpl].
  { split; intros ->; done. }
  assert (parse_i64 (String a s) =
    match parse_unsigned (String a s) with Some n => checked_i64 n | None => None end) as ->.
  { clear Hp H Hd. destruct a as [[] [] [] [] [] [] [] []]; try done;
      by (contradict Hm || contradict Hpl). }
  by rewrite Hp.
Qed.

Lemma zero_pad_nonempty w s : s <> EmptyString -> zero_pad w s <> EmptyString.
Proof. unfold zero_pad. destruct (zeros _); cbn; [done|congruence]. Qed.

Lemma parse_i64_neg s :
  all_digits s -> s <> EmptyString ->
  parse_i64 (String "-" s) = checked_i64 (- val_of s 0).
Proof.
  intros H Hne. cbn. destruct s; [done|]. cbn [parse_unsigned].
  by rewrite parse_digits_val.
Qed.

(** ** Reading a decimal string back

    [decimal_value] is the reference reading: an optional sign, digits with at
    most one point, as the number without the point and the count of digits
    after it.  It is independent of the way [format_minor] lays digits out. *)

Fixpoint dec_scan (s : string) (acc : Z) (frac : option nat) : option (Z * nat) :=
  match s with
  | EmptyString => Some (acc, default 0%nat frac)
  | String a s =>
      match digit_val a with
      | Some d => dec_scan s (acc * 10 + d) (S <$> frac)
      | None =>
          if bool_decide (a = "."%char) then
            match frac with None => dec_scan s acc (Some 0%nat) | Some _ => None end
          else None
      end
  end.

Definition decimal_value (s : string) : option (Z * nat) :=
  match s with
  | String "-" s => match dec_scan s 0 None with Some (v, k) => Some (- v, k) | None => None end
  | s => dec_scan s 0 None
  end.

Lemma dec_scan_digits s r acc frac :
  all_digits s ->
  dec_scan (s +:+ r) acc frac =
  dec_scan r (val_of s acc) ((fun k => (k + String.length s)%nat) <$> frac).
Proof.
  intros H. revert acc frac. induction H as [|a s d Hd H IH]; intros acc frac; cbn.
  - f_equal. destruct frac; cbn; f_equal; lia.
  - rewrite Hd. cbn. rewrite IH. f_equal. destruct frac; cbn; f_equal; lia.
Qed.

Lemma dec_scan_all s acc frac :
  all_digits s ->
  dec_scan s acc frac =
  Some (val_of s acc, default 0%nat ((fun k => (k + String.length s)%nat) <$> frac)).
Proof. intros H. rewrite <- (append_empty_r s) at 1. by rewrite dec_scan_digits. Qed.

Lemma decimal_value_minus s :
  decimal_value (String "-" s) =
  match dec_scan s 0 None with Some (v, k) => Some (- v, k) | None => None end.
Proof. done. Qed.

Lemma decimal_value_digits s r :
  all_digits s -> s <> EmptyString -> decimal_value (s +:+ r) = dec_scan (s +:+ r) 0 None.
Proof.
  intros H Hne. destruct H as [|a s d Hd H]; [done|].
  destruct a as [[] [] [] [] [] [] [] []]; try done; by vm_compute in Hd.
Qed.

Lemma dec_scan_whole_frac w f :
  all_digits w -> all_digits f ->
  dec_scan (w +:+ "." +:+ f) 0 None = Some (val_of (w +:+ f) 0, String.length f).
Proof.
  intros Hw Hf. rewrite dec_scan_digits by done.
  cbn [dec_scan String.append fmap option_fmap option_map].
  change (digit_val ".") with (@None Z). cbn iota.
  rewrite bool_decide_eq_true_2, dec_scan_all, val_of_app by done. done.
Qed.

Lemma format_digits (minor : Z) (precision : nat) :
  in_i64 minor = true -> (0 < precision)%nat ->
  exists w f, all_digits w /\ w <> EmptyString /\ all_digits f /\
    String.length f = precision /\ val_of (w +:+ f) 0 = Z.abs minor /\
    format_minor minor precision = ((if (minor <? 0)%Z then "-" else "") +:+ w +:+ "." +:+ f)%string.
Proof.
  intros Hi Hp. apply in_i64_spec in Hi. unfold i64_min, i64_max in Hi.
  assert (0 <= Z.abs minor <= u64_max) as Hab by (unfold u64_max; lia).
  pose proof (u64_to_string_digits (Z.abs minor) ltac:(lia)) as Hd.
  pose proof (val_u64_to_string _ Hab) as Hv.
  unfold format_minor. destruct (Nat.eqb_spec precision 0); [lia|].
  case_match eqn:Hlt; bool_to_prop.
  - destruct (split_at _ _) as [w f] eqn:E.
    pose proof (split_at_length _ _ _ _ E ltac:(lia)) as Hl.
    apply split_at_app in E. exists w, f.
    rewrite <- E in Hd. apply all_digits_app_inv in Hd as [Hw Hf].
    pose proof (length_append w f) as Ha. rewrite E in Ha.
    split_and!; auto; [|lia|by rewrite E].
    intros ->. change (String.length "") with 0%nat in Hl. lia.
  - exists "0"%string, (zero_pad precision (u64_to_string (Z.abs minor))).
    split_and!; try done.
    + econstructor; [done|constructor].
    + by apply zero_pad_digits.
    + by apply length_zero_pad.
    + rewrite val_of_app. cbn. by rewrite val_zero_pad.
Qed.

Lemma i64_to_string_value z :
  in_i64 z = true -> decimal_value (i64_to_string z) = Some (z, 0%nat).
Proof.
  intros Hi%in_i64_spec. unfold i64_min, i64_max in Hi. unfold i64_to_string.
  assert (forall n, 0 <= n <= u64_max ->
    dec_scan (u64_to_string n) 0 None = Some (n, 0%nat)) as Hs.
  { intros n Hn.
    rewrite dec_scan_all, val_u64_to_string by (done || apply u64_to_string_digits; lia). done. }
  unfold u64_max in *. case_match; bool_to_prop.
  - rewrite decimal_value_minus, Hs by lia. do 2 f_equal. lia.
  - rewrite <- (append_empty_r (u64_to_string z)), decimal_value_digits, append_empty_r.
    + apply Hs. lia.
    + apply u64_to_string_digits. lia.
    + apply digits_of_nonempty.
Qed.

(** ** Properties *)

(** The decimal rendering reads back as exactly the minor units, with
    exactly [precision] digits after the point. *)
Theorem format_minor_value (minor : Z) (precision : nat) :
  in_i64 minor = true ->
  decimal_value (format_minor minor precision) = Some (minor, precision).
Proof.
  intros Hi. destruct precision as [|p]; [by apply i64_to_string_value|].
  destruct (format_digits minor (S p) Hi ltac:(lia)) as (w & f & Hw & Hne & Hf & Hl & Hv & ->).
  case_match; bool_to_prop.
  - change ("-" +:+ w +:+ "." +:+ f)%string with (String "-" (w +:+ "." +:+ f))%string.
    rewrite decimal_value_minus, dec_scan_whole_frac by done. rewrite Hv, Hl. do 2 f_equal. lia.
  - change ("" +:+ w +:+ "." +:+ f)%string with (w +:+ "." +:+ f)%string.
    rewrite decimal_value_digits, dec_scan_whole_frac by done. rewrite Hv, Hl. do 2 f_equal. lia.
Qed.

Lemma format_minor_value_witness :
  in_i64 (-9223372036854775808) = true /\
  decimal_value (format_minor (-9223372036854775808) 2) = Some (-9223372036854775808, 2%nat).
Proof. split; [done|]. apply (format_minor_value (-9223372036854775808) 2). done. Defined.

Lemma u64_to_string_nonempty n : u64_to_string n <> EmptyString.
Proof. apply digits_of_nonempty. Qed.

#[export] Hint Resolve zero_pad_digits u64_to_string_digits zero_pad_nonempty
  u64_to_string_nonempty : talea.

Lemma parse_i64_zero_padded width z :
  in_i64 z = true -> parse_i64 (i64_zero_padded width z) = Some z.
Proof.
  intros Hi. pose proof Hi as Hr%in_i64_spec. unfold i64_zero_padded.
  assert (checked_i64 z = Some z) as Hc by (unfold checked_i64; by rewrite Hi).
  unfold i64_min, i64_max in Hr.
  case_match; bool_to_prop.
  - rewrite parse_i64_neg by (apply zero_pad_digits || apply zero_pad_nonempty; auto with talea lia).
    rewrite val_zero_pad, val_u64_to_string by (unfold u64_max; lia).
    by rewrite Z.opp_involutive.
  - rewrite parse_i64_digits by (apply zero_pad_digits || apply zero_pad_nonempty; auto with talea lia).
    by rewrite val_zero_pad, val_u64_to_string by (unfold u64_max; lia).
Qed.

Example format_minor_examples :
  format_minor 150000 2 = "1500.00"%string /\ format_minor 150000 8 = "0.00150000"%string /\
  format_minor (-1500) 2 = "-15.00"%string /\ format_minor 100 3 = "0.100"%string /\
  format_minor 0 2 = "0.00"%string /\ format_minor (-42) 0 = "-42"%string /\
  format_minor i64_min 2 = "-92233720368547758.08"%string.
Proof. vm_compute. repeat split. Qed.

(** ** [strip_prefix] and [strip_suffix] *)

Fixpoint strip_prefix (p s : string) : option string :=
  match p, s with
  | EmptyString, s => Some s
  | String a p, String b s => if bool_decide (a = b) then strip_prefix p s else None
  | String _ _, EmptyString => None
  end.

Definition strip_suffix (p s : string) : option string :=
  let '(l, r) := split_at (String.length s - String.length p) s in
  if String.eqb r p then Some l else None.

Lemma strip_prefix_app p s : strip_prefix p (p +:+ s) = Some s.
Proof. induction p as [|a p IH]; cbn; [done|]. by rewrite bool_decide_eq_true_2. Qed.

Lemma split_at_exact l r : split_at (String.length l) (l +:+ r) = (l, r).
Proof. induction l as [|a l IH]; cbn; [by destruct r|]. by rewrite IH. Qed.

Lemma strip_suffix_app p s : strip_suffix p (s +:+ p) = Some s.
Proof.
  unfold strip_suffix. rewrite length_append.
  replace (String.length s + String.length p - String.length p)%nat with (String.length s) by lia.
  by rewrite split_at_exact, String.eqb_refl.
Qed.

Lemma strip_prefix_Some p s r : strip_prefix p s = Some r -> s = p +:+ r.
Proof.
  revert s. induction p as [|a p IH]; intros [|b s] H; cbn in *; simplify_eq; try done.
  case_bool_decide; [|done]. subst. f_equal. by apply IH.
Qed.

Lemma strip_suffix_Some p s r : strip_suffix p s = Some r -> s = r +:+ p.
Proof.
  unfold strip_suffix. destruct (split_at _ s) as [l t] eqn:E. apply split_at_app in E.
  case_match; [|done]. intros [= ->]. bool_to_prop. by subst.
Qed.

Lemma append_inj_2 (a b c d : string) :
  a +:+ b = c +:+ d -> String.length b = String.length d -> a = c /\ b = d.
Proof.
  intros E Hl. pose proof (f_equal String.length E) as El. rewrite !length_append in El.
  pose proof (f_equal (split_at (String.length a)) E) as Es.
  rewrite split_at_exact in Es. replace (String.length a) with (String.length c) in Es by lia.
  rewrite split_at_exact in Es. by injection Es.
Qed.

Lemma append_assoc (a b c : string) : (a +:+ b) +:+ c = a +:+ b +:+ c.
Proof. induction a as [|x a IH]; cbn; congruence. Qed.

Lemma parse_u64_digits s :
  all_digits s -> s <> EmptyString -> val_of s 0 <= u64_max -> parse_u64 s = Some (val_of s 0).
Proof.
  intros H Hne Hr. unfold parse_u64.
  assert (match s with String "+" s0 => s0 | s0 => s0 end = s) as ->.
  { destruct H as [|a s d Hd H]; [done|].
    destruct a as [[] [] [] [] [] [] [] []]; try done; by vm_compute in Hd. }
  destruct s as [|a s]; [done|]. cbn [parse_unsigned]. rewrite parse_digits_val by done.
  unfold u64_max in Hr. rewrite (proj2 (Z.ltb_lt _ _)); [done|].
  change (2 ^ 64) with 18446744073709551616. lia.
Qed.

Lemma parse_u64_zero_padded w n :
  0 <= n <= u64_max -> parse_u64 (zero_pad w (u64_to_string n)) = Some n.
Proof.
  intros Hn. rewrite parse_u64_digits, val_zero_pad, val_u64_to_string; auto with talea.
  - apply zero_pad_digits, u64_to_string_digits. lia.
  - rewrite val_zero_pad, val_u64_to_string; lia.
Qed.

Lemma digit_val_nonneg a d : digit_val a = Some d -> 0 <= d.
Proof. unfold digit_val. cbn zeta. case_match; [|done]. intros [= <-]. bool_to_prop. lia. Qed.

Lemma parse_digits_nonneg s acc n : 0 <= acc -> parse_digits s acc = Some n -> 0 <= n.
Proof.
  revert acc. induction s as [|a s IH]; intros acc Ha; cbn; [by intros [= <-]|].
  destruct (digit_val a) as [d|] eqn:E; [|done]. apply digit_val_nonneg in E. apply IH. lia.
Qed.

Lemma parse_unsigned_nonneg s n : parse_unsigned s = Some n -> 0 <= n.
Proof. destruct s; [done|]. by apply parse_digits_nonneg. Qed.

Lemma parse_u64_nonneg s n : parse_u64 s = Some n -> 0 <= n.
Proof.
  unfold parse_u64. cbn zeta. intros Hp.
  destruct (parse_unsigned _) as [k|] eqn:E; [|done].
  destruct (k <? 2 ^ 64); [|done]. injection Hp as <-. by apply parse_unsigned_nonneg in E.
Qed.
