(* ===== verification/Assoc.v ===== *)
(** Slices of key/value pairs: the stable sort, the adjacent deduplication and
    the binary search the idempotency runs and the row lists use, related to
    plain association-list lookup. *)

From S2P Require Import Prelude.
From stdpp Require Import sorting.

Section pairs.
Context {V : Type}.
Implicit Types (l : list (string * V)) (k : string) (v : V).

(** [sort_by(|a, b| a.0.cmp(&b.0))]: a stable sort by key. *)
Definition sort_by_key l : list (string * V) := sort_by (fun x y => String.leb x.1 y.1) l.

(** [dedup_by(|a, b| a.0 == b.0)]: drop an element whose key is the key of
    the element kept just before it. *)
Fixpoint dedup_go (prev : string) l : list (string * V) :=
  match l with
  | [] => []
  | x :: l => if String.eqb x.1 prev then dedup_go prev l else x :: dedup_go x.1 l
  end.

Definition dedup_by_key l : list (string * V) :=
  match l with [] => [] | x :: l => x :: dedup_go x.1 l end.

(** [binary_search_by(|(k, _)| k.cmp(key))], then the value found. *)
Definition search_by_key k l : option V :=
  match binary_search_by (fun x => String.compare x.1 k) l with
  | Ok i => snd <$> (l !! i)
  | Err _ => None
  end.

(** The reference lookup. *)
Fixpoint find_key k l : option V :=
  match l with
  | [] => None
  | x :: l => if String.eqb x.1 k then Some x.2 else find_key k l
  end.

Definition keys l : list string := map fst l.

Definition key_le (x y : string * V) : Prop := String.le x.1 y.1.

Definition sorted_keys l : Prop := StronglySorted key_le l /\ NoDup (keys l).

Lemma sort_by_key_perm l : sort_by_key l ≡ₚ l.
Proof. apply sort_by_perm. Qed.

Lemma le_leb (a b : string) : String.le a b <-> (String.leb a b = true).
Proof. unfold String.le. by destruct (String.leb a b). Qed.

Lemma sort_by_key_sorted l : StronglySorted key_le (sort_by_key l).
Proof.
  pose proof (sort_by_sorted (fun x y : string * V => String.leb x.1 y.1)) as H.
  assert (StronglySorted (fun a b : string * V => String.leb a.1 b.1 = true) (sort_by_key l)) as Hs.
  { apply H.
    - intros x y. cbn. apply String.leb_total.
    - intros x y z. cbn. rewrite <- !le_leb. intros ??. by transitivity y.1. }
  clear H. induction Hs as [|x l' Hs IH Hx]; constructor; [done|].
  eapply Forall_impl; [done|]. intros y. unfold key_le. cbn. apply le_leb.
Qed.

Lemma sort_sorted_keys l : NoDup (keys l) -> sorted_keys (sort_by_key l).
Proof.
  intros H. split; [apply sort_by_key_sorted|]. unfold keys. by rewrite sort_by_key_perm.
Qed.

Lemma find_key_elem k v l : NoDup (keys l) -> find_key k l = Some v <-> (k, v) ∈ l.
Proof.
  induction l as [|[k' v'] l IH]; cbn; intros Hnd.
  - split; [done|]. by intros ?%elem_of_nil.
  - apply NoDup_cons in Hnd as [Hk Hnd]. rewrite elem_of_cons.
    destruct (String.eqb k' k) eqn:E; bool_to_prop; subst.
    + split; [intros [= ->]; by left|]. intros [[= ->]|Hin]; [done|].
      exfalso. apply Hk. unfold keys. change k with (k, v).1. by apply list_elem_of_fmap_2.
    + rewrite IH by done. split; [by right|]. intros [[= -> ->]|Hin]; [done|done].
Qed.

Lemma find_key_perm k l l' : l ≡ₚ l' -> NoDup (keys l) -> find_key k l = find_key k l'.
Proof.
  intros Hp Hnd. assert (NoDup (keys l')) as Hnd' by (unfold keys in *; by rewrite <- Hp).
  apply option_eq. intros v. rewrite !find_key_elem by done. by rewrite Hp.
Qed.

Lemma find_key_app k l l' :
  find_key k (l ++ l') = match find_key k l with Some v => Some v | None => find_key k l' end.
Proof. induction l as [|x l IH]; cbn; [done|]. by destruct (String.eqb x.1 k). Qed.

Lemma find_key_None k l : find_key k l = None <-> k ∉ keys l.
Proof.
  induction l as [|[k' v'] l IH]; cbn.
  - split; [intros _; apply not_elem_of_nil|done].
  - rewrite not_elem_of_cons. destruct (String.eqb k' k) eqn:E; bool_to_prop; subst.
    + split; [done|]. by intros [? _].
    + rewrite IH. split; [by split; [congruence|]|by intros [_ ?]].
Qed.

Lemma find_key_sort k l : NoDup (keys l) -> find_key k (sort_by_key l) = find_key k l.
Proof.
  intros H. symmetry. apply find_key_perm; [by rewrite sort_by_key_perm|done].
Qed.

Lemma dedup_go_NoDup prev l : NoDup (prev :: keys l) -> dedup_go prev l = l.
Proof.
  revert prev. induction l as [|x l IH]; intros prev H; cbn; [done|].
  apply NoDup_cons in H as [Hp H]. cbn in *. apply not_elem_of_cons in Hp as [Hp _].
  destruct (String.eqb x.1 prev) eqn:E; bool_to_prop; [congruence|]. f_equal. by apply IH.
Qed.

(** Distinct keys: the deduplication removes nothing. *)
Lemma dedup_by_key_NoDup l : NoDup (keys l) -> dedup_by_key l = l.
Proof. destruct l as [|x l]; cbn; intros; [done|]. f_equal. by apply dedup_go_NoDup. Qed.

Lemma dedup_go_spec prev l :
  StronglySorted key_le l -> Forall (fun x => String.le prev x.1) l ->
  prev ∉ keys (dedup_go prev l) /\ sorted_keys (dedup_go prev l) /\
  dedup_go prev l ⊆ l /\ (forall k, k ∈ keys l -> k = prev \/ k ∈ keys (dedup_go prev l)).
Proof.
  intros Hs. revert prev. induction Hs as [|x l Hs IH Hx]; intros prev Hp; cbn [dedup_go].
  - split_and!; [apply not_elem_of_nil|split; constructor|done|by intros k ?%elem_of_nil].
  - apply Forall_cons in Hp as [Hpx Hp]. destruct (String.eqb x.1 prev) eqn:E; bool_to_prop.
    + destruct (IH prev Hp) as (Hn & Hsk & Hsub & Hk). split_and!; [done..| |].
      * set_solver.
      * cbn. intros k [->|Hin]%elem_of_cons; [by left|auto].
    + destruct (IH x.1 Hx) as (Hn & [Hss Hnd] & Hsub & Hk). cbn. split_and!.
      * intros [->|Hin]%elem_of_cons; [done|].
        apply list_elem_of_fmap in Hin as (y & -> & Hy). apply E.
        rewrite Forall_forall in Hx. specialize (Hx y (Hsub y Hy)). by apply (anti_symm String.le).
      * split; [|by constructor]. constructor; [done|].
        rewrite Forall_forall in Hx |- *. intros y Hy. by apply Hx, Hsub.
      * set_solver.
      * intros k [->|Hin]%elem_of_cons; [right; by left|].
        destruct (Hk k Hin) as [->|?]; right; [by left|by right].
Qed.

(** On a sorted slice the deduplication leaves one pair per key. *)
Lemma dedup_by_key_spec l :
  StronglySorted key_le l ->
  sorted_keys (dedup_by_key l) /\ dedup_by_key l ⊆ l /\
  (forall k, k ∈ keys l -> k ∈ keys (dedup_by_key l)).
Proof.
  intros Hs. destruct Hs as [|x l Hs Hx]; [by split_and!; [split; constructor|..]|]. cbn.
  destruct (dedup_go_spec x.1 l Hs Hx) as (Hn & [Hss Hnd] & Hsub & Hk). split_and!.
  - split; [|by constructor]. constructor; [done|].
    rewrite Forall_forall in Hx |- *. intros y Hy. by apply Hx, Hsub.
  - set_solver.
  - intros k [->|Hin]%elem_of_cons; [by left|].
    destruct (Hk k Hin) as [->|?]; [by left|by right].
Qed.

Lemma elem_of_keys k l : k ∈ keys l <-> exists v, (k, v) ∈ l.
Proof.
  unfold keys. split.
  - intros ([k' v] & -> & Hin)%list_elem_of_fmap. by exists v.
  - intros [v Hin]. apply (list_elem_of_fmap_2 fst _ _ Hin).
Qed.

Lemma compare_Lt_le a b : String.compare a b = Lt -> String.le a b.
Proof. unfold String.le, String.leb. by intros ->. Qed.

Lemma le_compare a b : String.le a b -> String.compare a b <> Gt.
Proof. unfold String.le, String.leb. by destruct (String.compare a b). Qed.

Lemma compare_refl a : String.compare a a = Eq.
Proof. pose proof (String.compare_antisym a a) as H. by destruct (String.compare a a). Qed.

Lemma search_cut k l :
  StronglySorted key_le l ->
  monotone_cut (fun x => match String.compare x.1 k with Lt => true | _ => false end) l.
Proof.
  intros Hs i j x y Hi Hj Hle Hy.
  destruct (String.compare y.1 k) eqn:Ey; try done.
  assert (String.le x.1 y.1) as Hxy.
  { destruct (decide (i = j)) as [->|]; [by simplify_eq|].
    eapply (StronglySorted_app_1_elem_of key_le (take j l) (drop j l)).
    - by rewrite take_drop.
    - eapply list_elem_of_lookup_2. rewrite lookup_take_lt; [done|lia].
    - eapply (list_elem_of_lookup_2 _ 0). rewrite lookup_drop. by rewrite Nat.add_0_r. }
  destruct (String.compare x.1 k) eqn:Ex; [|done|].
  - apply String.compare_eq_iff in Ex as <-.
    apply le_compare in Hxy. rewrite String.compare_antisym, Ey in Hxy. done.
  - pose proof (compare_Lt_le _ _ Ey) as Hyk.
    assert (String.le x.1 k) as Hxk by (by transitivity y.1).
    apply le_compare in Hxk. congruence.
Qed.

(** On a run with sorted, distinct keys the binary search is the lookup. *)
Lemma search_find k l : sorted_keys l -> search_by_key k l = find_key k l.
Proof.
  intros [Hs Hnd]. unfold search_by_key, binary_search_by.
  rewrite partition_point_prefix by (by apply search_cut). cbn zeta. clear Hnd.
  induction Hs as [|x l Hs IH Hx]; [done|]. cbn [prefix_len find_key].
  destruct (String.compare x.1 k) eqn:Ex; cbn.
  - rewrite Ex. apply String.compare_eq_iff in Ex. rewrite Ex, String.eqb_refl. done.
  - assert (String.eqb x.1 k = false) as ->.
    { apply String.eqb_neq. intros E. rewrite E, compare_refl in Ex. done. }
    rewrite <- IH. set (n := prefix_len _ l). cbn [lookup list_lookup].
    destruct (l !! n) as [y|]; [|reflexivity].
    destruct (String.compare y.1 k); reflexivity.
  - rewrite Ex. assert (String.eqb x.1 k = false) as ->.
    { apply String.eqb_neq. intros E. rewrite E, compare_refl in Ex. done. }
    symmetry. apply find_key_None. unfold keys. intros Hin.
    apply list_elem_of_fmap in Hin as (y & -> & Hy).
    rewrite Forall_forall in Hx. specialize (Hx y Hy). unfold key_le in Hx.
    apply le_compare in Hx. done.
Qed.
End pairs.

#[export] Hint Resolve sort_sorted_keys sort_by_key_sorted : talea.
