(* ===== verification/Bloom.v ===== *)
(** The Bloom filter of talea-store-log/src/idem_spill.rs: a bit array of u64
    words and four probe positions by double hashing.  The two seeded
    [DefaultHasher] hashes are parameters: the filter's guarantee does not
    depend on what they are, only on their being functions of the key. *)

From S2P Require Import Prelude.
Open Scope Z_scope.

Class KeyHashes := { hash1 : string -> Z; hash2 : string -> Z }.

Definition BLOOM_K : nat := 4.

Record Bloom := mkBloom { bits : list Z; m : Z }.

(** [usize::div_ceil] *)
Definition div_ceil (a b : Z) : Z := (a + b - 1) / b.

Definition Bloom_new (expected_n : Z) : Bloom :=
  let n := Z.max expected_n 1 in
  let m_bits := 10 * n in
  let words := div_ceil m_bits 64 in
  mkBloom (replicate (Z.to_nat words) 0) (words * 64).

Definition Bloom_default : Bloom := Bloom_new 1.

Section bloom.
Context {H : KeyHashes}.

Definition wrap_u64 (x : Z) : Z := x mod 2 ^ 64.

(** [h1.wrapping_add(i.wrapping_mul(h2)) % m], for i in 0..4 *)
Definition hashes (b : Bloom) (key : string) : list Z :=
  map (fun i => wrap_u64 (hash1 key + wrap_u64 (Z.of_nat i * hash2 key)) mod m b)
    (seq 0 BLOOM_K).

Definition set_bit (ws : list Z) (bit : Z) : list Z :=
  let w := Z.to_nat (bit / 64) in
  match ws !! w with
  | Some x => <[w := Z.lor x (Z.shiftl 1 (bit mod 64))]> ws
  | None => ws
  end.

Definition get_bit (ws : list Z) (bit : Z) : bool :=
  match ws !! Z.to_nat (bit / 64) with
  | Some x => Z.land (Z.shiftr x (bit mod 64)) 1 =? 1
  | None => false
  end.

Definition insert (b : Bloom) (key : string) : Bloom :=
  mkBloom (foldl set_bit (bits b) (hashes b key)) (m b).

Definition might_contain (b : Bloom) (key : string) : bool :=
  forallb (get_bit (bits b)) (hashes b key).

(** [m] is the number of bits, and there is at least one word: the index
    expressions of [insert] and [might_contain] are in bounds. *)
Definition bloom_wf (b : Bloom) : Prop :=
  m b = 64 * Z.of_nat (length (bits b)) /\ 0 < m b.

Lemma Bloom_new_wf n : bloom_wf (Bloom_new n).
Proof.
  unfold bloom_wf, Bloom_new, div_ceil. cbn [m bits]. rewrite length_replicate.
  pose proof (Z.div_le_mono 64 (10 * Z.max n 1 + 64 - 1) 64 ltac:(lia) ltac:(lia)) as Hd.
  change (64 / 64) with 1 in Hd. rewrite Z2Nat.id by lia. lia.
Qed.

Lemma length_set_bit ws bit : length (set_bit ws bit) = length ws.
Proof. unfold set_bit. case_match; [apply length_insert|done]. Qed.

Lemma length_set_bits ws bs : length (foldl set_bit ws bs) = length ws.
Proof. revert ws. induction bs as [|x bs IH]; intros ws; cbn; [done|]. by rewrite IH, length_set_bit. Qed.

Lemma insert_wf b key : bloom_wf b -> bloom_wf (insert b key).
Proof. unfold bloom_wf, insert. cbn [bits m]. by rewrite length_set_bits. Qed.

Lemma get_bit_testbit ws bit :
  0 <= bit -> get_bit ws bit =
  match ws !! Z.to_nat (bit / 64) with Some x => Z.testbit x (bit mod 64) | None => false end.
Proof.
  intros Hb. unfold get_bit. case_match; [|done].
  change 1 with (Z.ones 1) at 1. rewrite Z.land_ones by lia. change (2 ^ 1) with 2.
  rewrite <- Z.bit0_mod, Z.shiftr_spec by lia. cbn. by destruct (Z.testbit _ _).
Qed.

Lemma set_bit_same ws bit :
  0 <= bit < 64 * Z.of_nat (length ws) -> get_bit (set_bit ws bit) bit = true.
Proof.
  intros Hb. rewrite get_bit_testbit by lia. unfold set_bit.
  assert (Z.to_nat (bit / 64) < length ws)%nat as Hlt.
  { apply Nat2Z.inj_lt. rewrite Z2Nat.id by (apply Z.div_pos; lia).
    apply Z.div_lt_upper_bound; lia. }
  destruct (lookup_lt_is_Some_2 ws _ Hlt) as [x Hx]. rewrite Hx.
  rewrite list_lookup_insert_eq by done.
  pose proof (Z.mod_pos_bound bit 64 ltac:(lia)).
  rewrite Z.lor_spec, Z.shiftl_spec by lia. rewrite Z.sub_diag. apply orb_true_r.
Qed.

Lemma set_bit_mono ws b1 b2 :
  0 <= b1 -> 0 <= b2 -> get_bit ws b1 = true -> get_bit (set_bit ws b2) b1 = true.
Proof.
  intros H1 H2. rewrite !get_bit_testbit by lia. unfold set_bit.
  destruct (ws !! Z.to_nat (b2 / 64)) as [x|] eqn:E; [|done].
  destruct (decide (Z.to_nat (b1 / 64) = Z.to_nat (b2 / 64))) as [Heq|Hne].
  - rewrite Heq, E, list_lookup_insert_eq by (by eapply lookup_lt_Some).
    intros Ht. by rewrite Z.lor_spec, Ht.
  - by rewrite list_lookup_insert_ne by done.
Qed.

Lemma set_bits_mono ws bs b1 :
  0 <= b1 -> Forall (fun b => 0 <= b) bs -> get_bit ws b1 = true ->
  get_bit (foldl set_bit ws bs) b1 = true.
Proof.
  intros H1 Hbs. revert ws. induction Hbs as [|b bs Hb _ IH]; intros ws Hg; cbn; [done|].
  by apply IH, set_bit_mono.
Qed.

Lemma hashes_range b key : bloom_wf b -> Forall (fun x => 0 <= x < m b) (hashes b key).
Proof.
  intros [_ Hm]. unfold hashes. apply Forall_fmap, Forall_forall. intros i _. cbn.
  apply Z.mod_pos_bound. done.
Qed.

Lemma forallb_elem {A} (f : A -> bool) l : forallb f l = true <-> Forall (fun x => f x = true) l.
Proof.
  rewrite forallb_forall, Forall_forall. by setoid_rewrite list_elem_of_In.
Qed.

Lemma might_contain_spec b key :
  might_contain b key = true <-> Forall (fun x => get_bit (bits b) x = true) (hashes b key).
Proof. apply forallb_elem. Qed.

Lemma hashes_insert b key key' : hashes (insert b key') key = hashes b key.
Proof. done. Qed.

Lemma insert_contains b key : bloom_wf b -> might_contain (insert b key) key = true.
Proof.
  intros Hwf. pose proof (hashes_range b key Hwf) as Hr. destruct Hwf as [Hm _].
  apply might_contain_spec. rewrite hashes_insert. unfold insert. cbn [bits].
  rewrite Hm in Hr. revert Hr. generalize (hashes b key) as bs. intros bs Hr.
  apply Forall_forall. intros x (l1 & l2 & ->)%list_elem_of_split. rewrite foldl_app.
  apply Forall_app in Hr as [_ [Hx Hr]%Forall_cons]. cbn [foldl].
  apply set_bits_mono; [lia| |].
  - eapply Forall_impl; [done|]. cbn. lia.
  - apply set_bit_same. by rewrite length_set_bits.
Qed.

Lemma insert_mono b key key' :
  bloom_wf b -> might_contain b key = true -> might_contain (insert b key') key = true.
Proof.
  intros Hwf. pose proof (hashes_range b key Hwf) as Hr. pose proof (hashes_range b key' Hwf) as Hr'.
  rewrite !might_contain_spec, hashes_insert. unfold insert. cbn [bits].
  rewrite !Forall_forall in *. intros Hc x Hx.
  apply set_bits_mono; [by apply Hr| |by apply Hc].
  apply Forall_forall. intros y Hy. by apply Hr'.
Qed.

Definition insert_all (b : Bloom) (ks : list string) : Bloom := foldl insert b ks.

Lemma insert_all_wf b ks : bloom_wf b -> bloom_wf (insert_all b ks).
Proof. revert b. induction ks; cbn [insert_all foldl]; eauto using insert_wf. Qed.

Lemma insert_all_mono b ks key :
  bloom_wf b -> might_contain b key = true -> might_contain (insert_all b ks) key = true.
Proof. revert b. induction ks; cbn [insert_all foldl]; eauto using insert_wf, insert_mono. Qed.

(** A key that was inserted is never reported absent, whatever else was
    inserted before and after it. *)
Lemma insert_all_contains b ks key :
  bloom_wf b -> key ∈ ks -> might_contain (insert_all b ks) key = true.
Proof.
  intros Hwf (l1 & l2 & ->)%list_elem_of_split. unfold insert_all. rewrite foldl_app. cbn [foldl].
  apply insert_all_mono; [by apply insert_wf, insert_all_wf|].
  by apply insert_contains, insert_all_wf.
Qed.
End bloom.
