(* ===== verification/Core.v ===== *)
(** The ledger's domain types and store contract types: talea-core/src/types,
    talea-core/src/events.rs and the data of talea-core/src/store.rs.

    Newtypes over [String] ([Book], [AssetId], [Network], [IdempotencyKey]) and
    [Uuid] ([TxId]) are transparent: the code uses them only through equality,
    hashing and their text.  A timestamp is an integer instant (the code uses
    the order of [DateTime<Utc>] only), a [Uuid] an integer of 128 bits, and a
    [serde_json::Value] its JSON text, which no modelled operation inspects. *)

From S2P Require Import Prelude.
Open Scope Z_scope.

Abbreviation Seq := Z (only parsing).
Abbreviation DateTime := Z (only parsing).
Abbreviation Uuid := Z (only parsing).
Abbreviation TxId := Z (only parsing).
Abbreviation Book := string (only parsing).
Abbreviation AssetId := string (only parsing).
Abbreviation Network := string (only parsing).
Abbreviation IdempotencyKey := string (only parsing).
Abbreviation JsonValue := string (only parsing).

(** ** Assets (types/assets.rs) *)

Inductive AssetClass :=
| Fiat
| Crypto (network : Network) (native_id : option string).

Record AssetDef := mkAssetDef {
  asset_id : AssetId;
  asset_class : AssetClass;
  asset_precision : Z;  (* u8 *)
  asset_name : string
}.

Record Amount := mkAmount { minor : Z; amount_asset : AssetId }.

Definition Amount_new (m : Z) (a : AssetId) : Amount := mkAmount m a.

(** ** Postings and transactions (types/transactions.rs) *)

Inductive Direction := Debit | Credit.

Definition Direction_as_str (d : Direction) : string :=
  match d with Debit => "D" | Credit => "C" end.

Definition Direction_from_db (s : string) : option Direction :=
  if String.eqb s "D" then Some Debit
  else if String.eqb s "C" then Some Credit
  else None.

Record ExternalRef := mkExternalRef { ref_kind : string; ref_value : string }.

(** ** Accounts (types/accounts.rs) *)

Record AccountId := mkAccountId { acct_book : Book; acct_path : string }.

Inductive AccountKind := Asset | Liability | Income | Expense | Equity | Clearing.

Record AccountDef := mkAccountDef {
  acct_id : AccountId;
  acct_asset : AssetId;
  acct_kind : AccountKind
}.

Definition AccountKind_normal_side (k : AccountKind) : option Direction :=
  match k with
  | Asset | Expense => Some Debit
  | Liability | Income | Equity => Some Credit
  | Clearing => None
  end.

Definition AccountKind_as_str (k : AccountKind) : string :=
  match k with
  | Asset => "asset"
  | Liability => "liability"
  | Income => "income"
  | Expense => "expense"
  | Equity => "equity"
  | Clearing => "clearing"
  end.

Definition AccountKind_from_db (s : string) : option AccountKind :=
  if String.eqb s "asset" then Some Asset
  else if String.eqb s "liability" then Some Liability
  else if String.eqb s "income" then Some Income
  else if String.eqb s "expense" then Some Expense
  else if String.eqb s "equity" then Some Equity
  else if String.eqb s "clearing" then Some Clearing
  else None.

(** [str::starts_with] on one ASCII character. *)
Definition starts_with_char (c : ascii) (s : string) : bool :=
  match s with String a _ => bool_decide (a = c) | EmptyString => false end.

(** [Book::is_reserved] *)
Definition is_reserved (b : Book) : bool := starts_with_char "_" b.

(** The book half of [AccountId::to_key]: ':' and the backslash are escaped.
    Both are ASCII, so escaping characters and escaping bytes agree. *)
Fixpoint escape_book (s : string) : string :=
  match s with
  | EmptyString => EmptyString
  | String c s =>
      if bool_decide (c = ":"%char) || bool_decide (c = "\"%char)
      then String "\" (String c (escape_book s))
      else String c (escape_book s)
  end.

Definition to_key (a : AccountId) : string :=
  escape_book (acct_book a) +:+ ":" +:+ acct_path a.

Record Posting := mkPosting {
  p_account : AccountId;
  p_amount : Amount;
  p_direction : Direction
}.

Record Transaction := mkTransaction {
  tx_id : TxId;
  tx_book : Book;
  tx_postings : list Posting;
  tx_idem : IdempotencyKey;
  tx_external_refs : list ExternalRef;
  tx_metadata : JsonValue;
  tx_occurred_at : DateTime
}.

(** ** Store contract types (store.rs) *)

Definition SYSTEM_BOOK : string := "_system".

Definition system_book : Book := SYSTEM_BOOK.

Record AccountCfg := mkAccountCfg {
  normal_side : option Direction;
  min_balance : option Z
}.

Record Committed := mkCommitted {
  c_txid : TxId;
  c_seq : Seq;
  c_at : DateTime
}.

Record BalanceSnapshot := mkBalanceSnapshot {
  bs_amount : Amount;
  bs_updated_seq : Seq
}.

Record PostingRecord := mkPostingRecord {
  pr_seq : Seq;
  pr_txid : TxId;
  pr_account : AccountId;
  pr_amount : Amount;
  pr_direction : Direction;
  pr_at : DateTime
}.

Record StoredTransaction := mkStoredTransaction {
  st_transaction : Transaction;
  st_seq : Seq;
  st_at : DateTime
}.

Record TrialBalanceRow := mkTrialBalanceRow {
  tb_asset : AssetId;
  tb_debits : Z;
  tb_credits : Z
}.

Inductive StoreError :=
| ConstraintViolation (account : AccountId) (min_balance would_be : Z)
| UnknownAccount (account : AccountId)
| UnknownAsset (asset : AssetId)
| AssetMismatch (account : AccountId) (account_asset asset : AssetId)
| AlreadyExists (what : string)
| InvalidBook (book : Book)
| Saturated
| Io (message : string).

(** ** Events (events.rs) *)

Inductive LedgerEvent :=
| AssetRegistered (def : AssetDef)
| AccountOpened (def : AccountDef) (cfg : AccountCfg)
| TransactionPosted (tx : Transaction).

Definition LedgerEvent_kind (e : LedgerEvent) : string :=
  match e with
  | AssetRegistered _ => "asset_registered"
  | AccountOpened _ _ => "account_opened"
  | TransactionPosted _ => "transaction_posted"
  end.

Record Sequenced (T : Type) := mkSequenced {
  s_seq : Seq;
  s_at : DateTime;
  s_event : T
}.
Arguments mkSequenced {T}.
Arguments s_seq {T}.
Arguments s_at {T}.
Arguments s_event {T}.

(** ** Decidable equality *)

#[export] Instance AssetClass_eq_dec : EqDecision AssetClass.
Proof. solve_decision. Defined.
#[export] Instance AssetDef_eq_dec : EqDecision AssetDef.
Proof. solve_decision. Defined.
#[export] Instance Amount_eq_dec : EqDecision Amount.
Proof. solve_decision. Defined.
#[export] Instance Direction_eq_dec : EqDecision Direction.
Proof. solve_decision. Defined.
#[export] Instance ExternalRef_eq_dec : EqDecision ExternalRef.
Proof. solve_decision. Defined.
#[export] Instance AccountId_eq_dec : EqDecision AccountId.
Proof. solve_decision. Defined.
#[export] Instance AccountKind_eq_dec : EqDecision AccountKind.
Proof. solve_decision. Defined.
#[export] Instance AccountDef_eq_dec : EqDecision AccountDef.
Proof. solve_decision. Defined.
#[export] Instance AccountCfg_eq_dec : EqDecision AccountCfg.
Proof. solve_decision. Defined.
#[export] Instance Posting_eq_dec : EqDecision Posting.
Proof. solve_decision. Defined.
#[export] Instance Transaction_eq_dec : EqDecision Transaction.
Proof. solve_decision. Defined.
#[export] Instance Committed_eq_dec : EqDecision Committed.
Proof. solve_decision. Defined.
#[export] Instance StoreError_eq_dec : EqDecision StoreError.
Proof. solve_decision. Defined.
#[export] Instance LedgerEvent_eq_dec : EqDecision LedgerEvent.
Proof. solve_decision. Defined.

(** ** Signed amounts *)

(** The debit-positive effect of a posting. *)
Definition signed (d : Direction) (m : Z) : Z :=
  match d with Debit => m | Credit => - m end.

Definition posting_signed (p : Posting) : Z :=
  signed (p_direction p) (minor (p_amount p)).

(** [checked_add] or [checked_sub] of an amount, by the posting's side. *)
Definition checked_apply (d : Direction) (raw m : Z) : option Z :=
  match d with Debit => checked_add raw m | Credit => checked_sub raw m end.

Lemma checked_apply_Some d raw m r :
  checked_apply d raw m = Some r <-> r = raw + signed d m /\ i64_min <= raw + signed d m <= i64_max.
Proof.
  destruct d; cbn; unfold checked_add, checked_sub; rewrite checked_i64_Some; [done|].
  by rewrite Z.add_opp_r.
Qed.

Lemma checked_apply_None d raw m :
  checked_apply d raw m = None <-> ~ (i64_min <= raw + signed d m <= i64_max).
Proof.
  destruct d; cbn; unfold checked_add, checked_sub; rewrite checked_i64_None; [done|].
  by rewrite Z.add_opp_r.
Qed.

(** ** The key is injective

    [split_key] reads a key back up to the first unescaped separator. *)

Fixpoint split_key (s : string) : option (string * string) :=
  match s with
  | EmptyString => None
  | String c s =>
      if bool_decide (c = ":"%char) then Some (EmptyString, s)
      else if bool_decide (c = "\"%char) then
        match s with
        | String d s =>
            match split_key s with Some (b, p) => Some (String d b, p) | None => None end
        | EmptyString => None
        end
      else match split_key s with Some (b, p) => Some (String c b, p) | None => None end
  end.

Lemma split_key_escape b p : split_key (escape_book b +:+ ":" +:+ p) = Some (b, p).
Proof.
  induction b as [|c b IH]; [done|]. cbn [escape_book].
  case_bool_decide as H1; case_bool_decide as H2; subst; cbn in *; rewrite ?IH; try done.
  rewrite bool_decide_eq_false_2, bool_decide_eq_false_2 by done. done.
Qed.

Lemma split_key_to_key a : split_key (to_key a) = Some (acct_book a, acct_path a).
Proof. apply split_key_escape. Qed.

(** Distinct accounts have distinct keys, whatever characters the
    book and the path hold. *)
Theorem to_key_injective (a b : AccountId) : to_key a = to_key b <-> a = b.
Proof.
  split; [|by intros ->]. intros H.
  pose proof (split_key_to_key a) as Ha. rewrite H, split_key_to_key in Ha.
  destruct a, b. cbn in *. congruence.
Qed.

(** Books without ':' and '\' keep the plain [book:path] key. *)
Fixpoint plain_book (s : string) : bool :=
  match s with
  | EmptyString => true
  | String c s =>
      negb (bool_decide (c = ":"%char) || bool_decide (c = "\"%char)) && plain_book s
  end.

Lemma escape_plain s : plain_book s = true -> escape_book s = s.
Proof.
  induction s as [|c s IH]; cbn; [done|]. intros H%andb_true_iff. destruct H as [Hc Hs].
  destruct (_ || _); [done|]. by rewrite IH.
Qed.

(** The database codes of directions and account kinds
    read back, and every accepted code is the code of its value. *)
Theorem db_codes_round_trip :
  (forall d s, Direction_from_db s = Some d <-> s = Direction_as_str d) /\
  (forall k s, AccountKind_from_db s = Some k <-> s = AccountKind_as_str k).
Proof.
  split.
  - intros d s. unfold Direction_from_db. split.
    + repeat case_match; intros; simplify_eq; bool_to_prop; done.
    + intros ->. by destruct d.
  - intros k s. unfold AccountKind_from_db. split.
    + repeat case_match; intros; simplify_eq; bool_to_prop; done.
    + intros ->. by destruct k.
Qed.

Example to_key_examples :
  to_key (mkAccountId "onramp" "treasury:btc") = "onramp:treasury:btc"%string /\
  to_key (mkAccountId "a:b" "c") = "a\:b:c"%string /\
  to_key (mkAccountId "a" "b:c") = "a:b:c"%string /\
  is_reserved "_system" = true /\ is_reserved "onramp" = false.
Proof. vm_compute. repeat split. Qed.
