(* ===== verification/Disk.v ===== *)
(** The storage environment of the log store: one book directory with its
    files, the I/O calls the store makes on it, and the codecs it relies on.

    A file carries how many of its bytes are durable (covered by a finished
    [sync_all]) and whether its directory entry is durable (covered by a
    finished directory fsync).  Every I/O call may fail: a world carries a
    fault script, one entry per call, [None] for a call that succeeds and
    [Some k] for one that fails, a write having put its first [k] bytes in the
    file.  The empty script is a disk that no longer fails.

    [serde_json] and [crc32fast] are third-party code: the operations of
    [Json] and [Crc32] are parameters, [JsonLaws] and [Crc32Laws] state what
    is documented of them. *)

From S2P Require Import Prelude Core.
From Stdlib Require Export Strings.Byte.
Open Scope Z_scope.

(** ** Files and worlds *)

Record FileData := mkFile {
  f_bytes : list byte;
  f_durable : nat;
  f_dirent : bool
}.

Record World := mkWorld {
  dir : gmap string FileData;
  faults : list (option nat)
}.

Definition io (A : Type) : Type := World -> result A string * World.

Definition io_ret {A} (a : A) : io A := fun w => (Ok a, w).
Definition io_err {A} (e : string) : io A := fun w => (Err e, w).

Definition io_bind {A B} (m : io A) (k : A -> io B) : io B :=
  fun w => match m w with
           | (Ok a, w') => k a w'
           | (Err e, w') => (Err e, w')
           end.

(** Run a call and keep its outcome as a value: a [match] on the result. *)
Definition io_try {A} (m : io A) : io (result A string) :=
  fun w => let '(r, w') := m w in (Ok r, w').

(** A pure result, as a call that does no I/O. *)
Definition io_lift {A} (r : result A string) : io A := fun w => (r, w).

Notation "'let!' p ':=' m 'in' k" := (io_bind m (fun p => k))
  (at level 10, p pattern, m at level 200, k at level 200) : talea_scope.

(** One I/O call: take the next entry of the fault script. *)
Definition next_fault (w : World) : option nat * World :=
  match faults w with
  | [] => (None, w)
  | f :: fs => (f, mkWorld (dir w) fs)
  end.

Definition set_file (name : string) (f : FileData) (w : World) : World :=
  mkWorld (<[name := f]> (dir w)) (faults w).

(** [fs::read] *)
Definition fs_read (name : string) : io (list byte) := fun w =>
  match next_fault w with
  | (Some _, w) => (Err "read error", w)
  | (None, w) =>
      match dir w !! name with
      | Some f => (Ok (f_bytes f), w)
      | None => (Err "no such file", w)
      end
  end%string.

(** [fs::write]: create or truncate, then write everything. *)
Definition fs_write (name : string) (bytes : list byte) : io unit := fun w =>
  let dirent w := match dir w !! name with Some f => f_dirent f | None => false end in
  match next_fault w with
  | (Some k, w) => (Err "write error", set_file name (mkFile (take k bytes) 0 (dirent w)) w)
  | (None, w) => (Ok (), set_file name (mkFile bytes 0 (dirent w)) w)
  end%string.

(** [metadata().len()] *)
Definition fs_len (name : string) : io nat := fun w =>
  match next_fault w with
  | (Some _, w) => (Err "metadata error", w)
  | (None, w) =>
      match dir w !! name with
      | Some f => (Ok (length (f_bytes f)), w)
      | None => (Err "no such file", w)
      end
  end%string.

(** [OpenOptions::create(true).append(true).open] *)
Definition fs_open_append (name : string) : io unit := fun w =>
  match next_fault w with
  | (Some _, w) => (Err "open error", w)
  | (None, w) =>
      (Ok (), match dir w !! name with
              | Some _ => w
              | None => set_file name (mkFile [] 0 false) w
              end)
  end%string.

(** [write_all] on a handle opened for appending. *)
Definition fs_append (name : string) (bytes : list byte) : io unit := fun w =>
  let append bs w :=
    match dir w !! name with
    | Some f => set_file name (mkFile (f_bytes f ++ bs) (f_durable f) (f_dirent f)) w
    | None => w
    end in
  match next_fault w with
  | (Some k, w) => (Err "append error", append (take k bytes) w)
  | (None, w) => (Ok (), append bytes w)
  end%string.

(** [File::sync_all] *)
Definition fs_sync (name : string) : io unit := fun w =>
  match next_fault w with
  | (Some _, w) => (Err "sync error", w)
  | (None, w) =>
      (Ok (), match dir w !! name with
              | Some f => set_file name (mkFile (f_bytes f) (length (f_bytes f)) (f_dirent f)) w
              | None => w
              end)
  end%string.

(** [File::set_len] to a shorter length. *)
Definition fs_set_len (name : string) (n : nat) : io unit := fun w =>
  match next_fault w with
  | (Some _, w) => (Err "set_len error", w)
  | (None, w) =>
      (Ok (), match dir w !! name with
              | Some f => set_file name (mkFile (take n (f_bytes f)) (Nat.min n (f_durable f)) (f_dirent f)) w
              | None => w
              end)
  end%string.

(** [fs::rename]: the new name takes the file, atomically. *)
Definition fs_rename (old new : string) : io unit := fun w =>
  match next_fault w with
  | (Some _, w) => (Err "rename error", w)
  | (None, w) =>
      match dir w !! old with
      | Some f => (Ok (), mkWorld (<[new := mkFile (f_bytes f) (f_durable f) false]> (delete old (dir w))) (faults w))
      | None => (Err "no such file", w)
      end
  end%string.

(** [fs::remove_file] *)
Definition fs_remove (name : string) : io unit := fun w =>
  match next_fault w with
  | (Some _, w) => (Err "remove error", w)
  | (None, w) =>
      match dir w !! name with
      | Some _ => (Ok (), mkWorld (delete name (dir w)) (faults w))
      | None => (Err "no such file", w)
      end
  end%string.

(** fsync of the directory: every entry becomes durable. *)
Definition fs_sync_dir : io unit := fun w =>
  match next_fault w with
  | (Some _, w) => (Err "dir sync error", w)
  | (None, w) => (Ok (), mkWorld ((fun f => mkFile (f_bytes f) (f_durable f) true) <$> dir w) (faults w))
  end%string.

(** [fs::read_dir]: the names, in some order. *)
Definition fs_read_dir : io (list string) := fun w =>
  match next_fault w with
  | (Some _, w) => (Err "read_dir error", w)
  | (None, w) => (Ok (map fst (map_to_list (dir w))), w)
  end%string.

(** ** A crash

    A file whose entry is durable keeps its durable bytes and any number of
    the bytes after them; a file whose entry is not durable may also be lost. *)

Definition crashed_file (f g : FileData) : Prop :=
  exists k, (f_durable f <= k <= length (f_bytes f))%nat /\
    g = mkFile (take k (f_bytes f)) k true.

Definition crash (d d' : gmap string FileData) : Prop :=
  forall name,
    match d !! name, d' !! name with
    | Some f, Some g => crashed_file f g
    | Some f, None => f_dirent f = false
    | None, None => True
    | None, Some _ => False
    end.

(** ** Codecs *)

Class Crc32 := crc32_hash : list byte -> Z.

Class Crc32Laws {C : Crc32} := crc32_range : forall b, 0 <= crc32_hash b < 2 ^ 32.

Class Json (A : Type) := {
  to_vec : A -> result (list byte) string;
  from_slice : list byte -> result A string
}.

Class JsonLaws (A : Type) {J : Json A} :=
  from_slice_to_vec : forall a b, to_vec a = Ok b -> from_slice b = Ok a.

(** ** Lemmas *)

Lemma dir_next_fault w : dir (next_fault w).2 = dir w.
Proof. destruct w as [d [|f fs]]; done. Qed.

Lemma io_bind_Ok {A B} (m : io A) (k : A -> io B) w b w' :
  io_bind m k w = (Ok b, w') <-> exists a w1, m w = (Ok a, w1) /\ k a w1 = (Ok b, w').
Proof.
  unfold io_bind. destruct (m w) as [[a|e] w1]; split.
  - eauto.
  - intros (? & ? & ? & ?). by simplify_eq.
  - done.
  - intros (? & ? & ? & ?). by simplify_eq.
Qed.

(** What a reader sees under a name. *)
Definition bytes_at (d : gmap string FileData) (name : string) : option (list byte) :=
  f_bytes <$> d !! name.

(** A call leaves the contents of the files outside [P] alone, whatever its
    outcome. *)
Definition only_touches {A} (m : io A) (P : string -> Prop) : Prop :=
  forall w n, ~ P n -> bytes_at (dir (m w).2) n = bytes_at (dir w) n.

Ltac io_cases :=
  repeat match goal with
  | w : World |- _ => destruct w as [? [|[?|] ?]]
  end; unfold set_file in *; cbn in *; repeat case_match; cbn in *; simplify_map_eq.

Ltac io_touches :=
  intros w n Hn; unfold bytes_at; io_cases;
  rewrite ?lookup_insert_ne, ?lookup_delete_ne by (by intros ->; auto); try done.

Lemma fs_read_dir_same name w : dir (fs_read name w).2 = dir w.
Proof. unfold fs_read. io_cases; done. Qed.

Lemma fs_write_touches name bytes : only_touches (fs_write name bytes) (fun n => n = name).
Proof. unfold fs_write. io_touches. Qed.

Lemma fs_append_touches name bytes : only_touches (fs_append name bytes) (fun n => n = name).
Proof. unfold fs_append. io_touches. Qed.

Lemma fs_remove_touches name : only_touches (fs_remove name) (fun n => n = name).
Proof. unfold fs_remove. io_touches. Qed.

Lemma fs_rename_touches old new : only_touches (fs_rename old new) (fun n => n = old \/ n = new).
Proof. unfold fs_rename. io_touches. Qed.

Lemma fs_sync_touches name : only_touches (fs_sync name) (fun _ => False).
Proof.
  intros w n _. unfold fs_sync, bytes_at. io_cases; try done.
  all: destruct (decide (n = name)) as [->|]; simplify_map_eq; done.
Qed.

Lemma fs_sync_dir_touches : only_touches fs_sync_dir (fun _ => False).
Proof.
  intros [d [|[k|] fs]] name _; [|done|]; unfold bytes_at;
    cbn -[fmap lookup]; rewrite lookup_fmap; by destruct (d !! name).
Qed.

Lemma only_touches_ret {A} (a : A) P : only_touches (io_ret a) P.
Proof. done. Qed.

Lemma only_touches_lift {A} (r : result A string) P : only_touches (io_lift r) P.
Proof. done. Qed.

Lemma only_touches_bind {A B} (m : io A) (k : A -> io B) P :
  only_touches m P -> (forall a, only_touches (k a) P) -> only_touches (io_bind m k) P.
Proof.
  intros Hm Hk w n Hn. unfold io_bind. specialize (Hm w n Hn).
  destruct (m w) as [[a|e] w'] eqn:E; cbn in *; [|done]. by rewrite (Hk a w' n Hn).
Qed.

Lemma only_touches_try {A} (m : io A) P : only_touches m P -> only_touches (io_try m) P.
Proof. intros Hm w n Hn. unfold io_try. specialize (Hm w n Hn). by destruct (m w). Qed.

Lemma only_touches_mono {A} (m : io A) (P Q : string -> Prop) :
  only_touches m P -> (forall n, P n -> Q n) -> only_touches m Q.
Proof. intros Hm HPQ w n Hn. apply Hm. auto. Qed.

Lemma fs_read_touches name P : only_touches (fs_read name) P.
Proof. intros w n _. by rewrite fs_read_dir_same. Qed.

Lemma fs_read_dir_touches P : only_touches fs_read_dir P.
Proof. intros w n _. unfold fs_read_dir. by io_cases. Qed.

#[export] Hint Resolve only_touches_ret only_touches_lift only_touches_bind only_touches_try
  fs_read_touches fs_read_dir_touches : talea.

(** A successful write is there to be read. *)
Lemma fs_write_Ok name bytes w w' :
  fs_write name bytes w = (Ok (), w') -> bytes_at (dir w') name = Some bytes.
Proof. unfold fs_write, bytes_at. intros H. io_cases; done. Qed.

Lemma fs_rename_Ok old new w w' :
  fs_rename old new w = (Ok (), w') -> bytes_at (dir w') new = bytes_at (dir w) old.
Proof. unfold fs_rename, bytes_at. intros H. io_cases; done. Qed.

Lemma fs_read_Ok name w w' bytes :
  fs_read name w = (Ok bytes, w') -> bytes_at (dir w) name = Some bytes.
Proof. unfold fs_read, bytes_at. intros H. io_cases; done. Qed.

Lemma fs_read_no_faults name w bytes :
  faults w = [] -> bytes_at (dir w) name = Some bytes -> fs_read name w = (Ok bytes, w).
Proof.
  destruct w as [d fs]. unfold fs_read, bytes_at. cbn. intros -> Hb. cbn.
  destruct (d !! name); cbn in *; [by simplify_eq|done].
Qed.

(** Write a temporary file, sync it, rename it, sync the directory: the shape
    of every atomic file replacement of the store. *)
Definition replace_file (tmp path : string) (bytes : list byte) : io unit :=
  let! _ := fs_write tmp bytes in
  let! _ := fs_sync tmp in
  let! _ := fs_rename tmp path in
  fs_sync_dir.

Lemma replace_file_touches tmp path bytes :
  only_touches (replace_file tmp path bytes) (fun n => n = tmp \/ n = path).
Proof.
  unfold replace_file.
  apply only_touches_bind; [eapply only_touches_mono; [apply fs_write_touches|auto]|intros _].
  apply only_touches_bind; [eapply only_touches_mono; [apply fs_sync_touches|done]|intros _].
  apply only_touches_bind; [eapply only_touches_mono; [apply fs_rename_touches|auto]|intros _].
  eapply only_touches_mono; [apply fs_sync_dir_touches|done].
Qed.

Lemma replace_file_Ok tmp path bytes w w' :
  replace_file tmp path bytes w = (Ok (), w') -> bytes_at (dir w') path = Some bytes.
Proof.
  unfold replace_file. intros ([] & w1 & H1 & H)%io_bind_Ok.
  apply io_bind_Ok in H as ([] & w2 & H2 & H). apply io_bind_Ok in H as ([] & w3 & H3 & H4).
  pose proof (fs_sync_dir_touches w3 path id) as E4. rewrite H4 in E4. cbn in E4. rewrite E4.
  rewrite (fs_rename_Ok _ _ _ _ H3).
  pose proof (fs_sync_touches tmp w1 tmp id) as E2. rewrite H2 in E2. cbn in E2. rewrite E2.
  by eapply fs_write_Ok.
Qed.

(** ** Files a call keeps

    Stronger than [only_touches]: outside [P] a file also keeps how much of it
    is durable, and a durable directory entry stays durable. *)

Definition file_kept (o o' : option FileData) : Prop :=
  match o, o' with
  | None, None => True
  | Some f, Some f' => f_bytes f' = f_bytes f /\ f_durable f' = f_durable f /\
      (f_dirent f = true -> f_dirent f' = true)
  | _, _ => False
  end.

Definition keeps_files {A} (m : io A) (P : string -> Prop) : Prop :=
  forall w n, ~ P n -> file_kept (dir w !! n) (dir (m w).2 !! n).

Lemma file_kept_refl o : file_kept o o.
Proof. by destruct o. Qed.

Lemma file_kept_trans o1 o2 o3 : file_kept o1 o2 -> file_kept o2 o3 -> file_kept o1 o3.
Proof.
  destruct o1, o2, o3; cbn; try done. intros (H1 & H2 & H3) (H4 & H5 & H6). split_and!; [congruence..|auto].
Qed.

#[export] Hint Resolve file_kept_refl : talea.

Ltac io_keeps :=
  intros w n Hn; io_cases;
  rewrite ?lookup_insert_ne, ?lookup_delete_ne by (by intros ->; auto); auto with talea.

Lemma fs_read_keeps name P : keeps_files (fs_read name) P.
Proof. intros w n _. rewrite fs_read_dir_same. apply file_kept_refl. Qed.
Lemma fs_read_dir_keeps P : keeps_files fs_read_dir P.
Proof. unfold fs_read_dir. intros w n Hn. io_cases; auto with talea. Qed.
Lemma fs_write_keeps name bytes (P : string -> Prop) : P name -> keeps_files (fs_write name bytes) P.
Proof. intros HP. unfold fs_write. io_keeps. Qed.
Lemma fs_sync_keeps name (P : string -> Prop) : P name -> keeps_files (fs_sync name) P.
Proof. intros HP. unfold fs_sync. io_keeps. Qed.
Lemma fs_remove_keeps name (P : string -> Prop) : P name -> keeps_files (fs_remove name) P.
Proof. intros HP. unfold fs_remove. io_keeps. Qed.
Lemma fs_rename_keeps old new (P : string -> Prop) : P old -> P new -> keeps_files (fs_rename old new) P.
Proof. intros HP HQ. unfold fs_rename. io_keeps. Qed.

Lemma fs_set_len_keeps name k (P : string -> Prop) : P name -> keeps_files (fs_set_len name k) P.
Proof. intros HP. unfold fs_set_len. io_keeps. Qed.
Lemma fs_len_keeps n P : keeps_files (fs_len n) P.
Proof. unfold fs_len. intros w n' Hn. io_cases; auto with talea. Qed.
Lemma fs_open_append_keeps name (P : string -> Prop) : P name -> keeps_files (fs_open_append name) P.
Proof. intros HP. unfold fs_open_append. io_keeps. Qed.
Lemma fs_append_keeps name bytes (P : string -> Prop) : P name -> keeps_files (fs_append name bytes) P.
Proof. intros HP. unfold fs_append. io_keeps. Qed.

Lemma fs_sync_dir_keeps P : keeps_files fs_sync_dir P.
Proof.
  intros [d [|[k|] fs]] name _; [|apply file_kept_refl|];
    cbn -[fmap lookup]; rewrite lookup_fmap; by destruct (d !! name).
Qed.

Lemma keeps_ret {A} (a : A) P : keeps_files (io_ret a) P.
Proof. intros w n _. apply file_kept_refl. Qed.
Lemma keeps_err {A} e P : keeps_files (@io_err A e) P.
Proof. intros w n _. apply file_kept_refl. Qed.
Lemma keeps_lift {A} (r : result A string) P : keeps_files (io_lift r) P.
Proof. intros w n _. apply file_kept_refl. Qed.
Lemma keeps_try {A} (m : io A) P : keeps_files m P -> keeps_files (io_try m) P.
Proof. intros Hm w n Hn. unfold io_try. specialize (Hm w n Hn). by destruct (m w). Qed.
Lemma keeps_bind {A B} (m : io A) (k : A -> io B) P :
  keeps_files m P -> (forall a, keeps_files (k a) P) -> keeps_files (io_bind m k) P.
Proof.
  intros Hm Hk w n Hn. unfold io_bind. specialize (Hm w n Hn).
  destruct (m w) as [[a|e] w'] eqn:E; cbn in *; [|done]. eapply file_kept_trans; [done|]. by apply Hk.
Qed.

Lemma replace_file_keeps tmp path bytes (P : string -> Prop) :
  P tmp -> P path -> keeps_files (replace_file tmp path bytes) P.
Proof.
  intros. unfold replace_file.
  repeat (apply keeps_bind; [auto using fs_write_keeps, fs_sync_keeps, fs_rename_keeps|intros _]).
  apply fs_sync_dir_keeps.
Qed.

#[export] Hint Resolve keeps_ret keeps_err keeps_lift keeps_try keeps_bind fs_read_keeps fs_read_dir_keeps : talea.

(** On a disk that does not fail, a replacement succeeds. *)
Lemma replace_file_no_faults tmp path bytes w :
  faults w = [] -> exists w', replace_file tmp path bytes w = (Ok (), w') /\ faults w' = [].
Proof.
  destruct w as [d fs]. cbn. intros ->. unfold replace_file, io_bind, fs_write. cbn.
  unfold set_file. cbn. unfold fs_sync. cbn. rewrite lookup_insert_eq. unfold set_file. cbn.
  unfold fs_rename. cbn. rewrite lookup_insert_eq. cbn. unfold fs_sync_dir. cbn. eauto.
Qed.

(** ** A codec and a checksum for evaluation

    [CountableJson] writes a value's stdpp encoding, one bit per byte; the
    checksum is the sum of the bytes.  They satisfy the laws, and the
    witnesses run on them. *)

Fixpoint positive_bytes (p : positive) : list byte :=
  match p with
  | xH => []
  | xO p => x00 :: positive_bytes p
  | xI p => x01 :: positive_bytes p
  end.

Fixpoint bytes_positive (l : list byte) : positive :=
  match l with
  | [] => xH
  | x00 :: l => xO (bytes_positive l)
  | _ :: l => xI (bytes_positive l)
  end.

Lemma bytes_positive_bytes p : bytes_positive (positive_bytes p) = p.
Proof. induction p; cbn; congruence. Qed.

Definition CountableJson (A : Type) `{Countable A} : Json A := {|
  to_vec a := Ok (positive_bytes (encode a));
  from_slice b := ok_or (decode (bytes_positive b)) "invalid"%string
|}.

Lemma CountableJson_laws (A : Type) `{Countable A} : @JsonLaws A (CountableJson A).
Proof. intros a b [= <-]. cbn. by rewrite bytes_positive_bytes, decode_encode. Qed.

Definition sum_crc32 : Crc32 := fun b => foldl (fun s x => (s * 31 + byte_Z x + 1) mod 2 ^ 32) 0 b.

Lemma sum_crc32_laws : @Crc32Laws sum_crc32.
Proof.
  intros b. unfold crc32_hash, sum_crc32.
  assert (forall s, 0 <= s < 2 ^ 32 ->
    0 <= foldl (fun s x => (s * 31 + byte_Z x + 1) mod 2 ^ 32) s b < 2 ^ 32) as Hg.
  { induction b as [|x b IH]; intros s Hs; cbn [foldl]; [done|]. apply IH, Z.mod_pos_bound. lia. }
  by apply Hg.
Qed.
