(* ===== verification/PostingIndex.v ===== *)
(** The chunked posting history of one account: [PostingIndex] of
    talea-store-log/src/state.rs.  [Spec] is the flat vector the doc comments
    of the code compare it to, [flat] the abstraction function; the theorems
    say that every operation of the chunked index is the operation of the
    flat vector. *)

From S2P Require Import Prelude Core.
Open Scope Z_scope.

Record PostingEntry := mkPostingEntry {
  e_seq : Seq;
  e_at : DateTime;
  e_txid : TxId;
  e_minor : Z;
  e_direction : Direction;
  e_raw_after : Z
}.

#[export] Instance PostingEntry_eq_dec : EqDecision PostingEntry.
Proof. solve_decision. Defined.

(** Chunk size of the sealed chunks. *)
Definition CHUNK : nat := Z.to_nat 4096.

Lemma CHUNK_pos : (0 < CHUNK)%nat.
Proof. unfold CHUNK. lia. Qed.

(** A sealed chunk is an [Arc<Vec<_>>]: shared and never changed after it is
    sealed, so sharing is not observable and a chunk is its list. *)
Record PostingIndex := mkPostingIndex {
  sealed : list (list PostingEntry);
  tail : list PostingEntry
}.

Definition PostingIndex_default : PostingIndex := mkPostingIndex [] [].

Definition push (ix : PostingIndex) (e : PostingEntry) : PostingIndex :=
  let tail' := tail ix ++ [e] in
  if (length tail' =? CHUNK)%nat
  then mkPostingIndex (sealed ix ++ [tail']) []
  else mkPostingIndex (sealed ix) tail'.

Definition len (ix : PostingIndex) : nat := length (sealed ix) * CHUNK + length (tail ix).

Definition is_empty (ix : PostingIndex) : bool :=
  match sealed ix, tail ix with [], [] => true | _, _ => false end.

(** The shared body of [partition_point_at] and [partition_point_seq]: the
    chunks are searched by their last entry, then the chunk or the tail. *)
Definition partition_point_by (p : PostingEntry -> bool) (ix : PostingIndex) : nat :=
  let n_sealed := length (sealed ix) in
  let chunk_idx :=
    partition_point (fun chunk => match last chunk with Some e => p e | None => false end)
      (sealed ix) in
  if (chunk_idx <? n_sealed)%nat then
    let chunk := default [] (sealed ix !! chunk_idx) in
    (chunk_idx * CHUNK + partition_point p chunk)%nat
  else (n_sealed * CHUNK + partition_point p (tail ix))%nat.

Definition partition_point_at (ix : PostingIndex) (t : DateTime) : nat :=
  partition_point_by (fun e => e_at e <=? t) ix.

Definition partition_point_seq (ix : PostingIndex) (after : Seq) : nat :=
  partition_point_by (fun e => e_seq e <=? after) ix.

Definition get (ix : PostingIndex) (idx : nat) : option PostingEntry :=
  let n_sealed := length (sealed ix) in
  if (idx <? n_sealed * CHUNK)%nat then
    match sealed ix !! (idx / CHUNK)%nat with
    | Some chunk => chunk !! (idx mod CHUNK)%nat
    | None => None
    end
  else tail ix !! (idx - n_sealed * CHUNK)%nat.

Definition iter_from (ix : PostingIndex) (idx : nat) : list PostingEntry :=
  let sealed_total := (length (sealed ix) * CHUNK)%nat in
  let sealed_iter :=
    if (idx <? sealed_total)%nat then
      concat (imap (fun ci chunk => drop (if (ci =? 0)%nat then idx mod CHUNK else 0) chunk)
        (drop (idx / CHUNK) (sealed ix)))
    else [] in
  let tail_start := (idx - sealed_total)%nat in
  sealed_iter ++ drop (Nat.min tail_start (length (tail ix))) (tail ix).

(** Serialization order: the sealed chunks, then the tail, as one sequence;
    deserialization pushes the sequence into an empty index. *)
Definition PostingIndex_serialize (ix : PostingIndex) : list PostingEntry :=
  concat (sealed ix) ++ tail ix.

Definition PostingIndex_deserialize (flat : list PostingEntry) : PostingIndex :=
  foldl push PostingIndex_default flat.

(** ** Abstraction and well-formedness *)

Definition flat (ix : PostingIndex) : list PostingEntry := concat (sealed ix) ++ tail ix.

Definition chunked (ix : PostingIndex) : Prop :=
  Forall (fun c => length c = CHUNK) (sealed ix) /\ (length (tail ix) < CHUNK)%nat.

Section chunks.
Context {A : Type} (n : nat).

Lemma length_concat_chunks (ls : list (list A)) :
  Forall (fun c => length c = n) ls -> length (concat ls) = (length ls * n)%nat.
Proof. induction 1 as [|c ls Hc _ IH]; cbn; [done|]. rewrite length_app. lia. Qed.

Lemma drop_concat_chunks k (ls : list (list A)) :
  Forall (fun c => length c = n) ls -> drop (k * n) (concat ls) = concat (drop k ls).
Proof.
  intros H. revert k. induction H as [|c ls Hc H IH]; intros k; cbn.
  - by rewrite !drop_nil.
  - destruct k as [|k]; cbn; [done|]. rewrite <- IH. rewrite drop_app_ge by lia.
    f_equal. lia.
Qed.

Lemma drop_concat_at idx (ls : list (list A)) :
  Forall (fun c => length c = n) ls ->
  drop idx (concat ls) = drop (idx mod n) (concat (drop (idx / n) ls)).
Proof.
  intros H. rewrite <- drop_concat_chunks, drop_drop by done. f_equal.
  pose proof (Nat.div_mod_eq idx n). lia.
Qed.

Lemma lookup_concat_chunks k r (ls : list (list A)) c :
  Forall (fun c => length c = n) ls -> ls !! k = Some c -> (r < n)%nat ->
  concat ls !! (k * n + r)%nat = c !! r.
Proof.
  intros H. revert k. induction H as [|d ls Hd H IH]; intros k Hk Hr; [done|].
  destruct k as [|k]; cbn in Hk |- *; simplify_eq.
  - cbn. by rewrite lookup_app_l by lia.
  - rewrite lookup_app_r by lia. rewrite <- (IH k) by done. f_equal. lia.
Qed.
End chunks.

Lemma chunked_default : chunked PostingIndex_default.
Proof. split; [constructor|apply CHUNK_pos]. Qed.

Lemma flat_push ix e : flat (push ix e) = flat ix ++ [e].
Proof.
  unfold push, flat. case_match; cbn.
  - rewrite concat_app. cbn. by rewrite !app_nil_r, app_assoc.
  - by rewrite app_assoc.
Qed.

Lemma chunked_push ix e : chunked ix -> chunked (push ix e).
Proof.
  intros [Hs Ht]. unfold push. rewrite length_app. cbn [length].
  destruct (_ =? _)%nat eqn:E; bool_to_prop; split; cbn.
  - apply Forall_app; split; [done|]. constructor; [|done]. by rewrite length_app.
  - apply CHUNK_pos.
  - done.
  - rewrite length_app. cbn [length] in *. lia.
Qed.

Lemma length_sealed ix : chunked ix -> length (concat (sealed ix)) = (length (sealed ix) * CHUNK)%nat.
Proof. intros [Hs _]. by apply length_concat_chunks. Qed.

Lemma len_flat ix : chunked ix -> len ix = length (flat ix).
Proof. intros H. unfold len, flat. by rewrite length_app, length_sealed. Qed.

Lemma get_flat ix idx : chunked ix -> get ix idx = flat ix !! idx.
Proof.
  intros H. pose proof H as [Hs _]. unfold get, flat. pose proof CHUNK_pos.
  case_match eqn:E; bool_to_prop.
  - rewrite lookup_app_l by (by rewrite length_sealed).
    assert (idx / CHUNK < length (sealed ix))%nat as Hlt.
    { apply Nat.Div0.div_lt_upper_bound; lia. }
    apply lookup_lt_is_Some_2 in Hlt as [c Hc]. rewrite Hc.
    rewrite (Nat.div_mod_eq idx CHUNK) at 2. rewrite (Nat.mul_comm CHUNK).
    symmetry. apply lookup_concat_chunks; [done..|]. apply Nat.mod_upper_bound. lia.
  - rewrite lookup_app_r by (rewrite length_sealed by done; lia). by rewrite length_sealed.
Qed.

Lemma iter_from_flat ix idx : chunked ix -> iter_from ix idx = drop idx (flat ix).
Proof.
  intros H. pose proof H as [Hs _]. unfold iter_from, flat. pose proof CHUNK_pos.
  rewrite drop_app, length_sealed by done. f_equal.
  - case_match eqn:E; bool_to_prop.
    + rewrite (drop_concat_at CHUNK) by done.
      assert (idx / CHUNK < length (sealed ix))%nat as Hlt.
      { apply Nat.Div0.div_lt_upper_bound; lia. }
      apply lookup_lt_is_Some_2 in Hlt as [c Hc].
      rewrite (drop_S _ _ _ Hc). cbn.
      rewrite drop_app_le.
      2:{ rewrite (Forall_lookup_1 _ _ _ _ Hs Hc). pose proof (Nat.mod_upper_bound idx CHUNK). lia. }
      f_equal. f_equal. apply list_eq. intros i. rewrite list_lookup_imap. by destruct (_ !! i).
    + rewrite drop_ge; [done|]. rewrite length_sealed by done. lia.
  - destruct (Nat.le_gt_cases (idx - length (sealed ix) * CHUNK) (length (tail ix))).
    + by rewrite Nat.min_l by lia.
    + rewrite Nat.min_r by lia. by rewrite !drop_ge by lia.
Qed.

(** ** Searching *)

Section search.
Context (p : PostingEntry -> bool).

Let q (chunk : list PostingEntry) : bool :=
  match last chunk with Some e => p e | None => false end.

Lemma prefix_len_all (l r : list PostingEntry) :
  Forall (fun e => p e = true) l -> prefix_len p (l ++ r) = (length l + prefix_len p r)%nat.
Proof. induction 1 as [|e l He _ IH]; cbn; [done|]. by rewrite He, IH. Qed.

Lemma prefix_len_stop (l r : list PostingEntry) e :
  e ∈ l -> p e = false -> prefix_len p (l ++ r) = prefix_len p l.
Proof.
  intros He Hp. induction l as [|x l IH]; [by apply elem_of_nil in He|]. cbn.
  destruct (p x) eqn:Hx; [|done]. apply elem_of_cons in He as [->|He]; [congruence|].
  by rewrite IH.
Qed.

Lemma monotone_cut_app_r (l r : list PostingEntry) : monotone_cut p (l ++ r) -> monotone_cut p r.
Proof.
  intros H i j x y Hi Hj Hle. apply (H (length l + i)%nat (length l + j)%nat); [..|lia].
  - rewrite lookup_app_r by lia. by rewrite Nat.add_comm, Nat.add_sub.
  - rewrite lookup_app_r by lia. by rewrite Nat.add_comm, Nat.add_sub.
Qed.

Lemma monotone_cut_app_l (l r : list PostingEntry) : monotone_cut p (l ++ r) -> monotone_cut p l.
Proof. intros H i j x y Hi Hj Hle. apply (H i j); [..|lia]; by apply lookup_app_l_Some. Qed.

Lemma last_true_all (l : list PostingEntry) :
  monotone_cut p l -> q l = true -> Forall (fun e => p e = true) l.
Proof.
  unfold q. intros Hm Hq. destruct (last l) as [e|] eqn:El; [|done].
  rewrite last_lookup in El. apply Forall_forall. intros x [i Hi]%list_elem_of_lookup.
  apply (Hm i (pred (length l)) x e); auto.
  apply lookup_lt_Some in Hi. lia.
Qed.

Lemma prefix_len_chunks n (ls : list (list PostingEntry)) t :
  (0 < n)%nat -> Forall (fun c => length c = n) ls -> monotone_cut p (concat ls ++ t) ->
  monotone_cut q ls /\
  prefix_len p (concat ls ++ t) =
    (let k := prefix_len q ls in
     if (k <? length ls)%nat then (k * n + prefix_len p (default [] (ls !! k)))%nat
     else (length ls * n + prefix_len p t)%nat).
Proof.
  intros Hn H. induction H as [|c ls Hc H IH]; intros Hm; cbn -[Nat.ltb].
  - split; [|done]. by intros i j x y.
  - cbn in Hm. rewrite <- app_assoc in Hm.
    pose proof (monotone_cut_app_l _ _ Hm) as Hmc.
    destruct (IH (monotone_cut_app_r _ _ Hm)) as [Hq Hlen]. clear IH.
    rewrite <- app_assoc. destruct (q c) eqn:Eq.
    + split.
      * intros [|i] [|j] x y Hi Hj Hle; cbn in *; simplify_eq; try done; try lia.
        apply (Hq i j); auto. lia.
      * rewrite prefix_len_all by (by apply last_true_all). rewrite Hc, Hlen. cbn -[Nat.ltb].
        change (S (prefix_len q ls) <? S (length ls))%nat with (prefix_len q ls <? length ls)%nat.
        destruct (_ <? _)%nat; rewrite Nat.add_assoc; reflexivity.
    + assert (Forall (fun d => q d = false) ls) as Hall.
      { unfold q in Eq. destruct (last c) as [e|] eqn:El.
        2:{ apply last_None in El. rewrite El in Hc. cbn in Hc. lia. }
        apply Forall_forall. intros d [j Hj]%list_elem_of_lookup. unfold q.
        destruct (last d) as [x|] eqn:Ed; [|done]. apply not_true_iff_false. intros Hx.
        pose proof (Forall_lookup_1 _ _ _ _ H Hj) as Hdn.
        rewrite last_lookup in El, Ed. rewrite Hc in El. rewrite Hdn in Ed.
        enough (p e = true) by congruence.
        apply (Hm (pred n) (n + (j * n + pred n))%nat e x); [| |lia|done].
        - by apply lookup_app_l_Some.
        - rewrite lookup_app_r by lia. replace (_ - length c)%nat with (j * n + pred n)%nat by lia.
          apply lookup_app_l_Some. by rewrite (lookup_concat_chunks n j (pred n) ls d) by (auto; lia). }
      split.
      * intros [|i] [|j] x y Hi Hj Hle; cbn in *; simplify_eq; try done; try lia.
        -- intros Hy. rewrite (Forall_lookup_1 _ _ _ _ Hall Hj) in Hy. done.
        -- apply (Hq i j); auto. lia.
      * change (0 <? S (length ls))%nat with true. cbn.
        unfold q in Eq. destruct (last c) as [e|] eqn:El.
        -- apply (prefix_len_stop _ _ e); [|done].
           rewrite last_lookup in El. by eapply list_elem_of_lookup_2.
        -- apply last_None in El. rewrite El in Hc. cbn in Hc. lia.
Qed.

Lemma partition_point_by_flat ix :
  chunked ix -> monotone_cut p (flat ix) ->
  partition_point_by p ix = prefix_len p (flat ix).
Proof.
  intros [Hs Ht] Hm.
  destruct (prefix_len_chunks CHUNK (sealed ix) (tail ix) CHUNK_pos Hs Hm) as [Hq Hlen].
  unfold partition_point_by, flat. rewrite Hlen. fold q.
  rewrite (partition_point_prefix q (sealed ix) Hq). cbn zeta.
  destruct (_ <? _)%nat eqn:E; bool_to_prop.
  - f_equal. apply partition_point_prefix.
    apply lookup_lt_is_Some_2 in E as [c Hc]. rewrite Hc. cbn.
    unfold flat in Hm. apply list_elem_of_split_length in Hc as (l1 & l2 & Heq & _).
    rewrite Heq, concat_app in Hm. cbn in Hm. rewrite <- !app_assoc in Hm.
    by eapply monotone_cut_app_l, monotone_cut_app_r.
  - f_equal. apply partition_point_prefix. by eapply monotone_cut_app_r.
Qed.
End search.

(** ** The flat vector of the doc comments *)

Module Spec.
Definition vec_push (v : list PostingEntry) (e : PostingEntry) := v ++ [e].
Definition at_or_before (t : DateTime) (v : list PostingEntry) := filter (fun e => e_at e <= t) v.
Definition upto (s : Seq) (v : list PostingEntry) := filter (fun e => e_seq e <= s) v.
End Spec.

(** The global order of the doc comment: non-decreasing in both fields. *)
Definition ordered (v : list PostingEntry) : Prop :=
  forall i j x y, v !! i = Some x -> v !! j = Some y -> (i <= j)%nat ->
    e_seq x <= e_seq y /\ e_at x <= e_at y.

Lemma ordered_cut_at v t : ordered v -> monotone_cut (fun e => e_at e <=? t) v.
Proof. intros H i j x y Hi Hj Hle Hy. destruct (H i j x y); auto. lia. Qed.

Lemma ordered_cut_seq v s : ordered v -> monotone_cut (fun e => e_seq e <=? s) v.
Proof. intros H i j x y Hi Hj Hle Hy. destruct (H i j x y); auto. lia. Qed.

Lemma ordered_nil : ordered [].
Proof. by intros i j x y. Qed.

Lemma ordered_snoc v e :
  ordered v -> (forall x, x ∈ v -> e_seq x <= e_seq e /\ e_at x <= e_at e) -> ordered (v ++ [e]).
Proof.
  intros H He i j x y Hi Hj Hle.
  apply lookup_app_Some in Hi as [Hi|[Hi' Hi]], Hj as [Hj|[Hj' Hj]].
  - by apply (H i j).
  - apply list_lookup_singleton_Some in Hj as [_ <-]. apply He. by eapply list_elem_of_lookup_2.
  - apply lookup_lt_Some in Hj. lia.
  - apply list_lookup_singleton_Some in Hi as [_ <-], Hj as [_ <-]. lia.
Qed.

#[export] Hint Resolve chunked_default chunked_push ordered_nil : talea.
#[export] Hint Rewrite flat_push : talea.

(** The chunked index is the flat vector. *)
Theorem posting_index_refines_vec (ix : PostingIndex) (e : PostingEntry) :
  chunked ix ->
  chunked (push ix e) /\ flat (push ix e) = Spec.vec_push (flat ix) e /\
  len ix = length (flat ix) /\ (is_empty ix = true <-> flat ix = []) /\
  (forall i, get ix i = flat ix !! i) /\
  (forall i, iter_from ix i = drop i (flat ix)).
Proof.
  intros H. split_and!.
  - by apply chunked_push.
  - apply flat_push.
  - by apply len_flat.
  - unfold is_empty, flat. destruct H as [Hs Ht].
    destruct (sealed ix) as [|c cs] eqn:E; cbn; [by destruct (tail ix)|].
    split; [done|]. intros H. apply Forall_cons_1 in Hs as [Hc _]. pose proof CHUNK_pos.
    apply app_eq_nil in H as [H _]. apply app_eq_nil in H as [H _]. subst. cbn in Hc. lia.
  - intros i. by apply get_flat.
  - intros i. by apply iter_from_flat.
Qed.

Definition entry0 (s : Z) : PostingEntry := mkPostingEntry s (10 * s) 1 5 Debit 5.

(** An index with one sealed chunk and a tail of two entries. *)
Definition sample_index : PostingIndex :=
  mkPostingIndex [map (fun i => entry0 (Z.of_nat i)) (seq 1 CHUNK)] [entry0 4097; entry0 4098].

Lemma sample_index_chunked : chunked sample_index.
Proof. split; [|cbn; unfold CHUNK; lia]. by repeat constructor. Qed.

Lemma posting_index_refines_vec_witness :
  chunked sample_index /\ get sample_index 4097 = Some (entry0 4098).
Proof.
  split; [exact sample_index_chunked|].
  destruct (posting_index_refines_vec sample_index (entry0 4099) sample_index_chunked)
    as (_ & _ & _ & _ & Hget & _).
  rewrite Hget. vm_compute. reflexivity.
Defined.

(** On an ordered index the two searches split the flat vector. *)
Theorem partition_points_split (ix : PostingIndex) (t : DateTime) (s : Seq) :
  chunked ix -> ordered (flat ix) ->
  take (partition_point_at ix t) (flat ix) = Spec.at_or_before t (flat ix) /\
  take (partition_point_seq ix s) (flat ix) = Spec.upto s (flat ix) /\
  iter_from ix (partition_point_seq ix s) = filter (fun e => s < e_seq e) (flat ix).
Proof.
  intros H Ho.
  pose proof (ordered_cut_at _ t Ho) as Hat. pose proof (ordered_cut_seq _ s Ho) as Hseq.
  unfold partition_point_at, partition_point_seq.
  rewrite iter_from_flat, !partition_point_by_flat by done.
  rewrite !prefix_len_take, prefix_len_drop by done.
  unfold Spec.at_or_before, Spec.upto.
  split_and!; apply list_filter_iff; intros x; lia.
Qed.

Lemma sample_index_ordered : ordered (flat sample_index).
Proof.
  assert (flat sample_index = map (fun i => entry0 (Z.of_nat i)) (seq 1 4098)) as -> by (by vm_compute).
  intros i j x y Hi Hj Hle.
  apply list_lookup_fmap_Some_1 in Hi as (a & -> & Ha), Hj as (b & -> & Hb).
  apply lookup_seq in Ha as [-> _], Hb as [-> _]. cbn. lia.
Qed.

Lemma partition_points_split_witness :
  chunked sample_index /\ ordered (flat sample_index) /\
  iter_from sample_index (partition_point_seq sample_index 4097) = [entry0 4098].
Proof.
  split; [exact sample_index_chunked|]. split; [exact sample_index_ordered|].
  destruct (partition_points_split sample_index 7 4097 sample_index_chunked sample_index_ordered)
    as (_ & _ & ->).
  vm_compute. reflexivity.
Defined.

Lemma push_all_flat l ix : flat (foldl push ix l) = flat ix ++ l.
Proof.
  revert ix. induction l as [|e l IH]; intros ix; cbn; [by rewrite app_nil_r|].
  by rewrite IH, flat_push, <- app_assoc.
Qed.

Lemma push_all_chunked l ix : chunked ix -> chunked (foldl push ix l).
Proof. revert ix. induction l; cbn; eauto with talea. Qed.

Lemma flat_inj ix jx : chunked ix -> chunked jx -> flat ix = flat jx -> ix = jx.
Proof.
  intros Hi Hj Hf.
  assert (length (sealed ix) = length (sealed jx)) as Hl.
  { pose proof (len_flat _ Hi). pose proof (len_flat _ Hj). unfold len in *.
    destruct Hi as [_ Hi], Hj as [_ Hj]. rewrite Hf in *. nia. }
  destruct Hi as [Hsi Hti], Hj as [Hsj Htj].
  destruct ix as [a x], jx as [b y]. unfold flat in Hf. cbn in *.
  revert b Hl Hsj Hf. induction Hsi as [|c a Hc Ha IH]; intros [|d b] Hl Hsj Hf; cbn in *; try done.
  - by subst.
  - apply Forall_cons_1 in Hsj as [Hd Hb]. rewrite <- !app_assoc in Hf.
    apply app_inj_1 in Hf as [-> Hf]; [|congruence].
    assert (mkPostingIndex a x = mkPostingIndex b y) as [= -> ->]; [|done].
    apply IH; auto.
Qed.

(** Serialization keeps the index, chunk boundaries included. *)
Theorem posting_index_serde_round_trip (ix : PostingIndex) :
  chunked ix -> PostingIndex_deserialize (PostingIndex_serialize ix) = ix.
Proof.
  intros H. apply flat_inj; [|done|].
  - apply push_all_chunked, chunked_default.
  - unfold PostingIndex_deserialize. by rewrite push_all_flat.
Qed.

Lemma posting_index_serde_round_trip_witness :
  chunked sample_index /\
  PostingIndex_deserialize (PostingIndex_serialize sample_index) = sample_index.
Proof. split; [exact sample_index_chunked|]. exact (posting_index_serde_round_trip _ sample_index_chunked). Defined.
