(* ===== verification/Idem.v ===== *)
(** The tiered idempotency index of talea-store-log/src/idem_spill.rs: a
    bounded hot map, run files on disk, and a Bloom filter in front of them.

    A [TieredIdem] has the fields of the code except [runs_dir]: the world is
    the book directory, and a path is the name of a file in it. *)

From stdpp Require Import sorting.
From S2P Require Import Prelude Decimal Assoc Bloom Core Disk.
Open Scope Z_scope.

(** [CommittedRec] of state.rs *)
Record CommittedRec := mkCommittedRec { r_txid : TxId; r_seq : Seq; r_at : DateTime }.

#[export] Instance CommittedRec_eq_dec : EqDecision CommittedRec.
Proof. solve_decision. Defined.

Definition to_committed (r : CommittedRec) : Committed := mkCommitted (r_txid r) (r_seq r) (r_at r).

Definition RUN_CRC_LEN : nat := 4.

Record RunMeta := mkRunMeta {
  rm_path : string;
  key_range : string * string;
  rm_len : nat
}.

Record TieredIdem := mkTieredIdem {
  hot : gmap string CommittedRec;
  order : list string;  (* a VecDeque, front first *)
  cap : nat;
  runs : list RunMeta;
  bloom : Bloom
}.

Definition DEFAULT_IDEM_HOT_CAP : nat := Z.to_nat 1000000.

Definition with_cap (cap : nat) : TieredIdem :=
  mkTieredIdem ∅ [] cap [] (Bloom_new (Z.of_nat cap)).

Definition TieredIdem_default : TieredIdem := with_cap DEFAULT_IDEM_HOT_CAP.

Abbreviation Pair := (string * CommittedRec)%type.

(** ** Run names *)

Definition run_name (n : Z) : string := "idem-" +:+ zero_pad 6 (u64_to_string n) +:+ ".run".

(** [path.with_extension("run.tmp")], on a path whose extension is "run" *)
Definition run_tmp (path : string) : string := path +:+ ".tmp".

Definition parse_run_name (name : string) : option Z :=
  match strip_prefix "idem-" name with
  | None => None
  | Some s => match strip_suffix ".run" s with
              | None => None
              | Some s => parse_u64 s
              end
  end.

Definition next_run_n (existing : list RunMeta) : Z :=
  match omap (fun m => parse_run_name (rm_path m)) existing with
  | [] => 0
  | n :: ns => foldl Z.max n ns + 1
  end.

Definition min_key (pairs : list Pair) : string :=
  match pairs with [] => EmptyString | x :: _ => x.1 end.

Definition max_key (pairs : list Pair) : string :=
  match last pairs with None => EmptyString | Some x => x.1 end.

Definition meta_of (path : string) (pairs : list Pair) : RunMeta :=
  mkRunMeta path (min_key pairs, max_key pairs) (length pairs).

Section idem.
Context `{KeyHashes} `{Crc32} `{Json (list Pair)}.

(** ** Run files: 4 bytes of CRC, then the JSON array *)

Definition encode_run (pairs : list Pair) : result (list byte) string :=
  let? payload := to_vec pairs in
  Ok (to_le_bytes (crc32_hash payload) ++ payload).

Definition decode_run (bytes : list byte) : result (list Pair) string :=
  if (length bytes <? RUN_CRC_LEN)%nat then Err "run too short"%string
  else
    let crc_bytes := take RUN_CRC_LEN bytes in
    let payload := drop RUN_CRC_LEN bytes in
    let stored := from_le_bytes crc_bytes in
    let actual := crc32_hash payload in
    if negb (stored =? actual) then Err "CRC mismatch"%string
    else from_slice payload.

(** Write a temporary file, sync it, rename it over [path], sync the
    directory. *)
Definition write_run_atomic (path : string) (bytes : list byte) : io unit :=
  replace_file (run_tmp path) path bytes.

(** ** The hot map *)

Definition idem_insert (t : TieredIdem) (key : string) (rec : CommittedRec) : TieredIdem :=
  let order' := match hot t !! key with Some _ => order t | None => order t ++ [key] end in
  mkTieredIdem (<[key := rec]> (hot t)) order' (cap t) (runs t) (bloom t).

Definition get_hot (t : TieredIdem) (key : string) : option CommittedRec := hot t !! key.

Definition bloom_might_contain (t : TieredIdem) (key : string) : bool :=
  might_contain (bloom t) key.

Definition needs_flush (t : TieredIdem) : bool := (cap t <? size (hot t))%nat.

(** ** Lookup *)

Definition read_run (path : string) : io (list Pair) :=
  let! bytes := fs_read path in
  io_lift (decode_run bytes).

(** The loop over the runs; a run that cannot be read counts as a miss. *)
Fixpoint lookup_in (metas : list RunMeta) (key : string) : io (option CommittedRec) :=
  match metas with
  | [] => io_ret None
  | meta :: rest =>
      if String.ltb key (key_range meta).1 || String.ltb (key_range meta).2 key
      then lookup_in rest key
      else
        let! r := io_try (read_run (rm_path meta)) in
        match r with
        | Ok pairs =>
            match search_by_key key pairs with
            | Some rec => io_ret (Some rec)
            | None => lookup_in rest key
            end
        | Err _ => lookup_in rest key
        end
  end.

Definition lookup_runs (t : TieredIdem) (key : string) : io (option CommittedRec) :=
  lookup_in (reverse (runs t)) key.

Definition idem_get (t : TieredIdem) (key : string) : io (option CommittedRec) :=
  match hot t !! key with
  | Some rec => io_ret (Some rec)
  | None =>
      if might_contain (bloom t) key then lookup_runs t key else io_ret None
  end.

(** ** Merging the runs *)

Fixpoint read_all (metas : list RunMeta) : io (list Pair) :=
  match metas with
  | [] => io_ret []
  | meta :: rest =>
      let! pairs := read_run (rm_path meta) in
      let! more := read_all rest in
      io_ret (pairs ++ more)
  end.

(** [remove_file] for each path; a failure is logged and skipped. *)
Fixpoint remove_all (paths : list string) : io unit :=
  match paths with
  | [] => io_ret ()
  | p :: rest => let! _ := io_try (fs_remove p) in remove_all rest
  end.

Definition bloom_of (expected : Z) (pairs : list Pair) : Bloom :=
  insert_all (Bloom_new expected) (keys pairs).

Definition merge_runs (t : TieredIdem) : io TieredIdem :=
  if (length (runs t) <=? 1)%nat then io_ret t
  else
    let! r := io_try (read_all (runs t)) in
    match r with
    | Err _ => io_ret t
    | Ok all =>
        let merged := dedup_by_key (sort_by_key all) in
        let merged_path := run_name (next_run_n (runs t)) in
        match encode_run merged with
        | Err _ => io_ret t
        | Ok bytes =>
            let! w := io_try (write_run_atomic merged_path bytes) in
            match w with
            | Err _ => io_ret t
            | Ok _ =>
                let! _ := remove_all (map rm_path (runs t)) in
                let runs' := match merged with [] => [] | _ => [meta_of merged_path merged] end in
                io_ret (mkTieredIdem (hot t) (order t) (cap t) runs'
                  (bloom_of (Z.of_nat (Nat.max (length merged) (cap t))) merged))
            end
        end
    end.

(** ** Spilling the oldest half *)

Fixpoint drain (n : nat) (t : TieredIdem) (spilled : list Pair) : TieredIdem * list Pair :=
  match n with
  | O => (t, spilled)
  | S n =>
      match order t with
      | [] => drain n t spilled
      | key :: order' =>
          match hot t !! key with
          | Some rec =>
              drain n (mkTieredIdem (delete key (hot t)) order' (cap t) (runs t) (bloom t))
                (spilled ++ [(key, rec)])
          | None => drain n (mkTieredIdem (hot t) order' (cap t) (runs t) (bloom t)) spilled
          end
      end
  end.

(** Give spilled pairs back, each to the front of the order. *)
Definition give_back (t : TieredIdem) (pairs : list Pair) : TieredIdem :=
  foldl (fun t '(k, v) =>
    mkTieredIdem (<[k := v]> (hot t)) (k :: order t) (cap t) (runs t) (bloom t)) t pairs.

Definition flush_spill (t0 : TieredIdem) : io TieredIdem :=
  let drain_n := (size (hot t0) / 2)%nat in
  if (drain_n =? 0)%nat then io_ret t0
  else
    let '(t, drained) := drain drain_n t0 [] in
    match drained with
    | [] => io_ret t
    | _ =>
        let spilled := sort_by_key drained in
        let run_path := run_name (next_run_n (runs t)) in
        match encode_run spilled with
        | Err _ => io_ret (give_back t spilled)
        | Ok bytes =>
            let! w := io_try (write_run_atomic run_path bytes) in
            match w with
            | Err _ => io_ret (give_back t (reverse spilled))
            | Ok _ =>
                let t' := mkTieredIdem (hot t) (order t) (cap t)
                            (runs t ++ [meta_of run_path spilled])
                            (insert_all (bloom t) (keys spilled)) in
                if (8 <? length (runs t'))%nat then merge_runs t' else io_ret t'
            end
        end
    end.

(** ** Attaching a directory *)

Definition run_paths_of (names : list string) : list (Z * string) :=
  sort_by (fun x y => x.1 <=? y.1)
    (omap (fun name => (fun n => (n, name)) <$> parse_run_name name) names).

(** The validation loop: the metas of the non-empty runs, or [None] at the
    first run that cannot be read or decoded. *)
Fixpoint validate_runs (paths : list string) : io (option (list RunMeta)) :=
  match paths with
  | [] => io_ret (Some [])
  | path :: rest =>
      let! r := io_try (read_run path) in
      match r with
      | Err _ => io_ret None
      | Ok pairs =>
          let! ms := validate_runs rest in
          io_ret ((fun ms => match pairs with [] => ms | _ => meta_of path pairs :: ms end) <$> ms)
      end
  end.

(** The rebuild branch: one run with the log's pairs that are not hot. *)
Definition rebuild_runs (t : TieredIdem) (paths : list string) (rebuild_fn : io (list Pair)) :
    io (list RunMeta) :=
  let! pairs := rebuild_fn in
  let spill_pairs := filter (fun kv => hot t !! kv.1 = None) pairs in
  let! _ := remove_all paths in
  match spill_pairs with
  | [] => io_ret []
  | _ =>
      let sorted := sort_by_key spill_pairs in
      let run_path := run_name (next_run_n []) in
      match encode_run sorted with
      | Err _ => io_ret []
      | Ok bytes =>
          let! w := io_try (write_run_atomic run_path bytes) in
          match w with
          | Err _ => io_ret []
          | Ok _ => io_ret [meta_of run_path sorted]
          end
      end
  end.

(** The bloom rebuild loop; an unreadable run leaves the filter without its
    keys. *)
Fixpoint rebuild_bloom (b : Bloom) (metas : list RunMeta) : io Bloom :=
  match metas with
  | [] => io_ret b
  | meta :: rest =>
      let! r := io_try (read_run (rm_path meta)) in
      match r with
      | Ok pairs => rebuild_bloom (insert_all b (keys pairs)) rest
      | Err _ => rebuild_bloom b rest
      end
  end.

Definition attach_dir (t : TieredIdem) (rebuild_fn : io (list Pair)) : io TieredIdem :=
  let! names := fs_read_dir in
  let paths := map snd (run_paths_of names) in
  let! valid := validate_runs paths in
  let! metas :=
    match valid, paths with
    | Some metas, _ :: _ => io_ret metas
    | _, _ => rebuild_runs t paths rebuild_fn
    end in
  let! b := rebuild_bloom (Bloom_new (Z.of_nat (cap t))) metas in
  io_ret (mkTieredIdem (hot t) (order t) (cap t) metas b).
End idem.

(** ** Run files read back *)

Section idem_lemmas.
Context `{KeyHashes} `{Crc32} `{!Crc32Laws} `{Json (list Pair)} `{!JsonLaws (list Pair)}.

Lemma decode_encode_run ps bs : encode_run ps = Ok bs -> decode_run bs = Ok ps.
Proof.
  unfold encode_run, decode_run. intros He.
  destruct (to_vec ps) as [payload|] eqn:E; [|done]. assert (bs = to_le_bytes (crc32_hash payload) ++ payload) as -> by congruence.
  rewrite length_app, length_to_le_bytes. cbn [Nat.add Nat.ltb Nat.leb].
  rewrite take_app_length', drop_app_length' by done.
  rewrite from_to_le_bytes by apply crc32_range. rewrite Z.eqb_refl. cbn.
  by apply from_slice_to_vec.
Qed.

Lemma run_tmp_ne path : run_tmp path <> path.
Proof.
  intros E. apply (f_equal String.length) in E. unfold run_tmp in E.
  rewrite length_append in E. cbn in E. lia.
Qed.

Lemma write_run_Ok path bs w w' :
  write_run_atomic path bs w = (Ok (), w') -> bytes_at (dir w') path = Some bs.
Proof. apply replace_file_Ok. Qed.

Lemma write_run_touches path bs :
  only_touches (write_run_atomic path bs) (fun n => n = run_tmp path \/ n = path).
Proof. apply replace_file_touches. Qed.

Lemma parse_run_name_name n : 0 <= n <= u64_max -> parse_run_name (run_name n) = Some n.
Proof.
  intros Hn. unfold parse_run_name, run_name.
  by rewrite strip_prefix_app, strip_suffix_app, parse_u64_zero_padded.
Qed.

(** A temporary name is not a run name. *)
Lemma parse_run_tmp path : parse_run_name (run_tmp path) = None.
Proof.
  unfold parse_run_name, run_tmp. destruct (strip_prefix _ _) as [s|] eqn:Ep; [|done].
  destruct (strip_suffix _ _) as [l|] eqn:Es; [|done].
  apply strip_prefix_Some in Ep. apply strip_suffix_Some in Es as ->.
  rewrite <- append_assoc in Ep. by apply append_inj_2 in Ep as [_ [=]].
Qed.

Lemma foldl_max_base ns n : n <= foldl Z.max n ns.
Proof.
  revert n. induction ns as [|x ns IH]; intros n; cbn; [done|].
  specialize (IH (Z.max n x)). lia.
Qed.

Lemma foldl_max_ge ns n k : k ∈ n :: ns -> k <= foldl Z.max n ns.
Proof.
  revert n. induction ns as [|x ns IH]; intros n Hk; cbn.
  - by apply list_elem_of_singleton in Hk as ->.
  - pose proof (foldl_max_base ns (Z.max n x)).
    apply elem_of_cons in Hk as [->|[->|Hk]%elem_of_cons]; [lia..|].
    apply IH. by right.
Qed.

(** [next_run_n] is above the number of every registered run. *)
Lemma next_run_n_fresh ms meta k :
  meta ∈ ms -> parse_run_name (rm_path meta) = Some k -> k < next_run_n ms.
Proof.
  intros Hm Hk. unfold next_run_n.
  assert (k ∈ omap (fun m => parse_run_name (rm_path m)) ms) as Hin
    by (apply list_elem_of_omap; eauto).
  destruct (omap _ ms) as [|n ns]; [by apply elem_of_nil in Hin|].
  pose proof (foldl_max_ge ns n k Hin). lia.
Qed.
End idem_lemmas.

(** ** What an index represents *)

(** The hot map and its order agree: every hot key is queued once. *)
Definition order_ok (t : TieredIdem) : Prop :=
  NoDup (order t) /\ forall k, k ∈ order t <-> is_Some (hot t !! k).

Section repr.
Context `{KeyHashes} `{Crc32} `{!Crc32Laws} `{Json (list Pair)} `{!JsonLaws (list Pair)}.

(** The file of a run holds [ps], and the registered metadata is that of [ps]. *)
Definition run_has (d : gmap string FileData) (meta : RunMeta) (ps : list Pair) : Prop :=
  (exists bs, bytes_at d (rm_path meta) = Some bs /\ decode_run bs = Ok ps) /\
  sorted_keys ps /\ meta = meta_of (rm_path meta) ps.

Definition pairs_in (ps : list Pair) (M : gmap string CommittedRec) : Prop :=
  forall k v, (k, v) ∈ ps -> M !! k = Some v.

Definition in_bloom (b : Bloom) (ps : list Pair) : Prop :=
  forall k, k ∈ keys ps -> might_contain b k = true.

(** A registered run of an index that represents [M]. *)
Definition run_good d b M (meta : RunMeta) : Prop :=
  is_Some (parse_run_name (rm_path meta)) /\
  exists ps, run_has d meta ps /\ pairs_in ps M /\ in_bloom b ps.

(** [t], on the directory [d], stands for the map [M]: no more than [M] in
    the hot map and in the runs, and all of [M] in one of them. *)
Record idem_repr (d : gmap string FileData) (t : TieredIdem) (M : gmap string CommittedRec) : Prop := {
  repr_order : order_ok t;
  repr_bloom : bloom_wf (bloom t);
  repr_hot : hot t ⊆ M;
  repr_runs : Forall (run_good d (bloom t) M) (runs t);
  repr_cover : forall k v, M !! k = Some v ->
    hot t !! k = Some v \/ exists meta ps, meta ∈ runs t /\ run_has d meta ps /\ (k, v) ∈ ps
}.

Lemma run_has_fun d meta ps ps' : run_has d meta ps -> run_has d meta ps' -> ps = ps'.
Proof. intros [(bs & Hb & Hd) _] [(bs' & Hb' & Hd') _]. congruence. Qed.

Lemma run_has_frame d d' meta ps :
  bytes_at d' (rm_path meta) = bytes_at d (rm_path meta) -> run_has d meta ps -> run_has d' meta ps.
Proof. intros E [(bs & Hb & Hd) Hr]. split; [|done]. exists bs. by rewrite E. Qed.

(** The range of a run covers its keys. *)
Lemma min_key_le ps k v : sorted_keys ps -> (k, v) ∈ ps -> String.le (min_key ps) k.
Proof.
  intros [Hs _] Hin. destruct Hs as [|x ps Hs Hx]; [by apply elem_of_nil in Hin|]. cbn.
  apply elem_of_cons in Hin as [<-|Hin]; [done|]. rewrite Forall_forall in Hx. by apply (Hx (k, v)).
Qed.

Lemma le_max_key ps k v : sorted_keys ps -> (k, v) ∈ ps -> String.le k (max_key ps).
Proof.
  intros [Hs _] Hin. unfold max_key. destruct (last ps) as [x|] eqn:El.
  - apply last_Some in El as [l' ->]. apply elem_of_app in Hin as [Hin|Hin].
    + apply (StronglySorted_app_1_elem_of _ _ _ _ x Hs) in Hin; [done|by left].
    + apply list_elem_of_singleton in Hin as <-. done.
  - apply last_None in El as ->. by apply elem_of_nil in Hin.
Qed.

Lemma le_not_ltb a b : String.le a b -> String.ltb b a = false.
Proof.
  intros Hab%le_compare. unfold String.ltb. rewrite String.compare_antisym.
  by destruct (String.compare a b).
Qed.

Lemma range_covers d meta ps k v :
  run_has d meta ps -> (k, v) ∈ ps ->
  String.ltb k (key_range meta).1 || String.ltb (key_range meta).2 k = false.
Proof.
  intros (_ & Hs & ->) Hin. cbn.
  rewrite !le_not_ltb; [done|by eapply le_max_key|by eapply min_key_le].
Qed.

(** *** Lookups *)

Lemma read_run_spec path w r w' :
  read_run path w = (r, w') ->
  dir w' = dir w /\
  (forall ps, r = Ok ps -> exists bs, bytes_at (dir w) path = Some bs /\ decode_run bs = Ok ps) /\
  (faults w = [] -> w' = w /\
    forall bs, bytes_at (dir w) path = Some bs -> r = decode_run bs).
Proof.
  intros Hr. pose proof (fs_read_dir_same path w) as Hd.
  unfold read_run, io_bind, io_lift in Hr. destruct (fs_read path w) as [[bs|e] w1] eqn:E;
    injection Hr as <- <-; cbn in Hd; split_and!; try done.
  - intros ps Hps. exists bs. split; [by eapply fs_read_Ok|done].
  - intros Hf. pose proof (fs_read_Ok _ _ _ _ E) as Hb.
    rewrite (fs_read_no_faults _ _ _ Hf Hb) in E. injection E as <-. split; [done|].
    intros bs' Hb'. congruence.
  - intros Hf. unfold fs_read in E. destruct w as [d fs]. cbn in Hf. subst fs. cbn in E.
    destruct (d !! path) eqn:Ed; [done|]. injection E as _ <-. split; [done|].
    intros bs. unfold bytes_at. cbn. by rewrite Ed.
Qed.

Lemma run_good_read d b M meta w r w' :
  dir w = d -> run_good d b M meta -> read_run (rm_path meta) w = (r, w') ->
  dir w' = d /\
  (forall ps, r = Ok ps -> run_has d meta ps /\ pairs_in ps M /\ in_bloom b ps) /\
  (faults w = [] -> w' = w /\ exists ps, r = Ok ps).
Proof.
  intros <- (_ & ps & Hh & Hin & Hb) Hr.
  destruct (read_run_spec _ _ _ _ Hr) as (Hd & Hok & Hnf). split_and!; [done| |].
  - intros ps' Hps. assert (ps' = ps) as ->; [|done].
    destruct (Hok _ Hps) as (bs & Hbs & Hdec). destruct Hh as [(bs' & Hbs' & Hdec') _]. congruence.
  - intros Hf. destruct (Hnf Hf) as [-> Hbs]. split; [done|]. exists ps.
    destruct Hh as [(bs & Hbs' & <-) _]. by apply Hbs.
Qed.

Lemma lookup_in_spec d b M metas key w r w' :
  dir w = d -> Forall (run_good d b M) metas -> lookup_in metas key w = (r, w') ->
  dir w' = d /\ exists o, r = Ok o /\ (forall v, o = Some v -> M !! key = Some v) /\
  (faults w = [] -> w' = w /\
    forall meta ps v, meta ∈ metas -> run_has d meta ps -> (key, v) ∈ ps -> is_Some o).
Proof.
  intros Hd Hg. revert w Hd. induction Hg as [|meta metas Hm Hg IH]; intros w Hd Hl; cbn [lookup_in] in Hl.
  { injection Hl as <- <-. split; [done|]. exists None. split_and!; [done..|]. intros _. split; [done|].
    by intros ??? ?%elem_of_nil. }
  destruct (_ || _) eqn:Erange.
  - destruct (IH _ Hd Hl) as (Hd' & o & -> & HM & Hnf). split; [done|]. exists o. split_and!; [done..|].
    intros Hf. destruct (Hnf Hf) as [-> Hsome]. split; [done|].
    intros m ps v [->|Hin]%elem_of_cons Hh Hkv; [|eauto].
    by rewrite (range_covers _ _ _ _ _ Hh Hkv) in Erange.
  - unfold io_bind, io_try in Hl. destruct (read_run (rm_path meta) w) as [r1 w1] eqn:E.
    destruct (run_good_read _ _ _ _ _ _ _ Hd Hm E) as (Hd1 & Hok & Hnf1).
    destruct r1 as [ps|e].
    + destruct (Hok ps eq_refl) as ((Hbs & Hs & Hmeta) & Hin & _).
      rewrite (search_find key ps Hs) in Hl. destruct (find_key key ps) as [rec|] eqn:Ef.
      * injection Hl as <- <-. split; [done|]. exists (Some rec). split_and!; [done| |].
        -- intros v [= <-]. apply Hin. by apply find_key_elem; [apply Hs|].
        -- intros Hf. destruct (Hnf1 Hf) as [-> _]. done.
      * destruct (IH _ Hd1 Hl) as (Hd' & o & -> & HM & Hnf). split; [done|]. exists o. split_and!; [done..|].
        intros Hf. destruct (Hnf1 Hf) as [-> _]. destruct (Hnf Hf) as [-> Hsome]. split; [done|].
        intros m ps' v [->|Hin']%elem_of_cons Hh Hkv; [|eauto].
        assert (ps' = ps) as -> by (by eapply run_has_fun; [|by split_and!]).
        apply find_key_elem in Hkv; [congruence|apply Hs].
    + destruct (IH _ Hd1 Hl) as (Hd' & o & -> & HM & Hnf). split; [done|]. exists o. split_and!; [done..|].
      intros Hf. destruct (Hnf1 Hf) as [_ [ps ?]]. done.
Qed.

Lemma idem_get_spec d t M key w r w' :
  dir w = d -> idem_repr d t M -> idem_get t key w = (r, w') ->
  dir w' = d /\ exists o, r = Ok o /\ (forall v, o = Some v -> M !! key = Some v) /\
  (faults w = [] -> w' = w /\ o = M !! key).
Proof.
  intros Hd Hr Hg. unfold idem_get in Hg. destruct (hot t !! key) as [rec|] eqn:Eh.
  { injection Hg as <- <-. pose proof (lookup_weaken _ _ _ _ Eh (repr_hot _ _ _ Hr)) as HM.
    split; [done|]. exists (Some rec). split_and!; [done| |by rewrite HM]. by intros v [= <-]. }
  destruct (might_contain (bloom t) key) eqn:Eb.
  - unfold lookup_runs in Hg.
    assert (Forall (run_good d (bloom t) M) (reverse (runs t))) as Hrev
      by (rewrite reverse_Permutation; apply (repr_runs _ _ _ Hr)).
    destruct (lookup_in_spec _ _ _ _ _ _ _ _ Hd Hrev Hg) as (Hd' & o & -> & HM & Hnf).
    split; [done|]. exists o. split_and!; [done..|]. intros Hf. destruct (Hnf Hf) as [-> Hsome].
    split; [done|]. destruct (M !! key) as [v|] eqn:EM.
    + destruct (repr_cover _ _ _ Hr _ _ EM) as [?|(meta & ps & Hin & Hh & Hkv)]; [congruence|].
      destruct (Hsome meta ps v) as [v' ->]; [by rewrite reverse_Permutation|done..|].
      specialize (HM v' eq_refl). congruence.
    + destruct o as [v|]; [|done]. specialize (HM v eq_refl). congruence.
  - injection Hg as <- <-. split; [done|]. exists None. split_and!; [done..|]. intros Hf. split; [done|].
    destruct (M !! key) as [v|] eqn:EM; [|done]. exfalso.
    destruct (repr_cover _ _ _ Hr _ _ EM) as [?|(meta & ps & Hin & Hh & Hkv)]; [congruence|].
    pose proof (repr_runs _ _ _ Hr) as Hruns. rewrite Forall_forall in Hruns.
    destruct (Hruns _ Hin) as (_ & ps' & Hh' & _ & Hb).
    rewrite (run_has_fun _ _ _ _ Hh' Hh) in Hb.
    rewrite Hb in Eb; [done|]. unfold keys. apply (list_elem_of_fmap_2 fst _ _ Hkv).
Qed.
End repr.

(** ** Insertion and draining *)

Lemma order_ok_insert t k v : order_ok t -> order_ok (idem_insert t k v).
Proof.
  intros [Hnd Hk]. unfold idem_insert. split; cbn.
  - case_match eqn:E; [done|]. apply NoDup_app. split_and!; [done| |apply NoDup_singleton].
    intros x Hx. apply Hk in Hx. intros ->%list_elem_of_singleton. rewrite E in Hx. by destruct Hx.
  - intros x. destruct (decide (x = k)) as [->|Hne].
    + rewrite lookup_insert_eq. split; [by eexists|]. intros _.
      destruct (hot t !! k) eqn:E; [by apply Hk; rewrite E|]. apply elem_of_app. right. by left.
    + rewrite lookup_insert_ne by done. rewrite <- Hk. case_match; [done|].
      rewrite elem_of_app, list_elem_of_singleton. naive_solver.
Qed.

Lemma order_ok_size t : order_ok t -> length (order t) = size (hot t).
Proof.
  intros [Hnd Hk]. rewrite <- size_dom, <- (size_list_to_set (C:=gset string)) by done.
  f_equal. apply set_eq. intros x. rewrite elem_of_list_to_set, elem_of_dom. apply Hk.
Qed.

Lemma drain_spec n t acc t' out :
  order_ok t -> drain n t acc = (t', out) ->
  exists ex, out = acc ++ ex /\ order_ok t' /\
    cap t' = cap t /\ runs t' = runs t /\ bloom t' = bloom t /\ NoDup (keys ex) /\
    (forall k, hot t !! k = match find_key k ex with Some v => Some v | None => hot t' !! k end) /\
    (forall k, k ∈ keys ex -> hot t' !! k = None) /\
    ((n <= length (order t))%nat -> length ex = n).
Proof.
  revert t acc. induction n as [|n IH]; intros t acc Hok Hd; cbn [drain] in Hd.
  { injection Hd as <- <-. exists []. rewrite app_nil_r. split_and!; try done; [constructor|].
    by intros k ?%elem_of_nil. }
  destruct (order t) as [|key ord] eqn:Eo.
  { destruct (IH _ _ Hok Hd) as (ex & -> & ?). exists ex. rewrite Eo in *. cbn in *. naive_solver lia. }
  pose proof Hok as [Hnd Hk]. rewrite Eo in Hnd. apply NoDup_cons in Hnd as [Hkey Hnd].
  destruct (hot t !! key) as [rec|] eqn:Eh.
  2:{ assert (is_Some (hot t !! key)) as [? ?] by (apply Hk; rewrite Eo; by left). congruence. }
  set (t1 := mkTieredIdem _ _ _ _ _) in Hd.
  assert (order_ok t1) as Hok1.
  { split; cbn; [done|]. intros x. destruct (decide (x = key)) as [->|Hne].
    - rewrite lookup_delete_eq. split; [done|]. by intros [? ?].
    - rewrite lookup_delete_ne by done. rewrite <- Hk, Eo, elem_of_cons. naive_solver. }
  destruct (IH _ _ Hok1 Hd) as (ex & -> & Hok' & Hc & Hr & Hb & Hnde & Hhot & Hnone & Hlen).
  assert (key ∉ keys ex) as Hfresh.
  { intros Hin. pose proof (Hhot key) as Hkk. cbn in Hkk. rewrite lookup_delete_eq in Hkk.
    destruct (find_key key ex) eqn:Ef; [done|]. by apply find_key_None in Ef. }
  exists ((key, rec) :: ex). rewrite <- app_assoc. split_and!; try done.
  - by constructor.
  - intros k. cbn. specialize (Hhot k). cbn in Hhot.
    destruct (String.eqb key k) eqn:E; bool_to_prop; [by subst|].
    by rewrite lookup_delete_ne in Hhot.
  - intros k [->|Hin]%elem_of_cons; [|auto]. cbn.
    pose proof (Hhot key) as Hkk. cbn in Hkk. rewrite lookup_delete_eq in Hkk.
    destruct (find_key key ex); [done|auto].
  - cbn in *. intros. rewrite Hlen; lia.
Qed.

Lemma give_back_spec ps t :
  order_ok t -> NoDup (keys ps) -> (forall k, k ∈ keys ps -> hot t !! k = None) ->
  order_ok (give_back t ps) /\
  cap (give_back t ps) = cap t /\ runs (give_back t ps) = runs t /\ bloom (give_back t ps) = bloom t /\
  (forall k, hot (give_back t ps) !! k =
     match find_key k ps with Some v => Some v | None => hot t !! k end).
Proof.
  revert t. induction ps as [|[k v] ps IH]; intros t Hok Hnd Hfresh; cbn [give_back foldl].
  { split_and!; done. }
  cbn in Hnd. apply NoDup_cons in Hnd as [Hk Hnd].
  set (t1 := mkTieredIdem _ _ _ _ _). change (foldl _ t1 ps) with (give_back t1 ps).
  assert (order_ok t1) as Hok1.
  { pose proof Hok as [Hno Ho]. split; cbn.
    - constructor; [|done]. intros Hin. apply Ho in Hin as [? Hin]. rewrite Hfresh in Hin; [done|by left].
    - intros x. rewrite elem_of_cons, lookup_insert_is_Some, Ho. destruct (decide (x = k)); naive_solver. }
  destruct (IH t1 Hok1 Hnd) as (H1 & -> & -> & -> & Hhot).
  { intros x Hx. cbn. rewrite lookup_insert_ne by (intros ->; done). apply Hfresh. by right. }
  split_and!; try done. intros x. rewrite Hhot. cbn.
  destruct (String.eqb k x) eqn:E; bool_to_prop.
  - subst. apply find_key_None in Hk as ->. by rewrite lookup_insert_eq.
  - case_match; [done|]. by rewrite lookup_insert_ne.
Qed.

(** ** Spilling, merging and attaching keep the represented map *)

Section spill.
Context `{KeyHashes} `{Crc32} `{!Crc32Laws} `{Json (list Pair)} `{!JsonLaws (list Pair)}.

Lemma repr_frame d d' t M :
  (forall meta, meta ∈ runs t -> bytes_at d' (rm_path meta) = bytes_at d (rm_path meta)) ->
  idem_repr d t M -> idem_repr d' t M.
Proof.
  intros Hf [Ho Hb Hh Hr Hc]. split; try done.
  - rewrite Forall_forall in Hr |- *. intros meta Hin.
    destruct (Hr meta Hin) as (Hp & ps & Hh' & ?). split; [done|]. exists ps.
    split; [by eapply run_has_frame, Hh'; auto|done].
  - intros k v HM. destruct (Hc k v HM) as [?|(meta & ps & Hin & Hh' & ?)]; [by left|].
    right. exists meta, ps. split_and!; [done| |done]. by eapply run_has_frame, Hh'; auto.
Qed.

(** Only the hot map, the runs and the filter matter. *)
Lemma repr_same d t t' M :
  order_ok t' -> (forall k, hot t' !! k = hot t !! k) -> runs t' = runs t -> bloom t' = bloom t ->
  idem_repr d t M -> idem_repr d t' M.
Proof.
  intros Ho Hhot Hr Hb [? ? ? ? ?]. apply map_eq in Hhot.
  split; rewrite ?Hhot, ?Hr, ?Hb; done.
Qed.

Lemma in_bloom_mono b ps ks : bloom_wf b -> in_bloom b ps -> in_bloom (insert_all b ks) ps.
Proof. intros Hwf Hin k Hk. apply insert_all_mono; auto. Qed.

Lemma in_bloom_insert_all b ps : bloom_wf b -> in_bloom (insert_all b (keys ps)) ps.
Proof. intros Hwf k Hk. by apply insert_all_contains. Qed.

Lemma run_has_written d path ps bs :
  bytes_at d path = Some bs -> encode_run ps = Ok bs -> sorted_keys ps ->
  run_has d (meta_of path ps) ps.
Proof.
  intros Hb He Hs. split_and!; [|done|done]. exists bs. split; [done|]. by apply decode_encode_run.
Qed.

Lemma next_run_n_nonneg ms : 0 <= next_run_n ms.
Proof.
  unfold next_run_n. destruct (omap _ ms) as [|n ns] eqn:E; [done|].
  assert (0 <= n); [|pose proof (foldl_max_base ns n); lia].
  assert (n ∈ omap (fun m => parse_run_name (rm_path m)) ms) as Hin by (rewrite E; by left).
  apply list_elem_of_omap in Hin as (meta & _ & Hp). unfold parse_run_name in Hp.
  repeat case_match; try done. by eapply parse_u64_nonneg.
Qed.

(** The file of a fresh run and its temporary are not registered runs. *)
Lemma fresh_run_path ms meta :
  next_run_n ms <= u64_max -> meta ∈ ms -> is_Some (parse_run_name (rm_path meta)) ->
  rm_path meta <> run_name (next_run_n ms) /\ rm_path meta <> run_tmp (run_name (next_run_n ms)).
Proof.
  intros Hmax Hin [k Hk]. pose proof (next_run_n_fresh _ _ _ Hin Hk). split; intros E; rewrite E in Hk.
  - rewrite parse_run_name_name in Hk; [simplify_eq; lia|]. pose proof (next_run_n_nonneg ms). lia.
  - by rewrite parse_run_tmp in Hk.
Qed.

Lemma write_run_frame ms w r w' bs :
  next_run_n ms <= u64_max ->
  Forall (fun meta => is_Some (parse_run_name (rm_path meta))) ms ->
  write_run_atomic (run_name (next_run_n ms)) bs w = (r, w') ->
  forall meta, meta ∈ ms -> bytes_at (dir w') (rm_path meta) = bytes_at (dir w) (rm_path meta).
Proof.
  intros Hmax Hp Hw meta Hin. rewrite Forall_forall in Hp.
  destruct (fresh_run_path ms meta Hmax Hin (Hp _ Hin)) as [Hn1 Hn2].
  pose proof (write_run_touches (run_name (next_run_n ms)) bs w (rm_path meta)) as Ht.
  rewrite Hw in Ht. apply Ht. tauto.
Qed.

Lemma repr_names d t M :
  idem_repr d t M -> Forall (fun meta => is_Some (parse_run_name (rm_path meta))) (runs t).
Proof. intros Hr. eapply Forall_impl; [apply (repr_runs _ _ _ Hr)|]. by intros meta [? _]. Qed.

(** *** Merging *)

Lemma read_all_spec d b M metas w r w' :
  dir w = d -> Forall (run_good d b M) metas -> read_all metas w = (r, w') ->
  dir w' = d /\ (forall all, r = Ok all ->
    pairs_in all M /\ (forall meta ps x, meta ∈ metas -> run_has d meta ps -> x ∈ ps -> x ∈ all)) /\
  (faults w = [] -> w' = w /\ exists all, r = Ok all).
Proof.
  intros Hd Hg. revert w r w' Hd. induction Hg as [|meta metas Hm Hg IH]; intros w r w' Hd Ha; cbn [read_all] in Ha.
  { injection Ha as <- <-. split_and!; [done| |eauto]. intros all [= <-]. split; intros ?*; by intros ?%elem_of_nil. }
  unfold io_bind at 1 in Ha. destruct (read_run (rm_path meta) w) as [[ps|e] w1] eqn:E;
    destruct (run_good_read _ _ _ _ _ _ _ Hd Hm E) as (Hd1 & Hok & Hnf1).
  2:{ injection Ha as <- <-. split_and!; [done..|]. intros Hf. by destruct (Hnf1 Hf) as [_ [ps ?]]. }
  destruct (Hok ps eq_refl) as (Hh & Hin & _). unfold io_bind in Ha.
  destruct (read_all metas w1) as [[more|e] w2] eqn:E2; destruct (IH _ _ _ Hd1 E2) as (Hd2 & Hok2 & Hnf2);
    injection Ha as <- <-; split_and!; try done.
  - intros all [= <-]. destruct (Hok2 more eq_refl) as [Hin2 Hcov]. split.
    + intros k v [?|?]%elem_of_app; auto.
    + intros m ps' x [->|Hm']%elem_of_cons Hh' Hx; apply elem_of_app; [left|right; eauto].
      by rewrite (run_has_fun _ _ _ _ Hh Hh').
  - intros Hf. destruct (Hnf1 Hf) as [-> _]. destruct (Hnf2 Hf) as [-> _]. eauto.
  - intros Hf. destruct (Hnf1 Hf) as [-> _]. by destruct (Hnf2 Hf) as [-> [? ?]].
Qed.

Lemma remove_all_spec paths w r w' :
  remove_all paths w = (r, w') ->
  r = Ok () /\ (forall n, n ∉ paths -> bytes_at (dir w') n = bytes_at (dir w) n).
Proof.
  revert w. induction paths as [|p paths IH]; intros w Hr; cbn in Hr; [by injection Hr as <- <-|].
  unfold io_bind, io_try in Hr. pose proof (fs_remove_touches p w) as Ht.
  destruct (fs_remove p w) as [r1 w1]. destruct (IH _ Hr) as [-> Hf]. split; [done|].
  intros n Hn. apply not_elem_of_cons in Hn as [Hp Hn]. rewrite Hf by done. by apply Ht.
Qed.

Lemma merge_runs_spec d t M w r w' :
  dir w = d -> idem_repr d t M -> next_run_n (runs t) <= u64_max -> merge_runs t w = (r, w') ->
  exists t', r = Ok t' /\ idem_repr (dir w') t' M /\ hot t' = hot t /\ cap t' = cap t.
Proof.
  intros Hd Hr Hmax Hm. unfold merge_runs in Hm. case_match; [injection Hm as <- <-; subst; eauto|].
  unfold io_bind at 1, io_try at 1 in Hm. destruct (read_all (runs t) w) as [ra w1] eqn:Ea.
  destruct (read_all_spec _ _ _ _ _ _ _ Hd (repr_runs _ _ _ Hr) Ea) as (Hd1 & Hall & _).
  destruct ra as [all|e]; [|injection Hm as <- <-; rewrite Hd1; eauto].
  destruct (Hall all eq_refl) as [HallM Hcov]. clear Hall.
  set (merged := dedup_by_key (sort_by_key all)) in *.
  destruct (dedup_by_key_spec (sort_by_key all) (sort_by_key_sorted _)) as (Hsk & Hsub & Hkeys).
  fold merged in Hsk, Hsub, Hkeys.
  assert (pairs_in merged M) as HmM.
  { intros k v Hin. apply HallM. rewrite <- (sort_by_key_perm all). by apply Hsub. }
  destruct (encode_run merged) as [bs|e] eqn:Ee; [|injection Hm as <- <-; rewrite Hd1; eauto].
  unfold io_bind at 1, io_try at 1 in Hm.
  destruct (write_run_atomic _ bs w1) as [rw w2] eqn:Ew.
  pose proof (write_run_frame _ _ _ _ _ Hmax (repr_names _ _ _ Hr) Ew) as Hframe. rewrite Hd1 in Hframe.
  destruct rw as [[]|e].
  2:{ injection Hm as <- <-. exists t. split_and!; [done| |done..]. by apply repr_frame with d. }
  unfold io_bind in Hm. destruct (remove_all (map rm_path (runs t)) w2) as [rr w3] eqn:Er.
  destruct (remove_all_spec _ _ _ _ Er) as [-> Hkeep]. injection Hm as <- <-.
  eexists. split; [done|]. cbn. split; [|done].
  assert (bytes_at (dir w3) (run_name (next_run_n (runs t))) = Some bs) as Hbs.
  { rewrite Hkeep; [by eapply write_run_Ok|]. intros (meta & E & Hin)%list_elem_of_fmap.
    pose proof (repr_names _ _ _ Hr) as Hn. rewrite Forall_forall in Hn.
    destruct (fresh_run_path _ _ Hmax Hin (Hn _ Hin)) as [? _]. congruence. }
  pose proof (run_has_written _ _ _ _ Hbs Ee Hsk) as Hhas.
  assert (bloom_wf (Bloom_new (Z.of_nat (length merged `max` cap t)))) as Hbw by apply Bloom_new_wf.
  split; cbn.
  - apply (repr_order _ _ _ Hr).
  - by apply insert_all_wf.
  - apply (repr_hot _ _ _ Hr).
  - destruct merged as [|x l] eqn:Em; [constructor|]. rewrite <- Em in *. constructor; [|constructor].
    split.
    + cbn. eexists. apply parse_run_name_name. split; [apply next_run_n_nonneg|done].
    + exists merged. split_and!; [done..|]. by apply in_bloom_insert_all.
  - intros k v HM. destruct (repr_cover _ _ _ Hr _ _ HM) as [?|(meta & ps & Hin & Hh & Hkv)]; [by left|].
    right. assert (k ∈ keys merged) as Hk.
    { apply Hkeys. unfold keys. rewrite sort_by_key_perm. apply (list_elem_of_fmap_2 fst _ (k, v)). by eapply Hcov. }
    apply elem_of_keys in Hk as [v' Hk]. pose proof (HmM _ _ Hk) as HM'. simplify_eq.
    exists (meta_of (run_name (next_run_n (runs t))) merged), merged. split_and!; [|done..].
    destruct merged; [by apply elem_of_nil in Hk|]. by left.
Qed.
End spill.

Section flush.
Context `{KeyHashes} `{Crc32} `{!Crc32Laws} `{Json (list Pair)} `{!JsonLaws (list Pair)}.

Lemma foldl_max_lub ns n b : n <= b -> Forall (fun k => k <= b) ns -> foldl Z.max n ns <= b.
Proof. intros Hn Hns. revert n Hn. induction Hns; intros n Hn; cbn; [done|]. apply IHHns. lia. Qed.

Lemma next_run_n_lub ms b :
  0 <= b -> (forall meta k, meta ∈ ms -> parse_run_name (rm_path meta) = Some k -> k < b) ->
  next_run_n ms <= b.
Proof.
  intros Hb0 Hb. unfold next_run_n.
  assert (Forall (fun k => k <= b - 1) (omap (fun m => parse_run_name (rm_path m)) ms)) as Hall.
  { apply Forall_forall. intros k (meta & Hin & Hk)%list_elem_of_omap. specialize (Hb _ _ Hin Hk). lia. }
  destruct (omap _ ms) as [|n ns]; [done|]. apply Forall_cons in Hall as [Hn Hns].
  pose proof (foldl_max_lub ns n (b - 1) Hn Hns). lia.
Qed.

Lemma next_run_n_snoc ms ps :
  next_run_n ms <= u64_max ->
  next_run_n (ms ++ [meta_of (run_name (next_run_n ms)) ps]) <= next_run_n ms + 1.
Proof.
  intros Hmax. pose proof (next_run_n_nonneg ms) as H0'. apply next_run_n_lub; [lia|].
  intros meta k [Hin| ->%list_elem_of_singleton]%elem_of_app Hk.
  - pose proof (next_run_n_fresh _ _ _ Hin Hk). lia.
  - unfold meta_of in Hk. cbn [rm_path] in Hk. rewrite parse_run_name_name in Hk by done. simplify_eq. lia.
Qed.

Lemma run_good_mono d b b' M meta :
  (forall ps, in_bloom b ps -> in_bloom b' ps) -> run_good d b M meta -> run_good d b' M meta.
Proof. intros Hb (Hp & ps & Hh & Hin & Hbl). split; [done|]. exists ps. auto. Qed.

Lemma run_good_frame d d' b M meta :
  bytes_at d' (rm_path meta) = bytes_at d (rm_path meta) -> run_good d b M meta -> run_good d' b M meta.
Proof. intros E (Hp & ps & Hh & ?). split; [done|]. exists ps. split; [by eapply run_has_frame|done]. Qed.

(** A drained half written as a run: the spilled index. *)
Lemma spilled_repr d d' t t1 ex bs M :
  idem_repr d t M -> order_ok t1 -> runs t1 = runs t -> bloom t1 = bloom t -> NoDup (keys ex) ->
  next_run_n (runs t) <= u64_max ->
  (forall k, hot t !! k = match find_key k ex with Some v => Some v | None => hot t1 !! k end) ->
  (forall k, k ∈ keys ex -> hot t1 !! k = None) ->
  encode_run (sort_by_key ex) = Ok bs ->
  bytes_at d' (run_name (next_run_n (runs t))) = Some bs ->
  (forall meta, meta ∈ runs t -> bytes_at d' (rm_path meta) = bytes_at d (rm_path meta)) ->
  idem_repr d' (mkTieredIdem (hot t1) (order t1) (cap t1)
    (runs t1 ++ [meta_of (run_name (next_run_n (runs t1))) (sort_by_key ex)])
    (insert_all (bloom t1) (keys (sort_by_key ex)))) M.
Proof.
  intros Hr Ho1 Hruns Hbloom Hnd Hmax Hhot Hnone He Hbs Hframe. rewrite Hruns, Hbloom.
  assert (pairs_in (sort_by_key ex) M) as HexM.
  { intros k v Hin. rewrite sort_by_key_perm in Hin. apply find_key_elem in Hin; [|done].
    eapply lookup_weaken; [|apply (repr_hot _ _ _ Hr)]. by rewrite Hhot, Hin. }
  pose proof (sort_sorted_keys _ Hnd) as Hsk.
  pose proof (run_has_written _ _ _ _ Hbs He Hsk) as Hhas.
  pose proof (repr_bloom _ _ _ Hr) as Hbw. split; cbn.
  - done.
  - by apply insert_all_wf.
  - apply map_subseteq_spec. intros k v Hk. eapply lookup_weaken; [|apply (repr_hot _ _ _ Hr)].
    rewrite Hhot. destruct (find_key k ex) eqn:Ef; [|done].
    apply find_key_elem in Ef; [|done]. rewrite Hnone in Hk; [done|]. apply elem_of_keys. eauto.
  - apply Forall_app. split; [|constructor; [|constructor]].
    + pose proof (repr_runs _ _ _ Hr) as Hg. rewrite Forall_forall in Hg |- *. intros meta Hin.
      eapply run_good_mono; [by intros ps; apply in_bloom_mono|].
      eapply run_good_frame; [by apply Hframe|]. auto.
    + split; [eexists; cbn; apply parse_run_name_name; split; [apply next_run_n_nonneg|done]|].
      exists (sort_by_key ex). split_and!; [done..|]. by apply in_bloom_insert_all.
  - intros k v HM. destruct (repr_cover _ _ _ Hr _ _ HM) as [Hk|(meta & ps & Hin & Hh & Hkv)].
    + rewrite Hhot in Hk. destruct (find_key k ex) eqn:Ef; [|by left]. simplify_eq.
      right. eexists _, (sort_by_key ex). split_and!; [apply elem_of_app; right; by left|done|].
      rewrite sort_by_key_perm. by apply find_key_elem.
    + right. exists meta, ps. split_and!; [apply elem_of_app; by left| |done].
      eapply run_has_frame, Hh. by apply Hframe.
Qed.

(** Failure: the drained half goes back. *)
Lemma given_back_repr d t t1 ex ps M :
  idem_repr d t M -> order_ok t1 -> runs t1 = runs t -> bloom t1 = bloom t -> NoDup (keys ex) ->
  (forall k, hot t !! k = match find_key k ex with Some v => Some v | None => hot t1 !! k end) ->
  (forall k, k ∈ keys ex -> hot t1 !! k = None) -> ps ≡ₚ ex ->
  idem_repr d (give_back t1 ps) M.
Proof.
  intros Hr Ho1 Hruns Hbloom Hnd Hhot Hnone Hp.
  assert (NoDup (keys ps)) as Hnd' by (unfold keys in *; by rewrite Hp).
  destruct (give_back_spec ps t1 Ho1 Hnd') as (Ho & _ & Hr' & Hb' & Hh').
  { intros k Hk. apply Hnone. unfold keys in *. by rewrite <- Hp. }
  apply (repr_same d t); [done| |congruence|congruence|done].
  intros k. rewrite Hh', Hhot. by rewrite (find_key_perm k ps ex).
Qed.

Lemma flush_spill_spec d t M w r w' :
  dir w = d -> idem_repr d t M -> next_run_n (runs t) < u64_max -> flush_spill t w = (r, w') ->
  exists t', r = Ok t' /\ idem_repr (dir w') t' M /\ cap t' = cap t.
Proof.
  intros Hd Hr Hmax Hf. unfold flush_spill in Hf. cbn zeta in Hf.
  case_match; [injection Hf as <- <-; subst; eauto|].
  destruct (drain _ t []) as [t1 drained] eqn:Edr.
  destruct (drain_spec _ _ _ _ _ (repr_order _ _ _ Hr) Edr)
    as (ex & -> & Ho1 & Hcap & Hruns & Hbloom & Hnd & Hhot & Hnone & _). cbn [app] in Hf.
  assert (forall ps, ps ≡ₚ ex -> idem_repr d (give_back t1 ps) M /\ cap (give_back t1 ps) = cap t) as Hgb.
  { intros ps Hp. split; [by eapply given_back_repr|].
    assert (NoDup (keys ps)) as Hnd' by (unfold keys in *; by rewrite Hp).
    destruct (give_back_spec ps t1 Ho1 Hnd') as (_ & -> & _); [|done].
    intros k Hk. apply Hnone. unfold keys in *. by rewrite <- Hp. }
  destruct ex as [|e0 ex'] eqn:Eex.
  { injection Hf as <- <-. rewrite Hd. destruct (Hgb [] (Permutation_refl _)) as [? ?]. eauto. }
  rewrite <- Eex in *. clear Eex e0 ex'.
  destruct (encode_run (sort_by_key ex)) as [bs|e] eqn:Ee.
  2:{ injection Hf as <- <-. rewrite Hd.
      destruct (Hgb _ (sort_by_key_perm ex)) as [? ?]. eauto. }
  unfold io_bind at 1, io_try at 1 in Hf. rewrite Hruns in Hf.
  destruct (write_run_atomic _ bs w) as [rw w1] eqn:Ew.
  pose proof (write_run_frame (runs t) _ _ _ _ (Z.lt_le_incl _ _ Hmax) (repr_names _ _ _ Hr) Ew) as Hframe.
  rewrite Hd in Hframe. destruct rw as [[]|e].
  - pose proof (write_run_Ok _ _ _ _ Ew) as Hbs.
    assert (next_run_n (runs t) <= u64_max) as Hle by lia.
    pose proof (spilled_repr _ _ _ _ _ _ _ Hr Ho1 Hruns Hbloom Hnd Hle Hhot Hnone Ee Hbs Hframe) as Hr'.
    rewrite Hruns in Hr'. case_match.
    + pose proof (next_run_n_snoc (runs t) (sort_by_key ex) Hle) as Hsnoc.
      assert (next_run_n (runs t ++ [meta_of (run_name (next_run_n (runs t))) (sort_by_key ex)])
        <= u64_max) as Hle2 by lia.
      destruct (merge_runs_spec _ _ _ _ _ _ eq_refl Hr' Hle2 Hf) as (t' & Hrt & Hrt' & _ & Hct).
      exists t'. split_and!; [done..|]. cbn in Hct. congruence.
    + injection Hf as <- <-. eauto.
  - injection Hf as <- <-. destruct (Hgb (reverse (sort_by_key ex))) as [Hr1 Hc1].
    { by rewrite reverse_Permutation, sort_by_key_perm. }
    eexists. split_and!; [done| |done]. eapply repr_frame, Hr1.
    intros meta Hin. apply Hframe.
    assert (NoDup (keys (reverse (sort_by_key ex)))) as Hnd'.
    { unfold keys in *. by rewrite reverse_Permutation, sort_by_key_perm. }
    destruct (give_back_spec _ t1 Ho1 Hnd') as (_ & _ & Hr2 & _).
    { intros k Hk. apply Hnone. unfold keys in *. by rewrite reverse_Permutation, sort_by_key_perm in Hk. }
    congruence.
Qed.

Lemma insert_repr d t M k v :
  idem_repr d t M -> M !! k = None \/ M !! k = Some v -> idem_repr d (idem_insert t k v) (<[k := v]> M).
Proof.
  intros Hr HM. assert (M ⊆ <[k := v]> M) as Hsub.
  { destruct HM as [HM|HM]; [by apply insert_subseteq|by rewrite insert_id]. }
  split; cbn.
  - apply order_ok_insert, (repr_order _ _ _ Hr).
  - apply (repr_bloom _ _ _ Hr).
  - apply fin_maps.insert_mono, (repr_hot _ _ _ Hr).
  - eapply Forall_impl; [apply (repr_runs _ _ _ Hr)|]. intros meta (Hp & ps & Hh & Hin & Hb).
    split; [done|]. exists ps. split_and!; [done| |done]. intros k' v' Hk. by eapply lookup_weaken; [apply Hin|].
  - intros k' v' Hk. destruct (decide (k' = k)) as [->|Hne].
    + rewrite lookup_insert_eq in Hk |- *. by left.
    + rewrite lookup_insert_ne in Hk |- * by done. apply (repr_cover _ _ _ Hr _ _ Hk).
Qed.

Lemma with_cap_repr d n : idem_repr d (with_cap n) ∅.
Proof.
  split; unfold with_cap; cbn [hot order bloom runs].
  - split; cbn [hot order]; [constructor|]. intros k. rewrite lookup_empty.
    split; [by intros ?%elem_of_nil|by intros [? ?]].
  - apply Bloom_new_wf.
  - done.
  - constructor.
  - intros k v. by rewrite lookup_empty.
Qed.
End flush.

Section attach.
Context `{KeyHashes} `{Crc32} `{!Crc32Laws} `{Json (list Pair)} `{!JsonLaws (list Pair)}.

Lemma io_ret_bind {A B} (m : io A) (k : A -> io B) w a w1 :
  m w = (Ok a, w1) -> io_bind m k w = k a w1.
Proof. unfold io_bind. by intros ->. Qed.

Lemma io_try_Ok {A} (m : io A) w r w1 : m w = (r, w1) -> io_try m w = (Ok r, w1).
Proof. unfold io_try. by intros ->. Qed.

(** A run file of the directory, with its pairs. *)
Definition run_file (d : gmap string FileData) (path : string) (ps : list Pair) : Prop :=
  is_Some (parse_run_name path) /\ exists bs, bytes_at d path = Some bs /\ decode_run bs = Ok ps.

Lemma validate_runs_spec w paths :
  faults w = [] -> Forall (fun p => is_Some (parse_run_name p) /\ is_Some (bytes_at (dir w) p)) paths ->
  exists o, validate_runs paths w = (Ok o, w) /\ forall metas, o = Some metas ->
    (forall p, p ∈ paths -> exists ps, run_file (dir w) p ps /\ (ps = [] \/ meta_of p ps ∈ metas)) /\
    (forall meta, meta ∈ metas -> exists ps, run_file (dir w) (rm_path meta) ps /\
       meta = meta_of (rm_path meta) ps).
Proof.
  intros Hf Hp. induction Hp as [|p paths [Hname [bs Hb]] Hp IH]; cbn [validate_runs].
  { exists (Some []). split; [done|]. intros ? [= <-]. split; by intros ? ?%elem_of_nil. }
  destruct (read_run p w) as [r w1] eqn:E.
  destruct (read_run_spec _ _ _ _ E) as (_ & _ & Hnf). destruct (Hnf Hf) as [-> Hr].
  rewrite (io_ret_bind _ _ _ _ _ (io_try_Ok _ _ _ _ E)). rewrite (Hr bs Hb).
  destruct (decode_run bs) as [ps|e] eqn:Ed; [|by exists None].
  destruct IH as (o & Ho & Hspec). rewrite (io_ret_bind _ _ _ _ _ Ho).
  eexists. split; [done|]. intros metas Hm. destruct o as [ms|]; cbn in Hm; [|done]. simplify_eq.
  destruct (Hspec ms eq_refl) as [H1' H2'].
  assert (run_file (dir w) p ps) as Hrf by (split; eauto). split.
  - intros q [->|Hq]%elem_of_cons.
    + exists ps. split; [done|]. destruct ps; [by left|]. right. by left.
    + destruct (H1' q Hq) as (ps' & ? & Hin). exists ps'. split; [done|]. destruct Hin; [by left|].
      right. destruct ps; [done|by right].
  - intros meta Hin. destruct ps as [|x ps]; [auto|].
    apply elem_of_cons in Hin as [->|Hin]; [|auto]. eexists. by split.
Qed.

Lemma rebuild_bloom_spec w metas b :
  faults w = [] -> bloom_wf b -> (forall meta, meta ∈ metas -> exists ps, run_has (dir w) meta ps) ->
  exists b', rebuild_bloom b metas w = (Ok b', w) /\ bloom_wf b' /\
    (forall ps, in_bloom b ps -> in_bloom b' ps) /\
    (forall meta ps, meta ∈ metas -> run_has (dir w) meta ps -> in_bloom b' ps).
Proof.
  intros Hf. revert b. induction metas as [|meta metas IH]; intros b Hb Hm; cbn [rebuild_bloom].
  { exists b. split_and!; try done. by intros ?? ?%elem_of_nil. }
  destruct (Hm meta) as [ps Hh]; [by left|].
  destruct (read_run (rm_path meta) w) as [r w1] eqn:E.
  destruct (read_run_spec _ _ _ _ E) as (_ & _ & Hnf). destruct (Hnf Hf) as [-> Hr].
  rewrite (io_ret_bind _ _ _ _ _ (io_try_Ok _ _ _ _ E)).
  pose proof Hh as [(bs & Hbs & Hdec) _]. rewrite (Hr bs Hbs), Hdec.
  destruct (IH (insert_all b (keys ps))) as (b' & Hb' & Hwf & Hmono & Hin).
  { by apply insert_all_wf. }
  { intros m' Hm'. apply Hm. by right. }
  exists b'. split_and!; [done..| |].
  - intros ps' Hps'. by apply Hmono, in_bloom_mono.
  - intros m' ps' [->|Hm']%elem_of_cons Hh'; [|by eapply Hin].
    rewrite <- (run_has_fun _ _ _ _ Hh Hh'). by apply Hmono, in_bloom_insert_all.
Qed.

Lemma remove_all_no_faults paths w :
  faults w = [] -> exists w', remove_all paths w = (Ok (), w') /\ faults w' = [].
Proof.
  revert w. induction paths as [|p paths IH]; intros w Hf; cbn [remove_all]; [eauto|].
  destruct (fs_remove p w) as [r w1] eqn:E. rewrite (io_ret_bind _ _ _ _ _ (io_try_Ok _ _ _ _ E)).
  apply IH. destruct w as [d fs]. cbn in Hf. subst. unfold fs_remove in E. cbn in E.
  destruct (d !! p); by injection E as _ <-.
Qed.

(** The metas a directory is attached with, and what they cover. *)
Definition metas_repr d t M metas : Prop :=
  Forall (fun meta => is_Some (parse_run_name (rm_path meta)) /\
    exists ps, run_has d meta ps /\ pairs_in ps M) metas /\
  (forall k v, M !! k = Some v ->
    hot t !! k = Some v \/ exists meta ps, meta ∈ metas /\ run_has d meta ps /\ (k, v) ∈ ps).

Lemma rebuild_runs_spec w t M log paths rebuild_fn :
  faults w = [] -> rebuild_fn w = (Ok log, w) -> NoDup (keys log) ->
  (forall k v, (k, v) ∈ log <-> M !! k = Some v) -> hot t ⊆ M -> (forall ps : list Pair, is_ok (to_vec ps) = true) ->
  exists metas w', rebuild_runs t paths rebuild_fn w = (Ok metas, w') /\ faults w' = [] /\
    metas_repr (dir w') t M metas.
Proof.
  intros Hf Hre Hnd Hlog Hhot Htot. unfold rebuild_runs. rewrite (io_ret_bind _ _ _ _ _ Hre).
  set (sp := filter _ log).
  destruct (remove_all_no_faults paths w Hf) as (w1 & Hrm & Hf1). rewrite (io_ret_bind _ _ _ _ _ Hrm).
  assert (forall k v, M !! k = Some v -> hot t !! k = Some v \/ (k, v) ∈ sp) as Hcov.
  { intros k v HM. destruct (hot t !! k) as [v'|] eqn:Eh.
    - left. pose proof (lookup_weaken _ _ _ _ Eh Hhot). congruence.
    - right. apply list_elem_of_filter. split; [done|]. by apply Hlog. }
  destruct sp as [|x sp'] eqn:Esp.
  { exists [], w1. split_and!; [done..|]. split; [constructor|]. intros k v HM.
    destruct (Hcov k v HM) as [?|?%elem_of_nil]; [by left|done]. }
  rewrite <- Esp in *. clear Esp x sp'.
  assert (NoDup (keys sp)) as Hnds.
  { eapply sublist_NoDup; [exact Hnd|]. apply (fmap_sublist fst), sublist_filter. }
  destruct (encode_run (sort_by_key sp)) as [bs|e] eqn:Ee.
  2:{ unfold encode_run in Ee. specialize (Htot (sort_by_key sp)). by destruct (to_vec _). }
  destruct (replace_file_no_faults (run_tmp (run_name (next_run_n []))) (run_name (next_run_n [])) bs w1 Hf1)
    as (w2 & Hw & Hf2).
  rewrite (io_ret_bind _ _ _ _ _ (io_try_Ok _ _ _ _ Hw)).
  pose proof (replace_file_Ok _ _ _ _ _ Hw) as Hbs.
  pose proof (run_has_written _ _ _ _ Hbs Ee (sort_sorted_keys _ Hnds)) as Hh.
  eexists [_], w2. split_and!; [done..|]. split.
  - constructor; [|constructor]. split; [eexists; by apply (parse_run_name_name 0)|].
    exists (sort_by_key sp). split; [done|]. intros k v Hin. rewrite sort_by_key_perm in Hin.
    apply list_elem_of_filter in Hin as [_ Hin]. by apply Hlog.
  - intros k v HM. destruct (Hcov k v HM) as [?|Hin]; [by left|]. right.
    eexists _, (sort_by_key sp). split_and!; [by left|done|]. by rewrite sort_by_key_perm.
Qed.

Lemma metas_repr_attach w t M metas :
  faults w = [] -> order_ok t -> hot t ⊆ M -> metas_repr (dir w) t M metas ->
  exists b, rebuild_bloom (Bloom_new (Z.of_nat (cap t))) metas w = (Ok b, w) /\
    idem_repr (dir w) (mkTieredIdem (hot t) (order t) (cap t) metas b) M.
Proof.
  intros Hf Ho Hhot [Hm Hcov]. rewrite Forall_forall in Hm.
  destruct (rebuild_bloom_spec w metas (Bloom_new (Z.of_nat (cap t))) Hf (Bloom_new_wf _))
    as (b & Hb & Hwf & _ & Hin).
  { intros meta Hmeta. destruct (Hm meta Hmeta) as (_ & ps & ? & _). eauto. }
  exists b. split; [done|]. split; cbn; try done.
  apply Forall_forall. intros meta Hmeta. destruct (Hm meta Hmeta) as (? & ps & ? & ?).
  split; [done|]. exists ps. split_and!; [done..|]. by eapply Hin.
Qed.

(** What attaching relies on: the hot map is part of [M], the log has the
    pairs of [M], and the run files are sorted and hold pairs of [M]; if
    they all decode (and there are any), they and the hot map hold all of
    [M]. *)
Record attachable (d : gmap string FileData) (t : TieredIdem) (M : gmap string CommittedRec)
    (log : list Pair) : Prop := {
  at_order : order_ok t;
  at_hot : hot t ⊆ M;
  at_log : NoDup (keys log) /\ forall k v, (k, v) ∈ log <-> M !! k = Some v;
  at_runs : forall path ps, run_file d path ps -> sorted_keys ps /\ pairs_in ps M;
  at_cover :
    (exists path, is_Some (parse_run_name path) /\ is_Some (bytes_at d path)) ->
    (forall path, is_Some (parse_run_name path) -> is_Some (bytes_at d path) -> exists ps, run_file d path ps) ->
    forall k v, M !! k = Some v -> hot t !! k = Some v \/ exists path ps, run_file d path ps /\ (k, v) ∈ ps
}.

Lemma run_paths_elem d path :
  path ∈ map snd (run_paths_of (map fst (map_to_list d))) <->
  is_Some (parse_run_name path) /\ is_Some (bytes_at d path).
Proof.
  rewrite list_elem_of_fmap. unfold run_paths_of. setoid_rewrite sort_by_perm.
  setoid_rewrite list_elem_of_omap. split.
  - intros ([n q] & -> & name & Hn & Hp). cbn.
    destruct (parse_run_name name) as [k|] eqn:E; [|done]. cbn in Hp. simplify_eq. split; [done|].
    apply list_elem_of_fmap in Hn as ([q' f] & -> & Hin). apply elem_of_map_to_list in Hin.
    unfold bytes_at. cbn. by rewrite Hin.
  - intros [[n Hn] [bs Hbs]]. exists (n, path). split; [done|]. exists path. rewrite Hn. split; [|done].
    unfold bytes_at in Hbs. destruct (d !! path) as [f|] eqn:E; [|done].
    apply list_elem_of_fmap. exists (path, f). split; [done|]. by apply elem_of_map_to_list.
Qed.

Lemma attach_dir_spec w t M log rebuild_fn :
  faults w = [] -> attachable (dir w) t M log -> (forall w1, rebuild_fn w1 = (Ok log, w1)) ->
  (forall ps : list Pair, is_ok (to_vec ps) = true) ->
  exists t' w', attach_dir t rebuild_fn w = (Ok t', w') /\ faults w' = [] /\
    idem_repr (dir w') t' M /\ hot t' = hot t /\ cap t' = cap t.
Proof.
  intros Hf [Ho Hhot [Hnd Hlog] Hruns Hcov] Hre Htot. unfold attach_dir.
  assert (fs_read_dir w = (Ok (map fst (map_to_list (dir w))), w)) as Hrd.
  { unfold fs_read_dir, next_fault. by rewrite Hf. }
  rewrite (io_ret_bind _ _ _ _ _ Hrd). cbn zeta.
  set (paths := map snd (run_paths_of _)).
  assert (forall p, p ∈ paths <-> is_Some (parse_run_name p) /\ is_Some (bytes_at (dir w) p)) as Hpaths
    by (intros p; apply run_paths_elem).
  destruct (validate_runs_spec w paths Hf) as (o & Hv & Hspec).
  { apply Forall_forall. intros p. apply Hpaths. }
  rewrite (io_ret_bind _ _ _ _ _ Hv).
  assert (exists metas w1, match o, paths with Some metas, _ :: _ => io_ret metas
      | _, _ => rebuild_runs t paths rebuild_fn end w = (Ok metas, w1) /\ faults w1 = [] /\
      metas_repr (dir w1) t M metas) as (metas & w1 & Hmetas & Hf1 & Hrepr).
  { destruct o as [metas|]; [destruct paths as [|p0 ps0] eqn:Ep|];
      try (by eapply rebuild_runs_spec). rewrite <- Ep in *.
    destruct (Hspec metas eq_refl) as [Hall Hmeta]. exists metas, w. split_and!; [done..|]. split.
    - apply Forall_forall. intros meta Hin. destruct (Hmeta meta Hin) as (ps & Hrf & Heq).
      pose proof Hrf as [? Hbs]. destruct (Hruns _ _ Hrf). split; [done|]. exists ps. by split.
    - intros k v HM. destruct (Hcov) with (3 := HM) as [?|(path & ps & Hrf & Hkv)]; [| |by left|].
      + exists p0. apply Hpaths. rewrite Ep. by left.
      + intros path Hp Hb. destruct (Hall path) as (ps & ? & _); [by apply Hpaths|eauto].
      + right. pose proof Hrf as (Hp & bs & Hb & Hd). destruct (Hall path) as (ps' & Hrf' & Hin).
        { apply Hpaths. split; [done|]. by rewrite Hb. }
        destruct Hrf' as (_ & bs' & Hb' & Hd'). assert (ps' = ps) as -> by congruence.
        destruct Hin as [->|Hin]; [by apply elem_of_nil in Hkv|].
        exists (meta_of path ps), ps. split_and!; [done| |done].
        destruct (Hruns _ _ Hrf). split_and!; [eauto|done|done]. }
  rewrite (io_ret_bind _ _ _ _ _ Hmetas).
  destruct (metas_repr_attach w1 t M metas Hf1 Ho Hhot Hrepr) as (b & Hb & Hir).
  rewrite (io_ret_bind _ _ _ _ _ Hb). eexists _, w1. by split_and!.
Qed.
End attach.

(** ** The guarantees of the index *)

Section guarantees.
Context `{KeyHashes} `{Crc32} `{!Crc32Laws} `{Json (list Pair)} `{!JsonLaws (list Pair)}.

(** A lookup on an index that represents [M] never returns a record that
    is not [M]'s, whatever I/O fails, and on a disk that does not fail it
    returns exactly what [M] has, without changing the directory. *)
Theorem idem_get_exact (t : TieredIdem) (M : gmap string CommittedRec) (key : string) (w w' : World) r :
  idem_repr (dir w) t M -> idem_get t key w = (r, w') ->
  dir w' = dir w /\
  exists o, r = Ok o /\ (forall v, o = Some v -> M !! key = Some v) /\
  (faults w = [] -> o = M !! key).
Proof.
  intros Hr Hg. destruct (idem_get_spec _ _ _ _ _ _ _ eq_refl Hr Hg) as (? & o & ? & ? & Hnf).
  split; [done|]. exists o. split_and!; [done..|]. intros Hf. by destruct (Hnf Hf).
Qed.

(** C39: spilling the oldest half, the merge it may trigger included, never
    fails, and keeps the represented map whatever I/O fails on the way: no
    key loses its record. *)
Theorem flush_spill_keeps_every_key (t : TieredIdem) (M : gmap string CommittedRec) (w w' : World) r :
  idem_repr (dir w) t M -> next_run_n (runs t) < u64_max -> flush_spill t w = (r, w') ->
  exists t', r = Ok t' /\ idem_repr (dir w') t' M.
Proof.
  intros Hr Hm Hf. destruct (flush_spill_spec _ _ _ _ _ _ eq_refl Hr Hm Hf) as (t' & ? & ? & _). eauto.
Qed.

(** Inserting the record of a new key (or the same record again) adds
    exactly that key to the represented map. *)
Theorem idem_insert_represents (d : gmap string FileData) (t : TieredIdem) M k v :
  idem_repr d t M -> M !! k = None \/ M !! k = Some v ->
  idem_repr d (idem_insert t k v) (<[k := v]> M) /\ get_hot (idem_insert t k v) k = Some v.
Proof.
  intros Hr HM. split; [by apply insert_repr|]. unfold get_hot. cbn. apply lookup_insert_eq.
Qed.

(** Attaching the directory of a book, on a disk that does not fail,
    rebuilds an index that represents the map again: from the run files if
    all of them read back, from the log when one is corrupt or none is left. *)
Theorem attach_dir_restores (t : TieredIdem) M (log : list Pair) (w : World) (rebuild_fn : io (list Pair)) :
  faults w = [] -> attachable (dir w) t M log -> (forall w1, rebuild_fn w1 = (Ok log, w1)) ->
  (forall ps : list Pair, is_ok (to_vec ps) = true) ->
  exists t' w', attach_dir t rebuild_fn w = (Ok t', w') /\ idem_repr (dir w') t' M /\ hot t' = hot t.
Proof.
  intros Hf Ha Hre Htot.
  destruct (attach_dir_spec w t M log rebuild_fn Hf Ha Hre Htot) as (t' & w' & ? & _ & ? & ? & _). eauto.
Qed.
End guarantees.

(** ** Concrete runs *)

#[export] Instance CommittedRec_countable : Countable CommittedRec.
Proof.
  refine (inj_countable' (fun r => (r_txid r, r_seq r, r_at r))
    (fun '(t, s, a) => mkCommittedRec t s a) _).
  by intros [].
Defined.

Module Demo.
#[export] Instance demo_hashes : KeyHashes :=
  {| hash1 s := Z.of_nat (String.length s) * 7 + match s with String a _ => Z.of_N (N_of_ascii a) | _ => 0 end;
     hash2 s := 2 * Z.of_nat (String.length s) + 1 |}.
#[export] Instance demo_crc : Crc32 := sum_crc32.
#[export] Instance demo_crc_laws : Crc32Laws := sum_crc32_laws.
#[export] Instance demo_json : Json (list Pair) := CountableJson (list Pair).
#[export] Instance demo_json_laws : JsonLaws (list Pair) := CountableJson_laws (list Pair).
End Demo.

Section demo.
Import Demo.

Definition rec0 (s : Z) : CommittedRec := mkCommittedRec s s s.

Definition empty_world : World := mkWorld ∅ [].

(** Three keys in a hot map of capacity two. *)
Definition demo_idem : TieredIdem :=
  idem_insert (idem_insert (idem_insert (with_cap 2) "b" (rec0 1)) "a" (rec0 2)) "c" (rec0 3).

Definition demo_map : gmap string CommittedRec :=
  <["c" := rec0 3]> (<["a" := rec0 2]> (<["b" := rec0 1]> ∅)).

Lemma demo_repr d : idem_repr d demo_idem demo_map.
Proof. repeat apply insert_repr; try (left; vm_compute; done). apply with_cap_repr. Qed.

(** The index after one successful flush. *)
Definition demo_flushed : result TieredIdem string * World := flush_spill demo_idem empty_world.

Definition demo_flushed_idem : TieredIdem :=
  match demo_flushed with (Ok t, _) => t | _ => with_cap 0 end.

Lemma demo_flushed_repr : idem_repr (dir demo_flushed.2) demo_flushed_idem demo_map.
Proof.
  destruct (flush_spill_spec _ demo_idem demo_map empty_world demo_flushed.1 demo_flushed.2 eq_refl
    (demo_repr _)) as (t' & Hr & Hrepr & _); [vm_compute; done|apply surjective_pairing|].
  unfold demo_flushed_idem. destruct demo_flushed as [r w']. cbn in *. by subst r.
Qed.

Lemma idem_get_exact_witness :
  hot demo_flushed_idem !! "b"%string = None /\
  (idem_get demo_flushed_idem "b" demo_flushed.2).1 = Ok (Some (rec0 1)).
Proof.
  split; [vm_compute; reflexivity|].
  destruct (idem_get_exact demo_flushed_idem demo_map "b" demo_flushed.2
    (idem_get demo_flushed_idem "b" demo_flushed.2).2 (idem_get demo_flushed_idem "b" demo_flushed.2).1
    demo_flushed_repr) as (_ & o & Ho & _ & Hnf).
  - apply surjective_pairing.
  - rewrite Ho. f_equal. rewrite Hnf; vm_compute; reflexivity.
Defined.

(** The write of the run fails after three bytes. *)
Lemma flush_spill_keeps_every_key_witness :
  exists t', flush_spill demo_idem (mkWorld ∅ [Some 3%nat]) =
    (Ok t', (flush_spill demo_idem (mkWorld ∅ [Some 3%nat])).2) /\
    idem_repr (dir (flush_spill demo_idem (mkWorld ∅ [Some 3%nat])).2) t' demo_map.
Proof.
  destruct (flush_spill_keeps_every_key demo_idem demo_map (mkWorld ∅ [Some 3%nat])
    (flush_spill demo_idem (mkWorld ∅ [Some 3%nat])).2 (flush_spill demo_idem (mkWorld ∅ [Some 3%nat])).1
    (demo_repr _)) as (t' & Hr & Hrepr).
  - vm_compute. reflexivity.
  - apply surjective_pairing.
  - exists t'. split; [|exact Hrepr]. rewrite <- Hr. apply surjective_pairing.
Defined.

Lemma idem_insert_represents_witness :
  idem_repr ∅ (idem_insert demo_idem "d" (rec0 4)) (<["d" := rec0 4]> demo_map).
Proof.
  apply (idem_insert_represents ∅ demo_idem demo_map "d" (rec0 4)); [apply demo_repr|].
  left. vm_compute. reflexivity.
Defined.

Definition demo_log : list Pair := [("b", rec0 1); ("a", rec0 2); ("c", rec0 3)]%string.

(** A directory whose one run file is corrupt, and an empty hot map. *)
Definition corrupt_dir : gmap string FileData :=
  {[ "idem-000000.run"%string := mkFile [x01; x02; x03; x04; x05] 5 true ]}.

Lemma demo_attachable : attachable corrupt_dir (with_cap 2) demo_map demo_log.
Proof.
  assert (forall path ps, ~ run_file corrupt_dir path ps) as Hno.
  { intros path ps (_ & bs & Hb & Hd). unfold bytes_at, corrupt_dir in Hb.
    rewrite lookup_singleton in Hb. case_decide; [|done]. cbn in Hb. injection Hb as <-.
    vm_compute in Hd. done. }
  split.
  - apply (repr_order _ _ _ (with_cap_repr ∅ 2)).
  - apply map_empty_subseteq.
  - split; [vm_compute; repeat constructor; set_solver|]. intros k v.
    unfold demo_log, demo_map. rewrite !lookup_insert_Some, lookup_empty, !elem_of_cons, elem_of_nil.
    naive_solver.
  - intros path ps Hr. by destruct (Hno _ _ Hr).
  - intros (path & Hp & Hb) Hall. destruct (Hall path Hp Hb) as [ps Hr]. by destruct (Hno _ _ Hr).
Qed.

Lemma attach_dir_restores_witness :
  exists t' w', attach_dir (with_cap 2) (io_ret demo_log) (mkWorld corrupt_dir []) = (Ok t', w') /\
    idem_repr (dir w') t' demo_map.
Proof.
  destruct (attach_dir_restores (with_cap 2) demo_map demo_log (mkWorld corrupt_dir []) (io_ret demo_log)
    eq_refl demo_attachable (fun _ => eq_refl) (fun _ => eq_refl)) as (t' & w' & H1 & H2 & _).
  exists t', w'. split; [exact H1|exact H2].
Defined.

(** A run that cannot be read is taken for a miss: on an index that
    represents a map with the key, one failing read makes the key look
    fresh. *)
Theorem idem_read_error_is_a_miss :
  exists (t : TieredIdem) (M : gmap string CommittedRec) (key : string) (w : World),
    idem_repr (dir w) t M /\ is_Some (M !! key) /\ (idem_get t key w).1 = Ok None.
Proof.
  exists demo_flushed_idem, demo_map, "b"%string, (mkWorld (dir demo_flushed.2) [Some 0%nat]).
  split_and!; [exact demo_flushed_repr|vm_compute; by eexists|vm_compute; reflexivity].
Qed.

(** A failed flush gives the keys back in key order, not in the order
    they were queued in: the oldest key is no longer the first to go. *)
Theorem idem_failed_flush_reorders :
  exists (t : TieredIdem) (w : World) (t' : TieredIdem) (w' : World),
    idem_repr (dir w) t (hot t) /\ flush_spill t w = (Ok t', w') /\ hot t' = hot t /\
    order t = ["b"; "a"; "c"; "d"]%string /\ order t' = ["a"; "b"; "c"; "d"]%string.
Proof.
  set (t := idem_insert demo_idem "d" (rec0 4)).
  destruct (flush_spill t (mkWorld ∅ [Some 0%nat])) as [r w'] eqn:E.
  exists t, (mkWorld ∅ [Some 0%nat]).
  assert (exists t', r = Ok t' /\ hot t' = hot t /\ order t' = ["a"; "b"; "c"; "d"]%string) as (t' & -> & Hh & Ho).
  { vm_compute in E. injection E as <- <-. eexists. by split_and!. }
  exists t', w'. split_and!; [|done|done|by vm_compute|done].
  assert (hot t = <["d"%string := rec0 4]> demo_map) as -> by (by vm_compute).
  apply insert_repr; [apply demo_repr|]. left. by vm_compute.
Qed.
End demo.
