(* ===== verification/BookState.v ===== *)
(** The in-memory projection of one book's log, talea-store-log/src/state.rs:
    [BookState] with its batch validation ([validate], [Scratch.stage]) and its
    replay operations ([try_apply_transaction], [apply_account_opened],
    [bump_seq]).

    [Admissible] below says in terms of the postings' signed sums when a
    transaction may be accepted; the theorems relate the code to it, and show
    that what was accepted can be applied. *)

From S2P Require Import Prelude Decimal Core Bloom Disk PostingIndex Idem.
Open Scope Z_scope.

(** [effective]: the negation of a release build, which wraps. *)
Definition effective (raw : Z) (normal_side : option Direction) : Z :=
  match normal_side with
  | Some Credit => wrap_i64 (- raw)
  | _ => raw
  end.

Record AccountState := mkAccountState {
  as_def : AccountDef;
  as_cfg : AccountCfg;
  raw_balance : Z;
  updated_seq : Seq;
  postings : PostingIndex
}.

(** (segment base, byte offset) of a frame *)
Abbreviation FramePos := (Z * nat)%type (only parsing).

Record BookState := mkBookState {
  next_seq : Seq;
  accounts : gmap string AccountState;
  idem : TieredIdem;
  txids : gmap Z (Seq * FramePos);
  sums : gmap string (Z * Z);
  last_at : option DateTime
}.

Definition BookState_default : BookState :=
  mkBookState 1 ∅ TieredIdem_default ∅ ∅ None.

Definition set_idem (st : BookState) (t : TieredIdem) : BookState :=
  mkBookState (next_seq st) (accounts st) t (txids st) (sums st) (last_at st).

Record Scratch := mkScratch {
  raw : gmap string Z;
  scratch_idem : gmap string nat
}.

Definition Scratch_default : Scratch := mkScratch ∅ ∅.

(** ** [Scratch::stage] *)

Fixpoint stage_postings (raw : gmap string Z) (ps : list Posting) : result (gmap string Z) string :=
  match ps with
  | [] => Ok raw
  | p :: ps =>
      let key := to_key (p_account p) in
      match raw !! key with
      | None => Err ("stage: account " +:+ key +:+ " was not seeded by validate")
      | Some r =>
          match checked_apply (p_direction p) r (minor (p_amount p)) with
          | None => Err ("stage: projection overflow on account " +:+ key)
          | Some r' => stage_postings (<[key := r']> raw) ps
          end
      end
  end.

Definition stage (sc : Scratch) (tx : Transaction) : result Scratch string :=
  let? raw' := stage_postings (raw sc) (tx_postings tx) in
  Ok (mkScratch raw' (scratch_idem sc)).

(** ** [BookState::validate] *)

Fixpoint check_accounts (accts : gmap string AccountState) (ps : list Posting) : result unit StoreError :=
  match ps with
  | [] => Ok ()
  | p :: ps =>
      match accts !! to_key (p_account p) with
      | None => Err (UnknownAccount (p_account p))
      | Some acct =>
          if bool_decide (amount_asset (p_amount p) = acct_asset (as_def acct))
          then check_accounts accts ps
          else Err (AssetMismatch (p_account p) (acct_asset (as_def acct)) (amount_asset (p_amount p)))
      end
  end.

Definition seed_posting (accts : gmap string AccountState) (raw : gmap string Z) (p : Posting) : gmap string Z :=
  let key := to_key (p_account p) in
  match raw !! key with
  | Some _ => raw
  | None => <[key := match accts !! key with Some a => raw_balance a | None => 0 end]> raw
  end.

Definition seed (accts : gmap string AccountState) (raw : gmap string Z) (ps : list Posting) : gmap string Z :=
  foldl (seed_posting accts) raw ps.

Fixpoint project (raw projected : gmap string Z) (ps : list Posting) : result (gmap string Z) StoreError :=
  match ps with
  | [] => Ok projected
  | p :: ps =>
      let key := to_key (p_account p) in
      let base := default 0 (raw !! key) in
      let entry := default base (projected !! key) in
      match checked_apply (p_direction p) entry (minor (p_amount p)) with
      | None => Err (Io ("posting delta overflow for account " +:+ key))
      | Some e => project raw (<[key := e]> projected) ps
      end
  end.

(** The minimum-balance loop, over the entries of [projected]. *)
Fixpoint check_min (accts : gmap string AccountState) (entries : list (string * Z)) : result unit StoreError :=
  match entries with
  | [] => Ok ()
  | (key, proj_raw) :: rest =>
      match accts !! key with
      | None => Ok ()  (* [self.accounts[key]] panics: unreachable, every key was looked up above *)
      | Some acct =>
          match min_balance (as_cfg acct) with
          | None => check_min accts rest
          | Some m =>
              let would_be := effective proj_raw (normal_side (as_cfg acct)) in
              if would_be <? m
              then Err (ConstraintViolation (acct_id (as_def acct)) m would_be)
              else check_min accts rest
          end
      end
  end.

Section validate.
Context `{HashIter}.

Definition validate (st : BookState) (tx : Transaction) (sc : Scratch) :
    Scratch * result unit StoreError :=
  if is_reserved (tx_book tx) then (sc, Err (InvalidBook (tx_book tx)))
  else
    match check_accounts (accounts st) (tx_postings tx) with
    | Err e => (sc, Err e)
    | Ok _ =>
        let sc' := mkScratch (seed (accounts st) (raw sc) (tx_postings tx)) (scratch_idem sc) in
        (sc',
         let? projected := project (raw sc') ∅ (tx_postings tx) in
         check_min (accounts st) (hash_iter projected))
    end.
End validate.

(** ** Applying committed events *)

Definition apply_to_account (acct : AccountState) (p : Posting) (txid : TxId) (seq : Seq) (at_ : DateTime) :
    option AccountState :=
  match checked_apply (p_direction p) (raw_balance acct) (minor (p_amount p)) with
  | None => None
  | Some r =>
      Some (mkAccountState (as_def acct) (as_cfg acct) r seq
        (push (postings acct)
          (mkPostingEntry seq at_ txid (minor (p_amount p)) (p_direction p) r)))
  end.

Definition apply_sums (sums : gmap string (Z * Z)) (p : Posting) : gmap string (Z * Z) :=
  let asset := amount_asset (p_amount p) in
  let '(d, c) := default (0, 0) (sums !! asset) in
  match p_direction p with
  | Debit => <[asset := (saturating_add d (minor (p_amount p)), c)]> sums
  | Credit => <[asset := (d, saturating_add c (minor (p_amount p)))]> sums
  end.

Fixpoint apply_postings (accts : gmap string AccountState) (sums : gmap string (Z * Z))
    (ps : list Posting) (txid : TxId) (seq : Seq) (at_ : DateTime) :
    result (gmap string AccountState * gmap string (Z * Z)) string :=
  match ps with
  | [] => Ok (accts, sums)
  | p :: ps =>
      let key := to_key (p_account p) in
      match accts !! key with
      | None => apply_postings accts (apply_sums sums p) ps txid seq at_
      | Some acct =>
          match apply_to_account acct p txid seq at_ with
          | None => Err ("balance overflow applying seq " +:+ i64_to_string seq +:+ " to account " +:+ key)
          | Some acct' => apply_postings (<[key := acct']> accts) (apply_sums sums p) ps txid seq at_
          end
      end
  end.

Definition try_apply_transaction (st : BookState) (tx : Transaction) (seq : Seq) (at_ : DateTime)
    (pos : FramePos) : result BookState string :=
  let? (accts, sums') := apply_postings (accounts st) (sums st) (tx_postings tx) (tx_id tx) seq at_ in
  Ok (mkBookState (seq + 1) accts
       (idem_insert (idem st) (tx_idem tx) (mkCommittedRec (tx_id tx) seq at_))
       (<[tx_id tx := (seq, pos)]> (txids st)) sums' (Some at_)).

Definition apply_account_opened (st : BookState) (def : AccountDef) (cfg : AccountCfg)
    (seq : Seq) (at_ : DateTime) : BookState :=
  let key := to_key (acct_id def) in
  let accts :=
    match accounts st !! key with
    | Some _ => accounts st
    | None => <[key := mkAccountState def cfg 0 0 PostingIndex_default]> (accounts st)
    end in
  mkBookState (seq + 1) accts (idem st) (txids st) (sums st) (Some at_).

Definition bump_seq (st : BookState) (seq : Seq) (at_ : DateTime) : BookState :=
  mkBookState (seq + 1) (accounts st) (idem st) (txids st) (sums st) (Some at_).

(** ** Signed sums of postings *)

Definition pkey (p : Posting) : string := to_key (p_account p).

Definition touched (ps : list Posting) : list string := map pkey ps.

(** The signed effect of [ps] on the account with key [k]. *)
Fixpoint delta (k : string) (ps : list Posting) : Z :=
  match ps with
  | [] => 0
  | p :: ps => (if bool_decide (pkey p = k) then posting_signed p else 0) + delta k ps
  end.

Definition in_range (x : Z) : Prop := i64_min <= x <= i64_max.

(** Starting from the balances [cur], no balance leaves the i64 range after
    any of the postings. *)
Definition fits (cur : string -> Z) (ps : list Posting) : Prop :=
  forall l p r, ps = l ++ p :: r -> in_range (cur (pkey p) + delta (pkey p) (l ++ [p])).

(** The committed raw balance of a key. *)
Definition committed_raw (accts : gmap string AccountState) (k : string) : Z :=
  match accts !! k with Some a => raw_balance a | None => 0 end.

(** The projected raw balance of a key during a batch. *)
Definition current (accts : gmap string AccountState) (sc : Scratch) (k : string) : Z :=
  default (committed_raw accts k) (raw sc !! k).

(** When a transaction may be accepted. *)
Record Admissible (st : BookState) (sc : Scratch) (tx : Transaction) : Prop := {
  adm_book : is_reserved (tx_book tx) = false;
  adm_accounts : Forall (fun p => exists acct, accounts st !! pkey p = Some acct /\
    amount_asset (p_amount p) = acct_asset (as_def acct)) (tx_postings tx);
  adm_fits : fits (current (accounts st) sc) (tx_postings tx);
  adm_min : forall k acct m, k ∈ touched (tx_postings tx) -> accounts st !! k = Some acct ->
    min_balance (as_cfg acct) = Some m ->
    m <= effective (current (accounts st) sc k + delta k (tx_postings tx)) (normal_side (as_cfg acct))
}.

Lemma delta_app k l r : delta k (l ++ r) = delta k l + delta k r.
Proof. induction l as [|p l IH]; cbn; [done|]. rewrite IH. lia. Qed.

Lemma delta_untouched k ps : k ∉ touched ps -> delta k ps = 0.
Proof.
  induction ps as [|p ps IH]; cbn; [done|]. intros [Hne Hn]%not_elem_of_cons.
  rewrite bool_decide_eq_false_2 by congruence. by rewrite IH.
Qed.

Lemma fits_nil cur : fits cur [].
Proof. intros [|q l] p r; done. Qed.

Lemma fits_ext cur cur' ps :
  (forall k, k ∈ touched ps -> cur k = cur' k) -> fits cur ps -> fits cur' ps.
Proof.
  intros He Hf l p r ->. rewrite <- He; [by apply (Hf l p r)|].
  unfold touched. rewrite map_app. apply elem_of_app. right. by left.
Qed.

Lemma fits_cons cur p ps :
  fits cur (p :: ps) <->
  in_range (cur (pkey p) + posting_signed p) /\
  fits (fun k => cur k + (if bool_decide (pkey p = k) then posting_signed p else 0)) ps.
Proof.
  split.
  - intros Hf. split.
    + pose proof (Hf [] p ps eq_refl) as H. cbn in H. rewrite bool_decide_eq_true_2 in H by done.
      by rewrite Z.add_0_r in H.
    + intros l q r ->. pose proof (Hf (p :: l) q r eq_refl) as H. cbn in H.
      by rewrite Z.add_assoc in H.
  - intros [Hp Hf] [|p' l] q r Heq; cbn in Heq; injection Heq as <- Heq.
    + cbn. rewrite bool_decide_eq_true_2 by done. by rewrite Z.add_0_r.
    + pose proof (Hf l q r Heq) as H. cbn. by rewrite Z.add_assoc.
Qed.

(** ** The steps of [validate] *)

Definition accounts_ok (accts : gmap string AccountState) (ps : list Posting) : Prop :=
  Forall (fun p => exists acct, accts !! pkey p = Some acct /\
    amount_asset (p_amount p) = acct_asset (as_def acct)) ps.

Lemma check_accounts_Ok accts ps : check_accounts accts ps = Ok () <-> accounts_ok accts ps.
Proof.
  unfold accounts_ok. induction ps as [|p ps IH]; cbn; [by split|]. rewrite Forall_cons, <- IH.
  unfold pkey. destruct (accts !! to_key (p_account p)) as [acct|] eqn:E.
  - case_bool_decide; split; try done.
    + intros ?. split; [|done]. by exists acct.
    + by intros [_ ?].
    + intros [(? & ? & ?) _]. simplify_eq.
  - split; [done|]. by intros [(? & ? & _) _].
Qed.

Lemma seed_lookup accts ps r k :
  seed accts r ps !! k =
  match r !! k with
  | Some v => Some v
  | None => if bool_decide (k ∈ touched ps) then Some (committed_raw accts k) else None
  end.
Proof.
  revert r. induction ps as [|p ps IH]; intros r; cbn [seed foldl touched map].
  - destruct (r !! k); [done|]. rewrite bool_decide_eq_false_2; [done|]. apply not_elem_of_nil.
  - unfold seed in IH. rewrite IH. unfold seed_posting. fold (pkey p). unfold committed_raw.
    destruct (r !! pkey p) as [v|] eqn:E.
    + destruct (r !! k) eqn:Ek; [done|].
      rewrite (bool_decide_ext (k ∈ touched ps) (k ∈ pkey p :: touched ps)); [done|].
      rewrite elem_of_cons. split; [by right|]. intros [->|?]; [congruence|done].
    + destruct (decide (k = pkey p)) as [->|Hne].
      * rewrite lookup_insert_eq, E. rewrite bool_decide_eq_true_2; [done|by left].
      * rewrite lookup_insert_ne by done. destruct (r !! k); [done|].
        rewrite (bool_decide_ext (k ∈ touched ps) (k ∈ pkey p :: touched ps)); [done|].
        rewrite elem_of_cons. naive_solver.
Qed.

(** A projection's current value: the entry, or the scratch balance. *)
Definition proj_cur (r pj : gmap string Z) (k : string) : Z := default (default 0 (r !! k)) (pj !! k).

Lemma project_fits r pj ps pj' : project r pj ps = Ok pj' -> fits (proj_cur r pj) ps.
Proof.
  revert pj. induction ps as [|p ps IH]; intros pj; cbn; [intros _; apply fits_nil|].
  fold (pkey p). change (default _ (pj !! pkey p)) with (proj_cur r pj (pkey p)).
  destruct (checked_apply _ _ _) as [e|] eqn:E; [|done]. intros Hp. apply IH in Hp.
  apply checked_apply_Some in E as [-> Hr]. apply fits_cons. split; [done|].
  eapply fits_ext; [|done]. intros k _. cbn. unfold proj_cur at 1.
  case_bool_decide as Hk.
  - subst k. by rewrite lookup_insert_eq.
  - rewrite lookup_insert_ne by done. by rewrite Z.add_0_r.
Qed.

Lemma project_Ok r pj ps :
  fits (proj_cur r pj) ps ->
  exists pj', project r pj ps = Ok pj' /\
    forall k, pj' !! k = if bool_decide (k ∈ touched ps) then Some (proj_cur r pj k + delta k ps) else pj !! k.
Proof.
  revert pj. induction ps as [|p ps IH]; intros pj; cbn [project].
  - intros _. exists pj. split; [done|]. intros k.
    rewrite bool_decide_eq_false_2; [done|]. apply not_elem_of_nil.
  - intros [Hp Hf]%fits_cons. fold (pkey p). change (default _ (pj !! pkey p)) with (proj_cur r pj (pkey p)).
    destruct (checked_apply _ _ _) as [e|] eqn:E; [|by apply checked_apply_None in E].
    apply checked_apply_Some in E as [-> _].
    destruct (IH (<[pkey p := proj_cur r pj (pkey p) + posting_signed p]> pj)) as (pj' & Hpj & Hl).
    { eapply fits_ext; [|done]. intros k _. cbn. unfold proj_cur at 2. case_bool_decide as Hk.
      - subst k. by rewrite lookup_insert_eq.
      - rewrite lookup_insert_ne by done. by rewrite Z.add_0_r. }
    exists pj'. split; [done|]. intros k. rewrite Hl. cbn [touched map delta]. unfold proj_cur at 1.
    destruct (decide (pkey p = k)) as [<-|Hne].
    + rewrite (bool_decide_eq_true_2 (pkey p = pkey p)) by done.
      rewrite (bool_decide_eq_true_2 (pkey p ∈ pkey p :: _)) by (by left). rewrite lookup_insert_eq. cbn.
      case_bool_decide as Ht; [f_equal; lia|]. fold (touched ps) in Ht.
      rewrite delta_untouched by done. f_equal. lia.
    + rewrite (bool_decide_eq_false_2 (pkey p = k)) by done. rewrite lookup_insert_ne by done.
      rewrite Z.add_0_l. fold (touched ps).
      rewrite (bool_decide_ext (k ∈ pkey p :: touched ps) (k ∈ touched ps)); [done|].
      rewrite elem_of_cons. naive_solver.
Qed.

Definition min_ok (acct : AccountState) (v : Z) : Prop :=
  forall m, min_balance (as_cfg acct) = Some m -> m <= effective v (normal_side (as_cfg acct)).

Lemma check_min_Ok accts es :
  Forall (fun kv => is_Some (accts !! kv.1)) es ->
  check_min accts es = Ok () <->
  forall k v acct, (k, v) ∈ es -> accts !! k = Some acct -> min_ok acct v.
Proof.
  induction 1 as [|[k v] es [acct Hk] _ IH]; cbn.
  - split; [|done]. by intros _ ??? ?%elem_of_nil.
  - cbn in Hk. rewrite Hk. unfold min_ok.
    assert (forall P : Prop, (P <-> forall k0 v0 acct0, (k0, v0) ∈ es -> accts !! k0 = Some acct0 -> min_ok acct0 v0) ->
      (min_ok acct v /\ P <->
       forall k0 v0 acct0, (k0, v0) ∈ (k, v) :: es -> accts !! k0 = Some acct0 -> min_ok acct0 v0)) as Hstep.
    { intros P HP. setoid_rewrite elem_of_cons. rewrite HP. split.
      - intros [H1 H2] k0 v0 a0 [[= -> ->]|Hin] Ha; [by simplify_eq|eauto].
      - intros Hall. split; [by apply (Hall k); [left|]|]. intros. eapply Hall; eauto. }
    unfold min_ok in Hstep at 1.
    destruct (min_balance (as_cfg acct)) as [m|] eqn:Em.
    + destruct (_ <? m) eqn:Elt; bool_to_prop.
      * split; [done|]. intros Hall. exfalso.
        pose proof (Hall k v acct ltac:(by left) Hk m Em). lia.
      * rewrite IH. rewrite <- Hstep; [|reflexivity]. split; [|by intros [_ ?]].
        intros Hall. split; [|done]. intros m' Hm'. simplify_eq. lia.
    + rewrite IH, <- Hstep; [|reflexivity]. split; [|by intros [_ ?]].
      intros Hall. split; [|done]. intros m' Hm'. simplify_eq.
Qed.

(** The account and the balance a rejection reports. *)
Lemma check_min_Err accts es e :
  check_min accts es = Err e ->
  exists k v acct m, (k, v) ∈ es /\ accts !! k = Some acct /\ min_balance (as_cfg acct) = Some m /\
    effective v (normal_side (as_cfg acct)) < m /\
    e = ConstraintViolation (acct_id (as_def acct)) m (effective v (normal_side (as_cfg acct))).
Proof.
  induction es as [|[k v] es IH]; cbn; [done|].
  destruct (accts !! k) as [acct|] eqn:Hk; [|done].
  destruct (min_balance (as_cfg acct)) as [m|] eqn:Em.
  - destruct (_ <? m) eqn:Elt; bool_to_prop.
    + intros [= <-]. exists k, v, acct, m. split_and!; try done. by left.
    + intros H. destruct (IH H) as (k' & v' & a' & m' & ? & ?). exists k', v', a', m'. split; [by right|done].
  - intros H. destruct (IH H) as (k' & v' & a' & m' & ? & ?). exists k', v', a', m'. split; [by right|done].
Qed.

Lemma touched_accounts accts ps k : accounts_ok accts ps -> k ∈ touched ps -> is_Some (accts !! k).
Proof.
  intros Ha Hk. apply list_elem_of_fmap in Hk as (p & -> & Hp).
  apply (proj1 (Forall_forall _ _) Ha) in Hp as (acct & ? & _). eauto.
Qed.

Section validate_lemmas.
Context `{HashIterLaws}.

Definition seeded (st : BookState) (tx : Transaction) (sc : Scratch) : Scratch :=
  mkScratch (seed (accounts st) (raw sc) (tx_postings tx)) (scratch_idem sc).

Lemma current_seeded st tx sc k :
  current (accounts st) (seeded st tx sc) k = current (accounts st) sc k.
Proof.
  unfold current, seeded. cbn. rewrite seed_lookup. destruct (raw sc !! k); cbn; [done|].
  by case_bool_decide.
Qed.

Lemma seeded_touched st tx sc k :
  k ∈ touched (tx_postings tx) -> raw (seeded st tx sc) !! k = Some (current (accounts st) sc k).
Proof.
  intros Hk. unfold seeded, current. cbn. rewrite seed_lookup. destruct (raw sc !! k); cbn; [done|].
  by rewrite bool_decide_eq_true_2.
Qed.

Lemma proj_cur_seeded st tx sc k :
  k ∈ touched (tx_postings tx) -> proj_cur (raw (seeded st tx sc)) ∅ k = current (accounts st) sc k.
Proof. intros Hk. unfold proj_cur. by rewrite lookup_empty, seeded_touched. Qed.

(** The entries of the projection, once the accounts are checked. *)
Lemma project_seeded st tx sc :
  match project (raw (seeded st tx sc)) ∅ (tx_postings tx) with
  | Ok pj =>
      fits (current (accounts st) sc) (tx_postings tx) /\
      forall k v, (k, v) ∈ hash_iter pj <->
        k ∈ touched (tx_postings tx) /\ v = current (accounts st) sc k + delta k (tx_postings tx)
  | Err e => ~ fits (current (accounts st) sc) (tx_postings tx)
  end.
Proof.
  destruct (project _ ∅ (tx_postings tx)) as [pj|e] eqn:E.
  - assert (fits (proj_cur (raw (seeded st tx sc)) ∅) (tx_postings tx)) as Hf by (by eapply project_fits).
    split.
    + eapply fits_ext; [|done]. intros k Hk. by apply proj_cur_seeded.
    + apply project_Ok in Hf as (pj' & E' & Hl). assert (pj' = pj) as -> by congruence.
      intros k v. rewrite elem_of_hash_iter, Hl. case_bool_decide as Hk.
      * rewrite proj_cur_seeded by done. split; [intros [= <-]; done|by intros [_ ->]].
      * rewrite lookup_empty. split; [done|by intros [? _]].
  - intros Hf. assert (fits (proj_cur (raw (seeded st tx sc)) ∅) (tx_postings tx)) as Hf'.
    { eapply fits_ext; [|done]. intros k Hk. by rewrite proj_cur_seeded. }
    apply project_Ok in Hf' as (pj' & E' & _). congruence.
Qed.

Lemma validate_Ok st tx sc :
  (validate st tx sc).2 = Ok () <-> Admissible st sc tx.
Proof.
  unfold validate. destruct (is_reserved (tx_book tx)) eqn:Er.
  { split; [done|]. intros []. congruence. }
  destruct (check_accounts (accounts st) (tx_postings tx)) as [[]|e] eqn:Ec.
  2:{ split; [done|]. intros [_ Ha _ _]. apply check_accounts_Ok in Ha. congruence. }
  apply check_accounts_Ok in Ec. cbn [snd]. fold (seeded st tx sc).
  pose proof (project_seeded st tx sc) as Hp.
  destruct (project _ ∅ (tx_postings tx)) as [pj|e].
  - destruct Hp as [Hf Hes]. rewrite check_min_Ok.
    2:{ apply Forall_forall. intros [k v] [Hk _]%Hes. cbn. by eapply touched_accounts. }
    split.
    + intros Hmin. split; try done. intros k acct m Hk Hacct Hm.
      by eapply Hmin; [apply Hes|..].
    + intros [_ _ _ Hmin] k v acct [Hk ->]%Hes Hacct m Hm. by eapply Hmin.
  - split; [done|]. by intros [].
Qed.

(** Whatever the outcome, the current balances of the overlay stay. *)
Lemma validate_scratch st tx sc :
  (validate st tx sc).1 = sc \/ (validate st tx sc).1 = seeded st tx sc.
Proof. unfold validate. case_match; [by left|]. case_match; [by right|by left]. Qed.

Lemma validate_Ok_scratch st tx sc :
  (validate st tx sc).2 = Ok () -> (validate st tx sc).1 = seeded st tx sc.
Proof. unfold validate. repeat case_match; done. Qed.

Lemma seeded_idempotent st tx sc : seeded st tx (seeded st tx sc) = seeded st tx sc.
Proof.
  unfold seeded at 1 3. f_equal. apply map_eq. intros k. rewrite seed_lookup.
  unfold seeded. cbn. rewrite seed_lookup. destruct (raw sc !! k); [done|]. by case_bool_decide.
Qed.

Lemma Admissible_current st tx sc sc' :
  (forall k, current (accounts st) sc' k = current (accounts st) sc k) ->
  Admissible st sc tx -> Admissible st sc' tx.
Proof.
  intros He [? ? Hf Hm]. split; try done.
  - by eapply fits_ext; [|done].
  - intros k acct m ???. rewrite He. eauto.
Qed.
End validate_lemmas.

(** ** Staging *)

Lemma stage_postings_Ok r ps :
  (forall k, k ∈ touched ps -> is_Some (r !! k)) -> fits (fun k => default 0 (r !! k)) ps ->
  exists r', stage_postings r ps = Ok r' /\ forall k, r' !! k = (fun v => v + delta k ps) <$> r !! k.
Proof.
  revert r. induction ps as [|p ps IH]; intros r Hs Hf; cbn [stage_postings].
  { exists r. split; [done|]. intros k. cbn. destruct (r !! k); cbn; [f_equal; lia|done]. }
  apply fits_cons in Hf as [Hp Hf]. fold (pkey p).
  destruct (Hs (pkey p)) as [v Hv]; [by left|]. rewrite Hv in Hp |- *. cbn in Hp.
  destruct (checked_apply _ _ _) as [e|] eqn:E; [|by apply checked_apply_None in E].
  apply checked_apply_Some in E as [-> _].
  destruct (IH (<[pkey p := v + posting_signed p]> r)) as (r' & Hr & Hl).
  - intros k Hk. apply lookup_insert_is_Some. destruct (decide (pkey p = k)); [by left|right].
    split; [done|]. apply Hs. by right.
  - eapply fits_ext; [|done]. intros k _. cbn. case_bool_decide as Hk.
    + subst k. by rewrite lookup_insert_eq, Hv.
    + rewrite lookup_insert_ne by done. lia.
  - exists r'. split; [done|]. intros k. rewrite Hl. cbn [delta]. case_bool_decide as Hk.
    + subst k. rewrite lookup_insert_eq, Hv. cbn. f_equal. lia.
    + by rewrite lookup_insert_ne by done.
Qed.

Lemma stage_Ok st tx sc :
  Admissible st sc tx ->
  exists sc', stage (seeded st tx sc) tx = Ok sc' /\ scratch_idem sc' = scratch_idem sc /\
    forall k, raw sc' !! k = (fun v => v + delta k (tx_postings tx)) <$> raw (seeded st tx sc) !! k.
Proof.
  intros [_ _ Hf _]. destruct (stage_postings_Ok (raw (seeded st tx sc)) (tx_postings tx)) as (r' & Hr & Hl).
  - intros k Hk. by rewrite seeded_touched.
  - eapply fits_ext; [|done]. intros k Hk. by rewrite seeded_touched.
  - exists (mkScratch r' (scratch_idem sc)). unfold stage. by rewrite Hr.
Qed.

(** ** Applying *)

(** The history entries a transaction leaves on the account with key [k],
    starting at balance [r]. *)
Fixpoint entries_for (k : string) (r : Z) (ps : list Posting) (txid : TxId) (seq : Seq) (at_ : DateTime) :
    list PostingEntry :=
  match ps with
  | [] => []
  | p :: ps =>
      if bool_decide (pkey p = k) then
        mkPostingEntry seq at_ txid (minor (p_amount p)) (p_direction p) (r + posting_signed p)
        :: entries_for k (r + posting_signed p) ps txid seq at_
      else entries_for k r ps txid seq at_
  end.

(** [acct'] is [acct] with the effects of [ps] applied. *)
Definition account_applied (k : string) (acct acct' : AccountState) (ps : list Posting) txid seq at_ : Prop :=
  as_def acct' = as_def acct /\ as_cfg acct' = as_cfg acct /\
  raw_balance acct' = raw_balance acct + delta k ps /\
  updated_seq acct' = (if bool_decide (k ∈ touched ps) then seq else updated_seq acct) /\
  postings acct' = foldl push (postings acct) (entries_for k (raw_balance acct) ps txid seq at_).

Lemma account_applied_untouched k acct ps txid seq at_ :
  k ∉ touched ps -> account_applied k acct acct ps txid seq at_.
Proof.
  intros Hk. assert (entries_for k (raw_balance acct) ps txid seq at_ = []) as Hnil.
  { clear -Hk. induction ps as [|p ps IH]; cbn in *; [done|].
    apply not_elem_of_cons in Hk as [Hne Hk]. rewrite bool_decide_eq_false_2 by congruence. auto. }
  unfold account_applied. rewrite Hnil, delta_untouched, Z.add_0_r by done.
  by rewrite bool_decide_eq_false_2.
Qed.

(** One more posting in front. *)
Lemma account_applied_step p ps txid seq at_ (accts accts' : gmap string AccountState) acct k :
  accts !! pkey p = Some acct ->
  match <[pkey p := mkAccountState (as_def acct) (as_cfg acct)
            (raw_balance acct + signed (p_direction p) (minor (p_amount p))) seq
            (push (postings acct) (mkPostingEntry seq at_ txid (minor (p_amount p)) (p_direction p)
              (raw_balance acct + signed (p_direction p) (minor (p_amount p)))))]> accts !! k with
  | Some a => exists a', accts' !! k = Some a' /\ account_applied k a a' ps txid seq at_
  | None => accts' !! k = None
  end ->
  match accts !! k with
  | Some a => exists a', accts' !! k = Some a' /\ account_applied k a a' (p :: ps) txid seq at_
  | None => accts' !! k = None
  end.
Proof.
  intros Ea Hl. destruct (decide (pkey p = k)) as [<-|Hne].
  - rewrite lookup_insert_eq in Hl. rewrite Ea. destruct Hl as (acct' & Hk & Hd & Hc & Hb & Hu & Hps).
    exists acct'. split; [done|]. unfold account_applied. cbn [touched map delta entries_for].
    rewrite !(bool_decide_eq_true_2 (pkey p = pkey p)) by done.
    rewrite (bool_decide_eq_true_2 (pkey p ∈ pkey p :: _)) by (by left).
    cbn [raw_balance as_def as_cfg updated_seq postings] in *. split_and!; try done.
    + rewrite Hb. fold (posting_signed p). lia.
    + rewrite Hu. by case_bool_decide.
  - rewrite lookup_insert_ne in Hl by done. destruct (accts !! k) as [a|]; [|done].
    destruct Hl as (acct' & Hk & Hd & Hc & Hb & Hu & Hps). exists acct'. split; [done|].
    unfold account_applied. cbn [touched map delta entries_for].
    rewrite !(bool_decide_eq_false_2 (pkey p = k)) by done. split_and!; try done.
    rewrite Hu. fold (touched ps). rewrite (bool_decide_ext (k ∈ pkey p :: touched ps) (k ∈ touched ps)); [done|].
    rewrite elem_of_cons. naive_solver.
Qed.

Lemma apply_postings_Ok accts sums ps txid seq at_ :
  (forall k, k ∈ touched ps -> is_Some (accts !! k)) -> fits (committed_raw accts) ps ->
  exists accts', apply_postings accts sums ps txid seq at_ = Ok (accts', foldl apply_sums sums ps) /\
    forall k, match accts !! k with
              | Some acct => exists acct', accts' !! k = Some acct' /\ account_applied k acct acct' ps txid seq at_
              | None => accts' !! k = None
              end.
Proof.
  revert accts sums. induction ps as [|p ps IH]; intros accts sums Hs Hf; cbn [apply_postings foldl].
  { exists accts. split; [done|]. intros k. destruct (accts !! k) eqn:E; [|done].
    eexists. split; [done|]. apply account_applied_untouched, not_elem_of_nil. }
  apply fits_cons in Hf as [Hp Hf]. fold (pkey p). unfold committed_raw in Hp at 1.
  destruct (Hs (pkey p)) as [acct Ea]; [by left|]. rewrite Ea in Hp |- *.
  unfold apply_to_account. destruct (checked_apply _ _ _) as [e|] eqn:E; [|by apply checked_apply_None in E].
  apply checked_apply_Some in E as [-> _].
  set (acct1 := mkAccountState _ _ _ _ _).
  destruct (IH (<[pkey p := acct1]> accts) (apply_sums sums p)) as (accts' & Hr & Hl).
  { intros k Hk. apply lookup_insert_is_Some. destruct (decide (pkey p = k)); [by left|right].
    split; [done|]. apply Hs. by right. }
  { eapply fits_ext; [|done]. intros k _. cbn. unfold committed_raw. case_bool_decide as Hk.
    - subst k. by rewrite lookup_insert_eq, Ea.
    - rewrite lookup_insert_ne by done. lia. }
  exists accts'. split; [done|]. intros k. specialize (Hl k).
  apply (account_applied_step p ps txid seq at_ accts accts' acct k Ea Hl).
Qed.

Lemma try_apply_Ok st tx seq at_ pos :
  (forall k, k ∈ touched (tx_postings tx) -> is_Some (accounts st !! k)) ->
  fits (committed_raw (accounts st)) (tx_postings tx) ->
  exists accts', try_apply_transaction st tx seq at_ pos =
    Ok (mkBookState (seq + 1) accts'
      (idem_insert (idem st) (tx_idem tx) (mkCommittedRec (tx_id tx) seq at_))
      (<[tx_id tx := (seq, pos)]> (txids st)) (foldl apply_sums (sums st) (tx_postings tx)) (Some at_)) /\
    forall k, match accounts st !! k with
              | Some acct => exists acct', accts' !! k = Some acct' /\
                  account_applied k acct acct' (tx_postings tx) (tx_id tx) seq at_
              | None => accts' !! k = None
              end.
Proof.
  intros Hs Hf. destruct (apply_postings_Ok (accounts st) (sums st) (tx_postings tx) (tx_id tx) seq at_ Hs Hf)
    as (accts' & Hr & Hl).
  exists accts'. unfold try_apply_transaction. by rewrite Hr.
Qed.

(** ** A batch: validate and stage each, then apply all *)

Section batch.
Context `{HashIterLaws}.

(** [accepts st sc txs sc']: the writer's loop accepts [txs] one after the
    other, from the overlay [sc] to [sc']. *)
Inductive accepts (st : BookState) : Scratch -> list Transaction -> Scratch -> Prop :=
| accepts_nil sc : accepts st sc [] sc
| accepts_cons sc tx txs sc1 sc2 :
    (validate st tx sc).2 = Ok () ->
    stage (validate st tx sc).1 tx = Ok sc1 ->
    accepts st sc1 txs sc2 ->
    accepts st sc (tx :: txs) sc2.

Fixpoint apply_all (st : BookState) (txs : list (Transaction * (Seq * DateTime * (Seq * nat)))) :
    result BookState string :=
  match txs with
  | [] => Ok st
  | (tx, (s, a, pos)) :: txs =>
      let? st' := try_apply_transaction st tx s a pos in
      apply_all st' txs
  end.

(** The overlay projects what applying will give: the accounts of [st] with
    the same definitions, and the overlay's balance where it has one. *)
Definition overlay_ok (st stn : BookState) (sc : Scratch) : Prop :=
  forall k a, accounts st !! k = Some a ->
    exists a', accounts stn !! k = Some a' /\ as_def a' = as_def a /\
      as_cfg a' = as_cfg a /\ raw_balance a' = current (accounts st) sc k.

Lemma overlay_ok_start st sc : raw sc = ∅ -> overlay_ok st st sc.
Proof.
  intros Hr k a E. exists a. split_and!; try done.
  unfold current, committed_raw. by rewrite Hr, lookup_empty, E.
Qed.

Lemma overlay_fits st stn sc tx :
  overlay_ok st stn sc -> Admissible st sc tx ->
  (forall k, k ∈ touched (tx_postings tx) -> is_Some (accounts stn !! k)) /\
  fits (committed_raw (accounts stn)) (tx_postings tx).
Proof.
  intros Ho [_ Ha Hf _].
  assert (forall k, k ∈ touched (tx_postings tx) -> exists a', accounts stn !! k = Some a' /\
    raw_balance a' = current (accounts st) sc k) as Hs.
  { intros k Hk. destruct (touched_accounts _ _ _ Ha Hk) as [a Hka].
    destruct (Ho k a Hka) as (a' & ? & _ & _ & ?). eauto. }
  split; [intros k Hk; destruct (Hs k Hk) as (? & ? & _); eauto|].
  eapply fits_ext; [|done]. intros k Hk. destruct (Hs k Hk) as (a' & Ha' & Hb).
  unfold committed_raw. by rewrite Ha'.
Qed.

Lemma overlay_step st stn sc tx sc1 stn' s a pos :
  overlay_ok st stn sc -> Admissible st sc tx -> stage (seeded st tx sc) tx = Ok sc1 ->
  try_apply_transaction stn tx s a pos = Ok stn' -> overlay_ok st stn' sc1.
Proof.
  intros Ho Hadm Hst Hap.
  destruct (stage_Ok st tx sc Hadm) as (sc1' & Hst' & _ & Hraw). assert (sc1' = sc1) as -> by congruence.
  destruct (overlay_fits _ _ _ _ Ho Hadm) as [Hs Hf].
  destruct (try_apply_Ok stn tx s a pos Hs Hf) as (accts' & Hr & Hl).
  rewrite Hr in Hap. injection Hap as <-. intros k acct Ek. cbn. specialize (Hl k).
  destruct (Ho k acct Ek) as (a' & Ha' & Hd & Hc & Hb). rewrite Ha' in Hl.
  destruct Hl as (a'' & Ha'' & Hd' & Hc' & Hb' & _). exists a''. split_and!; [done|congruence..|].
  rewrite Hb', Hb. unfold current at 2. rewrite Hraw. unfold seeded. cbn. rewrite seed_lookup.
  unfold current. destruct (raw sc !! k) as [v|] eqn:Ev; cbn; [done|]. case_bool_decide as Ht; cbn; [done|].
  by rewrite delta_untouched, Z.add_0_r.
Qed.

Lemma apply_all_accepted st stn sc txs sc' (metas : list (Seq * DateTime * (Seq * nat))) :
  overlay_ok st stn sc -> accepts st sc txs sc' -> length metas = length txs ->
  exists st', apply_all stn (zip txs metas) = Ok st' /\ overlay_ok st st' sc'.
Proof.
  intros Ho Ha. revert stn metas Ho. induction Ha as [|sc tx txs sc1 sc2 Hv Hst Ha IH];
    intros stn metas Ho Hlen; [by exists stn; destruct metas|].
  destruct metas as [|[[s a] pos] metas]; [done|]. cbn in *.
  pose proof (validate_Ok_scratch _ _ _ Hv) as Hsc. apply validate_Ok in Hv. rewrite Hsc in Hst.
  destruct (overlay_fits _ _ _ _ Ho Hv) as [Hs Hf].
  destruct (try_apply_Ok stn tx s a pos Hs Hf) as (accts' & Hr & _). rewrite Hr.
  apply IH; [|lia]. by eapply overlay_step.
Qed.
End batch.

(** ** Well-formed books *)

Fixpoint entries_sum (l : list PostingEntry) : Z :=
  match l with [] => 0 | e :: l => signed (e_direction e) (e_minor e) + entries_sum l end.

(** Each entry carries the balance after it. *)
Fixpoint running (r : Z) (l : list PostingEntry) : Prop :=
  match l with
  | [] => True
  | e :: l => e_raw_after e = r + signed (e_direction e) (e_minor e) /\ running (e_raw_after e) l
  end.

Record acct_wf (nxt : Seq) (la : option DateTime) (k : string) (acct : AccountState) : Prop := {
  aw_key : k = to_key (acct_id (as_def acct));
  aw_chunked : chunked (postings acct);
  aw_range : in_range (raw_balance acct);
  aw_running : running 0 (flat (postings acct));
  aw_sum : raw_balance acct = entries_sum (flat (postings acct));
  aw_ordered : ordered (flat (postings acct));
  aw_before : Forall (fun e => 1 <= e_seq e < nxt /\ exists t, la = Some t /\ e_at e <= t) (flat (postings acct));
  aw_updated : updated_seq acct = match last (flat (postings acct)) with Some e => e_seq e | None => 0 end
}.

Record book_wf (st : BookState) : Prop := {
  bw_seq : 1 <= next_seq st;
  bw_accounts : map_Forall (acct_wf (next_seq st) (last_at st)) (accounts st);
  bw_idem : order_ok (idem st);
  bw_txids : forall id s pos, txids st !! id = Some (s, pos) -> 1 <= s < next_seq st
}.

Lemma entries_sum_app l r : entries_sum (l ++ r) = entries_sum l + entries_sum r.
Proof. induction l as [|e l IH]; cbn; [done|]. rewrite IH. lia. Qed.

Lemma running_app r l l' : running r (l ++ l') <-> running r l /\ running (r + entries_sum l) l'.
Proof.
  revert r. induction l as [|e l IH]; intros r; cbn.
  - rewrite Z.add_0_r. tauto.
  - rewrite IH. split.
    + intros (He & H1 & H2). rewrite He in H2. split_and!; [done..|]. by rewrite Z.add_assoc.
    + intros ((He & H1) & H2). rewrite He. split_and!; [done| |by rewrite <- Z.add_assoc]. by rewrite <- He.
Qed.

Section entries_for.
Context (k : string) (txid : TxId) (seq : Seq) (at_ : DateTime).

Lemma entries_for_running r ps : running r (entries_for k r ps txid seq at_).
Proof. revert r. induction ps as [|p ps IH]; intros r; cbn; [done|]. by case_bool_decide. Qed.

Lemma entries_for_sum r ps : entries_sum (entries_for k r ps txid seq at_) = delta k ps.
Proof.
  revert r. induction ps as [|p ps IH]; intros r; cbn; [done|].
  case_bool_decide; cbn; rewrite IH; [|lia]. unfold posting_signed. lia.
Qed.

Lemma entries_for_stamp r ps :
  Forall (fun e => e_seq e = seq /\ e_at e = at_) (entries_for k r ps txid seq at_).
Proof. revert r. induction ps as [|p ps IH]; intros r; cbn; [done|]. case_bool_decide; auto. Qed.

Lemma entries_for_nil r ps : entries_for k r ps txid seq at_ = [] <-> k ∉ touched ps.
Proof.
  revert r. induction ps as [|p ps IH]; intros r; cbn.
  - split; [intros _; apply not_elem_of_nil|done].
  - rewrite not_elem_of_cons. case_bool_decide as Hk.
    + split; [done|]. intros [Hne _]. congruence.
    + rewrite IH. split; [|by intros [_ ?]]. intros ?. split; [congruence|done].
Qed.
End entries_for.

Lemma ordered_app_stamp v l s t :
  ordered v -> Forall (fun e => e_seq e <= s /\ e_at e <= t) v ->
  Forall (fun e => e_seq e = s /\ e_at e = t) l -> ordered (v ++ l).
Proof.
  intros Ho Hv Hl. revert v Ho Hv. induction Hl as [|e l [Hs Ht] Hl IH]; intros v Ho Hv.
  - by rewrite app_nil_r.
  - rewrite cons_middle, app_assoc. apply IH.
    + apply ordered_snoc; [done|]. intros x Hx. rewrite Forall_forall in Hv. rewrite Hs, Ht. by apply Hv.
    + apply Forall_app. split; [done|]. constructor; [lia|done].
Qed.

Lemma acct_wf_applied nxt la k acct acct' ps txid s t :
  acct_wf nxt la k acct -> account_applied k acct acct' ps txid s t ->
  1 <= nxt <= s -> (forall t0, la = Some t0 -> t0 <= t) -> in_range (raw_balance acct') ->
  acct_wf (s + 1) (Some t) k acct'.
Proof.
  intros [Hk Hc Hr Hrun Hsum Ho Hb Hu] (Hd & Hcfg & Hbal & Hup & Hps) Hs Ht Hr'.
  pose proof (push_all_flat (entries_for k (raw_balance acct) ps txid s t) (postings acct)) as Hflat.
  rewrite <- Hps in Hflat. pose proof (entries_for_stamp k txid s t (raw_balance acct) ps) as Hst.
  split; rewrite ?Hflat.
  - by rewrite Hd.
  - rewrite Hps. by apply push_all_chunked.
  - done.
  - apply running_app. split; [done|]. rewrite <- Hsum. apply entries_for_running.
  - rewrite entries_sum_app, entries_for_sum. lia.
  - apply (ordered_app_stamp _ _ s t); [done| |done]. eapply Forall_impl; [done|].
    cbn. intros e (? & t0 & ? & ?). specialize (Ht t0). split; [lia|]. etrans; [done|]. by apply Ht.
  - apply Forall_app. split.
    + eapply Forall_impl; [done|]. cbn. intros e (? & t0 & ? & ?). split; [lia|]. exists t. split; [done|].
      etrans; [done|]. by apply Ht.
    + eapply Forall_impl; [done|]. cbn. intros e [-> ->]. split; [lia|]. by exists t.
  - rewrite Hup. case_bool_decide as Htc.
    + destruct (entries_for k (raw_balance acct) ps txid s t) as [|e l] eqn:Ee using rev_ind.
      * by apply entries_for_nil in Ee.
      * rewrite app_assoc, last_snoc. apply Forall_app in Hst as [_ Hst].
        apply Forall_cons in Hst as [[-> _] _]. done.
    + apply (entries_for_nil k txid s t (raw_balance acct)) in Htc. by rewrite Htc, app_nil_r.
Qed.

(** What a successful [apply_postings] did, validated or not. *)
Lemma apply_postings_inv accts sums ps txid seq at_ accts' sums' :
  apply_postings accts sums ps txid seq at_ = Ok (accts', sums') ->
  sums' = foldl apply_sums sums ps /\
  forall k, match accts !! k with
            | Some acct => exists acct', accts' !! k = Some acct' /\
                account_applied k acct acct' ps txid seq at_ /\
                (in_range (raw_balance acct) -> in_range (raw_balance acct'))
            | None => accts' !! k = None
            end.
Proof.
  revert accts sums. induction ps as [|p ps IH]; intros accts sums Ha; cbn [apply_postings] in Ha.
  { injection Ha as <- <-. split; [done|]. intros k. destruct (accts !! k) eqn:E; [|done].
    eexists. split_and!; [done| |done]. apply account_applied_untouched, not_elem_of_nil. }
  fold (pkey p) in Ha. destruct (accts !! pkey p) as [acct|] eqn:Ea.
  - unfold apply_to_account in Ha. destruct (checked_apply _ _ _) as [e|] eqn:E; [|done].
    apply checked_apply_Some in E as [-> Hr]. apply IH in Ha as [-> Hl]. split; [done|]. intros k.
    pose proof (account_applied_step p ps txid seq at_ accts accts' acct k Ea) as Hstep.
    specialize (Hl k). destruct (decide (pkey p = k)) as [<-|Hne].
    + rewrite lookup_insert_eq in Hl, Hstep. rewrite Ea in *.
      destruct Hl as (a' & Ha' & Hap & Hrng). destruct Hstep as (a'' & Ha'' & Hap'); [by exists a'|].
      assert (a'' = a') as -> by congruence. exists a'. split_and!; [done..|]. intros _. by apply Hrng.
    + rewrite lookup_insert_ne in Hl, Hstep by done. destruct (accts !! k) as [a|]; [|done].
      destruct Hl as (a' & Ha' & Hap & Hrng). destruct Hstep as (a'' & Ha'' & Hap'); [by exists a'|].
      assert (a'' = a') as -> by congruence. by exists a'.
  - apply IH in Ha as [-> Hl]. split; [done|]. intros k. specialize (Hl k).
    destruct (accts !! k) as [a|] eqn:Ek; [|done].
    assert (pkey p <> k) as Hne by congruence. destruct Hl as (a' & Ha' & (H1 & H2 & H3 & H4 & H5) & Hrng).
    exists a'. split_and!; [done| |done]. unfold account_applied. cbn [touched map delta entries_for].
    rewrite !(bool_decide_eq_false_2 (pkey p = k)) by done. split_and!; try done.
    rewrite H4. fold (touched ps). rewrite (bool_decide_ext (k ∈ pkey p :: touched ps) (k ∈ touched ps)); [done|].
    rewrite elem_of_cons. naive_solver.
Qed.

Lemma acct_wf_later nxt la k acct s t :
  acct_wf nxt la k acct -> nxt <= s -> (forall t0, la = Some t0 -> t0 <= t) -> acct_wf (s + 1) (Some t) k acct.
Proof.
  intros [] Hs Ht. split; try done. eapply Forall_impl; [done|]. cbn.
  intros e (? & t0 & ? & ?). split; [lia|]. exists t. split; [done|]. etrans; [done|]. by apply Ht.
Qed.

Lemma book_wf_apply st tx s t pos st' :
  book_wf st -> next_seq st <= s -> (forall t0, last_at st = Some t0 -> t0 <= t) ->
  try_apply_transaction st tx s t pos = Ok st' -> book_wf st'.
Proof.
  intros [Hs Ha Hi Hx] Hle Ht Hap. unfold try_apply_transaction in Hap.
  destruct (apply_postings _ _ _ _ _ _) as [[accts' sums']|] eqn:E; [|done]. injection Hap as <-.
  apply apply_postings_inv in E as [-> Hl]. split; cbn.
  - lia.
  - intros k a' Ha'. specialize (Hl k). destruct (accounts st !! k) as [a|] eqn:Ek; [|congruence].
    destruct Hl as (a'' & Ha'' & Hap & Hr). simplify_eq. specialize (Ha k a Ek).
    eapply acct_wf_applied; [done..| |]; [done|]. apply Hr, (aw_range _ _ _ _ Ha).
  - by apply order_ok_insert.
  - intros id s' pos' [[<- [= <- <-]]|[_ Hid]]%lookup_insert_Some; [lia|]. apply Hx in Hid. lia.
Qed.

Lemma book_wf_bump st s t :
  book_wf st -> next_seq st <= s -> (forall t0, last_at st = Some t0 -> t0 <= t) -> book_wf (bump_seq st s t).
Proof.
  intros [Hs Ha Hi Hx] Hle Ht. split; cbn.
  - lia.
  - intros k a Hk. eapply acct_wf_later; [by apply Ha|..]; done.
  - done.
  - intros id s' pos' Hid. apply Hx in Hid. lia.
Qed.

Lemma new_account_wf nxt la def cfg :
  acct_wf nxt la (to_key (acct_id def)) (mkAccountState def cfg 0 0 PostingIndex_default).
Proof.
  split; cbn; try done; first [apply chunked_default|apply ordered_nil].
Qed.

Lemma book_wf_opened st def cfg s t :
  book_wf st -> next_seq st <= s -> (forall t0, last_at st = Some t0 -> t0 <= t) ->
  book_wf (apply_account_opened st def cfg s t).
Proof.
  intros [Hs Ha Hi Hx] Hle Ht. split; cbn.
  - lia.
  - intros k a Hk. destruct (accounts st !! to_key (acct_id def)) as [b|] eqn:E.
    + eapply acct_wf_later; [by apply Ha|..]; done.
    + apply lookup_insert_Some in Hk as [[<- <-]|[_ Hk]]; [apply new_account_wf|].
      eapply acct_wf_later; [by apply Ha|..]; done.
  - done.
  - intros id s' pos' Hid. apply Hx in Hid. lia.
Qed.

(** ** Money: conservation and minimum balances *)

(** The total of the raw balances of the accounts of asset [a]. *)
Definition share (a : AssetId) (acct : AccountState) : Z :=
  if bool_decide (acct_asset (as_def acct) = a) then raw_balance acct else 0.

Definition asset_total (accts : gmap string AccountState) (a : AssetId) : Z :=
  map_fold (fun _ acct t => share a acct + t) 0 accts.

(** The signed sum of the postings in asset [a]. *)
Fixpoint asset_delta (a : AssetId) (ps : list Posting) : Z :=
  match ps with
  | [] => 0
  | p :: ps =>
      (if bool_decide (amount_asset (p_amount p) = a) then posting_signed p else 0) + asset_delta a ps
  end.

(** What the service layer enforces of a transaction: debits equal credits in
    each asset. *)
Definition balanced (ps : list Posting) : Prop := forall a, asset_delta a ps = 0.

Lemma asset_total_insert accts a k acct :
  accts !! k = None -> asset_total (<[k := acct]> accts) a = share a acct + asset_total accts a.
Proof.
  intros Hk. unfold asset_total. rewrite map_fold_insert_L; [done| |done]. intros. lia.
Qed.

Lemma asset_total_update accts a k acct acct' :
  accts !! k = Some acct ->
  asset_total (<[k := acct']> accts) a = asset_total accts a - share a acct + share a acct'.
Proof.
  intros Hk. rewrite <- (insert_id accts k acct Hk) at 2.
  rewrite <- (insert_delete_eq accts k acct'), <- (insert_delete_eq accts k acct).
  rewrite !asset_total_insert by apply lookup_delete_eq. lia.
Qed.

Lemma asset_total_apply accts sums ps txid seq at_ accts' sums' a :
  accounts_ok accts ps -> apply_postings accts sums ps txid seq at_ = Ok (accts', sums') ->
  asset_total accts' a = asset_total accts a + asset_delta a ps.
Proof.
  revert accts sums. induction ps as [|p ps IH]; intros accts sums Hok Ha; cbn [apply_postings] in Ha.
  { injection Ha as <- <-. cbn. lia. }
  apply Forall_cons in Hok as [(acct & Hk & Hasset) Hok]. fold (pkey p) in Ha. rewrite Hk in Ha.
  unfold apply_to_account in Ha. destruct (checked_apply _ _ _) as [e|] eqn:E; [|done].
  apply checked_apply_Some in E as [-> _]. apply IH in Ha.
  - rewrite Ha, (asset_total_update _ _ _ acct) by done. cbn [asset_delta]. unfold share. cbn.
    rewrite Hasset. unfold posting_signed. case_bool_decide; lia.
  - eapply Forall_impl; [exact Hok|]. intros q (b & Hb & Hba).
    destruct (decide (pkey q = pkey p)) as [He|Hne].
    + rewrite He. rewrite lookup_insert_eq. eexists. split; [done|]. cbn. rewrite He in Hb. congruence.
    + rewrite lookup_insert_ne by done. by exists b.
Qed.

(** No account with postings is below its minimum balance. *)
Definition floors (st : BookState) : Prop :=
  forall k acct m, accounts st !! k = Some acct -> min_balance (as_cfg acct) = Some m ->
    flat (postings acct) = [] \/ m <= effective (raw_balance acct) (normal_side (as_cfg acct)).

(** A new account has no postings. *)
Lemma floors_opened st def cfg s t : floors st -> floors (apply_account_opened st def cfg s t).
Proof.
  intros Hf k acct m. cbn. destruct (accounts st !! to_key (acct_id def)); [apply Hf|].
  intros [[_ <-]|[_ Hk]]%lookup_insert_Some; [by left|by eapply Hf].
Qed.

Lemma project_Err r pj ps e : project r pj ps = Err e -> exists msg, e = Io msg.
Proof.
  revert pj. induction ps as [|p ps IH]; intros pj; cbn; [done|].
  destruct (checked_apply _ _ _); [apply IH|]. intros [= <-]. eauto.
Qed.

Lemma check_accounts_Err accts ps e :
  check_accounts accts ps = Err e ->
  exists p, p ∈ ps /\
    ((e = UnknownAccount (p_account p) /\ accts !! pkey p = None) \/
     exists acct, e = AssetMismatch (p_account p) (acct_asset (as_def acct)) (amount_asset (p_amount p)) /\
       accts !! pkey p = Some acct /\ acct_asset (as_def acct) <> amount_asset (p_amount p)).
Proof.
  induction ps as [|p ps IH]; cbn; [done|]. fold (pkey p). intros Hc.
  destruct (accts !! pkey p) as [acct|] eqn:Ek.
  - case_bool_decide as Hne.
    + destruct (IH Hc) as (q & ? & ?). exists q. split; [by right|done].
    + injection Hc as <-. exists p. split; [by left|]. right. exists acct. by split_and!.
  - injection Hc as <-. exists p. split; [by left|]. by left.
Qed.

Section money.
Context `{HashIterLaws}.

Lemma overlay_accounts_ok st stn sc tx :
  overlay_ok st stn sc -> accounts_ok (accounts st) (tx_postings tx) ->
  accounts_ok (accounts stn) (tx_postings tx).
Proof.
  intros Ho Ha. eapply Forall_impl; [exact Ha|]. intros p (acct & Hk & Hasset).
  destruct (Ho (pkey p) acct Hk) as (a' & Ha' & Hd & _). exists a'. by rewrite Hd.
Qed.

Lemma accepts_total st stn sc txs sc' metas st' a :
  overlay_ok st stn sc -> accepts st sc txs sc' -> length metas = length txs ->
  Forall (fun tx => balanced (tx_postings tx)) txs ->
  apply_all stn (zip txs metas) = Ok st' -> asset_total (accounts st') a = asset_total (accounts stn) a.
Proof.
  intros Ho Ha. revert stn metas Ho. induction Ha as [|sc tx txs sc1 sc2 Hv Hst Ha IH];
    intros stn metas Ho Hlen Hb Hap.
  { destruct metas; [|done]. by injection Hap as <-. }
  destruct metas as [|[[s t] pos] metas]; [done|]. cbn in Hap, Hlen.
  apply Forall_cons in Hb as [Hbt Hb]. pose proof (validate_Ok_scratch _ _ _ Hv) as Hsc.
  apply validate_Ok in Hv. rewrite Hsc in Hst.
  destruct (try_apply_transaction stn tx s t pos) as [stn'|] eqn:Et; [|done].
  rewrite (IH stn' metas); [|by eapply overlay_step|lia|done|done].
  unfold try_apply_transaction in Et.
  destruct (apply_postings _ _ _ _ _ _) as [[accts' sums']|] eqn:E; [|done]. injection Et as <-. cbn.
  erewrite asset_total_apply; [|by eapply overlay_accounts_ok, Hv|exact E]. rewrite Hbt. lia.
Qed.

Lemma floors_step st stn sc tx s t pos stn' :
  overlay_ok st stn sc -> Admissible st sc tx -> floors stn ->
  try_apply_transaction stn tx s t pos = Ok stn' -> floors stn'.
Proof.
  intros Ho Hadm Hfl Hap k a' m Ha' Hm.
  destruct (overlay_fits _ _ _ _ Ho Hadm) as [Hs Hf].
  destruct (try_apply_Ok stn tx s t pos Hs Hf) as (accts' & Hr & Hl). rewrite Hr in Hap.
  injection Hap as <-. cbn in Ha'. specialize (Hl k).
  destruct (accounts stn !! k) as [an|] eqn:En; [|congruence].
  destruct Hl as (a'' & Ha'' & Hd & Hc & Hb & _ & Hps). simplify_eq.
  destruct (decide (k ∈ touched (tx_postings tx))) as [Ht|Ht].
  - right. destruct (touched_accounts _ _ _ (adm_accounts _ _ _ Hadm) Ht) as [a Ek].
    destruct (Ho k a Ek) as (an' & Han & Hd' & Hc' & Hb'). simplify_eq. rewrite Hc, Hc', Hb, Hb' in *.
    by eapply (adm_min _ _ _ Hadm).
  - rewrite (proj2 (entries_for_nil _ _ _ _ _ _) Ht) in Hps. cbn in Hps.
    rewrite Hps, Hb, Hc, delta_untouched, Z.add_0_r by done. apply (Hfl k an m); [done|congruence].
Qed.

Lemma accepts_floors st stn sc txs sc' metas st' :
  overlay_ok st stn sc -> accepts st sc txs sc' -> length metas = length txs ->
  floors stn -> apply_all stn (zip txs metas) = Ok st' -> floors st'.
Proof.
  intros Ho Ha. revert stn metas Ho. induction Ha as [|sc tx txs sc1 sc2 Hv Hst Ha IH];
    intros stn metas Ho Hlen Hb Hap.
  { destruct metas; [|done]. by injection Hap as <-. }
  destruct metas as [|[[s t] pos] metas]; [done|]. cbn in Hap, Hlen.
  pose proof (validate_Ok_scratch _ _ _ Hv) as Hsc. apply validate_Ok in Hv. rewrite Hsc in Hst.
  destruct (try_apply_transaction stn tx s t pos) as [stn'|] eqn:Et; [|done].
  apply (IH stn' metas); [by eapply overlay_step|lia| |done]. by eapply floors_step.
Qed.

(** ** The guarantees of validation *)

(** C13: [validate] accepts exactly the admissible transactions: the book is
    not reserved, every account is open with the posting's asset, no running
    projection leaves the i64 range, and no touched account ends below its
    minimum balance, all relative to the batch overlay. *)
Theorem validate_exact (st : BookState) (tx : Transaction) (sc : Scratch) :
  (validate st tx sc).2 = Ok () <-> Admissible st sc tx.
Proof. apply validate_Ok. Qed.

(** A rejection says what is wrong: each error names a posting's account
    or asset that is at fault, or the balance the transaction would give. *)
Theorem validate_rejections (st : BookState) (tx : Transaction) (sc : Scratch) (e : StoreError) :
  (validate st tx sc).2 = Err e ->
  match e with
  | InvalidBook b => b = tx_book tx /\ is_reserved b = true
  | UnknownAccount a => exists p, p ∈ tx_postings tx /\ p_account p = a /\ accounts st !! pkey p = None
  | AssetMismatch a x y => exists p acct, p ∈ tx_postings tx /\ p_account p = a /\
      accounts st !! pkey p = Some acct /\ x = acct_asset (as_def acct) /\ y = amount_asset (p_amount p) /\ x <> y
  | ConstraintViolation a m w => exists k acct, k ∈ touched (tx_postings tx) /\ accounts st !! k = Some acct /\
      a = acct_id (as_def acct) /\ min_balance (as_cfg acct) = Some m /\ w < m /\
      w = effective (current (accounts st) sc k + delta k (tx_postings tx)) (normal_side (as_cfg acct))
  | Io _ => ~ fits (current (accounts st) sc) (tx_postings tx)
  | UnknownAsset _ | AlreadyExists _ | Saturated => False
  end.
Proof.
  unfold validate. destruct (is_reserved (tx_book tx)) eqn:Er; [by intros [= <-]|].
  destruct (check_accounts (accounts st) (tx_postings tx)) as [[]|e'] eqn:Ec; cbn [snd].
  - fold (seeded st tx sc). pose proof (project_seeded st tx sc) as Hp.
    destruct (project _ ∅ (tx_postings tx)) as [pj|e'] eqn:Ep.
    + destruct Hp as [_ Hes].
      intros (k & v & acct & m & Hin & Hk & Hm & Hlt & ->)%check_min_Err.
      apply Hes in Hin as [Ht ->]. exists k, acct. by split_and!.
    + intros [= <-]. by apply project_Err in Ep as [msg ->].
  - intros [= <-]. apply check_accounts_Err in Ec as (p & Hp & [(-> & ?)|(acct & -> & ? & ?)]).
    + by exists p.
    + exists p, acct. by split_and!.
Qed.

(** [validate] only seeds the overlay: no projected balance changes, and
    validating again gives the same answer and the same overlay. *)
Theorem validate_only_seeds (st : BookState) (tx : Transaction) (sc : Scratch) :
  let '(sc1, r) := validate st tx sc in
  (forall k, current (accounts st) sc1 k = current (accounts st) sc k) /\
  scratch_idem sc1 = scratch_idem sc /\
  (r = Ok () -> validate st tx sc1 = (sc1, Ok ())).
Proof.
  destruct (validate st tx sc) as [sc1 r] eqn:Ev.
  pose proof (validate_scratch st tx sc) as Hs. rewrite Ev in Hs. cbn in Hs. split_and!.
  - destruct Hs as [->| ->]; [done|]. intros k. apply current_seeded.
  - by destruct Hs as [->| ->].
  - intros ->. assert ((validate st tx sc).2 = Ok ()) as Hv by (by rewrite Ev).
    pose proof (validate_Ok_scratch _ _ _ Hv) as Hsc. rewrite Ev in Hsc. cbn in Hsc. subst sc1.
    apply validate_Ok in Hv. apply (Admissible_current _ _ _ (seeded st tx sc)) in Hv; [|apply current_seeded].
    apply validate_Ok in Hv. rewrite (surjective_pairing (validate st tx (seeded st tx sc))), Hv.
    by rewrite (validate_Ok_scratch _ _ _ Hv), seeded_idempotent.
Qed.

(** C14: what was validated and staged can be applied: after any sequence of
    acceptances in a batch, applying the transactions in order succeeds, and
    every account ends with the balance the overlay projected. *)
Theorem accepted_batch_applies (st : BookState) (txs : list Transaction) (sc' : Scratch)
    (metas : list (Seq * DateTime * (Seq * nat))) :
  accepts st Scratch_default txs sc' -> length metas = length txs ->
  exists st', apply_all st (zip txs metas) = Ok st' /\
    (forall k v, raw sc' !! k = Some v -> is_Some (accounts st !! k) -> committed_raw (accounts st') k = v) /\
    (forall k, raw sc' !! k = None -> is_Some (accounts st !! k) ->
       committed_raw (accounts st') k = committed_raw (accounts st) k).
Proof.
  intros Ha Hlen. destruct (apply_all_accepted st st Scratch_default txs sc' metas) as (st' & Hst & Ho);
    [by apply overlay_ok_start|done..|]. exists st'. split_and!; [done| |].
  - intros k v Hk [a Hka]. destruct (Ho k a Hka) as (a' & Ha' & _ & _ & Hb).
    unfold committed_raw. rewrite Ha', Hb. unfold current. by rewrite Hk.
  - intros k Hk [a Hka]. destruct (Ho k a Hka) as (a' & Ha' & _ & _ & Hb).
    unfold committed_raw at 1. rewrite Ha', Hb. unfold current. by rewrite Hk.
Qed.

(** C15: money is conserved and no floor is broken: applying an accepted batch
    of balanced transactions keeps the total of every asset, and every
    account with postings stays at or above its minimum balance. *)
Theorem accepted_batch_conserves (st : BookState) (txs : list Transaction) (sc' : Scratch)
    (metas : list (Seq * DateTime * (Seq * nat))) (st' : BookState) :
  accepts st Scratch_default txs sc' -> length metas = length txs ->
  Forall (fun tx => balanced (tx_postings tx)) txs -> floors st ->
  apply_all st (zip txs metas) = Ok st' ->
  (forall a, asset_total (accounts st') a = asset_total (accounts st) a) /\ floors st'.
Proof.
  intros Ha Hlen Hb Hf Hap. pose proof (overlay_ok_start st Scratch_default eq_refl) as Ho. split.
  - intros a. by eapply accepts_total.
  - by eapply accepts_floors.
Qed.
End money.

(** C19: the operations on a book keep it well-formed: keys match accounts, each
    balance is the sum of its history, each entry carries the running balance,
    the history is ordered and below the next sequence number, and applying
    takes the sequence number it was given. *)
Theorem book_wf_preserved (st : BookState) (s : Seq) (t : DateTime) :
  book_wf st -> next_seq st <= s -> (forall t0, last_at st = Some t0 -> t0 <= t) ->
  (forall tx pos st', try_apply_transaction st tx s t pos = Ok st' -> book_wf st' /\ next_seq st' = s + 1) /\
  (forall def cfg, book_wf (apply_account_opened st def cfg s t)) /\
  book_wf (bump_seq st s t).
Proof.
  intros Hw Hs Ht. split_and!.
  - intros tx pos st' Hap. split; [by eapply book_wf_apply|].
    unfold try_apply_transaction in Hap. destruct (apply_postings _ _ _ _ _ _) as [[??]|]; [|done].
    by injection Hap as <-.
  - intros def cfg. by apply book_wf_opened.
  - by apply book_wf_bump.
Qed.

(** ** A concrete book *)

Section demo_book.
#[local] Existing Instance some_hash_iter.
#[local] Existing Instance some_hash_iter_laws.

Definition acc (path : string) : AccountId := mkAccountId "shop" path.

Definition demo_def (path : string) (kind : AccountKind) : AccountDef := mkAccountDef (acc path) "USD" kind.

(** [cash] may not go below zero, [sales] is credit-normal without a floor. *)
Definition demo_book : BookState :=
  apply_account_opened
    (apply_account_opened (set_idem BookState_default (with_cap 4))
      (demo_def "cash" Asset) (mkAccountCfg (Some Debit) (Some 0)) 1 100)
    (demo_def "sales" Income) (mkAccountCfg (Some Credit) None) 2 100.

Definition transfer (id : Z) (from to : string) (m : Z) : Transaction :=
  mkTransaction id "shop"
    [mkPosting (acc to) (mkAmount m "USD") Debit; mkPosting (acc from) (mkAmount m "USD") Credit]
    (i64_to_string id) [] "null" 100.

Definition sale : Transaction := transfer 7 "sales" "cash" 50.
Definition refund : Transaction := transfer 8 "cash" "sales" 20.

Lemma demo_book_wf : book_wf demo_book.
Proof.
  apply book_wf_opened; [apply book_wf_opened| |].
  - split; cbn.
    + lia.
    + apply map_Forall_empty.
    + split; cbn; [constructor|]. intros k. rewrite lookup_empty.
      split; [by intros ?%elem_of_nil|by intros [? ?]].
    + intros id s pos. by rewrite lookup_empty.
  - done.
  - done.
  - done.
  - cbn. by intros t0 [= <-].
Qed.

Lemma validate_exact_witness :
  (validate demo_book sale Scratch_default).2 = Ok () /\ Admissible demo_book Scratch_default sale.
Proof.
  assert ((validate demo_book sale Scratch_default).2 = Ok ()) as Hv by (vm_compute; reflexivity).
  split; [exact Hv|]. exact (proj1 (validate_exact demo_book sale Scratch_default) Hv).
Defined.

(** A refund of more than the cash at hand. *)
Lemma validate_rejections_witness :
  exists e, (validate demo_book refund Scratch_default).2 = Err e /\
  exists k, k ∈ touched (tx_postings refund) /\ e = ConstraintViolation (acc "cash") 0 (-20).
Proof.
  exists (ConstraintViolation (acc "cash") 0 (-20)). split; [vm_compute; reflexivity|].
  destruct (validate_rejections demo_book refund Scratch_default (ConstraintViolation (acc "cash") 0 (-20)))
    as (k & acct & Hk & _); [vm_compute; reflexivity|]. by exists k.
Defined.

Lemma validate_only_seeds_witness :
  let sc1 := (validate demo_book sale Scratch_default).1 in
  validate demo_book sale sc1 = (sc1, Ok ()).
Proof.
  pose proof (validate_only_seeds demo_book sale Scratch_default) as H.
  destruct (validate demo_book sale Scratch_default) as [sc1 r] eqn:E.
  destruct H as (_ & _ & H). apply H. vm_compute in E. by injection E as _ <-.
Defined.

(** The overlay after accepting the sale and then the refund. *)
Definition demo_overlay : Scratch :=
  mkScratch {[ to_key (acc "cash") := 30; to_key (acc "sales") := -30 ]} ∅.

Definition demo_metas : list (Seq * DateTime * (Seq * nat)) := [(3, 200, (1, 0%nat)); (4, 200, (1, 64%nat))].

Lemma demo_accepts : accepts demo_book Scratch_default [sale; refund] demo_overlay.
Proof.
  eapply accepts_cons; [vm_compute; reflexivity..|].
  eapply accepts_cons; [vm_compute; reflexivity..|].
  apply accepts_nil.
Qed.

Lemma accepted_batch_applies_witness :
  exists st', apply_all demo_book (zip [sale; refund] demo_metas) = Ok st' /\
    committed_raw (accounts st') (to_key (acc "cash")) = 30.
Proof.
  destruct (accepted_batch_applies demo_book [sale; refund] demo_overlay demo_metas demo_accepts eq_refl)
    as (st' & Hst & Hb & _).
  exists st'. split; [exact Hst|]. apply Hb; [vm_compute; reflexivity|]. vm_compute. by eexists.
Defined.

Lemma demo_floors : floors demo_book.
Proof.
  repeat apply floors_opened. intros k acct m. cbn. by rewrite lookup_empty.
Qed.

Lemma transfer_balanced id a b m : balanced (tx_postings (transfer id a b m)).
Proof. intros x. cbn. unfold posting_signed. cbn. case_bool_decide; lia. Qed.

Lemma accepted_batch_conserves_witness :
  exists st', apply_all demo_book (zip [sale; refund] demo_metas) = Ok st' /\
    asset_total (accounts st') "USD" = asset_total (accounts demo_book) "USD" /\ floors st'.
Proof.
  destruct (apply_all_accepted demo_book demo_book Scratch_default [sale; refund] demo_overlay demo_metas
    (overlay_ok_start demo_book Scratch_default eq_refl) demo_accepts eq_refl) as (st' & Hst & _).
  exists st'. split; [exact Hst|].
  destruct (accepted_batch_conserves demo_book [sale; refund] demo_overlay demo_metas st'
    demo_accepts eq_refl) as [Ht Hf].
  - repeat constructor; apply transfer_balanced.
  - exact demo_floors.
  - exact Hst.
  - split; [apply Ht|exact Hf].
Defined.

Lemma book_wf_preserved_witness :
  book_wf (bump_seq demo_book 3 200) /\
  exists st', try_apply_transaction demo_book sale 3 200 (1, 0%nat) = Ok st' /\ book_wf st'.
Proof.
  destruct (book_wf_preserved demo_book 3 200 demo_book_wf) as (Htx & _ & Hb).
  - vm_compute. discriminate.
  - intros t0 Ht. vm_compute in Ht. injection Ht as <-. discriminate.
  - split; [exact Hb|]. destruct (try_apply_transaction demo_book sale 3 200 (1, 0%nat)) as [st'|e] eqn:E.
    + exists st'. split; [reflexivity|]. by eapply Htx.
    + vm_compute in E. discriminate.
Defined.

(** A credit-normal account without a floor can be credited down to the
    least i64, where [effective] is no longer the negated balance: the
    account reads as overdrawn by its full credit. *)
Theorem effective_wraps_at_min :
  exists st tx st', (validate st tx Scratch_default).2 = Ok () /\
    try_apply_transaction st tx 4 200 (1, 0%nat) = Ok st' /\
    committed_raw (accounts st') (to_key (acc "sales")) = i64_min /\
    effective i64_min (Some Credit) = i64_min.
Proof.
  destruct (try_apply_transaction demo_book (transfer 9 "sales" "cash" i64_max) 3 200 (1, 0%nat)) as [st1|] eqn:E1;
    [|vm_compute in E1; discriminate].
  set (tx := mkTransaction 10 "shop" [mkPosting (acc "cash") (mkAmount 1 "USD") Credit;
    mkPosting (acc "cash") (mkAmount 1 "USD") Debit; mkPosting (acc "sales") (mkAmount 1 "USD") Credit] "k" [] "null" 100).
  destruct (try_apply_transaction st1 tx 4 200 (1, 0%nat)) as [st2|] eqn:E2;
    [|vm_compute in E1; injection E1 as <-; vm_compute in E2; discriminate].
  exists st1, tx, st2. vm_compute in E1. injection E1 as <-. vm_compute in E2. injection E2 as <-.
  split_and!; vm_compute; reflexivity.
Qed.
End demo_book.
