(* ===== verification/Frame.v ===== *)
(** The wire format of a log frame, talea-store-log/src/frame.rs: a u32 payload
    length, a u32 CRC of the payload, both little-endian, and the JSON payload.

    A log is a sequence of encoded frames ([encoded]); a decoder reads an
    encoded frame back whatever follows it, and takes every strict prefix of
    one for a torn write. *)

From S2P Require Import Prelude Core Disk.
Open Scope Z_scope.

Record WireEvent := mkWireEvent { w_seq : Seq; w_at : DateTime; w_event : LedgerEvent }.

#[export] Instance WireEvent_eq_dec : EqDecision WireEvent.
Proof. solve_decision. Defined.

Definition HEADER_LEN : nat := 8.

Inductive FrameError := Torn | Corrupt (reason : string).

Inductive EncodeError := EncodeJson (message : string) | TooLarge (len : nat).

(** [u32::try_from] on a length *)
Definition try_u32 (n : nat) : option Z :=
  if Z.of_nat n <? 2 ^ 32 then Some (Z.of_nat n) else None.

(** [split_first_chunk::<4>] *)
Definition split_first_chunk4 (buf : list byte) : option (list byte * list byte) :=
  if (4 <=? length buf)%nat then Some (take 4 buf, drop 4 buf) else None.

(** [buf.get(a..b)] *)
Definition get_range (a b : nat) (buf : list byte) : option (list byte) :=
  if (a <=? b)%nat && (b <=? length buf)%nat then Some (take (b - a) (drop a buf)) else None.

Section frame.
Context `{Crc32} `{Json WireEvent}.

Definition encode_frame (ev : WireEvent) : result (list byte) EncodeError :=
  match to_vec ev with
  | Err e => Err (EncodeJson e)
  | Ok payload =>
      match try_u32 (length payload) with
      | None => Err (TooLarge (length payload))
      | Some len_u32 =>
          Ok (to_le_bytes len_u32 ++ to_le_bytes (crc32_hash payload) ++ payload)
      end
  end.

Definition decode_frame (buf : list byte) : result (option (WireEvent * nat)) FrameError :=
  match buf with
  | [] => Ok None
  | _ =>
      match split_first_chunk4 buf with
      | None => Err Torn
      | Some (len_bytes, rest) =>
          match split_first_chunk4 rest with
          | None => Err Torn
          | Some (crc_bytes, _) =>
              let len := Z.to_nat (from_le_bytes len_bytes) in
              let crc := from_le_bytes crc_bytes in
              match get_range HEADER_LEN (HEADER_LEN + len) buf with
              | None => Err Torn
              | Some payload =>
                  if negb (crc32_hash payload =? crc) then Err (Corrupt "crc mismatch")
                  else
                    match from_slice payload with
                    | Err e => Err (Corrupt ("json: " +:+ e))
                    | Ok ev => Ok (Some (ev, (HEADER_LEN + len)%nat))
                    end
              end
          end
      end
  end.

(** ** A sequence of frames *)

Inductive encoded : list WireEvent -> list byte -> Prop :=
| encoded_nil : encoded [] []
| encoded_cons ev evs b bs :
    encode_frame ev = Ok b -> encoded evs bs -> encoded (ev :: evs) (b ++ bs).

Lemma encoded_app evs evs' bs bs' : encoded evs bs -> encoded evs' bs' -> encoded (evs ++ evs') (bs ++ bs').
Proof. induction 1; intros; cbn; [done|]. rewrite <- app_assoc. constructor; auto. Qed.

Lemma encoded_one ev b : encode_frame ev = Ok b -> encoded [ev] b.
Proof. intros. rewrite <- (app_nil_r b). by constructor; [|constructor]. Qed.

Lemma encoded_snoc evs bs ev b : encoded evs bs -> encode_frame ev = Ok b -> encoded (evs ++ [ev]) (bs ++ b).
Proof. intros. apply encoded_app; [done|]. by apply encoded_one. Qed.

(** The encoding is a function of the events. *)
Lemma encoded_fun evs bs bs' : encoded evs bs -> encoded evs bs' -> bs = bs'.
Proof.
  intros He. revert bs'. induction He as [|ev evs b bs Hb He IH]; intros bs' He'; inversion He'; subst; [done|].
  f_equal; [congruence|auto].
Qed.

Lemma encoded_take evs bs n : encoded evs bs -> exists bs1 bs2, bs = bs1 ++ bs2 /\
  encoded (take n evs) bs1 /\ encoded (drop n evs) bs2.
Proof.
  intros He. revert n. induction He as [|ev evs b bs Hb He IH]; intros n.
  - exists [], []. rewrite take_nil, drop_nil. by repeat constructor.
  - destruct n as [|n]; cbn.
    + exists [], (b ++ bs). by repeat constructor.
    + destruct (IH n) as (bs1 & bs2 & -> & H1 & H2). exists (b ++ bs1), bs2.
      rewrite app_assoc. split_and!; [done| |done]. by constructor.
Qed.

Section laws.
Context `{!Crc32Laws} `{!JsonLaws WireEvent}.

Lemma encode_frame_shape ev b :
  encode_frame ev = Ok b -> exists payload,
    to_vec ev = Ok payload /\ Z.of_nat (length payload) < 2 ^ 32 /\
    b = to_le_bytes (Z.of_nat (length payload)) ++ to_le_bytes (crc32_hash payload) ++ payload.
Proof.
  unfold encode_frame, try_u32. destruct (to_vec ev) as [payload|]; [|done].
  destruct (Z.of_nat (length payload) <? 2 ^ 32) eqn:E; [|done].
  intros Hb. exists payload. apply Z.ltb_lt in E. split_and!; [done..|]. congruence.
Qed.

Lemma encode_frame_length ev b : encode_frame ev = Ok b -> (HEADER_LEN <= length b)%nat.
Proof.
  intros (payload & _ & _ & ->)%encode_frame_shape. rewrite !length_app, !length_to_le_bytes.
  unfold HEADER_LEN. lia.
Qed.

(** Decoding a buffer of at least a header. *)
Lemma decode_frame_header l c rest :
  length l = 4%nat -> length c = 4%nat ->
  decode_frame (l ++ c ++ rest) =
  let len := Z.to_nat (from_le_bytes l) in
  if (length rest <? len)%nat then Err Torn
  else if negb (crc32_hash (take len rest) =? from_le_bytes c) then Err (Corrupt "crc mismatch")
  else match from_slice (take len rest) with
       | Err e => Err (Corrupt ("json: " +:+ e))
       | Ok ev => Ok (Some (ev, (HEADER_LEN + len)%nat))
       end.
Proof.
  intros Hl Hc. destruct l as [|x0 l0] eqn:El; [done|].
  unfold decode_frame at 1. cbn [app]. change (x0 :: l0 ++ c ++ rest) with ((x0 :: l0) ++ c ++ rest).
  rewrite <- El in *. clear El x0 l0. unfold split_first_chunk4.
  assert (4 <=? length (l ++ c ++ rest) = true)%nat as -> by (apply Nat.leb_le; rewrite !length_app; lia).
  rewrite take_app_length', drop_app_length' by done.
  assert (4 <=? length (c ++ rest) = true)%nat as -> by (apply Nat.leb_le; rewrite !length_app; lia).
  rewrite take_app_length' by done. cbn zeta. set (len := Z.to_nat _). unfold get_range.
  assert (HEADER_LEN <=? HEADER_LEN + len = true)%nat as -> by (apply Nat.leb_le; lia). cbn [andb].
  rewrite !length_app, Hl, Hc, app_assoc.
  rewrite (drop_app_length' (l ++ c)) by (rewrite length_app, Hl, Hc; done).
  replace (HEADER_LEN + len - HEADER_LEN)%nat with len by lia.
  destruct (length rest <? len)%nat eqn:E; bool_to_prop.
  - assert (HEADER_LEN + len <=? 4 + (4 + length rest) = false)%nat as ->
      by (apply Nat.leb_gt; unfold HEADER_LEN; lia). done.
  - assert (HEADER_LEN + len <=? 4 + (4 + length rest) = true)%nat as ->
      by (apply Nat.leb_le; unfold HEADER_LEN; lia). done.
Qed.

Lemma decode_frame_short buf : (0 < length buf < HEADER_LEN)%nat -> decode_frame buf = Err Torn.
Proof.
  intros [Hpos H8]. unfold decode_frame. destruct buf as [|x l]; [cbn in Hpos; lia|].
  revert Hpos H8. generalize (x :: l) as buf. intros buf Hpos H8. unfold split_first_chunk4.
  destruct (4 <=? length buf)%nat eqn:E4; [|done]. rewrite length_drop.
  assert (4 <=? length buf - 4 = false)%nat as ->; [|done].
  apply Nat.leb_gt. unfold HEADER_LEN in *. lia.
Qed.

Lemma decode_encode_frame ev b rest :
  encode_frame ev = Ok b -> decode_frame (b ++ rest) = Ok (Some (ev, length b)).
Proof.
  intros (payload & Hv & Hlen & ->)%encode_frame_shape. rewrite <- !app_assoc.
  rewrite decode_frame_header by apply length_to_le_bytes. cbn zeta.
  rewrite from_to_le_bytes by lia. rewrite Nat2Z.id.
  assert (length (payload ++ rest) <? length payload = false)%nat as ->
    by (apply Nat.ltb_ge; rewrite length_app; lia).
  rewrite take_app_length, from_to_le_bytes by apply crc32_range. rewrite Z.eqb_refl. cbn [negb].
  rewrite (from_slice_to_vec _ _ Hv). rewrite !length_app, !length_to_le_bytes. done.
Qed.

Lemma decode_prefix_torn ev b n :
  encode_frame ev = Ok b -> (0 < n < length b)%nat -> decode_frame (take n b) = Err Torn.
Proof.
  intros (payload & Hv & Hlen & ->)%encode_frame_shape Hn.
  destruct (decide (n < HEADER_LEN)%nat) as [H8|H8].
  { apply decode_frame_short. rewrite length_take. lia. }
  set (l := to_le_bytes (Z.of_nat (length payload))) in *.
  set (c := to_le_bytes (crc32_hash payload)) in *.
  assert (length l = 4%nat) as Hl by apply length_to_le_bytes.
  assert (length c = 4%nat) as Hc by apply length_to_le_bytes.
  rewrite !length_app, Hl, Hc in Hn. unfold HEADER_LEN in H8.
  assert (take n (l ++ c ++ payload) = l ++ c ++ take (n - 8) payload) as ->.
  { rewrite app_assoc, take_app_ge by (rewrite length_app; lia).
    rewrite <- app_assoc. do 3 f_equal. }
  rewrite decode_frame_header by done. cbn zeta. unfold l. rewrite from_to_le_bytes by lia.
  rewrite Nat2Z.id.
  assert (length (take (n - 8) payload) <? length payload = true)%nat as ->; [|done].
  apply Nat.ltb_lt. rewrite length_take. lia.
Qed.

(** A decoded frame lies in the buffer, and only its bytes matter. *)
Lemma decode_frame_bound buf ev n :
  decode_frame buf = Ok (Some (ev, n)) ->
  (HEADER_LEN <= n <= length buf)%nat /\ forall rest, decode_frame (take n buf ++ rest) = Ok (Some (ev, n)).
Proof.
  intros Hd. destruct (decide (length buf < HEADER_LEN)%nat) as [Hs|Hs].
  { destruct buf; [done|]. rewrite decode_frame_short in Hd; [done|]. cbn in *. lia. }
  assert (exists l c r, buf = l ++ c ++ r /\ length l = 4%nat /\ length c = 4%nat) as (l & c & r & -> & Hl & Hc).
  { exists (take 4 buf), (take 4 (drop 4 buf)), (drop 8 buf). unfold HEADER_LEN in Hs.
    rewrite !length_take, length_drop. split_and!; [|lia..].
    replace (drop 8 buf) with (drop 4 (drop 4 buf)) by (by rewrite drop_drop).
    by rewrite !take_drop. }
  rewrite decode_frame_header in Hd by done. cbn zeta in Hd. set (len := Z.to_nat _) in Hd.
  destruct (length r <? len)%nat eqn:El; [done|]. bool_to_prop.
  destruct (negb _) eqn:Ec; [done|]. destruct (from_slice _) as [ev'|] eqn:Ej; [|done].
  assert (ev' = ev /\ n = (HEADER_LEN + len)%nat) as [-> ->] by (split; congruence).
  split; [rewrite !length_app; unfold HEADER_LEN; lia|]. intros rest.
  assert (take (HEADER_LEN + len) (l ++ c ++ r) = l ++ c ++ take len r) as ->.
  { rewrite app_assoc, take_app_ge by (rewrite length_app; unfold HEADER_LEN; lia).
    rewrite <- app_assoc. do 3 f_equal. rewrite length_app. unfold HEADER_LEN. lia. }
  rewrite <- !app_assoc, decode_frame_header by done. cbn zeta. fold len.
  assert (length (take len r ++ rest) <? len = false)%nat as ->
    by (apply Nat.ltb_ge; rewrite length_app, length_take; lia).
  rewrite take_app_length' by (rewrite length_take; lia). by rewrite Ec, Ej.
Qed.

(** An encoded frame is read back with its length, whatever bytes
    follow it. *)
Theorem frame_round_trip (ev : WireEvent) (b rest : list byte) :
  encode_frame ev = Ok b -> decode_frame (b ++ rest) = Ok (Some (ev, length b)).
Proof. apply decode_encode_frame. Qed.

(** A write of a frame that stopped before its end is seen as torn,
    never as a frame and never as corruption. *)
Theorem frame_prefix_is_torn (ev : WireEvent) (b : list byte) (n : nat) :
  encode_frame ev = Ok b -> (0 < n < length b)%nat -> decode_frame (take n b) = Err Torn.
Proof. apply decode_prefix_torn. Qed.
End laws.
End frame.

(** ** A concrete frame *)

#[export] Instance AssetClass_countable : Countable AssetClass.
Proof.
  refine (inj_countable'
    (fun c => match c with Fiat => inl () | Crypto n i => inr (n, i) end)
    (fun x => match x with inl _ => Fiat | inr (n, i) => Crypto n i end) _).
  by intros [].
Defined.
#[export] Instance AssetDef_countable : Countable AssetDef.
Proof.
  refine (inj_countable' (fun a => (asset_id a, asset_class a, asset_precision a, asset_name a))
    (fun '(i, c, p, n) => mkAssetDef i c p n) _). by intros [].
Defined.
#[export] Instance AccountId_countable : Countable AccountId.
Proof.
  refine (inj_countable' (fun a => (acct_book a, acct_path a)) (fun '(b, p) => mkAccountId b p) _).
  by intros [].
Defined.
#[export] Instance Direction_countable : Countable Direction.
Proof.
  refine (inj_countable' (fun d => match d with Debit => true | Credit => false end)
    (fun b => if b then Debit else Credit) _). by intros [].
Defined.
#[export] Instance AccountKind_countable : Countable AccountKind.
Proof.
  refine (inj_countable AccountKind_as_str AccountKind_from_db _). by intros [].
Defined.
#[export] Instance AccountDef_countable : Countable AccountDef.
Proof.
  refine (inj_countable' (fun a => (acct_id a, acct_asset a, acct_kind a))
    (fun '(i, a, k) => mkAccountDef i a k) _). by intros [].
Defined.
#[export] Instance AccountCfg_countable : Countable AccountCfg.
Proof.
  refine (inj_countable' (fun c => (normal_side c, min_balance c)) (fun '(n, m) => mkAccountCfg n m) _).
  by intros [].
Defined.
#[export] Instance Amount_countable : Countable Amount.
Proof.
  refine (inj_countable' (fun a => (minor a, amount_asset a)) (fun '(m, a) => mkAmount m a) _).
  by intros [].
Defined.
#[export] Instance Posting_countable : Countable Posting.
Proof.
  refine (inj_countable' (fun p => (p_account p, p_amount p, p_direction p))
    (fun '(a, m, d) => mkPosting a m d) _). by intros [].
Defined.
#[export] Instance ExternalRef_countable : Countable ExternalRef.
Proof.
  refine (inj_countable' (fun r => (ref_kind r, ref_value r)) (fun '(k, v) => mkExternalRef k v) _).
  by intros [].
Defined.
#[export] Instance Transaction_countable : Countable Transaction.
Proof.
  refine (inj_countable'
    (fun t => (tx_id t, tx_book t, tx_postings t, tx_idem t, tx_external_refs t, tx_metadata t, tx_occurred_at t))
    (fun '(i, b, p, k, r, m, o) => mkTransaction i b p k r m o) _). by intros [].
Defined.
#[export] Instance LedgerEvent_countable : Countable LedgerEvent.
Proof.
  refine (inj_countable'
    (fun e => match e with
              | AssetRegistered d => inl d
              | AccountOpened d c => inr (inl (d, c))
              | TransactionPosted t => inr (inr t)
              end)
    (fun x => match x with
              | inl d => AssetRegistered d
              | inr (inl (d, c)) => AccountOpened d c
              | inr (inr t) => TransactionPosted t
              end) _). by intros [].
Defined.
#[export] Instance WireEvent_countable : Countable WireEvent.
Proof.
  refine (inj_countable' (fun e => (w_seq e, w_at e, w_event e)) (fun '(s, a, e) => mkWireEvent s a e) _).
  by intros [].
Defined.

Module FrameDemo.
#[export] Instance demo_crc : Crc32 := sum_crc32.
#[export] Instance demo_crc_laws : Crc32Laws := sum_crc32_laws.
#[export] Instance demo_event_json : Json WireEvent := CountableJson WireEvent.
#[export] Instance demo_event_json_laws : JsonLaws WireEvent := CountableJson_laws WireEvent.
End FrameDemo.

Section frame_demo.
Import FrameDemo.

Definition demo_event (s : Z) : WireEvent :=
  mkWireEvent s 100 (AssetRegistered (mkAssetDef "USD" Fiat 2 "US Dollar")).

Definition demo_frame (s : Z) : list byte :=
  match encode_frame (demo_event s) with Ok b => b | Err _ => [] end.

Lemma frame_round_trip_witness :
  encode_frame (demo_event 3) = Ok (demo_frame 3) /\
  decode_frame (demo_frame 3 ++ [x01; x02]) = Ok (Some (demo_event 3, length (demo_frame 3))).
Proof.
  assert (encode_frame (demo_event 3) = Ok (demo_frame 3)) as He by (vm_compute; reflexivity).
  split; [exact He|]. exact (frame_round_trip (demo_event 3) (demo_frame 3) [x01; x02] He).
Defined.

Lemma frame_prefix_is_torn_witness :
  (20 < length (demo_frame 3))%nat /\ decode_frame (take 20 (demo_frame 3)) = Err Torn.
Proof.
  assert (encode_frame (demo_event 3) = Ok (demo_frame 3)) as He by (vm_compute; reflexivity).
  assert (20 < length (demo_frame 3))%nat as Hl by (vm_compute; lia).
  split; [exact Hl|]. apply (frame_prefix_is_torn (demo_event 3) (demo_frame 3) 20 He). lia.
Defined.
End frame_demo.
