(* ===== verification/Replay.v ===== *)
(** Replaying a log: the effect of a committed event on a book's state, shared
    by the live path (writer.rs) and by opening a store (lib.rs), and what a
    replayed state has to do with its log. *)

From S2P Require Import Prelude Core Bloom Disk PostingIndex Idem BookState Frame.
Open Scope Z_scope.

(** Effect of a committed event on the state, live and in replay. *)
Definition apply_event (st : BookState) (ev : WireEvent) (p : Seq * nat) : result BookState string :=
  match w_event ev with
  | TransactionPosted tx => try_apply_transaction st tx (w_seq ev) (w_at ev) p
  | AccountOpened def cfg => Ok (apply_account_opened st def cfg (w_seq ev) (w_at ev))
  | AssetRegistered _ => Ok (bump_seq st (w_seq ev) (w_at ev))
  end.


(** The fold over a log with the positions of its frames. *)
Fixpoint replay (st : BookState) (log : list (WireEvent * (Seq * nat))) : result BookState string :=
  match log with
  | [] => Ok st
  | (ev, p) :: log => let? st' := apply_event st ev p in replay st' log
  end.

(** The idempotency record an event leaves. *)
Definition event_pair (ev : WireEvent) : option Pair :=
  match w_event ev with
  | TransactionPosted tx => Some (tx_idem tx, mkCommittedRec (tx_id tx) (w_seq ev) (w_at ev))
  | _ => None
  end.

(** The idempotency map of a log. *)
Definition idem_step (M : gmap string CommittedRec) (ev : WireEvent) : gmap string CommittedRec :=
  match event_pair ev with Some (k, v) => <[k := v]> M | None => M end.

Definition idem_map (log : list WireEvent) : gmap string CommittedRec := foldl idem_step ∅ log.

(** Two states that differ in their idempotency index only. *)
Record same_book (st st' : BookState) : Prop := {
  sb_seq : next_seq st' = next_seq st;
  sb_accounts : accounts st' = accounts st;
  sb_txids : txids st' = txids st;
  sb_sums : sums st' = sums st;
  sb_at : last_at st' = last_at st
}.

Lemma same_book_refl st : same_book st st.
Proof. done. Qed.

Lemma same_book_trans st1 st2 st3 : same_book st1 st2 -> same_book st2 st3 -> same_book st1 st3.
Proof. intros [] []. split; congruence. Qed.

Lemma same_book_set_idem st t : same_book st (set_idem st t).
Proof. done. Qed.

Lemma apply_event_same st st' ev p st1 :
  same_book st st' -> apply_event st ev p = Ok st1 ->
  exists st1', apply_event st' ev p = Ok st1' /\ same_book st1 st1'.
Proof.
  intros [H1 H2 H3 H4 H5] Ha. unfold apply_event in *. destruct (w_event ev) as [def|def cfg|tx].
  - injection Ha as <-. eexists. by split.
  - injection Ha as <-. eexists. split; [done|]. unfold apply_account_opened. split; cbn; try done. by rewrite H2.
  - unfold try_apply_transaction in *. rewrite H2, H4.
    destruct (apply_postings _ _ _ _ _ _) as [[a s]|]; [|done]. injection Ha as <-.
    eexists. split; [done|]. split; cbn; congruence.
Qed.

Lemma replay_same st st' log st1 :
  same_book st st' -> replay st log = Ok st1 -> exists st1', replay st' log = Ok st1' /\ same_book st1 st1'.
Proof.
  revert st st'. induction log as [|[ev p] log IH]; intros st st' Hs Hr; cbn in *; [simplify_eq; eauto|].
  destruct (apply_event st ev p) as [st2|] eqn:E; [|done].
  destruct (apply_event_same _ _ _ _ _ Hs E) as (st2' & -> & Hs2). by eapply IH.
Qed.

Lemma replay_app st log log' :
  replay st (log ++ log') = let? st' := replay st log in replay st' log'.
Proof.
  revert st. induction log as [|[ev p] log IH]; intros st; cbn; [done|].
  destruct (apply_event st ev p); [apply IH|done].
Qed.

Lemma apply_event_idem st ev p st1 :
  apply_event st ev p = Ok st1 ->
  idem st1 = match event_pair ev with Some (k, v) => idem_insert (idem st) k v | None => idem st end.
Proof.
  unfold apply_event, event_pair. destruct (w_event ev) as [def|def cfg|tx]; [by intros [= <-]..|].
  unfold try_apply_transaction. destruct (apply_postings _ _ _ _ _ _) as [[a s]|]; [|done]. by intros [= <-].
Qed.

Lemma apply_event_stamp st ev p st1 :
  apply_event st ev p = Ok st1 -> next_seq st1 = w_seq ev + 1 /\ last_at st1 = Some (w_at ev).
Proof.
  unfold apply_event. destruct (w_event ev) as [def|def cfg|tx]; [by intros [= <-]..|].
  unfold try_apply_transaction. destruct (apply_postings _ _ _ _ _ _) as [[a s]|]; [|done]. by intros [= <-].
Qed.

Lemma apply_event_wf st ev p st1 :
  book_wf st -> next_seq st <= w_seq ev -> (forall t0, last_at st = Some t0 -> t0 <= w_at ev) ->
  apply_event st ev p = Ok st1 -> book_wf st1.
Proof.
  intros Hw Hs Ht. unfold apply_event. destruct (w_event ev) as [def|def cfg|tx].
  - intros [= <-]. by apply book_wf_bump.
  - intros [= <-]. by apply book_wf_opened.
  - by apply book_wf_apply.
Qed.

(** Consecutive sequence numbers from [s]. *)
Definition gapless (s : Seq) (evs : list WireEvent) : Prop :=
  forall i ev, evs !! i = Some ev -> w_seq ev = s + Z.of_nat i.

(** Timestamps in order, none before [t]. *)
Fixpoint stamped (t : option DateTime) (evs : list WireEvent) : Prop :=
  match evs with
  | [] => True
  | ev :: evs => (forall t0, t = Some t0 -> t0 <= w_at ev) /\ stamped (Some (w_at ev)) evs
  end.

Lemma gapless_cons s ev evs : gapless s (ev :: evs) <-> w_seq ev = s /\ gapless (s + 1) evs.
Proof.
  split.
  - intros Hg. split; [by rewrite (Hg 0%nat ev eq_refl), Z.add_0_r|].
    intros i e Hi. rewrite (Hg (S i) e Hi). lia.
  - intros [H1 H2] [|i] e Hi; cbn in Hi; [simplify_eq; lia|]. rewrite (H2 i e Hi). lia.
Qed.

Lemma gapless_app s l r : gapless s (l ++ r) <-> gapless s l /\ gapless (s + Z.of_nat (length l)) r.
Proof.
  revert s. induction l as [|ev l IH]; intros s; cbn [app length].
  - rewrite Z.add_0_r. split; [|by intros [_ ?]]. split; [|done]. by intros i e ?.
  - rewrite !gapless_cons, IH. replace (s + Z.of_nat (S (length l))) with (s + 1 + Z.of_nat (length l)) by lia. tauto.
Qed.

Lemma gapless_lt s evs : gapless s evs -> Forall (fun ev => s <= w_seq ev < s + Z.of_nat (length evs)) evs.
Proof.
  intros Hg. apply Forall_forall. intros ev [i Hi]%list_elem_of_lookup. rewrite (Hg i ev Hi).
  apply lookup_lt_Some in Hi. lia.
Qed.

Lemma replay_wf st log st1 :
  book_wf st -> gapless (next_seq st) (map fst log) -> stamped (last_at st) (map fst log) ->
  replay st log = Ok st1 ->
  book_wf st1 /\ next_seq st1 = next_seq st + Z.of_nat (length log).
Proof.
  revert st. induction log as [|[ev p] log IH]; intros st Hw Hg Ht Hr; cbn in *.
  { simplify_eq. split; [done|lia]. }
  apply gapless_cons in Hg as [Hs Hg]. destruct Ht as [Ht Hts].
  destruct (apply_event st ev p) as [st2|] eqn:E; [|done].
  destruct (apply_event_stamp _ _ _ _ E) as [Hn Hl].
  destruct (IH st2) as [Hw1 Hn1]; [eapply apply_event_wf; [done| |done|done]; lia| | |done|].
  - by rewrite Hn, Hs.
  - by rewrite Hl.
  - split; [done|]. lia.
Qed.

(** The idempotency index of a replayed state represents the log's map, as
    long as no key is committed twice. *)
Definition fresh_keys (M : gmap string CommittedRec) (evs : list WireEvent) : Prop :=
  forall l ev r k v, evs = l ++ ev :: r -> event_pair ev = Some (k, v) -> foldl idem_step M l !! k = None.

Lemma stamped_snoc t evs ev :
  stamped t evs -> Forall (fun e => w_at e <= w_at ev) evs -> (forall t0, t = Some t0 -> t0 <= w_at ev) ->
  stamped t (evs ++ [ev]).
Proof.
  revert t. induction evs as [|e evs IH]; intros t Hs Hf Ht; cbn; [done|].
  destruct Hs as [Hs1 Hs2]. inversion Hf; subst. split; [done|]. apply IH; [done..|]. by intros t0 [= <-].
Qed.

Lemma gapless_snoc s evs ev : gapless s evs -> w_seq ev = s + Z.of_nat (length evs) -> gapless s (evs ++ [ev]).
Proof. intros Hg Hs. apply gapless_app. split; [done|]. apply gapless_cons. split; [done|]. by intros i e ?. Qed.

Lemma fresh_keys_snoc M evs ev :
  fresh_keys M evs -> (forall k v, event_pair ev = Some (k, v) -> foldl idem_step M evs !! k = None) ->
  fresh_keys M (evs ++ [ev]).
Proof.
  intros Hf Hn l e r k v Heq He. destruct r as [|e' r _] using rev_ind.
  - apply app_inj_tail in Heq as [<- <-]. eauto.
  - assert (evs = l ++ e :: r) as ->.
    { change (e :: r ++ [e']) with ((e :: r) ++ [e']) in Heq. rewrite app_assoc in Heq.
      by apply app_inj_tail in Heq as [-> _]. }
    eauto.
Qed.

(** Records that are there stay. *)
Lemma idem_step_keep M ev k v :
  (forall k' v', event_pair ev = Some (k', v') -> M !! k' = None) -> M !! k = Some v -> idem_step M ev !! k = Some v.
Proof.
  intros Hf Hk. unfold idem_step. destruct (event_pair ev) as [[k' v']|]; [|done].
  rewrite lookup_insert_ne; [done|]. intros ->. specialize (Hf k v' eq_refl). congruence.
Qed.

Lemma fresh_keys_app_r M l r : fresh_keys M (l ++ r) -> fresh_keys (foldl idem_step M l) r.
Proof.
  intros Hf l0 ev r0 k v -> He. rewrite <- foldl_app. apply (Hf _ ev r0 k v); [|done]. by rewrite <- app_assoc.
Qed.

Lemma fresh_keys_keep M evs k v : fresh_keys M evs -> M !! k = Some v -> foldl idem_step M evs !! k = Some v.
Proof.
  intros Hf Hk. induction evs as [|ev evs IH] using rev_ind; [done|]. rewrite foldl_app. cbn.
  apply idem_step_keep.
  - intros k' v' Hp. by apply (Hf evs ev [] k' v').
  - apply IH. intros l e r k' v' -> He. apply (Hf l e (r ++ [ev]) k' v'); [by rewrite <- app_assoc|done].
Qed.

(** The record of a staged transaction's key is its own. *)
Lemma fresh_keys_own M evs i ev k v :
  fresh_keys M evs -> evs !! i = Some ev -> event_pair ev = Some (k, v) -> foldl idem_step M evs !! k = Some v.
Proof.
  intros Hf Hi Hp. rewrite <- (take_drop_middle _ _ _ Hi), cons_middle, app_assoc, foldl_app.
  apply fresh_keys_keep.
  - intros l e r k' v' Heq He. rewrite <- foldl_app. apply (Hf _ e r k' v'); [|done].
    rewrite <- app_assoc, <- Heq, <- app_assoc, <- cons_middle. by rewrite take_drop_middle.
  - rewrite foldl_app. cbn. unfold idem_step. rewrite Hp. apply lookup_insert_eq.
Qed.

Section replay_idem.
Context `{KeyHashes} `{Crc32} `{!Crc32Laws} `{Json (list Pair)} `{!JsonLaws (list Pair)}.

Lemma replay_repr d st log st1 M :
  idem_repr d (idem st) M -> fresh_keys M (map fst log) -> replay st log = Ok st1 ->
  idem_repr d (idem st1) (foldl idem_step M (map fst log)).
Proof.
  revert st M. induction log as [|[ev p] log IH]; intros st M Hrep Hf Hr; cbn in *; [by simplify_eq|].
  destruct (apply_event st ev p) as [st2|] eqn:E; [|done].
  apply (IH st2); [| |done].
  - rewrite (apply_event_idem _ _ _ _ E). unfold idem_step.
    destruct (event_pair ev) as [[k v]|] eqn:Ep; [|done]. apply insert_repr; [done|]. left.
    by apply (Hf [] ev (map fst log) k v).
  - intros l e r k v Heq Hk. apply (Hf (ev :: l) e r k v); [by rewrite Heq|done].
Qed.
End replay_idem.

Lemma idem_map_app evs evs' : idem_map (evs ++ evs') = foldl idem_step (idem_map evs) evs'.
Proof. unfold idem_map. apply foldl_app. Qed.

(** ** What a batch accepts can be applied *)

Section reached.
Context `{HashIterLaws}.

(** [reached st evs sc]: from the state [st], the events [evs] were accepted
    one after the other, and the overlay is [sc]. *)
Inductive reached (st : BookState) : list WireEvent -> Scratch -> Prop :=
| reached_nil : reached st [] Scratch_default
| reached_skip evs sc sc' :
    reached st evs sc -> (forall k, current (accounts st) sc' k = current (accounts st) sc k) ->
    reached st evs sc'
| reached_tx evs sc sc2 sc3 ev tx :
    reached st evs sc -> (validate st tx sc).2 = Ok () -> stage (validate st tx sc).1 tx = Ok sc2 ->
    raw sc3 = raw sc2 -> w_event ev = TransactionPosted tx -> reached st (evs ++ [ev]) sc3
| reached_open evs sc ev def cfg :
    reached st evs sc -> accounts st !! to_key (acct_id def) = None -> w_event ev = AccountOpened def cfg ->
    reached st (evs ++ [ev]) sc
| reached_asset evs sc ev def :
    reached st evs sc -> w_event ev = AssetRegistered def -> reached st (evs ++ [ev]) sc.

Lemma overlay_ok_current st stn sc sc' :
  (forall k, current (accounts st) sc' k = current (accounts st) sc k) -> overlay_ok st stn sc -> overlay_ok st stn sc'.
Proof. intros He Ho k a Hk. destruct (Ho k a Hk) as (a' & ? & ? & ? & ?). exists a'. by rewrite He. Qed.

Lemma reached_apply st evs sc ps :
  reached st evs sc -> length ps = length evs ->
  exists st', replay st (zip evs ps) = Ok st' /\ overlay_ok st st' sc.
Proof.
  intros Hr. revert ps. induction Hr as [|evs sc sc' Hr IH He|evs sc sc2 sc3 ev tx Hr IH Hv Hst Hraw Hev
    |evs sc ev def cfg Hr IH Hno Hev|evs sc ev def Hr IH Hev]; intros ps Hlen.
  - destruct ps; [|done]. exists st. split; [done|]. by apply overlay_ok_start.
  - destruct (IH ps Hlen) as (st' & ? & ?). exists st'. split; [done|]. by eapply overlay_ok_current.
  - destruct ps as [|p ps] using rev_ind; [rewrite length_app in Hlen; cbn in Hlen; lia|]. clear IHps.
    rewrite !length_app in Hlen. cbn in Hlen. destruct (IH ps) as (stn & Hstn & Ho); [lia|].
    rewrite zip_with_app by lia. rewrite replay_app, Hstn. cbn. unfold apply_event. rewrite Hev.
    pose proof (validate_Ok_scratch _ _ _ Hv) as Hsc. apply validate_Ok in Hv. rewrite Hsc in Hst.
    destruct (overlay_fits _ _ _ _ Ho Hv) as [Hs Hf].
    destruct (try_apply_Ok stn tx (w_seq ev) (w_at ev) p Hs Hf) as (accts' & Happ & _). rewrite Happ.
    eexists. split; [done|]. eapply overlay_ok_current; [|by eapply overlay_step].
    intros k. unfold current. by rewrite Hraw.
  - destruct ps as [|p ps] using rev_ind; [rewrite length_app in Hlen; cbn in Hlen; lia|]. clear IHps.
    rewrite !length_app in Hlen. cbn in Hlen. destruct (IH ps) as (stn & Hstn & Ho); [lia|].
    rewrite zip_with_app by lia. rewrite replay_app, Hstn. cbn. unfold apply_event. rewrite Hev.
    eexists. split; [done|]. intros k a Hk. destruct (Ho k a Hk) as (a' & Ha' & Hrest). exists a'. split; [|done].
    cbn. destruct (accounts stn !! to_key (acct_id def)); [done|].
    rewrite lookup_insert_ne; [done|]. intros <-. congruence.
  - destruct ps as [|p ps] using rev_ind; [rewrite length_app in Hlen; cbn in Hlen; lia|]. clear IHps.
    rewrite !length_app in Hlen. cbn in Hlen. destruct (IH ps) as (stn & Hstn & Ho); [lia|].
    rewrite zip_with_app by lia. rewrite replay_app, Hstn. cbn. unfold apply_event. rewrite Hev.
    eexists. split; [done|]. exact Ho.
Qed.
End reached.
