(* ===== verification/Segment.v ===== *)
(** The log of one book, talea-store-log/src/segment.rs: frames appended to a
    sequence of segment files named by the sequence number of their first
    frame.

    A [SegmentSet] has the fields of the code except the directory (the world)
    and the open handle, which is kept as the name of the active file.  The
    shared catalog, a [BTreeMap] from base to path, is its list of entries in
    ascending order.  The whole-file reads of [read_at] are one call. *)

From stdpp Require Import sorting.
From S2P Require Import Prelude Decimal Core Disk Frame.
Open Scope Z_scope.

(** [BTreeMap<Seq, PathBuf>] *)
Abbreviation Catalog := (list (Z * string)) (only parsing).

Fixpoint btree_insert (k : Z) (v : string) (c : Catalog) : Catalog :=
  match c with
  | [] => [(k, v)]
  | (k', v') :: c' =>
      if k <? k' then (k, v) :: c
      else if k =? k' then (k, v) :: c'
      else (k', v') :: btree_insert k v c'
  end.

Fixpoint btree_get (k : Z) (c : Catalog) : option string :=
  match c with
  | [] => None
  | (k', v) :: c => if k' =? k then Some v else btree_get k c
  end.

(** [range(start..)] and [range(..=from).next_back()] *)
Definition range_from (start : Z) (c : Catalog) : Catalog := filter (fun e => start <= e.1) c.
Definition last_upto (from : Z) (c : Catalog) : option Z := fst <$> last (filter (fun e => e.1 <= from) c).

Definition segment_name (base : Seq) : string :=
  "segment-" +:+ i64_zero_padded 20 base +:+ ".log".

Definition parse_base (name : string) : option Seq :=
  match strip_prefix "segment-" name with
  | None => None
  | Some s => match strip_suffix ".log" s with
              | None => None
              | Some s => parse_i64 s
              end
  end.

Inductive Validation := Clean | Truncate (len : nat) | CorruptAt (offset : nat).

Record SegmentSet := mkSegmentSet {
  catalog : Catalog;
  active : string;
  active_len : nat;
  segment_max : Z
}.

Definition DEFAULT_SEGMENT_MAX : Z := 128 * 1024 * 1024.

(** How a segment's scan ended: at its end or the limit, at an undecodable
    frame of the active segment, or at one of a sealed segment. *)
Inductive ScanEnd := NextSegment | StopAll | ScanFail (offset : nat).

Section segment.
Context `{Crc32} `{Json WireEvent}.

(** ** Reading *)

Section scan.
Context {R : Type} (mk : Seq -> nat -> WireEvent -> R).

(** The frame loop of one segment; the fuel is above the number of bytes,
    and a frame takes at least one. *)
Fixpoint scan_segment (fuel : nat) (seg_base from : Seq) (limit : Z) (is_last : bool)
    (bytes : list byte) (pos : nat) (results : list R) : ScanEnd * list R :=
  match fuel with
  | O => (NextSegment, results)
  | S fuel =>
      if limit <=? Z.of_nat (length results) then (NextSegment, results)
      else
        match decode_frame (drop pos bytes) with
        | Ok None => (NextSegment, results)
        | Ok (Some (ev, consumed)) =>
            scan_segment fuel seg_base from limit is_last bytes (pos + consumed)
              (if from <=? w_seq ev then results ++ [mk seg_base pos ev] else results)
        | Err _ => if is_last then (StopAll, results) else (ScanFail pos, results)
        end
  end.

Fixpoint scan_segments (segs : Catalog) (last_base from : Seq) (limit : Z) (results : list R) : io (list R) :=
  match segs with
  | [] => io_ret results
  | (seg_base, path) :: segs =>
      if limit <=? Z.of_nat (length results) then io_ret results
      else
        let! bytes := fs_read path in
        match scan_segment (S (length bytes)) seg_base from limit (seg_base =? last_base) bytes 0 results with
        | (NextSegment, results) => scan_segments segs last_base from limit results
        | (StopAll, results) => io_ret results
        | (ScanFail pos, _) => io_err "decode error in sealed segment"
        end
  end.

Definition scan_catalog (snapshot : Catalog) (from : Seq) (limit : Z) : io (list R) :=
  if limit =? 0 then io_ret []
  else
    match snapshot, last snapshot with
    | (first_base, _) :: _, Some (last_base, _) =>
        let start_base := default first_base (last_upto from snapshot) in
        scan_segments (range_from start_base snapshot) last_base from limit []
    | _, _ => io_ret []
    end.
End scan.

Definition scan_from (c : Catalog) (from : Seq) (limit : Z) : io (list WireEvent) :=
  scan_catalog (fun _ _ ev => ev) c from limit.

Definition scan_with_pos (c : Catalog) (from : Seq) (limit : Z) : io (list (WireEvent * (Seq * nat))) :=
  scan_catalog (fun seg_base pos ev => (ev, (seg_base, pos))) c from limit.

(** [read_exact]: all the bytes or an error. *)
Definition read_exact (offset n : nat) (bytes : list byte) : io (list byte) :=
  if (offset + n <=? length bytes)%nat then io_ret (take n (drop offset bytes))
  else io_err "failed to fill whole buffer".

Definition read_at (c : Catalog) (segment_base : Seq) (offset : nat) (expected_seq : Seq) : io WireEvent :=
  match btree_get segment_base c with
  | None => io_err "unknown segment base"
  | Some path =>
      let! bytes := fs_read path in
      let! len_bytes := read_exact offset 4 bytes in
      let! crc_bytes := read_exact (offset + 4) 4 bytes in
      let payload_len := Z.to_nat (from_le_bytes len_bytes) in
      let frame_end := (offset + (HEADER_LEN + payload_len))%nat in
      if u64_max <? Z.of_nat frame_end then io_err "frame length arithmetic overflow"
      else if (length bytes <? frame_end)%nat then io_err "frame header claims bytes past end of segment"
      else
        let! payload := read_exact (offset + HEADER_LEN) payload_len bytes in
        match decode_frame (len_bytes ++ crc_bytes ++ payload) with
        | Ok (Some (ev, _)) =>
            if w_seq ev =? expected_seq then io_ret ev else io_err "stale or wrong position"
        | Ok None => io_err "empty frame at read_at"
        | Err _ => io_err "decode error"
        end
  end.

(** ** Opening *)

Fixpoint validate_frames (fuel : nat) (is_final : bool) (bytes : list byte) (pos last_good : nat) : Validation :=
  match fuel with
  | O => Clean
  | S fuel =>
      match decode_frame (drop pos bytes) with
      | Ok None => Clean
      | Ok (Some (_, consumed)) => validate_frames fuel is_final bytes (pos + consumed) (pos + consumed)
      | Err _ => if is_final then Truncate last_good else CorruptAt pos
      end
  end.

Definition validate_segment (path : string) (is_final : bool) : io Validation :=
  let! r := io_try (fs_read path) in
  match r with
  | Ok bytes => io_ret (validate_frames (S (length bytes)) is_final bytes 0 0)
  | Err e => if String.eqb e "no such file" then io_ret Clean else io_err e
  end.

Fixpoint validate_all (segs : Catalog) (final_base : Seq) : io unit :=
  match segs with
  | [] => io_ret ()
  | (base, path) :: segs =>
      let! v := validate_segment path (base =? final_base) in
      let! _ :=
        match v with
        | Clean => io_ret ()
        | Truncate good_len =>
            let! _ := fs_len path in
            let! _ := fs_set_len path good_len in
            fs_sync path
        | CorruptAt _ => io_err "corrupt frame in sealed segment"
        end in
      validate_all segs final_base
  end.

Definition enumerate_segments (names : list string) : Catalog :=
  let segments :=
    foldl (fun c name => match parse_base name with
                         | Some base => btree_insert base name c
                         | None => c
                         end) [] names in
  match segments with
  | [] => btree_insert 1 (segment_name 1) []
  | _ => segments
  end.

Definition open_with_max (segment_max : Z) : io SegmentSet :=
  let! names := fs_read_dir in
  let segments := enumerate_segments names in
  match last segments with
  | None => io_err "segment map empty after seeding"
  | Some (final_base, active_path) =>
      let! _ := validate_all segments final_base in
      let! _ := fs_open_append active_path in
      let! active_len := fs_len active_path in
      let! _ := fs_sync_dir in
      io_ret (mkSegmentSet segments active_path active_len segment_max)
  end.

(** ** Writing *)

Definition append (s : SegmentSet) (frame : list byte) : io SegmentSet :=
  let! _ := fs_append (active s) frame in
  io_ret (mkSegmentSet (catalog s) (active s) (active_len s + length frame) (segment_max s)).

Definition sync (s : SegmentSet) : io unit := fs_sync (active s).

Definition maybe_rotate (s : SegmentSet) (next_seq : Seq) : io SegmentSet :=
  if segment_max s <=? Z.of_nat (active_len s) then
    let! _ := fs_sync (active s) in
    let new_path := segment_name next_seq in
    let! _ := fs_open_append new_path in
    let! _ := fs_sync_dir in
    io_ret (mkSegmentSet (btree_insert next_seq new_path (catalog s)) new_path 0 (segment_max s))
  else io_ret s.

Definition next_pos (s : SegmentSet) : Seq * nat :=
  (match last (catalog s) with Some (b, _) => b | None => 1 end, active_len s).
End segment.

(** ** What a log holds *)

Section log.
Context `{Crc32} `{!Crc32Laws} `{Json WireEvent} `{!JsonLaws WireEvent}.

(** Bytes at which a scan of the active segment stops. *)
Definition tail_ok (tail : list byte) : Prop := tail = [] \/ exists e, decode_frame tail = Err e.

(** The files of a catalog hold the chunks; the last file may end in bytes
    that are no frame. *)
Inductive log_files (d : gmap string FileData) : Catalog -> list (list WireEvent) -> list byte -> Prop :=
| lf_last base path evs bs tail :
    bytes_at d path = Some (bs ++ tail) -> encoded evs bs -> tail_ok tail ->
    log_files d [(base, path)] [evs] tail
| lf_cons base path evs bs seg c chunks tail :
    bytes_at d path = Some bs -> encoded evs bs -> log_files d (seg :: c) chunks tail ->
    log_files d ((base, path) :: seg :: c) (evs :: chunks) tail.

(** Ascending bases, each below the frames of its segment and above those of
    the segments before it. *)
Fixpoint bases_ok (c : Catalog) (chunks : list (list WireEvent)) : Prop :=
  match c, chunks with
  | [(b, _)], [evs] => Forall (fun ev => b <= w_seq ev) evs
  | (b, _) :: ((b', _) :: _) as c', evs :: chunks' =>
      b < b' /\ Forall (fun ev => b <= w_seq ev < b') evs /\ bases_ok (List.tl c) chunks'
  | _, _ => False
  end.

Definition frame_len (ev : WireEvent) : nat :=
  match encode_frame ev with Ok b => length b | Err _ => 0 end.

Section select.
Context {R : Type} (mk : Seq -> nat -> WireEvent -> R) (from : Seq).

Fixpoint select (base : Seq) (pos : nat) (evs : list WireEvent) : list R :=
  match evs with
  | [] => []
  | ev :: evs =>
      (if from <=? w_seq ev then [mk base pos ev] else []) ++ select base (pos + frame_len ev) evs
  end.

Fixpoint select_all (c : Catalog) (chunks : list (list WireEvent)) : list R :=
  match c, chunks with
  | (base, _) :: c, evs :: chunks => select base 0 evs ++ select_all c chunks
  | _, _ => []
  end.

Lemma select_below base pos evs : Forall (fun ev => w_seq ev < from) evs -> select base pos evs = [].
Proof.
  intros Hf. revert pos. induction Hf as [|ev evs Hev _ IH]; intros pos; cbn; [done|].
  assert (from <=? w_seq ev = false) as -> by lia. apply IH.
Qed.

Lemma take_full (L : nat) (l r : list R) : length l = L -> take L (l ++ r) = l.
Proof. intros <-. apply take_app_length. Qed.

Lemma scan_segment_spec fuel base limit is_last bytes pos results evs bs tail :
  encoded evs bs -> drop pos bytes = bs ++ tail -> (length bs < fuel)%nat ->
  0 <= limit -> Z.of_nat (length results) <= limit ->
  tail = [] \/ (is_last = true /\ tail_ok tail) ->
  exists st, (st = NextSegment \/ (is_last = true /\ st = StopAll)) /\
    scan_segment mk fuel base from limit is_last bytes pos results =
    (st, take (Z.to_nat limit) (results ++ select base pos evs)).
Proof.
  intros He. revert fuel pos results. induction He as [|ev evs b bs Hb He IH];
    intros fuel pos results Hd Hfuel Hlim Hlen Htail.
  - destruct fuel as [|fuel]; [cbn in Hfuel; lia|]. cbn [scan_segment select].
    rewrite app_nil_r, take_ge by lia.
    destruct (limit <=? _) eqn:El; [by exists NextSegment; split; [left|]|].
    rewrite Hd. cbn [app]. destruct Htail as [->|[-> [->|[e He]]]].
    + exists NextSegment. split; [by left|]. done.
    + exists NextSegment. split; [by left|]. done.
    + rewrite He. exists StopAll. split; [by right|]. done.
  - destruct fuel as [|fuel]; [lia|]. cbn [scan_segment select].
    destruct (limit <=? _) eqn:El; bool_to_prop.
    { exists NextSegment. split; [by left|]. by rewrite take_full by lia. }
    rewrite Hd, <- app_assoc, (decode_encode_frame ev b) by done.
    assert (frame_len ev = length b) as Hfl by (unfold frame_len; by rewrite Hb).
    pose proof (encode_frame_length _ _ Hb) as Hbl. unfold HEADER_LEN in Hbl.
    destruct (IH fuel (pos + length b)%nat (if from <=? w_seq ev then results ++ [mk base pos ev] else results))
      as (st & Hst & Heq).
    + rewrite <- drop_drop, Hd, <- app_assoc. by rewrite drop_app_length.
    + rewrite length_app in Hfuel. lia.
    + done.
    + case_match; [rewrite length_app; cbn|]; lia.
    + done.
    + exists st. split; [done|]. rewrite Heq, Hfl. f_equal. f_equal.
      case_match; [by rewrite <- app_assoc|done].
Qed.

Lemma scan_segments_cons base path segs last_base limit results :
  scan_segments mk ((base, path) :: segs) last_base from limit results =
  if limit <=? Z.of_nat (length results) then io_ret results
  else
    let! bytes := fs_read path in
    match scan_segment mk (S (length bytes)) base from limit (base =? last_base) bytes 0 results with
    | (NextSegment, results) => scan_segments mk segs last_base from limit results
    | (StopAll, results) => io_ret results
    | (ScanFail pos, _) => io_err "decode error in sealed segment"
    end.
Proof. done. Qed.

Lemma scan_segments_spec w c chunks tail last_base limit results :
  faults w = [] -> log_files (dir w) c chunks tail -> bases_ok c chunks ->
  fst <$> last c = Some last_base -> 0 <= limit -> Z.of_nat (length results) <= limit ->
  scan_segments mk c last_base from limit results w =
  (Ok (take (Z.to_nat limit) (results ++ select_all c chunks)), w).
Proof.
  intros Hf Hl. revert results. induction Hl as [base path evs bs tail Hb He Ht|base path evs bs seg c chunks tail Hb He Hl IH];
    intros results Hok Hlast Hlim Hlen; rewrite scan_segments_cons; cbn [select_all].
  - cbn in Hlast. injection Hlast as <-. rewrite app_nil_r.
    destruct (limit <=? _) eqn:El; bool_to_prop; [by rewrite take_full by lia|].
    unfold io_bind at 1. rewrite (fs_read_no_faults _ _ _ Hf Hb).
    destruct (scan_segment_spec (S (length (bs ++ tail))) base limit (base =? base) (bs ++ tail) 0 results evs bs tail)
      as (st & Hst & ->); [done..| |done|done| |].
    { rewrite length_app. lia. }
    { right. split; [apply Z.eqb_refl|done]. }
    destruct Hst as [->|[_ ->]]; [|done]. done.
  - destruct (limit <=? _) eqn:El; bool_to_prop; [by rewrite take_full by lia|].
    unfold io_bind at 1. rewrite (fs_read_no_faults _ _ _ Hf Hb).
    assert (base =? last_base = false) as Hne.
    { apply Z.eqb_neq. enough (base < last_base) by lia. destruct seg as [b' p'].
      destruct Hok as (Hlt & _ & Hok). cbn [List.tl] in Hok. clear -Hlt Hok Hlast.
      revert b' p' chunks Hlt Hok Hlast. induction c as [|[b2 p2] c IH]; intros b' p' chunks Hlt Hok Hlast.
      - cbn in Hlast. by injection Hlast as <-.
      - destruct chunks as [|evs chunks]; [done|]. destruct Hok as (Hlt' & _ & Hok).
        eapply (IH b2 p2); [lia|exact Hok|]. exact Hlast. }
    rewrite Hne.
    destruct (scan_segment_spec (S (length bs)) base limit false bs 0 results evs bs [])
      as (st & Hst & ->); [done|by rewrite app_nil_r|lia|done|done|by left|].
    destruct Hst as [->|[? _]]; [|done]. destruct seg as [b' p'].
    rewrite IH; [|by destruct Hok as (_ & _ & Hok)|done|done|].
    + rewrite app_assoc. f_equal. f_equal. set (x := results ++ select base 0 evs).
      destruct (decide (length x <= Z.to_nat limit)%nat) as [Hx|Hx]; [by rewrite (take_ge x)|].
      rewrite (take_app_le x) by lia. apply take_full. rewrite length_take. lia.
    + rewrite length_take. lia.
Qed.
End select.

Lemma bases_ok_tl b p b' p' c evs chunks :
  bases_ok ((b, p) :: (b', p') :: c) (evs :: chunks) ->
  b < b' /\ Forall (fun ev => b <= w_seq ev < b') evs /\ bases_ok ((b', p') :: c) chunks.
Proof. done. Qed.

Lemma bases_ok_ge b p c chunks :
  bases_ok ((b, p) :: c) chunks -> Forall (fun e => b <= e.1) ((b, p) :: c).
Proof.
  revert b p chunks. induction c as [|[b' p'] c IH]; intros b p chunks Hok; [by repeat constructor|].
  destruct chunks as [|evs chunks]; [done|].
  apply bases_ok_tl in Hok as (Hlt & _ & Hok). constructor; [cbn; lia|].
  eapply Forall_impl; [by eapply IH|]. cbn. lia.
Qed.

(** The segments before the start base hold nothing at or above [from]. *)
Lemma scan_start from b0 p0 c chunks :
  bases_ok ((b0, p0) :: c) chunks ->
  exists n, range_from (default b0 (last_upto from ((b0, p0) :: c))) ((b0, p0) :: c) = drop n ((b0, p0) :: c) /\
    (n <= length c)%nat /\ Forall (fun ev => w_seq ev < from) (concat (take n chunks)).
Proof.
  revert b0 p0 chunks. induction c as [|[b' p'] c IH]; intros b p chunks Hok.
  - exists 0%nat. split_and!; [|done|done]. unfold last_upto, range_from.
    destruct (decide (b <= from)).
    + rewrite (filter_cons_True (fun e => e.1 <= from)) by done. rewrite filter_nil.
      change (default b (fst <$> last [(b, p)])) with b. by rewrite filter_cons_True by (cbn; lia).
    + rewrite (filter_cons_False (fun e => e.1 <= from)) by done. rewrite filter_nil.
      change (default b (fst <$> last (A:=Z * string) [])) with b. by rewrite filter_cons_True by (cbn; lia).
  - destruct chunks as [|evs chunks]; [done|]. pose proof (bases_ok_ge _ _ _ _ Hok) as Hge.
    apply bases_ok_tl in Hok as (Hlt & Hevs & Hok). destruct (decide (b' <= from)) as [Hle|Hgt].
    + destruct (IH b' p' chunks Hok) as (n & Hn & Hnl & Hf). exists (S n). split_and!; [|cbn; lia|].
      * cbn [drop]. rewrite <- Hn.
        assert (last_upto from ((b, p) :: (b', p') :: c) = last_upto from ((b', p') :: c)) as ->.
        { unfold last_upto. rewrite filter_cons_True by (cbn; lia). rewrite filter_cons_True by done.
          by destruct (filter _ c). }
        assert (exists x, last_upto from ((b', p') :: c) = Some x /\ b < x) as (x & -> & Hx).
        { unfold last_upto. destruct (last (filter _ ((b', p') :: c))) as [y|] eqn:E.
          - exists y.1. split; [done|]. apply last_Some in E as [l E].
            assert (y ∈ filter (fun e : Z * string => e.1 <= from) ((b', p') :: c)) as Hin
              by (rewrite E; apply elem_of_app; right; by left).
            apply list_elem_of_filter in Hin as [_ Hin].
            pose proof (bases_ok_ge _ _ _ _ Hok) as Hge'. rewrite Forall_forall in Hge'.
            specialize (Hge' y Hin). lia.
          - apply last_None in E. rewrite filter_cons_True in E by done. done. }
        cbn [default]. unfold range_from. by rewrite filter_cons_False by (cbn; lia).
      * cbn. apply Forall_app. split; [|done]. eapply Forall_impl; [exact Hevs|]. cbn. lia.
    + exists 0%nat. split_and!; [|lia|done]. cbn [drop].
      assert (default b (last_upto from ((b, p) :: (b', p') :: c)) = b) as ->.
      { unfold last_upto. assert (filter (fun e : Z * string => e.1 <= from) ((b', p') :: c) = []) as Hnil.
        { apply filter_none. pose proof (bases_ok_ge _ _ _ _ Hok) as Hge'.
          eapply Forall_impl; [exact Hge'|]. cbn. lia. }
        destruct (decide (b <= from)).
        - rewrite filter_cons_True by done. by rewrite Hnil.
        - rewrite filter_cons_False by done. by rewrite Hnil. }
      apply filter_all. exact Hge.
Qed.

Lemma log_files_drop d c chunks tail n :
  log_files d c chunks tail -> (n < length c)%nat -> log_files d (drop n c) (drop n chunks) tail.
Proof.
  intros Hl. revert n. induction Hl as [|base path evs bs seg c chunks tail Hb He Hl IH]; intros [|n] Hn; cbn in *; try lia.
  - by econstructor.
  - by econstructor.
  - apply IH. lia.
Qed.

Lemma bases_ok_drop c chunks n : bases_ok c chunks -> (n < length c)%nat -> bases_ok (drop n c) (drop n chunks).
Proof.
  revert c chunks. induction n as [|n IH]; intros c chunks Hok Hn; [done|].
  destruct c as [|[b p] [|[b' p'] c]]; cbn in Hn; try lia. destruct chunks as [|evs chunks]; [done|].
  apply bases_ok_tl in Hok as (_ & _ & Hok). cbn [drop]. apply IH; [done|cbn; lia].
Qed.

Section catalog_scan.
Context {R : Type} (mk : Seq -> nat -> WireEvent -> R).

Lemma select_all_drop from c chunks n :
  Forall (fun ev => w_seq ev < from) (concat (take n chunks)) -> (n <= length c)%nat -> length c = length chunks ->
  select_all mk from (drop n c) (drop n chunks) = select_all mk from c chunks.
Proof.
  revert c chunks. induction n as [|n IH]; intros c chunks Hf Hn Hlen; [done|].
  destruct c as [|[b p] c], chunks as [|evs chunks]; cbn in *; try lia.
  apply Forall_app in Hf as [Hf1 Hf]. rewrite select_below by done. cbn. apply IH; [done|lia..].
Qed.

Lemma log_files_length d c chunks tail : log_files d c chunks tail -> length c = length chunks.
Proof. induction 1; cbn in *; lia. Qed.

Lemma scan_catalog_spec w c chunks tail from limit :
  faults w = [] -> log_files (dir w) c chunks tail -> bases_ok c chunks -> 0 <= limit ->
  scan_catalog mk c from limit w = (Ok (take (Z.to_nat limit) (select_all mk from c chunks)), w).
Proof.
  intros Hf Hl Hok Hlim. unfold scan_catalog. destruct (limit =? 0) eqn:E0; bool_to_prop; [by subst|].
  destruct c as [|[b0 p0] c]; [by inversion Hl|].
  destruct (last ((b0, p0) :: c)) as [[lb lp]|] eqn:El; [|by apply last_None in El].
  destruct (scan_start from b0 p0 c chunks Hok) as (n & -> & Hn & Hbelow). cbn [fst].
  assert (n < length ((b0, p0) :: c))%nat as Hn' by (cbn; lia).
  rewrite (scan_segments_spec mk from w (drop n ((b0, p0) :: c)) (drop n chunks) tail lb limit []); try done.
  - cbn [app]. rewrite select_all_drop; [done..|lia|]. by eapply log_files_length.
  - by apply log_files_drop.
  - by apply bases_ok_drop.
  - rewrite last_lookup, lookup_drop, length_drop.
    replace (n + pred (length ((b0, p0) :: c) - n))%nat with (pred (length ((b0, p0) :: c))) by lia.
    by rewrite <- last_lookup, El.
Qed.
End catalog_scan.

Lemma select_filter from base pos evs :
  select (fun _ _ ev => ev) from base pos evs = filter (fun ev => from <= w_seq ev) evs.
Proof.
  revert pos. induction evs as [|ev evs IH]; intros pos; cbn [select]; [done|]. rewrite IH.
  destruct (from <=? w_seq ev) eqn:E; bool_to_prop.
  - by rewrite filter_cons_True.
  - by rewrite filter_cons_False by lia.
Qed.

Lemma select_all_filter from c chunks :
  length c = length chunks ->
  select_all (fun _ _ ev => ev) from c chunks = filter (fun ev => from <= w_seq ev) (concat chunks).
Proof.
  revert chunks. induction c as [|[b p] c IH]; intros [|evs chunks] Hlen; cbn in *; try done.
  rewrite select_filter, IH by lia. by rewrite filter_app.
Qed.

(** *** Point reads *)

Lemma read_at_spec w c base path pre ev b rest :
  faults w = [] -> btree_get base c = Some path -> bytes_at (dir w) path = Some (pre ++ b ++ rest) ->
  encode_frame ev = Ok b -> Z.of_nat (length (pre ++ b)) <= u64_max ->
  read_at c base (length pre) (w_seq ev) w = (Ok ev, w).
Proof.
  intros Hf Hg Hb He Hmax. unfold read_at. rewrite Hg. unfold io_bind at 1.
  rewrite (fs_read_no_faults _ _ _ Hf Hb).
  pose proof (decode_encode_frame ev b [] He) as Hdec. rewrite app_nil_r in Hdec.
  destruct (encode_frame_shape _ _ He) as (payload & _ & Hlen & Hshape).
  set (l := to_le_bytes (Z.of_nat (length payload))) in *. set (cb := to_le_bytes (crc32_hash payload)) in *.
  assert (length l = 4%nat) as Hl by done. assert (length cb = 4%nat) as Hcb by done.
  assert (length b = (8 + length payload)%nat) as Hbl by (rewrite Hshape, !length_app, Hl, Hcb; lia).
  assert (forall o n, (o + n <= length b)%nat ->
    read_exact (length pre + o) n (pre ++ b ++ rest) = io_ret (take n (drop o b))) as Hre.
  { intros o n Hon. unfold read_exact. rewrite !length_app.
    assert (length pre + o + n <=? length pre + (length b + length rest) = true)%nat as -> by (apply Nat.leb_le; lia).
    f_equal. rewrite drop_app_add, drop_app_le by lia. rewrite take_app_le by (rewrite length_drop; lia). done. }
  pose proof (Hre 0%nat 4%nat ltac:(lia)) as H0'. rewrite Nat.add_0_r in H0'. unfold io_bind at 1. rewrite H0'.
  unfold io_ret at 1. unfold io_bind at 1. rewrite (Hre 4%nat 4%nat) by lia. unfold io_ret at 1.
  rewrite drop_0. assert (take 4 b = l) as -> by (rewrite Hshape; by rewrite take_app_length').
  assert (take 4 (drop 4 b) = cb) as -> by (rewrite Hshape, drop_app_length' by done; by rewrite take_app_length').
  cbn zeta. unfold l at 1 2 3. rewrite from_to_le_bytes by lia. rewrite Nat2Z.id. fold l.
  rewrite length_app in Hmax. assert (u64_max <? Z.of_nat (length pre + (HEADER_LEN + length payload)) = false) as ->
    by (apply Z.ltb_ge; unfold HEADER_LEN; lia).
  rewrite !length_app. assert (length pre + (length b + length rest) <? length pre + (HEADER_LEN + length payload) = false)%nat as ->
    by (apply Nat.ltb_ge; unfold HEADER_LEN; lia).
  unfold io_bind. rewrite (Hre HEADER_LEN (length payload)) by (unfold HEADER_LEN; lia). unfold io_ret at 1.
  assert (take (length payload) (drop HEADER_LEN b) = payload) as ->.
  { rewrite Hshape, app_assoc, drop_app_length' by (rewrite length_app, Hl, Hcb; done). by rewrite take_ge. }
  rewrite <- Hshape, Hdec. by rewrite Z.eqb_refl.
Qed.
End log.

(** ** Opening after a crash *)

Section recovery.
Context `{Crc32} `{!Crc32Laws} `{Json WireEvent} `{!JsonLaws WireEvent}.

Lemma validate_sealed_spec fuel bytes pos last_good evs bs :
  encoded evs bs -> drop pos bytes = bs -> (length bs < fuel)%nat ->
  validate_frames fuel false bytes pos last_good = Clean.
Proof.
  intros He. revert fuel pos last_good. induction He as [|ev evs b bs Hb He IH]; intros fuel pos last_good Hd Hfuel.
  - destruct fuel; cbn [validate_frames]; [done|]. by rewrite Hd.
  - destruct fuel as [|fuel]; [lia|]. cbn [validate_frames]. rewrite Hd, (decode_encode_frame ev b) by done.
    pose proof (encode_frame_length _ _ Hb) as Hbl. unfold HEADER_LEN in Hbl. apply IH.
    + rewrite <- drop_drop, Hd. by rewrite drop_app_length.
    + rewrite length_app in Hfuel. lia.
Qed.

(** What the validation of the final segment finds in the first [k] bytes of
    the encoding of [evs]: the whole frames among them. *)
Lemma validate_final_spec fuel bytes pos k evs bs :
  encoded evs bs -> drop pos bytes = take k bs -> (length (take k bs) < fuel)%nat ->
  exists m bs' junk, take k bs = bs' ++ junk /\ encoded (take m evs) bs' /\ (m <= length evs)%nat /\
    ((validate_frames fuel true bytes pos pos = Clean /\ junk = []) \/
     validate_frames fuel true bytes pos pos = Truncate (pos + length bs')) /\
    (forall j bsj, (j <= length evs)%nat -> encoded (take j evs) bsj -> (length bsj <= k)%nat -> (j <= m)%nat).
Proof.
  intros He. revert fuel pos k. induction He as [|ev evs b bs Hb He IH]; intros fuel pos k Hd Hfuel.
  - exists 0%nat, [], []. rewrite take_nil in *. split_and!; try done; [apply encoded_nil|].
    left. split; [|done]. destruct fuel; cbn [validate_frames]; [done|]. by rewrite Hd.
  - destruct fuel as [|fuel]; [lia|]. cbn [validate_frames].
    pose proof (encode_frame_length _ _ Hb) as Hbl. unfold HEADER_LEN in Hbl.
    destruct (decide (k < length b)%nat) as [Hk|Hk].
    + exists 0%nat, [], (take k b). rewrite take_app_le in Hd |- * by lia. split_and!; [done|apply encoded_nil|lia| |].
      * rewrite Hd. destruct (decide (k = 0)%nat) as [->|Hk0]; [by left|]. right.
        rewrite (decode_prefix_torn ev b k Hb) by lia. cbn. by rewrite Nat.add_0_r.
      * intros [|j] bsj _ Hj Hlen; [lia|]. cbn in Hj. inversion Hj as [|? ? b' bs0 Hb' _]; subst.
        assert (b' = b) as -> by congruence. rewrite length_app in Hlen. lia.
    + assert (take k (b ++ bs) = b ++ take (k - length b) bs) as Htk by (rewrite take_app_ge by lia; done).
      rewrite Htk in Hd, Hfuel |- *. rewrite Hd, (decode_encode_frame ev b) by done.
      destruct (IH fuel (pos + length b)%nat (k - length b)%nat) as (m & bs' & junk & Hs & Hm & Hmle & Hval & Hmax).
      { rewrite <- drop_drop, Hd. by rewrite drop_app_length. }
      { rewrite length_app in Hfuel. lia. }
      exists (S m), (b ++ bs'), junk. split_and!; [by rewrite Hs, app_assoc|by apply encoded_cons|cbn; lia| |].
      * rewrite length_app, Nat.add_assoc. done.
      * intros [|j] bsj Hjle Hj Hlen; [lia|]. cbn in Hj, Hjle. inversion Hj as [|? ? b' bs0 Hb' Hj']; subst.
        assert (b' = b) as -> by congruence. rewrite length_app in Hlen.
        enough (j <= m)%nat by lia. apply (Hmax j bs0); [lia|done|lia].
Qed.

(** A log on disk with its durable part: sealed segments are durable, and so
    are the first [nd] frames of the active one, which may hold more frames,
    the last of them incomplete. *)
Definition sealed_file (d : gmap string FileData) (seg : Z * string) (evs : list WireEvent) : Prop :=
  exists f, d !! seg.2 = Some f /\ f_dirent f = true /\ encoded evs (f_bytes f) /\
    f_durable f = length (f_bytes f).

Definition active_file (d : gmap string FileData) (path : string) (evs : list WireEvent) (nd : nat) : Prop :=
  exists f bs k bsd, d !! path = Some f /\ f_dirent f = true /\ encoded evs bs /\ f_bytes f = take k bs /\
    (nd <= length evs)%nat /\ encoded (take nd evs) bsd /\
    (length bsd <= f_durable f <= length (f_bytes f))%nat.

Definition durable_log (d : gmap string FileData) (c : Catalog) (sealed : list (list WireEvent))
    (act : list WireEvent) (nd : nat) : Prop :=
  exists pc base path, c = pc ++ [(base, path)] /\ Forall2 (sealed_file d) pc sealed /\
    active_file d path act nd.

(** The catalog lists the log files of the directory. *)
Definition catalog_names (d : gmap string FileData) (c : Catalog) : Prop :=
  forall base name, (base, name) ∈ c <-> parse_base name = Some base /\ is_Some (d !! name).

Definition sorted_bases (c : Catalog) : Prop := StronglySorted (fun a b : Z * string => a.1 < b.1) c.

Lemma bases_ok_sorted c chunks : bases_ok c chunks -> sorted_bases c.
Proof.
  revert chunks. induction c as [|[b p] c IH]; intros chunks Hok; [constructor|].
  destruct c as [|[b' p'] c]; [repeat constructor|]. destruct chunks as [|evs chunks]; [done|].
  apply bases_ok_tl in Hok as (Hlt & _ & Hok). constructor; [by eapply IH|].
  eapply Forall_impl; [by eapply bases_ok_ge|]. cbn. lia.
Qed.

Lemma btree_insert_perm k v c : k ∉ map fst c -> btree_insert k v c ≡ₚ (k, v) :: c.
Proof.
  induction c as [|[k' v'] c IH]; cbn; [done|]. intros [Hne Hn]%not_elem_of_cons.
  destruct (k <? k'); [done|]. destruct (k =? k') eqn:E; bool_to_prop; [done|].
  rewrite IH by done. by constructor.
Qed.

Lemma btree_insert_sorted k v c : k ∉ map fst c -> sorted_bases c -> sorted_bases (btree_insert k v c).
Proof.
  intros Hn Hs. induction Hs as [|[k' v'] c Hs IH Hx]; cbn; [repeat constructor|].
  cbn in Hn. apply not_elem_of_cons in Hn as [Hne Hn].
  destruct (k <? k') eqn:E; bool_to_prop.
  - constructor; [by constructor|]. constructor; [done|]. eapply Forall_impl; [done|]. cbn. lia.
  - destruct (k =? k') eqn:E2; bool_to_prop; [done|]. constructor; [by apply IH|].
    rewrite btree_insert_perm by done. constructor; [cbn; lia|done].
Qed.

Definition named (name : string) : option (Z * string) := (fun b => (b, name)) <$> parse_base name.

Lemma omap_cons_named name names :
  omap named (name :: names) =
  match named name with Some x => x :: omap named names | None => omap named names end.
Proof. done. Qed.

Lemma enumerate_fold names acc :
  NoDup (map fst acc ++ map fst (omap named names)) -> sorted_bases acc ->
  let r := foldl (fun c name => match parse_base name with
                                | Some base => btree_insert base name c | None => c end) acc names in
  sorted_bases r /\ r ≡ₚ acc ++ omap named names.
Proof.
  revert acc. induction names as [|name names IH]; intros acc Hnd Hs; [cbn; by rewrite app_nil_r|].
  cbn [foldl]. rewrite omap_cons_named in Hnd |- *. unfold named at 1 in Hnd. unfold named at 1.
  destruct (parse_base name) as [base|]; cbn [fmap option_fmap option_map] in Hnd |- *; [|by apply IH].
  assert (base ∉ map fst acc) as Hn.
  { apply NoDup_app in Hnd as (_ & Hd & _). intros Hin. apply (Hd _ Hin). by left. }
  destruct (IH (btree_insert base name acc)) as [Hr Hp].
  - rewrite (btree_insert_perm base name acc Hn). cbn. rewrite (Permutation_middle (map fst acc)). done.
  - by apply btree_insert_sorted.
  - split; [done|]. rewrite Hp, (btree_insert_perm base name acc Hn). cbn.
    by rewrite (Permutation_middle acc).
Qed.

Lemma enumerate_spec d c names :
  catalog_names d c -> sorted_bases c -> c <> [] -> names ≡ₚ map fst (map_to_list d) ->
  enumerate_segments names = c.
Proof.
  intros Hc Hs Hne Hp. unfold enumerate_segments.
  assert (omap named names ≡ₚ c) as Hperm.
  { apply NoDup_Permutation.
    - rewrite Hp. assert (NoDup (map fst (map_to_list d))) as Hnd by apply NoDup_fst_map_to_list.
      revert Hnd. generalize (map fst (map_to_list d)) as l. induction l as [|n l IH]; intros Hnd; [constructor|].
      apply NoDup_cons in Hnd as [Hn Hnd]. rewrite omap_cons_named. unfold named at 1.
      destruct (parse_base n) as [b|] eqn:E; cbn [fmap option_fmap option_map]; [|auto].
      constructor; [|auto]. intros (m & Hin & Hm)%list_elem_of_omap. unfold named in Hm.
      destruct (parse_base m) eqn:Em; cbn in Hm; simplify_eq.
    - clear -Hs. induction Hs as [|x c Hs IH Hx]; constructor; [|done]. intros Hin.
      rewrite Forall_forall in Hx. specialize (Hx x Hin). lia.
    - intros [b n]. rewrite (Hc b n), list_elem_of_omap. split.
      + intros (m & Hin & Hm). unfold named in Hm. destruct (parse_base m) eqn:Em; cbn in Hm; [|done].
        simplify_eq. split; [done|]. rewrite Hp in Hin. apply list_elem_of_fmap in Hin as ([n' f] & -> & Hin).
        apply elem_of_map_to_list in Hin. eauto.
      + intros [Hb [f Hf]]. exists n. unfold named. rewrite Hb. split; [|done]. rewrite Hp.
        apply list_elem_of_fmap. exists (n, f). split; [done|]. by apply elem_of_map_to_list. }
  destruct (enumerate_fold names []) as [Hrs Hrp].
  { cbn. rewrite Hperm. clear -Hs. induction Hs as [|x c Hs IH Hx]; cbn; constructor; [|done].
    intros (y & Hy & Hin)%list_elem_of_fmap. rewrite Forall_forall in Hx. specialize (Hx y Hin). lia. }
  { constructor. }
  cbn zeta in *. cbn [app] in Hrp. rewrite Hperm in Hrp. set (r := foldl _ [] names) in *.
  assert (r = c) as ->; [|by destruct c].
  apply (StronglySorted_unique_strong (fun a b : Z * string => a.1 < b.1)); [|done..].
  intros x y _ _ ??. lia.
Qed.

Lemma sealed_log_files d pc sealed base path bs tail act :
  Forall2 (sealed_file d) pc sealed -> bytes_at d path = Some (bs ++ tail) -> encoded act bs -> tail_ok tail ->
  log_files d (pc ++ [(base, path)]) (sealed ++ [act]) tail.
Proof.
  intros Hs Hb He Ht. induction Hs as [|[b p] evs pc sealed (f & Hf & _ & Hev & _) Hs IH]; cbn.
  - by econstructor.
  - destruct pc as [|seg pc]; cbn in *.
    + inversion Hs; subst. eapply lf_cons; [unfold bytes_at; by rewrite Hf|done|exact IH].
    + inversion Hs; subst. eapply lf_cons; [unfold bytes_at; by rewrite Hf|done|exact IH].
Qed.

Lemma validate_all_sealed w pc sealed rest final_base :
  faults w = [] -> Forall2 (sealed_file (dir w)) pc sealed -> Forall (fun e : Z * string => e.1 <> final_base) pc ->
  validate_all (pc ++ rest) final_base w = validate_all rest final_base w.
Proof.
  intros Hf Hs Hne. induction Hs as [|[b p] evs pc sealed (f & Hp & _ & Hev & _) Hs IH]; [done|].
  apply Forall_cons in Hne as [Hb Hne]. cbn [app validate_all]. cbn in Hb, Hp.
  assert (b =? final_base = false) as -> by (by apply Z.eqb_neq).
  assert (validate_segment p false w = (Ok Clean, w)) as Hv.
  { unfold validate_segment. unfold io_bind, io_try.
    assert (fs_read p w = (Ok (f_bytes f), w)) as ->
      by (apply fs_read_no_faults; [done|]; unfold bytes_at; by rewrite Hp).
    by erewrite validate_sealed_spec; [|done..|lia]. }
  unfold io_bind at 1. rewrite Hv. unfold io_bind at 1. cbn [io_ret]. by apply IH.
Qed.

(** What a crash leaves is again such a log. *)
Lemma durable_log_crash d d' c sealed act nd :
  crash d d' -> durable_log d c sealed act nd -> durable_log d' c sealed act nd.
Proof.
  intros Hc (pc & base & path & -> & Hs & (f & bs & k & bsd & Hf & Hd & He & Hb & Hnd & Hebd & Hdur)).
  exists pc, base, path. split_and!; [done| |].
  - eapply Forall2_impl; [exact Hs|]. intros [b p] evs (g & Hg & Hgd & Hev & Hgl). specialize (Hc p). cbn in *.
    rewrite Hg in Hc. destruct (d' !! p) as [g'|] eqn:Eg'; [|congruence].
    destruct Hc as (k' & Hk' & ->). exists (mkFile (take k' (f_bytes g)) k' true).
    split_and!; [done|done| |]; cbn; rewrite take_ge by lia; [done|lia].
  - specialize (Hc path). rewrite Hf in Hc. destruct (d' !! path) as [g'|] eqn:Eg'; [|congruence].
    destruct Hc as (k' & Hk' & ->). exists (mkFile (take k' (f_bytes f)) k' true), bs, (Nat.min k' k), bsd.
    cbn. split_and!; try done; [by rewrite Hb, take_take|lia|]. rewrite length_take. lia.
Qed.

Lemma catalog_names_crash d d' c sealed act nd :
  crash d d' -> catalog_names d c -> durable_log d c sealed act nd -> catalog_names d' c.
Proof.
  intros Hc Hn (pc & b0 & p0 & -> & Hs & (f0 & _ & _ & _ & Hf0 & Hd0 & _)) base name. rewrite (Hn base name).
  assert (forall e, e ∈ pc ++ [(b0, p0)] -> exists f, d !! e.2 = Some f /\ f_dirent f = true) as Hall.
  { intros e [He| ->%list_elem_of_singleton]%elem_of_app; [|eauto].
    apply list_elem_of_lookup in He as [i Hi].
    destruct (Forall2_lookup_l _ _ _ _ _ Hs Hi) as (evs & _ & f & ? & ? & _). eauto. }
  split; intros [Hp [f Hf]]; split; try done; specialize (Hc name).
  - assert ((base, name) ∈ pc ++ [(b0, p0)]) as Hin by (apply Hn; eauto).
    destruct (Hall _ Hin) as (g & Hg & Hgd). cbn in Hg. rewrite Hg in Hc.
    destruct (d' !! name); [eauto|congruence].
  - rewrite Hf in Hc. destruct (d !! name); [eauto|done].
Qed.

(** The state of an open log that is in order. *)
Record log_ready (w : World) (s : SegmentSet) (sealed : list (list WireEvent)) (act : list WireEvent) (nd : nat) : Prop := {
  lr_durable : durable_log (dir w) (catalog s) sealed act nd;
  lr_bases : bases_ok (catalog s) (sealed ++ [act]);
  lr_names : catalog_names (dir w) (catalog s);
  lr_active : snd <$> last (catalog s) = Some (active s);
  lr_bytes : exists bs, bytes_at (dir w) (active s) = Some bs /\ encoded act bs /\ active_len s = length bs
}.

Lemma bases_ok_take_last c sealed act m : bases_ok c (sealed ++ [act]) -> bases_ok c (sealed ++ [take m act]).
Proof.
  revert c. induction sealed as [|evs sealed IH]; intros c Hok; cbn [app] in *.
  - destruct c as [|[b p] [|[b' p'] c]]; cbn in *; try done; [by apply Forall_take|].
    destruct Hok as (? & ? & Hok). destruct c as [|[]]; done.
  - destruct c as [|[b p] [|[b' p'] c]]; [done|by destruct sealed|].
    apply bases_ok_tl in Hok as (? & ? & Hok). split_and!; [done..|]. by apply IH.
Qed.

Lemma sealed_paths_ne d pc base path :
  catalog_names d (pc ++ [(base, path)]) -> sorted_bases (pc ++ [(base, path)]) ->
  Forall (fun e => e.1 <> base /\ e.2 <> path) pc.
Proof.
  intros Hn Hs. apply Forall_forall. intros [b p] Hin. cbn.
  pose proof (StronglySorted_app_1_elem_of _ _ _ (b, p) (base, path) Hs Hin ltac:(by left)) as Hlt. cbn in Hlt.
  split; [lia|]. intros ->.
  assert (parse_base path = Some b) as H1' by (apply (Hn b path); apply elem_of_app; by left).
  assert (parse_base path = Some base) as H2' by (apply (Hn base path); apply elem_of_app; right; by left).
  simplify_eq. lia.
Qed.

Lemma sealed_frame d d' pc sealed path :
  Forall2 (sealed_file d) pc sealed -> Forall (fun e : Z * string => e.2 <> path) pc ->
  (forall n f, n <> path -> d !! n = Some f -> exists f', d' !! n = Some f' /\ f_bytes f' = f_bytes f /\
     f_durable f' = f_durable f /\ (f_dirent f = true -> f_dirent f' = true)) ->
  Forall2 (sealed_file d') pc sealed.
Proof.
  intros Hs Hne Hfr. induction Hs as [|[b p] evs pc sealed (f & Hf & Hd & He & Hl) Hs IH]; [constructor|].
  apply Forall_cons in Hne as [Hp Hne]. constructor; [|by apply IH]. cbn in *.
  destruct (Hfr p f Hp Hf) as (f' & Hf' & Hb & Hdur & Hdir). exists f'. rewrite Hb, Hdur. split_and!; auto.
Qed.
End recovery.

(** ** Opening, appending, syncing and rotating keep a log in order *)

Section log_ops.
Context `{Crc32} `{!Crc32Laws} `{Json WireEvent} `{!JsonLaws WireEvent}.

(** The active file after the validation of the final segment. *)
Lemma validate_all_last w base path evs bs k f :
  faults w = [] -> dir w !! path = Some f -> encoded evs bs -> f_bytes f = take k bs ->
  exists w1 m bs' f1, validate_all [(base, path)] base w = (Ok (), w1) /\ faults w1 = [] /\
    (m <= length evs)%nat /\ encoded (take m evs) bs' /\
    (forall j bsj, (j <= length evs)%nat -> encoded (take j evs) bsj -> (length bsj <= k)%nat -> (j <= m)%nat) /\
    dir w1 = <[path := f1]> (dir w) /\ f_bytes f1 = bs' /\ f_dirent f1 = f_dirent f /\
    (Nat.min (f_durable f) (length bs') <= f_durable f1)%nat /\
    ((f_durable f <= length (f_bytes f))%nat -> (f_durable f1 <= length (f_bytes f1))%nat).
Proof.
  intros Hf Hp He Hb. assert (bytes_at (dir w) path = Some (take k bs)) as Hba
    by (unfold bytes_at; rewrite Hp; cbn; by rewrite Hb).
  destruct (validate_final_spec (S (length (take k bs))) (take k bs) 0 k evs bs He) as
    (m & bs' & junk & Hs & Hm & Hmle & Hval & Hmax); [done|lia|].
  cbn [validate_all]. rewrite Z.eqb_refl.
  assert (exists v, validate_segment path true w = (Ok v, w) /\
    ((v = Clean /\ junk = []) \/ v = Truncate (length bs'))) as (v & Hv & Hcase).
  { unfold validate_segment, io_bind, io_try. rewrite (fs_read_no_faults _ _ _ Hf Hba).
    eexists. split; [done|]. destruct Hval as [[-> ->]| ->]; [by left|by right]. }
  unfold io_bind at 1. rewrite Hv. destruct w as [d fs]. cbn in Hf, Hp. subst fs.
  destruct Hcase as [[-> ->]| ->].
  - exists (mkWorld d []), m, bs', f. rewrite app_nil_r in Hs. cbn. split_and!; try done.
    + by rewrite insert_id.
    + congruence.
    + lia.
  - exists (mkWorld (<[path := mkFile bs' (length bs') (f_dirent f)]> d) []), m, bs',
      (mkFile bs' (length bs') (f_dirent f)).
    split_and!; try done; [|cbn; lia].
    unfold io_bind, fs_len, next_fault. cbn. rewrite Hp. unfold fs_set_len, next_fault. cbn. rewrite Hp.
    unfold set_file. cbn. unfold fs_sync, next_fault. cbn. rewrite lookup_insert_eq. unfold set_file. cbn.
    rewrite insert_insert_eq. rewrite Hb, Hs, take_app_length. done.
Qed.

Lemma open_spec w c sealed act nd mx :
  faults w = [] -> durable_log (dir w) c sealed act nd -> bases_ok c (sealed ++ [act]) ->
  catalog_names (dir w) c ->
  exists s w' m, open_with_max mx w = (Ok s, w') /\ faults w' = [] /\ (nd <= m <= length act)%nat /\
    log_ready w' s sealed (take m act) nd /\ catalog s = c /\ segment_max s = mx.
Proof.
  intros Hf (pc & base & path & -> & Hs & (f & bs & k & bsd & Hp & Hd & He & Hb & Hnd & Hebd & Hdur)) Hok Hn.
  pose proof (bases_ok_sorted _ _ Hok) as Hsort.
  pose proof (sealed_paths_ne _ _ _ _ Hn Hsort) as Hne.
  destruct (validate_all_last w base path act bs k f Hf Hp He Hb)
    as (w1 & m & bs' & f1 & Hval & Hf1 & Hm & Hebs & Hmax & Hdir1 & Hb1 & Hd1 & Hdur1 & Hdle).
  assert (nd <= m)%nat as Hndm.
  { apply (Hmax nd bsd); [done|done|]. rewrite Hb, length_take in Hdur. lia. }
  unfold open_with_max.
  assert (fs_read_dir w = (Ok (map fst (map_to_list (dir w))), w)) as Hrd by (unfold fs_read_dir, next_fault; by rewrite Hf).
  unfold io_bind at 1. rewrite Hrd. cbn zeta.
  rewrite (enumerate_spec (dir w) _ _ Hn Hsort) by (done || by destruct pc). rewrite last_snoc.
  unfold io_bind at 1. rewrite (validate_all_sealed w pc sealed) by (done || (eapply Forall_impl; [exact Hne|by intros ? []])).
  rewrite Hval. destruct w1 as [d1 fs1]. cbn in Hf1, Hdir1. subst fs1 d1.
  unfold io_bind at 1, fs_open_append, next_fault. cbn [faults dir]. rewrite lookup_insert_eq.
  unfold io_bind at 1, fs_len, next_fault. cbn [faults dir]. rewrite lookup_insert_eq.
  unfold io_bind at 1, fs_sync_dir, next_fault. cbn [faults dir].
  set (g := fun f => mkFile (f_bytes f) (f_durable f) true).
  eexists _, _, m. split; [reflexivity|]. cbn [faults catalog segment_max]. split_and!; try done.
  assert ((g <$> <[path := f1]> (dir w)) !! path = Some (g f1)) as Hpath by (by rewrite lookup_fmap, lookup_insert_eq).
  split; cbn [dir catalog active active_len].
  - exists pc, base, path. split_and!; [done| |].
    + eapply sealed_frame; [exact Hs|eapply Forall_impl; [exact Hne|by intros ? []]|].
      intros n f0 Hnp Hf0. exists (g f0). rewrite lookup_fmap, lookup_insert_ne by congruence.
      by rewrite Hf0.
    + exists (g f1), bs', (length bs'), bsd. cbn. split_and!; try done.
      * by rewrite Hb1, take_ge.
      * rewrite length_take. lia.
      * by rewrite take_take, Nat.min_l by lia.
      * destruct (encoded_take act bs m He) as (b1 & b2 & Hbb & He1 & _).
        rewrite (encoded_fun _ _ _ He1 Hebs) in Hbb. destruct (encoded_take _ _ nd Hebs) as (c1 & c2 & Hcc & Hc1 & _).
        rewrite take_take, Nat.min_l in Hc1 by lia. rewrite (encoded_fun _ _ _ Hc1 Hebd) in Hcc.
        rewrite Hcc, length_app in Hdur1. lia.
      * apply Hdle. lia.
  - by apply bases_ok_take_last.
  - intros b n. rewrite (Hn b n), lookup_fmap, fmap_is_Some. destruct (decide (n = path)) as [->|Hnp].
    + rewrite lookup_insert_eq, Hp. split; intros [? ?]; split; eauto.
    + by rewrite lookup_insert_ne by congruence.
  - by rewrite last_snoc.
  - exists bs'. unfold bytes_at. rewrite Hpath. cbn. rewrite Hb1. split_and!; [done..|congruence].
Qed.

Lemma bases_ok_snoc_event c sealed act ev :
  bases_ok c (sealed ++ [act]) -> (forall e, last c = Some e -> e.1 <= w_seq ev) ->
  bases_ok c (sealed ++ [act ++ [ev]]).
Proof.
  revert c. induction sealed as [|evs sealed IH]; intros c Hok Hl; cbn [app] in *.
  - destruct c as [|[b p] [|[b' p'] c]]; cbn in *; try done.
    + apply Forall_app. split; [done|]. constructor; [|done]. by apply (Hl (b, p)).
    + destruct Hok as (_ & _ & Hok). destruct c as [|[]]; done.
  - destruct c as [|[b p] [|[b' p'] c]]; [done|by destruct sealed|].
    apply bases_ok_tl in Hok as (? & ? & Hok). split_and!; [done..|]. apply IH; [done|]. intros e He. by apply Hl.
Qed.

Lemma bases_ok_rotate c sealed act next path :
  bases_ok c (sealed ++ [act]) -> (forall e, last c = Some e -> e.1 < next) ->
  Forall (fun ev => w_seq ev < next) act -> bases_ok (c ++ [(next, path)]) ((sealed ++ [act]) ++ [[]]).
Proof.
  revert c. induction sealed as [|evs sealed IH]; intros c Hok Hl Hact; cbn [app] in *.
  - destruct c as [|[b p] [|[b' p'] c]]; cbn in *; try done.
    + split_and!; [by apply (Hl (b, p))| |constructor]. rewrite Forall_forall in *. intros ev Hev. split; auto.
    + destruct Hok as (_ & _ & Hok). destruct c as [|[]]; done.
  - destruct c as [|[b p] [|[b' p'] c]]; [done|by destruct sealed|].
    apply bases_ok_tl in Hok as (? & ? & Hok). split_and!; [done..|]. apply (IH ((b', p') :: c)); [done|auto|done].
Qed.

Lemma btree_insert_last k v c : Forall (fun e : Z * string => e.1 < k) c -> btree_insert k v c = c ++ [(k, v)].
Proof.
  induction 1 as [|[k' v'] c Hlt _ IH]; cbn in *; [done|].
  assert (k <? k' = false) as -> by lia. assert (k =? k' = false) as -> by lia. by rewrite IH.
Qed.

Lemma sorted_bases_last c e next : sorted_bases c -> last c = Some e -> e.1 < next -> Forall (fun x : Z * string => x.1 < next) c.
Proof.
  intros Hs [l ->]%last_Some Hlt. apply Forall_app. split; [|by repeat constructor].
  apply Forall_forall. intros x Hx.
  pose proof (StronglySorted_app_1_elem_of _ _ _ x e Hs Hx ltac:(by left)). cbn in *. lia.
Qed.

(** The active file of a log in order. *)
Lemma log_ready_active w s sealed act nd :
  log_ready w s sealed act nd -> exists pc base f bs bsd,
    catalog s = pc ++ [(base, active s)] /\ Forall2 (sealed_file (dir w)) pc sealed /\
    Forall (fun e => e.1 <> base /\ e.2 <> active s) pc /\
    dir w !! active s = Some f /\ f_dirent f = true /\ encoded act bs /\ f_bytes f = bs /\ active_len s = length bs /\
    (nd <= length act)%nat /\ encoded (take nd act) bsd /\ (length bsd <= f_durable f <= length bs)%nat.
Proof.
  intros [(pc & base & path & Hc & Hs & (f & bs & k & bsd & Hp & Hd & He & Hb & Hnd & Hebd & Hdur)) Hok Hn Ha
    (bs' & Hb' & He' & Hl)].
  rewrite Hc, last_snoc in Ha. injection Ha as ->. rewrite Hc in *.
  assert (bs' = bs) as -> by (by eapply encoded_fun).
  unfold bytes_at in Hb'. rewrite Hp in Hb'. injection Hb' as Hb'.
  exists pc, base, f, bs, bsd. rewrite Hb' in Hdur. split_and!; try done; try lia.
  eapply sealed_paths_ne; [done|]. by eapply bases_ok_sorted.
Qed.

(** A change of the active file only. *)
Lemma durable_log_active d d' c pc base sealed path act' nd :
  c = pc ++ [(base, path)] -> Forall2 (sealed_file d) pc sealed -> Forall (fun e => e.1 <> base /\ e.2 <> path) pc ->
  (forall n, n <> path -> d' !! n = d !! n) -> active_file d' path act' nd ->
  durable_log d' c sealed act' nd.
Proof.
  intros -> Hs Hne Hfr Hact. exists pc, base, path. split_and!; [done| |done].
  eapply sealed_frame; [exact Hs|eapply Forall_impl; [exact Hne|by intros ? []]|].
  intros n f0 Hn Hf0. exists f0. by rewrite Hfr.
Qed.

Lemma catalog_names_same d d' c path f f' :
  d !! path = Some f -> d' !! path = Some f' -> (forall n, n <> path -> d' !! n = d !! n) ->
  catalog_names d c -> catalog_names d' c.
Proof.
  intros Hf Hf' Hfr Hn b n. rewrite (Hn b n). destruct (decide (n = path)) as [->|Hne].
  - rewrite Hf, Hf'. split; intros [? ?]; split; eauto.
  - by rewrite Hfr.
Qed.

Lemma append_spec w s sealed act nd ev b r w' :
  log_ready w s sealed act nd -> encode_frame ev = Ok b -> (forall e, last (catalog s) = Some e -> e.1 <= w_seq ev) ->
  append s b w = (r, w') ->
  durable_log (dir w') (catalog s) sealed (act ++ [ev]) nd /\ catalog_names (dir w') (catalog s) /\
  (forall s', r = Ok s' -> log_ready w' s' sealed (act ++ [ev]) nd /\ catalog s' = catalog s /\ segment_max s' = segment_max s) /\
  (faults w = [] -> faults w' = [] /\ exists s', r = Ok s').
Proof.
  intros Hr He Hbase Ha.
  destruct (log_ready_active _ _ _ _ _ Hr) as
    (pc & base & f & bs & bsd & Hc & Hs & Hne & Hp & Hd & Heb & Hb & Hl & Hnd & Hebd & Hdur).
  assert (encoded (act ++ [ev]) (bs ++ b)) as Henc by (by apply encoded_snoc).
  assert (encoded (take nd (act ++ [ev])) bsd) as Hebd' by (by rewrite take_app_le).
  assert (forall k, active_file (<[active s := mkFile (f_bytes f ++ take k b) (f_durable f) (f_dirent f)]> (dir w))
    (active s) (act ++ [ev]) nd) as Hact.
  { intros k. exists (mkFile (f_bytes f ++ take k b) (f_durable f) (f_dirent f)), (bs ++ b), (length bs + k)%nat, bsd.
    rewrite lookup_insert_eq. cbn [f_bytes f_durable f_dirent]. split_and!; try done.
    - by rewrite Hb, take_app_add.
    - rewrite length_app. lia.
    - lia.
    - rewrite Hb, length_app. lia. }
  assert (forall k, let d' := <[active s := mkFile (f_bytes f ++ take k b) (f_durable f) (f_dirent f)]> (dir w) in
    durable_log d' (catalog s) sealed (act ++ [ev]) nd /\ catalog_names d' (catalog s)) as Hboth.
  { intros k d'. unfold d'. clear d'. split.
    - eapply durable_log_active; [exact Hc|exact Hs|exact Hne| |apply Hact].
      intros n Hn. by rewrite lookup_insert_ne by congruence.
    - eapply catalog_names_same; [exact Hp|apply lookup_insert_eq| |apply (lr_names _ _ _ _ _ Hr)].
      intros n Hn. by rewrite lookup_insert_ne by congruence. }
  unfold append, io_bind, fs_append, next_fault in Ha. destruct (faults w) as [|[k|] fs] eqn:Ef; cbn in Ha; rewrite Hp in Ha.
  - injection Ha as <- <-. unfold set_file. cbn [dir faults]. pose proof (Hboth (length b)) as Hbo. rewrite firstn_all in Hbo.
    destruct Hbo as [H1' H2']. split_and!; [done..| |].
    + intros s' [= <-]. split; [|done]. split; cbn [dir catalog active active_len]; [done| |done|apply (lr_active _ _ _ _ _ Hr)|].
      * apply bases_ok_snoc_event; [apply (lr_bases _ _ _ _ _ Hr)|done].
      * exists (bs ++ b). unfold bytes_at. rewrite lookup_insert_eq. cbn. rewrite Hb, Hl, length_app. done.
    + intros _. split; [done|eauto].
  - injection Ha as <- <-. unfold set_file. cbn [dir]. destruct (Hboth k). split_and!; done.
  - injection Ha as <- <-. unfold set_file. cbn [dir faults]. pose proof (Hboth (length b)) as Hbo. rewrite firstn_all in Hbo.
    destruct Hbo as [H1' H2']. split_and!; [done..| |done].
    intros s' [= <-]. split; [|done]. split; cbn [dir catalog active active_len]; [done| |done|apply (lr_active _ _ _ _ _ Hr)|].
    + apply bases_ok_snoc_event; [apply (lr_bases _ _ _ _ _ Hr)|done].
    + exists (bs ++ b). unfold bytes_at. rewrite lookup_insert_eq. cbn. rewrite Hb, Hl, length_app. done.
Qed.

Lemma sync_spec w s sealed act nd r w' :
  log_ready w s sealed act nd -> sync s w = (r, w') ->
  (r = Ok () -> log_ready w' s sealed act (length act)) /\
  (forall e, r = Err e -> dir w' = dir w) /\
  (faults w = [] -> faults w' = [] /\ r = Ok ()).
Proof.
  intros Hr Hsy.
  destruct (log_ready_active _ _ _ _ _ Hr) as
    (pc & base & f & bs & bsd & Hc & Hs & Hne & Hp & Hd & Heb & Hb & Hl & Hnd & Hebd & Hdur).
  set (d' := <[active s := mkFile (f_bytes f) (length (f_bytes f)) (f_dirent f)]> (dir w)).
  assert (forall fs, log_ready (mkWorld d' fs) s sealed act (length act)) as Hready.
  { intros fs. unfold d'. split; cbn [dir].
    - eapply durable_log_active; [exact Hc|exact Hs|exact Hne| |].
      + intros n Hn. by rewrite lookup_insert_ne by congruence.
      + eexists _, bs, (length bs), bs. rewrite lookup_insert_eq. split_and!; try done; cbn; rewrite ?Hb; try lia.
        * by rewrite firstn_all.
        * by rewrite firstn_all.
    - apply (lr_bases _ _ _ _ _ Hr).
    - eapply catalog_names_same; [exact Hp|apply lookup_insert_eq| |apply (lr_names _ _ _ _ _ Hr)].
      intros n Hn. by rewrite lookup_insert_ne by congruence.
    - apply (lr_active _ _ _ _ _ Hr).
    - exists bs. unfold bytes_at. rewrite lookup_insert_eq. cbn. by rewrite Hb. }
  unfold sync, fs_sync, next_fault in Hsy. destruct (faults w) as [|[k|] fs] eqn:Ef; cbn in Hsy; rewrite ?Hp in Hsy;
    injection Hsy as <- <-; split_and!; try done.
  - intros _. unfold set_file. rewrite Ef. apply Hready.
  - intros _. apply Hready.
Qed.

Lemma parse_segment_name base : in_i64 base = true -> parse_base (segment_name base) = Some base.
Proof.
  intros Hb. unfold parse_base, segment_name.
  by rewrite strip_prefix_app, strip_suffix_app, parse_i64_zero_padded.
Qed.

Lemma rotate_spec w s sealed act nd next s' w' :
  log_ready w s sealed act nd -> in_i64 next = true -> Forall (fun ev => w_seq ev < next) act ->
  (forall e, last (catalog s) = Some e -> e.1 < next) ->
  maybe_rotate s next w = (Ok s', w') ->
  (Z.of_nat (active_len s) < segment_max s /\ s' = s /\ w' = w) \/
  (segment_max s <= Z.of_nat (active_len s) /\ log_ready w' s' (sealed ++ [act]) [] 0 /\
   catalog s' = catalog s ++ [(next, segment_name next)] /\ active_len s' = 0%nat /\ segment_max s' = segment_max s).
Proof.
  intros Hr Hi Hact Hlast Hm. unfold maybe_rotate in Hm. destruct (segment_max s <=? _) eqn:E; bool_to_prop.
  2:{ injection Hm as <- <-. by left. }
  right. pose proof (parse_segment_name next Hi) as Hpn. cbn zeta in Hm.
  generalize dependent (segment_name next). intros nm Hm Hpn.
  apply io_bind_Ok in Hm as ([] & w1 & Hsync & Hm).
  destruct (sync_spec _ _ _ _ _ _ _ Hr Hsync) as (Hr1 & _ & _). specialize (Hr1 eq_refl).
  apply io_bind_Ok in Hm as ([] & w2 & Hopen & Hm). apply io_bind_Ok in Hm as ([] & w3 & Hsd & Hm).
  injection Hm as <- <-. cbn [catalog active active_len segment_max].
  destruct (log_ready_active _ _ _ _ _ Hr1) as
    (pc & base & f & bs & bsd & Hc & Hs & Hne & Hp & Hd & Heb & Hb & Hl & Hnd & Hebd & Hdur).
  rewrite firstn_all in Hebd. assert (bsd = bs) as -> by (by eapply encoded_fun).
  pose proof (lr_names _ _ _ _ _ Hr1) as Hn. pose proof (lr_bases _ _ _ _ _ Hr1) as Hok.
  pose proof (bases_ok_sorted _ _ Hok) as Hsort.
  assert (Forall (fun x : Z * string => x.1 < next) (catalog s)) as Hall.
  { eapply sorted_bases_last; [exact Hsort|rewrite Hc; apply last_snoc|].
    apply Hlast. rewrite Hc. apply last_snoc. }
  assert (dir w1 !! nm = None) as Hnew.
  { destruct (dir w1 !! nm) as [g|] eqn:Eg; [|done]. exfalso.
    assert ((next, nm) ∈ catalog s) as Hin
      by (apply Hn; split; [exact Hpn|by rewrite Eg]).
    rewrite Forall_forall in Hall. specialize (Hall _ Hin). cbn in Hall. lia. }
  rewrite (btree_insert_last next (nm) (catalog s) Hall).
  assert (exists fs, w2 = mkWorld (<[nm := mkFile [] 0 false]> (dir w1)) fs) as [fs2 ->].
  { unfold fs_open_append, next_fault in Hopen. destruct (faults w1) as [|[?|] ?]; cbn in Hopen; [|done|];
      rewrite Hnew in Hopen; injection Hopen as <-; eexists; reflexivity. }
  set (g := fun f => mkFile (f_bytes f) (f_durable f) true).
  set (d2 := <[nm := mkFile [] 0 false]> (dir w1)) in *.
  assert (exists fs, w3 = mkWorld (g <$> d2) fs) as [fs3 ->].
  { unfold fs_sync_dir, next_fault in Hsd. cbn in Hsd. destruct fs2 as [|[?|] ?]; cbn in Hsd; [|done|];
      injection Hsd as <-; eexists; reflexivity. }
  assert (forall n f0, n <> nm -> dir w1 !! n = Some f0 -> (g <$> d2) !! n = Some (g f0)) as Hfr.
  { intros n f0 Hnn Hf0. unfold d2. rewrite lookup_fmap, lookup_insert_ne by congruence. by rewrite Hf0. }
  assert ((g <$> d2) !! nm = Some (g (mkFile [] 0 false))) as Hnext
    by (unfold d2; by rewrite lookup_fmap, lookup_insert_eq).
  split_and!; try done. split; cbn [dir catalog active active_len].
  - exists (catalog s), next, (nm). split_and!; [done| |].
    + rewrite Hc. apply Forall2_app.
      * eapply Forall2_impl; [exact Hs|]. intros [b p] evs (f0 & Hf0 & Hd0 & He0 & Hl0). cbn in *.
        exists (g f0). split_and!; [|done..]. cbn. apply Hfr; [|done]. intros E'. rewrite E' in Hf0. congruence.
      * constructor; [|constructor]. exists (g f). cbn. split_and!; [|done|by rewrite Hb|rewrite Hb; lia].
        apply Hfr; [|done]. intros E'. rewrite E' in Hp. congruence.
    + exists (g (mkFile [] 0 false)), [], 0%nat, []. cbn. split_and!; try done; try constructor.
  - by apply bases_ok_rotate.
  - intros b n. rewrite elem_of_app, list_elem_of_singleton, (Hn b n).
    destruct (decide (n = nm)) as [->|Hnn].
    + rewrite Hnew, Hnext, Hpn. split.
      * intros [[_ [? ?]]|[= ->]]; [done|]. split; [done|eauto].
      * intros [[= ->] _]. by right.
    + split.
      * intros [[Hpb [f0 Hf0]]|[= _ ->]]; [|done]. split; [done|]. rewrite (Hfr _ _ Hnn Hf0). eauto.
      * intros [Hpb [f0 Hf0]]. left. split; [done|]. unfold d2 in Hf0.
        rewrite lookup_fmap, lookup_insert_ne in Hf0 by congruence. destruct (dir w1 !! n); [eauto|done].
  - by rewrite last_snoc.
  - exists []. unfold bytes_at. rewrite Hnext. by split_and!; [|constructor|].
Qed.

(** A directory without log files gets its first, empty segment. *)
Lemma open_fresh d mx :
  (forall name, is_Some (d !! name) -> parse_base name = None) ->
  exists s w', open_with_max mx (mkWorld d []) = (Ok s, w') /\ faults w' = [] /\ log_ready w' s [] [] 0 /\
    catalog s = [(1, segment_name 1)] /\ segment_max s = mx.
Proof.
  intros Hno. unfold open_with_max. unfold io_bind at 1, fs_read_dir, next_fault. cbn [faults dir]. cbn zeta.
  assert (enumerate_segments (map fst (map_to_list d)) = [(1, segment_name 1)]) as ->.
  { unfold enumerate_segments. enough (forall names, (forall n, n ∈ names -> parse_base n = None) ->
      foldl (fun c name => match parse_base name with Some base => btree_insert base name c | None => c end) [] names = []) as Hall.
    { rewrite Hall; [done|]. intros n ([n' f] & -> & Hin)%list_elem_of_fmap.
      apply elem_of_map_to_list in Hin. apply Hno. eauto. }
    induction names as [|n names IH]; intros Hn; cbn [foldl]; [done|]. rewrite (Hn n) by (by left).
    apply IH. intros m Hm. apply Hn. by right. }
  pose proof (parse_segment_name 1 eq_refl) as Hpn. cbn [last].
  generalize dependent (segment_name 1). intros nm Hpn.
  assert (d !! nm = None) as Hnew.
  { destruct (d !! nm) eqn:E; [|done]. rewrite Hno in Hpn; [done|]. by rewrite E. }
  assert (validate_all [(1, nm)] 1 (mkWorld d []) = (Ok (), mkWorld d [])) as Hval.
  { cbn [validate_all]. unfold io_bind at 1, validate_segment. unfold io_bind at 1, io_try, fs_read, next_fault.
    cbn [faults dir]. by rewrite Hnew. }
  unfold io_bind at 1. rewrite Hval. unfold io_bind at 1, fs_open_append, next_fault. cbn [faults dir]. rewrite Hnew.
  unfold set_file. cbn [dir faults].
  unfold io_bind at 1, fs_len, next_fault. cbn [faults dir]. rewrite lookup_insert_eq.
  unfold io_bind at 1, fs_sync_dir, next_fault. cbn [faults dir].
  set (g := fun f => mkFile (f_bytes f) (f_durable f) true).
  eexists _, _. split; [reflexivity|]. cbn [faults catalog segment_max]. split_and!; try done.
  assert ((g <$> <[nm := mkFile [] 0 false]> d) !! nm = Some (g (mkFile [] 0 false))) as Hnext
    by (by rewrite lookup_fmap, lookup_insert_eq).
  split; cbn [dir catalog active active_len].
  - exists [], 1, nm. split_and!; [done|constructor|].
    exists (g (mkFile [] 0 false)), [], 0%nat, []. cbn. split_and!; try done; try constructor.
  - constructor.
  - intros b n. rewrite list_elem_of_singleton, lookup_fmap, fmap_is_Some. destruct (decide (n = nm)) as [->|Hne].
    + rewrite lookup_insert_eq, Hpn. split; [intros [= ->]; eauto|]. by intros [[= ->] _].
    + rewrite lookup_insert_ne by congruence. split; [congruence|]. intros [Hp Hs]. rewrite (Hno n Hs) in Hp. done.
  - done.
  - exists []. unfold bytes_at. rewrite Hnext. by split_and!; [|constructor|].
Qed.

Lemma durable_ready_log_files w s sealed act nd :
  log_ready w s sealed act nd -> log_files (dir w) (catalog s) (sealed ++ [act]) [].
Proof.
  intros Hr. destruct (log_ready_active _ _ _ _ _ Hr) as
    (pc & base & f & bs & bsd & Hc & Hs & Hne & Hp & Hd & Heb & Hb & _).
  rewrite Hc. apply (sealed_log_files _ _ _ _ _ bs [] _ Hs); [|done|by left].
  unfold bytes_at. rewrite Hp, app_nil_r. cbn. by rewrite Hb.
Qed.

(** ** The guarantees of the log *)

(** A scan returns the first [limit] events at or above [from], in log
    order, from whichever segments hold them; undecodable bytes at the end
    of the active segment end the scan without an error. *)
Theorem scan_from_exact (w : World) (c : Catalog) (chunks : list (list WireEvent)) (tail : list byte)
    (from : Seq) (limit : Z) :
  faults w = [] -> log_files (dir w) c chunks tail -> bases_ok c chunks -> 0 <= limit ->
  scan_from c from limit w =
  (Ok (take (Z.to_nat limit) (filter (fun ev => from <= w_seq ev) (concat chunks))), w).
Proof.
  intros Hf Hl Hok Hlim. unfold scan_from. rewrite (scan_catalog_spec _ w c chunks tail) by done.
  rewrite select_all_filter; [done|]. by eapply log_files_length.
Qed.

(** Acknowledged frames survive a crash.  Whatever a crash leaves of a log
    whose first [nd] active frames were synced, opening it succeeds and
    leaves a log in order with every sealed frame and the first [m >= nd]
    active frames: nothing synced is lost, and no torn frame is kept. *)
Theorem crash_recovery (d d' : gmap string FileData) (c : Catalog) (sealed : list (list WireEvent))
    (act : list WireEvent) (nd : nat) (mx : Z) :
  durable_log d c sealed act nd -> bases_ok c (sealed ++ [act]) -> catalog_names d c -> crash d d' ->
  exists s w' m, open_with_max mx (mkWorld d' []) = (Ok s, w') /\ (nd <= m <= length act)%nat /\
    log_ready w' s sealed (take m act) nd /\ catalog s = c.
Proof.
  intros Hd Hok Hn Hc.
  destruct (open_spec (mkWorld d' []) c sealed act nd mx) as (s & w' & m & ? & _ & ? & ? & ? & _); try done.
  - by eapply durable_log_crash.
  - by eapply catalog_names_crash.
  - by exists s, w', m.
Qed.

(** The writer's operations keep the log in order: an append adds the
    event at the end, a sync makes every active frame durable, and after an
    append that failed half-way the synced frames are still all there. *)
Theorem append_sync_keep_log (w : World) (s : SegmentSet) (sealed : list (list WireEvent)) (act : list WireEvent)
    (nd : nat) (ev : WireEvent) (b : list byte) :
  log_ready w s sealed act nd -> encode_frame ev = Ok b ->
  (forall e, last (catalog s) = Some e -> e.1 <= w_seq ev) ->
  match append s b w with
  | (Ok s', w') => log_ready w' s' sealed (act ++ [ev]) nd /\
      forall w'', sync s' w' = (Ok (), w'') -> log_ready w'' s' sealed (act ++ [ev]) (S (length act))
  | (Err _, w') => durable_log (dir w') (catalog s) sealed (act ++ [ev]) nd
  end.
Proof.
  intros Hr He Hb. destruct (append s b w) as [r w'] eqn:Ea.
  destruct (append_spec _ _ _ _ _ _ _ _ _ Hr He Hb Ea) as (Hd & _ & Hok & _).
  destruct r as [s'|e]; [|done]. destruct (Hok s' eq_refl) as (Hr' & _). split; [done|].
  intros w'' Hsy. destruct (sync_spec _ _ _ _ _ _ _ Hr' Hsy) as (Hr'' & _ & _). specialize (Hr'' eq_refl).
  rewrite length_app, Nat.add_comm in Hr''. exact Hr''.
Qed.

(** Rotation happens exactly when the active segment has reached the
    maximum, and seals it: every frame of it is durable before the new
    segment, named by the next sequence number, takes over. *)
Theorem rotation_seals (w : World) (s : SegmentSet) (sealed : list (list WireEvent)) (act : list WireEvent)
    (nd : nat) (next : Seq) (s' : SegmentSet) (w' : World) :
  log_ready w s sealed act nd -> in_i64 next = true -> Forall (fun ev => w_seq ev < next) act ->
  (forall e, last (catalog s) = Some e -> e.1 < next) ->
  maybe_rotate s next w = (Ok s', w') ->
  (Z.of_nat (active_len s) < segment_max s /\ s' = s /\ w' = w) \/
  (segment_max s <= Z.of_nat (active_len s) /\ log_ready w' s' (sealed ++ [act]) [] 0 /\ next_pos s' = (next, 0%nat)).
Proof.
  intros Hr Hi Hact Hlast Hm.
  destruct (rotate_spec _ _ _ _ _ _ _ _ Hr Hi Hact Hlast Hm) as [?|(? & ? & Hc & Hl & _)]; [by left|].
  right. split_and!; [done..|]. unfold next_pos. by rewrite Hc, last_snoc, Hl.
Qed.

(** The position an append is made at reads the appended event back. *)
Theorem append_read_back (w : World) (s s' : SegmentSet) (sealed : list (list WireEvent)) (act : list WireEvent)
    (nd : nat) (ev : WireEvent) (b : list byte) (w' : World) :
  log_ready w s sealed act nd -> encode_frame ev = Ok b ->
  (forall e, last (catalog s) = Some e -> e.1 <= w_seq ev) ->
  append s b w = (Ok s', w') -> faults w' = [] -> Z.of_nat (active_len s') <= u64_max ->
  read_at (catalog s') (next_pos s).1 (next_pos s).2 (w_seq ev) w' = (Ok ev, w').
Proof.
  intros Hr He Hb Ha Hf Hmax.
  destruct (append_spec _ _ _ _ _ _ _ _ _ Hr He Hb Ha) as (_ & _ & Hok & _).
  destruct (Hok s' eq_refl) as (Hr' & Hc' & _).
  destruct (log_ready_active _ _ _ _ _ Hr) as (pc & base & f & bs & bsd & Hc & _ & _ & _ & _ & Heb & _ & Hl & _).
  destruct (lr_bytes _ _ _ _ _ Hr') as (bs' & Hbs' & Heb' & Hl').
  assert (bs' = bs ++ b) as -> by (eapply encoded_fun; [done|]; by apply encoded_snoc).
  assert (active s' = active s) as Hact.
  { pose proof (lr_active _ _ _ _ _ Hr') as H'. rewrite Hc', Hc, last_snoc in H'. by injection H' as ->. }
  unfold next_pos. rewrite Hc, last_snoc. cbn [fst snd]. rewrite Hl.
  apply (read_at_spec w' (catalog s') base (active s) bs ev b []); [done| | |done|].
  - rewrite Hc', Hc. pose proof (bases_ok_sorted _ _ (lr_bases _ _ _ _ _ Hr)) as Hs. rewrite Hc in Hs. clear -Hs.
    induction pc as [|[b' p'] pc IH]; cbn; [by rewrite Z.eqb_refl|].
    inversion Hs as [|? ? Hs' Hall]; subst. apply Forall_app in Hall as [_ [Hlt _]%Forall_cons]. cbn in Hlt.
    assert (b' =? base = false) as -> by lia. by apply IH.
  - rewrite app_nil_r. by rewrite <- Hact.
  - by rewrite <- Hl'.
Qed.
End log_ops.

(** ** A concrete log *)

Section segment_demo.
Import FrameDemo.

(** A fresh log of the two events 1 and 2, the first of them synced. *)
Definition demo_write : io SegmentSet :=
  let! s := open_with_max 100 in
  let! s := append s (demo_frame 1) in
  let! _ := sync s in
  append s (demo_frame 2).

Definition demo_log_world : World := (demo_write (mkWorld ∅ [])).2.
Definition demo_set : SegmentSet :=
  match (demo_write (mkWorld ∅ [])).1 with Ok s => s | Err _ => mkSegmentSet [] "" 0 0 end.

Lemma demo_encode_1 : encode_frame (demo_event 1) = Ok (demo_frame 1).
Proof. vm_compute. reflexivity. Qed.
Lemma demo_encode_2 : encode_frame (demo_event 2) = Ok (demo_frame 2).
Proof. vm_compute. reflexivity. Qed.
Lemma demo_encode_3 : encode_frame (demo_event 3) = Ok (demo_frame 3).
Proof. vm_compute. reflexivity. Qed.

Lemma demo_ready :
  exists s w', demo_write (mkWorld ∅ []) = (Ok s, w') /\ faults w' = [] /\
    log_ready w' s [] [demo_event 1; demo_event 2] 1 /\ catalog s = [(1, segment_name 1)].
Proof.
  destruct (open_fresh ∅ 100) as (s & w1 & Ho & Hf1 & Hr1 & Hc & _).
  { intros name [f Hf]. by rewrite lookup_empty in Hf. }
  unfold demo_write, io_bind at 1. rewrite Ho. unfold io_bind at 1.
  destruct (append s (demo_frame 1) w1) as [r2 w2] eqn:E2.
  destruct (append_spec _ _ _ _ _ (demo_event 1) _ _ _ Hr1 demo_encode_1 ltac:(rewrite Hc; by intros e [= <-]) E2)
    as (_ & _ & Hok & Hnf). destruct (Hnf Hf1) as (Hf2 & s2 & ->). destruct (Hok s2 eq_refl) as (Hr2 & Hc2 & _).
  unfold io_bind at 1. destruct (sync s2 w2) as [r3 w3] eqn:E3.
  destruct (sync_spec _ _ _ _ _ _ _ Hr2 E3) as (Hr3 & _ & Hnf3). destruct (Hnf3 Hf2) as (Hf3 & ->).
  specialize (Hr3 eq_refl). cbn in Hr3.
  destruct (append s2 (demo_frame 2) w3) as [r4 w4] eqn:E4.
  destruct (append_spec _ _ _ _ _ (demo_event 2) _ _ _ Hr3 demo_encode_2
    ltac:(rewrite Hc2, Hc; by intros e [= <-]) E4)
    as (_ & _ & Hok4 & Hnf4). destruct (Hnf4 Hf3) as (Hf4 & s4 & ->). destruct (Hok4 s4 eq_refl) as (Hr4 & Hc4 & _).
  exists s4, w4. split_and!; [done..|]. by rewrite Hc4, Hc2.
Qed.

Lemma demo_set_ready :
  log_ready demo_log_world demo_set [] [demo_event 1; demo_event 2] 1 /\ faults demo_log_world = [] /\
  catalog demo_set = [(1, segment_name 1)].
Proof.
  destruct demo_ready as (s & w' & Hw & Hf & Hr & Hc). unfold demo_log_world, demo_set. by rewrite Hw.
Qed.

Lemma scan_from_exact_witness :
  scan_from (catalog demo_set) 2 10 demo_log_world = (Ok [demo_event 2], demo_log_world).
Proof.
  destruct demo_set_ready as (Hr & Hf & _).
  exact (scan_from_exact demo_log_world (catalog demo_set) ([] ++ [[demo_event 1; demo_event 2]]) [] 2 10
    Hf (durable_ready_log_files _ _ _ _ _ Hr) (lr_bases _ _ _ _ _ Hr) ltac:(lia)).
Defined.

(** A crash that tears the second frame after thirty bytes of it. *)
Definition torn_dir : gmap string FileData :=
  {[ segment_name 1 := let n := (length (demo_frame 1) + 30)%nat in
       mkFile (take n (demo_frame 1 ++ demo_frame 2)) n true ]}.

Lemma torn_crash : crash (dir demo_log_world) torn_dir.
Proof.
  assert (dir demo_log_world = {[ segment_name 1 :=
    mkFile (demo_frame 1 ++ demo_frame 2) (length (demo_frame 1)) true ]}) as -> by (vm_compute; reflexivity).
  intros name. unfold torn_dir. rewrite !lookup_singleton. case_decide; [|done].
  eexists. split; [|reflexivity]. split; [cbn [f_durable]; lia|]. apply Nat.leb_le. vm_compute. reflexivity.
Qed.

Lemma crash_recovery_witness :
  exists s w' m, open_with_max 100 (mkWorld torn_dir []) = (Ok s, w') /\ (1 <= m <= 2)%nat /\
    log_ready w' s [] (take m [demo_event 1; demo_event 2]) 1.
Proof.
  destruct demo_set_ready as (Hr & Hf & Hc).
  destruct (crash_recovery (dir demo_log_world) torn_dir (catalog demo_set) [] [demo_event 1; demo_event 2] 1 100
    (lr_durable _ _ _ _ _ Hr) (lr_bases _ _ _ _ _ Hr) (lr_names _ _ _ _ _ Hr) torn_crash)
    as (s & w' & m & H1 & H2 & H3 & _).
  exists s, w', m. split; [exact H1|split; [exact H2|exact H3]].
Defined.

Lemma demo_base_le (s : Z) : 1 <= s -> forall e, last (catalog demo_set) = Some e -> e.1 <= w_seq (demo_event s).
Proof. destruct demo_set_ready as (_ & _ & ->). intros Hs e [= <-]. exact Hs. Qed.

Lemma append_sync_keep_log_witness :
  exists s' w', append demo_set (demo_frame 3) demo_log_world = (Ok s', w') /\
    log_ready w' s' [] [demo_event 1; demo_event 2; demo_event 3] 1.
Proof.
  destruct demo_set_ready as (Hr & Hf & _).
  pose proof (append_sync_keep_log demo_log_world demo_set [] [demo_event 1; demo_event 2] 1 (demo_event 3)
    (demo_frame 3) Hr demo_encode_3 (demo_base_le 3 ltac:(lia))) as Happ.
  destruct (append demo_set (demo_frame 3) demo_log_world) as [r w'] eqn:E.
  destruct (append_spec _ _ _ _ _ (demo_event 3) _ _ _ Hr demo_encode_3 (demo_base_le 3 ltac:(lia)) E)
    as (_ & _ & _ & Hnf). destruct (Hnf Hf) as (_ & s' & ->).
  exists s', w'. split; [reflexivity|]. exact (proj1 Happ).
Defined.

Lemma rotation_seals_witness :
  exists s' w', maybe_rotate demo_set 3 demo_log_world = (Ok s', w') /\ next_pos s' = (3, 0%nat).
Proof.
  destruct demo_set_ready as (Hr & Hf & Hc).
  destruct (maybe_rotate demo_set 3 demo_log_world) as [[s'|e] w'] eqn:E.
  - exists s', w'. split; [reflexivity|].
    destruct (rotation_seals demo_log_world demo_set [] [demo_event 1; demo_event 2] 1 3 s' w' Hr eq_refl
      ltac:(repeat constructor) ltac:(rewrite Hc; intros x [= <-]; reflexivity) E) as [(Hlt & _)|(_ & _ & Hn)].
    + exfalso. revert Hlt. vm_compute. done.
    + exact Hn.
  - exfalso. vm_compute in E. done.
Defined.

Lemma append_read_back_witness :
  exists s' w', append demo_set (demo_frame 3) demo_log_world = (Ok s', w') /\
    read_at (catalog s') (next_pos demo_set).1 (next_pos demo_set).2 3 w' = (Ok (demo_event 3), w').
Proof.
  destruct demo_set_ready as (Hr & Hf & _).
  destruct (append demo_set (demo_frame 3) demo_log_world) as [r w'] eqn:E.
  destruct (append_spec _ _ _ _ _ (demo_event 3) _ _ _ Hr demo_encode_3 (demo_base_le 3 ltac:(lia)) E)
    as (_ & _ & _ & Hnf). destruct (Hnf Hf) as (Hf' & s' & ->).
  exists s', w'. split; [reflexivity|].
  apply (append_read_back demo_log_world demo_set s' [] [demo_event 1; demo_event 2] 1 (demo_event 3) (demo_frame 3) w'
    Hr demo_encode_3 (demo_base_le 3 ltac:(lia)) E Hf').
  vm_compute in E. injection E as <- _. vm_compute. discriminate.
Defined.
End segment_demo.
