(* ===== verification/Snapshot.v ===== *)
(** Snapshots of a book's state, talea-store-log/src/snapshot.rs: a CRC and the
    serialized [BookState], written to a temporary file and renamed; the two
    newest are kept, and loading takes the newest that reads back.

    Serialization leaves out the fields marked [serde(skip)] (the runs and the
    Bloom filter of the idempotency index) and flattens the posting histories:
    [StateImage] is what goes through the JSON codec. *)

From stdpp Require Import sorting.
From S2P Require Import Prelude Decimal Core Bloom Disk PostingIndex Idem BookState.
Open Scope Z_scope.

(** ** What is serialized *)

Record AccountImage := mkAccountImage {
  ai_def : AccountDef;
  ai_cfg : AccountCfg;
  ai_raw : Z;
  ai_updated : Seq;
  ai_postings : list PostingEntry
}.

Record StateImage := mkStateImage {
  si_next_seq : Seq;
  si_accounts : gmap string AccountImage;
  si_hot : gmap string CommittedRec;
  si_order : list string;
  si_cap : nat;
  si_txids : gmap Z (Seq * FramePos);
  si_sums : gmap string (Z * Z);
  si_last_at : option DateTime
}.

Definition account_image (a : AccountState) : AccountImage :=
  mkAccountImage (as_def a) (as_cfg a) (raw_balance a) (updated_seq a)
    (PostingIndex_serialize (postings a)).

Definition image_account (a : AccountImage) : AccountState :=
  mkAccountState (ai_def a) (ai_cfg a) (ai_raw a) (ai_updated a) (PostingIndex_deserialize (ai_postings a)).

Definition state_image (st : BookState) : StateImage :=
  mkStateImage (next_seq st) (account_image <$> accounts st)
    (hot (idem st)) (order (idem st)) (cap (idem st)) (txids st) (sums st) (last_at st).

(** Deserialization: skipped fields take their defaults. *)
Definition image_state (i : StateImage) : BookState :=
  mkBookState (si_next_seq i) (image_account <$> si_accounts i)
    (mkTieredIdem (si_hot i) (si_order i) (si_cap i) [] Bloom_default)
    (si_txids i) (si_sums i) (si_last_at i).

(** A state without its skipped fields. *)
Definition forget_skipped (st : BookState) : BookState :=
  set_idem st (mkTieredIdem (hot (idem st)) (order (idem st)) (cap (idem st)) [] Bloom_default).

(** ** Names *)

Definition CRC_LEN : nat := 4.

Definition snap_name (seq : Seq) : string :=
  "snapshot-" +:+ i64_zero_padded 20 seq +:+ ".snap".

Definition snap_tmp (seq : Seq) : string := snap_name seq +:+ ".tmp".

Definition parse_snap_seq (name : string) : option Seq :=
  match strip_prefix "snapshot-" name with
  | None => None
  | Some s => match strip_suffix ".snap" s with
              | None => None
              | Some s => parse_i64 s
              end
  end.

(** The snapshot files among some names, newest first. *)
Definition snap_entries (names : list string) : list (Seq * string) :=
  sort_by (fun x y => y.1 <=? x.1)
    (omap (fun name => (fun s => (s, name)) <$> parse_snap_seq name) names).

Section snapshot.
Context `{Crc32} `{Json StateImage}.

(** ** Pruning *)

Fixpoint remove_each (paths : list string) : io unit :=
  match paths with
  | [] => io_ret ()
  | p :: rest => let! _ := io_try (fs_remove p) in remove_each rest
  end.

Definition prune_old : io unit :=
  let! names := fs_read_dir in
  remove_each (map snd (drop 2 (snap_entries names))).

(** ** Writing *)

Definition write_snapshot (st : BookState) (last_seq : Seq) : io unit :=
  let! payload := io_lift (to_vec (state_image st)) in
  let snap_bytes := to_le_bytes (crc32_hash payload) ++ payload in
  let! _ := replace_file (snap_tmp last_seq) (snap_name last_seq) snap_bytes in
  prune_old.

(** ** Loading *)

Definition decode_snapshot (bytes : list byte) : result BookState string :=
  if (length bytes <? CRC_LEN)%nat then Err "file too short"%string
  else
    let crc_bytes := take CRC_LEN bytes in
    let payload := drop CRC_LEN bytes in
    if negb (from_le_bytes crc_bytes =? crc32_hash payload) then Err "CRC mismatch"%string
    else
      let? image := from_slice payload in
      Ok (image_state image).

Definition try_load_snapshot (path : string) : io BookState :=
  let! bytes := fs_read path in
  io_lift (decode_snapshot bytes).

Fixpoint load_first (entries : list (Seq * string)) : io (option (BookState * Seq)) :=
  match entries with
  | [] => io_ret None
  | (seq, path) :: rest =>
      let! r := io_try (try_load_snapshot path) in
      match r with
      | Ok st => io_ret (Some (st, seq))
      | Err _ => load_first rest
      end
  end.

Definition load_latest : io (option (BookState * Seq)) :=
  let! names := fs_read_dir in
  load_first (snap_entries names).
End snapshot.

(** ** Lemmas *)

Lemma image_round_trip st :
  map_Forall (fun _ a => chunked (postings a)) (accounts st) -> image_state (state_image st) = forget_skipped st.
Proof.
  intros Hc. unfold image_state, state_image, forget_skipped, set_idem. cbn. f_equal.
  rewrite <- map_fmap_compose. rewrite <- (map_fmap_id (accounts st)) at 2. apply map_fmap_ext.
  intros k a Hk. cbn. specialize (Hc k a Hk). cbn in Hc. destruct a as [d c r u p]. unfold image_account. cbn in *.
  f_equal. apply flat_inj; [by apply push_all_chunked, chunked_default|done|].
  unfold PostingIndex_deserialize. by rewrite push_all_flat.
Qed.

Lemma parse_snap_name seq : in_i64 seq = true -> parse_snap_seq (snap_name seq) = Some seq.
Proof.
  intros Hs. unfold parse_snap_seq, snap_name.
  by rewrite strip_prefix_app, strip_suffix_app, parse_i64_zero_padded.
Qed.

Lemma parse_snap_tmp seq : parse_snap_seq (snap_tmp seq) = None.
Proof.
  unfold parse_snap_seq. destruct (strip_prefix _ _) as [s|] eqn:Ep; [|done].
  destruct (strip_suffix _ _) as [l|] eqn:Es; [|done].
  apply strip_prefix_Some in Ep. apply strip_suffix_Some in Es as ->.
  assert (snap_name seq +:+ ".tmp" = ("snapshot-" +:+ l +:+ ".") +:+ "snap")%string as E
    by (rewrite !append_assoc; exact Ep).
  by apply append_inj_2 in E as [_ [=]].
Qed.

Section snapshot_lemmas.
Context `{Crc32} `{!Crc32Laws} `{Json StateImage} `{!JsonLaws StateImage}.

Lemma decode_snapshot_written st payload :
  map_Forall (fun _ a => chunked (postings a)) (accounts st) ->
  to_vec (state_image st) = Ok payload ->
  decode_snapshot (to_le_bytes (crc32_hash payload) ++ payload) = Ok (forget_skipped st).
Proof.
  intros Hc Hv. unfold decode_snapshot. rewrite length_app, length_to_le_bytes. cbn [Nat.add Nat.ltb Nat.leb].
  rewrite take_app_length', drop_app_length' by done.
  rewrite from_to_le_bytes by apply crc32_range. rewrite Z.eqb_refl. cbn.
  rewrite (from_slice_to_vec _ _ Hv). by rewrite image_round_trip.
Qed.

Lemma remove_each_spec paths w :
  exists w', remove_each paths w = (Ok (), w') /\ (forall n, n ∉ paths -> dir w' !! n = dir w !! n) /\
    (faults w = [] -> faults w' = []).
Proof.
  revert w. induction paths as [|p paths IH]; intros w; cbn [remove_each]; [by exists w|].
  unfold io_bind, io_try. destruct (fs_remove p w) as [r w1] eqn:E.
  destruct (IH w1) as (w' & Hw & Hk & Hf). exists w'. split; [done|]. split.
  - intros n [Hp Hn]%not_elem_of_cons. rewrite Hk by done.
    unfold fs_remove, next_fault in E. destruct w as [d [|[k|] fs]]; cbn in E; [| |];
      repeat case_match; injection E as <- <-; cbn; by rewrite ?lookup_delete_ne.
  - intros Hf0. apply Hf. unfold fs_remove, next_fault in E. rewrite Hf0 in E.
    case_match; injection E as <- <-; [|done]. by cbn.
Qed.

Definition snap_named (name : string) : option (Seq * string) := (fun s => (s, name)) <$> parse_snap_seq name.

Lemma elem_of_snap_entries names s n :
  (s, n) ∈ snap_entries names <-> n ∈ names /\ parse_snap_seq n = Some s.
Proof.
  unfold snap_entries. rewrite sort_by_perm, list_elem_of_omap. split.
  - intros (m & Hm & Hp). destruct (parse_snap_seq m) eqn:E; cbn in Hp; [|done]. by simplify_eq.
  - intros [Hn Hp]. exists n. by rewrite Hp.
Qed.

Lemma snap_entries_sorted names : StronglySorted (fun a b => b.1 <= a.1) (snap_entries names).
Proof.
  pose proof (sort_by_sorted (fun x y : Seq * string => y.1 <=? x.1)
    ltac:(intros; rewrite !Z.leb_le; lia) ltac:(intros x y z; rewrite !Z.leb_le; lia)) as Hs.
  specialize (Hs (omap snap_named names)). unfold snap_entries. fold snap_named. induction Hs; constructor; [done|].
  eapply Forall_impl; [done|]. cbn. intros. by apply Z.leb_le.
Qed.

Lemma NoDup_omap_names names :
  NoDup names -> NoDup (omap (fun name => (fun s => (s, name)) <$> parse_snap_seq name) names).
Proof.
  intros Hnd. apply (NoDup_fmap_1 snd). eapply sublist_NoDup; [exact Hnd|]. clear Hnd.
  induction names as [|n names IH]; [done|]. cbn. destruct (parse_snap_seq n); cbn.
  - by apply sublist_skip.
  - by apply sublist_cons.
Qed.

(** Loading from a sorted list of entries that read as [load] says. *)
Lemma load_first_spec w entries (load : string -> result BookState string) :
  faults w = [] -> (forall s p, (s, p) ∈ entries -> exists bs, bytes_at (dir w) p = Some bs /\ decode_snapshot bs = load p) ->
  load_first entries w =
  (Ok (head (omap (fun e => match load e.2 with Ok st => Some (st, e.1) | Err _ => None end) entries)), w).
Proof.
  intros Hf. induction entries as [|[s p] entries IH]; intros Hl; [done|]. cbn [load_first].
  destruct (Hl s p) as (bs & Hb & Hd); [by left|].
  unfold io_bind at 1, io_try, try_load_snapshot, io_bind at 1. rewrite (fs_read_no_faults _ _ _ Hf Hb).
  unfold io_lift. rewrite Hd. cbn. destruct (load p) as [st|e] eqn:E; [done|].
  apply IH. intros s' p' Hin. apply (Hl s' p'). by right.
Qed.

Definition dir_names (d : gmap string FileData) : list string := map fst (map_to_list d).

Lemma elem_of_dir_names d n : n ∈ dir_names d <-> is_Some (d !! n).
Proof.
  unfold dir_names. rewrite list_elem_of_fmap. split.
  - intros ([n' f] & -> & Hin). apply elem_of_map_to_list in Hin. eauto.
  - intros [f Hf]. exists (n, f). split; [done|]. by apply elem_of_map_to_list.
Qed.

Lemma fs_read_dir_no_faults w : faults w = [] -> fs_read_dir w = (Ok (dir_names (dir w)), w).
Proof. intros Hf. unfold fs_read_dir, next_fault. by rewrite Hf. Qed.

(** A name whose number is above all others heads the list. *)
Lemma snap_head names seq :
  in_i64 seq = true -> snap_name seq ∈ names ->
  (forall n s, n ∈ names -> parse_snap_seq n = Some s -> s < seq \/ n = snap_name seq) ->
  exists rest, snap_entries names = (seq, snap_name seq) :: rest.
Proof.
  intros Hi Hin Hlt.
  assert ((seq, snap_name seq) ∈ snap_entries names) as Hmem
    by (apply elem_of_snap_entries; split; [done|by apply parse_snap_name]).
  pose proof (snap_entries_sorted names) as Hs.
  destruct (snap_entries names) as [|[s n] rest] eqn:E; [by apply elem_of_nil in Hmem|].
  exists rest. f_equal. assert ((s, n) ∈ snap_entries names) as He by (rewrite E; by left).
  apply elem_of_snap_entries in He as [Hn Hp]. destruct (Hlt n s Hn Hp) as [Hsn| ->].
  - apply elem_of_cons in Hmem as [[= -> ->]|Hmem]; [done|].
    inversion Hs as [|? ? _ Hall]; subst. rewrite Forall_forall in Hall. specialize (Hall _ Hmem). cbn in Hall. lia.
  - rewrite parse_snap_name in Hp by done. by simplify_eq.
Qed.

(** What a snapshot file loads as. *)
Definition snapshot_at (d : gmap string FileData) (name : string) : result BookState string :=
  match bytes_at d name with Some bs => decode_snapshot bs | None => Err "no such file"%string end.

Lemma load_latest_spec w :
  faults w = [] ->
  load_latest w =
  (Ok (head (omap (fun e => match snapshot_at (dir w) e.2 with Ok st => Some (st, e.1) | Err _ => None end)
    (snap_entries (dir_names (dir w))))), w).
Proof.
  intros Hf. unfold load_latest, io_bind. rewrite fs_read_dir_no_faults by done.
  apply (load_first_spec w _ (snapshot_at (dir w))); [done|].
  intros s p [Hp _]%elem_of_snap_entries. apply elem_of_dir_names in Hp as [f Hfp].
  exists (f_bytes f). unfold snapshot_at, bytes_at. by rewrite Hfp.
Qed.

(** Loading falls back over damaged snapshots: on a disk that does not
    fail it returns the newest snapshot file that passes the CRC and parses,
    with the sequence number of its name, and none if no file does. *)
Theorem load_latest_newest_valid (w : World) :
  faults w = [] ->
  exists o, load_latest w = (Ok o, w) /\
  match o with
  | Some (st, s) => exists name, parse_snap_seq name = Some s /\ snapshot_at (dir w) name = Ok st /\
      forall name' s' st', parse_snap_seq name' = Some s' -> snapshot_at (dir w) name' = Ok st' -> s' <= s
  | None => forall name s st, parse_snap_seq name = Some s -> snapshot_at (dir w) name <> Ok st
  end.
Proof.
  intros Hf. eexists. split; [by apply load_latest_spec|].
  assert (forall name s st, parse_snap_seq name = Some s -> snapshot_at (dir w) name = Ok st ->
    (s, name) ∈ snap_entries (dir_names (dir w))) as Hin.
  { intros name s st Hp Hs. apply elem_of_snap_entries. split; [|done]. apply elem_of_dir_names.
    unfold snapshot_at, bytes_at in Hs. destruct (dir w !! name); [eauto|done]. }
  pose proof (snap_entries_sorted (dir_names (dir w))) as Hsort.
  assert (forall e, e ∈ snap_entries (dir_names (dir w)) -> parse_snap_seq e.2 = Some e.1) as Hparse
    by (by intros [s n] [_ ?]%elem_of_snap_entries).
  induction Hsort as [|[s n] l Hsort IH Hall]; cbn.
  - intros name s st Hp Hs. by specialize (Hin _ _ _ Hp Hs) as ?%elem_of_nil.
  - destruct (snapshot_at (dir w) n) as [st|e] eqn:E; cbn.
    + exists n. split_and!; [apply (Hparse (s, n)); by left|done|].
      intros name' s' st' Hp' Hs'. specialize (Hin _ _ _ Hp' Hs').
      apply elem_of_cons in Hin as [[= -> ->]|Hin]; [done|]. rewrite Forall_forall in Hall. by apply (Hall _ Hin).
    + apply IH; [|intros; apply Hparse; by right].
      intros name' s' st' Hp' Hs'. specialize (Hin _ _ _ Hp' Hs').
      apply elem_of_cons in Hin as [[= -> ->]|Hin]; [congruence|done].
Qed.

(** A written snapshot, newer than the others, is the one loaded, as the
    state it was written from without its skipped fields; pruning does not
    remove it. *)
Theorem snapshot_round_trip (w : World) (st : BookState) (payload : list byte) (seq : Seq) :
  faults w = [] -> in_i64 seq = true ->
  map_Forall (fun _ a => chunked (postings a)) (accounts st) -> to_vec (state_image st) = Ok payload ->
  (forall n s, is_Some (dir w !! n) -> parse_snap_seq n = Some s -> s < seq \/ n = snap_name seq) ->
  exists w', write_snapshot st seq w = (Ok (), w') /\
    load_latest w' = (Ok (Some (forget_skipped st, seq)), w').
Proof.
  intros Hf Hi Hc Hv Hlt. unfold write_snapshot, io_bind at 1, io_lift. rewrite Hv. cbn zeta.
  set (bytes := to_le_bytes (crc32_hash payload) ++ payload).
  destruct (replace_file_no_faults (snap_tmp seq) (snap_name seq) bytes w Hf) as (w1 & Hw & Hf1).
  unfold io_bind at 1. rewrite Hw. pose proof (replace_file_Ok _ _ _ _ _ Hw) as Hb.
  assert (forall n s, is_Some (dir w1 !! n) -> parse_snap_seq n = Some s -> s < seq \/ n = snap_name seq) as Hlt1.
  { intros n s Hn Hp. destruct (decide (n = snap_name seq)) as [->|Hne]; [by right|].
    apply (Hlt n s); [|done]. assert (n <> snap_tmp seq) as Hnt by (intros ->; by rewrite parse_snap_tmp in Hp).
    pose proof (replace_file_touches (snap_tmp seq) (snap_name seq) bytes w n ltac:(tauto)) as Ht.
    rewrite Hw in Ht. unfold bytes_at in Ht. cbn in Ht. destruct Hn as [f Hn]. rewrite Hn in Ht.
    destruct (dir w !! n); [eauto|done]. }
  unfold prune_old, io_bind at 1. rewrite fs_read_dir_no_faults by done.
  destruct (snap_head (dir_names (dir w1)) seq Hi) as [rest Hrest].
  { apply elem_of_dir_names. unfold bytes_at in Hb. destruct (dir w1 !! snap_name seq); [eauto|done]. }
  { intros n s Hn. apply Hlt1. by apply elem_of_dir_names. }
  destruct (remove_each_spec (map snd (drop 2 (snap_entries (dir_names (dir w1))))) w1) as (w2 & Hrm & Hkeep & Hf2).
  rewrite Hrm. exists w2. split; [done|]. specialize (Hf2 Hf1).
  assert (snap_name seq ∉ map snd (drop 2 (snap_entries (dir_names (dir w1))))) as Hnot.
  { intros ([s n] & Hn & Hin)%list_elem_of_fmap. cbn in Hn. subst n. rewrite Hrest in Hin. cbn in Hin.
    assert (NoDup (snap_entries (dir_names (dir w1)))) as Hnd.
    { unfold snap_entries. rewrite sort_by_perm. apply NoDup_omap_names, NoDup_fst_map_to_list. }
    assert ((s, snap_name seq) ∈ snap_entries (dir_names (dir w1))) as Hin'.
    { rewrite Hrest. right. eapply subseteq_drop. exact Hin. }
    apply elem_of_snap_entries in Hin' as [_ Hp]. rewrite parse_snap_name in Hp by done. injection Hp as <-.
    rewrite Hrest in Hnd. apply NoDup_cons in Hnd as [Hnd _]. apply Hnd. eapply subseteq_drop. exact Hin. }
  assert (bytes_at (dir w2) (snap_name seq) = Some bytes) as Hb2.
  { unfold bytes_at in *. by rewrite (Hkeep _ Hnot). }
  rewrite load_latest_spec by done.
  destruct (snap_head (dir_names (dir w2)) seq Hi) as [rest2 Hrest2].
  { apply elem_of_dir_names. unfold bytes_at in Hb2. destruct (dir w2 !! snap_name seq); [eauto|done]. }
  { intros n s Hn Hp. apply (Hlt1 n s); [|done]. apply elem_of_dir_names in Hn as [f Hn].
    destruct (decide (n ∈ map snd (drop 2 (snap_entries (dir_names (dir w1)))))) as [Hd|Hd].
    - apply list_elem_of_fmap in Hd as ([s' n'] & -> & Hin). apply subseteq_drop in Hin.
      apply elem_of_snap_entries in Hin as [Hin _]. by apply elem_of_dir_names.
    - rewrite <- (Hkeep _ Hd). eauto. }
  assert (snapshot_at (dir w2) (snap_name seq) = Ok (forget_skipped st)) as Hsn.
  { unfold snapshot_at. rewrite Hb2. by apply decode_snapshot_written. }
  rewrite Hrest2. cbn -[snapshot_at snap_name]. by rewrite Hsn.
Qed.

(** Pruning removes only snapshot files with two newer (or equally new)
    ones, which it keeps, whatever removals fail. *)
Theorem prune_keeps_two_newest (w w' : World) r name :
  prune_old w = (r, w') -> is_Some (dir w !! name) -> dir w' !! name = None ->
  exists s n1 n2 s1 s2, parse_snap_seq name = Some s /\ n1 <> n2 /\
    parse_snap_seq n1 = Some s1 /\ parse_snap_seq n2 = Some s2 /\ s <= s1 /\ s <= s2 /\
    is_Some (dir w' !! n1) /\ is_Some (dir w' !! n2).
Proof.
  intros Hp Hin Hout. unfold prune_old, io_bind in Hp.
  assert ((exists e w1, fs_read_dir w = (Err e, w1) /\ dir w1 = dir w) \/
    exists w1, fs_read_dir w = (Ok (dir_names (dir w)), w1) /\ dir w1 = dir w) as [(e & w1 & E & Hd)|(w1 & E & Hd)].
  { destruct w as [d [|[k|] fs]]; [right|left|right]; unfold fs_read_dir; cbn; eauto. }
  { rewrite E in Hp. injection Hp as _ <-. rewrite Hd in Hout. rewrite Hout in Hin. by destruct Hin. }
  rewrite E in Hp. set (es := snap_entries (dir_names (dir w))) in *.
  destruct (remove_each_spec (map snd (drop 2 es)) w1) as (w2 & Hrm & Hkeep & _).
  rewrite Hrm in Hp. injection Hp as _ <-. rewrite Hd in Hkeep.
  assert (NoDup es) as Hnd.
  { unfold es, snap_entries. rewrite sort_by_perm. apply NoDup_omap_names, NoDup_fst_map_to_list. }
  pose proof (snap_entries_sorted (dir_names (dir w))) as Hs. fold es in Hs.
  assert (forall e, e ∈ es -> is_Some (dir w !! e.2) /\ parse_snap_seq e.2 = Some e.1) as Hmem.
  { intros [s n] [Hn Hps]%elem_of_snap_entries. split; [by apply elem_of_dir_names|done]. }
  destruct (decide (name ∈ map snd (drop 2 es))) as [Hdrop|Hdrop]; [|rewrite Hkeep, Hout in *; by destruct Hin].
  apply list_elem_of_fmap in Hdrop as ([s n] & -> & Hdrop).
  destruct es as [|[s1 n1] [|[s2 n2] es']] eqn:Ees; [by apply elem_of_nil in Hdrop..|]. cbn [drop] in Hdrop, Hkeep. rewrite drop_0 in Hdrop, Hkeep.
  apply NoDup_cons in Hnd as [Hn1 Hnd]. apply NoDup_cons in Hnd as [Hn2 Hnd].
  inversion Hs as [|? ? Hs' Hall1]; subst. inversion Hs' as [|? ? _ Hall2]; subst.
  rewrite Forall_forall in Hall1, Hall2.
  destruct (Hmem (s1, n1)) as [Hd1 Hp1]; [by left|]. destruct (Hmem (s2, n2)) as [Hd2 Hp2]; [by right; left|].
  destruct (Hmem (s, n)) as [_ Hps]; [by right; right|]. cbn in *.
  assert (forall s0 n0, parse_snap_seq n0 = Some s0 -> (s0, n0) ∉ es' -> n0 ∉ map snd es') as Hfresh.
  { intros s0 n0 Hp0 Hni ([s' n'] & -> & Hin')%list_elem_of_fmap. apply Hni. cbn in *.
    destruct (Hmem (s', n')) as [_ Hp']; [by right; right|]. cbn in Hp'. by simplify_eq. }
  exists s, n1, n2, s1, s2. split_and!; try done.
  - intros ->. rewrite Hp1 in Hp2. injection Hp2 as ->. apply Hn1. by left.
  - apply (Hall1 (s, n)). by right.
  - by apply (Hall2 (s, n)).
  - rewrite Hkeep; [done|]. apply (Hfresh s1); [done|]. intros ?. apply Hn1. by right.
  - rewrite Hkeep; [done|]. by apply (Hfresh s2).
Qed.
End snapshot_lemmas.

(** ** A concrete snapshot *)

#[export] Instance PostingEntry_countable : Countable PostingEntry.
Proof.
  refine (inj_countable'
    (fun e => (e_seq e, e_at e, e_txid e, e_minor e, match e_direction e with Debit => true | Credit => false end, e_raw_after e))
    (fun '(s, a, t, m, d, r) => mkPostingEntry s a t m (if d then Debit else Credit) r) _).
  by intros [????[]?].
Defined.

(** An account image as a tuple, with the kind and the side as codes. *)
Definition account_tuple (a : AccountImage) :=
  (acct_book (acct_id (ai_def a)), acct_path (acct_id (ai_def a)), acct_asset (ai_def a),
   AccountKind_as_str (acct_kind (ai_def a)),
   Direction_as_str <$> normal_side (ai_cfg a), min_balance (ai_cfg a),
   ai_raw a, ai_updated a, ai_postings a).

Definition tuple_account '(b, p, s, k, d, m, r, u, ps) : AccountImage :=
  mkAccountImage (mkAccountDef (mkAccountId b p) s (default Asset (AccountKind_from_db k)))
    (mkAccountCfg (d ≫= Direction_from_db) m) r u ps.

#[export] Instance AccountImage_eq_dec : EqDecision AccountImage.
Proof. solve_decision. Defined.
#[export] Instance AccountImage_countable : Countable AccountImage.
Proof.
  refine (inj_countable' account_tuple tuple_account _).
  by intros [[[] ? []] [[[]|] ?] ???].
Defined.

#[export] Instance StateImage_eq_dec : EqDecision StateImage.
Proof. solve_decision. Defined.
#[export] Instance StateImage_countable : Countable StateImage.
Proof.
  refine (inj_countable'
    (fun i => (si_next_seq i, si_accounts i, si_hot i, si_order i, si_cap i, si_txids i, si_sums i, si_last_at i))
    (fun '(n, a, h, o, c, t, s, l) => mkStateImage n a h o c t s l) _).
  by intros [].
Defined.

Section snapshot_demo.
#[local] Instance demo_crc : Crc32 := sum_crc32.
#[local] Instance demo_crc_laws : Crc32Laws := sum_crc32_laws.
#[local] Instance demo_image_json : Json StateImage := CountableJson StateImage.
#[local] Instance demo_image_json_laws : JsonLaws StateImage := CountableJson_laws StateImage.

(** A directory with a damaged snapshot 9 and two others. *)
Definition snap_dir : gmap string FileData :=
  {[ snap_name 9 := mkFile [x00; x01] 2 true;
     snap_name 2 := mkFile [x00] 1 true;
     snap_name 1 := mkFile [x00] 1 true ]}.

Lemma demo_book_chunked : map_Forall (fun _ a => chunked (postings a)) (accounts demo_book).
Proof. intros k a Hk. apply (aw_chunked _ _ _ _ (bw_accounts _ demo_book_wf k a Hk)). Qed.

Lemma snapshot_round_trip_witness :
  exists w', write_snapshot demo_book 12 (mkWorld snap_dir []) = (Ok (), w') /\
    load_latest w' = (Ok (Some (forget_skipped demo_book, 12)), w').
Proof.
  apply (snapshot_round_trip (mkWorld snap_dir []) demo_book
    (match to_vec (state_image demo_book) with Ok b => b | Err _ => [] end) 12 eq_refl eq_refl demo_book_chunked).
  - reflexivity.
  - intros n s [f Hn] Hp. left. cbn [dir] in Hn. unfold snap_dir in Hn.
    apply lookup_insert_Some in Hn as [[<- _]|[_ [[<- _]|[_ [<- _]%lookup_singleton_Some]]%lookup_insert_Some]];
      vm_compute in Hp; injection Hp as <-; reflexivity.
Defined.

(** A directory with broken snapshots only: the loader takes none of them. *)
Lemma load_latest_newest_valid_witness :
  exists o, load_latest (mkWorld snap_dir []) = (Ok o, mkWorld snap_dir []) /\ o = None.
Proof.
  destruct (load_latest_newest_valid (mkWorld snap_dir []) eq_refl) as (o & Ho & Hspec).
  exists o. split; [exact Ho|]. vm_compute in Ho. by injection Ho as <-.
Defined.

(** Snapshot 1 goes: 2 and 9 are newer (and 12 is newest). *)
Lemma prune_keeps_two_newest_witness :
  exists s n1 n2 s1 s2, parse_snap_seq (snap_name 1) = Some s /\ n1 <> n2 /\
    parse_snap_seq n1 = Some s1 /\ parse_snap_seq n2 = Some s2 /\ s <= s1 /\ s <= s2 /\
    is_Some (dir (prune_old (mkWorld snap_dir [])).2 !! n1) /\ is_Some (dir (prune_old (mkWorld snap_dir [])).2 !! n2).
Proof.
  apply (prune_keeps_two_newest (mkWorld snap_dir []) (prune_old (mkWorld snap_dir [])).2
    (prune_old (mkWorld snap_dir [])).1 (snap_name 1)).
  - apply surjective_pairing.
  - vm_compute. eauto.
  - vm_compute. reflexivity.
Defined.
End snapshot_demo.
