(* ===== verification/Writer.v ===== *)
(** The single writer of one book, talea-store-log/src/writer.rs: jobs are
    drained in batches; a batch is classified against the state and the
    batch overlay, the accepted writes are appended and synced once, applied,
    and only then answered.

    [run_batch] is one turn of [run_loop]'s loop.  An [Err] of it is the
    writer exiting: every reply channel of the batch is dropped unanswered
    ([io_kill_batch]).  The answers of a turn are paired with the index of the
    job they answer.  The clock is a stream of readings, in no particular
    order; the snapshot the periodic trigger hands to a background task is
    returned, not run. *)

From S2P Require Import Prelude Decimal Core Bloom Disk PostingIndex Idem BookState Frame Replay Segment Snapshot.
Open Scope Z_scope.

Inductive Job :=
| JCommit (tx : Transaction)
| JOpenAccount (def : AccountDef) (cfg : AccountCfg)
| JRegisterAsset (def : AssetDef)
| JSnapshot.

Inductive Answer :=
| AnsCommitted (r : result Committed StoreError)
| AnsUnit (r : result unit StoreError).

Inductive Reply :=
| Dup (idx : nat) (rec : CommittedRec)
| DupInBatch (job_idx staged_slot : nat)
| Reject (idx : nat) (e : StoreError)
| OpenExistsOk (idx : nat)
| StagedReply (staged_slot : nat).

Record Staged := mkStaged { job_idx : nat; wire : WireEvent; pos : Seq * nat }.

Record BookWriter := mkBookWriter {
  wr_state : BookState;
  wr_segments : SegmentSet;
  events_since_snap : Z
}.

(** What classification threads through the jobs of a batch. *)
Record Batch := mkBatch {
  b_replies : list Reply;
  b_staged : list Staged;
  b_scratch : Scratch;
  b_snaps : list nat;
  b_at : DateTime;
  b_seq : Seq;
  b_tick : nat
}.

Definition encode_message (e : EncodeError) : string :=
  match e with EncodeJson m => m | TooLarge _ => "event payload exceeds the u32 frame length limit" end.

(** [1. Drain up to batch_max jobs]: the first job, then what is there. *)
Definition drain_jobs (batch_max : nat) (queue : list Job) : list Job * list Job :=
  match queue with
  | [] => ([], [])
  | first :: rest => (first :: take (batch_max - 1) rest, drop (batch_max - 1) rest)
  end.

Section writer.
Context `{HashIter} `{KeyHashes} `{Crc32} `{Json (list Pair)} `{Json WireEvent} `{Json StateImage}.

(** ** Phase 2a and 2b: keys that may be in a run, looked up on disk *)

Definition bloom_positive_keys (st : BookState) (jobs : list Job) : list string :=
  omap (fun job =>
    match job with
    | JCommit tx =>
        match get_hot (idem st) (tx_idem tx) with
        | None => if bloom_might_contain (idem st) (tx_idem tx) then Some (tx_idem tx) else None
        | Some _ => None
        end
    | _ => None
    end) jobs.

Fixpoint resolve_disk (st : BookState) (ks : list string) (resolved : gmap string CommittedRec) :
    io (gmap string CommittedRec) :=
  match ks with
  | [] => io_ret resolved
  | key :: ks =>
      match get_hot (idem st) key with
      | Some rec => resolve_disk st ks (<[key := rec]> resolved)
      | None =>
          let t := with_cap 1 in
          let tmp_tiered := mkTieredIdem (hot t) (order t) (cap t) (runs (idem st)) (bloom t) in
          let! r := lookup_runs tmp_tiered key in
          resolve_disk st ks (match r with Some rec => <[key := rec]> resolved | None => resolved end)
      end
  end.

(** ** Phase 2c: classification *)

Definition add_reply (b : Batch) (r : Reply) : Batch :=
  mkBatch (b_replies b ++ [r]) (b_staged b) (b_scratch b) (b_snaps b) (b_at b) (b_seq b) (b_tick b).

(** Accept a write: advance [at] past the clock, take the next sequence
    number, push the staged entry and its reply. *)
Definition stage_event (clock : nat -> DateTime) (idx : nat) (ev : LedgerEvent) (sc : Scratch) (b : Batch) : Batch :=
  let at_ := Z.max (b_at b) (clock (b_tick b)) in
  let staged_slot := length (b_staged b) in
  mkBatch (b_replies b ++ [StagedReply staged_slot])
    (b_staged b ++ [mkStaged idx (mkWireEvent (b_seq b) at_ ev) (0, 0%nat)])
    sc (b_snaps b) at_ (b_seq b + 1) (S (b_tick b)).

Definition with_scratch (b : Batch) (sc : Scratch) : Batch :=
  mkBatch (b_replies b) (b_staged b) sc (b_snaps b) (b_at b) (b_seq b) (b_tick b).

Definition classify_commit (st : BookState) (disk : gmap string CommittedRec) (clock : nat -> DateTime)
    (idx : nat) (tx : Transaction) (b : Batch) : result Batch string :=
  let idem_key := tx_idem tx in
  let committed_rec :=
    match get_hot (idem st) idem_key with Some rec => Some rec | None => disk !! idem_key end in
  match committed_rec with
  | Some rec => Ok (add_reply b (Dup idx rec))
  | None =>
      match scratch_idem (b_scratch b) !! idem_key with
      | Some staged_slot => Ok (add_reply b (DupInBatch idx staged_slot))
      | None =>
          let '(sc, v) := validate st tx (b_scratch b) in
          match v with
          | Err e => Ok (add_reply (with_scratch b sc) (Reject idx e))
          | Ok _ =>
              let? sc' := stage sc tx in
              let slot := length (b_staged b) in
              Ok (stage_event clock idx (TransactionPosted tx)
                    (mkScratch (raw sc') (<[idem_key := slot]> (scratch_idem sc'))) b)
          end
      end
  end.

Definition classify_open (st : BookState) (clock : nat -> DateTime) (idx : nat)
    (def : AccountDef) (cfg : AccountCfg) (b : Batch) : Batch :=
  let key := to_key (acct_id def) in
  match accounts st !! key with
  | Some existing =>
      if bool_decide (as_def existing = def) && bool_decide (as_cfg existing = cfg)
      then add_reply b (OpenExistsOk idx)
      else add_reply b (Reject idx (AlreadyExists ("account " +:+ key)))
  | None => stage_event clock idx (AccountOpened def cfg) (b_scratch b) b
  end.

Definition classify_job (st : BookState) (disk : gmap string CommittedRec) (clock : nat -> DateTime)
    (idx : nat) (job : Job) (b : Batch) : result Batch string :=
  match job with
  | JCommit tx => classify_commit st disk clock idx tx b
  | JOpenAccount def cfg => Ok (classify_open st clock idx def cfg b)
  | JRegisterAsset def => Ok (stage_event clock idx (AssetRegistered def) (b_scratch b) b)
  | JSnapshot =>
      Ok (mkBatch (b_replies b) (b_staged b) (b_scratch b) (b_snaps b ++ [idx]) (b_at b) (b_seq b) (b_tick b))
  end.

Fixpoint classify (st : BookState) (disk : gmap string CommittedRec) (clock : nat -> DateTime)
    (idx : nat) (jobs : list Job) (b : Batch) : result Batch string :=
  match jobs with
  | [] => Ok b
  | job :: jobs =>
      let? b' := classify_job st disk clock idx job b in
      classify st disk clock (S idx) jobs b'
  end.

Definition start_batch (st : BookState) (clock : nat -> DateTime) : Batch :=
  mkBatch [] [] Scratch_default [] (Z.max (clock 0%nat) (default 0 (last_at st))) (next_seq st) 1.

(** ** Phases 3 and 4: write and sync *)

Fixpoint write_staged (s : SegmentSet) (staged : list Staged) : io (SegmentSet * list Staged) :=
  match staged with
  | [] => io_ret (s, [])
  | e :: staged =>
      let! frame_bytes := io_lift (map_err encode_message (encode_frame (wire e))) in
      let! s := maybe_rotate s (w_seq (wire e)) in
      let p := next_pos s in
      let! s := append s frame_bytes in
      let! (s, rest) := write_staged s staged in
      io_ret (s, mkStaged (job_idx e) (wire e) p :: rest)
  end.

Definition write_batch (s : SegmentSet) (staged : list Staged) : io (SegmentSet * list Staged) :=
  match staged with
  | [] => io_ret (s, [])
  | _ =>
      let! (s, staged) := write_staged s staged in
      let! _ := sync s in
      io_ret (s, staged)
  end.

(** ** Phase 5: apply, and spill if the hot map is over capacity *)

Fixpoint apply_staged (st : BookState) (staged : list Staged) : result BookState string :=
  match staged with
  | [] => Ok st
  | e :: staged => let? st' := apply_event st (wire e) (pos e) in apply_staged st' staged
  end.

Definition flush_if_needed (st : BookState) : io BookState :=
  if needs_flush (idem st) then
    let! t := flush_spill (idem st) in
    io_ret (set_idem st t)
  else io_ret st.

(** ** Phase 6: replies and events *)

Definition staged_committed (e : Staged) : Committed :=
  mkCommitted (match w_event (wire e) with TransactionPosted tx => tx_id tx | _ => 0 end)
    (w_seq (wire e)) (w_at (wire e)).

Definition answer_of (jobs : list Job) (staged : list Staged) (r : Reply) : option (nat * Answer) :=
  match r with
  | StagedReply slot =>
      e ← staged !! slot;
      job ← jobs !! job_idx e;
      match job with
      | JCommit tx => Some (job_idx e, AnsCommitted (Ok (mkCommitted (tx_id tx) (w_seq (wire e)) (w_at (wire e)))))
      | JOpenAccount _ _ | JRegisterAsset _ => Some (job_idx e, AnsUnit (Ok ()))
      | JSnapshot => None  (* unreachable *)
      end
  | Dup idx rec =>
      match jobs !! idx with
      | Some (JCommit _) => Some (idx, AnsCommitted (Ok (to_committed rec)))
      | _ => None
      end
  | DupInBatch idx slot =>
      e ← staged !! slot;
      match jobs !! idx with
      | Some (JCommit _) => Some (idx, AnsCommitted (Ok (staged_committed e)))
      | _ => None
      end
  | OpenExistsOk idx =>
      match jobs !! idx with
      | Some (JOpenAccount _ _) => Some (idx, AnsUnit (Ok ()))
      | _ => None
      end
  | Reject idx e =>
      match jobs !! idx with
      | Some (JCommit _) => Some (idx, AnsCommitted (Err e))
      | Some _ => Some (idx, AnsUnit (Err e))
      | None => None
      end
  end.

(** Broadcast of the staged events, in the order of their replies. *)
Definition event_of (staged : list Staged) (r : Reply) : option (Sequenced LedgerEvent) :=
  match r with
  | StagedReply slot => e ← staged !! slot; Some (mkSequenced (w_seq (wire e)) (w_at (wire e)) (w_event (wire e)))
  | _ => None
  end.

(** ** Phase 6.5: snapshots *)

Definition explicit_snapshot (st : BookState) : io (result unit string) :=
  let snap_seq := next_seq st - 1 in
  if 0 <? snap_seq then io_try (write_snapshot st snap_seq) else io_ret (Ok ()).

(** One snapshot answers every [Job::Snapshot] of the batch. *)
Definition snapshot_jobs (st : BookState) (snap_job_idxs : list nat) : io (list (nat * Answer)) :=
  match snap_job_idxs with
  | [] => io_ret []
  | _ =>
      let! r := explicit_snapshot st in
      io_ret (map (fun idx => (idx, AnsUnit (map_err Io r))) snap_job_idxs)
  end.

Record BatchResult := mkBatchResult {
  br_writer : BookWriter;
  br_answers : list (nat * Answer);
  br_events : list (Sequenced LedgerEvent);
  br_background : option (BookState * Seq)
}.

(** From the write phase on. *)
Definition finish_batch (snapshot_every : Z) (snap_inflight : bool) (wr : BookWriter) (jobs : list Job) (b : Batch) :
    io BatchResult :=
  let! (segs, staged) := write_batch (wr_segments wr) (b_staged b) in
  let applied_count := Z.of_nat (length staged) in
  let! st := io_lift (apply_staged (wr_state wr) staged) in
  let! st := flush_if_needed st in
  let answers := omap (answer_of jobs staged) (b_replies b) in
  let events := omap (event_of staged) (b_replies b) in
  let counting := (0 <? snapshot_every) && (0 <? applied_count) in
  let since := if counting then events_since_snap wr + applied_count else events_since_snap wr in
  let hit_periodic := counting && (snapshot_every <=? since) in
  let! snap_answers := snapshot_jobs st (b_snaps b) in
  let snap_seq := next_seq st - 1 in
  let spawned := hit_periodic && negb snap_inflight && (0 <? snap_seq) in
  io_ret (mkBatchResult
    (mkBookWriter st segs (if spawned then 0 else since))
    (answers ++ snap_answers) events
    (if spawned then Some (st, snap_seq) else None)).

Definition run_batch (clock : nat -> DateTime) (snapshot_every : Z) (snap_inflight : bool)
    (wr : BookWriter) (jobs : list Job) : io BatchResult :=
  let st := wr_state wr in
  let! disk_resolved := resolve_disk st (bloom_positive_keys st jobs) ∅ in
  let! b := io_lift (classify st disk_resolved clock 0 jobs (start_batch st clock)) in
  finish_batch snapshot_every snap_inflight wr jobs b.

(** The loop, over the jobs that will arrive, with the answers of each batch
    and the events it broadcasts.
    It ends when the senders are gone (the queue is empty) or at a fatal
    error, where the batch's reply channels are dropped ([io_kill_batch]) and
    no writer is left.  [inflight] says when a background snapshot is still
    running.  The fuel bounds the batches; a batch takes at least one job, so
    as many as there are jobs are enough. *)
Fixpoint run_loop (fuel : nat) (clock : nat -> nat -> DateTime) (inflight : nat -> bool) (batch_max : nat)
    (snapshot_every : Z) (wr : BookWriter) (queue : list Job) : io (option BookWriter * list (list (nat * Answer) * list (Sequenced LedgerEvent))) :=
  match fuel, queue with
  | S fuel, _ :: _ =>
      let '(jobs, rest) := drain_jobs batch_max queue in
      let! r := io_try (run_batch (clock fuel) snapshot_every (inflight fuel) wr jobs) in
      match r with
      | Err _ => io_ret (None, [])
      | Ok br =>
          let! (last_wr, out) := run_loop fuel clock inflight batch_max snapshot_every (br_writer br) rest in
          io_ret (last_wr, (br_answers br, br_events br) :: out)
      end
  | _, _ => io_ret (Some wr, [])
  end.

(** Opening a writer over a replayed state. *)
Definition spawn (segment_max : Z) (st : BookState) : io BookWriter :=
  let! segments := open_with_max segment_max in
  io_ret (mkBookWriter st segments 0).
End writer.
