(* ===== verification/WriterBatch.v ===== *)
(** What classification (phases 2a to 2c of talea-store-log/src/writer.rs)
    does to the jobs of a batch: the invariant of its loop, and what it says of
    the answers.  The committed keys are a parameter here, a map [M] that the
    lookups agree with. *)

From S2P Require Import Prelude Decimal Core Bloom Disk PostingIndex Idem BookState Frame Replay Segment Snapshot Writer.
Open Scope Z_scope.

Definition wires (b : Batch) : list WireEvent := map wire (b_staged b).

(** A commit's key, as classification looks it up. *)
Definition committed_lookup (st : BookState) (disk : gmap string CommittedRec) (k : string) : option CommittedRec :=
  match get_hot (idem st) k with Some rec => Some rec | None => disk !! k end.

(** The event a job asks for. *)
Definition job_event (job : Job) : option LedgerEvent :=
  match job with
  | JCommit tx => Some (TransactionPosted tx)
  | JOpenAccount def cfg => Some (AccountOpened def cfg)
  | JRegisterAsset def => Some (AssetRegistered def)
  | JSnapshot => None
  end.

(** An event as it is broadcast. *)
Definition sequenced (w : WireEvent) : Sequenced LedgerEvent := mkSequenced (w_seq w) (w_at w) (w_event w).

Section batch_inv.
Context `{HashIterLaws}.

(** What an answer may be, given the state [st] and the keys [M] before the
    batch and the events [evs] the batch wrote: success with the record the
    ledger now has for the key; a rejection that validation gave on the
    events accepted before; an account that is open with that definition,
    now or before; a conflict with one that is open. *)
Definition answer_right (st : BookState) (M : gmap string CommittedRec) (evs : list WireEvent)
    (job : Job) (a : Answer) : Prop :=
  match job, a with
  | JCommit tx, AnsCommitted (Ok c) =>
      exists rec, foldl idem_step M evs !! tx_idem tx = Some rec /\ c = to_committed rec
  | JCommit tx, AnsCommitted (Err e) =>
      M !! tx_idem tx = None /\
      exists n sc, (n <= length evs)%nat /\ reached st (take n evs) sc /\ (validate st tx sc).2 = Err e
  | JOpenAccount def cfg, AnsUnit (Ok _) =>
      (exists acct, accounts st !! to_key (acct_id def) = Some acct /\ as_def acct = def /\ as_cfg acct = cfg) \/
      (exists ev, ev ∈ evs /\ w_event ev = AccountOpened def cfg)
  | JOpenAccount def cfg, AnsUnit (Err e) =>
      e = AlreadyExists ("account " +:+ to_key (acct_id def)) /\
      exists acct, accounts st !! to_key (acct_id def) = Some acct /\ (as_def acct, as_cfg acct) <> (def, cfg)
  | JRegisterAsset def, AnsUnit (Ok _) => exists ev, ev ∈ evs /\ w_event ev = AssetRegistered def
  | JSnapshot, AnsUnit _ => True
  | _, _ => False
  end.

Definition slot_ok (staged : list Staged) (r : Reply) : Prop :=
  match r with
  | StagedReply s | DupInBatch _ s => (s < length staged)%nat
  | _ => True
  end.

(** After the first [n] jobs. *)
Record batch_inv (st : BookState) (M : gmap string CommittedRec) (jobs : list Job) (n : nat) (b : Batch) : Prop := {
  bi_reached : reached st (wires b) (b_scratch b);
  bi_gapless : gapless (next_seq st) (wires b);
  bi_seq : b_seq b = next_seq st + Z.of_nat (length (b_staged b));
  bi_stamped : stamped (last_at st) (wires b);
  bi_at : Forall (fun ev => w_at ev <= b_at b) (wires b);
  bi_floor : forall t, last_at st = Some t -> t <= b_at b;
  bi_fresh : fresh_keys M (wires b);
  bi_slot : forall k slot, scratch_idem (b_scratch b) !! k = Some slot ->
    exists e tx, b_staged b !! slot = Some e /\ w_event (wire e) = TransactionPosted tx /\ tx_idem tx = k;
  bi_none : forall k, scratch_idem (b_scratch b) !! k = None -> foldl idem_step M (wires b) !! k = M !! k;
  bi_jobs : forall e, e ∈ b_staged b -> exists job, jobs !! job_idx e = Some job /\ job_event job = Some (w_event (wire e));
  bi_slots : Forall (slot_ok (b_staged b)) (b_replies b);
  bi_once : map fst (omap (answer_of jobs (b_staged b)) (b_replies b)) ++ b_snaps b ≡ₚ seq 0 n;
  bi_right : forall i a, (i, a) ∈ omap (answer_of jobs (b_staged b)) (b_replies b) ->
    exists job, jobs !! i = Some job /\ answer_right st M (wires b) job a;
  bi_snaps : forall i, i ∈ b_snaps b -> jobs !! i = Some JSnapshot;
  bi_events : omap (event_of (b_staged b)) (b_replies b) = map sequenced (wires b)
}.
End batch_inv.

Section classify.
Context `{HashIterLaws}.
Variable st : BookState.
Variable M disk : gmap string CommittedRec.
Variable clock : nat -> DateTime.
Variable jobs : list Job.

Lemma answer_of_more staged e r :
  slot_ok staged r -> answer_of jobs (staged ++ [e]) r = answer_of jobs staged r.
Proof. destruct r as [| | | |]; cbn; try done; intros Hs; by rewrite lookup_app_l. Qed.

Lemma answers_more staged e rs :
  Forall (slot_ok staged) rs -> omap (answer_of jobs (staged ++ [e])) rs = omap (answer_of jobs staged) rs.
Proof. induction 1 as [|r rs Hr _ IH]; cbn; [done|]. by rewrite answer_of_more, IH. Qed.

Lemma events_more staged e rs :
  Forall (slot_ok staged) rs -> omap (event_of (staged ++ [e])) rs = omap (event_of staged) rs.
Proof.
  induction 1 as [|r rs Hr _ IH]; cbn; [done|]. rewrite IH. destruct r; cbn; try done. by rewrite lookup_app_l.
Qed.

Lemma slot_ok_more staged e r : slot_ok staged r -> slot_ok (staged ++ [e]) r.
Proof. destruct r; cbn; rewrite ?length_app; lia || done. Qed.

Lemma answer_right_more evs ev job a :
  (forall k v, event_pair ev = Some (k, v) -> foldl idem_step M evs !! k = None) ->
  answer_right st M evs job a -> answer_right st M (evs ++ [ev]) job a.
Proof.
  intros Hf. destruct job, a as [[|]|[|]]; cbn; try done.
  - intros (rec & Hr & ->). exists rec. split; [|done]. rewrite foldl_app. cbn. by apply idem_step_keep.
  - intros (? & n & sc & Hn & Hr & Hv). split; [done|]. exists n, sc. rewrite length_app, take_app_le by done.
    split_and!; [lia|done..].
  - intros [?|(e & ? & ?)]; [by left|]. right. exists e. split; [|done]. apply elem_of_app. by left.
  - intros (e & ? & ?). exists e. split; [|done]. apply elem_of_app. by left.
Qed.

(** A reply to the next job that stages nothing. *)
Lemma inv_reply n b r job a sc :
  batch_inv st M jobs n b -> jobs !! n = Some job ->
  answer_of jobs (b_staged b) r = Some (n, a) -> event_of (b_staged b) r = None -> slot_ok (b_staged b) r ->
  answer_right st M (wires b) job a ->
  (forall k, current (accounts st) sc k = current (accounts st) (b_scratch b) k) ->
  scratch_idem sc = scratch_idem (b_scratch b) ->
  batch_inv st M jobs (S n) (add_reply (with_scratch b sc) r).
Proof.
  intros [] Hj Ha He Hs Hr Hc Hi. unfold wires in *.
  split; cbn [add_reply with_scratch b_replies b_staged b_scratch b_snaps b_at b_seq b_tick];
    try done; try (by rewrite Hi).
  - by eapply reached_skip.
  - apply Forall_app. split; [done|]. by constructor.
  - rewrite omap_app, seq_S. cbn [omap list_omap]. rewrite Ha, map_app. cbn [map fst Nat.add].
    rewrite <- app_assoc, (Permutation_app_comm [n]), app_assoc. by apply Permutation_app_tail.
  - intros i a'. rewrite omap_app, elem_of_app. cbn. rewrite Ha. intros [?|[= -> ->]%list_elem_of_singleton]; eauto.
  - rewrite omap_app. cbn [omap list_omap]. by rewrite He, app_nil_r.
Qed.

Lemma inv_same_reply n b r job a :
  batch_inv st M jobs n b -> jobs !! n = Some job ->
  answer_of jobs (b_staged b) r = Some (n, a) -> event_of (b_staged b) r = None -> slot_ok (b_staged b) r ->
  answer_right st M (wires b) job a -> batch_inv st M jobs (S n) (add_reply b r).
Proof. intros Hinv. intros. apply (inv_reply n b r job a (b_scratch b) Hinv); done. Qed.

(** Staging the event of the next job. *)
Lemma inv_stage n b job ev sc :
  batch_inv st M jobs n b -> jobs !! n = Some job -> job_event job = Some ev ->
  (forall w, w_event w = ev -> reached st (wires b ++ [w]) sc) ->
  (forall k, scratch_idem sc !! k = match job with
     | JCommit tx => if decide (k = tx_idem tx) then Some (length (b_staged b)) else scratch_idem (b_scratch b) !! k
     | _ => scratch_idem (b_scratch b) !! k end) ->
  (forall tx, job = JCommit tx -> M !! tx_idem tx = None /\ scratch_idem (b_scratch b) !! tx_idem tx = None) ->
  batch_inv st M jobs (S n) (stage_event clock n ev sc b).
Proof.
  intros Hinv Hj Hev Hreach Hidem Hnew.
  set (at_ := Z.max (b_at b) (clock (b_tick b))). set (w := mkWireEvent (b_seq b) at_ ev).
  set (e := mkStaged n w (0, 0%nat)).
  assert (wires (stage_event clock n ev sc b) = wires b ++ [w]) as Hw by (unfold wires; cbn; by rewrite map_app).
  assert (forall k v, event_pair w = Some (k, v) -> foldl idem_step M (wires b) !! k = None /\
    exists tx, job = JCommit tx /\ k = tx_idem tx) as Hfresh.
  { intros k v. unfold event_pair. cbn. destruct ev as [| |tx]; [done..|]. intros [= <- <-].
    destruct job as [tx'| | |]; try done. injection Hev as ->. destruct (Hnew tx eq_refl) as [HM Hsc].
    split; [|by eexists]. by rewrite (bi_none _ _ _ _ _ Hinv). }
  assert (fresh_keys M (wires b ++ [w])) as Hfk.
  { apply fresh_keys_snoc; [apply (bi_fresh _ _ _ _ _ Hinv)|]. intros k v Hp. by apply (Hfresh k v). }
  assert (Forall (fun x => w_at x <= at_) (wires b)) as Hle.
  { eapply Forall_impl; [apply (bi_at _ _ _ _ _ Hinv)|]. intros x Hx. cbn in *. lia. }
  assert (forall t, last_at st = Some t -> t <= at_) as Hfl.
  { intros t Ht. pose proof (bi_floor _ _ _ _ _ Hinv t Ht). lia. }
  assert (exists a, answer_of jobs (b_staged b ++ [e]) (StagedReply (length (b_staged b))) = Some (n, a) /\
    answer_right st M (wires b ++ [w]) job a) as (a & Ha & Hright).
  { cbn. rewrite list_lookup_middle by done. cbn. rewrite Hj. cbn. destruct job as [tx|def cfg|def|]; try done.
    - injection Hev as <-. eexists. split; [done|]. cbn.
      exists (mkCommittedRec (tx_id tx) (b_seq b) at_). split; [|done].
      apply (fresh_keys_own _ _ (length (wires b)) w); [done| |done]. by rewrite list_lookup_middle.
    - injection Hev as <-. eexists. split; [done|]. cbn. right. exists w. split; [|done]. apply elem_of_app. right. by left.
    - injection Hev as <-. eexists. split; [done|]. cbn. exists w. split; [|done]. apply elem_of_app. right. by left. }
  destruct Hinv. split; rewrite ?Hw; cbn [stage_event b_replies b_staged b_scratch b_snaps b_at b_seq b_tick];
    fold at_; fold w; fold e.
  - by apply Hreach.
  - apply gapless_snoc; [done|]. cbn. unfold wires. by rewrite length_map.
  - rewrite length_app. cbn. lia.
  - by apply stamped_snoc.
  - apply Forall_app. split; [done|]. by repeat constructor.
  - done.
  - done.
  - intros k slot Hk. rewrite Hidem in Hk.
    assert (scratch_idem (b_scratch b) !! k = Some slot -> exists e0 tx, (b_staged b ++ [e]) !! slot = Some e0 /\
      w_event (wire e0) = TransactionPosted tx /\ tx_idem tx = k) as Hold.
    { intros Hk'. destruct (bi_slot0 _ _ Hk') as (e0 & tx0 & He0 & ? & ?). exists e0, tx0.
      split; [|done]. rewrite lookup_app_l; [done|]. by eapply lookup_lt_Some. }
    destruct job as [tx|def cfg|def|]; auto. case_decide as Hd; [|auto]. injection Hk as <-.
    exists e, tx. rewrite list_lookup_middle by done. cbn. injection Hev as <-. by split_and!.
  - intros k Hk. rewrite foldl_app. cbn. unfold idem_step. rewrite Hidem in Hk.
    destruct (event_pair w) as [[k' v']|] eqn:Ep.
    + destruct (Hfresh _ _ eq_refl) as (_ & tx & -> & ->). case_decide as Hd; [done|].
      rewrite lookup_insert_ne by done. by apply bi_none0.
    + destruct job as [tx|def cfg|def|]; auto. case_decide; [done|auto].
  - intros e0 [He0| ->%list_elem_of_singleton]%elem_of_app; [by apply bi_jobs0|]. exists job. by split.
  - apply Forall_app. split; [eapply Forall_impl; [exact bi_slots0|]; intros; by apply slot_ok_more|].
    constructor; [|constructor]. cbn. rewrite length_app. cbn. lia.
  - rewrite omap_app, answers_more by done. cbn [omap list_omap]. rewrite Ha, map_app, seq_S. cbn [map fst Nat.add].
    rewrite <- app_assoc, (Permutation_app_comm [n]), app_assoc. by apply Permutation_app_tail.
  - intros i a'. rewrite omap_app, answers_more by done. cbn [omap list_omap]. rewrite Ha.
    intros [Hi|[= -> ->]%list_elem_of_singleton]%elem_of_app; [|eauto].
    destruct (bi_right0 _ _ Hi) as (job' & ? & ?). exists job'. split; [done|].
    apply answer_right_more; [|done]. intros k v Hp. by apply (Hfresh k v).
  - done.
  - rewrite omap_app, events_more by done. cbn [omap list_omap event_of]. rewrite list_lookup_middle by done.
    cbn. by rewrite bi_events0, map_app.
Qed.

Lemma inv_start : batch_inv st M jobs 0 (start_batch st clock).
Proof.
  split; cbn; try done; try constructor.
  - lia.
  - intros t ->. cbn. lia.
  - intros l e r k v ?. by destruct l.
  - by intros e ?%elem_of_nil.
  - by intros i a ?%elem_of_nil.
  - by intros i ?%elem_of_nil.
Qed.

Lemma stage_scratch sc tx sc2 : stage sc tx = Ok sc2 -> scratch_idem sc2 = scratch_idem sc.
Proof. unfold stage. destruct (stage_postings _ _); [|done]. by intros [= <-]. Qed.

(** Classification of the next job keeps the invariant, and never fails. *)
Lemma classify_job_inv n b job :
  batch_inv st M jobs n b -> jobs !! n = Some job ->
  (forall tx, job = JCommit tx -> committed_lookup st disk (tx_idem tx) = M !! tx_idem tx) ->
  exists b', classify_job st disk clock n job b = Ok b' /\ batch_inv st M jobs (S n) b'.
Proof.
  intros Hinv Hj Hl. destruct job as [tx|def cfg|def|]; cbn [classify_job].
  - specialize (Hl tx eq_refl). unfold classify_commit. fold (committed_lookup st disk (tx_idem tx)). rewrite Hl.
    destruct (M !! tx_idem tx) as [rec|] eqn:EM.
    { eexists. split; [done|]. eapply inv_same_reply; [done|done|cbn; by rewrite Hj|done|done|]. cbn.
      exists rec. split; [|done]. apply fresh_keys_keep; [apply (bi_fresh _ _ _ _ _ Hinv)|done]. }
    destruct (scratch_idem (b_scratch b) !! tx_idem tx) as [slot|] eqn:Es.
    { destruct (bi_slot _ _ _ _ _ Hinv _ _ Es) as (e & tx0 & He & Hev & Hk).
      eexists. split; [done|]. eapply inv_same_reply; [done|done|cbn; by rewrite He; cbn; rewrite Hj|done| |].
      - cbn. by eapply lookup_lt_Some.
      - cbn. exists (mkCommittedRec (tx_id tx0) (w_seq (wire e)) (w_at (wire e))). unfold staged_committed. rewrite Hev.
        split; [|done]. rewrite <- Hk. apply (fresh_keys_own _ _ slot (wire e)).
        + apply (bi_fresh _ _ _ _ _ Hinv).
        + unfold wires. by rewrite list_lookup_fmap, He.
        + unfold event_pair. by rewrite Hev. }
    pose proof (validate_scratch st tx (b_scratch b)) as Hsc.
    assert ((forall k, current (accounts st) (validate st tx (b_scratch b)).1 k = current (accounts st) (b_scratch b) k) /\
      scratch_idem (validate st tx (b_scratch b)).1 = scratch_idem (b_scratch b)) as [Hcur Hsi].
    { destruct Hsc as [->| ->]; [done|]. split; [|done]. intros k. apply current_seeded. }
    destruct (validate st tx (b_scratch b)) as [sc v] eqn:Ev. cbn [fst] in Hcur, Hsi. destruct v as [[]|e].
    + assert ((validate st tx (b_scratch b)).2 = Ok ()) as Hv by (by rewrite Ev).
      pose proof (validate_Ok_scratch _ _ _ Hv) as Hseed. rewrite Ev in Hseed. cbn in Hseed. subst sc.
      destruct (stage_Ok st tx (b_scratch b)) as (sc' & Hst & _); [by apply validate_Ok|]. rewrite Hst.
      eexists. split; [done|]. eapply inv_stage; [done|done|done| | |].
      * intros w Hw. apply (reached_tx st (wires b) (b_scratch b) sc' _ w tx); [apply (bi_reached _ _ _ _ _ Hinv)|done| |done|done].
        by rewrite Ev.
      * intros k. cbn. apply stage_scratch in Hst. rewrite Hst, Hsi. case_decide as Hd.
        -- subst. by rewrite lookup_insert_eq.
        -- by rewrite lookup_insert_ne.
      * intros tx' [= <-]. by split.
    + eexists. split; [done|]. eapply inv_reply; [done|done|cbn; by rewrite Hj|done|done| |done|done].
      cbn. split; [done|]. exists (length (wires b)), (b_scratch b). rewrite firstn_all.
      split_and!; [done|apply (bi_reached _ _ _ _ _ Hinv)|by rewrite Ev].
  - unfold classify_open. destruct (accounts st !! to_key (acct_id def)) as [acct|] eqn:Ea.
    + case_match eqn:Eb.
      * apply andb_true_iff in Eb as [E1%bool_decide_eq_true E2%bool_decide_eq_true].
        eexists. split; [done|]. eapply inv_same_reply; [done|done|cbn; by rewrite Hj|done|done|]. cbn. left. eauto.
      * eexists. split; [done|]. eapply inv_same_reply; [done|done|cbn; by rewrite Hj|done|done|]. cbn.
        split; [done|]. exists acct. split; [done|]. intros [= E1 E2].
        rewrite !bool_decide_eq_true_2 in Eb by done. done.
    + eexists. split; [done|]. eapply inv_stage; [done|done|done| |done|done].
      intros w Hw. eapply reached_open; [apply (bi_reached _ _ _ _ _ Hinv)|done|done].
  - eexists. split; [done|]. eapply inv_stage; [done|done|done| |done|done].
    intros w Hw. eapply reached_asset; [apply (bi_reached _ _ _ _ _ Hinv)|done].
  - eexists. split; [done|]. destruct Hinv. split; cbn [b_replies b_staged b_scratch b_snaps b_at b_seq b_tick]; try done.
    + rewrite seq_S, app_assoc. by apply Permutation_app_tail.
    + intros i [?| ->%list_elem_of_singleton]%elem_of_app; auto.
Qed.

Lemma classify_inv n rest b :
  batch_inv st M jobs n b -> drop n jobs = rest ->
  (forall tx, JCommit tx ∈ rest -> committed_lookup st disk (tx_idem tx) = M !! tx_idem tx) ->
  exists b', classify st disk clock n rest b = Ok b' /\ batch_inv st M jobs (length jobs) b'.
Proof.
  revert n b. induction rest as [|job rest IH]; intros n b Hinv Hd Hl; cbn [classify].
  - exists b. split; [done|].
    assert (n = length jobs) as <-; [|done].
    pose proof (bi_once _ _ _ _ _ Hinv) as Ho. apply Permutation_length in Ho.
    assert (length jobs <= n)%nat by (apply (f_equal length) in Hd; rewrite length_drop in Hd; cbn in Hd; lia).
    destruct (decide (n = length jobs)) as [|Hne]; [done|]. exfalso.
    assert (length jobs ∈ seq 0 n) as Hin by (apply elem_of_seq; lia).
    rewrite <- (bi_once _ _ _ _ _ Hinv) in Hin. apply elem_of_app in Hin as [Hin|Hin].
    + apply list_elem_of_fmap in Hin as ([i a] & Hi & Hin).
      destruct (bi_right _ _ _ _ _ Hinv _ _ Hin) as (job & Hj & _). apply lookup_lt_Some in Hj. cbn in *. lia.
    + apply (bi_snaps _ _ _ _ _ Hinv), lookup_lt_Some in Hin. lia.
  - assert (jobs !! n = Some job) as Hj by (rewrite <- (Nat.add_0_r n), <- lookup_drop, Hd; done).
    destruct (classify_job_inv n b job Hinv Hj) as (b' & Hb & Hinv').
    { intros tx ->. apply Hl. by left. }
    rewrite Hb. apply IH; [done| |].
    + rewrite <- (Nat.add_1_r n), <- drop_drop, Hd. done.
    + intros tx Hin. apply Hl. by right.
Qed.

Lemma classify_batch :
  (forall tx, JCommit tx ∈ jobs -> committed_lookup st disk (tx_idem tx) = M !! tx_idem tx) ->
  exists b, classify st disk clock 0 jobs (start_batch st clock) = Ok b /\ batch_inv st M jobs (length jobs) b.
Proof. intros Hl. apply classify_inv; [apply inv_start|done|done]. Qed.
End classify.
