(* ===== verification/WriterLog.v ===== *)
(** The write phase of a batch (phases 3 and 4 of
    talea-store-log/src/writer.rs) on the log of Segment.v: what is in the log
    after it, at which positions, and what a crash at any moment leaves. *)

From S2P Require Import Prelude Decimal Core Bloom Disk PostingIndex Idem BookState Frame Replay Segment Snapshot Writer.
Open Scope Z_scope.

Section write.
Context `{Crc32} `{!Crc32Laws} `{Json WireEvent} `{!JsonLaws WireEvent}.

(** The events of the log's chunks with the positions of their frames. *)
Definition positions (c : Catalog) (chunks : list (list WireEvent)) : list (WireEvent * (Seq * nat)) :=
  select_all (fun base pos ev => (ev, (base, pos))) 1 c chunks.

(** An open log whose sequence numbers run from 1 without a gap. *)
Record log_at (w : World) (s : SegmentSet) (sealed : list (list WireEvent)) (act : list WireEvent) (nd : nat) : Prop := {
  la_ready : log_ready w s sealed act nd;
  la_gapless : gapless 1 (concat (sealed ++ [act]));
  la_max : 0 < segment_max s;
  la_base : forall e, last (catalog s) = Some e -> e.1 <= 1 + Z.of_nat (length (concat (sealed ++ [act])))
}.

(** Whatever a crash leaves is a log of some events of [all], in order from
    the first, [lo] of them at least. *)
Definition crash_holds (d : gmap string FileData) (lo : nat) (all : list WireEvent) : Prop :=
  forall d', crash d d' -> exists c sealed act nd,
    durable_log d' c sealed act nd /\ bases_ok c (sealed ++ [act]) /\ catalog_names d' c /\
    (lo <= length (concat sealed) + nd)%nat /\ concat (sealed ++ [act]) `prefix_of` all.

Lemma concat_snoc {A} (l : list (list A)) x : concat (l ++ [x]) = concat l ++ x.
Proof. rewrite concat_app. cbn. by rewrite app_nil_r. Qed.

Lemma crash_holds_more d lo all all' : crash_holds d lo all -> all `prefix_of` all' -> crash_holds d lo all'.
Proof.
  intros Hc Hp d' Hd. destruct (Hc d' Hd) as (c & sealed & act & nd & ? & ? & ? & ? & ?).
  exists c, sealed, act, nd. split_and!; try done. by etrans.
Qed.

Lemma durable_crash_holds d c sealed act nd lo :
  durable_log d c sealed act nd -> bases_ok c (sealed ++ [act]) -> catalog_names d c ->
  (lo <= length (concat sealed) + nd)%nat -> crash_holds d lo (concat (sealed ++ [act])).
Proof.
  intros Hd Hb Hn Hlo d' Hc. exists c, sealed, act, nd. split_and!; try done.
  - by eapply durable_log_crash.
  - by eapply catalog_names_crash.
Qed.

Lemma ready_crash_holds w s sealed act nd lo :
  log_ready w s sealed act nd -> (lo <= length (concat sealed) + nd)%nat ->
  crash_holds (dir w) lo (concat (sealed ++ [act])).
Proof. intros [] ?. by eapply durable_crash_holds. Qed.

(** ** Positions *)

Lemma encoded_frame_len evs bs : encoded evs bs -> sum_list (map frame_len evs) = length bs.
Proof.
  induction 1 as [|ev evs b bs Hb _ IH]; [done|]. cbn [map sum_list]. unfold frame_len at 1.
  by rewrite Hb, IH, length_app.
Qed.

Section select.
Context {R : Type} (mk : Seq -> nat -> WireEvent -> R) (from : Seq).

Lemma select_snoc base pos evs ev :
  select mk from base pos (evs ++ [ev]) =
  select mk from base pos evs ++
  (if from <=? w_seq ev then [mk base (pos + sum_list (map frame_len evs))%nat ev] else []).
Proof.
  revert pos. induction evs as [|e evs IH]; intros pos; cbn [app select map sum_list].
  - by rewrite Nat.add_0_r, app_nil_r.
  - by rewrite IH, app_assoc, Nat.add_assoc.
Qed.

Lemma select_all_snoc c sealed base path act :
  length c = length sealed ->
  select_all mk from (c ++ [(base, path)]) (sealed ++ [act]) =
  select_all mk from c sealed ++ select mk from base 0 act.
Proof.
  revert sealed. induction c as [|[b p] c IH]; intros [|evs sealed] Hl; try done; cbn [app select_all].
  - by rewrite app_nil_r.
  - cbn in Hl. rewrite IH by lia. by rewrite app_assoc.
Qed.
End select.

Lemma positions_events c chunks :
  length c = length chunks -> gapless 1 (concat chunks) -> map fst (positions c chunks) = concat chunks.
Proof.
  intros Hl Hg. apply gapless_lt in Hg.
  assert (Forall (fun ev => 1 <= w_seq ev) (concat chunks)) as Hf by (eapply Forall_impl; [exact Hg|]; cbn; lia).
  clear Hg. revert chunks Hl Hf. unfold positions.
  induction c as [|[b p] c IH]; intros [|evs chunks] Hl Hf; try done. cbn [select_all concat] in *.
  rewrite map_app. apply Forall_app in Hf as [Hf1 Hf2]. f_equal; [|by apply IH; [cbn in Hl; lia|]].
  clear -Hf1. generalize 0%nat as pos. induction Hf1 as [|ev evs Hev _ IH]; intros pos; cbn [select map]; [done|].
  assert (1 <=? w_seq ev = true) as -> by lia. cbn. by rewrite IH.
Qed.

Lemma ready_length w s sealed act nd : log_ready w s sealed act nd -> length (catalog s) = length (sealed ++ [act]).
Proof.
  intros Hr. destruct (log_ready_active _ _ _ _ _ Hr) as (pc & base & f & bs & bsd & Hc & Hs & _).
  rewrite Hc, !length_app. by rewrite (Forall2_length _ _ _ Hs).
Qed.

(** ** Appending one event *)

Lemma append_at w s sealed act nd ev b r w' lo :
  log_at w s sealed act nd -> (lo <= length (concat sealed) + nd)%nat ->
  w_seq ev = 1 + Z.of_nat (length (concat (sealed ++ [act]))) -> encode_frame ev = Ok b ->
  append s b w = (r, w') ->
  crash_holds (dir w') lo (concat (sealed ++ [act]) ++ [ev]) /\
  (forall s', r = Ok s' -> log_at w' s' sealed (act ++ [ev]) nd /\
     positions (catalog s') (sealed ++ [act ++ [ev]]) = positions (catalog s) (sealed ++ [act]) ++ [(ev, next_pos s)]) /\
  (faults w = [] -> faults w' = [] /\ exists s', r = Ok s').
Proof.
  intros [Hr Hg Hmax Hbase] Hlo Hseq He Ha.
  assert (forall e, last (catalog s) = Some e -> e.1 <= w_seq ev) as Hle by (intros e Hl; rewrite Hseq; by apply Hbase).
  destruct (append_spec _ _ _ _ _ _ _ _ _ Hr He Hle Ha) as (Hd & Hn & Hok & Hnf).
  assert (concat (sealed ++ [act]) ++ [ev] = concat (sealed ++ [act ++ [ev]])) as Heq
    by (by rewrite !concat_snoc, app_assoc).
  split_and!; [|intros s' ->|done].
  - rewrite Heq. eapply durable_crash_holds; [done| |done|done].
    apply bases_ok_snoc_event; [apply (lr_bases _ _ _ _ _ Hr)|done].
  - destruct (Hok s' eq_refl) as (Hr' & Hc' & Hm'). split.
    + split; [done| |by rewrite Hm'|].
      * rewrite <- Heq. by apply gapless_snoc.
      * intros e Hl. rewrite Hc' in Hl. rewrite <- Heq, length_app. specialize (Hbase e Hl). cbn. lia.
    + destruct (log_ready_active _ _ _ _ _ Hr) as (pc & base & f & bs & bsd & Hc & Hs & _ & _ & _ & Henc & _ & Hlen & _).
      rewrite Hc', Hc. unfold positions. rewrite !select_all_snoc by (by eapply Forall2_length).
      rewrite select_snoc, app_assoc. f_equal. assert (1 <=? w_seq ev = true) as -> by lia.
      unfold next_pos. rewrite Hc, last_snoc, Hlen, (encoded_frame_len _ _ Henc). done.
Qed.

(** ** Rotating *)

Lemma active_bytes_empty w s sealed act nd : log_ready w s sealed act nd -> act = [] -> active_len s = 0%nat.
Proof.
  intros Hr ->. destruct (lr_bytes _ _ _ _ _ Hr) as (bs & _ & He & ->). by inversion He.
Qed.

Lemma rotate_base w s sealed act nd :
  log_at w s sealed act nd -> segment_max s <= Z.of_nat (active_len s) ->
  forall e, last (catalog s) = Some e -> e.1 < 1 + Z.of_nat (length (concat (sealed ++ [act]))).
Proof.
  intros [Hr Hg Hmax Hbase] Hfull e He. destruct act as [|ev act'] eqn:Ea.
  { rewrite (active_bytes_empty _ _ _ _ _ Hr eq_refl) in Hfull. lia. }
  rewrite <- Ea in *. pose proof (lr_bases _ _ _ _ _ Hr) as Hok.
  assert (e.1 <= w_seq ev) as Hev.
  { assert (exists pc, catalog s = pc ++ [e]) as [pc Hpc] by (apply last_Some in He as [pc ->]; eauto).
    assert (length (catalog s) = length (sealed ++ [act])) as Hlen by (by eapply ready_length).
    rewrite Hpc in Hok, Hlen. rewrite !length_app in Hlen. cbn in Hlen. assert (length pc = length sealed) as Hl by lia.
    clear -Hok Hl Ea. revert sealed Hok Hl. induction pc as [|[b p] pc IH]; intros [|x sealed] Hok Hl; try done; cbn in *.
    - destruct e as [b p]. subst act. by inversion Hok.
    - destruct pc as [|[b' p'] pc]; [destruct sealed; [|done]|]; cbn in *.
      + destruct e as [b' p']. destruct Hok as (_ & _ & Hok). subst act. cbn in Hok. by inversion Hok.
      + destruct sealed as [|y sealed]; [done|]. apply (IH (y :: sealed)); [apply Hok|cbn in *; lia]. }
  apply gapless_lt in Hg. rewrite Forall_forall in Hg. assert (ev ∈ concat (sealed ++ [act])) as Hin.
  { rewrite concat_snoc. apply elem_of_app. right. rewrite Ea. by left. }
  specialize (Hg ev Hin). cbn in Hg. lia.
Qed.

Lemma rotate_new_name w s sealed act nd next :
  log_ready w s sealed act nd -> in_i64 next = true -> (forall e, last (catalog s) = Some e -> e.1 < next) ->
  dir w !! segment_name next = None.
Proof.
  intros Hr Hi Hlast. pose proof (parse_segment_name next Hi) as Hpn.
  destruct (dir w !! segment_name next) eqn:E; [|done]. exfalso.
  assert ((next, segment_name next) ∈ catalog s) as Hin by (apply (lr_names _ _ _ _ _ Hr); by rewrite E).
  destruct (last (catalog s)) as [e|] eqn:El; [|apply last_None in El; rewrite El in Hin; by apply elem_of_nil in Hin].
  pose proof (bases_ok_sorted _ _ (lr_bases _ _ _ _ _ Hr)) as Hs.
  pose proof (sorted_bases_last _ _ next Hs El (Hlast e eq_refl)) as Hf.
  rewrite Forall_forall in Hf. specialize (Hf _ Hin). cbn in Hf. lia.
Qed.

(** A new segment whose directory entry is not durable yet: a crash keeps it,
    empty, or loses it. *)
Lemma rotate_torn w s sealed act next lo :
  log_ready w s sealed act (length act) -> in_i64 next = true -> Forall (fun ev => w_seq ev < next) act ->
  (forall e, last (catalog s) = Some e -> e.1 < next) -> (lo <= length (concat (sealed ++ [act])))%nat ->
  crash_holds (<[segment_name next := mkFile [] 0 false]> (dir w)) lo (concat (sealed ++ [act])).
Proof.
  intros Hr Hi Hact Hlast Hlo d' Hc. rewrite concat_snoc, length_app in Hlo.
  pose proof (rotate_new_name _ _ _ _ _ _ Hr Hi Hlast) as Hnew. pose proof (parse_segment_name next Hi) as Hpn.
  generalize dependent (segment_name next). intros nm Hc Hnew Hpn.
  assert (crash (dir w) (delete nm d')) as Hc'.
  { intros n. destruct (decide (n = nm)) as [->|Hne]; [by rewrite Hnew, lookup_delete_eq|].
    specialize (Hc n). by rewrite lookup_insert_ne in Hc by done; rewrite lookup_delete_ne by done. }
  pose proof (durable_log_crash _ _ _ _ _ _ Hc' (lr_durable _ _ _ _ _ Hr)) as Hd.
  pose proof (catalog_names_crash _ _ _ _ _ _ Hc' (lr_names _ _ _ _ _ Hr) (lr_durable _ _ _ _ _ Hr)) as Hn.
  pose proof (lr_bases _ _ _ _ _ Hr) as Hok.
  specialize (Hc nm). rewrite lookup_insert_eq in Hc. destruct (d' !! nm) as [g|] eqn:Eg.
  2:{ rewrite delete_id in Hd, Hn by done. exists (catalog s), sealed, act, (length act). by split_and!. }
  destruct Hc as (k & Hk & ->). cbn in Hk.
  exists (catalog s ++ [(next, nm)]), (sealed ++ [act]), [], 0%nat. split_and!.
  - exists (catalog s), next, nm. split_and!; [done| |].
    + destruct Hd as (pc & base & path & Hcat & Hs & (f & bs & k' & bsd & Hf & Hfd & He & Hb & _ & Hebd & Hdur)).
      rewrite firstn_all in Hebd. assert (bsd = bs) as -> by (by eapply encoded_fun).
      assert (f_bytes f = bs) as Hfb.
      { rewrite Hb in Hdur |- *. rewrite length_take in Hdur. apply take_ge. lia. }
      rewrite Hcat. apply Forall2_app.
      * eapply Forall2_impl; [exact Hs|]. intros [b p] evs (f0 & Hf0 & ?). exists f0. cbn in *.
        split; [|done]. apply lookup_delete_Some in Hf0. by destruct Hf0.
      * constructor; [|constructor]. exists f. cbn. apply lookup_delete_Some in Hf as [_ Hf].
        rewrite Hfb in Hdur |- *. split_and!; try done. lia.
    + exists (mkFile (take k []) k true), [], 0%nat, []. rewrite Eg. cbn. rewrite take_nil.
      split_and!; try done; try constructor; cbn; lia.
  - by apply bases_ok_rotate.
  - intros b n. rewrite elem_of_app, list_elem_of_singleton, (Hn b n). destruct (decide (n = nm)) as [->|Hne].
    + rewrite lookup_delete_eq, Eg, Hpn. split.
      * intros [[_ [? ?]]|[= ->]]; [done|]. eauto.
      * intros [[= ->] _]. by right.
    + rewrite lookup_delete_ne by done. split; [by intros [?|[= _ ->]]|by left].
  - rewrite concat_snoc, length_app. lia.
  - by rewrite (concat_snoc _ []), app_nil_r.
Qed.

Lemma rotate_no_faults s next w :
  faults w = [] -> exists s' w', maybe_rotate s next w = (Ok s', w') /\ faults w' = [].
Proof.
  intros Hf. unfold maybe_rotate. destruct (_ <=? _); [|unfold io_ret; eauto]. cbn zeta.
  destruct w as [d fs]. cbn in Hf. subst fs. unfold io_bind at 1, fs_sync, next_fault. cbn [faults dir].
  unfold io_bind at 1, fs_open_append, next_fault.
  assert (forall w, faults w = [] -> faults (match dir w !! segment_name next with
    | Some _ => w | None => set_file (segment_name next) (mkFile [] 0 false) w end) = []) as Hw by (intros ? ?; by case_match).
  assert (forall f, faults (match d !! active s with
    | Some f0 => set_file (active s) (f f0) (mkWorld d []) | None => mkWorld d [] end) = []) as Ha by (intros ?; by case_match).
  rewrite Ha. specialize (Hw _ (Ha (fun f => mkFile (f_bytes f) (length (f_bytes f)) (f_dirent f)))).
  unfold io_bind at 1, fs_sync_dir, next_fault. rewrite Hw. unfold io_ret. cbn. eauto.
Qed.

Lemma rotate_at w s sealed act nd next r w' lo :
  log_at w s sealed act nd -> (lo <= length (concat sealed) + nd)%nat ->
  next = 1 + Z.of_nat (length (concat (sealed ++ [act]))) -> in_i64 next = true ->
  maybe_rotate s next w = (r, w') ->
  crash_holds (dir w') lo (concat (sealed ++ [act])) /\
  (forall s', r = Ok s' -> exists sealed' act' nd', log_at w' s' sealed' act' nd' /\
     (lo <= length (concat sealed') + nd')%nat /\ concat (sealed' ++ [act']) = concat (sealed ++ [act]) /\
     positions (catalog s') (sealed' ++ [act']) = positions (catalog s) (sealed ++ [act])).
Proof.
  intros Hla Hlo Hnext Hi Hm. pose proof (la_ready _ _ _ _ _ Hla) as Hr.
  assert (Forall (fun ev => w_seq ev < next) act) as Hact.
  { pose proof (gapless_lt _ _ (la_gapless _ _ _ _ _ Hla)) as Hf. rewrite concat_snoc in Hf at 1.
    apply Forall_app in Hf as [_ Hf]. eapply Forall_impl; [exact Hf|]. cbn. lia. }
  assert (lo <= length (concat (sealed ++ [act])))%nat as Hlo'.
  { destruct (log_ready_active _ _ _ _ _ Hr) as (? & ? & ? & ? & ? & _ & _ & _ & _ & _ & _ & _ & _ & Hnd & _).
    rewrite concat_snoc, length_app. lia. }
  destruct (decide (segment_max s <= Z.of_nat (active_len s))) as [Hfull|Hroom].
  2:{ unfold maybe_rotate in Hm. assert (segment_max s <=? Z.of_nat (active_len s) = false) as E by lia.
      rewrite E in Hm. injection Hm as <- <-. split; [by eapply ready_crash_holds|]. intros s' [= <-]. by exists sealed, act, nd. }
  assert (forall e, last (catalog s) = Some e -> e.1 < next) as Hlast.
  { intros e He. rewrite Hnext. by eapply rotate_base. }
  destruct r as [s1|e].
  - destruct (rotate_spec _ _ _ _ _ _ _ _ Hr Hi Hact Hlast Hm) as [?|(_ & Hr' & Hc & Hl & Hmx)]; [lia|].
    assert (length (catalog s) = length (sealed ++ [act])) as Hlen by (by eapply ready_length).
    split.
    + rewrite <- (app_nil_r (concat _)), <- concat_snoc. eapply ready_crash_holds; [done|]. lia.
    + intros s' [= <-]. exists (sealed ++ [act]), [], 0%nat. rewrite (concat_snoc (sealed ++ [act])), app_nil_r.
      split_and!; [|lia|done|].
      * split; [done|rewrite (concat_snoc (sealed ++ [act])), app_nil_r; apply (la_gapless _ _ _ _ _ Hla)| |].
        -- rewrite Hmx. apply (la_max _ _ _ _ _ Hla).
        -- intros e He. rewrite Hc, last_snoc in He. injection He as <-.
           rewrite (concat_snoc (sealed ++ [act])), app_nil_r. cbn. lia.
      * unfold positions. rewrite Hc, select_all_snoc by done. cbn. by rewrite app_nil_r.
  - split; [|done]. unfold maybe_rotate in Hm.
    assert (segment_max s <=? Z.of_nat (active_len s) = true) as E by lia. rewrite E in Hm. cbn zeta in Hm.
    unfold io_bind at 1 in Hm. fold (sync s) in Hm.
    destruct (sync s w) as [[[]|e1] w1] eqn:Es; destruct (sync_spec _ _ _ _ _ _ _ Hr Es) as (Hs1 & Hs2 & _).
    2:{ injection Hm as <- <-. rewrite (Hs2 _ eq_refl). by eapply ready_crash_holds. }
    specialize (Hs1 eq_refl).
    assert (crash_holds (dir w1) lo (concat (sealed ++ [act]))) as Hsynced.
    { eapply ready_crash_holds; [done|]. rewrite concat_snoc, length_app in Hlo'. lia. }
    assert (crash_holds (<[segment_name next := mkFile [] 0 false]> (dir w1)) lo (concat (sealed ++ [act]))) as Htorn
      by (by apply (rotate_torn _ s)).
    unfold io_bind at 1 in Hm. destruct (fs_open_append (segment_name next) w1) as [[[]|e2] w2] eqn:Eo.
    2:{ injection Hm as <- <-. unfold fs_open_append, next_fault in Eo.
        destruct (faults w1) as [|[?|] ?]; simplify_eq; done. }
    assert (dir w2 = <[segment_name next := mkFile [] 0 false]> (dir w1)) as Hd2.
    { pose proof (rotate_new_name _ _ _ _ _ _ Hs1 Hi Hlast) as Hnew. unfold fs_open_append, next_fault in Eo.
      destruct (faults w1) as [|[?|] ?]; cbn [dir] in Eo; rewrite ?Hnew in Eo; simplify_eq; done. }
    unfold io_bind in Hm. destruct (fs_sync_dir w2) as [[[]|e3] w3] eqn:Ed; [done|]. injection Hm as <- <-.
    unfold fs_sync_dir, next_fault in Ed. destruct (faults w2) as [|[?|] ?]; simplify_eq. cbn. by rewrite Hd2.
Qed.

(** ** A batch of events *)

Lemma write_staged_at staged w s sealed act nd r w' lo :
  log_at w s sealed act nd -> (lo <= length (concat sealed) + nd)%nat ->
  gapless (1 + Z.of_nat (length (concat (sealed ++ [act])))) (map wire staged) ->
  Z.of_nat (length (concat (sealed ++ [act])) + length staged) <= i64_max ->
  write_staged s staged w = (r, w') ->
  crash_holds (dir w') lo (concat (sealed ++ [act]) ++ map wire staged) /\
  (forall s' staged', r = Ok (s', staged') -> exists sealed' act' nd', log_at w' s' sealed' act' nd' /\
     (lo <= length (concat sealed') + nd')%nat /\
     concat (sealed' ++ [act']) = concat (sealed ++ [act]) ++ map wire staged /\
     map job_idx staged' = map job_idx staged /\ map wire staged' = map wire staged /\
     positions (catalog s') (sealed' ++ [act']) =
       positions (catalog s) (sealed ++ [act]) ++ map (fun e => (wire e, pos e)) staged') /\
  (faults w = [] -> (forall e, e ∈ staged -> is_Some (match encode_frame (wire e) with Ok b => Some b | Err _ => None end)) ->
     faults w' = [] /\ exists x, r = Ok x).
Proof.
  revert w s sealed act nd r w'. induction staged as [|e staged IH]; intros w s sealed act nd r w' Hla Hlo Hg Hmax Hw;
    cbn [write_staged] in Hw.
  { injection Hw as <- <-. cbn. rewrite app_nil_r. split_and!.
    - eapply ready_crash_holds; [apply (la_ready _ _ _ _ _ Hla)|done].
    - intros s' staged' [= <- <-]. exists sealed, act, nd. cbn. rewrite !app_nil_r. by split_and!.
    - eauto. }
  cbn [map] in *. apply gapless_cons in Hg as [Hseq Hg].
  assert (in_i64 (w_seq (wire e)) = true) as Hi by (rewrite Hseq; cbn in Hmax; clear -Hmax; apply in_i64_spec; unfold i64_min, i64_max in *; lia).
  assert (forall l, concat (sealed ++ [act]) `prefix_of` concat (sealed ++ [act]) ++ l) as Hpre by (intros; by apply prefix_app_r).
  unfold io_bind at 1, io_lift in Hw. destruct (encode_frame (wire e)) as [b|ee] eqn:Eb; cbn [map_err] in Hw.
  2:{ injection Hw as <- <-. split_and!; [|done|].
      - eapply crash_holds_more; [|apply Hpre]. eapply ready_crash_holds; [apply (la_ready _ _ _ _ _ Hla)|done].
      - intros _ He. specialize (He e ltac:(by left)). rewrite Eb in He. by destruct He. }
  unfold io_bind at 1 in Hw. destruct (maybe_rotate s (w_seq (wire e)) w) as [r1 w1] eqn:Er.
  destruct (rotate_at _ _ _ _ _ _ _ _ _ Hla Hlo Hseq Hi Er) as [Hcr Hrot].
  pose proof (rotate_no_faults s (w_seq (wire e)) w) as Hnf1. rewrite Er in Hnf1.
  destruct r1 as [s1|e1].
  2:{ injection Hw as <- <-. split_and!; [by eapply crash_holds_more|done|].
      intros Hf. destruct (Hnf1 Hf) as (? & ? & ? & _). done. }
  destruct (Hrot s1 eq_refl) as (sealed1 & act1 & nd1 & Hla1 & Hlo1 & Heq1 & Hpos1).
  cbn zeta in Hw. unfold io_bind at 1 in Hw. destruct (append s1 b w1) as [r2 w2] eqn:Ea.
  rewrite <- Heq1 in Hseq. destruct (append_at _ _ _ _ _ _ _ _ _ _ Hla1 Hlo1 Hseq Eb Ea) as (Hca & Happ & Hnf2).
  rewrite Heq1 in Hca. destruct r2 as [s2|e2].
  2:{ injection Hw as <- <-. split_and!; [|done|].
      - eapply crash_holds_more; [done|]. apply prefix_app, prefix_cons, prefix_nil.
      - intros Hf. destruct (Hnf1 Hf) as (? & ? & [= _ <-] & Hf1). destruct (Hnf2 Hf1) as (_ & ? & ?). done. }
  destruct (Happ s2 eq_refl) as [Hla2 Hpos2].
  assert (concat (sealed1 ++ [act1 ++ [wire e]]) = concat (sealed ++ [act]) ++ [wire e]) as Heq2
    by (by rewrite concat_snoc, app_assoc, <- concat_snoc, Heq1).
  unfold io_bind in Hw. destruct (write_staged s2 staged w2) as [r3 w3] eqn:E3.
  assert (w3 = w') as -> by (destruct r3 as [[? ?]|]; by injection Hw).
  assert (gapless (1 + Z.of_nat (length (concat (sealed1 ++ [act1 ++ [wire e]])))) (map wire staged)) as Hg2.
  { rewrite Heq2, length_app. cbn. by replace (1 + Z.of_nat (_ + 1)) with (1 + Z.of_nat (length (concat (sealed ++ [act]))) + 1) by lia. }
  assert (Z.of_nat (length (concat (sealed1 ++ [act1 ++ [wire e]])) + length staged) <= i64_max) as Hmax2
    by (rewrite Heq2, length_app; cbn in *; lia).
  destruct (IH _ _ _ _ _ _ _ Hla2 Hlo1 Hg2 Hmax2 E3) as (Hc3 & Hok3 & Hnf3).
  rewrite Heq2 in Hc3, Hok3. rewrite <- app_assoc in Hc3. split_and!; [exact Hc3| |].
  - intros s' staged' ->. destruct r3 as [[s3 st3]|]; [|done]. injection Hw as <- <-.
    destruct (Hok3 s3 st3 eq_refl) as (sealed' & act' & nd' & ? & ? & Hcat & Hj & Hwi & Hp).
    exists sealed', act', nd'. cbn. split_and!; try done.
    + by rewrite Hcat, <- app_assoc.
    + by rewrite Hj.
    + by rewrite Hwi.
    + by rewrite Hp, Hpos2, Hpos1, <- app_assoc.
  - intros Hf He. destruct (Hnf1 Hf) as (? & ? & [= _ <-] & Hf1). destruct (Hnf2 Hf1) as (Hf2 & _).
    destruct (Hnf3 Hf2) as (Hf3 & x3 & Hx3).
    { intros y Hy. apply He. by right. }
    rewrite Hx3 in Hw. destruct x3. injection Hw as <-. eauto.
Qed.

Lemma write_batch_at staged w s sealed act r w' :
  log_at w s sealed act (length act) ->
  gapless (1 + Z.of_nat (length (concat (sealed ++ [act])))) (map wire staged) ->
  Z.of_nat (length (concat (sealed ++ [act])) + length staged) <= i64_max ->
  write_batch s staged w = (r, w') ->
  crash_holds (dir w') (length (concat (sealed ++ [act]))) (concat (sealed ++ [act]) ++ map wire staged) /\
  (forall s' staged', r = Ok (s', staged') -> exists sealed' act', log_at w' s' sealed' act' (length act') /\
     concat (sealed' ++ [act']) = concat (sealed ++ [act]) ++ map wire staged /\
     map job_idx staged' = map job_idx staged /\ map wire staged' = map wire staged /\
     positions (catalog s') (sealed' ++ [act']) =
       positions (catalog s) (sealed ++ [act]) ++ map (fun e => (wire e, pos e)) staged') /\
  (faults w = [] -> (forall e, e ∈ staged -> is_Some (match encode_frame (wire e) with Ok b => Some b | Err _ => None end)) ->
     faults w' = [] /\ exists x, r = Ok x).
Proof.
  intros Hla Hg Hmax Hw.
  assert (length (concat (sealed ++ [act])) <= length (concat sealed) + length act)%nat as Hlo
    by (by rewrite concat_snoc, length_app).
  unfold write_batch in Hw. destruct staged as [|e staged0] eqn:Est.
  { injection Hw as <- <-. cbn. rewrite app_nil_r. split_and!.
    - eapply ready_crash_holds; [apply (la_ready _ _ _ _ _ Hla)|done].
    - intros s' staged' [= <- <-]. exists sealed, act. cbn. rewrite !app_nil_r. by split_and!.
    - eauto. }
  rewrite <- Est in *. clear Est. unfold io_bind at 1 in Hw. destruct (write_staged s staged w) as [r1 w1] eqn:E1.
  destruct (write_staged_at _ _ _ _ _ _ _ _ _ Hla Hlo Hg Hmax E1) as (Hc1 & Hok1 & Hnf1).
  destruct r1 as [[s1 st1]|e1].
  2:{ injection Hw as <- <-. split_and!; [done..|]. intros Hf He. destruct (Hnf1 Hf He) as (_ & ? & ?). done. }
  destruct (Hok1 s1 st1 eq_refl) as (sealed' & act' & nd' & Hla' & Hlo' & Hcat & Hj & Hwi & Hp).
  unfold io_bind in Hw. destruct (sync s1 w1) as [[[]|e2] w2] eqn:E2;
    destruct (sync_spec _ _ _ _ _ _ _ (la_ready _ _ _ _ _ Hla') E2) as (Hs1 & Hs2 & Hs3).
  - injection Hw as <- <-. specialize (Hs1 eq_refl). split_and!.
    + rewrite <- Hcat. eapply ready_crash_holds; [done|].
      apply (f_equal length) in Hcat. rewrite concat_snoc, !length_app in Hcat. lia.
    + intros s' staged' [= <- <-]. exists sealed', act'. split_and!; try done. destruct Hla'. by split.
    + intros Hf He. destruct (Hnf1 Hf He) as (Hf1 & _). destruct (Hs3 Hf1) as [? _]. eauto.
  - injection Hw as <- <-. split_and!; [by rewrite (Hs2 _ eq_refl)|done|].
    intros Hf He. destruct (Hnf1 Hf He) as (Hf1 & _). destruct (Hs3 Hf1) as [_ ?]. done.
Qed.
End write.
