(* ===== verification/WriterSpec.v ===== *)
(** What a book's writer guarantees (talea-store-log/src/writer.rs): its
    invariant, batches, and the whole loop.  The log is the truth: the state
    is the replay of the log at every turn, and whatever a crash leaves of the
    directory reopens to a log with every acknowledged event. *)

From S2P Require Import Prelude Decimal Core Bloom Disk PostingIndex Idem BookState Frame Replay Segment Snapshot.
From S2P Require Import Writer WriterBatch WriterLog.
Open Scope Z_scope.

(** ** The three kinds of files do not meet *)

Definition is_segment (n : string) : Prop := is_Some (strip_prefix "segment-" n).
Definition is_run (n : string) : Prop := is_Some (strip_prefix "idem-" n).
Definition is_snap (n : string) : Prop := is_Some (strip_prefix "snapshot-" n).

Lemma parse_base_segment n : is_Some (parse_base n) -> is_segment n.
Proof. intros [b Hb]. unfold parse_base in Hb. unfold is_segment. destruct (strip_prefix _ n); [eauto|done]. Qed.

Lemma segment_not_run n : is_segment n -> ~ is_run n.
Proof. intros [a Ha%strip_prefix_Some] [b Hb%strip_prefix_Some]. by subst. Qed.
Lemma segment_not_snap n : is_segment n -> ~ is_snap n.
Proof. intros [a Ha%strip_prefix_Some] [b Hb%strip_prefix_Some]. by subst. Qed.
Lemma run_not_snap n : is_run n -> ~ is_snap n.
Proof. intros [a Ha%strip_prefix_Some] [b Hb%strip_prefix_Some]. by subst. Qed.

Lemma segment_name_is_segment s : is_segment (segment_name s).
Proof. unfold is_segment, segment_name. rewrite strip_prefix_app. eauto. Qed.
Lemma run_name_is_run n : is_run (run_name n).
Proof. unfold is_run, run_name. rewrite strip_prefix_app. eauto. Qed.
Lemma run_tmp_is_run n : is_run (run_tmp (run_name n)).
Proof. unfold is_run, run_tmp, run_name. rewrite append_assoc, strip_prefix_app. eauto. Qed.
Lemma snap_name_is_snap s : is_snap (snap_name s).
Proof. unfold is_snap, snap_name. rewrite strip_prefix_app. eauto. Qed.
Lemma snap_tmp_is_snap s : is_snap (snap_tmp s).
Proof. unfold is_snap, snap_tmp, snap_name. rewrite append_assoc, strip_prefix_app. eauto. Qed.

#[export] Hint Resolve segment_name_is_segment run_name_is_run run_tmp_is_run snap_name_is_snap snap_tmp_is_snap : talea.

(** ** Which files the operations change *)

Section frames.
Context `{KeyHashes} `{Crc32} `{Json (list Pair)} `{Json WireEvent} `{Json StateImage}.

Definition runs_named (t : TieredIdem) : Prop := Forall (fun meta => is_run (rm_path meta)) (runs t).

Lemma remove_all_keeps paths (P : string -> Prop) : Forall P paths -> keeps_files (remove_all paths) P.
Proof.
  induction 1 as [|p paths Hp _ IH]; cbn [remove_all]; [apply keeps_ret|].
  apply keeps_bind; [by apply keeps_try, fs_remove_keeps|auto].
Qed.

Lemma remove_each_keeps paths (P : string -> Prop) : Forall P paths -> keeps_files (remove_each paths) P.
Proof.
  induction 1 as [|p paths Hp _ IH]; cbn [remove_each]; [apply keeps_ret|].
  apply keeps_bind; [by apply keeps_try, fs_remove_keeps|auto].
Qed.

Lemma read_all_keeps metas P : keeps_files (read_all metas) P.
Proof.
  induction metas as [|m metas IH]; cbn [read_all]; [apply keeps_ret|].
  apply keeps_bind; [|intros ps; apply keeps_bind; [done|auto with talea]].
  unfold read_run. apply keeps_bind; auto with talea.
Qed.

Lemma write_run_keeps n bs : keeps_files (write_run_atomic (run_name n) bs) is_run.
Proof. apply replace_file_keeps; auto with talea. Qed.

Lemma drain_runs n t acc : runs (drain n t acc).1 = runs t.
Proof.
  revert t acc. induction n as [|n IH]; intros t acc; cbn [drain]; [done|].
  repeat case_match; rewrite IH; done.
Qed.

Lemma give_back_runs ps t : runs (give_back t ps) = runs t.
Proof.
  revert t. induction ps as [|[k v] ps IH]; intros t; [done|]. unfold give_back in *. cbn [foldl]. by rewrite IH.
Qed.

(** A merge or a flush changes run files only, and always returns. *)
Lemma merge_runs_frame t :
  runs_named t -> keeps_files (merge_runs t) is_run /\
  forall w, exists t' w', merge_runs t w = (Ok t', w') /\ runs_named t'.
Proof.
  intros Hn. split.
  - unfold merge_runs. case_match; [apply keeps_ret|].
    apply keeps_bind; [apply keeps_try, read_all_keeps|intros [all|e]; [|apply keeps_ret]]. cbn zeta.
    case_match; [|apply keeps_ret]. apply keeps_bind; [apply keeps_try, write_run_keeps|intros [u|e]; [|apply keeps_ret]].
    apply keeps_bind; [|intros; apply keeps_ret]. apply remove_all_keeps. by apply Forall_fmap.
  - intros w. unfold merge_runs. case_match; [by eexists _, _|].
    unfold io_bind at 1, io_try at 1. destruct (read_all (runs t) w) as [[all|e] w1]; [|by eexists _, _]. cbn zeta.
    case_match; [|by eexists _, _]. unfold io_bind at 1, io_try at 1.
    destruct (write_run_atomic _ _ w1) as [[u|e] w2]; [|by eexists _, _].
    assert (forall ps w, exists w', remove_all ps w = (Ok (), w')) as Hra.
    { clear. induction ps as [|p ps IH]; intros w; cbn [remove_all]; [by eexists|].
      unfold io_bind, io_try. destruct (fs_remove p w). apply IH. }
    destruct (Hra (map rm_path (runs t)) w2) as [w3 Hw3]. unfold io_bind at 1. rewrite Hw3.
    eexists _, _. split; [done|]. unfold runs_named. cbn [runs]. case_match; [constructor|].
    constructor; [|constructor]. apply run_name_is_run.
Qed.

Lemma flush_spill_frame t :
  runs_named t -> keeps_files (flush_spill t) is_run /\
  forall w, exists t' w', flush_spill t w = (Ok t', w') /\ runs_named t'.
Proof.
  intros Hn. unfold flush_spill. cbn zeta. case_match; [split; [apply keeps_ret|by eexists _, _]|].
  pose proof (drain_runs (size (hot t) / 2) t []) as Hd.
  destruct (drain _ t []) as [t1 drained]. cbn [fst] in Hd.
  assert (forall ps, runs_named (give_back t1 ps)) as Hgb by (intros; unfold runs_named; by rewrite give_back_runs, Hd).
  assert (runs_named t1) as Hn1 by (unfold runs_named; by rewrite Hd).
  destruct drained as [|d0 ds]; [split; [apply keeps_ret|by eexists _, _]|].
  case_match; [|split; [apply keeps_ret|by eexists _, _]].
  set (t2 := mkTieredIdem _ _ _ _ _).
  assert (runs_named t2) as Hn2.
  { apply Forall_app. split; [done|]. constructor; [|constructor]. apply run_name_is_run. }
  destruct (merge_runs_frame t2 Hn2) as [Hk Ht]. split.
  - apply keeps_bind; [apply keeps_try, write_run_keeps|intros [u|e]; [|apply keeps_ret]]. case_match; [done|apply keeps_ret].
  - intros w. unfold io_bind, io_try. destruct (write_run_atomic _ _ w) as [[u|e] w1]; [|by eexists _, _].
    case_match; [apply Ht|by eexists _, _].
Qed.

Lemma flush_if_needed_frame st :
  runs_named (idem st) -> keeps_files (flush_if_needed st) is_run /\
  forall w, exists t' w', flush_if_needed st w = (Ok (set_idem st t'), w') /\ runs_named t'.
Proof.
  intros Hn. destruct (flush_spill_frame _ Hn) as [Hk Ht]. unfold flush_if_needed. case_match.
  - split; [by apply keeps_bind; [|intros; apply keeps_ret]|]. intros w. unfold io_bind.
    destruct (Ht w) as (t' & w' & -> & ?). by eexists _, _.
  - split; [apply keeps_ret|]. intros w. exists (idem st), w. split; [by destruct st|done].
Qed.

Lemma snap_entries_named names : Forall is_snap (map snd (snap_entries names)).
Proof.
  apply Forall_fmap, Forall_forall. intros [s n] Hin. unfold snap_entries in Hin. rewrite sort_by_perm in Hin.
  apply list_elem_of_omap in Hin as (x & _ & Hx). cbn. unfold parse_snap_seq in Hx. unfold is_snap.
  destruct (strip_prefix "snapshot-" x) eqn:E; [|done]. destruct (strip_suffix _ _); [|done].
  destruct (parse_i64 _); [|done]. injection Hx as <- <-. by rewrite E.
Qed.

Lemma write_snapshot_keeps st seq : keeps_files (write_snapshot st seq) is_snap.
Proof.
  unfold write_snapshot. apply keeps_bind; [apply keeps_lift|intros p]. cbn zeta.
  apply keeps_bind; [apply replace_file_keeps; auto with talea|intros _]. unfold prune_old.
  apply keeps_bind; [apply fs_read_dir_keeps|intros names]. apply remove_each_keeps. rewrite <- skipn_map.
  apply Forall_drop, snap_entries_named.
Qed.

Lemma explicit_snapshot_frame st :
  keeps_files (explicit_snapshot st) is_snap /\ forall w, exists r w', explicit_snapshot st w = (Ok r, w').
Proof.
  unfold explicit_snapshot. case_match; [|split; [apply keeps_ret|by eexists _, _]].
  split; [apply keeps_try, write_snapshot_keeps|]. intros w. unfold io_try. destruct (write_snapshot _ _ w). by eexists _, _.
Qed.
End frames.

(** ** The invariant *)

Section frame_log.
Context `{Crc32} `{!Crc32Laws} `{Json WireEvent} `{!JsonLaws WireEvent}.

Lemma log_ready_keep w w' s sealed act nd :
  (forall n, is_segment n -> file_kept (dir w !! n) (dir w' !! n)) ->
  log_ready w s sealed act nd -> log_ready w' s sealed act nd.
Proof.
  intros Hk Hr. pose proof (lr_names _ _ _ _ _ Hr) as Hn.
  assert (forall e, e ∈ catalog s -> is_segment e.2) as Hseg.
  { intros [b p] Hin. apply parse_base_segment. apply Hn in Hin as [Hp _]. cbn. rewrite Hp. eauto. }
  destruct Hr as [(pc & base & path & Hc & Hs & (f & bs & k & bsd & Hf & Hfd & He & Hb & Hnd & Hebd & Hdur)) Hok _ Ha
    (bs' & Hb' & He' & Hl)].
  split; [|done| |done|].
  - exists pc, base, path. split_and!; [done| |].
    + apply Forall2_same_length_lookup_2; [by eapply Forall2_length|]. intros i [b p] evs Hi Hev.
      destruct (Forall2_lookup_lr _ _ _ _ _ _ Hs Hi Hev) as (g & Hg & Hgd & Hge & Hgl). cbn in *.
      assert (is_segment p) as Hp.
      { apply (Hseg (b, p)). rewrite Hc. apply elem_of_app. left. by eapply list_elem_of_lookup_2. }
      specialize (Hk p Hp). rewrite Hg in Hk. destruct (dir w' !! p) as [g'|] eqn:Eg; [|done].
      destruct Hk as (Hk1 & Hk2 & Hk3). exists g'. rewrite Hk1, Hk2. split_and!; auto.
    + assert (is_segment path) as Hp.
      { apply (Hseg (base, path)). rewrite Hc. apply elem_of_app. right. by left. }
      specialize (Hk path Hp). rewrite Hf in Hk. destruct (dir w' !! path) as [f'|] eqn:Ef; [|done].
      destruct Hk as (Hk1 & Hk2 & Hk3). exists f', bs, k, bsd. rewrite Hk1, Hk2. split_and!; auto; lia.
  - intros b n. rewrite (Hn b n). split; intros [Hp [g Hg]]; (split; [done|]);
      specialize (Hk n (parse_base_segment n ltac:(by rewrite Hp))); rewrite Hg in Hk; [destruct (dir w' !! n)|destruct (dir w !! n)]; done.
  - exists bs'. split; [|done]. unfold bytes_at in *.
    assert (is_segment (active s)) as Hp.
    { destruct (last (catalog s)) as [e|] eqn:El; [|done]. cbn in Ha. injection Ha as <-. apply Hseg.
      apply last_Some in El as [l ->]. apply elem_of_app. right. by left. }
    specialize (Hk _ Hp). destruct (dir w !! active s) as [g|]; [|done]. destruct (dir w' !! active s) as [g'|]; [|done].
    destruct Hk as (Hk1 & _). cbn in *. congruence.
Qed.

Lemma log_at_keep w w' s sealed act nd :
  (forall n, is_segment n -> file_kept (dir w !! n) (dir w' !! n)) ->
  log_at w s sealed act nd -> log_at w' s sealed act nd.
Proof. intros Hk []. split; try done. by eapply log_ready_keep. Qed.

Lemma log_at_active w s sealed act nd : log_at w s sealed act nd -> is_segment (active s).
Proof.
  intros Hla. destruct (log_ready_active _ _ _ _ _ (la_ready _ _ _ _ _ Hla)) as (pc & base & f & bs & bsd & Hc & _ & _ & Hp & _).
  apply parse_base_segment. exists base. apply (lr_names _ _ _ _ _ (la_ready _ _ _ _ _ Hla)).
  rewrite Hc. apply elem_of_app. right. by left.
Qed.
End frame_log.

Section spec.
Context `{HashIterLaws} `{KeyHashes} `{Crc32} `{!Crc32Laws} `{Json (list Pair)} `{!JsonLaws (list Pair)}
  `{Json WireEvent} `{!JsonLaws WireEvent} `{Json StateImage}.

(** A writer between two batches: every event of [log] is in the log and
    durable, in order and stamped in order, and the state is its replay. *)
Record writer_inv (w : World) (wr : BookWriter) (log : list WireEvent) : Prop := {
  wi_log : exists sealed act st0, log_at w (wr_segments wr) sealed act (length act) /\
    concat (sealed ++ [act]) = log /\
    replay BookState_default (positions (catalog (wr_segments wr)) (sealed ++ [act])) = Ok st0 /\
    same_book st0 (wr_state wr);
  wi_stamped : stamped None log;
  wi_runs : runs_named (idem (wr_state wr))
}.

(** ... and no key was committed twice, and the index has every key. *)
Record ledger_inv (w : World) (wr : BookWriter) (log : list WireEvent) : Prop := {
  li_writer : writer_inv w wr log;
  li_once : fresh_keys ∅ log;
  li_idem : idem_repr (dir w) (idem (wr_state wr)) (idem_map log)
}.

Lemma same_book_sym st st' : same_book st st' -> same_book st' st.
Proof. intros []. by split. Qed.

Lemma book_wf_default : book_wf BookState_default.
Proof.
  split; [done|intros k a Hk; cbn in Hk; by rewrite lookup_empty in Hk| |].
  - split; [constructor|]. intros k. cbn. rewrite lookup_empty. split; [by intros ?%elem_of_nil|by intros []].
  - intros id s p Hp. cbn in Hp. by rewrite lookup_empty in Hp.
Qed.

Lemma book_wf_same st st' : same_book st st' -> book_wf st -> order_ok (idem st') -> book_wf st'.
Proof.
  intros [E1 E2 E3 E4 E5] [? ? ? ?] Ho. split; rewrite ?E1, ?E2, ?E3, ?E5; done.
Qed.

Lemma apply_staged_replay st staged : apply_staged st staged = replay st (map (fun e => (wire e, pos e)) staged).
Proof.
  revert st. induction staged as [|e staged IH]; intros st; cbn; [done|].
  destruct (apply_event _ _ _); [apply IH|done].
Qed.

Lemma stamped_app st log st1 evs :
  replay st log = Ok st1 -> stamped (last_at st) (map fst log) -> stamped (last_at st1) evs ->
  stamped (last_at st) (map fst log ++ evs).
Proof.
  revert st. induction log as [|[ev p] log IH]; intros st Hr Hs He; cbn in *; [by simplify_eq|].
  destruct (apply_event st ev p) as [st2|] eqn:E; [|done]. destruct Hs as [Hs1 Hs2]. split; [done|].
  destruct (apply_event_stamp _ _ _ _ E) as [_ Hl]. rewrite <- Hl. apply IH; [done|by rewrite Hl|done].
Qed.

Lemma idem_runs_apply st ev p st1 : apply_event st ev p = Ok st1 -> runs (idem st1) = runs (idem st).
Proof. intros Ha. rewrite (apply_event_idem _ _ _ _ Ha). by destruct (event_pair ev) as [[k v]|]. Qed.

Lemma idem_runs_replay st log st1 : replay st log = Ok st1 -> runs (idem st1) = runs (idem st).
Proof.
  revert st. induction log as [|[ev p] log IH]; intros st Hr; cbn in Hr; [by simplify_eq|].
  destruct (apply_event st ev p) as [st2|] eqn:E; [|done]. rewrite (IH _ Hr). by eapply idem_runs_apply.
Qed.

(** The state between batches: next sequence number and last timestamp. *)
Lemma writer_inv_state w wr log :
  writer_inv w wr log -> next_seq (wr_state wr) = 1 + Z.of_nat (length log) /\
  (order_ok (idem (wr_state wr)) -> book_wf (wr_state wr)) /\
  forall evs, stamped (last_at (wr_state wr)) evs -> stamped None (log ++ evs).
Proof.
  intros [(sealed & act & st0 & Hla & <- & Hr & Hs) Hst _].
  pose proof (la_gapless _ _ _ _ _ Hla) as Hg.
  assert (map fst (positions (catalog (wr_segments wr)) (sealed ++ [act])) = concat (sealed ++ [act])) as Hev.
  { apply positions_events; [|done]. eapply ready_length, la_ready, Hla. }
  destruct (replay_wf BookState_default (positions (catalog (wr_segments wr)) (sealed ++ [act])) st0) as [Hwf Hn];
    [apply book_wf_default|by rewrite Hev..|done|]. rewrite <- (length_map fst), Hev in Hn.
  split_and!; [by rewrite (sb_seq _ _ Hs)|intros; by eapply book_wf_same|]. intros evs He. rewrite <- Hev.
  apply (stamped_app BookState_default _ st0); [done|by rewrite Hev|]. by rewrite <- (sb_at _ _ Hs).
Qed.

(** The write phase changes segments only. *)
Definition others_kept (w w' : World) : Prop := forall n, ~ is_segment n -> file_kept (dir w !! n) (dir w' !! n).

Lemma others_kept_refl w : others_kept w w.
Proof. intros n _. apply file_kept_refl. Qed.

Lemma others_kept_trans w1 w2 w3 : others_kept w1 w2 -> others_kept w2 w3 -> others_kept w1 w3.
Proof. intros H12 H23 n Hn. eapply file_kept_trans; auto. Qed.

Lemma others_kept_bytes w w' n : others_kept w w' -> ~ is_segment n -> bytes_at (dir w') n = bytes_at (dir w) n.
Proof.
  intros Hk Hn. specialize (Hk n Hn). unfold bytes_at. destruct (dir w !! n), (dir w' !! n); cbn in *; try done.
  by destruct Hk as (-> & _).
Qed.

Lemma keeps_others {A} (m : io A) w r w' : keeps_files m is_segment -> m w = (r, w') -> others_kept w w'.
Proof. intros Hk Hm n Hn. specialize (Hk w n Hn). by rewrite Hm in Hk. Qed.

Lemma rotate_others s next w r w' :
  is_segment (active s) -> maybe_rotate s next w = (r, w') ->
  others_kept w w' /\ forall s', r = Ok s' -> is_segment (active s').
Proof.
  intros Ha Hm. unfold maybe_rotate in Hm.
  destruct (_ <=? _); [|injection Hm as <- <-; split; [apply others_kept_refl|by intros s' [= <-]]].
  cbn zeta in Hm. pose proof (segment_name_is_segment next) as Hn. generalize dependent (segment_name next). intros nm Hm Hn.
  split.
  - eapply keeps_others; [|exact Hm]. apply keeps_bind; [by apply fs_sync_keeps|intros _].
    apply keeps_bind; [by apply fs_open_append_keeps|intros _]. apply keeps_bind; [apply fs_sync_dir_keeps|auto with talea].
  - intros s' ->. unfold io_bind in Hm. repeat case_match; try done. by injection Hm as <- <-.
Qed.

Lemma append_others s b w r w' :
  is_segment (active s) -> append s b w = (r, w') ->
  others_kept w w' /\ forall s', r = Ok s' -> is_segment (active s').
Proof.
  intros Ha Hm. split.
  - eapply keeps_others; [|exact Hm]. unfold append. apply keeps_bind; [by apply fs_append_keeps|auto with talea].
  - intros s' ->. unfold append in Hm. apply io_bind_Ok in Hm as ([] & w1 & _ & Hm). by injection Hm as <- <-.
Qed.

Lemma write_staged_others staged s w r w' :
  is_segment (active s) -> write_staged s staged w = (r, w') ->
  others_kept w w' /\ forall s' st', r = Ok (s', st') -> is_segment (active s').
Proof.
  revert s w r w'. induction staged as [|e staged IH]; intros s w r w' Ha Hw; cbn [write_staged] in Hw.
  { injection Hw as <- <-. split; [apply others_kept_refl|by intros s' st' [= <- <-]]. }
  unfold io_bind at 1, io_lift in Hw. destruct (map_err _ _) as [b|e0].
  2:{ injection Hw as <- <-. split; [apply others_kept_refl|done]. }
  unfold io_bind at 1 in Hw. destruct (maybe_rotate _ _ w) as [[s1|e1] w1] eqn:E1;
    destruct (rotate_others _ _ _ _ _ Ha E1) as [Ho1 Hs1]; [|by injection Hw as <- <-].
  specialize (Hs1 s1 eq_refl). cbn zeta in Hw. unfold io_bind at 1 in Hw.
  destruct (append s1 b w1) as [r2 w2] eqn:E2. destruct (append_others _ _ _ _ _ Hs1 E2) as [Ho2 Hs2].
  pose proof (others_kept_trans _ _ _ Ho1 Ho2) as Ho.
  destruct r2 as [s2|e2]; [|by injection Hw as <- <-]. specialize (Hs2 s2 eq_refl).
  unfold io_bind in Hw. destruct (write_staged s2 staged w2) as [r3 w3] eqn:E3.
  destruct (IH _ _ _ _ Hs2 E3) as [Ho3 Hs3]. pose proof (others_kept_trans _ _ _ Ho Ho3) as Ho'.
  destruct r3 as [[s3 st3]|e3]; injection Hw as <- <-; [|done]. split; [done|].
  intros s' st' [= <- <-]. by eapply Hs3.
Qed.

Lemma write_batch_others staged s w r w' :
  is_segment (active s) -> write_batch s staged w = (r, w') -> others_kept w w'.
Proof.
  intros Ha Hw. unfold write_batch in Hw. destruct staged as [|e staged0] eqn:Est; [injection Hw as <- <-; apply others_kept_refl|].
  rewrite <- Est in Hw. unfold io_bind in Hw. destruct (write_staged s staged w) as [r1 w1] eqn:E1.
  destruct (write_staged_others _ _ _ _ _ Ha E1) as [Ho Hs].
  destruct r1 as [[s1 st1]|e1]; [|by injection Hw as <- <-]. destruct (sync s1 w1) as [r2 w2] eqn:E2.
  assert (others_kept w w2) as Ho2.
  { eapply others_kept_trans; [exact Ho|]. eapply keeps_others; [|exact E2]. apply fs_sync_keeps. by eapply Hs. }
  destruct r2; by injection Hw as <- <-.
Qed.

(** The answers of a batch do not depend on where its frames went. *)
Lemma answers_same jobs staged staged' (rs : list Reply) :
  map job_idx staged' = map job_idx staged -> map wire staged' = map wire staged ->
  omap (answer_of jobs staged') rs = omap (answer_of jobs staged) rs /\
  omap (event_of staged') rs = omap (event_of staged) rs.
Proof.
  intros Hj Hw.
  assert (forall i, match staged' !! i, staged !! i with
    | Some e', Some e => job_idx e' = job_idx e /\ wire e' = wire e | None, None => True | _, _ => False end) as Hl.
  { intros i. apply (f_equal (fun l : list nat => l !! i)) in Hj. apply (f_equal (fun l : list WireEvent => l !! i)) in Hw.
    change (map job_idx) with (fmap (M := list) job_idx) in Hj. change (map wire) with (fmap (M := list) wire) in Hw.
    cbv beta in Hj, Hw. rewrite !list_lookup_fmap in Hj. rewrite !list_lookup_fmap in Hw. destruct (staged' !! i), (staged !! i); cbn in *; try done. by simplify_eq. }
  assert (forall r, answer_of jobs staged' r = answer_of jobs staged r /\ event_of staged' r = event_of staged r) as Hr.
  { intros [i rec|i sl|i e|i|sl]; cbn; try done; specialize (Hl sl);
      destruct (staged' !! sl) as [e1|], (staged !! sl) as [e2|]; cbn in *; try done;
      destruct Hl as [Hl1 Hl2]; unfold staged_committed; rewrite ?Hl1, ?Hl2; done. }
  split; induction rs as [|r rs IH]; cbn; try done; destruct (Hr r) as [Ha He]; by rewrite ?Ha, ?He, IH.
Qed.

Lemma keep_segments {A} (m : io A) (P : string -> Prop) w r w' :
  keeps_files m P -> (forall n, is_segment n -> ~ P n) -> m w = (r, w') ->
  forall n, is_segment n -> file_kept (dir w !! n) (dir w' !! n).
Proof. intros Hk Hp Hm n Hn. specialize (Hk w n (Hp n Hn)). by rewrite Hm in Hk. Qed.

Lemma keep_runs {A} (m : io A) w r w' t M :
  keeps_files m is_snap -> m w = (r, w') -> runs_named t -> idem_repr (dir w) t M -> idem_repr (dir w') t M.
Proof.
  intros Hk Hm Hn. apply repr_frame. intros meta Hin. unfold runs_named in Hn. rewrite Forall_forall in Hn.
  specialize (Hk w (rm_path meta) (run_not_snap _ (Hn _ Hin))). rewrite Hm in Hk. cbn in Hk. unfold bytes_at.
  destruct (dir w !! _), (dir w' !! _); cbn in *; try done. by destruct Hk as (-> & _).
Qed.

(** What the batch's last phase answers for its snapshot jobs. *)
Lemma snap_phase_frame st (snaps : list nat) w :
  exists (sa : list (nat * Answer)) w',
    snapshot_jobs st snaps w = (Ok sa, w') /\ map fst sa = snaps /\ Forall (fun p => exists r, p.2 = AnsUnit r) sa /\
    (forall n, is_segment n -> file_kept (dir w !! n) (dir w' !! n)) /\
    (forall t M, runs_named t -> idem_repr (dir w) t M -> idem_repr (dir w') t M).
Proof.
  destruct (explicit_snapshot_frame st) as [Hk Ht]. unfold snapshot_jobs.
  destruct snaps as [|i snaps0].
  { exists [], w. split_and!; [done|done|constructor|intros; apply file_kept_refl|done]. }
  destruct (Ht w) as (r & w' & Hw). unfold io_bind. rewrite Hw. eexists _, _. split; [done|].
  split_and!.
  - rewrite map_map. apply map_id.
  - apply Forall_fmap, Forall_true. intros j. cbn. eauto.
  - eapply keep_segments; [exact Hk| |exact Hw]. apply segment_not_snap.
  - intros t M Hn. by eapply keep_runs.
Qed.

Lemma finish_batch_at every inflight wr jobs b w r w' log M :
  writer_inv w wr log -> batch_inv (wr_state wr) M jobs (length jobs) b ->
  Z.of_nat (length log + length (b_staged b)) <= i64_max ->
  finish_batch every inflight wr jobs b w = (r, w') ->
  crash_holds (dir w') (length log) (log ++ wires b) /\
  (forall br, r = Ok br -> writer_inv w' (br_writer br) (log ++ wires b) /\
     (exists sa, br_answers br = omap (answer_of jobs (b_staged b)) (b_replies b) ++ sa /\
        map fst sa = b_snaps b /\ Forall (fun p => exists r, p.2 = AnsUnit r) sa) /\
     br_events br = map sequenced (wires b) /\
     (idem_repr (dir w) (idem (wr_state wr)) M -> next_run_n (runs (idem (wr_state wr))) < u64_max ->
      idem_repr (dir w') (idem (wr_state (br_writer br))) (foldl idem_step M (wires b)))) /\
  (faults w = [] -> (forall ev, ev ∈ wires b -> exists bs, encode_frame ev = Ok bs) -> exists br, r = Ok br).
Proof.
  intros Hwi Hbi Hmax Hf. destruct (writer_inv_state _ _ _ Hwi) as (Hnext & _ & Hstamp).
  pose proof Hwi as [(sealed & act & st0 & Hla & Hlog & Hrep & Hsame) Hst Hruns].
  pose proof (log_at_active _ _ _ _ _ Hla) as Hact.
  unfold finish_batch in Hf. unfold io_bind at 1 in Hf.
  destruct (write_batch (wr_segments wr) (b_staged b) w) as [r1 w1] eqn:Ew.
  destruct (write_batch_at (b_staged b) w (wr_segments wr) sealed act r1 w1 Hla) as (Hcr & Hok & Hnf); [|by rewrite Hlog|done|].
  { rewrite Hlog, <- Hnext. apply (bi_gapless _ _ _ _ _ Hbi). }
  rewrite Hlog in Hcr, Hok. fold (wires b) in *. pose proof (write_batch_others _ _ _ _ _ Hact Ew) as Hothers.
  destruct r1 as [[s1 st1]|e1].
  2:{ injection Hf as <- <-. split_and!; [done..|]. intros Hf0 Henc. exfalso.
      destruct (Hnf Hf0) as (_ & x & ?); [|done]. intros e He. destruct (Henc (wire e)) as [bs ->]; [|done].
      by apply list_elem_of_fmap_2. }
  destruct (Hok s1 st1 eq_refl) as (sealed' & act' & Hla' & Hcat & Hj & Hw & Hpos). clear Hok.
  assert (exists stn, apply_staged (wr_state wr) st1 = Ok stn /\
    replay (wr_state wr) (map (fun e => (wire e, pos e)) st1) = Ok stn) as (stn & Happ & Happ').
  { destruct (reached_apply _ _ _ (map pos st1) (bi_reached _ _ _ _ _ Hbi)) as (stn & Hstn & _).
    { rewrite <- Hw, !length_map. done. }
    exists stn. rewrite apply_staged_replay. split; [|]; rewrite <- Hstn; f_equal; rewrite <- Hw;
      clear; induction st1; cbn; congruence. }
  assert (map fst (map (fun e => (wire e, pos e)) st1) = wires b) as Hfst by (rewrite map_map; exact Hw).
  unfold io_bind at 1, io_lift in Hf. rewrite Happ in Hf.
  assert (runs_named (idem stn)) as Hrn by (unfold runs_named; by rewrite (idem_runs_replay _ _ _ Happ')).
  destruct (flush_if_needed_frame stn Hrn) as [Hk2 Ht2]. destruct (Ht2 w1) as (t2 & w2 & Hfl & Hrn2).
  unfold io_bind at 1 in Hf. rewrite Hfl in Hf. cbn zeta in Hf.
  destruct (snap_phase_frame (set_idem stn t2) (b_snaps b) w2) as (sa & w3 & Hsnap & Hsa1 & Hsa2 & Hk3 & Hr3).
  unfold io_bind at 1 in Hf. rewrite Hsnap in Hf.
  assert (exists br, r = Ok br /\ w' = w3 /\ wr_segments (br_writer br) = s1 /\ wr_state (br_writer br) = set_idem stn t2 /\
    br_answers br = omap (answer_of jobs st1) (b_replies b) ++ sa /\ br_events br = omap (event_of st1) (b_replies b))
    as (br & -> & -> & Hbs & Hbst & Hba & Hbe) by (injection Hf as <- <-; eexists; split; [done|]; done).
  destruct (answers_same jobs (b_staged b) st1 (b_replies b) Hj Hw) as [Ha He]. rewrite Ha in Hba. rewrite He in Hbe.
  assert (forall n, is_segment n -> file_kept (dir w1 !! n) (dir w3 !! n)) as Hkeep.
  { intros n Hn. eapply file_kept_trans; [|by apply Hk3]. by eapply keep_segments; [exact Hk2|apply segment_not_run|exact Hfl|]. }
  assert (writer_inv w3 (br_writer br) (log ++ wires b)) as Hwi'.
  { split; rewrite ?Hbs, ?Hbst.
    - destruct (replay_same _ _ _ _ (same_book_sym _ _ Hsame) Happ') as (stn0 & Hstn0 & Hsn).
      exists sealed', act', stn0. split_and!; [by eapply log_at_keep|by rewrite Hcat| |].
      + by rewrite Hpos, replay_app, Hrep.
      + eapply same_book_trans; [by apply same_book_sym|]. done.
    - apply Hstamp, (bi_stamped _ _ _ _ _ Hbi).
    - done. }
  split_and!; [| |by eauto].
  - destruct (wi_log _ _ _ Hwi') as (sl & ac & ? & Hla3 & Hc3 & _). rewrite <- Hc3.
    eapply ready_crash_holds; [apply (la_ready _ _ _ _ _ Hla3)|].
    apply (f_equal length) in Hc3. rewrite concat_snoc, !length_app in Hc3. lia.
  - intros br' [= <-]. split_and!; [done| | |].
    + by exists sa.
    + by rewrite Hbe, (bi_events _ _ _ _ _ Hbi).
    + intros Hrepr Hrun. rewrite Hbst. apply Hr3; [done|].
      assert (idem_repr (dir w1) (idem (wr_state wr)) M) as Hr1.
      { eapply repr_frame, Hrepr. intros meta Hin. apply (others_kept_bytes _ _ _ Hothers). intros Hseg.
        unfold runs_named in Hruns. rewrite Forall_forall in Hruns. by eapply segment_not_run, Hruns. }
      pose proof (bi_fresh _ _ _ _ _ Hbi) as Hfr. rewrite <- Hfst in Hfr |- *.
      pose proof (replay_repr _ _ _ _ _ Hr1 Hfr Happ') as Hr2.
      unfold flush_if_needed in Hfl. destruct (needs_flush (idem stn)).
      * unfold io_bind in Hfl. destruct (flush_spill (idem stn) w1) as [rf wf] eqn:Eflush.
        destruct (flush_spill_spec _ _ _ _ _ _ eq_refl Hr2 ltac:(by rewrite (idem_runs_replay _ _ _ Happ')) Eflush)
          as (t' & -> & Hr4 & _). apply (f_equal (fun x => (match x.1 with Ok s => idem s | Err _ => TieredIdem_default end, x.2))) in Hfl.
        cbn in Hfl |- *. by injection Hfl as <- <-.
      * apply (f_equal (fun x => (match x.1 with Ok s => idem s | Err _ => TieredIdem_default end, x.2))) in Hfl.
        cbn in Hfl |- *. by injection Hfl as <- <-.
Qed.

(** ** The lookups of a batch *)

Lemma lookup_in_total metas key w : exists o w', lookup_in metas key w = (Ok o, w') /\ dir w' = dir w.
Proof.
  revert w. induction metas as [|m metas IH]; intros w; cbn [lookup_in]; [by eexists _, _|].
  case_match; [apply IH|]. unfold io_bind, io_try.
  assert (dir (read_run (rm_path m) w).2 = dir w) as Hd.
  { unfold read_run, io_bind. pose proof (fs_read_dir_same (rm_path m) w) as E. by destruct (fs_read _ w) as [[|] ?]. }
  destruct (read_run (rm_path m) w) as [[ps|e] w1]; cbn in Hd; rewrite <- Hd; [|apply IH].
  case_match; [by eexists _, _|apply IH].
Qed.

Lemma resolve_disk_total st ks res w : exists d w', resolve_disk st ks res w = (Ok d, w') /\ dir w' = dir w.
Proof.
  revert res w. induction ks as [|k ks IH]; intros res w; cbn [resolve_disk]; [by eexists _, _|].
  case_match; [apply IH|]. cbn zeta. unfold io_bind, lookup_runs. cbn [runs].
  destruct (lookup_in_total (reverse (runs (idem st))) k w) as (o & w1 & -> & <-). apply IH.
Qed.

Lemma resolve_disk_exact st ks res w M :
  idem_repr (dir w) (idem st) M -> faults w = [] ->
  Forall (fun k => hot (idem st) !! k = None -> might_contain (bloom (idem st)) k = true) ks ->
  (forall k v, res !! k = Some v -> M !! k = Some v) ->
  exists d, resolve_disk st ks res w = (Ok d, w) /\ (forall k v, d !! k = Some v -> M !! k = Some v) /\
    (forall k, k ∈ ks \/ is_Some (res !! k) -> d !! k = M !! k).
Proof.
  intros Hr Hf. revert res. induction ks as [|k ks IH]; intros res Hks Hres; cbn [resolve_disk].
  { exists res. split_and!; [done|done|]. intros k [?%elem_of_nil|[v Hv]]; [done|]. by rewrite Hv, (Hres _ _ Hv). }
  inversion Hks as [|? ? Hk Hks']; subst. unfold get_hot.
  assert (forall v, M !! k = Some v -> exists d, resolve_disk st ks (<[k := v]> res) w = (Ok d, w) /\
    (forall k' v', d !! k' = Some v' -> M !! k' = Some v') /\ (forall k', k' ∈ k :: ks \/ is_Some (res !! k') -> d !! k' = M !! k')) as Hins.
  { intros v Hv. destruct (IH (<[k := v]> res)) as (d & Hd & H1' & H2'); [done| |].
    - intros k' v' Hk'. destruct (decide (k' = k)) as [->|Hne]; [rewrite lookup_insert_eq in Hk'; congruence|].
      rewrite lookup_insert_ne in Hk' by done. auto.
    - exists d. split_and!; [done|done|]. intros k' Hin. apply H2'.
      destruct (decide (k' = k)) as [->|Hne]; [right; rewrite lookup_insert_eq; eauto|]. rewrite lookup_insert_ne by done.
      destruct Hin as [[?|?]%elem_of_cons|?]; [done|by left|by right]. }
  destruct (hot (idem st) !! k) as [rec|] eqn:Eh; [apply Hins; by eapply lookup_weaken; [|apply (repr_hot _ _ _ Hr)]|].
  cbn zeta. unfold io_bind. specialize (Hk eq_refl).
  assert (lookup_runs (mkTieredIdem (hot (with_cap 1)) (order (with_cap 1)) (cap (with_cap 1)) (runs (idem st)) (bloom (with_cap 1))) k
    = idem_get (idem st) k) as -> by (unfold idem_get; by rewrite Eh, Hk).
  destruct (idem_get (idem st) k w) as [r w1] eqn:Eg.
  destruct (idem_get_spec _ _ _ _ _ _ _ eq_refl Hr Eg) as (_ & o & -> & _ & Hex). destruct (Hex Hf) as [-> ->].
  destruct (M !! k) as [v|] eqn:EM; [by apply Hins|].
  destruct (IH res Hks' Hres) as (d & Hd & H1' & H2'). exists d. split_and!; [done|done|].
  intros k' [[->|?]%elem_of_cons|?]; [|apply H2'; by left|apply H2'; by right].
  rewrite EM. destruct (d !! k) as [v|] eqn:Ed; [|done]. specialize (H1' _ _ Ed). congruence.
Qed.

(** On a disk that does not fail the lookups of a batch agree with the log. *)
Lemma batch_lookups st jobs w M :
  idem_repr (dir w) (idem st) M -> faults w = [] ->
  exists d, resolve_disk st (bloom_positive_keys st jobs) ∅ w = (Ok d, w) /\
    forall tx, JCommit tx ∈ jobs -> committed_lookup st d (tx_idem tx) = M !! tx_idem tx.
Proof.
  intros Hr Hf.
  destruct (resolve_disk_exact st (bloom_positive_keys st jobs) ∅ w M Hr Hf) as (d & Hd & H1' & H2').
  { apply Forall_forall. intros k Hk. unfold bloom_positive_keys in Hk. apply list_elem_of_omap in Hk as (job & _ & Hjob).
    destruct job as [tx| | |]; try done. unfold get_hot, bloom_might_contain in Hjob.
    destruct (hot _ !! tx_idem tx) eqn:E; [done|]. destruct (might_contain _ _) eqn:Eb; [|done]. by injection Hjob as <-. }
  { intros k v Hk. by rewrite lookup_empty in Hk. }
  exists d. split; [done|]. intros tx Hin. unfold committed_lookup, get_hot.
  destruct (hot (idem st) !! tx_idem tx) as [rec|] eqn:Eh.
  { symmetry. by eapply lookup_weaken; [|apply (repr_hot _ _ _ Hr)]. }
  destruct (might_contain (bloom (idem st)) (tx_idem tx)) eqn:Eb.
  - apply H2'. left. unfold bloom_positive_keys. apply list_elem_of_omap. exists (JCommit tx). split; [done|].
    unfold get_hot, bloom_might_contain. by rewrite Eh, Eb.
  - destruct (idem_get (idem st) (tx_idem tx) w) as [r w1] eqn:Eg.
    destruct (idem_get_spec _ _ _ _ _ _ _ eq_refl Hr Eg) as (_ & o & -> & _ & Hex). destruct (Hex Hf) as [_ Ho].
    unfold idem_get in Eg. rewrite Eh, Eb in Eg. injection Eg as <- _. rewrite <- Ho.
    destruct (d !! tx_idem tx) as [v|] eqn:Ed; [|done]. specialize (H1' _ _ Ed). congruence.
Qed.

Lemma staged_le jobs n st M b : batch_inv st M jobs n b -> (length (b_staged b) <= n)%nat.
Proof.
  intros Hb. assert (length (map sequenced (wires b)) <= length (omap (answer_of jobs (b_staged b)) (b_replies b)))%nat as Hle.
  { rewrite <- (bi_events _ _ _ _ _ Hb). pose proof (bi_jobs _ _ _ _ _ Hb) as Hj.
    assert (forall r, is_Some (event_of (b_staged b) r) -> is_Some (answer_of jobs (b_staged b) r)) as Hr.
    { intros [| | | |sl] [x Hx]; try done. cbn in *. destruct (b_staged b !! sl) as [e|] eqn:E; [|done].
      destruct (Hj e) as (job & Hjob & Hev); [by eapply list_elem_of_lookup_2|]. cbn. rewrite Hjob. destruct job; cbn; eauto. done. }
    induction (b_replies b) as [|r rs IH]; cbn; [lia|]. specialize (Hr r).
    destruct (event_of (b_staged b) r), (answer_of jobs (b_staged b) r); cbn; try lia.
    destruct Hr as [? ?]; [eauto|done]. }
  rewrite length_map in Hle. unfold wires in Hle. rewrite length_map in Hle.
  pose proof (Permutation_length (bi_once _ _ _ _ _ Hb)) as Hp. rewrite length_app, length_map, length_seq in Hp. lia.
Qed.

Lemma run_batch_classified clock every inflight wr jobs w r w' :
  run_batch clock every inflight wr jobs w = (r, w') ->
  exists M d w1 b, dir w1 = dir w /\ resolve_disk (wr_state wr) (bloom_positive_keys (wr_state wr) jobs) ∅ w = (Ok d, w1) /\
    batch_inv (wr_state wr) M jobs (length jobs) b /\ finish_batch every inflight wr jobs b w1 = (r, w').
Proof.
  intros Hrb. unfold run_batch in Hrb. cbn zeta in Hrb.
  destruct (resolve_disk_total (wr_state wr) (bloom_positive_keys (wr_state wr) jobs) ∅ w) as (d & w1 & Hd & Hdir).
  unfold io_bind at 1 in Hrb. rewrite Hd in Hrb. unfold io_bind, io_lift in Hrb.
  destruct (classify_batch (wr_state wr) (hot (idem (wr_state wr)) ∪ d) d clock jobs) as (b & Hb & Hbi).
  { intros tx _. unfold committed_lookup, get_hot. rewrite lookup_union.
    by destruct (hot _ !! tx_idem tx), (d !! tx_idem tx). }
  rewrite Hb in Hrb. exists (hot (idem (wr_state wr)) ∪ d), d, w1, b. done.
Qed.

Lemma writer_inv_dir w w' wr log : dir w' = dir w -> writer_inv w wr log -> writer_inv w' wr log.
Proof.
  intros Hd [(sealed & act & st0 & Hla & ? & ? & ?) ? ?]. split; try done. exists sealed, act, st0. split_and!; try done.
  eapply log_at_keep; [|done]. intros n _. rewrite Hd. apply file_kept_refl.
Qed.

Lemma prefix_le {A} (l1 l2 l : list A) :
  l1 `prefix_of` l -> l2 `prefix_of` l -> (length l1 <= length l2)%nat -> l1 `prefix_of` l2.
Proof.
  intros [k1 ->] [k2 E] Hl. exists (take (length l2 - length l1) k1).
  apply (f_equal (take (length l2))) in E. rewrite (take_app_length l2), take_app_ge in E by done. done.
Qed.

(** Reopening what a crash left. *)
Lemma crash_reopen d d' log all mx :
  crash_holds d (length log) all -> log `prefix_of` all -> crash d d' ->
  exists s w' sealed act nd, open_with_max mx (mkWorld d' []) = (Ok s, w') /\ faults w' = [] /\
    log_ready w' s sealed act nd /\ log `prefix_of` concat (sealed ++ [act]) /\ concat (sealed ++ [act]) `prefix_of` all.
Proof.
  intros Hc Hpre Hcr. destruct (Hc d' Hcr) as (c & sealed & act & nd & Hd & Hb & Hn & Hlo & Hall).
  destruct (open_spec (mkWorld d' []) c sealed act nd mx eq_refl Hd Hb Hn) as (s & w' & m & Ho & Hf & Hm & Hr & _).
  assert (concat (sealed ++ [take m act]) `prefix_of` all) as Hall'.
  { etrans; [|exact Hall]. rewrite !concat_snoc. apply prefix_app. exists (drop m act). by rewrite take_drop. }
  exists s, w', sealed, (take m act), nd. split_and!; try done.
  eapply prefix_le; [done|done|]. rewrite concat_snoc, length_app, length_take. lia.
Qed.

Lemma writer_inv_reopen w wr log mx :
  writer_inv w wr log -> gapless 1 log /\
  forall d', crash (dir w) d' -> exists s w' sealed act nd,
    open_with_max mx (mkWorld d' []) = (Ok s, w') /\ log_ready w' s sealed act nd /\ log `prefix_of` concat (sealed ++ [act]).
Proof.
  intros Hwi. destruct (wi_log _ _ _ Hwi) as (sl & ac & ? & Hla & Hcat & _).
  split; [rewrite <- Hcat; apply (la_gapless _ _ _ _ _ Hla)|]. intros d' Hcr.
  destruct (crash_reopen (dir w) d' log log mx) as (s & w'' & sealed & act & nd & ? & _ & ? & ? & _); [|done|done|].
  - rewrite <- Hcat. eapply ready_crash_holds; [apply (la_ready _ _ _ _ _ Hla)|]. by rewrite concat_snoc, length_app.
  - by exists s, w'', sealed, act, nd.
Qed.

(** A batch, whatever the disk does. *)
Lemma run_batch_inv clock every inflight wr jobs w r w' log :
  writer_inv w wr log -> Z.of_nat (length log + length jobs) <= i64_max ->
  run_batch clock every inflight wr jobs w = (r, w') ->
  exists evs, crash_holds (dir w') (length log) (log ++ evs) /\
    (forall br, r = Ok br -> writer_inv w' (br_writer br) (log ++ evs) /\ br_events br = map sequenced evs /\
      crash_holds (dir w') (length (log ++ evs)) (log ++ evs) /\ (length evs <= length jobs)%nat).
Proof.
  intros Hwi Hmax Hrb. destruct (run_batch_classified _ _ _ _ _ _ _ _ Hrb) as (M & d & w1 & b & Hdir & _ & Hbi & Hfin).
  pose proof (staged_le _ _ _ _ _ Hbi) as Hle.
  destruct (finish_batch_at _ _ _ _ _ _ _ _ _ _ (writer_inv_dir _ _ _ _ Hdir Hwi) Hbi ltac:(lia) Hfin) as (Hc & Hok & _).
  exists (wires b). split; [done|]. intros br ->. destruct (Hok br eq_refl) as (Hwi' & _ & Hev & _).
  split_and!; [done|done| |by unfold wires; rewrite length_map].
  destruct (wi_log _ _ _ Hwi') as (sl & ac & ? & Hla & Hcat & _). rewrite <- Hcat.
  eapply ready_crash_holds; [apply (la_ready _ _ _ _ _ Hla)|]. by rewrite concat_snoc, length_app.
Qed.

(** ** Guarantees *)

(** C1: a batch is crash-safe at every point.  Whatever the disk does during
    it, a crash at the end of the batch (answered, or ended by a fatal error
    at any call) leaves a directory that reopens, to a log that has all
    events acknowledged before, and those of this batch if it was answered,
    and nothing but a prefix of what the batch wrote after them.  An answered
    batch leaves the state equal to the replay of the log again. *)
Theorem batch_crash_safe (clock : nat -> DateTime) (every : Z) (inflight : bool) (wr : BookWriter) (jobs : list Job)
    (w w' : World) (r : result BatchResult string) (log : list WireEvent) (mx : Z) :
  writer_inv w wr log -> Z.of_nat (length log + length jobs) <= i64_max ->
  run_batch clock every inflight wr jobs w = (r, w') ->
  exists evs,
    (forall br, r = Ok br -> writer_inv w' (br_writer br) (log ++ evs)) /\
    (forall d', crash (dir w') d' -> exists s w'' sealed act nd,
      open_with_max mx (mkWorld d' []) = (Ok s, w'') /\ log_ready w'' s sealed act nd /\
      (if is_ok r then log ++ evs else log) `prefix_of` concat (sealed ++ [act]) /\
      concat (sealed ++ [act]) `prefix_of` log ++ evs).
Proof.
  intros Hwi Hmax Hrb. destruct (run_batch_inv _ _ _ _ _ _ _ _ _ Hwi Hmax Hrb) as (evs & Hc & Hok).
  exists evs. split; [intros br Hr; by apply Hok|]. intros d' Hcr.
  assert (crash_holds (dir w') (length (if is_ok r then log ++ evs else log)) (log ++ evs)) as Hc'.
  { destruct r as [br|e]; [|done]. by apply (Hok br). }
  assert ((if is_ok r then log ++ evs else log) `prefix_of` log ++ evs) as Hpre
    by (destruct r; cbn; [done|by apply prefix_app_r]).
  destruct (crash_reopen _ _ _ _ mx Hc' Hpre Hcr) as (s & w'' & sealed & act & nd & ? & _ & ? & ? & ?).
  by exists s, w'', sealed, act, nd.
Qed.

(** C3: subscribers are never shown an event that a crash takes back.  Over any
    run of the writer, over any queue and with any disk errors, the events
    broadcast are, in order and without gaps, the events [evs] that follow
    the log, and whatever a crash leaves afterwards reopens to a log with
    all of them. *)
Theorem loop_broadcasts_durable_events (fuel : nat) (clock : nat -> nat -> DateTime) (inflight : nat -> bool)
    (batch_max : nat) (every : Z) (wr : BookWriter) (queue : list Job) (w w' : World)
    (r : result (option BookWriter * list (list (nat * Answer) * list (Sequenced LedgerEvent))) string)
    (log : list WireEvent) (mx : Z) :
  writer_inv w wr log -> Z.of_nat (length log + length queue) <= i64_max ->
  run_loop fuel clock inflight batch_max every wr queue w = (r, w') ->
  exists o out evs, r = Ok (o, out) /\ concat (map snd out) = map sequenced evs /\ gapless 1 (log ++ evs) /\
    (forall wr', o = Some wr' -> writer_inv w' wr' (log ++ evs)) /\
    (forall d', crash (dir w') d' -> exists s w'' sealed act nd,
      open_with_max mx (mkWorld d' []) = (Ok s, w'') /\ log_ready w'' s sealed act nd /\
      log ++ evs `prefix_of` concat (sealed ++ [act])).
Proof.
  revert wr queue w r log. induction fuel as [|fuel IH]; intros wr queue w r log Hwi Hmax Hrun.
  all: cbn [run_loop] in Hrun; destruct (writer_inv_reopen _ _ _ mx Hwi) as [Hg0 Hc0].
  { injection Hrun as <- <-. exists (Some wr), [], []. rewrite app_nil_r. split_and!; try done. by intros wr' [= <-]. }
  destruct queue as [|job0 queue0].
  { injection Hrun as <- <-. exists (Some wr), [], []. rewrite app_nil_r. split_and!; try done. by intros wr' [= <-]. }
  remember (job0 :: queue0) as queue eqn:Eq.
  destruct (drain_jobs batch_max queue) as [jobs rest] eqn:Ed.
  assert (length jobs + length rest = length queue)%nat as Hlen.
  { rewrite Eq in Ed |- *. cbn in Ed. injection Ed as <- <-. cbn. by rewrite <- length_app, take_drop. }
  unfold io_bind at 1, io_try at 1 in Hrun.
  destruct (run_batch (clock fuel) every (inflight fuel) wr jobs w) as [r1 w1] eqn:Eb.
  assert (Z.of_nat (length log + length jobs) <= i64_max) as Hmax1 by lia.
  destruct (run_batch_inv _ _ _ _ _ _ _ _ _ Hwi Hmax1 Eb) as (evs1 & Hc1 & Hok1).
  destruct r1 as [br|e].
  - destruct (Hok1 br eq_refl) as (Hwi1 & Hev1 & _ & Hl1). unfold io_bind in Hrun.
    destruct (run_loop fuel clock inflight batch_max every (br_writer br) rest w1) as [r2 w2] eqn:E2.
    assert (w2 = w') as -> by (destruct r2 as [[? ?]|]; by injection Hrun).
    assert (Z.of_nat (length (log ++ evs1) + length rest) <= i64_max) as Hmax2 by (rewrite length_app; lia).
    destruct (IH _ _ _ _ _ Hwi1 Hmax2 E2) as (o & out & evs & -> & Hout & Hg & Ho & Hcr).
    injection Hrun as <-. exists o, ((br_answers br, br_events br) :: out), (evs1 ++ evs). cbn.
    rewrite app_assoc, map_app, Hev1, Hout. by split_and!.
  - injection Hrun as <- <-. exists None, [], []. rewrite app_nil_r.
    split_and!; try done. intros d' Hcr.
    destruct (crash_reopen _ _ _ _ mx Hc1 (prefix_app_r _ _ _ (reflexivity log)) Hcr)
      as (s & w'' & sealed & act & nd & ? & _ & ? & ? & _). by exists s, w'', sealed, act, nd.
Qed.

Lemma fresh_keys_app M l r : fresh_keys M l -> fresh_keys (foldl idem_step M l) r -> fresh_keys M (l ++ r).
Proof.
  intros Hl Hr. induction r as [|ev r IH] using rev_ind; [by rewrite app_nil_r|].
  rewrite app_assoc. apply fresh_keys_snoc.
  - apply IH. intros l0 e r0 k v -> He. apply (Hr l0 e (r0 ++ [ev]) k v); [by rewrite <- app_assoc|done].
  - intros k v Hp. rewrite foldl_app. by apply (Hr r ev [] k v).
Qed.

Lemma batch_answered (clock : nat -> DateTime) (every : Z) (inflight : bool) (wr : BookWriter) (jobs : list Job)
    (w : World) (log : list WireEvent) :
  ledger_inv w wr log -> faults w = [] -> Z.of_nat (length log + length jobs) <= i64_max ->
  next_run_n (runs (idem (wr_state wr))) < u64_max ->
  (forall d b, resolve_disk (wr_state wr) (bloom_positive_keys (wr_state wr) jobs) ∅ w = (Ok d, w) ->
     classify (wr_state wr) d clock 0 jobs (start_batch (wr_state wr) clock) = Ok b ->
     forall ev, ev ∈ wires b -> exists bs, encode_frame ev = Ok bs) ->
  exists br w' evs, run_batch clock every inflight wr jobs w = (Ok br, w') /\
    ledger_inv w' (br_writer br) (log ++ evs) /\ br_events br = map sequenced evs /\
    map fst (br_answers br) ≡ₚ seq 0 (length jobs) /\
    (forall i a, (i, a) ∈ br_answers br -> exists job, jobs !! i = Some job /\
       answer_right (wr_state wr) (idem_map log) evs job a).
Proof.
  intros [Hwi Honce Hidem] Hf Hmax Hrun Henc.
  destruct (batch_lookups (wr_state wr) jobs w _ Hidem Hf) as (d & Hd & Hlook).
  destruct (classify_batch (wr_state wr) (idem_map log) d clock jobs Hlook) as (b & Hb & Hbi).
  pose proof (staged_le _ _ _ _ _ Hbi) as Hle.
  unfold run_batch. cbn zeta. unfold io_bind at 1. rewrite Hd. unfold io_bind, io_lift. rewrite Hb.
  destruct (finish_batch every inflight wr jobs b w) as [r w'] eqn:Efin.
  assert (Z.of_nat (length log + length (b_staged b)) <= i64_max) as Hmax' by lia.
  destruct (finish_batch_at _ _ _ _ _ _ _ _ _ _ Hwi Hbi Hmax' Efin) as (_ & Hok & Hnf).
  destruct (Hnf Hf (Henc d b Hd Hb)) as [br ->].
  destruct (Hok br eq_refl) as (Hwi' & (sa & Hans & Hsa & Hunit) & Hev & Hrepr).
  exists br, w', (wires b). split_and!; [done| |done| |].
  - split; [done| |].
    + apply fresh_keys_app; [done|]. apply (bi_fresh _ _ _ _ _ Hbi).
    + rewrite idem_map_app. auto.
  - rewrite Hans, map_app, Hsa. apply (bi_once _ _ _ _ _ Hbi).
  - intros i a Hin. rewrite Hans in Hin. apply elem_of_app in Hin as [Hin|Hin]; [by apply (bi_right _ _ _ _ _ Hbi)|].
    exists JSnapshot. split.
    + apply (bi_snaps _ _ _ _ _ Hbi). rewrite <- Hsa. by apply (list_elem_of_fmap_2 fst _ (i, a)).
    + rewrite Forall_forall in Hunit. destruct (Hunit _ Hin) as [r' Hr']. cbn in Hr'. by rewrite Hr'.
Qed.


(** A writer over a new book. *)
Lemma spawn_fresh d mx n :
  0 < mx -> (forall name, is_Some (d !! name) -> parse_base name = None) ->
  exists wr w', spawn mx (set_idem BookState_default (with_cap n)) (mkWorld d []) = (Ok wr, w') /\
    faults w' = [] /\ ledger_inv w' wr [].
Proof.
  intros Hmx Hno. destruct (open_fresh d mx Hno) as (s & w' & Ho & Hf & Hr & Hc & Hm).
  unfold spawn, io_bind. rewrite Ho. eexists _, w'. split_and!; [done|done|]. split.
  - split; [|done|constructor]. exists [], [], BookState_default. cbn [wr_segments wr_state].
    split_and!; [|done| |done].
    + split; [done|intros i e ?; done|by rewrite Hm|]. intros e He. rewrite Hc in He. cbn in He. by injection He as <-.
    + by rewrite Hc.
  - intros l ev r k v E. by destruct l.
  - apply with_cap_repr.
Qed.
End spec.

(** ** A new book, evaluated *)

Module WriterDemo.
Export Demo.
#[export] Instance demo_hash_iter : HashIter := some_hash_iter.
#[export] Instance demo_hash_iter_laws : HashIterLaws := some_hash_iter_laws.
#[export] Instance demo_event_json : Json WireEvent := CountableJson WireEvent.
#[export] Instance demo_event_json_laws : JsonLaws WireEvent := CountableJson_laws WireEvent.
#[export] Instance demo_image_json : Json StateImage := CountableJson StateImage.
#[export] Instance demo_image_json_laws : JsonLaws StateImage := CountableJson_laws StateImage.
End WriterDemo.

Section writer_demo.
Import WriterDemo.

Definition new_book : BookState := set_idem BookState_default (with_cap 4).
Definition demo_spawned : result BookWriter string * World := spawn 4096 new_book (mkWorld ∅ []).
Definition demo_writer : BookWriter :=
  match demo_spawned.1 with Ok wr => wr | Err _ => mkBookWriter new_book (mkSegmentSet [] "" 0 0) 0 end.
Definition demo_world : World := demo_spawned.2.
Definition noon (_ : nat) : DateTime := 1200.

Lemma demo_ledger : ledger_inv demo_world demo_writer [] /\ faults demo_world = [].
Proof.
  destruct (spawn_fresh ∅ 4096 4) as (wr & w & Hs & Hf & Hi); [done|intros n [f Hn]; by rewrite lookup_empty in Hn|].
  unfold demo_world, demo_writer, demo_spawned, new_book. by rewrite Hs.
Qed.

Definition cash_cfg : AccountCfg := mkAccountCfg (Some Debit) (Some 0).
Definition open_cash : Job := JOpenAccount (demo_def "cash" Asset) cash_cfg.
Definition open_sales : Job := JOpenAccount (demo_def "sales" Income) (mkAccountCfg (Some Credit) None).

Definition demo_jobs : list Job := [open_cash; JCommit sale; JSnapshot; open_sales].


(** The second append stops after three bytes. *)
Definition torn_world : World := mkWorld (dir demo_world) [None; Some 3%nat].

Lemma batch_crash_safe_witness :
  is_ok (run_batch noon 0 false demo_writer demo_jobs torn_world).1 = false /\
  exists evs,
    (forall br, (run_batch noon 0 false demo_writer demo_jobs torn_world).1 = Ok br ->
       writer_inv (run_batch noon 0 false demo_writer demo_jobs torn_world).2 (br_writer br) ([] ++ evs)) /\
    (forall d', crash (dir (run_batch noon 0 false demo_writer demo_jobs torn_world).2) d' -> exists s w'' sealed act nd,
      open_with_max 4096 (mkWorld d' []) = (Ok s, w'') /\ log_ready w'' s sealed act nd /\
      (if is_ok (run_batch noon 0 false demo_writer demo_jobs torn_world).1 then [] ++ evs else [])
        `prefix_of` concat (sealed ++ [act]) /\
      concat (sealed ++ [act]) `prefix_of` [] ++ evs).
Proof.
  split; [vm_compute; reflexivity|].
  apply (batch_crash_safe noon 0 false demo_writer demo_jobs torn_world _ _ [] 4096).
  - apply (writer_inv_dir demo_world); [reflexivity|]. apply (li_writer _ _ _ (proj1 demo_ledger)).
  - vm_compute. discriminate.
  - apply surjective_pairing.
Defined.

Lemma loop_broadcasts_durable_events_witness :
  exists o out evs,
    (run_loop 2 (fun _ => noon) (fun _ => false) 1 0 demo_writer [open_cash; open_sales] demo_world).1 = Ok (o, out) /\
    concat (map snd out) = map sequenced evs /\ gapless 1 ([] ++ evs) /\
    (forall wr', o = Some wr' -> writer_inv
      (run_loop 2 (fun _ => noon) (fun _ => false) 1 0 demo_writer [open_cash; open_sales] demo_world).2 wr' ([] ++ evs)) /\
    (forall d', crash (dir (run_loop 2 (fun _ => noon) (fun _ => false) 1 0 demo_writer [open_cash; open_sales] demo_world).2) d' ->
      exists s w'' sealed act nd, open_with_max 4096 (mkWorld d' []) = (Ok s, w'') /\ log_ready w'' s sealed act nd /\
      [] ++ evs `prefix_of` concat (sealed ++ [act])).
Proof.
  apply (loop_broadcasts_durable_events 2 (fun _ => noon) (fun _ => false) 1 0 demo_writer [open_cash; open_sales]
    demo_world _ _ [] 4096).
  - apply (li_writer _ _ _ (proj1 demo_ledger)).
  - vm_compute. discriminate.
  - apply surjective_pairing.
Defined.

(** The same account opened twice in one batch, with two definitions. *)
Definition open_cash_again : Job := JOpenAccount (demo_def "cash" Liability) (mkAccountCfg (Some Credit) None).

(** A batch that opens a new account twice, with conflicting definitions,
    accepts both: the two events are logged, both callers are told the
    account is open as they asked, and the second definition is dropped. *)
Theorem conflicting_opens_both_answered :
  exists br w', run_batch noon 0 false demo_writer [open_cash; open_cash_again] demo_world = (Ok br, w') /\
    br_answers br = [(0%nat, AnsUnit (Ok ())); (1%nat, AnsUnit (Ok ()))] /\
    length (br_events br) = 2%nat /\
    as_def <$> accounts (wr_state (br_writer br)) !! to_key (acc "cash") = Some (demo_def "cash" Asset) /\
    run_batch noon 0 false (br_writer br) [open_cash_again] w' =
      (Ok (mkBatchResult (br_writer br)
             [(0%nat, AnsUnit (Err (AlreadyExists ("account " +:+ to_key (acc "cash")))))] [] None), w').
Proof. eexists _, _. split; [vm_compute; reflexivity|]. split_and!; vm_compute; reflexivity. Qed.
End writer_demo.
