(* ===== verification/LogOpen.v ===== *)
(** Opening one book of a log store, talea-store-log/src/lib.rs: the body of
    [open_with]'s loop over the book directories (snapshot, replay of the
    tail, idempotency runs, writer), and the creation of a new book by
    [book_writer] and [subscribe]. *)

From S2P Require Import Prelude Decimal Assoc Core Bloom Disk PostingIndex Idem BookState Frame Replay Segment Snapshot.
From S2P Require Import Writer WriterBatch WriterLog WriterSpec.
Open Scope Z_scope.

Record LogStoreOptions := mkLogStoreOptions {
  idem_hot_cap : nat;
  snapshot_every : Z;
  opt_segment_max : Z
}.

Definition DEFAULT_SNAPSHOT_EVERY : Z := 100000.

Definition LogStoreOptions_default : LogStoreOptions :=
  mkLogStoreOptions DEFAULT_IDEM_HOT_CAP DEFAULT_SNAPSHOT_EVERY DEFAULT_SEGMENT_MAX.

(** [usize::MAX], as the limit of a scan. *)
Definition usize_max : Z := 18446744073709551615.

Definition set_cap (t : TieredIdem) (n : nat) : TieredIdem :=
  mkTieredIdem (hot t) (order t) n (runs t) (bloom t).

Definition Registry := gmap string AssetDef.

(** The fold of the replayed events, with the registry. *)
Definition register_event (reg : Registry) (ev : WireEvent) : Registry :=
  match w_event ev with AssetRegistered def => <[asset_id def := def]> reg | _ => reg end.

Fixpoint replay_tail (st : BookState) (reg : Registry) (pairs : list (WireEvent * (Seq * nat))) :
    result (BookState * Registry) string :=
  match pairs with
  | [] => Ok (st, reg)
  | (ev, p) :: pairs =>
      let? st' := map_err (fun msg => "corrupt log in book: " +:+ msg)%string (apply_event st ev p) in
      replay_tail st' (register_event reg ev) pairs
  end.

Section open.
Context `{HashIter} `{KeyHashes} `{Crc32} `{Json (list Pair)} `{Json WireEvent} `{Json StateImage}.

(** The newest snapshot, or an empty book. *)
Definition load_state (opts : LogStoreOptions) : io (BookState * Seq) :=
  let! snap := load_latest in
  let '(st, from) := match snap with
                     | Some (snap_st, snap_seq) => (snap_st, snap_seq + 1)
                     | None => (BookState_default, 1)
                     end in
  io_ret (set_idem st (set_cap (idem st) (idem_hot_cap opts)), from).

Definition open_book (opts : LogStoreOptions) (reg : Registry) : io (BookWriter * Registry) :=
  let! seg := open_with_max DEFAULT_SEGMENT_MAX in
  let! (st, replay_from) := load_state opts in
  let! pairs := scan_with_pos (catalog seg) replay_from usize_max in
  let! (st, reg) := io_lift (replay_tail st reg pairs) in
  let all_idem_snap := omap (fun p => event_pair p.1) pairs in
  let! t := attach_dir (idem st) (io_ret all_idem_snap) in
  let! writer := spawn (opt_segment_max opts) (set_idem st t) in
  io_ret (writer, reg).

(** A book that is written or subscribed to for the first time. *)
Definition create_book (segment_max : Z) : io BookWriter :=
  let! t := attach_dir (idem BookState_default) (io_ret []) in
  spawn segment_max (set_idem BookState_default t).
End open.

(** ** Lemmas *)

(** Every byte of every file is durable, as after a crash. *)
Definition settled (d : gmap string FileData) : Prop :=
  map_Forall (fun _ f => f_durable f = length (f_bytes f)) d.

Lemma crash_settled d d' : crash d d' -> settled d'.
Proof.
  intros Hc n g Hg. specialize (Hc n). rewrite Hg in Hc. destruct (d !! n); [|done].
  destruct Hc as (k & Hk & ->). cbn. rewrite length_take. lia.
Qed.

Definition keeps_settled {A} (m : io A) : Prop := forall w, settled (dir w) -> settled (dir (m w).2).

Lemma settled_bind {A B} (m : io A) (k : A -> io B) :
  keeps_settled m -> (forall a, keeps_settled (k a)) -> keeps_settled (io_bind m k).
Proof.
  intros Hm Hk w Hw. unfold io_bind. specialize (Hm w Hw). destruct (m w) as [[a|e] w']; [by apply Hk|done].
Qed.
Lemma settled_ret {A} (a : A) : keeps_settled (io_ret a).
Proof. by intros w Hw. Qed.
Lemma settled_err {A} e : keeps_settled (@io_err A e).
Proof. by intros w Hw. Qed.
Lemma settled_try {A} (m : io A) : keeps_settled m -> keeps_settled (io_try m).
Proof. intros Hm w Hw. unfold io_try. specialize (Hm w Hw). by destruct (m w). Qed.

Lemma settled_insert d n f : settled d -> f_durable f = length (f_bytes f) -> settled (<[n := f]> d).
Proof. intros Hd Hf. by apply map_Forall_insert_2. Qed.

Ltac settled_op :=
  intros [d fs] Hw; unfold next_fault; cbn in *;
  repeat (case_match; simplify_eq; cbn in *); try done; apply settled_insert; cbn; try done.

Lemma settled_read n : keeps_settled (fs_read n).
Proof. unfold fs_read. settled_op. Qed.
Lemma settled_read_dir : keeps_settled fs_read_dir.
Proof. unfold fs_read_dir. settled_op. Qed.
Lemma settled_len n : keeps_settled (fs_len n).
Proof. unfold fs_len. settled_op. Qed.
Lemma settled_open n : keeps_settled (fs_open_append n).
Proof. unfold fs_open_append. settled_op. Qed.
Lemma settled_sync n : keeps_settled (fs_sync n).
Proof. unfold fs_sync. settled_op. Qed.
Lemma settled_sync_dir : keeps_settled fs_sync_dir.
Proof.
  unfold fs_sync_dir. intros [d fs] Hw. unfold next_fault. cbn in *. repeat (case_match; simplify_eq; cbn in * ); try done;
    intros n f Hf; rewrite lookup_fmap in Hf; destruct (d !! n) as [g|] eqn:E; try done;
    cbn in Hf; injection Hf as <-; exact (Hw n g E).
Qed.
Lemma settled_set_len n k : keeps_settled (fs_set_len n k).
Proof.
  unfold fs_set_len. settled_op; rewrite length_take; erewrite <- (map_Forall_lookup_1 _ _ _ _ Hw) by done; lia.
Qed.

#[export] Hint Resolve settled_bind settled_ret settled_err settled_try settled_read settled_read_dir settled_len
  settled_open settled_sync settled_sync_dir settled_set_len : talea.

(** A disk that does not fail goes on not failing. *)
Definition stays_healthy {A} (m : io A) : Prop := forall w, faults w = [] -> faults (m w).2 = [].

Lemma healthy_bind {A B} (m : io A) (k : A -> io B) :
  stays_healthy m -> (forall a, stays_healthy (k a)) -> stays_healthy (io_bind m k).
Proof.
  intros Hm Hk w Hw. unfold io_bind. specialize (Hm w Hw). destruct (m w) as [[a|e] w']; [by apply Hk|done].
Qed.
Lemma healthy_ret {A} (a : A) : stays_healthy (io_ret a).
Proof. by intros w Hw. Qed.
Lemma healthy_lift {A} (r : result A string) : stays_healthy (io_lift r).
Proof. by intros w Hw. Qed.
Lemma healthy_try {A} (m : io A) : stays_healthy m -> stays_healthy (io_try m).
Proof. intros Hm w Hw. unfold io_try. specialize (Hm w Hw). by destruct (m w). Qed.

Ltac healthy_op := intros [d fs] Hw; unfold next_fault; cbn in *; subst; cbn; repeat (case_match; cbn in * ); by simplify_eq.

Lemma healthy_read n : stays_healthy (fs_read n).
Proof. unfold fs_read. healthy_op. Qed.
Lemma healthy_read_dir : stays_healthy fs_read_dir.
Proof. unfold fs_read_dir. healthy_op. Qed.
Lemma healthy_write n b : stays_healthy (fs_write n b).
Proof. unfold fs_write. healthy_op. Qed.
Lemma healthy_sync n : stays_healthy (fs_sync n).
Proof. unfold fs_sync. healthy_op. Qed.
Lemma healthy_rename a b : stays_healthy (fs_rename a b).
Proof. unfold fs_rename. healthy_op. Qed.
Lemma healthy_remove n : stays_healthy (fs_remove n).
Proof. unfold fs_remove. healthy_op. Qed.
Lemma healthy_sync_dir : stays_healthy fs_sync_dir.
Proof. unfold fs_sync_dir. healthy_op. Qed.

#[export] Hint Resolve healthy_bind healthy_ret healthy_lift healthy_try healthy_read healthy_read_dir healthy_write
  healthy_sync healthy_rename healthy_remove healthy_sync_dir : talea.

Section attach.
Context `{KeyHashes} `{Crc32} `{Json (list Pair)}.

Lemma read_run_healthy p : stays_healthy (read_run p).
Proof. unfold read_run. auto with talea. Qed.
Hint Resolve read_run_healthy : talea.

Lemma validate_runs_total paths :
  stays_healthy (validate_runs paths) /\ (forall P, keeps_files (validate_runs paths) P) /\
  forall w, exists o w', validate_runs paths w = (Ok o, w') /\
    forall metas, o = Some metas -> Forall (fun m => rm_path m ∈ paths) metas.
Proof.
  induction paths as [|p paths (IH1 & IH2 & IH3)]; cbn [validate_runs].
  { split_and!; [auto with talea|intros; apply keeps_ret|]. intros w. eexists _, _. split; [done|]. intros metas [= <-]. constructor. }
  split_and!.
  - apply healthy_bind; [auto with talea|]. intros [ps|e]; [|auto with talea]. apply healthy_bind; [done|auto with talea].
  - intros P. apply keeps_bind; [apply keeps_try; unfold read_run; auto with talea|].
    intros [ps|e]; [|apply keeps_ret]. apply keeps_bind; [done|intros; apply keeps_ret].
  - intros w. unfold io_bind at 1, io_try. destruct (read_run p w) as [[ps|e] w1].
    + unfold io_bind. destruct (IH3 w1) as (o & w2 & -> & Ho). eexists _, _. split; [done|].
      intros metas Hm. destruct o as [ms|]; [|done]. injection Hm as <-. specialize (Ho ms eq_refl).
      assert (Forall (fun m => rm_path m ∈ p :: paths) ms) as Hms
        by (eapply Forall_impl; [exact Ho|]; intros m Hm; by right).
      destruct ps; [done|]. constructor; [by left|done].
    + eexists _, _. split; [done|]. done.
Qed.

Lemma rebuild_bloom_total b metas :
  stays_healthy (rebuild_bloom b metas) /\ (forall P, keeps_files (rebuild_bloom b metas) P) /\
  forall w, exists b' w', rebuild_bloom b metas w = (Ok b', w').
Proof.
  revert b. induction metas as [|m metas IH]; intros b; cbn [rebuild_bloom].
  { split_and!; [auto with talea|intros; apply keeps_ret|by eexists _, _]. }
  split_and!.
  - apply healthy_bind; [auto with talea|]. intros [ps|e]; apply IH.
  - intros P. apply keeps_bind; [apply keeps_try; unfold read_run; auto with talea|]. intros [ps|e]; apply IH.
  - intros w. unfold io_bind, io_try. destruct (read_run (rm_path m) w) as [[ps|e] w1]; apply IH.
Qed.

Lemma remove_all_total paths :
  stays_healthy (remove_all paths) /\ forall w, exists w', remove_all paths w = (Ok (), w').
Proof.
  induction paths as [|p paths [IH1 IH2]]; cbn [remove_all]; [split; [auto with talea|by eexists]|]. split.
  - apply healthy_bind; auto with talea.
  - intros w. unfold io_bind, io_try. destruct (fs_remove p w). apply IH2.
Qed.

Lemma replace_file_healthy t p b : stays_healthy (replace_file t p b).
Proof. unfold replace_file. auto 10 with talea. Qed.

Lemma rebuild_runs_total t paths pairs :
  Forall is_run paths ->
  stays_healthy (rebuild_runs t paths (io_ret pairs)) /\ keeps_files (rebuild_runs t paths (io_ret pairs)) is_run /\
  forall w, exists metas w', rebuild_runs t paths (io_ret pairs) w = (Ok metas, w') /\ Forall (fun m => is_run (rm_path m)) metas.
Proof.
  intros Hp. destruct (remove_all_total paths) as [Hh Ht]. unfold rebuild_runs. split_and!.
  - apply healthy_bind; [apply healthy_ret|intros ps]. apply healthy_bind; [done|intros _]. cbn zeta.
    case_match; [apply healthy_ret|]. case_match; [|apply healthy_ret]. apply healthy_bind; [apply healthy_try, replace_file_healthy|].
    intros [|]; apply healthy_ret.
  - apply keeps_bind; [apply keeps_ret|intros ps]. apply keeps_bind; [by apply remove_all_keeps|intros _]. cbn zeta.
    case_match; [apply keeps_ret|]. case_match; [|apply keeps_ret]. apply keeps_bind; [apply keeps_try, write_run_keeps|].
    intros [|]; apply keeps_ret.
  - intros w. unfold io_bind at 1. cbn [io_ret]. destruct (Ht w) as [w1 Hw1]. unfold io_bind at 1. rewrite Hw1. cbn zeta.
    case_match; [by eexists _, _|]. case_match; [|by eexists _, _]. unfold io_bind, io_try.
    destruct (write_run_atomic _ _ w1) as [[|] w2]; eexists _, _; (split; [done|]); repeat constructor. apply run_name_is_run.
Qed.

Lemma run_paths_named names : Forall is_run (map snd (run_paths_of names)).
Proof.
  apply Forall_fmap, Forall_forall. intros [n name] Hin. unfold run_paths_of in Hin. rewrite sort_by_perm in Hin.
  apply list_elem_of_omap in Hin as (x & _ & Hx). cbn. unfold parse_run_name in Hx. unfold is_run.
  destruct (strip_prefix "idem-" x) eqn:E; [|done]. destruct (strip_suffix _ _); [|done].
  destruct (parse_u64 _); [|done]. injection Hx as <- <-. by rewrite E.
Qed.

Lemma attach_dir_total t pairs w :
  faults w = [] -> exists t' w', attach_dir t (io_ret pairs) w = (Ok t', w') /\ faults w' = [] /\ runs_named t' /\
    (forall n, ~ is_run n -> file_kept (dir w !! n) (dir w' !! n)) /\
    hot t' = hot t /\ order t' = order t /\ cap t' = cap t.
Proof.
  intros Hf. unfold attach_dir. unfold io_bind at 1. rewrite fs_read_dir_no_faults by done. cbn zeta.
  set (paths := map snd _). pose proof (run_paths_named (dir_names (dir w))) as Hpaths. fold paths in Hpaths.
  destruct (validate_runs_total paths) as (Hh1 & Hk1 & Ht1). destruct (Ht1 w) as (o & w1 & Hv & Ho).
  specialize (Hh1 w Hf). specialize (Hk1 is_run w). rewrite Hv in Hh1, Hk1. cbn in Hh1, Hk1.
  unfold io_bind at 1. rewrite Hv.
  destruct (rebuild_runs_total t paths pairs Hpaths) as (Hh2 & Hk2 & Ht2).
  assert (exists metas w2, match o, paths with Some metas, _ :: _ => io_ret metas | _, _ => rebuild_runs t paths (io_ret pairs) end w1
    = (Ok metas, w2) /\ Forall (fun m => is_run (rm_path m)) metas /\ faults w2 = [] /\
    forall n, ~ is_run n -> file_kept (dir w1 !! n) (dir w2 !! n)) as (metas & w2 & Hm & Hmn & Hf2 & Hk).
  { specialize (Hh2 w1 Hh1). specialize (Hk2 w1). destruct (Ht2 w1) as (ms & w2 & Hr & Hrn). rewrite Hr in Hh2, Hk2.
    destruct o as [metas|]; [destruct paths as [|p0 ps]|]; try (exists ms, w2; by split_and!).
    exists metas, w1. split_and!; [done| |done|intros; apply file_kept_refl].
    eapply Forall_impl; [by apply Ho|]. intros m Hin. rewrite Forall_forall in Hpaths. by apply Hpaths. }
  unfold io_bind at 1. rewrite Hm.
  destruct (rebuild_bloom_total (Bloom_new (Z.of_nat (cap t))) metas) as (Hh3 & Hk3 & Ht3).
  destruct (Ht3 w2) as (b & w3 & Hb). specialize (Hh3 w2 Hf2). specialize (Hk3 is_run w2). rewrite Hb in Hh3, Hk3.
  unfold io_bind. rewrite Hb. eexists _, w3. split_and!; try done.
  intros n Hn. eapply file_kept_trans; [by apply Hk1|]. eapply file_kept_trans; [by apply Hk|by apply Hk3].
Qed.
End attach.

(** ** The log of an opened directory *)

Section reopen.
Context `{HashIterLaws} `{KeyHashes} `{Crc32} `{!Crc32Laws} `{Json (list Pair)} `{!JsonLaws (list Pair)}
  `{Json WireEvent} `{!JsonLaws WireEvent} `{Json StateImage} `{!JsonLaws StateImage}.

Lemma settled_validate_all segs fb : keeps_settled (validate_all segs fb).
Proof.
  induction segs as [|[b p] segs IH]; cbn [validate_all]; [auto with talea|].
  apply settled_bind; [|intros v; apply settled_bind; [|auto]].
  - unfold validate_segment. apply settled_bind; [auto with talea|]. intros [|]; [auto with talea|]. case_match; auto with talea.
  - destruct v; auto with talea.
Qed.

Lemma settled_open_with_max mx : keeps_settled (open_with_max mx).
Proof.
  unfold open_with_max. apply settled_bind; [auto with talea|intros names]. cbn zeta. case_match; [|auto with talea].
  case_match. apply settled_bind; [apply settled_validate_all|auto with talea].
Qed.

Lemma settled_ready w s sealed act nd :
  log_ready w s sealed act nd -> settled (dir w) -> log_ready w s sealed act (length act).
Proof.
  intros Hr Hs.
  destruct (log_ready_active _ _ _ _ _ Hr) as
    (pc & base & f & bs & bsd & Hc & Hse & Hne & Hp & Hd & Heb & Hb & Hl & Hnd & Hebd & Hdur).
  destruct Hr as [_ Hok Hn Ha Hbs]. split; try done.
  exists pc, base, (active s). split_and!; [done|done|]. exists f, bs, (length bs), bs.
  specialize (Hs _ _ Hp). cbn in Hs. rewrite Hb in Hs. split_and!; try done; rewrite ?firstn_all, ?Hb; try done; lia.
Qed.

(** Replaying does not depend on the positions. *)
Definition replayable (evs : list WireEvent) : Prop :=
  forall ps, length ps = length evs -> exists st, replay BookState_default (zip evs ps) = Ok st.

Lemma replay_pairs evs (L : list (WireEvent * (Seq * nat))) :
  replayable evs -> map fst L = evs -> exists st, replay BookState_default L = Ok st.
Proof.
  intros Hr <-. destruct (Hr (map snd L)) as [st Hst]; [by rewrite !length_map|]. exists st. rewrite <- Hst. f_equal.
  clear. induction L as [|[e p] L IH]; cbn; congruence.
Qed.

Lemma replay_tail_spec st reg L st1 :
  replay st L = Ok st1 -> replay_tail st reg L = Ok (st1, foldl register_event reg (map fst L)).
Proof.
  revert st reg. induction L as [|[ev p] L IH]; intros st reg Hr; cbn in *; [by simplify_eq|].
  destruct (apply_event st ev p) as [st2|]; [|done]. cbn. by rewrite (IH _ _ Hr).
Qed.

(** Scanning from the middle drops what comes before. *)
Lemma select_pairs from c chunks :
  Forall (fun ev => 1 <= w_seq ev) (concat chunks) ->
  select_all (fun base pos ev => (ev, (base, pos))) from c chunks = filter (fun p => from <= w_seq p.1) (positions c chunks).
Proof.
  unfold positions. revert chunks. induction c as [|[b p] c IH]; intros [|evs chunks] Hf; try done. cbn [select_all concat] in *.
  apply Forall_app in Hf as [Hf1 Hf2]. rewrite filter_app, <- IH by done. f_equal. clear -Hf1. generalize 0%nat as pos.
  induction Hf1 as [|ev evs Hev _ IH]; intros pos; cbn [select]; [done|].
  assert (1 <=? w_seq ev = true) as -> by lia. cbn [app]. rewrite IH.
  destruct (from <=? w_seq ev) eqn:E; bool_to_prop; cbn [app].
  - by rewrite filter_cons_True.
  - by rewrite filter_cons_False by (cbn; lia).
Qed.

Lemma gapless_filter_all (s from : Seq) (L : list (WireEvent * (Seq * nat))) :
  gapless s (map fst L) -> from <= s -> filter (fun p => from <= w_seq p.1) L = L.
Proof.
  revert s. induction L as [|[ev p] L IH]; intros s Hg Hle; [done|]. cbn [map fst] in Hg.
  apply gapless_cons in Hg as [Hs Hg]. rewrite filter_cons_True by (cbn; lia). f_equal. apply (IH (s + 1)); [done|lia].
Qed.

Lemma gapless_filter (s : Seq) (n : nat) (L : list (WireEvent * (Seq * nat))) :
  gapless s (map fst L) -> filter (fun p => s + Z.of_nat n <= w_seq p.1) L = drop n L.
Proof.
  revert s n. induction L as [|[ev p] L IH]; intros s n Hg; [by rewrite drop_nil|].
  destruct n as [|n]; [apply (gapless_filter_all s); [done|lia]|].
  cbn [map fst] in Hg. apply gapless_cons in Hg as [Hs Hg].
  rewrite filter_cons_False by (cbn; lia). cbn [drop]. rewrite <- (IH (s + 1) n Hg).
  apply list_filter_iff. intros [e q]. cbn. lia.
Qed.

(** The tail a scan returns. *)
Lemma scan_tail w s sealed act nd (q : nat) :
  log_ready w s sealed act nd -> faults w = [] -> gapless 1 (concat (sealed ++ [act])) ->
  Z.of_nat (length (concat (sealed ++ [act]))) <= usize_max ->
  scan_with_pos (catalog s) (Z.of_nat q + 1) usize_max w = (Ok (drop q (positions (catalog s) (sealed ++ [act]))), w).
Proof.
  intros Hr Hf Hg Hmax. unfold scan_with_pos.
  rewrite (scan_catalog_spec _ w (catalog s) (sealed ++ [act]) []);
    [|done|by eapply durable_ready_log_files|apply (lr_bases _ _ _ _ _ Hr)|done].
  assert (map fst (positions (catalog s) (sealed ++ [act])) = concat (sealed ++ [act])) as Hev
    by (apply positions_events; [by eapply ready_length|done]).
  rewrite select_pairs.
  2:{ eapply Forall_impl; [by apply gapless_lt|]. cbn. lia. }
  rewrite (Z.add_comm _ 1), gapless_filter by (by rewrite Hev). f_equal. f_equal. apply take_ge.
  rewrite length_drop, <- (length_map fst), Hev. unfold usize_max in *. lia.
Qed.

(** What the snapshots of a directory hold: the state after a durable prefix
    of the log. *)
Definition snaps_sound (d : gmap string FileData) (c : Catalog) (sealed : list (list WireEvent)) (act : list WireEvent)
    (nd : nat) : Prop :=
  forall name s st, parse_snap_seq name = Some s -> snapshot_at d name = Ok st ->
    exists q st0, s = Z.of_nat q /\ (q <= length (concat sealed) + nd)%nat /\
      replay BookState_default (take q (positions c (sealed ++ [act]))) = Ok st0 /\ same_book st0 st.

Lemma positions_take c sealed act m q :
  length c = length (sealed ++ [act]) -> gapless 1 (concat (sealed ++ [act])) ->
  (q <= length (concat sealed) + m)%nat ->
  take q (positions c (sealed ++ [take m act])) = take q (positions c (sealed ++ [act])).
Proof.
  intros Hl Hg Hq. destruct (exists_last (l := c)) as (pc & [base path] & ->); [destruct c; [rewrite length_app in Hl; cbn in Hl; lia|done]|].
  rewrite !length_app in Hl. cbn in Hl. unfold positions. rewrite !select_all_snoc by lia.
  assert (length (select_all (fun base pos ev => (ev, (base, pos))) 1 pc sealed) = length (concat sealed)) as Hlen.
  { rewrite <- (length_map fst). f_equal. apply positions_events; [lia|]. rewrite concat_snoc in Hg. by apply gapless_app in Hg as [? _]. }
  assert (Forall (fun ev => 1 <= w_seq ev) act) as Hact.
  { pose proof (gapless_lt _ _ Hg) as Hf. rewrite concat_snoc in Hf at 1. apply Forall_app in Hf as [_ Hf].
    eapply Forall_impl; [exact Hf|]. cbn. lia. }
  rewrite !take_app, Hlen. f_equal. set (k := (q - length (concat sealed))%nat). assert (k <= m)%nat as Hk by lia. clearbody k.
  clear -Hact Hk. revert k m Hk. generalize 0%nat as pos. induction Hact as [|ev evs Hev _ IH]; intros pos k m Hk.
  - by rewrite take_nil.
  - destruct m as [|m]; [by replace k with 0%nat by lia|]. cbn [take select].
    assert (1 <=? w_seq ev = true) as -> by lia. destruct k as [|k]; [done|]. cbn [app take]. f_equal. apply IH. lia.
Qed.

Lemma replay_prefix st L1 L2 st1 : replay st (L1 ++ L2) = Ok st1 -> exists st2, replay st L1 = Ok st2 /\ replay st2 L2 = Ok st1.
Proof. rewrite replay_app. destruct (replay st L1) as [st2|]; [eauto|done]. Qed.

Lemma replayable_prefix l l' : replayable l -> l' `prefix_of` l -> replayable l'.
Proof.
  intros Hr [k ->] ps Hps. destruct (Hr (ps ++ replicate (length k) (0, 0%nat))) as [st Hst].
  { rewrite !length_app, length_replicate. lia. }
  rewrite zip_with_app in Hst by done. apply replay_prefix in Hst as (st2 & ? & _). eauto.
Qed.

Lemma stamped_prefix t l k : stamped t (l ++ k) -> stamped t l.
Proof. revert t. induction l as [|e l IH]; intros t; cbn; [done|]. intros [? ?]. eauto. Qed.

Lemma btree_insert_Forall (P : Z * string -> Prop) k v c : P (k, v) -> Forall P c -> Forall P (btree_insert k v c).
Proof.
  intros Hp. induction 1 as [|[k' v'] c Hx Hc IH]; cbn; [by repeat constructor|].
  case_match; [by repeat constructor|]. case_match; by constructor.
Qed.

Lemma enumerate_named names : Forall (fun e => is_segment e.2) (enumerate_segments names).
Proof.
  unfold enumerate_segments.
  assert (forall acc, Forall (fun e : Z * string => is_segment e.2) acc ->
    Forall (fun e : Z * string => is_segment e.2) (foldl (fun c name => match parse_base name with
      | Some base => btree_insert base name c | None => c end) acc names)) as Hall.
  { induction names as [|n names IH]; intros acc Hacc; [done|]. cbn [foldl]. apply IH.
    destruct (parse_base n) as [b|] eqn:E; [|done]. apply btree_insert_Forall; [|done].
    apply parse_base_segment. cbn. rewrite E. eauto. }
  specialize (Hall [] (Forall_nil_2 _)). destruct (foldl _ [] names); [|done].
  repeat constructor. apply segment_name_is_segment.
Qed.

(** Opening segments changes segments only. *)
Lemma open_keeps mx : keeps_files (open_with_max mx) is_segment.
Proof.
  unfold open_with_max. apply keeps_bind; [auto with talea|intros names]. cbn zeta.
  pose proof (enumerate_named names) as Hn. generalize dependent (enumerate_segments names). intros segs Hn.
  destruct (last segs) as [[fb ap]|] eqn:El; [|apply keeps_err].
  assert (is_segment ap) as Hap.
  { apply last_Some in El as [l ->]. apply Forall_app in Hn as [_ Hn]. by inversion Hn. }
  apply keeps_bind; [|intros _; apply keeps_bind; [by apply fs_open_append_keeps|intros _]].
  - clear -Hn. induction Hn as [|[b p] segs Hp _ IH]; cbn [validate_all]; [apply keeps_ret|]. cbn in Hp.
    apply keeps_bind; [|intros v; apply keeps_bind; [|auto]].
    + unfold validate_segment. apply keeps_bind; [auto with talea|intros [|]; [apply keeps_ret|]]. case_match; [apply keeps_ret|apply keeps_err].
    + destruct v; [apply keeps_ret| |apply keeps_err]. apply keeps_bind; [apply fs_len_keeps|intros _].
      apply keeps_bind; [by apply fs_set_len_keeps|intros _]. by apply fs_sync_keeps.
  - apply keeps_bind; [apply fs_len_keeps|intros n]. apply keeps_bind; [apply fs_sync_dir_keeps|intros _; apply keeps_ret].
Qed.

Lemma parse_snap_is_snap n s : parse_snap_seq n = Some s -> is_snap n.
Proof. unfold parse_snap_seq, is_snap. destruct (strip_prefix _ n); [eauto|done]. Qed.

Lemma snapshot_at_kept d d' n : file_kept (d !! n) (d' !! n) -> snapshot_at d' n = snapshot_at d n.
Proof.
  intros Hk. unfold snapshot_at, bytes_at. destruct (d !! n), (d' !! n); cbn in *; try done. by destruct Hk as (-> & _).
Qed.

Lemma empty_repr d n b : bloom_wf b -> idem_repr d (mkTieredIdem ∅ [] n [] b) ∅.
Proof.
  intros Hb. split; cbn [hot order bloom runs]; [|done|done|constructor|intros k v; by rewrite lookup_empty].
  split; cbn [hot order]; [constructor|]. intros k. rewrite lookup_empty. split; [by intros ?%elem_of_nil|by intros [? ?]].
Qed.

(** The state a replay starts from, and how much of the log it has. *)
Lemma load_state_spec opts w c sealed act nd :
  faults w = [] -> snaps_sound (dir w) c sealed act nd ->
  exists st q st0, load_state opts w = (Ok (st, Z.of_nat q + 1), w) /\ (q <= length (concat sealed) + nd)%nat /\
    replay BookState_default (take q (positions c (sealed ++ [act]))) = Ok st0 /\ same_book st0 st /\
    cap (idem st) = idem_hot_cap opts /\
    ((q = 0%nat /\ runs (idem st) = [] /\ forall d, idem_repr d (idem st) ∅) \/
     exists name snap, parse_snap_seq name = Some (Z.of_nat q) /\ snapshot_at (dir w) name = Ok snap /\
       st = set_idem snap (set_cap (idem snap) (idem_hot_cap opts))).
Proof.
  intros Hf Hss. unfold load_state, io_bind. rewrite load_latest_spec by done.
  destruct (head _) as [[st s]|] eqn:Eh.
  - apply head_Some_elem_of, list_elem_of_omap in Eh as ([s' n] & Hin & Hx). cbn in Hx.
    destruct (snapshot_at (dir w) n) as [st'|] eqn:Es; [|done]. injection Hx as <- <-.
    apply elem_of_snap_entries in Hin as [_ Hp].
    destruct (Hss _ _ _ Hp Es) as (q & st0 & -> & Hq & Hr & Hs).
    eexists _, q, st0. split; [done|]. split_and!; [done|done| |done|right; by exists n, st'].
    eapply same_book_trans; [done|apply same_book_set_idem].
  - eexists _, 0%nat, BookState_default. split; [done|]. split_and!; [lia|done|done|done|]. left. split_and!; [reflexivity|reflexivity|]. intros d.
    unfold set_idem, set_cap, BookState_default, TieredIdem_default, with_cap. cbn [idem hot order runs bloom].
    apply empty_repr, Bloom_new_wf.
Qed.

(** What opening a book relies on: the directory a crash left of a log of
    sealed segments and an active one, gapless, stamped in order and
    replayable, with snapshots of durable prefixes. *)
Record openable (d : gmap string FileData) (c : Catalog) (sealed : list (list WireEvent)) (act : list WireEvent)
    (nd : nat) : Prop := {
  op_settled : settled d;
  op_durable : durable_log d c sealed act nd;
  op_bases : bases_ok c (sealed ++ [act]);
  op_names : catalog_names d c;
  op_base : forall e, last c = Some e -> e.1 <= 1 + Z.of_nat (length (concat sealed));
  op_gapless : gapless 1 (concat (sealed ++ [act]));
  op_stamped : stamped None (concat (sealed ++ [act]));
  op_replay : replayable (concat (sealed ++ [act]));
  op_length : Z.of_nat (length (concat (sealed ++ [act]))) <= usize_max;
  op_snaps : snaps_sound d c sealed act nd
}.

Lemma openable_take d c sealed act nd m :
  openable d c sealed act nd -> concat (sealed ++ [take m act]) `prefix_of` concat (sealed ++ [act]).
Proof. intros _. rewrite !concat_snoc. apply prefix_app. exists (drop m act). by rewrite take_drop. Qed.

(** The first open of [open_book], with the tail it finds. *)
Lemma open_segments w c sealed act nd :
  faults w = [] -> openable (dir w) c sealed act nd ->
  exists s w1 m, open_with_max DEFAULT_SEGMENT_MAX w = (Ok s, w1) /\ faults w1 = [] /\ (nd <= m <= length act)%nat /\
    log_ready w1 s sealed (take m act) (length (take m act)) /\ catalog s = c /\
    gapless 1 (concat (sealed ++ [take m act])) /\ snaps_sound (dir w1) c sealed (take m act) nd.
Proof.
  intros Hf Ho. pose proof Ho as [Hs Hd Hb Hn Hbase Hg Hst Hrep Hlen Hsn].
  destruct (open_spec w c sealed act nd DEFAULT_SEGMENT_MAX Hf Hd Hb Hn) as (s & w1 & m & Hop & Hf1 & Hm & Hr & Hc & _).
  exists s, w1, m. assert (gapless 1 (concat (sealed ++ [take m act]))) as Hg'.
  { destruct (openable_take _ _ _ _ _ m Ho) as [k E]. rewrite E in Hg. by apply gapless_app in Hg as [? _]. }
  split_and!; try done; try lia.
  - eapply settled_ready; [done|]. pose proof (settled_open_with_max DEFAULT_SEGMENT_MAX w Hs) as Hs1. by rewrite Hop in Hs1.
  - intros name q st Hp Hat. pose proof (open_keeps DEFAULT_SEGMENT_MAX w name) as Hk. rewrite Hop in Hk.
    rewrite (snapshot_at_kept (dir w)) in Hat.
    2:{ apply Hk. intros Hseg. by eapply segment_not_snap, parse_snap_is_snap. }
    destruct (Hsn _ _ _ Hp Hat) as (q' & st0 & -> & Hq & Hr0 & Hs0). exists q', st0. split_and!; try done.
    rewrite positions_take; [done| |done|lia]. rewrite <- Hc. apply ready_length in Hr. rewrite Hr, !length_app. done.
Qed.

(** Spawning the writer on an open log. *)
Lemma spawn_ready mx w s sealed act st :
  faults w = [] -> log_ready w s sealed act (length act) -> 0 < mx -> gapless 1 (concat (sealed ++ [act])) ->
  (forall e, last (catalog s) = Some e -> e.1 <= 1 + Z.of_nat (length (concat sealed))) ->
  exists s' w', spawn mx st w = (Ok (mkBookWriter st s' 0), w') /\ faults w' = [] /\
    log_at w' s' sealed act (length act) /\ catalog s' = catalog s /\
    (forall n, ~ is_segment n -> file_kept (dir w !! n) (dir w' !! n)).
Proof.
  intros Hf [Hd Hb Hn _ _] Hmx Hg Hbase.
  destruct (open_spec w (catalog s) sealed act (length act) mx Hf Hd Hb Hn) as (s' & w' & m & Hop & Hf' & Hm & Hr & Hc & Hmx').
  assert (m = length act) as -> by lia. rewrite firstn_all in Hr. exists s', w'. unfold spawn, io_bind. rewrite Hop.
  split_and!; try done.
  - split; [done|done|by rewrite Hmx'|]. intros e He. rewrite Hc in He. specialize (Hbase e He).
    rewrite concat_snoc, length_app. lia.
  - intros n Hn'. pose proof (open_keeps mx w n Hn') as Hk. by rewrite Hop in Hk.
Qed.

Lemma open_book_core opts reg w c sealed act nd :
  faults w = [] -> openable (dir w) c sealed act nd -> 0 < opt_segment_max opts ->
  exists s w1 m q st st1 t w2 wr reg' w3,
    let act' := take m act in let tail := drop q (positions c (sealed ++ [act'])) in
    (nd <= m <= length act)%nat /\ open_with_max DEFAULT_SEGMENT_MAX w = (Ok s, w1) /\ faults w1 = [] /\
    load_state opts w1 = (Ok (st, Z.of_nat q + 1), w1) /\ replay st tail = Ok st1 /\
    attach_dir (idem st1) (io_ret (omap (fun p => event_pair p.1) tail)) w1 = (Ok t, w2) /\
    open_book opts reg w = (Ok (wr, reg'), w3) /\ faults w3 = [] /\ reg' = foldl register_event reg (map fst tail) /\
    wr_state wr = set_idem st1 t /\ writer_inv w3 wr (concat (sealed ++ [act'])) /\
    (exists stL, replay BookState_default (positions c (sealed ++ [act'])) = Ok stL /\ same_book stL (wr_state wr)) /\
    (forall n, is_run n -> bytes_at (dir w3) n = bytes_at (dir w2) n) /\
    ((q = 0%nat /\ runs (idem st) = [] /\ forall d, idem_repr d (idem st) ∅) \/
     exists name snap, parse_snap_seq name = Some (Z.of_nat q) /\ snapshot_at (dir w) name = Ok snap) /\
    log_at w3 (wr_segments wr) sealed act' (length act') /\ catalog (wr_segments wr) = c /\
    (forall n, is_snap n -> file_kept (dir w !! n) (dir w3 !! n)).
Proof.
  intros Hf Ho Hmx. pose proof Ho as [Hset Hd Hb Hn Hbase Hg Hst Hrep Hlen Hsn].
  destruct (open_segments w c sealed act nd Hf Ho) as (s & w1 & m & Hop & Hf1 & Hm & Hr & Hc & Hg' & Hsn').
  set (act' := take m act) in *.
  destruct (load_state_spec opts w1 c sealed act' nd Hf1 Hsn') as (st & q & st0 & Hload & Hq & Hr0 & Hs0 & Hcap & Hkind).
  pose proof (openable_take _ _ _ _ _ m Ho) as Hpre. fold act' in Hpre.
  assert (map fst (positions c (sealed ++ [act'])) = concat (sealed ++ [act'])) as Hev.
  { apply positions_events; [|done]. rewrite <- Hc. by eapply ready_length. }
  destruct (replay_pairs _ _ (replayable_prefix _ _ Hrep Hpre) Hev) as [stL HL].
  pose proof HL as HL'. rewrite <- (take_drop q (positions c (sealed ++ [act']))) in HL'.
  apply replay_prefix in HL' as (st0' & E0 & Htail). assert (st0' = st0) as -> by congruence.
  destruct (replay_same _ _ _ _ Hs0 Htail) as (st1 & Hst1 & Hs1).
  destruct (attach_dir_total (idem st1) (omap (fun p => event_pair p.1) (drop q (positions c (sealed ++ [act'])))) w1 Hf1)
    as (t & w2 & Hatt & Hf2 & Hrn & Hk2 & _).
  assert (log_ready w2 s sealed act' (length act')) as Hr2.
  { eapply log_ready_keep; [|exact Hr]. intros n Hseg. apply Hk2. by apply segment_not_run. }
  destruct (spawn_ready (opt_segment_max opts) w2 s sealed act' (set_idem st1 t) Hf2 Hr2 Hmx Hg' ltac:(by rewrite Hc))
    as (s3 & w3 & Hsp & Hf3 & Hla & Hc3 & Hk3).
  eexists s, w1, m, q, st, st1, t, w2, _, _, w3. cbn zeta. fold act'. split_and!; try done; try lia.
  - unfold open_book. unfold io_bind at 1. rewrite Hop. unfold io_bind at 1. rewrite Hload.
    unfold io_bind at 1. rewrite Hc, <- Hc, (scan_tail w1 s sealed act' (length act')), Hc; [|done|done|done|].
    2:{ destruct Hpre as [k E]. apply (f_equal length) in E. rewrite length_app in E. lia. }
    unfold io_bind at 1, io_lift. rewrite (replay_tail_spec _ reg _ _ Hst1). cbn zeta.
    unfold io_bind at 1. rewrite Hatt. unfold io_bind at 1. rewrite Hsp. done.
  - done.
  - split; cbn [wr_segments wr_state].
    + exists sealed, act', stL. split_and!; [done|done| |].
      * by rewrite Hc3, Hc.
      * eapply same_book_trans; [exact Hs1|apply same_book_set_idem].
    + destruct Hpre as [k E]. rewrite E in Hst. by eapply stamped_prefix.
    + done.
  - exists stL. split; [done|]. cbn [wr_state]. eapply same_book_trans; [exact Hs1|apply same_book_set_idem].
  - intros n Hn'. assert (~ is_segment n) as Hns by (intros Hseg; by eapply segment_not_run).
    specialize (Hk3 n Hns). unfold bytes_at. destruct (dir w2 !! n), (dir w3 !! n); cbn in *; try done. by destruct Hk3 as (-> & _).
  - destruct Hkind as [?|(name & snap & Hp & Hat & _)]; [by left|]. right. exists name, snap. split; [done|].
    pose proof (open_keeps DEFAULT_SEGMENT_MAX w name) as Hk. rewrite Hop in Hk.
    rewrite (snapshot_at_kept (dir w)) in Hat; [done|]. apply Hk. intros Hseg. by eapply segment_not_snap, parse_snap_is_snap.
  - done.
  - cbn. by rewrite Hc3.
  - intros n Hsn0. assert (~ is_segment n) as Hns by (intros ?; by eapply segment_not_snap).
    pose proof (open_keeps DEFAULT_SEGMENT_MAX w n Hns) as Hk. rewrite Hop in Hk.
    eapply file_kept_trans; [exact Hk|]. eapply file_kept_trans; [|by apply Hk3]. apply Hk2. intros ?. by eapply run_not_snap.
Qed.

(** *** From a writer that was stopped *)

Lemma apply_event_repos st st' ev p p' st1 :
  accounts st' = accounts st -> sums st' = sums st -> apply_event st ev p = Ok st1 ->
  exists st1', apply_event st' ev p' = Ok st1' /\ accounts st1' = accounts st1 /\ sums st1' = sums st1.
Proof.
  intros Ha Hs. unfold apply_event. destruct (w_event ev) as [def|def cfg|tx].
  - intros [= <-]. eexists. split; [done|]. done.
  - intros [= <-]. eexists. split; [done|]. unfold apply_account_opened. cbn. by rewrite Ha.
  - unfold try_apply_transaction. rewrite Ha, Hs. destruct (apply_postings _ _ _ _ _ _) as [[a s]|]; [|done].
    intros [= <-]. eexists. split; [done|]. done.
Qed.

Lemma replay_repos st st' L L' st1 :
  accounts st' = accounts st -> sums st' = sums st -> map fst L' = map fst L -> replay st L = Ok st1 ->
  exists st1', replay st' L' = Ok st1'.
Proof.
  revert st st' L'. induction L as [|[ev p] L IH]; intros st st' [|[ev' p'] L'] Ha Hs Hm Hr; try done; [cbn; eauto|].
  cbn in Hm, Hr |- *. injection Hm as -> Hm. destruct (apply_event st ev p) as [st2|] eqn:E; [|done].
  destruct (apply_event_repos _ _ _ _ p' _ Ha Hs E) as (st2' & -> & ? & ?). by eapply IH.
Qed.

Lemma replay_replayable L st : replay BookState_default L = Ok st -> replayable (map fst L).
Proof.
  intros Hr ps Hl. eapply (replay_repos BookState_default BookState_default L); [done|done| |done].
  clear -Hl. revert ps Hl. induction L as [|[e p] L IH]; intros [|q ps] Hl; try done. cbn in *. f_equal. apply IH. lia.
Qed.

Lemma log_at_base w s sealed act nd :
  log_at w s sealed act nd -> forall e, last (catalog s) = Some e -> e.1 <= 1 + Z.of_nat (length (concat sealed)).
Proof.
  intros [Hr Hg Hmx Hb] e He. destruct act as [|ev act'].
  { specialize (Hb e He). rewrite concat_snoc, app_nil_r in Hb. done. }
  pose proof (lr_bases _ _ _ _ _ Hr) as Hok. pose proof (ready_length _ _ _ _ _ Hr) as Hl.
  pose proof Hg as Hg1. rewrite concat_snoc in Hg1. apply gapless_app in Hg1 as [_ [Hev _]%gapless_cons].
  rewrite <- Hev. apply last_Some in He as [pc Hpc]. rewrite Hpc in Hok, Hl. rewrite !length_app in Hl. cbn in Hl.
  assert (length pc = length sealed) as Hl' by lia.
  clear -Hok Hl'. revert sealed Hok Hl'. induction pc as [|[b p] pc IH]; intros [|x sealed] Hok Hl'; try done; cbn in *.
  - destruct e as [b p]. by inversion Hok.
  - destruct pc as [|[b' p'] pc]; [destruct sealed; [|done]|]; cbn in *.
    + destruct e as [b' p']. destruct Hok as (_ & _ & Hok). cbn in Hok. by inversion Hok.
    + destruct sealed as [|y sealed]; [done|]. apply (IH (y :: sealed)); [apply Hok|cbn in *; lia].
Qed.

Lemma chain_openable w wr sealed act st0 d' :
  log_at w (wr_segments wr) sealed act (length act) ->
  replay BookState_default (positions (catalog (wr_segments wr)) (sealed ++ [act])) = Ok st0 ->
  stamped None (concat (sealed ++ [act])) -> crash (dir w) d' -> Z.of_nat (length (concat (sealed ++ [act]))) <= usize_max ->
  snaps_sound d' (catalog (wr_segments wr)) sealed act (length act) ->
  openable d' (catalog (wr_segments wr)) sealed act (length act).
Proof.
  intros Hla Hrep Hst Hcr Hlen Hsn. pose proof (la_ready _ _ _ _ _ Hla) as Hr. split; try done.
  - by eapply crash_settled.
  - eapply durable_log_crash; [done|apply (lr_durable _ _ _ _ _ Hr)].
  - apply (lr_bases _ _ _ _ _ Hr).
  - eapply catalog_names_crash; [done|apply (lr_names _ _ _ _ _ Hr)|apply (lr_durable _ _ _ _ _ Hr)].
  - by eapply log_at_base.
  - apply (la_gapless _ _ _ _ _ Hla).
  - erewrite <- positions_events; [by eapply replay_replayable|by eapply ready_length|apply (la_gapless _ _ _ _ _ Hla)].
Qed.

(** The directory a crash leaves of a writer between batches. *)
Lemma writer_openable w wr log d' :
  writer_inv w wr log -> crash (dir w) d' -> Z.of_nat (length log) <= usize_max ->
  (forall sealed act, log_at w (wr_segments wr) sealed act (length act) ->
     snaps_sound d' (catalog (wr_segments wr)) sealed act (length act)) ->
  exists sealed act st0, openable d' (catalog (wr_segments wr)) sealed act (length act) /\ concat (sealed ++ [act]) = log /\
    replay BookState_default (positions (catalog (wr_segments wr)) (sealed ++ [act])) = Ok st0 /\ same_book st0 (wr_state wr).
Proof.
  intros [(sealed & act & st0 & Hla & Hlog & Hrep & Hs) Hst _] Hcr Hlen Hsn. exists sealed, act, st0.
  split_and!; try done. eapply chain_openable; [done|exact Hrep|by rewrite Hlog|done|by rewrite Hlog|by apply Hsn].
Qed.

(** ** Guarantees *)

(** Opening a book rebuilds its state.  A directory with a log (sealed
    segments, and an active one of which at least [nd] frames are whole, the
    last frame possibly torn) and with any snapshots of durable prefixes of
    it opens; the writer that comes out has a log of every durable event,
    and its state, whether replayed from the newest valid snapshot or from
    the start, is the replay of that log. *)
Theorem open_book_restores (opts : LogStoreOptions) (reg : Registry) (w : World) (c : Catalog)
    (sealed : list (list WireEvent)) (act : list WireEvent) (nd : nat) :
  faults w = [] -> openable (dir w) c sealed act nd -> 0 < opt_segment_max opts ->
  exists wr reg' w' m, open_book opts reg w = (Ok (wr, reg'), w') /\ (nd <= m <= length act)%nat /\
    writer_inv w' wr (concat (sealed ++ [take m act])).
Proof.
  intros Hf Ho Hmx. destruct (open_book_core opts reg w c sealed act nd Hf Ho Hmx)
    as (s & w1 & m & q & st & st1 & t & w2 & wr & reg' & w3 & Hm & _ & _ & _ & _ & _ & Hob & _ & _ & _ & Hwi & _).
  exists wr, reg', w3, m. done.
Qed.

(** The pairs of a log without repeated keys are its map. *)
Lemma idem_map_pairs evs : fresh_keys ∅ evs ->
  NoDup (keys (omap event_pair evs)) /\ forall k v, (k, v) ∈ omap event_pair evs <-> idem_map evs !! k = Some v.
Proof.
  induction evs as [|ev evs IH] using rev_ind; intros Hf.
  { split; [constructor|]. intros k v. cbn. rewrite lookup_empty. split; [by intros ?%elem_of_nil|done]. }
  destruct IH as [IH1 IH2].
  { intros l e r k v -> He. apply (Hf l e (r ++ [ev]) k v); [by rewrite <- app_assoc|done]. }
  rewrite omap_app. cbn [omap list_omap]. unfold idem_map in *. rewrite foldl_app. cbn [foldl]. unfold idem_step at 1.
  destruct (event_pair ev) as [[k0 v0]|] eqn:Ep; [|by rewrite app_nil_r].
  pose proof (Hf evs ev [] k0 v0 eq_refl Ep) as Hnone. split.
  - unfold keys in *. rewrite map_app. apply NoDup_app. split_and!; [done| |apply NoDup_singleton].
    intros k Hk Hk0%list_elem_of_singleton. cbn in Hk0. subst k.
    apply list_elem_of_fmap in Hk as ([k v] & E & Hk). cbn in E. subst k. apply IH2 in Hk. congruence.
  - intros k v. rewrite elem_of_app, IH2, list_elem_of_singleton. destruct (decide (k = k0)) as [->|Hne].
    + rewrite lookup_insert_eq, Hnone. split; [intros [?|[= ->]]; done|]. intros [= ->]. by right.
    + rewrite lookup_insert_ne by done. split; [by intros [?|[= -> _]]|by left].
Qed.

Lemma omap_positions c chunks :
  length c = length chunks -> gapless 1 (concat chunks) ->
  omap (fun p => event_pair p.1) (positions c chunks) = omap event_pair (concat chunks).
Proof.
  intros Hl Hg. rewrite <- (positions_events c chunks Hl Hg) at 1. generalize (positions c chunks) as L.
  induction L as [|[e p] L IH]; cbn; [done|]. by rewrite IH.
Qed.

Lemma run_file_kept mx w s w1 path ps :
  open_with_max mx w = (Ok s, w1) -> run_file (dir w1) path ps -> run_file (dir w) path ps.
Proof.
  intros Hop [Hp (bs & Hb & Hd)]. split; [done|]. exists bs. split; [|done]. rewrite <- Hb. unfold bytes_at.
  pose proof (open_keeps mx w path) as Hk. rewrite Hop in Hk.
  assert (~ is_segment path) as Hns.
  { intros Hseg. apply (segment_not_run _ Hseg). destruct Hp as [n Hp]. unfold parse_run_name in Hp. unfold is_run.
    destruct (strip_prefix _ path); [eauto|done]. }
  specialize (Hk Hns). cbn in Hk. destruct (dir w !! path), (dir w1 !! path); cbn in *; try done. by destruct Hk as (-> & _).
Qed.

End reopen.

(** ** The snapshots of a book *)

(** [st] is the state after the first [s] events of the log. *)
Definition snap_of (L : list (WireEvent * (Seq * nat))) (st : BookState) (s : Seq) : Prop :=
  exists q st0, s = Z.of_nat q /\ (q <= length L)%nat /\ replay BookState_default (take q L) = Ok st0 /\ same_book st0 st.

Section snaps.
Context `{Crc32} `{!Crc32Laws} `{Json StateImage} `{!JsonLaws StateImage}.

(** Every snapshot file is durable, and what it reads as is the state its
    name says. *)
Definition snaps_of (L : list (WireEvent * (Seq * nat))) (d : gmap string FileData) : Prop :=
  forall name s f, parse_snap_seq name = Some s -> d !! name = Some f ->
    f_durable f = length (f_bytes f) /\ forall st, decode_snapshot (f_bytes f) = Ok st -> snap_of L st s.

Lemma snap_of_app L L1 st s : snap_of L st s -> snap_of (L ++ L1) st s.
Proof.
  intros (q & st0 & -> & Hq & Hr & Hs). exists q, st0. rewrite length_app, take_app_le by done. split_and!; [done|lia|done|done].
Qed.

Lemma snap_of_same L st st' s : same_book st st' -> snap_of L st s -> snap_of L st' s.
Proof. intros Hs (q & st0 & ? & ? & ? & ?). exists q, st0. split_and!; try done. by eapply same_book_trans. Qed.

Lemma snaps_of_app L L1 d : snaps_of L d -> snaps_of (L ++ L1) d.
Proof. intros Hs name s f Hp Hf. destruct (Hs name s f Hp Hf) as [? Hd]. split; [done|]. intros st Hst. by apply snap_of_app, Hd. Qed.

Lemma snaps_of_kept L d d' : (forall n, is_snap n -> file_kept (d !! n) (d' !! n)) -> snaps_of L d -> snaps_of L d'.
Proof.
  intros Hk Hs name s f Hp Hf. specialize (Hk name (parse_snap_is_snap _ _ Hp)). rewrite Hf in Hk.
  destruct (d !! name) as [g|] eqn:Eg; [|done]. destruct Hk as (-> & -> & _). by apply (Hs name).
Qed.

Lemma snaps_of_crash L d d' : snaps_of L d -> crash d d' -> snaps_of L d'.
Proof.
  intros Hs Hc name s g Hp Hg. specialize (Hc name). rewrite Hg in Hc. destruct (d !! name) as [f|] eqn:Ef; [|done].
  destruct (Hs name s f Hp Ef) as [Hd Hdec]. destruct Hc as (k & Hk & ->). cbn. assert (k = length (f_bytes f)) as -> by lia.
  rewrite firstn_all. by split.
Qed.

(** A replaced file has its old contents or the new ones, all durable. *)
Lemma replace_file_atomic tmp path bytes w r w' :
  tmp <> path -> replace_file tmp path bytes w = (r, w') ->
  file_kept (dir w !! path) (dir w' !! path) \/
  exists f, dir w' !! path = Some f /\ f_bytes f = bytes /\ f_durable f = length bytes.
Proof.
  intros Hne Hr. unfold replace_file in Hr. unfold io_bind at 1 in Hr.
  pose proof (fs_write_keeps tmp bytes (eq tmp) eq_refl w path Hne) as K1.
  destruct (fs_write tmp bytes w) as [[[]|e] w1] eqn:E1; [|injection Hr as <- <-; by left]. apply fs_write_Ok in E1.
  pose proof (fs_sync_keeps tmp (eq tmp) eq_refl w1 path Hne) as K2. unfold io_bind at 1 in Hr.
  destruct (fs_sync tmp w1) as [[[]|e] w2] eqn:E2; cbn in K1, K2; pose proof (file_kept_trans _ _ _ K1 K2) as K;
    [|injection Hr as <- <-; by left].
  assert (exists f, dir w2 !! tmp = Some f /\ f_bytes f = bytes /\ f_durable f = length bytes) as (f & Hf & Hb & Hd).
  { unfold bytes_at in E1. destruct (dir w1 !! tmp) as [f|] eqn:Ef; [|done]. injection E1 as <-.
    unfold fs_sync in E2. destruct w1 as [d [|[k|] fs]]; cbn in E2, Ef; try done; rewrite Ef in E2; injection E2 as <-;
      unfold set_file; cbn; rewrite lookup_insert_eq; by eexists. }
  unfold io_bind at 1 in Hr. destruct (fs_rename tmp path w2) as [[[]|e] w3] eqn:E3.
  - right. pose proof (fs_sync_dir_keeps (fun _ => False) w3 path (fun F => F)) as K4.
    rewrite Hr in K4. cbn in K4. assert (dir w3 !! path = Some (mkFile (f_bytes f) (f_durable f) false)) as E.
    { unfold fs_rename in E3. destruct w2 as [d [|[k|] fs]]; cbn in E3, Hf; try done; rewrite Hf in E3; injection E3 as <-;
        cbn; by rewrite lookup_insert_eq. }
    rewrite E in K4. destruct (dir w' !! path) as [g|]; [|done]. destruct K4 as (Hg1 & Hg2 & _). cbn in *.
    exists g. split_and!; [done|congruence|congruence].
  - left. injection Hr as <- <-. eapply file_kept_trans; [exact K|].
    unfold fs_rename in E3. destruct w2 as [d [|[k|] fs]]; cbn in E3, Hf; try rewrite Hf in E3; try done; injection E3 as <- <-; apply file_kept_refl.
Qed.

Lemma fs_remove_loses p w n : dir (fs_remove p w).2 !! n = None \/ dir (fs_remove p w).2 !! n = dir w !! n.
Proof.
  unfold fs_remove. destruct (next_fault w) as [[k|] w1] eqn:E; pose proof (dir_next_fault w) as Hd; rewrite E in Hd; cbn in Hd.
  - right. cbn. by rewrite Hd.
  - destruct (dir w1 !! p) as [f|] eqn:Ep; cbn; rewrite Hd; [|by right].
    destruct (decide (n = p)) as [->|Hnp]; [left; apply lookup_delete_eq|right; by apply lookup_delete_ne].
Qed.

Lemma remove_each_loses paths w n : dir (remove_each paths w).2 !! n = None \/ dir (remove_each paths w).2 !! n = dir w !! n.
Proof.
  revert w. induction paths as [|p paths IH]; intros w; cbn [remove_each]; [by right|]. unfold io_bind, io_try.
  pose proof (fs_remove_loses p w n) as Hp. destruct (fs_remove p w) as [r w1]. cbn in Hp.
  destruct (IH w1) as [?|Hn]; [by left|]. by rewrite Hn.
Qed.

Lemma prune_old_loses w n : dir (prune_old w).2 !! n = None \/ dir (prune_old w).2 !! n = dir w !! n.
Proof.
  unfold prune_old, io_bind. assert (dir (fs_read_dir w).2 = dir w) as Hd
    by (unfold fs_read_dir; by destruct w as [d [|[k|] fs]]).
  destruct (fs_read_dir w) as [[names|e] w1]; cbn in Hd; rewrite <- Hd; [apply remove_each_loses|by right].
Qed.

(** Writing a snapshot of the state after some events of the log, whatever
    the disk does. *)
Lemma write_snapshot_sound L st seq w r w' :
  Z.of_nat (length L) <= i64_max -> snaps_of L (dir w) -> snap_of L st seq ->
  map_Forall (fun _ a => chunked (postings a)) (accounts st) ->
  write_snapshot st seq w = (r, w') -> snaps_of L (dir w').
Proof.
  intros Hmax Hs Hof Hch Hw. unfold write_snapshot, io_bind at 1, io_lift in Hw.
  destruct (to_vec (state_image st)) as [payload|e] eqn:Ev; [|by injection Hw as <- <-]. cbn zeta in Hw.
  set (bytes := to_le_bytes (crc32_hash payload) ++ payload) in *.
  assert (parse_snap_seq (snap_name seq) = Some seq) as Hpn.
  { apply parse_snap_name. destruct Hof as (q & _ & -> & Hq & _). unfold in_i64, i64_min, i64_max in *. lia. }
  assert (snap_tmp seq <> snap_name seq) as Hne by (intros E; rewrite <- E, parse_snap_tmp in Hpn; done).
  unfold io_bind in Hw. destruct (replace_file _ _ bytes w) as [r1 w1] eqn:E1.
  assert (snaps_of L (dir w1)) as Hs1.
  { intros name s f Hp Hf. destruct (decide (name = snap_name seq)) as [->|Hnn].
    - rewrite Hpn in Hp. injection Hp as <-.
      destruct (replace_file_atomic _ _ _ _ _ _ Hne E1) as [Hk|(f' & Hf' & Hb & Hd)].
      + rewrite Hf in Hk. destruct (dir w !! snap_name seq) as [g|] eqn:Eg; [|done]. destruct Hk as (-> & -> & _). by eapply Hs.
      + rewrite Hf in Hf'. injection Hf' as <-. rewrite Hb. split; [done|]. intros st' Hst'.
        unfold bytes in Hst'. rewrite (decode_snapshot_written st payload Hch Ev) in Hst'. injection Hst' as <-.
        eapply snap_of_same; [apply same_book_set_idem|done].
    - assert (name <> snap_tmp seq) as Hnt by (intros ->; by rewrite parse_snap_tmp in Hp).
      pose proof (replace_file_keeps (snap_tmp seq) (snap_name seq) bytes (fun n => n = snap_tmp seq \/ n = snap_name seq)
        ltac:(by left) ltac:(by right) w name ltac:(tauto)) as Hk. rewrite E1 in Hk. cbn in Hk. rewrite Hf in Hk.
      destruct (dir w !! name) as [g|] eqn:Eg; [|done]. destruct Hk as (-> & -> & _). by eapply Hs. }
  destruct r1 as [[]|e]; [|by injection Hw as <- <-].
  intros name s f Hp Hf. destruct (prune_old_loses w1 name) as [Hn|Hn]; rewrite Hw in Hn; cbn in Hn; [congruence|].
  rewrite Hn in Hf. by eapply Hs1.
Qed.
End snaps.

(** ** The life of a book *)

Section life.
Context `{HashIterLaws} `{KeyHashes} `{Crc32} `{!Crc32Laws} `{Json (list Pair)} `{!JsonLaws (list Pair)}
  `{Json WireEvent} `{!JsonLaws WireEvent} `{Json StateImage} `{!JsonLaws StateImage}.

(** A book from its creation on: its directory, its writer, the events
    broadcast so far ([told]) and the background snapshots still to be
    written ([pend]).  Batches are answered, with whatever disk errors they
    survive; background snapshots are written between batches, or fail
    anywhere; the errors to come are any; the process may die and reopen the
    directory. *)
Inductive life : World -> BookWriter -> list (Sequenced LedgerEvent) -> list (BookState * Seq) -> Prop :=
| life_create segment_max wr w :
    0 < segment_max -> create_book segment_max (mkWorld ∅ []) = (Ok wr, w) -> life w wr [] []
| life_disk w wr told pend fs : life w wr told pend -> life (mkWorld (dir w) fs) wr told pend
| life_batch clock every inflight jobs w wr told pend br w' :
    life w wr told pend -> Z.of_nat (length told + length jobs) <= i64_max ->
    run_batch clock every inflight wr jobs w = (Ok br, w') ->
    life w' (br_writer br) (told ++ br_events br) (option_list (br_background br) ++ pend)
| life_snapshot w wr told pend1 st seq pend2 r w' :
    life w wr told (pend1 ++ (st, seq) :: pend2) -> write_snapshot st seq w = (r, w') -> life w' wr told (pend1 ++ pend2)
| life_restart opts reg w wr told pend d' wr' reg' w' :
    life w wr told pend -> crash (dir w) d' -> 0 < opt_segment_max opts ->
    open_book opts reg (mkWorld d' []) = (Ok (wr', reg'), w') -> life w' wr' told [].

Record life_inv (w : World) (wr : BookWriter) (log : list WireEvent) (L : list (WireEvent * (Seq * nat)))
    (pend : list (BookState * Seq)) : Prop := {
  lv_chain : exists sealed act st0, log_at w (wr_segments wr) sealed act (length act) /\ concat (sealed ++ [act]) = log /\
    positions (catalog (wr_segments wr)) (sealed ++ [act]) = L /\ replay BookState_default L = Ok st0 /\
    same_book st0 (wr_state wr);
  lv_stamped : stamped None log;
  lv_runs : runs_named (idem (wr_state wr));
  lv_max : Z.of_nat (length log) <= i64_max;
  lv_snaps : snaps_of L (dir w);
  lv_pend : Forall (fun p => snap_of L p.1 p.2 /\ map_Forall (fun _ a => chunked (postings a)) (accounts p.1)) pend
}.

Lemma life_writer w wr log L pend : life_inv w wr log L pend -> writer_inv w wr log /\ map fst L = log.
Proof.
  intros [(sealed & act & st0 & Hla & Hlog & <- & Hr & Hs) Hst Hru _ _ _]. split.
  - split; [|done|done]. by exists sealed, act, st0.
  - rewrite <- Hlog. apply positions_events; [by eapply ready_length, la_ready|apply (la_gapless _ _ _ _ _ Hla)].
Qed.

(** The state of a writer is a snapshot of its log. *)
Lemma life_state w wr log L pend :
  life_inv w wr log L pend -> snap_of L (wr_state wr) (next_seq (wr_state wr) - 1) /\
  map_Forall (fun _ a => chunked (postings a)) (accounts (wr_state wr)).
Proof.
  intros Hl. destruct (life_writer _ _ _ _ _ Hl) as [Hwi Hm]. pose proof Hl as [(sealed & act & st0 & Hla & Hlog & HL & Hr & Hs) Hst _ _ _ _].
  pose proof (la_gapless _ _ _ _ _ Hla) as Hg. rewrite Hlog in Hg.
  destruct (replay_wf BookState_default L st0) as [Hwf Hn]; [apply book_wf_default|by rewrite Hm..|done|].
  cbn in Hn. split.
  - exists (length L), st0. rewrite firstn_all. split_and!; [|done|done|done]. rewrite (sb_seq _ _ Hs), Hn. lia.
  - rewrite (sb_accounts _ _ Hs). intros k a Hk. apply (aw_chunked _ _ _ _ (bw_accounts _ Hwf k a Hk)).
Qed.

Lemma life_dir w w' wr log L pend : dir w' = dir w -> life_inv w wr log L pend -> life_inv w' wr log L pend.
Proof.
  intros Hd [(sealed & act & st0 & Hla & ? & ? & ? & ?) ? ? ? Hs ?]. split; try done; [|by rewrite Hd].
  exists sealed, act, st0. split_and!; try done. eapply log_at_keep; [|done]. intros n _. rewrite Hd. apply file_kept_refl.
Qed.

(** What an answered batch went through. *)
Lemma finish_batch_Ok every inflight wr jobs b w br w' :
  finish_batch every inflight wr jobs b w = (Ok br, w') ->
  exists s1 st1 w1 stn st2 w2 sa,
    write_batch (wr_segments wr) (b_staged b) w = (Ok (s1, st1), w1) /\ apply_staged (wr_state wr) st1 = Ok stn /\
    flush_if_needed stn w1 = (Ok st2, w2) /\ snapshot_jobs st2 (b_snaps b) w2 = (Ok sa, w') /\
    wr_segments (br_writer br) = s1 /\ wr_state (br_writer br) = st2 /\
    (forall p, p ∈ option_list (br_background br) -> p = (st2, next_seq st2 - 1)).
Proof.
  unfold finish_batch. intros ([s1 st1] & w1 & Hw & Hf)%io_bind_Ok. cbn zeta in Hf.
  apply io_bind_Ok in Hf as (stn & w1' & Ha & Hf). unfold io_lift in Ha. injection Ha as Ha <-.
  apply io_bind_Ok in Hf as (st2 & w2 & Hfl & Hf). apply io_bind_Ok in Hf as (sa & w3 & Hsn & Hf). injection Hf as <- <-.
  exists s1, st1, w1, stn, st2, w2, sa. split_and!; try done. cbn. intros p Hp. case_match; cbn in Hp.
  - by apply list_elem_of_singleton in Hp.
  - by apply elem_of_nil in Hp.
Qed.

(** The snapshots an explicit snapshot leaves. *)
Lemma snapshot_jobs_sound L st snaps w r w' :
  Z.of_nat (length L) <= i64_max -> snaps_of L (dir w) -> snap_of L st (next_seq st - 1) ->
  map_Forall (fun _ a => chunked (postings a)) (accounts st) ->
  snapshot_jobs st snaps w = (r, w') -> snaps_of L (dir w').
Proof.
  intros Hmax Hs Hof Hch Hj. unfold snapshot_jobs in Hj. destruct snaps as [|i snaps]; [by injection Hj as <- <-|].
  unfold explicit_snapshot, io_bind in Hj. destruct (0 <? next_seq st - 1); [|by injection Hj as <- <-].
  unfold io_try in Hj. destruct (write_snapshot st (next_seq st - 1) w) as [r0 w0] eqn:E. injection Hj as <- <-.
  by eapply write_snapshot_sound.
Qed.

Lemma life_kept_pend L L1 (pend : list (BookState * Seq)) :
  Forall (fun p => snap_of L p.1 p.2 /\ map_Forall (fun _ a => chunked (postings a)) (accounts p.1)) pend ->
  Forall (fun p => snap_of (L ++ L1) p.1 p.2 /\ map_Forall (fun _ a => chunked (postings a)) (accounts p.1)) pend.
Proof. intros Hp. eapply Forall_impl; [exact Hp|]. intros p [? ?]. split; [by apply snap_of_app|done]. Qed.

(** A batch up to its snapshots. *)
Lemma life_inv_written every inflight wr jobs b M w br w' log L pend :
  life_inv w wr log L pend -> batch_inv (wr_state wr) M jobs (length jobs) b ->
  Z.of_nat (length log + length (b_staged b)) <= i64_max ->
  finish_batch every inflight wr jobs b w = (Ok br, w') ->
  exists L1 w2 sa, life_inv w2 (br_writer br) (log ++ wires b) (L ++ L1) pend /\
    snapshot_jobs (wr_state (br_writer br)) (b_snaps b) w2 = (Ok sa, w').
Proof.
  intros Hl Hbi Hmax Hf. destruct (life_writer _ _ _ _ _ Hl) as [Hwi _].
  destruct (writer_inv_state _ _ _ Hwi) as (Hnext & _ & _).
  destruct (finish_batch_at _ _ _ _ _ _ _ _ _ _ Hwi Hbi Hmax Hf) as (_ & Hok & _).
  destruct (Hok br eq_refl) as (Hwi' & _). clear Hok.
  destruct Hl as [(sealed & act & st0 & Hla & Hlog & HL & Hrep & Hsame) Hst Hruns Hlen Hsn Hpe].
  destruct (finish_batch_Ok _ _ _ _ _ _ _ _ Hf) as (s1 & st1 & w1 & stn & st2 & w2 & sa & Ew & Happ & Hfl & Hj & Hbs & Hbst & _).
  pose proof (write_batch_others _ _ _ _ _ (log_at_active _ _ _ _ _ Hla) Ew) as Ho1.
  destruct (write_batch_at (b_staged b) w (wr_segments wr) sealed act (Ok (s1, st1)) w1 Hla) as (_ & Hok & _); [|by rewrite Hlog|done|].
  { rewrite Hlog, <- Hnext. apply (bi_gapless _ _ _ _ _ Hbi). }
  destruct (Hok s1 st1 eq_refl) as (sealed' & act' & Hla' & Hcat & _ & Hw & Hpos). clear Hok.
  rewrite apply_staged_replay in Happ. rewrite HL in Hpos.
  destruct (replay_same _ _ _ _ (same_book_sym _ _ Hsame) Happ) as (stn0 & Hstn0 & Hsn0).
  destruct (flush_if_needed_frame stn) as [Hk2 Ht2].
  { unfold runs_named. by rewrite (idem_runs_replay _ _ _ Happ). }
  destruct (Ht2 w1) as (t2 & w2' & Hfl' & _). rewrite Hfl in Hfl'. injection Hfl' as -> <-.
  exists (map (fun e => (wire e, pos e)) st1), w2, sa. rewrite Hbst. split; [|done]. split.
  - exists sealed', act', stn0. rewrite Hbs, Hbst. split_and!; [|by rewrite Hcat, Hlog|done|by rewrite replay_app, Hrep|].
    + eapply log_at_keep; [|exact Hla']. eapply keep_segments; [exact Hk2|apply segment_not_run|exact Hfl].
    + eapply same_book_trans; [by apply same_book_sym|apply same_book_set_idem].
  - apply (wi_stamped _ _ _ Hwi').
  - apply (wi_runs _ _ _ Hwi').
  - rewrite length_app. unfold wires. rewrite length_map. lia.
  - apply snaps_of_app. eapply snaps_of_kept; [|exact Hsn]. intros n Hn. eapply file_kept_trans.
    + apply Ho1. intros Hseg. by eapply segment_not_snap.
    + specialize (Hk2 w1 n (fun Hr => run_not_snap _ Hr Hn)). by rewrite Hfl in Hk2.
  - by apply life_kept_pend.
Qed.

(** An answered batch goes on with the book's life. *)
Lemma life_inv_batch every inflight wr jobs b M w br w' log L pend :
  life_inv w wr log L pend -> batch_inv (wr_state wr) M jobs (length jobs) b ->
  Z.of_nat (length log + length (b_staged b)) <= i64_max ->
  finish_batch every inflight wr jobs b w = (Ok br, w') ->
  exists L1, life_inv w' (br_writer br) (log ++ wires b) (L ++ L1) (option_list (br_background br) ++ pend).
Proof.
  intros Hl Hbi Hmax Hf. destruct (life_inv_written _ _ _ _ _ _ _ _ _ _ _ _ Hl Hbi Hmax Hf) as (L1 & w2 & sa & Hl2 & Hj).
  exists L1. destruct (life_state _ _ _ _ _ Hl2) as [Hof Hch]. destruct (life_writer _ _ _ _ _ Hl2) as [_ Hm].
  destruct (finish_batch_Ok _ _ _ _ _ _ _ _ Hf) as (_ & _ & _ & _ & st2 & _ & _ & _ & _ & _ & _ & _ & Hbst & Hbg).
  destruct Hl2 as [(sealed & act & st0 & Hla & Hlog & HL & Hrep & Hsame) Hst Hruns Hlen Hsn Hpe]. split; try done.
  - exists sealed, act, st0. split_and!; try done. eapply log_at_keep; [|exact Hla].
    destruct (snap_phase_frame (wr_state (br_writer br)) (b_snaps b) w2) as (sa' & w'' & Hj' & _ & _ & Hk & _).
    rewrite Hj in Hj'. by injection Hj' as _ <-.
  - eapply (snapshot_jobs_sound _ _ _ w2); [|done..|exact Hj]. apply (f_equal length) in Hm. rewrite length_map in Hm. lia.
  - apply Forall_app. split; [|done]. apply Forall_forall. intros p Hp. rewrite (Hbg p Hp), <- Hbst. by split.
Qed.

(** Reopening the directory a crash leaves. *)
Lemma life_reopen opts reg w wr log L pend d' :
  life_inv w wr log L pend -> crash (dir w) d' -> 0 < opt_segment_max opts ->
  exists wr' reg' w', open_book opts reg (mkWorld d' []) = (Ok (wr', reg'), w') /\ life_inv w' wr' log L [] /\
    same_book (wr_state wr) (wr_state wr').
Proof.
  intros Hl Hcr Hmx. destruct (life_writer _ _ _ _ _ Hl) as [_ Hm].
  destruct Hl as [(sealed & act & st0 & Hla & Hlog & HL & Hrep & Hsame) Hst Hruns Hlen Hsn _].
  pose proof (snaps_of_crash _ _ _ Hsn Hcr) as Hsn'.
  assert (openable d' (catalog (wr_segments wr)) sealed act (length act)) as Ho.
  { eapply chain_openable; [done|by rewrite HL|by rewrite Hlog|done|rewrite Hlog; unfold i64_max, usize_max in *; lia|].
    intros name s st Hp Hat. unfold snapshot_at, bytes_at in Hat. destruct (d' !! name) as [f|] eqn:Ef; [|done]. cbn in Hat.
    destruct (Hsn' name s f Hp Ef) as [_ Hd]. destruct (Hd st Hat) as (q & st1 & -> & Hq & Hr & Hs).
    exists q, st1. rewrite HL. split_and!; try done. apply (f_equal length) in Hm. rewrite length_map, <- Hlog, concat_snoc, length_app in Hm. lia. }
  destruct (open_book_core opts reg (mkWorld d' []) _ sealed act (length act) eq_refl Ho Hmx)
    as (s & w1 & m & q & st & st1 & t & w2 & wr' & reg' & w3 & Hmm & _ & _ & _ & _ & _ & Hob & _ & _ & _ & Hwi' & (stL & HLs & HsL) & _ & _ & Hla' & Hc' & Hk).
  assert (m = length act) as -> by lia. rewrite firstn_all in Hwi', HLs, Hla'. rewrite HL, Hrep in HLs. injection HLs as <-.
  exists wr', reg', w3. split_and!; [done| |by eapply same_book_trans; [apply same_book_sym|]]. split; try done.
  - exists sealed, act, st0. rewrite Hc'. by split_and!.
  - apply (wi_runs _ _ _ Hwi').
  - by eapply snaps_of_kept.
Qed.

(** A new book. *)
Lemma life_inv_create mx wr w :
  0 < mx -> create_book mx (mkWorld ∅ []) = (Ok wr, w) -> life_inv w wr [] [] [].
Proof.
  intros Hmx Hc. unfold create_book in Hc.
  destruct (attach_dir_total (idem BookState_default) [] (mkWorld ∅ []) eq_refl) as (t & [d fs] & Ha & Hf & Hrn & Hk & _).
  cbn in Hf. subst fs. unfold io_bind at 1 in Hc. rewrite Ha in Hc.
  assert (forall n, is_Some (d !! n) -> is_run n) as Hno.
  { intros n Hn. destruct (decide (is_run n)) as [?|Hnr]; [done|]. specialize (Hk n Hnr). cbn in Hk. rewrite lookup_empty in Hk.
    destruct Hn as [f Hn]. by rewrite Hn in Hk. }
  destruct (open_fresh d mx) as (s & w' & Ho & _ & Hr & Hcat & Hsm).
  { intros n Hn. destruct (parse_base n) as [b|] eqn:E; [|done]. exfalso. eapply segment_not_run; [|by apply Hno].
    apply parse_base_segment. by rewrite E. }
  unfold spawn, io_bind in Hc. rewrite Ho in Hc. injection Hc as <- <-. split; cbn [wr_segments wr_state]; try done.
  - exists [], [], BookState_default. rewrite Hcat. split_and!; [|done..].
    split; [done|done|by rewrite Hsm|]. intros e He. rewrite Hcat in He. injection He as <-. done.
  - intros name s0 f Hp Hf. exfalso. pose proof (open_keeps mx (mkWorld d []) name) as Hok. rewrite Ho in Hok. cbn in Hok.
    rewrite Hf in Hok. pose proof (parse_snap_is_snap _ _ Hp) as Hsn. destruct (d !! name) as [g|] eqn:Eg.
    + eapply run_not_snap; [by apply Hno|done].
    + apply Hok. intros ?. by eapply segment_not_snap.
Qed.

(** A book's life keeps its log and its snapshots sound. *)
Lemma life_sound w wr told pend :
  life w wr told pend -> exists log L, life_inv w wr log L pend /\ map sequenced log = told.
Proof.
  induction 1 as [mx wr w Hmx Hc|w wr told pend fs _ (log & L & Hl & Ht)
    |clock every inflight jobs w wr told pend br w' _ (log & L & Hl & Ht) Hmax Hrb
    |w wr told pend1 st seq pend2 r w' _ (log & L & Hl & Ht) Hw
    |opts reg w wr told pend d' wr' reg' w' _ (log & L & Hl & Ht) Hcr Hmx Hob].
  - exists [], []. split; [by eapply life_inv_create|done].
  - exists log, L. split; [|done]. by eapply life_dir; [|exact Hl].
  - destruct (run_batch_classified _ _ _ _ _ _ _ _ Hrb) as (M & d & w1 & b & Hdir & _ & Hbi & Hfin).
    pose proof (staged_le _ _ _ _ _ Hbi) as Hle. rewrite <- Ht, length_map in Hmax.
    pose proof (life_dir _ _ _ _ _ _ Hdir Hl) as Hl1. destruct (life_writer _ _ _ _ _ Hl1) as [Hwi _].
    assert (Z.of_nat (length log + length (b_staged b)) <= i64_max) as Hmax' by lia.
    destruct (finish_batch_at _ _ _ _ _ _ _ _ _ _ Hwi Hbi Hmax' Hfin) as (_ & Hok & _). destruct (Hok br eq_refl) as (_ & _ & Hev & _).
    destruct (life_inv_batch _ _ _ _ _ _ _ _ _ _ _ _ Hl1 Hbi Hmax' Hfin) as (L1 & Hl2).
    exists (log ++ wires b), (L ++ L1). split; [done|]. by rewrite map_app, Ht, Hev.
  - exists log, L. split; [|done]. destruct (life_writer _ _ _ _ _ Hl) as [_ Hm].
    destruct Hl as [(sealed & act & st0 & Hla & ?) Hst Hruns Hlen Hsn Hpe].
    apply Forall_app in Hpe as [Hp1 [[Hof Hch] Hp2]%Forall_cons]. split; try done.
    + exists sealed, act, st0. split; [|done]. eapply log_at_keep; [|exact Hla].
      eapply keep_segments; [apply write_snapshot_keeps|apply segment_not_snap|exact Hw].
    + eapply write_snapshot_sound; [|exact Hsn|exact Hof|exact Hch|exact Hw]. rewrite <- (length_map fst), Hm. done.
    + by apply Forall_app.
  - destruct (life_reopen opts reg _ _ _ _ _ _ Hl Hcr Hmx) as (wr2 & reg2 & w2 & Hob2 & Hl2 & _).
    rewrite Hob in Hob2. injection Hob2 as <- _ <-. by exists log, L.
Qed.

(** C4: a crash between batches loses nothing, in a book's whole life: from
    its creation on, through batches with any disk errors they survive,
    snapshots asked for, snapshots in the background that are written or
    fail, and earlier restarts, the directory a crash leaves opens again, with a writer
    whose log is the events broadcast, no more and no less, and whose state
    agrees with the one before the crash in every account, posting, transaction
    position, sum, sequence number and timestamp. *)
Theorem restart_restores_book (opts : LogStoreOptions) (reg : Registry) (w : World) (wr : BookWriter)
    (told : list (Sequenced LedgerEvent)) (pend : list (BookState * Seq)) (d' : gmap string FileData) :
  life w wr told pend -> crash (dir w) d' -> 0 < opt_segment_max opts ->
  exists wr' reg' w' log, open_book opts reg (mkWorld d' []) = (Ok (wr', reg'), w') /\
    writer_inv w' wr' log /\ map sequenced log = told /\ same_book (wr_state wr) (wr_state wr').
Proof.
  intros Hlife Hcr Hmx. destruct (life_sound _ _ _ _ Hlife) as (log & L & Hl & Ht).
  destruct (life_reopen opts reg _ _ _ _ _ _ Hl Hcr Hmx) as (wr' & reg' & w' & Hob & Hl' & Hs).
  exists wr', reg', w', log. split_and!; try done. by eapply life_writer.
Qed.
End life.

(** ** A restart, evaluated *)

Section open_demo.
Import WriterDemo.

Definition two_opens : list Job := [open_cash; open_sales].

Definition opened : result BatchResult string * World := run_batch noon 0 false demo_writer two_opens demo_world.
Definition opened_writer : BookWriter := match opened.1 with Ok br => br_writer br | Err _ => demo_writer end.
Definition opened_world : World := opened.2.

Definition opened_log : list WireEvent :=
  [mkWireEvent 1 1200 (AccountOpened (demo_def "cash" Asset) cash_cfg);
   mkWireEvent 2 1200 (AccountOpened (demo_def "sales" Income) (mkAccountCfg (Some Credit) None))].

Lemma opened_ledger : ledger_inv opened_world opened_writer opened_log.
Proof.
  destruct (batch_answered noon 0 false demo_writer two_opens demo_world []) as (br & w' & evs & Hrb & Hl & Hev & _).
  - apply demo_ledger.
  - apply demo_ledger.
  - vm_compute. discriminate.
  - vm_compute. reflexivity.
  - intros d b Hd Hb ev Hev. vm_compute in Hd. injection Hd as <-. vm_compute in Hb. injection Hb as <-.
    unfold wires in Hev. cbn [map b_staged wire] in Hev.
    repeat (apply elem_of_cons in Hev as [->|Hev]; [eexists; vm_compute; reflexivity|]).
    by apply elem_of_nil in Hev.
  - unfold opened_world, opened_writer, opened. rewrite Hrb. cbn [fst snd].
    assert (evs = opened_log) as ->; [|exact Hl].
    assert (map sequenced evs = map sequenced opened_log) as Hm.
    { rewrite <- Hev. assert (opened.1 = Ok br) as Ho by (unfold opened; by rewrite Hrb).
      vm_compute in Ho. by injection Ho as <-. }
    clear -Hm. revert evs Hm. generalize opened_log as l.
    induction l as [|[s1 a1 e1] l IH]; intros [|[s2 a2 e2] evs] Hm; try done.
    cbn in Hm. injection Hm as -> -> -> Hm. f_equal. by apply IH.
Qed.

(** All bytes of all files, durable. *)
Definition all_kept (d : gmap string FileData) : gmap string FileData :=
  (fun f => mkFile (f_bytes f) (length (f_bytes f)) true) <$> d.

Definition after_crash : gmap string FileData := all_kept (dir opened_world).

Lemma after_crash_crash : crash (dir opened_world) after_crash.
Proof.
  intros n. unfold after_crash, all_kept. rewrite lookup_fmap. destruct (dir opened_world !! n) as [f|] eqn:E; [|done].
  exists (length (f_bytes f)). rewrite firstn_all. split; [|done].
  assert (n ∈ dir_names (dir opened_world)) as Hin by (apply elem_of_dir_names; eauto).
  assert (dir_names (dir opened_world) = [segment_name 1]) as Hd by (vm_compute; reflexivity).
  rewrite Hd in Hin. apply list_elem_of_singleton in Hin as ->.
  vm_compute in E. injection E as <-. vm_compute. lia.
Qed.

Lemma after_crash_names n : is_Some (after_crash !! n) -> n = segment_name 1.
Proof.
  intros Hn. apply elem_of_dir_names in Hn.
  assert (dir_names after_crash = [segment_name 1]) as Hd by (vm_compute; reflexivity).
  rewrite Hd in Hn. by apply list_elem_of_singleton in Hn.
Qed.

Lemma after_crash_no_snaps name s st : parse_snap_seq name = Some s -> snapshot_at after_crash name <> Ok st.
Proof.
  intros Hp Hs. assert (is_Some (after_crash !! name)) as Hn.
  { unfold snapshot_at, bytes_at in Hs. destruct (after_crash !! name); [eauto|done]. }
  apply after_crash_names in Hn as ->. vm_compute in Hp. done.
Qed.

Definition demo_opts : LogStoreOptions := mkLogStoreOptions 4 0 4096.


Lemma open_book_restores_witness :
  exists c sealed act nd wr reg' w' m,
    openable after_crash c sealed act nd /\
    open_book demo_opts ∅ (mkWorld after_crash []) = (Ok (wr, reg'), w') /\ (nd <= m <= length act)%nat /\
    writer_inv w' wr (concat (sealed ++ [take m act])).
Proof.
  destruct (writer_openable opened_world opened_writer opened_log after_crash) as (sealed & act & st0 & Ho & _).
  - apply (li_writer _ _ _ opened_ledger).
  - apply after_crash_crash.
  - vm_compute. discriminate.
  - intros sealed act _ name s st Hp Hs. by destruct (after_crash_no_snaps name s st Hp).
  - destruct (open_book_restores demo_opts ∅ (mkWorld after_crash []) _ sealed act (length act) eq_refl Ho ltac:(reflexivity))
      as (wr & reg' & w' & m & H1 & H2 & H3).
    eexists _, sealed, act, (length act), wr, reg', w', m. split_and!; [exact Ho|exact H1|apply H2|apply H2|exact H3].
Defined.
(** A crash that keeps nothing but what is durable. *)
Definition harsh_crash (d : gmap string FileData) : gmap string FileData :=
  omap (fun f => if f_dirent f then Some (mkFile (take (f_durable f) (f_bytes f)) (f_durable f) true) else None) d.

Lemma harsh_crash_crash d :
  forallb (fun p => f_durable p.2 <=? length (f_bytes p.2))%nat (map_to_list d) = true -> crash d (harsh_crash d).
Proof.
  intros Hall n. unfold harsh_crash. rewrite lookup_omap. destruct (d !! n) as [f|] eqn:E; [|done]. cbn.
  destruct (f_dirent f); [|done]. exists (f_durable f). split; [|done]. split; [done|].
  rewrite forallb_forall in Hall. apply elem_of_map_to_list, list_elem_of_In in E. specialize (Hall _ E). cbn in Hall.
  by apply Nat.leb_le.
Qed.

(** A book is created, opens two accounts and is snapshotted, posts a sale,
    and fails to write the background snapshot taken after it. *)
Definition born : result BookWriter string * World := create_book 4096 (mkWorld ∅ []).
Definition born_writer : BookWriter := match born.1 with Ok wr => wr | Err _ => demo_writer end.

(** A codec that knows some values only. *)
Definition TableJson {A} `{EqDecision A} (t : list A) : Json A := {|
  to_vec a := match list_find (eq a) t with Some (i, _) => Ok (replicate i x00) | None => Err "unknown"%string end;
  from_slice b := ok_or (t !! length b) "invalid"%string
|}.

Lemma TableJson_laws {A} `{EqDecision A} (t : list A) : @JsonLaws A (TableJson t).
Proof.
  intros a b. cbn. destruct (list_find (eq a) t) as [[i x]|] eqn:E; [|done]. intros [= <-].
  apply list_find_Some in E as (Hi & <- & _). cbn. by rewrite length_replicate, Hi.
Qed.

(** The states after the two accounts are open, and after the sale. *)
Definition plain_state (jobs : list Job) : BookState :=
  match (run_batch noon 0 false born_writer jobs born.2).1 with Ok br => wr_state (br_writer br) | Err _ => new_book end.

#[local] Instance table_image_json : Json StateImage :=
  TableJson [state_image (plain_state two_opens); state_image (plain_state (two_opens ++ [JCommit sale]))].
#[local] Instance table_image_json_laws : JsonLaws StateImage := TableJson_laws _.

Definition result_of (r : result BatchResult string) : BatchResult :=
  match r with Ok br => br | Err _ => mkBatchResult demo_writer [] [] None end.

Lemma result_of_Ok (m : result BatchResult string * World) : is_ok m.1 = true -> m = (Ok (result_of m.1), m.2).
Proof. by destruct m as [[br|e] w]. Qed.

Definition first_batch := run_batch noon 1 true born_writer [open_cash; JSnapshot; open_sales] born.2.
Definition first_result : BatchResult := result_of first_batch.1.
Definition second_batch := run_batch noon 1 false (br_writer first_result) [JCommit sale] first_batch.2.
Definition second_result : BatchResult := result_of second_batch.1.
Definition lived_writer : BookWriter := br_writer second_result.
Definition lived_events : list (Sequenced LedgerEvent) := br_events first_result ++ br_events second_result.

(** The background snapshot fails at its rename. *)
Definition late_snapshot : result unit string * World :=
  write_snapshot (wr_state lived_writer) 3 (mkWorld (dir second_batch.2) [None; None; Some 0%nat]).
Definition lived_world : World := late_snapshot.2.

Lemma life_snapshot_one w wr told st seq :
  life w wr told [(st, seq)] -> life (write_snapshot st seq w).2 wr told [].
Proof. intros Hl. exact (life_snapshot w wr told [] st seq [] _ _ Hl (surjective_pairing _)). Qed.

Lemma life_batch_ok clock every inflight jobs w wr told pend :
  life w wr told pend -> Z.of_nat (length told + length jobs) <= i64_max ->
  is_ok (run_batch clock every inflight wr jobs w).1 = true ->
  let br := result_of (run_batch clock every inflight wr jobs w).1 in
  life (run_batch clock every inflight wr jobs w).2 (br_writer br) (told ++ br_events br)
    (option_list (br_background br) ++ pend).
Proof. intros Hl Hm Hok. eapply life_batch; [done|done|]. by apply result_of_Ok. Qed.

Lemma life_create_ok mx :
  0 < mx -> is_ok (create_book mx (mkWorld ∅ [])).1 = true ->
  life (create_book mx (mkWorld ∅ [])).2
    (match (create_book mx (mkWorld ∅ [])).1 with Ok wr => wr | Err _ => demo_writer end) [] [].
Proof. intros Hmx Hok. apply (life_create mx); [done|]. by destruct (create_book mx _) as [[wr|e] w]. Qed.

Lemma run_batch_background clock every inflight wr jobs w br w' p :
  run_batch clock every inflight wr jobs w = (Ok br, w') -> p ∈ option_list (br_background br) ->
  p = (wr_state (br_writer br), next_seq (wr_state (br_writer br)) - 1).
Proof.
  intros Hrb Hp. destruct (run_batch_classified _ _ _ _ _ _ _ _ Hrb) as (M & d & w1 & b & _ & _ & _ & Hf).
  destruct (finish_batch_Ok _ _ _ _ _ _ _ _ Hf) as (_ & _ & _ & _ & st2 & _ & _ & _ & _ & _ & _ & _ & -> & Hbg). by apply Hbg.
Qed.

Lemma born_life : life born.2 born_writer [] [].
Proof. apply life_create_ok; [done|]. vm_compute. reflexivity. Qed.

Lemma first_life : life first_batch.2 (br_writer first_result) (br_events first_result) [].
Proof.
  pose proof (life_batch_ok noon 1 true [open_cash; JSnapshot; open_sales] _ _ _ _ born_life ltac:(done)) as Hl.
  fold first_batch first_result in Hl. specialize (Hl ltac:(vm_compute; reflexivity)).
  assert (br_background first_result = None) as E by (vm_compute; reflexivity). cbv zeta in Hl. by rewrite E in Hl.
Qed.

Lemma lived_life : is_ok late_snapshot.1 = false /\ life lived_world lived_writer lived_events [].
Proof.
  split; [vm_compute; reflexivity|].
  assert (Z.of_nat (length (br_events first_result) + length [JCommit sale]) <= i64_max) as Hm by (vm_compute; discriminate).
  pose proof (life_batch_ok noon 1 false [JCommit sale] _ _ _ _ first_life Hm) as Hl.
  fold second_batch second_result in Hl. specialize (Hl ltac:(vm_compute; reflexivity)). cbv zeta in Hl.
  assert (br_background second_result = Some (wr_state lived_writer, 3)) as E.
  { assert (bool_decide (is_Some (br_background second_result)) = true) as [p Hp]%bool_decide_eq_true by (vm_compute; reflexivity).
    rewrite Hp. assert (next_seq (wr_state (br_writer second_result)) = 4) as H4 by (vm_compute; reflexivity).
    rewrite (run_batch_background noon 1 false (br_writer first_result) [JCommit sale] first_batch.2 second_result second_batch.2 p); [|apply result_of_Ok; vm_compute; reflexivity|rewrite Hp; by left].
    unfold lived_writer. by rewrite H4. }
  rewrite E in Hl. unfold lived_world, late_snapshot. apply life_snapshot_one, life_disk. exact Hl.
Qed.

Lemma restart_restores_book_witness :
  is_ok (snapshot_at (harsh_crash (dir lived_world)) (snap_name 2)) = true /\
  exists wr' reg' w' log, open_book demo_opts ∅ (mkWorld (harsh_crash (dir lived_world)) []) = (Ok (wr', reg'), w') /\
    writer_inv w' wr' log /\ map sequenced log = lived_events /\ same_book (wr_state lived_writer) (wr_state wr').
Proof.
  split; [vm_compute; reflexivity|].
  apply (restart_restores_book demo_opts ∅ lived_world lived_writer lived_events [] (harsh_crash (dir lived_world))).
  - apply lived_life.
  - apply harsh_crash_crash. vm_compute. reflexivity.
  - reflexivity.
Defined.
End open_demo.
