(* ===== verification/LogStore.v ===== *)
(** The log store, talea-store-log/src/lib.rs: [LogTaleaStore] and its
    implementation of the [Store] trait (talea-core/src/store.rs).

    The store is the registry, the open books and one directory per book.  An
    operation runs to its end before the next one starts; the jobs of one
    operation reach a book's writer in the order they are sent.  I/O errors
    carry shortened messages.  The advisory lock of the data directory is not
    part of the state. *)

From S2P Require Import Prelude Decimal Assoc Core Bloom Disk PostingIndex Idem BookState Frame Replay Segment Snapshot.
From S2P Require Import Writer WriterBatch WriterLog WriterSpec LogOpen.
Open Scope Z_scope.

(** A handle stays in the map when its writer's task has ended. *)
Record BookHandle := mkBookHandle { h_writer : BookWriter; h_alive : bool }.

Record LogStore := mkLogStore {
  dirs : gmap string World;
  registry : Registry;
  books : gmap string BookHandle;
  ls_opts : LogStoreOptions;
  shut_down : bool
}.

Definition batch_max : nat := 1024.

(** ** Operations as state passing *)

Definition sop (A : Type) : Type := LogStore -> result A StoreError * LogStore.
Definition sret {A} (a : A) : sop A := fun s => (Ok a, s).
Definition serr {A} (e : StoreError) : sop A := fun s => (Err e, s).
Definition sbind {A B} (m : sop A) (k : A -> sop B) : sop B :=
  fun s => match m s with (Ok a, s') => k a s' | (Err e, s') => (Err e, s') end.
Definition sget : sop LogStore := fun s => (Ok s, s).

Notation "'let*' p ':=' m 'in' k" := (sbind m (fun p => k))
  (at level 10, p pattern, m at level 200, k at level 200) : talea_scope.

Definition set_book (book : string) (h : BookHandle) (s : LogStore) : LogStore :=
  mkLogStore (dirs s) (registry s) (<[book := h]> (books s)) (ls_opts s) (shut_down s).

(** I/O in a book's directory. *)
Definition book_dir (s : LogStore) (book : string) : World := default (mkWorld ∅ []) (dirs s !! book).

Definition in_dir {A} (book : string) (m : io A) : sop A := fun s =>
  let '(r, w) := m (book_dir s book) in
  (map_err Io r, mkLogStore (<[book := w]> (dirs s)) (registry s) (books s) (ls_opts s) (shut_down s)).

Fixpoint has_char (c : ascii) (s : string) : bool :=
  match s with EmptyString => false | String a s => Ascii.eqb a c || has_char c s end.

Fixpoint has_dots (s : string) : bool :=
  match s with
  | String a s' => (Ascii.eqb a "." && match s' with String b _ => Ascii.eqb b "." | _ => false end) || has_dots s'
  | EmptyString => false
  end.

Definition validate_book_name (book : string) : result unit StoreError :=
  if String.eqb book "" || has_char "/" book || has_char "\" book || String.eqb book ".." || has_dots book
  then Err (Io "invalid book name") else Ok ().

(** ** Reads of a state *)

(** [balance] on an account. *)
Definition account_balance (acct : AccountState) (as_of : option DateTime) : BalanceSnapshot :=
  match as_of with
  | None => mkBalanceSnapshot (Amount_new (effective (raw_balance acct) (normal_side (as_cfg acct))) (acct_asset (as_def acct)))
              (updated_seq acct)
  | Some t =>
      let idx := partition_point_at (postings acct) t in
      match (if (idx =? 0)%nat then None else get (postings acct) (idx - 1)) with
      | None => mkBalanceSnapshot (Amount_new 0 (acct_asset (as_def acct))) 0
      | Some entry =>
          mkBalanceSnapshot (Amount_new (effective (e_raw_after entry) (normal_side (as_cfg acct))) (acct_asset (as_def acct)))
            (e_seq entry)
      end
  end.

Definition posting_record (account : AccountId) (acct : AccountState) (e : PostingEntry) : PostingRecord :=
  mkPostingRecord (e_seq e) (e_txid e) account (Amount_new (e_minor e) (acct_asset (as_def acct))) (e_direction e) (e_at e).

(** [account_history]'s walk: [limit] counts distinct sequence numbers. *)
Fixpoint walk_history (limit : Z) (entries : list PostingEntry) (distinct_seqs : Z) (last_seq : Seq) : list PostingEntry :=
  match entries with
  | [] => []
  | entry :: entries =>
      if negb (e_seq entry =? last_seq) then
        if limit <=? distinct_seqs then []
        else entry :: walk_history limit entries (distinct_seqs + 1) (e_seq entry)
      else entry :: walk_history limit entries distinct_seqs last_seq
  end.

Definition account_page (acct : AccountState) (after_seq : option Seq) (limit : Z) : list PostingEntry :=
  let after := default 0 after_seq in
  walk_history limit (iter_from (postings acct) (partition_point_seq (postings acct) after)) 0 0.

(** Rows in asset order. *)
Definition tb_rows (sums : list (string * (Z * Z))) : list TrialBalanceRow :=
  sort_by (fun x y => String.leb (tb_asset x) (tb_asset y)) (map (fun '(a, (d, c)) => mkTrialBalanceRow a d c) sums).

(** The fold of [trial_balance] at a time, over the events of the log. *)
Fixpoint tb_fold (ceiling : Seq) (t : DateTime) (events : list WireEvent) (sums : gmap string (Z * Z)) : gmap string (Z * Z) :=
  match events with
  | [] => sums
  | ev :: events =>
      if ceiling <? w_seq ev then sums
      else if t <? w_at ev then sums
      else tb_fold ceiling t events
             (match w_event ev with
              | TransactionPosted tx => foldl apply_sums sums (tx_postings tx)
              | _ => sums
              end)
  end.

(** The durability watermark: [next_seq.saturating_sub(1)]. *)
Definition ceiling_of (st : BookState) : Seq := saturating_sub (next_seq st) 1.

(** The rest of what a [oneshot] receiver gives when its sender is gone. *)
Definition writer_gone : StoreError := Io "book writer gone".

Definition answer_committed (o : option Answer) : result Committed StoreError :=
  match o with Some (AnsCommitted r) => r | _ => Err writer_gone end.

Definition answer_unit (o : option Answer) : result unit StoreError :=
  match o with Some (AnsUnit r) => r | _ => Err writer_gone end.

(** The answers of a queue's jobs, in their order: each batch took the next
    [batch_max] jobs of the queue; jobs after the last answered batch have
    none. *)
Fixpoint answers_in_order (n : nat) (out : list (list (nat * Answer) * list (Sequenced LedgerEvent))) : list (option Answer) :=
  match out with
  | [] => replicate n None
  | (answers, _) :: out =>
      let k := Nat.min n batch_max in
      map (fun i => snd <$> List.find (fun p => (p.1 =? i)%nat) answers) (seq 0 k) ++ answers_in_order (n - k) out
  end.

Section store.
Context `{HashIter} `{KeyHashes} `{Crc32} `{Json (list Pair)} `{Json WireEvent} `{Json StateImage}.

(** ** Opening *)

(** The loop over the book directories. *)
Fixpoint open_books (opts : LogStoreOptions) (names : list (string * World)) (s : LogStore) :
    result LogStore StoreError :=
  match names with
  | [] => Ok s
  | (name, w) :: names =>
      match open_book opts (registry s) w with
      | (Ok (wr, reg), w') =>
          open_books opts names
            (mkLogStore (<[name := w']> (dirs s)) reg (<[name := mkBookHandle wr true]> (books s)) opts false)
      | (Err e, _) => Err (Io e)
      end
  end.

Definition open_with (opts : LogStoreOptions) (ds : gmap string World) : result LogStore StoreError :=
  open_books opts (hash_iter ds) (mkLogStore ds ∅ ∅ opts false).

(** ** Books *)

Definition existing_book (book : string) : sop (option BookHandle) := fun s =>
  if shut_down s then (Err (Io "store has been shut down"), s)
  else match validate_book_name book with
       | Err e => (Err e, s)
       | Ok _ => (Ok (books s !! book), s)
       end.

Definition add_book (book : string) : sop BookHandle :=
  let* s := sget in
  let* wr := in_dir book (create_book (opt_segment_max (ls_opts s))) in
  fun s => let h := mkBookHandle wr true in (Ok h, set_book book h s).

Definition book_writer (book : string) : sop BookHandle := fun s =>
  if shut_down s then (Err (Io "store has been shut down"), s)
  else match validate_book_name book with
       | Err e => (Err e, s)
       | Ok _ =>
           match books s !! book with
           | Some h => (Ok h, s)
           | None => add_book book s
           end
       end.

(** Send jobs to a book's writer and wait for their answers. *)
Definition submit (clock : nat -> nat -> DateTime) (book : string) (jobs : list Job) : sop (list (option Answer)) := fun s =>
  match books s !! book with
  | None => (Err writer_gone, s)
  | Some h =>
      if h_alive h then
        match run_loop (length jobs) clock (fun _ => false) batch_max (snapshot_every (ls_opts s)) (h_writer h) jobs (book_dir s book) with
        | (Ok (o, out), w') =>
            let h' := match o with Some wr => mkBookHandle wr true | None => mkBookHandle (h_writer h) false end in
            (Ok (answers_in_order (length jobs) out),
             mkLogStore (<[book := w']> (dirs s)) (registry s) (<[book := h']> (books s)) (ls_opts s) (shut_down s))
        | (Err e, w') =>
            (Err (Io e), mkLogStore (<[book := w']> (dirs s)) (registry s)
                           (<[book := mkBookHandle (h_writer h) false]> (books s)) (ls_opts s) (shut_down s))
        end
      else (Err writer_gone, s)
  end.

Definition submit_one (clock : nat -> nat -> DateTime) (book : string) (job : Job) : sop (option Answer) :=
  let* l := submit clock book [job] in sret (default None (head l)).

Definition lift_answer {A} (r : result A StoreError) : sop A := fun s => (r, s).

Definition snapshot_now (clock : nat -> nat -> DateTime) (book : string) : sop unit :=
  let* o := existing_book book in
  match o with
  | None => serr (Io "book not found for snapshot_now")
  | Some _ => let* a := submit_one clock book JSnapshot in lift_answer (answer_unit a)
  end.

Definition shutdown : sop unit := fun s =>
  (Ok (), mkLogStore (dirs s) (registry s) ∅ (ls_opts s) true).

(** ** Writes *)

Definition register_asset (clock : nat -> nat -> DateTime) (asset : AssetDef) : sop unit := fun s =>
  if shut_down s then (Err (Io "store has been shut down"), s)
  else match registry s !! asset_id asset with
       | Some existing =>
           if bool_decide (existing = asset) then (Ok (), s)
           else (Err (AlreadyExists ("asset " +:+ asset_id asset)), s)
       | None =>
           (let* _ := book_writer SYSTEM_BOOK in
            let* a := submit_one clock SYSTEM_BOOK (JRegisterAsset asset) in
            let* _ := lift_answer (answer_unit a) in
            fun s => (Ok (), mkLogStore (dirs s) (<[asset_id asset := asset]> (registry s)) (books s) (ls_opts s) (shut_down s))) s
       end.

Definition open_account (clock : nat -> nat -> DateTime) (def : AccountDef) (cfg : AccountCfg) : sop unit :=
  if is_reserved (acct_book (acct_id def)) then serr (InvalidBook (acct_book (acct_id def)))
  else
    let* s := sget in
    match registry s !! acct_asset def with
    | None => serr (UnknownAsset (acct_asset def))
    | Some _ =>
        let* _ := book_writer (acct_book (acct_id def)) in
        let* a := submit_one clock (acct_book (acct_id def)) (JOpenAccount def cfg) in
        lift_answer (answer_unit a)
    end.

Definition commit (clock : nat -> nat -> DateTime) (tx : Transaction) : sop Committed :=
  let* _ := book_writer (tx_book tx) in
  let* a := submit_one clock (tx_book tx) (JCommit tx) in
  lift_answer (answer_committed a).

(** *** [commit_batch] *)

(** The books of a batch, in the order they are first asked for, each with
    the error of its writer if it has none. *)
Fixpoint acquire (txs : list Transaction) (cache : list (string * option StoreError)) (s : LogStore) :
    list (string * option StoreError) * LogStore :=
  match txs with
  | [] => (cache, s)
  | tx :: txs =>
      match find_key (tx_book tx) cache with
      | Some _ => acquire txs cache s
      | None =>
          let '(r, s') := book_writer (tx_book tx) s in
          acquire txs (cache ++ [(tx_book tx, match r with Ok _ => None | Err e => Some e end)]) s'
      end
  end.

(** The text of an error, for the slots of a book without a writer. *)
Definition error_text (e : StoreError) : string := match e with Io m => "storage backend error: " +:+ m | _ => "" end.

(** Send each book its transactions, in their order, and collect the replies
    by position. *)
Fixpoint run_books (clock : nat -> nat -> DateTime) (txs : list Transaction) (cache : list (string * option StoreError))
    (s : LogStore) : list (nat * result Committed StoreError) * LogStore :=
  match cache with
  | [] => ([], s)
  | (book, err) :: cache =>
      let mine := filter (fun p => tx_book p.2 = book) (imap pair txs) in
      match err with
      | Some e =>
          let '(rest, s') := run_books clock txs cache s in
          (map (fun p => (p.1, Err (Io (error_text e)))) mine ++ rest, s')
      | None =>
          let '(r, s1) := submit clock book (map (fun p => JCommit p.2) mine) s in
          let replies :=
            match r with
            | Ok answers => map answer_committed answers
            | Err e => map (fun _ => Err e) mine
            end in
          let '(rest, s2) := run_books clock txs cache s1 in
          (zip (map fst mine) replies ++ rest, s2)
      end
  end.

Definition commit_batch (clock : nat -> nat -> DateTime) (txs : list Transaction) (s : LogStore) :
    list (result Committed StoreError) * LogStore :=
  match txs with
  | [] => ([], s)
  | _ =>
      let '(cache, s1) := acquire txs [] s in
      let '(replies, s2) := run_books clock txs cache s1 in
      (map (fun i => match List.find (fun p => (p.1 =? i)%nat) replies with
                     | Some (_, r) => r
                     | None => Err (Io "unreachable: unset commit_batch slot")
                     end) (seq 0 (length txs)), s2)
  end.

(** ** Reads *)

Definition find_account (account : AccountId) : sop AccountState :=
  let* o := existing_book (acct_book account) in
  match o with
  | None => serr (UnknownAccount account)
  | Some h =>
      match accounts (wr_state (h_writer h)) !! to_key account with
      | None => serr (UnknownAccount account)
      | Some acct => sret acct
      end
  end.

Definition balance (account : AccountId) (as_of : option DateTime) : sop BalanceSnapshot :=
  let* acct := find_account account in sret (account_balance acct as_of).

Definition asset (id : AssetId) : sop (option AssetDef) := fun s => (Ok (registry s !! id), s).

Definition account_history (account : AccountId) (after_seq : option Seq) (limit : Z) : sop (list PostingRecord) :=
  if limit =? 0 then sret []
  else
    let* acct := find_account account in
    sret (map (posting_record account acct) (account_page acct after_seq limit)).

Definition read_transaction (wr : BookWriter) (txid : TxId) (seq : Seq) (pos : Seq * nat) : io StoredTransaction :=
  let! wire := read_at (catalog (wr_segments wr)) pos.1 pos.2 seq in
  match w_event wire with
  | TransactionPosted tx => io_ret (mkStoredTransaction tx (w_seq wire) (w_at wire))
  | _ => io_err "frame at recorded position is not a transaction"
  end.

(** The first book, in the map's order, that has the transaction. *)
Fixpoint find_transaction (txid : TxId) (hs : list (string * BookHandle)) : sop (option StoredTransaction) :=
  match hs with
  | [] => sret None
  | (book, h) :: hs =>
      match txids (wr_state (h_writer h)) !! txid with
      | Some (seq, pos) =>
          let* t := in_dir book (read_transaction (h_writer h) txid seq pos) in sret (Some t)
      | None => find_transaction txid hs
      end
  end.

Definition transaction (txid : TxId) : sop (option StoredTransaction) :=
  let* s := sget in find_transaction txid (hash_iter (books s)).

Definition trial_balance (book : Book) (as_of : option DateTime) : sop (list TrialBalanceRow) :=
  let* o := existing_book book in
  match o with
  | None => sret []
  | Some h =>
      let st := wr_state (h_writer h) in
      match as_of with
      | None => sret (tb_rows (hash_iter (sums st)))
      | Some t =>
          let* events := in_dir book (scan_from (catalog (wr_segments (h_writer h))) 1 usize_max) in
          sret (tb_rows (hash_iter (tb_fold (ceiling_of st) t events ∅)))
      end
  end.

Fixpoint take_upto (ceiling : Seq) (evs : list WireEvent) : list WireEvent :=
  match evs with
  | [] => []
  | ev :: evs => if w_seq ev <=? ceiling then ev :: take_upto ceiling evs else []
  end.

(** Events of a book that are durable and applied. *)
Definition read_log (wr : BookWriter) (from : Seq) (limit : Z) : io (list WireEvent) :=
  let! wires := scan_from (catalog (wr_segments wr)) from limit in
  io_ret (take_upto (ceiling_of (wr_state wr)) wires).

Definition read_events (book : Book) (from : Seq) (limit : Z) : sop (list (Sequenced LedgerEvent)) :=
  let* o := existing_book book in
  match o with
  | None => sret []
  | Some h => let* wires := in_dir book (read_log (h_writer h) from limit) in sret (map sequenced wires)
  end.
End store.
