(* ===== verification/StoreReads.v ===== *)
(** What the reads of the log store return (talea-store-log/src/lib.rs):
    balances now and at a time, history pages, trial balances, events and
    transactions, each against the postings or the log they stand for. *)

From S2P Require Import Prelude Decimal Assoc Core Bloom Disk PostingIndex Idem BookState Frame Replay Segment Snapshot.
From S2P Require Import Writer WriterBatch WriterLog WriterSpec LogOpen LogStore.
Open Scope Z_scope.

(** ** Balances *)

(** The entries of an account up to a time; all of them for [None]. *)
Definition upto_time (as_of : option DateTime) (v : list PostingEntry) : list PostingEntry :=
  match as_of with None => v | Some t => filter (fun e => e_at e <= t) v end.

(** The snapshot the entries stand for. *)
Definition snapshot_of (acct : AccountState) (v : list PostingEntry) : BalanceSnapshot :=
  mkBalanceSnapshot (Amount_new (effective (entries_sum v) (normal_side (as_cfg acct))) (acct_asset (as_def acct)))
    (default 0 (e_seq <$> last v)).

Lemma effective_0 ns : effective 0 ns = 0.
Proof. destruct ns as [[|]|]; done. Qed.

Lemma running_last r v e : running r v -> last v = Some e -> e_raw_after e = r + entries_sum v.
Proof.
  intros Hr [l ->]%last_Some. apply running_app in Hr as [_ [He _]]. rewrite entries_sum_app. cbn in *. lia.
Qed.

Lemma running_prefix r v w : running r (v ++ w) -> running r v.
Proof. intros [? _]%running_app. done. Qed.

Lemma take_upto_time ix t :
  chunked ix -> ordered (flat ix) -> take (partition_point_at ix t) (flat ix) = filter (fun e => e_at e <= t) (flat ix).
Proof.
  intros H Ho. pose proof (ordered_cut_at _ t Ho) as Hat. unfold partition_point_at.
  rewrite partition_point_by_flat, prefix_len_take by done. apply list_filter_iff. intros x. lia.
Qed.

Lemma iter_after ix s :
  chunked ix -> ordered (flat ix) -> iter_from ix (partition_point_seq ix s) = filter (fun e => s < e_seq e) (flat ix).
Proof.
  intros H Ho. pose proof (ordered_cut_seq _ s Ho) as Hseq. unfold partition_point_seq.
  rewrite iter_from_flat, partition_point_by_flat, prefix_len_drop by done. apply list_filter_iff. intros x. lia.
Qed.

Lemma prefix_len_le {A} (p : A -> bool) l : (prefix_len p l <= length l)%nat.
Proof. induction l as [|x l IH]; cbn; [lia|]. destruct (p x); lia. Qed.

Lemma account_balance_spec nxt la k acct as_of :
  acct_wf nxt la k acct -> account_balance acct as_of = snapshot_of acct (upto_time as_of (flat (postings acct))).
Proof.
  intros Hw. destruct as_of as [t|]; cbn [account_balance upto_time].
  2:{ unfold snapshot_of. rewrite (aw_sum _ _ _ _ Hw), (aw_updated _ _ _ _ Hw). by destruct (last _). }
  pose proof (aw_chunked _ _ _ _ Hw) as Hc. pose proof (aw_ordered _ _ _ _ Hw) as Ho.
  rewrite <- take_upto_time by done. set (idx := partition_point_at (postings acct) t).
  destruct (idx =? 0)%nat eqn:E; [apply Nat.eqb_eq in E; rewrite E; unfold snapshot_of; cbn; by rewrite effective_0|].
  apply Nat.eqb_neq in E. rewrite get_flat by done.
  destruct (flat (postings acct) !! (idx - 1)%nat) as [e|] eqn:Ee.
  - assert (last (take idx (flat (postings acct))) = Some e) as Hl.
    { pose proof (lookup_lt_Some _ _ _ Ee) as Hlt. rewrite last_lookup, length_take, Nat.min_l by lia.
      rewrite lookup_take_lt by lia. by replace (pred idx) with (idx - 1)%nat by lia. }
    unfold snapshot_of. rewrite Hl. cbn. f_equal. f_equal. f_equal.
    assert (running 0 (take idx (flat (postings acct)))) as Hr.
    { eapply (running_prefix _ _ (drop idx (flat (postings acct)))). rewrite take_drop. apply (aw_running _ _ _ _ Hw). }
    rewrite (running_last _ _ _ Hr Hl). lia.
  - apply lookup_ge_None in Ee.
    assert (idx <= length (flat (postings acct)))%nat as Hle.
    { unfold idx, partition_point_at. rewrite partition_point_by_flat; [apply prefix_len_le|done|by apply ordered_cut_at]. }
    assert (flat (postings acct) = []) as -> by (apply nil_length_inv; lia). by rewrite take_nil; unfold snapshot_of; cbn; rewrite effective_0.
Qed.

(** ** History pages *)

(** How many transactions some entries come from. *)
Fixpoint distinct_after (last_seq : Seq) (v : list PostingEntry) : Z :=
  match v with
  | [] => 0
  | e :: v => (if e_seq e =? last_seq then 0 else 1) + distinct_after (e_seq e) v
  end.

Lemma distinct_nonneg l v : 0 <= distinct_after l v.
Proof. revert l. induction v as [|e v IH]; intros l; cbn; [done|]. specialize (IH (e_seq e)). case_match; lia. Qed.

Lemma walk_spec limit v n l :
  0 <= n <= limit -> exists rest, v = walk_history limit v n l ++ rest /\
    n + distinct_after l (walk_history limit v n l) <= limit /\
    match rest with
    | [] => True
    | e :: _ => n + distinct_after l (walk_history limit v n l) = limit /\
        e_seq e <> default l (e_seq <$> last (walk_history limit v n l))
    end.
Proof.
  revert n l. induction v as [|e v IH]; intros n l Hn; cbn [walk_history].
  { exists []. cbn. split_and!; [done|lia|done]. }
  destruct (e_seq e =? l) eqn:E; cbn [negb].
  - apply Z.eqb_eq in E. subst l. destruct (IH n (e_seq e) Hn) as (rest & Hv & Hd & Hr). exists rest.
    cbn [app distinct_after]. rewrite Z.eqb_refl, <- Hv. split_and!; [done|lia|]. destruct rest as [|e' rest]; [done|].
    destruct Hr as [Hr1 Hr2]. split; [lia|]. rewrite last_cons. by destruct (last (walk_history _ _ _ _)).
  - apply Z.eqb_neq in E. destruct (limit <=? n) eqn:El.
    + apply Z.leb_le in El. exists (e :: v). cbn. split_and!; [done|lia|lia|done].
    + apply Z.leb_gt in El. destruct (IH (n + 1) (e_seq e)) as (rest & Hv & Hd & Hr); [lia|]. exists rest.
      cbn [app distinct_after]. assert (e_seq e =? l = false) as -> by lia. rewrite <- Hv. split_and!; [done|lia|].
      destruct rest as [|e' rest]; [done|]. destruct Hr as [Hr1 Hr2]. split; [lia|]. rewrite last_cons.
      by destruct (last (walk_history _ _ _ _)).
Qed.

Lemma ordered_elem v l r x y : ordered v -> v = l ++ r -> x ∈ l -> y ∈ r -> e_seq x <= e_seq y.
Proof.
  intros Ho -> [i Hi]%list_elem_of_lookup [j Hj]%list_elem_of_lookup.
  apply (Ho i (length l + j)%nat); [by apply lookup_app_l_Some|by rewrite lookup_app_r, Nat.add_comm, Nat.add_sub by lia|].
  apply lookup_lt_Some in Hi. lia.
Qed.

Lemma ordered_filter (P : PostingEntry -> Prop) `{forall e, Decision (P e)} v : ordered v -> ordered (filter P v).
Proof.
  induction v as [|e v IH] using rev_ind; intros Ho; [done|]. rewrite filter_app.
  assert (ordered v) as Hv by (intros i j x y Hi Hj Hle; apply (Ho i j); [by apply lookup_app_l_Some..|done]).
  rewrite filter_cons. case_decide; [|by rewrite app_nil_r; apply IH]. apply ordered_snoc; [by apply IH|].
  intros x Hx. apply list_elem_of_filter in Hx as [_ [i Hi]%list_elem_of_lookup].
  apply (Ho i (length v) x e); [by apply lookup_app_l_Some|by rewrite list_lookup_middle|]. apply lookup_lt_Some in Hi. lia.
Qed.

Lemma page_before page e0 rest e e' :
  ordered (page ++ e0 :: rest) -> e_seq e0 <> default 0 (e_seq <$> last page) -> e ∈ page -> e' ∈ e0 :: rest ->
  e_seq e < e_seq e'.
Proof.
  intros Ho Hne He He'. destruct (last page) as [l|] eqn:El; [|apply last_None in El; subst; by apply elem_of_nil in He].
  apply last_Some in El as [p ->]. cbn in Hne.
  assert (e_seq e <= e_seq l) as H1.
  { apply elem_of_app in He as [He| ->%list_elem_of_singleton]; [|done].
    rewrite <- app_assoc in Ho. eapply (ordered_elem _ p); [exact Ho|done|done|]. by left. }
  assert (e_seq l <= e_seq e0) as H2.
  { eapply (ordered_elem _ (p ++ [l]) (e0 :: rest)); [exact Ho|done|apply elem_of_app; right; by left|by left]. }
  assert (e_seq e0 <= e_seq e') as H3.
  { apply elem_of_cons in He' as [->|He']; [done|].
    eapply (ordered_elem _ ((p ++ [l]) ++ [e0]) rest); [exact Ho|by rewrite <- (app_assoc (p ++ [l]))|apply elem_of_app; right; by left|done]. }
  lia.
Qed.

(** A page of an ordered history and what it leaves. *)
Lemma walk_page v limit :
  ordered v -> 0 < limit ->
  exists rest, v = walk_history limit v 0 0 ++ rest /\ distinct_after 0 (walk_history limit v 0 0) <= limit /\
    (rest <> [] -> distinct_after 0 (walk_history limit v 0 0) = limit) /\
    (forall e e', e ∈ walk_history limit v 0 0 -> e' ∈ rest -> e_seq e < e_seq e').
Proof.
  intros Hov Hl. destruct (walk_spec limit v 0 0) as (rest & Hv & Hd & Hr); [lia|]. exists rest. split_and!; [done|lia| |].
  - intros Hne. destruct rest; [done|]. destruct Hr. lia.
  - intros e e' He He'. destruct rest as [|e0 rest]; [by apply elem_of_nil in He'|]. destruct Hr as [_ Hne].
    rewrite Hv in Hov. eapply page_before; [exact Hov|exact Hne|done|done].
Qed.

(** ** The log a writer's reads see *)

Section scan.
Context `{HashIterLaws} `{KeyHashes} `{Crc32} `{!Crc32Laws} `{Json (list Pair)} `{!JsonLaws (list Pair)}
  `{Json WireEvent} `{!JsonLaws WireEvent} `{Json StateImage} `{!JsonLaws StateImage}.

Lemma gapless_filter_events (s : Seq) (n : nat) (l : list WireEvent) :
  gapless s l -> filter (fun ev => s + Z.of_nat n <= w_seq ev) l = drop n l.
Proof.
  intros Hg. pose proof (gapless_filter s n (map (fun e => (e, (0, 0%nat))) l)) as Hf.
  rewrite map_map, map_id in Hf. specialize (Hf Hg). apply (f_equal (map fst)) in Hf.
  rewrite <- skipn_map, map_map, map_id in Hf. cbn in Hf. rewrite <- Hf. clear.
  induction l as [|e l IH]; [done|]. rewrite !filter_cons. cbn [map]. rewrite filter_cons. cbn [fst].
  case_decide; cbn; by rewrite IH.
Qed.

Lemma writer_scan w wr log (k : nat) limit :
  writer_inv w wr log -> faults w = [] -> 0 <= limit ->
  scan_from (catalog (wr_segments wr)) (Z.of_nat k + 1) limit w = (Ok (take (Z.to_nat limit) (drop k log)), w).
Proof.
  intros [(sealed & act & st0 & Hla & <- & _) _ _] Hf Hl. pose proof (la_ready _ _ _ _ _ Hla) as Hr.
  unfold scan_from. rewrite (scan_catalog_spec _ w (catalog (wr_segments wr)) (sealed ++ [act]) []);
    [|done|by eapply durable_ready_log_files|apply (lr_bases _ _ _ _ _ Hr)|done].
  rewrite select_all_filter by (by eapply ready_length).
  rewrite (Z.add_comm _ 1), gapless_filter_events by apply (la_gapless _ _ _ _ _ Hla). done.
Qed.

Lemma writer_ceiling w wr log :
  writer_inv w wr log -> Z.of_nat (length log) < i64_max -> ceiling_of (wr_state wr) = Z.of_nat (length log).
Proof.
  intros Hwi Hmax. destruct (writer_inv_state _ _ _ Hwi) as (Hn & _). unfold ceiling_of, saturating_sub, clamp_i64.
  rewrite Hn. unfold i64_min, i64_max in *. lia.
Qed.

Lemma take_upto_all (c : Seq) evs : Forall (fun ev => w_seq ev <= c) evs -> take_upto c evs = evs.
Proof. induction 1 as [|ev evs Hev _ IH]; cbn; [done|]. assert (w_seq ev <=? c = true) as -> by lia. by rewrite IH. Qed.

Lemma writer_gapless w wr log : writer_inv w wr log -> gapless 1 log.
Proof. intros [(sealed & act & st0 & Hla & <- & _) _ _]. apply (la_gapless _ _ _ _ _ Hla). Qed.

Lemma log_below w wr log :
  writer_inv w wr log -> Forall (fun ev => w_seq ev <= Z.of_nat (length log)) log.
Proof. intros Hwi. eapply Forall_impl; [eapply gapless_lt, writer_gapless, Hwi|]. cbn. lia. Qed.

Lemma read_log_spec w wr log (k : nat) limit :
  writer_inv w wr log -> faults w = [] -> 0 <= limit -> Z.of_nat (length log) < i64_max ->
  read_log wr (Z.of_nat k + 1) limit w = (Ok (take (Z.to_nat limit) (drop k log)), w).
Proof.
  intros Hwi Hf Hl Hmax. unfold read_log, io_bind. rewrite (writer_scan w wr log k limit) by done.
  rewrite (writer_ceiling w wr log) by done. rewrite take_upto_all; [done|].
  apply Forall_take, Forall_drop. by eapply log_below.
Qed.

(** ** The sums of a log *)

Definition sums_step (sums : gmap string (Z * Z)) (ev : WireEvent) : gmap string (Z * Z) :=
  match w_event ev with TransactionPosted tx => foldl apply_sums sums (tx_postings tx) | _ => sums end.

Lemma replay_sums st L st1 : replay st L = Ok st1 -> sums st1 = foldl sums_step (sums st) (map fst L).
Proof.
  revert st. induction L as [|[ev p] L IH]; intros st Hr; cbn in *; [by simplify_eq|].
  destruct (apply_event st ev p) as [st2|] eqn:E; [|done]. rewrite (IH _ Hr). f_equal.
  unfold apply_event in E. unfold sums_step. destruct (w_event ev) as [def|def cfg|tx]; [by injection E as <-..|].
  unfold try_apply_transaction in E. destruct (apply_postings _ _ _ _ _ _) as [[a s]|] eqn:Ea; [|done].
  injection E as <-. by apply apply_postings_inv in Ea as [-> _].
Qed.

Lemma writer_sums w wr log : writer_inv w wr log -> sums (wr_state wr) = foldl sums_step ∅ log.
Proof.
  intros [(sealed & act & st0 & Hla & <- & Hr & Hs) _ _]. rewrite (sb_sums _ _ Hs), (replay_sums _ _ _ Hr).
  rewrite positions_events; [done|eapply ready_length, la_ready, Hla|apply (la_gapless _ _ _ _ _ Hla)].
Qed.

Lemma tb_fold_all c t evs sm :
  Forall (fun ev => w_seq ev <= c /\ w_at ev <= t) evs -> tb_fold c t evs sm = foldl sums_step sm evs.
Proof.
  intros Hf. revert sm. induction Hf as [|ev evs [H1' H2'] _ IH]; intros sm; cbn; [done|].
  assert (c <? w_seq ev = false) as -> by lia. assert (t <? w_at ev = false) as -> by lia. apply IH.
Qed.

(** Cutting at a time is filtering by it, as the timestamps are in order. *)
Lemma tb_fold_time c t t0 evs sm :
  Forall (fun ev => w_seq ev <= c) evs -> stamped t0 evs ->
  tb_fold c t evs sm = foldl sums_step sm (filter (fun ev => w_at ev <= t) evs).
Proof.
  intros Hf. revert t0 sm. induction Hf as [|ev evs H1' _ IH]; intros t0 sm Hs; cbn [tb_fold]; [done|].
  destruct Hs as [_ Hs]. assert (c <? w_seq ev = false) as -> by lia. destruct (t <? w_at ev) eqn:E.
  - apply Z.ltb_lt in E. assert (filter (fun e => w_at e <= t) (ev :: evs) = []) as ->; [|done].
    assert (Forall (fun e => t < w_at e) (ev :: evs)) as Hall.
    { constructor; [done|]. clear -Hs E. revert ev Hs E. induction evs as [|e evs IH]; intros ev Hs E; [constructor|].
      destruct Hs as [He Hs]. specialize (He _ eq_refl). constructor; [lia|]. apply (IH e); [done|lia]. }
    clear -Hall. induction Hall as [|e l He _ IH]; [done|]. by rewrite filter_cons_False by lia.
  - apply Z.ltb_ge in E. rewrite filter_cons_True by done. cbn [foldl]. by eapply IH.
Qed.

(** ** Transactions at their positions *)

Definition txids_sound (L : list (WireEvent * (Seq * nat))) (ids : gmap Z (Seq * FramePos)) : Prop :=
  forall id s p, ids !! id = Some (s, p) ->
    exists ev tx, (ev, p) ∈ L /\ w_seq ev = s /\ w_event ev = TransactionPosted tx /\ tx_id tx = id.

Lemma replay_txids L0 st L st1 :
  txids_sound L0 (txids st) -> replay st L = Ok st1 -> txids_sound (L0 ++ L) (txids st1).
Proof.
  revert L0 st. induction L as [|[ev p] L IH]; intros L0 st Hs Hr; cbn in Hr; [simplify_eq; by rewrite app_nil_r|].
  destruct (apply_event st ev p) as [st2|] eqn:E; [|done].
  rewrite cons_middle, app_assoc. apply (IH _ st2); [|done].
  intros id s q Hid.
  assert (txids st !! id = Some (s, q) \/ exists tx, w_event ev = TransactionPosted tx /\ tx_id tx = id /\ w_seq ev = s /\ p = q)
    as [Hold|(tx & Htx & Hid' & Hseq & ->)].
  { unfold apply_event in E. destruct (w_event ev) as [def|def cfg|tx]; [injection E as <-; by left..|].
    unfold try_apply_transaction in E. destruct (apply_postings _ _ _ _ _ _) as [[a sm]|]; [|done]. injection E as <-. cbn in Hid.
    destruct (decide (tx_id tx = id)) as [Heq|Hne].
    - subst id. rewrite lookup_insert_eq in Hid. injection Hid as <- <-. right. exists tx. done.
    - rewrite lookup_insert_ne in Hid by done. by left. }
  - destruct (Hs _ _ _ Hold) as (e0 & tx0 & ? & ? & ? & ?). exists e0, tx0. split_and!; try done. apply elem_of_app. by left.
  - exists ev, tx. split_and!; try done. apply elem_of_app. right. by left.
Qed.

(** A frame of the log reads back at its position. *)
Lemma btree_get_sorted base path c : sorted_bases c -> (base, path) ∈ c -> btree_get base c = Some path.
Proof.
  induction 1 as [|[b p] c Hs IH Hall]; [by intros ?%elem_of_nil|]. intros [[= -> ->]|Hin]%elem_of_cons; cbn.
  - by rewrite Z.eqb_refl.
  - rewrite Forall_forall in Hall. specialize (Hall _ Hin). cbn in Hall. assert (b =? base = false) as -> by lia. auto.
Qed.

Lemma select_elem base pos evs ev p :
  (ev, p) ∈ select (fun base pos ev => (ev, (base, pos))) 1 base pos evs ->
  exists l r, evs = l ++ ev :: r /\ p = (base, (pos + sum_list (map frame_len l))%nat).
Proof.
  revert pos. induction evs as [|e evs IH]; intros pos Hin; cbn [select] in Hin; [by apply elem_of_nil in Hin|].
  apply elem_of_app in Hin as [Hin|Hin].
  - destruct (1 <=? w_seq e); [|by apply elem_of_nil in Hin]. apply list_elem_of_singleton in Hin as [= -> ->].
    exists [], evs. split; [done|]. cbn. by rewrite Nat.add_0_r.
  - destruct (IH _ Hin) as (l & r & -> & ->). exists (e :: l), r. split; [done|]. cbn. f_equal. lia.
Qed.

Lemma positions_elem c chunks ev p :
  (ev, p) ∈ positions c chunks -> exists i base path evs, c !! i = Some (base, path) /\ chunks !! i = Some evs /\
    exists l r, evs = l ++ ev :: r /\ p = (base, sum_list (map frame_len l)).
Proof.
  unfold positions. revert chunks. induction c as [|[b q] c IH]; intros [|evs chunks] Hin; cbn [select_all] in Hin;
    try (by apply elem_of_nil in Hin). apply elem_of_app in Hin as [Hin|Hin].
  - destruct (select_elem _ _ _ _ _ Hin) as (l & r & -> & ->). exists 0%nat, b, q, (l ++ ev :: r). split_and!; try done. by exists l, r.
  - destruct (IH _ Hin) as (i & base & path & evs' & ? & ? & ?). by exists (S i), base, path, evs'.
Qed.

Lemma log_files_nth d c chunks tail i base path evs :
  log_files d c chunks tail -> c !! i = Some (base, path) -> chunks !! i = Some evs ->
  exists bs rest, bytes_at d path = Some (bs ++ rest) /\ encoded evs bs.
Proof.
  intros Hl. revert i. induction Hl as [b p e bs tl Hb He Ht|b p e bs seg c chunks tl Hb He Hl IH]; intros [|i] Hc Hev.
  - cbn in *. simplify_eq. eauto.
  - done.
  - cbn in *. simplify_eq. exists bs, []. by rewrite app_nil_r.
  - by apply (IH i).
Qed.

Lemma read_at_position w wr log sealed act ev p :
  log_at w (wr_segments wr) sealed act (length act) -> concat (sealed ++ [act]) = log -> faults w = [] ->
  (forall name f, dir w !! name = Some f -> Z.of_nat (length (f_bytes f)) <= u64_max) ->
  (ev, p) ∈ positions (catalog (wr_segments wr)) (sealed ++ [act]) ->
  read_at (catalog (wr_segments wr)) p.1 p.2 (w_seq ev) w = (Ok ev, w).
Proof.
  intros Hla _ Hf Hmax Hin. pose proof (la_ready _ _ _ _ _ Hla) as Hr.
  destruct (positions_elem _ _ _ _ Hin) as (i & base & path & evs & Hc & Hev & l & r & -> & ->). cbn [fst snd].
  destruct (log_files_nth _ _ _ _ _ _ _ _ (durable_ready_log_files _ _ _ _ _ Hr) Hc Hev) as (bs & rest & Hb & Henc).
  destruct (encoded_take _ _ (length l) Henc) as (b1 & b2 & -> & H1' & H2').
  rewrite take_app_length in H1'. rewrite drop_app_length in H2'.
  inversion H2' as [|? ? b b3 Hb' Hb3]; subst. rewrite (encoded_frame_len _ _ H1').
  apply (read_at_spec w _ base path b1 ev b (b3 ++ rest)); [done| | |done|].
  - apply btree_get_sorted; [eapply bases_ok_sorted, (lr_bases _ _ _ _ _ Hr)|by eapply list_elem_of_lookup_2].
  - by rewrite Hb, <- !app_assoc.
  - unfold bytes_at in Hb. destruct (dir w !! path) as [f|] eqn:Ef; [|done]. cbn in Hb. injection Hb as Hb.
    specialize (Hmax _ _ Ef). rewrite Hb in Hmax. rewrite !length_app in *. lia.
Qed.

(** ** What a log posts to an account *)

Definition in_time (as_of : option DateTime) (t : DateTime) : bool :=
  match as_of with None => true | Some t0 => t <=? t0 end.

(** Whether the account with key [k] is open, the sum posted to it while it
    was, up to a time, and the last such event's number. *)
Definition posted_step (k : string) (as_of : option DateTime) (acc : bool * Z * Seq) (ev : WireEvent) : bool * Z * Seq :=
  let '(is_open, sum, at_seq) := acc in
  match w_event ev with
  | AccountOpened def _ => (is_open || String.eqb (to_key (acct_id def)) k, sum, at_seq)
  | TransactionPosted tx =>
      if is_open && in_time as_of (w_at ev) && bool_decide (k ∈ touched (tx_postings tx))
      then (is_open, sum + delta k (tx_postings tx), w_seq ev)
      else acc
  | AssetRegistered _ => acc
  end.

Definition posted (k : string) (as_of : option DateTime) (log : list WireEvent) : bool * Z * Seq :=
  foldl (posted_step k as_of) (false, 0, 0) log.

Lemma upto_time_app o l r : upto_time o (l ++ r) = upto_time o l ++ upto_time o r.
Proof. destruct o; [apply filter_app|done]. Qed.

Lemma upto_time_stamp o l s t :
  Forall (fun e => e_seq e = s /\ e_at e = t) l -> upto_time o l = if in_time o t then l else [].
Proof.
  destruct o as [t0|]; cbn; [|done]. induction 1 as [|e l [_ He] _ IH]; [by case_match|].
  rewrite filter_cons. destruct (t <=? t0) eqn:E.
  - apply Z.leb_le in E. rewrite decide_True by lia. by rewrite IH.
  - apply Z.leb_gt in E. rewrite decide_False by lia. done.
Qed.

Lemma last_stamp (l : list PostingEntry) s t :
  Forall (fun e => e_seq e = s /\ e_at e = t) l -> l <> [] -> e_seq <$> last l = Some s.
Proof.
  intros Hf Hne. destruct (last l) as [e|] eqn:El; [|by apply last_None in El].
  apply last_Some in El as [l' ->]. apply Forall_app in Hf as [_ Hf]. inversion Hf as [|? ? [Hs _]]; subst. done.
Qed.

(** The entries of a replayed account stand for what the log posts. *)
Lemma replay_posted L st k as_of :
  replay BookState_default L = Ok st ->
  match accounts st !! k with
  | Some acct => posted k as_of (map fst L) =
      (true, entries_sum (upto_time as_of (flat (postings acct))),
       default 0 (e_seq <$> last (upto_time as_of (flat (postings acct)))))
  | None => posted k as_of (map fst L) = (false, 0, 0)
  end.
Proof.
  revert st. induction L as [|[ev p] L IH] using rev_ind; intros st Hr.
  { cbn in Hr. simplify_eq. cbn. by rewrite lookup_empty. }
  rewrite replay_app in Hr. destruct (replay BookState_default L) as [st2|] eqn:E2; [|done]. specialize (IH st2 eq_refl).
  cbn in Hr. destruct (apply_event st2 ev p) as [st1|] eqn:Ea; [|done]. injection Hr as <-.
  rewrite map_app. unfold posted in *. rewrite foldl_app. cbn [map fst foldl].
  unfold apply_event in Ea. set (F := foldl (posted_step k as_of) _ (map fst L)) in *. unfold posted_step.
  destruct (w_event ev) as [def|def cfg|tx].
  - injection Ea as <-. cbn [accounts bump_seq]. destruct (accounts st2 !! k); by rewrite IH.
  - injection Ea as <-. cbn [accounts apply_account_opened].
    destruct (String.eqb_spec (to_key (acct_id def)) k) as [<-|Hne].
    + destruct (accounts st2 !! to_key (acct_id def)) as [a|] eqn:Eacc.
      * by rewrite Eacc, IH.
      * rewrite lookup_insert_eq, IH. cbn. by destruct as_of.
    + destruct (accounts st2 !! to_key (acct_id def)) as [a|]; [|rewrite lookup_insert_ne by done];
        destruct (accounts st2 !! k); rewrite IH; by rewrite ?orb_false_r.
  - unfold try_apply_transaction in Ea. destruct (apply_postings _ _ _ _ _ _) as [[accts sm]|] eqn:Eap; [|done].
    injection Ea as <-. cbn [accounts]. apply apply_postings_inv in Eap as [_ Hk]. specialize (Hk k).
    destruct (accounts st2 !! k) as [acct|].
    2:{ by rewrite Hk, IH. }
    destruct Hk as (acct' & -> & (_ & _ & _ & _ & Hps) & _). rewrite IH. cbn [andb].
    pose proof (push_all_flat (entries_for k (raw_balance acct) (tx_postings tx) (tx_id tx) (w_seq ev) (w_at ev)) (postings acct)) as Hfl.
    rewrite <- Hps in Hfl. rewrite Hfl, upto_time_app.
    pose proof (entries_for_stamp k (tx_id tx) (w_seq ev) (w_at ev) (raw_balance acct) (tx_postings tx)) as Hst.
    rewrite (upto_time_stamp _ _ _ _ Hst). destruct (in_time as_of (w_at ev)); cbn [andb].
    2:{ by rewrite app_nil_r. }
    case_bool_decide as Ht.
    + assert (entries_for k (raw_balance acct) (tx_postings tx) (tx_id tx) (w_seq ev) (w_at ev) <> []) as Hne
        by (by intros ?%entries_for_nil).
      rewrite entries_sum_app, entries_for_sum, last_app.
      pose proof (last_stamp _ _ _ Hst Hne) as Hls.
      destruct (last (entries_for _ _ _ _ _ _)) as [e|]; [|done]. cbn in Hls |- *. by injection Hls as ->.
    + apply (entries_for_nil k (tx_id tx) (w_seq ev) (w_at ev) (raw_balance acct)) in Ht. by rewrite Ht, app_nil_r.
Qed.

Lemma writer_posted w wr log k as_of :
  writer_inv w wr log ->
  match accounts (wr_state wr) !! k with
  | Some acct => posted k as_of log =
      (true, entries_sum (upto_time as_of (flat (postings acct))),
       default 0 (e_seq <$> last (upto_time as_of (flat (postings acct)))))
  | None => posted k as_of log = (false, 0, 0)
  end.
Proof.
  intros [(sealed & act & st0 & Hla & <- & Hr & Hs) _ _]. rewrite (sb_accounts _ _ Hs).
  pose proof (replay_posted _ _ k as_of Hr) as Hp. rewrite positions_events in Hp; [done|eapply ready_length, la_ready, Hla|].
  apply (la_gapless _ _ _ _ _ Hla).
Qed.

(** ** A store that serves a book *)

Record serves (s : LogStore) (book : string) (wr : BookWriter) (log : list WireEvent) : Prop := {
  sv_up : shut_down s = false;
  sv_name : validate_book_name book = Ok ();
  sv_book : h_writer <$> books s !! book = Some wr;
  sv_inv : writer_inv (book_dir s book) wr log;
  sv_order : order_ok (idem (wr_state wr));
  sv_disk : faults (book_dir s book) = [];
  sv_length : Z.of_nat (length log) < i64_max
}.

Lemma serves_existing s book wr log :
  serves s book wr log -> exists h, existing_book book s = (Ok (Some h), s) /\ h_writer h = wr.
Proof.
  intros [Hup Hn Hb _ _ _ _]. unfold existing_book. rewrite Hup, Hn. destruct (books s !! book) as [h|]; [|done].
  injection Hb as <-. eauto.
Qed.

Lemma find_account_spec s account wr log :
  serves s (acct_book account) wr log ->
  find_account account s = (match accounts (wr_state wr) !! to_key account with
                            | Some acct => Ok acct | None => Err (UnknownAccount account) end, s).
Proof.
  intros Hs. destruct (serves_existing _ _ _ _ Hs) as (h & He & <-). unfold find_account, sbind. rewrite He.
  by destruct (accounts _ !! _).
Qed.

Lemma serves_wf s book wr log k acct :
  serves s book wr log -> accounts (wr_state wr) !! k = Some acct ->
  acct_wf (next_seq (wr_state wr)) (last_at (wr_state wr)) k acct.
Proof.
  intros Hs Hk. destruct (writer_inv_state _ _ _ (sv_inv _ _ _ _ Hs)) as (_ & Hwf & _).
  apply (bw_accounts _ (Hwf (sv_order _ _ _ _ Hs)) k acct Hk).
Qed.

(** ** Guarantees *)

(** C36: a balance is what the log says, now or at any past time: the sum of
    the postings committed to the account up to that time, on its normal
    side, and the number of the last of them; an account the log never
    opened is unknown. *)
Theorem balance_is_the_logs (s : LogStore) (account : AccountId) (as_of : option DateTime) (wr : BookWriter)
    (log : list WireEvent) :
  serves s (acct_book account) wr log ->
  balance account as_of s =
  (match accounts (wr_state wr) !! to_key account, posted (to_key account) as_of log with
   | Some acct, (true, sum, at_seq) =>
       Ok (mkBalanceSnapshot (Amount_new (effective sum (normal_side (as_cfg acct))) (acct_asset (as_def acct))) at_seq)
   | _, _ => Err (UnknownAccount account)
   end, s).
Proof.
  intros Hs. unfold balance, sbind. rewrite (find_account_spec _ _ _ _ Hs).
  pose proof (writer_posted _ _ _ (to_key account) as_of (sv_inv _ _ _ _ Hs)) as Hp.
  destruct (accounts (wr_state wr) !! to_key account) as [acct|] eqn:Ea; [|done]. rewrite Hp. unfold sret.
  by rewrite (account_balance_spec _ _ _ _ as_of (serves_wf _ _ _ _ _ _ Hs Ea)).
Qed.

(** History pages are exact: a page is the next postings after the cursor,
    of at most [limit] transactions, never with a part of a transaction, and
    of exactly [limit] if any posting is left for the next page. *)
Theorem history_pages_exact (s : LogStore) (account : AccountId) (after : option Seq) (limit : Z) (wr : BookWriter)
    (log : list WireEvent) (acct : AccountState) :
  serves s (acct_book account) wr log -> accounts (wr_state wr) !! to_key account = Some acct -> 0 < limit ->
  exists page rest,
    account_history account after limit s = (Ok (map (posting_record account acct) page), s) /\
    filter (fun e => default 0 after < e_seq e) (flat (postings acct)) = page ++ rest /\
    distinct_after 0 page <= limit /\ (rest <> [] -> distinct_after 0 page = limit) /\
    (forall e e', e ∈ page -> e' ∈ rest -> e_seq e < e_seq e').
Proof.
  intros Hs Ha Hl. pose proof (serves_wf _ _ _ _ _ _ Hs Ha) as Hw. unfold account_history.
  assert (limit =? 0 = false) as -> by lia. unfold sbind. rewrite (find_account_spec _ _ _ _ Hs), Ha. unfold sret, account_page.
  rewrite iter_after by apply Hw. set (v := filter _ (flat (postings acct))).
  assert (ordered v) as Hov by (apply ordered_filter, (aw_ordered _ _ _ _ Hw)).
  destruct (walk_page v limit Hov Hl) as (rest & ? & ? & ? & ?). by exists (walk_history limit v 0 0), rest.
Qed.

Lemma in_dir_Ok {A} book (m : io A) s a :
  m (book_dir s book) = (Ok a, book_dir s book) ->
  exists s', in_dir book m s = (Ok a, s') /\ books s' = books s /\ registry s' = registry s /\ shut_down s' = shut_down s /\
    forall b, book_dir s' b = book_dir s b.
Proof.
  intros Hm. unfold in_dir. rewrite Hm. eexists. split; [done|]. split_and!; try done. intros b. unfold book_dir. cbn.
  destruct (decide (b = book)) as [->|Hne]; [by rewrite lookup_insert_eq|]. by rewrite lookup_insert_ne.
Qed.


(** Reading events returns exactly the next [limit] events of the log from
    the given number on; a book that does not exist has none. *)
Theorem read_events_exact (s : LogStore) (book : Book) (wr : BookWriter) (log : list WireEvent) (from : Seq) (limit : Z) :
  serves s book wr log -> 1 <= from -> 0 <= limit ->
  exists s', read_events book from limit s =
    (Ok (map sequenced (take (Z.to_nat limit) (drop (Z.to_nat (from - 1)) log))), s') /\ books s' = books s.
Proof.
  intros Hs Hfrom Hlim. destruct (serves_existing _ _ _ _ Hs) as (h & He & <-). unfold read_events, sbind. rewrite He.
  pose proof (read_log_spec _ _ _ (Z.to_nat (from - 1)) limit (sv_inv _ _ _ _ Hs) (sv_disk _ _ _ _ Hs) Hlim (sv_length _ _ _ _ Hs)) as Hr.
  replace (Z.of_nat (Z.to_nat (from - 1)) + 1) with from in Hr by lia.
  destruct (in_dir_Ok book _ s _ Hr) as (s' & -> & Hb & _). by exists s'.
Qed.

(** The handles of a store, each with its log. *)
Definition all_served (s : LogStore) : Prop :=
  forall book h, books s !! book = Some h -> exists log, serves s book (h_writer h) log /\
    forall name f, dir (book_dir s book) !! name = Some f -> Z.of_nat (length (f_bytes f)) <= u64_max.

Lemma serves_txids s book wr log txid q p :
  serves s book wr log ->
  (forall name f, dir (book_dir s book) !! name = Some f -> Z.of_nat (length (f_bytes f)) <= u64_max) ->
  txids (wr_state wr) !! txid = Some (q, p) ->
  exists ev tx, ev ∈ log /\ w_seq ev = q /\ w_event ev = TransactionPosted tx /\ tx_id tx = txid /\
    read_at (catalog (wr_segments wr)) p.1 p.2 q (book_dir s book) = (Ok ev, book_dir s book).
Proof.
  intros Hs Hmax Hid. destruct (wi_log _ _ _ (sv_inv _ _ _ _ Hs)) as (sealed & act & st0 & Hla & Hlog & Hr & Hsame).
  rewrite (sb_txids _ _ Hsame) in Hid.
  assert (txids_sound [] (txids BookState_default)) as H0' by (intros i s0 p0 Hi; cbn in Hi; by rewrite lookup_empty in Hi).
  destruct (replay_txids [] _ _ _ H0' Hr _ _ _ Hid) as (ev & tx & Hin & Hq & Hev & Htx).
  exists ev, tx. split_and!; try done.
  - rewrite <- Hlog, <- (positions_events (catalog (wr_segments wr)));
      [by apply (list_elem_of_fmap_2 fst _ (ev, p))|eapply ready_length, la_ready, Hla|apply (la_gapless _ _ _ _ _ Hla)].
  - rewrite <- Hq. apply (read_at_position _ _ _ _ _ ev p Hla Hlog (sv_disk _ _ _ _ Hs) Hmax Hin).
Qed.

(** A transaction looked up by its id is read back from its recorded
    position as it was posted, with its number and timestamp; when none is
    returned, no book has it. *)
Theorem transaction_reads_back (s : LogStore) (txid : TxId) :
  all_served s ->
  exists r s', transaction txid s = (Ok r, s') /\
    match r with
    | Some t => exists book h log ev, books s !! book = Some h /\ serves s book (h_writer h) log /\ ev ∈ log /\
        w_event ev = TransactionPosted (st_transaction t) /\ tx_id (st_transaction t) = txid /\
        st_seq t = w_seq ev /\ st_at t = w_at ev
    | None => forall book h, books s !! book = Some h -> txids (wr_state (h_writer h)) !! txid = None
    end.
Proof.
  intros Hall. unfold transaction, sbind, sget.
  assert (forall hs, (forall p, p ∈ hs -> books s !! p.1 = Some p.2) -> exists r s', find_transaction txid hs s = (Ok r, s') /\
    match r with
    | Some t => exists book h log ev, books s !! book = Some h /\ serves s book (h_writer h) log /\ ev ∈ log /\
        w_event ev = TransactionPosted (st_transaction t) /\ tx_id (st_transaction t) = txid /\
        st_seq t = w_seq ev /\ st_at t = w_at ev
    | None => Forall (fun p => txids (wr_state (h_writer p.2)) !! txid = None) hs
    end) as Hfind.
  { induction hs as [|[book h] hs IH]; intros Hin; cbn [find_transaction]; [by exists None, s|].
    destruct (txids (wr_state (h_writer h)) !! txid) as [[q p]|] eqn:Et.
    - pose proof (Hin (book, h) ltac:(by left)) as Hb. cbn in Hb. destruct (Hall _ _ Hb) as (log & Hs & Hmax).
      destruct (serves_txids _ _ _ _ _ _ _ Hs Hmax Et) as (ev & tx & Hev & Hq & Hw & Htx & Hread).
      assert (read_transaction (h_writer h) txid q p (book_dir s book) =
        (Ok (mkStoredTransaction tx (w_seq ev) (w_at ev)), book_dir s book)) as Hrt
        by (unfold read_transaction, io_bind; by rewrite Hread, Hw).
      destruct (in_dir_Ok book _ s _ Hrt) as (s' & Hd & _). unfold sbind. rewrite Hd. eexists _, s'. split; [done|].
      cbn. exists book, h, log, ev. by split_and!.
    - destruct IH as (r & s' & Hr & Hres); [intros p Hp; apply Hin; by right|]. exists r, s'. split; [done|].
      destruct r; [done|]. by constructor. }
  destruct (Hfind (hash_iter (books s))) as (r & s' & Hr & Hres).
  { intros [b h] Hin. by apply elem_of_hash_iter in Hin. }
  exists r, s'. split; [done|]. destruct r; [done|]. intros book h Hb. rewrite Forall_forall in Hres.
  apply (Hres (book, h)). by apply elem_of_hash_iter.
Qed.
End scan.

(** ** A store with one book, evaluated *)

Section reads_demo.
Import WriterDemo.

Definition sold : result BatchResult string * World :=
  run_batch noon 0 false opened_writer [JCommit sale; JCommit refund] opened_world.
Definition sold_writer : BookWriter := match sold.1 with Ok br => br_writer br | Err _ => opened_writer end.
Definition sold_world : World := sold.2.
Definition sold_log : list WireEvent :=
  opened_log ++ [mkWireEvent 3 1200 (TransactionPosted sale); mkWireEvent 4 1200 (TransactionPosted refund)].

Lemma sequenced_inj l l' : map sequenced l = map sequenced l' -> l = l'.
Proof.
  revert l'. induction l as [|[s1 a1 e1] l IH]; intros [|[s2 a2 e2] l'] Hm; try done.
  cbn in Hm. injection Hm as -> -> -> Hm. f_equal. by apply IH.
Qed.

Lemma is_ok_exists {A E} (r : result A E) : is_ok r = true -> exists a, r = Ok a.
Proof. destruct r; [eauto|done]. Qed.

Lemma sold_ledger : ledger_inv sold_world sold_writer sold_log.
Proof.
  destruct (batch_answered noon 0 false opened_writer [JCommit sale; JCommit refund] opened_world opened_log)
    as (br & w' & evs & Hrb & Hl & Hev & _).
  - apply opened_ledger.
  - vm_compute. reflexivity.
  - vm_compute. discriminate.
  - vm_compute. reflexivity.
  - intros d b Hd Hb ev Hev. vm_compute in Hd. injection Hd as <-. vm_compute in Hb. injection Hb as <-.
    unfold wires in Hev. cbn [map b_staged wire] in Hev.
    repeat (apply elem_of_cons in Hev as [->|Hev]; [apply is_ok_exists; vm_compute; reflexivity|]).
    by apply elem_of_nil in Hev.
  - unfold sold_world, sold_writer, sold. rewrite Hrb. cbn [fst snd].
    assert (evs = [mkWireEvent 3 1200 (TransactionPosted sale); mkWireEvent 4 1200 (TransactionPosted refund)]) as ->; [|exact Hl].
    apply sequenced_inj. rewrite <- Hev.
    assert (br_events br = match sold.1 with Ok br => br_events br | Err _ => [] end) as -> by (unfold sold; by rewrite Hrb).
    vm_compute. reflexivity.
Qed.

Definition shop_store : LogStore :=
  mkLogStore {["shop"%string := sold_world]} ∅ {["shop"%string := mkBookHandle sold_writer true]} demo_opts false.

Lemma shop_dir : book_dir shop_store "shop" = sold_world.
Proof. unfold book_dir, shop_store. cbn [dirs]. by rewrite lookup_singleton_eq. Qed.

Lemma shop_served : serves shop_store "shop" sold_writer sold_log.
Proof.
  split.
  - reflexivity.
  - vm_compute. reflexivity.
  - unfold shop_store. cbn [books]. by rewrite lookup_singleton_eq.
  - rewrite shop_dir. apply (li_writer _ _ _ sold_ledger).
  - apply (repr_order _ _ _ (li_idem _ _ _ sold_ledger)).
  - rewrite shop_dir. vm_compute. reflexivity.
  - vm_compute. reflexivity.
Qed.

Lemma balance_is_the_logs_witness :
  serves shop_store "shop" sold_writer sold_log /\
  balance (acc "cash") (Some 1300) shop_store = (Ok (mkBalanceSnapshot (mkAmount 30 "USD") 4), shop_store).
Proof.
  split; [exact shop_served|].
  rewrite (balance_is_the_logs shop_store (acc "cash") (Some 1300) sold_writer sold_log shop_served).
  apply (f_equal (fun r => (r, shop_store))). vm_compute. reflexivity.
Defined.

Definition cash_account : AccountState :=
  default (mkAccountState (demo_def "cash" Asset) cash_cfg 0 0 PostingIndex_default)
    (accounts (wr_state sold_writer) !! to_key (acc "cash")).

Lemma history_pages_exact_witness :
  serves shop_store "shop" sold_writer sold_log /\
  exists page rest,
    account_history (acc "cash") None 1 shop_store = (Ok (map (posting_record (acc "cash") cash_account) page), shop_store) /\
    filter (fun e => 0 < e_seq e) (flat (postings cash_account)) = page ++ rest /\
    distinct_after 0 page <= 1 /\ (rest <> [] -> distinct_after 0 page = 1) /\
    (forall e e', e ∈ page -> e' ∈ rest -> e_seq e < e_seq e').
Proof.
  split; [exact shop_served|].
  apply (history_pages_exact shop_store (acc "cash") None 1 sold_writer sold_log cash_account shop_served).
  - vm_compute. reflexivity.
  - lia.
Defined.


Lemma read_events_exact_witness :
  serves shop_store "shop" sold_writer sold_log /\
  exists s', read_events "shop" 3 1 shop_store = (Ok [mkSequenced 3 1200 (TransactionPosted sale)], s') /\
    books s' = books shop_store.
Proof.
  split; [exact shop_served|].
  exact (read_events_exact shop_store "shop" sold_writer sold_log 3 1 shop_served ltac:(lia) ltac:(lia)).
Defined.

Lemma transaction_reads_back_witness :
  all_served shop_store /\
  exists r s', transaction 7 shop_store = (Ok r, s') /\
    match r with
    | Some t => exists book h log ev, books shop_store !! book = Some h /\ serves shop_store book (h_writer h) log /\ ev ∈ log /\
        w_event ev = TransactionPosted (st_transaction t) /\ tx_id (st_transaction t) = 7 /\
        st_seq t = w_seq ev /\ st_at t = w_at ev
    | None => forall book h, books shop_store !! book = Some h -> txids (wr_state (h_writer h)) !! 7 = None
    end.
Proof.
  assert (all_served shop_store) as Ha.
  { intros book h Hb. unfold shop_store in Hb. cbn [books] in Hb. apply lookup_singleton_Some in Hb as [<- <-].
    exists sold_log. split; [exact shop_served|]. rewrite shop_dir. intros name f Hf.
    assert (name ∈ dir_names (dir sold_world)) as Hin by (apply elem_of_dir_names; eauto).
    assert (forallb (fun name => match dir sold_world !! name with
        Some f => Z.of_nat (length (f_bytes f)) <=? u64_max | None => true end) (dir_names (dir sold_world)) = true)
      as Hlen by (vm_compute; reflexivity).
    rewrite forallb_forall in Hlen. apply list_elem_of_In in Hin. specialize (Hlen _ Hin). cbn beta in Hlen.
    rewrite Hf in Hlen. by apply Z.leb_le. }
  split; [exact Ha|]. exact (transaction_reads_back shop_store 7 Ha).
Defined.
End reads_demo.
