(* ===== verification/StoreWrites.v ===== *)
(** What the writes of the log store do (talea-store-log/src/lib.rs over
    writer.rs): one commit, one account opened, against the book's log. *)

From S2P Require Import Prelude Decimal Assoc Core Bloom Disk PostingIndex Idem BookState Frame Replay Segment Snapshot.
From S2P Require Import Writer WriterBatch WriterLog WriterSpec LogOpen LogStore StoreReads.
Open Scope Z_scope.

(** ** A batch on a healthy disk leaves it healthy *)

Lemma healthy_len n : stays_healthy (fs_len n).
Proof. unfold fs_len. healthy_op. Qed.
Lemma healthy_open_append n : stays_healthy (fs_open_append n).
Proof. unfold fs_open_append. healthy_op. Qed.
Lemma healthy_append n b : stays_healthy (fs_append n b).
Proof. unfold fs_append. healthy_op. Qed.
#[export] Hint Resolve healthy_len healthy_open_append healthy_append replace_file_healthy : talea.

Section healthy.
Context `{HashIter} `{KeyHashes} `{Crc32} `{Json (list Pair)} `{Json WireEvent} `{Json StateImage}.

Lemma write_staged_healthy s staged : stays_healthy (write_staged s staged).
Proof.
  revert s. induction staged as [|e staged IH]; intros s; cbn [write_staged]; [apply healthy_ret|].
  apply healthy_bind; [apply healthy_lift|intros b]. apply healthy_bind.
  { unfold maybe_rotate. case_match; [|apply healthy_ret]. repeat (apply healthy_bind; [auto with talea|intros ?]). apply healthy_ret. }
  intros s1. apply healthy_bind; [unfold append; auto with talea|intros s2]. apply healthy_bind; [apply IH|intros [s3 rest]]. apply healthy_ret.
Qed.

Lemma write_batch_healthy s staged : stays_healthy (write_batch s staged).
Proof.
  unfold write_batch. destruct staged as [|e staged]; [apply healthy_ret|]. apply healthy_bind; [apply write_staged_healthy|].
  intros [s1 staged1]. apply healthy_bind; [apply healthy_sync|intros _; apply healthy_ret].
Qed.

Lemma read_all_healthy metas : stays_healthy (read_all metas).
Proof.
  induction metas as [|m metas IH]; cbn [read_all]; [apply healthy_ret|]. unfold read_run.
  repeat first [apply healthy_bind; [auto with talea|intros ?]|case_match|apply healthy_ret|auto with talea].
Qed.

Lemma merge_runs_healthy t : stays_healthy (merge_runs t).
Proof.
  unfold merge_runs, write_run_atomic. case_match; [apply healthy_ret|]. apply healthy_bind; [apply healthy_try, read_all_healthy|].
  intros [merged|e]; [|apply healthy_ret]. cbn zeta. case_match; [|apply healthy_ret].
  apply healthy_bind; [apply healthy_try, replace_file_healthy|]. intros [|]; [|apply healthy_ret].
  apply healthy_bind; [apply remove_all_total|intros _; apply healthy_ret].
Qed.

Lemma flush_healthy st : stays_healthy (flush_if_needed st).
Proof.
  unfold flush_if_needed. case_match; [|apply healthy_ret]. apply healthy_bind; [|intros ?; apply healthy_ret].
  unfold flush_spill, write_run_atomic. case_match; [apply healthy_ret|]. destruct (drain _ _ _) as [t drained].
  destruct drained; [apply healthy_ret|]. cbn zeta. case_match; [|apply healthy_ret].
  apply healthy_bind; [apply healthy_try, replace_file_healthy|]. intros [|]; [|apply healthy_ret].
  case_match; [apply merge_runs_healthy|apply healthy_ret].
Qed.

Lemma remove_each_healthy l : stays_healthy (remove_each l).
Proof. induction l as [|n l IH]; cbn [remove_each]; [apply healthy_ret|]. apply healthy_bind; [auto with talea|intros _; apply IH]. Qed.

Lemma snapshot_jobs_healthy st l : stays_healthy (snapshot_jobs st l).
Proof.
  unfold snapshot_jobs, explicit_snapshot. destruct l; [apply healthy_ret|]. apply healthy_bind; [|intros ?; apply healthy_ret]. cbn zeta.
  case_match; [|apply healthy_ret]. apply healthy_try. unfold write_snapshot.
  unfold prune_old. do 3 (apply healthy_bind; [auto with talea|intros ?]). apply remove_each_healthy.
Qed.

Lemma finish_batch_healthy every inflight wr jobs b : stays_healthy (finish_batch every inflight wr jobs b).
Proof.
  unfold finish_batch. apply healthy_bind; [apply write_batch_healthy|intros [segs staged]]. cbn zeta.
  apply healthy_bind; [apply healthy_lift|intros st1]. apply healthy_bind; [apply flush_healthy|intros st2].
  apply healthy_bind; [apply snapshot_jobs_healthy|intros sa]. apply healthy_ret.
Qed.
End healthy.

(** ** One job *)

Section writes.
Context `{HashIterLaws} `{KeyHashes} `{Crc32} `{!Crc32Laws} `{Json (list Pair)} `{!JsonLaws (list Pair)}
  `{Json WireEvent} `{!JsonLaws WireEvent} `{Json StateImage} `{!JsonLaws StateImage}.

(** The timestamp of the first event of a batch. *)
Definition job_time (st : BookState) (clock : nat -> DateTime) : DateTime :=
  Z.max (Z.max (clock 0%nat) (default 0 (last_at st))) (clock 1%nat).

(** The event a job asks for, as the next frame of a log, has an encoding. *)
Definition encodable (st : BookState) (clock : nat -> DateTime) (log : list WireEvent) (job : Job) : Prop :=
  forall ev, job_event job = Some ev ->
    is_ok (encode_frame (mkWireEvent (1 + Z.of_nat (length log)) (job_time st clock) ev)) = true.

(** What is left to grow: sequence numbers and run numbers. *)
Definition has_room (wr : BookWriter) (log : list WireEvent) : Prop :=
  Z.of_nat (length log) + 1 <= i64_max /\ next_run_n (runs (idem (wr_state wr))) < u64_max.

Lemma classify_one_at st d clock job b :
  classify_job st d clock 0 job (start_batch st clock) = Ok b ->
  Forall (fun ev => w_at ev = job_time st clock) (wires b).
Proof.
  destruct job as [tx|def cfg|def|]; cbn [classify_job].
  - unfold classify_commit. destruct (match get_hot _ _ with Some _ => _ | None => _ end); [by intros [= <-]|].
    destruct (scratch_idem _ !! _); [by intros [= <-]|]. destruct (validate _ _ _) as [sc [?|?]]; [|by intros [= <-]].
    destruct (stage _ _); [|done]. intros [= <-]. by repeat constructor.
  - unfold classify_open. destruct (accounts st !! _); [|intros [= <-]; by repeat constructor]. case_match; by intros [= <-].
  - intros [= <-]. by repeat constructor.
  - by intros [= <-].
Qed.

Lemma single_job wr w log job clock every inflight :
  ledger_inv w wr log -> faults w = [] -> has_room wr log -> encodable (wr_state wr) clock log job ->
  exists d b br w' sa,
    (forall tx, job = JCommit tx -> committed_lookup (wr_state wr) d (tx_idem tx) = idem_map log !! tx_idem tx) /\
    classify_job (wr_state wr) d clock 0 job (start_batch (wr_state wr) clock) = Ok b /\
    run_batch clock every inflight wr [job] w = (Ok br, w') /\
    ledger_inv w' (br_writer br) (log ++ wires b) /\ faults w' = [] /\
    br_answers br = omap (answer_of [job] (b_staged b)) (b_replies b) ++ sa /\ map fst sa = b_snaps b.
Proof.
  intros [Hwi Honce Hidem] Hf [Hmax Hrun] Henc.
  destruct (batch_lookups (wr_state wr) [job] w _ Hidem Hf) as (d & Hd & Hlook).
  destruct (classify_batch (wr_state wr) (idem_map log) d clock [job] Hlook) as (b & Hb & Hbi).
  pose proof (staged_le _ _ _ _ _ Hbi) as Hle. cbn in Hle.
  destruct (finish_batch every inflight wr [job] b w) as [r w'] eqn:Efin.
  assert (Z.of_nat (length log + length (b_staged b)) <= i64_max) as Hmax' by lia.
  destruct (finish_batch_at _ _ _ _ _ _ _ _ _ _ Hwi Hbi Hmax' Efin) as (_ & Hok & Hnf).
  destruct (writer_inv_state _ _ _ Hwi) as (Hnext & _ & _).
  assert (forall ev, ev ∈ wires b -> exists bs, encode_frame ev = Ok bs) as Hbs.
  { intros ev [i Hi]%list_elem_of_lookup. pose proof (bi_gapless _ _ _ _ _ Hbi i ev Hi) as Hseq.
    assert (i = 0)%nat as -> by (apply lookup_lt_Some in Hi; unfold wires in Hi; rewrite length_map in Hi; lia).
    unfold wires in Hi. rewrite list_lookup_fmap in Hi. destruct (b_staged b !! 0%nat) as [e|] eqn:Ee; [|done]. injection Hi as <-.
    destruct (bi_jobs _ _ _ _ _ Hbi e) as (job' & Hj & Hje); [by eapply list_elem_of_lookup_2|].
    assert (job' = job) as -> by (destruct (job_idx e) as [|[|]]; cbn in Hj; congruence).
    specialize (Henc _ Hje).
    assert (w_at (wire e) = job_time (wr_state wr) clock) as Hat.
    { cbn [classify] in Hb. destruct (classify_job _ _ _ _ _ _) eqn:Hcj; [|done]. injection Hb as ->.
      apply classify_one_at in Hcj. rewrite Forall_forall in Hcj. apply Hcj.
      unfold wires. apply list_elem_of_fmap_2. by eapply list_elem_of_lookup_2. }
    rewrite <- Hat in Henc. clear Hat. rewrite <- Hnext, Z.add_0_r in *.
    destruct (wire e) as [sq a ev]. cbn in *. subst sq. rewrite Hnext in *.
    replace (1 + Z.of_nat (length log) + Z.of_nat 0) with (1 + Z.of_nat (length log)) by lia.
    destruct (encode_frame (mkWireEvent (1 + Z.of_nat (length log)) a ev)) as [bs|]; [by exists bs|done]. }
  destruct (Hnf Hf Hbs) as [br ->]. destruct (Hok br eq_refl) as (Hwi' & (sa & Hans & Hsa & _) & _ & Hrepr).
  exists d, b, br, w', sa. split_and!; try done.
  - intros tx ->. apply Hlook. by left.
  - cbn [classify] in Hb. by destruct (classify_job _ _ _ _ _ _).
  - unfold run_batch. cbn zeta. unfold io_bind at 1. rewrite Hd. unfold io_bind, io_lift. by rewrite Hb.
  - split; [done| |].
    + apply fresh_keys_app; [done|]. apply (bi_fresh _ _ _ _ _ Hbi).
    + rewrite idem_map_app. auto.
  - pose proof (finish_batch_healthy every inflight wr [job] b w Hf) as Hh. by rewrite Efin in Hh.
Qed.

(** ** One job through the store *)

(** An open book with its writer running over the log it kept, on a disk that
    does not fail. *)
Record writable (s : LogStore) (book : string) (wr : BookWriter) (log : list WireEvent) : Prop := {
  wb_up : shut_down s = false;
  wb_name : validate_book_name book = Ok ();
  wb_open : books s !! book = Some (mkBookHandle wr true);
  wb_ledger : ledger_inv (book_dir s book) wr log;
  wb_healthy : faults (book_dir s book) = []
}.

(** Two states of the store that differ in one book at most. *)
Definition only_book (book : string) (s s' : LogStore) : Prop :=
  registry s' = registry s /\ ls_opts s' = ls_opts s /\
  forall other, other <> book -> books s' !! other = books s !! other /\ book_dir s' other = book_dir s other.

Lemma book_writer_open s book wr log :
  writable s book wr log -> book_writer book s = (Ok (mkBookHandle wr true), s).
Proof. intros []. unfold book_writer. by rewrite wb_up0, wb_name0, wb_open0. Qed.

(** What one job writes, and the batch its answer is read from. *)
Lemma submit_single s book wr log job clock :
  writable s book wr log -> has_room wr log -> encodable (wr_state wr) (clock 0%nat) log job ->
  exists d b wr' s' sa,
    (forall tx, job = JCommit tx -> committed_lookup (wr_state wr) d (tx_idem tx) = idem_map log !! tx_idem tx) /\
    classify_job (wr_state wr) d (clock 0%nat) 0 job (start_batch (wr_state wr) (clock 0%nat)) = Ok b /\
    submit_one clock book job s =
      (Ok (snd <$> List.find (fun p => (p.1 =? 0)%nat) (omap (answer_of [job] (b_staged b)) (b_replies b) ++ sa)), s') /\
    map fst sa = b_snaps b /\ writable s' book wr' (log ++ wires b) /\ only_book book s s'.
Proof.
  intros Hw Hroom Henc. destruct Hw.
  destruct (single_job wr _ log job (clock 0%nat) (snapshot_every (ls_opts s)) false wb_ledger0 wb_healthy0 Hroom Henc)
    as (d & b & br & w' & sa & Hd & Hcl & Hrun & Hinv' & Hf' & Hans & Hsa).
  exists d, b, (br_writer br). eexists. exists sa. split_and!; [done..| |done| |].
  - unfold submit_one, sbind, submit. rewrite wb_open0. cbn [h_alive h_writer length run_loop drain_jobs take drop].
    unfold io_bind, io_try. cbn [Nat.sub]. rewrite take_nil, Hrun. cbn [run_loop io_ret drop].
    unfold io_ret. cbn [answers_in_order]. rewrite Hans. reflexivity.
  - split; cbn; try done; unfold book_dir; cbn; rewrite ?lookup_insert_eq; done.
  - split_and!; [done..|]. intros other Ho. unfold book_dir. cbn. by rewrite !lookup_insert_ne.
Qed.

(** ** The three writes, as the ledger's specification *)

(** A commit on a ledger: the record of its key, the rejection of its
    validation, or the next event. *)
Definition commit_spec (log : list WireEvent) (verdict : result unit StoreError) (tx : Transaction) (at_ : DateTime) :
    result Committed StoreError * list WireEvent :=
  match idem_map log !! tx_idem tx with
  | Some rec => (Ok (to_committed rec), [])
  | None =>
      match verdict with
      | Err e => (Err e, [])
      | Ok _ =>
          let seq := 1 + Z.of_nat (length log) in
          (Ok (mkCommitted (tx_id tx) seq at_), [mkWireEvent seq at_ (TransactionPosted tx)])
      end
  end.

(** Opening an account, given what is open under its key. *)
Definition open_spec (log : list WireEvent) (existing : option AccountState) (def : AccountDef) (cfg : AccountCfg) (at_ : DateTime) :
    result unit StoreError * list WireEvent :=
  match existing with
  | Some acct =>
      if bool_decide (as_def acct = def /\ as_cfg acct = cfg) then (Ok (), [])
      else (Err (AlreadyExists ("account " +:+ to_key (acct_id def))), [])
  | None => (Ok (), [mkWireEvent (1 + Z.of_nat (length log)) at_ (AccountOpened def cfg)])
  end.

(** C6: Posting a transaction to a book whose writer is open and running, on a disk
    that does not fail, with room for a number and an event that can be written, is
    one step of the book's ledger: the answer and the events are those of the
    specification, the accepted transaction's event or none, and no other book is
    touched. *)
Theorem commit_refines_ledger clock tx s wr log :
  writable s (tx_book tx) wr log -> has_room wr log -> encodable (wr_state wr) (clock 0%nat) log (JCommit tx) ->
  exists wr' s',
    let '(r, evs) := commit_spec log (validate (wr_state wr) tx Scratch_default).2 tx (job_time (wr_state wr) (clock 0%nat)) in
    commit clock tx s = (r, s') /\ writable s' (tx_book tx) wr' (log ++ evs) /\ only_book (tx_book tx) s s'.
Proof.
  intros Hw Hroom Henc.
  destruct (submit_single s (tx_book tx) wr log (JCommit tx) clock Hw Hroom Henc)
    as (d & b & wr' & s' & sa & Hd & Hcl & Hsub & Hsa & Hw' & Honly).
  specialize (Hd tx eq_refl). cbn [classify_job] in Hcl. unfold classify_commit in Hcl.
  fold (committed_lookup (wr_state wr) d (tx_idem tx)) in Hcl. rewrite Hd in Hcl. cbn [start_batch b_scratch scratch_idem Scratch_default] in Hcl.
  destruct (writer_inv_state _ _ _ (li_writer _ _ _ (wb_ledger _ _ _ _ Hw))) as (Hnext & _ & _).
  exists wr', s'.
  unfold commit, sbind. rewrite (book_writer_open s _ wr log Hw), Hsub. unfold commit_spec, lift_answer.
  destruct (idem_map log !! tx_idem tx) as [rec|]; [by injection Hcl as <-|].
  rewrite lookup_empty in Hcl. change (Scratch_default) with (b_scratch (start_batch (wr_state wr) (clock 0%nat))).
  destruct (validate (wr_state wr) tx _) as [sc [[]|e]]; cbn [snd]; [|by injection Hcl as <-].
  destruct (stage sc tx) as [sc'|e] eqn:Est; [|done]. injection Hcl as <-. cbn in *. rewrite Hnext in *. done.
Qed.

(** Opening an account is one step of its book's ledger; a reserved book and
    an unknown asset are refused before the book is reached. *)
Theorem open_account_refines_ledger clock def cfg s wr log :
  writable s (acct_book (acct_id def)) wr log -> has_room wr log -> encodable (wr_state wr) (clock 0%nat) log (JOpenAccount def cfg) ->
  if is_reserved (acct_book (acct_id def))
  then open_account clock def cfg s = (Err (InvalidBook (acct_book (acct_id def))), s)
  else if decide (registry s !! acct_asset def = None)
  then open_account clock def cfg s = (Err (UnknownAsset (acct_asset def)), s)
  else exists wr' s',
    let '(r, evs) := open_spec log (accounts (wr_state wr) !! to_key (acct_id def)) def cfg
                       (job_time (wr_state wr) (clock 0%nat)) in
    open_account clock def cfg s = (r, s') /\ writable s' (acct_book (acct_id def)) wr' (log ++ evs) /\
    only_book (acct_book (acct_id def)) s s'.
Proof.
  intros Hw Hroom Henc. unfold open_account, serr. destruct (is_reserved _); [done|].
  unfold sbind, sget. case_decide as Hreg; [by rewrite Hreg|]. destruct (registry s !! acct_asset def); [|done].
  destruct (submit_single s _ wr log (JOpenAccount def cfg) clock Hw Hroom Henc)
    as (d & b & wr' & s' & sa & _ & Hcl & Hsub & Hsa & Hw' & Honly).
  cbn [classify_job] in Hcl. injection Hcl as <-. unfold classify_open in *.
  destruct (writer_inv_state _ _ _ (li_writer _ _ _ (wb_ledger _ _ _ _ Hw))) as (Hnext & _ & _).
  exists wr', s'.
  rewrite (book_writer_open s _ wr log Hw), Hsub. unfold open_spec, lift_answer.
  destruct (accounts (wr_state wr) !! _) as [acct|]; [|by cbn in *; rewrite Hnext in *].
  assert (bool_decide (as_def acct = def) && bool_decide (as_cfg acct = cfg) = bool_decide (as_def acct = def /\ as_cfg acct = cfg)) as Hb.
  { by rewrite bool_decide_and. }
  rewrite Hb in Hsa, Hw' |- *. clear Hsub.
  destruct (bool_decide (as_def acct = def /\ as_cfg acct = cfg)); cbn in *; by rewrite ?app_nil_r in *.
Qed.

(** A key that was posted is answered with its first posting, whatever came
    after it and whatever the transaction of the retry is; nothing is
    written. *)
Theorem commit_is_exactly_once clock tx s wr log c s1 :
  writable s (tx_book tx) wr log -> has_room wr log -> encodable (wr_state wr) (clock 0%nat) log (JCommit tx) ->
  commit clock tx s = (Ok c, s1) ->
  exists wr1 evs, writable s1 (tx_book tx) wr1 (log ++ evs) /\ (length evs <= 1)%nat /\
    forall clock2 retry s2 wr2 later,
      tx_book retry = tx_book tx -> tx_idem retry = tx_idem tx ->
      let log2 := (log ++ evs) ++ later in
      writable s2 (tx_book tx) wr2 log2 -> has_room wr2 log2 -> encodable (wr_state wr2) (clock2 0%nat) log2 (JCommit retry) ->
      exists wr3 s3, commit clock2 retry s2 = (Ok c, s3) /\ writable s3 (tx_book tx) wr3 log2 /\ only_book (tx_book tx) s2 s3.
Proof.
  intros Hw Hroom Henc Hc.
  destruct (commit_refines_ledger clock tx s wr log Hw Hroom Henc) as (wr1 & s1' & Hspec).
  destruct (commit_spec log _ tx _) as [r evs] eqn:Es. destruct Hspec as (Hc' & Hw1 & _).
  rewrite Hc in Hc'. injection Hc' as <- <-. exists wr1, evs. split; [done|].
  assert (idem_map (log ++ evs) !! tx_idem tx = Some (mkCommittedRec (c_txid c) (c_seq c) (c_at c)) /\ (length evs <= 1)%nat) as [Hkey Hlen].
  { unfold commit_spec in Es. destruct (idem_map log !! tx_idem tx) as [rec|] eqn:Ek.
    - injection Es as <- <-. rewrite app_nil_r. destruct rec. cbn. split; [done|lia].
    - destruct (validate _ _ _).2 as [[]|]; [|done]. injection Es as <- <-. split; [|cbn; lia].
      rewrite idem_map_app. cbn. unfold idem_step. cbn. by rewrite lookup_insert_eq. }
  split; [done|]. intros clock2 retry s2 wr2 later Hbk Hid log2 Hw2 Hroom2 Henc2.
  assert (idem_map log2 !! tx_idem retry = Some (mkCommittedRec (c_txid c) (c_seq c) (c_at c))) as Hkey2.
  { unfold log2. rewrite Hid, idem_map_app. apply fresh_keys_keep; [|done].
    by apply (fresh_keys_app_r ∅), (li_once _ _ _ (wb_ledger _ _ _ _ Hw2)). }
  rewrite <- Hbk in *.
  destruct (commit_refines_ledger clock2 retry s2 wr2 log2 Hw2 Hroom2 Henc2) as (wr3 & s3 & Hspec2).
  unfold commit_spec in Hspec2. rewrite Hkey2 in Hspec2. destruct Hspec2 as (Hc2 & Hw3 & Ho). rewrite app_nil_r in Hw3.
  exists wr3, s3. split_and!; [|done..]. rewrite Hc2. unfold to_committed. by destruct c.
Qed.

(** Registering an asset, with the system book open: the registry answers,
    or the event is logged and the registry has the asset. *)
Theorem register_asset_refines_ledger clock asset s wr log :
  writable s SYSTEM_BOOK wr log -> has_room wr log ->
  encodable (wr_state wr) (clock 0%nat) log (JRegisterAsset asset) ->
  match registry s !! asset_id asset with
  | Some existing =>
      register_asset clock asset s =
        (if bool_decide (existing = asset) then Ok () else Err (AlreadyExists ("asset " +:+ asset_id asset)), s)
  | None => exists wr' s', register_asset clock asset s = (Ok (), s') /\
      registry s' = <[asset_id asset := asset]> (registry s) /\
      writable s' SYSTEM_BOOK wr' (log ++ [mkWireEvent (1 + Z.of_nat (length log))
                                             (job_time (wr_state wr) (clock 0%nat)) (AssetRegistered asset)]) /\
      forall other, other <> SYSTEM_BOOK -> books s' !! other = books s !! other /\ book_dir s' other = book_dir s other
  end.
Proof.
  intros Hw Hroom Henc. pose proof (book_writer_open s _ wr log Hw) as Hbw. unfold register_asset. rewrite (wb_up _ _ _ _ Hw).
  destruct (registry s !! asset_id asset) as [existing|]; [by destruct (bool_decide _)|].
  destruct (submit_single s _ wr log (JRegisterAsset asset) clock Hw Hroom Henc)
    as (d & b & wr' & s' & sa & _ & Hcl & Hsub & Hsa & Hw' & Hreg & Hopts & Hother).
  injection Hcl as <-. destruct (writer_inv_state _ _ _ (li_writer _ _ _ (wb_ledger _ _ _ _ Hw))) as (Hnext & _ & _).
  unfold sbind. rewrite Hbw, Hsub. cbn in *. rewrite Hnext in *. exists wr'. eexists. split; [reflexivity|].
  split; [by rewrite Hreg|]. split; [by destruct Hw'|done].
Qed.
End writes.

(** ** The writes of a store with one book, evaluated *)

Section writes_demo.
Import WriterDemo.

Definition shop_clock : nat -> nat -> DateTime := fun _ => noon.

(** Another sale under a new key, and a retry of it with another id. *)
Definition next_sale : Transaction := mkTransaction 9 "shop" (tx_postings sale) "k9" (tx_external_refs sale) (tx_metadata sale) (tx_occurred_at sale).
Definition retried_sale : Transaction := mkTransaction 10 "shop" (tx_postings sale) "k9" (tx_external_refs sale) (tx_metadata sale) (tx_occurred_at sale).

Lemma shop_writable : writable shop_store "shop" sold_writer sold_log.
Proof.
  split; [reflexivity|vm_compute; reflexivity|unfold shop_store; cbn [books]; by rewrite lookup_singleton_eq| |];
    rewrite shop_dir; [exact sold_ledger|vm_compute; reflexivity].
Qed.

Lemma shop_room : has_room sold_writer sold_log.
Proof. split; vm_compute; [discriminate|reflexivity]. Qed.

Lemma commit_refines_ledger_witness :
  writable shop_store "shop" sold_writer sold_log /\
  exists wr' s', commit shop_clock next_sale shop_store = (Ok (mkCommitted 9 5 1200), s') /\
    writable s' "shop" wr' (sold_log ++ [mkWireEvent 5 1200 (TransactionPosted next_sale)]) /\ only_book "shop" shop_store s'.
Proof.
  split; [exact shop_writable|].
  destruct (commit_refines_ledger shop_clock next_sale shop_store sold_writer sold_log shop_writable shop_room) as (wr' & s' & Hc).
  - intros ev [= <-]. vm_compute. reflexivity.
  - exists wr', s'. 
    assert (commit_spec sold_log (validate (wr_state sold_writer) next_sale Scratch_default).2 next_sale
      (job_time (wr_state sold_writer) (shop_clock 0%nat)) =
      (Ok (mkCommitted 9 5 1200), [mkWireEvent 5 1200 (TransactionPosted next_sale)])) as Es by (vm_compute; reflexivity).
    rewrite Es in Hc. exact Hc.
Defined.

Lemma next_sale_committed :
  commit shop_clock next_sale shop_store = (Ok (mkCommitted 9 5 1200), (commit shop_clock next_sale shop_store).2).
Proof. rewrite (surjective_pairing (commit shop_clock next_sale shop_store)) at 1. apply (f_equal (fun r => (r, _))). vm_compute. reflexivity. Qed.

Lemma commit_is_exactly_once_witness :
  writable shop_store "shop" sold_writer sold_log /\
  exists s1 wr1 evs, commit shop_clock next_sale shop_store = (Ok (mkCommitted 9 5 1200), s1) /\
    writable s1 "shop" wr1 (sold_log ++ evs) /\ (length evs <= 1)%nat /\
    forall clock2 s2 wr2 later,
      let log2 := (sold_log ++ evs) ++ later in
      writable s2 "shop" wr2 log2 -> has_room wr2 log2 -> encodable (wr_state wr2) (clock2 0%nat) log2 (JCommit retried_sale) ->
      exists wr3 s3, commit clock2 retried_sale s2 = (Ok (mkCommitted 9 5 1200), s3) /\ writable s3 "shop" wr3 log2 /\
        only_book "shop" s2 s3.
Proof.
  split; [exact shop_writable|]. exists (commit shop_clock next_sale shop_store).2.
  destruct (commit_is_exactly_once shop_clock next_sale shop_store sold_writer sold_log (mkCommitted 9 5 1200)
    (commit shop_clock next_sale shop_store).2 shop_writable shop_room) as (wr1 & evs & Hw & Hl & Hr).
  - intros ev [= <-]. vm_compute. reflexivity.
  - exact next_sale_committed.
  - exists wr1, evs. split; [exact next_sale_committed|].
    split_and!; [done..|]. intros clock2 s2 wr2 later log2 Hw2. by apply (Hr clock2 retried_sale s2 wr2 later).
Defined.

(** A store with the asset of the shop registered. *)
Definition usd : AssetDef := mkAssetDef "USD" Fiat 2 "US dollar".
Definition usd_store : LogStore :=
  mkLogStore {["shop"%string := sold_world]} {["USD"%string := usd]} {["shop"%string := mkBookHandle sold_writer true]} demo_opts false.
Definition tips : AccountDef := demo_def "tips" Income.
Definition tips_cfg : AccountCfg := mkAccountCfg (Some Credit) None.

Lemma open_account_refines_ledger_witness :
  writable usd_store "shop" sold_writer sold_log /\
  exists wr' s', open_account shop_clock tips tips_cfg usd_store = (Ok (), s') /\
    writable s' "shop" wr' (sold_log ++ [mkWireEvent 5 1200 (AccountOpened tips tips_cfg)]) /\ only_book "shop" usd_store s'.
Proof.
  assert (writable usd_store "shop" sold_writer sold_log) as Hw by (destruct shop_writable; by split). split; [exact Hw|].
  pose proof (open_account_refines_ledger shop_clock tips tips_cfg usd_store sold_writer sold_log Hw shop_room) as Ho.
  assert (accounts (wr_state sold_writer) !! to_key (acct_id tips) = None) as Hnone by (vm_compute; reflexivity).
  rewrite Hnone in Ho. apply Ho. intros ev [= <-]. vm_compute. reflexivity.
Defined.

Definition system_store : LogStore :=
  mkLogStore {[SYSTEM_BOOK := demo_world]} ∅ {[SYSTEM_BOOK := mkBookHandle demo_writer true]} demo_opts false.

Lemma register_asset_refines_ledger_witness :
  writable system_store SYSTEM_BOOK demo_writer [] /\
  exists wr' s', register_asset shop_clock usd system_store = (Ok (), s') /\ registry s' = {["USD"%string := usd]} /\
    writable s' SYSTEM_BOOK wr' [mkWireEvent 1 1200 (AssetRegistered usd)] /\
    forall other, other <> SYSTEM_BOOK ->
      books s' !! other = books system_store !! other /\ book_dir s' other = book_dir system_store other.
Proof.
  assert (writable system_store SYSTEM_BOOK demo_writer []) as Hw.
  { split; [reflexivity|vm_compute; reflexivity|cbn [system_store books]; by rewrite lookup_singleton_eq| |];
      unfold book_dir; cbn [system_store dirs]; rewrite lookup_singleton_eq; cbn [default]; apply demo_ledger. }
  split; [exact Hw|].
  apply (register_asset_refines_ledger shop_clock usd system_store demo_writer [] Hw).
  - split; vm_compute; [discriminate|reflexivity].
  - intros ev [= <-]. vm_compute. reflexivity.
Defined.
End writes_demo.
