(* ===== verification/Subscribe.v ===== *)
(** Subscriptions of the log store, [LogTaleaStore::subscribe] in
    talea-store-log/src/lib.rs.

    A subscription is a machine that interleaves with the book's writer.  Its
    phases are the suspension points of the stream: reading the durability
    watermark, scanning a page, waiting on the broadcast channel.  The writer's
    side is what [WriterSpec] shows of it: events reach the disk, are then
    applied to the state and are then broadcast, in log order. *)

From S2P Require Import Prelude Decimal Assoc Core Bloom Disk PostingIndex Idem BookState Frame Replay Segment Snapshot.
From S2P Require Import Writer WriterBatch WriterLog WriterSpec LogOpen LogStore StoreReads.
Open Scope Z_scope.

(** What [live.recv()] gives. *)
Inductive Recv := RecvOk (ev : Sequenced LedgerEvent) | RecvLagged | RecvClosed.

Inductive Phase :=
| Paging (next : Seq)
| Scanning (next ceiling : Seq)
| Live (last : Seq)
| Repaging (last cursor : Seq)
| Rescanning (last cursor ceiling : Seq)
| Ended
| Failed (e : string).

Definition page_size : Z := 512.

Definition page_limit (ceiling next : Seq) : Z := Z.min page_size (ceiling - next + 1).

(** The head of both page loops. *)
Definition read_ceiling (st : BookState) (p : Phase) : Phase :=
  let ceiling := ceiling_of st in
  match p with
  | Paging next => if ceiling <? next then Live (saturating_sub next 1) else Scanning next ceiling
  | Repaging last cursor => if ceiling <? cursor then Live last else Rescanning last cursor ceiling
  | p => p
  end.

(** The body of the catch-up loop over one page. *)
Fixpoint emit (ceiling next : Seq) (wires : list WireEvent) : list (Sequenced LedgerEvent) * Seq :=
  match wires with
  | [] => ([], next)
  | wire :: wires =>
      if ceiling <? w_seq wire then ([], next)
      else let '(out, next') := emit ceiling (w_seq wire + 1) wires in (sequenced wire :: out, next')
  end.

(** The body of the loop after a lag. *)
Fixpoint reemit (ceiling last cursor : Seq) (wires : list WireEvent) : list (Sequenced LedgerEvent) * (Seq * Seq) :=
  match wires with
  | [] => ([], (last, cursor))
  | wire :: wires =>
      if ceiling <? w_seq wire then ([], (last, cursor))
      else if last <? w_seq wire then
        let '(out, r) := reemit ceiling (w_seq wire) (w_seq wire + 1) wires in (sequenced wire :: out, r)
      else reemit ceiling last (w_seq wire + 1) wires
  end.

(** The live tail. *)
Definition receive (r : Recv) (p : Phase) : list (Sequenced LedgerEvent) * Phase :=
  match p with
  | Live last =>
      match r with
      | RecvOk ev => if s_seq ev <=? last then ([], Live last) else ([ev], Live (s_seq ev))
      | RecvLagged => ([], Repaging last (last + 1))
      | RecvClosed => ([], Ended)
      end
  | p => ([], p)
  end.

Section subscribe.
Context `{HashIter} `{KeyHashes} `{Crc32} `{Json (list Pair)} `{Json WireEvent} `{Json StateImage}.

(** The book's writer, created when the book has none. *)
Definition subscribe_writer (book : string) : sop BookHandle := fun s =>
  match validate_book_name book with
  | Err e => (Err e, s)
  | Ok _ =>
      match books s !! book with
      | Some h => (Ok h, s)
      | None => add_book book s
      end
  end.

(** One page: the scan and the loop over what it found. *)
Definition scan_page (c : Catalog) (p : Phase) : io (list (Sequenced LedgerEvent) * Phase) :=
  match p with
  | Scanning next ceiling =>
      let limit := page_limit ceiling next in
      let! wires := scan_from c next limit in
      let '(out, next') := emit ceiling next wires in
      io_ret (out, if Z.of_nat (length wires) <? limit then Live (saturating_sub next' 1) else Paging next')
  | Rescanning last cursor ceiling =>
      let limit := page_limit ceiling cursor in
      let! wires := scan_from c cursor limit in
      let '(out, (last', cursor')) := reemit ceiling last cursor wires in
      io_ret (out, if Z.of_nat (length wires) <? limit then Live last' else Repaging last' cursor')
  | p => io_ret ([], p)
  end.

(** The page loop over a book nobody writes to. *)
Fixpoint catch_up (fuel : nat) (st : BookState) (c : Catalog) (p : Phase) : io (list (Sequenced LedgerEvent) * Phase) :=
  match fuel with
  | O => io_ret ([], p)
  | S fuel =>
      let! (out, p1) := scan_page c (read_ceiling st p) in
      match p1 with
      | Paging _ | Repaging _ _ =>
          let! (out', p2) := catch_up fuel st c p1 in io_ret (out ++ out', p2)
      | _ => io_ret (out, p1)
      end
  end.

(** ** The subscription beside its writer *)

(** The segments hold [full], whatever bytes an unfinished append left after
    it. *)
Definition on_disk (w : World) (c : Catalog) (full : list WireEvent) : Prop :=
  faults w = [] /\ exists chunks tail, concat chunks = full /\ log_files (dir w) c chunks tail /\ bases_ok c chunks.

(** [sy_full] is what the segments hold, [sy_applied] and [sy_sent] how many
    of these events are in the state and were broadcast, [sy_read] how far
    the receiver of this subscription has read the broadcast. *)
Record Sys := mkSys {
  sy_full : list WireEvent;
  sy_applied : nat;
  sy_sent : nat;
  sy_read : nat;
  sy_phase : Phase;
  sy_out : list (Sequenced LedgerEvent)
}.

(** The receiver is created before the first page is read. *)
Definition subscribed (from : Seq) (full : list WireEvent) (applied sent : nat) : Sys :=
  mkSys full applied sent sent (Paging from) [].

Inductive sys_step : Sys -> Sys -> Prop :=
| sys_write y evs :
    gapless 1 (sy_full y ++ evs) -> Z.of_nat (length (sy_full y ++ evs)) < i64_max ->
    sys_step y (mkSys (sy_full y ++ evs) (sy_applied y) (sy_sent y) (sy_read y) (sy_phase y) (sy_out y))
| sys_apply y n :
    (sy_applied y <= n <= length (sy_full y))%nat ->
    sys_step y (mkSys (sy_full y) n (sy_sent y) (sy_read y) (sy_phase y) (sy_out y))
| sys_send y n :
    (sy_sent y <= n <= sy_applied y)%nat ->
    sys_step y (mkSys (sy_full y) (sy_applied y) n (sy_read y) (sy_phase y) (sy_out y))
| sys_ceiling y st :
    next_seq st = Z.of_nat (sy_applied y) + 1 ->
    sys_step y (mkSys (sy_full y) (sy_applied y) (sy_sent y) (sy_read y) (read_ceiling st (sy_phase y)) (sy_out y))
| sys_scan y c w w' out p :
    on_disk w c (sy_full y) -> scan_page c (sy_phase y) w = (Ok (out, p), w') ->
    sys_step y (mkSys (sy_full y) (sy_applied y) (sy_sent y) (sy_read y) p (sy_out y ++ out))
| sys_scan_error y c w w' e :
    scan_page c (sy_phase y) w = (Err e, w') ->
    sys_step y (mkSys (sy_full y) (sy_applied y) (sy_sent y) (sy_read y) (Failed e) (sy_out y))
| sys_recv y ev last :
    sy_phase y = Live last -> (sy_read y < sy_sent y)%nat -> sy_full y !! sy_read y = Some ev ->
    sys_step y (mkSys (sy_full y) (sy_applied y) (sy_sent y) (S (sy_read y))
      (receive (RecvOk (sequenced ev)) (sy_phase y)).2 (sy_out y ++ (receive (RecvOk (sequenced ev)) (sy_phase y)).1))
| sys_lag y n last :
    sy_phase y = Live last -> (sy_read y < n <= sy_sent y)%nat ->
    sys_step y (mkSys (sy_full y) (sy_applied y) (sy_sent y) n
      (receive RecvLagged (sy_phase y)).2 (sy_out y ++ (receive RecvLagged (sy_phase y)).1))
| sys_closed y last :
    sy_phase y = Live last ->
    sys_step y (mkSys (sy_full y) (sy_applied y) (sy_sent y) (sy_read y)
      (receive RecvClosed (sy_phase y)).2 (sy_out y ++ (receive RecvClosed (sy_phase y)).1)).
End subscribe.

(** ** Lemmas *)

(** The loops over a page stop at the watermark. *)
Lemma emit_gapless s ceiling next wires :
  gapless s wires ->
  let m := Nat.min (Z.to_nat (ceiling + 1 - s)) (length wires) in
  emit ceiling next wires = (map sequenced (take m wires), if (m =? 0)%nat then next else s + Z.of_nat m).
Proof.
  revert s next. induction wires as [|wire wires IH]; intros s next Hg m; cbn [emit].
  { subst m. by rewrite Nat.min_0_r. }
  apply gapless_cons in Hg as [Hs Hg]. subst m. cbn [length]. destruct (ceiling <? w_seq wire) eqn:E.
  - apply Z.ltb_lt in E. replace (Z.to_nat (ceiling + 1 - s)) with 0%nat by lia. done.
  - apply Z.ltb_ge in E. rewrite (IH (s + 1) _ Hg). replace (Z.to_nat (ceiling + 1 - s)) with (S (Z.to_nat (ceiling + 1 - (s + 1)))) by lia.
    rewrite <- Nat.succ_min_distr. cbn [take map Nat.eqb]. f_equal. destruct (Nat.eqb_spec (Nat.min (Z.to_nat (ceiling + 1 - (s + 1))) (length wires)) 0); lia.
Qed.

Lemma reemit_gapless s ceiling last cursor wires :
  gapless s wires -> last < s ->
  let m := Nat.min (Z.to_nat (ceiling + 1 - s)) (length wires) in
  reemit ceiling last cursor wires =
    (map sequenced (take m wires), if (m =? 0)%nat then (last, cursor) else (s + Z.of_nat m - 1, s + Z.of_nat m)).
Proof.
  revert s last cursor. induction wires as [|wire wires IH]; intros s last cursor Hg Hlast m; cbn [reemit].
  { subst m. by rewrite Nat.min_0_r. }
  apply gapless_cons in Hg as [Hs Hg]. subst m. cbn [length]. destruct (ceiling <? w_seq wire) eqn:E.
  - apply Z.ltb_lt in E. replace (Z.to_nat (ceiling + 1 - s)) with 0%nat by lia. done.
  - apply Z.ltb_ge in E. rewrite (proj2 (Z.ltb_lt last (w_seq wire))) by lia.
    rewrite (IH (s + 1)) by (done || lia). replace (Z.to_nat (ceiling + 1 - s)) with (S (Z.to_nat (ceiling + 1 - (s + 1)))) by lia.
    rewrite <- Nat.succ_min_distr. cbn [take map Nat.eqb]. f_equal.
    destruct (Nat.eqb_spec (Nat.min (Z.to_nat (ceiling + 1 - (s + 1))) (length wires)) 0); f_equal; lia.
Qed.

Lemma gapless_drop s k l : gapless s l -> gapless (s + Z.of_nat k) (drop k l).
Proof. intros Hg i ev Hi. rewrite lookup_drop in Hi. rewrite (Hg _ _ Hi). lia. Qed.

Lemma gapless_take s k l : gapless s l -> gapless s (take k l).
Proof. intros Hg i ev Hi. apply lookup_take_Some in Hi as [Hi _]. by apply Hg. Qed.

Lemma filter_iff_on {A} (P Q : A -> Prop) `{!forall x, Decision (P x)} `{!forall x, Decision (Q x)} (l : list A) :
  Forall (fun x => P x <-> Q x) l -> filter P l = filter Q l.
Proof.
  induction 1 as [|x l Hx _ IH]; [done|]. rewrite !filter_cons. rewrite IH. by repeat case_decide; try tauto.
Qed.

Section subscription.
Context `{HashIterLaws} `{KeyHashes} `{Crc32} `{!Crc32Laws} `{Json (list Pair)} `{!JsonLaws (list Pair)}
  `{Json WireEvent} `{!JsonLaws WireEvent} `{Json StateImage}.

Lemma on_disk_scan w c full from limit :
  on_disk w c full -> gapless 1 full -> 0 <= limit ->
  scan_from c from limit w = (Ok (take (Z.to_nat limit) (drop (Z.to_nat (from - 1)) full)), w).
Proof.
  intros (Hf & chunks & tail & <- & Hl & Hok) Hg Hlim. unfold scan_from.
  rewrite (scan_catalog_spec _ w c chunks tail) by done.
  rewrite select_all_filter by (by eapply log_files_length).
  rewrite <- (gapless_filter_events 1 _ _ Hg). do 3 f_equal.
  apply filter_iff_on. apply gapless_lt in Hg. eapply Forall_impl; [exact Hg|]. cbn. lia.
Qed.

(** A cursor of the machine is at log position [pos]. *)
Definition at_pos (pos : nat) (x : Seq) : Prop := 0 <= x <= i64_max /\ Z.max x 1 = Z.of_nat pos + 1.

Definition phase_ok (applied read pos : nat) (p : Phase) : Prop :=
  match p with
  | Paging next => at_pos pos next
  | Scanning next ceiling => at_pos pos next /\ next <= ceiling <= Z.of_nat applied /\ Z.of_nat read <= ceiling
  | Live last => at_pos pos (last + 1) /\ (read <= pos)%nat
  | Repaging last cursor => cursor = last + 1 /\ at_pos pos cursor
  | Rescanning last cursor ceiling =>
      cursor = last + 1 /\ at_pos pos cursor /\ cursor <= ceiling <= Z.of_nat applied /\ Z.of_nat read <= ceiling
  | Ended | Failed _ => True
  end.

Definition start_of (from : Seq) : nat := Z.to_nat (from - 1).

Record sub_inv (from : Seq) (y : Sys) : Prop := {
  si_gapless : gapless 1 (sy_full y);
  si_length : Z.of_nat (length (sy_full y)) < i64_max;
  si_chain : (sy_read y <= sy_sent y <= sy_applied y)%nat /\ (sy_applied y <= length (sy_full y))%nat;
  si_out : sy_out y = map sequenced (take (length (sy_out y)) (drop (start_of from) (sy_full y)));
  si_applied : sy_out y = [] \/ (start_of from + length (sy_out y) <= sy_applied y)%nat;
  si_phase : phase_ok (sy_applied y) (sy_read y) (start_of from + length (sy_out y)) (sy_phase y)
}.

Lemma phase_ok_applied a a' r pos p : (a <= a')%nat -> phase_ok a r pos p -> phase_ok a' r pos p.
Proof. destruct p; cbn; intuition lia. Qed.

(** A page delivers the next [m] events. *)
Lemma page_out (full : list WireEvent) (pos m lim : nat) (c next : Seq) :
  gapless 1 full -> at_pos pos next -> next <= c -> c <= Z.of_nat (length full) ->
  lim = Z.to_nat (page_limit c next) ->
  let wires := take lim (drop (Z.to_nat (next - 1)) full) in
  m = Nat.min (Z.to_nat (c + 1 - (Z.of_nat pos + 1))) (length wires) ->
  Z.to_nat (next - 1) = pos /\ gapless (Z.of_nat pos + 1) wires /\ take m wires = take m (drop pos full) /\
  (Z.of_nat pos + Z.of_nat m <= c) /\ (m <= length full - pos)%nat /\
  (Z.of_nat (length wires) < page_limit c next -> Z.of_nat pos + Z.of_nat m = c) /\
  (m = 0%nat -> c = 0 /\ next = 0).
Proof.
  intros Hg [Hx Hp] Hc Hl -> wires ->. assert (Z.to_nat (next - 1) = pos) as Hpos by lia. subst wires. rewrite Hpos.
  pose proof (length_drop full pos) as Hld. unfold page_limit, page_size. split_and!.
  - done.
  - apply gapless_take. rewrite Z.add_comm. by apply gapless_drop.
  - rewrite take_take, length_take. f_equal. lia.
  - rewrite length_take, length_drop. lia.
  - rewrite length_take, length_drop. lia.
  - rewrite length_take, length_drop. lia.
  - rewrite length_take, length_drop. lia.
Qed.

Lemma out_extend (from : Seq) (full : list WireEvent) (out : list (Sequenced LedgerEvent)) (m : nat) :
  out = map sequenced (take (length out) (drop (start_of from) full)) ->
  (m <= length full - (start_of from + length out))%nat ->
  let out' := out ++ map sequenced (take m (drop (start_of from + length out) full)) in
  length out' = (length out + m)%nat /\ out' = map sequenced (take (length out') (drop (start_of from) full)).
Proof.
  intros Ho Hm out'. assert (length out' = (length out + m)%nat) as Hl.
  { subst out'. rewrite length_app, length_map, length_take, length_drop. lia. }
  split; [done|]. rewrite Hl. subst out'. rewrite Ho at 1. rewrite <- map_app, <- drop_drop, take_take_drop. done.
Qed.

(** Delivering the next [m] events, all of them applied. *)
Lemma sub_inv_deliver from y m read p out :
  sub_inv from y -> out = map sequenced (take m (drop (start_of from + length (sy_out y)) (sy_full y))) ->
  (start_of from + length (sy_out y) + m <= sy_applied y)%nat \/ m = 0%nat ->
  (read <= sy_sent y)%nat ->
  phase_ok (sy_applied y) read (start_of from + length (sy_out y) + m) p ->
  sub_inv from (mkSys (sy_full y) (sy_applied y) (sy_sent y) read p (sy_out y ++ out)).
Proof.
  intros [Hg Hl [Hch1 Hch2] Ho Ha Hp] -> Hm Hr Hphase.
  destruct (out_extend from (sy_full y) (sy_out y) m Ho) as [Hlen Ho']; [lia|].
  split; cbn; try done.
  - split; [lia|done].
  - destruct Hm as [Hm| ->]; [right; rewrite Hlen; lia|]. destruct Ha as [->|Ha]; [by left|right]. rewrite Hlen. lia.
  - rewrite Hlen. by rewrite Nat.add_assoc.
Qed.

Lemma saturating_pred x : 0 <= x <= i64_max -> saturating_sub x 1 = x - 1.
Proof. unfold saturating_sub, clamp_i64, i64_max, i64_min. lia. Qed.

Lemma scan_page_inv from y c w w' out p :
  sub_inv from y -> on_disk w c (sy_full y) -> scan_page c (sy_phase y) w = (Ok (out, p), w') ->
  sub_inv from (mkSys (sy_full y) (sy_applied y) (sy_sent y) (sy_read y) p (sy_out y ++ out)).
Proof.
  intros Hi Hd Hscan. pose proof Hi as [Hg Hl [Hch1 Hch2] Ho Ha Hp]. set (pos := (start_of from + length (sy_out y))%nat) in *.
  destruct (sy_phase y) as [next|next ceiling|last|last cursor|last cursor ceiling| |e] eqn:Ep; cbn [scan_page] in Hscan.
  1,3,4,6,7: injection Hscan as <- <- <-; apply (sub_inv_deliver from y 0); rewrite ?Nat.add_0_r; by auto || lia.
  - destruct Hp as (Hat & Hc & Hrd). unfold io_bind in Hscan.
    rewrite (on_disk_scan _ _ _ next (page_limit ceiling next) Hd Hg) in Hscan by (unfold page_limit, page_size; lia).
    destruct (page_out (sy_full y) pos _ _ ceiling next Hg Hat ltac:(lia) ltac:(lia) eq_refl eq_refl)
      as (Hpos & Hgw & Htk & Hle & Hm & Hshort & Hz).
    rewrite (emit_gapless (Z.of_nat pos + 1)) in Hscan by done. cbn zeta in Hscan.
    set (m := Nat.min _ _) in *. injection Hscan as <- <- <-.
    apply (sub_inv_deliver from y m); [done|by rewrite Htk|left; fold pos; lia|lia|]. fold pos.
    destruct Hat as [Hx Hmx].
    destruct (Nat.eqb_spec m 0) as [Em|Em].
    + destruct (Hz Em) as [-> ->]. case_match; cbn; unfold at_pos; rewrite ?saturating_pred by (unfold i64_max; lia); split_and!; lia.
    + unfold i64_max in *. case_match eqn:Hsh; cbn; unfold at_pos, i64_max in *; rewrite ?saturating_pred by (unfold i64_max; lia).
      * apply Z.ltb_lt in Hsh. specialize (Hshort Hsh). split_and!; lia.
      * split_and!; lia.
  - destruct Hp as (-> & Hat & Hc & Hrd). unfold io_bind in Hscan.
    rewrite (on_disk_scan _ _ _ (last + 1) (page_limit ceiling (last + 1)) Hd Hg) in Hscan by (unfold page_limit, page_size; lia).
    destruct (page_out (sy_full y) pos _ _ ceiling (last + 1) Hg Hat ltac:(lia) ltac:(lia) eq_refl eq_refl)
      as (Hpos & Hgw & Htk & Hle & Hm & Hshort & Hz).
    pose proof Hat as [Hx Hmx].
    rewrite (reemit_gapless (Z.of_nat pos + 1)) in Hscan by (done || lia). cbn zeta in Hscan.
    set (m := Nat.min _ _) in *.
    destruct (Nat.eqb_spec m 0) as [Em|Em]; injection Hscan as <- <- <-.
    all: apply (sub_inv_deliver from y m); [done|by rewrite Htk|left; fold pos; lia|lia|]; fold pos.
    + destruct (Hz Em) as [-> Hl0]. case_match; cbn; unfold at_pos; split_and!; lia.
    + unfold i64_max in *. case_match eqn:Hsh; cbn; unfold at_pos, i64_max in *.
      * apply Z.ltb_lt in Hsh. specialize (Hshort Hsh). split_and!; lia.
      * split_and!; lia.
Qed.

Lemma sub_inv_start from full applied sent :
  gapless 1 full -> Z.of_nat (length full) < i64_max -> (sent <= applied <= length full)%nat -> 0 <= from <= i64_max ->
  sub_inv from (subscribed from full applied sent).
Proof.
  intros Hg Hl Hc Hf. split; cbn; try done; [lia|by left|]. rewrite Nat.add_0_r. unfold at_pos, start_of. lia.
Qed.

Lemma sub_inv_step from y y' : sub_inv from y -> sys_step y y' -> sub_inv from y'.
Proof.
  intros Hi Hs. pose proof Hi as [Hg Hl [Hch1 Hch2] Ho Ha Hp].
  destruct Hs as [y evs Hg' Hl'|y n Hn|y n Hn|y st Hst|y c w w' out p Hd Hscan|y c w w' e Hscan|y ev last El Hr Hev|y n last El Hr|y last El].
  - split; cbn; try done; [rewrite length_app; lia|]. destruct Ha as [Hnil|Ha]; [by rewrite Hnil|].
    rewrite drop_app_le, take_app_le; [done| |lia]. rewrite length_drop. lia.
  - split; cbn; try done; [lia| |by eapply phase_ok_applied; [|done]; lia]. destruct Ha; [by left|right; lia].
  - split; cbn; try done. lia.
  - rewrite <- (app_nil_r (sy_out y)). apply (sub_inv_deliver from y 0); rewrite ?Nat.add_0_r; try (done || lia).
    assert (ceiling_of st = Z.of_nat (sy_applied y)) as Hc by (unfold ceiling_of; rewrite Hst, saturating_pred; unfold i64_max in *; lia).
    unfold read_ceiling. rewrite Hc. destruct (sy_phase y); cbn in Hp |- *; try done.
    + destruct (Z.ltb_spec (Z.of_nat (sy_applied y)) next); cbn; [|split_and!; (done || lia)].
      destruct Hp as [Hx Hmx]. rewrite saturating_pred by done. unfold at_pos. split_and!; lia.
    + destruct (Z.ltb_spec (Z.of_nat (sy_applied y)) cursor); cbn; destruct Hp as [-> [Hx Hmx]]; unfold at_pos; split_and!; lia.
  - by eapply scan_page_inv.
  - by split.
  - rewrite El in Hp |- *. cbn in Hp |- *. pose proof Hp as [[Hx Hmx] Hrp]. pose proof (Hg _ _ Hev) as Hseq.
    destruct (Z.leb_spec (w_seq ev) last); cbn [fst snd].
    + apply (sub_inv_deliver from y 0); rewrite ?Nat.add_0_r; try (done || lia). cbn. unfold at_pos. split_and!; lia.
    + assert (sy_read y = start_of from + length (sy_out y))%nat as Hpos by lia.
      apply (sub_inv_deliver from y 1); [done| |left; lia|lia|].
      * rewrite <- Hpos, (drop_S _ ev) by done. done.
      * cbn. unfold at_pos. unfold i64_max in *. split_and!; lia.
  - rewrite El in Hp |- *. cbn in Hp |- *. apply (sub_inv_deliver from y 0); rewrite ?Nat.add_0_r; try (done || lia).
    cbn. split; [done|]. by destruct Hp.
  - rewrite El. cbn. apply (sub_inv_deliver from y 0); rewrite ?Nat.add_0_r; try (done || lia).
Qed.

(** C25: a subscription delivers every event from [from] on exactly once, in
    log order and without a gap, however its pages, its receives and its lags
    interleave with the writer; it delivers no event before it is applied,
    and once it has read what was broadcast it has delivered all of it. *)
Theorem subscribe_exactly_once (from : Seq) (full : list WireEvent) (applied sent : nat) (y : Sys) :
  gapless 1 full -> Z.of_nat (length full) < i64_max -> (sent <= applied <= length full)%nat -> 0 <= from <= i64_max ->
  rtc sys_step (subscribed from full applied sent) y ->
  sy_out y = map sequenced (take (length (sy_out y)) (drop (start_of from) (sy_full y))) /\
  (sy_out y = [] \/ (start_of from + length (sy_out y) <= sy_applied y)%nat) /\
  (forall last, sy_phase y = Live last -> sy_read y = sy_sent y ->
     (sy_sent y <= start_of from + length (sy_out y))%nat).
Proof.
  intros Hg Hl Hc Hf Hr.
  assert (sub_inv from y) as [_ _ _ Ho Ha Hp].
  { apply (rtc_ind_r (R := sys_step) (sub_inv from) _ (sub_inv_start from full applied sent Hg Hl Hc Hf)); [|done].
    intros y1 y2 _ Hs Hi. by eapply sub_inv_step. }
  split_and!; [done..|]. intros last Hlive Hread. rewrite Hlive in Hp. cbn in Hp. lia.
Qed.

Lemma writer_on_disk w wr log : writer_inv w wr log -> faults w = [] -> on_disk w (catalog (wr_segments wr)) log.
Proof.
  intros [(sealed & act & st0 & Hla & <- & _) _ _] Hf. pose proof (la_ready _ _ _ _ _ Hla) as Hr.
  split; [done|]. exists (sealed ++ [act]), []. split_and!; [done|by eapply durable_ready_log_files|apply (lr_bases _ _ _ _ _ Hr)].
Qed.

Lemma catch_up_from fuel w st c log pos next :
  on_disk w c log -> gapless 1 log -> Z.of_nat (length log) < i64_max -> ceiling_of st = Z.of_nat (length log) ->
  at_pos pos next -> (length log - pos < fuel)%nat ->
  exists last, catch_up fuel st c (Paging next) w = (Ok (map sequenced (drop pos log), Live last), w) /\
    Z.max (last + 1) 1 = Z.of_nat (Nat.max pos (length log)) + 1.
Proof.
  intros Hd Hg Hl Hc. revert pos next. induction fuel as [|fuel IH]; intros pos next Hat Hfuel; [lia|].
  cbn [catch_up read_ceiling]. rewrite Hc. pose proof Hat as [Hx Hmx].
  destruct (Z.ltb_spec (Z.of_nat (length log)) next); unfold io_bind; cbn [scan_page].
  { exists (saturating_sub next 1). rewrite saturating_pred by done. split; [|lia]. by rewrite drop_ge by lia. }
  unfold io_bind. rewrite (on_disk_scan _ _ _ next _ Hd Hg) by (unfold page_limit, page_size; lia).
  destruct (page_out log pos _ _ (Z.of_nat (length log)) next Hg Hat ltac:(lia) ltac:(lia) eq_refl eq_refl)
    as (Hpos & Hgw & Htk & Hle & Hm & Hshort & Hz).
  rewrite (emit_gapless (Z.of_nat pos + 1)) by done. cbn zeta. rewrite Htk. set (wires := take _ _) in *.
  set (m := Nat.min _ _) in *. destruct (Z.ltb_spec (Z.of_nat (length wires)) (page_limit (Z.of_nat (length log)) next)) as [Hs|Hs].
  - specialize (Hshort Hs). eexists. split; [rewrite take_ge by (rewrite length_drop; lia); reflexivity|].
    destruct (Nat.eqb_spec m 0) as [Em|Em]; rewrite saturating_pred by (unfold i64_max in *; lia); lia.
  - destruct (Nat.eqb_spec m 0) as [Em|Em].
    { destruct (Hz Em) as [Hl0 ->]. exfalso. subst wires. rewrite length_take, length_drop in Hs.
      unfold page_limit, page_size in Hs. lia. }
    destruct (IH (pos + m)%nat (Z.of_nat pos + 1 + Z.of_nat m)) as (last & Hcu & Hlast);
      [unfold at_pos, i64_max in *; lia|lia|].
    exists last. cbn [io_ret]. rewrite Hcu. cbn [io_ret]. split; [|lia].
    rewrite <- map_app, <- (drop_drop log m pos), take_drop. done.
Qed.

(** Catching up terminates.  On a book nobody writes to, the page loop ends
    within as many pages as the log has events, having delivered exactly the
    events from [from] on, and goes live after the last of them. *)
Theorem catch_up_terminates (w : World) (wr : BookWriter) (log : list WireEvent) (from : Seq) (fuel : nat) :
  writer_inv w wr log -> faults w = [] -> Z.of_nat (length log) < i64_max -> 0 <= from <= i64_max ->
  (length log < fuel)%nat ->
  exists last, catch_up fuel (wr_state wr) (catalog (wr_segments wr)) (Paging from) w =
    (Ok (map sequenced (drop (start_of from) log), Live last), w) /\
    Z.max (last + 1) 1 = Z.of_nat (Nat.max (start_of from) (length log)) + 1.
Proof.
  intros Hwi Hf Hl Hfrom Hfuel. apply catch_up_from; try done.
  - by apply writer_on_disk.
  - pose proof Hwi as [(sealed & act & st0 & Hla & <- & _) _ _]. apply (la_gapless _ _ _ _ _ Hla).
  - by apply (writer_ceiling w).
  - unfold at_pos, start_of. lia.
  - lia.
Qed.
End subscription.

(** After a shutdown every operation refuses a book except a subscription,
    which gives it a writer over an empty state, whatever its log holds. *)
Section after_shutdown.
Context `{HashIter} `{KeyHashes} `{Crc32} `{Json (list Pair)} `{Json WireEvent} `{Json StateImage}.

Theorem subscribe_ignores_shutdown (s s' : LogStore) (book : Book) (h : BookHandle) :
  shut_down s = true -> books s !! book = None -> subscribe_writer book s = (Ok h, s') ->
  book_writer book s = (Err (Io "store has been shut down"), s) /\
  books s' !! book = Some h /\ next_seq (wr_state (h_writer h)) = 1.
Proof.
  intros Hd Hb. unfold subscribe_writer, book_writer. rewrite Hd, Hb. destruct (validate_book_name book); [|done].
  unfold add_book, sbind, sget, in_dir, create_book, spawn, io_bind.
  destruct (attach_dir _ _ _) as [[t|e] w1]; [|done].
  destruct (open_with_max _ _) as [[seg|e] w2]; [|done]. cbn. intros [= <- <-]. split_and!; [done| |done].
  cbn. by rewrite lookup_insert_eq.
Qed.
End after_shutdown.

(** ** Examples *)

Section subscribe_demo.
Import WriterDemo.

Definition sold_catalog : Catalog := catalog (wr_segments sold_writer).

Lemma sold_disk : on_disk sold_world sold_catalog sold_log.
Proof. apply writer_on_disk; [apply (li_writer _ _ _ sold_ledger)|]. vm_compute. reflexivity. Qed.

Lemma sold_gapless : gapless 1 sold_log.
Proof. destruct (li_writer _ _ _ sold_ledger) as [(sealed & act & st0 & Hla & <- & _) _ _]. apply (la_gapless _ _ _ _ _ Hla). Qed.

Lemma catch_up_terminates_witness :
  writer_inv sold_world sold_writer sold_log /\
  exists last, catch_up 9 (wr_state sold_writer) sold_catalog (Paging 3) sold_world =
    (Ok (map sequenced (drop (start_of 3) sold_log), Live last), sold_world) /\
    Z.max (last + 1) 1 = Z.of_nat (Nat.max (start_of 3) (length sold_log)) + 1.
Proof.
  split; [apply (li_writer _ _ _ sold_ledger)|].
  apply (catch_up_terminates sold_world sold_writer sold_log 3 9).
  - apply (li_writer _ _ _ sold_ledger).
  - vm_compute. reflexivity.
  - vm_compute. reflexivity.
  - split; vm_compute; discriminate.
  - vm_compute. lia.
Defined.

(** A subscriber from event 1 goes live on an empty book, falls behind
    four broadcast events, and pages them from the segments. *)
Definition lagged_phase : Phase := Rescanning 0 1 4.

Lemma subscribe_exactly_once_witness :
  exists out p, scan_page sold_catalog lagged_phase sold_world = (Ok (out, p), sold_world) /\
    rtc sys_step (subscribed 1 [] 0 0) (mkSys sold_log 4 4 4 p out) /\
    out = map sequenced (take (length out) (drop (start_of 1) sold_log)).
Proof.
  assert (exists out p, scan_page sold_catalog lagged_phase sold_world = (Ok (out, p), sold_world)) as (out & p & Hscan).
  { unfold lagged_phase. cbn [scan_page]. unfold io_bind.
    rewrite (on_disk_scan _ _ _ 1 (page_limit 4 1) sold_disk sold_gapless) by (vm_compute; discriminate).
    destruct (reemit _ _ _ _) as [out [last' cursor']]. eauto. }
  exists out, p. assert (rtc sys_step (subscribed 1 [] 0 0) (mkSys sold_log 4 4 4 p out)) as Hr.
  { eapply rtc_l; [apply (sys_ceiling _ BookState_default); reflexivity|].
    eapply rtc_l; [apply (sys_write _ sold_log); [apply sold_gapless|vm_compute; reflexivity]|]. cbn [sy_full sy_applied sy_sent sy_read sy_out subscribed app].
    eapply rtc_l; [apply (sys_apply _ 4); vm_compute; lia|].
    eapply rtc_l; [apply (sys_send _ 4); cbn; lia|].
    eapply rtc_l; [eapply (sys_lag _ 4); [reflexivity|cbn; lia]|].
    eapply rtc_l; [apply (sys_ceiling _ (bump_seq BookState_default 4 1200)); reflexivity|].
    eapply rtc_l; [apply (sys_scan _ sold_catalog sold_world sold_world out p); [exact sold_disk|exact Hscan]|]. apply rtc_refl. }
  split_and!; [done..|].
  apply (subscribe_exactly_once 1 [] 0 0 (mkSys sold_log 4 4 4 p out)); [|vm_compute; reflexivity|cbn; lia|unfold i64_max; lia|done].
  by intros i ev ?.
Defined.
End subscribe_demo.
