(* ===== verification/Api.v ===== *)
(** The ledger's API types: talea-core/src/api (requests.rs, responses.rs,
    error.rs).  The constructors of [ApiError] carry a prefix, the store's
    errors have the same names. *)

From S2P Require Import Prelude Decimal Core.
Open Scope Z_scope.

(** ** Requests *)

Record WireAmount := mkWireAmount { wa_minor : Z; wa_asset : string }.

Record AssetDraft := mkAssetDraft {
  ad_id : string;
  ad_class : string;
  ad_network : option string;
  ad_native_id : option string;
  ad_precision : Z;  (* u8 *)
  ad_name : string
}.

Record AccountDraft := mkAccountDraft {
  ac_book : string;
  ac_path : string;
  ac_asset : string;
  ac_kind : string;
  ac_normal_side : option Direction;
  ac_min_balance : option Z
}.

Record PostingDraft := mkPostingDraft {
  pd_account : string;
  pd_amount : WireAmount;
  pd_direction : Direction
}.

Record TransactionDraft := mkTransactionDraft {
  td_book : string;
  td_idempotency_key : string;
  td_postings : list PostingDraft;
  td_external_refs : list ExternalRef;
  td_metadata : JsonValue;
  td_occurred_at : option DateTime
}.

Record Page := mkPage { pg_after_seq : option Seq; pg_limit : Z  (* u32 *) }.

(** ** Responses *)

Record Posted := mkPosted { po_tx_id : string; po_seq : Seq; po_at : DateTime; deduplicated : bool }.

Record BalanceView := mkBalanceView {
  bv_account : string;
  bv_asset : string;
  bv_balance : string;
  bv_as_of : option DateTime;
  bv_updated_seq : Seq
}.

Record PostingView := mkPostingView {
  pv_seq : Seq;
  pv_tx_id : string;
  pv_account : string;
  pv_amount : WireAmount;
  pv_direction : Direction;
  pv_at : DateTime
}.

Record TransactionView := mkTransactionView {
  tv_tx_id : string;
  tv_book : string;
  tv_seq : Seq;
  tv_at : DateTime;
  tv_postings : list PostingView;
  tv_external_refs : list ExternalRef;
  tv_metadata : JsonValue
}.

Record TrialBalanceLine := mkTrialBalanceLine { tl_asset : string; tl_debits : Z; tl_credits : Z }.

Record TrialBalance := mkTrialBalance {
  tb_book : string;
  tb_as_of : option DateTime;
  tb_lines : list TrialBalanceLine
}.

Record Paged (T : Type) := mkPaged { items : list T; next : option Seq }.
Arguments mkPaged {T}.
Arguments items {T}.
Arguments next {T}.

Record EventEnvelope := mkEventEnvelope {
  ee_seq : Seq;
  ee_at : DateTime;
  ee_kind : string;
  ee_payload : JsonValue
}.

(** ** Errors *)

Inductive ApiError :=
| Api_Unbalanced (asset : string) (debit credit : Z)
| Api_AssetMismatch (account account_asset asset : string)
| Api_InvalidAmount (amount : Z)
| Api_UnknownAsset (asset : string)
| Api_UnknownAccount (account : string)
| Api_ConstraintViolation (account : string) (min_balance would_be : Z)
| Api_AlreadyExists (what : string)
| Api_InvalidDraft (field reason : string)
| Api_NotFound (what : string)
| Api_Transport (message : string)
| Api_Unauthorized
| Api_Forbidden (book : string)
| Api_Overloaded
| Api_Timeout
| Api_Internal (message : string).

#[export] Instance ApiError_eq_dec : EqDecision ApiError.
Proof. solve_decision. Defined.

Abbreviation ApiResult A := (result A ApiError) (only parsing).

(** [Display for ApiError] *)
Definition ApiError_fmt (e : ApiError) : string :=
  match e with
  | Api_Unbalanced asset debit credit =>
      "unbalanced transaction for " +:+ asset +:+ ": debit " +:+ i64_to_string debit +:+ " != credit " +:+ i64_to_string credit
  | Api_AssetMismatch account account_asset asset =>
      "asset mismatch for account " +:+ account +:+ ": has " +:+ account_asset +:+ ", posting is " +:+ asset
  | Api_InvalidAmount amount => "invalid amount: " +:+ i64_to_string amount
  | Api_UnknownAsset asset => "unknown asset: " +:+ asset
  | Api_UnknownAccount account => "unknown account: " +:+ account
  | Api_ConstraintViolation account min_balance would_be =>
      "constraint violation for account " +:+ account +:+ ": minimum balance is " +:+ i64_to_string min_balance +:+
      ", would be " +:+ i64_to_string would_be
  | Api_AlreadyExists what => "already exists: " +:+ what
  | Api_InvalidDraft field reason => "invalid draft field " +:+ field +:+ ": " +:+ reason
  | Api_NotFound what => "not found: " +:+ what
  | Api_Transport message => "transport error: " +:+ message
  | Api_Unauthorized => "unauthorized"
  | Api_Forbidden book => "forbidden for book: " +:+ book
  | Api_Overloaded => "overloaded"
  | Api_Timeout => "timeout"
  | Api_Internal message => "internal error: " +:+ message
  end.
