(* ===== verification/Service.v ===== *)
(** The ledger service, talea-service/src/service.rs: validation of drafts,
    translation to the store and back, over any implementation of the [Store]
    trait (talea-core/src/store.rs).

    The texts of [Uuid]s and of JSON payloads, and the [Debug] text of a string
    in one error message, are those of their libraries.  A new transaction's id
    and the clock's time are arguments of [post].  Metrics and logging are not
    part of the state. *)

From S2P Require Import Prelude Decimal Core Api.
Open Scope Z_scope.

(** The [Store] trait: each operation on the store's state. *)
Class Store (S : Type) := {
  store_register_asset : AssetDef -> S -> result unit StoreError * S;
  store_open_account : AccountDef -> AccountCfg -> S -> result unit StoreError * S;
  store_commit_batch : list Transaction -> S -> list (result Committed StoreError) * S;
  store_balance : AccountId -> option DateTime -> S -> result BalanceSnapshot StoreError * S;
  store_asset : AssetId -> S -> result (option AssetDef) StoreError * S;
  store_account_history : AccountId -> option Seq -> Z -> S -> result (list PostingRecord) StoreError * S;
  store_transaction : TxId -> S -> result (option StoredTransaction) StoreError * S;
  store_trial_balance : Book -> option DateTime -> S -> result (list TrialBalanceRow) StoreError * S
}.

(** Texts of the [uuid] and [serde_json] crates and of [Debug for str]. *)
Class Texts := {
  uuid_to_string : Uuid -> string;
  uuid_parse : string -> result Uuid string;
  debug_str : string -> string;
  event_to_value : LedgerEvent -> result JsonValue string
}.

(** ** Drafts *)

Definition invalid (field reason : string) : ApiError := Api_InvalidDraft field reason.

Definition parse_book_lax (name : string) : ApiResult Book :=
  if String.eqb name "" then Err (invalid "book" "must not be empty") else Ok name.

Definition parse_book (name : string) : ApiResult Book :=
  let? book := parse_book_lax name in
  if is_reserved book then Err (invalid "book" "names starting with '_' are reserved") else Ok book.

Definition parse_asset_draft (draft : AssetDraft) : ApiResult AssetDef :=
  if String.eqb (ad_id draft) "" then Err (invalid "id" "must not be empty")
  else
    let? class :=
      if String.eqb (ad_class draft) "fiat" then
        match ad_network draft, ad_native_id draft with
        | None, None => Ok Fiat
        | _, _ => Err (invalid "network" "fiat assets have no network or native_id")
        end
      else if String.eqb (ad_class draft) "crypto" then
        let? network := ok_or (ad_network draft) (invalid "network" "crypto assets require a network") in
        Ok (Crypto network (ad_native_id draft))
      else Err (invalid "class" ("unknown asset class '" +:+ ad_class draft +:+ "' (expected 'fiat' or 'crypto')")) in
    Ok (mkAssetDef (ad_id draft) class (ad_precision draft) (ad_name draft)).

Definition parse_account_draft (draft : AccountDraft) : ApiResult (AccountDef * AccountCfg) :=
  let? book := parse_book (ac_book draft) in
  if String.eqb (ac_path draft) "" then Err (invalid "path" "must not be empty")
  else
    let? kind := ok_or (AccountKind_from_db (ac_kind draft)) (invalid "kind" ("unknown account kind '" +:+ ac_kind draft +:+ "'")) in
    Ok (mkAccountDef (mkAccountId book (ac_path draft)) (ac_asset draft) kind,
        mkAccountCfg (ac_normal_side draft) (ac_min_balance draft)).

(** [side.checked_add(minor)] on the posting's side of its asset's totals. *)
Definition add_total (totals : gmap string (Z * Z)) (p : PostingDraft) : option (gmap string (Z * Z)) :=
  let '(d, c) := default (0, 0) (totals !! wa_asset (pd_amount p)) in
  match pd_direction p with
  | Debit => (fun d' => <[wa_asset (pd_amount p) := (d', c)]> totals) <$> checked_add d (wa_minor (pd_amount p))
  | Credit => (fun c' => <[wa_asset (pd_amount p) := (d, c')]> totals) <$> checked_add c (wa_minor (pd_amount p))
  end.

Definition to_posting (book : Book) (p : PostingDraft) : Posting :=
  mkPosting (mkAccountId book (pd_account p)) (Amount_new (wa_minor (pd_amount p)) (wa_asset (pd_amount p))) (pd_direction p).

(** [post]'s loop over the postings of a draft. *)
Fixpoint parse_postings (book : Book) (drafts : list PostingDraft) (postings : list Posting) (totals : gmap string (Z * Z)) :
    ApiResult (list Posting * gmap string (Z * Z)) :=
  match drafts with
  | [] => Ok (postings, totals)
  | p :: drafts =>
      if wa_minor (pd_amount p) <=? 0 then Err (Api_InvalidAmount (wa_minor (pd_amount p)))
      else if String.eqb (pd_account p) "" then Err (invalid "postings.account" "must not be empty")
      else match add_total totals p with
           | None => Err (Api_InvalidAmount (wa_minor (pd_amount p)))
           | Some totals => parse_postings book drafts (postings ++ [to_posting book p]) totals
           end
  end.

Fixpoint check_balanced (totals : list (string * (Z * Z))) : ApiResult unit :=
  match totals with
  | [] => Ok ()
  | (asset, (debit, credit)) :: totals =>
      if negb (debit =? credit) then Err (Api_Unbalanced asset debit credit) else check_balanced totals
  end.

(** [post] up to its submission. *)
Definition build_transaction `{HashIter} (id : TxId) (now : DateTime) (draft : TransactionDraft) : ApiResult Transaction :=
  let? book := parse_book (td_book draft) in
  if String.eqb (td_idempotency_key draft) "" then Err (invalid "idempotency_key" "must not be empty")
  else match td_postings draft with
  | [] => Err (invalid "postings" "must not be empty")
  | drafts =>
      let? (postings, totals) := parse_postings book drafts [] ∅ in
      let? _ := check_balanced (hash_iter totals) in
      Ok (mkTransaction id book postings (td_idempotency_key draft) (td_external_refs draft) (td_metadata draft)
            (default now (td_occurred_at draft)))
  end.

(** What the write router gives a submitter (write_router.rs). *)
Inductive SubmitError := Overloaded | CommitterGone | StoreErr (e : StoreError).

#[export] Instance SubmitError_eq_dec : EqDecision SubmitError.
Proof. solve_decision. Defined.

Definition map_store_err `{Texts} (e : StoreError) : ApiError :=
  match e with
  | ConstraintViolation account min_balance would_be => Api_ConstraintViolation (to_key account) min_balance would_be
  | UnknownAccount a => Api_UnknownAccount (to_key a)
  | UnknownAsset a => Api_UnknownAsset a
  | AssetMismatch account account_asset asset => Api_AssetMismatch (to_key account) account_asset asset
  | AlreadyExists what => Api_AlreadyExists what
  | InvalidBook b => invalid "book" ("book " +:+ debug_str b +:+ " is reserved")
  | Saturated => Api_Overloaded
  | Io _ => Api_Internal "storage backend error"
  end.

(** The page size a request gets: [(limit as usize).clamp(1, 1000)]. *)
Definition clamp_limit (limit : Z) : Z := Z.max 1 (Z.min limit 1000).

Section service.
Context {S : Type} `{Store S} `{HashIter} `{Texts}.

Definition api_call {A B} (r : result A StoreError * S) (k : A -> ApiResult B) : ApiResult B * S :=
  match r with
  | (Ok a, s) => (k a, s)
  | (Err e, s) => (Err (map_store_err e), s)
  end.

Definition register_asset (draft : AssetDraft) (s : S) : ApiResult unit * S :=
  match parse_asset_draft draft with
  | Err e => (Err e, s)
  | Ok def => api_call (store_register_asset def s) Ok
  end.

Definition open_account (draft : AccountDraft) (s : S) : ApiResult unit * S :=
  match parse_account_draft draft with
  | Err e => (Err e, s)
  | Ok (def, cfg) => api_call (store_open_account def cfg s) Ok
  end.

(** One transaction through the router, alone in its batch. *)
Definition submit_alone (tx : Transaction) (s : S) : result Committed SubmitError * S :=
  match store_commit_batch [tx] s with
  | (r :: _, s') => (map_err StoreErr r, s')
  | ([], s') => (Err CommitterGone, s')
  end.

Definition posted_of (id : TxId) (r : result Committed SubmitError) : ApiResult Posted :=
  match r with
  | Ok committed =>
      Ok (mkPosted (uuid_to_string (c_txid committed)) (c_seq committed) (c_at committed) (negb (c_txid committed =? id)))
  | Err Overloaded => Err Api_Overloaded
  | Err CommitterGone => Err (Api_Internal "commit outcome unknown; retry with the same idempotency key")
  | Err (StoreErr e) => Err (map_store_err e)
  end.

Definition post (submit : Transaction -> S -> result Committed SubmitError * S) (id : TxId) (now : DateTime)
    (draft : TransactionDraft) (s : S) : ApiResult Posted * S :=
  match build_transaction id now draft with
  | Err e => (Err e, s)
  | Ok tx => let '(r, s') := submit tx s in (posted_of id r, s')
  end.

(** [join_all] of the posts of a batch's drafts: the accepted ones reach the
    router in their order and each post has the answer to its own job.  A job
    without an answer lost its committer. *)
Fixpoint post_answers (built : list (ApiResult Transaction)) (answers : list (result Committed SubmitError)) : list (ApiResult Posted) :=
  match built with
  | [] => []
  | Err e :: built => Err e :: post_answers built answers
  | Ok tx :: built =>
      posted_of (tx_id tx) (default (Err CommitterGone) (head answers)) :: post_answers built (tail answers)
  end.

Definition post_batch (submit_all : list Transaction -> S -> list (result Committed SubmitError) * S)
    (stamp : nat -> TxId * DateTime) (drafts : list TransactionDraft) (s : S) : list (ApiResult Posted) * S :=
  let built := imap (fun i draft => build_transaction (stamp i).1 (stamp i).2 draft) drafts in
  let '(answers, s') := submit_all (omap (fun r => match r with Ok tx => Some tx | Err _ => None end) built) s in
  (post_answers built answers, s').

Definition balance (book path : string) (as_of : option DateTime) (s : S) : ApiResult BalanceView * S :=
  match parse_book_lax book with
  | Err e => (Err e, s)
  | Ok b =>
      let account := mkAccountId b path in
      match store_balance account as_of s with
      | (Err e, s1) => (Err (map_store_err e), s1)
      | (Ok snapshot, s1) =>
          api_call (store_asset (amount_asset (bs_amount snapshot)) s1) (fun o =>
            let? def := ok_or o (Api_Internal "ledger inconsistency") in
            Ok (mkBalanceView (to_key account) (asset_id def)
                  (format_minor (minor (bs_amount snapshot)) (Z.to_nat (asset_precision def))) as_of (bs_updated_seq snapshot)))
      end
  end.

Definition posting_view (r : PostingRecord) : PostingView :=
  mkPostingView (pr_seq r) (uuid_to_string (pr_txid r)) (to_key (pr_account r))
    (mkWireAmount (minor (pr_amount r)) (amount_asset (pr_amount r))) (pr_direction r) (pr_at r).

Definition account_history (book path : string) (page : Page) (s : S) : ApiResult (Paged PostingView) * S :=
  match parse_book_lax book with
  | Err e => (Err e, s)
  | Ok b =>
      let limit := clamp_limit (pg_limit page) in
      api_call (store_account_history (mkAccountId b path) (pg_after_seq page) limit s) (fun records =>
        let nxt := if Z.of_nat (length records) <? limit then None else pr_seq <$> last records in
        Ok (mkPaged (map posting_view records) nxt))
  end.

Definition transaction_view (stored : StoredTransaction) : TransactionView :=
  let t := st_transaction stored in
  mkTransactionView (uuid_to_string (tx_id t)) (tx_book t) (st_seq stored) (st_at stored)
    (map (fun p => mkPostingView (st_seq stored) (uuid_to_string (tx_id t)) (to_key (p_account p))
                     (mkWireAmount (minor (p_amount p)) (amount_asset (p_amount p))) (p_direction p) (st_at stored))
         (tx_postings t))
    (tx_external_refs t) (tx_metadata t).

Definition transaction (txid : string) (s : S) : ApiResult TransactionView * S :=
  match uuid_parse txid with
  | Err e => (Err (invalid "tx_id" ("not a uuid: " +:+ e)), s)
  | Ok id =>
      api_call (store_transaction id s) (fun o =>
        let? stored := ok_or o (Api_NotFound ("transaction " +:+ txid)) in Ok (transaction_view stored))
  end.

Definition trial_balance (book : string) (as_of : option DateTime) (s : S) : ApiResult TrialBalance * S :=
  match parse_book_lax book with
  | Err e => (Err e, s)
  | Ok b =>
      api_call (store_trial_balance b as_of s) (fun rows =>
        Ok (mkTrialBalance b as_of (map (fun r => mkTrialBalanceLine (tb_asset r) (tb_debits r) (tb_credits r)) rows)))
  end.

(** [subscribe]'s envelope of an event, and the fuse over the stream. *)
Definition envelope (item : result (Sequenced LedgerEvent) StoreError) : ApiResult EventEnvelope :=
  let? s := map_err map_store_err item in
  match event_to_value (s_event s) with
  | Ok payload => Ok (mkEventEnvelope (s_seq s) (s_at s) (LedgerEvent_kind (s_event s)) payload)
  | Err _ => Err (Api_Internal "event serialization failed")
  end.
End service.

(** [scan(false, ...)]: the stream ends after its first error. *)
Fixpoint fuse {A E} (errored : bool) (l : list (result A E)) : list (result A E) :=
  match l with
  | [] => []
  | item :: l => if errored then [] else item :: fuse (negb (is_ok item)) l
  end.

Definition subscribe `{Texts} (book : string) (stream : list (result (Sequenced LedgerEvent) StoreError)) :
    ApiResult (list (ApiResult EventEnvelope)) :=
  let? _ := parse_book_lax book in Ok (fuse false (map envelope stream)).
