(* ===== verification/ServiceSpec.v ===== *)
(** What the ledger service accepts and returns (talea-service/src/service.rs),
    over any store that keeps the [Store] trait's promises. *)

From S2P Require Import Prelude Decimal Assoc Core Bloom Disk PostingIndex Idem BookState Api Service.
From stdpp Require Import sorting.
Open Scope Z_scope.

(** ** Drafts that [post] accepts *)

Definition side_total (d : Direction) (a : string) (ps : list PostingDraft) : Z :=
  foldr Z.add 0 (map (fun p => if bool_decide (pd_direction p = d /\ wa_asset (pd_amount p) = a) then wa_minor (pd_amount p) else 0) ps).

Record draft_ok (draft : TransactionDraft) : Prop := {
  do_book : td_book draft <> EmptyString;
  do_unreserved : is_reserved (td_book draft) = false;
  do_key : td_idempotency_key draft <> EmptyString;
  do_some : td_postings draft <> [];
  do_postings : Forall (fun p => 0 < wa_minor (pd_amount p) /\ pd_account p <> EmptyString) (td_postings draft);
  do_range : forall d a, side_total d a (td_postings draft) <= i64_max;
  do_balanced : forall a, side_total Debit a (td_postings draft) = side_total Credit a (td_postings draft)
}.

Lemma side_total_app d a l r : side_total d a (l ++ r) = side_total d a l + side_total d a r.
Proof. unfold side_total. rewrite map_app. induction l as [|x l IH]; cbn; [done|]. cbn in IH. lia. Qed.

Lemma side_total_nonneg d a ps : Forall (fun p => 0 < wa_minor (pd_amount p)) ps -> 0 <= side_total d a ps.
Proof. unfold side_total. induction 1; cbn; [done|]. case_match; lia. Qed.

(** The totals after a list of postings. *)
Definition totals_of (m : gmap string (Z * Z)) (ps : list PostingDraft) : Prop :=
  (forall a, default (0, 0) (m !! a) = (side_total Debit a ps, side_total Credit a ps)) /\
  (forall a, is_Some (m !! a) <-> a ∈ map (fun p => wa_asset (pd_amount p)) ps).

Lemma add_total_spec m ps p :
  totals_of m ps -> Forall (fun p => 0 < wa_minor (pd_amount p)) (ps ++ [p]) ->
  match add_total m p with
  | Some m' => totals_of m' (ps ++ [p]) /\ side_total (pd_direction p) (wa_asset (pd_amount p)) (ps ++ [p]) <= i64_max
  | None => i64_max < side_total (pd_direction p) (wa_asset (pd_amount p)) (ps ++ [p])
  end.
Proof.
  intros [Ht Hk] [Hpos Hp]%Forall_app. apply Forall_cons_1 in Hp as [Hp _]. unfold add_total. rewrite Ht.
  set (a0 := wa_asset (pd_amount p)) in *. set (mi := wa_minor (pd_amount p)) in *.
  assert (forall d a, side_total d a (ps ++ [p]) = side_total d a ps + if bool_decide (pd_direction p = d /\ a0 = a) then mi else 0) as Hs.
  { intros d a. rewrite side_total_app. unfold side_total at 2. cbn. fold a0 mi. lia. }
  pose proof (side_total_nonneg (pd_direction p) a0 ps Hpos) as Hnn.
  assert (forall v, totals_of m ps -> v = (side_total Debit a0 (ps ++ [p]), side_total Credit a0 (ps ++ [p])) ->
    totals_of (<[a0 := v]> m) (ps ++ [p])) as Hins.
  { intros v _ ->. split.
    - intros a. destruct (decide (a = a0)) as [->|Hne]; [by rewrite lookup_insert_eq|].
      rewrite lookup_insert_ne, Ht by done. rewrite !Hs, !bool_decide_false by naive_solver. f_equal; lia.
    - intros a. rewrite map_app, elem_of_app, <- Hk. cbn. fold a0. rewrite list_elem_of_singleton.
      destruct (decide (a = a0)) as [->|Hne]; [rewrite lookup_insert_eq; naive_solver|].
      rewrite lookup_insert_ne by done. naive_solver. }
  assert (side_total (pd_direction p) a0 (ps ++ [p]) = side_total (pd_direction p) a0 ps + mi) as Hsame
    by (rewrite Hs, bool_decide_true; done).
  assert (forall d, d <> pd_direction p -> side_total d a0 (ps ++ [p]) = side_total d a0 ps) as Hother
    by (intros d Hd; rewrite Hs, bool_decide_false by naive_solver; lia).
  rewrite Hsame. destruct (pd_direction p) eqn:Ed; [rewrite <- (Hother Credit) by done|rewrite <- (Hother Debit) by done];
    unfold checked_add; destruct (checked_i64 _) as [z|] eqn:Ec; cbn.
  1,3: apply checked_i64_Some in Ec as [-> Hr]; split; [apply Hins; [done|]; by rewrite Hsame|lia].
  all: apply checked_i64_None in Ec; unfold i64_min, i64_max in *; lia.
Qed.

Lemma parse_postings_spec book pre ps m :
  totals_of m pre -> Forall (fun p => 0 < wa_minor (pd_amount p)) pre ->
  (forall d a, side_total d a pre <= i64_max) ->
  match parse_postings book ps (map (to_posting book) pre) m with
  | Ok (postings, m') =>
      postings = map (to_posting book) (pre ++ ps) /\ totals_of m' (pre ++ ps) /\
      Forall (fun p => 0 < wa_minor (pd_amount p) /\ pd_account p <> EmptyString) ps /\
      (forall d a, side_total d a (pre ++ ps) <= i64_max)
  | Err _ =>
      ~ (Forall (fun p => 0 < wa_minor (pd_amount p) /\ pd_account p <> EmptyString) ps /\
         (forall d a, side_total d a (pre ++ ps) <= i64_max))
  end.
Proof.
  revert pre m. induction ps as [|p ps IH]; intros pre m Ht Hpos Hr; cbn [parse_postings].
  { rewrite app_nil_r. by split_and!. }
  destruct (Z.leb_spec (wa_minor (pd_amount p)) 0) as [Hm|Hm]; [intros [[? _]%Forall_cons_1 _]; lia|].
  destruct (String.eqb_spec (pd_account p) "") as [Ha|Ha]; [intros [[[_ ?] _]%Forall_cons_1 _]; done|].
  assert (Forall (fun p => 0 < wa_minor (pd_amount p)) (pre ++ [p])) as Hpos' by (apply Forall_app; by repeat constructor).
  pose proof (add_total_spec m pre p Ht Hpos') as Hadd. destruct (add_total m p) as [m'|].
  - destruct Hadd as [Ht' Hle]. specialize (IH (pre ++ [p]) m' Ht' Hpos').
    replace (map (to_posting book) pre ++ [to_posting book p]) with (map (to_posting book) (pre ++ [p])) by (by rewrite map_app).
    rewrite <- app_assoc in IH. cbn [app] in IH.
    assert (forall d a, side_total d a (pre ++ [p]) <= i64_max) as Hr'.
    { intros d a. destruct (decide (pd_direction p = d /\ wa_asset (pd_amount p) = a)) as [[<- <-]|Hne]; [done|].
      rewrite side_total_app. unfold side_total at 2. cbn. rewrite bool_decide_false by done. specialize (Hr d a). lia. }
    specialize (IH Hr'). destruct (parse_postings book ps _ m') as [[postings m'']|e].
    + destruct IH as (? & ? & Hf & ?). split_and!; try done. by constructor.
    + intros [[_ Hf]%Forall_cons_1 ?]. by apply IH.
  - intros [Hf Hrange]. specialize (Hrange (pd_direction p) (wa_asset (pd_amount p))).
    apply Forall_cons_1 in Hf as [_ Hf].
    change (p :: ps) with ([p] ++ ps) in Hrange. rewrite app_assoc, side_total_app in Hrange.
    assert (Forall (fun p => 0 < wa_minor (pd_amount p)) ps) as Hps by (eapply Forall_impl; [exact Hf|]; cbn; tauto).
    pose proof (side_total_nonneg (pd_direction p) (wa_asset (pd_amount p)) ps Hps). lia.
Qed.

Lemma check_balanced_ok l : check_balanced l = Ok () <-> Forall (fun t => t.2.1 = t.2.2) l.
Proof.
  induction l as [|[a [d c]] l IH]; cbn; [done|]. rewrite Forall_cons. cbn. destruct (Z.eqb_spec d c); cbn; [tauto|naive_solver].
Qed.

Lemma totals_of_nil : totals_of ∅ [].
Proof. split; intros a; rewrite lookup_empty; [done|]. split; [by intros []|by intros ?%elem_of_nil]. Qed.

Lemma side_total_absent d a ps : a ∉ map (fun p => wa_asset (pd_amount p)) ps -> side_total d a ps = 0.
Proof.
  induction ps as [|p ps IH]; intros Hn; [done|]. cbn in Hn. apply not_elem_of_cons in Hn as [Hne Hn]. unfold side_total in *. cbn.
  rewrite bool_decide_false by naive_solver. by rewrite IH.
Qed.

Section accepts.
Context `{HashIterLaws}.

Lemma totals_balanced m ps :
  totals_of m ps ->
  check_balanced (hash_iter m) = Ok () <-> forall a, side_total Debit a ps = side_total Credit a ps.
Proof.
  intros [Ht Hk]. rewrite check_balanced_ok, Forall_forall. split.
  - intros Hf a. specialize (Ht a). destruct (m !! a) as [v|] eqn:E; cbn in Ht.
    + specialize (Hf (a, v)). rewrite elem_of_hash_iter in Hf. specialize (Hf E). rewrite Ht in Hf. done.
    + assert (a ∉ map (fun p => wa_asset (pd_amount p)) ps) by (rewrite <- Hk, E; by intros []). by rewrite !side_total_absent.
  - intros Hb [a v] Hin. apply elem_of_hash_iter in Hin. specialize (Ht a). rewrite Hin in Ht. cbn in Ht |- *. rewrite Ht. apply Hb.
Qed.

Lemma parse_book_ok name b : parse_book name = Ok b <-> b = name /\ name <> EmptyString /\ is_reserved name = false.
Proof.
  unfold parse_book, parse_book_lax. destruct (String.eqb_spec name ""); cbn; [naive_solver|].
  destruct (is_reserved name); naive_solver.
Qed.

Lemma build_transaction_ok (id : TxId) (now : DateTime) (draft : TransactionDraft) (tx : Transaction) :
  build_transaction id now draft = Ok tx <->
  draft_ok draft /\
  tx = mkTransaction id (td_book draft) (map (to_posting (td_book draft)) (td_postings draft)) (td_idempotency_key draft)
         (td_external_refs draft) (td_metadata draft) (default now (td_occurred_at draft)).
Proof.
  unfold build_transaction. destruct (parse_book (td_book draft)) as [b|e] eqn:Eb; cycle 1.
  { split; [done|]. intros [[Hb Hu _ _ _ _ _] _].
    assert (parse_book (td_book draft) = Ok (td_book draft)) by (by apply parse_book_ok). congruence. }
  apply parse_book_ok in Eb as (-> & Hb & Hu).
  destruct (String.eqb_spec (td_idempotency_key draft) "") as [Hkey|Hkey]; [split; [done|]; by intros [[] _]|].
  destruct (td_postings draft) as [|p0 ps0] eqn:Eps; [split; [done|]; intros [[] _]; by rewrite Eps in *|]. rewrite <- Eps.
  pose proof (parse_postings_spec (td_book draft) [] (td_postings draft) ∅ totals_of_nil ltac:(constructor) ltac:(done)) as Hpp.
  cbn [map app] in Hpp. destruct (parse_postings _ _ _ _) as [[postings m]|e]; cycle 1.
  { split; [done|]. intros [[_ _ _ _ Hf Hr _] _]. by destruct Hpp. }
  destruct Hpp as (-> & Ht & Hf & Hr). pose proof (totals_balanced m _ Ht) as Hbal.
  destruct (check_balanced (hash_iter m)) as [[]|e] eqn:Ec.
  - split; [intros [= <-]|by intros [_ ->]]. split; [|done]. split; try done; [by rewrite Eps|]. by apply Hbal.
  - split; [done|]. intros [[_ _ _ _ _ _ Hd] _]. apply Hbal in Hd. done.
Qed.

Lemma posting_deltas book ps a :
  asset_delta a (map (to_posting book) ps) = side_total Debit a ps - side_total Credit a ps.
Proof.
  induction ps as [|p ps IH]; [done|]. cbn [map asset_delta]. rewrite IH. unfold side_total, to_posting, posting_signed, signed. cbn.
  destruct (pd_direction p); destruct (decide (wa_asset (pd_amount p) = a)) as [Ha|Ha];
    rewrite ?(bool_decide_true _ Ha), ?(bool_decide_false _ Ha); repeat case_bool_decide; naive_solver lia.
Qed.
(** C31: [post] accepts exactly the well-formed balanced drafts: a non-empty,
    unreserved book, a key, at least one posting, positive amounts on named
    accounts, debits equal to credits in every asset and no side above the
    range of [i64].  The transaction it builds has the draft's postings in
    their order, in the draft's book, and moves no money into or out of any
    asset. *)
Theorem post_accepts_exactly (id : TxId) (now : DateTime) (draft : TransactionDraft) (tx : Transaction) :
  (build_transaction id now draft = Ok tx <->
   draft_ok draft /\
   tx = mkTransaction id (td_book draft) (map (to_posting (td_book draft)) (td_postings draft)) (td_idempotency_key draft)
          (td_external_refs draft) (td_metadata draft) (default now (td_occurred_at draft))) /\
  (build_transaction id now draft = Ok tx -> balanced (tx_postings tx)).
Proof.
  split; [apply build_transaction_ok|]. intros [Hd ->]%build_transaction_ok a. cbn. rewrite posting_deltas, (do_balanced _ Hd). lia.
Qed.
End accepts.

(** ** Pages of a history *)

(** What the store promises of [account_history] (store.rs): the postings after
    the cursor in order, at least [limit] of them when some are left out, and no
    transaction split between pages.  [store_ok] are the states it serves. *)
Class StoreHistory (S : Type) `{Store S} := {
  store_ok : S -> Prop;
  history_of : S -> AccountId -> option (list PostingRecord);
  history_positive s a l : store_ok s -> history_of s a = Some l -> Forall (fun r => 0 < pr_seq r) l;
  history_ordered s a l : store_ok s -> history_of s a = Some l ->
    StronglySorted (fun x y => pr_seq x <= pr_seq y) l;
  history_page s a l after limit : store_ok s -> history_of s a = Some l -> 0 < limit ->
    exists page rest, store_account_history a after limit s = (Ok page, s) /\
      filter (fun r => default 0 after < pr_seq r) l = page ++ rest /\
      (rest <> [] -> limit <= Z.of_nat (length page)) /\
      (forall x y, x ∈ page -> y ∈ rest -> pr_seq x < pr_seq y)
}.

Lemma sorted_filter {A} (R : A -> A -> Prop) (P : A -> Prop) `{!forall x, Decision (P x)} (l : list A) :
  StronglySorted R l -> StronglySorted R (filter P l).
Proof.
  induction 1 as [|x l Hs IH Hf]; [constructor|]. rewrite filter_cons. case_decide; [|done]. constructor; [done|].
  rewrite Forall_forall in *. intros y [_ Hy]%list_elem_of_filter. by apply Hf.
Qed.

Section pages.
Context {S : Type} `{Store S} `{!StoreHistory S} `{Texts}.

(** A reader that follows the cursors of the pages. *)
Fixpoint all_pages (fuel : nat) (book path : string) (limit : Z) (after : option Seq) (s : S) : ApiResult (list PostingView) * S :=
  match account_history book path (mkPage after limit) s with
  | (Err e, s1) => (Err e, s1)
  | (Ok page, s1) =>
      match next page, fuel with
      | Some cursor, Datatypes.S fuel =>
          match all_pages fuel book path limit (Some cursor) s1 with
          | (Ok rest, s2) => (Ok (items page ++ rest), s2)
          | (Err e, s2) => (Err e, s2)
          end
      | _, _ => (Ok (items page), s1)
      end
  end.

Lemma filter_past (l page rest : list PostingRecord) (after : Z) (r : PostingRecord) :
  StronglySorted (fun x y => pr_seq x <= pr_seq y) l ->
  filter (fun r => after < pr_seq r) l = page ++ rest -> last page = Some r ->
  (forall x y, x ∈ page -> y ∈ rest -> pr_seq x < pr_seq y) ->
  filter (fun x => pr_seq r < pr_seq x) l = rest.
Proof.
  intros Ho Hf Hl Hlt. apply last_Some in Hl as [pre ->].
  assert (after < pr_seq r) as Har.
  { assert (r ∈ filter (fun r => after < pr_seq r) l) as Hin by (rewrite Hf; set_solver). by apply list_elem_of_filter in Hin as [? _]. }
  assert (filter (fun x => pr_seq r < pr_seq x) l = filter (fun x => pr_seq r < pr_seq x) (filter (fun r => after < pr_seq r) l)) as ->.
  { rewrite list_filter_filter. apply list_filter_iff. intros x. lia. }
  assert (StronglySorted (fun x y => pr_seq x <= pr_seq y) (pre ++ [r] ++ rest)) as Hss
    by (rewrite app_assoc, <- Hf; by apply sorted_filter).
  rewrite Hf, filter_app. rewrite filter_none, filter_all; [done| |].
  - apply Forall_forall. intros y Hy. apply (Hlt r y); [set_solver|done].
  - apply Forall_forall. intros x Hx. apply elem_of_app in Hx as [Hx| ->%list_elem_of_singleton]; [|lia].
    pose proof (StronglySorted_app_1_elem_of _ _ _ x r Hss Hx ltac:(set_solver)). cbn in *. lia.
Qed.

Lemma all_pages_from (fuel : nat) book path limit (after : option Seq) s l :
  store_ok s -> history_of s (mkAccountId book path) = Some l -> book <> EmptyString ->
  lt (length (filter (fun r => default 0 after < pr_seq r) l)) fuel ->
  all_pages fuel book path limit after s = (Ok (map posting_view (filter (fun r => default 0 after < pr_seq r) l)), s).
Proof.
  intros Hok Hl Hb. revert after. induction fuel as [|fuel IH]; intros after Hfuel; [lia|]. cbn [all_pages].
  unfold account_history, parse_book_lax. rewrite (proj2 (String.eqb_neq book "") Hb). cbn [pg_limit pg_after_seq].
  assert (0 < clamp_limit limit) as Hlim by (unfold clamp_limit; lia).
  destruct (history_page s _ l after (clamp_limit limit) Hok Hl Hlim) as (page & rest & -> & Hf & Hrest & Hlt). cbn [api_call next items].
  destruct (Z.ltb_spec (Z.of_nat (length page)) (clamp_limit limit)) as [Hs|Hs].
  { destruct rest as [|r rest]; [by rewrite Hf, app_nil_r|]. specialize (Hrest ltac:(done)). lia. }
  destruct (last page) as [r|] eqn:Er; [|apply last_None in Er; subst; cbn in Hs; lia]. cbn [fmap option_fmap option_map].
  assert (filter (fun x => pr_seq r < pr_seq x) l = rest) as Hpast
    by (eapply filter_past; [by eapply history_ordered|exact Hf|done|done]).
  rewrite Hf, length_app in Hfuel.
  assert (0 < length page)%nat by (destruct page; [done|cbn; lia]).
  rewrite (IH (Some (pr_seq r))); cbn [default option_rect from_option id]; rewrite Hpast; [|lia]. by rewrite Hf, map_app.
Qed.

(** C32: following the cursors of an account's history reads all of it, in order
    and each posting once, whatever page size is asked for, in at most one
    page more than there are postings. *)
Theorem history_pagination_complete (fuel : nat) (book path : string) (limit : Z) (s : S) (l : list PostingRecord) :
  store_ok s -> history_of s (mkAccountId book path) = Some l -> book <> EmptyString -> (length l < fuel)%nat ->
  all_pages fuel book path limit None s = (Ok (map posting_view l), s).
Proof.
  intros Hok Hl Hb Hfuel.
  assert (filter (fun r => default 0 (@None Z) < pr_seq r) l = l) as Hall by (apply filter_all, (history_positive s _ l Hok Hl)).
  rewrite (all_pages_from fuel book path limit None s l); [by rewrite Hall|done..|by rewrite Hall].
Qed.
End pages.

(** ** Streams *)

Section streams.
Context `{Texts}.

(** The service's event stream is the store's, one envelope per event in
    order, up to and with the first error, and nothing after it. *)
Theorem subscribe_fused (book : string) (stream : list (result (Sequenced LedgerEvent) StoreError)) :
  book <> EmptyString ->
  exists l, subscribe book stream = Ok l /\ l `prefix_of` map envelope stream /\
    (forall i e, l !! i = Some (Err e) -> S i = length l) /\
    (length l < length stream -> exists e, last l = Some (Err e))%nat.
Proof.
  intros Hb. unfold subscribe, parse_book_lax. rewrite (proj2 (String.eqb_neq book "") Hb). eexists. split; [done|].
  rewrite <- (length_map envelope stream). generalize (map envelope stream) as ms. clear Hb stream.
  induction ms as [|m ms (Hp & He & Hl)]; cbn [fuse]; [split_and!; [done|by intros i e ?|cbn; lia]|].
  destruct m as [v|e]; cbn [is_ok negb].
  - split_and!; [by apply prefix_cons| |].
    + intros [|i] e Hi; cbn in Hi |- *; [done|]. f_equal. by eapply He.
    + cbn. intros Hlen. destruct Hl as [e Hlast]; [lia|]. exists e. rewrite last_cons, Hlast. done.
  - assert (fuse true ms = []) as -> by (by destruct ms). split_and!.
    + apply prefix_cons, prefix_nil.
    + intros [|i] e' Hi; [done|]. by destruct i.
    + intros _. by exists e.
Qed.
End streams.

(** ** Examples *)

Section service_demo.
#[local] Existing Instance some_hash_iter.
#[local] Existing Instance some_hash_iter_laws.

#[local] Instance plain_texts : Texts := {|
  uuid_to_string := u64_to_string;
  uuid_parse := fun s => ok_or (parse_u64 s) "invalid character"%string;
  debug_str := fun s => s;
  event_to_value := fun e => Ok (LedgerEvent_kind e)
|}.

Definition sale_draft : TransactionDraft :=
  mkTransactionDraft "shop" "order-1"
    [mkPostingDraft "cash" (mkWireAmount 50 "USD") Debit; mkPostingDraft "sales" (mkWireAmount 50 "USD") Credit] [] "null" None.

Definition sale_built : Transaction :=
  mkTransaction 7 "shop"
    [mkPosting (mkAccountId "shop" "cash") (mkAmount 50 "USD") Debit; mkPosting (mkAccountId "shop" "sales") (mkAmount 50 "USD") Credit]
    "order-1" [] "null" 1000.

Lemma post_accepts_exactly_witness :
  build_transaction 7 1000 sale_draft = Ok sale_built /\ draft_ok sale_draft /\ balanced (tx_postings sale_built).
Proof.
  destruct (post_accepts_exactly 7 1000 sale_draft sale_built) as [Hiff Hbal].
  assert (build_transaction 7 1000 sale_draft = Ok sale_built) as Hb by (vm_compute; reflexivity).
  split; [exact Hb|]. split; [exact (proj1 (proj1 Hiff Hb))|exact (Hbal Hb)].
Defined.

Definition demo_stream : list (result (Sequenced LedgerEvent) StoreError) :=
  [Ok (mkSequenced 1 1000 (TransactionPosted sale_built)); Err (Io "disk"); Ok (mkSequenced 2 1000 (TransactionPosted sale_built))].

Lemma subscribe_fused_witness :
  exists l, subscribe "shop" demo_stream = Ok l /\ l `prefix_of` map envelope demo_stream /\
    (forall i e, l !! i = Some (Err e) -> S i = length l) /\
    (length l < length demo_stream -> exists e, last l = Some (Err e))%nat.
Proof. apply (subscribe_fused "shop" demo_stream). discriminate. Defined.
End service_demo.
