(* ===== verification/LedgerApi.v ===== *)
(** The ledger's contract, the trait [LedgerApi] of talea-core/src/api/mod.rs: its
    operations, code written against it, and the service as its implementation
    (talea-service/src/service.rs).  Subscriptions are streams of their own
    (Http.v, ClientSpec.v). *)

From S2P Require Import Prelude Decimal Core Api Service.
Open Scope Z_scope.

(** ** The trait *)

Inductive ApiOp :=
| Op_register_asset (draft : AssetDraft)
| Op_open_account (draft : AccountDraft)
| Op_post (draft : TransactionDraft)
| Op_post_batch (drafts : list TransactionDraft)
| Op_balance (book path : string) (as_of : option DateTime)
| Op_account_history (book path : string) (page : Page)
| Op_transaction (txid : string)
| Op_trial_balance (book : string) (as_of : option DateTime).

Definition answer (op : ApiOp) : Type :=
  match op with
  | Op_register_asset _ | Op_open_account _ => ApiResult unit
  | Op_post _ => ApiResult Posted
  | Op_post_batch _ => list (ApiResult Posted)
  | Op_balance _ _ _ => ApiResult BalanceView
  | Op_account_history _ _ _ => ApiResult (Paged PostingView)
  | Op_transaction _ => ApiResult TransactionView
  | Op_trial_balance _ _ => ApiResult TrialBalance
  end.

(** Code against a [&dyn LedgerApi]: it calls an operation and goes on with the
    answer. *)
Inductive LedgerCode (R : Type) : Type :=
| Return (r : R)
| Ask (op : ApiOp) (k : answer op -> LedgerCode R).
Arguments Return {R} r.
Arguments Ask {R} op k.

Fixpoint and_then {A B} (c : LedgerCode A) (k : A -> LedgerCode B) : LedgerCode B :=
  match c with
  | Return a => k a
  | Ask op c' => Ask op (fun a => and_then (c' a) k)
  end.

Definition ask (op : ApiOp) : LedgerCode (answer op) := Ask op Return.

(** An implementation on a state of its own; none is an operation that does not
    come to an end. *)
Definition Implementation (W : Type) : Type := forall op, W -> option (answer op * W).

Fixpoint run {W R} (api : Implementation W) (c : LedgerCode R) (w : W) : option (R * W) :=
  match c with
  | Return r => Some (r, w)
  | Ask op k => '(a, w') ← api op w; run api (k a) w'
  end.

Lemma run_and_then {W A B} (api : Implementation W) (c : LedgerCode A) (k : A -> LedgerCode B) w :
  run api (and_then c k) w = '(a, w') ← run api c w; run api (k a) w'.
Proof.
  revert w. induction c as [a|op c IH]; intros w; cbn; [done|]. destruct (api op w) as [[a w']|]; cbn; [apply IH|done].
Qed.

(** [Err] ends the code, as [?] does. *)
Definition and_ok {A B E} (c : LedgerCode (result A E)) (k : A -> LedgerCode (result B E)) : LedgerCode (result B E) :=
  and_then c (fun r => match r with Ok a => k a | Err e => Return (Err e) end).

Definition lift {A E} (r : result A E) : LedgerCode (result A E) := Return r.

(** ** The service *)

Section service_api.
Context {S : Type} `{Store S} `{HashIter} `{Texts}.
Variable submit_all : list Transaction -> S -> list (result Committed SubmitError) * S.
(** The ids and times of the drafts of each request. *)
Variable stamps : nat -> nat -> TxId * DateTime.

(** One transaction through the router. *)
Definition submit_one (tx : Transaction) (s : S) : result Committed SubmitError * S :=
  let '(answers, s') := submit_all [tx] s in (default (Err CommitterGone) (head answers), s').

Definition service_answer (n : nat) (op : ApiOp) : S -> answer op * S :=
  match op with
  | Op_register_asset d => register_asset d
  | Op_open_account d => open_account d
  | Op_post d => post submit_one (stamps n 0%nat).1 (stamps n 0%nat).2 d
  | Op_post_batch ds => post_batch submit_all (stamps n) ds
  | Op_balance book path as_of => balance book path as_of
  | Op_account_history book path page => account_history book path page
  | Op_transaction txid => transaction txid
  | Op_trial_balance book as_of => trial_balance book as_of
  end.

(** A batch without drafts is not a request. *)
Definition requests (op : ApiOp) : nat := match op with Op_post_batch [] => 0 | _ => 1 end.

(** [impl LedgerApi for LedgerService], counting its requests. *)
Definition service_api : Implementation (nat * S) := fun op '(n, s) =>
  let '(a, s') := service_answer n op s in Some (a, ((n + requests op)%nat, s')).

Lemma service_runs {R} (c : LedgerCode R) w : is_Some (run service_api c w).
Proof.
  revert w. induction c as [r|op k IH]; intros [n s]; cbn; [by eexists|]. destruct (service_answer n op s) as [a s']. apply IH.
Qed.
End service_api.
