(* ===== verification/Workload.v ===== *)
(** The workload of the benchmarks, talea-bench/src (workload.rs, seed.rs): drafts
    that balance, keys that do not collide, operations in exact ratios, cursors that
    spread. *)

From S2P Require Import Prelude Decimal Core Api Service ServiceSpec LedgerApi.
Open Scope Z_scope.

(** ** Drafts (workload.rs) *)

Definition ASSET : string := "USD".
Definition CASH : string := "cash".
Definition EQUITY : string := "equity".

Definition book_name (i : Z) : string := "bench-" +:+ u64_to_string i.

(** The postings of one turn of the loop. *)
Definition transfer_pair : list PostingDraft :=
  [mkPostingDraft CASH (mkWireAmount 100 ASSET) Debit; mkPostingDraft EQUITY (mkWireAmount 100 ASSET) Credit].

Fixpoint transfer_postings (n : nat) : list PostingDraft :=
  match n with O => [] | S n => transfer_pair ++ transfer_postings n end.

Definition transfer_key (scope : string) (worker seq : Z) : string :=
  "bench/" +:+ scope +:+ "/" +:+ u64_to_string worker +:+ "/" +:+ u64_to_string seq.

(** None is the panic of the assertion. *)
Definition transfer_draft (book scope : string) (worker seq postings_per_tx : Z) : option TransactionDraft :=
  if (2 <=? postings_per_tx) && (postings_per_tx mod 2 =? 0) then
    Some (mkTransactionDraft book (transfer_key scope worker seq) (transfer_postings (Z.to_nat (postings_per_tx / 2))) [] "null" None)
  else None.

(** ** Mixing operations (workload.rs) *)

Inductive MixOp := Mix_Post | Mix_Balance | Mix_History | Mix_Trial.

(** Weights are [u32]. *)
Record MixWeights := mkMixWeights { mw_post : Z; mw_balance : Z; mw_history : Z; mw_trial : Z }.

Definition wrap_u32 (x : Z) : Z := x mod 2 ^ 32.

Definition total (self : MixWeights) : Z :=
  wrap_u32 (wrap_u32 (wrap_u32 (mw_post self + mw_balance self) + mw_history self) + mw_trial self).

(** None is the panic of the assertion. *)
Definition op_for (self : MixWeights) (seq : Z) : option MixOp :=
  if 0 <? total self then
    let r := seq mod total self in
    Some (if r <? mw_post self then Mix_Post
          else if r <? wrap_u32 (mw_post self + mw_balance self) then Mix_Balance
          else if r <? wrap_u32 (wrap_u32 (mw_post self + mw_balance self) + mw_history self) then Mix_History
          else Mix_Trial)
  else None.

(** ** Cursors (workload.rs) *)

Definition wrap_u64 (x : Z) : Z := x mod 2 ^ 64.

(** [x ^= x >> k] *)
Definition xorshift (k x : Z) : Z := Z.lxor x (Z.shiftr x k).

Definition pseudo (worker seq : Z) : Z :=
  let golden := 0x9E3779B97F4A7C15 in
  let x := wrap_u64 (wrap_u64 (wrap_u64 (worker * golden) + seq) + golden) in
  let x := xorshift 30 x in
  let x := wrap_u64 (x * 0xBF58476D1CE4E5B9) in
  let x := xorshift 27 x in
  let x := wrap_u64 (x * 0x94D049BB133111EB) in
  xorshift 31 x.

(** ** Seeding (seed.rs) *)

Definition READ_BOOK : string := "bench-read".

Section seeding.
(** [Debug] of an error. *)
Variable debug_error : ApiError -> string.

Definition unit_or (what : string) (c : LedgerCode (ApiResult unit)) : LedgerCode (result unit string) :=
  and_then c (fun r => lift (map_err (fun e => what +:+ ": " +:+ debug_error e) r)).

Definition register_usd : LedgerCode (result unit string) :=
  unit_or ("registering " +:+ ASSET) (ask (Op_register_asset (mkAssetDraft ASSET "fiat" None None 2 "US Dollar"))).

Definition open_pair (book : string) : LedgerCode (result unit string) :=
  and_ok (unit_or ("opening " +:+ book +:+ ":" +:+ CASH)
            (ask (Op_open_account (mkAccountDraft book CASH ASSET "asset" (Some Debit) None)))) (fun _ =>
  unit_or ("opening " +:+ book +:+ ":" +:+ EQUITY)
    (ask (Op_open_account (mkAccountDraft book EQUITY ASSET "equity" (Some Credit) None)))).

(** The loop from book [i] on, [n] books. *)
Fixpoint open_books (n : nat) (i : Z) : LedgerCode (result unit string) :=
  match n with
  | O => lift (Ok ())
  | S n => and_ok (open_pair (book_name i)) (fun _ => open_books n (i + 1))
  end.

Definition seed_books (n : nat) : LedgerCode (result unit string) := and_ok register_usd (fun _ => open_books n 0).

Definition seed_read_book : LedgerCode (result unit string) := and_ok register_usd (fun _ => open_pair READ_BOOK).
End seeding.

(** ** The drafts balance *)

Lemma pair_total side a : side_total side a transfer_pair = if String.eqb a ASSET then 100 else 0.
Proof.
  unfold side_total, transfer_pair. cbn [map foldr pd_direction pd_amount wa_asset wa_minor].
  destruct (String.eqb_spec a ASSET) as [->|Hne]; destruct side; repeat case_bool_decide; naive_solver lia.
Qed.

Lemma transfer_total side n a :
  side_total side a (transfer_postings n) = if String.eqb a ASSET then 100 * Z.of_nat n else 0.
Proof.
  induction n as [|n IH]; [by destruct (String.eqb a ASSET)|]. cbn [transfer_postings]. rewrite side_total_app, IH, pair_total.
  destruct (String.eqb a ASSET); lia.
Qed.

Lemma transfer_postings_sound n : Forall (fun p => 0 < wa_minor (pd_amount p) /\ pd_account p <> EmptyString) (transfer_postings n).
Proof. induction n as [|n IH]; [constructor|]. by repeat constructor. Qed.

Lemma transfer_draft_Some book scope worker seq ppt d :
  transfer_draft book scope worker seq ppt = Some d ->
  exists n, ppt = 2 * Z.of_nat (S n) /\
    d = mkTransactionDraft book (transfer_key scope worker seq) (transfer_postings (S n)) [] "null" None.
Proof.
  unfold transfer_draft. destruct (2 <=? ppt) eqn:E1; [|done]. destruct (ppt mod 2 =? 0) eqn:E2; [|done]. bool_to_prop. intros [= <-].
  assert (ppt = 2 * (ppt / 2)) as Hp by (pose proof (Z.div_mod ppt 2); lia).
  exists (Z.to_nat (ppt / 2 - 1)). split; [lia|]. by replace (S (Z.to_nat (ppt / 2 - 1))) with (Z.to_nat (ppt / 2)) by lia.
Qed.

(** A transfer is a draft the service accepts, for any even number of postings whose
    sums are within the integers. *)
Theorem transfer_draft_accepted (book scope : string) (worker seq ppt : Z) (d : TransactionDraft) :
  book <> EmptyString -> is_reserved book = false -> 50 * ppt <= i64_max ->
  transfer_draft book scope worker seq ppt = Some d -> draft_ok d.
Proof.
  intros Hb Hr Hppt (n & -> & ->)%transfer_draft_Some. split; cbn [td_book td_idempotency_key td_postings]; try done.
  - apply transfer_postings_sound.
  - intros side a. rewrite transfer_total. destruct (String.eqb a ASSET); unfold i64_max in *; lia.
  - intros a. by rewrite !transfer_total.
Qed.

(** ** Keys do not collide *)

(** A text without the character [c]. *)
Fixpoint without (c : ascii) (s : string) : bool :=
  match s with EmptyString => true | String a s => negb (Ascii.eqb a c) && without c s end.

Lemma without_app c l a r : without c (l +:+ String a r) = true -> a <> c.
Proof.
  induction l as [|b l IH]; cbn; intros [Ha Hr]%andb_true_iff; [|by apply IH]. by apply negb_true_iff, Ascii.eqb_neq in Ha.
Qed.

(** The last separator splits a text in one way. *)
Lemma last_separator c a b x y :
  without c x = true -> without c y = true -> a +:+ String c x = b +:+ String c y -> a = b /\ x = y.
Proof.
  intros Hx Hy. revert b. induction a as [|d a IH]; intros [|e b]; cbn; intros Heq.
  - by injection Heq.
  - injection Heq as -> Heq. rewrite Heq in Hx. by apply without_app in Hx.
  - injection Heq as -> Heq. rewrite <- Heq in Hy. by apply without_app in Hy.
  - injection Heq as -> Heq. by destruct (IH b Heq) as [-> ->].
Qed.

Lemma digits_without s : all_digits s -> without "/" s = true.
Proof. induction 1 as [|a s d Ha _ IH]; [done|]. cbn. rewrite IH, andb_true_r. destruct (Ascii.eqb a "/") eqn:E; [|done]. by apply Ascii.eqb_eq in E as ->. Qed.

Lemma u64_without n : 0 <= n -> without "/" (u64_to_string n) = true.
Proof. intros Hn. by apply digits_without, u64_to_string_digits. Qed.

Lemma u64_to_string_inj n m : 0 <= n <= u64_max -> 0 <= m <= u64_max -> u64_to_string n = u64_to_string m -> n = m.
Proof. intros Hn Hm Heq. rewrite <- (val_u64_to_string n Hn), <- (val_u64_to_string m Hm). by rewrite Heq. Qed.

(** Two requests of a benchmark have the same key only if they are the same. *)
Theorem transfer_keys_distinct (s1 s2 : string) (w1 w2 q1 q2 : Z) :
  0 <= w1 <= u64_max -> 0 <= w2 <= u64_max -> 0 <= q1 <= u64_max -> 0 <= q2 <= u64_max ->
  transfer_key s1 w1 q1 = transfer_key s2 w2 q2 -> s1 = s2 /\ w1 = w2 /\ q1 = q2.
Proof.
  intros Hw1 Hw2 Hq1 Hq2 Heq. unfold transfer_key in Heq.
  assert (forall a b c : string, (a +:+ b) +:+ c = a +:+ (b +:+ c)) as Hassoc by (intros a b c; induction a as [|x a IH]; cbn; [done|by rewrite IH]).
  assert (forall s w q, "bench/" +:+ s +:+ "/" +:+ u64_to_string w +:+ "/" +:+ u64_to_string q =
            (("bench/" +:+ s) +:+ String "/" (u64_to_string w)) +:+ String "/" (u64_to_string q)) as Hsplit.
  { intros s w q. rewrite !Hassoc. done. }
  rewrite !Hsplit in Heq. apply last_separator in Heq as [Heq Hq]; [|apply u64_without; lia..].
  apply last_separator in Heq as [Heq Hw]; [|apply u64_without; lia..].
  apply u64_to_string_inj in Hw, Hq; try done. split; [|done]. by injection Heq.
Qed.

(** ** A cycle of operations *)

Lemma map_replicate {A B} (f : A -> B) (c : B) l : (forall a, a ∈ l -> f a = c) -> map f l = replicate (length l) c.
Proof. induction l as [|a l IH]; cbn; [done|]. intros Hf. rewrite Hf by left. f_equal. apply IH. intros. apply Hf. by right. Qed.

Lemma map_seqZ {B} (f : Z -> B) (c : B) m n : (forall i, m <= i < m + n -> f i = c) -> map f (seqZ m n) = replicate (Z.to_nat n) c.
Proof.
  intros Hf. rewrite (map_replicate f c), length_seqZ; [done|]. intros i Hi%elem_of_seqZ. by apply Hf.
Qed.

Definition weights_ok (w : MixWeights) : Prop :=
  0 <= mw_post w /\ 0 <= mw_balance w /\ 0 <= mw_history w /\ 0 <= mw_trial w /\
  0 < mw_post w + mw_balance w + mw_history w + mw_trial w < 2 ^ 32.

(** Every full cycle of requests deals each operation exactly as often as its weight
    says, posts first. *)
Theorem mix_cycle_exact (w : MixWeights) (k : Z) :
  weights_ok w ->
  map (op_for w) (seqZ (k * total w) (total w)) =
    replicate (Z.to_nat (mw_post w)) (Some Mix_Post) ++ replicate (Z.to_nat (mw_balance w)) (Some Mix_Balance) ++
    replicate (Z.to_nat (mw_history w)) (Some Mix_History) ++ replicate (Z.to_nat (mw_trial w)) (Some Mix_Trial).
Proof.
  intros (Hp & Hb & Hh & Ht & Hs).
  assert (total w = mw_post w + (mw_balance w + (mw_history w + mw_trial w))) as Htot.
  { unfold total, wrap_u32. rewrite (Z.mod_small (mw_post w + mw_balance w)), (Z.mod_small (mw_post w + mw_balance w + mw_history w)), Z.mod_small; lia. }
  assert (forall i c, 0 <= i < total w -> c = (if i <? mw_post w then Mix_Post else if i <? mw_post w + mw_balance w then Mix_Balance
            else if i <? mw_post w + mw_balance w + mw_history w then Mix_History else Mix_Trial) -> op_for w (k * total w + i) = Some c) as Hop.
  { intros i c Hi ->. unfold op_for. assert (0 <? total w = true) as -> by (apply Z.ltb_lt; lia).
    replace ((k * total w + i) mod total w) with i by (rewrite Z.add_comm, Z_mod_plus_full, Z.mod_small; lia).
    unfold wrap_u32. rewrite (Z.mod_small (mw_post w + mw_balance w)), (Z.mod_small (mw_post w + mw_balance w + mw_history w)) by lia. done. }
  rewrite Htot at 2. rewrite !seqZ_app, !map_app by lia.
  f_equal; [|f_equal; [|f_equal]]; apply map_seqZ; intros i Hi;
    (replace i with (k * total w + (i - k * total w)) by lia); (apply Hop; [lia|]);
    repeat (case_match; bool_to_prop; try lia); done.
Qed.

(** ** Cursors do not collide *)

(** A number xored with its own high bits determines it, from the top bit down. *)
Lemma xorshift_inj k x y : 0 < k -> 0 <= x < 2 ^ 64 -> 0 <= y < 2 ^ 64 -> xorshift k x = xorshift k y -> x = y.
Proof.
  intros Hk Hx Hy Heq. apply Z.bits_inj'. intros n Hn.
  assert (forall m, 64 <= m -> Z.testbit x m = Z.testbit y m) as Hhigh.
  { intros m Hm. assert (2 ^ 64 <= 2 ^ m) by (apply Z.pow_le_mono_r; lia).
    rewrite <- (Z.mod_small x (2 ^ m)), <- (Z.mod_small y (2 ^ m)) by lia. by rewrite !Z.mod_pow2_bits_high by lia. }
  assert (forall (d : nat) m, 0 <= m -> 64 - Z.of_nat d <= m -> Z.testbit x m = Z.testbit y m) as Hall.
  { induction d as [d IH] using lt_wf_ind. intros m Hm Hd. destruct (decide (64 <= m)) as [?|Hlt]; [by apply Hhigh|].
    assert (Z.testbit (xorshift k x) m = Z.testbit (xorshift k y) m) as Hb by (by rewrite Heq).
    unfold xorshift in Hb. rewrite !Z.lxor_spec, !Z.shiftr_spec in Hb by done.
    assert (Z.testbit x (m + k) = Z.testbit y (m + k)) as Hup.
    { apply (IH (d - 1)%nat); [|lia|lia]. destruct d; lia. }
    rewrite Hup in Hb. by destruct (Z.testbit x m), (Z.testbit y m), (Z.testbit y (m + k)). }
  apply (Hall 64%nat); lia.
Qed.

Lemma xorshift_range k x : 0 <= k -> 0 <= x < 2 ^ 64 -> 0 <= xorshift k x < 2 ^ 64.
Proof.
  intros Hk Hx. unfold xorshift. assert (0 <= Z.shiftr x k < 2 ^ 64) as Hs.
  { rewrite Z.shiftr_div_pow2 by done. split; [apply Z.div_pos; lia|]. apply Z.le_lt_trans with x; [|lia].
    apply Z.div_le_upper_bound; [lia|]. assert (0 < 2 ^ k) by lia. nia. }
  assert (Z.lxor x (Z.shiftr x k) = Z.lxor x (Z.shiftr x k) mod 2 ^ 64) as ->; [|apply Z.mod_pos_bound; lia].
  rewrite <- (Z.mod_small x (2 ^ 64)) at 1 by lia. rewrite <- (Z.mod_small (Z.shiftr x k) (2 ^ 64)) at 1 by lia.
  apply Z.bits_inj'. intros n Hn. rewrite Z.lxor_spec. destruct (decide (n < 64)).
  - by rewrite !Z.mod_pow2_bits_low, Z.lxor_spec by lia.
  - by rewrite !Z.mod_pow2_bits_high by lia.
Qed.

(** Multiplying by a number with an inverse loses nothing. *)
Lemma mul_inj c d x y :
  (c * d) mod 2 ^ 64 = 1 -> 0 <= x < 2 ^ 64 -> 0 <= y < 2 ^ 64 -> wrap_u64 (x * c) = wrap_u64 (y * c) -> x = y.
Proof.
  unfold wrap_u64. intros Hcd Hx Hy Heq.
  assert (forall z, 0 <= z < 2 ^ 64 -> ((z * c) mod 2 ^ 64 * d) mod 2 ^ 64 = z) as Hback.
  { intros z Hz. rewrite Z.mul_mod_idemp_l by lia. rewrite <- Z.mul_assoc, <- Z.mul_mod_idemp_r, Hcd, Z.mul_1_r by lia. by apply Z.mod_small. }
  rewrite <- (Hback x Hx), <- (Hback y Hy). by rewrite Heq.
Qed.

Lemma wrap_u64_range x : 0 <= wrap_u64 x < 2 ^ 64.
Proof. apply Z.mod_pos_bound. lia. Qed.

Lemma add_inj a x y : 0 <= x < 2 ^ 64 -> 0 <= y < 2 ^ 64 -> wrap_u64 (a + x) = wrap_u64 (a + y) -> x = y.
Proof.
  unfold wrap_u64. intros Hx Hy Heq. apply (f_equal (fun z => (z - a) mod 2 ^ 64)) in Heq.
  rewrite !Zminus_mod_idemp_l in Heq. replace (a + x - a) with x in Heq by lia. replace (a + y - a) with y in Heq by lia.
  by rewrite !Z.mod_small in Heq by lia.
Qed.

(** The cursors of one worker are all different, for all of its 2^64 requests. *)
Theorem pseudo_distinct (worker q1 q2 : Z) :
  0 <= q1 < 2 ^ 64 -> 0 <= q2 < 2 ^ 64 -> pseudo worker q1 = pseudo worker q2 -> q1 = q2.
Proof.
  intros H1 H2. unfold pseudo. intros Heq.
  apply xorshift_inj in Heq; [|lia|apply wrap_u64_range..].
  apply (mul_inj _ 3573116690164977347) in Heq; [|reflexivity|apply xorshift_range; [lia|apply wrap_u64_range]..].
  apply xorshift_inj in Heq; [|lia|apply wrap_u64_range..].
  apply (mul_inj _ 10871156337175269513) in Heq; [|reflexivity|apply xorshift_range; [lia|apply wrap_u64_range]..].
  apply xorshift_inj in Heq; [|lia|apply wrap_u64_range..].
  set (g := 0x9E3779B97F4A7C15) in *. rewrite !(Z.add_comm _ g) in Heq. apply add_inj in Heq; [|apply wrap_u64_range..].
  by apply add_inj in Heq.
Qed.
