(* ===== verification/Runner.v ===== *)
(** The benchmarks' runner, their check of the ledger and the scenarios that write,
    talea-bench/src (runner.rs, verify.rs, scenarios/): workers that issue one request
    after the other, the tallies of what they were answered, and the comparison of the
    tallies with the sequence numbers of the books.

    Histograms are a library's.  A worker's request takes effect at once; a turn is
    the worker, the time it starts at and how long it takes. *)

From S2P Require Import Prelude Decimal Core Api Service LedgerApi Workload.
Open Scope Z_scope.

(** ** Outcomes (runner.rs) *)

Inductive OpOutcome :=
| Success (kind : string) (deduplicated committed : bool)
| Outcome_Saturated
| Failed (kind : string)
| Batch (n_ok n_dedup n_shed : Z) (first_err : option OpOutcome).

Definition error_kind (e : ApiError) : string :=
  match e with
  | Api_Unbalanced _ _ _ => "unbalanced"
  | Api_AssetMismatch _ _ _ => "asset_mismatch"
  | Api_InvalidAmount _ => "invalid_amount"
  | Api_UnknownAsset _ => "unknown_asset"
  | Api_UnknownAccount _ => "unknown_account"
  | Api_ConstraintViolation _ _ _ => "constraint_violation"
  | Api_AlreadyExists _ => "already_exists"
  | Api_InvalidDraft _ _ => "invalid_draft"
  | Api_NotFound _ => "not_found"
  | Api_Transport _ => "transport"
  | Api_Unauthorized => "unauthorized"
  | Api_Forbidden _ => "forbidden"
  | Api_Overloaded => "overloaded"
  | Api_Timeout => "timeout"
  | Api_Internal _ => "internal"
  end.

Definition classify (e : ApiError) : OpOutcome :=
  match e with
  | Api_Transport message => if String.prefix "503" message then Outcome_Saturated else Failed (error_kind e)
  | Api_Overloaded => Outcome_Saturated
  | Api_Timeout => Outcome_Saturated
  | other => Failed (error_kind other)
  end.

(** ** Tallies (runner.rs) *)

(** [hdrhistogram]: recording a value out of its range is ignored, adding a
    histogram may fail. *)
Class Histograms := {
  Histogram : Type;
  histogram_new : Histogram;
  histogram_record : Z -> Histogram -> Histogram;
  histogram_add : Histogram -> Histogram -> option Histogram
}.

(** [+=] on a [u64]. *)
Definition plus (a b : Z) : Z := wrap_u64 (a + b).

Section runner.
Context `{Histograms}.

Record Local := mkLocal {
  l_latencies : gmap string Histogram;
  l_successes : Z;
  l_saturated : Z;
  l_deduplicated : Z;
  l_errors : gmap string Z;
  l_total_committed : Z;
  l_total_ambiguous : Z
}.

Definition Local_new : Local := mkLocal ∅ 0 0 0 ∅ 0 0.

(** [*errors.entry(kind).or_insert(0) += n] *)
Definition count_error (kind : string) (n : Z) (errors : gmap string Z) : gmap string Z :=
  <[kind := plus (default 0 (errors !! kind)) n]> errors.

Fixpoint record_times (n : nat) (us : Z) (h : Histogram) : Histogram :=
  match n with O => h | S n => record_times n us (histogram_record us h) end.

Definition record_latency (kind : string) (n : Z) (us : Z) (latencies : gmap string Histogram) : gmap string Histogram :=
  <[kind := record_times (Z.to_nat n) us (default histogram_new (latencies !! kind))]> latencies.

(** The first half of [record]: what counts for the whole lifetime. *)
Definition lifetime (outcome : OpOutcome) (l : Local) : Local :=
  let tally committed ambiguous :=
    mkLocal (l_latencies l) (l_successes l) (l_saturated l) (l_deduplicated l) (l_errors l)
      (plus (l_total_committed l) committed) (plus (l_total_ambiguous l) ambiguous) in
  match outcome with
  | Success _ _ true => tally 1 0
  | Failed kind => if String.eqb kind "transport" then tally 0 1 else l
  | Batch n_ok _ _ first_err =>
      match first_err with
      | Some (Failed kind) => tally n_ok (if String.eqb kind "transport" then 1 else 0)
      | _ => tally n_ok 0
      end
  | _ => l
  end.

(** The second half, after the warm-up; [us] is the latency in microseconds. *)
Definition measure (outcome : OpOutcome) (us : Z) (l : Local) : Local :=
  let us := Z.max us 1 in
  match outcome with
  | Success kind deduplicated _ =>
      mkLocal (record_latency kind 1 us (l_latencies l)) (plus (l_successes l) 1) (l_saturated l)
        (plus (l_deduplicated l) (if deduplicated then 1 else 0)) (l_errors l) (l_total_committed l) (l_total_ambiguous l)
  | Outcome_Saturated =>
      mkLocal (l_latencies l) (l_successes l) (plus (l_saturated l) 1) (l_deduplicated l) (l_errors l) (l_total_committed l) (l_total_ambiguous l)
  | Failed kind =>
      mkLocal (l_latencies l) (l_successes l) (l_saturated l) (l_deduplicated l) (count_error kind 1 (l_errors l))
        (l_total_committed l) (l_total_ambiguous l)
  | Batch n_ok n_dedup n_shed first_err =>
      mkLocal (record_latency "post" n_ok us (l_latencies l)) (plus (l_successes l) n_ok) (plus (l_saturated l) n_shed)
        (plus (l_deduplicated l) n_dedup)
        (match first_err with Some (Failed kind) => count_error kind 1 (l_errors l) | _ => l_errors l end)
        (l_total_committed l) (l_total_ambiguous l)
  end.

Definition record (outcome : OpOutcome) (us : Z) (measured : bool) (l : Local) : Local :=
  let l := lifetime outcome l in if measured then measure outcome us l else l.

(** ** A step (runner.rs) *)

(** Times in microseconds. *)
Record StepConfig := mkStepConfig { sc_workers : nat; sc_warmup : Z; sc_duration : Z }.

Record StepReport := mkStepReport {
  sr_workers : nat;
  sr_measured : Z;
  sr_latencies : gmap string Histogram;
  sr_successes : Z;
  sr_saturated : Z;
  sr_deduplicated : Z;
  sr_errors : gmap string Z;
  sr_total_committed : Z;
  sr_total_ambiguous : Z
}.

Section step.
Context {W : Type}.
Variable api : Implementation W.
(** A worker's request; none is a panic of the worker. *)
Variable op : nat -> Z -> option (LedgerCode OpOutcome).

(** A turn of a worker's loop: the worker, [t0] and the time until the answer. *)
Record Turn := mkTurn { tn_worker : nat; tn_t0 : Z; tn_elapsed : Z }.

(** The loop's body, on the workers' next requests and tallies, if the worker has not passed its deadline; none when it panics
    or its request does not end. *)
Definition worker_turn (cfg : StepConfig) (start : Z) (t : Turn) (workers : list (Z * Local)) (w : W) : option (list (Z * Local) * W) :=
  let warmup_end := start + sc_warmup cfg in
  let deadline := warmup_end + sc_duration cfg in
  match workers !! tn_worker t with
  | Some (seq, local) =>
      if tn_t0 t <? deadline then
        code ← op (tn_worker t) seq;
        '(outcome, w') ← run api code w;
        Some (<[tn_worker t := (plus seq 1, record outcome (tn_elapsed t) (warmup_end <=? tn_t0 t) local)]> workers, w')
      else Some (workers, w)
  | None => Some (workers, w)
  end.

Fixpoint worker_turns (cfg : StepConfig) (start : Z) (turns : list Turn) (workers : list (Z * Local)) (w : W) : option (list (Z * Local) * W) :=
  match turns with
  | [] => Some (workers, w)
  | t :: turns => '(workers, w) ← worker_turn cfg start t workers w; worker_turns cfg start turns workers w
  end.

(** [for (k, v) in local.errors], in the map's order. *)
Fixpoint add_errors (l : list (string * Z)) (errors : gmap string Z) : gmap string Z :=
  match l with [] => errors | (k, v) :: l => add_errors l (count_error k v errors) end.

Fixpoint add_latencies (l : list (string * Histogram)) (latencies : gmap string Histogram) : option (gmap string Histogram) :=
  match l with
  | [] => Some latencies
  | (k, h) :: l => h' ← histogram_add (default histogram_new (latencies !! k)) h; add_latencies l (<[k := h']> latencies)
  end.

(** The merge of a worker's tally into the report; none when histograms do not add. *)
Definition merge (report : StepReport) (local : Local) : option StepReport :=
  latencies ← add_latencies (map_to_list (l_latencies local)) (sr_latencies report);
  Some (mkStepReport (sr_workers report) (sr_measured report) latencies
          (plus (sr_successes report) (l_successes local)) (plus (sr_saturated report) (l_saturated local))
          (plus (sr_deduplicated report) (l_deduplicated local)) (add_errors (map_to_list (l_errors local)) (sr_errors report))
          (plus (sr_total_committed report) (l_total_committed local)) (plus (sr_total_ambiguous report) (l_total_ambiguous local))).

Fixpoint merge_all (locals : list Local) (report : StepReport) : option StepReport :=
  match locals with [] => Some report | l :: locals => report ← merge report l; merge_all locals report end.

Definition run_step (cfg : StepConfig) (start : Z) (turns : list Turn) (w : W) : option (StepReport * W) :=
  '(workers, w') ← worker_turns cfg start turns (replicate (sc_workers cfg) (0, Local_new)) w;
  report ← merge_all (map snd workers) (mkStepReport (sc_workers cfg) (sc_duration cfg) ∅ 0 0 0 ∅ 0 0);
  Some (report, w').
End step.
End runner.

(** ** The check of the ledger (verify.rs) *)

Section verify.
(** [Debug] of an error. *)
Variable debug_error : ApiError -> string.

Definition probe_key (run_id book label : string) : string := "bench/" +:+ run_id +:+ "/probe/" +:+ book +:+ "/" +:+ label.

Definition probe_draft (book run_id label : string) : TransactionDraft :=
  mkTransactionDraft book (probe_key run_id book label)
    [mkPostingDraft CASH (mkWireAmount 1 ASSET) Debit; mkPostingDraft EQUITY (mkWireAmount 1 ASSET) Credit] [] "null" None.

Definition probe_seq (book run_id label : string) : LedgerCode (result Seq string) :=
  and_then (ask (Op_post (probe_draft book run_id label))) (fun r =>
    lift (match r with Ok p => Ok (po_seq p) | Err e => Err ("probe post on " +:+ book +:+ " failed: " +:+ debug_error e) end)).

(** The lines of a trial balance, up to the first that does not balance. *)
Fixpoint check_lines (book : string) (lines : list TrialBalanceLine) : result unit string :=
  match lines with
  | [] => Ok ()
  | line :: lines =>
      if negb (tl_debits line =? tl_credits line) then
        Err ("UNBALANCED: book " +:+ book +:+ " asset " +:+ tl_asset line +:+ " has debits " +:+ i64_to_string (tl_debits line) +:+
             " != credits " +:+ i64_to_string (tl_credits line))
      else check_lines book lines
  end.

Fixpoint check_trial_balances (probes_before : list (string * Seq)) : LedgerCode (result unit string) :=
  match probes_before with
  | [] => lift (Ok ())
  | (book, _) :: probes =>
      and_then (ask (Op_trial_balance book None)) (fun r =>
        match r with
        | Err e => lift (Err ("trial_balance(" +:+ book +:+ "): " +:+ debug_error e))
        | Ok tb => match check_lines book (tb_lines tb) with Err e => lift (Err e) | Ok _ => check_trial_balances probes end
        end)
  end.

(** The loop over the probes; the sums are [i64]s. *)
Fixpoint observe (run_id label : string) (probes_before : list (string * Seq)) (observed : Z) : LedgerCode (result Z string) :=
  match probes_before with
  | [] => lift (Ok observed)
  | (book, before) :: probes =>
      and_ok (probe_seq book run_id (label +:+ "-after")) (fun after => observe run_id label probes (wrap_i64 (observed + wrap_i64 (after - before))))
  end.

Definition verdict (probes : Z) (committed ambiguous : Z) (observed : Z) : result (list string) string :=
  let expected_min := wrap_i64 (wrap_i64 committed + probes) in
  let expected_max := wrap_i64 (expected_min + wrap_i64 ambiguous) in
  if (observed <? expected_min) || (expected_max <? observed) then
    Err ("SEQ MISMATCH: observed " +:+ i64_to_string observed +:+ " new events across " +:+ u64_to_string probes +:+
         " book(s), expected " +:+ i64_to_string expected_min +:+ "..=" +:+ i64_to_string expected_max +:+ " (committed=" +:+
         u64_to_string committed +:+ ", after-probes=" +:+ u64_to_string probes +:+ ", ambiguous=" +:+ u64_to_string ambiguous +:+ ")")
  else if expected_min <? observed then
    Ok [i64_to_string (wrap_i64 (observed - expected_min)) +:+ " ambiguous transport outcome(s) actually committed server-side (observed " +:+
        i64_to_string observed +:+ " > counted " +:+ i64_to_string expected_min +:+ "); within tolerance"]
  else Ok [].

Definition verify_books (run_id label : string) (probes_before : list (string * Seq)) (committed ambiguous : Z) :
    LedgerCode (result (list string) string) :=
  and_ok (check_trial_balances probes_before) (fun _ =>
  and_ok (observe run_id label probes_before 0) (fun observed =>
  lift (verdict (Z.of_nat (length probes_before)) committed ambiguous observed))).
End verify.

(** ** The workers' requests (scenarios/) *)

Definition post_outcome (r : ApiResult Posted) : OpOutcome :=
  match r with Ok p => Success "post" (deduplicated p) true | Err e => classify e end.

(** The loop over a batch's answers. *)
Fixpoint count_slots (results : list (ApiResult Posted)) (n_ok n_dedup n_shed : Z) (first_err : option OpOutcome) : OpOutcome :=
  match results with
  | [] => Batch n_ok n_dedup n_shed first_err
  | Ok p :: results => count_slots results (n_ok + 1) (if deduplicated p then n_dedup + 1 else n_dedup) n_shed first_err
  | Err e :: results =>
      match classify e with
      | Outcome_Saturated => count_slots results n_ok n_dedup (n_shed + 1) first_err
      | outcome => count_slots results n_ok n_dedup n_shed (match first_err with None => Some outcome | some => some end)
      end
  end.

(** The drafts of a batch; none if one panics. *)
Fixpoint transfer_drafts (book scope : string) (worker first : Z) (n : nat) (postings_per_tx : Z) : option (list TransactionDraft) :=
  match n with
  | O => Some []
  | S n =>
      draft ← transfer_draft book scope worker first postings_per_tx;
      drafts ← transfer_drafts book scope worker (first + 1) n postings_per_tx;
      Some (draft :: drafts)
  end.

Definition post_op (book scope : string) (postings_per_tx batch_size : Z) (worker : nat) (seq : Z) : option (LedgerCode OpOutcome) :=
  if batch_size =? 1 then
    draft ← transfer_draft book scope (Z.of_nat worker) seq postings_per_tx;
    Some (and_then (ask (Op_post draft)) (fun r => Return (post_outcome r)))
  else
    drafts ← transfer_drafts book scope (Z.of_nat worker) (wrap_u64 (seq * batch_size)) (Z.to_nat batch_size) postings_per_tx;
    Some (and_then (ask (Op_post_batch drafts)) (fun results => Return (count_slots results 0 0 0 None))).

(** A read's outcome. *)
Definition read_outcome {A} (kind : string) (r : ApiResult A) : OpOutcome :=
  match r with Ok _ => Success kind false false | Err e => classify e end.

(** post_many_books.rs: book [worker % n]. *)
Definition many_op (scope : string) (n postings_per_tx : Z) (worker : nat) (seq : Z) : option (LedgerCode OpOutcome) :=
  draft ← transfer_draft (book_name (Z.of_nat worker mod n)) scope (Z.of_nat worker) seq postings_per_tx;
  Some (and_then (ask (Op_post draft)) (fun r => Return (post_outcome r))).

(** mixed.rs: a history page starts at a cursor below the sequence number the book
    had at the probe.  None is a panic of the worker. *)
Definition mixed_op (scope : string) (probes : list (string * Seq)) (weights : MixWeights) (worker : nat) (seq : Z) :
    option (LedgerCode OpOutcome) :=
  '(book, base_seq) ← probes !! (worker mod length probes)%nat;
  mix ← op_for weights seq;
  match mix with
  | Mix_Post =>
      draft ← transfer_draft book scope (Z.of_nat worker) seq 2;
      Some (and_then (ask (Op_post draft)) (fun r => Return (post_outcome r)))
  | Mix_Balance => Some (and_then (ask (Op_balance book CASH None)) (fun r => Return (read_outcome "balance" r)))
  | Mix_History =>
      let cursor := wrap_i64 (pseudo (Z.of_nat worker) seq mod wrap_u64 (Z.max base_seq 1)) in
      Some (and_then (ask (Op_account_history book CASH (mkPage (Some cursor) 100))) (fun r => Return (read_outcome "history" r)))
  | Mix_Trial => Some (and_then (ask (Op_trial_balance book None)) (fun r => Return (read_outcome "trial-balance" r)))
  end.

(** ** The scenarios that write (scenarios/) *)

Definition contains (values : list Z) (v : Z) : bool := existsb (Z.eqb v) values.

(** The loop that fills [seen]. *)
Fixpoint first_duplicate (seen values : list Z) : option Z :=
  match values with
  | [] => None
  | v :: values => if contains seen v then Some v else first_duplicate (v :: seen) values
  end.

Definition validate_sweep (values : list Z) (flag : string) : result unit string :=
  match values with
  | [] => Err ("--" +:+ flag +:+ " must not be empty")
  | _ =>
      if contains values 0 then Err ("--" +:+ flag +:+ " values must be > 0")
      else match first_duplicate [] values with
           | Some v => Err ("--" +:+ flag +:+ " contains duplicate value " +:+ u64_to_string v +:+ ": steps would share an " +:+
                            "idempotency scope and dedup across steps, corrupting verification")
           | None => Ok ()
           end
  end.

(** The options of post-one-book, post-many-books and mixed. *)
Inductive Scenario :=
| Post_one_book (concurrencies : list Z) (postings_per_tx batch_size : Z)
| Post_many_books (book_counts : list Z) (per_book_concurrency postings_per_tx : Z)
| Mixed (concurrencies : list Z) (books : Z) (weights : MixWeights).

(** The values that are swept, and what the options are checked for. *)
Definition swept_values (s : Scenario) : list Z :=
  match s with Post_one_book cs _ _ => cs | Post_many_books ns _ _ => ns | Mixed cs _ _ => cs end.

Definition check_opts (s : Scenario) : result unit string :=
  match s with
  | Post_one_book cs _ batch_size =>
      let? _ := validate_sweep cs "concurrency" in
      if batch_size =? 0 then Err "--batch-size must be >= 1" else Ok ()
  | Post_many_books ns per_book _ =>
      let? _ := validate_sweep ns "books" in
      if per_book =? 0 then Err "per-book-concurrency must be > 0" else Ok ()
  | Mixed cs books _ =>
      let? _ := validate_sweep cs "concurrency" in
      if books =? 0 then Err "books must be > 0" else Ok ()
  end.

(** How many books are seeded, and the label of the probes. *)
Definition books_used (s : Scenario) : nat :=
  match s with
  | Post_one_book _ _ _ => 1
  | Post_many_books ns _ _ => Z.to_nat (foldr Z.max 0 ns)
  | Mixed _ books _ => Z.to_nat books
  end.

Definition probe_label (s : Scenario) : string :=
  match s with Post_one_book _ _ _ => "one" | Post_many_books _ _ _ => "many" | Mixed _ _ _ => "mixed" end.

(** The step for a swept value: its label, its workers and their requests. *)
Definition step_of (run_id : string) (s : Scenario) (probes : list (string * Seq)) (v : Z) :
    string * Z * (nat -> Z -> option (LedgerCode OpOutcome)) :=
  match s with
  | Post_one_book _ postings_per_tx batch_size =>
      ("c" +:+ u64_to_string v, v, post_op (book_name 0) (run_id +:+ "/one/c" +:+ u64_to_string v) postings_per_tx batch_size)
  | Post_many_books _ per_book postings_per_tx =>
      ("books" +:+ u64_to_string v, wrap_u64 (v * per_book), many_op (run_id +:+ "/many/b" +:+ u64_to_string v) v postings_per_tx)
  | Mixed _ _ weights =>
      ("c" +:+ u64_to_string v, v, mixed_op (run_id +:+ "/mixed/c" +:+ u64_to_string v) probes weights)
  end.

Section scenario.
Context `{Histograms} {W : Type}.
Variable api : Implementation W.
Variable debug_error : ApiError -> string.
(** The context of the run. *)
Variables (run_id : string) (warmup duration : Z).

(** The probes of the books from [i] on. *)
Fixpoint probe_books (label : string) (n : nat) (i : Z) : LedgerCode (result (list (string * Seq)) string) :=
  match n with
  | O => lift (Ok [])
  | S n =>
      and_ok (probe_seq debug_error (book_name i) run_id (label +:+ "-before")) (fun seq =>
      and_ok (probe_books label n (i + 1)) (fun probes => lift (Ok ((book_name i, seq) :: probes))))
  end.

(** The loop over the swept values; what each step's workers do and when is given. *)
Fixpoint sweep (s : Scenario) (probes : list (string * Seq)) (values : list Z) (schedule : list (Z * list Turn))
    (committed ambiguous : Z) (w : W) : option (list (string * StepReport) * Z * Z * W) :=
  match values with
  | [] => Some ([], committed, ambiguous, w)
  | v :: values =>
      let '(label, workers, op) := step_of run_id s probes v in
      let '(start, turns) := default (0, []) (head schedule) in
      '(r, w) ← run_step api op (mkStepConfig (Z.to_nat workers) warmup duration) start turns w;
      '(steps, committed, ambiguous, w) ←
        sweep s probes values (tail schedule) (plus committed (sr_total_committed r)) (plus ambiguous (sr_total_ambiguous r)) w;
      Some ((label, r) :: steps, committed, ambiguous, w)
  end.

(** [run] of the scenario's file, the same steps in all three, with the client that is
    used; the reports are the steps' raw ones, and the warnings of the check, which are
    printed, are dropped.  The subscribers of mixed, which read and time, are left out. *)
Definition run_scenario (s : Scenario) (schedule : list (Z * list Turn)) (w : W) : option (result (list (string * StepReport)) string * W) :=
  match check_opts s with
  | Err e => Some (Err e, w)
  | Ok _ =>
      '(seeded, w) ← run api (seed_books debug_error (books_used s)) w;
      match seeded with
      | Err e => Some (Err e, w)
      | Ok _ =>
          '(probes, w) ← run api (probe_books (probe_label s) (books_used s) 0) w;
          match probes with
          | Err e => Some (Err e, w)
          | Ok probes =>
              '(steps, committed, ambiguous, w) ← sweep s probes (swept_values s) schedule 0 0 w;
              '(verified, w) ← run api (verify_books debug_error run_id (probe_label s) probes committed ambiguous) w;
              match verified with Err e => Some (Err e, w) | Ok _ => Some (Ok steps, w) end
          end
      end
  end.
End scenario.
