(* ===== verification/BenchSpec.v ===== *)
(** What the benchmarks' check of the ledger shows: it accepts exactly the books
    whose numbers fit the tallies, and a run of single posts against a ledger that
    keeps its promises always fits. *)

From S2P Require Import Prelude Decimal Core Api Service LedgerApi Workload Runner.
Open Scope Z_scope.

(** ** Ledgers that count *)

Definition posts (op : ApiOp) : bool := match op with Op_post _ | Op_post_batch _ => true | _ => false end.
Definition defines (op : ApiOp) : bool := match op with Op_register_asset _ | Op_open_account _ => true | _ => false end.

(** A precision is a [u8]. *)
Definition typed (op : ApiOp) : Prop := match op with Op_register_asset d => 0 <= ad_precision d < 256 | _ => True end.

(** What the check relies on: a book's events are numbered without gaps, a post adds
    one event or none, and none under a key that is recorded; a success is recorded;
    an error other than a lost connection adds nothing; only posts record keys and
    only definitions add other events. *)
Class CountedLedger {W} (api : Implementation W) := {
  counted : W -> Prop;
  top : W -> Book -> Z;
  recorded : W -> Book -> string -> Prop;
  post_counted d w r w' : counted w -> api (Op_post d) w = Some (r, w') ->
    counted w' /\ exists new : bool,
      (new = true -> ~ recorded w (td_book d) (td_idempotency_key d)) /\
      (forall b, top w' b = top w b + if new && String.eqb b (td_book d) then 1 else 0) /\
      (forall b k, recorded w' b k <-> recorded w b k \/ new = true /\ b = td_book d /\ k = td_idempotency_key d) /\
      match r with
      | Ok p => recorded w' (td_book d) (td_idempotency_key d) /\ (new = true -> po_seq p = top w' (td_book d))
      | Err e => new = true -> exists message, e = Api_Transport message /\ String.prefix "503" message = false
      end;
  other_counted op w a w' : posts op = false -> typed op -> counted w -> api op w = Some (a, w') ->
    counted w' /\ (defines op = false -> forall b, top w' b = top w b) /\ (forall b k, recorded w' b k <-> recorded w b k)
}.

(** ** Results of code *)

(** Every result the code can come to. *)
Fixpoint results {R} (P : R -> Prop) (c : LedgerCode R) : Prop :=
  match c with Return r => P r | Ask op k => forall a, results P (k a) end.

Lemma results_then {A B} (P : A -> Prop) (Q : B -> Prop) (c : LedgerCode A) (k : A -> LedgerCode B) :
  results P c -> (forall a, P a -> results Q (k a)) -> results Q (and_then c k).
Proof. intros Hc Hk. induction c as [a|op c IH]; cbn in *; [by apply Hk|]. intros a. by apply IH. Qed.

Lemma run_results {W R} (api : Implementation W) (P : R -> Prop) (c : LedgerCode R) w r w' :
  results P c -> run api c w = Some (r, w') -> P r.
Proof.
  revert w. induction c as [a|op c IH]; intros w; cbn; [by intros ? [= <- _]|]. intros Hc.
  destruct (api op w) as [[a w1]|]; cbn; [|done]. by apply IH.
Qed.

(** Every operation the code can ask for. *)
Fixpoint operations {R} (P : ApiOp -> Prop) (c : LedgerCode R) : Prop :=
  match c with Return _ => True | Ask op k => P op /\ forall a, operations P (k a) end.

Lemma operations_then {A B} P (c : LedgerCode A) (k : A -> LedgerCode B) :
  operations P c -> (forall a, operations P (k a)) -> operations P (and_then c k).
Proof. intros Hc Hk. induction c as [a|op c IH]; cbn in *; [by apply Hk|]. destruct Hc as [? Hc]. split; [done|]. intros a. by apply IH. Qed.

Lemma run_total {W R} (api : Implementation W) (c : LedgerCode R) w : (forall op w, is_Some (api op w)) -> is_Some (run api c w).
Proof.
  intros Hap. revert w. induction c as [r|op k IH]; intros w; cbn; [by eexists|]. destruct (Hap op w) as [[a w1] ->]. apply IH.
Qed.

(** The check's complaint about the counts. *)
Definition mismatch (e : string) : bool := String.prefix "SEQ MISMATCH" e.

(** No result but the verdict's complains about the counts. *)
Definition no_mismatch {A} (r : result A string) : Prop := match r with Ok _ => True | Err e => mismatch e = false end.

Lemma no_mismatch_and_ok {A B} (c : LedgerCode (result A string)) (k : A -> LedgerCode (result B string)) :
  results no_mismatch c -> (forall a, results no_mismatch (k a)) -> results no_mismatch (and_ok c k).
Proof. intros Hc Hk. eapply results_then; [exact Hc|]. intros [a|e] He; [apply Hk|exact He]. Qed.

(** ** The check *)

Section check.
Context {W : Type} (api : Implementation W) `{!CountedLedger api}.
Variable debug_error : ApiError -> string.

Lemma check_lines_no_mismatch book lines : no_mismatch (check_lines book lines).
Proof. induction lines as [|l lines IH]; cbn; [done|]. by case_match. Qed.

Lemma trials_no_mismatch probes : results no_mismatch (check_trial_balances debug_error probes).
Proof.
  induction probes as [|[book before] probes IH]; [done|]. intros [tb|e]; [|done]. cbn.
  pose proof (check_lines_no_mismatch book (tb_lines tb)). by destruct (check_lines book (tb_lines tb)).
Qed.

Lemma probe_no_mismatch book run_id label : results no_mismatch (probe_seq debug_error book run_id label).
Proof. by intros [p|e]. Qed.

Lemma observe_no_mismatch run_id label probes acc : results no_mismatch (observe debug_error run_id label probes acc).
Proof.
  revert acc. induction probes as [|[book before] probes IH]; intros acc; [done|].
  apply no_mismatch_and_ok; [apply probe_no_mismatch|]. intros after. apply IH.
Qed.

(** What stays as it was. *)
Definition same_ledger (w w' : W) : Prop := counted w' /\ (forall b, top w' b = top w b) /\ (forall b k, recorded w' b k <-> recorded w b k).

Lemma trial_balances_same probes w r w' :
  counted w -> run api (check_trial_balances debug_error probes) w = Some (r, w') -> same_ledger w w'.
Proof.
  revert w. induction probes as [|[book before] probes IH]; intros w Hc; cbn [check_trial_balances]; [by intros [= _ <-]|].
  cbn [and_then ask run]. destruct (api (Op_trial_balance book None) w) as [[a w1]|] eqn:Ea; [|done]. cbn [mbind option_bind].
  destruct (other_counted (Op_trial_balance book None) _ _ _ eq_refl I Hc Ea) as (Hc1 & Ht1 & Hr1). specialize (Ht1 eq_refl).
  assert (same_ledger w w1) as Hs1 by done. destruct a as [tb|e]; [|by intros [= _ <-]].
  destruct (check_lines book (tb_lines tb)); [|by intros [= _ <-]].
  intros Hr. destruct (IH w1 Hc1 Hr) as (Hc' & Ht' & Hr'). split; [done|].
  split; [intros b; by rewrite Ht', Ht1|]. intros b k. by rewrite Hr', Hr1.
Qed.

(** The events the books have had since the probes. *)
Fixpoint events_since (w : W) (probes : list (string * Seq)) : Z :=
  match probes with [] => 0 | (book, before) :: probes => top w book - before + events_since w probes end.

(** The probes' keys are new. *)
Definition fresh_probes (run_id label : string) (w : W) (books : list string) : Prop :=
  Forall (fun book => ~ recorded w book (probe_key run_id book label)) books.

Lemma events_since_ext w w' probes : (forall b, b ∈ probes.*1 -> top w' b = top w b) -> events_since w' probes = events_since w probes.
Proof.
  induction probes as [|[book before] probes IH]; intros Ht; cbn; [done|]. rewrite IH, (Ht book); [done|by left|].
  intros b Hb. apply Ht. by right.
Qed.

(** The probe's event is the book's newest. *)
Lemma probe_counted run_id label book w r w' :
  counted w -> ~ recorded w book (probe_key run_id book label) ->
  run api (probe_seq debug_error book run_id label) w = Some (r, w') ->
  counted w' /\ (forall b k, recorded w' b k -> recorded w b k \/ b = book /\ k = probe_key run_id book label) /\
  match r with
  | Ok seq => seq = top w' book /\ forall b, top w' b = top w b + if String.eqb b book then 1 else 0
  | Err _ => True
  end.
Proof.
  intros Hc Hf. unfold probe_seq. cbn [and_then ask run lift]. set (d := probe_draft book run_id label).
  destruct (api (Op_post d) w) as [[a w1]|] eqn:Ea; [|done]. intros [= <- <-].
  destruct (post_counted _ _ _ _ Hc Ea) as (Hc1 & new & Hnew & Ht1 & Hr1 & Hres). cbn [td_book td_idempotency_key d probe_draft] in *.
  split; [done|]. split; [intros b k Hb%Hr1; tauto|]. destruct a as [p|e]; [|done]. destruct Hres as [Hrec Hseq].
  destruct new; [|exfalso; apply Hf; by apply Hr1 in Hrec as [?|[? _]]]. split; [by apply Hseq|]. intros b. by rewrite Ht1.
Qed.

Lemma observe_sums run_id label probes acc w n w' :
  counted w -> NoDup probes.*1 -> fresh_probes run_id (label +:+ "-after") w probes.*1 ->
  run api (observe debug_error run_id label probes acc) w = Some (Ok n, w') ->
  n = match probes with [] => acc | _ => wrap_i64 (acc + events_since w probes + Z.of_nat (length probes)) end.
Proof.
  revert acc w. induction probes as [|[book before] probes IH]; intros acc w Hc Hnd Hf; [by intros [= <- _]|].
  cbn [observe]. unfold and_ok. rewrite run_and_then. cbn [fmap list_fmap fst] in Hnd, Hf.
  apply NoDup_cons in Hnd as [Hni Hnd]. apply Forall_cons_1 in Hf as [Hf0 Hf].
  destruct (run api (probe_seq debug_error book run_id (label +:+ "-after")) w) as [[r w1]|] eqn:Ep; [|done]. cbn [mbind option_bind].
  destruct (probe_counted _ _ _ _ _ _ Hc Hf0 Ep) as (Hc1 & Hr1 & Hres). destruct r as [after|e]; [|done]. destruct Hres as [-> Ht1].
  assert (forall b, b ∈ probes.*1 -> top w1 b = top w b) as Hother.
  { intros b Hb. rewrite Ht1. destruct (String.eqb_spec b book) as [->|]; [done|lia]. }
  intros Hrun. apply IH in Hrun as ->; [|done..|].
  - rewrite Ht1, String.eqb_refl. cbn [events_since length].
    rewrite (events_since_ext w w1 probes Hother), wrap_i64_add_r.
    destruct probes as [|x probes]; [cbn; f_equal; lia|]. set (l := x :: probes). rewrite <- Z.add_assoc, wrap_i64_add, Nat2Z.inj_succ.
    generalize (events_since w l) (Z.of_nat (length l)) (top w book). intros e m t. apply f_equal. lia.
  - unfold fresh_probes. rewrite Forall_forall in Hf |- *. intros b Hb [Hrb|[-> _]]%Hr1; [by apply (Hf b)|done].
Qed.

(** The check is exact: under new probe keys it accepts no ledger whose books have not
    had at least the counted commits and at most the ambiguous ones more, and complains
    about the counts of no other. *)
Theorem verify_books_exact (run_id label : string) (probes : list (string * Seq)) (committed ambiguous : Z) (w : W) r w' :
  counted w -> NoDup probes.*1 -> fresh_probes run_id (label +:+ "-after") w probes.*1 ->
  0 <= committed -> 0 <= ambiguous -> committed + ambiguous + Z.of_nat (length probes) <= i64_max ->
  i64_min <= events_since w probes + Z.of_nat (length probes) <= i64_max ->
  run api (verify_books debug_error run_id label probes committed ambiguous) w = Some (r, w') ->
  match r with
  | Ok _ => committed <= events_since w probes <= committed + ambiguous
  | Err e => mismatch e = true -> ~ committed <= events_since w probes <= committed + ambiguous
  end.
Proof.
  intros Hc Hnd Hf Hcom Hamb Hmax Hev. unfold verify_books, and_ok. rewrite run_and_then.
  destruct (run api (check_trial_balances debug_error probes) w) as [[r1 w1]|] eqn:E1; [|done]. cbn [mbind option_bind].
  pose proof (run_results api _ _ _ _ _ (trials_no_mismatch probes) E1) as Hm1. destruct r1 as [u|e1].
  2: { intros [= <- _]. cbn in Hm1. congruence. }
  destruct (trial_balances_same probes w _ w1 Hc E1) as (Hc1 & Ht1 & Hrec1). rewrite run_and_then.
  destruct (run api (observe debug_error run_id label probes 0) w1) as [[r2 w2]|] eqn:E2; [|done]. cbn [mbind option_bind].
  pose proof (run_results api _ _ _ _ _ (observe_no_mismatch run_id label probes 0) E2) as Hm2. destruct r2 as [n|e2].
  2: { intros [= <- _]. cbn in Hm2. congruence. }
  apply observe_sums in E2 as ->; [|done|done|].
  2: { eapply Forall_impl; [exact Hf|]. intros b Hb. cbn. by rewrite Hrec1. }
  assert (match probes with [] => 0 | _ => wrap_i64 (0 + events_since w1 probes + Z.of_nat (length probes)) end =
          events_since w probes + Z.of_nat (length probes)) as ->.
  { rewrite (events_since_ext w w1 probes) by (intros; apply Ht1). destruct probes as [|x l]; [done|]. apply wrap_i64_id. lia. }
  unfold lift, verdict. cbn [run]. unfold i64_max, i64_min in *. rewrite (wrap_i64_id committed), (wrap_i64_id ambiguous) by (unfold i64_min, i64_max; lia).
  rewrite (wrap_i64_id (committed + _)) by (unfold i64_min, i64_max; lia). rewrite wrap_i64_id by (unfold i64_min, i64_max; lia).
  destruct (_ || _) eqn:Ew; bool_to_prop; [intros [= <- _]; lia|]. destruct (_ <? _); intros [= <- _]; lia.
Qed.
End check.

(** ** A step of single posts *)

Definition sum_by {A} (f : A -> Z) (l : list A) : Z := foldr (fun a acc => f a + acc) 0 l.

Lemma sum_by_insert {A} (f : A -> Z) l i x y : l !! i = Some x -> sum_by f (<[i := y]> l) = sum_by f l - f x + f y.
Proof.
  revert i. induction l as [|a l IH]; intros [|i] Hi; try done.
  - injection Hi as ->. unfold sum_by. cbn. lia.
  - change (f a + sum_by f (<[i := y]> l) = f a + sum_by f l - f x + f y). rewrite (IH i Hi). lia.
Qed.

Lemma sum_by_cons {A} (f : A -> Z) a l : sum_by f (a :: l) = f a + sum_by f l.
Proof. done. Qed.

Lemma sum_by_le {A} (f g : A -> Z) l : (forall a, a ∈ l -> f a <= g a) -> sum_by f l <= sum_by g l.
Proof.
  induction l as [|a l IH]; intros Hf; [done|]. rewrite !sum_by_cons. pose proof (Hf a ltac:(left)).
  pose proof (IH (fun b Hb => Hf b (list_elem_of_further _ _ _ Hb))). lia.
Qed.

Lemma sum_by_plus {A} (f g : A -> Z) l : sum_by (fun a => f a + g a) l = sum_by f l + sum_by g l.
Proof. induction l as [|a l IH]; [done|]. rewrite !sum_by_cons. lia. Qed.

Lemma sum_by_zero {A} (l : list A) : sum_by (fun _ => 0) l = 0.
Proof. induction l as [|a l IH]; [done|]. by rewrite sum_by_cons, IH. Qed.

Lemma sum_by_nonneg {A} (f : A -> Z) l : (forall a, a ∈ l -> 0 <= f a) -> 0 <= sum_by f l.
Proof. intros Hf. rewrite <- (sum_by_zero l). by apply sum_by_le. Qed.

Lemma sum_by_elem {A} (f : A -> Z) l x : (forall a, a ∈ l -> 0 <= f a) -> x ∈ l -> f x <= sum_by f l.
Proof.
  intros Hf. induction 1 as [a l|x a l Hx IH]; rewrite sum_by_cons.
  - pose proof (sum_by_nonneg f l (fun b Hb => Hf b (list_elem_of_further _ _ _ Hb))). lia.
  - pose proof (IH (fun b Hb => Hf b (list_elem_of_further _ _ _ Hb))). pose proof (Hf a ltac:(left)). lia.
Qed.

(** What an outcome adds to the commits and to the ambiguous ones. *)
Definition counts (o : OpOutcome) : Z * Z :=
  match o with
  | Success _ _ true => (1, 0)
  | Failed kind => (0, if String.eqb kind "transport" then 1 else 0)
  | Batch n_ok _ _ first_err => (n_ok, match first_err with Some (Failed kind) => if String.eqb kind "transport" then 1 else 0 | _ => 0 end)
  | _ => (0, 0)
  end.

Section steps.
Context `{Histograms} {W : Type} (api : Implementation W) `{!CountedLedger api}.

Definition counter_ok (x : Z) : Prop := 0 <= x <= u64_max.

Lemma plus_zero x : counter_ok x -> plus x 0 = x.
Proof. intros Hx. unfold plus, wrap_u64, counter_ok, u64_max in *. rewrite Z.add_0_r. apply Z.mod_small. lia. Qed.

Lemma plus_small x y : counter_ok (x + y) -> plus x y = x + y.
Proof. intros Hx. unfold plus, wrap_u64, counter_ok, u64_max in *. apply Z.mod_small. lia. Qed.

Lemma measure_totals o us l :
  l_total_committed (measure o us l) = l_total_committed l /\ l_total_ambiguous (measure o us l) = l_total_ambiguous l.
Proof. by destruct o. Qed.

Lemma record_totals o us measured l :
  counter_ok (l_total_committed l) -> counter_ok (l_total_ambiguous l) ->
  l_total_committed (record o us measured l) = plus (l_total_committed l) (counts o).1 /\
  l_total_ambiguous (record o us measured l) = plus (l_total_ambiguous l) (counts o).2.
Proof.
  intros Hc Ha. assert (l_total_committed (lifetime o l) = plus (l_total_committed l) (counts o).1 /\
    l_total_ambiguous (lifetime o l) = plus (l_total_ambiguous l) (counts o).2) as [H1 H2].
  { destruct o as [kind dedup [|]| |kind|n_ok n_dedup n_shed [[]|]]; cbn; repeat case_match; cbn; by rewrite ?plus_zero. }
  unfold record. destruct measured; [|done]. destruct (measure_totals o us (lifetime o l)) as [-> ->]. done.
Qed.

(** *** Requests *)

(** The books together. *)
Definition events_of (w0 w : W) (books : list string) : Z := sum_by (fun b => top w b - top w0 b) books.

Lemma events_of_one w0 w w' books book e :
  NoDup books -> book ∈ books -> (forall b, top w' b = top w b + if String.eqb b book then e else 0) ->
  events_of w0 w' books = events_of w0 w books + e.
Proof.
  intros Hnd Hin Ht. unfold events_of. induction books as [|b books IH]; [by apply elem_of_nil in Hin|].
  apply NoDup_cons in Hnd as [Hni Hnd]. rewrite !sum_by_cons, Ht. apply elem_of_cons in Hin as [->|Hin].
  - rewrite String.eqb_refl. assert (sum_by (fun b0 => top w' b0 - top w0 b0) books = sum_by (fun b0 => top w b0 - top w0 b0) books) as ->; [|lia].
    clear IH Hnd. induction books as [|b' books IH]; [done|]. rewrite !sum_by_cons, Ht. apply not_elem_of_cons in Hni as [Hne Hni].
    destruct (String.eqb_spec b' b) as [->|_]; [done|]. rewrite IH by done. lia.
  - rewrite IH by done. destruct (String.eqb_spec b book) as [->|_]; [done|]. lia.
Qed.

Lemma events_of_same w0 w w' books : (forall b, top w' b = top w b) -> events_of w0 w' books = events_of w0 w books.
Proof. intros Ht. unfold events_of. induction books as [|b books IH]; [done|]. rewrite !sum_by_cons, IH, Ht. done. Qed.

Lemma events_of_refl w books : events_of w w books = 0.
Proof. unfold events_of. induction books as [|b books IH]; [done|]. rewrite sum_by_cons, IH. lia. Qed.

Lemma events_of_trans w0 w1 w2 books : events_of w0 w2 books = events_of w0 w1 books + events_of w1 w2 books.
Proof. unfold events_of. induction books as [|b books IH]; [done|]. rewrite !sum_by_cons, IH. lia. Qed.

(** A worker's request: a post with its own key, or a read. *)
Inductive request (books : list string) (scope : string) (i : nat) (q : Z) : LedgerCode OpOutcome -> Prop :=
| a_post d : td_book d ∈ books -> td_idempotency_key d = transfer_key scope (Z.of_nat i) q ->
    request books scope i q (and_then (ask (Op_post d)) (fun r => Return (post_outcome r)))
| a_read op (f : answer op -> OpOutcome) : posts op = false -> defines op = false ->
    (forall a, (counts (f a)).1 = 0 /\ 0 <= (counts (f a)).2 <= 1) ->
    request books scope i q (and_then (ask op) (fun a => Return (f a))).

Lemma post_counts r : (counts (post_outcome r)).1 = (if is_ok r then 1 else 0) /\
  0 <= (counts (post_outcome r)).2 <= 1 - (counts (post_outcome r)).1.
Proof.
  destruct r as [p|e]; cbn; [lia|]. destruct e as [| | | | | | | | |message| | | | |]; try (cbn; lia).
  unfold classify. destruct (String.prefix _ message); cbn; lia.
Qed.

(** A request under a new key adds one event or none, as its outcome is counted. *)
Lemma request_tallied books scope i q code w o w' :
  NoDup books -> request books scope i q code -> counted w ->
  (forall b, ~ recorded w b (transfer_key scope (Z.of_nat i) q)) -> run api code w = Some (o, w') ->
  counted w' /\ exists e : Z, 0 <= e <= 1 /\
    (let '(c, a) := counts o in 0 <= c /\ 0 <= a /\ c + a <= 1 /\ c <= e <= c + a) /\
    (forall w0, events_of w0 w' books = events_of w0 w books + e) /\
    (forall b k, recorded w' b k -> recorded w b k \/ k = transfer_key scope (Z.of_nat i) q).
Proof.
  intros Hnd Hreq Hc Hnew. destruct Hreq as [d Hb Hk|op f Hp Hd Hf]; cbn [and_then ask run].
  - destruct (api (Op_post d) w) as [[r w1]|] eqn:Ea; [|done]. intros [= <- <-]. rewrite <- Hk in *.
    destruct (post_counted _ _ _ _ Hc Ea) as (Hc1 & new & _ & Ht & Hr & Hres). split; [done|].
    exists (if new then 1 else 0). split; [by destruct new|]. split; [|split].
    + pose proof (post_counts r) as [H1 H2]. destruct (counts (post_outcome r)) as [c a] eqn:Ecnt. cbn [fst snd] in *.
      destruct r as [p|e]; cbn [is_ok] in *.
      * destruct Hres as [Hrd _]. destruct new; [lia|]. apply Hr in Hrd as [Hrd|[? _]]; [by apply Hnew in Hrd|done].
      * destruct new; [|lia]. destruct (Hres eq_refl) as (m & -> & Hm). cbn in Ecnt. rewrite Hm in Ecnt. cbn in Ecnt. injection Ecnt as <- <-. lia.
    + intros w0. apply (events_of_one w0 w w1 books (td_book d)); [done..|]. intros b. rewrite Ht. by destruct new, (String.eqb b (td_book d)).
    + intros b k Hb'%Hr. tauto.
  - destruct (api op w) as [[a w1]|] eqn:Ea; [|done]. intros [= <- <-].
    assert (typed op) as Hty by (by destruct op).
    destruct (other_counted _ _ _ _ Hp Hty Hc Ea) as (Hc1 & Ht & Hr). split; [done|]. exists 0. split; [lia|]. split; [|split].
    + specialize (Hf a). destruct (counts (f a)) as [c am]. cbn [fst snd] in Hf. lia.
    + intros w0. rewrite (events_of_same w0 w w1) by (by apply Ht). lia.
    + intros b k Hb%Hr. by left.
Qed.
End steps.

(** ** The workers of a step *)

Section one_step.
Context `{Histograms} {W : Type} (api : Implementation W) `{!CountedLedger api}.
Variables (books : list string) (scope : string) (op : nat -> Z -> option (LedgerCode OpOutcome)).
Hypothesis api_answers : forall op w, is_Some (api op w).
Hypothesis histograms_add : forall a b, is_Some (histogram_add a b).
Hypothesis books_distinct : NoDup books.
Hypothesis requests_ok : forall i q, exists code, op i q = Some code /\ request books scope i q code.

Definition worker_ok (x : Z * Local) : Prop :=
  0 <= l_total_committed x.2 /\ 0 <= l_total_ambiguous x.2 /\ l_total_committed x.2 + l_total_ambiguous x.2 <= x.1.

Definition committed_by (ws : list (Z * Local)) : Z := sum_by (fun x => l_total_committed x.2) ws.
Definition ambiguous_by (ws : list (Z * Local)) : Z := sum_by (fun x => l_total_ambiguous x.2) ws.

(** A key of a request that a worker has made. *)
Definition key_used (ws : list (Z * Local)) (k : string) : Prop :=
  exists i q x, ws !! i = Some x /\ 0 <= q < x.1 /\ k = transfer_key scope (Z.of_nat i) q.

Definition fresh_scope (w : W) : Prop :=
  forall b i q, counter_ok i -> counter_ok q -> ~ recorded w b (transfer_key scope i q).

(** After [n] turns since [w0]. *)
Record tallied (w0 : W) (n : Z) (ws : list (Z * Local)) (w : W) : Prop := {
  ta_counted : counted w;
  ta_workers : Forall worker_ok ws;
  ta_turns : sum_by fst ws <= n;
  ta_events : committed_by ws <= events_of api w0 w books <= committed_by ws + ambiguous_by ws;
  ta_keys : forall b k, recorded w b k -> recorded w0 b k \/ key_used ws k
}.

Lemma tallied_later w0 n m ws w : n <= m -> tallied w0 n ws w -> tallied w0 m ws w.
Proof. intros Hn [? ? ? ? ?]. split; try done. lia. Qed.

Lemma worker_in w0 n ws w i x :
  tallied w0 n ws w -> ws !! i = Some x -> worker_ok x /\ x.1 <= n.
Proof.
  intros Ht Hx. pose proof (ta_workers _ _ _ _ Ht) as Hok. rewrite Forall_forall in Hok.
  apply list_elem_of_lookup_2 in Hx. split; [by apply Hok|]. pose proof (ta_turns _ _ _ _ Ht).
  enough (x.1 <= sum_by fst ws) by lia. apply sum_by_elem; [|done]. intros a (? & ? & ?)%Hok. lia.
Qed.

(** Replacing a worker's tally. *)
Lemma tallied_insert w0 n ws w w' i seq l l' c a e :
  tallied w0 n ws w -> ws !! i = Some (seq, l) -> counted w' ->
  l_total_committed l' = l_total_committed l + c -> l_total_ambiguous l' = l_total_ambiguous l + a ->
  0 <= c -> 0 <= a -> c + a <= 1 -> c <= e <= c + a -> events_of api w0 w' books = events_of api w0 w books + e ->
  (forall b k, recorded w' b k -> recorded w b k \/ k = transfer_key scope (Z.of_nat i) seq) ->
  tallied w0 (n + 1) (<[i := (seq + 1, l')]> ws) w'.
Proof.
  intros Ht Hi Hc Hl Ha H0c H0a Hca Hce Htop Hkeys. destruct (worker_in _ _ _ _ _ _ Ht Hi) as [(H1 & H2 & H3) _]. cbn [fst snd] in *.
  destruct Ht as [_ Hok Hturns Hev Hold]. split.
  - exact Hc.
  - apply Forall_insert; [done|]. unfold worker_ok. cbn. lia.
  - rewrite (sum_by_insert _ _ _ _ _ Hi). cbn. lia.
  - unfold committed_by, ambiguous_by in *. rewrite !(sum_by_insert _ _ _ _ _ Hi). cbn [fst snd]. lia.
  - assert (i < length ws)%nat as Hlt by (by apply lookup_lt_Some in Hi).
    intros b k [Hk| ->]%Hkeys.
    + destruct (Hold b k Hk) as [?|(j & q & x & Hj & Hq & ->)]; [by left|]. right. destruct (decide (j = i)) as [->|Hne].
      * rewrite Hi in Hj. injection Hj as <-. exists i, q, (seq + 1, l'). cbn in *. split_and!; [by apply list_lookup_insert_eq|lia..|done].
      * exists j, q, x. split_and!; [by rewrite <- Hj; apply list_lookup_insert_ne|lia..|done].
    + right. exists i, seq, (seq + 1, l'). cbn. split_and!; [by apply list_lookup_insert_eq|lia..|done].
Qed.

Lemma worker_turn_tallied cfg start t w0 n ws w :
  fresh_scope w0 -> Z.of_nat (length ws) <= u64_max -> n < u64_max -> tallied w0 n ws w ->
  exists ws' w', worker_turn api op cfg start t ws w = Some (ws', w') /\ length ws' = length ws /\ tallied w0 (n + 1) ws' w'.
Proof.
  intros Hf Hlen Hn Ht. unfold worker_turn. destruct (ws !! tn_worker t) as [[seq l]|] eqn:Hi.
  2: { exists ws, w. split_and!; try done. by apply (tallied_later _ n); [lia|]. }
  case_match; [|exists ws, w; split_and!; try done; by apply (tallied_later _ n); [lia|]].
  destruct (worker_in _ _ _ _ _ _ Ht Hi) as [(Hc0 & Ha0 & Hca0) Hseq]. cbn [fst snd] in *.
  assert (tn_worker t < length ws)%nat as Hlt by (by apply lookup_lt_Some in Hi).
  destruct (requests_ok (tn_worker t) seq) as (code & -> & Hreq). cbn [mbind option_bind].
  destruct (run_total api code w api_answers) as [[o w1] Hrun]. rewrite Hrun. cbn [mbind option_bind].
  destruct (request_tallied api books scope (tn_worker t) seq code w o w1 books_distinct Hreq (ta_counted _ _ _ _ Ht)) as (Hc1 & e & He & Hcnt & Htop & Hrec);
    [|exact Hrun|].
  { intros b [Hr|(i & q & x & Hx & Hq & Heq)]%(ta_keys _ _ _ _ Ht).
    - revert Hr. apply Hf; unfold counter_ok; lia.
    - destruct (worker_in _ _ _ _ _ _ Ht Hx) as [_ Hx1]. assert (i < length ws)%nat by (by apply lookup_lt_Some in Hx).
      apply transfer_keys_distinct in Heq as (_ & Heq%Nat2Z.inj & ->); [|lia..]. rewrite <- Heq in Hx. rewrite Hx in Hi. injection Hi as ->. cbn in Hq. lia. }
  destruct (record_totals o (tn_elapsed t) (start + sc_warmup cfg <=? tn_t0 t) l) as [Hrc Hra]; [unfold counter_ok; lia..|].
  destruct (counts o) as [c a]. destruct Hcnt as (H0c & H0a & Hca & Hce). cbn [fst snd] in *.
  rewrite plus_small in Hrc, Hra by (unfold counter_ok; lia).
  eexists _, w1. split; [reflexivity|]. split; [apply length_insert|].
  rewrite (plus_small seq 1) by (unfold counter_ok; lia).
  by eapply (tallied_insert w0 n ws w w1 _ seq l _ c a e).
Qed.

Lemma worker_turns_tallied cfg start turns w0 n ws w :
  fresh_scope w0 -> Z.of_nat (length ws) <= u64_max -> n + Z.of_nat (length turns) <= u64_max -> tallied w0 n ws w ->
  exists ws' w', worker_turns api op cfg start turns ws w = Some (ws', w') /\
    length ws' = length ws /\ tallied w0 (n + Z.of_nat (length turns)) ws' w'.
Proof.
  intros Hf. revert n ws w. induction turns as [|t turns IH]; intros n ws w Hlen Hn Ht; cbn [worker_turns length] in *.
  { exists ws, w. by rewrite Z.add_0_r. }
  destruct (worker_turn_tallied cfg start t w0 n ws w Hf Hlen ltac:(lia) Ht) as (ws1 & w1 & -> & Hl1 & Ht1). cbn [mbind option_bind].
  destruct (IH (n + 1) ws1 w1) as (ws' & w' & -> & Hl & Ht'); [by rewrite Hl1|lia|done|].
  exists ws', w'. split; [done|]. split; [congruence|]. by replace (n + Z.of_nat (S (length turns))) with (n + 1 + Z.of_nat (length turns)) by lia.
Qed.

Lemma add_latencies_total ls acc : is_Some (add_latencies ls acc).
Proof.
  revert acc. induction ls as [|[k h] ls IH]; intros acc; cbn; [by eexists|].
  destruct (histograms_add (default histogram_new (acc !! k)) h) as [h' ->]. apply IH.
Qed.

(** The report of a step counts what its workers have counted. *)
Lemma merge_all_totals (ws : list (Z * Local)) report :
  Forall worker_ok ws -> 0 <= sr_total_committed report -> 0 <= sr_total_ambiguous report ->
  sr_total_committed report + committed_by ws <= u64_max -> sr_total_ambiguous report + ambiguous_by ws <= u64_max ->
  exists r, merge_all (map snd ws) report = Some r /\
    sr_total_committed r = sr_total_committed report + committed_by ws /\
    sr_total_ambiguous r = sr_total_ambiguous report + ambiguous_by ws.
Proof.
  revert report. induction ws as [|[seq l] ws IH]; intros report Hok Hc Ha Hcs Has; cbn [map merge_all].
  { exists report. unfold committed_by, ambiguous_by. cbn. rewrite !Z.add_0_r. done. }
  apply Forall_cons_1 in Hok as [(H1 & H2 & _) Hok]. unfold committed_by, ambiguous_by in *. rewrite !sum_by_cons in *. cbn [fst snd] in *.
  assert (0 <= sum_by (fun x => l_total_committed x.2) ws /\ 0 <= sum_by (fun x => l_total_ambiguous x.2) ws) as [Hp1 Hp2].
  { rewrite Forall_forall in Hok. split; apply sum_by_nonneg; by intros x (? & ? & ?)%Hok. }
  unfold merge. destruct (add_latencies_total (map_to_list (l_latencies l)) (sr_latencies report)) as [hs ->]. cbn [mbind option_bind].
  match goal with |- context [merge_all _ ?rp] => specialize (IH rp Hok) end.
  cbn [sr_total_committed sr_total_ambiguous] in IH. rewrite (plus_small (sr_total_committed report)), (plus_small (sr_total_ambiguous report)) in IH |- * by (unfold counter_ok; lia).
  destruct IH as (r & Hr & Hrc & Hra); [lia..|]. exists r. split; [exact Hr|]. lia.
Qed.

Lemma tallied_start w n : counted w -> tallied w 0 (replicate n (0, Local_new)) w.
Proof.
  intros Hc. assert (forall f : Z * Local -> Z, f (0, Local_new) = 0 -> sum_by f (replicate n (0, Local_new)) = 0) as Hz.
  { intros f Hf. induction n as [|n IH]; [done|]. cbn [replicate]. rewrite sum_by_cons. lia. }
  split; [done| | | |tauto].
  - apply Forall_replicate. unfold worker_ok. cbn. lia.
  - by rewrite Hz.
  - unfold committed_by, ambiguous_by. rewrite !Hz by done. rewrite events_of_refl. lia.
Qed.

(** What a step of single posts leaves. *)
Record stepped (w : W) (turns : Z) (c a : Z) (w' : W) : Prop := {
  sp_counted : counted w';
  sp_counts : 0 <= c /\ 0 <= a /\ c + a <= turns;
  sp_events : c <= events_of api w w' books <= c + a;
  sp_keys : forall b k, recorded w' b k -> recorded w b k \/ exists i q, counter_ok i /\ counter_ok q /\ k = transfer_key scope i q
}.

Lemma run_step_tallied cfg start turns w :
  counted w -> fresh_scope w -> Z.of_nat (sc_workers cfg) <= u64_max -> Z.of_nat (length turns) <= u64_max ->
  exists r w', run_step api op cfg start turns w = Some (r, w') /\
    stepped w (Z.of_nat (length turns)) (sr_total_committed r) (sr_total_ambiguous r) w'.
Proof.
  intros Hc Hf Hw Ht. unfold run_step.
  destruct (worker_turns_tallied cfg start turns w 0 (replicate (sc_workers cfg) (0, Local_new)) w) as (ws & w' & -> & Hlen & Hta);
    [done|by rewrite length_replicate|lia|by apply tallied_start|]. rewrite length_replicate in Hlen. rewrite Z.add_0_l in Hta.
  cbn [mbind option_bind]. pose proof (ta_workers _ _ _ _ Hta) as Hok.
  assert (0 <= committed_by ws /\ 0 <= ambiguous_by ws /\ committed_by ws + ambiguous_by ws <= Z.of_nat (length turns)) as (H1 & H2 & H3).
  { rewrite Forall_forall in Hok. unfold committed_by, ambiguous_by. split_and!.
    - apply sum_by_nonneg. by intros x (? & ? & ?)%Hok.
    - apply sum_by_nonneg. by intros x (? & ? & ?)%Hok.
    - rewrite <- sum_by_plus. etrans; [|exact (ta_turns _ _ _ _ Hta)]. apply sum_by_le. by intros x (? & ? & ?)%Hok. }
  destruct (merge_all_totals ws (mkStepReport (sc_workers cfg) (sc_duration cfg) ∅ 0 0 0 ∅ 0 0)) as (r & -> & Hrc & Hra); cbn; try done; try lia.
  cbn in Hrc, Hra. exists r, w'. split; [done|]. rewrite Hrc, Hra. split.
  - apply Hta.
  - done.
  - apply (ta_events _ _ _ _ Hta).
  - intros b k [?|(i & q & x & Hx & Hq & ->)]%(ta_keys _ _ _ _ Hta); [by left|]. right. exists (Z.of_nat i), q.
    destruct (worker_in _ _ _ _ _ _ Hta Hx) as [_ Hx1]. apply lookup_lt_Some in Hx. unfold counter_ok. split_and!; try done; lia.
Qed.
End one_step.


(** ** The scenarios *)

(** The keys of a run. *)
Definition run_key (run_id k : string) : Prop := exists rest, k = "bench/" +:+ run_id +:+ "/" +:+ rest.

Lemma string_app_assoc (a b c : string) : (a +:+ b) +:+ c = a +:+ (b +:+ c).
Proof. induction a as [|x a IH]; cbn; [done|by rewrite IH]. Qed.

Lemma string_app_inj (a b c : string) : a +:+ b = a +:+ c -> b = c.
Proof. induction a as [|x a IH]; cbn; [done|]. intros [= Heq]. by apply IH. Qed.

Lemma transfer_run_key run_id rest i q : run_key run_id (transfer_key (run_id +:+ "/" +:+ rest) i q).
Proof. unfold run_key, transfer_key. rewrite string_app_assoc. by eexists. Qed.

Lemma probe_run_key run_id book label : run_key run_id (probe_key run_id book label).
Proof. unfold run_key, probe_key. by eexists. Qed.

Lemma probe_key_split run_id book label :
  probe_key run_id book label = ("bench/" +:+ run_id +:+ "/probe/" +:+ book) +:+ String "/" label.
Proof. unfold probe_key. by rewrite !string_app_assoc. Qed.

(** A transfer's key ends in a number, a probe's in its label. *)
Lemma probe_no_transfer run_id book label s i q :
  without "/" label = true -> (all_digits label -> False) -> 0 <= q -> probe_key run_id book label <> transfer_key s i q.
Proof.
  intros Hl Hd Hq Heq.
  assert (transfer_key s i q = ("bench/" +:+ s +:+ "/" +:+ u64_to_string i) +:+ String "/" (u64_to_string q)) as Ht
    by (unfold transfer_key; by rewrite !string_app_assoc).
  rewrite probe_key_split, Ht in Heq. apply last_separator in Heq as [_ Heq]; [|done|by apply u64_without].
  apply Hd. rewrite Heq. by apply u64_to_string_digits.
Qed.

Lemma probe_key_label run_id book book' label label' :
  without "/" label = true -> without "/" label' = true -> probe_key run_id book label = probe_key run_id book' label' -> label = label'.
Proof. intros Hl Hl'. rewrite !probe_key_split. by intros [_ ?]%last_separator. Qed.

(** *** Options *)

Lemma first_duplicate_none seen values :
  first_duplicate seen values = None -> NoDup values /\ forall v, v ∈ values -> ~ v ∈ seen.
Proof.
  revert seen. induction values as [|v values IH]; intros seen; cbn; [intros _; split; [constructor|set_solver]|].
  unfold contains. destruct (existsb (Z.eqb v) seen) eqn:Ee; [done|]. intros [Hnd Hseen]%IH.
  assert (~ v ∈ seen) as Hv.
  { intros Hv. assert (existsb (Z.eqb v) seen = true) as He; [|congruence]. apply existsb_exists. exists v. split; [by apply list_elem_of_In|apply Z.eqb_refl]. }
  split; [constructor; [|done]|].
  - intros Hin. apply (Hseen v Hin). left.
  - intros x [->|Hx]%elem_of_cons; [done|]. intros Hxs. apply (Hseen x Hx). by right.
Qed.

(** A sweep has distinct positive values. *)
Lemma validate_sweep_ok values flag : validate_sweep values flag = Ok () -> NoDup values /\ ~ 0 ∈ values.
Proof.
  unfold validate_sweep. destruct values as [|v values]; [done|]. unfold contains. destruct (existsb (Z.eqb 0) (v :: values)) eqn:Ez; [done|].
  destruct (first_duplicate [] (v :: values)) eqn:E; [done|]. intros _. apply first_duplicate_none in E as [? _]. split; [done|].
  intros Hin. assert (existsb (Z.eqb 0) (v :: values) = true) as He; [|congruence]. apply existsb_exists. exists 0. split; [by apply list_elem_of_In|done].
Qed.

Lemma validate_sweep_no_mismatch values flag : no_mismatch (validate_sweep values flag).
Proof. unfold validate_sweep. destruct values; [done|]. destruct (contains _ 0); [done|]. by case_match. Qed.

Lemma check_opts_ok s : check_opts s = Ok () ->
  NoDup (swept_values s) /\ ~ 0 ∈ swept_values s /\ match s with Mixed _ books _ => books <> 0 | _ => True end.
Proof.
  destruct s as [cs ppt bs|ns per ppt|cs books ws]; cbn; destruct (validate_sweep _ _) as [[]|] eqn:Ev; try done; apply validate_sweep_ok in Ev as [??];
    case_match; try done; bool_to_prop; done.
Qed.

Lemma check_opts_no_mismatch s : no_mismatch (check_opts s).
Proof.
  destruct s as [cs ppt bs|ns per ppt|cs books ws]; cbn;
    match goal with |- context [validate_sweep ?l ?f] => pose proof (validate_sweep_no_mismatch l f); destruct (validate_sweep l f) end; cbn in *; repeat case_match; done.
Qed.

(** The books of a scenario. *)
Definition book_names (n : nat) (i : Z) : list string := map book_name (seqZ i (Z.of_nat n)).

Lemma book_names_S n i : book_names (S n) i = book_name i :: book_names n (i + 1).
Proof. unfold book_names. rewrite seqZ_cons by lia. cbn [map]. by replace (Z.pred (Z.of_nat (S n))) with (Z.of_nat n) by lia; rewrite Z.add_1_r. Qed.

Lemma book_name_in n i k : i <= k < i + Z.of_nat n -> book_name k ∈ book_names n i.
Proof. intros Hk. unfold book_names. apply list_elem_of_fmap_2, elem_of_seqZ. lia. Qed.

Lemma book_name_inj i j : counter_ok i -> counter_ok j -> book_name i = book_name j -> i = j.
Proof. intros Hi Hj Heq%string_app_inj. by apply u64_to_string_inj in Heq. Qed.

Lemma book_names_distinct n i : 0 <= i -> i + Z.of_nat n <= u64_max + 1 -> NoDup (book_names n i).
Proof.
  revert i. induction n as [|n IH]; intros i H0 Hn; [constructor|]. rewrite book_names_S. constructor; [|apply IH; lia].
  intros Hin. unfold book_names in Hin. apply list_elem_of_fmap in Hin as (j & Heq & Hj%elem_of_seqZ).
  apply book_name_inj in Heq; unfold counter_ok; lia.
Qed.

(** What a scenario's numbers must be: sizes are [usize]s, postings come in pairs, a mix
    has a weight; batches are left out. *)
Definition even_postings (n : Z) : Prop := 2 <= n /\ n mod 2 = 0.

Definition fair (s : Scenario) : Prop :=
  Forall counter_ok (swept_values s) /\
  match s with
  | Post_one_book _ postings_per_tx batch_size => even_postings postings_per_tx /\ batch_size = 1
  | Post_many_books _ _ postings_per_tx => even_postings postings_per_tx
  | Mixed _ books weights => counter_ok books /\ 0 < total weights
  end.

Lemma max_ok l : Forall counter_ok l -> counter_ok (foldr Z.max 0 l) /\ forall v, v ∈ l -> v <= foldr Z.max 0 l.
Proof.
  unfold counter_ok. induction 1 as [|x l Hx _ [IH IH']]; cbn; [split; [unfold u64_max; lia|by intros v ?%elem_of_nil]|].
  split; [lia|]. intros v [->|Hv]%elem_of_cons; [lia|]. specialize (IH' v Hv). lia.
Qed.

Lemma books_used_ok s : fair s -> Z.of_nat (books_used s) <= u64_max.
Proof.
  destruct s as [cs ppt bs|ns per ppt|cs books ws]; intros [Hv Hs]; cbn in *; [unfold u64_max; lia| |unfold counter_ok in Hs; lia].
  destruct (max_ok _ Hv) as [[] _]. lia.
Qed.

Definition scope_of (run_id : string) (s : Scenario) (v : Z) : string :=
  run_id +:+ match s with Post_one_book _ _ _ => "/one/c" | Post_many_books _ _ _ => "/many/b" | Mixed _ _ _ => "/mixed/c" end +:+ u64_to_string v.

Lemma scope_of_inj run_id s v v' : counter_ok v -> counter_ok v' -> scope_of run_id s v = scope_of run_id s v' -> v = v'.
Proof. unfold scope_of. intros Hv Hv' Heq%string_app_inj%string_app_inj. by apply u64_to_string_inj in Heq. Qed.

Lemma scope_run_key run_id s v i q : run_key run_id (transfer_key (scope_of run_id s v) i q).
Proof. unfold scope_of. by destruct s; cbn; apply transfer_run_key. Qed.

Lemma draft_of book scope worker seq n : even_postings n -> exists d, transfer_draft book scope worker seq n = Some d /\
  td_book d = book /\ td_idempotency_key d = transfer_key scope worker seq.
Proof.
  intros [Hp He]. unfold transfer_draft. rewrite (proj2 (Z.leb_le _ _) Hp), (proj2 (Z.eqb_eq _ _) He). by eexists.
Qed.

Lemma read_counts {A} kind (r : ApiResult A) : (counts (read_outcome kind r)).1 = 0 /\ 0 <= (counts (read_outcome kind r)).2 <= 1.
Proof.
  destruct r as [a|e]; cbn; [lia|]. destruct e as [| | | | | | | | |message| | | | |]; try (cbn; lia).
  unfold classify. destruct (String.prefix _ message); cbn; lia.
Qed.

(** A step's workers issue requests. *)
Lemma step_requests run_id s probes v :
  fair s -> check_opts s = Ok () -> v ∈ swept_values s -> probes.*1 = book_names (books_used s) 0 ->
  exists label workers op, step_of run_id s probes v = (label, workers, op) /\ workers <= u64_max /\
    forall i q, exists code, op i q = Some code /\ request (book_names (books_used s) 0) (scope_of run_id s v) i q code.
Proof.
  intros [Hvs Hs] Hopts Hv Hprobes. apply check_opts_ok in Hopts as (_ & Hz & Hbooks). rewrite Forall_forall in Hvs.
  pose proof (Hvs v Hv) as Hok. destruct s as [cs ppt bs|ns per ppt|cs books ws]; cbn [step_of swept_values scope_of books_used] in *.
  - destruct Hs as [Hppt ->]. eexists _, _, _. split; [done|]. split; [apply Hok|]. intros i q. unfold post_op. cbn [Z.eqb Pos.eqb].
    destruct (draft_of (book_name 0) (run_id +:+ "/one/c" +:+ u64_to_string v) (Z.of_nat i) q ppt Hppt) as (d & -> & Hb & Hk).
    eexists. split; [reflexivity|]. apply a_post; [rewrite Hb; left|done].
  - eexists _, _, _. split; [done|]. split; [pose proof (wrap_u64_range (v * per)); unfold u64_max; lia|]. intros i q. unfold many_op.
    destruct (draft_of (book_name (Z.of_nat i mod v)) (run_id +:+ "/many/b" +:+ u64_to_string v) (Z.of_nat i) q ppt Hs) as (d & -> & Hb & Hk).
    eexists. split; [reflexivity|]. apply a_post; [|done]. rewrite Hb. apply book_name_in.
    assert (v <> 0) by (by intros ->). destruct (max_ok ns) as [_ Hmax]; [by apply Forall_forall|]. specialize (Hmax v Hv).
    unfold counter_ok in Hok. pose proof (Z.mod_pos_bound (Z.of_nat i) v). lia.
  - destruct Hs as [Hb Hw]. eexists _, _, _. split; [done|]. split; [apply Hok|]. intros i q. unfold mixed_op.
    assert (length probes = Z.to_nat books) as Hlen by (rewrite <- (length_fmap fst probes), Hprobes; unfold book_names; rewrite length_map, length_seqZ; lia).
    unfold counter_ok in Hb. assert (is_Some (probes !! (i mod length probes)%nat)) as [[book base] Hp].
    { apply lookup_lt_is_Some_2, Nat.mod_upper_bound. lia. }
    rewrite Hp. cbn [mbind option_bind]. assert (book ∈ book_names (Z.to_nat books) 0) as Hin.
    { rewrite <- Hprobes. apply list_elem_of_lookup_2 in Hp. by apply (list_elem_of_fmap_2 fst) in Hp. }
    unfold op_for. rewrite (proj2 (Z.ltb_lt _ _) Hw). cbn [mbind option_bind].
    repeat case_match; eexists; (split; [reflexivity|]); try (apply a_read; [done|done|apply read_counts]).
    all: by apply a_post.
Qed.

Section scenario.
Context `{Histograms} {W : Type} (api : Implementation W) `{!CountedLedger api}.
Variable debug_error : ApiError -> string.
Variables (run_id : string) (warmup duration : Z).
Hypothesis api_answers : forall op w, is_Some (api op w).
Hypothesis histograms_add : forall a b, is_Some (histogram_add a b).

Definition turns_made (schedule : list (Z * list Turn)) : Z := sum_by (fun s => Z.of_nat (length s.2)) schedule.

Lemma turns_made_split schedule :
  turns_made schedule = Z.of_nat (length (default (0, []) (head schedule)).2) + turns_made (tail schedule) /\ 0 <= turns_made (tail schedule).
Proof.
  assert (forall l, 0 <= turns_made l) as Hp by (intros l; apply sum_by_nonneg; lia).
  destruct schedule as [|s schedule]; [done|]. split; [done|apply Hp].
Qed.

(** The workers of all steps together. *)
Record swept (books : list string) (w : W) (turns : Z) (c a : Z) (w' : W) : Prop := {
  sw_counted : counted w';
  sw_counts : 0 <= c /\ 0 <= a /\ c + a <= turns;
  sw_events : c <= events_of api w w' books <= c + a;
  sw_keys : forall b k, recorded w' b k -> recorded w b k \/ exists s i q, 0 <= q /\ k = transfer_key s i q
}.

Lemma sweep_tallied s probes values schedule c0 a0 w :
  fair s -> check_opts s = Ok () -> probes.*1 = book_names (books_used s) 0 -> values ⊆ swept_values s ->
  counted w -> NoDup values -> (forall v, v ∈ values -> fresh_scope api (scope_of run_id s v) w) ->
  0 <= c0 -> 0 <= a0 -> c0 + a0 + turns_made schedule <= u64_max ->
  exists steps c a w', sweep api run_id warmup duration s probes values schedule c0 a0 w = Some (steps, c0 + c, a0 + a, w') /\
    map fst steps = map (fun v => (step_of run_id s probes v).1.1) values /\
    swept (book_names (books_used s) 0) w (turns_made schedule) c a w'.
Proof.
  intros Hfair Hopts Hprobes. revert schedule c0 a0 w. induction values as [|v values IH]; intros schedule c0 a0 w Hsub Hc Hnd Hf Hc0 Ha0 Hmax; cbn [sweep map].
  { exists [], 0, 0, w. rewrite !Z.add_0_r. split; [done|]. split; [done|].
    split; [done|destruct (turns_made_split schedule); lia|rewrite events_of_refl; lia|tauto]. }
  apply NoDup_cons in Hnd as [Hni Hnd]. destruct (turns_made_split schedule) as [Hsplit Hpos].
  assert (v ∈ swept_values s /\ values ⊆ swept_values s) as [Hv Hsub'] by set_solver.
  destruct (step_requests run_id s probes v Hfair Hopts Hv Hprobes) as (label & workers & op & Hstep & Hw & Hreq). rewrite Hstep.
  destruct (default (0, []) (head schedule)) as [start turns]. cbn [snd fst] in *.
  pose proof (books_used_ok s Hfair) as Hbooks.
  destruct (run_step_tallied api (book_names (books_used s) 0) (scope_of run_id s v) op api_answers histograms_add
              (book_names_distinct (books_used s) 0 ltac:(lia) ltac:(lia)) Hreq (mkStepConfig (Z.to_nat workers) warmup duration) start turns w) as (r & w1 & -> & Hs);
    [done|apply Hf; left|cbn; unfold u64_max in *; lia|lia|]. cbn [mbind option_bind].
  destruct (sp_counts _ _ _ _ _ _ _ _ Hs) as (H1 & H2 & H3). rewrite !plus_small by (unfold counter_ok; lia).
  assert (Forall counter_ok (swept_values s)) as Hok by apply Hfair. rewrite Forall_forall in Hok.
  destruct (IH (tail schedule) (c0 + sr_total_committed r) (a0 + sr_total_ambiguous r) w1) as (steps & c & a & w' & Hrun & Hl & Hs');
    [done|apply Hs|done| |lia..|].
  { intros v' Hv' b i q Hi Hq Hr. apply (sp_keys _ _ _ _ _ _ _ _ Hs) in Hr as [Hr|(i' & q' & Hi' & Hq' & Heq)].
    - revert Hr. by apply Hf; [right|..].
    - apply transfer_keys_distinct in Heq as (Heq & _); [|done..].
      apply scope_of_inj in Heq as ->; [done|by apply Hok, Hsub'|by apply Hok]. }
  rewrite Hrun. cbn [mbind option_bind]. eexists _, (sr_total_committed r + c), (sr_total_ambiguous r + a), w'.
  split; [by rewrite !Z.add_assoc|]. split; [cbn; by rewrite Hl|]. pose proof (sp_events _ _ _ _ _ _ _ _ Hs). destruct Hs' as [? ? ? Hkeys].
  split; [done|lia|rewrite (events_of_trans api w w1 w'); lia|]. intros b key [Hr|Hr]%Hkeys; [|by right].
  apply (sp_keys _ _ _ _ _ _ _ _ Hs) in Hr as [?|(i & q & _ & [Hq _] & ->)]; [by left|]. right. by eexists _, _, _.
Qed.

(** *** Seeding, probing and checking *)

Definition quiet_op (op : ApiOp) : Prop := posts op = false /\ typed op.

Lemma quiet_run {R} (c : LedgerCode R) w r w' :
  operations quiet_op c -> counted w -> run api c w = Some (r, w') ->
  counted w' /\ forall b k, recorded w' b k <-> recorded w b k.
Proof.
  revert w. induction c as [a|op k IH]; intros w; cbn; [by intros _ ? [= _ <-]|]. intros [[Hop Hty] Hk] Hc.
  destruct (api op w) as [[a w1]|] eqn:Ea; cbn; [|done]. intros Hr. destruct (other_counted _ _ _ _ Hop Hty Hc Ea) as (Hc1 & _ & Hr1).
  destruct (IH a w1 (Hk a) Hc1 Hr) as [Hc' Hr']. split; [done|]. intros b key. by rewrite Hr', Hr1.
Qed.

(** Only single posts. *)
Definition posts_alone (op : ApiOp) : Prop := match op with Op_post_batch _ => False | op => typed op end.

Lemma counted_run {R} (c : LedgerCode R) w r w' :
  operations posts_alone c -> counted w -> run api c w = Some (r, w') -> counted w'.
Proof.
  revert w. induction c as [a|op k IH]; intros w; cbn; [by intros _ ? [= _ <-]|]. intros [Hop Hk] Hc.
  destruct (api op w) as [[a w1]|] eqn:Ea; cbn; [|done]. intros Hr. apply (IH a w1 (Hk a)); [|done].
  destruct (posts op) eqn:Ep; [destruct op; try done|by destruct op; try done; apply (other_counted _ _ _ _ Ep Hop Hc Ea)].
  by destruct (post_counted _ _ _ _ Hc Ea).
Qed.

Lemma verify_posts_alone label probes c a : operations posts_alone (verify_books debug_error run_id label probes c a).
Proof.
  apply operations_then.
  - induction probes as [|[book before] probes IH]; [done|]. split; [done|]. intros [tb|e]; [|done]. cbn. by case_match.
  - intros [u|e]; [|done]. apply operations_then; [|by intros [n|e]]. generalize 0.
    induction probes as [|[book before] probes IH]; intros acc; [done|]. split; [done|]. intros [p|e]; [apply IH|done].
Qed.

Lemma seed_quiet n : operations quiet_op (seed_books debug_error n).
Proof.
  apply operations_then; [by repeat split|]. intros [u|e]; [|done]. generalize 0. induction n as [|n IH]; intros i; [done|].
  apply operations_then; [|intros [u'|e]; [apply IH|done]].
  apply operations_then; [by repeat split|]. intros [u'|e]; [by repeat split|done].
Qed.

Lemma seed_no_mismatch n : results no_mismatch (seed_books debug_error n).
Proof.
  apply no_mismatch_and_ok; [by intros [u|e]|]. intros u. generalize 0. induction n as [|n IH]; intros i; [done|].
  apply no_mismatch_and_ok; [|intros; apply IH]. apply no_mismatch_and_ok; [by intros [v|e]|]. intros v. by intros [v'|e].
Qed.

Lemma probes_no_mismatch label n i : results no_mismatch (probe_books debug_error run_id label n i).
Proof.
  revert i. induction n as [|n IH]; intros i; [done|]. apply no_mismatch_and_ok; [apply probe_no_mismatch|]. intros seq.
  by apply no_mismatch_and_ok.
Qed.

(** The probes hold the books' newest numbers. *)
Lemma probe_books_counted label n i w r w' :
  counted w -> NoDup (book_names n i) ->
  (forall b, b ∈ book_names n i -> ~ recorded w b (probe_key run_id b (label +:+ "-before"))) ->
  run api (probe_books debug_error run_id label n i) w = Some (r, w') ->
  counted w' /\
  (forall b k, recorded w' b k -> recorded w b k \/ k = probe_key run_id b (label +:+ "-before")) /\
  match r with
  | Ok probes => (forall b, ~ b ∈ book_names n i -> top w' b = top w b) /\
                 probes.*1 = book_names n i /\ Forall (fun p => p.2 = top w' p.1) probes
  | Err _ => True
  end.
Proof.
  revert i w r w'. induction n as [|n IH]; intros i w r w' Hc Hnd Hnew.
  { intros [= <- <-]. split; [done|]. split; [tauto|]. by repeat split. }
  rewrite book_names_S in *. apply NoDup_cons in Hnd as [Hni Hnd]. cbn [probe_books]. unfold and_ok at 1. rewrite run_and_then.
  destruct (run api (probe_seq debug_error (book_name i) run_id (label +:+ "-before")) w) as [[r1 w1]|] eqn:E1; [|done]. cbn [mbind option_bind].
  destruct (probe_counted api debug_error run_id _ _ _ _ _ Hc (Hnew _ ltac:(left)) E1) as (Hc1 & Hr1 & H1).
  assert (forall b k, recorded w1 b k -> recorded w b k \/ k = probe_key run_id b (label +:+ "-before")) as Hr1'
    by (intros b k [?|[-> ?]]%Hr1; auto).
  destruct r1 as [seq|e]; [|by intros [= <- <-]]. destruct H1 as [-> Ht1].
  unfold and_ok. rewrite run_and_then.
  destruct (run api (probe_books debug_error run_id label n (i + 1)) w1) as [[r2 w2]|] eqn:E2; [|done]. cbn [mbind option_bind].
  destruct (IH (i + 1) w1 r2 w2) as (Hc2 & Hr2 & H2); [done|done| |exact E2|].
  { intros b Hb Hr. apply Hr1 in Hr as [Hr|[-> _]]; [|done]. revert Hr. apply Hnew. by right. }
  intros Hret. assert (w' = w2 /\ r = match r2 with Ok probes => Ok ((book_name i, top w1 (book_name i)) :: probes) | Err e => Err e end) as [-> ->]
    by (destruct r2; by injection Hret as <- <-).
  split; [done|]. split; [intros b k [?|?]%Hr2; auto|]. destruct r2 as [probes|e]; [|done]. destruct H2 as (Ht2 & Hnames & Hf). split; [|split].
  - intros b [Hne Hnb]%not_elem_of_cons. rewrite Ht2, Ht1 by done. destruct (String.eqb_spec b (book_name i)); [done|lia].
  - cbn. by rewrite Hnames.
  - constructor; [|done]. cbn. by rewrite Ht2.
Qed.

(** The events since the probes. *)
Lemma events_since_probes w0 w probes : Forall (fun p => p.2 = top w0 p.1) probes -> events_since api w probes = events_of api w0 w probes.*1.
Proof.
  induction 1 as [|[b n] probes Hn _ IH]; [done|]. cbn [events_since fmap list_fmap fst snd] in *. unfold events_of in *.
  rewrite sum_by_cons, IH, Hn. cbn. lia.
Qed.

Lemma label_texts s :
  without "/" (probe_label s +:+ "-before") = true /\ without "/" (probe_label s +:+ "-after") = true /\
  (all_digits (probe_label s +:+ "-before") -> False) /\ (all_digits (probe_label s +:+ "-after") -> False) /\
  probe_label s +:+ "-after" <> probe_label s +:+ "-before".
Proof. destruct s; cbn; (split_and!; [done|done|by inversion 1|by inversion 1|done]). Qed.

(** C37: The benchmarks that post one transaction per request ([fair]: no batches,
    postings in pairs, counts that fit, weights that are not all zero) never accuse a
    ledger that keeps its promises ([CountedLedger]: a post that is answered with an
    error has added nothing, unless the error is a transport error that is not a
    503).  A run under a fresh id comes to an end, and if it ends with an error, that
    is not the complaint about the number of the books' events, whatever answers were
    lost in that way and whenever each worker's requests were made. *)
Theorem benchmark_never_alarms (s : Scenario) (schedule : list (Z * list Turn)) (w : W) :
  fair s -> counted w -> (forall b k, run_key run_id k -> ~ recorded w b k) ->
  turns_made schedule + Z.of_nat (books_used s) <= i64_max ->
  exists r w', run_scenario api debug_error run_id warmup duration s schedule w = Some (r, w') /\ counted w' /\
    match r with
    | Ok steps => map fst steps = map (fun v => (step_of run_id s [] v).1.1) (swept_values s)
    | Err e => mismatch e = false
    end.
Proof.
  intros Hfair Hc Hnew Hmax. unfold run_scenario. pose proof (check_opts_no_mismatch s) as Hv.
  destruct (check_opts s) as [[]|e] eqn:Ev; [|by exists (Err e), w].
  destruct (check_opts_ok s Ev) as (Hdistinct & _). pose proof (books_used_ok s Hfair) as Hused.
  pose proof (book_names_distinct (books_used s) 0 ltac:(lia) ltac:(lia)) as Hbooks.
  destruct (label_texts s) as (Hlb & Hla & Hdb & Hda & Hne).
  destruct (run_total api (seed_books debug_error (books_used s)) w api_answers) as [[seeded w1] E1]. rewrite E1. cbn [mbind option_bind].
  destruct (quiet_run _ _ _ _ (seed_quiet _) Hc E1) as [Hc1 Hr1].
  pose proof (run_results api _ _ _ _ _ (seed_no_mismatch _) E1) as Hm1. destruct seeded as [u|e]; [|by exists (Err e), w1].
  destruct (run_total api (probe_books debug_error run_id (probe_label s) (books_used s) 0) w1 api_answers) as [[probes w2] E2].
  rewrite E2. cbn [mbind option_bind].
  destruct (probe_books_counted _ _ _ _ _ _ Hc1 Hbooks (fun b _ Hr => Hnew b _ (probe_run_key _ _ _) (proj1 (Hr1 _ _) Hr)) E2) as (Hc2 & Hr2 & Hp).
  pose proof (run_results api _ _ _ _ _ (probes_no_mismatch _ _ _) E2) as Hm2.
  destruct probes as [probes|e]; [|by exists (Err e), w2]. destruct Hp as (_ & Hnames & Hprobed).
  destruct (sweep_tallied s probes (swept_values s) schedule 0 0 w2) as (steps & c & a & w3 & -> & Hl & Hs); try done.
  { intros v Hv' b i q _ [Hq _] [Hr|Heq]%Hr2.
    - apply Hr1 in Hr. revert Hr. apply Hnew, scope_run_key.
    - symmetry in Heq. revert Heq. by apply probe_no_transfer. }
  { unfold u64_max, i64_max in *. lia. }
  cbn [mbind option_bind]. destruct Hs as [Hc3 Hcnt Hev Hkeys].
  destruct (run_total api (verify_books debug_error run_id (probe_label s) probes (0 + c) (0 + a)) w3 api_answers) as [[verified w4] E3].
  rewrite E3. cbn [mbind option_bind].
  pose proof (counted_run _ _ _ _ (verify_posts_alone (probe_label s) _ _ _) Hc3 E3) as Hc4.
  exists (match verified with Err e => Err e | Ok _ => Ok steps end), w4. split; [by destruct verified|]. split; [done|].
  destruct verified as [ws|e]; [rewrite Hl; by destruct s|]. destruct (mismatch e) eqn:Em; [|done]. exfalso.
  assert (fresh_probes api run_id (probe_label s +:+ "-after") w3 probes.*1) as Hfresh.
  { apply Forall_forall. intros b _ [[Hr|Heq]%Hr2|(sc & i & q & Hq & Heq)]%Hkeys.
    - apply Hr1 in Hr. revert Hr. apply Hnew, probe_run_key.
    - by apply probe_key_label in Heq.
    - revert Heq. by apply probe_no_transfer. }
  assert (Z.of_nat (length probes) = Z.of_nat (books_used s)) as Hlen.
  { rewrite <- (length_fmap fst probes), Hnames. unfold book_names. rewrite length_map, length_seqZ. lia. }
  pose proof (events_since_probes w2 w3 probes Hprobed) as Hsince. rewrite Hnames in Hsince.
  refine (verify_books_exact api debug_error run_id (probe_label s) probes _ _ w3 _ w4 Hc3 _ Hfresh _ _ _ _ E3 Em _);
    rewrite ?Hsince, ?Hlen, ?Hnames; unfold i64_max, i64_min in *; try lia. exact Hbooks.
Qed.
End scenario.
