(* ===== verification/BenchReads.v ===== *)
(** The benchmark of reads, talea-bench/src/scenarios/reads.rs: a deep book is seeded by
    workers under keys that do not depend on the run, then read in three ways.  Seeding
    that succeeded has posted every transaction, and seeding again posts none; the
    reads add nothing to any book. *)

From S2P Require Import Prelude Decimal Core Api Service LedgerApi Workload Runner BenchSpec.
Open Scope Z_scope.

(** ** Seeding a depth *)

(** A seed worker: at its next transaction, done, or failed. *)
Inductive Seeder := Seeding (n : Z) | Seeded | Seed_failed (e : string).

Section seed_depth.
Context {W : Type}.
Variable api : Implementation W.
Variable debug_error : ApiError -> string.

(** A turn of a worker's loop; none is a panic or a request that does not end. *)
Definition seed_turn (depth stride : Z) (i : nat) (ws : list Seeder) (w : W) : option (list Seeder * W) :=
  match ws !! i with
  | Some (Seeding n) =>
      if n <? depth then
        draft ← transfer_draft READ_BOOK "depth" 0 n 2;
        '(r, w') ← api (Op_post draft) w;
        Some (match r with
              | Ok _ => <[i := Seeding (plus n stride)]> ws
              | Err e => <[i := Seed_failed ("depth seed post " +:+ u64_to_string n +:+ ": " +:+ debug_error e)]> ws
              end, w')
      else Some (<[i := Seeded]> ws, w)
  | _ => Some (ws, w)
  end.

Fixpoint seed_turns (depth stride : Z) (turns : list nat) (ws : list Seeder) (w : W) : option (list Seeder * W) :=
  match turns with
  | [] => Some (ws, w)
  | i :: turns => '(ws, w) ← seed_turn depth stride i ws w; seed_turns depth stride turns ws w
  end.

(** The loop over the handles; none while it waits for one. *)
Fixpoint join_seeders (ws : list Seeder) : option (result unit string) :=
  match ws with
  | [] => Some (Ok ())
  | Seeded :: ws => join_seeders ws
  | Seed_failed e :: _ => Some (Err e)
  | Seeding _ :: _ => None
  end.

(** The turns are those up to the last handle that is waited for, and those of the
    workers a failure leaves behind. *)
Definition seed_depth (depth workers : Z) (turns : list nat) (w : W) : option (result unit string * W) :=
  let stride := Z.max workers 1 in
  '(ws, w') ← seed_turns depth stride turns (map Seeding (seqZ 0 stride)) w;
  r ← join_seeders ws;
  Some (r, w').
End seed_depth.

(** ** The reads *)

Definition ENDPOINTS : list string := ["balance"; "history"; "trial-balance"]%string.

Definition read_op (ep : string) (top_seq : Seq) (worker : nat) (seq : Z) : option (LedgerCode OpOutcome) :=
  Some (
    if String.eqb ep "balance" then and_then (ask (Op_balance READ_BOOK CASH None)) (fun r => Return (read_outcome ep r))
    else if String.eqb ep "history" then
      let cursor := wrap_i64 (pseudo (Z.of_nat worker) seq mod wrap_u64 (Z.max top_seq 1)) in
      and_then (ask (Op_account_history READ_BOOK CASH (mkPage (Some cursor) 100))) (fun r => Return (read_outcome ep r))
    else and_then (ask (Op_trial_balance READ_BOOK None)) (fun r => Return (read_outcome ep r))).

Section reads.
Context `{Histograms} {W : Type}.
Variable api : Implementation W.
Variable debug_error : ApiError -> string.
Variables (run_id : string) (warmup duration : Z).

(** The loops over the concurrencies and the endpoints, as pairs. *)
Fixpoint read_steps (top_seq : Seq) (steps : list (Z * string)) (schedule : list (Z * list Turn)) (w : W) :
    option (list (string * StepReport) * W) :=
  match steps with
  | [] => Some ([], w)
  | (c, ep) :: steps =>
      let '(start, turns) := default (0, []) (head schedule) in
      '(r, w) ← run_step api (read_op ep top_seq) (mkStepConfig (Z.to_nat c) warmup duration) start turns w;
      '(reports, w) ← read_steps top_seq steps (tail schedule) w;
      Some ((ep +:+ "/c" +:+ u64_to_string c, r) :: reports, w)
  end.

Definition run_reads (concurrencies : list Z) (depth seed_workers : Z) (seed_turns : list nat) (schedule : list (Z * list Turn)) (w : W) :
    option (result (list (string * StepReport)) string * W) :=
  match validate_sweep concurrencies "concurrency" with
  | Err e => Some (Err e, w)
  | Ok _ =>
      '(seeded, w) ← run api (seed_read_book debug_error) w;
      match seeded with
      | Err e => Some (Err e, w)
      | Ok _ =>
          '(deep, w) ← seed_depth api debug_error depth seed_workers seed_turns w;
          match deep with
          | Err e => Some (Err e, w)
          | Ok _ =>
              '(probed, w) ← run api (probe_seq debug_error READ_BOOK run_id "reads") w;
              match probed with
              | Err e => Some (Err e, w)
              | Ok top_seq =>
                  '(steps, w) ← read_steps top_seq (flat_map (fun c => map (pair c) ENDPOINTS) concurrencies) schedule w;
                  Some (Ok steps, w)
              end
          end
      end
  end.
End reads.

(** ** What seeding leaves *)

Section spec.
Context {W : Type} (api : Implementation W) `{!CountedLedger api}.
Variable debug_error : ApiError -> string.
Variables (depth stride : Z).
Hypothesis depth_pos : 0 <= depth.
Hypothesis stride_pos : 0 < stride.
Hypothesis no_wrap : depth + stride <= u64_max.

Definition depth_key (n : Z) : string := transfer_key "depth" 0 n.

(** A worker has posted what lies before its next transaction. *)
Definition seeded_to (w : W) (i : nat) (s : Seeder) : Prop :=
  match s with
  | Seeding n => exists k, 0 <= k /\ n = Z.of_nat i + k * stride /\ n <= depth + stride /\
      forall j, 0 <= j < k -> recorded w READ_BOOK (depth_key (Z.of_nat i + j * stride))
  | Seeded => forall j, 0 <= j -> Z.of_nat i + j * stride < depth -> recorded w READ_BOOK (depth_key (Z.of_nat i + j * stride))
  | Seed_failed _ => True
  end.

Definition all_seeded_to (w : W) (ws : list Seeder) : Prop := forall i s, ws !! i = Some s -> seeded_to w i s.

Lemma seeded_to_mono w w' i s :
  (forall b k, recorded w b k -> recorded w' b k) -> seeded_to w i s -> seeded_to w' i s.
Proof.
  intros Hm. destruct s as [n| |e]; cbn; [|auto..]. intros (k & H0 & Hn & Hd & Hr). exists k. split_and!; auto.
Qed.

Lemma all_seeded_insert w w' ws i s :
  (forall b k, recorded w b k -> recorded w' b k) -> all_seeded_to w ws -> seeded_to w' i s -> all_seeded_to w' (<[i := s]> ws).
Proof.
  intros Hm Hall Hs j t Hj. apply list_lookup_insert_Some in Hj as [(-> & <- & _)|[_ Hj]]; [done|].
  eapply seeded_to_mono; [exact Hm|]. by apply Hall.
Qed.

Lemma depth_draft n : exists d, transfer_draft READ_BOOK "depth" 0 n 2 = Some d /\ td_book d = READ_BOOK /\ td_idempotency_key d = depth_key n.
Proof. by eexists. Qed.

Lemma seed_turn_seeds i ws w ws' w' :
  counted w -> all_seeded_to w ws -> seed_turn api debug_error depth stride i ws w = Some (ws', w') ->
  counted w' /\ all_seeded_to w' ws' /\ (forall b k, recorded w b k -> recorded w' b k) /\ length ws' = length ws.
Proof.
  intros Hc Hall. unfold seed_turn. destruct (ws !! i) as [[n| |e]|] eqn:Hi; try by intros [= <- <-].
  pose proof (Hall i _ Hi) as (k & H0 & Hn & Hd & Hr). destruct (n <? depth) eqn:En; bool_to_prop.
  2: { intros [= <- <-]. split_and!; try done; [|apply length_insert]. apply (all_seeded_insert w w); [auto|exact Hall|]. cbn. intros j Hj Hlt.
       apply Hr. split; [done|]. nia. }
  destruct (depth_draft n) as (d & -> & Hb & Hk). cbn [mbind option_bind]. destruct (api (Op_post d) w) as [[r w1]|] eqn:Ea; [|done].
  cbn [mbind option_bind]. destruct (post_counted _ _ _ _ Hc Ea) as (Hc1 & new & _ & _ & Hr1 & Hres).
  assert (forall b k, recorded w b k -> recorded w1 b k) as Hm by (intros b key Hrec; apply Hr1; by left).
  destruct r as [p|e]; intros [= <- <-]; (split_and!; [exact Hc1|apply (all_seeded_insert w w1); [exact Hm|exact Hall|]|exact Hm|apply length_insert]); [|exact I].
  rewrite plus_small by (unfold counter_ok; lia). exists (k + 1). split; [lia|]. split; [lia|]. split; [lia|]. intros j Hj.
  destruct (decide (j = k)) as [->|]; [rewrite <- Hn, <- Hk, <- Hb; apply Hres|]. apply Hm, Hr. lia.
Qed.

Lemma seed_turns_seed turns ws w ws' w' :
  counted w -> all_seeded_to w ws -> seed_turns api debug_error depth stride turns ws w = Some (ws', w') ->
  counted w' /\ all_seeded_to w' ws' /\ length ws' = length ws.
Proof.
  revert ws w. induction turns as [|i turns IH]; intros ws w Hc Hall; cbn [seed_turns]; [by intros [= <- <-]|].
  destruct (seed_turn api debug_error depth stride i ws w) as [[ws1 w1]|] eqn:E1; [|done]. cbn [mbind option_bind]. intros Hr.
  destruct (seed_turn_seeds _ _ _ _ _ Hc Hall E1) as (Hc1 & Hall1 & _ & Hl1). destruct (IH ws1 w1 Hc1 Hall1 Hr) as (? & ? & ?).
  split_and!; try done. congruence.
Qed.

Lemma joined_seeded ws : join_seeders ws = Some (Ok ()) -> Forall (eq Seeded) ws.
Proof. induction ws as [|[n| |e] ws IH]; cbn; [constructor|done| |done]. intros Hj. constructor; [done|by apply IH]. Qed.

Lemma all_seeded_start w : all_seeded_to w (map Seeding (seqZ 0 stride)).
Proof.
  intros i s Hi. rewrite list_lookup_fmap in Hi. destruct (seqZ 0 stride !! i) as [z|] eqn:Ez; [|done]. injection Hi as <-.
  apply lookup_seqZ in Ez as [-> Hlt]. exists 0. split; [lia|]. split; [lia|]. split; [lia|]. intros j Hj. exfalso. lia.
Qed.

(** Seeding that succeeded has posted every transaction of the depth. *)
Theorem seed_depth_complete workers turns w w' :
  stride = Z.max workers 1 -> counted w -> seed_depth api debug_error depth workers turns w = Some (Ok (), w') ->
  counted w' /\ forall n, 0 <= n < depth -> recorded w' READ_BOOK (depth_key n).
Proof.
  intros Hst Hc. unfold seed_depth. rewrite <- Hst.
  destruct (seed_turns api debug_error depth stride turns (map Seeding (seqZ 0 stride)) w) as [[ws w1]|] eqn:Es; [|done]. cbn [mbind option_bind].
  destruct (join_seeders ws) as [r|] eqn:Ej; [|done]. cbn [mbind option_bind]. intros [= -> ->].
  destruct (seed_turns_seed _ _ _ _ _ Hc (all_seeded_start w) Es) as (Hc1 & Hall & Hlen). split; [done|]. intros n Hn.
  rewrite length_map, length_seqZ in Hlen. apply joined_seeded in Ej. rewrite Forall_forall in Ej.
  pose proof (Z.mod_pos_bound n stride stride_pos) as Hmod. pose proof (Z.div_mod n stride ltac:(lia)) as Hdiv.
  destruct (lookup_lt_is_Some_2 ws (Z.to_nat (n mod stride))) as [s Hs]; [lia|].
  pose proof (Hall _ _ Hs) as Hseeded. rewrite <- (Ej s) in Hseeded by (by eapply list_elem_of_lookup_2).
  specialize (Hseeded (n / stride)). rewrite Z2Nat.id in Hseeded by lia.
  replace (n mod stride + n / stride * stride) with n in Hseeded by lia. apply Hseeded; [apply Z.div_pos; lia|lia].
Qed.

(** *** Again *)

(** A ledger that has the whole depth. *)
Definition deep (w : W) : Prop := counted w /\ forall n, 0 <= n < depth -> recorded w READ_BOOK (depth_key n).

Lemma seed_turn_again i ws w ws' w' :
  deep w -> Forall (fun s => match s with Seeding n => 0 <= n | _ => True end) ws ->
  seed_turn api debug_error depth stride i ws w = Some (ws', w') ->
  same_ledger api w w' /\ Forall (fun s => match s with Seeding n => 0 <= n | _ => True end) ws'.
Proof.
  intros [Hc Hdeep] Hws. unfold seed_turn. assert (same_ledger api w w) as Hrefl by done.
  destruct (ws !! i) as [[n| |e]|] eqn:Hi; try by intros [= <- <-].
  assert (0 <= n) as Hn0 by exact (Forall_lookup_1 _ _ _ _ Hws Hi). destruct (n <? depth) eqn:En; bool_to_prop.
  2: { intros [= <- <-]. split; [done|]. by apply Forall_insert. }
  destruct (depth_draft n) as (d & -> & Hb & Hk). cbn [mbind option_bind]. destruct (api (Op_post d) w) as [[r w1]|] eqn:Ea; [|done].
  cbn [mbind option_bind]. destruct (post_counted _ _ _ _ Hc Ea) as (Hc1 & new & Hnew & Ht & Hr & _). rewrite Hb, Hk in *.
  assert (new = false) as ->. { destruct new; [|done]. exfalso. apply (Hnew eq_refl), Hdeep. lia. }
  intros [= <- <-]. split.
  - split; [done|]. split; [intros b; rewrite Ht; cbn; lia|]. intros b k. rewrite Hr. naive_solver.
  - destruct r; apply Forall_insert; try done. unfold plus. pose proof (wrap_u64_range (n + stride)). lia.
Qed.

Lemma same_ledger_trans w w1 w2 : same_ledger api w w1 -> same_ledger api w1 w2 -> same_ledger api w w2.
Proof. intros (? & Ht & Hr) (? & Ht' & Hr'). split; [done|]. split; [intros b; by rewrite Ht', Ht|]. intros b k. by rewrite Hr', Hr. Qed.

Lemma deep_same w w' : deep w -> same_ledger api w w' -> deep w'.
Proof. intros [Hc Hd] (Hc' & _ & Hr). split; [done|]. intros n Hn. by apply Hr, Hd. Qed.

Lemma seed_turns_again turns ws w ws' w' :
  deep w -> Forall (fun s => match s with Seeding n => 0 <= n | _ => True end) ws ->
  seed_turns api debug_error depth stride turns ws w = Some (ws', w') -> same_ledger api w w'.
Proof.
  revert ws w. induction turns as [|i turns IH]; intros ws w Hd Hws; cbn [seed_turns]; [intros [= _ <-]; destruct Hd; done|].
  destruct (seed_turn api debug_error depth stride i ws w) as [[ws1 w1]|] eqn:E1; [|done]. cbn [mbind option_bind]. intros Hr.
  destruct (seed_turn_again _ _ _ _ _ Hd Hws E1) as [Hs Hws1]. eapply same_ledger_trans; [exact Hs|].
  eapply IH; [by eapply deep_same|exact Hws1|exact Hr].
Qed.

(** Seeding again posts nothing. *)
Theorem seed_depth_again workers turns w r w' :
  deep w -> stride = Z.max workers 1 -> seed_depth api debug_error depth workers turns w = Some (r, w') -> same_ledger api w w'.
Proof.
  intros Hd Hst. unfold seed_depth. rewrite <- Hst.
  destruct (seed_turns api debug_error depth stride turns (map Seeding (seqZ 0 stride)) w) as [[ws w1]|] eqn:Es; [|done]. cbn [mbind option_bind].
  destruct (join_seeders ws) as [r1|]; [|done]. intros [= _ <-]. eapply seed_turns_again; [exact Hd| |exact Es].
  apply Forall_forall. intros s Hs. apply list_elem_of_fmap in Hs as (z & -> & Hz%elem_of_seqZ). lia.
Qed.
End spec.

(** ** The reads add nothing *)

Section read_spec.
Context `{Histograms} {W : Type} (api : Implementation W) `{!CountedLedger api}.
Variables (warmup duration : Z).

Lemma read_same worker seq ep top_seq code w o w' :
  read_op ep top_seq worker seq = Some code -> counted w -> run api code w = Some (o, w') -> same_ledger api w w'.
Proof.
  assert (forall op (f : answer op -> OpOutcome), posts op = false -> defines op = false -> counted w ->
            run api (and_then (ask op) (fun a => Return (f a))) w = Some (o, w') -> same_ledger api w w') as Hread.
  { intros op f Hp Hd Hc. cbn [and_then ask run]. destruct (api op w) as [[a w1]|] eqn:Ea; [|done]. intros [= _ <-].
    assert (typed op) as Hty by (by destruct op). destruct (other_counted _ _ _ _ Hp Hty Hc Ea) as (? & Ht & ?).
    split; [done|]. split; [by apply Ht|done]. }
  unfold read_op. intros [= <-]. destruct (String.eqb ep "balance"); [by apply Hread|].
  destruct (String.eqb ep "history"); by apply Hread.
Qed.

Lemma read_turns_same cfg start ep top_seq turns ws w ws' w' :
  counted w -> worker_turns api (read_op ep top_seq) cfg start turns ws w = Some (ws', w') -> same_ledger api w w'.
Proof.
  revert ws w. induction turns as [|t turns IH]; intros ws w Hc; cbn [worker_turns]; [by intros [= _ <-]|].
  destruct (worker_turn api (read_op ep top_seq) cfg start t ws w) as [[ws1 w1]|] eqn:E1; [|done]. cbn [mbind option_bind]. intros Hr.
  assert (same_ledger api w w1) as Hs1.
  { unfold worker_turn in E1. destruct (ws !! tn_worker t) as [[seq l]|]; [|by injection E1 as _ <-].
    case_match; [|by injection E1 as _ <-]. destruct (read_op ep top_seq (tn_worker t) seq) as [code|] eqn:Ec; [|done]. cbn [mbind option_bind] in E1.
    destruct (run api code w) as [[o w2]|] eqn:Erun; [|done]. injection E1 as _ <-. by eapply read_same. }
  eapply same_ledger_trans; [exact Hs1|]. eapply IH; [apply Hs1|exact Hr].
Qed.

(** Whatever is read, and whenever, the books stay as they are. *)
Theorem reads_add_nothing (top_seq : Seq) (steps : list (Z * string)) (schedule : list (Z * list Turn)) (w : W) reports w' :
  counted w -> read_steps api warmup duration top_seq steps schedule w = Some (reports, w') -> same_ledger api w w'.
Proof.
  revert schedule w reports. induction steps as [|[c ep] steps IH]; intros schedule w reports Hc; cbn [read_steps]; [by intros [= _ <-]|].
  destruct (default (0, []) (head schedule)) as [start turns].
  destruct (run_step api (read_op ep top_seq) _ start turns w) as [[r w1]|] eqn:E1; [|done]. cbn [mbind option_bind].
  destruct (read_steps api warmup duration top_seq steps (tail schedule) w1) as [[reports1 w2]|] eqn:E2; [|done]. intros [= _ <-].
  assert (same_ledger api w w1) as Hs1.
  { unfold run_step in E1. destruct (worker_turns api (read_op ep top_seq) _ start turns _ w) as [[ws w3]|] eqn:Et; [|done]. cbn [mbind option_bind] in E1.
    destruct (merge_all _ _); [|done]. injection E1 as _ <-. by eapply read_turns_same. }
  eapply same_ledger_trans; [exact Hs1|]. eapply IH; [apply Hs1|exact E2].
Qed.
End read_spec.
