(* ===== verification/Router.v ===== *)
(** The per-book write router, talea-service/src/write_router.rs.

    Submitters, committer tasks and the idle timer interleave.  A step is one
    stretch of code between two points where another task can run: looking up
    a sender, trying to send, committing a batch and answering it,
    deregistering, closing the channel, ending the task, dying in the store.
    A job carries a number in place of its reply channel; a job whose channel
    is dropped unanswered is answered [CommitterGone]. *)

From S2P Require Import Prelude Decimal Core Api Service.
Open Scope nat_scope.

Record WriteConfig := mkWriteConfig { queue_depth : nat; batch_max : nat; idle_reap : Z  (* seconds *) }.

Definition WriteConfig_default : WriteConfig := mkWriteConfig 256 64 60.

Record Job := mkJob { job_id : nat; job_transaction : Transaction }.

(** A committer task and its channel: the channel closes when the task reaps
    itself, and the receiver is gone when the task has ended. *)
Record Committer := mkCommitter {
  cm_book : string;
  cm_queue : list Job;
  cm_reaping : bool;
  cm_closed : bool;
  cm_ended : bool
}.

Inductive TrySendError := Full | Closed.

(** Whatever is queued after [first], up to [batch_max] jobs. *)
Fixpoint drain_batch (batch_max : nat) (batch queue : list Job) : list Job * list Job :=
  match queue with
  | [] => (batch, [])
  | job :: queue' => if length batch <? batch_max then drain_batch batch_max (batch ++ [job]) queue' else (batch, queue)
  end.

(** The replies of a batch: positional; a job without a result is dropped. *)
Fixpoint batch_replies (batch : list Job) (results : list (result Committed StoreError)) :
    list (nat * result Committed SubmitError) :=
  match batch, results with
  | [], _ => []
  | job :: batch, r :: results => (job_id job, map_err StoreErr r) :: batch_replies batch results
  | job :: batch, [] => (job_id job, Err CommitterGone) :: batch_replies batch []
  end.

Section router.
Context {S : Type} `{Store S} (cfg : WriteConfig).

(** [wr_books] maps a book to the committer of its sender, [wr_sending] are
    submitters between the lookup and the send, [wr_replies] what submitters
    were told.  [wr_count] numbers the jobs; [wr_batches] remembers what was
    handed to the store. *)
Record WriteRouter := mkWriteRouter {
  wr_books : gmap string nat;
  wr_committers : list Committer;
  wr_sending : list (Job * nat);
  wr_replies : list (nat * result Committed SubmitError);
  wr_count : nat;
  wr_batches : list (list Job);
  wr_store : S
}.

Definition WriteRouter_new (s : S) : WriteRouter := mkWriteRouter ∅ [] [] [] 0 [] s.

Definition is_closed (c : Committer) : bool := cm_closed c || cm_ended c.

Definition sender_for (book_key : string) (r : WriteRouter) : nat * WriteRouter :=
  match wr_books r !! book_key ≫= fun i => wr_committers r !! i ≫= fun c => if is_closed c then None else Some i with
  | Some i => (i, r)
  | None =>
      let i := length (wr_committers r) in
      (i, mkWriteRouter (<[book_key := i]> (wr_books r)) (wr_committers r ++ [mkCommitter book_key [] false false false])
            (wr_sending r) (wr_replies r) (wr_count r) (wr_batches r) (wr_store r))
  end.

Definition set_committer (i : nat) (c : Committer) (r : WriteRouter) : WriteRouter :=
  mkWriteRouter (wr_books r) (<[i := c]> (wr_committers r)) (wr_sending r) (wr_replies r) (wr_count r) (wr_batches r) (wr_store r).

Definition set_sending (l : list (Job * nat)) (r : WriteRouter) : WriteRouter :=
  mkWriteRouter (wr_books r) (wr_committers r) l (wr_replies r) (wr_count r) (wr_batches r) (wr_store r).

Definition reply (l : list (nat * result Committed SubmitError)) (r : WriteRouter) : WriteRouter :=
  mkWriteRouter (wr_books r) (wr_committers r) (wr_sending r) (wr_replies r ++ l) (wr_count r) (wr_batches r) (wr_store r).

(** [mpsc::Sender::try_send] *)
Definition try_send (job : Job) (i : nat) (r : WriteRouter) : result WriteRouter TrySendError :=
  match wr_committers r !! i with
  | Some c =>
      if is_closed c then Err Closed
      else if queue_depth cfg <=? length (cm_queue c) then Err Full
      else Ok (set_committer i (mkCommitter (cm_book c) (cm_queue c ++ [job]) (cm_reaping c) (cm_closed c) (cm_ended c)) r)
  | None => Err Closed
  end.

(** [submit]: the lookup, and one pass of its loop. *)
Definition submit (tx : Transaction) (r : WriteRouter) : WriteRouter :=
  let job := mkJob (wr_count r) tx in
  let '(i, r1) := sender_for (tx_book tx) r in
  mkWriteRouter (wr_books r1) (wr_committers r1) (wr_sending r1 ++ [(job, i)]) (wr_replies r1) (Datatypes.S (wr_count r1))
    (wr_batches r1) (wr_store r1).

Definition submit_pass (pre : list (Job * nat)) (job : Job) (i : nat) (post : list (Job * nat)) (r : WriteRouter) : WriteRouter :=
  match try_send job i r with
  | Ok r1 => set_sending (pre ++ post) r1
  | Err Full => reply [(job_id job, Err Overloaded)] (set_sending (pre ++ post) r)
  | Err Closed =>
      let '(i', r1) := sender_for (tx_book (job_transaction job)) r in set_sending (pre ++ (job, i') :: post) r1
  end.

Definition commit_batch_and_reply (batch : list Job) (r : WriteRouter) : WriteRouter :=
  let '(results, s) := store_commit_batch (map job_transaction batch) (wr_store r) in
  mkWriteRouter (wr_books r) (wr_committers r) (wr_sending r) (wr_replies r ++ batch_replies batch results) (wr_count r)
    (wr_batches r ++ [batch]) s.

(** [run_committer], from a received job to its batch's answers; the same
    before the channel is closed and while it is drained. *)
Definition run_committer (i : nat) (c : Committer) (first : Job) (queue : list Job) (r : WriteRouter) : WriteRouter :=
  let '(batch, rest) := drain_batch (batch_max cfg) [first] queue in
  commit_batch_and_reply batch (set_committer i (mkCommitter (cm_book c) rest (cm_reaping c) (cm_closed c) (cm_ended c)) r).

(** Its idle branch: deregister, close. *)
Definition deregister (i : nat) (c : Committer) (r : WriteRouter) : WriteRouter :=
  let r1 := set_committer i (mkCommitter (cm_book c) (cm_queue c) true (cm_closed c) (cm_ended c)) r in
  mkWriteRouter (delete (cm_book c) (wr_books r1)) (wr_committers r1) (wr_sending r1) (wr_replies r1) (wr_count r1)
    (wr_batches r1) (wr_store r1).

Definition close (i : nat) (c : Committer) (r : WriteRouter) : WriteRouter :=
  set_committer i (mkCommitter (cm_book c) (cm_queue c) (cm_reaping c) true (cm_ended c)) r.

Definition end_task (i : nat) (c : Committer) (r : WriteRouter) : WriteRouter :=
  set_committer i (mkCommitter (cm_book c) [] (cm_reaping c) (cm_closed c) true) r.

(** A panic while a batch is in the store: the task's jobs are dropped and the
    map keeps the stale sender. *)
Definition panic (i : nat) (c : Committer) (first : Job) (queue : list Job) (r : WriteRouter) : WriteRouter :=
  reply (map (fun j => (job_id j, Err CommitterGone)) (first :: queue))
    (mkWriteRouter (wr_books r) (<[i := mkCommitter (cm_book c) [] (cm_reaping c) (cm_closed c) true]> (wr_committers r))
       (wr_sending r) (wr_replies r) (wr_count r) (wr_batches r ++ [(drain_batch (batch_max cfg) [first] queue).1]) (wr_store r)).

Definition active_books (r : WriteRouter) : nat := size (wr_books r).

Definition queued_jobs (r : WriteRouter) : nat :=
  map_fold (fun _ i n => match wr_committers r !! i with Some c => length (cm_queue c) + n | None => n end) 0 (wr_books r).

Inductive router_step : WriteRouter -> WriteRouter -> Prop :=
| step_submit r tx : router_step r (submit tx r)
| step_send r pre job i post :
    wr_sending r = pre ++ (job, i) :: post -> router_step r (submit_pass pre job i post r)
| step_commit r i c first queue :
    wr_committers r !! i = Some c -> cm_ended c = false -> cm_queue c = first :: queue ->
    router_step r (run_committer i c first queue r)
| step_idle r i c :
    wr_committers r !! i = Some c -> cm_ended c = false -> cm_reaping c = false -> router_step r (deregister i c r)
| step_close r i c :
    wr_committers r !! i = Some c -> cm_ended c = false -> cm_reaping c = true -> router_step r (close i c r)
| step_end r i c :
    wr_committers r !! i = Some c -> cm_closed c = true -> cm_queue c = [] -> router_step r (end_task i c r)
| step_panic r i c first queue :
    wr_committers r !! i = Some c -> cm_ended c = false -> cm_queue c = first :: queue ->
    router_step r (panic i c first queue r).
End router.
