(* ===== verification/RouterSpec.v ===== *)
(** What the write router guarantees (talea-service/src/write_router.rs), over
    every interleaving of its tasks. *)

From S2P Require Import Prelude Decimal Core Api Service Router.
Open Scope nat_scope.

(** ** Batches and replies *)

Lemma drain_batch_app bm batch queue :
  (drain_batch bm batch queue).1 ++ (drain_batch bm batch queue).2 = batch ++ queue.
Proof.
  revert batch. induction queue as [|job queue IH]; intros batch; cbn; [done|]. case_match; [|done].
  by rewrite IH, <- app_assoc.
Qed.

Lemma drain_batch_length bm batch queue : length (drain_batch bm batch queue).1 <= Nat.max bm (length batch).
Proof.
  revert batch. induction queue as [|job queue IH]; intros batch; cbn [drain_batch]; [cbn; lia|]. destruct (Nat.ltb_spec (length batch) bm); [|cbn [fst]; lia].
  rewrite IH, length_app. cbn. lia.
Qed.

Lemma batch_replies_ids batch results : map fst (batch_replies batch results) = map job_id batch.
Proof. revert results. induction batch as [|j batch IH]; intros [|r results]; cbn; [done..| |]; by rewrite IH. Qed.

Lemma batch_replies_positional batch results id r :
  (id, r) ∈ batch_replies batch results -> r <> Err CommitterGone ->
  exists k job v, batch !! k = Some job /\ job_id job = id /\ results !! k = Some v /\ r = map_err StoreErr v.
Proof.
  revert results. induction batch as [|j batch IH]; intros results Hin Hr; [by apply elem_of_nil in Hin|].
  destruct results as [|v results]; cbn in Hin; apply elem_of_cons in Hin as [[= -> ->]|Hin]; [done| | |].
  - destruct (IH _ Hin Hr) as (k & job & v & ? & ? & ? & ?). by destruct k.
  - by exists 0, j, v.
  - destruct (IH _ Hin Hr) as (k & job & v' & ? & ? & ? & ?). by exists (S k), job, v'.
Qed.

Section router_spec.
Context {S : Type} `{Store S} (cfg : WriteConfig).

Definition sending_ids (r : WriteRouter (S := S)) : list nat := map (fun p => job_id p.1) (wr_sending r).
Definition queue_ids (cs : list Committer) : list nat := concat (map (fun c => map job_id (cm_queue c)) cs).
Definition reply_ids (r : WriteRouter (S := S)) : list nat := map fst (wr_replies r).
Definition batch_ids (r : WriteRouter (S := S)) : list nat := map job_id (concat (wr_batches r)).
Definition overloaded_ids (r : WriteRouter (S := S)) : list nat :=
  map fst (filter (fun p => p.2 = Err Overloaded) (wr_replies r)).

Lemma queue_ids_insert cs i c c' :
  cs !! i = Some c -> map job_id (cm_queue c) ++ queue_ids (<[i := c']> cs) ≡ₚ map job_id (cm_queue c') ++ queue_ids cs.
Proof.
  revert i. induction cs as [|c0 cs IH]; intros [|i] Hi; try done; cbn in Hi |- *.
  - injection Hi as ->. unfold queue_ids. cbn. by rewrite !app_assoc, (Permutation_app_comm (map job_id (cm_queue c))).
  - unfold queue_ids in *. cbn. specialize (IH i Hi). rewrite !app_assoc, !(Permutation_app_comm _ (map job_id (cm_queue c0))).
    by rewrite <- !app_assoc, IH.
Qed.

Lemma queue_ids_snoc cs c : cm_queue c = [] -> queue_ids (cs ++ [c]) = queue_ids cs.
Proof. intros Hc. unfold queue_ids. rewrite map_app, concat_app. cbn. by rewrite Hc, !app_nil_r. Qed.

Lemma queue_ids_same cs i c c' :
  cs !! i = Some c -> cm_queue c' = cm_queue c -> queue_ids (<[i := c']> cs) ≡ₚ queue_ids cs.
Proof. intros Hi Hq. pose proof (queue_ids_insert cs i c c' Hi) as Hp. rewrite Hq in Hp. by apply Permutation_app_inv_l in Hp. Qed.

(** What a lookup changes. *)
Lemma sender_for_spec book (r : WriteRouter (S := S)) i r' :
  sender_for book r = (i, r') ->
  queue_ids (wr_committers r') = queue_ids (wr_committers r) /\ wr_sending r' = wr_sending r /\ wr_replies r' = wr_replies r /\
  wr_count r' = wr_count r /\ wr_batches r' = wr_batches r /\ wr_store r' = wr_store r /\
  exists c, wr_committers r' !! i = Some c /\ is_closed c = false.
Proof.
  unfold sender_for. destruct (wr_books r !! book) as [i0|]; cbn.
  - destruct (wr_committers r !! i0) as [c|] eqn:Ec; cbn; [destruct (is_closed c) eqn:Ecl; cbn|]; intros [= <- <-];
      cbn [wr_committers wr_sending wr_replies wr_count wr_batches wr_store].
    2: split_and!; eauto.
    all: rewrite queue_ids_snoc by done; split_and!; try done; eexists; split; [by rewrite lookup_app_r, Nat.sub_diag by done|done].
  - intros [= <- <-]. cbn [wr_committers wr_sending wr_replies wr_count wr_batches wr_store]. rewrite queue_ids_snoc by done. split_and!; try done.
    eexists; split; [by rewrite lookup_app_r, Nat.sub_diag by done|done].
Qed.

(** Every submitted job is with a submitter, in a queue or answered; and the
    jobs handed to the store, the waiting ones and the refused ones are
    different jobs. *)
Record jobs_inv (r : WriteRouter (S := S)) : Prop := {
  ji_places : sending_ids r ++ queue_ids (wr_committers r) ++ reply_ids r ≡ₚ seq 0 (wr_count r);
  ji_batches : batch_ids r ++ sending_ids r ++ queue_ids (wr_committers r) ++ overloaded_ids r ⊆+ seq 0 (wr_count r)
}.

Lemma overloaded_batch batch results :
  map fst (filter (fun p => p.2 = Err Overloaded) (batch_replies batch results)) = [].
Proof.
  revert results. induction batch as [|j batch IH]; intros [|r results]; cbn [batch_replies]; try done.
  - rewrite filter_cons_False by done. apply IH.
  - rewrite filter_cons_False by (by destruct r). apply IH.
Qed.

Lemma jobs_inv_same r r' :
  jobs_inv r -> sending_ids r' = sending_ids r -> queue_ids (wr_committers r') ≡ₚ queue_ids (wr_committers r) ->
  wr_replies r' = wr_replies r -> wr_count r' = wr_count r -> wr_batches r' = wr_batches r -> jobs_inv r'.
Proof.
  intros [Hp Hb] Hs Hq Hr Hc Hbt. split; unfold reply_ids, batch_ids, overloaded_ids in *; by rewrite Hs, Hq, Hr, Hc, ?Hbt.
Qed.

Lemma jobs_inv_submit r tx : jobs_inv r -> jobs_inv (submit tx r).
Proof.
  intros [Hp Hb]. unfold submit. destruct (sender_for (tx_book tx) r) as [i r1] eqn:E.
  apply sender_for_spec in E as (Hq & Hs & Hr & Hc & Hbt & _).
  split; unfold reply_ids, batch_ids, overloaded_ids, sending_ids in *; cbn [wr_sending wr_committers wr_replies wr_count wr_batches]; rewrite ?Hq, ?Hs, ?Hr, ?Hc, ?Hbt, map_app, seq_S; cbn.
  - rewrite <- Hp. solve_Permutation.
  - etrans; [|apply submseteq_app; [exact Hb|reflexivity]]. solve_submseteq.
Qed.

(** A step that answers [l] and hands [b] to the store, with one queue
    changed. *)
Lemma jobs_inv_commit r i c c' l b s :
  jobs_inv r -> wr_committers r !! i = Some c ->
  map job_id (cm_queue c) ≡ₚ map fst l ++ map job_id (cm_queue c') -> map job_id b ⊆+ map fst l ->
  map fst (filter (fun p => p.2 = Err Overloaded) l) = [] ->
  jobs_inv (mkWriteRouter (wr_books r) (<[i := c']> (wr_committers r)) (wr_sending r) (wr_replies r ++ l) (wr_count r)
    (wr_batches r ++ [b]) s).
Proof.
  intros [Hp Hb] Hi Hc Hbl Hov. pose proof (queue_ids_insert _ i c c' Hi) as Hq. rewrite Hc in Hq.
  split; unfold reply_ids, batch_ids, overloaded_ids, sending_ids in *; cbn [wr_sending wr_committers wr_replies wr_count wr_batches].
  - rewrite <- Hp, map_app. apply (Permutation_app_inv_l (map job_id (cm_queue c'))).
    assert (queue_ids (wr_committers r) ≡ₚ map fst l ++ queue_ids (<[i := c']> (wr_committers r))) as ->.
    { apply (Permutation_app_inv_l (map job_id (cm_queue c'))). rewrite <- Hq. solve_Permutation. }
    solve_Permutation.
  - assert (queue_ids (wr_committers r) ≡ₚ map fst l ++ queue_ids (<[i := c']> (wr_committers r))) as Hql.
    { apply (Permutation_app_inv_l (map job_id (cm_queue c'))). rewrite <- Hq. solve_Permutation. }
    etrans; [|exact Hb]. rewrite Hql, concat_app, map_app, filter_app, map_app, Hov, app_nil_r. cbn [concat]. rewrite app_nil_r.
    etrans; [apply submseteq_app; [apply submseteq_app; [reflexivity|exact Hbl]|reflexivity]|].
    apply Permutation_submseteq. solve_Permutation.
Qed.

Lemma jobs_inv_pass r pre job i post :
  jobs_inv r -> wr_sending r = pre ++ (job, i) :: post -> jobs_inv (submit_pass cfg pre job i post r).
Proof.
  intros Hi Hs. pose proof Hi as [Hp Hb]. unfold sending_ids in Hp, Hb. rewrite Hs, map_app in Hp, Hb. cbn in Hp, Hb.
  unfold submit_pass, try_send. destruct (wr_committers r !! i) as [c|] eqn:Ec; [destruct (is_closed c) eqn:Ecl|].
  2: destruct (queue_depth cfg <=? length (cm_queue c)) eqn:Ef.
  1,4: destruct (sender_for _ r) as [i' r1] eqn:E; apply sender_for_spec in E as (Hq & Hse & Hr & Hc & Hbt & _);
    apply (jobs_inv_same r); try done; [|by rewrite <- Hq]; unfold sending_ids; cbn; rewrite Hs, !map_app; done.
  - split; unfold reply_ids, batch_ids, overloaded_ids, sending_ids in *; cbn [reply set_sending wr_sending wr_committers wr_replies wr_count wr_batches].
    + rewrite <- Hp, !map_app. cbn. solve_Permutation.
    + etrans; [|exact Hb]. rewrite filter_app, !map_app, filter_cons_True by done. cbn. apply Permutation_submseteq. solve_Permutation.
  - pose proof (queue_ids_insert _ i c (mkCommitter (cm_book c) (cm_queue c ++ [job]) (cm_reaping c) (cm_closed c) (cm_ended c)) Ec) as Hq.
    cbn [cm_queue] in Hq. rewrite map_app, <- app_assoc in Hq. apply Permutation_app_inv_l in Hq. cbn [map app] in Hq.
    split; unfold reply_ids, batch_ids, overloaded_ids, sending_ids in *; cbn [set_committer set_sending wr_sending wr_committers wr_replies wr_count wr_batches];
      rewrite Hq, ?map_app.
    + rewrite <- Hp. solve_Permutation.
    + etrans; [|exact Hb]. apply Permutation_submseteq. solve_Permutation.
Qed.

Lemma drain_ids first queue :
  map job_id (first :: queue) = map job_id (drain_batch (batch_max cfg) [first] queue).1 ++ map job_id (drain_batch (batch_max cfg) [first] queue).2.
Proof. rewrite <- map_app, drain_batch_app. done. Qed.

Lemma jobs_inv_step r r' : jobs_inv r -> router_step cfg r r' -> jobs_inv r'.
Proof.
  intros Hi Hs. destruct Hs as [r tx|r pre job i post Hs|r i c first queue Hc He Hq|r i c Hc He Hr|r i c Hc He Hr|r i c Hc Hcl Hq|r i c first queue Hc He Hq].
  - by apply jobs_inv_submit.
  - by apply jobs_inv_pass.
  - unfold run_committer. pose proof (drain_ids first queue) as Hd. destruct (drain_batch _ _ _) as [batch rest]. cbn in Hd.
    unfold commit_batch_and_reply. cbn. destruct (store_commit_batch _ _) as [results s].
    apply (jobs_inv_commit r i c); [done|done| | |apply overloaded_batch]; rewrite batch_replies_ids; [|done]. cbn. by rewrite Hq, <- Hd.
  - apply (jobs_inv_same r); try done. by apply (queue_ids_same _ _ c).
  - apply (jobs_inv_same r); try done. by apply (queue_ids_same _ _ c).
  - apply (jobs_inv_same r); try done. apply (queue_ids_same _ _ c); [done|]. by rewrite Hq.
  - unfold panic, reply. cbn [wr_books wr_committers wr_sending wr_replies wr_count wr_batches wr_store].
    pose proof (drain_ids first queue) as Hd.
    apply (jobs_inv_commit r i c); [done|done| | |].
    + rewrite map_map. cbn [fst cm_queue map]. rewrite app_nil_r, Hq. done.
    + rewrite map_map. cbn [fst]. change (fun j => job_id j) with job_id. rewrite Hd. apply submseteq_inserts_r. done.
    + rewrite filter_none; [done|]. apply Forall_forall. intros p Hin. apply list_elem_of_In, in_map_iff in Hin as (j & <- & _). done.
Qed.

(** A successful reply or an error of the store is the store's answer to the
    job, at the job's position in a batch. *)
Definition from_store (r : WriteRouter (S := S)) (id : nat) (a : result Committed StoreError) : Prop :=
  exists batch s results s' k job, batch ∈ wr_batches r /\ store_commit_batch (map job_transaction batch) s = (results, s') /\
    batch !! k = Some job /\ job_id job = id /\ results !! k = Some a.

Definition replies_right (r : WriteRouter (S := S)) : Prop :=
  forall id a, (id, map_err StoreErr a) ∈ wr_replies r -> from_store r id a.

Lemma from_store_mono r r' id a :
  (forall b, b ∈ wr_batches r -> b ∈ wr_batches r') -> from_store r id a -> from_store r' id a.
Proof. intros Hb (batch & s & results & s' & k & job & ? & ?). exists batch, s, results, s', k, job. split; [by apply Hb|done]. Qed.

Lemma replies_right_same r r' :
  replies_right r -> wr_replies r' = wr_replies r -> wr_batches r' = wr_batches r -> replies_right r'.
Proof. intros Hr Hrep Hb id a Hin. rewrite Hrep in Hin. eapply from_store_mono; [|by apply Hr]. by rewrite Hb. Qed.

Lemma map_err_inj (a b : result Committed StoreError) : map_err StoreErr a = map_err StoreErr b -> a = b.
Proof. destruct a, b; cbn; congruence. Qed.

Lemma map_err_other (a : result Committed StoreError) e : (forall e', e <> StoreErr e') -> map_err StoreErr a <> Err e.
Proof. destruct a; cbn; [done|]. intros He [= <-]. by eapply He. Qed.

Lemma replies_right_step r r' : replies_right r -> router_step cfg r r' -> replies_right r'.
Proof.
  intros Hr Hs. destruct Hs as [r tx|r pre job i post Hs|r i c first queue Hc He Hq|r i c Hc He Hre|r i c Hc He Hre|r i c Hc Hcl Hq|r i c first queue Hc He Hq].
  - unfold submit. destruct (sender_for (tx_book tx) r) as [i r1] eqn:E.
    apply sender_for_spec in E as (_ & _ & Hrep & _ & Hbt & _). by apply (replies_right_same r).
  - unfold submit_pass, try_send. destruct (wr_committers r !! i) as [c|] eqn:Ec; [destruct (is_closed c) eqn:Ecl|].
    2: destruct (queue_depth cfg <=? length (cm_queue c)) eqn:Ef.
    1,4: destruct (sender_for _ r) as [i' r1] eqn:E; apply sender_for_spec in E as (_ & _ & Hrep & _ & Hbt & _); by apply (replies_right_same r).
    + intros id a Hin. cbn in Hin. apply elem_of_app in Hin as [Hin|Hin]; [by apply (from_store_mono r); [|apply Hr]|].
      apply list_elem_of_singleton in Hin. injection Hin as _ Ha. by eapply map_err_other in Ha.
    + by apply (replies_right_same r).
  - unfold run_committer. destruct (drain_batch _ _ _) as [batch rest]. unfold commit_batch_and_reply. cbn.
    destruct (store_commit_batch _ _) as [results s] eqn:Es. intros id a Hin. cbn in Hin. apply elem_of_app in Hin as [Hin|Hin].
    { apply (from_store_mono r); [|by apply Hr]. intros b Hb. cbn. set_solver. }
    destruct (batch_replies_positional _ _ _ _ Hin) as (k & job & v & Hk & Hid & Hv & Ha); [by apply map_err_other|].
    apply map_err_inj in Ha as ->. exists batch, (wr_store r), results, s, k, job. cbn. split_and!; try done. set_solver.
  - by apply (replies_right_same r).
  - by apply (replies_right_same r).
  - by apply (replies_right_same r).
  - intros id a Hin. cbn in Hin. apply elem_of_app in Hin as [Hin|Hin].
    { apply (from_store_mono r); [|by apply Hr]. intros b Hb. cbn. set_solver. }
    exfalso. change ((id, map_err StoreErr a) ∈ map (fun j => (job_id j, @Err Committed _ CommitterGone)) (first :: queue)) in Hin.
    apply list_elem_of_In, in_map_iff in Hin as (j & [= _ Ha] & _). symmetry in Ha. by eapply map_err_other in Ha.
Qed.

(** C29: over every interleaving of submitters, committers, idle reaping and
    panics, the router neither loses nor duplicates a job.  Each submitted
    job is with its submitter, in one queue, or answered exactly once; each is
    handed to the store at most once, and never after it was refused as
    [Overloaded]; every other answer than a dropped channel is the store's,
    at the job's own position of its batch. *)
Theorem router_answers_once (s : S) (r : WriteRouter) :
  rtc (router_step cfg) (WriteRouter_new s) r ->
  sending_ids r ++ queue_ids (wr_committers r) ++ reply_ids r ≡ₚ seq 0 (wr_count r) /\
  NoDup (batch_ids r) /\
  (forall id, (id, Err Overloaded) ∈ wr_replies r -> id ∉ batch_ids r) /\
  replies_right r.
Proof.
  intros Hr. assert (jobs_inv r /\ replies_right r) as [[Hp Hb] Hrep].
  { apply (rtc_ind_r (R := router_step cfg) (fun r => jobs_inv r /\ replies_right r) (WriteRouter_new s)); [| |done].
    - split; [by split|]. intros id a Hin. cbn in Hin. by apply elem_of_nil in Hin.
    - intros r1 r2 _ Hs [Hi Hr1]. split; [by eapply jobs_inv_step|by eapply replies_right_step]. }
  assert (NoDup (batch_ids r ++ sending_ids r ++ queue_ids (wr_committers r) ++ overloaded_ids r)) as Hnd
    by (apply submseteq_Permutation in Hb as [k Hk]; pose proof (NoDup_seq 0 (wr_count r)) as Hn; rewrite Hk in Hn;
        by apply NoDup_app in Hn as [? _]).
  split_and!; [done| | |done].
  - by apply NoDup_app in Hnd as [? _].
  - intros id Hin Hbi. apply NoDup_app in Hnd as (_ & Hdis & _). apply (Hdis id Hbi), elem_of_app. right. apply elem_of_app. right.
    unfold overloaded_ids. apply (list_elem_of_fmap_2 fst _ (id, Err Overloaded)). by apply list_elem_of_filter.
Qed.

(** ** One committer per book, bounded queues *)

Definition live (c : Committer) : Prop := cm_reaping c = false /\ cm_ended c = false.

Record committers_inv (r : WriteRouter (S := S)) : Prop := {
  ci_books : forall b i, wr_books r !! b = Some i -> exists c, wr_committers r !! i = Some c /\ cm_book c = b;
  ci_live : forall i c, wr_committers r !! i = Some c -> live c -> wr_books r !! cm_book c = Some i;
  ci_closed : forall i c, wr_committers r !! i = Some c -> is_closed c = true -> ~ live c;
  ci_queue : forall i c, wr_committers r !! i = Some c -> length (cm_queue c) <= queue_depth cfg;
  ci_ended : forall i c, wr_committers r !! i = Some c -> cm_ended c = true -> cm_queue c = []
}.

(** A committer changed in place. *)
Lemma committers_inv_set (r r' : WriteRouter (S := S)) i c c' :
  committers_inv r -> wr_committers r !! i = Some c -> wr_books r' = wr_books r ->
  wr_committers r' = <[i := c']> (wr_committers r) ->
  cm_book c' = cm_book c -> (live c' -> live c) -> (is_closed c' = true -> ~ live c') ->
  length (cm_queue c') <= queue_depth cfg -> (cm_ended c' = true -> cm_queue c' = []) -> committers_inv r'.
Proof.
  intros [Hb Hl Hc Hq He] Hi Hbs Hcs Hbk Hlv Hcl Hqd Hen.
  assert (forall j d, wr_committers r' !! j = Some d -> (j = i /\ d = c') \/ (j <> i /\ wr_committers r !! j = Some d)) as Hcase.
  { intros j d. rewrite Hcs. intros [[-> [-> _]]|[? ?]]%list_lookup_insert_Some; auto. }
  split; rewrite ?Hbs.
  - intros b j Hj. destruct (Hb b j Hj) as (d & Hd & <-). rewrite Hcs. destruct (decide (i = j)) as [<-|Hne].
    + exists c'. rewrite list_lookup_insert_eq by (by eapply lookup_lt_Some). split; [done|]. congruence.
    + exists d. by rewrite list_lookup_insert_ne.
  - intros j d [[-> ->]|[_ Hd]]%Hcase Hld; [rewrite Hbk|]; eauto.
  - intros j d [[-> ->]|[_ Hd]]%Hcase; eauto.
  - intros j d [[-> ->]|[_ Hd]]%Hcase; eauto.
  - intros j d [[-> ->]|[_ Hd]]%Hcase; eauto.
Qed.

Lemma committers_inv_new_committer (r : WriteRouter (S := S)) book sending replies count batches s :
  committers_inv r -> (forall i c, wr_books r !! book = Some i -> wr_committers r !! i = Some c -> ~ live c) ->
  committers_inv (mkWriteRouter (<[book := length (wr_committers r)]> (wr_books r))
    (wr_committers r ++ [mkCommitter book [] false false false]) sending replies count batches s).
Proof.
  intros [Hb Hl Hc Hq He] Hno. set (c0 := mkCommitter book [] false false false).
  assert (forall j d, (wr_committers r ++ [c0]) !! j = Some d ->
    (wr_committers r !! j = Some d /\ j < length (wr_committers r)) \/ (j = length (wr_committers r) /\ d = c0)) as Hcase.
  { intros j d Hj. apply lookup_app_Some in Hj as [Hj|[Hle Hj]]; [left; split; [done|by eapply lookup_lt_Some]|right].
    destruct (j - length (wr_committers r)) as [|n] eqn:En; [injection Hj as <-; split; [lia|done]|by destruct n]. }
  split; cbn [wr_books wr_committers].
  - intros b j [[<- <-]|[Hne Hj]]%lookup_insert_Some.
    + exists c0. by rewrite lookup_app_r, Nat.sub_diag.
    + destruct (Hb b j Hj) as (d & Hd & ?). exists d. split; [by apply lookup_app_l_Some|done].
  - intros j d [[Hd Hlt]|[-> ->]]%Hcase Hlv; [|by rewrite lookup_insert_eq].
    destruct (decide (cm_book d = book)) as [Heq|Hne]; [|rewrite lookup_insert_ne by done; by apply Hl].
    exfalso. eapply Hno; [rewrite <- Heq; by apply Hl|done|done].
  - intros j d [[Hd _]|[-> ->]]%Hcase; [by eapply Hc|done].
  - intros j d [[Hd _]|[-> ->]]%Hcase; [by eapply Hq|cbn; lia].
  - intros j d [[Hd _]|[-> ->]]%Hcase; [by eapply He|done].
Qed.

Lemma committers_inv_ext (r r' : WriteRouter (S := S)) :
  committers_inv r -> wr_books r' = wr_books r -> wr_committers r' = wr_committers r -> committers_inv r'.
Proof. intros [] Hb Hc. split; rewrite ?Hb, ?Hc; done. Qed.

Lemma committers_inv_sender book r i r' : committers_inv r -> sender_for book r = (i, r') -> committers_inv r'.
Proof.
  intros Hi. unfold sender_for. destruct (wr_books r !! book) as [i0|] eqn:Eb; cbn.
  - destruct (ci_books _ Hi _ _ Eb) as (c & Hc & Hbk). rewrite Hc. cbn. destruct (is_closed c) eqn:Ecl; cbn; intros [= <- <-]; [|done].
    apply committers_inv_new_committer; [done|]. intros j d Hj Hd. assert (j = i0) as -> by congruence.
    assert (d = c) as -> by congruence. by eapply ci_closed.
  - intros [= <- <-]. apply committers_inv_new_committer; [done|]. intros j d Hj. congruence.
Qed.

Lemma committers_inv_pass r pre job i post :
  committers_inv r -> committers_inv (submit_pass cfg pre job i post r).
Proof.
  intros Hi. unfold submit_pass, try_send. destruct (wr_committers r !! i) as [c|] eqn:Ec; [destruct (is_closed c) eqn:Ecl|].
  2: destruct (Nat.leb_spec (queue_depth cfg) (length (cm_queue c))) as [Hf|Hf].
  1,4: destruct (sender_for _ r) as [i' r1] eqn:E; pose proof (committers_inv_sender _ _ _ _ Hi E); by apply (committers_inv_ext r1).
  - by apply (committers_inv_ext r).
  - eapply (committers_inv_set r _ i c); try done.
    + unfold is_closed in *. cbn. congruence.
    + cbn. rewrite length_app. cbn. lia.
    + cbn. unfold is_closed in Ecl. apply orb_false_iff in Ecl as [_ ->]. done.
Qed.

Lemma committers_inv_deregister r i c :
  committers_inv r -> wr_committers r !! i = Some c -> live c -> committers_inv (deregister i c r).
Proof.
  intros [Hb Hl Hc Hq He] Hi Hlv. set (c' := mkCommitter (cm_book c) (cm_queue c) true (cm_closed c) (cm_ended c)).
  assert (forall j d, <[i := c']> (wr_committers r) !! j = Some d -> (j = i /\ d = c') \/ (j <> i /\ wr_committers r !! j = Some d)) as Hcase.
  { intros j d [[-> [-> _]]|[? ?]]%list_lookup_insert_Some; auto. }
  split; cbn [deregister set_committer wr_books wr_committers]; fold c'.
  - intros b j [Hne Hj]%lookup_delete_Some. destruct (Hb b j Hj) as (d & Hd & Hbk). exists d.
    rewrite list_lookup_insert_ne; [done|]. intros <-. congruence.
  - intros j d [[-> ->]|[Hne Hd]]%Hcase Hld; [by destruct Hld|]. rewrite lookup_delete_ne; [by apply Hl|].
    intros Heq. pose proof (Hl _ _ Hi Hlv) as H1. pose proof (Hl _ _ Hd Hld) as H2. congruence.
  - intros j d [[-> ->]|[Hne Hd]]%Hcase; [intros _ []; done|by eapply Hc].
  - intros j d [[-> ->]|[Hne Hd]]%Hcase; [by apply (Hq i c)|by eapply Hq].
  - intros j d [[-> ->]|[Hne Hd]]%Hcase; [by apply (He i c)|by eapply He].
Qed.

Lemma committers_inv_step r r' : committers_inv r -> router_step cfg r r' -> committers_inv r'.
Proof.
  intros Hi Hs. destruct Hs as [r tx|r pre job i post Hs|r i c first queue Hc He Hq|r i c Hc He Hr|r i c Hc He Hr|r i c Hc Hcl Hq|r i c first queue Hc He Hq].
  - unfold submit. destruct (sender_for (tx_book tx) r) as [i r1] eqn:E.
    pose proof (committers_inv_sender _ _ _ _ Hi E). by apply (committers_inv_ext r1).
  - by apply committers_inv_pass.
  - unfold run_committer. pose proof (drain_batch_app (batch_max cfg) [first] queue) as Hd.
    destruct (drain_batch _ _ _) as [batch rest]. cbn in Hd.
    unfold commit_batch_and_reply. cbn. destruct (store_commit_batch _ _) as [results s].
    eapply (committers_inv_set r _ i c); try done; cbn.
    + by apply (ci_closed _ Hi i c).
    + pose proof (ci_queue _ Hi i c Hc) as Hlen. rewrite Hq, <- Hd, length_app in Hlen. lia.
    + rewrite He. done.
  - by apply committers_inv_deregister.
  - eapply (committers_inv_set r _ i c); try done; unfold live; cbn;
      first [by apply (ci_queue _ Hi i c)|by rewrite He|intuition congruence].
  - eapply (committers_inv_set r _ i c); try done; unfold live; cbn; first [lia|intuition congruence].
  - eapply (committers_inv_set r _ i c); try done; unfold live; cbn; first [lia|intuition congruence].
Qed.

Lemma committers_inv_new s : committers_inv (WriteRouter_new s).
Proof. split; intros ? ?; cbn; [by rewrite lookup_empty|done..]. Qed.

Lemma router_inv s r : rtc (router_step cfg) (WriteRouter_new s) r -> jobs_inv r /\ committers_inv r.
Proof.
  intros Hr. apply (rtc_ind_r (R := router_step cfg) (fun r => jobs_inv r /\ committers_inv r) (WriteRouter_new s)); [| |done].
  - split; [by split|apply committers_inv_new].
  - intros r1 r2 _ Hs [Hj Hi]. split; [by eapply jobs_inv_step|by eapply committers_inv_step].
Qed.

(** Writes to one book are serialized: at any time at most one committer of
    a book takes new jobs, it is the one the map names, and no queue is
    longer than [queue_depth]. *)
Theorem router_serializes (s : S) (r : WriteRouter) (i j : nat) (c d : Committer) :
  rtc (router_step cfg) (WriteRouter_new s) r ->
  wr_committers r !! i = Some c -> wr_committers r !! j = Some d ->
  length (cm_queue c) <= queue_depth cfg /\
  (live c -> wr_books r !! cm_book c = Some i) /\
  (live c -> live d -> cm_book c = cm_book d -> i = j).
Proof.
  intros Hr Hc Hd. apply router_inv in Hr as [_ Hi]. split_and!; [by eapply ci_queue|by eapply ci_live|].
  intros Hlc Hld Heq. pose proof (ci_live _ Hi _ _ Hc Hlc). pose proof (ci_live _ Hi _ _ Hd Hld). congruence.
Qed.

(** ** Progress *)

(** The steps of submitters and committers: no new submission, no panic, no
    idle timer. *)
Inductive drive : WriteRouter (S := S) -> WriteRouter -> Prop :=
| drive_send r pre job i post :
    wr_sending r = pre ++ (job, i) :: post -> drive r (submit_pass cfg pre job i post r)
| drive_commit r i c first queue :
    wr_committers r !! i = Some c -> cm_ended c = false -> cm_queue c = first :: queue ->
    drive r (run_committer cfg i c first queue r).

Lemma drive_step r r' : drive r r' -> router_step cfg r r'.
Proof. intros []; by econstructor. Qed.

Lemma drive_inv r r' : jobs_inv r -> committers_inv r -> rtc drive r r' -> jobs_inv r' /\ committers_inv r'.
Proof.
  intros Hj Hi Hr. induction Hr as [|r1 r2 r3 Hs _ IH]; [done|]. apply drive_step in Hs.
  apply IH; [by eapply jobs_inv_step|by eapply committers_inv_step].
Qed.

(** An open channel takes the job or refuses it at once. *)
Lemma pass_open r job i post c :
  wr_sending r = (job, i) :: post -> wr_committers r !! i = Some c -> is_closed c = false ->
  exists r', drive r r' /\ wr_sending r' = post /\ wr_count r' = wr_count r.
Proof.
  intros Hs Hc Hcl. exists (submit_pass cfg [] job i post r). split; [by apply drive_send|].
  unfold submit_pass, try_send. rewrite Hc, Hcl. by destruct (queue_depth cfg <=? length (cm_queue c)).
Qed.

Lemma send_all r : exists r', rtc drive r r' /\ wr_sending r' = [] /\ wr_count r' = wr_count r.
Proof.
  remember (wr_sending r) as l eqn:El. revert r El. induction l as [|[job i] post IH]; intros r El; [by exists r|].
  assert (exists r1, rtc drive r r1 /\ wr_sending r1 = post /\ wr_count r1 = wr_count r) as (r1 & Hr1 & Hs1 & Hc1).
  { destruct (wr_committers r !! i) as [c|] eqn:Ec; [destruct (is_closed c) eqn:Ecl|].
    2:{ destruct (pass_open r job i post c) as (r1 & ? & ? & ?); [done..|]. exists r1. by split; [apply rtc_once|]. }
    all: assert (drive r (submit_pass cfg [] job i post r)) as Hd by (by apply drive_send); revert Hd;
      unfold submit_pass, try_send; rewrite Ec, ?Ecl; destruct (sender_for _ r) as [i' r'] eqn:E;
      apply sender_for_spec in E as (_ & _ & _ & Hcnt & _ & _ & c' & Hc' & Hcl'); intros Hd;
      destruct (pass_open (set_sending ((job, i') :: post) r') job i' post c') as (r1 & Hd1 & Hs1 & Hc1); [done..|];
      exists r1; (split; [eapply rtc_l; [exact Hd|by apply rtc_once]|]); (split; [done|]); rewrite Hc1; exact Hcnt. }
  destruct (IH r1 (eq_sym Hs1)) as (r' & Hr' & ? & ?). exists r'. split; [by etrans|]. split; [done|congruence].
Qed.

Lemma queue_ids_nonempty cs : queue_ids cs <> [] -> exists i c first queue, cs !! i = Some c /\ cm_queue c = first :: queue.
Proof.
  induction cs as [|c cs IH]; intros Hne; [done|]. destruct (cm_queue c) as [|first queue] eqn:E.
  - unfold queue_ids in Hne. cbn in Hne. rewrite E in Hne. cbn in Hne. destruct (IH Hne) as (i & c' & f & q & ? & ?).
    by exists (Datatypes.S i), c', f, q.
  - by exists 0, c, first, queue.
Qed.

Lemma commit_shrinks r i c first queue :
  wr_committers r !! i = Some c -> cm_queue c = first :: queue ->
  length (queue_ids (wr_committers (run_committer cfg i c first queue r))) < length (queue_ids (wr_committers r)) /\
  wr_sending (run_committer cfg i c first queue r) = wr_sending r /\ wr_count (run_committer cfg i c first queue r) = wr_count r.
Proof.
  intros Hc Hq. unfold run_committer. pose proof (drain_batch_app (batch_max cfg) [first] queue) as Hd.
  assert (1 <= length (drain_batch (batch_max cfg) [first] queue).1) as Hl.
  { generalize (batch_max cfg) as bm. intros bm. clear. change 1 with (length [first]). generalize [first] as b.
    induction queue as [|j q IH]; intros b; cbn [drain_batch]; [done|]. case_match; [|done]. etrans; [|apply IH]. rewrite length_app. lia. }
  destruct (drain_batch _ _ _) as [batch rest]. cbn [fst snd] in Hd, Hl.
  unfold commit_batch_and_reply. destruct (store_commit_batch _ _) as [results s].
  cbn [set_committer wr_committers wr_sending wr_count]. split; [|done].
  pose proof (Permutation_length (queue_ids_insert _ i c (mkCommitter (cm_book c) rest (cm_reaping c) (cm_closed c) (cm_ended c)) Hc)) as Hp.
  rewrite !length_app, !length_map, Hq in Hp. cbn [cm_queue] in Hp. apply (f_equal length) in Hd. rewrite !length_app in Hd. cbn in Hd, Hp. lia.
Qed.

Lemma commit_all r :
  committers_inv r -> exists r', rtc drive r r' /\ wr_sending r' = wr_sending r /\ queue_ids (wr_committers r') = [] /\ wr_count r' = wr_count r.
Proof.
  remember (length (queue_ids (wr_committers r))) as n eqn:En. revert r En.
  induction (lt_wf n) as [n _ IH]. intros r -> Hi.
  destruct (queue_ids (wr_committers r)) as [|x l] eqn:Eq; [by exists r|]. rewrite <- Eq in IH.
  destruct (queue_ids_nonempty (wr_committers r)) as (i & c & first & queue & Hc & Hq); [by rewrite Eq|].
  assert (cm_ended c = false) as He.
  { destruct (cm_ended c) eqn:E; [|done]. rewrite (ci_ended _ Hi i c Hc E) in Hq. done. }
  assert (drive r (run_committer cfg i c first queue r)) as Hd by (by apply drive_commit).
  destruct (commit_shrinks r i c first queue Hc Hq) as (Hlt & Hs & Hcnt).
  destruct (IH _ Hlt (run_committer cfg i c first queue r) eq_refl) as (r' & Hr' & Hs' & Hq' & Hc').
  { eapply committers_inv_step; [done|by apply drive_step]. }
  exists r'. split; [by eapply rtc_l|]. split_and!; [congruence|done|congruence].
Qed.

(** C30: no job can be stranded: whatever was submitted, reaped or panicked so
    far, the submitters and committers can by their own steps answer every
    job submitted, without new submissions or panics. *)
Theorem router_drains (s : S) (r : WriteRouter) :
  rtc (router_step cfg) (WriteRouter_new s) r ->
  exists r', rtc drive r r' /\ wr_count r' = wr_count r /\ reply_ids r' ≡ₚ seq 0 (wr_count r).
Proof.
  intros [Hj Hi]%router_inv. destruct (send_all r) as (r1 & Hr1 & Hs1 & Hc1).
  destruct (drive_inv _ _ Hj Hi Hr1) as [Hj1 Hi1]. destruct (commit_all r1 Hi1) as (r2 & Hr2 & Hs2 & Hq2 & Hc2).
  destruct (drive_inv _ _ Hj1 Hi1 Hr2) as [[Hp _] _]. exists r2. split; [by etrans|]. split; [congruence|].
  unfold sending_ids in Hp. rewrite Hs2, Hs1, Hq2, Hc2, Hc1 in Hp. done.
Qed.
End router_spec.

(** ** Examples *)

Section router_demo.
Open Scope Z_scope.

(** A store that counts its commits. *)
#[local] Instance counting_store : Store Z := {|
  store_register_asset := fun _ s => (Ok (), s);
  store_open_account := fun _ _ s => (Ok (), s);
  store_commit_batch := fun txs s => (imap (fun i tx => Ok (mkCommitted (tx_id tx) (s + Z.of_nat i) 0)) txs, s + Z.of_nat (length txs));
  store_balance := fun a _ s => (Err (UnknownAccount a), s);
  store_asset := fun _ s => (Ok None, s);
  store_account_history := fun a _ _ s => (Err (UnknownAccount a), s);
  store_transaction := fun _ s => (Ok None, s);
  store_trial_balance := fun _ _ s => (Ok [], s)
|}.

Definition demo_cfg : WriteConfig := mkWriteConfig 1 8 60.
Definition demo_tx (id : Z) : Transaction := mkTransaction id "shop" [] "k" [] "null" 0.

(** Two submitters find the same committer, whose queue holds one job. *)
Definition two_sending : WriteRouter := submit (demo_tx 8) (submit (demo_tx 7) (WriteRouter_new 1)).
Definition one_refused : WriteRouter :=
  submit_pass demo_cfg [] (mkJob 1 (demo_tx 8)) 0 [] (submit_pass demo_cfg [] (mkJob 0 (demo_tx 7)) 0 [(mkJob 1 (demo_tx 8), 0%nat)] two_sending).
Definition one_committed : WriteRouter :=
  run_committer demo_cfg 0 (mkCommitter "shop" [mkJob 0 (demo_tx 7)] false false false) (mkJob 0 (demo_tx 7)) [] one_refused.

Lemma one_committed_reached : rtc (router_step demo_cfg) (WriteRouter_new 1) one_committed.
Proof.
  eapply rtc_l; [apply (step_submit demo_cfg _ (demo_tx 7))|]. eapply rtc_l; [apply (step_submit demo_cfg _ (demo_tx 8))|].
  eapply rtc_l; [apply (step_send demo_cfg _ [] (mkJob 0 (demo_tx 7)) 0 [(mkJob 1 (demo_tx 8), 0%nat)]); reflexivity|].
  eapply rtc_l; [apply (step_send demo_cfg _ [] (mkJob 1 (demo_tx 8)) 0 []); reflexivity|].
  eapply rtc_l; [apply (step_commit demo_cfg _ 0 (mkCommitter "shop" [mkJob 0 (demo_tx 7)] false false false)); reflexivity|].
  apply rtc_refl.
Qed.

Lemma router_answers_once_witness :
  wr_replies one_committed = [(1%nat, Err Overloaded); (0%nat, Ok (mkCommitted 7 1 0))] /\
  sending_ids one_committed ++ queue_ids (wr_committers one_committed) ++ reply_ids one_committed ≡ₚ seq 0 (wr_count one_committed).
Proof.
  split; [reflexivity|]. exact (proj1 (router_answers_once demo_cfg 1 one_committed one_committed_reached)).
Defined.

Lemma router_serializes_witness :
  (length (cm_queue (mkCommitter "shop" [] false false false)) <= queue_depth demo_cfg)%nat /\ wr_books one_committed !! "shop"%string = Some 0%nat.
Proof.
  destruct (router_serializes demo_cfg 1 one_committed 0 0 (mkCommitter "shop" [] false false false) (mkCommitter "shop" [] false false false)
    one_committed_reached eq_refl eq_refl) as (Hq & Hl & _).
  split; [exact Hq|]. apply Hl. split; reflexivity.
Defined.

Lemma router_drains_witness :
  wr_sending two_sending = [(mkJob 0 (demo_tx 7), 0%nat); (mkJob 1 (demo_tx 8), 0%nat)] /\
  exists r', rtc (drive demo_cfg) two_sending r' /\ wr_count r' = 2%nat /\ reply_ids r' ≡ₚ [0%nat; 1%nat].
Proof.
  split; [reflexivity|]. apply (router_drains demo_cfg 1 two_sending).
  eapply rtc_l; [apply (step_submit demo_cfg _ (demo_tx 7))|]. apply rtc_once, step_submit.
Defined.
End router_demo.
