(* ===== verification/StoreImpl.v ===== *)
(** The log store as an implementation of the [Store] trait
    (talea-store-log/src/lib.rs, talea-core/src/store.rs): the instance the
    service and the router run on, and the history promise it keeps. *)

From S2P Require Import Prelude Decimal Assoc Core Bloom Disk PostingIndex Idem BookState Frame Replay Segment Snapshot.
From S2P Require Import Writer WriterBatch WriterLog WriterSpec LogOpen LogStore StoreReads Api Service ServiceSpec.
From stdpp Require Import sorting.
Open Scope Z_scope.

Section store_impl.
Context `{HashIter} `{KeyHashes} `{Crc32} `{Json (list Pair)} `{Json WireEvent} `{Json StateImage}.

(** The clock of each operation's batches is an argument of the instance. *)
Definition log_store (clock : nat -> nat -> DateTime) : Store LogStore := {|
  store_register_asset := LogStore.register_asset clock;
  store_open_account := LogStore.open_account clock;
  store_commit_batch := LogStore.commit_batch clock;
  store_balance := LogStore.balance;
  store_asset := LogStore.asset;
  store_account_history := LogStore.account_history;
  store_transaction := LogStore.transaction;
  store_trial_balance := LogStore.trial_balance
|}.
End store_impl.

Section history.
Context `{HashIterLaws} `{KeyHashes} `{Crc32} `{!Crc32Laws} `{Json (list Pair)} `{!JsonLaws (list Pair)}
  `{Json WireEvent} `{!JsonLaws WireEvent} `{Json StateImage} `{!JsonLaws StateImage}.

Definition log_history (s : LogStore) (a : AccountId) : option (list PostingRecord) :=
  h ← books s !! acct_book a;
  acct ← accounts (wr_state (h_writer h)) !! to_key a;
  Some (map (posting_record a acct) (flat (postings acct))).

Definition books_served (s : LogStore) : Prop :=
  forall book h, books s !! book = Some h -> exists log, serves s book (h_writer h) log.

Lemma log_history_wf s a l :
  books_served s -> log_history s a = Some l ->
  exists wr log acct, serves s (acct_book a) wr log /\ accounts (wr_state wr) !! to_key a = Some acct /\
    acct_wf (next_seq (wr_state wr)) (last_at (wr_state wr)) (to_key a) acct /\ l = map (posting_record a acct) (flat (postings acct)).
Proof.
  intros Hs Hl. unfold log_history in Hl. destruct (books s !! acct_book a) as [h|] eqn:Eb; [|done]. cbn in Hl.
  destruct (accounts (wr_state (h_writer h)) !! to_key a) as [acct|] eqn:Ea; [|done]. injection Hl as <-.
  destruct (Hs _ _ Eb) as [log Hlog]. exists (h_writer h), log, acct. split_and!; [done|done|by eapply serves_wf|done].
Qed.

Lemma distinct_le_length l v : distinct_after l v <= Z.of_nat (length v).
Proof. revert l. induction v as [|e v IH]; intros l; cbn [distinct_after length]; [lia|]. specialize (IH (e_seq e)). case_match; lia. Qed.

Lemma ordered_sorted v a acct : ordered v -> StronglySorted (fun x y => pr_seq x <= pr_seq y) (map (posting_record a acct) v).
Proof.
  induction v as [|e v IH]; intros Ho; cbn; constructor.
  - apply IH. intros i j x y Hi Hj Hij. apply (Ho (S i) (S j)); [done|done|lia].
  - apply Forall_forall. intros r Hr. apply list_elem_of_fmap in Hr as (e' & -> & [j Hj]%list_elem_of_lookup).
    apply (Ho 0%nat (S j) e e'); [done|done|lia].
Qed.

Lemma filter_records a acct after v :
  filter (fun r => after < pr_seq r) (map (posting_record a acct) v) = map (posting_record a acct) (filter (fun e => after < e_seq e) v).
Proof. induction v as [|e v IH]; [done|]. cbn [map]. rewrite !filter_cons. cbn [pr_seq posting_record]. case_decide; by rewrite IH. Qed.

Variable clock : nat -> nat -> DateTime.
#[local] Instance log_store_inst : Store LogStore := log_store clock.

(** The pages of the log store keep the trait's promise. *)
Lemma log_history_page s a l after limit :
  books_served s -> log_history s a = Some l -> 0 < limit ->
  exists page rest, store_account_history a after limit s = (Ok page, s) /\
    filter (fun r => default 0 after < pr_seq r) l = page ++ rest /\
    (rest <> [] -> limit <= Z.of_nat (length page)) /\
    (forall x y, x ∈ page -> y ∈ rest -> pr_seq x < pr_seq y).
Proof.
  intros Hs Hl Hlim. destruct (log_history_wf _ _ _ Hs Hl) as (wr & log & acct & Hserve & Ha & Hw & ->).
  pose proof (aw_ordered _ _ _ _ Hw) as Ho. set (v := filter (fun e => default 0 after < e_seq e) (flat (postings acct))).
  destruct (walk_page v limit) as (rest & Hv & Hd & Hr & Hlt); [by apply ordered_filter|done|].
  exists (map (posting_record a acct) (walk_history limit v 0 0)), (map (posting_record a acct) rest). split_and!.
  - cbn [store_account_history log_store_inst log_store]. unfold LogStore.account_history.
    assert (limit =? 0 = false) as -> by lia. unfold sbind. rewrite (find_account_spec _ _ _ _ Hserve), Ha. unfold sret, account_page.
    by rewrite iter_after by apply Hw.
  - rewrite filter_records. fold v. by rewrite <- map_app, <- Hv.
  - intros Hne. rewrite length_map. pose proof (distinct_le_length 0 (walk_history limit v 0 0)) as Hdl.
    rewrite Hr in Hdl; [done|]. by intros ->.
  - intros x y Hx Hy. apply list_elem_of_fmap in Hx as (e & -> & He). apply list_elem_of_fmap in Hy as (e' & -> & He'). by apply Hlt.
Qed.

Definition log_store_history : StoreHistory LogStore.
Proof.
  refine {| store_ok := books_served; history_of := log_history |}.
  - intros s a l Hs Hl. destruct (log_history_wf _ _ _ Hs Hl) as (wr & log & acct & _ & _ & Hw & ->).
    apply Forall_forall. intros r Hr. apply list_elem_of_fmap in Hr as (e & -> & He). cbn.
    pose proof (aw_before _ _ _ _ Hw) as Hb. rewrite Forall_forall in Hb. destruct (Hb e He). lia.
  - intros s a l Hs Hl. destruct (log_history_wf _ _ _ Hs Hl) as (wr & log & acct & _ & _ & Hw & ->).
    by apply ordered_sorted, (aw_ordered _ _ _ _ Hw).
  - exact log_history_page.
Defined.
End history.

(** ** The service over the log store, evaluated *)

Section impl_demo.
Import WriterDemo.

#[local] Instance demo_texts : Texts := {|
  uuid_to_string := u64_to_string;
  uuid_parse := fun s => ok_or (parse_u64 s) "invalid character"%string;
  debug_str := fun s => s;
  event_to_value := fun e => Ok (LedgerEvent_kind e)
|}.

Definition demo_clock : nat -> nat -> DateTime := fun _ => noon.
#[local] Instance demo_store : Store LogStore := log_store demo_clock.
#[local] Instance demo_history : StoreHistory LogStore := log_store_history demo_clock.

Lemma shop_books_served : books_served shop_store.
Proof.
  intros book h Hb. unfold shop_store in Hb. cbn [books] in Hb. apply lookup_singleton_Some in Hb as [<- <-].
  exists sold_log. exact shop_served.
Qed.

Definition cash_records : list PostingRecord :=
  map (posting_record (mkAccountId "shop" "cash") cash_account) (flat (postings cash_account)).

Lemma cash_history : history_of shop_store (mkAccountId "shop" "cash") = Some cash_records.
Proof. cbn [history_of demo_history log_store_history]. unfold log_history. vm_compute. reflexivity. Qed.

Lemma history_pagination_complete_witness :
  length cash_records = 2%nat /\
  all_pages 3 "shop" "cash" 1 None shop_store = (Ok (map posting_view cash_records), shop_store).
Proof.
  split; [vm_compute; reflexivity|].
  apply (@history_pagination_complete LogStore demo_store demo_history demo_texts 3 "shop" "cash" 1 shop_store cash_records shop_books_served cash_history).
  - discriminate.
  - vm_compute. lia.
Defined.
End impl_demo.
