(* ===== verification/Conformance.v ===== *)
(** The conformance suite of the stores, talea-store-conformance/src/lib.rs, as
    programs over any store: what a test does to it and where it panics.

    A test draws ids from [new_v4], reads the store's clock and calls its
    operations; a failing assertion ends it.  Commits that a test joins run one
    after the other, in the order of the text or in the reverse one. *)

From S2P Require Import Prelude Decimal Core Api Service.
Open Scope Z_scope.

(** The operations the suite calls beside those of [Store]: [now] reads the clock of
    the store's process, [next] waits for the next item of a stream, which does not
    come when the test times out or the stream has ended. *)
Class Backend (S : Type) `{Store S} := {
  be_commit : Transaction -> S -> result Committed StoreError * S;
  be_read_events : Book -> Seq -> Z -> S -> result (list (Sequenced LedgerEvent)) StoreError * S;
  be_now : S -> DateTime * S;
  be_stream : Type;
  be_subscribe : Book -> Seq -> S -> be_stream * S;
  be_next : be_stream -> S -> option (result (Sequenced LedgerEvent) StoreError) * be_stream * S
}.

(** [Uuid::new_v4], numbered by its calls, and [simple]. *)
Class Uuids := { new_v4 : nat -> Uuid; simple : Uuid -> string }.

Section suite.
Context {S : Type} `{Backend S} `{Uuids}.

(** The order of joined commits. *)
Variable backwards : bool.

(** ** Tests *)

Record Fixture := mkFixture { fx_store : S; fx_drawn : nat }.

(** A test's panic is its message. *)
Definition test (A : Type) : Type := Fixture -> result A string * Fixture.
Definition pass {A} (a : A) : test A := fun f => (Ok a, f).
Definition panic {A} (msg : string) : test A := fun f => (Err msg, f).
Definition then_ {A B} (m : test A) (k : A -> test B) : test B :=
  fun f => match m f with (Ok a, f') => k a f' | (Err e, f') => (Err e, f') end.

#[local] Notation "'let^' p ':=' m 'in' k" := (then_ m (fun p => k)) (at level 10, p pattern, m at level 200, k at level 200).

Definition draw : test Uuid := fun f => (Ok (new_v4 (fx_drawn f)), mkFixture (fx_store f) (1 + fx_drawn f)).
Definition call {A} (op : S -> A * S) : test A := fun f => let '(a, s) := op (fx_store f) in (Ok a, mkFixture s (fx_drawn f)).
Definition unwrap {A} (r : result A StoreError) : test A :=
  match r with Ok a => pass a | Err _ => panic "called `Result::unwrap()` on an `Err` value" end.
Definition check (msg : string) (b : bool) : test unit := if b then pass () else panic msg.
Definition check_eq {A} `{EqDecision A} (a b : A) : test unit := check "assertion failed: left == right" (bool_decide (a = b)).
Definition expect_some {A} (o : option A) : test A := match o with Some a => pass a | None => panic "called `Option::unwrap()` on a `None` value" end.

(** An operation that must succeed, and one that must fail as [p] says. *)
Definition ok {A} (op : S -> result A StoreError * S) : test A := let^ r := call op in unwrap r.
Definition expect_error {A} (p : StoreError -> bool) (r : result A StoreError) : test unit :=
  match r with Err e => check "expected another error" (p e) | Ok _ => panic "expected an error" end.
Definition refused {A} (p : StoreError -> bool) (op : S -> result A StoreError * S) : test unit := let^ r := call op in expect_error p r.

Fixpoint each {A B} (f : A -> test B) (l : list A) : test (list B) :=
  match l with
  | [] => pass []
  | a :: l => let^ b := f a in let^ bs := each f l in pass (b :: bs)
  end.

(** [futures::join!] and [join_all] of commits: each runs, whatever the others
    answer. *)
Definition joined {A} (ms : list (test A)) : test (list A) :=
  let^ rs := each id (if backwards then rev ms else ms) in
  pass (if backwards then rev rs else rs).

Definition commit_of (tx : Transaction) : test (result Committed StoreError) := call (be_commit tx).

(** ** Fixtures *)

Definition unique (prefix : string) : test string := let^ id := draw in pass (prefix +:+ "-" +:+ simple id).

Definition asset (id : string) : AssetDef := mkAssetDef id Fiat 2 (id +:+ " test asset").

Definition account_id (book path : string) : AccountId := mkAccountId book path.

Definition open_spec (book path asset_id : string) (kind : AccountKind) : AccountDef * AccountCfg :=
  (mkAccountDef (account_id book path) asset_id kind, mkAccountCfg (AccountKind_normal_side kind) None).

Definition posting (book path asset_id : string) (minor : Z) (side : Direction) : Posting :=
  mkPosting (account_id book path) (Amount_new minor asset_id) side.

Definition transaction_of (book idem : string) (postings : list Posting) : test Transaction :=
  let^ id := draw in
  let^ now := call be_now in
  pass (mkTransaction id book postings idem [] "{}" now).

(** A balanced transaction: credit [from], debit [to]. *)
Definition transfer (book idem from to asset_id : string) (minor : Z) : test Transaction :=
  transaction_of book idem [posting book from asset_id minor Credit; posting book to asset_id minor Debit].

Definition open_with_min (book path asset_id : string) (kind : AccountKind) (min : option Z) : test unit :=
  let '(def, cfg) := open_spec book path asset_id kind in
  ok (store_open_account def (mkAccountCfg (normal_side cfg) min)).

Definition opened (book path asset_id : string) (kind : AccountKind) : test unit := open_with_min book path asset_id kind None.

Definition setup_book : test (string * string) :=
  let^ book := unique "book" in
  let^ asset_id := unique "USD" in
  let^ _ := ok (store_register_asset (asset asset_id)) in
  let^ _ := opened book "cash" asset_id Asset in
  let^ _ := opened book "deposits" asset_id Liability in
  pass (book, asset_id).

Definition commits (book idem from to asset_id : string) (minor : Z) : test Committed :=
  let^ tx := transfer book idem from to asset_id minor in ok (be_commit tx).

Definition balance_of (book path : string) (as_of : option DateTime) : test BalanceSnapshot := ok (store_balance (account_id book path) as_of).

Definition check_balance (book path : string) (as_of : option DateTime) (expected : Z) : test unit :=
  let^ bal := balance_of book path as_of in check_eq (minor (bs_amount bal)) expected.

Definition is_already_exists (e : StoreError) : bool := match e with AlreadyExists _ => true | _ => false end.
Definition is_unknown_asset (e : StoreError) : bool := match e with UnknownAsset _ => true | _ => false end.
Definition is_unknown_account (path : string) (e : StoreError) : bool := match e with UnknownAccount a => String.eqb (acct_path a) path | _ => false end.
Definition is_asset_mismatch (e : StoreError) : bool := match e with AssetMismatch _ _ _ => true | _ => false end.
Definition is_violation (expected : Z) (e : StoreError) : bool := match e with ConstraintViolation _ _ would_be => would_be =? expected | _ => false end.
Definition is_invalid_book (e : StoreError) : bool := match e with InvalidBook _ => true | _ => false end.

(** ** Registry *)

Definition registry_is_idempotent : test unit :=
  let^ id := unique "USD" in
  let def := asset id in
  let^ _ := ok (store_register_asset def) in
  let^ _ := ok (store_register_asset def) in
  let^ _ := refused is_already_exists (store_register_asset (mkAssetDef id Fiat 8 (asset_name def))) in
  let^ book := unique "book" in
  let '(adef, acfg) := open_spec book "cash" id Asset in
  let^ _ := ok (store_open_account adef acfg) in
  let^ _ := ok (store_open_account adef acfg) in
  refused is_already_exists (store_open_account adef (mkAccountCfg (normal_side acfg) (Some 10))).

Definition unknown_asset_rejected : test unit :=
  let^ book := unique "book" in
  let^ nope := unique "NOPE" in
  let '(def, cfg) := open_spec book "cash" nope Asset in
  refused is_unknown_asset (store_open_account def cfg).

Definition crypto_asset_round_trips : test unit :=
  let^ id := unique "USDT-ETH" in
  let def := mkAssetDef id (Crypto "ethereum" (Some "0xdac17f958d2ee523a2206206994597c13d831ec7"%string)) 6 "Tether" in
  let^ _ := ok (store_register_asset def) in
  let^ _ := ok (store_register_asset def) in
  refused is_already_exists (store_register_asset (mkAssetDef id (Crypto "tron" None) 6 "Tether")).

(** ** Commit *)

Definition commit_happy_path : test unit :=
  let^ (book, asset_id) := setup_book in
  let^ tx := transfer book "t1" "deposits" "cash" asset_id 1000 in
  let^ committed := ok (be_commit tx) in
  let^ _ := check_eq (c_txid committed) (tx_id tx) in
  check_eq (c_seq committed) 3.

Definition unknown_account_rejected : test unit :=
  let^ (book, asset_id) := setup_book in
  let^ tx := transfer book "ua" "deposits" "ghost" asset_id 100 in
  refused (is_unknown_account "ghost") (be_commit tx).

Definition asset_mismatch_rejected : test unit :=
  let^ (book, _) := setup_book in
  let^ other_asset := unique "EUR" in
  let^ _ := ok (store_register_asset (asset other_asset)) in
  let^ tx := transfer book "am" "deposits" "cash" other_asset 100 in
  refused is_asset_mismatch (be_commit tx).

Definition seq_is_per_book_and_gapless : test unit :=
  let^ (book_a, asset_a) := setup_book in
  let^ (book_b, asset_b) := setup_book in
  let^ a1 := commits book_a "a1" "deposits" "cash" asset_a 1 in
  let^ b1 := commits book_b "b1" "deposits" "cash" asset_b 1 in
  let^ a2 := commits book_a "a2" "deposits" "cash" asset_a 1 in
  let^ _ := check_eq (c_seq a1, c_seq a2) (3, 4) in
  check_eq (c_seq b1) 3.

(** ** Idempotency and balances *)

Definition commit_is_idempotent : test unit :=
  let^ (book, asset_id) := setup_book in
  let^ tx := transfer book "dup" "deposits" "cash" asset_id 500 in
  let^ first := ok (be_commit tx) in
  let^ second := ok (be_commit tx) in
  let^ _ := check_eq first second in
  check_balance book "cash" None 500.

Definition concurrent_same_key_commits_once : test unit :=
  let^ (book, asset_id) := setup_book in
  let^ tx := transfer book "race" "deposits" "cash" asset_id 250 in
  let^ rs := joined [commit_of tx; commit_of tx] in
  let^ cs := each unwrap rs in
  let^ _ := match cs with [a; b] => check_eq (c_seq a) (c_seq b) | _ => panic "two results" end in
  check_balance book "cash" None 250.

Definition min_balance_blocks_overdraft : test unit :=
  let^ book := unique "book" in
  let^ asset_id := unique "USD" in
  let^ _ := ok (store_register_asset (asset asset_id)) in
  let^ _ := open_with_min book "cash" asset_id Asset (Some 0) in
  let^ _ := opened book "expenses" asset_id Expense in
  let^ tx := transfer book "od" "cash" "expenses" asset_id 100 in
  let^ _ := refused (is_violation (-100)) (be_commit tx) in
  check_balance book "expenses" None 0.

Definition min_balance_is_normal_side_adjusted : test unit :=
  let^ book := unique "book" in
  let^ asset_id := unique "USD" in
  let^ _ := ok (store_register_asset (asset asset_id)) in
  let^ _ := opened book "cash" asset_id Asset in
  let^ _ := open_with_min book "deposits" asset_id Liability (Some 0) in
  let^ _ := commits book "fund" "deposits" "cash" asset_id 100 in
  let^ _ := check_balance book "deposits" None 100 in
  let^ over := transfer book "over" "cash" "deposits" asset_id 200 in
  refused (is_violation (-100)) (be_commit over).

(** ** Reads *)

Definition balance_as_of_point_in_time : test unit :=
  let^ (book, asset_id) := setup_book in
  let^ _ := commits book "p1" "deposits" "cash" asset_id 100 in
  let^ mid := call be_now in
  let^ _ := commits book "p2" "deposits" "cash" asset_id 50 in
  let^ now_bal := balance_of book "cash" None in
  let^ _ := check_eq (minor (bs_amount now_bal)) 150 in
  let^ _ := check_eq (amount_asset (bs_amount now_bal)) asset_id in
  check_balance book "cash" (Some mid) 100.

Definition is_opened (e : LedgerEvent) : bool := match e with AccountOpened _ _ => true | _ => false end.
Definition is_posted (e : LedgerEvent) : bool := match e with TransactionPosted _ => true | _ => false end.

Definition read_events_paginates_inclusively : test unit :=
  let^ (book, asset_id) := setup_book in
  let^ _ := each (fun i => commits book ("e" +:+ u64_to_string i) "deposits" "cash" asset_id 10) [0; 1; 2] in
  let^ page := ok (be_read_events book 1 2) in
  let^ _ := check_eq (length page) 2%nat in
  let^ first := expect_some (page !! 0%nat) in
  let^ _ := check_eq (s_seq first) 1 in
  let^ _ := check "assertion failed" (is_opened (s_event first)) in
  let^ final := expect_some (last page) in
  let^ next := ok (be_read_events book (s_seq final + 1) 10) in
  let^ _ := check_eq (length next) 3%nat in
  let^ first := expect_some (next !! 0%nat) in
  let^ _ := check "assertion failed" (is_posted (s_event first)) in
  let^ final := expect_some (last next) in
  check_eq (s_seq final) 5.

(** The loop over the pages of the system book, with a bound on its turns. *)
Fixpoint registered_in_log (fuel : nat) (asset_id : string) (from : Seq) : test bool :=
  match fuel with
  | O => panic "too many pages"
  | Datatypes.S fuel =>
      let^ page := ok (be_read_events system_book from 500) in
      match last page with
      | None => pass false
      | Some final =>
          if existsb (fun e => match s_event e with AssetRegistered a => String.eqb (Core.asset_id a) asset_id | _ => false end) page
          then pass true
          else registered_in_log fuel asset_id (s_seq final + 1)
      end
  end.

Definition system_book_is_reserved : test unit :=
  let^ asset_id := unique "BTC" in
  let^ _ := ok (store_register_asset (asset asset_id)) in
  let^ found := registered_in_log 1000 asset_id 1 in
  let^ _ := check "AssetRegistered event not found in _system book" found in
  let '(def, cfg) := open_spec "_sneaky" "cash" asset_id Asset in
  let^ _ := refused is_invalid_book (store_open_account def cfg) in
  let^ tx := transfer "_sneaky" "x" "a" "b" asset_id 1 in
  refused is_invalid_book (be_commit tx).

(** ** Subscribe *)

Definition next_event (stream : be_stream) : test (Sequenced LedgerEvent * be_stream) :=
  let^ (o, stream') := call (fun s => let '(o, stream', s') := be_next stream s in ((o, stream'), s')) in
  let^ item := expect_some o in
  let^ ev := unwrap item in
  pass (ev, stream').

Definition subscribe_catches_up_then_tails : test unit :=
  let^ (book, asset_id) := setup_book in
  let^ _ := commits book "s1" "deposits" "cash" asset_id 10 in
  let^ stream := call (be_subscribe book 3) in
  let^ (first, stream) := next_event stream in
  let^ _ := check_eq (s_seq first) 3 in
  let^ _ := check "assertion failed" (is_posted (s_event first)) in
  let^ _ := commits book "s2" "deposits" "cash" asset_id 20 in
  let^ (second, _) := next_event stream in
  check_eq (s_seq second) 4.

(** ** Read extensions *)

Definition asset_lookup : test unit :=
  let^ id := unique "USD" in
  let^ _ := ok (store_register_asset (asset id)) in
  let^ o := ok (store_asset id) in
  let^ found := expect_some o in
  let^ _ := check_eq found (asset id) in
  let^ nope := unique "NOPE" in
  let^ o := ok (store_asset nope) in
  check_eq o None.

Definition balance_snapshot_updated_seq : test unit :=
  let^ (book, asset_id) := setup_book in
  let^ empty := balance_of book "cash" None in
  let^ _ := check_eq (minor (bs_amount empty)) 0 in
  let^ _ := check_eq (bs_updated_seq empty) 0 in
  let^ _ := commits book "u1" "deposits" "cash" asset_id 100 in
  let^ mid := call be_now in
  let^ _ := commits book "u2" "deposits" "cash" asset_id 50 in
  let^ now := balance_of book "cash" None in
  let^ _ := check_eq (bs_updated_seq now) 4 in
  let^ then' := balance_of book "cash" (Some mid) in
  let^ _ := check_eq (bs_updated_seq then') 3 in
  check_eq (minor (bs_amount then')) 100.

Definition account_history_pages_exclusively : test unit :=
  let^ (book, asset_id) := setup_book in
  let^ _ := each (fun i => commits book ("h" +:+ u64_to_string i) "deposits" "cash" asset_id (10 + i)) [0; 1; 2] in
  let cash := account_id book "cash" in
  let^ first := ok (store_account_history cash None 2) in
  let^ _ := match first with
            | [a; b] =>
                let^ _ := check_eq (pr_seq a, pr_seq b) (3, 4) in
                let^ _ := check_eq (minor (pr_amount a)) 10 in
                let^ _ := check_eq (pr_direction a) Debit in
                let^ _ := check_eq (pr_account a) cash in
                let^ rest := ok (store_account_history cash (Some (pr_seq b)) 10) in
                match rest with
                | [c] => let^ _ := check_eq (pr_seq c) 5 in check_eq (minor (pr_amount c)) 12
                | _ => panic "assertion failed: rest.len() == 1"
                end
            | _ => panic "assertion failed: first.len() == 2"
            end in
  let^ dep := ok (store_account_history (account_id book "deposits") None 10) in
  let^ _ := check_eq (length dep) 3%nat in
  let^ d := expect_some (dep !! 0%nat) in
  let^ _ := check_eq (pr_direction d) Credit in
  refused (is_unknown_account "ghost") (store_account_history (account_id book "ghost") None 10).

Definition account_history_never_splits_a_transaction : test unit :=
  let^ (book, asset_id) := setup_book in
  let^ split := transaction_of book "split"
    [posting book "cash" asset_id 30 Debit; posting book "cash" asset_id 70 Debit; posting book "deposits" asset_id 100 Credit] in
  let^ _ := ok (be_commit split) in
  let^ _ := commits book "after" "deposits" "cash" asset_id 5 in
  let cash := account_id book "cash" in
  let^ page := ok (store_account_history cash None 1) in
  let^ _ := match page with
            | [a; b] =>
                let^ _ := check_eq (pr_seq a, pr_seq b) (3, 3) in
                check_eq (minor (pr_amount a) + minor (pr_amount b)) 100
            | _ => panic "page must include all rows of the boundary seq"
            end in
  let^ rest := ok (store_account_history cash (Some 3) 10) in
  match rest with
  | [c] => check_eq (pr_seq c) 4
  | _ => panic "assertion failed: rest.len() == 1"
  end.

(** [num_milliseconds] of a difference of nanoseconds. *)
Definition millis (d : Z) : Z := Z.quot d 1000000.

Definition transaction_round_trip : test unit :=
  let^ (book, asset_id) := setup_book in
  let^ tx := transfer book "tr1" "deposits" "cash" asset_id 777 in
  let^ committed := ok (be_commit tx) in
  let^ o := ok (store_transaction (tx_id tx)) in
  let^ stored := expect_some o in
  let^ _ := check_eq (st_seq stored) (c_seq committed) in
  let^ _ := check "assertion failed" (Z.abs (millis (st_at stored - c_at committed)) <? 5) in
  let^ _ := check_eq (tx_id (st_transaction stored)) (tx_id tx) in
  let^ _ := check_eq (tx_idem (st_transaction stored)) (tx_idem tx) in
  let^ _ := check_eq (length (tx_postings (st_transaction stored))) 2%nat in
  let^ id := draw in
  let^ missing := ok (store_transaction id) in
  check "assertion failed" (match missing with None => true | Some _ => false end).

Definition row_of (id : string) (rows : list TrialBalanceRow) : test TrialBalanceRow :=
  expect_some (find (fun r => String.eqb (tb_asset r) id) rows).

Definition trial_balance_sums_per_asset : test unit :=
  let^ (book, asset_a) := setup_book in
  let^ asset_b := unique "EUR" in
  let^ _ := ok (store_register_asset (asset asset_b)) in
  let^ _ := opened book "cash-eur" asset_b Asset in
  let^ _ := opened book "deposits-eur" asset_b Liability in
  let^ _ := commits book "ta" "deposits" "cash" asset_a 100 in
  let^ mid := call be_now in
  let^ _ := commits book "tb" "deposits-eur" "cash-eur" asset_b 40 in
  let^ all := ok (store_trial_balance book None) in
  let^ _ := check_eq (length all) 2%nat in
  let^ row_a := row_of asset_a all in
  let^ _ := check_eq (tb_debits row_a, tb_credits row_a) (100, 100) in
  let^ row_b := row_of asset_b all in
  let^ _ := check_eq (tb_debits row_b, tb_credits row_b) (40, 40) in
  let^ early := ok (store_trial_balance book (Some mid)) in
  match early with
  | [r] => check_eq (tb_asset r) asset_a
  | _ => panic "assertion failed: early.len() == 1"
  end.

(** ** Batch commits *)

Definition commit_batch (txs : list Transaction) : test (list (result Committed StoreError)) := call (store_commit_batch txs).

Definition commit_batch_all_succeed : test unit :=
  let^ (book, asset_id) := setup_book in
  let^ txs := each (fun i => transfer book ("batch-" +:+ u64_to_string i) "deposits" "cash" asset_id 100) [0; 1; 2] in
  let^ results := commit_batch txs in
  let^ _ := check_eq (length results) 3%nat in
  let^ cs := each unwrap results in
  let^ _ := check_eq (map c_seq cs) [3; 4; 5] in
  check_balance book "cash" None 300.

(** Cash that cannot be overdrawn, expenses and deposits: three events. *)
Definition setup_guarded : test (string * string) :=
  let^ book := unique "book" in
  let^ asset_id := unique "USD" in
  let^ _ := ok (store_register_asset (asset asset_id)) in
  let^ _ := open_with_min book "cash" asset_id Asset (Some 0) in
  let^ _ := opened book "expenses" asset_id Expense in
  let^ _ := opened book "deposits" asset_id Liability in
  pass (book, asset_id).

Definition commit_batch_isolates_failures_and_stays_gapless : test unit :=
  let^ (book, asset_id) := setup_guarded in
  let^ fund := transfer book "fund" "deposits" "cash" asset_id 100 in
  let^ overdraft := transfer book "overdraft" "cash" "expenses" asset_id 500 in
  let^ spend := transfer book "spend" "cash" "expenses" asset_id 30 in
  let^ results := commit_batch [fund; overdraft; spend] in
  let^ _ := match results with
            | [r0; r1; r2] =>
                let^ _ := expect_error (is_violation (-400)) r1 in
                let^ a := unwrap r0 in
                let^ b := unwrap r2 in
                check_eq (c_seq a, c_seq b) (4, 5)
            | _ => panic "three results"
            end in
  let^ _ := check_balance book "cash" None 70 in
  let^ events := ok (be_read_events book 4 10) in
  check_eq (length events) 2%nat.

Definition commit_batch_dedups_within_batch : test unit :=
  let^ (book, asset_id) := setup_book in
  let^ first := transfer book "dup" "deposits" "cash" asset_id 100 in
  let^ second := transfer book "dup" "deposits" "cash" asset_id 100 in
  let^ results := commit_batch [first; second] in
  let^ _ := match results with
            | [r0; r1] =>
                let^ a := unwrap r0 in
                let^ b := unwrap r1 in
                let^ _ := check_eq (c_txid a) (tx_id first) in
                check_eq a b
            | _ => panic "two results"
            end in
  check_balance book "cash" None 100.

Definition commit_batch_dedups_against_prior_commit : test unit :=
  let^ (book, asset_id) := setup_book in
  let^ original := transfer book "prior" "deposits" "cash" asset_id 100 in
  let^ prior := ok (be_commit original) in
  let^ replay := transfer book "prior" "deposits" "cash" asset_id 100 in
  let^ results := commit_batch [replay] in
  match results with
  | [r] => let^ c := unwrap r in check_eq c prior
  | _ => panic "one result"
  end.

Definition commit_batch_rejects_reserved_book : test unit :=
  let^ (book, asset_id) := setup_book in
  let^ tx := transfer book "bad" "deposits" "cash" asset_id 100 in
  let bad := mkTransaction (tx_id tx) SYSTEM_BOOK (tx_postings tx) (tx_idem tx) (tx_external_refs tx) (tx_metadata tx) (tx_occurred_at tx) in
  let^ good := transfer book "good" "deposits" "cash" asset_id 100 in
  let^ results := commit_batch [bad; good] in
  match results with
  | [r0; r1] =>
      let^ _ := expect_error is_invalid_book r0 in
      check "assertion failed" (is_ok r1)
  | _ => panic "two results"
  end.

Definition commit_batch_empty_returns_empty : test unit :=
  let^ results := commit_batch [] in check_eq (length results) 0%nat.

Definition commit_batch_min_balance_checks_run_sequentially : test unit :=
  let^ (book, asset_id) := setup_guarded in
  let^ overdraft := transfer book "seq-od" "cash" "expenses" asset_id 100 in
  let^ cover := transfer book "seq-cover" "deposits" "cash" asset_id 500 in
  let^ results := commit_batch [overdraft; cover] in
  let^ cover_seq := match results with
                    | [r0; r1] =>
                        let^ _ := expect_error (is_violation (-100)) r0 in
                        let^ c := unwrap r1 in pass (c_seq c)
                    | _ => panic "two results"
                    end in
  let^ _ := check_balance book "cash" None 500 in
  let^ _ := check_balance book "expenses" None 0 in
  check_eq cover_seq 4.

(** ** Books and clocks *)

Definition BOOKS : nat := 4.
Definition TXS_PER_BOOK : nat := 25.

Definition concurrent_cross_book_commits_all_succeed : test unit :=
  let^ books := each (fun _ => setup_book) (seq 0 BOOKS) in
  let commits_of (b : string * string) := map (fun i =>
    let^ tx := transfer b.1 ("x" +:+ u64_to_string (Z.of_nat i)) "deposits" "cash" b.2 1 in commit_of tx) (seq 0 TXS_PER_BOOK) in
  let^ rs := joined (concat (map commits_of books)) in
  let^ _ := each unwrap rs in
  let^ _ := each (fun b : string * string => check_balance b.1 "cash" None (Z.of_nat TXS_PER_BOOK)) books in
  pass ().

Fixpoint monotonic (evs : list (Sequenced LedgerEvent)) : bool :=
  match evs with
  | a :: (b :: _) as rest => (s_seq a <? s_seq b) && (s_at a <=? s_at b) && monotonic rest
  | _ => true
  end.

Definition committed_at_is_monotonic_per_book : test unit :=
  let^ (book, asset_id) := setup_book in
  let^ _ := each (fun i => commits book ("mono-" +:+ u64_to_string i) "deposits" "cash" asset_id 1) [0; 1; 2; 3] in
  let^ a := transfer book "burst-a" "deposits" "cash" asset_id 2 in
  let^ b := transfer book "burst-b" "deposits" "cash" asset_id 3 in
  let^ c := transfer book "burst-c" "deposits" "cash" asset_id 4 in
  let^ rs := joined [commit_of a; commit_of b; commit_of c] in
  let^ _ := each unwrap rs in
  let^ events := ok (be_read_events book 1 100) in
  let^ _ := check_eq (length events) 9%nat in
  check "events not in seq order or committed_at regressed" (monotonic events).

(** ** The suite *)

Definition suite : list (string * test unit) := [
  ("registry_is_idempotent", registry_is_idempotent);
  ("unknown_asset_rejected", unknown_asset_rejected);
  ("crypto_asset_round_trips", crypto_asset_round_trips);
  ("commit_happy_path", commit_happy_path);
  ("unknown_account_rejected", unknown_account_rejected);
  ("asset_mismatch_rejected", asset_mismatch_rejected);
  ("seq_is_per_book_and_gapless", seq_is_per_book_and_gapless);
  ("commit_is_idempotent", commit_is_idempotent);
  ("concurrent_same_key_commits_once", concurrent_same_key_commits_once);
  ("min_balance_blocks_overdraft", min_balance_blocks_overdraft);
  ("min_balance_is_normal_side_adjusted", min_balance_is_normal_side_adjusted);
  ("balance_as_of_point_in_time", balance_as_of_point_in_time);
  ("read_events_paginates_inclusively", read_events_paginates_inclusively);
  ("system_book_is_reserved", system_book_is_reserved);
  ("subscribe_catches_up_then_tails", subscribe_catches_up_then_tails);
  ("asset_lookup", asset_lookup);
  ("balance_snapshot_updated_seq", balance_snapshot_updated_seq);
  ("account_history_pages_exclusively", account_history_pages_exclusively);
  ("account_history_never_splits_a_transaction", account_history_never_splits_a_transaction);
  ("transaction_round_trip", transaction_round_trip);
  ("trial_balance_sums_per_asset", trial_balance_sums_per_asset);
  ("commit_batch_all_succeed", commit_batch_all_succeed);
  ("commit_batch_isolates_failures_and_stays_gapless", commit_batch_isolates_failures_and_stays_gapless);
  ("commit_batch_dedups_within_batch", commit_batch_dedups_within_batch);
  ("commit_batch_dedups_against_prior_commit", commit_batch_dedups_against_prior_commit);
  ("commit_batch_rejects_reserved_book", commit_batch_rejects_reserved_book);
  ("commit_batch_empty_returns_empty", commit_batch_empty_returns_empty);
  ("commit_batch_min_balance_checks_run_sequentially", commit_batch_min_balance_checks_run_sequentially);
  ("concurrent_cross_book_commits_all_succeed", concurrent_cross_book_commits_all_succeed);
  ("committed_at_is_monotonic_per_book", committed_at_is_monotonic_per_book)]%string.

(** The tests one after the other on the same store: the names and messages of
    those that panic. *)
Fixpoint failures (tests : list (string * test unit)) (f : Fixture) : list (string * string) * Fixture :=
  match tests with
  | [] => ([], f)
  | (name, t) :: tests =>
      let '(r, f1) := t f in
      let '(rest, f2) := failures tests f1 in
      (match r with Ok _ => rest | Err msg => (name, msg) :: rest end, f2)
  end.
End suite.
