(* ===== verification/EventCodec.v ===== *)
(** Codecs that can be computed with: the values a serializer must bring back,
    written as a list of fields, each ended by an unescaped colon (the escape of
    account keys, Core.v); for events, and for the requests, the answers and the
    errors of the API.  Ledgers of more than a few events, and a client and a
    server together, are evaluated with them. *)

From Stdlib Require Import Strings.Byte.
From S2P Require Import Prelude Decimal Core Disk Frame Api.
Open Scope Z_scope.

(** ** Fields *)

Class Codec (A : Type) := {
  put : A -> list string;
  get : list string -> option (A * list string);
  get_put : forall a l, get (put a ++ l) = Some (a, l)
}.

#[export] Instance string_codec : Codec string.
Proof. refine {| put s := [s]; get l := match l with s :: l => Some (s, l) | [] => None end |}. done. Defined.

Section map_codec.
Context {A B : Type} `{Codec B}.

Definition map_codec (f : A -> B) (g : B -> option A) (Hg : forall a, g (f a) = Some a) : Codec A.
Proof.
  refine {| put a := put (f a); get l := match get l with Some (b, l) => match g b with Some a => Some (a, l) | None => None end | None => None end |}.
  intros a l. by rewrite get_put, Hg.
Defined.
End map_codec.

#[export] Instance pair_codec {A B} `{Codec A} `{Codec B} : Codec (A * B).
Proof.
  refine {| put p := put p.1 ++ put p.2;
            get l := match get l with Some (a, l) => match get l with Some (b, l) => Some ((a, b), l) | None => None end | None => None end |}.
  intros [a b] l. cbn. by rewrite <- app_assoc, !get_put.
Defined.

#[export] Instance sum_codec {A B} `{Codec A} `{Codec B} : Codec (A + B).
Proof.
  refine {| put s := match s with inl a => "l"%string :: put a | inr b => "r"%string :: put b end;
            get l := match l with
                     | [] => None
                     | t :: l =>
                         if String.eqb t "l" then match get l with Some (a, l) => Some (inl a, l) | None => None end
                         else match get l with Some (b, l) => Some (inr b, l) | None => None end
                     end |}.
  intros [a|b] l; cbn; by rewrite get_put.
Defined.

#[export] Instance unit_codec : Codec unit.
Proof. refine {| put _ := []; get l := Some (tt, l) |}. by intros [] l. Defined.

(** The elements, each announced, and the end. *)
Section list_codec.
Context {A : Type} `{Codec A}.

Definition put_list (l : list A) : list string := foldr (fun a acc => "+"%string :: put a ++ acc) ["-"%string] l.

Fixpoint get_list (fuel : nat) (l : list string) : option (list A * list string) :=
  match fuel, l with
  | S fuel, t :: l =>
      if String.eqb t "-" then Some ([], l)
      else match get l with
           | Some (a, l) => match get_list fuel l with Some (rest, l) => Some (a :: rest, l) | None => None end
           | None => None
           end
  | _, _ => None
  end.

Lemma get_put_list l rest fuel : (length l < fuel)%nat -> get_list fuel (put_list l ++ rest) = Some (l, rest).
Proof.
  revert fuel. induction l as [|a l IH]; intros [|fuel] Hf; cbn in *; try lia; [done|].
  rewrite <- app_assoc, get_put. fold (put_list l). rewrite IH by lia. done.
Qed.

Lemma put_list_length l : (length l < length (put_list l))%nat.
Proof. induction l as [|a l IH]; cbn; [lia|]. rewrite length_app. fold (put_list l). lia. Qed.

#[export] Instance list_codec : Codec (list A).
Proof.
  refine {| put := put_list; get l := get_list (length l) l |}.
  intros l rest. apply get_put_list. rewrite length_app. pose proof (put_list_length l). lia.
Defined.
End list_codec.

(** An integer by its sign and its bits. *)
Fixpoint bits (p : positive) : string :=
  match p with xH => EmptyString | xO p => String "0" (bits p) | xI p => String "1" (bits p) end.
Fixpoint of_bits (s : string) : positive :=
  match s with EmptyString => xH | String a s => if Ascii.eqb a "0" then xO (of_bits s) else xI (of_bits s) end.
Lemma of_bits_bits p : of_bits (bits p) = p.
Proof. induction p as [p IH|p IH|]; cbn; by rewrite ?IH. Qed.

#[export] Instance positive_codec : Codec positive := map_codec bits (fun s => Some (of_bits s)) (fun p => f_equal Some (of_bits_bits p)).

#[export] Instance Z_codec : Codec Z.
Proof.
  refine (map_codec (fun z => match z with Z0 => inl tt | Zpos p => inr (inl p) | Zneg p => inr (inr p) end)
            (fun s : unit + (positive + positive) => Some match s with inl _ => Z0 | inr (inl p) => Zpos p | inr (inr p) => Zneg p end) _).
  by intros [].
Defined.

#[export] Instance option_codec {A} `{Codec A} : Codec (option A).
Proof.
  refine (map_codec (fun o => match o with Some a => inl a | None => inr tt end)
            (fun s : A + unit => Some match s with inl a => Some a | inr _ => None end) _).
  by intros [].
Defined.

(** ** Events *)

#[export] Instance AssetClass_codec : Codec AssetClass.
Proof.
  refine (map_codec (fun c => match c with Fiat => inl tt | Crypto n o => inr (n, o) end)
            (fun s : unit + (string * option string) => Some match s with inl _ => Fiat | inr (n, o) => Crypto n o end) _).
  by intros [].
Defined.

#[export] Instance AssetDef_codec : Codec AssetDef.
Proof.
  refine (map_codec (fun d => (asset_id d, (asset_class d, (asset_precision d, asset_name d))))
            (fun '(i, (c, (p, n))) => Some (mkAssetDef i c p n)) _).
  by intros [].
Defined.

#[export] Instance AccountId_codec : Codec AccountId.
Proof. refine (map_codec (fun a => (acct_book a, acct_path a)) (fun '(b, p) => Some (mkAccountId b p)) _). by intros []. Defined.

#[export] Instance AccountKind_codec : Codec AccountKind.
Proof. refine (map_codec AccountKind_as_str AccountKind_from_db _). by intros []. Defined.

#[export] Instance Direction_codec : Codec Direction.
Proof. refine (map_codec Direction_as_str Direction_from_db _). by intros []. Defined.

#[export] Instance AccountDef_codec : Codec AccountDef.
Proof. refine (map_codec (fun d => (acct_id d, (acct_asset d, acct_kind d))) (fun '(i, (a, k)) => Some (mkAccountDef i a k)) _). by intros []. Defined.

#[export] Instance AccountCfg_codec : Codec AccountCfg.
Proof. refine (map_codec (fun c => (normal_side c, min_balance c)) (fun '(n, m) => Some (mkAccountCfg n m)) _). by intros []. Defined.

#[export] Instance Posting_codec : Codec Posting.
Proof.
  refine (map_codec (fun p => (p_account p, (minor (p_amount p), (amount_asset (p_amount p), p_direction p))))
            (fun '(a, (m, (s, d))) => Some (mkPosting a (mkAmount m s) d)) _).
  by intros [? [] ?].
Defined.

#[export] Instance ExternalRef_codec : Codec ExternalRef.
Proof. refine (map_codec (fun r => (ref_kind r, ref_value r)) (fun '(k, v) => Some (mkExternalRef k v)) _). by intros []. Defined.

#[export] Instance Transaction_codec : Codec Transaction.
Proof.
  refine (map_codec (fun t => (tx_id t, (tx_book t, (tx_postings t, (tx_idem t, (tx_external_refs t, (tx_metadata t, tx_occurred_at t)))))))
            (fun '(i, (b, (p, (k, (r, (m, o)))))) => Some (mkTransaction i b p k r m o)) _).
  by intros [].
Defined.

#[export] Instance LedgerEvent_codec : Codec LedgerEvent.
Proof.
  refine (map_codec (fun e => match e with AssetRegistered d => inl d | AccountOpened d c => inr (inl (d, c)) | TransactionPosted t => inr (inr t) end)
            (fun s : AssetDef + (AccountDef * AccountCfg + Transaction) =>
               Some match s with inl d => AssetRegistered d | inr (inl (d, c)) => AccountOpened d c | inr (inr t) => TransactionPosted t end) _).
  by intros [].
Defined.

#[export] Instance WireEvent_codec : Codec WireEvent.
Proof. refine (map_codec (fun w => (w_seq w, (w_at w, w_event w))) (fun '(s, (a, e)) => Some (mkWireEvent s a e)) _). by intros []. Defined.

(** ** Texts and bytes *)

Definition pack (l : list string) : string := foldr (fun s acc => escape_book s +:+ ":" +:+ acc) EmptyString l.

Fixpoint unpack (fuel : nat) (s : string) : option (list string) :=
  match fuel, s with
  | _, EmptyString => Some []
  | S fuel, s => match split_key s with Some (t, s) => match unpack fuel s with Some l => Some (t :: l) | None => None end | None => None end
  | O, _ => None
  end.

Lemma unpack_pack l fuel : (length l <= fuel)%nat -> unpack fuel (pack l) = Some l.
Proof.
  revert fuel. induction l as [|s l IH]; intros fuel Hf; [by destruct fuel|]. destruct fuel as [|fuel]; cbn in Hf; [lia|].
  cbn [pack foldr]. fold (pack l). pose proof (split_key_escape s (pack l)) as Hs. cbn [unpack].
  destruct (escape_book s +:+ ":" +:+ pack l) as [|a t] eqn:E; [by destruct (escape_book s)|]. rewrite Hs, IH by lia. done.
Qed.

Lemma length_pack l : (length l <= String.length (pack l))%nat.
Proof.
  induction l as [|s l IH]; [done|]. cbn [pack foldr length]. fold (pack l). rewrite !length_append. cbn [String.length]. lia.
Qed.

(** A value's text. *)
Definition text_of_value {A} `{Codec A} (a : A) : string := pack (put a).

Definition value_of_text {A} `{Codec A} (s : string) : result A string :=
  match unpack (String.length s) s with
  | Some l => match get l with Some (a, []) => Ok a | _ => Err "trailing characters"%string end
  | None => Err "expected a field"%string
  end.

Lemma value_of_text_of {A} `{Codec A} (a : A) : value_of_text (text_of_value a) = Ok a.
Proof.
  unfold value_of_text, text_of_value. rewrite unpack_pack by apply length_pack.
  rewrite <- (app_nil_r (put a)), get_put. done.
Qed.

Definition codec_json (A : Type) `{Codec A} : Json A := {|
  to_vec a := Ok (String.list_byte_of_string (text_of_value a));
  from_slice b := value_of_text (String.string_of_list_byte b)
|}.

Lemma codec_json_laws (A : Type) `{Codec A} : @JsonLaws A (codec_json A).
Proof. intros a b [= <-]. cbn. rewrite String.string_of_list_byte_of_string. apply value_of_text_of. Qed.

(** ** Errors, by a number for the variant *)

Definition error_fields (e : ApiError) : nat * list string * list Z :=
  match e with
  | Api_Unbalanced a d c => (0%nat, [a], [d; c])
  | Api_AssetMismatch a b c => (1%nat, [a; b; c], [])
  | Api_InvalidAmount z => (2%nat, [], [z])
  | Api_UnknownAsset a => (3%nat, [a], [])
  | Api_UnknownAccount a => (4%nat, [a], [])
  | Api_ConstraintViolation a m w => (5%nat, [a], [m; w])
  | Api_AlreadyExists w => (6%nat, [w], [])
  | Api_InvalidDraft f r => (7%nat, [f; r], [])
  | Api_NotFound w => (8%nat, [w], [])
  | Api_Transport m => (9%nat, [m], [])
  | Api_Unauthorized => (10%nat, [], [])
  | Api_Forbidden b => (11%nat, [b], [])
  | Api_Overloaded => (12%nat, [], [])
  | Api_Timeout => (13%nat, [], [])
  | Api_Internal m => (14%nat, [m], [])
  end.

Definition error_of_fields (f : nat * list string * list Z) : result ApiError string :=
  match f with
  | (0%nat, [a], [d; c]) => Ok (Api_Unbalanced a d c)
  | (1%nat, [a; b; c], []) => Ok (Api_AssetMismatch a b c)
  | (2%nat, [], [z]) => Ok (Api_InvalidAmount z)
  | (3%nat, [a], []) => Ok (Api_UnknownAsset a)
  | (4%nat, [a], []) => Ok (Api_UnknownAccount a)
  | (5%nat, [a], [m; w]) => Ok (Api_ConstraintViolation a m w)
  | (6%nat, [w], []) => Ok (Api_AlreadyExists w)
  | (7%nat, [f; r], []) => Ok (Api_InvalidDraft f r)
  | (8%nat, [w], []) => Ok (Api_NotFound w)
  | (9%nat, [m], []) => Ok (Api_Transport m)
  | (10%nat, [], []) => Ok Api_Unauthorized
  | (11%nat, [b], []) => Ok (Api_Forbidden b)
  | (12%nat, [], []) => Ok Api_Overloaded
  | (13%nat, [], []) => Ok Api_Timeout
  | (14%nat, [m], []) => Ok (Api_Internal m)
  | _ => Err "unknown variant"%string
  end.

#[export] Instance nat_codec : Codec nat.
Proof. refine (map_codec Z.of_nat (fun z => Some (Z.to_nat z)) _). intros n. by rewrite Nat2Z.id. Defined.

#[export] Instance bool_codec : Codec bool.
Proof. refine (map_codec (fun b : bool => if b then 1 else 0) (fun z => Some (z =? 1)) _). by intros []. Defined.

#[export] Instance ApiError_codec : Codec ApiError.
Proof.
  refine (map_codec error_fields (fun f => match error_of_fields f with Ok e => Some e | Err _ => None end) _). by intros [].
Defined.

#[export] Instance result_codec {A E} `{Codec A} `{Codec E} : Codec (result A E).
Proof.
  refine (map_codec (fun r => match r with Ok a => inl a | Err e => inr e end)
            (fun s : A + E => Some match s with inl a => Ok a | inr e => Err e end) _).
  by intros [].
Defined.

(** ** Requests *)

#[export] Instance AssetDraft_codec : Codec AssetDraft.
Proof.
  refine (map_codec (fun d => (ad_id d, (ad_class d, (ad_network d, (ad_native_id d, (ad_precision d, ad_name d))))))
            (fun '(i, (c, (n, (t, (p, m))))) => Some (mkAssetDraft i c n t p m)) _).
  by intros [].
Defined.

#[export] Instance AccountDraft_codec : Codec AccountDraft.
Proof.
  refine (map_codec (fun d => (ac_book d, (ac_path d, (ac_asset d, (ac_kind d, (ac_normal_side d, ac_min_balance d))))))
            (fun '(b, (p, (a, (k, (s, m))))) => Some (mkAccountDraft b p a k s m)) _).
  by intros [].
Defined.

#[export] Instance WireAmount_codec : Codec WireAmount.
Proof. refine (map_codec (fun a => (wa_minor a, wa_asset a)) (fun '(m, a) => Some (mkWireAmount m a)) _). by intros []. Defined.

#[export] Instance PostingDraft_codec : Codec PostingDraft.
Proof.
  refine (map_codec (fun p => (pd_account p, (pd_amount p, pd_direction p))) (fun '(a, (m, d)) => Some (mkPostingDraft a m d)) _).
  by intros [].
Defined.

#[export] Instance TransactionDraft_codec : Codec TransactionDraft.
Proof.
  refine (map_codec (fun d => (td_book d, (td_idempotency_key d, (td_postings d, (td_external_refs d, (td_metadata d, td_occurred_at d))))))
            (fun '(b, (k, (p, (r, (m, o))))) => Some (mkTransactionDraft b k p r m o)) _).
  by intros [].
Defined.

(** ** Answers *)

#[export] Instance Posted_codec : Codec Posted.
Proof.
  refine (map_codec (fun p => (po_tx_id p, (po_seq p, (po_at p, deduplicated p)))) (fun '(i, (s, (t, d))) => Some (mkPosted i s t d)) _).
  by intros [].
Defined.

#[export] Instance BalanceView_codec : Codec BalanceView.
Proof.
  refine (map_codec (fun v => (bv_account v, (bv_asset v, (bv_balance v, (bv_as_of v, bv_updated_seq v)))))
            (fun '(a, (s, (b, (t, u)))) => Some (mkBalanceView a s b t u)) _).
  by intros [].
Defined.

#[export] Instance PostingView_codec : Codec PostingView.
Proof.
  refine (map_codec (fun v => (pv_seq v, (pv_tx_id v, (pv_account v, (pv_amount v, (pv_direction v, pv_at v))))))
            (fun '(s, (i, (a, (m, (d, t))))) => Some (mkPostingView s i a m d t)) _).
  by intros [].
Defined.

#[export] Instance Paged_codec {A} `{Codec A} : Codec (Paged A).
Proof. refine (map_codec (fun p => (items p, next p)) (fun '(l, n) => Some (mkPaged l n)) _). by intros []. Defined.

#[export] Instance TransactionView_codec : Codec TransactionView.
Proof.
  refine (map_codec (fun v => (tv_tx_id v, (tv_book v, (tv_seq v, (tv_at v, (tv_postings v, (tv_external_refs v, tv_metadata v)))))))
            (fun '(i, (b, (s, (t, (p, (r, m)))))) => Some (mkTransactionView i b s t p r m)) _).
  by intros [].
Defined.

#[export] Instance TrialBalanceLine_codec : Codec TrialBalanceLine.
Proof.
  refine (map_codec (fun l => (tl_asset l, (tl_debits l, tl_credits l))) (fun '(a, (d, c)) => Some (mkTrialBalanceLine a d c)) _).
  by intros [].
Defined.

#[export] Instance TrialBalance_codec : Codec TrialBalance.
Proof.
  refine (map_codec (fun t => (tb_book t, (tb_as_of t, tb_lines t))) (fun '(b, (t, l)) => Some (mkTrialBalance b t l)) _).
  by intros [].
Defined.
