(* ===== verification/Sql.v ===== *)
(** The database of talea-store-sqlite: tables, statements and transactions
    as talea-store-sqlite/src/lib.rs uses them, over the schema of
    migrations/0001_init.sql.

    SQLite and sqlx are third-party code; what is written out here is what
    their documentation says of the statements the source contains: a
    statement succeeds or changes nothing; a transaction opened by
    [BEGIN IMMEDIATE] holds the one write lock until it is committed or
    dropped, so that write transactions run one after the other; [+] on two
    integers gives a floating-point number when the sum does not fit 64 bits,
    where [SUM] fails; [Row::get] panics on a value of another type.

    A connection carries a script of backend failures, one entry per statement
    ([None] for one that runs); the empty script is a backend that no longer
    fails. *)

From S2P Require Import Prelude Core Disk.
Open Scope Z_scope.

(** ** Errors *)

Inductive SqlxError :=
| PoolTimedOut
| UniqueConstraint (message : string)
| SqlError (message : string).

(** [dyn std::error::Error] with its source chain. *)
Inductive StdError :=
| SqlxE (e : SqlxError)
| OtherE (message : string)
| Context (message : string) (source : StdError).

(** [StoreError] as the crate builds it: [Io] wraps an error. *)
Inductive DbError :=
| Plain (e : StoreError)
| IoBox (e : StdError).

Definition sqlx_text (e : SqlxError) : string :=
  match e with
  | PoolTimedOut => "pool timed out while waiting for an open connection"
  | UniqueConstraint m | SqlError m => m
  end.

Definition std_text (e : StdError) : string :=
  match e with SqlxE e => sqlx_text e | OtherE m | Context m _ => m end.

(** A pool-acquire timeout anywhere in the error's source chain. *)
Fixpoint is_pool_timeout (e : StdError) : bool :=
  match e with
  | SqlxE PoolTimedOut => true
  | SqlxE _ => false
  | OtherE _ => false
  | Context _ src => is_pool_timeout src
  end.

Definition io_err (e : StdError) : DbError :=
  if is_pool_timeout e then Plain Saturated else IoBox e.

(** True when a [StoreError::Io] wraps a unique-constraint violation. *)
Definition is_unique_violation (e : DbError) : bool :=
  match e with IoBox (SqlxE (UniqueConstraint _)) => true | _ => false end.

(** What the caller of the [Store] trait sees. *)
Definition to_store_error (e : DbError) : StoreError :=
  match e with Plain e => e | IoBox e => Io (std_text e) end.

(** ** Values *)

(** A numeric value: an [i64], or a floating-point number. *)
Inductive Cell := Int (z : Z) | Real.

Definition cell (z : Z) : Cell := if in_i64 z then Int z else Real.

Definition sql_add (a b : Cell) : Cell :=
  match a, b with Int x, Int y => cell (x + y) | _, _ => Real end.

Definition sql_neg (a : Cell) : Cell :=
  match a with Int x => cell (- x) | Real => Real end.

(** [SUM], in the order the rows are visited: it fails when the integers seen
    so far overflow. *)
Fixpoint sql_sum_from (acc : Z) (l : list Cell) : result Cell SqlxError :=
  match l with
  | [] => Ok (Int acc)
  | Real :: _ => Ok Real
  | Int x :: l => if in_i64 (acc + x) then sql_sum_from (acc + x) l else Err (SqlError "integer overflow")
  end.

(** [COALESCE(SUM(..), 0)] *)
Definition sql_sum (l : list Cell) : result Cell SqlxError := sql_sum_from 0 l.

(** [COALESCE(MAX(..), 0)] *)
Definition sql_max (l : list Z) : Z := match l with [] => 0 | x :: l => foldl Z.max x l end.

(** [LIMIT]: a negative bound is none. *)
Definition sql_limit {A} (n : Z) (l : list A) : list A := if n <? 0 then l else take (Z.to_nat n) l.

(** [usize as i64] *)
Definition limit_i64 (n : Z) : Z := wrap_i64 n.

(** The bound on bind parameters of one statement. *)
Definition MAX_VARIABLES : Z := 32766.

Definition syntax_error : SqlxError := SqlError "near VALUES: syntax error".
Definition too_many_variables : SqlxError := SqlError "too many SQL variables".
Definition foreign_key_failed : SqlxError := SqlError "FOREIGN KEY constraint failed".

(** [push_values] with [binds] parameters for each of [n] rows. *)
Definition push_values (binds n : nat) : result unit SqlxError :=
  if (n =? 0)%nat then Err syntax_error
  else if MAX_VARIABLES <? Z.of_nat (binds * n) then Err too_many_variables
  else Ok ().

(** ** Tables (migrations/0001_init.sql)

    A table is a map from its primary key where rows are looked up or updated
    by it alone, and the list of its rows, in the order they were inserted,
    where it is scanned. *)

Record AssetRow := mkAssetRow {
  ar_class : string;
  ar_network : option string;
  ar_native_id : option string;
  ar_precision : Z;
  ar_name : string
}.

Record AccountsRow := mkAccountsRow {
  ac_book : string;
  ac_path : string;
  ac_asset : string;
  ac_kind : string;
  ac_normal_side : option string;
  ac_min_balance : option Z
}.

Record EventRow := mkEventRow {
  ev_book : string;
  ev_seq : Z;
  ev_at : DateTime;
  ev_kind : string;
  ev_payload : list byte
}.

Record TransactionRow := mkTransactionRow {
  tr_tx_id : string;
  tr_book : string;
  tr_seq : Z;
  tr_idempotency_key : string;
  tr_occurred_at : DateTime;
  tr_committed_at : DateTime;
  tr_metadata : JsonValue;
  tr_external_refs : list byte
}.

Record PostingRow := mkPostingRow {
  po_tx_id : string;
  po_idx : Z;
  po_account_key : string;
  po_asset : string;
  po_minor : Z;
  po_direction : string;
  po_book : string;
  po_seq : Z;
  po_committed_at : DateTime
}.

Record BalanceRow := mkBalanceRow {
  ba_asset : string;
  ba_balance : Cell;
  ba_updated_seq : Z
}.

Record Tables := mkTables {
  t_assets : gmap string AssetRow;
  t_accounts : gmap string AccountsRow;
  t_books : gmap string Cell;
  t_events : list EventRow;
  t_transactions : list TransactionRow;
  t_postings : list PostingRow;
  t_balances : gmap string BalanceRow
}.

(** One table replaced. *)
Definition with_assets (x : gmap string AssetRow) (t : Tables) : Tables :=
  mkTables x (t_accounts t) (t_books t) (t_events t) (t_transactions t) (t_postings t) (t_balances t).
Definition with_accounts (x : gmap string AccountsRow) (t : Tables) : Tables :=
  mkTables (t_assets t) x (t_books t) (t_events t) (t_transactions t) (t_postings t) (t_balances t).
Definition with_books (x : gmap string Cell) (t : Tables) : Tables :=
  mkTables (t_assets t) (t_accounts t) x (t_events t) (t_transactions t) (t_postings t) (t_balances t).
Definition with_events (x : list EventRow) (t : Tables) : Tables :=
  mkTables (t_assets t) (t_accounts t) (t_books t) x (t_transactions t) (t_postings t) (t_balances t).
Definition with_transactions (x : list TransactionRow) (t : Tables) : Tables :=
  mkTables (t_assets t) (t_accounts t) (t_books t) (t_events t) x (t_postings t) (t_balances t).
Definition with_postings (x : list PostingRow) (t : Tables) : Tables :=
  mkTables (t_assets t) (t_accounts t) (t_books t) (t_events t) (t_transactions t) x (t_balances t).
Definition with_balances (x : gmap string BalanceRow) (t : Tables) : Tables :=
  mkTables (t_assets t) (t_accounts t) (t_books t) (t_events t) (t_transactions t) (t_postings t) x.

Definition Tables_empty : Tables := mkTables ∅ ∅ ∅ [] [] [] ∅.

(** ** Connections *)

Inductive outcome (A : Type) :=
| Done (a : A)
| Fail (e : DbError)
| Panicked.
Arguments Done {A} a.
Arguments Fail {A} e.
Arguments Panicked {A}.

Definition is_done {A} (o : outcome A) : bool := match o with Done _ => true | _ => false end.

(** The store: what is durable, the open write transaction with its
    savepoints, the backend's failures to come, the clock and the wake-ups
    published so far. *)
Record Conn := mkConn {
  committed : Tables;
  work : Tables;
  saves : list (nat * Tables);
  script : list (option SqlxError);
  clock : nat -> DateTime;
  tick : nat;
  woken : list Book
}.

(** A computation that reaches a database through the state [S]. *)
Definition db (S A : Type) : Type := S -> outcome A * S.
Definition sq (A : Type) : Type := db Conn A.

Definition sq_ret {S A} (a : A) : db S A := fun s => (Done a, s).
Definition sq_fail {S A} (e : DbError) : db S A := fun s => (Fail e, s).
Definition sq_panic {S A} : db S A := fun s => (Panicked, s).
Definition sq_bind {S A B} (m : db S A) (k : A -> db S B) : db S B := fun s =>
  match m s with
  | (Done a, s') => k a s'
  | (Fail e, s') => (Fail e, s')
  | (Panicked, s') => (Panicked, s')
  end.

(** A call whose error is kept as a value: a [match] on its result. *)
Definition sq_try {S A} (m : db S A) : db S (result A DbError) := fun s =>
  match m s with
  | (Done a, s) => (Done (Ok a), s)
  | (Fail e, s) => (Done (Err e), s)
  | (Panicked, s) => (Panicked, s)
  end.

Notation "'let&' p ':=' m 'in' k" := (sq_bind m (fun p => k))
  (at level 10, p pattern, m at level 200, k at level 200) : talea_scope.

Definition set_work (t : Tables) (s : Conn) : Conn :=
  mkConn (committed s) t (saves s) (script s) (clock s) (tick s) (woken s).
Definition set_committed (t : Tables) (s : Conn) : Conn :=
  mkConn t (work s) (saves s) (script s) (clock s) (tick s) (woken s).
Definition set_saves (l : list (nat * Tables)) (s : Conn) : Conn :=
  mkConn (committed s) (work s) l (script s) (clock s) (tick s) (woken s).
Definition set_script (l : list (option SqlxError)) (s : Conn) : Conn :=
  mkConn (committed s) (work s) (saves s) l (clock s) (tick s) (woken s).

(** Reach the backend once: the next entry of the script. *)
Definition reach : Conn -> option SqlxError * Conn := fun s =>
  match script s with [] => (None, s) | f :: fs => (f, set_script fs s) end.

(** A statement of the open transaction, with the error it returns. *)
Definition execute {A} (q : Tables -> result (A * Tables) SqlxError) : Conn -> result A SqlxError * Conn := fun s =>
  match reach s with
  | (Some e, s) => (Err e, s)
  | (None, s) =>
      match q (work s) with
      | Ok (a, t) => (Ok a, set_work t s)
      | Err e => (Err e, s)
      end
  end.

(** ... with [map_err(io_err)?]. *)
Definition stmt {A} (q : Tables -> result (A * Tables) SqlxError) : sq A := fun s =>
  match execute q s with
  | (Ok a, s) => (Done a, s)
  | (Err e, s) => (Fail (io_err (SqlxE e)), s)
  end.

(** A query of the pool reads what is committed. *)
Definition pool_query {A} (q : Tables -> result A SqlxError) : sq A := fun s =>
  match reach s with
  | (Some e, s) => (Fail (io_err (SqlxE e)), s)
  | (None, s) =>
      match q (committed s) with
      | Ok a => (Done a, s)
      | Err e => (Fail (io_err (SqlxE e)), s)
      end
  end.

(** [row.get::<i64, _>] *)
Definition get_i64 {S} (c : Cell) : db S Z := match c with Int z => sq_ret z | Real => sq_panic end.

(** A result that needs no statement. *)
Definition lift_std {S A} (r : result A string) : db S A :=
  match r with Ok a => sq_ret a | Err m => sq_fail (io_err (OtherE m)) end.

Definition lift_db {S A} (r : result A DbError) : db S A :=
  match r with Ok a => sq_ret a | Err e => sq_fail e end.

(** ** Transactions *)

Definition begin_stmt : Conn -> result unit SqlxError * Conn := fun s =>
  match reach s with
  | (Some e, s) => (Err e, s)
  | (None, s) => (Ok (), set_saves [] (set_work (committed s) s))
  end.

(** Commit: on failure nothing became durable. *)
Definition commit_stmt : Conn -> result unit SqlxError * Conn := fun s =>
  match reach s with
  | (Some e, s) => (Err e, s)
  | (None, s) => (Ok (), set_committed (work s) s)
  end.

Definition checked {A} (c : Conn -> result A SqlxError * Conn) : sq A := fun s =>
  match c s with (Ok a, s) => (Done a, s) | (Err e, s) => (Fail (io_err (SqlxE e)), s) end.

(** Savepoints are a stack; [ROLLBACK TO] leaves its savepoint defined. *)
Definition savepoint (i : nat) : Conn -> result unit SqlxError * Conn :=
  fun s =>
    match reach s with
    | (Some e, s) => (Err e, s)
    | (None, s) => (Ok (), set_saves ((i, work s) :: saves s) s)
    end.

Fixpoint pop_to (i : nat) (l : list (nat * Tables)) : option (Tables * list (nat * Tables)) :=
  match l with
  | [] => None
  | (j, t) :: l' => if (j =? i)%nat then Some (t, l') else pop_to i l'
  end.

Definition no_such_savepoint : SqlxError := SqlError "no such savepoint".

Definition release_savepoint (i : nat) : Conn -> result unit SqlxError * Conn :=
  fun s =>
    match reach s with
    | (Some e, s) => (Err e, s)
    | (None, s) =>
        match pop_to i (saves s) with
        | Some (_, l) => (Ok (), set_saves l s)
        | None => (Err no_such_savepoint, s)
        end
    end.

Definition rollback_to (i : nat) : Conn -> result unit SqlxError * Conn :=
  fun s =>
    match reach s with
    | (Some e, s) => (Err e, s)
    | (None, s) =>
        match pop_to i (saves s) with
        | Some (t, l) => (Ok (), set_saves ((i, t) :: l) (set_work t s))
        | None => (Err no_such_savepoint, s)
        end
    end.

(** ** Lemmas *)

Lemma sq_bind_Done {S A B} (m : db S A) (k : A -> db S B) s b s' :
  sq_bind m k s = (Done b, s') <-> exists a s1, m s = (Done a, s1) /\ k a s1 = (Done b, s').
Proof. unfold sq_bind. destruct (m s) as [[a|e|] s1]; naive_solver. Qed.

(** What a statement of the open transaction leaves alone. *)
Record local (s s' : Conn) : Prop := {
  lo_committed : committed s' = committed s;
  lo_saves : saves s' = saves s;
  lo_clock : clock s' = clock s;
  lo_woken : woken s' = woken s;
  lo_script : script s = [] -> script s' = []
}.

#[export] Instance local_preorder : PreOrder local.
Proof. split; [by intros s|]. intros a b c [] []. split; try congruence. auto. Qed.

Definition is_local {A} (m : sq A) : Prop := forall s, local s (m s).2.

Lemma local_ret {A} (a : A) : is_local (sq_ret a).
Proof. by intros s. Qed.
Lemma local_fail {A} e : is_local (@sq_fail Conn A e).
Proof. by intros s. Qed.
Lemma local_bind {A B} (m : sq A) (k : A -> sq B) : is_local m -> (forall a, is_local (k a)) -> is_local (sq_bind m k).
Proof.
  intros Hm Hk s. unfold sq_bind. specialize (Hm s). destruct (m s) as [[a|e|] s1]; cbn in *; [|done..].
  etrans; [exact Hm|]. apply Hk.
Qed.
Lemma local_reach s : local s (reach s).2.
Proof. unfold reach. destruct (script s) eqn:E; [done|]. split; try done. cbn. congruence. Qed.
Lemma local_stmt {A} (q : Tables -> result (A * Tables) SqlxError) : is_local (stmt q).
Proof.
  intros s. unfold stmt, execute. pose proof (local_reach s) as Hr. destruct (reach s) as [[e|] s1]; cbn in *; [done|].
  destruct (q (work s1)) as [[a t]|e]; cbn; [|done]. by destruct Hr; split.
Qed.
Lemma local_pool {A} (q : Tables -> result A SqlxError) : is_local (pool_query q).
Proof.
  intros s. unfold pool_query. pose proof (local_reach s) as Hr. destruct (reach s) as [[e|] s1]; cbn in *; [done|].
  by destruct (q (committed s1)).
Qed.
Lemma local_get c : is_local (get_i64 c).
Proof. destruct c; by intros s. Qed.
Lemma local_lift_std {A} (r : result A string) : is_local (lift_std r).
Proof. destruct r; by intros s. Qed.
Lemma local_lift_db {A} (r : result A DbError) : is_local (lift_db r).
Proof. destruct r; by intros s. Qed.
#[export] Hint Resolve local_ret local_fail local_bind local_stmt local_pool local_get local_lift_std local_lift_db : talea.

(** *** A run that succeeds met no failure *)

Definition quiet {A} (m : sq A) : Prop :=
  forall s a s', m s = (Done a, s') -> m (set_script [] s) = (Done a, set_script [] s').

Lemma quiet_ret {A} (a : A) : quiet (sq_ret a).
Proof. by intros s b s' [= -> ->]. Qed.
Lemma quiet_fail {A} e : quiet (@sq_fail Conn A e).
Proof. by intros s b s'. Qed.
Lemma quiet_bind {A B} (m : sq A) (k : A -> sq B) : quiet m -> (forall a, quiet (k a)) -> quiet (sq_bind m k).
Proof.
  intros Hm Hk s b s' (a & s1 & H1 & H2)%sq_bind_Done. apply sq_bind_Done. exists a, (set_script [] s1).
  split; [by apply Hm|by apply Hk].
Qed.

Lemma reach_None s s1 : reach s = (None, s1) -> reach (set_script [] s) = (None, set_script [] s1) /\
  work s1 = work s /\ committed s1 = committed s /\ saves s1 = saves s /\ set_script [] s1 = set_script [] s.
Proof. unfold reach. destruct (script s); intros Hr; simplify_eq; done. Qed.

Lemma quiet_stmt {A} (q : Tables -> result (A * Tables) SqlxError) : quiet (stmt q).
Proof.
  intros s a s'. unfold stmt, execute. destruct (reach s) as [[e|] s1] eqn:Er; [done|].
  apply reach_None in Er as (-> & Hw & _ & _ & Hs). rewrite Hs. cbn [work set_script]. rewrite Hw.
  destruct (q (work s)) as [[x t]|e]; [|done]. intros [= -> <-]. f_equal.
  apply (f_equal (set_work t)) in Hs. unfold set_work, set_script in *. cbn in *. congruence.
Qed.
Lemma quiet_pool {A} (q : Tables -> result A SqlxError) : quiet (pool_query q).
Proof.
  intros s a s'. unfold pool_query. destruct (reach s) as [[e|] s1] eqn:Er; [done|].
  apply reach_None in Er as (-> & _ & Hc & _ & Hs). cbn [committed set_script]. rewrite Hc.
  destruct (q (committed s)); [|done]. by intros [= -> <-].
Qed.
Lemma quiet_get c : quiet (get_i64 c).
Proof. destruct c; by intros s a s' [= <- <-]. Qed.
Lemma quiet_lift_std {A} (r : result A string) : quiet (lift_std r).
Proof. destruct r; by intros s b s' [= <- <-]. Qed.
Lemma quiet_lift_db {A} (r : result A DbError) : quiet (lift_db r).
Proof. destruct r; by intros s b s' [= <- <-]. Qed.
#[export] Hint Resolve quiet_ret quiet_fail quiet_bind quiet_stmt quiet_pool quiet_get quiet_lift_std quiet_lift_db : talea.

(** *** A backend that no longer fails *)

Lemma stmt_healthy {A} (q : Tables -> result (A * Tables) SqlxError) s :
  script s = [] ->
  stmt q s = match q (work s) with Ok (a, t) => (Done a, set_work t s) | Err e => (Fail (io_err (SqlxE e)), s) end.
Proof. intros Hs. unfold stmt, execute, reach. rewrite Hs. by destruct (q (work s)) as [[a t]|e]. Qed.

Lemma pool_healthy {A} (q : Tables -> result A SqlxError) s :
  script s = [] ->
  pool_query q s = match q (committed s) with Ok a => (Done a, s) | Err e => (Fail (io_err (SqlxE e)), s) end.
Proof. intros Hs. unfold pool_query, reach. rewrite Hs. by destruct (q (committed s)). Qed.

(** *** Values *)

Lemma cell_Int z : in_i64 z = true -> cell z = Int z.
Proof. unfold cell. by intros ->. Qed.

Lemma cell_inv z x : cell z = Int x -> z = x /\ in_i64 z = true.
Proof. unfold cell. destruct (in_i64 z); naive_solver. Qed.
