(* ===== verification/Sqlite.v ===== *)
(** The SQLite store, talea-store-sqlite/src/lib.rs: the operations of
    [SqliteTaleaStore], over the database of Sql.v.

    [serde_json], [uuid] and [thiserror] are parameters ([Json], [UuidText]).  An
    arithmetic negation of the least [i64] wraps, as in a build without
    overflow checks. *)

From S2P Require Import Prelude Core Disk Sql.
Open Scope Z_scope.

(** [Uuid::to_string], [Uuid::parse_str] and the [Display] that [thiserror]
    generates for [StoreError]. *)
Class UuidText := {
  uuid_text : Uuid -> string;
  parse_uuid : string -> result Uuid string;
  store_error_text : StoreError -> string
}.

Class UuidTextLaws {U : UuidText} := parse_uuid_text : forall u, parse_uuid (uuid_text u) = Ok u.

(** ** Helpers *)

(** A clock reading in nanoseconds, cut to microseconds (talea-core/src/store.rs). *)
Definition ledger_now : sq DateTime := fun s =>
  (Done (clock s (tick s) / 1000 * 1000),
   mkConn (committed s) (work s) (saves s) (script s) (clock s) (S (tick s)) (woken s)).

Definition publish (book : Book) : sq unit := fun s =>
  (Done (), mkConn (committed s) (work s) (saves s) (script s) (clock s) (tick s) (woken s ++ [book])).

Definition begin_write : sq unit := checked begin_stmt.
Definition db_commit : sq unit := checked commit_stmt.

(** Map a batch-level failure to one error per draft. *)
Definition batch_failure (e : SqlxError) (context : string) (n : nat) : list (result Committed DbError) :=
  if is_pool_timeout (SqlxE e) then replicate n (Err (Plain Saturated))
  else replicate n (Err (IoBox (OtherE (context +:+ ": " +:+ sqlx_text e)))).

Definition effective (raw : Z) (normal_side : option Direction) : Z :=
  match normal_side with Some Credit => wrap_i64 (- raw) | _ => raw end.

Definition posting_delta (p : Posting) : Z :=
  match p_direction p with
  | Debit => minor (p_amount p)
  | Credit => wrap_i64 (- minor (p_amount p))
  end.

Record AccountRow := mkAccountRow {
  row_asset : AssetId;
  row_normal_side : option Direction;
  row_min_balance : option Z
}.

Definition decode_account (r : AccountsRow) : AccountRow :=
  mkAccountRow (ac_asset r) (s ← ac_normal_side r; Direction_from_db s) (ac_min_balance r).

(** "SELECT asset, normal_side, min_balance FROM accounts WHERE key = ?1" *)
Definition load_account (key : string) : sq (option AccountRow) :=
  pool_query (fun t => Ok (decode_account <$> t_accounts t !! key)).

(** The upsert of the book's counter, returning it. *)
Definition next_seq (book : string) : sq Seq :=
  let& c := stmt (fun t =>
    let c := match t_books t !! book with None => Int 1 | Some c => sql_add c (Int 1) end in
    Ok (c, with_books (<[book := c]> (t_books t)) t)) in
  get_i64 c.

Definition event_pk (book : string) (seq : Z) (r : EventRow) : bool := String.eqb (ev_book r) book && (ev_seq r =? seq).

Section sqlite.
Context `{HashIter} `{UuidText} `{Json LedgerEvent} `{Json (list ExternalRef)}.

Definition insert_event (book : string) (seq : Seq) (at_ : DateTime) (event : LedgerEvent) : sq unit :=
  let& payload := lift_std (to_vec event) in
  stmt (fun t =>
    if existsb (event_pk book seq) (t_events t) then Err (UniqueConstraint "UNIQUE constraint failed: events.book, events.seq")
    else Ok ((), with_events (t_events t ++ [mkEventRow book seq at_ (LedgerEvent_kind event) payload]) t)).

(** "SELECT .. WHERE book = ?1 AND seq >= ?2 ORDER BY seq LIMIT ?3" *)
Definition select_events (book : Book) (from : Seq) (limit : Z) (t : Tables) : list EventRow :=
  sql_limit limit (sort_by (fun a b => ev_seq a <=? ev_seq b)
    (filter (fun r => ev_book r = book /\ from <= ev_seq r) (t_events t))).

Fixpoint decode_events (rows : list EventRow) : result (list (Sequenced LedgerEvent)) DbError :=
  match rows with
  | [] => Ok []
  | r :: rows =>
      let? event := map_err (fun m => io_err (OtherE m)) (from_slice (ev_payload r)) in
      let? evs := decode_events rows in
      Ok (mkSequenced (ev_seq r) (ev_at r) event :: evs)
  end.

Definition fetch_events (book : Book) (from : Seq) (limit : Z) : sq (list (Sequenced LedgerEvent)) :=
  let& rows := pool_query (fun t => Ok (select_events book from limit t)) in
  lift_db (decode_events rows).

Definition decode_asset (id : AssetId) (r : AssetRow) : AssetDef :=
  mkAssetDef id
    (if String.eqb (ar_class r) "fiat" then Fiat else Crypto (default "" (ar_network r)) (ar_native_id r))
    (ar_precision r mod 256) (ar_name r).

(** One account's folded contribution to a transaction. *)
Record Pending := mkPending {
  pd_account : AccountId;
  pd_asset : AssetId;
  pd_normal_side : option Direction;
  pd_min_balance : option Z;
  pd_delta : Z
}.

(** [keys.sort(); keys.dedup()] *)
Fixpoint dedup (l : list string) : list string :=
  match l with
  | [] => []
  | x :: l => match dedup l with y :: l' => if String.eqb x y then y :: l' else x :: y :: l' | [] => [x] end
  end.

(** "SELECT key, .. FROM accounts WHERE key IN (..)" *)
Definition select_accounts (keys : list string) : sq (gmap string AccountRow) :=
  stmt (fun t =>
    if MAX_VARIABLES <? Z.of_nat (length keys) then Err too_many_variables
    else Ok (list_to_map (omap (fun key => r ← t_accounts t !! key; Some (key, decode_account r)) keys), t)).

(** One posting's turn of the loop over [pending] and [loaded]. *)
Definition fold_posting (posting : Posting) (loaded : gmap string AccountRow) (pending : gmap string Pending) :
    result (gmap string AccountRow * gmap string Pending) DbError :=
  let key := to_key (p_account posting) in
  let? (entry, loaded) :=
    match pending !! key with
    | Some e => Ok (e, loaded)
    | None =>
        match loaded !! key with
        | None => Err (Plain (UnknownAccount (p_account posting)))
        | Some row =>
            Ok (mkPending (p_account posting) (row_asset row) (row_normal_side row) (row_min_balance row) 0,
                delete key loaded)
        end
    end in
  if negb (bool_decide (pd_asset entry = amount_asset (p_amount posting)))
  then Err (Plain (AssetMismatch (p_account posting) (pd_asset entry) (amount_asset (p_amount posting))))
  else
    match checked_add (pd_delta entry) (posting_delta posting) with
    | None => Err (IoBox (OtherE ("posting delta overflow for account " +:+ key)))
    | Some delta =>
        Ok (loaded, <[key := mkPending (pd_account entry) (pd_asset entry) (pd_normal_side entry) (pd_min_balance entry) delta]> pending)
    end.

Fixpoint fold_pending (ps : list Posting) (loaded : gmap string AccountRow) (pending : gmap string Pending) :
    result (gmap string Pending) DbError :=
  match ps with
  | [] => Ok pending
  | posting :: ps =>
      let? (loaded, pending) := fold_posting posting loaded pending in
      fold_pending ps loaded pending
  end.

Definition pending_leb (a b : Pending) : bool := String.leb (to_key (pd_account a)) (to_key (pd_account b)).

Definition load_pending (transaction : Transaction) : sq (list Pending) :=
  let keys := dedup (sort_by String.leb (map (fun p => to_key (p_account p)) (tx_postings transaction))) in
  let& loaded := select_accounts keys in
  let& pending := lift_db (fold_pending (tx_postings transaction) loaded ∅) in
  sq_ret (sort_by pending_leb (map snd (hash_iter pending))).

(** *** [write_transaction] *)

(** One row of the balance upsert: [ON CONFLICT] adds to the row that is there. *)
Definition upserted (seq : Seq) (p : Pending) (old : option BalanceRow) : BalanceRow :=
  match old with
  | None => mkBalanceRow (pd_asset p) (Int (pd_delta p)) seq
  | Some old => mkBalanceRow (ba_asset old) (sql_add (ba_balance old) (Int (pd_delta p))) seq
  end.

Definition upsert_balance (seq : Seq) (p : Pending) (t : Tables) : result ((string * Cell) * Tables) SqlxError :=
  let key := to_key (pd_account p) in
  match t_accounts t !! key with
  | None => Err foreign_key_failed
  | Some _ =>
      let row := upserted seq p (t_balances t !! key) in
      Ok ((key, ba_balance row),
          with_balances (<[key := row]> (t_balances t)) t)
  end.

Fixpoint upsert_balances (seq : Seq) (pending : list Pending) (t : Tables) :
    result (list (string * Cell) * Tables) SqlxError :=
  match pending with
  | [] => Ok ([], t)
  | p :: pending =>
      let? (row, t) := upsert_balance seq p t in
      let? (rows, t) := upsert_balances seq pending t in
      Ok (row :: rows, t)
  end.

(** [.map(|r| (r.get("account_key"), r.get("balance"))).collect()] *)
Fixpoint get_rows (rows : list (string * Cell)) : sq (list (string * Z)) :=
  match rows with
  | [] => sq_ret []
  | (key, c) :: rows => let& z := get_i64 c in let& rest := get_rows rows in sq_ret ((key, z) :: rest)
  end.

Fixpoint check_min_balances (new_raw : gmap string Z) (pending : list Pending) : result unit DbError :=
  match pending with
  | [] => Ok ()
  | p :: pending =>
      match pd_min_balance p with
      | None => check_min_balances new_raw pending
      | Some min =>
          let key := to_key (pd_account p) in
          match new_raw !! key with
          | None => Err (IoBox (OtherE ("balance upsert returned no row for account " +:+ key)))
          | Some raw =>
              let would_be := effective raw (pd_normal_side p) in
              if would_be <? min then Err (Plain (ConstraintViolation (pd_account p) min would_be))
              else check_min_balances new_raw pending
          end
      end
  end.

Definition transaction_pk (row r : TransactionRow) : bool :=
  String.eqb (tr_tx_id r) (tr_tx_id row) ||
  (String.eqb (tr_book r) (tr_book row) && String.eqb (tr_idempotency_key r) (tr_idempotency_key row)).

Definition insert_transaction (row : TransactionRow) (t : Tables) : result (unit * Tables) SqlxError :=
  if existsb (transaction_pk row) (t_transactions t) then Err (UniqueConstraint "UNIQUE constraint failed: transactions")
  else Ok ((), with_transactions (t_transactions t ++ [row]) t).

Definition posting_row (tx : Transaction) (seq : Seq) (at_ : DateTime) (idx : nat) (p : Posting) : PostingRow :=
  mkPostingRow (uuid_text (tx_id tx)) (Z.of_nat idx) (to_key (p_account p)) (amount_asset (p_amount p)) (minor (p_amount p))
    (Direction_as_str (p_direction p)) (tx_book tx) seq at_.

Definition posting_pk (row r : PostingRow) : bool := String.eqb (po_tx_id r) (po_tx_id row) && (po_idx r =? po_idx row).

(** The rows of one insert, each against the rows before it. *)
Fixpoint insert_postings (rows : list PostingRow) (t : Tables) : result (unit * Tables) SqlxError :=
  match rows with
  | [] => Ok ((), t)
  | row :: rows =>
      if existsb (posting_pk row) (t_postings t) then Err (UniqueConstraint "UNIQUE constraint failed: postings")
      else if bool_decide (t_accounts t !! po_account_key row = None) ||
              negb (existsb (fun r => String.eqb (tr_tx_id r) (po_tx_id row)) (t_transactions t)) then Err foreign_key_failed
      else insert_postings rows
             (with_postings (t_postings t ++ [row]) t)
  end.

Definition write_transaction (transaction : Transaction) (pending : list Pending) : sq Committed :=
  let& seq := next_seq (tx_book transaction) in
  let& at_ := ledger_now in
  let& rows := stmt (fun t =>
    let? _ := push_values 4 (length pending) in upsert_balances seq pending t) in
  let& new_raw := get_rows rows in
  let& _ := lift_db (check_min_balances (list_to_map new_raw) pending) in
  let& external_refs := lift_std (to_vec (tx_external_refs transaction)) in
  let& _ := stmt (insert_transaction
    (mkTransactionRow (uuid_text (tx_id transaction)) (tx_book transaction) seq (tx_idem transaction)
       (tx_occurred_at transaction) at_ (tx_metadata transaction) external_refs)) in
  let& _ := stmt (fun t =>
    let? _ := push_values 9 (length (tx_postings transaction)) in
    insert_postings (imap (posting_row transaction seq at_) (tx_postings transaction)) t) in
  let& _ := insert_event (tx_book transaction) seq at_ (TransactionPosted transaction) in
  sq_ret (mkCommitted (tx_id transaction) seq at_).

Definition find_committed (book : Book) (idem : IdempotencyKey) : sq (option Committed) :=
  let& row := stmt (fun t =>
    Ok (List.find (fun r => String.eqb (tr_book r) book && String.eqb (tr_idempotency_key r) idem) (t_transactions t), t)) in
  match row with
  | None => sq_ret None
  | Some r =>
      let& txid := lift_std (parse_uuid (tr_tx_id r)) in
      sq_ret (Some (mkCommitted txid (tr_seq r) (tr_committed_at r)))
  end.

Definition commit_draft (transaction : Transaction) : sq Committed :=
  let& prior := find_committed (tx_book transaction) (tx_idem transaction) in
  match prior with
  | Some prior => sq_ret prior
  | None =>
      let& pending := load_pending transaction in
      write_transaction transaction pending
  end.

(** The rollback of one draft. *)
Definition undo (i : nat) : Conn -> result unit SqlxError * Conn := fun s =>
  match rollback_to i s with
  | (Ok _, s) => release_savepoint i s
  | (Err e, s) => (Err e, s)
  end.

Definition commit_in_savepoint (i : nat) (transaction : Transaction) : sq Committed :=
  if is_reserved (tx_book transaction) then sq_fail (Plain (InvalidBook (tx_book transaction)))
  else
    let& _ := checked (savepoint i) in
    let& r := sq_try (commit_draft transaction) in
    match r with
    | Ok c => let& _ := checked (release_savepoint i) in sq_ret c
    | Err e => fun s =>
        match undo i s with
        | (Err undo_err, s) =>
            (Fail (IoBox (OtherE ("draft failed (" +:+ store_error_text (to_store_error e) +:+
               "); savepoint rollback also failed: " +:+ sqlx_text undo_err))), s)
        | (Ok _, s) =>
            if is_unique_violation e then
              (let& prior := find_committed (tx_book transaction) (tx_idem transaction) in
               match prior with Some prior => sq_ret prior | None => sq_fail e end) s
            else (Fail e, s)
        end
    end.

(** ** The [Store] trait *)

Definition asset_row (asset : AssetDef) : AssetRow :=
  match asset_class asset with
  | Fiat => mkAssetRow "fiat" None None (asset_precision asset) (asset_name asset)
  | Crypto network native_id => mkAssetRow "crypto" (Some network) native_id (asset_precision asset) (asset_name asset)
  end.

Definition register_asset (asset : AssetDef) : sq unit :=
  let& _ := begin_write in
  let& row := stmt (fun t => Ok (t_assets t !! asset_id asset, t)) in
  match row with
  | Some row =>
      let existing := decode_asset (asset_id asset) row in
      if bool_decide (existing = asset) then sq_ret ()
      else sq_fail (Plain (AlreadyExists ("asset " +:+ asset_id asset)))
  | None =>
      let& _ := stmt (fun t =>
        match t_assets t !! asset_id asset with
        | Some _ => Err (UniqueConstraint "UNIQUE constraint failed: assets.id")
        | None => Ok ((), with_assets (<[asset_id asset := asset_row asset]> (t_assets t)) t)
        end) in
      let& seq := next_seq SYSTEM_BOOK in
      let& at_ := ledger_now in
      let& _ := insert_event SYSTEM_BOOK seq at_ (AssetRegistered asset) in
      let& _ := db_commit in
      publish system_book
  end.

Definition accounts_row (def : AccountDef) (cfg : AccountCfg) : AccountsRow :=
  mkAccountsRow (acct_book (acct_id def)) (acct_path (acct_id def)) (acct_asset def) (AccountKind_as_str (acct_kind def))
    (Direction_as_str <$> normal_side cfg) (min_balance cfg).

Definition same_account (row : AccountsRow) (def : AccountDef) (cfg : AccountCfg) : bool :=
  let same_def := String.eqb (ac_asset row) (acct_asset def) &&
    bool_decide (AccountKind_from_db (ac_kind row) = Some (acct_kind def)) in
  let same_cfg := bool_decide ((s ← ac_normal_side row; Direction_from_db s) = normal_side cfg) &&
    bool_decide (ac_min_balance row = min_balance cfg) in
  same_def && same_cfg.

Definition open_account (def : AccountDef) (cfg : AccountCfg) : sq unit :=
  let book := acct_book (acct_id def) in
  if is_reserved book then sq_fail (Plain (InvalidBook book))
  else
    let key := to_key (acct_id def) in
    let& _ := begin_write in
    let& asset_exists := stmt (fun t => Ok (t_assets t !! acct_asset def, t)) in
    match asset_exists with
    | None => sq_fail (Plain (UnknownAsset (acct_asset def)))
    | Some _ =>
        let& row := stmt (fun t => Ok (t_accounts t !! key, t)) in
        match row with
        | Some row =>
            if same_account row def cfg then sq_ret ()
            else sq_fail (Plain (AlreadyExists ("account " +:+ key)))
        | None =>
            let& _ := stmt (fun t =>
              match t_accounts t !! key, t_assets t !! acct_asset def with
              | Some _, _ => Err (UniqueConstraint "UNIQUE constraint failed: accounts.key")
              | None, None => Err foreign_key_failed
              | None, Some _ => Ok ((), with_accounts (<[key := accounts_row def cfg]> (t_accounts t)) t)
              end) in
            let& seq := next_seq book in
            let& at_ := ledger_now in
            let& _ := insert_event book seq at_ (AccountOpened def cfg) in
            let& _ := db_commit in
            publish book
        end
    end.

Definition commit (transaction : Transaction) : sq Committed :=
  if is_reserved (tx_book transaction) then sq_fail (Plain (InvalidBook (tx_book transaction)))
  else
    let& _ := begin_write in
    let& r := sq_try (commit_draft transaction) in
    match r with
    | Ok c =>
        let& _ := db_commit in
        let& _ := publish (tx_book transaction) in
        sq_ret c
    | Err e =>
        if is_unique_violation e then
          let& _ := checked begin_stmt in
          let& prior := find_committed (tx_book transaction) (tx_idem transaction) in
          match prior with Some prior => sq_ret prior | None => sq_fail e end
        else sq_fail e
    end.

Fixpoint commit_drafts (i : nat) (txs : list Transaction) : sq (list (result Committed DbError)) :=
  match txs with
  | [] => sq_ret []
  | tx :: txs =>
      let& r := sq_try (commit_in_savepoint i tx) in
      let& rs := commit_drafts (S i) txs in
      sq_ret (r :: rs)
  end.

(** One wake-up per distinct book with at least one committed draft. *)
Fixpoint publish_books (l : list (Transaction * result Committed DbError)) (published : list Book) : sq unit :=
  match l with
  | [] => sq_ret ()
  | (tx, r) :: l =>
      if is_ok r && negb (bool_decide (tx_book tx ∈ published)) then
        let& _ := publish (tx_book tx) in publish_books l (published ++ [tx_book tx])
      else publish_books l published
  end.

Definition commit_batch (txs : list Transaction) : sq (list (result Committed DbError)) :=
  match txs with
  | [] => sq_ret []
  | _ => fun s =>
      match begin_stmt s with
      | (Err e, s) => (Done (batch_failure e "failed to begin batch transaction" (length txs)), s)
      | (Ok _, s) =>
          (let& results := commit_drafts 0 txs in
           fun s =>
             match commit_stmt s with
             | (Err e, s) => (Done (batch_failure e "batch commit failed" (length txs)), s)
             | (Ok _, s) => (let& _ := publish_books (zip txs results) [] in sq_ret results) s
             end) s
      end
  end.

(** *** Reads *)

Definition signed_cell (r : PostingRow) : Cell :=
  if String.eqb (po_direction r) "D" then Int (po_minor r) else sql_neg (Int (po_minor r)).

(** The aggregate of an account's postings up to a commit time. *)
Definition select_raw_at (key : string) (at_ : DateTime) (t : Tables) : result (Cell * Z) SqlxError :=
  let rows := filter (fun r => po_account_key r = key /\ po_committed_at r <= at_) (t_postings t) in
  let? raw := sql_sum (map signed_cell rows) in
  Ok (raw, sql_max (map po_seq rows)).

Definition balance (account : AccountId) (as_of : option DateTime) : sq BalanceSnapshot :=
  let key := to_key account in
  let& acct := load_account key in
  match acct with
  | None => sq_fail (Plain (UnknownAccount account))
  | Some acct =>
      let& (c, updated_seq) :=
        match as_of with
        | None => pool_query (fun t =>
            Ok (match t_balances t !! key with Some r => (ba_balance r, ba_updated_seq r) | None => (Int 0, 0) end))
        | Some at_ => pool_query (select_raw_at key at_)
        end in
      let& raw := get_i64 c in
      sq_ret (mkBalanceSnapshot (Amount_new (effective raw (row_normal_side acct)) (row_asset acct)) updated_seq)
  end.

Definition asset (id : AssetId) : sq (option AssetDef) :=
  let& row := pool_query (fun t => Ok (t_assets t !! id)) in
  sq_ret (decode_asset id <$> row).

(** "SELECT DISTINCT seq .. ORDER BY seq" *)
Definition distinct_seqs (rows : list PostingRow) : list Z := sort_by Z.leb (remove_dups (map po_seq rows)).

Definition posting_leb (a b : PostingRow) : bool :=
  (po_seq a <? po_seq b) || ((po_seq a =? po_seq b) && (po_idx a <=? po_idx b)).

Definition select_history (key : string) (after limit : Z) (t : Tables) : list PostingRow :=
  let rows := filter (fun r => po_account_key r = key /\ after < po_seq r) (t_postings t) in
  let last := sql_max (sql_limit limit (distinct_seqs rows)) in
  sort_by posting_leb (filter (fun r => po_seq r <= last) rows).

Fixpoint decode_postings (account : AccountId) (rows : list PostingRow) : result (list PostingRecord) DbError :=
  match rows with
  | [] => Ok []
  | r :: rows =>
      let? txid := map_err (fun m => io_err (OtherE m)) (parse_uuid (po_tx_id r)) in
      let? direction := ok_or (Direction_from_db (po_direction r)) (IoBox (OtherE "corrupt direction column")) in
      let? rest := decode_postings account rows in
      Ok (mkPostingRecord (po_seq r) txid account (Amount_new (po_minor r) (po_asset r)) direction (po_committed_at r) :: rest)
  end.

Definition account_history (account : AccountId) (after_seq : option Seq) (limit : Z) : sq (list PostingRecord) :=
  let key := to_key account in
  let& acct := load_account key in
  match acct with
  | None => sq_fail (Plain (UnknownAccount account))
  | Some _ =>
      let& rows := pool_query (fun t => Ok (select_history key (default 0 after_seq) (limit_i64 limit) t)) in
      lift_db (decode_postings account rows)
  end.

Definition transaction (txid : TxId) : sq (option StoredTransaction) :=
  let& row := pool_query (fun t => Ok (List.find (fun r => String.eqb (tr_tx_id r) (uuid_text txid)) (t_transactions t))) in
  match row with
  | None => sq_ret None
  | Some row =>
      let& events := fetch_events (tr_book row) (tr_seq row) 1 in
      let missing := IoBox (OtherE ("event log missing transaction_posted for tx " +:+ uuid_text txid)) in
      match events with
      | ev :: _ =>
          match s_event ev with
          | TransactionPosted transaction =>
              if tx_id transaction =? txid
              then sq_ret (Some (mkStoredTransaction transaction (tr_seq row) (tr_committed_at row)))
              else sq_fail missing
          | _ => sq_fail missing
          end
      | [] => sq_fail missing
      end
  end.

Definition debit_cell (r : PostingRow) : Cell := if String.eqb (po_direction r) "D" then Int (po_minor r) else Int 0.
Definition credit_cell (r : PostingRow) : Cell := if String.eqb (po_direction r) "C" then Int (po_minor r) else Int 0.

(** "GROUP BY asset ORDER BY asset" *)
Fixpoint group_rows (assets : list string) (rows : list PostingRow) : result (list (string * (Cell * Cell))) SqlxError :=
  match assets with
  | [] => Ok []
  | a :: assets =>
      let mine := filter (fun r => po_asset r = a) rows in
      let? debits := sql_sum (map debit_cell mine) in
      let? credits := sql_sum (map credit_cell mine) in
      let? rest := group_rows assets rows in
      Ok ((a, (debits, credits)) :: rest)
  end.

Definition select_trial (book : Book) (as_of : option DateTime) (t : Tables) : result (list (string * (Cell * Cell))) SqlxError :=
  let rows := filter (fun r => po_book r = book /\ match as_of with None => true | Some at_ => po_committed_at r <=? at_ end = true)
                (t_postings t) in
  group_rows (sort_by String.leb (remove_dups (map po_asset rows))) rows.

Fixpoint get_trial_rows (rows : list (string * (Cell * Cell))) : sq (list TrialBalanceRow) :=
  match rows with
  | [] => sq_ret []
  | (a, (d, c)) :: rows =>
      let& debits := get_i64 d in
      let& credits := get_i64 c in
      let& rest := get_trial_rows rows in
      sq_ret (mkTrialBalanceRow a debits credits :: rest)
  end.

Definition trial_balance (book : Book) (as_of : option DateTime) : sq (list TrialBalanceRow) :=
  let& rows := pool_query (select_trial book as_of) in
  get_trial_rows rows.

Definition read_events (book : Book) (from : Seq) (limit : Z) : sq (list (Sequenced LedgerEvent)) :=
  fetch_events book from (limit_i64 limit).
End sqlite.
