(* ===== verification/SqliteSpec.v ===== *)
(** What the SQLite store keeps: its tables are a function of one history of
    events, and every operation of talea-store-sqlite/src/lib.rs appends the
    event it reports or leaves the history alone.

    [db_ok t h] says that the tables [t] are the projections of the history
    [h]: the event log itself, the assets, accounts, transactions and
    postings it holds, the counter of each book and the balance of each
    account. *)

From S2P Require Import Prelude Core Disk Sql Sqlite.
Open Scope Z_scope.

(** ** Histories *)

Record Entry := mkEntry {
  en_book : Book;
  en_seq : Seq;
  en_at : DateTime;
  en_event : LedgerEvent
}.

Definition book_log (b : Book) (h : list Entry) : list Entry := filter (fun e => en_book e = b) h.

Definition asset_of (id : AssetId) (e : Entry) : option AssetDef :=
  match en_event e with AssetRegistered d => if decide (asset_id d = id) then Some d else None | _ => None end.

Definition registered (h : list Entry) (id : AssetId) : option AssetDef := head (omap (asset_of id) h).

Definition account_of (key : string) (e : Entry) : option (AccountDef * AccountCfg) :=
  match en_event e with
  | AccountOpened def cfg => if decide (to_key (acct_id def) = key) then Some (def, cfg) else None
  | _ => None
  end.

Definition opened (h : list Entry) (key : string) : option (AccountDef * AccountCfg) := head (omap (account_of key) h).

(** The effect of a posting row on its account's raw balance. *)
Definition row_delta (r : PostingRow) : Z :=
  if String.eqb (po_direction r) "D" then po_minor r else wrap_i64 (- po_minor r).

Definition sum_Z (l : list Z) : Z := foldr Z.add 0 l.

(** The effect of postings on one account. *)
Definition delta_of (key : string) (ps : list Posting) : Z :=
  sum_Z (map posting_delta (filter (fun p => to_key (p_account p) = key) ps)).

Section history.
Context `{UuidText} `{Json LedgerEvent} `{Json (list ExternalRef)}.

Definition payload_of (ev : LedgerEvent) : list byte := match to_vec ev with Ok b => b | Err _ => [] end.
Definition refs_of (l : list ExternalRef) : list byte := match to_vec l with Ok b => b | Err _ => [] end.

Definition event_row (e : Entry) : EventRow :=
  mkEventRow (en_book e) (en_seq e) (en_at e) (LedgerEvent_kind (en_event e)) (payload_of (en_event e)).

Definition transaction_row (e : Entry) : option TransactionRow :=
  match en_event e with
  | TransactionPosted tx =>
      Some (mkTransactionRow (uuid_text (tx_id tx)) (en_book e) (en_seq e) (tx_idem tx) (tx_occurred_at tx) (en_at e)
              (tx_metadata tx) (refs_of (tx_external_refs tx)))
  | _ => None
  end.

Definition posting_rows (e : Entry) : list PostingRow :=
  match en_event e with
  | TransactionPosted tx => imap (posting_row tx (en_seq e) (en_at e)) (tx_postings tx)
  | _ => []
  end.

Definition all_postings (h : list Entry) : list PostingRow := concat (map posting_rows h).
Definition all_transactions (h : list Entry) : list TransactionRow := omap transaction_row h.

Definition account_rows (key : string) (h : list Entry) : list PostingRow :=
  filter (fun r => po_account_key r = key) (all_postings h).

(** The raw balance of an account, and its row. *)
Definition balance_of (h : list Entry) (key : string) : Z := sum_Z (map row_delta (account_rows key h)).

Definition balance_row (h : list Entry) (key : string) : option BalanceRow :=
  r ← last (account_rows key h);
  Some (mkBalanceRow (po_asset r) (Int (balance_of h key)) (po_seq r)).

(** The answer recorded for a key. *)
Definition prior (h : list Entry) (book : Book) (idem : IdempotencyKey) : option Entry :=
  List.find (fun e => match en_event e with
                      | TransactionPosted tx => String.eqb (en_book e) book && String.eqb (tx_idem tx) idem
                      | _ => false
                      end) h.

Definition committed_of (e : Entry) : option Committed :=
  match en_event e with TransactionPosted tx => Some (mkCommitted (tx_id tx) (en_seq e) (en_at e)) | _ => None end.

(** What the events of a history are. *)
Record history_ok (h : list Entry) : Prop := {
  ho_gapless : forall b i e, book_log b h !! i = Some e -> en_seq e = 1 + Z.of_nat i;
  ho_book : forall e, e ∈ h -> match en_event e with
    | TransactionPosted tx => en_book e = tx_book tx
    | AccountOpened def _ => en_book e = acct_book (acct_id def)
    | AssetRegistered _ => en_book e = SYSTEM_BOOK
    end;
  ho_txids : NoDup (map tr_tx_id (all_transactions h));
  ho_keys : NoDup (map (fun r => (tr_book r, tr_idempotency_key r)) (all_transactions h));
  ho_postings : forall r, r ∈ all_postings h -> exists def cfg, opened h (po_account_key r) = Some (def, cfg) /\ acct_asset def = po_asset r;
  ho_precision : forall id d, registered h id = Some d -> 0 <= asset_precision d < 256;
  ho_range : forall key, in_i64 (balance_of h key) = true;
  ho_min : forall key def cfg m, opened h key = Some (def, cfg) -> min_balance cfg = Some m -> account_rows key h <> [] ->
    m <= effective (balance_of h key) (normal_side cfg);
  ho_encoded : forall e, e ∈ h -> is_ok (to_vec (en_event e)) = true
}.

Record db_ok (t : Tables) (h : list Entry) : Prop := {
  do_events : t_events t = map event_row h;
  do_transactions : t_transactions t = all_transactions h;
  do_postings : t_postings t = all_postings h;
  do_assets : forall id, t_assets t !! id = asset_row <$> registered h id;
  do_accounts : forall key, t_accounts t !! key = (fun p => accounts_row p.1 p.2) <$> opened h key;
  do_books : forall b, t_books t !! b =
    match length (book_log b h) with O => None | n => Some (Int (Z.of_nat n)) end;
  do_balances : forall key, t_balances t !! key = balance_row h key;
  do_history : history_ok h
}.
End history.

Lemma decode_accounts_row def cfg : decode_account (accounts_row def cfg) = mkAccountRow (acct_asset def) (normal_side cfg) (min_balance cfg).
Proof.
  unfold decode_account, accounts_row. cbn. f_equal. destruct (normal_side cfg) as [d|]; [|done]. cbn.
  by destruct d.
Qed.

Lemma decode_asset_row d : 0 <= asset_precision d < 256 -> decode_asset (asset_id d) (asset_row d) = d.
Proof.
  intros Hp. unfold decode_asset, asset_row. destruct d as [id [|n nid] p name]; cbn in *; by rewrite Z.mod_small.
Qed.

(** ** Sums *)

Lemma sum_Z_app l r : sum_Z (l ++ r) = sum_Z l + sum_Z r.
Proof. induction l as [|x l IH]; cbn; [done|]. unfold sum_Z in *. cbn. lia. Qed.

Definition of_key (key : string) (ps : list Posting) : list Posting := filter (fun p => to_key (p_account p) = key) ps.

Lemma of_key_app key l r : of_key key (l ++ r) = of_key key l ++ of_key key r.
Proof. apply filter_app. Qed.

Lemma delta_of_app key l r : delta_of key (l ++ r) = delta_of key l + delta_of key r.
Proof. unfold delta_of. by rewrite filter_app, map_app, sum_Z_app. Qed.

Lemma delta_of_one key p : delta_of key [p] = if decide (to_key (p_account p) = key) then posting_delta p else 0.
Proof. unfold delta_of. rewrite filter_cons, filter_nil. case_decide; cbn; lia. Qed.

(** ** Phase 1: [load_pending] *)

Lemma dedup_elem x l : x ∈ dedup l <-> x ∈ l.
Proof.
  induction l as [|y l IH]; cbn; [done|]. destruct (dedup l) as [|z l'] eqn:E.
  - rewrite !elem_of_cons, <- IH. done.
  - destruct (String.eqb_spec y z); subst; rewrite !elem_of_cons in *; naive_solver.
Qed.

Lemma dedup_length l : (length (dedup l) <= length l)%nat.
Proof.
  induction l as [|y l IH]; cbn; [done|]. destruct (dedup l) as [|z l']; cbn in *; [lia|]. case_match; cbn in *; lia.
Qed.

Lemma select_lookup (f : string -> option AccountsRow) keys k :
  (list_to_map (omap (fun key => r ← f key; Some (key, decode_account r)) keys) : gmap string AccountRow) !! k =
  if decide (k ∈ keys) then decode_account <$> f k else None.
Proof.
  induction keys as [|key keys IH]; [done|]. cbn [omap list_omap].
  destruct (f key) as [r|] eqn:Ef; cbn.
  - destruct (decide (key = k)) as [->|Hne].
    + rewrite lookup_insert_eq, decide_True by (by left). by rewrite Ef.
    + rewrite lookup_insert_ne, IH by done. destruct (decide (k ∈ keys)).
      * by rewrite decide_True by (by right).
      * rewrite decide_False; [done|]. intros [|]%elem_of_cons; congruence.
  - rewrite IH. destruct (decide (k ∈ keys)).
    + by rewrite decide_True by (by right).
    + destruct (decide (k ∈ key :: keys)) as [[->|]%elem_of_cons|]; [by rewrite Ef|done|done].
Qed.

(** A posting to an account of its asset. *)
Definition posting_ok (L0 : string -> option AccountRow) (p : Posting) : Prop :=
  exists row, L0 (to_key (p_account p)) = Some row /\ row_asset row = amount_asset (p_amount p).

(** What the fold makes of an account's postings. *)
Definition pending_of (L0 : string -> option AccountRow) (ps : list Posting) (key : string) : option Pending :=
  p ← head (of_key key ps);
  row ← L0 key;
  Some (mkPending (p_account p) (row_asset row) (row_normal_side row) (row_min_balance row) (delta_of key ps)).

Definition loaded_of (L0 : string -> option AccountRow) (ps : list Posting) (key : string) : option AccountRow :=
  match head (of_key key ps) with Some _ => None | None => L0 key end.

Lemma pending_of_snoc L0 ps p key :
  pending_of L0 (ps ++ [p]) key =
  if decide (to_key (p_account p) = key) then
    match pending_of L0 ps key with
    | Some e => Some (mkPending (pd_account e) (pd_asset e) (pd_normal_side e) (pd_min_balance e) (pd_delta e + posting_delta p))
    | None => if decide (of_key key ps = []) then
        row ← L0 key; Some (mkPending (p_account p) (row_asset row) (row_normal_side row) (row_min_balance row) (posting_delta p))
        else None
    end
  else pending_of L0 ps key.
Proof.
  unfold pending_of. rewrite of_key_app, delta_of_app, delta_of_one. unfold of_key at 2. rewrite filter_cons, filter_nil.
  destruct (decide (to_key (p_account p) = key)) as [Hk|Hne]; [|by rewrite app_nil_r, Z.add_0_r].
  destruct (of_key key ps) as [|p0 rest] eqn:E; cbn.
  - unfold delta_of. fold (of_key key ps). by rewrite E.
  - destruct (L0 _); cbn; done.
Qed.

Lemma loaded_of_snoc L0 ps p key :
  loaded_of L0 (ps ++ [p]) key = if decide (to_key (p_account p) = key) then None else loaded_of L0 ps key.
Proof.
  unfold loaded_of. rewrite of_key_app. unfold of_key at 2. rewrite filter_cons, filter_nil.
  case_decide; [|by rewrite app_nil_r]. by destruct (of_key key ps).
Qed.

Definition deltas_fit (ps : list Posting) : Prop := forall n key, in_i64 (delta_of key (take n ps)) = true.

Lemma deltas_fit_snoc ps p : deltas_fit (ps ++ [p]) <->
  deltas_fit ps /\ in_i64 (delta_of (to_key (p_account p)) ps + posting_delta p) = true.
Proof.
  split.
  - intros Hf. split.
    + intros n key. destruct (decide (n <= length ps)%nat).
      * specialize (Hf n key). by rewrite take_app_le in Hf.
      * specialize (Hf (length ps) key). rewrite take_app_length in Hf. by rewrite take_ge by lia.
    + specialize (Hf (length ps + 1)%nat (to_key (p_account p))).
      rewrite take_ge in Hf by (rewrite length_app; cbn; lia). by rewrite delta_of_app, delta_of_one, decide_True in Hf.
  - intros [Hf Hp] n key. destruct (decide (n <= length ps)%nat) as [|Hn]; [rewrite take_app_le by done; apply Hf|].
    rewrite take_ge by (rewrite length_app; cbn; lia). rewrite delta_of_app, delta_of_one. case_decide; [by subst|].
    rewrite Z.add_0_r. specialize (Hf (length ps) key). by rewrite take_ge in Hf.
Qed.

Lemma deltas_fit_prefix l r : deltas_fit (l ++ r) -> deltas_fit l.
Proof.
  intros Hf n key. destruct (decide (n <= length l)%nat).
  - specialize (Hf n key). by rewrite take_app_le in Hf.
  - specialize (Hf (length l) key). rewrite take_app_length in Hf. by rewrite take_ge by lia.
Qed.

Definition foldable (L0 : string -> option AccountRow) (ps : list Posting) : Prop :=
  Forall (posting_ok L0) ps /\ deltas_fit ps.

Lemma foldable_prefix L0 l r : foldable L0 (l ++ r) -> foldable L0 l.
Proof. intros [[? _]%Forall_app Hf]. split; [done|]. by eapply deltas_fit_prefix. Qed.

Lemma foldable_snoc L0 ps p : foldable L0 (ps ++ [p]) <->
  foldable L0 ps /\ posting_ok L0 p /\ in_i64 (delta_of (to_key (p_account p)) ps + posting_delta p) = true.
Proof. unfold foldable. rewrite Forall_app, Forall_singleton, deltas_fit_snoc. tauto. Qed.

(** The maps after the postings [past]. *)
Record fold_inv (L0 : string -> option AccountRow) (past : list Posting) (loaded : gmap string AccountRow)
    (pending : gmap string Pending) : Prop := {
  fi_loaded : forall k, loaded !! k = loaded_of L0 past k;
  fi_pending : forall k, pending !! k = pending_of L0 past k;
  fi_ok : foldable L0 past
}.

Lemma pending_none L0 ps key : foldable L0 ps -> pending_of L0 ps key = None -> of_key key ps = [].
Proof.
  intros [Hok _]. unfold pending_of. destruct (of_key key ps) as [|p rest] eqn:E; [done|]. cbn. intros Hn.
  assert (p ∈ of_key key ps) as [Hk Hin]%list_elem_of_filter by (rewrite E; by left).
  rewrite Forall_forall in Hok. destruct (Hok _ Hin) as (row & Hr & _). rewrite Hk in Hr. by rewrite Hr in Hn.
Qed.

Lemma pending_of_inv L0 ps key e : pending_of L0 ps key = Some e ->
  exists p row, head (of_key key ps) = Some p /\ L0 key = Some row /\
    e = mkPending (p_account p) (row_asset row) (row_normal_side row) (row_min_balance row) (delta_of key ps).
Proof.
  unfold pending_of. destruct (head (of_key key ps)) as [p|]; [|done]. cbn. destruct (L0 key) as [row|]; [|done].
  intros [= <-]. by exists p, row.
Qed.

(** The turn, once its entry is found. *)
Lemma fold_turn L0 past p loaded pending e row (loaded' : gmap string AccountRow) :
  let key := to_key (p_account p) in
  fold_inv L0 past loaded pending -> L0 key = Some row -> row_asset row = pd_asset e -> pd_delta e = delta_of key past ->
  (forall k, loaded' !! k = loaded_of L0 (past ++ [p]) k) ->
  pending_of L0 (past ++ [p]) key =
    Some (mkPending (pd_account e) (pd_asset e) (pd_normal_side e) (pd_min_balance e) (pd_delta e + posting_delta p)) ->
  match (if negb (bool_decide (pd_asset e = amount_asset (p_amount p)))
         then Err (Plain (AssetMismatch (p_account p) (pd_asset e) (amount_asset (p_amount p))))
         else match checked_add (pd_delta e) (posting_delta p) with
              | None => Err (IoBox (OtherE ("posting delta overflow for account " +:+ key)))
              | Some delta =>
                  Ok (loaded', <[key := mkPending (pd_account e) (pd_asset e) (pd_normal_side e) (pd_min_balance e) delta]> pending)
              end) with
  | Ok (l, q) => fold_inv L0 (past ++ [p]) l q
  | Err _ => ~ foldable L0 (past ++ [p])
  end.
Proof.
  intros key Hinv Hrow Hasset Hd Hl' Hpend. destruct (bool_decide _) eqn:Ea; cbn [negb]; bool_to_prop.
  2: { intros (_ & (row' & Hr & Ha) & _)%foldable_snoc. fold key in Hr. congruence. }
  unfold checked_add, checked_i64. destruct (in_i64 (pd_delta e + posting_delta p)) eqn:Er.
  2: { intros (_ & _ & Hr)%foldable_snoc. fold key in Hr. rewrite Hd in Er. congruence. }
  split; [done| |].
  - intros k. destruct (decide (key = k)) as [<-|Hne]; [by rewrite lookup_insert_eq, Hpend|].
    rewrite lookup_insert_ne, (fi_pending _ _ _ _ Hinv), pending_of_snoc by done. fold key. by rewrite decide_False.
  - apply foldable_snoc. split; [apply Hinv|]. fold key. rewrite <- Hd. split; [|done]. exists row. fold key. split; congruence.
Qed.

Lemma fold_posting_spec L0 past p loaded pending :
  fold_inv L0 past loaded pending ->
  match fold_posting p loaded pending with
  | Ok (l, q) => fold_inv L0 (past ++ [p]) l q
  | Err _ => ~ foldable L0 (past ++ [p])
  end.
Proof.
  intros Hinv. unfold fold_posting. set (key := to_key (p_account p)).
  pose proof (pending_of_snoc L0 past p key) as Hsn. unfold key in Hsn at 2. rewrite decide_True in Hsn by done. fold key in Hsn.
  rewrite (fi_pending _ _ _ _ Hinv). destruct (pending_of L0 past key) as [e|] eqn:Ep.
  - destruct (pending_of_inv _ _ _ _ Ep) as (p0 & row & Hh & Hrow & He).
    apply (fold_turn L0 past p loaded pending e row loaded Hinv Hrow); [by subst e..| |done].
    intros k. rewrite (fi_loaded _ _ _ _ Hinv), loaded_of_snoc. fold key. case_decide; [subst k|done].
    unfold loaded_of. by rewrite Hh.
  - pose proof (pending_none _ _ _ (fi_ok _ _ _ _ Hinv) Ep) as Hnone. rewrite decide_True in Hsn by done.
    rewrite (fi_loaded _ _ _ _ Hinv). unfold loaded_of. rewrite Hnone. cbn [head].
    destruct (L0 key) as [row|] eqn:El; [|intros (_ & (row & Hr & _) & _)%foldable_snoc; fold key in Hr; congruence].
    apply (fold_turn L0 past p loaded pending (mkPending (p_account p) (row_asset row) (row_normal_side row) (row_min_balance row) 0)
      row (delete key loaded) Hinv El); [done| | |exact Hsn].
    + unfold delta_of. fold key. fold (of_key key past). by rewrite Hnone.
    + intros k. rewrite loaded_of_snoc. fold key. case_decide as Hk; [subst k; apply lookup_delete_eq|].
      by rewrite lookup_delete_ne, (fi_loaded _ _ _ _ Hinv).
Qed.

Lemma fold_pending_spec L0 ps : forall past loaded pending,
  fold_inv L0 past loaded pending ->
  match fold_pending ps loaded pending with
  | Ok pend => foldable L0 (past ++ ps) /\ forall k, pend !! k = pending_of L0 (past ++ ps) k
  | Err _ => ~ foldable L0 (past ++ ps)
  end.
Proof.
  induction ps as [|p ps IH]; intros past loaded pending Hinv; cbn [fold_pending].
  - rewrite app_nil_r. split; apply Hinv.
  - pose proof (fold_posting_spec L0 past p loaded pending Hinv) as Hstep.
    replace (past ++ p :: ps) with ((past ++ [p]) ++ ps) by (by rewrite <- app_assoc).
    destruct (fold_posting p loaded pending) as [[l q]|e]; [by apply IH|]. by intros ?%foldable_prefix.
Qed.

Definition pd_key (p : Pending) : string := to_key (pd_account p).

Lemma of_key_elem key ps p : p ∈ of_key key ps <-> to_key (p_account p) = key /\ p ∈ ps.
Proof. unfold of_key. by rewrite list_elem_of_filter. Qed.

Lemma head_elem {A} (l : list A) x : head l = Some x -> x ∈ l.
Proof. destruct l; [done|]. intros [= ->]. by left. Qed.

Lemma pending_of_key L0 ps key e : pending_of L0 ps key = Some e -> pd_key e = key.
Proof.
  intros (p & row & Hp & _ & ->)%pending_of_inv. unfold pd_key. cbn.
  by apply head_elem, of_key_elem in Hp as [? _].
Qed.

(** Every account of the postings, once. *)
Record pending_list (L0 : string -> option AccountRow) (ps : list Posting) (l : list Pending) : Prop := {
  pl_nodup : NoDup (map pd_key l);
  pl_elem : forall e, e ∈ l <-> pending_of L0 ps (pd_key e) = Some e;
  pl_length : (length l <= length ps)%nat
}.

Lemma foldable_ext L0 L1 ps : (forall p, p ∈ ps -> L0 (to_key (p_account p)) = L1 (to_key (p_account p))) ->
  foldable L0 ps -> foldable L1 ps.
Proof.
  intros He [Hok Hf]. split; [|done]. rewrite Forall_forall in *. intros p Hp.
  destruct (Hok p Hp) as (row & Hr & Ha). exists row. by rewrite <- He.
Qed.

Lemma pending_of_ext L0 L1 ps key : (forall p, p ∈ ps -> L0 (to_key (p_account p)) = L1 (to_key (p_account p))) ->
  pending_of L0 ps key = pending_of L1 ps key.
Proof.
  intros He. unfold pending_of. destruct (head (of_key key ps)) as [p|] eqn:Eh; [|done]. cbn.
  apply head_elem, of_key_elem in Eh as [<- Hin]. by rewrite He.
Qed.

Section load.
Context `{HashIterLaws}.

Lemma pending_list_of L0 ps (pend : gmap string Pending) :
  (forall k, pend !! k = pending_of L0 ps k) -> pending_list L0 ps (sort_by pending_leb (map snd (hash_iter pend))).
Proof.
  intros Hp. assert (sort_by pending_leb (map snd (hash_iter pend)) ≡ₚ map snd (map_to_list pend)) as Hperm
    by (by rewrite sort_by_perm, hash_iter_perm).
  assert (map pd_key (map snd (map_to_list pend)) = map fst (map_to_list pend)) as Hkeys.
  { rewrite map_map. apply map_ext_in. intros [k e] Hin%list_elem_of_In%elem_of_map_to_list. cbn.
    rewrite Hp in Hin. by apply pending_of_key in Hin. }
  split.
  - rewrite (Permutation_map pd_key Hperm), Hkeys. apply NoDup_fst_map_to_list.
  - intros e. rewrite Hperm, list_elem_of_fmap, <- Hp. split.
    + intros ([k e'] & -> & Hin%elem_of_map_to_list). cbn. pose proof Hin as Hk. rewrite Hp in Hk.
      by rewrite (pending_of_key _ _ _ _ Hk).
    + intros Hin. exists (pd_key e, e). split; [done|]. by apply elem_of_map_to_list.
  - rewrite (Permutation_length Hperm). transitivity (length (map (fun p => to_key (p_account p)) ps)); [|by rewrite length_map].
    rewrite length_map, <- (length_map fst). apply submseteq_length, NoDup_submseteq; [apply NoDup_fst_map_to_list|].
    intros k Hin. apply list_elem_of_fmap in Hin as ([k' e] & -> & Hin%elem_of_map_to_list). rewrite Hp in Hin.
    apply pending_of_inv in Hin as (p & row & Hh%head_elem%of_key_elem & _). apply list_elem_of_fmap. exists p. naive_solver.
Qed.

Definition accounts_in (s : Conn) (key : string) : option AccountRow := decode_account <$> t_accounts (work s) !! key.

Definition posting_keys (ps : list Posting) : list string := dedup (sort_by String.leb (map (fun p => to_key (p_account p)) ps)).

Lemma posting_keys_elem p ps : p ∈ ps -> to_key (p_account p) ∈ posting_keys ps.
Proof. intros Hp. unfold posting_keys. rewrite dedup_elem, sort_by_perm. by apply (list_elem_of_fmap_2 (fun p => to_key (p_account p))). Qed.

Lemma posting_keys_length ps : (length (posting_keys ps) <= length ps)%nat.
Proof.
  unfold posting_keys. etrans; [apply dedup_length|]. by rewrite (Permutation_length (sort_by_perm _ _)), length_map.
Qed.

(** Loading and folding, on a backend that does not fail. *)
Lemma load_pending_healthy tx s :
  script s = [] ->
  match load_pending tx s with
  | (Done l, s') => s' = s /\ foldable (accounts_in s) (tx_postings tx) /\ pending_list (accounts_in s) (tx_postings tx) l
  | (Fail _, s') => s' = s /\ (Z.of_nat (length (tx_postings tx)) <= MAX_VARIABLES -> ~ foldable (accounts_in s) (tx_postings tx))
  | (Panicked, _) => False
  end.
Proof.
  intros Hs. unfold load_pending, select_accounts, sq_bind. rewrite stmt_healthy by done. fold (posting_keys (tx_postings tx)).
  destruct (MAX_VARIABLES <? Z.of_nat (length (posting_keys (tx_postings tx)))) eqn:Emax.
  { split; [done|]. pose proof (posting_keys_length (tx_postings tx)). lia. }
  set (loaded := list_to_map _). replace (set_work (work s) s) with s by (by destruct s).
  set (L1 := fun k => loaded !! k).
  assert (forall p, p ∈ tx_postings tx -> L1 (to_key (p_account p)) = accounts_in s (to_key (p_account p))) as Hext.
  { intros p Hp%posting_keys_elem. unfold L1, loaded. rewrite select_lookup. by rewrite decide_True. }
  pose proof (fold_pending_spec L1 (tx_postings tx) [] loaded ∅) as Hfold. cbn [app] in Hfold.
  assert (fold_inv L1 [] loaded ∅) as Hinv.
  { split; [done| |]; [intros k; by rewrite lookup_empty|]. split; [constructor|]. intros n k. by rewrite take_nil. }
  specialize (Hfold Hinv). destruct (fold_pending _ _ _) as [pend|e]; cbn.
  - destruct Hfold as [Hok Hp]. split; [done|]. split; [by eapply foldable_ext|].
    apply pending_list_of. intros k. rewrite Hp. by apply pending_of_ext.
  - split; [done|]. intros _ Hno. apply Hfold. eapply foldable_ext; [|exact Hno]. intros p Hp. symmetry. by apply Hext.
Qed.
End load.

(** ** One more event *)

Lemma book_log_snoc b h e : book_log b (h ++ [e]) = book_log b h ++ (if decide (en_book e = b) then [e] else []).
Proof. unfold book_log. rewrite filter_app, filter_cons, filter_nil. by case_decide. Qed.

Lemma head_app {A} (l r : list A) : head (l ++ r) = match head l with Some x => Some x | None => head r end.
Proof. by destruct l. Qed.

Lemma registered_snoc h e id : registered (h ++ [e]) id = match registered h id with Some d => Some d | None => asset_of id e end.
Proof. unfold registered. rewrite omap_app, head_app. destruct (head _); [done|]. cbn. by destruct (asset_of id e). Qed.

Lemma registered_app h evs id : registered (h ++ evs) id = match registered h id with Some d => Some d | None => registered evs id end.
Proof. unfold registered. rewrite omap_app. by destruct (omap (asset_of id) h). Qed.
Lemma opened_app h evs key : opened (h ++ evs) key = match opened h key with Some d => Some d | None => opened evs key end.
Proof. unfold opened. rewrite omap_app. by destruct (omap (account_of key) h). Qed.

Lemma opened_snoc h e key : opened (h ++ [e]) key = match opened h key with Some d => Some d | None => account_of key e end.
Proof. unfold opened. rewrite omap_app, head_app. destruct (head _); [done|]. cbn. by destruct (account_of key e). Qed.

Lemma opened_keep h e key p : opened h key = Some p -> opened (h ++ [e]) key = Some p.
Proof. rewrite opened_snoc. by intros ->. Qed.

(** The next event of its book. *)
Definition next_entry (h : list Entry) (b : Book) (at_ : DateTime) (ev : LedgerEvent) : Entry :=
  mkEntry b (1 + Z.of_nat (length (book_log b h))) at_ ev.

Section snoc.
Context `{UuidText} `{Json LedgerEvent} `{Json (list ExternalRef)}.

Lemma all_postings_snoc h e : all_postings (h ++ [e]) = all_postings h ++ posting_rows e.
Proof. unfold all_postings. rewrite map_app, concat_app. cbn. by rewrite app_nil_r. Qed.

Lemma all_transactions_snoc h e :
  all_transactions (h ++ [e]) = all_transactions h ++ match transaction_row e with Some r => [r] | None => [] end.
Proof. unfold all_transactions. rewrite omap_app. cbn. by destruct (transaction_row e). Qed.

Lemma account_rows_snoc key h e :
  account_rows key (h ++ [e]) = account_rows key h ++ filter (fun r => po_account_key r = key) (posting_rows e).
Proof. unfold account_rows. by rewrite all_postings_snoc, filter_app. Qed.

Lemma book_gapless_snoc h b at_ ev :
  (forall b i e, book_log b h !! i = Some e -> en_seq e = 1 + Z.of_nat i) ->
  forall b' i e, book_log b' (h ++ [next_entry h b at_ ev]) !! i = Some e -> en_seq e = 1 + Z.of_nat i.
Proof.
  intros Hg b' i e. rewrite book_log_snoc. cbn [en_book next_entry]. case_decide as Hb; [subst b'|rewrite app_nil_r; eauto].
  rewrite lookup_app_Some. intros [|[Hi Hl]]; [eauto|].
  destruct (i - length (book_log b h))%nat eqn:E; [|done]. injection Hl as <-. cbn. lia.
Qed.

(** The counters after the next event. *)
Lemma books_snoc t h b at_ ev :
  (forall b, t_books t !! b = match length (book_log b h) with O => None | n => Some (Int (Z.of_nat n)) end) ->
  forall b', <[b := Int (1 + Z.of_nat (length (book_log b h)))]> (t_books t) !! b' =
    match length (book_log b' (h ++ [next_entry h b at_ ev])) with O => None | n => Some (Int (Z.of_nat n)) end.
Proof.
  intros Hb b'. rewrite book_log_snoc. cbn [en_book next_entry]. case_decide as Heq.
  - subst b'. rewrite lookup_insert_eq, length_app. cbn [length]. rewrite Nat.add_1_r. do 2 f_equal. lia.
  - by rewrite lookup_insert_ne, app_nil_r by done.
Qed.

Lemma unopened_no_rows h key : history_ok h -> opened h key = None -> account_rows key h = [].
Proof.
  intros Hh Hn. unfold account_rows. destruct (filter _ (all_postings h)) as [|r rest] eqn:E; [done|].
  assert (r ∈ filter (fun r => po_account_key r = key) (all_postings h)) as [Hk Hin]%list_elem_of_filter by (rewrite E; by left).
  destruct (ho_postings _ Hh r Hin) as (def & cfg & Ho & _). congruence.
Qed.
(** An event that posts nothing. *)
Lemma history_ok_plain h b at_ ev :
  history_ok h -> is_ok (to_vec ev) = true ->
  match ev with
  | TransactionPosted _ => False
  | AccountOpened def _ => b = acct_book (acct_id def)
  | AssetRegistered d => b = SYSTEM_BOOK /\ 0 <= asset_precision d < 256
  end ->
  history_ok (h ++ [next_entry h b at_ ev]).
Proof.
  intros Hh Henc Hev. pose proof (fun key => unopened_no_rows h key Hh) as Hno. set (e := next_entry h b at_ ev).
  assert (posting_rows e = [] /\ transaction_row e = None) as [Hp Ht] by (unfold e; destruct ev; done).
  assert (forall key, account_rows key (h ++ [e]) = account_rows key h) as Hrows.
  { intros key. rewrite account_rows_snoc, Hp. cbn. by rewrite app_nil_r. }
  destruct Hh. split.
  - unfold e. by apply book_gapless_snoc.
  - intros e' [|He]%elem_of_app; [by apply ho_book0|]. apply list_elem_of_singleton in He as ->. cbn. by destruct ev; try apply Hev.
  - rewrite all_transactions_snoc, Ht. by rewrite app_nil_r.
  - rewrite all_transactions_snoc, Ht. by rewrite app_nil_r.
  - rewrite all_postings_snoc, Hp, app_nil_r. intros r Hr. destruct (ho_postings0 r Hr) as (def & cfg & Ho & Ha).
    exists def, cfg. split; [by apply opened_keep|done].
  - intros id d. rewrite registered_snoc. destruct (registered h id) as [d0|] eqn:Er; [intros [= <-]; by eapply ho_precision0|].
    unfold asset_of. cbn. destruct ev as [d1| |]; [|done..]. case_decide; [|done]. intros [= <-]. apply Hev.
  - intros key. unfold balance_of. rewrite Hrows. apply ho_range0.
  - intros key def cfg m. unfold balance_of. rewrite Hrows, opened_snoc. destruct (opened h key) as [p|] eqn:Eo.
    + intros [= ->]. by eapply ho_min0.
    + intros _ _ Hne. by rewrite Hno in Hne.
  - intros e' [|He]%elem_of_app; [by apply ho_encoded0|]. by apply list_elem_of_singleton in He as ->.
Qed.
End snoc.
