(* ===== verification/SqliteCommit.v ===== *)
(** What a commit of the SQLite store writes (talea-store-sqlite/src/lib.rs):
    the steps of [write_transaction], each on a backend that does not fail,
    and the tables after them. *)

From S2P Require Import Prelude Core Disk Sql Sqlite SqliteSpec.
Open Scope Z_scope.

(** ** The balance upsert *)

Lemma upsert_balances_spec seq pending : forall t,
  NoDup (map pd_key pending) ->
  (forall p, p ∈ pending -> is_Some (t_accounts t !! pd_key p)) ->
  exists b, upsert_balances seq pending t =
      Ok (map (fun p => (pd_key p, ba_balance (upserted seq p (t_balances t !! pd_key p)))) pending, with_balances b t) /\
    (forall p, p ∈ pending -> b !! pd_key p = Some (upserted seq p (t_balances t !! pd_key p))) /\
    (forall k, k ∉ map pd_key pending -> b !! k = t_balances t !! k).
Proof.
  induction pending as [|p pending IH]; intros t Hnd Hacc.
  - exists (t_balances t). split; [by destruct t|]. split; [by intros p ?%elem_of_nil|done].
  - cbn [map] in Hnd. apply NoDup_cons in Hnd as [Hnin Hnd].
    destruct (Hacc p) as [r Hr]; [by left|]. unfold pd_key in Hr. cbn [upsert_balances]. unfold upsert_balance. rewrite Hr. fold (pd_key p).
    set (row := upserted seq p (t_balances t !! pd_key p)). set (t1 := with_balances (<[pd_key p := row]> (t_balances t)) t).
    assert (forall q, q ∈ pending -> t_balances t1 !! pd_key q = t_balances t !! pd_key q) as Hsame.
    { intros q Hq. cbn. apply lookup_insert_ne. intros He. apply Hnin. rewrite He. by apply (list_elem_of_fmap_2 pd_key). }
    destruct (IH t1) as (b & Hu & Hin & Hout); [done|intros q Hq; apply Hacc; by right|].
    rewrite Hu. exists b. split_and!.
    + cbn [map]. fold row. f_equal. f_equal. f_equal. apply map_ext_in. intros q Hq%list_elem_of_In. by rewrite Hsame.
    + intros q [->|Hq]%elem_of_cons; [|by rewrite Hin, Hsame]. rewrite Hout by done. cbn. apply lookup_insert_eq.
    + intros k Hk. cbn [map] in Hk. apply not_elem_of_cons in Hk as [Hne Hk]. rewrite Hout by done. cbn. by rewrite lookup_insert_ne.
Qed.

Lemma get_rows_spec rows : forall s,
  match get_rows rows s with
  | (Done l, s') => s' = s /\ rows = map (fun p => (p.1, Int p.2)) l
  | (Fail _, _) => False
  | (Panicked, s') => s' = s /\ exists k, (k, Real) ∈ rows
  end.
Proof.
  induction rows as [|[k c] rows IH]; intros s; cbn [get_rows]; [done|]. unfold sq_bind. destruct c as [z|]; cbn.
  - specialize (IH s). destruct (get_rows rows s) as [[l|e|] s']; [|done|].
    + destruct IH as [-> ->]. done.
    + destruct IH as [-> [k' Hk]]. split; [done|]. exists k'. by right.
  - split; [done|]. exists k. by left.
Qed.

Lemma check_min_balances_spec new_raw pending :
  (forall p, p ∈ pending -> is_Some (new_raw !! pd_key p)) ->
  match check_min_balances new_raw pending with
  | Ok _ => forall p raw m, p ∈ pending -> new_raw !! pd_key p = Some raw -> pd_min_balance p = Some m ->
      m <= effective raw (pd_normal_side p)
  | Err _ => exists p raw m, p ∈ pending /\ new_raw !! pd_key p = Some raw /\ pd_min_balance p = Some m /\
      effective raw (pd_normal_side p) < m
  end.
Proof.
  induction pending as [|p pending IH]; intros Hin; cbn [check_min_balances]; [by intros q raw m ?%elem_of_nil|].
  assert (match check_min_balances new_raw pending with
    | Ok _ => forall p raw m, p ∈ pending -> new_raw !! pd_key p = Some raw -> pd_min_balance p = Some m ->
        m <= effective raw (pd_normal_side p)
    | Err _ => exists q raw m, q ∈ p :: pending /\ new_raw !! pd_key q = Some raw /\ pd_min_balance q = Some m /\
        effective raw (pd_normal_side q) < m
    end) as IH'.
  { specialize (IH ltac:(intros q Hq; apply Hin; by right)). destruct (check_min_balances new_raw pending); [done|].
    destruct IH as (q & raw & m & ? & ?). exists q, raw, m. split; [by right|done]. }
  destruct (pd_min_balance p) as [m|] eqn:Em.
  - destruct (Hin p) as [raw Hraw]; [by left|]. fold (pd_key p). rewrite Hraw. destruct (effective raw (pd_normal_side p) <? m) eqn:El.
    + exists p, raw, m. split_and!; [by left|done|done|lia].
    + destruct (check_min_balances new_raw pending); [|done].
      intros q raw' m' [->|Hq]%elem_of_cons Hr Hm; [|by eapply IH']. simplify_eq. lia.
  - destruct (check_min_balances new_raw pending); [|done]. intros q raw' m' [->|Hq]%elem_of_cons Hr Hm; [congruence|by eapply IH'].
Qed.

(** ** The posting rows *)

Section postings.
Context `{UuidText}.

Lemma insert_postings_spec rows : forall t,
  (forall r, r ∈ rows -> is_Some (t_accounts t !! po_account_key r)) ->
  (forall r, r ∈ rows -> exists r', r' ∈ t_transactions t /\ tr_tx_id r' = po_tx_id r) ->
  (forall r r', r ∈ rows -> r' ∈ t_postings t -> po_tx_id r' <> po_tx_id r) ->
  NoDup (map po_idx rows) ->
  insert_postings rows t = Ok ((), with_postings (t_postings t ++ rows) t).
Proof.
  intros t Hacc Htx Hold Hnd. revert Hacc Htx Hold.
  assert (forall t, (forall r, r ∈ rows -> is_Some (t_accounts t !! po_account_key r)) ->
    (forall r, r ∈ rows -> exists r', r' ∈ t_transactions t /\ tr_tx_id r' = po_tx_id r) ->
    (forall r r', r ∈ rows -> r' ∈ t_postings t -> posting_pk r r' = false) ->
    insert_postings rows t = Ok ((), with_postings (t_postings t ++ rows) t)) as Hgo.
  { clear t. induction rows as [|r rows IH]; intros t Hacc Htx Hpk; cbn [insert_postings]; [rewrite app_nil_r; by destruct t|].
    apply NoDup_cons in Hnd as [Hnin Hnd].
    assert (existsb (posting_pk r) (t_postings t) = false) as ->.
    { apply not_true_iff_false. intros (r' & Hr'%list_elem_of_In & Hp)%existsb_exists. rewrite (Hpk r r') in Hp; [done|by left|done]. }
    destruct (Hacc r) as [a Ha]; [by left|]. rewrite Ha. rewrite bool_decide_eq_false_2 by done. cbn [orb].
    destruct (Htx r) as (x & Hx & Hxid); [by left|].
    assert (existsb (fun r0 => String.eqb (tr_tx_id r0) (po_tx_id r)) (t_transactions t) = true) as ->.
    { apply existsb_exists. exists x. split; [by apply list_elem_of_In|]. by apply String.eqb_eq. }
    cbn [negb]. rewrite IH; [|done|intros q Hq; apply Hacc; by right|intros q Hq; apply Htx; by right|].
    - cbn. by rewrite <- app_assoc.
    - intros q r' Hq. cbn. intros [Hr'|Hr']%elem_of_app; [apply Hpk; [by right|done]|].
      apply list_elem_of_singleton in Hr' as ->. unfold posting_pk. apply andb_false_iff. right. apply Z.eqb_neq. intros He.
      apply Hnin. rewrite He. by apply (list_elem_of_fmap_2 po_idx). }
  intros Hacc Htx Hold. apply Hgo; [done..|]. intros r r' Hr Hr'. unfold posting_pk. apply andb_false_iff. left.
  apply String.eqb_neq. by apply Hold.
Qed.
End postings.

(** The rows of one transaction. *)
Lemma posting_row_delta `{UuidText} tx seq at_ i p : row_delta (posting_row tx seq at_ i p) = posting_delta p.
Proof. unfold row_delta, posting_row, posting_delta. cbn. by destruct (p_direction p). Qed.

Lemma imap_filter_map {A B C} (f : nat -> A -> B) (P : B -> Prop) (Q : A -> Prop) `{!forall x, Decision (P x), !forall x, Decision (Q x)}
    (g : B -> C) (g' : A -> C) l :
  (forall i x, P (f i x) <-> Q x) -> (forall i x, g (f i x) = g' x) ->
  map g (filter P (imap f l)) = map g' (filter Q l).
Proof.
  revert f. induction l as [|x l IH]; intros f HP Hg; [done|]. rewrite imap_cons, !filter_cons.
  destruct (decide (P (f 0%nat x))) as [Hp|Hp]; destruct (decide (Q x)) as [Hq|Hq]; try (exfalso; rewrite HP in Hp; tauto); cbn.
  - rewrite Hg. f_equal. apply IH; intros; [apply HP|apply Hg].
  - apply IH; intros; [apply HP|apply Hg].
Qed.

(** ** What a commit asks of the history *)

Section commit.
Context `{HashIterLaws} `{UuidText} `{Json LedgerEvent} `{Json (list ExternalRef)}.

(** The transactions a history can take. *)
Record postable (h : list Entry) (tx : Transaction) : Prop := {
  ac_accounts : forall p, p ∈ tx_postings tx -> exists def cfg,
    opened h (to_key (p_account p)) = Some (def, cfg) /\ acct_asset def = amount_asset (p_amount p);
  ac_deltas : deltas_fit (tx_postings tx);
  ac_range : forall p, p ∈ tx_postings tx ->
    let key := to_key (p_account p) in in_i64 (balance_of h key + delta_of key (tx_postings tx)) = true;
  ac_min : forall p def cfg m, p ∈ tx_postings tx -> opened h (to_key (p_account p)) = Some (def, cfg) -> min_balance cfg = Some m ->
    let key := to_key (p_account p) in m <= effective (balance_of h key + delta_of key (tx_postings tx)) (normal_side cfg);
  ac_fresh : uuid_text (tx_id tx) ∉ map tr_tx_id (all_transactions h);
  ac_seq : Z.of_nat (length (book_log (tx_book tx) h)) < i64_max;
  ac_encoded : is_ok (to_vec (TransactionPosted tx)) = true /\ is_ok (to_vec (tx_external_refs tx)) = true
}.

(** ... and those the SQLite store accepts: one statement binds all postings. *)
Record acceptable (h : list Entry) (tx : Transaction) : Prop := {
  ac_postable :> postable h tx;
  ac_count : 0 < Z.of_nat (length (tx_postings tx)) /\ 9 * Z.of_nat (length (tx_postings tx)) <= MAX_VARIABLES
}.

Lemma prior_None h book idem : prior h book idem = None ->
  (book, idem) ∉ map (fun r => (tr_book r, tr_idempotency_key r)) (all_transactions h).
Proof.
  intros Hn (r & Hk & Hr)%list_elem_of_fmap. apply list_elem_of_omap in Hr as (e & He & Hrow).
  unfold prior in Hn. pose proof (List.find_none _ _ Hn e (proj1 (list_elem_of_In _ _) He)) as Hf. cbn in Hf.
  unfold transaction_row in Hrow. destruct (en_event e) as [| |tx]; [done..|]. injection Hrow as <-. cbn in Hk.
  injection Hk as -> ->. by rewrite !String.eqb_refl in Hf.
Qed.

Definition posted (h : list Entry) (tx : Transaction) (at_ : DateTime) : Entry :=
  next_entry h (tx_book tx) at_ (TransactionPosted tx).

Lemma posted_account_rows h tx at_ key :
  map row_delta (filter (fun r => po_account_key r = key) (posting_rows (posted h tx at_))) =
  map posting_delta (of_key key (tx_postings tx)).
Proof. cbn. apply imap_filter_map; [done|]. intros i x. apply posting_row_delta. Qed.

Lemma balance_of_posted h tx at_ key :
  balance_of (h ++ [posted h tx at_]) key = balance_of h key + delta_of key (tx_postings tx).
Proof. unfold balance_of. rewrite account_rows_snoc, map_app, sum_Z_app. by rewrite posted_account_rows. Qed.

Lemma posted_rows_elem h tx at_ r : r ∈ posting_rows (posted h tx at_) ->
  exists p, p ∈ tx_postings tx /\ po_account_key r = to_key (p_account p) /\ po_asset r = amount_asset (p_amount p) /\
    po_tx_id r = uuid_text (tx_id tx) /\ po_seq r = en_seq (posted h tx at_).
Proof.
  cbn. intros [i Hi]%list_elem_of_lookup. rewrite list_lookup_imap in Hi. destruct (tx_postings tx !! i) as [p|] eqn:Ep; [|done].
  injection Hi as <-. exists p. split; [by eapply list_elem_of_lookup_2|]. by split_and!.
Qed.

Lemma not_posted_delta key ps : (forall p, p ∈ ps -> to_key (p_account p) <> key) -> of_key key ps = [].
Proof.
  intros Hn. destruct (of_key key ps) as [|p rest] eqn:E; [done|].
  assert (p ∈ of_key key ps) as [Hk Hp]%of_key_elem by (rewrite E; by left). by destruct (Hn p Hp).
Qed.

(** A key is touched by the postings, or its balance does not move. *)
Lemma touched_or_not ps key : (exists p, p ∈ ps /\ to_key (p_account p) = key) \/ (of_key key ps = [] /\ delta_of key ps = 0).
Proof.
  destruct (of_key key ps) as [|p rest] eqn:E; [|left].
  - right. split; [done|]. unfold delta_of. fold (of_key key ps). by rewrite E.
  - assert (p ∈ of_key key ps) as [Hk Hp]%of_key_elem by (rewrite E; by left). by exists p.
Qed.

Lemma history_ok_post h tx at_ :
  history_ok h -> postable h tx -> prior h (tx_book tx) (tx_idem tx) = None -> history_ok (h ++ [posted h tx at_]).
Proof.
  intros Hh Hac Hprior. pose proof Hac as []. pose proof Hh as [Hgap Hbook Htxids Hkeys Hposts Hprec Hrange Hmin Henc]. split.
  - unfold posted. by apply book_gapless_snoc.
  - intros e' [|He]%elem_of_app; [by apply Hbook|]. by apply list_elem_of_singleton in He as ->.
  - rewrite all_transactions_snoc. cbn. rewrite map_app. apply NoDup_app. split; [done|]. split; [|apply NoDup_singleton].
    intros x Hx Hy. apply list_elem_of_singleton in Hy as ->. done.
  - rewrite all_transactions_snoc. cbn. rewrite map_app. apply NoDup_app. split; [done|]. split; [|apply NoDup_singleton].
    intros x Hx Hy. apply list_elem_of_singleton in Hy as ->. by apply (prior_None _ _ _ Hprior).
  - rewrite all_postings_snoc. intros r [Hr|Hr]%elem_of_app.
    + destruct (Hposts r Hr) as (def & cfg & Ho & Ha). exists def, cfg. split; [by apply opened_keep|done].
    + apply posted_rows_elem in Hr as (p & Hp & -> & -> & _). destruct (ac_accounts0 p Hp) as (def & cfg & Ho & Ha).
      exists def, cfg. split; [by apply opened_keep|done].
  - intros id d. rewrite registered_snoc. destruct (registered h id) eqn:E; [|done]. intros [= ->]. by eapply Hprec.
  - intros key. rewrite balance_of_posted. destruct (touched_or_not (tx_postings tx) key) as [(p & Hp & <-)|[_ ->]].
    + by apply ac_range0.
    + rewrite Z.add_0_r. apply Hrange.
  - intros key def cfg m. rewrite opened_snoc. intros Ho Hm Hne.
    assert (opened h key = Some (def, cfg)) as Ho' by (destruct (opened h key); [congruence|done]).
    rewrite balance_of_posted. destruct (touched_or_not (tx_postings tx) key) as [(p & Hp & <-)|[Hk ->]].
    + by apply (ac_min0 p def cfg).
    + rewrite Z.add_0_r. apply (Hmin key def cfg m Ho' Hm). intros Hnil. apply Hne. rewrite account_rows_snoc, Hnil. cbn [app].
      pose proof (posted_account_rows h tx at_ key) as Hr. rewrite Hk in Hr. by apply map_eq_nil in Hr.
  - intros e' [|He]%elem_of_app; [by apply Henc|]. apply list_elem_of_singleton in He as ->. apply ac_encoded0.
Qed.

(** The balance rows after the upsert. *)
Lemma balance_row_posted h tx at_ key p (e := posted h tx at_) :
  history_ok h -> postable h tx -> pending_of (fun k => (fun p => mkAccountRow (acct_asset p.1) (normal_side p.2) (min_balance p.2)) <$> opened h k)
    (tx_postings tx) key = Some p ->
  Some (upserted (en_seq e) p (balance_row h key)) = balance_row (h ++ [e]) key.
Proof.
  intros Hh Hac (q & row & Hq & Hrow & ->)%pending_of_inv.
  assert (q ∈ tx_postings tx /\ to_key (p_account q) = key) as [Hin Hk] by (by apply head_elem, of_key_elem in Hq as [? ?]).
  destruct (opened h key) as [[def cfg]|] eqn:Eo; [|done]. injection Hrow as <-. cbn [row_asset row_normal_side row_min_balance fst snd].
  pose proof (ac_range _ _ Hac q Hin) as Hr. cbn zeta in Hr. rewrite Hk in Hr.
  assert (exists r, last (account_rows key (h ++ [e])) = Some r /\ po_asset r = acct_asset def /\ po_seq r = en_seq e) as (r & Hl & Ha & Hs).
  { rewrite account_rows_snoc. pose proof (posted_account_rows h tx at_ key) as Hm. fold e in Hm.
    destruct (filter (fun r => po_account_key r = key) (posting_rows e)) as [|r0 rest] eqn:Ef using rev_ind.
    - symmetry in Hm. apply map_eq_nil in Hm. by rewrite Hm in Hq.
    - clear IHrest. rewrite app_assoc, last_snoc. exists r0. split; [done|].
      assert (r0 ∈ filter (fun r => po_account_key r = key) (posting_rows e)) as [Hk0 Hr0]%list_elem_of_filter
        by (rewrite Ef; apply elem_of_app; right; by left).
      apply posted_rows_elem in Hr0 as (p0 & Hp0 & Hk0' & -> & _ & ->). split; [|done].
      destruct (ac_accounts _ _ Hac p0 Hp0) as (def' & cfg' & Ho & <-). rewrite <- Hk0', Hk0 in Ho. congruence. }
  unfold balance_row at 2. rewrite Hl. cbn. rewrite Ha, Hs. assert (balance_of (h ++ [e]) key = balance_of h key + delta_of key (tx_postings tx)) as -> by apply balance_of_posted.
  unfold balance_row. destruct (last (account_rows key h)) as [r0|] eqn:El; cbn.
  - assert (r0 ∈ account_rows key h) as [Hk0 Hr0]%list_elem_of_filter by (by apply last_Some_elem_of).
    destruct (ho_postings _ Hh r0 Hr0) as (def' & cfg' & Ho & <-). rewrite Hk0 in Ho. rewrite Eo in Ho. injection Ho as <- <-.
    do 2 f_equal. by apply cell_Int.
  - apply last_None in El. unfold balance_of. rewrite El. done.
Qed.

Lemma balance_row_untouched h tx at_ key :
  of_key key (tx_postings tx) = [] -> balance_row (h ++ [posted h tx at_]) key = balance_row h key.
Proof.
  intros Hk. unfold balance_row. rewrite balance_of_posted. pose proof (posted_account_rows h tx at_ key) as Hr.
  rewrite Hk in Hr. apply map_eq_nil in Hr. rewrite account_rows_snoc, Hr, app_nil_r.
  unfold delta_of. fold (of_key key (tx_postings tx)). rewrite Hk. cbn. by rewrite Z.add_0_r.
Qed.

(** ** The steps of [write_transaction] *)

(** The accounts of a history, as rows. *)
Definition account_row_of (h : list Entry) (key : string) : option AccountRow :=
  (fun p => mkAccountRow (acct_asset p.1) (normal_side p.2) (min_balance p.2)) <$> opened h key.

Lemma accounts_in_history s h key : db_ok (work s) h -> accounts_in s key = account_row_of h key.
Proof.
  intros Hdb. unfold accounts_in, account_row_of. rewrite (do_accounts _ _ Hdb). destruct (opened h key) as [[def cfg]|]; [|done].
  cbn. by rewrite decode_accounts_row.
Qed.

Lemma foldable_history h ps : foldable (account_row_of h) ps <->
  (forall p, p ∈ ps -> exists def cfg, opened h (to_key (p_account p)) = Some (def, cfg) /\ acct_asset def = amount_asset (p_amount p)) /\
  deltas_fit ps.
Proof.
  unfold foldable. rewrite Forall_forall. unfold posting_ok, account_row_of.
  split; intros [Hp Hf]; (split; [|done]); intros p Hin; specialize (Hp p Hin).
  - destruct Hp as (row & Hr & Ha). destruct (opened h _) as [[def cfg]|]; [|done]. injection Hr as <-. by exists def, cfg.
  - destruct Hp as (def & cfg & -> & Ha). by eexists.
Qed.

Lemma next_seq_healthy s h b :
  script s = [] -> (forall b, t_books (work s) !! b = match length (book_log b h) with O => None | n => Some (Int (Z.of_nat n)) end) ->
  let n := 1 + Z.of_nat (length (book_log b h)) in
  match next_seq b s with
  | (Done q, s') => q = n /\ n <= i64_max /\ s' = set_work (with_books (<[b := Int n]> (t_books (work s))) (work s)) s
  | (Fail _, _) => False
  | (Panicked, _) => ~ n <= i64_max
  end.
Proof.
  intros Hs Hb n. unfold next_seq, sq_bind. rewrite stmt_healthy by done. rewrite Hb.
  assert (match (match length (book_log b h) with O => None | S _ => Some (Int (Z.of_nat (length (book_log b h)))) end) with
          | None => Int 1 | Some c => sql_add c (Int 1) end = cell n) as Hc.
  { unfold n. destruct (length (book_log b h)) eqn:E; [done|]. cbn [sql_add]. f_equal. lia. }
  assert (match (match length (book_log b h) with 0%nat => None | S n0 => Some (Int (Z.of_nat (S n0))) end) with
          | None => Int 1 | Some c => sql_add c (Int 1) end = cell n) as Hc'.
  { rewrite <- Hc. by destruct (length (book_log b h)). }
  rewrite Hc'. unfold cell, in_i64. destruct ((i64_min <=? n) && (n <=? i64_max)) eqn:E; cbn.
  - bool_to_prop. done.
  - intros Hn. apply andb_false_iff in E as [E|E]; bool_to_prop; [unfold i64_min in E|]; lia.
Qed.

Lemma delta_in_range L0 ps key : foldable L0 ps -> in_i64 (delta_of key ps) = true.
Proof. intros [_ Hf]. specialize (Hf (length ps) key). by rewrite take_ge in Hf. Qed.

(** The balance the upsert returns. *)
Lemma upserted_cell h ps seq key p :
  foldable (account_row_of h) ps -> pending_of (account_row_of h) ps key = Some p ->
  ba_balance (upserted seq p (balance_row h key)) = cell (balance_of h key + delta_of key ps).
Proof.
  intros Hf (q & row & _ & _ & ->)%pending_of_inv. unfold upserted, balance_row.
  destruct (last (account_rows key h)) as [r|] eqn:El; cbn; [done|].
  apply last_None in El. unfold balance_of. rewrite El. cbn. rewrite cell_Int; [done|]. by eapply delta_in_range.
Qed.

Lemma pending_touched L0 ps l p : pending_list L0 ps l -> foldable L0 ps -> p ∈ ps ->
  exists e, e ∈ l /\ pd_key e = to_key (p_account p) /\ pending_of L0 ps (to_key (p_account p)) = Some e.
Proof.
  intros Hl Hf Hp. destruct (pending_of L0 ps (to_key (p_account p))) as [e|] eqn:E.
  - exists e. pose proof (pending_of_key _ _ _ _ E) as Hk. split; [|done]. apply (pl_elem _ _ _ Hl). by rewrite Hk.
  - apply pending_none in E; [|done]. assert (p ∈ of_key (to_key (p_account p)) ps) as Hin by (by apply of_key_elem).
    rewrite E in Hin. by apply elem_of_nil in Hin.
Qed.

Lemma pending_posting L0 ps l e : pending_list L0 ps l -> e ∈ l ->
  exists p, p ∈ ps /\ to_key (p_account p) = pd_key e /\ pending_of L0 ps (pd_key e) = Some e.
Proof.
  intros Hl He. apply (pl_elem _ _ _ Hl) in He as He'. pose proof He' as Hp.
  apply pending_of_inv in Hp as (p & row & Hh%head_elem%of_key_elem & _). exists p. naive_solver.
Qed.

(** The new raw balance of an account of the transaction. *)
Definition new_balance (h : list Entry) (ps : list Posting) (key : string) : Z := balance_of h key + delta_of key ps.

(** The balances of a connection are a history's. *)
Record balances_of (h : list Entry) (s : Conn) : Prop := {
  bo_healthy : script s = [];
  bo_balances : forall key, t_balances (work s) !! key = balance_row h key;
  bo_accounts : forall key, decode_account <$> t_accounts (work s) !! key = account_row_of h key
}.

(** The upsert and its returned rows. *)
Definition upsert_phase (seq : Seq) (l : list Pending) : sq (list (string * Z)) :=
  let& rows := stmt (fun t => let? _ := push_values 4 (length l) in upsert_balances seq l t) in
  get_rows rows.

Section upsert.
Variable h : list Entry.
Variable ps : list Posting.
Variable l : list Pending.
Hypothesis Hf : foldable (account_row_of h) ps.
Hypothesis Hl : pending_list (account_row_of h) ps l.

Lemma pending_nonempty : l = [] <-> ps = [].
Proof.
  split; intros He.
  - destruct ps as [|p rest]; [done|]. destruct (pending_touched _ _ _ p Hl Hf) as (e & Hin & _); [by left|].
    rewrite He in Hin. by apply elem_of_nil in Hin.
  - pose proof (pl_length _ _ _ Hl) as Hlen. rewrite He in Hlen. by destruct l; cbn in Hlen; [|lia].
Qed.

Lemma upsert_phase_healthy seq s :
  balances_of h s ->
  match upsert_phase seq l s with
  | (Done zs, s') => ps <> [] /\
      (forall e, e ∈ l -> in_i64 (new_balance h ps (pd_key e)) = true /\
         (list_to_map zs : gmap string Z) !! pd_key e = Some (new_balance h ps (pd_key e))) /\
      exists b, s' = set_work (with_balances b (work s)) s /\
        (forall key p, pending_of (account_row_of h) ps key = Some p -> b !! key = Some (upserted seq p (balance_row h key))) /\
        (forall key, of_key key ps = [] -> b !! key = balance_row h key)
  | (Fail _, _) => ps = [] \/ MAX_VARIABLES < 4 * Z.of_nat (length ps)
  | (Panicked, _) => exists e, e ∈ l /\ in_i64 (new_balance h ps (pd_key e)) = false
  end.
Proof using Hf Hl.
  intros [Hs Hbal Hacc].
  assert (forall e, e ∈ l -> is_Some (t_accounts (work s) !! pd_key e)) as Hin.
  { intros e He. apply (pl_elem _ _ _ Hl), pending_of_inv in He as (_ & row & _ & Hr & _). rewrite <- Hacc in Hr.
    destruct (t_accounts (work s) !! pd_key e); [eauto|done]. }
  unfold upsert_phase, sq_bind. rewrite stmt_healthy by done. unfold push_values.
  destruct ((length l =? 0)%nat) eqn:E0; cbn beta iota zeta; bool_to_prop.
  { left. apply pending_nonempty. by destruct l. }
  destruct (MAX_VARIABLES <? Z.of_nat (4 * length l)) eqn:E4; bool_to_prop.
  { right. pose proof (pl_length _ _ _ Hl). lia. }
  destruct (upsert_balances_spec seq l (work s) (pl_nodup _ _ _ Hl) Hin) as (b & -> & Hbin & Hbout).
  assert (map (fun p => (pd_key p, ba_balance (upserted seq p (t_balances (work s) !! pd_key p)))) l =
    map (fun p => (pd_key p, cell (new_balance h ps (pd_key p)))) l) as ->.
  { apply map_ext_in. intros e He%list_elem_of_In. rewrite Hbal. f_equal. apply upserted_cell; [done|]. by apply (pl_elem _ _ _ Hl). }
  set (rows := map _ l). pose proof (get_rows_spec rows (set_work (with_balances b (work s)) s)) as Hg.
  destruct (get_rows rows _) as [[zs|err|] s1]; [|done|].
  2: { destruct Hg as (_ & k & (e & Hke & He)%list_elem_of_fmap). injection Hke as -> Hreal. exists e. split; [done|].
    unfold cell in Hreal. by destruct (in_i64 _). }
  destruct Hg as [-> Hrows]. split; [intros Hnil; by rewrite (proj2 pending_nonempty Hnil) in E0|]. split.
  - intros e He. assert ((pd_key e, cell (new_balance h ps (pd_key e))) ∈ rows) as Hr
      by (by apply (list_elem_of_fmap_2 (fun p => (pd_key p, cell (new_balance h ps (pd_key p)))))).
    rewrite Hrows in Hr. apply list_elem_of_fmap in Hr as ([k z] & Hkz & Hz). cbn in Hkz. injection Hkz as -> Hc.
    apply cell_inv in Hc as [<- Hc]. split; [done|]. apply elem_of_list_to_map_1; [|done].
    change (NoDup (map fst zs)). assert (map fst zs = map pd_key l) as ->; [|apply Hl].
    apply (f_equal (map fst)) in Hrows. unfold rows in Hrows. rewrite !map_map in Hrows. by cbn in Hrows.
  - exists b. split; [done|]. split.
    + intros key p Hp. pose proof (pending_of_key _ _ _ _ Hp) as Hk. subst key. rewrite Hbin; [by rewrite Hbal|]. by apply (pl_elem _ _ _ Hl).
    + intros key Hk. rewrite Hbout; [done|]. intros (e & -> & He)%list_elem_of_fmap.
      destruct (pending_posting _ _ _ _ Hl He) as (p & Hp & Hpk & _).
      assert (p ∈ of_key (pd_key e) ps) as Hin' by (by apply of_key_elem). rewrite Hk in Hin'. by apply elem_of_nil in Hin'.
Qed.

(** What an account of the transaction asks of its new balance. *)
Lemma pending_config e : e ∈ l -> exists p def cfg, p ∈ ps /\ to_key (p_account p) = pd_key e /\
  opened h (to_key (p_account p)) = Some (def, cfg) /\ pd_normal_side e = normal_side cfg /\ pd_min_balance e = min_balance cfg.
Proof using Hl.
  intros He. destruct (pending_posting _ _ _ _ Hl He) as (p & Hp & Hk & Hpe). apply pending_of_inv in Hpe as (q & row & _ & Hrow & Heq).
  unfold account_row_of in Hrow. rewrite <- Hk in Hrow. destruct (opened h (to_key (p_account p))) as [[def cfg]|] eqn:Ho; [|done].
  injection Hrow as <-. exists p, def, cfg. split_and!; [done..| |]; by rewrite Heq.
Qed.

Lemma check_phase zs :
  (forall e, e ∈ l -> (list_to_map zs : gmap string Z) !! pd_key e = Some (new_balance h ps (pd_key e))) ->
  let mins := forall p def cfg m, p ∈ ps -> opened h (to_key (p_account p)) = Some (def, cfg) -> min_balance cfg = Some m ->
    m <= effective (new_balance h ps (to_key (p_account p))) (normal_side cfg) in
  match check_min_balances (list_to_map zs) l with Ok _ => mins | Err _ => ~ mins end.
Proof using Hf Hl.
  intros Hz mins. pose proof (check_min_balances_spec (list_to_map zs) l) as Hmin.
  destruct (check_min_balances (list_to_map zs) l) as [[]|err].
  - intros p def cfg m Hp Ho Hm. destruct (pending_touched _ _ _ p Hl Hf Hp) as (e & He & Hk & _).
    destruct (pending_config e He) as (p' & def' & cfg' & _ & Hk' & Ho' & Hside & Hm'). rewrite Hk', Hk, Ho in Ho'. injection Ho' as <- <-.
    rewrite <- Hk, <- Hside. apply (Hmin ltac:(intros; eauto) e _ m He (Hz e He)). congruence.
  - intros Hall. destruct (Hmin ltac:(intros; eauto)) as (e & raw & m & He & Hr & Hm & Hlt).
    rewrite (Hz e He) in Hr. injection Hr as <-. destruct (pending_config e He) as (p & def & cfg & Hp & Hk & Ho & Hside & Hm').
    specialize (Hall p def cfg m Hp Ho ltac:(congruence)). rewrite Hk, <- Hside in Hall. lia.
Qed.
End upsert.

(** ** The rows *)

Definition rows_phase (tx : Transaction) (seq : Seq) (at_ : DateTime) : sq unit :=
  let& external_refs := lift_std (to_vec (tx_external_refs tx)) in
  let& _ := stmt (insert_transaction
    (mkTransactionRow (uuid_text (tx_id tx)) (tx_book tx) seq (tx_idem tx) (tx_occurred_at tx) at_ (tx_metadata tx) external_refs)) in
  let& _ := stmt (fun t =>
    let? _ := push_values 9 (length (tx_postings tx)) in
    insert_postings (imap (posting_row tx seq at_) (tx_postings tx)) t) in
  insert_event (tx_book tx) seq at_ (TransactionPosted tx).

Lemma existsb_false {A} (f : A -> bool) l : (forall x, x ∈ l -> f x = false) -> existsb f l = false.
Proof.
  intros Hf. apply not_true_iff_false. intros (x & Hx%list_elem_of_In & Ht)%existsb_exists. by rewrite Hf in Ht.
Qed.

Lemma transaction_pk_spec h tx seq at_ refs :
  prior h (tx_book tx) (tx_idem tx) = None ->
  existsb (transaction_pk (mkTransactionRow (uuid_text (tx_id tx)) (tx_book tx) seq (tx_idem tx) (tx_occurred_at tx) at_ (tx_metadata tx) refs))
    (all_transactions h) = bool_decide (uuid_text (tx_id tx) ∈ map tr_tx_id (all_transactions h)).
Proof.
  intros Hp%prior_None. case_bool_decide as Hin.
  - apply existsb_exists. apply list_elem_of_fmap in Hin as (r & Hr & Hin). exists r. split; [by apply list_elem_of_In|].
    unfold transaction_pk. cbn. by rewrite Hr, String.eqb_refl.
  - apply existsb_false. intros r Hr. unfold transaction_pk. cbn. apply orb_false_iff. split.
    + apply String.eqb_neq. intros He. apply Hin. rewrite <- He. by apply (list_elem_of_fmap_2 tr_tx_id).
    + apply andb_false_iff. destruct (String.eqb_spec (tr_book r) (tx_book tx)) as [Hb|]; [right|by left].
      apply String.eqb_neq. intros He. apply Hp. rewrite <- Hb, <- He. by apply (list_elem_of_fmap_2 (fun r => (tr_book r, tr_idempotency_key r))).
Qed.

(** Sequence numbers of a book's rows are below the next one. *)
Lemma event_pk_fresh h b at_ ev : history_ok h ->
  existsb (event_pk b (en_seq (next_entry h b at_ ev))) (map event_row h) = false.
Proof.
  intros Hh. apply existsb_false. intros r (e & -> & He)%list_elem_of_fmap. unfold event_pk, event_row. cbn.
  apply andb_false_iff. destruct (String.eqb_spec (en_book e) b) as [Hb|]; [right|by left]. apply Z.eqb_neq.
  assert (e ∈ book_log b h) as [i Hi]%list_elem_of_lookup by (by apply list_elem_of_filter).
  rewrite (ho_gapless _ Hh b i e Hi). apply lookup_lt_Some in Hi. lia.
Qed.

Lemma posting_txid h r : r ∈ all_postings h -> po_tx_id r ∈ map tr_tx_id (all_transactions h).
Proof.
  intros Hr. unfold all_postings in Hr. apply list_elem_of_In, in_concat in Hr as (l & (e & <- & He)%in_map_iff & Hin).
  apply list_elem_of_In in He, Hin. unfold posting_rows in Hin. destruct (en_event e) as [| |tx] eqn:Eev; [by apply elem_of_nil in Hin..|].
  apply list_elem_of_fmap. assert (transaction_row e = Some (mkTransactionRow (uuid_text (tx_id tx)) (en_book e) (en_seq e) (tx_idem tx)
    (tx_occurred_at tx) (en_at e) (tx_metadata tx) (refs_of (tx_external_refs tx)))) as Hrow by (unfold transaction_row; by rewrite Eev).
  eexists. split; [|apply list_elem_of_omap; exists e; split; [exact He|exact Hrow]]. cbn.
  apply list_elem_of_lookup in Hin as [i Hi]. rewrite list_lookup_imap in Hi. destruct (tx_postings tx !! i); [|done]. by injection Hi as <-.
Qed.

Lemma rows_phase_healthy h tx s at_ (e := posted h tx at_) :
  script s = [] -> history_ok h -> t_transactions (work s) = all_transactions h -> t_postings (work s) = all_postings h ->
  t_events (work s) = map event_row h ->
  (forall p, p ∈ tx_postings tx -> is_Some (t_accounts (work s) !! to_key (p_account p))) ->
  prior h (tx_book tx) (tx_idem tx) = None ->
  match rows_phase tx (en_seq e) at_ s with
  | (Done _, s') =>
      9 * Z.of_nat (length (tx_postings tx)) <= MAX_VARIABLES /\ uuid_text (tx_id tx) ∉ map tr_tx_id (all_transactions h) /\
      is_ok (to_vec (TransactionPosted tx)) = true /\ is_ok (to_vec (tx_external_refs tx)) = true /\
      s' = set_work (with_events (map event_row (h ++ [e])) (with_postings (all_postings (h ++ [e]))
             (with_transactions (all_transactions (h ++ [e])) (work s)))) s
  | _ => ~ acceptable h tx
  end.
Proof.
  intros Hs Hh Ht Hp Hev Hacc Hprior. rewrite all_postings_snoc, all_transactions_snoc, map_app. cbn [map transaction_row posted next_entry e en_event en_book en_seq en_at].
  unfold rows_phase, sq_bind, refs_of. destruct (to_vec (tx_external_refs tx)) as [refs|m] eqn:Er; cbn [lift_std sq_ret].
  2: { intros Hac. pose proof (ac_encoded _ _ Hac) as [_ He]. by rewrite Er in He. }
  rewrite stmt_healthy by done. unfold insert_transaction. rewrite Ht, transaction_pk_spec by done.
  case_bool_decide as Hfresh; [intros Hac; by apply (ac_fresh _ _ Hac)|].
  rewrite stmt_healthy by done. unfold push_values. cbn [work set_work].
  destruct (length (tx_postings tx) =? 0)%nat eqn:E0; [intros Hac; pose proof (ac_count _ _ Hac); bool_to_prop; lia|].
  destruct (MAX_VARIABLES <? Z.of_nat (9 * length (tx_postings tx))) eqn:E9; [intros Hac; pose proof (ac_count _ _ Hac); bool_to_prop; lia|].
  bool_to_prop. rewrite insert_postings_spec; cbn [t_accounts t_transactions t_postings with_transactions].
  2: { intros r (p & Hin & -> & _)%(posted_rows_elem h tx at_). by apply Hacc. }
  2: { intros r (p & _ & _ & _ & -> & _)%(posted_rows_elem h tx at_). eexists. split; [apply elem_of_app; right; by left|done]. }
  2: { rewrite Hp. intros r r' (p & _ & _ & _ & -> & _)%(posted_rows_elem h tx at_) Hr' He. apply Hfresh. rewrite <- He. by apply posting_txid. }
  2: { rewrite fmap_imap. rewrite (imap_ext _ (fun i _ => Z.of_nat i)) by done. apply NoDup_alt. intros i j x.
    rewrite !list_lookup_imap. destruct (tx_postings tx !! i), (tx_postings tx !! j); cbn; intros; simplify_eq; lia. }
  unfold insert_event, sq_bind, payload_of. destruct (to_vec (TransactionPosted tx)) as [pl|m] eqn:Ee; cbn [lift_std sq_ret].
  2: { intros Hac. pose proof (ac_encoded _ _ Hac) as [He _]. by rewrite Ee in He. }
  rewrite stmt_healthy by done. cbn [work set_work t_events with_postings with_transactions]. rewrite Hev.
  fold (posted h tx at_). pose proof (event_pk_fresh h (tx_book tx) at_ (TransactionPosted tx) Hh) as Hpk. cbn [en_seq next_entry] in Hpk.
  rewrite Hpk. split_and!; [lia|done..|]. unfold set_work, with_events, with_postings, with_transactions. cbn. unfold refs_of, payload_of.
  unfold event_row, payload_of. cbn. by rewrite Hp, Ee.
Qed.

(** *** The tables with one more transaction *)

Lemma db_ok_posted t t' h tx at_ (e := posted h tx at_) :
  db_ok t h -> postable h tx -> prior h (tx_book tx) (tx_idem tx) = None ->
  t_events t' = t_events t ++ [event_row e] ->
  t_transactions t' = all_transactions (h ++ [e]) -> t_postings t' = all_postings (h ++ [e]) ->
  t_assets t' = t_assets t -> t_accounts t' = t_accounts t ->
  t_books t' = <[tx_book tx := Int (en_seq e)]> (t_books t) ->
  (forall key p, pending_of (account_row_of h) (tx_postings tx) key = Some p ->
     t_balances t' !! key = Some (upserted (en_seq e) p (balance_row h key))) ->
  (forall key, of_key key (tx_postings tx) = [] -> t_balances t' !! key = balance_row h key) ->
  db_ok t' (h ++ [e]).
Proof.
  intros Hdb Hac Hprior Hev Htx Hpo Has Hacc Hbk Hin Hout.
  assert (foldable (account_row_of h) (tx_postings tx)) as Hf by (apply foldable_history; split; apply Hac). split.
  - by rewrite Hev, (do_events _ _ Hdb), map_app.
  - done.
  - done.
  - intros id. rewrite Has, (do_assets _ _ Hdb), registered_snoc. by destruct (registered h id).
  - intros key. rewrite Hacc, (do_accounts _ _ Hdb), opened_snoc. by destruct (opened h key).
  - intros b'. rewrite Hbk. apply (books_snoc t h (tx_book tx) at_ (TransactionPosted tx) (do_books _ _ Hdb)).
  - intros key. destruct (pending_of (account_row_of h) (tx_postings tx) key) as [p|] eqn:Ep.
    + rewrite (Hin key p Ep). by apply balance_row_posted; [apply Hdb| |].
    + apply pending_none in Ep; [|done]. rewrite Hout by done. symmetry. by apply balance_row_untouched.
  - apply history_ok_post; [apply Hdb|done..].
Qed.

(** ** [write_transaction] and [commit_draft] *)

(** A draft's turn: the clock is read once, the work is the new tables. *)
Definition drafted (t : Tables) (s : Conn) : Conn :=
  mkConn (committed s) t (saves s) (script s) (clock s) (S (tick s)) (woken s).

Definition now (s : Conn) : DateTime := clock s (tick s) / 1000 * 1000.

Lemma write_phases tx l s :
  write_transaction tx l s =
  (let& seq := next_seq (tx_book tx) in
   let& at_ := ledger_now in
   let& zs := upsert_phase seq l in
   let& _ := lift_db (check_min_balances (list_to_map zs) l) in
   let& _ := rows_phase tx seq at_ in
   sq_ret (mkCommitted (tx_id tx) seq at_)) s.
Proof.
  unfold write_transaction, upsert_phase, rows_phase, sq_bind.
  repeat (case_match; simplify_eq; try done).
Qed.

Lemma write_healthy h tx l s (e := posted h tx (now s)) :
  script s = [] -> db_ok (work s) h -> foldable (account_row_of h) (tx_postings tx) ->
  pending_list (account_row_of h) (tx_postings tx) l -> prior h (tx_book tx) (tx_idem tx) = None ->
  match write_transaction tx l s with
  | (Done c, s') => acceptable h tx /\ committed_of e = Some c /\ exists t, s' = drafted t s /\ db_ok t (h ++ [e])
  | _ => ~ acceptable h tx
  end.
Proof.
  intros Hs Hdb Hf Hl Hprior. rewrite write_phases. unfold sq_bind at 1.
  pose proof (next_seq_healthy s h (tx_book tx) Hs (do_books _ _ Hdb)) as Hseq. cbn zeta in Hseq.
  destruct (next_seq (tx_book tx) s) as [[q|err|] s1]; [|done|intros Hac; pose proof (ac_seq _ _ Hac); lia].
  destruct Hseq as (-> & Hmax & ->). unfold sq_bind at 1. cbn [ledger_now].
  change (1 + Z.of_nat (length (book_log (tx_book tx) h))) with (en_seq e).
  set (s2 := mkConn _ _ _ _ _ _ _). change (clock _ _ / 1000 * 1000) with (now s).
  assert (balances_of h s2) as Hbo.
  { split; [done|apply Hdb|]. intros key. apply (accounts_in_history s h key Hdb). }
  unfold sq_bind at 1. pose proof (upsert_phase_healthy h (tx_postings tx) l Hf Hl (en_seq e) s2 Hbo) as Hup.
  destruct (upsert_phase (en_seq e) l s2) as [[zs|err|] s3].
  2: { intros Hac. pose proof (ac_count _ _ Hac) as Hc. destruct Hup as [Hnil|]; [rewrite Hnil in Hc; cbn in Hc|]; lia. }
  2: { destruct Hup as (p & Hp & Hr). intros Hac. destruct (pending_posting _ _ _ _ Hl Hp) as (q & Hq & Hk & _).
    pose proof (ac_range _ _ Hac q Hq) as Hr'. cbn zeta in Hr'. rewrite Hk in Hr'. unfold new_balance in Hr. congruence. }
  destruct Hup as (Hne & Hzs & b & -> & Hbin & Hbout). unfold sq_bind at 1.
  pose proof (check_phase h (tx_postings tx) l Hf Hl zs (fun x Hx => proj2 (Hzs x Hx))) as Hchk. cbn zeta in Hchk.
  destruct (check_min_balances (list_to_map zs) l) as [u|err]; cbn [lift_db sq_ret]; [|intros Hac; apply Hchk; apply (ac_min _ _ Hac)].
  set (s4 := set_work _ _). unfold sq_bind.
  pose proof (rows_phase_healthy h tx s4 (now s) Hs (do_history _ _ Hdb) (do_transactions _ _ Hdb) (do_postings _ _ Hdb) (do_events _ _ Hdb)) as Hrows.
  apply foldable_history in Hf as Hf'. destruct Hf' as [Hopen Hdeltas].
  specialize (Hrows ltac:(intros p Hp; cbn; rewrite (do_accounts _ _ Hdb); destruct (Hopen p Hp) as (def & cfg & -> & _); eauto) Hprior).
  fold e in Hrows. destruct (rows_phase tx (en_seq e) (now s) s4) as [[u'|err|] s5]; [|done..].
  destruct Hrows as (Hcount & Hfresh & Henc & Hrefs & ->).
  assert (acceptable h tx) as Hac.
  { split; [split; [done|done| |done|done| |done]|].
    - intros p Hp. destruct (pending_touched _ _ _ p Hl Hf Hp) as (x & Hx & <- & _). by apply Hzs.
    - unfold i64_max in *. lia.
    - destruct (tx_postings tx); [done|]. cbn [length] in *. lia. }
  split; [done|]. split; [done|]. eexists. split; [unfold drafted; cbn; reflexivity|].
  apply (db_ok_posted (work s)); try done; [apply Hac|]. rewrite (do_events _ _ Hdb). by cbn; rewrite map_app.
Qed.
End commit.
