(* ===== verification/SqliteHistory.v ===== *)
(** The writes of the SQLite store against the history
    (talea-store-sqlite/src/lib.rs): [commit], [commit_batch], [open_account]
    and [register_asset] append the event they report or leave the history
    alone, on a backend that fails at any statement as on one that does not. *)

From S2P Require Import Prelude Core Disk Sql Sqlite SqliteSpec SqliteCommit.
Open Scope Z_scope.

Section history.
Context `{HashIterLaws} `{UuidTextLaws} `{Json LedgerEvent} `{Json (list ExternalRef)}.

(** ** The answer recorded for a key *)

Lemma find_transaction_row h book idem :
  List.find (fun r => String.eqb (tr_book r) book && String.eqb (tr_idempotency_key r) idem) (all_transactions h) =
  (e ← prior h book idem; transaction_row e).
Proof.
  induction h as [|e h IH]; [done|]. unfold all_transactions, prior in *. cbn [omap list_omap List.find]. unfold transaction_row at 1.
  destruct (en_event e) as [| |tx] eqn:Eev; [done..|]. cbn [List.find tr_book tr_idempotency_key].
  destruct (_ && _); [|done]. cbn. unfold transaction_row. by rewrite Eev.
Qed.

Lemma prior_posts h book idem e : prior h book idem = Some e ->
  exists tx, en_event e = TransactionPosted tx /\ en_book e = book /\ tx_idem tx = idem /\ e ∈ h.
Proof.
  intros Hp. unfold prior in Hp. apply List.find_some in Hp as [Hin Hk]. cbn in Hk. apply list_elem_of_In in Hin.
  destruct (en_event e) as [| |tx]; [done..|]. bool_to_prop. by exists tx.
Qed.

Lemma prior_app h evs book idem : prior (h ++ evs) book idem = match prior h book idem with Some e => Some e | None => prior evs book idem end.
Proof. unfold prior. induction h as [|e h IH]; [done|]. cbn. destruct (en_event e); [done..|]. by destruct (_ && _). Qed.

Lemma prior_posted h tx at_ : prior h (tx_book tx) (tx_idem tx) = None ->
  prior (h ++ [posted h tx at_]) (tx_book tx) (tx_idem tx) = Some (posted h tx at_).
Proof. intros Hp. rewrite prior_app, Hp. cbn. by rewrite !String.eqb_refl. Qed.

Lemma find_committed_healthy h s book idem :
  script s = [] -> t_transactions (work s) = all_transactions h ->
  find_committed book idem s = (Done (e ← prior h book idem; committed_of e), s).
Proof.
  intros Hs Ht. unfold find_committed, sq_bind. rewrite stmt_healthy by done. rewrite Ht, find_transaction_row.
  replace (set_work (work s) s) with s by (by destruct s).
  destruct (prior h book idem) as [e|] eqn:Ep; cbn; [|done].
  destruct (prior_posts _ _ _ _ Ep) as (tx & Hev & _). unfold transaction_row, committed_of. rewrite Hev. cbn.
  by rewrite parse_uuid_text.
Qed.

(** ** A draft *)

(** What a draft does to a history: the recorded answer, the next event of
    its book, or nothing, given what the store accepts. *)
Inductive draft_spec_by (accept : list Entry -> Transaction -> Prop) (h : list Entry) (tx : Transaction) (at_ : DateTime) :
    option Committed -> list Entry -> Prop :=
| spec_prior e c : prior h (tx_book tx) (tx_idem tx) = Some e -> committed_of e = Some c -> draft_spec_by accept h tx at_ (Some c) []
| spec_posted c : prior h (tx_book tx) (tx_idem tx) = None -> accept h tx -> committed_of (posted h tx at_) = Some c ->
    draft_spec_by accept h tx at_ (Some c) [posted h tx at_]
| spec_refused : prior h (tx_book tx) (tx_idem tx) = None -> ~ accept h tx -> draft_spec_by accept h tx at_ None [].

Definition draft_spec : list Entry -> Transaction -> DateTime -> option Committed -> list Entry -> Prop := draft_spec_by acceptable.

(** The answer of a success is on record. *)
Lemma draft_on_record accept h tx at_ c evs : draft_spec_by accept h tx at_ (Some c) evs ->
  exists e, prior (h ++ evs) (tx_book tx) (tx_idem tx) = Some e /\ committed_of e = Some c.
Proof.
  inversion 1; subst.
  - exists e. by rewrite app_nil_r.
  - eexists. split; [by apply prior_posted|done].
Qed.

Definition done_of {A} (o : outcome A) : option A := match o with Done a => Some a | _ => None end.

Lemma commit_draft_healthy h tx s :
  script s = [] -> db_ok (work s) h ->
  exists evs, draft_spec h tx (now s) (done_of (commit_draft tx s).1) evs /\
    (is_done (commit_draft tx s).1 = true ->
     (evs = [] /\ (commit_draft tx s).2 = s) \/ exists t, (commit_draft tx s).2 = drafted t s /\ db_ok t (h ++ evs)).
Proof.
  intros Hs Hdb. assert (commit_draft tx s = match (e ← prior h (tx_book tx) (tx_idem tx); committed_of e) with
    | Some c => (Done c, s) | None => (let& pending := load_pending tx in write_transaction tx pending) s end) as ->.
  { unfold commit_draft. unfold sq_bind at 1. rewrite (find_committed_healthy h) by (done || apply Hdb). by case_match. }
  destruct (prior h (tx_book tx) (tx_idem tx)) as [e|] eqn:Ep; cbn [mbind option_bind].
  { destruct (prior_posts _ _ _ _ Ep) as (tx0 & Hev & _). unfold committed_of. rewrite Hev. cbn. exists [].
    split; [|by left]. eapply spec_prior; [exact Ep|]. unfold committed_of. by rewrite Hev. }
  unfold sq_bind. pose proof (load_pending_healthy tx s Hs) as Hload.
  assert (forall ps, foldable (accounts_in s) ps <-> foldable (account_row_of h) ps) as Hfold.
  { intros ps. split; apply foldable_ext; intros p _; by rewrite (accounts_in_history s h _ Hdb). }
  destruct (load_pending tx s) as [[l|err|] s1]; [| |done]; destruct Hload as [-> Hload].
  - destruct Hload as [Hf Hl]. apply Hfold in Hf. assert (pending_list (account_row_of h) (tx_postings tx) l) as Hl'.
    { destruct Hl as [? Helem ?]. split; [done| |done]. intros x. rewrite Helem.
      by rewrite (pending_of_ext _ (account_row_of h)) by (intros; apply accounts_in_history; done). }
    pose proof (write_healthy h tx l s Hs Hdb Hf Hl' Ep) as Hw.
    destruct (write_transaction tx l s) as [[c|err|] s2]; cbn [done_of is_done fst snd].
    + destruct Hw as (Hac & Hc & t & -> & Hdb'). exists [posted h tx (now s)]. split; [by apply spec_posted|]. right. by exists t.
    + exists []. split; [by apply spec_refused|done].
    + exists []. split; [by apply spec_refused|done].
  - exists []. cbn. split; [|done]. apply spec_refused; [done|]. intros Hac. pose proof (ac_count _ _ Hac).
    apply Hload; [lia|]. apply Hfold, foldable_history. split; [apply Hac|apply Hac].
Qed.

(** *** ... and when statements fail *)

Lemma quiet_now : quiet ledger_now.
Proof. by intros s a s' [= <- <-]. Qed.
Lemma local_now : is_local ledger_now.
Proof. by intros s. Qed.
Lemma quiet_next_seq b : quiet (next_seq b).
Proof. unfold next_seq. auto with talea. Qed.
Lemma local_next_seq b : is_local (next_seq b).
Proof. unfold next_seq. auto with talea. Qed.
Lemma quiet_insert_event b q a ev : quiet (insert_event b q a ev).
Proof. unfold insert_event. auto with talea. Qed.
Lemma local_insert_event b q a ev : is_local (insert_event b q a ev).
Proof. unfold insert_event. auto with talea. Qed.
Lemma quiet_find b k : quiet (find_committed b k).
Proof. unfold find_committed. apply quiet_bind; [auto with talea|]. intros [r|]; auto with talea. Qed.
Lemma local_find b k : is_local (find_committed b k).
Proof. unfold find_committed. apply local_bind; [auto with talea|]. intros [r|]; auto with talea. Qed.
Lemma quiet_get_rows rows : quiet (get_rows rows).
Proof. induction rows as [|[k c] rows IH]; cbn [get_rows]; auto with talea. Qed.
Lemma local_get_rows rows : is_local (get_rows rows).
Proof. induction rows as [|[k c] rows IH]; cbn [get_rows]; auto with talea. Qed.
#[local] Hint Resolve quiet_now local_now quiet_next_seq local_next_seq quiet_insert_event local_insert_event quiet_find
  local_find quiet_get_rows local_get_rows : talea.

Lemma quiet_commit_draft tx : quiet (commit_draft tx).
Proof.
  unfold commit_draft. apply quiet_bind; [auto with talea|]. intros [c|]; [auto with talea|]. apply quiet_bind.
  - unfold load_pending, select_accounts. auto with talea.
  - intros l. unfold write_transaction. repeat (apply quiet_bind; [auto with talea|intros ?]). auto with talea.
Qed.

Lemma local_commit_draft tx : is_local (commit_draft tx).
Proof.
  unfold commit_draft. apply local_bind; [auto with talea|]. intros [c|]; [auto with talea|]. apply local_bind.
  - unfold load_pending, select_accounts. auto with talea.
  - intros l. unfold write_transaction. repeat (apply local_bind; [auto with talea|intros ?]). auto with talea.
Qed.

(** A draft that succeeds did what it says, whatever the backend did before. *)
Lemma commit_draft_sound h tx s c s' :
  db_ok (work s) h -> commit_draft tx s = (Done c, s') ->
  exists evs, draft_spec h tx (now s) (Some c) evs /\ db_ok (work s') (h ++ evs) /\ local s s'.
Proof.
  intros Hdb Hc. pose proof (local_commit_draft tx s) as Hlo. rewrite Hc in Hlo. apply quiet_commit_draft in Hc.
  destruct (commit_draft_healthy h tx (set_script [] s)) as (evs & Hspec & Hok); [done|done|]. rewrite Hc in Hspec, Hok.
  exists evs. split; [exact Hspec|]. split; [|done]. cbn [fst snd is_done] in Hok.
  destruct (Hok eq_refl) as [[-> Hs]|(t & Hs & Hdb')]; apply (f_equal work) in Hs; cbn in Hs; rewrite Hs; [by rewrite app_nil_r|done].
Qed.

(** ** [commit] *)

Lemma begin_Ok s u s1 : begin_stmt s = (Ok u, s1) ->
  work s1 = committed s /\ committed s1 = committed s /\ now s1 = now s /\ saves s1 = [] /\ (script s = [] -> script s1 = []) /\
  tick s1 = tick s /\ clock s1 = clock s /\ woken s1 = woken s.
Proof. unfold begin_stmt, reach. destruct (script s) as [|[f|] fs] eqn:E; intros [= <- <-]; done. Qed.

Lemma begin_committed s : committed (begin_stmt s).2 = committed s.
Proof. unfold begin_stmt, reach. by destruct (script s) as [|[f|] fs]. Qed.

Lemma commit_stmt_cases s :
  match commit_stmt s with
  | (Ok _, s') => committed s' = work s /\ work s' = work s
  | (Err _, s') => committed s' = committed s
  end.
Proof. unfold commit_stmt, reach. by destruct (script s) as [|[f|] fs]. Qed.

Lemma find_committed_sound h book idem s o s' :
  t_transactions (work s) = all_transactions h -> find_committed book idem s = (Done o, s') ->
  o = (e ← prior h book idem; committed_of e).
Proof.
  intros Ht Hf%quiet_find. rewrite (find_committed_healthy h) in Hf by done. congruence.
Qed.

(** The lookup after a lost race: it reads what is committed. *)
Lemma recovery_sound h tx e s :
  db_ok (committed s) h ->
  let m := (let& _ := checked begin_stmt in
            let& prior := find_committed (tx_book tx) (tx_idem tx) in
            match prior with Some prior => sq_ret prior | None => sq_fail e end) s in
  committed m.2 = committed s /\
  match m.1 with Done c => exists r, prior h (tx_book tx) (tx_idem tx) = Some r /\ committed_of r = Some c | _ => True end.
Proof.
  intros Hdb. cbn zeta. unfold sq_bind, checked. pose proof (begin_committed s) as Hbc.
  destruct (begin_stmt s) as [[u|err] s1] eqn:Eb; cbn in *; [|done].
  apply begin_Ok in Eb as (Hw & Hc & _). pose proof (local_find (tx_book tx) (tx_idem tx) s1) as Hlo.
  destruct (find_committed _ _ s1) as [[o|err|] s2] eqn:Ef; cbn in *;
    try (split; [by rewrite (lo_committed _ _ Hlo), Hc|done]).
  apply (find_committed_sound h) in Ef; [|rewrite Hw; apply Hdb].
  destruct o as [c|]; cbn; (split; [by rewrite (lo_committed _ _ Hlo), Hc|]); [|done].
  destruct (prior h (tx_book tx) (tx_idem tx)) as [r|]; [|done]. by exists r.
Qed.

(** A wake-up went out for every event. *)
Definition announced (evs : list Entry) (s : Conn) : Prop := forall e, e ∈ evs -> en_book e ∈ woken s.

Lemma announced_nil s : announced [] s.
Proof. by intros e ?%elem_of_nil. Qed.

Lemma commit_run h tx s :
  db_ok (committed s) h ->
  exists evs, db_ok (committed (commit tx s).2) (h ++ evs) /\ announced evs (commit tx s).2 /\
    match (commit tx s).1 with
    | Done c => draft_spec h tx (now s) (Some c) evs
    | _ => evs = []
    end.
Proof.
  intros Hdb. assert (db_ok (committed s) (h ++ [])) as Hdb0 by (by rewrite app_nil_r).
  destruct (commit tx s) as [r s'] eqn:Ec. cbn [fst snd]. unfold commit in Ec.
  assert (forall s1 : Conn, committed s1 = committed s -> r = Panicked \/ (exists e, r = Fail e) -> s1 = s' ->
    exists evs, db_ok (committed s') (h ++ evs) /\ announced evs s' /\ match r with Done c => draft_spec h tx (now s) (Some c) evs | _ => evs = [] end) as Hnone.
  { intros s1 Hc Hr <-. exists []. rewrite Hc. split; [done|]. split; [apply announced_nil|]. by destruct Hr as [->|[e ->]]. }
  destruct (is_reserved (tx_book tx)); [injection Ec as <- <-; eapply Hnone; eauto|].
  unfold sq_bind at 1, begin_write, checked at 1 in Ec. pose proof (begin_committed s) as Hbc.
  destruct (begin_stmt s) as [[u|err] s1] eqn:Eb; cbn [snd] in Hbc; [|injection Ec as <- <-; eapply Hnone; eauto].
  apply begin_Ok in Eb as (Hw1 & Hc1 & Hn1 & _). unfold sq_bind at 1, sq_try in Ec.
  pose proof (local_commit_draft tx s1) as Hlo. destruct (commit_draft tx s1) as [[c|err|] s2] eqn:Ed; cbn [snd] in Hlo;
    assert (committed s2 = committed s) as Hc2 by (by rewrite (lo_committed _ _ Hlo), Hc1).
  - apply (commit_draft_sound h) in Ed as (evs & Hspec & Hdb2 & _); [|by rewrite Hw1]. rewrite Hn1 in Hspec.
    unfold sq_bind, db_commit, checked in Ec. pose proof (commit_stmt_cases s2) as Hcs.
    destruct (commit_stmt s2) as [[u'|err] s3]; injection Ec as <- <-; [|eapply Hnone; [|eauto..]; congruence].
    destruct Hcs as [Hcs _]. exists evs. cbn. rewrite Hcs. split; [done|]. split; [|done].
    intros e He. apply elem_of_app. right. inversion Hspec; subst; [by apply elem_of_nil in He|]. apply list_elem_of_singleton in He as ->. by left.
  - destruct (is_unique_violation err); [|injection Ec as <- <-; eapply Hnone; eauto].
    destruct (recovery_sound h tx err s2) as [Hrc Hr]; [by rewrite Hc2|]. rewrite Ec in Hrc, Hr. cbn [fst snd] in Hrc, Hr.
    exists []. rewrite Hrc, Hc2. split; [done|]. split; [apply announced_nil|]. destruct r as [c| |]; [|done..].
    destruct Hr as (e & Hp & Hcm). by eapply spec_prior.
  - injection Ec as <- <-. eapply Hnone; eauto.
Qed.

Lemma commit_stmt_healthy s : script s = [] -> commit_stmt s = (Ok (), set_committed (work s) s).
Proof. intros Hs. unfold commit_stmt, reach. by rewrite Hs. Qed.
Lemma begin_healthy s : script s = [] -> begin_stmt s = (Ok (), set_saves [] (set_work (committed s) s)).
Proof. intros Hs. unfold begin_stmt, reach. by rewrite Hs. Qed.

Lemma commit_healthy h tx s :
  db_ok (committed s) h -> script s = [] -> is_reserved (tx_book tx) = false ->
  exists evs, draft_spec h tx (now s) (done_of (commit tx s).1) evs /\ db_ok (committed (commit tx s).2) (h ++ evs).
Proof.
  intros Hdb Hs Hres. destruct (commit tx s) as [r s'] eqn:Ec. cbn [fst snd]. unfold commit in Ec. rewrite Hres in Ec.
  unfold sq_bind at 1, begin_write, checked at 1 in Ec. rewrite begin_healthy in Ec by done.
  set (s1 := set_saves _ _) in *. destruct (commit_draft_healthy h tx s1 Hs Hdb) as (evs & Hspec & Hdone).
  change (now s1) with (now s) in Hspec. pose proof (local_commit_draft tx s1) as Hlo.
  unfold sq_bind at 1, sq_try in Ec. destruct (commit_draft tx s1) as [[c|err|] s2]; cbn [fst snd done_of is_done] in *.
  - assert (script s2 = [] /\ db_ok (work s2) (h ++ evs)) as [Hs2 Hdb2].
    { destruct (Hdone eq_refl) as [[-> ->]|(t & -> & Ht)]; [by rewrite app_nil_r|done]. }
    unfold sq_bind, db_commit, checked in Ec. rewrite commit_stmt_healthy in Ec by done. injection Ec as <- <-. by exists evs.
  - assert (committed s2 = committed s) as Hc2 by apply (lo_committed _ _ Hlo). inversion Hspec as [| |Hp Hn]; subst.
    exists []. rewrite app_nil_r. destruct (is_unique_violation err); [|injection Ec as <- <-; by rewrite Hc2].
    destruct (recovery_sound h tx err s2) as [Hrc Hr]; [by rewrite Hc2|]. rewrite Ec in Hrc, Hr. cbn [fst snd] in Hrc, Hr.
    rewrite Hrc, Hc2. split; [|done]. destruct r as [c| |]; [|done..]. destruct Hr as (e & Hp' & _). congruence.
  - injection Ec as <- <-. rewrite (lo_committed _ _ Hlo). inversion Hspec; subst. exists []. by rewrite app_nil_r.
Qed.


(** ** What a refused commit is answered

    On a backend that does not fail, every answer but a success names a fault
    of the transaction. *)

(** The first posting that cannot be taken, after [past]. *)
Inductive posting_refused (L0 : string -> option AccountRow) (past : list Posting) (p : Posting) : DbError -> Prop :=
| refused_account : L0 (to_key (p_account p)) = None -> posting_refused L0 past p (Plain (UnknownAccount (p_account p)))
| refused_asset row : L0 (to_key (p_account p)) = Some row -> row_asset row <> amount_asset (p_amount p) ->
    posting_refused L0 past p (Plain (AssetMismatch (p_account p) (row_asset row) (amount_asset (p_amount p))))
| refused_delta : in_i64 (delta_of (to_key (p_account p)) past + posting_delta p) = false ->
    posting_refused L0 past p (IoBox (OtherE ("posting delta overflow for account " +:+ to_key (p_account p)))).

Lemma posting_refused_ext L0 L1 past p e : L0 (to_key (p_account p)) = L1 (to_key (p_account p)) ->
  posting_refused L0 past p e -> posting_refused L1 past p e.
Proof. intros He [Hn|row Hr Ha|Hd]; [apply refused_account; congruence|apply refused_asset; congruence|by apply refused_delta]. Qed.

Lemma fold_posting_refused L0 past p loaded pending e :
  fold_inv L0 past loaded pending -> fold_posting p loaded pending = Err e -> posting_refused L0 past p e.
Proof.
  intros Hinv. unfold fold_posting. set (key := to_key (p_account p)).
  assert (forall en row (ld : gmap string AccountRow), L0 key = Some row -> pd_asset en = row_asset row -> pd_delta en = delta_of key past ->
    (if negb (bool_decide (pd_asset en = amount_asset (p_amount p)))
     then Err (Plain (AssetMismatch (p_account p) (pd_asset en) (amount_asset (p_amount p))))
     else match checked_add (pd_delta en) (posting_delta p) with
          | None => Err (IoBox (OtherE ("posting delta overflow for account " +:+ key)))
          | Some delta => Ok (ld, <[key := mkPending (pd_account en) (pd_asset en) (pd_normal_side en) (pd_min_balance en) delta]> pending)
          end) = Err e -> posting_refused L0 past p e) as Hturn.
  { intros en row ld Hr Ha Hd. destruct (bool_decide _) eqn:Eb; cbn [negb]; bool_to_prop.
    - unfold checked_add, checked_i64. rewrite Hd. destruct (in_i64 _) eqn:Ei; [done|]. intros [= <-]. by apply refused_delta.
    - intros [= <-]. rewrite Ha in *. by apply (refused_asset _ _ _ row). }
  rewrite (fi_pending _ _ _ _ Hinv). destruct (pending_of L0 past key) as [en|] eqn:Ep.
  - destruct (pending_of_inv _ _ _ _ Ep) as (p0 & row & _ & Hrow & Hen). apply (Hturn en row loaded Hrow); by subst en.
  - pose proof (pending_none _ _ _ (fi_ok _ _ _ _ Hinv) Ep) as Hnone.
    rewrite (fi_loaded _ _ _ _ Hinv). unfold loaded_of. rewrite Hnone. cbn [head].
    destruct (L0 key) as [row|] eqn:El; [|intros [= <-]; by apply refused_account].
    apply (Hturn (mkPending (p_account p) (row_asset row) (row_normal_side row) (row_min_balance row) 0) row (delete key loaded) eq_refl); [done|].
    unfold delta_of. fold (of_key key past). by rewrite Hnone.
Qed.

Lemma fold_pending_refused L0 e ps : forall past loaded pending,
  fold_inv L0 past loaded pending -> fold_pending ps loaded pending = Err e ->
  exists before p after, ps = before ++ p :: after /\ foldable L0 (past ++ before) /\ posting_refused L0 (past ++ before) p e.
Proof.
  induction ps as [|p ps IH]; intros past loaded pending Hinv; cbn [fold_pending]; [done|].
  pose proof (fold_posting_spec L0 past p loaded pending Hinv) as Hstep. pose proof (fold_posting_refused L0 past p loaded pending) as Hbad.
  destruct (fold_posting p loaded pending) as [[l q]|e'].
  - intros Hf. destruct (IH _ _ _ Hstep Hf) as (before & p' & after & -> & Hok & Hp'). exists (p :: before), p', after.
    rewrite <- app_assoc in Hok, Hp'. done.
  - intros [= <-]. exists [], p, ps. rewrite app_nil_r. split; [done|]. split; [apply Hinv|by apply Hbad].
Qed.

Lemma load_pending_refused tx s e s' :
  script s = [] -> load_pending tx s = (Fail e, s') ->
  e = io_err (SqlxE too_many_variables) /\ MAX_VARIABLES < Z.of_nat (length (tx_postings tx)) \/
  exists before p after, tx_postings tx = before ++ p :: after /\ foldable (accounts_in s) before /\ posting_refused (accounts_in s) before p e.
Proof.
  intros Hs. unfold load_pending, select_accounts, sq_bind. rewrite stmt_healthy by done. fold (posting_keys (tx_postings tx)).
  destruct (MAX_VARIABLES <? Z.of_nat (length (posting_keys (tx_postings tx)))) eqn:Emax.
  { intros [= <- <-]. left. split; [done|]. pose proof (posting_keys_length (tx_postings tx)). lia. }
  set (loaded := list_to_map _). set (L1 := fun k => loaded !! k).
  assert (forall p, p ∈ tx_postings tx -> L1 (to_key (p_account p)) = accounts_in s (to_key (p_account p))) as Hext.
  { intros p Hp%posting_keys_elem. unfold L1, loaded. rewrite select_lookup. by rewrite decide_True. }
  assert (fold_inv L1 [] loaded ∅) as Hinv.
  { split; [done| |]; [intros k; by rewrite lookup_empty|]. split; [constructor|]. intros n k. by rewrite take_nil. }
  pose proof (fun e0 => fold_pending_refused L1 e0 (tx_postings tx) [] loaded ∅ Hinv) as Hfold. cbn [app] in Hfold.
  destruct (fold_pending _ _ _) as [pend|e']; cbn; intros [= <- <-]. right.
  destruct (Hfold e' eq_refl) as (before & p & after & Hps & Hok & Hp). exists before, p, after. split; [done|]. split.
  - eapply foldable_ext; [|exact Hok]. intros q Hq. apply Hext. rewrite Hps. apply elem_of_app. by left.
  - eapply posting_refused_ext; [|exact Hp]. apply Hext. rewrite Hps. apply elem_of_app. right. by left.
Qed.

Lemma check_min_refused new_raw pending e :
  (forall p, p ∈ pending -> is_Some (new_raw !! pd_key p)) -> check_min_balances new_raw pending = Err e ->
  exists p raw m, p ∈ pending /\ new_raw !! pd_key p = Some raw /\ pd_min_balance p = Some m /\
    effective raw (pd_normal_side p) < m /\ e = Plain (ConstraintViolation (pd_account p) m (effective raw (pd_normal_side p))).
Proof.
  induction pending as [|p pending IH]; intros Hin; cbn [check_min_balances]; [done|].
  assert (check_min_balances new_raw pending = Err e -> exists q raw m, q ∈ p :: pending /\ new_raw !! pd_key q = Some raw /\
    pd_min_balance q = Some m /\ effective raw (pd_normal_side q) < m /\
    e = Plain (ConstraintViolation (pd_account q) m (effective raw (pd_normal_side q)))) as IH'.
  { intros Hc. destruct (IH ltac:(intros q Hq; apply Hin; by right) Hc) as (q & raw & m & ? & ?). exists q, raw, m. split; [by right|done]. }
  destruct (pd_min_balance p) as [m|] eqn:Em; [|done]. destruct (Hin p) as [raw Hraw]; [by left|]. fold (pd_key p). rewrite Hraw.
  destruct (effective raw (pd_normal_side p) <? m) eqn:El; [|done]. intros [= <-]. exists p, raw, m. split_and!; [by left|done|done|lia|done].
Qed.

(** What is wrong with a transaction, for each answer that is not a success. *)
Inductive refusal (h : list Entry) (tx : Transaction) : outcome Committed -> Prop :=
| refusal_posting before p after e : tx_postings tx = before ++ p :: after -> foldable (account_row_of h) before ->
    posting_refused (account_row_of h) before p e -> refusal h tx (Fail e)
| refusal_empty : tx_postings tx = [] -> refusal h tx (Fail (io_err (SqlxE syntax_error)))
| refusal_variables : MAX_VARIABLES < 9 * Z.of_nat (length (tx_postings tx)) -> refusal h tx (Fail (io_err (SqlxE too_many_variables)))
| refusal_minimum p def cfg m : foldable (account_row_of h) (tx_postings tx) ->
    p ∈ tx_postings tx -> opened h (to_key (p_account p)) = Some (def, cfg) -> min_balance cfg = Some m ->
    let would_be := effective (new_balance h (tx_postings tx) (to_key (p_account p))) (normal_side cfg) in
    would_be < m -> refusal h tx (Fail (Plain (ConstraintViolation (p_account p) m would_be)))
| refusal_known : uuid_text (tx_id tx) ∈ map tr_tx_id (all_transactions h) ->
    refusal h tx (Fail (io_err (SqlxE (UniqueConstraint "UNIQUE constraint failed: transactions"))))
| refusal_text m : to_vec (tx_external_refs tx) = Err m \/ to_vec (TransactionPosted tx) = Err m -> refusal h tx (Fail (io_err (OtherE m)))
| refusal_seq : i64_max <= Z.of_nat (length (book_log (tx_book tx) h)) -> refusal h tx Panicked
| refusal_range p : p ∈ tx_postings tx -> in_i64 (new_balance h (tx_postings tx) (to_key (p_account p))) = false -> refusal h tx Panicked.

Lemma upsert_phase_refused h ps l seq s e s' :
  pending_list (account_row_of h) ps l -> balances_of h s -> upsert_phase seq l s = (Fail e, s') ->
  l = [] /\ e = io_err (SqlxE syntax_error) \/ MAX_VARIABLES < 4 * Z.of_nat (length l) /\ e = io_err (SqlxE too_many_variables).
Proof.
  intros Hl [Hs Hbal Hacc]. unfold upsert_phase, sq_bind. rewrite stmt_healthy by done. unfold push_values.
  destruct ((length l =? 0)%nat) eqn:E0; cbn beta iota zeta; bool_to_prop; [intros [= <- <-]; left; by destruct l|].
  destruct (MAX_VARIABLES <? Z.of_nat (4 * length l)) eqn:E4; bool_to_prop; [intros [= <- <-]; right; split; [lia|done]|].
  assert (forall e, e ∈ l -> is_Some (t_accounts (work s) !! pd_key e)) as Hin.
  { intros x Hx. apply (pl_elem _ _ _ Hl), pending_of_inv in Hx as (_ & row & _ & Hr & _). rewrite <- Hacc in Hr.
    destruct (t_accounts (work s) !! pd_key x); [eauto|done]. }
  destruct (upsert_balances_spec seq l (work s) (pl_nodup _ _ _ Hl) Hin) as (b & -> & _).
  match goal with |- get_rows ?rows ?s1 = _ -> _ => pose proof (get_rows_spec rows s1) as Hg; destruct (get_rows rows s1) as [[]] end; done.
Qed.

Lemma rows_phase_refused h tx s at_ (e := posted h tx at_) o s' :
  script s = [] -> history_ok h -> t_transactions (work s) = all_transactions h -> t_postings (work s) = all_postings h ->
  t_events (work s) = map event_row h ->
  (forall p, p ∈ tx_postings tx -> is_Some (t_accounts (work s) !! to_key (p_account p))) ->
  prior h (tx_book tx) (tx_idem tx) = None ->
  rows_phase tx (en_seq e) at_ s = (o, s') ->
  match o with Done _ => True | Fail err => refusal h tx (Fail err) | Panicked => False end.
Proof.
  intros Hs Hh Ht Hp Hev Hacc Hprior. unfold rows_phase, sq_bind.
  destruct (to_vec (tx_external_refs tx)) as [refs|m] eqn:Er; cbn [lift_std sq_ret sq_fail]; [|intros [= <- <-]; eapply refusal_text; eauto].
  rewrite stmt_healthy by done. unfold insert_transaction. rewrite Ht, transaction_pk_spec by done.
  case_bool_decide as Hfresh; [intros [= <- <-]; by apply refusal_known|].
  rewrite stmt_healthy by done. unfold push_values. cbn [work set_work].
  destruct (length (tx_postings tx) =? 0)%nat eqn:E0; [intros [= <- <-]; apply refusal_empty; bool_to_prop; by destruct (tx_postings tx)|].
  destruct (MAX_VARIABLES <? Z.of_nat (9 * length (tx_postings tx))) eqn:E9; [intros [= <- <-]; apply refusal_variables; bool_to_prop; lia|].
  bool_to_prop. rewrite insert_postings_spec; cbn [t_accounts t_transactions t_postings with_transactions].
  2: { intros r (p & Hin & -> & _)%(posted_rows_elem h tx at_). by apply Hacc. }
  2: { intros r (p & _ & _ & _ & -> & _)%(posted_rows_elem h tx at_). eexists. split; [apply elem_of_app; right; by left|done]. }
  2: { rewrite Hp. intros r r' (p & _ & _ & _ & -> & _)%(posted_rows_elem h tx at_) Hr' He. apply Hfresh. rewrite <- He. by apply posting_txid. }
  2: { rewrite fmap_imap. rewrite (imap_ext _ (fun i _ => Z.of_nat i)) by done. apply NoDup_alt. intros i j x.
    rewrite !list_lookup_imap. destruct (tx_postings tx !! i), (tx_postings tx !! j); cbn; intros; simplify_eq; lia. }
  unfold insert_event, sq_bind. destruct (to_vec (TransactionPosted tx)) as [pl|m] eqn:Ee; cbn [lift_std sq_ret sq_fail];
    [|intros [= <- <-]; eapply refusal_text; eauto].
  rewrite stmt_healthy by done. cbn [work set_work t_events with_postings with_transactions]. rewrite Hev.
  pose proof (event_pk_fresh h (tx_book tx) at_ (TransactionPosted tx) Hh) as Hpk. cbn [en_seq next_entry] in Hpk.
  unfold e. cbn [posted next_entry en_seq]. rewrite Hpk. by intros [= <- <-].
Qed.

Lemma write_refused h tx l s o s' :
  script s = [] -> db_ok (work s) h -> foldable (account_row_of h) (tx_postings tx) ->
  pending_list (account_row_of h) (tx_postings tx) l -> prior h (tx_book tx) (tx_idem tx) = None ->
  write_transaction tx l s = (o, s') -> is_done o = false -> refusal h tx o.
Proof.
  intros Hs Hdb Hf Hl Hprior. rewrite write_phases. unfold sq_bind at 1.
  pose proof (next_seq_healthy s h (tx_book tx) Hs (do_books _ _ Hdb)) as Hseq. cbn zeta in Hseq.
  destruct (next_seq (tx_book tx) s) as [[q|err|] s1]; [|done|intros [= <- <-] _; apply refusal_seq; lia].
  destruct Hseq as (-> & _ & ->). unfold sq_bind at 1. cbn [ledger_now].
  set (s2 := mkConn _ _ _ _ _ _ _). change (clock _ _ / 1000 * 1000) with (now s).
  change (1 + Z.of_nat (length (book_log (tx_book tx) h))) with (en_seq (posted h tx (now s))). set (e := posted h tx (now s)).
  assert (balances_of h s2) as Hbo.
  { split; [done|apply Hdb|]. intros key. apply (accounts_in_history s h key Hdb). }
  unfold sq_bind at 1. pose proof (upsert_phase_healthy h (tx_postings tx) l Hf Hl (en_seq e) s2 Hbo) as Hup.
  pose proof (upsert_phase_refused h (tx_postings tx) l (en_seq e) s2) as Hbad.
  destruct (upsert_phase (en_seq e) l s2) as [[zs|err|] s3].
  2: { intros [= <- <-] _. destruct (Hbad _ _ Hl Hbo eq_refl) as [[-> ->]|[Hlen ->]].
    - apply refusal_empty. by apply (pending_nonempty h (tx_postings tx) [] Hf Hl).
    - apply refusal_variables. pose proof (pl_length _ _ _ Hl). lia. }
  2: { destruct Hup as (p & Hp & Hr). intros [= <- <-] _. destruct (pending_posting _ _ _ _ Hl Hp) as (q & Hq & Hk & _).
    apply (refusal_range _ _ q Hq). by rewrite Hk. }
  destruct Hup as (_ & Hzs & b & -> & _). unfold sq_bind at 1.
  pose proof (fun err => check_min_refused (list_to_map zs) l err) as Hchk.
  destruct (check_min_balances (list_to_map zs) l) as [u|err]; cbn [lift_db sq_ret sq_fail].
  2: { intros [= <- <-] _. destruct (Hchk err) as (x & raw & m & Hx & Hr & Hm & Hlt & ->); [|done|].
    { intros y Hy. destruct (Hzs y Hy) as [_ Hy']. eauto. }
    rewrite (proj2 (Hzs x Hx)) in Hr. injection Hr as <-.
    destruct (pending_config h (tx_postings tx) l Hl x Hx) as (p & def & cfg & Hp & Hk & Ho & Hside & Hm').
    unfold pd_key in Hk. pose proof (proj1 (to_key_injective _ _) Hk) as Ha. unfold pd_key in Hlt |- *. rewrite <- Ha, Hside in *.
    eapply refusal_minimum; eauto. congruence. }
  set (s4 := set_work _ _). unfold sq_bind. apply foldable_history in Hf as Hf'. destruct Hf' as [Hopen _].
  pose proof (fun o1 s6 => rows_phase_refused h tx s4 (now s) o1 s6 Hs (do_history _ _ Hdb) (do_transactions _ _ Hdb) (do_postings _ _ Hdb) (do_events _ _ Hdb)) as Hrows.
  cbn zeta in Hrows. fold e in Hrows. destruct (rows_phase tx (en_seq e) (now s) s4) as [o5 s5].
  specialize (Hrows o5 s5 ltac:(intros p Hp; cbn; rewrite (do_accounts _ _ Hdb); destruct (Hopen p Hp) as (def & cfg & -> & _); eauto) Hprior eq_refl).
  destruct o5 as [u'|err|]; [|by intros [= <- <-] _|done]. by intros [= <- <-].
Qed.

Lemma commit_draft_refused h tx s o s' :
  script s = [] -> db_ok (work s) h -> commit_draft tx s = (o, s') -> is_done o = false -> refusal h tx o.
Proof.
  intros Hs Hdb. unfold commit_draft. unfold sq_bind at 1. rewrite (find_committed_healthy h) by (done || apply Hdb).
  destruct (prior h (tx_book tx) (tx_idem tx)) as [e|] eqn:Ep; cbn [mbind option_bind].
  { destruct (prior_posts _ _ _ _ Ep) as (tx0 & Hev & _). unfold committed_of. rewrite Hev. by intros [= <- <-]. }
  unfold sq_bind. pose proof (load_pending_healthy tx s Hs) as Hload. pose proof (load_pending_refused tx s) as Hbad.
  assert (forall q : Posting, accounts_in s (to_key (p_account q)) = account_row_of h (to_key (p_account q))) as Hrow
    by (intros q; by apply accounts_in_history).
  destruct (load_pending tx s) as [[l|err|] s1]; [| |done]; destruct Hload as [-> Hload].
  - destruct Hload as [Hf Hl]. apply (write_refused h tx l s); [done..| | |done].
    + eapply foldable_ext; [|exact Hf]. intros p _. apply Hrow.
    + destruct Hl as [? Helem ?]. split; [done| |done]. intros x. rewrite Helem. by rewrite (pending_of_ext _ (account_row_of h)) by (intros; apply Hrow).
  - intros [= <- <-] _. destruct (Hbad _ _ Hs eq_refl) as [[-> Hlen]|(before & p & after & Hps & Hok & Hp)].
    + apply refusal_variables. lia.
    + apply (refusal_posting _ _ before p after); [done| |exact (posting_refused_ext _ _ _ _ _ (Hrow p) Hp)].
      eapply foldable_ext; [|exact Hok]. intros q _. apply Hrow.
Qed.

(** [commit] hands on what its draft was refused for. *)
Lemma commit_refused h tx s o s' :
  db_ok (committed s) h -> script s = [] -> is_reserved (tx_book tx) = false ->
  commit tx s = (o, s') -> is_done o = false -> refusal h tx o.
Proof.
  intros Hdb Hs Hres. unfold commit. rewrite Hres. unfold sq_bind at 1, begin_write, checked at 1. rewrite begin_healthy by done.
  set (s1 := set_saves _ _). pose proof (commit_draft_refused h tx s1) as Hd. pose proof (commit_draft_healthy h tx s1 Hs Hdb) as (evs & Hspec & Hdone).
  pose proof (local_commit_draft tx s1) as Hlo. assert (script s1 = []) as Hs1 by done. pose proof (lo_script _ _ Hlo Hs1) as Hs2.
  unfold sq_bind at 1, sq_try. destruct (commit_draft tx s1) as [[c|err|] s2]; cbn [fst snd done_of] in *.
  - unfold sq_bind, db_commit, checked. rewrite commit_stmt_healthy by done. cbn. intros [= <- <-]. done.
  - specialize (Hd (Fail err) s2 Hs Hdb eq_refl eq_refl). destruct (is_unique_violation err); [|by intros [= <- <-]].
    unfold sq_bind at 1, checked. rewrite begin_healthy by done. unfold sq_bind.
    rewrite (find_committed_healthy h); [|done|cbn; rewrite (lo_committed _ _ Hlo); apply Hdb].
    inversion Hspec as [| |Hp _]; subst. rewrite Hp. cbn. by intros [= <- <-].
  - intros [= <- <-] _. by apply (Hd Panicked s2).
Qed.

(** ** [register_asset] and [open_account] *)

(** An event that posts nothing, recorded by the body of an operation. *)
Lemma db_ok_plain t t0 h b at_ ev :
  db_ok t h -> is_ok (to_vec ev) = true ->
  match ev with
  | TransactionPosted _ => False
  | AccountOpened def _ => b = acct_book (acct_id def)
  | AssetRegistered d => b = SYSTEM_BOOK /\ 0 <= asset_precision d < 256
  end ->
  let e := next_entry h b at_ ev in
  t0 = with_events (t_events t ++ [event_row e]) (with_books (<[b := Int (en_seq e)]> (t_books t))
         (match ev with
          | AssetRegistered d => with_assets (<[asset_id d := asset_row d]> (t_assets t)) t
          | AccountOpened def cfg => with_accounts (<[to_key (acct_id def) := accounts_row def cfg]> (t_accounts t)) t
          | _ => t
          end)) ->
  match ev with
  | AssetRegistered d => t_assets t !! asset_id d = None
  | AccountOpened def _ => t_accounts t !! to_key (acct_id def) = None
  | _ => True
  end ->
  db_ok t0 (h ++ [e]).
Proof.
  intros Hdb Henc Hev e -> Hnew.
  assert (posting_rows e = [] /\ transaction_row e = None) as [Hp Ht] by (unfold e; destruct ev; done).
  assert (forall key, account_rows key (h ++ [e]) = account_rows key h) as Hrows.
  { intros key. rewrite account_rows_snoc, Hp. cbn. by rewrite app_nil_r. }
  split.
  - cbn. rewrite (do_events _ _ Hdb), map_app. done.
  - rewrite all_transactions_snoc, Ht, app_nil_r, <- (do_transactions _ _ Hdb). by destruct ev.
  - rewrite all_postings_snoc, Hp, app_nil_r, <- (do_postings _ _ Hdb). by destruct ev.
  - intros id. rewrite registered_snoc. unfold asset_of. destruct ev as [d|def cfg|tx]; cbn in *; [|rewrite (do_assets _ _ Hdb); by destruct (registered h id)..].
    rewrite (do_assets _ _ Hdb) in Hnew. case_decide as Hid; [subst id; rewrite lookup_insert_eq; by destruct (registered h _)|].
    rewrite lookup_insert_ne, (do_assets _ _ Hdb) by done. by destruct (registered h id).
  - intros key. rewrite opened_snoc. unfold account_of. destruct ev as [d|def cfg|tx]; cbn in *; [rewrite (do_accounts _ _ Hdb); by destruct (opened h key)| |done].
    rewrite (do_accounts _ _ Hdb) in Hnew. case_decide as Hid; [subst key; rewrite lookup_insert_eq; by destruct (opened h _)|].
    rewrite lookup_insert_ne, (do_accounts _ _ Hdb) by done. by destruct (opened h key).
  - intros b'. cbn [t_books with_events with_books]. apply (books_snoc t h b at_ ev (do_books _ _ Hdb)).
  - intros key. transitivity (balance_row h key); [|unfold balance_row, balance_of; by rewrite Hrows].
    rewrite <- (do_balances _ _ Hdb). by destruct ev.
  - by apply history_ok_plain; [apply Hdb|..].
Qed.

(** Number and log an event: the common end of the two operations. *)
Definition record_event (b : Book) (ev : LedgerEvent) : sq unit :=
  let& seq := next_seq b in
  let& at_ := ledger_now in
  let& _ := insert_event b seq at_ ev in
  let& _ := db_commit in
  publish b.

(** A history has room for one more event of a book. *)
Definition has_room (h : list Entry) (b : Book) : Prop := 1 + Z.of_nat (length (book_log b h)) <= i64_max.

Lemma record_event_healthy h b ev s (e := next_entry h b (now s) ev) :
  script s = [] -> history_ok h -> t_events (work s) = map event_row h ->
  (forall b, t_books (work s) !! b = match length (book_log b h) with O => None | n => Some (Int (Z.of_nat n)) end) ->
  match record_event b ev s with
  | (Done _, s') => is_ok (to_vec ev) = true /\
      committed s' = with_events (t_events (work s) ++ [event_row e]) (with_books (<[b := Int (en_seq e)]> (t_books (work s))) (work s)) /\
      woken s' = woken s ++ [b]
  | _ => ~ (has_room h b /\ is_ok (to_vec ev) = true)
  end.
Proof.
  intros Hs Hh Hev Hb. unfold record_event, sq_bind at 1.
  pose proof (next_seq_healthy s h b Hs Hb) as Hseq. cbn zeta in Hseq.
  destruct (next_seq b s) as [[q|err|] s1]; [|done|by intros [? _]]. destruct Hseq as (-> & Hmax & ->).
  unfold sq_bind, insert_event, ledger_now. cbn. fold (now s). unfold sq_bind.
  assert (event_row e = mkEventRow b (1 + Z.of_nat (length (book_log b h))) (now s) (LedgerEvent_kind ev) (payload_of ev)) as He by done.
  unfold payload_of in He. destruct (to_vec ev) as [pl|m]; cbn; [|by intros [_ ?]].
  rewrite stmt_healthy by done. cbn. rewrite Hev.
  pose proof (event_pk_fresh h b (now s) ev Hh) as Hpk. cbn [en_seq next_entry] in Hpk. rewrite Hpk.
  unfold db_commit, checked. rewrite commit_stmt_healthy by done. cbn. split; [done|]. by rewrite He.
Qed.

Lemma register_asset_eq asset :
  register_asset asset =
  (let& _ := begin_write in
   let& row := stmt (fun t => Ok (t_assets t !! asset_id asset, t)) in
   match row with
   | Some row =>
       if bool_decide (decode_asset (asset_id asset) row = asset) then sq_ret ()
       else sq_fail (Plain (AlreadyExists ("asset " +:+ asset_id asset)))
   | None =>
       let& _ := stmt (fun t =>
         match t_assets t !! asset_id asset with
         | Some _ => Err (UniqueConstraint "UNIQUE constraint failed: assets.id")
         | None => Ok ((), with_assets (<[asset_id asset := asset_row asset]> (t_assets t)) t)
         end) in
       record_event SYSTEM_BOOK (AssetRegistered asset)
   end).
Proof. done. Qed.

(** The answer and the events of registering an asset. *)
Definition register_spec (h : list Entry) (asset : AssetDef) (at_ : DateTime) : result unit StoreError * list Entry :=
  match registered h (asset_id asset) with
  | Some existing =>
      (if bool_decide (existing = asset) then Ok () else Err (AlreadyExists ("asset " +:+ asset_id asset)), [])
  | None => (Ok (), [next_entry h SYSTEM_BOOK at_ (AssetRegistered asset)])
  end.

(** The result a caller of the trait gets; a panic is none. *)
Definition outcome_result {A} (o : outcome A) : option (result A StoreError) :=
  match o with Done a => Some (Ok a) | Fail e => Some (Err (to_store_error e)) | Panicked => None end.

Lemma registered_id h id d : registered h id = Some d -> asset_id d = id.
Proof.
  unfold registered. intros Hh%head_elem. apply list_elem_of_omap in Hh as (e & _ & He). unfold asset_of in He.
  destruct (en_event e); [|done..]. case_decide; naive_solver.
Qed.

Lemma register_asset_healthy h asset s :
  db_ok (committed s) h -> script s = [] -> 0 <= asset_precision asset < 256 ->
  let '(r, evs) := register_spec h asset (now s) in
  match register_asset asset s with
  | (Done _, s') => r = Ok () /\ db_ok (committed s') (h ++ evs) /\ woken s' = woken s ++ map en_book evs
  | (o, _) => outcome_result o = Some r \/
      ~ (has_room h SYSTEM_BOOK /\ is_ok (to_vec (AssetRegistered asset)) = true)
  end.
Proof.
  intros Hdb Hs Hprec. rewrite register_asset_eq. unfold register_spec, sq_bind at 1, begin_write, checked. rewrite begin_healthy by done.
  unfold sq_bind at 1. rewrite stmt_healthy by done. cbn [work set_work set_saves]. rewrite (do_assets _ _ Hdb).
  destruct (registered h (asset_id asset)) as [existing|] eqn:Er; cbn [fmap option_fmap option_map].
  - assert (decode_asset (asset_id asset) (asset_row existing) = existing) as ->.
    { rewrite <- (registered_id _ _ _ Er). apply decode_asset_row. by eapply (ho_precision _ (do_history _ _ Hdb)). }
    case_bool_decide; cbn; [|by left]. by rewrite !app_nil_r.
  - set (s1 := set_work _ _). unfold sq_bind at 1. rewrite stmt_healthy by done. cbn [work s1 set_work].
    rewrite (do_assets _ _ Hdb), Er. cbn [fmap option_fmap option_map]. set (s2 := set_work _ _).
    pose proof (record_event_healthy h SYSTEM_BOOK (AssetRegistered asset) s2 Hs (do_history _ _ Hdb) (do_events _ _ Hdb) (do_books _ _ Hdb)) as Hrec.
    destruct (record_event SYSTEM_BOOK (AssetRegistered asset) s2) as [[u|err|] s3]; [|by right..].
    destruct Hrec as (Henc & Hc & Hw). split; [done|]. split; [|done]. rewrite Hc.
    apply (db_ok_plain (committed s) _ h SYSTEM_BOOK (now s) (AssetRegistered asset) Hdb Henc); [done|done|].
    by rewrite (do_assets _ _ Hdb), Er.
Qed.

Lemma opened_key h key def cfg : opened h key = Some (def, cfg) -> to_key (acct_id def) = key.
Proof.
  unfold opened. intros Hh%head_elem. apply list_elem_of_omap in Hh as (e & _ & He). unfold account_of in He.
  destruct (en_event e); [done| |done]. case_decide; naive_solver.
Qed.

Lemma same_account_spec d c def cfg : acct_id d = acct_id def ->
  same_account (accounts_row d c) def cfg = bool_decide (d = def /\ c = cfg).
Proof.
  intros Hid. unfold same_account, accounts_row. cbn.
  assert (forall k : AccountKind, AccountKind_from_db (AccountKind_as_str k) = Some k) as Hk by (intros []; done).
  assert ((s ← Direction_as_str <$> normal_side c; Direction_from_db s) = normal_side c) as -> by (destruct (normal_side c) as [[]|]; done).
  rewrite Hk. destruct d as [i1 a1 k1], def as [i2 a2 k2], c as [n1 m1], cfg as [n2 m2]. cbn in *. subst i2.
  apply eq_true_iff_eq. rewrite !andb_true_iff, !bool_decide_eq_true, String.eqb_eq. naive_solver.
Qed.

Definition open_spec (h : list Entry) (def : AccountDef) (cfg : AccountCfg) (at_ : DateTime) : result unit StoreError * list Entry :=
  let book := acct_book (acct_id def) in
  if is_reserved book then (Err (InvalidBook book), [])
  else match registered h (acct_asset def), opened h (to_key (acct_id def)) with
       | None, _ => (Err (UnknownAsset (acct_asset def)), [])
       | Some _, Some (d, c) =>
           (if bool_decide (d = def /\ c = cfg) then Ok () else Err (AlreadyExists ("account " +:+ to_key (acct_id def))), [])
       | Some _, None => (Ok (), [next_entry h book at_ (AccountOpened def cfg)])
       end.

Lemma open_account_eq def cfg :
  open_account def cfg =
  (let book := acct_book (acct_id def) in
   if is_reserved book then sq_fail (Plain (InvalidBook book))
   else
     let& _ := begin_write in
     let& asset_exists := stmt (fun t => Ok (t_assets t !! acct_asset def, t)) in
     match asset_exists with
     | None => sq_fail (Plain (UnknownAsset (acct_asset def)))
     | Some _ =>
         let& row := stmt (fun t => Ok (t_accounts t !! to_key (acct_id def), t)) in
         match row with
         | Some row => if same_account row def cfg then sq_ret () else sq_fail (Plain (AlreadyExists ("account " +:+ to_key (acct_id def))))
         | None =>
             let& _ := stmt (fun t =>
               match t_accounts t !! to_key (acct_id def), t_assets t !! acct_asset def with
               | Some _, _ => Err (UniqueConstraint "UNIQUE constraint failed: accounts.key")
               | None, None => Err foreign_key_failed
               | None, Some _ => Ok ((), with_accounts (<[to_key (acct_id def) := accounts_row def cfg]> (t_accounts t)) t)
               end) in
             record_event book (AccountOpened def cfg)
         end
     end).
Proof. done. Qed.

Lemma open_account_healthy h def cfg s :
  db_ok (committed s) h -> script s = [] ->
  let '(r, evs) := open_spec h def cfg (now s) in
  match open_account def cfg s with
  | (Done _, s') => r = Ok () /\ db_ok (committed s') (h ++ evs) /\ woken s' = woken s ++ map en_book evs
  | (o, _) => outcome_result o = Some r \/
      ~ (has_room h (acct_book (acct_id def)) /\ is_ok (to_vec (AccountOpened def cfg)) = true)
  end.
Proof.
  intros Hdb Hs. rewrite open_account_eq. unfold open_spec. cbn zeta. destruct (is_reserved _); [by left|].
  unfold sq_bind at 1, begin_write, checked. rewrite begin_healthy by done.
  unfold sq_bind at 1. rewrite stmt_healthy by done. cbn [work set_work set_saves]. rewrite (do_assets _ _ Hdb).
  destruct (registered h (acct_asset def)) as [d0|] eqn:Er; cbn [fmap option_fmap option_map]; [|by left].
  set (s1 := set_work _ _). unfold sq_bind at 1. rewrite stmt_healthy by done. cbn [work s1 set_work set_saves].
  rewrite (do_accounts _ _ Hdb). destruct (opened h (to_key (acct_id def))) as [[d c]|] eqn:Eo; cbn [fmap option_fmap option_map fst snd].
  - rewrite same_account_spec by (by apply to_key_injective; eapply opened_key).
    case_bool_decide; cbn; [|by left]. by rewrite !app_nil_r.
  - set (s2 := set_work _ _). unfold sq_bind at 1. rewrite stmt_healthy by done. cbn [work s2 s1 set_work set_saves].
    rewrite (do_assets _ _ Hdb), (do_accounts _ _ Hdb), Er, Eo. cbn [fmap option_fmap option_map]. set (s3 := set_work _ _).
    pose proof (record_event_healthy h (acct_book (acct_id def)) (AccountOpened def cfg) s3 Hs (do_history _ _ Hdb)
      (do_events _ _ Hdb) (do_books _ _ Hdb)) as Hrec.
    destruct (record_event _ _ s3) as [[u|err|] s4]; [|by right..].
    destruct Hrec as (Henc & Hc & Hw). split; [done|]. split; [|done]. rewrite Hc.
    apply (db_ok_plain (committed s) _ h _ (now s) (AccountOpened def cfg) Hdb Henc); [done|done|].
    by rewrite (do_accounts _ _ Hdb), Eo.
Qed.

(** *** ... when statements fail: all or nothing *)

Definition keeps {A} (m : sq A) : Prop := forall s, committed (m s).2 = committed s.
Definition all_or_nothing {A} (m : sq A) : Prop := forall s, is_done (m s).1 = true \/ committed (m s).2 = committed s.

Lemma keeps_local {A} (m : sq A) : is_local m -> keeps m.
Proof. intros Hm s. apply (lo_committed _ _ (Hm s)). Qed.
Lemma keeps_aon {A} (m : sq A) : keeps m -> all_or_nothing m.
Proof. intros Hm s. by right. Qed.
Lemma keeps_begin : keeps begin_write.
Proof.
  intros s. unfold begin_write, checked. pose proof (begin_committed s). by destruct (begin_stmt s) as [[]].
Qed.
Lemma aon_bind {A B} (m : sq A) (k : A -> sq B) : keeps m -> (forall a, all_or_nothing (k a)) -> all_or_nothing (sq_bind m k).
Proof.
  intros Hm Hk s. unfold sq_bind. specialize (Hm s). destruct (m s) as [[a|e|] s1]; cbn in *; [|by right..].
  destruct (Hk a s1) as [|Hc]; [by left|right]. by rewrite Hc.
Qed.

Lemma aon_record b ev : all_or_nothing (record_event b ev).
Proof.
  unfold record_event. apply aon_bind; [apply keeps_local; auto with talea|intros q].
  apply aon_bind; [apply keeps_local; auto with talea|intros a]. apply aon_bind; [apply keeps_local; auto with talea|intros u].
  intros s. unfold sq_bind, db_commit, checked. pose proof (commit_stmt_cases s) as Hc. destruct (commit_stmt s) as [[] s1]; cbn; auto.
Qed.

Lemma quiet_begin : quiet begin_write.
Proof.
  intros s a s' Hb. unfold begin_write, checked, begin_stmt in *. destruct (reach s) as [[f|] s1] eqn:Er; [done|].
  apply reach_None in Er as (-> & _ & Hc & _ & Hs). by injection Hb as <- <-.
Qed.
Lemma quiet_commit : quiet db_commit.
Proof.
  intros s a s' Hb. unfold db_commit, checked, commit_stmt in *. destruct (reach s) as [[f|] s1] eqn:Er; [done|].
  apply reach_None in Er as (-> & Hw & _ & _ & Hs). by injection Hb as <- <-.
Qed.
Lemma quiet_publish b : quiet (publish b).
Proof. by intros s a s' [= <- <-]. Qed.
#[local] Hint Resolve quiet_begin quiet_commit quiet_publish keeps_begin aon_record keeps_local keeps_aon : talea.

Lemma quiet_record b ev : quiet (record_event b ev).
Proof. unfold record_event. repeat (apply quiet_bind; [auto with talea|intros ?]). auto with talea. Qed.
#[local] Hint Resolve quiet_record : talea.

Lemma register_asset_aon asset : all_or_nothing (register_asset asset) /\ quiet (register_asset asset).
Proof.
  rewrite register_asset_eq. split.
  - apply aon_bind; [auto with talea|intros _]. apply aon_bind; [auto with talea|intros [row|]]; [case_match; auto with talea|].
    apply aon_bind; auto with talea.
  - apply quiet_bind; [auto with talea|intros _]. apply quiet_bind; [auto with talea|intros [row|]]; [case_match; auto with talea|].
    apply quiet_bind; auto with talea.
Qed.

Lemma open_account_aon def cfg : all_or_nothing (open_account def cfg) /\ quiet (open_account def cfg).
Proof.
  rewrite open_account_eq. cbn zeta. destruct (is_reserved _); [split; auto with talea|]. split.
  - apply aon_bind; [auto with talea|intros _]. apply aon_bind; [auto with talea|intros [d|]]; [|auto with talea].
    apply aon_bind; [auto with talea|intros [row|]]; [case_match; auto with talea|]. apply aon_bind; auto with talea.
  - apply quiet_bind; [auto with talea|intros _]. apply quiet_bind; [auto with talea|intros [d|]]; [|auto with talea].
    apply quiet_bind; [auto with talea|intros [row|]]; [case_match; auto with talea|]. apply quiet_bind; auto with talea.
Qed.

(** ** The writes, as properties *)

(** C34: A commit, whatever the backend does: the history gets the transaction's
    event and the caller its number, or the history stays; an answer is on
    record either way. *)
Theorem commit_atomic h tx s :
  db_ok (committed s) h ->
  exists evs, db_ok (committed (commit tx s).2) (h ++ evs) /\
    match (commit tx s).1 with
    | Done c => draft_spec h tx (now s) (Some c) evs
    | _ => evs = []
    end.
Proof. intros Hdb. destruct (commit_run h tx s Hdb) as (evs & ? & _ & ?). by exists evs. Qed.

(** C33: On a backend that does not fail, and in a book that is not reserved, a
    commit succeeds exactly when its key is on record or the transaction is
    acceptable, with the recorded answer or the next event of the book.  Any other
    answer leaves the history alone and names what is wrong with the transaction,
    error by error ([refusal]): the first posting that cannot be taken and why, the
    account below its minimum and the balance it would have, a repeated id, a text
    that cannot be written, too few or too many postings.  A panic is a sequence
    number or a balance past 64 bits. *)
Theorem commit_exact h tx s :
  db_ok (committed s) h -> script s = [] -> is_reserved (tx_book tx) = false ->
  exists evs, db_ok (committed (commit tx s).2) (h ++ evs) /\
    match (commit tx s).1 with
    | Done c => draft_spec h tx (now s) (Some c) evs
    | o => evs = [] /\ draft_spec h tx (now s) None [] /\ refusal h tx o
    end.
Proof.
  intros Hdb Hs Hres. destruct (commit_healthy h tx s Hdb Hs Hres) as (evs & Hspec & Hdb'). exists evs. split; [done|].
  pose proof (commit_refused h tx s) as Hr. destruct (commit tx s) as [[c|err|] s']; cbn [fst snd done_of] in *; [done|..];
    inversion Hspec; subst; (split; [done|]; split; [done|by eapply Hr]).
Qed.

(** Opening an account and registering an asset, on a backend that does not
    fail: the answer, the history and the wake-ups are those of the
    specification. *)
Theorem definitions_exact h s asset def cfg :
  db_ok (committed s) h -> script s = [] -> 0 <= asset_precision asset < 256 ->
  (has_room h SYSTEM_BOOK -> is_ok (to_vec (AssetRegistered asset)) = true ->
   let '(r, evs) := register_spec h asset (now s) in
   outcome_result (register_asset asset s).1 = Some r /\
   (is_ok r = true -> db_ok (committed (register_asset asset s).2) (h ++ evs) /\
                      woken (register_asset asset s).2 = woken s ++ map en_book evs)) /\
  (has_room h (acct_book (acct_id def)) -> is_ok (to_vec (AccountOpened def cfg)) = true ->
   let '(r, evs) := open_spec h def cfg (now s) in
   outcome_result (open_account def cfg s).1 = Some r /\
   (is_ok r = true -> db_ok (committed (open_account def cfg s).2) (h ++ evs) /\
                      woken (open_account def cfg s).2 = woken s ++ map en_book evs)).
Proof.
  intros Hdb Hs Hp. pose proof (register_asset_healthy h asset s Hdb Hs Hp) as Hr. pose proof (open_account_healthy h def cfg s Hdb Hs) as Ho.
  destruct (register_spec h asset (now s)) as [r1 evs1], (open_spec h def cfg (now s)) as [r2 evs2]. split; intros Hroom Henc.
  - destruct (register_asset asset s) as [[u|e|] s1]; cbn [fst snd].
    + destruct Hr as (-> & ? & ?). by destruct u.
    + destruct Hr as [Hr|Hr]; [|tauto]. split; [done|]. injection Hr as <-. done.
    + destruct Hr as [Hr|Hr]; [done|tauto].
  - destruct (open_account def cfg s) as [[u|e|] s1]; cbn [fst snd].
    + destruct Ho as (-> & ? & ?). by destruct u.
    + destruct Ho as [Ho|Ho]; [|tauto]. split; [done|]. injection Ho as <-. done.
    + destruct Ho as [Ho|Ho]; [done|tauto].
Qed.

(** ** Any run of the two definitions' operations *)

Lemma definition_sound {A} (m : sq A) h s :
  all_or_nothing m -> quiet m -> db_ok (committed s) h ->
  (forall s0 a s1, script s0 = [] -> committed s0 = committed s -> m s0 = (Done a, s1) -> exists evs, db_ok (committed s1) (h ++ evs)) ->
  exists evs, db_ok (committed (m s).2) (h ++ evs).
Proof.
  intros Haon Hq Hdb Hok. destruct (Haon s) as [Hd|Hc]; [|exists []; by rewrite Hc, app_nil_r].
  destruct (m s) as [[a|e|] s'] eqn:Em; [|done..]. apply Hq in Em as Em'. cbn [snd].
  exact (Hok (set_script [] s) a (set_script [] s') eq_refl eq_refl Em').
Qed.
End history.
