(* ===== verification/SqliteBatch.v ===== *)
(** [commit_batch] of the SQLite store (talea-store-sqlite/src/lib.rs): one
    storage transaction, a savepoint per draft.

    On a backend that does not fail it is the drafts committed one by one;
    when statements fail, what becomes durable is still a history with every
    success on record, unless a savepoint could not be rolled back. *)

From S2P Require Import Prelude Core Disk Sql Sqlite SqliteSpec SqliteCommit SqliteHistory.
Open Scope Z_scope.

(** ** What a run of statements depends on *)

Record sim (s t : Conn) : Prop := {
  si_work : work s = work t;
  si_script : script s = script t;
  si_clock : clock s = clock t;
  si_tick : tick s = tick t
}.

Definition oblivious {A} (m : sq A) : Prop := forall s t, sim s t -> (m s).1 = (m t).1 /\ sim (m s).2 (m t).2.

Lemma oblivious_ret {A} (a : A) : oblivious (sq_ret a).
Proof. by intros s t Hs. Qed.
Lemma oblivious_fail {A} e : oblivious (@sq_fail Conn A e).
Proof. by intros s t Hs. Qed.
Lemma oblivious_bind {A B} (m : sq A) (k : A -> sq B) : oblivious m -> (forall a, oblivious (k a)) -> oblivious (sq_bind m k).
Proof.
  intros Hm Hk s t Hs. unfold sq_bind. destruct (Hm s t Hs) as [He Hs'].
  destruct (m s) as [o s1], (m t) as [o' t1]. cbn in *. subst o'. destruct o; [by apply Hk|done..].
Qed.
Lemma oblivious_stmt {A} (q : Tables -> result (A * Tables) SqlxError) : oblivious (stmt q).
Proof.
  intros s t [Hw Hsc Hc Ht]. unfold stmt, execute, reach. rewrite <- Hsc.
  destruct (script s) as [|[f|] fs] eqn:E; cbn; rewrite <- ?Hw; [|by split|];
    destruct (q (work s)) as [[a u]|e]; (split; [done|]); split; cbn; congruence.
Qed.
Lemma oblivious_get c : oblivious (get_i64 c).
Proof. destruct c; by intros s t Hs. Qed.
Lemma oblivious_lift_std {A} (r : result A string) : oblivious (lift_std r).
Proof. destruct r; by intros s t Hs. Qed.
Lemma oblivious_lift_db {A} (r : result A DbError) : oblivious (lift_db r).
Proof. destruct r; by intros s t Hs. Qed.
Lemma oblivious_now : oblivious ledger_now.
Proof. intros s t [Hw Hsc Hc Ht]. cbn. rewrite Hc, Ht. by split. Qed.
#[local] Hint Resolve oblivious_ret oblivious_fail oblivious_bind oblivious_stmt oblivious_get oblivious_lift_std
  oblivious_lift_db oblivious_now : talea.

Lemma oblivious_rows rows : oblivious (get_rows rows).
Proof. induction rows as [|[k c] rows IH]; cbn [get_rows]; auto with talea. Qed.
#[local] Hint Resolve oblivious_rows : talea.

Section batch.
Context `{HashIterLaws} `{UuidTextLaws} `{Json LedgerEvent} `{Json (list ExternalRef)}.

Lemma oblivious_commit_draft tx : oblivious (commit_draft tx).
Proof.
  unfold commit_draft, find_committed. apply oblivious_bind.
  { apply oblivious_bind; [auto with talea|intros [r|]; auto with talea]. }
  intros [c|]; [auto with talea|]. apply oblivious_bind.
  - unfold load_pending, select_accounts. auto with talea.
  - intros l. unfold write_transaction, next_seq, insert_event. auto 20 with talea.
Qed.

(** ** One draft in its savepoint *)

(** A draft whose savepoint could not be rolled back. *)
Definition undo_failed (e : DbError) : Prop := exists d u, e = IoBox (OtherE ("draft failed (" +:+ d +:+ "); savepoint rollback also failed: " +:+ u)).

Lemma savepoint_cases i s :
  match savepoint i s with
  | (Ok _, s') => work s' = work s /\ saves s' = (i, work s) :: saves s /\ now s' = now s
  | (Err _, s') => work s' = work s
  end /\ committed (savepoint i s).2 = committed s /\ woken (savepoint i s).2 = woken s.
Proof. unfold savepoint, reach. by destruct (script s) as [|[f|] fs]. Qed.

Lemma release_cases i s : work (release_savepoint i s).2 = work s /\ committed (release_savepoint i s).2 = committed s /\
  woken (release_savepoint i s).2 = woken s.
Proof. unfold release_savepoint, reach. destruct (script s) as [|[f|] fs]; cbn; try case_match; by case_match || done. Qed.

Lemma undo_cases i s w l : saves s = (i, w) :: l ->
  committed (undo i s).2 = committed s /\ woken (undo i s).2 = woken s /\
  match (undo i s).1 with Ok _ => work (undo i s).2 = w | Err _ => True end.
Proof.
  intros Hs. unfold undo, rollback_to, reach. destruct (script s) as [|[f|] fs] eqn:E; cbn; [|done|];
    rewrite Hs; cbn; rewrite Nat.eqb_refl; unfold release_savepoint, reach; cbn; rewrite ?E; cbn.
  - by rewrite Nat.eqb_refl.
  - destruct fs as [|[f|] fs]; cbn; by rewrite ?Nat.eqb_refl.
Qed.

(** The connection keeps what is durable, whatever a draft does. *)
Record same_durable (s s' : Conn) : Prop := { sd_committed : committed s' = committed s; sd_woken : woken s' = woken s }.

#[local] Instance same_durable_preorder : PreOrder same_durable.
Proof. split; [by intros s|]. intros a b c [] []. split; congruence. Qed.

Definition durable_safe {A} (m : sq A) : Prop := forall s, same_durable s (m s).2.

Lemma safe_local {A} (m : sq A) : is_local m -> durable_safe m.
Proof. intros Hm s. destruct (Hm s). by split. Qed.
Lemma safe_bind {A B} (m : sq A) (k : A -> sq B) : durable_safe m -> (forall a, durable_safe (k a)) -> durable_safe (sq_bind m k).
Proof.
  intros Hm Hk s. unfold sq_bind. specialize (Hm s). destruct (m s) as [[a|e|] s1]; cbn in *; [|done..]. etrans; [exact Hm|apply Hk].
Qed.
Lemma safe_checked {A} (c : Conn -> result A SqlxError * Conn) : (forall s, same_durable s (c s).2) -> durable_safe (checked c).
Proof. intros Hc s. unfold checked. specialize (Hc s). by destruct (c s) as [[]]. Qed.
Lemma safe_try {A} (m : sq A) : durable_safe m -> durable_safe (sq_try m).
Proof. intros Hm s. unfold sq_try. specialize (Hm s). by destruct (m s) as [[]]. Qed.
Lemma safe_undo i s : same_durable s (undo i s).2.
Proof.
  unfold undo. assert (same_durable s (rollback_to i s).2) as Hr.
  { unfold rollback_to, reach. destruct (script s) as [|[f|] fs]; cbn; try case_match; by case_match || done. }
  destruct (rollback_to i s) as [[u|e] s1]; cbn in *; [|done]. etrans; [exact Hr|].
  destruct (release_cases i s1) as (_ & ? & ?). by split.
Qed.

Lemma safe_savepoint i tx : durable_safe (commit_in_savepoint i tx).
Proof.
  unfold commit_in_savepoint. destruct (is_reserved _); [by intros s|]. apply safe_bind.
  { apply safe_checked. intros s. destruct (savepoint_cases i s) as (_ & ? & ?). by split. }
  intros _. apply safe_bind; [apply safe_try, safe_local, local_commit_draft|]. intros [c|e].
  - apply safe_bind; [|by intros _ s]. apply safe_checked. intros s. destruct (release_cases i s) as (_ & ? & ?). by split.
  - intros s. pose proof (safe_undo i s) as Hu. destruct (undo i s) as [[u|u] s1]; cbn in *; [|done].
    destruct (is_unique_violation e); [|done]. etrans; [exact Hu|].
    apply (safe_bind (find_committed (tx_book tx) (tx_idem tx))); [apply safe_local, local_find|]. by intros [c|] s2.
Qed.

Lemma find_keeps_work b k s : work (find_committed b k s).2 = work s.
Proof.
  unfold find_committed, sq_bind, stmt, execute, reach. destruct (script s) as [|[f|] fs]; cbn; [|done|];
    (destruct (List.find _ _) as [r|]; [|done]); cbn; by destruct (parse_uuid (tr_tx_id r)).
Qed.

(** What a draft in a savepoint leaves, when its rollback did not fail. *)
Lemma savepoint_sound h i tx s r s' :
  db_ok (work s) h -> commit_in_savepoint i tx s = (r, s') ->
  match r with
  | Panicked => True
  | Fail e => undo_failed e \/ exists evs, db_ok (work s') (h ++ evs) /\ (evs = [] \/ evs = [posted h tx (now s)])
  | Done c => exists evs, db_ok (work s') (h ++ evs) /\ draft_spec h tx (now s) (Some c) evs
  end.
Proof.
  intros Hdb Hr. unfold commit_in_savepoint in Hr. assert (db_ok (work s) (h ++ [])) as Hdb0 by (by rewrite app_nil_r).
  destruct (is_reserved (tx_book tx)); [injection Hr as <- <-; right; exists []; auto|].
  unfold sq_bind at 1, checked at 1 in Hr. pose proof (savepoint_cases i s) as [Hsp _].
  destruct (savepoint i s) as [[u|err] s1]; [|injection Hr as <- <-; right; exists []; rewrite Hsp; auto].
  destruct Hsp as (Hw1 & Hsv1 & Hn1). unfold sq_bind at 1, sq_try in Hr.
  pose proof (local_commit_draft tx s1) as Hlo. destruct (commit_draft tx s1) as [[c|e|] s2] eqn:Ed; cbn [snd] in Hlo.
  - apply (commit_draft_sound h) in Ed as (evs & Hspec & Hdb2 & _); [|by rewrite Hw1]. rewrite Hn1 in Hspec.
    unfold sq_bind, checked in Hr. destruct (release_cases i s2) as (Hw3 & _).
    destruct (release_savepoint i s2) as [[u'|err] s3]; cbn in Hw3; injection Hr as <- <-.
    + exists evs. by rewrite Hw3.
    + right. exists evs. rewrite Hw3. split; [done|]. inversion Hspec; auto.
  - rewrite <- (lo_saves _ _ Hlo) in Hsv1. destruct (undo_cases i s2 _ _ Hsv1) as (_ & _ & Hu).
    destruct (undo i s2) as [[u'|uerr] s3]; cbn in Hu.
    2: { injection Hr as <- <-. left. by eexists _, _. }
    destruct (is_unique_violation e); [|injection Hr as <- <-; right; exists []; rewrite Hu; auto].
    unfold sq_bind in Hr. pose proof (find_keeps_work (tx_book tx) (tx_idem tx) s3) as Hw4. rewrite Hu in Hw4.
    destruct (find_committed (tx_book tx) (tx_idem tx) s3) as [[o|err|] s4] eqn:Ef; cbn in Hw4.
    + apply (find_committed_sound h) in Ef; [|rewrite Hu; apply Hdb].
      destruct o as [c|]; injection Hr as <- <-; [|right]; exists []; rewrite Hw4; [|by auto].
      split; [done|]. destruct (prior h (tx_book tx) (tx_idem tx)) as [e0|] eqn:Ep; [|done]. by eapply spec_prior.
    + injection Hr as <- <-. right. exists []. rewrite Hw4. auto.
    + by injection Hr as <- <-.
  - by injection Hr as <- <-.
Qed.

(** ** The batch *)

(** Every success has its answer on record. *)
Definition on_record (h : list Entry) (txs : list Transaction) (rs : list (result Committed DbError)) : Prop :=
  forall i tx c, txs !! i = Some tx -> rs !! i = Some (Ok c) ->
    exists e, prior h (tx_book tx) (tx_idem tx) = Some e /\ committed_of e = Some c.

Definition posts_of (txs : list Transaction) (evs : list Entry) : Prop :=
  Forall (fun e => exists tx, tx ∈ txs /\ en_event e = TransactionPosted tx) evs.

Lemma on_record_more h evs txs rs : on_record h txs rs -> on_record (h ++ evs) txs rs.
Proof. intros Ho i tx c Ht Hr. destruct (Ho i tx c Ht Hr) as (e & He & Hc). exists e. by rewrite prior_app, He. Qed.

Lemma safe_drafts txs : forall i, durable_safe (commit_drafts i txs).
Proof.
  induction txs as [|tx txs IH]; intros i; cbn [commit_drafts]; [by intros s|].
  apply safe_bind; [apply safe_try, safe_savepoint|]. intros r. apply safe_bind; [apply IH|]. by intros rs s.
Qed.

Lemma drafts_length txs : forall i s rs s', commit_drafts i txs s = (Done rs, s') -> length rs = length txs.
Proof.
  induction txs as [|tx txs IH]; intros i s rs s' Hr; cbn [commit_drafts] in Hr; [by injection Hr as <- <-|].
  apply sq_bind_Done in Hr as (r & s1 & _ & Hr). apply sq_bind_Done in Hr as (rs1 & s2 & Hrs & Hr). injection Hr as <- <-.
  cbn. f_equal. by eapply IH.
Qed.

Lemma posts_of_cons tx txs evs evs2 at_ h :
  evs = [] \/ evs = [posted h tx at_] -> posts_of txs evs2 -> posts_of (tx :: txs) (evs ++ evs2).
Proof.
  intros Hevs Hp. apply Forall_app. split.
  - destruct Hevs as [->| ->]; [constructor|]. repeat constructor. exists tx. split; [by left|done].
  - eapply Forall_impl; [exact Hp|]. intros e (tx' & ? & ?). exists tx'. split; [by right|done].
Qed.

Lemma drafts_sound txs : forall h i s rs s',
  db_ok (work s) h -> commit_drafts i txs s = (Done rs, s') ->
  Exists (fun r => exists e, r = Err e /\ undo_failed e) rs \/
  exists evs, db_ok (work s') (h ++ evs) /\ on_record (h ++ evs) txs rs /\ posts_of txs evs.
Proof.
  induction txs as [|tx txs IH]; intros h i s rs s' Hdb Hr; cbn [commit_drafts] in Hr.
  { injection Hr as <- <-. right. exists []. rewrite app_nil_r. split; [done|]. split; [by intros j tx c|constructor]. }
  apply sq_bind_Done in Hr as (r & s1 & Hc & Hr). apply sq_bind_Done in Hr as (rs1 & s2 & Er & Hr). injection Hr as <- <-.
  unfold sq_try in Hc. destruct (commit_in_savepoint i tx s) as [o s1'] eqn:Ec.
  pose proof (savepoint_sound h i tx s _ _ Hdb Ec) as Hsp.
  assert ((exists e, r = Err e /\ undo_failed e) \/ exists evs, db_ok (work s1) (h ++ evs) /\ (evs = [] \/ evs = [posted h tx (now s)]) /\
    forall c, r = Ok c -> draft_spec h tx (now s) (Some c) evs) as [Hbad|(evs & Hdb1 & Hevs & Hok)].
  { destruct o as [c|e|]; simplify_eq/=.
    - right. destruct Hsp as (evs & Hdb1 & Hspec). exists evs. split; [done|]. split; [inversion Hspec; auto|]. by intros c' [= <-].
    - destruct Hsp as [?|(evs & Hdb1 & Hevs)]; [left; eauto|]. right. by exists evs. }
  { left. by left. }
  destruct (IH _ _ _ _ _ Hdb1 Er) as [Hex|(evs2 & Hdb2 & Hon & Hposts)]; [left; by right|].
  right. exists (evs ++ evs2). rewrite app_assoc. split; [done|]. split; [|by eapply posts_of_cons].
  intros [|j] tx' c' Ht Hj; [|by apply (Hon j)]. injection Ht as <-. injection Hj as ->.
  destruct (draft_on_record _ _ _ _ _ _ (Hok c' eq_refl)) as (e & He & Hce). exists e. by rewrite prior_app, He.
Qed.

Lemma publish_books_Done l : forall published s, exists s', publish_books l published s = (Done (), s') /\ committed s' = committed s /\ tick s' = tick s.
Proof.
  induction l as [|[tx r] l IH]; intros published s; cbn [publish_books]; [by exists s|].
  destruct (is_ok r && _); [|apply IH]. unfold sq_bind. cbn.
  destruct (IH (published ++ [tx_book tx]) (publish (tx_book tx) s).2) as (s' & Hp & Hc & Ht). exists s'. by split_and!.
Qed.

Lemma batch_failure_errs e ctx n r : r ∈ batch_failure e ctx n -> is_ok r = false.
Proof. unfold batch_failure. case_match; intros [-> _]%elem_of_replicate; done. Qed.

Lemma batch_run h txs s :
  db_ok (committed s) h ->
  match (commit_batch txs s).1 with
  | Done rs => length rs = length txs /\
      (Exists (fun r => exists e, r = Err e /\ undo_failed e) rs \/
       exists evs, db_ok (committed (commit_batch txs s).2) (h ++ evs) /\ on_record (h ++ evs) txs rs /\ posts_of txs evs)
  | _ => committed (commit_batch txs s).2 = committed s
  end.
Proof.
  intros Hdb. destruct (commit_batch txs s) as [o s'] eqn:Eb. cbn [fst snd].
  assert (forall e ctx, length (batch_failure e ctx (length txs)) = length txs /\
    (committed s' = committed s -> exists evs, db_ok (committed s') (h ++ evs) /\ on_record (h ++ evs) txs (batch_failure e ctx (length txs)) /\ posts_of txs evs)) as Hfail.
  { intros e ctx. split; [unfold batch_failure; case_match; by rewrite length_replicate|]. intros Hc. exists [].
    rewrite app_nil_r, Hc. split; [done|]. split; [|constructor]. intros i tx c _ Hr%list_elem_of_lookup_2. by apply batch_failure_errs in Hr. }
  destruct txs as [|tx0 txs0] eqn:Et; [injection Eb as <- <-; split; [done|]; right; exists []; rewrite app_nil_r; split; [done|]; split; [by intros i tx c|constructor]|].
  rewrite <- Et in *. assert (commit_batch txs s = match begin_stmt s with
    | (Err e, s) => (Done (batch_failure e "failed to begin batch transaction" (length txs)), s)
    | (Ok _, s) => (let& results := commit_drafts 0 txs in
         fun s => match commit_stmt s with
           | (Err e, s) => (Done (batch_failure e "batch commit failed" (length txs)), s)
           | (Ok _, s) => (let& _ := publish_books (zip txs results) [] in sq_ret results) s end) s end) as Heq by (by rewrite Et).
  rewrite Heq in Eb. clear Heq Et. pose proof (begin_committed s) as Hbc.
  destruct (begin_stmt s) as [[u|e] s1] eqn:E1; cbn [snd] in Hbc.
  2: { injection Eb as <- <-. destruct (Hfail e "failed to begin batch transaction"%string) as [? Hf]. split; [done|]. right. by apply Hf. }
  apply begin_Ok in E1 as (Hw1 & Hc1 & _). pose proof (safe_drafts txs 0 s1) as [Hsd _]. unfold sq_bind at 1 in Eb.
  destruct (commit_drafts 0 txs s1) as [[rs|e|] s2] eqn:E2; cbn [snd] in Hsd; [|injection Eb as <- <-; by rewrite Hsd..].
  pose proof (drafts_length _ _ _ _ _ E2) as Hlen. rewrite <- Hw1 in Hdb.
  destruct (drafts_sound txs h 0 s1 rs s2 Hdb E2) as [Hbad|(evs & Hdb2 & Hon & Hposts)];
    pose proof (commit_stmt_cases s2) as Hcs; destruct (commit_stmt s2) as [[u'|e] s3].
  - unfold sq_bind in Eb. destruct (publish_books_Done (zip txs rs) [] s3) as (s4 & Hp & _). rewrite Hp in Eb. injection Eb as <- <-. auto.
  - injection Eb as <- <-. destruct (Hfail e "batch commit failed"%string) as [? Hf]. split; [done|]. right. apply Hf. congruence.
  - unfold sq_bind in Eb. destruct (publish_books_Done (zip txs rs) [] s3) as (s4 & Hp & Hc4 & _). rewrite Hp in Eb. injection Eb as <- <-.
    split; [done|]. right. exists evs. rewrite Hc4. destruct Hcs as [-> _]. by split_and!.
  - injection Eb as <- <-. destruct (Hfail e "batch commit failed"%string) as [? Hf]. split; [done|]. right. apply Hf. congruence.
Qed.

(** ** A batch is its drafts, one by one *)

Fixpoint commit_each (txs : list Transaction) (s : Conn) : list (outcome Committed) * Conn :=
  match txs with
  | [] => ([], s)
  | tx :: txs =>
      let '(o, s1) := commit tx s in
      let '(os, s2) := commit_each txs s1 in (o :: os, s2)
  end.

Definition panicked {A} (o : outcome A) : bool := match o with Panicked => true | _ => false end.

(** The batch's open transaction and a connection that commits each draft. *)
Record in_step (b c : Conn) : Prop := {
  is_work : work b = committed c;
  is_clock : clock b = clock c;
  is_tick : tick b = tick c;
  is_batch_healthy : script b = [];
  is_each_healthy : script c = []
}.

Lemma savepoint_healthy i s : script s = [] -> savepoint i s = (Ok (), set_saves ((i, work s) :: saves s) s).
Proof. intros Hs. unfold savepoint, reach. by rewrite Hs. Qed.
Lemma release_healthy i s w l : script s = [] -> saves s = (i, w) :: l -> release_savepoint i s = (Ok (), set_saves l s).
Proof. intros Hs Hl. unfold release_savepoint, reach. rewrite Hs, Hl. cbn. by rewrite Nat.eqb_refl. Qed.
Lemma undo_healthy i s w l : script s = [] -> saves s = (i, w) :: l -> undo i s = (Ok (), set_saves l (set_work w s)).
Proof.
  intros Hs Hl. unfold undo, rollback_to, reach. rewrite Hs, Hl. cbn. rewrite Nat.eqb_refl.
  by rewrite (release_healthy i _ w l).
Qed.

Lemma draft_in_step h i tx b c :
  in_step b c -> db_ok (work b) h -> panicked (commit tx c).1 = false ->
  (commit_in_savepoint i tx b).1 = (commit tx c).1 /\ in_step (commit_in_savepoint i tx b).2 (commit tx c).2 /\
  exists evs, db_ok (work (commit_in_savepoint i tx b).2) (h ++ evs).
Proof.
  intros Hin Hdb Hnp. destruct Hin as [Hw Hck Htk Hb Hc]. unfold commit_in_savepoint, commit, begin_write, checked in *.
  destruct (is_reserved (tx_book tx)); [split; [done|]; split; [by split|]; exists []; by rewrite app_nil_r|].
  unfold sq_bind, sq_try in *. rewrite savepoint_healthy, begin_healthy in * by done.
  set (b1 := set_saves _ b) in *. set (c1 := set_saves _ (set_work _ _)) in *.
  assert (sim b1 c1) as Hsim by (split; [exact Hw|cbn; by rewrite Hb, Hc|done|done]).
  destruct (oblivious_commit_draft tx b1 c1 Hsim) as [Ho Hsim'].
  destruct (commit_draft_healthy h tx b1 Hb Hdb) as (evs & Hspec & Hdone).
  pose proof (local_commit_draft tx b1) as Hlb. pose proof (local_commit_draft tx c1) as Hlc.
  destruct (commit_draft tx b1) as [ob b2]. destruct (commit_draft tx c1) as [oc c2]. cbn [fst snd] in *. subst oc.
  destruct Hsim' as [Hw2 _ Hck2 Htk2]. destruct ob as [cm|e|]; [| |done].
  - assert (db_ok (work b2) (h ++ evs)) as Hdb2.
    { destruct (Hdone eq_refl) as [[-> ->]|(t & -> & Ht)]; [by rewrite app_nil_r|done]. }
    rewrite (release_healthy i b2 (work b) (saves b)) by (apply Hlb; done).
    unfold db_commit, checked. rewrite commit_stmt_healthy by (by apply Hlc). cbn.
    split; [done|]. split; [|by exists evs]. split; [done..| |]; [by apply Hlb|by apply Hlc].
  - inversion Hspec as [| |Hp _]; subst. rewrite (undo_healthy i b2 (work b) (saves b)) by (apply Hlb; done).
    set (b3 := set_saves _ (set_work _ b2)). destruct (is_unique_violation e).
    + rewrite begin_healthy by (by apply Hlc). set (c3 := set_saves _ (set_work _ c2)).
      rewrite (find_committed_healthy h b3), (find_committed_healthy h c3); [| by apply Hlc | | by apply Hlb | apply Hdb].
      2: { cbn. rewrite (lo_committed _ _ Hlc). cbn. rewrite <- Hw. apply Hdb. }
      rewrite Hp. cbn. split; [done|]. split; [|exists []; by rewrite app_nil_r].
      split; [|done|done|by apply Hlb|by apply Hlc]. cbn. by rewrite (lo_committed _ _ Hlc).
    + cbn. split; [done|]. split; [|exists []; by rewrite app_nil_r].
      split; [|done|done|by apply Hlb|by apply Hlc]. cbn. by rewrite (lo_committed _ _ Hlc).
Qed.

(** The result a draft's outcome is in the batch. *)
Definition draft_result (o : outcome Committed) : result Committed DbError :=
  match o with Done c => Ok c | Fail e => Err e | Panicked => Err (Plain Saturated) (* no result: the batch is gone *) end.

Lemma drafts_in_step txs : forall h i b c,
  in_step b c -> db_ok (work b) h -> forallb (fun o => negb (panicked o)) (commit_each txs c).1 = true ->
  exists b', commit_drafts i txs b = (Done (map draft_result (commit_each txs c).1), b') /\ in_step b' (commit_each txs c).2.
Proof.
  induction txs as [|tx txs IH]; intros h i b c Hin Hdb Hnp; cbn [commit_drafts commit_each] in *; [by exists b|].
  destruct (commit tx c) as [o c1] eqn:Ec. destruct (commit_each txs c1) as [os c2] eqn:Eos. cbn [fst snd] in *.
  cbn [forallb] in Hnp. apply andb_true_iff in Hnp as [Ho Hnp]. apply negb_true_iff in Ho.
  destruct (draft_in_step h i tx b c Hin Hdb) as (He & Hin1 & evs & Hdb1); [by rewrite Ec|]. rewrite Ec in He, Hin1.
  unfold sq_bind, sq_try. destruct (commit_in_savepoint i tx b) as [o' b1]. cbn [fst snd] in *. subst o'.
  destruct (IH _ (S i) b1 c1 Hin1 Hdb1) as (b2 & Hb2 & Hin2); [by rewrite Eos|]. rewrite Eos in Hb2, Hin2.
  exists b2. split; [|done]. destruct o; [| |done]; cbn [fst] in Hb2; by rewrite Hb2.
Qed.

Lemma batch_sequential h txs s :
  db_ok (committed s) h -> script s = [] -> forallb (fun o => negb (panicked o)) (commit_each txs s).1 = true ->
  (commit_batch txs s).1 = Done (map draft_result (commit_each txs s).1) /\
  committed (commit_batch txs s).2 = committed (commit_each txs s).2 /\
  tick (commit_batch txs s).2 = tick (commit_each txs s).2.
Proof.
  intros Hdb Hs Hnp. destruct txs as [|tx txs]; [done|]. cbv beta iota delta [commit_batch]. rewrite begin_healthy by done.
  set (b := set_saves _ _). assert (in_step b s) as Hin by (by split).
  destruct (drafts_in_step (tx :: txs) h 0 b s Hin Hdb Hnp) as (b' & Hd & Hin'). unfold sq_bind at 1 3 5. rewrite Hd.
  rewrite commit_stmt_healthy by apply Hin'. unfold sq_bind.
  destruct (publish_books_Done (zip (tx :: txs) (map draft_result (commit_each (tx :: txs) s).1)) [] (set_committed (work b') b')) as (s4 & Hp & Hc & Ht).
  rewrite Hp. cbn [fst snd sq_ret]. split; [done|]. rewrite Hc, Ht. split; apply Hin'.
Qed.

(** C8: On a connection no statement of which fails, a group commit none of whose
    drafts panics answers and stores exactly what committing its drafts one after
    the other does. *)
Theorem batch_is_sequential h txs s :
  db_ok (committed s) h -> script s = [] -> forallb (fun o => negb (panicked o)) (commit_each txs s).1 = true ->
  (commit_batch txs s).1 = Done (map draft_result (commit_each txs s).1) /\
  committed (commit_batch txs s).2 = committed (commit_each txs s).2 /\
  tick (commit_batch txs s).2 = tick (commit_each txs s).2.
Proof. apply batch_sequential. Qed.

(** A batch, whatever the backend does: unless a savepoint could not be rolled
    back, what is durable after it is a history that grew by transactions of
    the batch, and every draft answered with success is on record. *)
Theorem batch_atomic h txs s :
  db_ok (committed s) h ->
  match (commit_batch txs s).1 with
  | Done rs => length rs = length txs /\
      (Exists (fun r => exists e, r = Err e /\ undo_failed e) rs \/
       exists evs, db_ok (committed (commit_batch txs s).2) (h ++ evs) /\ on_record (h ++ evs) txs rs /\ posts_of txs evs)
  | _ => committed (commit_batch txs s).2 = committed s
  end.
Proof. apply batch_run. Qed.

(** ** Any sequence of operations, on any backend *)

(** One operation of the store, or a change of the backend's mood: [script]
    holds any failures. *)
Inductive sq_step : Conn -> Conn -> Prop :=
| step_script l s : sq_step s (set_script l s)
| step_register asset s : 0 <= asset_precision asset < 256 -> sq_step s (register_asset asset s).2
| step_open def cfg s : sq_step s (open_account def cfg s).2
| step_commit tx s : sq_step s (commit tx s).2
| step_batch txs s :
    (forall rs, (commit_batch txs s).1 = Done rs -> ~ Exists (fun r => exists e, r = Err e /\ undo_failed e) rs) ->
    sq_step s (commit_batch txs s).2.

Lemma step_history h s s' : sq_step s s' -> db_ok (committed s) h -> exists evs, db_ok (committed s') (h ++ evs).
Proof.
  intros Hst Hdb. assert (db_ok (committed s) (h ++ [])) as Hdb0 by (by rewrite app_nil_r).
  destruct Hst as [l s|asset s Hp|def cfg s|tx s|txs s Hu].
  - by exists [].
  - destruct (register_asset_aon asset) as [Haon Hq]. apply (definition_sound _ h s Haon Hq Hdb). intros s0 a s1 Hs Hc Hr.
    pose proof (register_asset_healthy h asset s0 ltac:(by rewrite Hc) Hs Hp) as Hspec.
    destruct (register_spec h asset (now s0)) as [r evs]. rewrite Hr in Hspec. exists evs. apply Hspec.
  - destruct (open_account_aon def cfg) as [Haon Hq]. apply (definition_sound _ h s Haon Hq Hdb). intros s0 a s1 Hs Hc Hr.
    pose proof (open_account_healthy h def cfg s0 ltac:(by rewrite Hc) Hs) as Hspec.
    destruct (open_spec h def cfg (now s0)) as [r evs]. rewrite Hr in Hspec. exists evs. apply Hspec.
  - destruct (commit_run h tx s Hdb) as (evs & ? & _). by exists evs.
  - pose proof (batch_run h txs s Hdb) as Hb. destruct (commit_batch txs s) as [[rs|e|] s1]; cbn [fst snd] in *.
    + destruct Hb as [_ [Hbad|(evs & ? & _)]]; [by destruct (Hu rs eq_refl)|by exists evs].
    + exists []. by rewrite Hb.
    + exists []. by rewrite Hb.
Qed.

(** From an empty database on, whatever fails: the tables are the projections
    of one history, and the history only grows. *)
Theorem sqlite_history_kept s s' h :
  rtc sq_step s s' -> db_ok (committed s) h ->
  exists evs, db_ok (committed s') (h ++ evs).
Proof.
  intros Hr. revert h. induction Hr as [s|s s1 s2 Hst _ IH]; intros h Hdb; [exists []; by rewrite app_nil_r|].
  destruct (step_history h s s1 Hst Hdb) as [evs Hdb1]. destruct (IH _ Hdb1) as [evs2 Hdb2]. exists (evs ++ evs2). by rewrite app_assoc.
Qed.

Lemma db_ok_empty : db_ok Tables_empty [].
Proof.
  assert (history_ok []) as Hh.
  { split; [by intros b i e ?|by intros e ?%elem_of_nil|constructor|constructor|by intros r ?%elem_of_nil|done|done|done|
      by intros e ?%elem_of_nil]. }
  by split.
Qed.
End batch.
