(* ===== verification/SqliteReads.v ===== *)
(** What the reads of the SQLite store return, in terms of the history its
    tables project (talea-store-sqlite/src/lib.rs). *)

From S2P Require Import Prelude Core Disk Sql Sqlite SqliteSpec SqliteCommit SqliteHistory.
From stdpp Require Import sorting.
Open Scope Z_scope.

(** ** Sums *)

Definition sum_abs (l : list Z) : Z := sum_Z (map Z.abs l).

Lemma sum_abs_nonneg l : 0 <= sum_abs l.
Proof. unfold sum_abs. induction l as [|x l IH]; cbn; [done|]. unfold sum_Z in *. cbn. lia. Qed.

Lemma sum_abs_bound l : Z.abs (sum_Z l) <= sum_abs l.
Proof. unfold sum_abs. induction l as [|x l IH]; cbn; [done|]. unfold sum_Z in *. cbn. lia. Qed.

(** No order of the rows overflows when the magnitudes fit together. *)
Lemma sql_sum_exact l : sum_abs l <= i64_max -> sql_sum (map Int l) = Ok (Int (sum_Z l)).
Proof.
  unfold sql_sum. assert (forall acc, Z.abs acc + sum_abs l <= i64_max -> sql_sum_from acc (map Int l) = Ok (Int (acc + sum_Z l))) as Hgo.
  { induction l as [|x l IH]; intros acc Hb; cbn [map sql_sum_from]; [cbn; by rewrite Z.add_0_r|].
    change (sum_abs (x :: l)) with (Z.abs x + sum_abs l) in Hb. change (sum_Z (x :: l)) with (x + sum_Z l).
    pose proof (sum_abs_nonneg l).
    assert (in_i64 (acc + x) = true) as -> by (apply in_i64_spec; unfold i64_min, i64_max in *; lia).
    rewrite IH by lia. by rewrite Z.add_assoc. }
  intros Hb. by apply Hgo.
Qed.

Lemma foldl_max l x : forall m, m = x \/ m ∈ l -> m <= foldl Z.max x l.
Proof.
  revert x. induction l as [|y l IH]; intros x m Hm; cbn.
  - destruct Hm as [->|Hm]; [done|by apply elem_of_nil in Hm].
  - destruct Hm as [->|[->|Hm]%elem_of_cons].
    + etrans; [|apply (IH _ (Z.max x y)); by left]. lia.
    + etrans; [|apply (IH _ (Z.max x y)); by left]. lia.
    + apply IH. by right.
Qed.

Lemma foldl_max_in l x : foldl Z.max x l ∈ x :: l.
Proof.
  revert x. induction l as [|y l IH]; intros x; cbn; [by left|].
  destruct (proj1 (elem_of_cons _ _ _) (IH (Z.max x y))) as [->|Hin]; [|by do 2 right].
  destruct (Z.max_spec x y) as [[_ ->]|[_ ->]]; [right; by left|by left].
Qed.

Lemma sql_max_spec l : l <> [] -> sql_max l ∈ l /\ forall m, m ∈ l -> m <= sql_max l.
Proof.
  destruct l as [|x l]; [done|]. intros _. cbn. split; [apply foldl_max_in|].
  intros m [->|Hm]%elem_of_cons; apply foldl_max; auto.
Qed.

(** ** Orders *)

Lemma seq_leb_total {A} (f : A -> Z) (x y : A) : (f x <=? f y) = true \/ (f y <=? f x) = true.
Proof. rewrite !Z.leb_le. lia. Qed.
Lemma seq_leb_trans {A} (f : A -> Z) (x y z : A) : (f x <=? f y) = true -> (f y <=? f z) = true -> (f x <=? f z) = true.
Proof. rewrite !Z.leb_le. lia. Qed.

Lemma posting_leb_spec a b : posting_leb a b = true <-> po_seq a < po_seq b \/ (po_seq a = po_seq b /\ po_idx a <= po_idx b).
Proof. unfold posting_leb. rewrite orb_true_iff, andb_true_iff, Z.ltb_lt, Z.eqb_eq, Z.leb_le. done. Qed.
Lemma posting_leb_total a b : posting_leb a b = true \/ posting_leb b a = true.
Proof. rewrite !posting_leb_spec. lia. Qed.
Lemma posting_leb_trans a b c : posting_leb a b = true -> posting_leb b c = true -> posting_leb a c = true.
Proof. rewrite !posting_leb_spec. lia. Qed.

Section txids.
Context `{UuidTextLaws} `{Json LedgerEvent} `{Json (list ExternalRef)}.

Lemma uuid_text_eqb u v : String.eqb (uuid_text u) (uuid_text v) = (u =? v).
Proof.
  apply eq_true_iff_eq. rewrite String.eqb_eq, Z.eqb_eq. split; [|by intros ->]. intros He.
  pose proof (parse_uuid_text u) as Hp. rewrite He, parse_uuid_text in Hp. congruence.
Qed.

Definition is_posting (txid : TxId) (e : Entry) : bool :=
  match en_event e with TransactionPosted tx => tx_id tx =? txid | _ => false end.

Lemma find_txid_row h txid :
  List.find (fun r => String.eqb (tr_tx_id r) (uuid_text txid)) (all_transactions h) =
  (e ← List.find (is_posting txid) h; transaction_row e).
Proof.
  induction h as [|e h IH]; [done|]. unfold all_transactions, is_posting in *. cbn [omap list_omap List.find]. unfold transaction_row at 1.
  destruct (en_event e) as [| |tx] eqn:Eev; [done..|]. cbn [List.find tr_tx_id]. rewrite uuid_text_eqb.
  destruct (tx_id tx =? txid); [|done]. cbn. unfold transaction_row. by rewrite Eev.
Qed.
End txids.

Section reads.
Context `{HashIterLaws} `{UuidTextLaws} `{Json LedgerEvent} `{!JsonLaws LedgerEvent} `{Json (list ExternalRef)}.
Variable s : Conn.
Variable h : list Entry.
Hypothesis Hhealthy : script s = [].
Hypothesis Hdb : db_ok (committed s) h.

(** ** The log *)

Definition sequenced_entry (e : Entry) : Sequenced LedgerEvent := mkSequenced (en_seq e) (en_at e) (en_event e).

Lemma book_log_sorted b : StronglySorted (fun x y => en_seq x < en_seq y) (book_log b h).
Proof.
  pose proof (ho_gapless _ (do_history _ _ Hdb) b) as Hg. revert Hg. generalize (book_log b h) as l. intros l Hg.
  assert (forall k, (forall i e, l !! i = Some e -> en_seq e = k + Z.of_nat i) -> StronglySorted (fun x y => en_seq x < en_seq y) l) as Hgo;
    [|by apply (Hgo 1)].
  clear Hg. induction l as [|e l IH]; intros k Hg; constructor.
  - apply (IH (k + 1)). intros i e' Hi. rewrite (Hg (S i) e' Hi). lia.
  - apply Forall_forall. intros e' [i Hi]%list_elem_of_lookup. rewrite (Hg 0%nat e eq_refl), (Hg (S i) e' Hi). lia.
Qed.

Lemma select_events_spec b from n :
  select_events b from n (committed s) = map event_row (sql_limit n (filter (fun e => from <= en_seq e) (book_log b h))).
Proof using Hdb.
  unfold select_events. rewrite (do_events _ _ Hdb).
  assert (filter (fun r => ev_book r = b /\ from <= ev_seq r) (map event_row h) =
    map event_row (filter (fun e => from <= en_seq e) (book_log b h))) as ->.
  { unfold book_log. rewrite list_filter_filter. clear. induction h as [|e l IH]; [done|]. cbn [map]. rewrite !filter_cons. cbn.
    destruct (decide (en_book e = b /\ from <= en_seq e)) as [[Hb Hf]|Hn].
    - rewrite decide_True by (by split). cbn. by rewrite IH.
    - rewrite decide_False by tauto. by rewrite IH. }
  rewrite sort_by_id.
  - unfold sql_limit. case_match; [done|]. by rewrite <- firstn_map.
  - pose proof (book_log_sorted b) as Hs. revert Hs. generalize (book_log b h) as l. induction 1 as [|e l Hs IH Hf]; [constructor|].
    rewrite filter_cons. case_decide; [|done]. cbn. constructor; [done|]. apply Forall_forall.
    intros r (e' & -> & He')%list_elem_of_fmap. apply list_elem_of_filter in He' as [_ He']. rewrite Forall_forall in Hf.
    specialize (Hf e' He'). cbn. lia.
Qed.

Lemma decode_events_spec l : (forall e, e ∈ l -> e ∈ h) -> decode_events (map event_row l) = Ok (map sequenced_entry l).
Proof using Hdb JsonLaws0.
  induction l as [|e l IH]; intros Hin; [done|]. cbn [map decode_events]. unfold event_row at 1, payload_of. cbn [ev_payload ev_seq ev_at].
  pose proof (ho_encoded _ (do_history _ _ Hdb) e (Hin e ltac:(by left))) as He. destruct (to_vec (en_event e)) as [b|] eqn:Eb; [|done].
  rewrite (from_slice_to_vec _ _ Eb). cbn. rewrite IH; [done|]. intros e' He'. apply Hin. by right.
Qed.

Lemma fetch_events_spec b from n :
  fetch_events b from n s = (Done (map sequenced_entry (sql_limit n (filter (fun e => from <= en_seq e) (book_log b h)))), s).
Proof using Hdb Hhealthy JsonLaws0.
  unfold fetch_events, sq_bind. rewrite pool_healthy by done. rewrite select_events_spec, decode_events_spec; [done|].
  intros e He. assert (e ∈ filter (fun e => from <= en_seq e) (book_log b h)) as [_ Hin]%list_elem_of_filter.
  { unfold sql_limit in He. case_match; [done|]. eapply elem_of_take in He as (i & Hi & _). by eapply list_elem_of_lookup_2. }
  by apply list_elem_of_filter in Hin as [_ ?].
Qed.

(** The events of a book from a number on. *)
Lemma filter_from b n : filter (fun e => n <= en_seq e) (book_log b h) = drop (Z.to_nat (n - 1)) (book_log b h).
Proof using Hdb.
  pose proof (ho_gapless _ (do_history _ _ Hdb) b) as Hg. revert Hg. generalize (book_log b h) as l. intros l Hg.
  assert (forall k, (forall i e, l !! i = Some e -> en_seq e = k + Z.of_nat i) ->
    filter (fun e => n <= en_seq e) l = drop (Z.to_nat (n - k)) l) as Hgo; [|by apply Hgo].
  clear Hg. induction l as [|e l IH]; intros k Hg; [by rewrite drop_nil|]. rewrite filter_cons.
  pose proof (Hg 0%nat e eq_refl) as He. rewrite Z.add_0_r in He.
  assert (forall i e', l !! i = Some e' -> en_seq e' = (k + 1) + Z.of_nat i) as Hg' by (intros i e' Hi; rewrite (Hg (S i) e' Hi); lia).
  case_decide.
  - replace (Z.to_nat (n - k)) with 0%nat by lia. cbn. f_equal. rewrite (IH _ Hg'). replace (Z.to_nat (n - (k + 1))) with 0%nat by lia. done.
  - replace (Z.to_nat (n - k)) with (S (Z.to_nat (n - (k + 1)))) by lia. cbn. by apply IH.
Qed.

(** [read_events] pages through a book's events in order. *)
Theorem sqlite_read_events_exact b from limit : 1 <= from -> 0 <= limit <= i64_max ->
  read_events b from limit s =
    (Done (map sequenced_entry (take (Z.to_nat limit) (drop (Z.to_nat (from - 1)) (book_log b h)))), s).
Proof using Hdb Hhealthy JsonLaws0.
  intros Hfrom Hl. unfold read_events, limit_i64. rewrite wrap_i64_id by (unfold i64_min; lia). rewrite fetch_events_spec.
  unfold sql_limit. assert (limit <? 0 = false) as -> by lia. by rewrite filter_from.
Qed.

(** A transaction is found by its id, as it was posted. *)
Theorem sqlite_transaction_exact txid :
  transaction txid s =
    (Done (e ← List.find (is_posting txid) h;
           match en_event e with TransactionPosted tx => Some (mkStoredTransaction tx (en_seq e) (en_at e)) | _ => None end), s).
Proof using Hdb Hhealthy JsonLaws0 H1.
  unfold transaction, sq_bind at 1. rewrite pool_healthy by done. rewrite (do_transactions _ _ Hdb).
  rewrite find_txid_row.
  destruct (List.find _ h) as [e|] eqn:Ef; [|done]. apply List.find_some in Ef as [Hin Hk]. apply list_elem_of_In in Hin. unfold is_posting in Hk.
  destruct (en_event e) as [| |tx] eqn:Eev; [done..|]. cbn. unfold transaction_row. rewrite Eev. cbn.
  unfold sq_bind. rewrite fetch_events_spec. unfold sql_limit. cbn [Z.ltb Z.compare]. change (Z.to_nat 1) with 1%nat.
  assert (e ∈ book_log (en_book e) h) as Hlog by (by apply list_elem_of_filter).
  assert (exists rest, filter (fun x => en_seq e <= en_seq x) (book_log (en_book e) h) = e :: rest) as [rest ->].
  { pose proof (book_log_sorted (en_book e)) as Hs. revert Hs Hlog. generalize (book_log (en_book e) h) as l. clear.
    induction 1 as [|x l Hs IH Hf]; intros Hin; [by apply elem_of_nil in Hin|]. rewrite filter_cons.
    apply elem_of_cons in Hin as [->|Hin]; [rewrite decide_True by lia; eauto|].
    rewrite Forall_forall in Hf. specialize (Hf e Hin). rewrite decide_False by lia. auto. }
  cbn. rewrite Eev. cbn. by rewrite Hk.
Qed.

(** ** Accounts *)

Lemma load_account_spec key : load_account key s = (Done (account_row_of h key), s).
Proof using Hdb Hhealthy.
  unfold load_account. rewrite pool_healthy by done. f_equal. f_equal. rewrite (do_accounts _ _ Hdb). unfold account_row_of.
  destruct (opened h key) as [[def cfg]|]; [|done]. cbn. by rewrite decode_accounts_row.
Qed.

Lemma signed_cell_exact r : Z.abs (po_minor r) <= i64_max -> signed_cell r = Int (row_delta r).
Proof.
  intros Hb. unfold signed_cell, row_delta. destruct (String.eqb _ _); [done|]. unfold i64_max in Hb.
  rewrite wrap_i64_id by (unfold i64_min, i64_max; lia). cbn [sql_neg]. apply cell_Int, in_i64_spec. unfold i64_min, i64_max. lia.
Qed.

Lemma row_delta_abs r : Z.abs (po_minor r) <= i64_max -> Z.abs (row_delta r) = Z.abs (po_minor r).
Proof.
  intros Hb. unfold row_delta. destruct (String.eqb _ _); [done|]. unfold i64_max in Hb.
  rewrite wrap_i64_id by (unfold i64_min, i64_max; lia). lia.
Qed.

Lemma sum_abs_elem l x : x ∈ l -> Z.abs x <= sum_abs l.
Proof.
  induction l as [|y l IH]; intros Hx; [by apply elem_of_nil in Hx|]. change (sum_abs (y :: l)) with (Z.abs y + sum_abs l).
  pose proof (sum_abs_nonneg l). apply elem_of_cons in Hx as [->|Hx]; [|specialize (IH Hx)]; lia.
Qed.

Lemma signed_sum rows : sum_abs (map po_minor rows) <= i64_max ->
  sql_sum (map signed_cell rows) = Ok (Int (sum_Z (map row_delta rows))).
Proof.
  intros Hb. assert (forall r, r ∈ rows -> Z.abs (po_minor r) <= i64_max) as Hr.
  { intros r Hr. etrans; [apply (sum_abs_elem (map po_minor rows)); by apply list_elem_of_fmap_2|done]. }
  assert (map signed_cell rows = map Int (map row_delta rows)) as ->.
  { rewrite map_map. apply map_ext_in. intros r Hin%list_elem_of_In. by apply signed_cell_exact, Hr. }
  apply sql_sum_exact. etrans; [|exact Hb]. unfold sum_abs. rewrite !map_map.
  assert (map (fun r => Z.abs (row_delta r)) rows = map (fun r => Z.abs (po_minor r)) rows) as ->; [|done].
  apply map_ext_in. intros r Hin%list_elem_of_In. by apply row_delta_abs, Hr.
Qed.

(** The current balance is the sum of the account's postings, and the balance
    at a time the sum of those committed by then. *)
Theorem sqlite_balance_exact account :
  let key := to_key account in
  match opened h key with
  | None => forall as_of, balance account as_of s = (Fail (Plain (UnknownAccount account)), s)
  | Some (def, cfg) =>
      balance account None s =
        (Done (mkBalanceSnapshot (mkAmount (effective (balance_of h key) (normal_side cfg)) (acct_asset def))
                 (default 0 (po_seq <$> last (account_rows key h)))), s) /\
      forall t, let rows := filter (fun r => po_committed_at r <= t) (account_rows key h) in
        sum_abs (map po_minor rows) <= i64_max ->
        balance account (Some t) s =
          (Done (mkBalanceSnapshot (mkAmount (effective (sum_Z (map row_delta rows)) (normal_side cfg)) (acct_asset def))
                   (sql_max (map po_seq rows))), s)
  end.
Proof using Hdb Hhealthy.
  intros key. destruct (opened h key) as [[def cfg]|] eqn:Eo.
  - unfold balance. fold key. split.
    + unfold sq_bind. rewrite load_account_spec. unfold account_row_of. rewrite Eo. cbn. rewrite pool_healthy by done.
      rewrite (do_balances _ _ Hdb). unfold balance_row. destruct (last (account_rows key h)) eqn:El; cbn; [done|].
      apply last_None in El. unfold balance_of. by rewrite El.
    + intros t. set (rows := filter _ (account_rows key h)). intros Hb. unfold sq_bind. rewrite load_account_spec. unfold account_row_of. rewrite Eo. cbn. rewrite pool_healthy by done.
      unfold select_raw_at. rewrite (do_postings _ _ Hdb).
      assert (filter (fun r => po_account_key r = key /\ po_committed_at r <= t) (all_postings h) = rows) as ->.
      { unfold rows, account_rows. rewrite list_filter_filter. apply list_filter_iff. tauto. }
      by rewrite signed_sum.
  - intros as_of. unfold balance, sq_bind. fold key. rewrite load_account_spec. unfold account_row_of. by rewrite Eo.
Qed.

(** *** Pages of postings *)

Definition record_of (account : AccountId) (r : PostingRow) : PostingRecord :=
  mkPostingRecord (po_seq r) (match parse_uuid (po_tx_id r) with Ok u => u | Err _ => 0 end) account
    (mkAmount (po_minor r) (po_asset r)) (default Debit (Direction_from_db (po_direction r))) (po_committed_at r).

Lemma decode_postings_spec account rows : (forall r, r ∈ rows -> r ∈ all_postings h) ->
  decode_postings account rows = Ok (map (record_of account) rows).
Proof using H1.
  induction rows as [|r rows IH]; intros Hin; [done|]. cbn [map decode_postings]. unfold record_of at 1.
  specialize (Hin r ltac:(by left)) as Hr. apply list_elem_of_In, in_concat in Hr as (l & (e & <- & _)%in_map_iff & Hr%list_elem_of_In).
  unfold posting_rows in Hr. destruct (en_event e) as [| |tx]; [by apply elem_of_nil in Hr..|].
  apply list_elem_of_lookup in Hr as [i Hi]. rewrite list_lookup_imap in Hi. destruct (tx_postings tx !! i) as [p|]; [|done]. injection Hi as <-.
  cbn. rewrite parse_uuid_text. cbn. rewrite IH by (intros r' Hr'; apply Hin; by right). by destruct (p_direction p).
Qed.

(** An account's postings after a number, in the order they are listed. *)
Definition postings_after (key : string) (after : Z) : list PostingRow :=
  sort_by posting_leb (filter (fun r => after < po_seq r) (account_rows key h)).

Lemma sorted_split (l : list PostingRow) last : StronglySorted (fun a b => posting_leb a b = true) l ->
  l = filter (fun r => po_seq r <= last) l ++ filter (fun r => last < po_seq r) l.
Proof.
  induction 1 as [|r l Hs IH Hf]; [done|]. rewrite !filter_cons. destruct (decide (po_seq r <= last)).
  - rewrite (decide_False (P := last < po_seq r)) by lia. cbn. by f_equal.
  - rewrite (decide_True (P := last < po_seq r)) by lia.
    assert (filter (fun r => po_seq r <= last) l = []) as Hnil.
    { apply filter_none, Forall_forall. intros x Hin Hx. rewrite Forall_forall in Hf. apply Hf, posting_leb_spec in Hin. lia. }
    rewrite Hnil in IH |- *. cbn. by f_equal.
Qed.

Lemma distinct_seqs_sorted rows : StronglySorted (fun a b => Z.leb a b = true) (distinct_seqs rows) /\ NoDup (distinct_seqs rows) /\
  forall q, q ∈ distinct_seqs rows <-> exists r, r ∈ rows /\ po_seq r = q.
Proof.
  unfold distinct_seqs. split_and!.
  - apply sort_by_sorted; [intros x y; apply (seq_leb_total id)|intros x y z; apply (seq_leb_trans id)].
  - rewrite sort_by_perm. apply NoDup_remove_dups.
  - intros q. rewrite sort_by_perm, elem_of_remove_dups, list_elem_of_fmap. naive_solver.
Qed.

(** The numbers up to the largest of the first [n] are the first [n]. *)
Lemma take_sorted (l : list Z) n : StronglySorted (fun a b => Z.leb a b = true) l -> NoDup l ->
  filter (fun q => q <= sql_max (take n l)) l = take n l \/ take n l = [].
Proof.
  intros Hs Hnd. destruct (decide (take n l = [])) as [|Hne]; [by right|left].
  destruct (sql_max_spec (take n l) Hne) as [Hin Hmax]. set (m := sql_max (take n l)) in *.
  assert (filter (fun q => q <= m) l = filter (fun q => q <= m) (take n l) ++ filter (fun q => q <= m) (drop n l)) as -> by (by rewrite <- filter_app, take_drop).
  assert (forall x y, x ∈ take n l -> y ∈ drop n l -> x < y) as Hlt.
  { rewrite <- (take_drop n l) in Hs, Hnd. revert Hs Hnd. generalize (take n l), (drop n l). clear.
    induction l as [|x l IH]; intros r Hs Hnd a b Ha Hb; [by apply elem_of_nil in Ha|]. cbn in Hs, Hnd.
    apply StronglySorted_inv in Hs as [Hs Hf]. apply NoDup_cons in Hnd as [Hnin Hnd]. apply elem_of_cons in Ha as [->|Ha]; [|by eapply IH].
    rewrite Forall_forall in Hf. specialize (Hf b ltac:(apply elem_of_app; by right)). apply Z.leb_le in Hf.
    assert (x <> b) by (intros ->; apply Hnin, elem_of_app; by right). lia. }
  assert (filter (fun q => q <= m) (drop n l) = []) as ->.
  { apply filter_none, Forall_forall. intros y Hd Hy. specialize (Hlt _ y Hin Hd). lia. }
  rewrite app_nil_r. apply filter_all, Forall_forall. intros x Hx. by apply Hmax.
Qed.

Lemma row_seq_positive r : r ∈ all_postings h -> 1 <= po_seq r.
Proof using Hdb.
  intros Hr. apply list_elem_of_In, in_concat in Hr as (l & (e & <- & He%list_elem_of_In)%in_map_iff & Hr%list_elem_of_In).
  unfold posting_rows in Hr. destruct (en_event e) as [| |tx]; [by apply elem_of_nil in Hr..|].
  apply list_elem_of_lookup in Hr as [i Hi]. rewrite list_lookup_imap in Hi. destruct (tx_postings tx !! i) as [p|]; [|done]. injection Hi as <-. cbn.
  assert (e ∈ book_log (en_book e) h) as [j Hj]%list_elem_of_lookup by (by apply list_elem_of_filter).
  rewrite (ho_gapless _ (do_history _ _ Hdb) _ _ _ Hj). lia.
Qed.

(** The rows up to the [n]-th distinct number. *)
Definition page_last (n : nat) (rows : list PostingRow) : Z := sql_max (take n (distinct_seqs rows)).

Lemma page_seqs n rows : (forall r, r ∈ rows -> 1 <= po_seq r) ->
  length (distinct_seqs (filter (fun r => po_seq r <= page_last n rows) rows)) = Nat.min n (length (distinct_seqs rows)).
Proof.
  intros Hpos. destruct (distinct_seqs_sorted rows) as (Hs & Hnd & Hel).
  rewrite <- length_take. apply Permutation_length, NoDup_Permutation.
  - apply distinct_seqs_sorted.
  - eapply sublist_NoDup; [exact Hnd|apply sublist_take].
  - intros q. destruct (distinct_seqs_sorted (filter (fun r => po_seq r <= page_last n rows) rows)) as (_ & _ & Hel').
    rewrite Hel'. setoid_rewrite list_elem_of_filter. destruct (take_sorted (distinct_seqs rows) n Hs Hnd) as [Ht|Ht].
    + fold (page_last n rows) in Ht. rewrite <- Ht, list_elem_of_filter, Hel. naive_solver.
    + unfold page_last. rewrite Ht. cbn [sql_max]. rewrite elem_of_nil. split; [|done].
      intros (r & [Hle Hr] & _). specialize (Hpos r Hr). lia.
Qed.

(** [account_history] pages through an account's postings by whole
    transactions: at most [limit] numbers, all of them unless no posting is
    left, and what follows has larger numbers. *)
Theorem sqlite_history_pages account after limit :
  let key := to_key account in
  opened h key <> None -> 0 <= limit <= i64_max ->
  exists page rest,
    account_history account after limit s = (Done (map (record_of account) page), s) /\
    postings_after key (default 0 after) = page ++ rest /\
    length (distinct_seqs page) = Nat.min (Z.to_nat limit) (length (distinct_seqs (postings_after key (default 0 after)))) /\
    forall x y, x ∈ page -> y ∈ rest -> po_seq x < po_seq y.
Proof using Hdb Hhealthy H1.
  intros key Ho Hl. set (rows := filter (fun r => default 0 after < po_seq r) (account_rows key h)).
  set (last := page_last (Z.to_nat limit) rows). set (v := postings_after key (default 0 after)).
  assert (StronglySorted (fun a b => posting_leb a b = true) v) as Hv by (apply sort_by_sorted; [apply posting_leb_total|apply posting_leb_trans]).
  assert (v ≡ₚ rows) as Hperm by apply sort_by_perm.
  assert (forall r, r ∈ rows -> r ∈ all_postings h) as Hin by (intros r [_ [_ ?]%list_elem_of_filter]%list_elem_of_filter; done).
  assert (distinct_seqs v ≡ₚ distinct_seqs rows) as Hd.
  { destruct (distinct_seqs_sorted v) as (_ & Hn1 & He1), (distinct_seqs_sorted rows) as (_ & Hn2 & He2).
    apply NoDup_Permutation; [done..|]. intros q. rewrite He1, He2. by setoid_rewrite Hperm. }
  exists (filter (fun r => po_seq r <= last) v), (filter (fun r => last < po_seq r) v). split_and!.
  - unfold account_history, sq_bind. fold key. rewrite load_account_spec. unfold account_row_of.
    destruct (opened h key) as [[def cfg]|]; [|done]. cbn. rewrite pool_healthy by done. unfold limit_i64.
    rewrite wrap_i64_id by (unfold i64_min; lia). unfold select_history. rewrite (do_postings _ _ Hdb).
    assert (filter (fun r => po_account_key r = key /\ default 0 after < po_seq r) (all_postings h) = rows) as ->.
    { unfold rows, account_rows. rewrite list_filter_filter. apply list_filter_iff. tauto. }
    unfold sql_limit. assert (limit <? 0 = false) as -> by lia. fold (page_last (Z.to_nat limit) rows). fold last.
    rewrite sort_by_filter by (apply posting_leb_total || apply posting_leb_trans).
    rewrite decode_postings_spec; [done|]. intros r [_ Hr]%list_elem_of_filter. apply Hin. by rewrite <- Hperm.
  - by apply sorted_split.
  - rewrite (Permutation_length Hd), <- (page_seqs (Z.to_nat limit) rows) by (intros r Hr; by apply row_seq_positive, Hin). fold last.
    apply Permutation_length. unfold distinct_seqs. rewrite !sort_by_perm. apply NoDup_Permutation; [apply NoDup_remove_dups..|].
    intros q. rewrite !elem_of_remove_dups, !list_elem_of_fmap. setoid_rewrite list_elem_of_filter. by setoid_rewrite Hperm.
  - intros x y [Hx _]%list_elem_of_filter [Hy _]%list_elem_of_filter. lia.
Qed.

(** ** Trial balances *)

Definition book_rows (book : Book) (as_of : option DateTime) : list PostingRow :=
  filter (fun r => po_book r = book /\ match as_of with None => true | Some at_ => po_committed_at r <=? at_ end = true) (all_postings h).

Definition debits_of (rows : list PostingRow) : Z := sum_Z (map (fun r => if String.eqb (po_direction r) "D" then po_minor r else 0) rows).
Definition credits_of (rows : list PostingRow) : Z := sum_Z (map (fun r => if String.eqb (po_direction r) "C" then po_minor r else 0) rows).

Lemma sum_abs_le {A} (f g : A -> Z) l : (forall x, x ∈ l -> Z.abs (f x) <= Z.abs (g x)) -> sum_abs (map f l) <= sum_abs (map g l).
Proof.
  induction l as [|x l IH]; intros Hfg; [done|]. cbn [map]. change (sum_abs (f x :: map f l)) with (Z.abs (f x) + sum_abs (map f l)).
  change (sum_abs (g x :: map g l)) with (Z.abs (g x) + sum_abs (map g l)).
  specialize (Hfg x ltac:(by left)) as Hx. specialize (IH ltac:(intros y Hy; apply Hfg; by right)). lia.
Qed.

Lemma sum_abs_filter {A} (f : A -> Z) (P : A -> Prop) `{!forall x, Decision (P x)} l : sum_abs (map f (filter P l)) <= sum_abs (map f l).
Proof.
  induction l as [|x l IH]; [done|]. rewrite filter_cons. cbn [map]. change (sum_abs (f x :: map f l)) with (Z.abs (f x) + sum_abs (map f l)).
  case_decide; cbn [map]; [change (sum_abs (f x :: map f (filter P l))) with (Z.abs (f x) + sum_abs (map f (filter P l)))|]; lia.
Qed.

Lemma group_rows_spec assets rows : sum_abs (map po_minor rows) <= i64_max ->
  group_rows assets rows = Ok (map (fun a => let mine := filter (fun r => po_asset r = a) rows in (a, (Int (debits_of mine), Int (credits_of mine)))) assets).
Proof.
  intros Hb. induction assets as [|a assets IH]; [done|]. cbn [group_rows map]. set (mine := filter (fun r => po_asset r = a) rows).
  assert (sum_abs (map po_minor mine) <= i64_max) as Hm by (etrans; [apply sum_abs_filter|done]).
  assert (sql_sum (map debit_cell mine) = Ok (Int (debits_of mine))) as ->.
  { unfold debits_of. rewrite <- sql_sum_exact; [|etrans; [|exact Hm]; apply sum_abs_le; intros r _; case_match; lia].
    rewrite map_map. f_equal. apply map_ext. intros r. unfold debit_cell. by case_match. }
  assert (sql_sum (map credit_cell mine) = Ok (Int (credits_of mine))) as ->.
  { unfold credits_of. rewrite <- sql_sum_exact; [|etrans; [|exact Hm]; apply sum_abs_le; intros r _; case_match; lia].
    rewrite map_map. f_equal. apply map_ext. intros r. unfold credit_cell. by case_match. }
  by rewrite IH.
Qed.

Lemma get_trial_rows_spec {A} (f : A -> string) (d c : A -> Z) l :
  get_trial_rows (map (fun x => (f x, (Int (d x), Int (c x)))) l) s = (Done (map (fun x => mkTrialBalanceRow (f x) (d x) (c x)) l), s).
Proof. induction l as [|x l IH]; [done|]. cbn [map get_trial_rows]. unfold sq_bind. cbn. by rewrite IH. Qed.

(** The trial balance: one row for each asset of the book's postings, in
    order, with the sums of its debits and credits. *)
Theorem sqlite_trial_balance_exact book as_of :
  let rows := book_rows book as_of in
  sum_abs (map po_minor rows) <= i64_max ->
  trial_balance book as_of s =
    (Done (map (fun a => let mine := filter (fun r => po_asset r = a) rows in mkTrialBalanceRow a (debits_of mine) (credits_of mine))
             (sort_by String.leb (remove_dups (map po_asset rows)))), s).
Proof using Hdb Hhealthy.
  intros rows Hb. unfold trial_balance, sq_bind. rewrite pool_healthy by done. unfold select_trial. rewrite (do_postings _ _ Hdb).
  fold (book_rows book as_of). fold rows. rewrite group_rows_spec by done.
  apply (get_trial_rows_spec (fun a : string => a) (fun a => debits_of (filter (fun r => po_asset r = a) rows))
    (fun a => credits_of (filter (fun r => po_asset r = a) rows))).
Qed.
End reads.
