(* ===== verification/SqlSubscribe.v ===== *)
(** Subscriptions of the SQL stores: what [subscribe] of
    talea-store-sqlite/src/lib.rs and of talea-store-postgres/src/lib.rs have in
    common.

    Both streams page through the log until a page is empty and then wait for
    a wake-up.  A subscription is a machine whose steps are the suspension
    points of the stream, beside a database that others write to; it sees
    committed tables only. *)

From S2P Require Import Prelude Core Disk Sql Sqlite SqliteSpec SqliteCommit SqliteHistory SqliteReads.
Open Scope Z_scope.

(** What a store is asked to do. *)
Inductive StoreOp :=
| RegisterOp (asset : AssetDef)
| OpenOp (def : AccountDef) (cfg : AccountCfg)
| CommitOp (tx : Transaction)
| BatchOp (txs : list Transaction).

(** ** The stream *)

Inductive SubPhase := Catching (next : Seq) | Waiting (next : Seq) | Over.

#[export] Instance SubPhase_eq_dec : EqDecision SubPhase.
Proof. solve_decision. Defined.

Definition Item : Type := result (Sequenced LedgerEvent) DbError.

Definition PAGE : Z := 256.

(** A turn of the catch-up loop, given what [fetch_events] returned. *)
Definition on_page (next : Seq) (r : outcome (list (Sequenced LedgerEvent))) : list Item * SubPhase :=
  match r with
  | Done [] => ([], Waiting next)
  | Done batch => (map Ok batch, Catching (foldl (fun _ ev => s_seq ev + 1) next batch))
  | Fail e => ([Err e], Over)
  | Panicked => ([], Over)
  end.

(** ** What was yielded *)

Lemma take_length_take {A} n (l : list A) : take (length (take n l)) l = take n l.
Proof. rewrite length_take. destruct (Nat.min_spec n (length l)) as [[_ ->]|[? ->]]; [done|]. by rewrite !take_ge by lia. Qed.

Section stream.
Context `{HashIterLaws} `{UuidTextLaws} `{Json LedgerEvent} `{!JsonLaws LedgerEvent} `{Json (list ExternalRef)}.
Variable b : Book.
Variable from : Seq.

Definition upto (n : Seq) (h : list Entry) : list Entry := take (Z.to_nat (n - 1)) (book_log b h).

(** The book's events from [from] up to [n]. *)
Definition slice (n : Seq) (h : list Entry) : list Entry := drop (Z.to_nat (from - 1)) (upto n h).

Definition items (l : list Entry) : list Item := map Ok (map sequenced_entry l).

(** A cursor is where the subscription starts or within the log. *)
Definition cursor_ok (n : Seq) (h : list Entry) : Prop :=
  from <= n /\ (n = from \/ n <= 1 + Z.of_nat (length (book_log b h))).

(** What a subscription has yielded: the events up to its cursor, each once,
    in order and without a gap, and at most an error at the end. *)
Definition sub_ok (h : list Entry) (p : SubPhase) (out : list Item) : Prop :=
  match p with
  | Catching n | Waiting n => cursor_ok n h /\ out = items (slice n h)
  | Over => exists n tail, cursor_ok n h /\ out = items (slice n h) ++ tail /\ (tail = [] \/ exists e, tail = [Err e])
  end.

Lemma upto_app n h evs : n <= 1 + Z.of_nat (length (book_log b h)) -> upto n (h ++ evs) = upto n h.
Proof. intros Hn. unfold upto, book_log in *. rewrite filter_app, take_app_le by lia. done. Qed.

Lemma slice_app n h evs : cursor_ok n h -> slice n (h ++ evs) = slice n h.
Proof.
  intros [_ [->|Hn]]; [|unfold slice; by rewrite upto_app]. unfold slice, upto. by rewrite !skipn_firstn_comm, Nat.sub_diag, !take_0.
Qed.

Lemma cursor_app n h evs : cursor_ok n h -> cursor_ok n (h ++ evs).
Proof. intros [? Hn]. split; [done|]. destruct Hn as [|Hn]; [by left|right]. unfold book_log in *. rewrite filter_app, length_app. lia. Qed.

Lemma sub_ok_app h evs p out : sub_ok h p out -> sub_ok (h ++ evs) p out.
Proof.
  destruct p as [n|n|]; cbn; [intros [Hc ->]|intros [Hc ->]|intros (n & tail & Hc & -> & Ht)].
  1-2: split; [by apply cursor_app|by rewrite slice_app].
  exists n, tail. split; [by apply cursor_app|]. by rewrite slice_app.
Qed.

(** A page of the log. *)
Definition page (n : Seq) (h : list Entry) : list Entry := take (Z.to_nat PAGE) (drop (Z.to_nat (n - 1)) (book_log b h)).

Lemma page_cursor n h l e : history_ok h -> page n h = l ++ [e] -> en_seq e = Z.of_nat (Z.to_nat (n - 1)) + Z.of_nat (length (page n h)).
Proof.
  intros Hh Hp. assert (page n h !! length l = Some e) as Hl by (rewrite Hp, lookup_app_r, Nat.sub_diag by lia; done).
  unfold page in Hl. apply lookup_take_Some in Hl as [Hl _]. rewrite lookup_drop in Hl. rewrite (ho_gapless _ Hh b _ _ Hl), Hp, length_app. cbn. lia.
Qed.

Lemma page_next n h : history_ok h -> page n h <> [] ->
  foldl (fun _ ev => s_seq ev + 1) n (map sequenced_entry (page n h)) = 1 + Z.of_nat (Z.to_nat (n - 1)) + Z.of_nat (length (page n h)).
Proof.
  intros Hh Hne. destruct (exists_last Hne) as (l & e & Hp). pose proof (page_cursor n h l e Hh Hp) as He.
  rewrite Hp, map_app, foldl_app. cbn. rewrite <- Hp, He. lia.
Qed.

(** Everything of the book was yielded. *)
Definition caught_up (h : list Entry) (out : list Item) : Prop := out = items (drop (Z.to_nat (from - 1)) (book_log b h)).

Definition remaining (n : Seq) (h : list Entry) : nat := (length (book_log b h) - Z.to_nat (n - 1))%nat.

Lemma page_length n h : (length (page n h) <= remaining n h)%nat /\ (page n h = [] -> remaining n h = 0%nat).
Proof.
  unfold page, remaining. rewrite length_take, length_drop. split; [lia|]. intros Hp%(f_equal length). rewrite length_take, length_drop in Hp.
  change (Z.to_nat PAGE) with 256%nat in Hp. change (length []) with 0%nat in Hp. lia.
Qed.

Lemma on_page_more n h : history_ok h -> page n h <> [] ->
  on_page n (Done (map sequenced_entry (page n h))) =
    (items (page n h), Catching (1 + Z.of_nat (Z.to_nat (n - 1)) + Z.of_nat (length (page n h)))).
Proof. intros Hh Hne. rewrite <- page_next by done. by destruct (page n h). Qed.

Lemma upto_page n h : upto (1 + Z.of_nat (Z.to_nat (n - 1)) + Z.of_nat (length (page n h))) h = upto n h ++ page n h.
Proof.
  unfold upto, page. set (k := Z.to_nat (n - 1)). set (m := length (take _ _)).
  replace (Z.to_nat (1 + Z.of_nat k + Z.of_nat m - 1)) with (k + m)%nat by lia. rewrite <- take_take_drop. f_equal. apply take_length_take.
Qed.

(** Yielding a page keeps the account, and is progress. *)
Lemma page_ok n h out : history_ok h -> sub_ok h (Catching n) out ->
  let '(l, p) := on_page n (Done (map sequenced_entry (page n h))) in
  sub_ok h p (out ++ l) /\
  ((p = Waiting n /\ caught_up h (out ++ l)) \/ exists n', p = Catching n' /\ (remaining n' h < remaining n h)%nat).
Proof.
  intros Hh [Hc ->]. destruct (page_length n h) as [Hlen Hdry]. destruct (decide (page n h = [])) as [Hp|Hp].
  - rewrite Hp. cbn [on_page map]. rewrite app_nil_r. split; [done|]. left. split; [done|]. specialize (Hdry Hp). unfold remaining in Hdry.
    unfold caught_up, slice, upto. by rewrite take_ge by lia.
  - rewrite on_page_more by done. assert (0 < length (page n h))%nat as Hpos by (destruct (page n h); [done|cbn; lia]).
    unfold remaining in *. destruct Hc as [Hf Hc]. split; [|right; eexists; split; [done|]; lia]. split.
    + split; [lia|]. right. lia.
    + unfold items, slice. rewrite upto_page, drop_app_le, !map_app; [done|]. unfold upto. rewrite length_take. lia.
Qed.

Lemma error_ok n h out e : sub_ok h (Catching n) out -> sub_ok h Over (out ++ [Err e]).
Proof. intros [Hc ->]. exists n, [Err e]. split_and!; [done..|]. right. by exists e. Qed.

Lemma over_ok p h out : sub_ok h p out -> sub_ok h Over out.
Proof.
  destruct p as [n|n|]; cbn; [intros [Hc ->]|intros [Hc ->]|done]; exists n, []; rewrite app_nil_r; split_and!; auto.
Qed.

(** ** What a subscription that waits has not seen is announced to it *)

Record sub_inv (h : list Entry) (p : SubPhase) (out : list Item) (announced : Prop) : Prop := {
  si_ok : sub_ok h p out;
  si_awake : forall n, p = Waiting n -> caught_up h out \/ announced
}.

Lemma sub_inv_mono h p out (P Q : Prop) : (P -> Q) -> sub_inv h p out P -> sub_inv h p out Q.
Proof. intros HPQ [Hok Ha]. split; [done|]. intros n Hn. destruct (Ha n Hn); auto. Qed.

Lemma sub_inv_write h evs p out (P Q : Prop) :
  (P -> Q) -> (forall e, e ∈ evs -> en_book e = b -> Q) -> sub_inv h p out P -> sub_inv (h ++ evs) p out Q.
Proof.
  intros HPQ Hevs [Hok Ha]. split; [by apply sub_ok_app|]. intros n Hn. destruct (Ha n Hn) as [Hup|]; [|auto].
  destruct (filter (fun e => en_book e = b) evs) as [|e l] eqn:El.
  - left. unfold caught_up, book_log in *. by rewrite filter_app, El, app_nil_r.
  - right. assert (e ∈ filter (fun e => en_book e = b) evs) as [? ?]%list_elem_of_filter by (rewrite El; by left). by apply (Hevs e).
Qed.

Lemma sub_inv_page h n out x P : history_ok h -> sub_inv h (Catching n) out P ->
  x = Done (map sequenced_entry (page n h)) \/ (exists e, x = Fail e) ->
  let '(l, p) := on_page n x in sub_inv h p (out ++ l) P.
Proof.
  intros Hh [Hok _] [->|[e ->]].
  - pose proof (page_ok n h out Hh Hok) as Hp. destruct (on_page n _) as [l p]. destruct Hp as [Hok' [[-> Hup]|(n' & -> & _)]]; (split; [done|]); auto.
    by intros m.
  - split; [by eapply error_ok|]. by intros m.
Qed.

Lemma sub_inv_catch h n out P Q : sub_inv h (Waiting n) out P -> sub_inv h (Catching n) out Q.
Proof. intros [Hok _]. split; [exact Hok|]. by intros m. Qed.

(** Turns still to come when nobody writes, with [queue] messages to read. *)
Definition turns_left (queue : nat) (p : SubPhase) (h : list Entry) : nat :=
  match p with
  | Catching n => (queue * (length (book_log b h) + 2) + remaining n h + 2)%nat
  | Waiting _ => (queue * (length (book_log b h) + 2) + 1)%nat
  | Over => 0%nat
  end.

Lemma turns_page queue n h out : history_ok h -> sub_ok h (Catching n) out ->
  (turns_left queue (on_page n (Done (map sequenced_entry (page n h)))).2 h < turns_left queue (Catching n) h)%nat /\
  (on_page n (Done (map sequenced_entry (page n h)))).2 <> Over.
Proof.
  intros Hh Hok. pose proof (page_ok n h out Hh Hok) as Hp. destruct (on_page n _) as [l p].
  destruct Hp as [_ [[-> _]|(n' & -> & Hlt)]]; cbn; (split; [lia|done]).
Qed.

Lemma turns_wake queue queue' n p h : (queue' < queue)%nat -> p = Catching n \/ p = Waiting n ->
  (turns_left queue' p h < turns_left queue (Waiting n) h)%nat.
Proof.
  intros Hq Hp. cbn [turns_left]. set (w := (length (book_log b h) + 2)%nat). assert (remaining n h <= length (book_log b h))%nat as Hrem by (unfold remaining; lia).
  assert ((queue' + 1) * w <= queue * w)%nat by (apply Nat.mul_le_mono_r; lia). destruct Hp as [->| ->]; cbn [turns_left]; fold w; lia.
Qed.

Lemma turns_over queue queue' n h : (turns_left queue' Over h < turns_left queue (Waiting n) h)%nat.
Proof. cbn. rewrite Nat.add_1_r. apply Nat.lt_0_succ. Qed.

(** What the catch-up loop yields is never an error of its own. *)
Lemma items_no_error l e : last (items l) <> Some (Err e).
Proof. unfold items. rewrite fmap_last. by destruct (last _). Qed.

Lemma sub_inv_over h p out P Q : sub_inv h p out P -> sub_inv h Over out Q.
Proof. intros [Hok _]. split; [by eapply over_ok|]. by intros m. Qed.
End stream.
