(* ===== verification/SqliteDemo.v ===== *)
(** A small SQLite ledger, evaluated: an asset, two accounts, a sale.  Its
    connection is where the theorems of the SQLite files are applied. *)

From S2P Require Import Prelude Core Disk Frame Sql Sqlite SqliteSpec SqliteCommit SqliteHistory SqliteBatch SqliteReads.
Open Scope Z_scope.

(** A text for ids: their bits. *)
Fixpoint bits_text (p : positive) : string :=
  match p with
  | xH => EmptyString
  | xO p => String "0" (bits_text p)
  | xI p => String "1" (bits_text p)
  end.

Fixpoint text_bits (s : string) : positive :=
  match s with
  | EmptyString => xH
  | String c s => if Ascii.eqb c "0" then xO (text_bits s) else xI (text_bits s)
  end.

Lemma text_bits_text p : text_bits (bits_text p) = p.
Proof. induction p; cbn; congruence. Qed.

Module SqliteDemo.
#[export] Instance demo_hash_iter : HashIter := some_hash_iter.
#[export] Instance demo_hash_iter_laws : HashIterLaws := some_hash_iter_laws.
#[export] Instance demo_event_json : Json LedgerEvent := CountableJson LedgerEvent.
#[export] Instance demo_event_json_laws : JsonLaws LedgerEvent := CountableJson_laws LedgerEvent.
#[export] Instance demo_refs_json : Json (list ExternalRef) := CountableJson (list ExternalRef).
#[export] Instance demo_texts : UuidText := {|
  uuid_text := fun u => bits_text (encode u);
  parse_uuid := fun s => ok_or (decode (text_bits s)) "invalid"%string;
  store_error_text := fun _ => "refused"%string
|}.
#[export] Instance demo_texts_laws : UuidTextLaws.
Proof. intros u. cbn. by rewrite text_bits_text, decode_encode. Qed.
End SqliteDemo.

Section demo.
Import SqliteDemo.

Definition acc (path : string) : AccountId := mkAccountId "shop" path.
Definition usd : AssetDef := mkAssetDef "USD" Fiat 2 "US dollar".
Definition cash : AccountDef := mkAccountDef (acc "cash") "USD" Asset.
Definition cash_cfg : AccountCfg := mkAccountCfg (Some Debit) (Some 0).
Definition sales : AccountDef := mkAccountDef (acc "sales") "USD" Income.
Definition sales_cfg : AccountCfg := mkAccountCfg (Some Credit) None.

Definition transfer (id : Z) (key from to : string) (m : Z) : Transaction :=
  mkTransaction id "shop"
    [mkPosting (acc to) (mkAmount m "USD") Debit; mkPosting (acc from) (mkAmount m "USD") Credit] key [] "null" 100.

Definition sale : Transaction := transfer 7 "order-1" "sales" "cash" 50.
Definition refund : Transaction := transfer 8 "order-2" "cash" "sales" 20.
(** More than there is. *)
Definition overdraft : Transaction := transfer 9 "order-3" "cash" "sales" 500.

Definition fresh : Conn := mkConn Tables_empty Tables_empty [] [] (fun n => 1000000 * Z.of_nat n) 0 [].
Definition with_usd : Conn := (register_asset usd fresh).2.
Definition with_cash : Conn := (open_account cash cash_cfg with_usd).2.
Definition shop : Conn := (open_account sales sales_cfg with_cash).2.

Definition shop_history : list Entry :=
  [mkEntry "_system" 1 0 (AssetRegistered usd); mkEntry "shop" 1 1000000 (AccountOpened cash cash_cfg);
   mkEntry "shop" 2 2000000 (AccountOpened sales sales_cfg)].

Lemma shop_ok : db_ok (committed shop) shop_history /\ script shop = [].
Proof.
  split; [|vm_compute; reflexivity].
  assert (db_ok (committed with_usd) [mkEntry "_system" 1 0 (AssetRegistered usd)]) as H1.
  { pose proof (register_asset_healthy [] usd fresh db_ok_empty eq_refl ltac:(cbn; lia)) as Hr. unfold with_usd.
    destruct (register_asset usd fresh) as [o s] eqn:E. assert (o = Done ()) as -> by (apply (f_equal fst) in E; vm_compute in E; by subst).
    exact (proj1 (proj2 Hr)). }
  assert (db_ok (committed with_cash) (take 2 shop_history)) as H2.
  { pose proof (open_account_healthy _ cash cash_cfg with_usd H1 ltac:(vm_compute; reflexivity)) as Hr. unfold with_cash.
    destruct (open_account cash cash_cfg with_usd) as [o s] eqn:E. assert (o = Done ()) as -> by (apply (f_equal fst) in E; vm_compute in E; by subst).
    exact (proj1 (proj2 Hr)). }
  pose proof (open_account_healthy _ sales sales_cfg with_cash H2 ltac:(vm_compute; reflexivity)) as Hr. unfold shop.
  destruct (open_account sales sales_cfg with_cash) as [o s] eqn:E. assert (o = Done ()) as -> by (apply (f_equal fst) in E; vm_compute in E; by subst).
  exact (proj1 (proj2 Hr)).
Qed.

Definition receipt : Committed := mkCommitted 7 3 3000000.

Lemma sale_done : (commit sale shop).1 = Done receipt.
Proof. vm_compute. reflexivity. Qed.

Definition sold : Conn := (commit sale shop).2.
Definition sold_history : list Entry := shop_history ++ [mkEntry "shop" 3 3000000 (TransactionPosted sale)].

Lemma sold_ok : db_ok (committed sold) sold_history /\ script sold = [].
Proof.
  split; [|vm_compute; reflexivity]. destruct shop_ok as [Hdb Hs].
  destruct (commit_healthy shop_history sale shop Hdb Hs eq_refl) as (evs & Hspec & Hok). rewrite sale_done in Hspec.
  fold sold in Hok. assert (posted shop_history sale (now shop) = mkEntry "shop" 3 3000000 (TransactionPosted sale)) as Hp
    by (vm_compute; reflexivity).
  inversion Hspec as [e c Hprior|c Hprior Hac Hc|]; subst; [exfalso; revert Hprior; vm_compute; discriminate|].
  rewrite Hp in Hok. exact Hok.
Qed.

(** The sale is posted; what draws more than the till has is refused. *)
Lemma commit_exact_witness :
  ((commit sale shop).1 = Done receipt /\
   exists evs, db_ok (committed (commit sale shop).2) (shop_history ++ evs) /\ draft_spec shop_history sale (now shop) (Some receipt) evs) /\
  ((commit overdraft shop).1 = Fail (Plain (ConstraintViolation (acc "cash") 0 (-500))) /\
   db_ok (committed (commit overdraft shop).2) shop_history /\ draft_spec shop_history overdraft (now shop) None [] /\
   refusal shop_history overdraft (Fail (Plain (ConstraintViolation (acc "cash") 0 (-500))))).
Proof.
  destruct shop_ok as [Hdb Hs]. split.
  - split; [exact sale_done|]. destruct (commit_exact shop_history sale shop Hdb Hs eq_refl) as (evs & Hok & Hspec). exists evs.
    rewrite sale_done in Hspec. by split.
  - assert ((commit overdraft shop).1 = Fail (Plain (ConstraintViolation (acc "cash") 0 (-500)))) as He by (vm_compute; reflexivity).
    split; [exact He|]. destruct (commit_exact shop_history overdraft shop Hdb Hs eq_refl) as (evs & Hok & Hspec).
    rewrite He in Hspec. destruct Hspec as (-> & Hspec & Hr). rewrite app_nil_r in Hok. by split_and!.
Defined.

Lemma committed_script l s : committed (set_script l s) = committed s.
Proof. done. Qed.

(** The disk fails at the balance upsert. *)
Definition failing : Conn := set_script [None; None; None; None; Some (SqlError "disk I/O error")] shop.

Lemma commit_atomic_witness :
  is_done (commit sale failing).1 = false /\
  exists evs, db_ok (committed (commit sale failing).2) (shop_history ++ evs) /\
    match (commit sale failing).1 with
    | Done c => draft_spec shop_history sale (now failing) (Some c) evs
    | _ => evs = []
    end.
Proof.
  assert (db_ok (committed failing) shop_history) as Hdb by (unfold failing; rewrite committed_script; exact (proj1 shop_ok)).
  split; [vm_compute; reflexivity|]. exact (commit_atomic shop_history sale failing Hdb).
Defined.

Definition tips : AccountDef := mkAccountDef (acc "tips") "USD" Income.

Lemma definitions_exact_witness :
  outcome_result (register_asset usd shop).1 = Some (Ok ()) /\
  outcome_result (open_account tips sales_cfg shop).1 = Some (Ok ()) /\
  db_ok (committed (open_account tips sales_cfg shop).2) (shop_history ++ [mkEntry "shop" 3 3000000 (AccountOpened tips sales_cfg)]).
Proof.
  destruct shop_ok as [Hdb Hs].
  destruct (definitions_exact shop_history shop usd tips sales_cfg Hdb Hs ltac:(cbn; lia)) as [Hr Ho].
  split; [vm_compute; reflexivity|]. split; [vm_compute; reflexivity|].
  assert (open_spec shop_history tips sales_cfg (now shop) = (Ok (), [mkEntry "shop" 3 3000000 (AccountOpened tips sales_cfg)])) as Es
    by (vm_compute; reflexivity).
  rewrite Es in Ho. apply Ho; [vm_compute; discriminate|reflexivity|reflexivity].
Defined.

(** A draft over the balance in the middle, and a retry at the end. *)
Definition drafts : list Transaction := [sale; overdraft; refund; sale].

Lemma batch_is_sequential_witness :
  (commit_batch drafts shop).1 = Done (map draft_result (commit_each drafts shop).1) /\
  committed (commit_batch drafts shop).2 = committed (commit_each drafts shop).2 /\
  tick (commit_batch drafts shop).2 = tick (commit_each drafts shop).2.
Proof.
  destruct shop_ok as [Hdb Hs]. apply (batch_is_sequential shop_history drafts shop Hdb Hs). vm_compute. reflexivity.
Defined.

Definition draft_results : list (result Committed DbError) :=
  [Ok receipt; Err (Plain (ConstraintViolation (acc "cash") 0 (-450))); Ok (mkCommitted 8 4 5000000); Ok receipt].

Lemma batch_atomic_witness :
  (commit_batch drafts shop).1 = Done draft_results /\
  length draft_results = length drafts /\
  (Exists (fun r => exists e, r = Err e /\ undo_failed e) draft_results \/
   exists evs, db_ok (committed (commit_batch drafts shop).2) (shop_history ++ evs) /\
     on_record (shop_history ++ evs) drafts draft_results /\ posts_of drafts evs).
Proof.
  assert ((commit_batch drafts shop).1 = Done draft_results) as Hr by (vm_compute; reflexivity). split; [exact Hr|].
  pose proof (batch_atomic shop_history drafts shop (proj1 shop_ok)) as Hb. rewrite Hr in Hb. exact Hb.
Defined.

Lemma sqlite_history_kept_witness :
  exists evs, db_ok (committed sold) ([] ++ evs).
Proof.
  apply (sqlite_history_kept fresh sold [] ); [|exact db_ok_empty].
  eapply rtc_l; [apply (step_register usd); cbn; lia|]. eapply rtc_l; [apply (step_open cash cash_cfg)|].
  eapply rtc_l; [apply (step_open sales sales_cfg)|]. eapply rtc_l; [apply (step_commit sale)|]. apply rtc_refl.
Defined.

Lemma sqlite_read_events_exact_witness :
  read_events "shop" 2 2 sold =
    (Done [mkSequenced 2 2000000 (AccountOpened sales sales_cfg); mkSequenced 3 3000000 (TransactionPosted sale)], sold).
Proof. exact (sqlite_read_events_exact sold sold_history (proj2 sold_ok) (proj1 sold_ok) "shop" 2 2 ltac:(lia) ltac:(unfold i64_max; lia)). Defined.

Lemma sqlite_transaction_exact_witness : transaction 7 sold = (Done (Some (mkStoredTransaction sale 3 3000000)), sold).
Proof. exact (sqlite_transaction_exact sold sold_history (proj2 sold_ok) (proj1 sold_ok) 7). Defined.

Lemma sqlite_balance_exact_witness :
  balance (acc "sales") None sold = (Done (mkBalanceSnapshot (mkAmount 50 "USD") 3), sold).
Proof.
  pose proof (sqlite_balance_exact sold sold_history (proj2 sold_ok) (proj1 sold_ok) (acc "sales")) as Hb.
  assert (opened sold_history (to_key (acc "sales")) = Some (sales, sales_cfg)) as Ho by (vm_compute; reflexivity).
  cbn zeta in Hb. rewrite Ho in Hb. destruct Hb as [-> _].
  apply (f_equal (fun r => (Done r, sold))). vm_compute. reflexivity.
Defined.

Lemma sqlite_history_pages_witness :
  opened sold_history (to_key (acc "cash")) <> None /\
  exists page rest,
    account_history (acc "cash") None 1 sold = (Done (map (record_of (acc "cash")) page), sold) /\
    postings_after sold_history (to_key (acc "cash")) 0 = page ++ rest /\
    length (distinct_seqs page) = Nat.min 1 (length (distinct_seqs (postings_after sold_history (to_key (acc "cash")) 0))) /\
    forall x y, x ∈ page -> y ∈ rest -> po_seq x < po_seq y.
Proof.
  assert (opened sold_history (to_key (acc "cash")) <> None) as Ho by (vm_compute; discriminate). split; [exact Ho|].
  exact (sqlite_history_pages sold sold_history (proj2 sold_ok) (proj1 sold_ok) (acc "cash") None 1 Ho ltac:(unfold i64_max; lia)).
Defined.

Lemma sqlite_trial_balance_exact_witness :
  sum_abs (map po_minor (book_rows sold_history "shop" None)) <= i64_max /\
  trial_balance "shop" None sold = (Done [mkTrialBalanceRow "USD" 50 50], sold).
Proof.
  assert (sum_abs (map po_minor (book_rows sold_history "shop" None)) <= i64_max) as Hb by (vm_compute; discriminate). split; [exact Hb|].
  rewrite (sqlite_trial_balance_exact sold sold_history (proj2 sold_ok) (proj1 sold_ok) "shop" None Hb).
  apply (f_equal (fun r => (Done r, sold))). vm_compute. reflexivity.
Defined.

(** ** A savepoint that could not be rolled back *)

(** The rollback of the overdraft's savepoint fails, the batch's commit does
    not. *)
Definition torn : Conn := set_script (replicate 6 None ++ [Some (SqlError "disk I/O error")]) sold.

(** The loop of a batch goes on after a failed rollback, and its commit makes
    the half-written draft durable: the book's counter and the balances moved,
    no event did, and the tables are the projections of no history. *)
Theorem failed_undo_is_committed :
  (exists e, (commit_batch [overdraft] torn).1 = Done [Err e] /\ undo_failed e) /\
  map (fun r => (ev_book r, ev_seq r)) (t_events (committed (commit_batch [overdraft] torn).2)) =
    [("_system", 1); ("shop", 1); ("shop", 2); ("shop", 3)]%string /\
  t_balances (committed (commit_batch [overdraft] torn).2) !! to_key (acc "cash") = Some (mkBalanceRow "USD" (Int (-450)) 4) /\
  forall h, ~ db_ok (committed (commit_batch [overdraft] torn).2) h.
Proof.
  split; [eexists; split; [vm_compute; reflexivity|by exists "refused"%string, "disk I/O error"%string]|].
  split; [vm_compute; reflexivity|]. split; [vm_compute; reflexivity|]. intros h Hdb.
  pose proof (do_books _ _ Hdb "shop") as Hb.
  assert (length (book_log "shop" h) =
    length (filter (fun r => ev_book r = "shop"%string) (t_events (committed (commit_batch [overdraft] torn).2)))) as Hl.
  { rewrite (do_events _ _ Hdb). unfold book_log. clear. induction h as [|e h IH]; [done|]. cbn [map]. rewrite !filter_cons.
    cbn [ev_book event_row]. case_decide; cbn; by rewrite ?IH. }
  rewrite Hl in Hb. revert Hb. vm_compute. discriminate.
Qed.
End demo.
