(* ===== verification/Http.v ===== *)
(** The HTTP server, talea-server/src/http (auth.rs, error.rs, extract.rs,
    handlers.rs, sse.rs, routes.rs) and the tokens of run.rs: tokens and their
    scopes, the handlers over the ledger service, the responses.

    The TOML parser, the JSON texts and the extraction of paths, queries and
    bodies are those of their libraries: a call carries what the extractors
    made of the request.  Metrics and logging are not part of the state. *)

From S2P Require Import Prelude Decimal Core Api Service.
Open Scope Z_scope.

(** ** Tokens and scopes (auth.rs) *)

Inductive BookSet := All | Named (books : gset string).

Inductive Access := ReadOnly | ReadWrite.

#[export] Instance Access_eq_dec : EqDecision Access.
Proof. solve_decision. Defined.

Record TokenScope := mkTokenScope { scope_name : string; scope_books : BookSet; scope_access : Access }.

Definition allows_read (scope : TokenScope) (book : string) : bool :=
  match scope_books scope with
  | All => true
  | Named set => bool_decide (book ∈ set)
  end.

Definition allows_write (scope : TokenScope) (book : string) : bool :=
  bool_decide (scope_access scope = ReadWrite) && allows_read scope book.

Definition allows_registry (scope : TokenScope) : bool :=
  bool_decide (scope_access scope = ReadWrite) && match scope_books scope with All => true | Named _ => false end.

Definition all_access (name : string) : TokenScope := mkTokenScope name All ReadWrite.

(** [AuthConfig]: the secrets with their scopes; none is the open mode. *)
Definition AuthConfig : Type := list (string * TokenScope).

Definition AuthConfig_open : AuthConfig := [].

Definition AuthConfig_single (token : option string) : AuthConfig :=
  default [] ((fun t => [(t, all_access "legacy")]) <$> token).

(** [str::split_once] at the first space. *)
Fixpoint split_once_space (s : string) : option (string * string) :=
  match s with
  | EmptyString => None
  | String a s =>
      if Ascii.eqb a " " then Some (EmptyString, s)
      else (fun '(l, r) => (String a l, r)) <$> split_once_space s
  end.

Definition to_ascii_lowercase (a : ascii) : ascii :=
  let n := N_of_ascii a in
  if (65 <=? n)%N && (n <=? 90)%N then ascii_of_N (n + 32) else a.

Fixpoint eq_ignore_ascii_case (s t : string) : bool :=
  match s, t with
  | EmptyString, EmptyString => true
  | String a s, String b t => Ascii.eqb (to_ascii_lowercase a) (to_ascii_lowercase b) && eq_ignore_ascii_case s t
  | _, _ => false
  end.

Fixpoint trim_start_spaces (s : string) : string :=
  match s with
  | String a s' => if Ascii.eqb a " " then trim_start_spaces s' else s
  | EmptyString => EmptyString
  end.

Definition parse_bearer (header : string) : option string :=
  match split_once_space header with
  | None => None
  | Some (scheme, rest) =>
      if negb (eq_ignore_ascii_case scheme "Bearer") then None
      else
        let token := trim_start_spaces rest in
        if String.eqb token "" then None else Some token
  end.

(** The loop over the entries: the first whose secret is the token. *)
Fixpoint find_scope (token : string) (entries : AuthConfig) : option TokenScope :=
  match entries with
  | [] => None
  | (secret, scope) :: entries => if String.eqb token secret then Some scope else find_scope token entries
  end.

(** [require_bearer]: the scope a request runs under, from the text of its
    Authorization header. *)
Definition require_bearer (auth : AuthConfig) (authorization : option string) : ApiResult TokenScope :=
  match auth with
  | [] => Ok (all_access "open")
  | _ =>
      match authorization ≫= parse_bearer with
      | None => Err Api_Unauthorized
      | Some token =>
          match find_scope token auth with
          | Some scope => Ok scope
          | None => Err Api_Unauthorized
          end
      end
  end.

(** ** The tokens file (auth.rs) *)

Record TokenEntry := mkTokenEntry { te_token : string; te_books : list string; te_access : string }.

(** [toml::from_str::<TokensFile>]: the entries in the order of their names (a
    [BTreeMap]), or the parser's message. *)
Class Toml := toml_tokens : string -> result (list (string * TokenEntry)) string.

Definition quote : string := String "034" EmptyString.

Definition parse_books (name : string) (books : list string) : result BookSet string :=
  match books with
  | [] => Err ("token entry '" +:+ name +:+ "': books must not be empty")
  | list =>
      if bool_decide (list = ["*"]) then Ok All
      else if existsb (fun b => String.eqb b "*") list then
        Err ("token entry '" +:+ name +:+ "': '*' cannot be mixed with named books")
      else Ok (Named (list_to_set list))
  end.

Definition parse_access (name access : string) : result Access string :=
  if String.eqb access "ro" then Ok ReadOnly
  else if String.eqb access "rw" then Ok ReadWrite
  else Err ("token entry '" +:+ name +:+ "': access must be " +:+ quote +:+ "ro" +:+ quote +:+ " or " +:+ quote +:+ "rw" +:+ quote
              +:+ ", got " +:+ quote +:+ access +:+ quote).

(** The first loop: the entries in order, up to the first malformed one. *)
Fixpoint parse_entries (file : list (string * TokenEntry)) (entries : AuthConfig) : result AuthConfig string :=
  match file with
  | [] => Ok entries
  | (name, entry) :: file =>
      if String.eqb (te_token entry) "" then Err ("token entry '" +:+ name +:+ "': token must not be empty")
      else
        let? books := parse_books name (te_books entry) in
        let? access := parse_access name (te_access entry) in
        parse_entries file (entries ++ [(te_token entry, mkTokenScope name books access)])
  end.

(** The second loop: no secret is that of an earlier entry. *)
Fixpoint check_unique (earlier entries : AuthConfig) : result unit string :=
  match entries with
  | [] => Ok ()
  | (secret, scope) :: entries =>
      if existsb (fun e => String.eqb e.1 secret) earlier then
        Err ("token entry '" +:+ scope_name scope +:+ "': duplicate token value (secrets must be unique)")
      else check_unique (earlier ++ [(secret, scope)]) entries
  end.

Definition parse_tokens `{Toml} (text : string) : result AuthConfig string :=
  let? file := map_err (fun e => "tokens file is not valid TOML: " +:+ e) (toml_tokens text) in
  let? entries := parse_entries file [] in
  let? _ := check_unique [] entries in
  Ok entries.

(** The entries the server starts with (run.rs): the token of the environment,
    then those of the tokens file. *)
Definition server_entries `{Toml} (read_to_string : string -> result string string) (api_token tokens_file : option string) :
    result AuthConfig string :=
  let entries := AuthConfig_single api_token in
  match tokens_file with
  | None => Ok entries
  | Some path =>
      let? text := map_err (fun e => "reading TALEA_TOKENS_FILE " +:+ path +:+ ": " +:+ e) (read_to_string path) in
      let? file_entries := map_err (fun e => "TALEA_TOKENS_FILE " +:+ path +:+ ": " +:+ e) (parse_tokens text) in
      match file_entries with
      | [] => Err ("TALEA_TOKENS_FILE " +:+ path +:+ ": no [tokens.<name>] entries found")
      | _ =>
          match find (fun e => existsb (fun e' => String.eqb e'.1 e.1) entries) file_entries with
          | Some (_, scope) => Err ("TALEA_TOKENS_FILE " +:+ path +:+ ": entry '" +:+ scope_name scope +:+ "' duplicates TALEA_API_TOKEN")
          | None => Ok (entries ++ file_entries)
          end
      end
  end.

(** ** Responses (error.rs, extract.rs, routes.rs) *)

Inductive BatchItem := Item_Ok (posted : Posted) | Item_Err (e : ApiError).

(** One event of a stream: [id:], [event:] and [data:]. *)
Record SseEvent := mkSseEvent { sse_id : option string; sse_event : option string; sse_data : string }.

Inductive Body :=
| No_body
| Error_body (e : ApiError)
| Posted_body (p : Posted)
| Batch_body (l : list BatchItem)
| Balance_body (b : BalanceView)
| History_body (p : Paged PostingView)
| Transaction_body (t : TransactionView)
| Trial_balance_body (t : TrialBalance)
| Event_stream (l : list SseEvent)
| Text_body (s : string).

Record Response := mkResponse { rs_status : Z; rs_retry_after : option string; rs_body : Body }.

Definition OK : Z := 200.
Definition NO_CONTENT : Z := 204.

(** [ApiFailure::into_response] *)
Definition status_of (e : ApiError) : Z :=
  match e with
  | Api_Unbalanced _ _ _ | Api_InvalidAmount _ | Api_InvalidDraft _ _ | Api_AssetMismatch _ _ _ => 400
  | Api_Unauthorized => 401
  | Api_Forbidden _ => 403
  | Api_Overloaded => 429
  | Api_Timeout => 408
  | Api_UnknownAsset _ | Api_UnknownAccount _ | Api_NotFound _ => 404
  | Api_AlreadyExists _ | Api_ConstraintViolation _ _ _ => 409
  | Api_Transport _ => 500
  | Api_Internal _ => 500
  end.

Definition into_response (e : ApiError) : Response :=
  let status := status_of e in
  if status =? 429 then mkResponse status (Some "1"%string) (Error_body e) else mkResponse status None (Error_body e).

(** A body that could not be extracted: [MissingJsonContentType], or any other
    rejection with its text. *)
Inductive JsonRejection := MissingJsonContentType | OtherRejection (body_text : string).

Definition json_rejection_response (r : JsonRejection) : Response :=
  match r with
  | MissingJsonContentType =>
      mkResponse 415 None (Error_body (Api_InvalidDraft "body" "expected content-type: application/json"))
  | OtherRejection text => into_response (Api_InvalidDraft "body" text)
  end.

Definition query_rejection_response (text : string) : Response := into_response (Api_InvalidDraft "query" text).

(** What the layers around the handlers fail with. *)
Inductive MiddlewareError := LoadShed | Elapsed | OtherFailure (text : string).

Definition handle_middleware_error (e : MiddlewareError) : Response :=
  match e with
  | LoadShed => mkResponse 503 (Some "1"%string) (Error_body Api_Overloaded)
  | Elapsed => mkResponse 408 None (Error_body Api_Timeout)
  | OtherFailure _ => mkResponse 500 None (Error_body (Api_Internal "middleware failure"))
  end.

(** The JSON texts of events and errors. *)
Class EventText := {
  envelope_to_json : EventEnvelope -> result string string;
  error_to_json : ApiError -> result string string
}.

(** ** The handlers (handlers.rs, sse.rs) *)

Definition forbid (book : string) : ApiError := Api_Forbidden book.

Section handlers.
Context {S : Type} `{Store S} `{HashIter} `{Texts} `{EventText}.

(** What the service needs of its surroundings: the write router's answers to
    the transactions submitted to it in order, a fresh id and the clock for each
    draft, and what a subscription to the store delivers. *)
Variable submit_all : list Transaction -> S -> list (result Committed SubmitError) * S.
Variable stamp : nat -> TxId * DateTime.
Variable store_subscribe : Book -> Seq -> S -> list (result (Sequenced LedgerEvent) StoreError).
Variable batch_max : Z.

Definition register_asset (scope : TokenScope) (draft : AssetDraft) (s : S) : ApiResult unit * S :=
  if negb (allows_registry scope) then (Err (forbid "*"), s) else Service.register_asset draft s.

Definition open_account (scope : TokenScope) (draft : AccountDraft) (s : S) : ApiResult unit * S :=
  if negb (allows_write scope (ac_book draft)) then (Err (forbid (ac_book draft)), s) else Service.open_account draft s.

(** One transaction through the router. *)
Definition submit (tx : Transaction) (s : S) : result Committed SubmitError * S :=
  let '(answers, s') := submit_all [tx] s in (default (Err CommitterGone) (head answers), s').

Definition post_transaction (scope : TokenScope) (draft : TransactionDraft) (s : S) : ApiResult Posted * S :=
  if negb (allows_write scope (td_book draft)) then (Err (forbid (td_book draft)), s)
  else post submit (stamp 0).1 (stamp 0).2 draft s.

(** The loop that fills the out-of-scope slots and collects the rest. *)
Fixpoint partition_drafts (scope : TokenScope) (i : nat) (drafts : list TransactionDraft) (slots : list (option BatchItem))
    (in_scope : list (nat * TransactionDraft)) : list (option BatchItem) * list (nat * TransactionDraft) :=
  match drafts with
  | [] => (slots, in_scope)
  | draft :: drafts =>
      if negb (allows_write scope (td_book draft)) then
        partition_drafts scope (i + 1) drafts (<[i := Some (Item_Err (Api_Forbidden (td_book draft)))]> slots) in_scope
      else partition_drafts scope (i + 1) drafts slots (in_scope ++ [(i, draft)])
  end.

Definition item_of (r : ApiResult Posted) : BatchItem :=
  match r with Ok posted => Item_Ok posted | Err e => Item_Err e end.

(** The loop that puts the service's answers in their slots. *)
Fixpoint fill_slots (answers : list ((nat * TransactionDraft) * ApiResult Posted)) (slots : list (option BatchItem)) :
    list (option BatchItem) :=
  match answers with
  | [] => slots
  | ((idx, _), r) :: answers => fill_slots answers (<[idx := Some (item_of r)]> slots)
  end.

Definition unresolved : BatchItem := Item_Err (Api_Transport "internal: batch slot left unresolved by the store").

Definition post_batch_transactions (scope : TokenScope) (drafts : list TransactionDraft) (s : S) : ApiResult (list BatchItem) * S :=
  if batch_max <? Z.of_nat (length drafts) then
    (Err (Api_InvalidDraft "body" ("batch length " +:+ u64_to_string (Z.of_nat (length drafts)) +:+ " exceeds cap " +:+
            u64_to_string batch_max +:+ " (TALEA_HTTP_BATCH_MAX)")), s)
  else match drafts with
  | [] => (Ok [], s)
  | _ =>
      let '(slots, in_scope) := partition_drafts scope 0 drafts (replicate (length drafts) None) [] in
      let '(slots, s') :=
        match in_scope with
        | [] => (slots, s)
        | _ =>
            let '(results, s') := post_batch submit_all stamp (map snd in_scope) s in
            (fill_slots (zip in_scope results) slots, s')
        end in
      (Ok (map (default unresolved) slots), s')
  end.

Definition get_balance (scope : TokenScope) (book path : string) (as_of : option DateTime) (s : S) : ApiResult BalanceView * S :=
  if negb (allows_read scope book) then (Err (forbid book), s) else balance book path as_of s.

Definition get_history (scope : TokenScope) (book path : string) (after_seq : option Seq) (limit : option Z) (s : S) :
    ApiResult (Paged PostingView) * S :=
  if negb (allows_read scope book) then (Err (forbid book), s)
  else account_history book path (mkPage after_seq (Z.min (default 100 limit) 1000)) s.

Definition get_transaction (scope : TokenScope) (txid : string) (s : S) : ApiResult TransactionView * S :=
  let '(r, s') := transaction txid s in
  (let? view := r in
   if negb (allows_read scope (tv_book view)) then Err (Api_NotFound ("transaction " +:+ txid)) else Ok view, s').

Definition get_trial_balance (scope : TokenScope) (book : string) (as_of : option DateTime) (s : S) : ApiResult TrialBalance * S :=
  if negb (allows_read scope book) then (Err (forbid book), s) else trial_balance book as_of s.

(** The events of a stream, up to its first error; [env.seq.to_string()] is the
    event's id. *)
Fixpoint sse_stream (inner : list (ApiResult EventEnvelope)) : list SseEvent :=
  match inner with
  | [] => []
  | Ok env :: inner =>
      match envelope_to_json env with
      | Ok data => mkSseEvent (Some (i64_to_string (ee_seq env))) None data :: sse_stream inner
      | Err _ => [mkSseEvent None (Some "error"%string) "serialization failure"]
      end
  | Err e :: _ =>
      [mkSseEvent None (Some "error"%string)
         (match error_to_json e with Ok data => data | Err _ => quote +:+ "internal" +:+ quote end)]
  end.

(** Where a stream starts: one past the last event seen, which the header
    names before the query does ([s + 1] wraps without overflow checks). *)
Definition start_seq (last_event_id : option string) (from : option Z) : Seq :=
  match (match last_event_id ≫= parse_i64 with Some s => Some s | None => from end) with
  | Some s => wrap_i64 (s + 1)
  | None => 1
  end.

Definition events (scope : TokenScope) (book : string) (last_event_id : option string) (from : option Z) (s : S) :
    ApiResult (list SseEvent) :=
  if negb (allows_read scope book) then Err (Api_Forbidden book)
  else
    let? inner := subscribe book (store_subscribe book (start_seq last_event_id from) s) in
    Ok (sse_stream inner).

(** ** Routes (routes.rs) *)

(** A request to a route, with what its extractors made of it: a path, a query
    or the text of its rejection, a body or its rejection. *)
Inductive Call :=
| RegisterAsset (body : result AssetDraft JsonRejection)
| OpenAccount (body : result AccountDraft JsonRejection)
| PostTransaction (body : result TransactionDraft JsonRejection)
| PostBatch (body : result (list TransactionDraft) JsonRejection)
| GetTransaction (txid : string)
| GetBalance (book path : string) (as_of : result (option DateTime) string)
| GetHistory (book path : string) (query : result (option Seq * option Z) string)
| GetTrialBalance (book : string) (as_of : result (option DateTime) string)
| GetEvents (book : string) (last_event_id : option string) (from : result (option Z) string)
| GetHealth.

Definition respond {A} (status : Z) (body : A -> Body) (r : ApiResult A) : Response :=
  match r with Ok a => mkResponse status None (body a) | Err e => into_response e end.

Definition respond_in {A} (status : Z) (body : A -> Body) (r : ApiResult A * S) : Response * S :=
  (respond status body r.1, r.2).

Definition with_body {A} (body : result A JsonRejection) (s : S) (k : A -> Response * S) : Response * S :=
  match body with Ok a => k a | Err r => (json_rejection_response r, s) end.

Definition with_query {A} (query : result A string) (s : S) (k : A -> Response * S) : Response * S :=
  match query with Ok a => k a | Err text => (query_rejection_response text, s) end.

(** The handler of a route, under the scope the request was given. *)
Definition handle (scope : TokenScope) (c : Call) (s : S) : Response * S :=
  match c with
  | RegisterAsset body => with_body body s (fun d => respond_in NO_CONTENT (fun _ => No_body) (register_asset scope d s))
  | OpenAccount body => with_body body s (fun d => respond_in NO_CONTENT (fun _ => No_body) (open_account scope d s))
  | PostTransaction body => with_body body s (fun d => respond_in OK Posted_body (post_transaction scope d s))
  | PostBatch body => with_body body s (fun ds => respond_in OK Batch_body (post_batch_transactions scope ds s))
  | GetTransaction txid => respond_in OK Transaction_body (get_transaction scope txid s)
  | GetBalance book path q => with_query q s (fun as_of => respond_in OK Balance_body (get_balance scope book path as_of s))
  | GetHistory book path q =>
      with_query q s (fun '(after, limit) => respond_in OK History_body (get_history scope book path after limit s))
  | GetTrialBalance book q =>
      with_query q s (fun as_of => respond_in OK Trial_balance_body (get_trial_balance scope book as_of s))
  | GetEvents book last q => with_query q s (fun from => respond_in OK Event_stream (events scope book last from s, s))
  | GetHealth => (mkResponse OK None (Text_body "ok"), s)
  end.

(** The routes under /v1 run behind [require_bearer]; /health (whose response
    also names the backend in a header) does not. *)
Definition serve (auth : AuthConfig) (authorization : option string) (c : Call) (s : S) : Response * S :=
  match c with
  | GetHealth => handle (all_access "") GetHealth s
  | _ =>
      match require_bearer auth authorization with
      | Ok scope => handle scope c s
      | Err e => (into_response e, s)
      end
  end.
End handlers.
