(* ===== verification/HttpSpec.v ===== *)
(** The HTTP server's promises: a token gives exactly the rights its entry
    names, a handler does nothing outside the scope of its token and tells
    nothing about it, a batch answers each draft in its place. *)

From S2P Require Import Prelude Decimal Core Api Service ServiceSpec Http.
Open Scope Z_scope.

(** ** The Authorization header *)

Fixpoint spaces (n : nat) : string := match n with O => EmptyString | S n => String " " (spaces n) end.

Definition no_space (s : string) : Prop := split_once_space s = None.

(** A header carries a token: a scheme, spaces, then the token. *)
Definition bearer (header token : string) : Prop :=
  exists scheme n, header = scheme +:+ spaces (S n) +:+ token /\ eq_ignore_ascii_case scheme "Bearer" = true /\
    token <> EmptyString /\ forall t, token <> String " " t.

Lemma split_once_space_app l r : no_space l -> split_once_space (l +:+ String " " r) = Some (l, r).
Proof.
  unfold no_space. induction l as [|a l IH]; cbn; [done|]. destruct (Ascii.eqb a " "); [done|].
  destruct (split_once_space l); [done|]. intros _. by rewrite IH.
Qed.

Lemma split_once_space_Some s l r : split_once_space s = Some (l, r) -> s = l +:+ String " " r /\ no_space l.
Proof.
  unfold no_space. revert l r. induction s as [|a s IH]; intros l r; cbn; [done|]. destruct (Ascii.eqb a " ") eqn:E.
  - apply Ascii.eqb_eq in E as ->. intros [= <- <-]. done.
  - destruct (split_once_space s) as [[l' r']|]; [|done]. cbn. intros [= <- <-]. destruct (IH l' r' eq_refl) as [-> Hn].
    cbn. by rewrite E, Hn.
Qed.

Lemma trim_start_spaces_spaces n t : (forall t', t <> String " " t') -> trim_start_spaces (spaces n +:+ t) = t.
Proof.
  intros Ht. induction n as [|n IH]; cbn; [|done]. destruct t as [|a t]; cbn; [done|].
  destruct (Ascii.eqb a " ") eqn:E; [|done]. apply Ascii.eqb_eq in E as ->. by destruct (Ht t).
Qed.

Lemma trim_start_spaces_spec s :
  exists n, s = spaces n +:+ trim_start_spaces s /\ forall t, trim_start_spaces s <> String " " t.
Proof.
  induction s as [|a s (n & Hs & Hn)]; cbn; [by exists 0%nat|]. destruct (Ascii.eqb a " ") eqn:E.
  - apply Ascii.eqb_eq in E as ->. exists (S n). cbn. by rewrite <- Hs.
  - exists 0%nat. split; [done|]. intros t [= -> _]. by rewrite Ascii.eqb_refl in E.
Qed.

Lemma lowercase_space b : to_ascii_lowercase b = to_ascii_lowercase " " -> b = " "%char.
Proof. destruct b as [[] [] [] [] [] [] [] []]; vm_compute; congruence. Qed.

Lemma same_letters_no_space s t : eq_ignore_ascii_case s t = true -> no_space t -> no_space s.
Proof.
  unfold no_space. revert t. induction s as [|a s IH]; intros [|b t]; cbn; try done.
  intros [Ha Hs]%andb_true_iff. destruct (Ascii.eqb b " ") eqn:Eb; [done|].
  destruct (split_once_space t) eqn:Et; [done|]. intros _. rewrite (IH t Hs Et).
  destruct (Ascii.eqb a " ") eqn:Ea; [|done]. apply Ascii.eqb_eq in Ea as ->. apply Ascii.eqb_eq in Ha.
  symmetry in Ha. apply lowercase_space in Ha as ->. done.
Qed.

Lemma parse_bearer_exact header token : parse_bearer header = Some token <-> bearer header token.
Proof.
  unfold parse_bearer. split.
  - destruct (split_once_space header) as [[scheme rest]|] eqn:E; [|done]. apply split_once_space_Some in E as [-> _].
    destruct (eq_ignore_ascii_case scheme "Bearer") eqn:Es; cbn [negb]; [|done].
    destruct (trim_start_spaces_spec rest) as (n & Hr & Ht).
    destruct (String.eqb (trim_start_spaces rest) "") eqn:Ee; [done|]. intros [= <-]. exists scheme, n.
    split; [cbn; by rewrite <- Hr|]. split; [done|]. split; [|done]. by apply String.eqb_neq.
  - intros (scheme & n & -> & Es & He & Ht). change (spaces (S n) +:+ token) with (String " " (spaces n +:+ token)).
    rewrite (split_once_space_app scheme (spaces n +:+ token)) by (by apply (same_letters_no_space scheme "Bearer")).
    rewrite Es. cbn [negb]. rewrite trim_start_spaces_spaces by done. apply String.eqb_neq in He. by rewrite He.
Qed.

(** ** The tokens file *)

Lemma find_scope_in token entries scope : find_scope token entries = Some scope -> (token, scope) ∈ entries.
Proof.
  induction entries as [|[secret sc] entries IH]; cbn; [done|]. destruct (String.eqb token secret) eqn:E.
  - apply String.eqb_eq in E as ->. intros [= ->]. left.
  - intros H. right. by apply IH.
Qed.

Lemma find_scope_found token entries : token ∈ entries.*1 -> exists scope, find_scope token entries = Some scope.
Proof.
  induction entries as [|[secret sc] entries IH]; cbn; [by intros ?%elem_of_nil|]. destruct (String.eqb token secret) eqn:E; [by eexists|].
  intros [->|H]%elem_of_cons; [|by apply IH]. by rewrite String.eqb_refl in E.
Qed.

Lemma parse_books_ok name l b :
  parse_books name l = Ok b <-> l <> [] /\ (l = ["*"] /\ b = All \/ "*"%string ∉ l /\ b = Named (list_to_set l)).
Proof.
  unfold parse_books. destruct l as [|x l]; [split; [done|]; by intros [? _]|]. set (l0 := x :: l) in *.
  assert (l0 <> []) as Hne by done. clearbody l0. case_bool_decide as Hs.
  - subst l0. split; [intros [= <-]; split; [done|by left]|]. intros [_ [[_ ->]|[Hn _]]]; [done|]. set_solver.
  - destruct (existsb _ l0) eqn:E.
    + split; [done|]. intros [_ [[-> _]|[Hn _]]]; [done|]. apply existsb_exists in E as (y & Hy & ->%String.eqb_eq).
      by apply list_elem_of_In in Hy.
    + split.
      * intros [= <-]. split; [done|]. right. split; [|done]. intros Hin%list_elem_of_In.
        assert (existsb (fun b => String.eqb b "*") l0 = true) by (apply existsb_exists; by exists "*"%string). congruence.
      * intros [_ [[-> _]|[_ ->]]]; done.
Qed.

Lemma parse_access_ok name s a :
  parse_access name s = Ok a <-> s = "ro"%string /\ a = ReadOnly \/ s = "rw"%string /\ a = ReadWrite.
Proof.
  unfold parse_access. destruct (String.eqb s "ro") eqn:E1; [|destruct (String.eqb s "rw") eqn:E2].
  - apply String.eqb_eq in E1 as ->. split; [intros [= <-]; by left|]. by intros [[_ ->]|[? _]].
  - apply String.eqb_eq in E2 as ->. split; [intros [= <-]; by right|]. by intros [[? _]|[_ ->]].
  - apply String.eqb_neq in E1, E2. split; [done|]. by intros [[? _]|[? _]].
Qed.

(** An entry the parser accepts. *)
Definition well_formed (entry : TokenEntry) : Prop :=
  te_token entry <> EmptyString /\ te_books entry <> [] /\ (te_books entry = ["*"] \/ "*"%string ∉ te_books entry) /\
  (te_access entry = "ro" \/ te_access entry = "rw")%string.

(** The rights an entry names. *)
Definition grants (name : string) (entry : TokenEntry) (scope : TokenScope) : Prop :=
  scope_name scope = name /\
  (forall book, allows_read scope book = true <-> te_books entry = ["*"] \/ book ∈ te_books entry) /\
  (forall book, allows_write scope book = true <-> te_access entry = "rw"%string /\ allows_read scope book = true) /\
  (allows_registry scope = true <-> te_access entry = "rw"%string /\ te_books entry = ["*"]).

(** What [parse_entries] makes of an entry. *)
Definition entry_scope (ne : string * TokenEntry) (es : string * TokenScope) : Prop :=
  es.1 = te_token ne.2 /\ es.1 <> EmptyString /\ scope_name es.2 = ne.1 /\
  parse_books ne.1 (te_books ne.2) = Ok (scope_books es.2) /\ parse_access ne.1 (te_access ne.2) = Ok (scope_access es.2).

Lemma entry_scope_grants name entry secret scope : entry_scope (name, entry) (secret, scope) -> grants name entry scope.
Proof.
  intros (_ & _ & Hn & Hb & Ha). cbn in *. apply parse_books_ok in Hb as [_ Hb]. apply parse_access_ok in Ha.
  assert (forall book, allows_read scope book = true <-> te_books entry = ["*"] \/ book ∈ te_books entry) as Hread.
  { intros book. unfold allows_read. destruct Hb as [[Hb ->]|[Hb ->]]; [naive_solver|].
    rewrite bool_decide_eq_true, elem_of_list_to_set. split; [by right|]. intros [E|?]; [|done]. rewrite E in Hb. set_solver. }
  assert (scope_access scope = ReadWrite <-> te_access entry = "rw"%string) as Hrw.
  { destruct Ha as [[-> ->]|[-> ->]]; done. }
  split; [done|]. split; [done|]. unfold allows_write, allows_registry. split; [intros book|]; rewrite andb_true_iff, bool_decide_eq_true, Hrw; [done|].
  destruct Hb as [[-> ->]|[Hb ->]]; [tauto|]. split; [by intros [_ ?]|]. intros [_ E]. rewrite E in Hb. set_solver.
Qed.

Lemma entry_scope_well_formed ne es : entry_scope ne es -> well_formed ne.2.
Proof.
  intros (He & Ht & _ & Hb & Ha). apply parse_books_ok in Hb. apply parse_access_ok in Ha. unfold well_formed. rewrite <- He. naive_solver.
Qed.

Lemma well_formed_entry_scope ne : well_formed ne.2 -> exists es, entry_scope ne es.
Proof.
  intros (Ht & Hb & Hs & Ha).
  assert (exists b, parse_books ne.1 (te_books ne.2) = Ok b) as [b Hpb].
  { destruct Hs as [Hs|Hs]; eexists; apply parse_books_ok; split; eauto. }
  assert (exists a, parse_access ne.1 (te_access ne.2) = Ok a) as [a Hpa].
  { destruct Ha as [Ha|Ha]; eexists; apply parse_access_ok; eauto. }
  exists (te_token ne.2, mkTokenScope ne.1 b a). by repeat split.
Qed.

Lemma parse_entries_ok file acc entries :
  parse_entries file acc = Ok entries <-> exists l, entries = acc ++ l /\ Forall2 entry_scope file l.
Proof.
  revert acc. induction file as [|[name entry] file IH]; intros acc; cbn.
  - split; [intros [= <-]; exists []; by rewrite app_nil_r|]. intros (l & -> & ->%Forall2_nil_inv_l). by rewrite app_nil_r.
  - split.
    + destruct (String.eqb (te_token entry) "") eqn:Et; [done|]. apply String.eqb_neq in Et.
      destruct (parse_books name _) as [b|] eqn:Eb; [|done]. destruct (parse_access name _) as [a|] eqn:Ea; [|done].
      intros (l & -> & Hl)%IH. eexists. rewrite <- app_assoc. split; [done|]. by constructor.
    + intros (l & -> & (es & l' & He & Hl & ->)%Forall2_cons_inv_l). destruct es as [secret [n b a]].
      destruct He as (Hs & Ht & Hn & Hb & Ha). cbn in *. subst. apply String.eqb_neq in Ht. rewrite Ht, Hb, Ha.
      apply IH. exists l'. by rewrite <- app_assoc.
Qed.

Lemma check_unique_ok earlier entries :
  check_unique earlier entries = Ok () <-> NoDup entries.*1 /\ (forall x, x ∈ entries.*1 -> x ∉ earlier.*1).
Proof.
  revert earlier. induction entries as [|[secret scope] entries IH]; intros earlier; cbn.
  - split; [|done]. intros _. split; [constructor|]. set_solver.
  - rewrite NoDup_cons. destruct (existsb _ earlier) eqn:E.
    + split; [done|]. intros [_ Hf]. apply existsb_exists in E as ([s' sc] & Hin%list_elem_of_In & Hs%String.eqb_eq). cbn in Hs.
      subst s'. destruct (Hf secret); [left|]. by apply (list_elem_of_fmap_2 fst) in Hin.
    + assert (secret ∉ earlier.*1) as Hne.
      { intros ([s' sc] & -> & Hin)%list_elem_of_fmap. cbn in E. assert (existsb (fun e => String.eqb e.1 s') earlier = true); [|congruence].
        apply existsb_exists. exists (s', sc). split; [by apply list_elem_of_In|]. apply String.eqb_refl. }
      rewrite IH, fmap_app. cbn. set_solver.
Qed.

Section tokens.
Context `{Toml}.

Lemma parse_tokens_ok text entries :
  parse_tokens text = Ok entries <->
  exists file, toml_tokens text = Ok file /\ Forall2 entry_scope file entries /\ NoDup entries.*1.
Proof.
  unfold parse_tokens. destruct (toml_tokens text) as [file|e]; cbn; [|split; [done|]; by intros (? & ? & _)].
  split.
  - destruct (parse_entries file []) as [l|] eqn:E; [|done]. apply parse_entries_ok in E as (l' & -> & Hl).
    destruct (check_unique [] _) as [[]|] eqn:Eu; [|done]. apply check_unique_ok in Eu as [Hn _]. intros [= <-]. by exists file.
  - intros (file' & [= <-] & Hl & Hn).
    assert (parse_entries file [] = Ok entries) as -> by (apply parse_entries_ok; by exists entries).
    assert (check_unique [] entries = Ok ()) as -> by (apply check_unique_ok; split; [done|]; set_solver). done.
Qed.

Lemma entry_scope_tokens file entries : Forall2 entry_scope file entries -> entries.*1 = map (fun ne => te_token ne.2) file.
Proof. induction 1 as [|ne es file entries He _ IH]; cbn; [done|]. rewrite IH. by destruct He as [-> _]. Qed.

(** A tokens file is accepted exactly when it is TOML, each of its entries is
    well-formed and no two have the same token. *)
Theorem parse_tokens_accepts (text : string) :
  is_ok (parse_tokens text) = true <->
  exists file, toml_tokens text = Ok file /\ Forall (fun ne => well_formed ne.2) file /\ NoDup (map (fun ne => te_token ne.2) file).
Proof.
  split.
  - destruct (parse_tokens text) as [entries|] eqn:E; [|done]. intros _. apply parse_tokens_ok in E as (file & Ht & Hf & Hn).
    exists file. split; [done|]. rewrite (entry_scope_tokens _ _ Hf) in Hn. split; [|done].
    clear Ht Hn. induction Hf; constructor; eauto using entry_scope_well_formed.
  - intros (file & Ht & Hw & Hn).
    assert (exists entries, Forall2 entry_scope file entries) as [entries Hf].
    { clear Ht Hn. induction Hw as [|ne file Hne _ [entries IH]]; [by exists []|].
      destruct (well_formed_entry_scope ne Hne) as [es He]. exists (es :: entries). by constructor. }
    assert (parse_tokens text = Ok entries) as ->; [|done]. apply parse_tokens_ok. exists file.
    by rewrite (entry_scope_tokens _ _ Hf).
Qed.

Lemma server_entries_file read api_token path text file entries :
  server_entries read api_token (Some path) = Ok entries -> read path = Ok text -> toml_tokens text = Ok file ->
  exists l, Forall2 entry_scope file l /\ entries = AuthConfig_single api_token ++ l /\ l <> [] /\ NoDup entries.*1.
Proof.
  unfold server_entries. intros E Hr Ht. rewrite Hr in E. cbn in E.
  destruct (parse_tokens text) as [l|] eqn:Ep; [|done]. apply parse_tokens_ok in Ep as (file' & Ht' & Hl & Hn).
  rewrite Ht in Ht'. injection Ht' as <-. exists l. cbn in E. destruct l as [|e0 l0] eqn:El; [done|]. rewrite <- El in *.
  destruct (find _ l) as [[s sc]|] eqn:Ef; [done|]. injection E as <-. split; [done|]. split; [done|]. split; [by rewrite El|].
  rewrite fmap_app. apply NoDup_app. split; [|split; [|done]].
  - unfold AuthConfig_single. destruct api_token; cbn; [apply NoDup_singleton|constructor].
  - intros x Hx ([s sc] & -> & Hin)%list_elem_of_fmap. apply list_elem_of_In in Hin. eapply find_none in Ef; [|exact Hin].
    apply list_elem_of_fmap in Hx as ([s' sc'] & Hs & Hin'). cbn in Hs. subst s'. apply Bool.not_true_iff_false in Ef. apply Ef.
    apply existsb_exists. exists (s, sc'). split; [by apply list_elem_of_In|]. apply String.eqb_refl.
Qed.

(** C22: The server that starts with a tokens file is never open.  It runs a request
    exactly when the Authorization header carries a known token, and then under
    the rights that token's entry names: the token of the environment has every
    right, an entry of the file those of its books and its access.  The tokens
    are distinct, so no token has the rights of another. *)
Theorem tokens_grant_their_rights (read_to_string : string -> result string string) (api_token : option string)
    (path text : string) (file : list (string * TokenEntry)) (entries : AuthConfig) (header : option string) :
  server_entries read_to_string api_token (Some path) = Ok entries ->
  read_to_string path = Ok text -> toml_tokens text = Ok file ->
  NoDup entries.*1 /\
  match require_bearer entries header with
  | Ok scope => exists h token, header = Some h /\ bearer h token /\
      (api_token = Some token /\ scope = all_access "legacy" \/
       exists name entry, (name, entry) ∈ file /\ te_token entry = token /\ grants name entry scope)
  | Err e => e = Api_Unauthorized /\ forall h token, header = Some h -> bearer h token ->
      api_token <> Some token /\ forall name entry, (name, entry) ∈ file -> te_token entry <> token
  end.
Proof.
  intros Hs Hr Ht. destruct (server_entries_file _ _ _ _ _ _ Hs Hr Ht) as (l & Hl & -> & Hne & Hn). split; [done|].
  assert (forall token scope, (token, scope) ∈ AuthConfig_single api_token <-> api_token = Some token /\ scope = all_access "legacy") as Hsingle.
  { intros token scope. unfold AuthConfig_single. destruct api_token; cbn; set_solver. }
  unfold require_bearer. destruct (AuthConfig_single api_token ++ l) as [|e0 es] eqn:El; [by destruct (AuthConfig_single api_token), l|].
  rewrite <- El in *. destruct (header ≫= parse_bearer) as [token|] eqn:Eh.
  - apply bind_Some in Eh as (h & -> & Hb). apply parse_bearer_exact in Hb.
    destruct (find_scope token _) as [scope|] eqn:Ef.
    + exists h, token. split; [done|]. split; [done|]. apply find_scope_in, elem_of_app in Ef as [Hin|Hin]; [left; by apply Hsingle|].
      right. apply list_elem_of_lookup_1 in Hin as [i Hi]. destruct (Forall2_lookup_r _ _ _ _ _ Hl Hi) as ([name entry] & Hfi & He).
      exists name, entry. split; [by eapply list_elem_of_lookup_2|]. split; [symmetry; exact (proj1 He)|]. by apply entry_scope_grants in He.
    + split; [done|]. intros h' token' [= <-] Hb'. assert (token' = token) as ->.
      { apply parse_bearer_exact in Hb, Hb'. congruence. }
      assert (token ∉ (AuthConfig_single api_token ++ l).*1) as Hnot.
      { intros Hin. apply find_scope_found in Hin as [sc ?]. congruence. }
      rewrite fmap_app, (entry_scope_tokens _ _ Hl) in Hnot. split.
      * intros ->. apply Hnot. cbn. left.
      * intros name entry Hin <-. apply Hnot, elem_of_app. right. by apply (list_elem_of_fmap_2 (fun ne => te_token ne.2)) in Hin.
  - split; [done|]. intros h token -> Hb. apply parse_bearer_exact in Hb. cbn in Eh. congruence.
Qed.
End tokens.

(** ** Scopes *)

(** The book a call needs and its scope does not reach; "*" is the registry. *)
Definition denied (scope : TokenScope) (c : Call) : option string :=
  match c with
  | RegisterAsset (Ok _) => if allows_registry scope then None else Some "*"%string
  | OpenAccount (Ok d) => if allows_write scope (ac_book d) then None else Some (ac_book d)
  | PostTransaction (Ok d) => if allows_write scope (td_book d) then None else Some (td_book d)
  | GetBalance book _ (Ok _) | GetHistory book _ (Ok _) | GetTrialBalance book (Ok _) | GetEvents book _ (Ok _) =>
      if allows_read scope book then None else Some book
  | _ => None
  end.

Section scopes.
Context {S : Type} `{Store S} `{HashIter} `{Texts} `{EventText}.
Variable submit_all : list Transaction -> S -> list (result Committed SubmitError) * S.
Variable stamp : nat -> TxId * DateTime.
Variable store_subscribe : Book -> Seq -> S -> list (result (Sequenced LedgerEvent) StoreError).
Variable batch_max : Z.

Let handle := handle submit_all stamp store_subscribe batch_max.

Lemma denied_is_forbidden scope c s book : denied scope c = Some book -> handle scope c s = (into_response (Api_Forbidden book), s).
Proof.
  unfold handle, Http.handle, denied.
  destruct c as [[]|[]|[]|[]|?|? ? []|? ? [[]|]|? []|? ? []|]; cbn [with_body with_query]; try done;
    unfold register_asset, open_account, post_transaction, get_balance, get_history, get_trial_balance, events, forbid;
    case_match; intros [= <-]; done.
Qed.

Lemma transaction_found txid id stored s s1 :
  uuid_parse txid = Ok id -> store_transaction id s = (Ok (Some stored), s1) -> transaction txid s = (Ok (transaction_view stored), s1).
Proof. intros Hu Hs. unfold transaction, api_call. by rewrite Hu, Hs. Qed.

Lemma transaction_missed txid id s s1 :
  uuid_parse txid = Ok id -> store_transaction id s = (Ok None, s1) -> transaction txid s = (Err (Api_NotFound ("transaction " +:+ txid)), s1).
Proof. intros Hu Hs. unfold transaction, api_call. by rewrite Hu, Hs. Qed.

(** C23: Under every route, a call that its token's scope does not cover is answered
    Forbidden with that book, whatever the store holds, and leaves the store as it
    was.  The look-up of a transaction in a book out of scope is answered as if
    the store did not have it, so that a token learns nothing of its existence. *)
Theorem scope_enforced (scope : TokenScope) (c : Call) (s : S) :
  (forall book, denied scope c = Some book -> handle scope c s = (into_response (Api_Forbidden book), s)) /\
  (forall txid id stored s1 t t1, c = GetTransaction txid -> uuid_parse txid = Ok id ->
     store_transaction id s = (Ok (Some stored), s1) -> allows_read scope (tx_book (st_transaction stored)) = false ->
     store_transaction id t = (Ok None, t1) ->
     (handle scope c s).1 = into_response (Api_NotFound ("transaction " +:+ txid)) /\ (handle scope c t).1 = (handle scope c s).1).
Proof.
  split; [intros book; apply denied_is_forbidden|]. intros txid id stored s1 t t1 -> Hu Hs Hr Ht.
  unfold handle, Http.handle, get_transaction. rewrite (transaction_found _ _ _ _ _ Hu Hs), (transaction_missed _ _ _ _ Hu Ht).
  cbn. by rewrite Hr.
Qed.

(** ** Batches *)

Definition allowed (scope : TokenScope) (d : TransactionDraft) : bool := allows_write scope (td_book d).

Definition forbidden_slot (scope : TokenScope) (d : TransactionDraft) : option BatchItem :=
  if allowed scope d then None else Some (Item_Err (Api_Forbidden (td_book d))).

(** The in-scope drafts with their positions, from position [i]. *)
Fixpoint in_scope_from (scope : TokenScope) (i : nat) (drafts : list TransactionDraft) : list (nat * TransactionDraft) :=
  match drafts with
  | [] => []
  | d :: drafts => if allowed scope d then (i, d) :: in_scope_from scope (i + 1) drafts else in_scope_from scope (i + 1) drafts
  end.

Lemma partition_drafts_spec scope drafts pre acc :
  partition_drafts scope (length pre) drafts (pre ++ replicate (length drafts) None) acc =
  (pre ++ map (forbidden_slot scope) drafts, acc ++ in_scope_from scope (length pre) drafts).
Proof.
  revert pre acc. induction drafts as [|d drafts IH]; intros pre acc; cbn; [by rewrite !app_nil_r|].
  unfold forbidden_slot at 1, allowed. destruct (allows_write scope (td_book d)); cbn [negb].
  - specialize (IH (pre ++ [None]) (acc ++ [(length pre, d)])). rewrite length_app in IH. cbn in IH.
    rewrite <- !app_assoc in IH. exact IH.
  - replace (length pre) with (length pre + 0)%nat at 2 by lia. rewrite insert_app_r. cbn [list_insert].
    specialize (IH (pre ++ [Some (Item_Err (Api_Forbidden (td_book d)))]) acc). rewrite length_app in IH. cbn in IH.
    rewrite <- !app_assoc in IH. exact IH.
Qed.

(** The drafts' answers in place: Forbidden out of scope, and the results in
    order for the rest. *)
Fixpoint in_place (scope : TokenScope) (drafts : list TransactionDraft) (results : list (ApiResult Posted)) : list BatchItem :=
  match drafts with
  | [] => []
  | d :: drafts =>
      if allowed scope d then
        match results with
        | r :: results => item_of r :: in_place scope drafts results
        | [] => unresolved :: in_place scope drafts []
        end
      else Item_Err (Api_Forbidden (td_book d)) :: in_place scope drafts results
  end.

Lemma fill_slots_spec scope drafts results pre :
  map (default unresolved) (fill_slots (zip (in_scope_from scope (length pre) drafts) results) (pre ++ map (forbidden_slot scope) drafts)) =
  map (default unresolved) pre ++ in_place scope drafts results.
Proof.
  revert pre results. induction drafts as [|d drafts IH]; intros pre results; cbn; [by rewrite !app_nil_r|].
  unfold forbidden_slot at 1. destruct (allowed scope d) eqn:Ea.
  - destruct results as [|r results]; cbn [zip fill_slots].
    + specialize (IH (pre ++ [None]) []). rewrite length_app, map_app in IH. cbn in IH. rewrite <- !app_assoc in IH.
      rewrite zip_with_nil_r in IH. exact IH.
    + replace (length pre) with (length pre + 0)%nat at 2 by lia. rewrite insert_app_r. cbn [list_insert].
      specialize (IH (pre ++ [Some (item_of r)]) results). rewrite length_app, map_app in IH. cbn in IH. rewrite <- !app_assoc in IH. exact IH.
  - specialize (IH (pre ++ [Some (Item_Err (Api_Forbidden (td_book d)))]) results).
    rewrite length_app, map_app in IH. cbn in IH. rewrite <- !app_assoc in IH. exact IH.
Qed.

Lemma existsb_filter_nil scope drafts :
  if existsb (allowed scope) drafts then List.filter (allowed scope) drafts <> [] else List.filter (allowed scope) drafts = [].
Proof. induction drafts as [|d drafts IH]; cbn; [done|]. by destruct (allowed scope d). Qed.

Lemma in_scope_drafts scope i drafts : map snd (in_scope_from scope i drafts) = List.filter (allowed scope) drafts.
Proof. revert i. induction drafts as [|d drafts IH]; intros i; cbn; [done|]. destruct (allowed scope d); cbn; by rewrite IH. Qed.

(** What the single route answers a draft with, given the [k]-th id and time and
    the router's answer [a], should it come to ask it. *)
Definition alone_item (scope : TokenScope) (k : nat) (a : result Committed SubmitError) (d : TransactionDraft) (s : S) : BatchItem :=
  item_of (post_transaction (fun _ t => ([a], t)) (fun _ => stamp k) scope d s).1.

(** The transactions of the drafts in scope that are built; the [k]-th draft in
    scope has the [k]-th id and time. *)
Fixpoint accepted (scope : TokenScope) (k : nat) (drafts : list TransactionDraft) : list Transaction :=
  match drafts with
  | [] => []
  | d :: drafts =>
      if allowed scope d then
        match build_transaction (stamp k).1 (stamp k).2 d with
        | Ok tx => tx :: accepted scope (Datatypes.S k) drafts
        | Err _ => accepted scope (Datatypes.S k) drafts
        end
      else accepted scope k drafts
  end.

(** Each draft's item is its own: the single route's, with the answer the router
    gave to the draft's transaction. *)
Fixpoint placed (scope : TokenScope) (k : nat) (drafts : list TransactionDraft) (answers : list (result Committed SubmitError)) (s : S) :
    list BatchItem :=
  match drafts with
  | [] => []
  | d :: drafts =>
      alone_item scope k (default (Err CommitterGone) (head answers)) d s ::
      (if allowed scope d then
         placed scope (Datatypes.S k) drafts
           (if is_ok (build_transaction (stamp k).1 (stamp k).2 d) then tail answers else answers) s
       else placed scope k drafts answers s)
  end.

Lemma imap_stamps k d drafts :
  imap (fun i draft => build_transaction (stamp (k + i)).1 (stamp (k + i)).2 draft) (d :: drafts) =
  build_transaction (stamp k).1 (stamp k).2 d ::
    imap (fun i draft => build_transaction (stamp (Datatypes.S k + i)).1 (stamp (Datatypes.S k + i)).2 draft) drafts.
Proof.
  rewrite imap_cons. cbn beta. rewrite Nat.add_0_r. f_equal. apply imap_ext. intros i x _. cbn. by rewrite Nat.add_succ_r.
Qed.

Lemma build_transaction_id id now d tx : build_transaction id now d = Ok tx -> tx_id tx = id.
Proof. unfold build_transaction. intros E. destruct_results. done. Qed.

Lemma alone_item_forbidden scope k a d s : allowed scope d = false -> alone_item scope k a d s = Item_Err (Api_Forbidden (td_book d)).
Proof. unfold allowed, alone_item, post_transaction. by intros ->. Qed.

Lemma alone_item_built scope k a d s : allowed scope d = true ->
  alone_item scope k a d s = item_of (match build_transaction (stamp k).1 (stamp k).2 d with
                                      | Ok tx => posted_of (tx_id tx) a | Err e => Err e end).
Proof.
  unfold allowed, alone_item, post_transaction, post. intros ->. cbn [negb].
  destruct (build_transaction _ _ d) as [tx|e] eqn:E; [|done]. cbn. by rewrite (build_transaction_id _ _ _ _ E).
Qed.

Lemma built_accepted scope drafts : forall k,
  omap (fun r => match r with Ok tx => Some tx | Err _ => None end)
    (imap (fun i draft => build_transaction (stamp (k + i)).1 (stamp (k + i)).2 draft) (List.filter (allowed scope) drafts)) = accepted scope k drafts.
Proof.
  induction drafts as [|d drafts IH]; intros k; [done|]. cbn [List.filter accepted]. destruct (allowed scope d); [|apply IH].
  rewrite imap_stamps. cbn [omap list_omap]. destruct (build_transaction _ _ d); by rewrite <- IH.
Qed.

Lemma answers_placed scope drafts s : forall k answers,
  in_place scope drafts (post_answers
    (imap (fun i draft => build_transaction (stamp (k + i)).1 (stamp (k + i)).2 draft) (List.filter (allowed scope) drafts)) answers) =
  placed scope k drafts answers s.
Proof.
  induction drafts as [|d drafts IH]; intros k answers; [done|]. cbn [List.filter placed in_place].
  destruct (allowed scope d) eqn:Ea; [|by rewrite IH, alone_item_forbidden].
  rewrite imap_stamps, (alone_item_built _ _ _ _ _ Ea). destruct (build_transaction _ _ d) as [tx|e] eqn:Eb; cbn [post_answers is_ok]; by rewrite IH.
Qed.

Lemma placed_length scope drafts s : forall k answers, length (placed scope k drafts answers s) = length drafts.
Proof. induction drafts as [|d drafts IH]; intros k answers; cbn; [done|]. destruct (allowed scope d); by rewrite IH. Qed.

(** The router's part in a batch: it is asked once, for the transactions of the
    drafts in scope in their order, and not at all without a draft in scope. *)
Definition routed (scope : TokenScope) (drafts : list TransactionDraft) (s : S) : list (result Committed SubmitError) * S :=
  if existsb (allowed scope) drafts then submit_all (accepted scope 0 drafts) s else ([], s).

End scopes.
