(* ===== verification/HttpDemo.v ===== *)
(** The HTTP server over the log store, evaluated at concrete requests: the
    theorems of HttpSpec.v at these points. *)

From S2P Require Import Prelude Decimal Assoc Core Bloom Disk PostingIndex Idem BookState Frame Replay Segment Snapshot.
From S2P Require Import Writer WriterBatch WriterLog WriterSpec LogOpen LogStore StoreReads Api Service ServiceSpec StoreImpl Http HttpSpec.
Open Scope Z_scope.

Section one_by_one.
Context {S : Type} `{Store S}.

(** The router's answers when each transaction is alone in its batch. *)
Fixpoint one_by_one (txs : list Transaction) (s : S) : list (result Committed SubmitError) * S :=
  match txs with
  | [] => ([], s)
  | tx :: txs =>
      let '(a, s1) := submit_alone tx s in
      let '(answers, s2) := one_by_one txs s1 in (a :: answers, s2)
  end.
End one_by_one.

Section http_demo.
Import WriterDemo.
#[local] Existing Instance demo_texts.
#[local] Existing Instance demo_store.

#[local] Instance demo_event_text : EventText := {|
  envelope_to_json := fun e => Ok (ee_kind e);
  error_to_json := fun e => Ok (ApiError_fmt e)
|}.

(** A tokens file of one read-only token for one book and one writer. *)
Definition shop_tokens : list (string * TokenEntry) :=
  [("reports", mkTokenEntry "r3ad" ["shop"] "ro"); ("till", mkTokenEntry "wr1te" ["shop"] "rw")]%string.

#[local] Instance demo_toml : Toml := fun text => if String.eqb text "shop" then Ok shop_tokens else Err "expected a table"%string.

Definition read_file (path : string) : result string string := if String.eqb path "tokens.toml" then Ok "shop"%string else Err "not found"%string.

Definition shop_entries : AuthConfig :=
  [("adm1n", all_access "legacy"); ("r3ad", mkTokenScope "reports" (Named {["shop"%string]}) ReadOnly);
   ("wr1te", mkTokenScope "till" (Named {["shop"%string]}) ReadWrite)]%string.

Lemma shop_entries_loaded : server_entries read_file (Some "adm1n"%string) (Some "tokens.toml"%string) = Ok shop_entries.
Proof. vm_compute. reflexivity. Qed.

Lemma tokens_grant_their_rights_witness :
  require_bearer shop_entries (Some "bearer  wr1te"%string) = Ok (mkTokenScope "till" (Named {["shop"%string]}) ReadWrite) /\
  exists h token, Some "bearer  wr1te"%string = Some h /\ bearer h token /\
      (Some "adm1n"%string = Some token /\ mkTokenScope "till" (Named {["shop"%string]}) ReadWrite = all_access "legacy" \/
       exists name entry, (name, entry) ∈ shop_tokens /\ te_token entry = token /\
         grants name entry (mkTokenScope "till" (Named {["shop"%string]}) ReadWrite)).
Proof.
  assert (require_bearer shop_entries (Some "bearer  wr1te"%string) = Ok (mkTokenScope "till" (Named {["shop"%string]}) ReadWrite)) as Hb
    by (vm_compute; reflexivity).
  split; [exact Hb|].
  destruct (tokens_grant_their_rights read_file (Some "adm1n"%string) "tokens.toml" "shop" shop_tokens shop_entries
              (Some "bearer  wr1te"%string) shop_entries_loaded eq_refl eq_refl) as [_ Hm].
  rewrite Hb in Hm. exact Hm.
Defined.

Definition till : TokenScope := mkTokenScope "till" (Named {["shop"%string]}) ReadWrite.

(** A sale in the till's book, and one in another's. *)
Definition other_draft : TransactionDraft :=
  mkTransactionDraft "bank" "order-9"
    [mkPostingDraft "cash" (mkWireAmount 50 "USD") Debit; mkPostingDraft "sales" (mkWireAmount 50 "USD") Credit] [] "null" None.

Definition stamps : nat -> TxId * DateTime := fun i => (Z.of_nat i + 100, 1000).

Definition quiet_subscribe : Book -> Seq -> LogStore -> list (result (Sequenced LedgerEvent) StoreError) := fun _ _ _ => [].

(** A router whose queue has room for one job. *)
Definition one_slot (txs : list Transaction) (s : LogStore) : list (result Committed SubmitError) * LogStore :=
  match txs with
  | [] => ([], s)
  | tx :: txs => let '(a, s1) := submit_alone tx s in (a :: map (fun _ => Err Overloaded) txs, s1)
  end.

Definition three_drafts : list TransactionDraft := [sale_draft; other_draft; sale_draft].


Lemma scope_enforced_witness :
  denied till (OpenAccount (Ok (mkAccountDraft "bank" "cash" "USD" "asset" None None))) = Some "bank"%string /\
  handle one_by_one stamps quiet_subscribe 500 till (OpenAccount (Ok (mkAccountDraft "bank" "cash" "USD" "asset" None None))) shop_store =
    (into_response (Api_Forbidden "bank"), shop_store).
Proof.
  split; [reflexivity|].
  exact (proj1 (scope_enforced one_by_one stamps quiet_subscribe 500 till
                  (OpenAccount (Ok (mkAccountDraft "bank" "cash" "USD" "asset" None None))) shop_store) "bank"%string eq_refl).
Defined.

Lemma parse_tokens_accepts_witness : Forall (fun ne => well_formed ne.2) shop_tokens /\ is_ok (parse_tokens "shop") = true.
Proof.
  assert (Forall (fun ne => well_formed ne.2) shop_tokens) as Hw.
  { repeat constructor; cbn; try done; try set_solver; tauto. }
  split; [exact Hw|]. apply (parse_tokens_accepts "shop"). exists shop_tokens. split; [reflexivity|]. split; [exact Hw|].
  apply NoDup_ListNoDup. repeat constructor; cbn; intuition discriminate.
Defined.
End http_demo.
