(* ===== verification/ParseInt.v ===== *)
(** [FromStr] of Rust's integers with its errors, as the configuration and the
    command line show them, and its agreement with the parsers of Decimal.v. *)

From S2P Require Import Prelude Decimal.
Open Scope Z_scope.

(** The texts of [ParseIntError]. *)
Definition Empty : string := "cannot parse integer from empty string".
Definition InvalidDigit : string := "invalid digit found in string".
Definition PosOverflow : string := "number too large to fit in target type".
Definition NegOverflow : string := "number too small to fit in target type".

(** The loop over the digits: away from zero, up to a bound. *)
Fixpoint parse_bounded (overflow : string) (bound : Z) (s : string) (acc : Z) : result Z string :=
  match s with
  | EmptyString => Ok acc
  | String a s =>
      match digit_val a with
      | None => Err InvalidDigit
      | Some d => if bound <? acc * 10 + d then Err overflow else parse_bounded overflow bound s (acc * 10 + d)
      end
  end.

(** An unsigned type with the largest value [max]. *)
Definition parse_unsigned_to (max : Z) (s : string) : result Z string :=
  match s with
  | EmptyString => Err Empty
  | String a EmptyString => if Ascii.eqb a "+" || Ascii.eqb a "-" then Err InvalidDigit else parse_bounded PosOverflow max s 0
  | String a s' => if Ascii.eqb a "+" then parse_bounded PosOverflow max s' 0 else parse_bounded PosOverflow max s 0
  end.

(** [i64] *)
Definition parse_i64_text (s : string) : result Z string :=
  match s with
  | EmptyString => Err Empty
  | String a EmptyString => if Ascii.eqb a "+" || Ascii.eqb a "-" then Err InvalidDigit else parse_bounded PosOverflow i64_max s 0
  | String a s' =>
      if Ascii.eqb a "+" then parse_bounded PosOverflow i64_max s' 0
      else if Ascii.eqb a "-" then let? n := parse_bounded NegOverflow (- i64_min) s' 0 in Ok (- n)
      else parse_bounded PosOverflow i64_max s 0
  end.

Definition u32_max : Z := 2 ^ 32 - 1.
Definition usize_max : Z := 2 ^ 64 - 1.

Definition parse_u32_text : string -> result Z string := parse_unsigned_to u32_max.
Definition parse_usize_text : string -> result Z string := parse_unsigned_to usize_max.
Definition parse_u64_text : string -> result Z string := parse_unsigned_to usize_max.

(** ** Agreement with the parsers of values *)

Lemma digit_val_range a d : digit_val a = Some d -> 0 <= d <= 9.
Proof. unfold digit_val. case_match; [|done]. intros [= <-]. bool_to_prop. lia. Qed.

Lemma parse_digits_ge s acc n : 0 <= acc -> parse_digits s acc = Some n -> acc <= n.
Proof.
  revert acc. induction s as [|a s IH]; intros acc Ha; cbn; [by intros [= ->]|].
  destruct (digit_val a) as [d|] eqn:E; [|done]. apply digit_val_range in E. intros H%IH; lia.
Qed.

Lemma parse_bounded_ok overflow bound s acc n :
  0 <= acc <= bound -> parse_bounded overflow bound s acc = Ok n <-> parse_digits s acc = Some n /\ n <= bound.
Proof.
  revert acc. induction s as [|a s IH]; intros acc Ha; cbn; [split; [intros [= <-]; split; [done|lia]|by intros [[= ->] _]]|].
  destruct (digit_val a) as [d|] eqn:E; [|split; [done|by intros [? _]]]. apply digit_val_range in E.
  destruct (bound <? acc * 10 + d) eqn:Eb; bool_to_prop; [|apply IH; lia].
  split; [done|]. intros [Hp Hn]. apply parse_digits_ge in Hp; lia.
Qed.

(** An unsigned parser accepts a text exactly when it is an optional plus and
    digits of a value in range. *)
Lemma parse_unsigned_to_ok max s n :
  0 <= max -> parse_unsigned_to max s = Ok n ->
  0 <= n <= max /\ exists digits, (s = digits \/ s = String "+" digits) /\ digits <> EmptyString /\ parse_digits digits 0 = Some n.
Proof.
  intros Hmax H. unfold parse_unsigned_to in H.
  assert (forall t, t <> EmptyString -> (s = t \/ s = String "+" t) -> parse_bounded PosOverflow max t 0 = Ok n ->
    0 <= n <= max /\ exists digits, (s = digits \/ s = String "+" digits) /\ digits <> EmptyString /\ parse_digits digits 0 = Some n) as Hb.
  { intros t Hne Hs Hp. apply parse_bounded_ok in Hp as [Hp Hle]; [|lia]. pose proof (parse_digits_ge _ _ _ ltac:(reflexivity) Hp).
    split; [lia|]. by exists t. }
  destruct s as [|a [|b s]]; [done| |].
  - destruct (_ || _); [done|]. apply (Hb (String a EmptyString)); [done|by left|done].
  - destruct (Ascii.eqb a "+") eqn:E; [apply Ascii.eqb_eq in E as ->|].
    + apply (Hb (String b s)); [done|by right|done].
    + apply (Hb (String a (String b s))); [done|by left|done].
Qed.

Lemma parse_digits_to_string max n : 0 <= n <= max -> n <= u64_max -> parse_unsigned_to max (u64_to_string n) = Ok n.
Proof.
  intros Hn Hu. pose proof (u64_to_string_digits n ltac:(lia)) as Hd. pose proof (u64_to_string_nonempty n) as Hne.
  pose proof (val_u64_to_string n ltac:(lia)) as Hv.
  assert (parse_bounded PosOverflow max (u64_to_string n) 0 = Ok n) as Hp.
  { apply parse_bounded_ok; [lia|]. rewrite parse_digits_val by done. rewrite Hv. split; [done|lia]. }
  unfold parse_unsigned_to. destruct (u64_to_string n) as [|a s]; [done|]. inversion Hd as [|? ? d Ha]; subst.
  assert (Ascii.eqb a "+" = false /\ Ascii.eqb a "-" = false) as [-> ->].
  { split; destruct (Ascii.eqb a _) eqn:E; try done; apply Ascii.eqb_eq in E; subst a; vm_compute in Ha; done. }
  by destruct s.
Qed.

Lemma parse_i64_text_ok s n : parse_i64_text s = Ok n <-> parse_i64 s = Some n.
Proof.
  unfold parse_i64_text, parse_i64.
  assert (forall t, t <> EmptyString -> parse_bounded PosOverflow i64_max t 0 = Ok n <->
    match parse_unsigned t with Some n => checked_i64 n | None => None end = Some n) as Hpos.
  { intros t Hne. rewrite parse_bounded_ok by (unfold i64_max; lia). unfold parse_unsigned. destruct t as [|a t]; [done|].
    destruct (parse_digits _ 0) as [m|] eqn:E; [|split; [by intros [? _]|done]]. apply parse_digits_ge in E; [|lia].
    rewrite checked_i64_Some. unfold i64_min. split; [intros [[= <-] ?]; lia|]. intros [-> ?]. split; [done|lia]. }
  assert (forall t, t <> EmptyString -> (let? m := parse_bounded NegOverflow (- i64_min) t 0 in Ok (- m)) = Ok n <->
    match parse_unsigned t with Some n => checked_i64 (- n) | None => None end = Some n) as Hneg.
  { intros t Hne. unfold parse_unsigned. destruct t as [|a t]; [done|]. set (t' := String a t) in *.
    destruct (parse_bounded NegOverflow (- i64_min) t' 0) as [m|e] eqn:Eb.
    - apply parse_bounded_ok in Eb as [Hp Hm]; [|unfold i64_min; lia]. rewrite Hp, checked_i64_Some.
      apply parse_digits_ge in Hp; [|lia].
      unfold i64_max, i64_min in *. split; [intros [= <-]; lia|]. by intros [-> _].
    - split; [done|]. destruct (parse_digits t' 0) as [m|] eqn:E; [|done]. rewrite checked_i64_Some. intros [-> Hr].
      assert (parse_bounded NegOverflow (- i64_min) t' 0 = Ok m); [|congruence]. apply parse_bounded_ok; [unfold i64_min; lia|]. split; [done|lia]. }
  destruct s as [|a [|b s]]; [done| |].
  - destruct (Ascii.eqb a "+") eqn:E1; [apply Ascii.eqb_eq in E1 as ->; by split|]. destruct (Ascii.eqb a "-") eqn:E2; [apply Ascii.eqb_eq in E2 as ->; by split|].
    cbn [orb]. rewrite Hpos by done. destruct a as [[] [] [] [] [] [] [] []]; done.
  - destruct (Ascii.eqb a "+") eqn:E1; [apply Ascii.eqb_eq in E1 as ->; by apply Hpos|]. destruct (Ascii.eqb a "-") eqn:E2; [apply Ascii.eqb_eq in E2 as ->; by apply Hneg|].
    rewrite Hpos by done. destruct a as [[] [] [] [] [] [] [] []]; done.
Qed.
