(* ===== verification/Config.v ===== *)
(** The server's configuration, talea-server/src/config.rs: [from_lookup] over the
    environment's variables.

    A socket address is what the parser of std::net makes of a text. *)

From S2P Require Import Prelude Decimal ParseInt.
Open Scope Z_scope.

Section config.
Context {SocketAddr : Type}.
Variable parse_socket_addr : string -> result SocketAddr string.

Record Config := mkConfig {
  db_url : string;
  bind : SocketAddr;
  api_token : option string;
  db_pool : Z;  (* u32 *)
  max_inflight : Z;  (* usize *)
  metrics_bind : option SocketAddr;
  write_queue_depth : Z;  (* usize *)
  write_batch_max : Z;  (* usize *)
  tokens_file : option string;
  http_batch_max : Z;  (* usize *)
  log_snapshot_every : option Z;  (* u64 *)
  log_idem_hot_cap : option Z;  (* usize *)
  log_segment_max : option Z  (* u64 *)
}.

Inductive ConfigError := MissingDbUrl | Invalid (var reason : string).

Definition Lookup : Type := string -> option string.

(** [map(parse).transpose().map_err(..)] of a variable. *)
Definition parse_var {A} (parse : string -> result A string) (get : Lookup) (var : string) : result (option A) ConfigError :=
  match get var with
  | None => Ok None
  | Some v => match parse v with Ok a => Ok (Some a) | Err e => Err (Invalid var e) end
  end.

Definition parse_nonzero (get : Lookup) (var : string) (default : Z) : result Z ConfigError :=
  match get var with
  | None => Ok default
  | Some v =>
      match parse_usize_text v with
      | Err e => Err (Invalid var e)
      | Ok value => if value =? 0 then Err (Invalid var "must be >= 1") else Ok value
      end
  end.

Definition from_lookup (get : Lookup) : result Config ConfigError :=
  let? url := ok_or (get "TALEA_DB_URL"%string) MissingDbUrl in
  let? bnd := map_err (Invalid "TALEA_BIND") (parse_socket_addr (default "127.0.0.1:8080"%string (get "TALEA_BIND"%string))) in
  let? pool := parse_var parse_u32_text get "TALEA_DB_POOL" in
  let? inflight := parse_var parse_usize_text get "TALEA_MAX_INFLIGHT" in
  let? metrics := parse_var parse_socket_addr get "TALEA_METRICS_BIND" in
  let? depth := parse_nonzero get "TALEA_WRITE_QUEUE_DEPTH" 256 in
  let? batch := parse_nonzero get "TALEA_WRITE_BATCH_MAX" 64 in
  let? http_batch := parse_nonzero get "TALEA_HTTP_BATCH_MAX" 500 in
  let? snapshot := parse_var parse_u64_text get "TALEA_LOG_SNAPSHOT_EVERY" in
  let? hot_cap := parse_var parse_usize_text get "TALEA_LOG_IDEM_HOT_CAP" in
  let? segment := parse_var parse_u64_text get "TALEA_LOG_SEGMENT_MAX" in
  Ok (mkConfig url bnd (get "TALEA_API_TOKEN"%string) (default 10 pool) (default 256 inflight) metrics depth batch
        (get "TALEA_TOKENS_FILE"%string) http_batch snapshot hot_cap segment).

(** ** What a configuration promises *)

Lemma parse_var_ok {A} (parse : string -> result A string) get var o :
  parse_var parse get var = Ok o -> match o with Some a => exists v, get var = Some v /\ parse v = Ok a | None => get var = None end.
Proof. unfold parse_var. destruct (get var) as [v|]; [|by intros [= <-]]. destruct (parse v) as [a|] eqn:E; intros [= <-]. by exists v. Qed.

Lemma parse_nonzero_ok get var d n : 0 < d <= usize_max -> parse_nonzero get var d = Ok n ->
  1 <= n <= usize_max /\ (get var = None -> n = d) /\ forall v, get var = Some v -> parse_usize_text v = Ok n.
Proof.
  intros Hd. unfold parse_nonzero. destruct (get var) as [v|]; [|intros [= <-]; split; [lia|]; done].
  destruct (parse_usize_text v) as [m|] eqn:E; [|done]. destruct (m =? 0) eqn:E0; [done|]. intros [= <-]. apply Z.eqb_neq in E0.
  assert (0 <= usize_max) as Hm by done. apply (parse_unsigned_to_ok _ _ _ Hm) in E as Hr. destruct Hr as [Hr _].
  split; [lia|]. split; [done|]. intros v' [= <-]. done.
Qed.

(** A variable that is unset takes its default; one that is set is parsed. *)
Definition takes {A} (get : Lookup) (var : string) (parse : string -> result A string) (unset : A) (a : A) : Prop :=
  match get var with None => a = unset | Some v => parse v = Ok a end.

Lemma parse_var_takes {A} (parse : string -> result A string) get var o d :
  parse_var parse get var = Ok o -> takes get var parse d (default d o).
Proof. intros H%parse_var_ok. unfold takes. destruct o; [destruct H as (v & -> & H); exact H|by rewrite H]. Qed.

(** The texts of an accepted configuration are the environment's. *)
Lemma from_lookup_texts get c :
  from_lookup get = Ok c ->
  get "TALEA_DB_URL"%string = Some (db_url c) /\ get "TALEA_API_TOKEN"%string = api_token c /\ get "TALEA_TOKENS_FILE"%string = tokens_file c.
Proof. unfold from_lookup, ok_or. intros H. by repeat (case_match; [|done]); simplify_eq. Qed.

(** An accepted configuration has the values the environment names or the
    defaults, each within its type, and a write queue, a write batch and a
    request batch of at least one. *)
Theorem config_values (get : Lookup) (c : Config) :
  from_lookup get = Ok c ->
  get "TALEA_DB_URL"%string = Some (db_url c) /\ api_token c = get "TALEA_API_TOKEN"%string /\ tokens_file c = get "TALEA_TOKENS_FILE"%string /\
  takes get "TALEA_DB_POOL" parse_u32_text 10 (db_pool c) /\ 0 <= db_pool c <= u32_max /\
  takes get "TALEA_MAX_INFLIGHT" parse_usize_text 256 (max_inflight c) /\ 0 <= max_inflight c <= usize_max /\
  takes get "TALEA_WRITE_QUEUE_DEPTH" parse_usize_text 256 (write_queue_depth c) /\ 1 <= write_queue_depth c <= usize_max /\
  takes get "TALEA_WRITE_BATCH_MAX" parse_usize_text 64 (write_batch_max c) /\ 1 <= write_batch_max c <= usize_max /\
  takes get "TALEA_HTTP_BATCH_MAX" parse_usize_text 500 (http_batch_max c) /\ 1 <= http_batch_max c <= usize_max.
Proof.
  intros H. unfold from_lookup in H. destruct (get "TALEA_DB_URL"%string) as [url|] eqn:Eu; [|done]. cbn [ok_or] in H.
  destruct (map_err _ _) as [bnd|]; [|done].
  destruct (parse_var parse_u32_text get _) as [pool|] eqn:Ep; [|done].
  destruct (parse_var parse_usize_text get "TALEA_MAX_INFLIGHT") as [infl|] eqn:Ei; [|done].
  destruct (parse_var parse_socket_addr get _) as [metrics|]; [|done].
  destruct (parse_nonzero get "TALEA_WRITE_QUEUE_DEPTH" _) as [depth|] eqn:Eq; [|done].
  destruct (parse_nonzero get "TALEA_WRITE_BATCH_MAX" _) as [batch|] eqn:Eb; [|done].
  destruct (parse_nonzero get "TALEA_HTTP_BATCH_MAX" _) as [hb|] eqn:Eh; [|done].
  destruct (parse_var _ get "TALEA_LOG_SNAPSHOT_EVERY") as [?|]; [|done].
  destruct (parse_var _ get "TALEA_LOG_IDEM_HOT_CAP") as [?|]; [|done].
  destruct (parse_var _ get "TALEA_LOG_SEGMENT_MAX") as [?|]; [|done]. injection H as <-. cbn [db_url api_token tokens_file db_pool max_inflight write_queue_depth write_batch_max http_batch_max].
  assert (forall var d n, 0 < d <= usize_max -> parse_nonzero get var d = Ok n -> takes get var parse_usize_text d n /\ 1 <= n <= usize_max) as Hnz.
  { intros var d n Hd Hn. destruct (parse_nonzero_ok get var d n Hd Hn) as (Hr & Hnone & Hsome). split; [|done]. unfold takes.
    destruct (get var) as [v|]; [by apply Hsome|by apply Hnone]. }
  assert (forall max var o d, 0 <= d <= max -> parse_var (parse_unsigned_to max) get var = Ok o -> 0 <= default d o <= max) as Hrange.
  { intros max var o d Hd Ho%parse_var_ok. destruct o as [x|]; [|done]. destruct Ho as (v & _ & Hv). destruct (parse_unsigned_to_ok max v x ltac:(lia) Hv) as [Hx _]. exact Hx. }
  apply Hnz in Eq as [? ?]; [|unfold usize_max; lia]. apply Hnz in Eb as [? ?]; [|unfold usize_max; lia]. apply Hnz in Eh as [? ?]; [|unfold usize_max; lia].
  pose proof (Hrange u32_max _ _ 10 ltac:(unfold u32_max; lia) Ep). pose proof (Hrange usize_max _ _ 256 ltac:(unfold usize_max; lia) Ei).
  split_and!; try done; try (by apply parse_var_takes); lia.
Qed.
End config.

Arguments Config : clear implicits.

Section config_demo.
Definition demo_env (var : string) : option string :=
  if String.eqb var "TALEA_DB_URL" then Some "sqlite://ledger.db"%string
  else if String.eqb var "TALEA_WRITE_BATCH_MAX" then Some "+16"%string else None.

Definition any_addr (s : string) : result string string := Ok s.

Definition demo_config : Config string :=
  mkConfig "sqlite://ledger.db" "127.0.0.1:8080"%string None 10 256 None 256 16 None 500 None None None.

Lemma config_values_witness :
  from_lookup any_addr demo_env = Ok demo_config /\ takes demo_env "TALEA_WRITE_BATCH_MAX" parse_usize_text 64 16.
Proof.
  assert (from_lookup any_addr demo_env = Ok demo_config) as Hc by reflexivity.
  split; [exact Hc|]. destruct (config_values any_addr demo_env demo_config Hc) as (_ & _ & _ & _ & _ & _ & _ & _ & _ & Hb & _). exact Hb.
Defined.

(** A batch limit of zero is refused. *)
Example zero_batch : from_lookup any_addr (fun v => if String.eqb v "TALEA_WRITE_BATCH_MAX" then Some "0"%string else demo_env v)
  = Err (Invalid "TALEA_WRITE_BATCH_MAX" "must be >= 1").
Proof. reflexivity. Qed.
End config_demo.
