(* ===== verification/Cli.v ===== *)
(** The command line's drafts, talea-cli/src/cli/parse.rs: the posting syntax,
    parsed from the right, and the draft the flags build. *)

From S2P Require Import Prelude Decimal ParseInt Core Api.
Open Scope Z_scope.

(** The text before the last colon and the text after it. *)
Fixpoint rsplit_colon (s : string) : option (string * string) :=
  match s with
  | EmptyString => None
  | String a s =>
      match rsplit_colon s with
      | Some (l, r) => Some (String a l, r)
      | None => if Ascii.eqb a ":" then Some (EmptyString, s) else None
      end
  end.

(** The items of [s.rsplitn(n, ':')]. *)
Fixpoint rsplitn (n : nat) (s : string) : list string :=
  match n with
  | O => []
  | S O => [s]
  | S n => match rsplit_colon s with Some (l, r) => r :: rsplitn n l | None => [s] end
  end.

(** [it.next().filter(|p| !p.is_empty())] *)
Definition non_empty (item : option string) : option string :=
  item ≫= (fun p => if String.eqb p "" then None else Some p).

Definition parse_posting (s : string) (direction : Direction) : result PostingDraft string :=
  let it := rsplitn 3 s in
  let? minor := ok_or (non_empty (it !! 0%nat)) "empty posting"%string in
  let? asset := ok_or (non_empty (it !! 1%nat)) "missing asset (want <account>:<asset>:<minor>)"%string in
  let? account := ok_or (non_empty (it !! 2%nat)) "missing account (want <account>:<asset>:<minor>)"%string in
  let? minor := map_err (fun e => "minor units: " +:+ e) (parse_i64_text minor) in
  Ok (mkPostingDraft account (mkWireAmount minor asset) direction).

Definition build_draft (base : option TransactionDraft) (book idem : option string) (debits credits : list PostingDraft)
    (occurred_at : option DateTime) (metadata : option JsonValue) : result TransactionDraft string :=
  let draft := default (mkTransactionDraft "" "" [] [] "null" None) base in
  let draft := mkTransactionDraft
    (default (td_book draft) book)
    (default (td_idempotency_key draft) idem)
    (match debits, credits with [], [] => td_postings draft | _, _ => debits ++ credits end)
    (td_external_refs draft)
    (default (td_metadata draft) metadata)
    (match occurred_at with Some t => Some t | None => td_occurred_at draft end) in
  if String.eqb (td_book draft) "" then Err "--book is required (or provide it in --draft)"%string
  else if String.eqb (td_idempotency_key draft) "" then Err "--idem is required (or provide it in --draft)"%string
  else match td_postings draft with
  | [] => Err "at least one --debit/--credit is required (or postings in --draft)"%string
  | _ => Ok draft
  end.

(** ** The syntax *)

Definition no_colon (s : string) : Prop := rsplit_colon s = None.

Lemma rsplit_colon_Some s l r : rsplit_colon s = Some (l, r) <-> s = l +:+ String ":" r /\ no_colon r.
Proof.
  unfold no_colon. revert l r. induction s as [|a s IH]; intros l r; cbn.
  - split; [done|]. by intros [H _]; destruct l.
  - destruct (rsplit_colon s) as [[l' r']|] eqn:E.
    + destruct (proj1 (IH l' r') eq_refl) as [Hs Hr]. split.
      * intros [= <- <-]. split; [cbn; by rewrite Hs|done].
      * intros [Ha Hn]. destruct l as [|b l]; cbn in Ha; [injection Ha as -> ->; congruence|]. injection Ha as -> Ha.
        assert (Some (l', r') = Some (l, r)) as [= -> ->] by (by apply IH). done.
    + destruct (Ascii.eqb a ":") eqn:Ea; split; try done.
      * intros [= <- <-]. apply Ascii.eqb_eq in Ea as ->. by split.
      * intros [Ha Hn]. destruct l as [|b l]; cbn in Ha; [by injection Ha as -> ->|]. injection Ha as -> Ha.
        assert (None = Some (l, r)) by (by apply IH). done.
      * intros [Ha Hn]. destruct l as [|b l]; cbn in Ha; [injection Ha as -> _; by rewrite Ascii.eqb_refl in Ea|]. injection Ha as -> Ha.
        assert (None = Some (l, r)) by (by apply IH). done.
Qed.

Lemma non_empty_Some o p : non_empty o = Some p <-> o = Some p /\ p <> EmptyString.
Proof.
  unfold non_empty. destruct o as [q|]; cbn; [|by split; [|intros [? _]]]. destruct (String.eqb q "") eqn:E.
  - apply String.eqb_eq in E as ->. split; [done|]. by intros [[= <-] ?].
  - apply String.eqb_neq in E. split; [by intros [= <-]|by intros [[= <-] _]].
Qed.

Lemma rsplitn_3 s account asset minor :
  rsplitn 3 s = [minor; asset; account] <-> s = account +:+ String ":" (asset +:+ String ":" minor) /\ no_colon asset /\ no_colon minor.
Proof.
  assert (forall (l r x : string), (l +:+ String ":" r) +:+ String ":" x = l +:+ String ":" (r +:+ String ":" x)) as Happ.
  { intros l r x. induction l as [|a l IH]; cbn; [done|]. by rewrite IH. }
  cbn [rsplitn]. destruct (rsplit_colon s) as [[l r]|] eqn:E.
  - apply rsplit_colon_Some in E as [-> Hr]. destruct (rsplit_colon l) as [[l2 r2]|] eqn:E2.
    + apply rsplit_colon_Some in E2 as [-> Hr2]. split.
      * intros [= <- <- <-]. by rewrite Happ.
      * intros (Hs & Hn2 & Hn). rewrite <- Happ in Hs.
        assert (Some (l2 +:+ String ":" r2, r) = Some (account +:+ String ":" asset, minor)) as Heq.
        { transitivity (rsplit_colon ((l2 +:+ String ":" r2) +:+ String ":" r)); [symmetry|]; apply rsplit_colon_Some; done. }
        injection Heq as Heq ->.
        assert (Some (l2, r2) = Some (account, asset)) as [= -> ->]; [|done].
        transitivity (rsplit_colon (l2 +:+ String ":" r2)); [symmetry|]; apply rsplit_colon_Some; done.
    + split; [done|]. intros (Hs & Hn2 & Hn). rewrite <- Happ in Hs.
      assert (Some (l, r) = Some (account +:+ String ":" asset, minor)) as [= -> _].
      { transitivity (rsplit_colon (l +:+ String ":" r)); [symmetry|]; apply rsplit_colon_Some; done. }
      assert (rsplit_colon (account +:+ String ":" asset) = Some (account, asset)) by (by apply rsplit_colon_Some). congruence.
  - split; [done|]. intros (Hs & Hn2 & Hn). rewrite <- Happ in Hs.
    assert (rsplit_colon s = Some (account +:+ String ":" asset, minor)) by (by apply rsplit_colon_Some). congruence.
Qed.

Lemma rsplitn_length s : (length (rsplitn 3 s) <= 3)%nat.
Proof. cbn [rsplitn]. repeat case_match; cbn; lia. Qed.

(** A posting argument is accepted exactly when it is an account, an asset and a
    number of minor units in the range of i64, joined by colons: the account may
    have colons of its own, the asset may not, and neither is empty.  It is then
    the posting of that account, asset and number. *)
Theorem parse_posting_exact (s : string) (direction : Direction) (p : PostingDraft) :
  parse_posting s direction = Ok p <->
  exists account asset text minor,
    s = account +:+ String ":" (asset +:+ String ":" text) /\ account <> EmptyString /\ asset <> EmptyString /\
    no_colon asset /\ no_colon text /\ parse_i64 text = Some minor /\
    p = mkPostingDraft account (mkWireAmount minor asset) direction.
Proof.
  unfold parse_posting. split.
  - destruct (non_empty (rsplitn 3 s !! 0%nat)) as [text|] eqn:E0; [|done]. apply non_empty_Some in E0 as [E0 _].
    destruct (non_empty (rsplitn 3 s !! 1%nat)) as [asset|] eqn:E1; [|done]. apply non_empty_Some in E1 as [E1 Has].
    destruct (non_empty (rsplitn 3 s !! 2%nat)) as [account|] eqn:E2; [|done]. apply non_empty_Some in E2 as [E2 Hac]. cbn [ok_or].
    destruct (parse_i64_text text) as [minor|] eqn:Em; [|done]. cbn [map_err]. intros [= <-]. apply parse_i64_text_ok in Em.
    pose proof (rsplitn_length s) as Hlen.
    assert (rsplitn 3 s = [text; asset; account]) as Hl.
    { destruct (rsplitn 3 s) as [|x [|y [|z [|w l]]]]; cbn in *; try done; [congruence|lia]. }
    apply rsplitn_3 in Hl as (Hs & Hn1 & Hn2). by exists account, asset, text, minor.
  - intros (account & asset & text & minor & Hs & Hac & Has & Hn1 & Hn2 & Hm & ->).
    assert (rsplitn 3 s = [text; asset; account]) as -> by (by apply rsplitn_3). cbn [lookup list_lookup].
    assert (text <> EmptyString) as Ht by (by intros ->).
    rewrite !(proj2 (non_empty_Some _ _) (conj eq_refl Ht)), !(proj2 (non_empty_Some _ _) (conj eq_refl Has)), !(proj2 (non_empty_Some _ _) (conj eq_refl Hac)).
    cbn [ok_or]. apply parse_i64_text_ok in Hm. by rewrite Hm.
Qed.

Example colon_account :
  parse_posting "treasury:btc:USD:1000" Debit = Ok (mkPostingDraft "treasury:btc" (mkWireAmount 1000 "USD") Debit).
Proof. reflexivity. Qed.

(** The draft built is the base with the fields the flags name, and is refused
    only without a book, an idempotency key or a posting. *)
Lemma build_draft_ok base book idem debits credits occurred_at metadata draft :
  build_draft base book idem debits credits occurred_at metadata = Ok draft ->
  td_book draft <> EmptyString /\ td_idempotency_key draft <> EmptyString /\ td_postings draft <> [] /\
  (forall b, book = Some b -> td_book draft = b) /\ (forall k, idem = Some k -> td_idempotency_key draft = k) /\
  (debits ++ credits <> [] -> td_postings draft = debits ++ credits).
Proof.
  unfold build_draft. set (d := mkTransactionDraft _ _ _ _ _ _).
  destruct (String.eqb (td_book d) "") eqn:Eb; [done|]. destruct (String.eqb (td_idempotency_key d) "") eqn:Ek; [done|].
  apply String.eqb_neq in Eb, Ek. destruct (td_postings d) eqn:Ep; [done|]. intros [= <-]. subst d. cbn in *.
  split_and!; try done; try congruence; [by intros b ->|by intros k ->|]. by destruct debits, credits.
Qed.
