(* ===== verification/Seed.v ===== *)
(** The seed file of the daemon, talead/src/seed.rs: its validation, and its
    application to a store, which can be repeated. *)

From S2P Require Import Prelude Decimal Core Api Service.
Open Scope Z_scope.

Record SeedAsset := mkSeedAsset { sa_id : string; sa_class : AssetClass; sa_precision : Z;  (* u8 *) sa_name : string }.

Record SeedAccount := mkSeedAccount {
  sc_book : string;
  sc_path : string;
  sc_asset : string;
  sc_kind : AccountKind;
  sc_min_balance : option Z;
  sc_normal_side : option Direction
}.

Record SeedFile := mkSeedFile { sf_assets : list SeedAsset; sf_accounts : list SeedAccount }.

Inductive SeedError :=
| Parse (e : string)
| DuplicateAsset (id : string)
| DuplicateAccount (key : string)
| ReservedBook (book : string)
| MissingAsset (account asset : string)
| AssetConflict (id diff : string)
| BlankField (entry field : string)
| StoreFailed (e : StoreError).

Definition SeedAsset_to_def (a : SeedAsset) : AssetDef := mkAssetDef (sa_id a) (sa_class a) (sa_precision a) (sa_name a).

Definition SeedAccount_to_def (a : SeedAccount) : AccountDef * AccountCfg :=
  (mkAccountDef (mkAccountId (sc_book a) (sc_path a)) (sc_asset a) (sc_kind a), mkAccountCfg (sc_normal_side a) (sc_min_balance a)).

(** [s.trim().is_empty()]: nothing but Unicode white space, in UTF-8. *)
Fixpoint blank (s : string) : bool :=
  match s with
  | EmptyString => true
  | String a s1 =>
      let n := N_of_ascii a in
      if ((9 <=? n) && (n <=? 13))%N || (n =? 32)%N then blank s1
      else match s1 with
      | String b s2 =>
          let m := N_of_ascii b in
          if (n =? 194)%N && ((m =? 133) || (m =? 160))%N then blank s2
          else match s2 with
          | String c s3 =>
              let l := N_of_ascii c in
              if ((n =? 225) && (m =? 154) && (l =? 128))%N ||
                 ((n =? 226) && (m =? 128) && (((128 <=? l) && (l <=? 138)) || (l =? 168) || (l =? 169) || (l =? 175)))%N ||
                 ((n =? 226) && (m =? 129) && (l =? 159))%N ||
                 ((n =? 227) && (m =? 128) && (l =? 128))%N
              then blank s3 else false
          | EmptyString => false
          end
      | EmptyString => false
      end
  end.

(** ** Validation *)

Fixpoint validate_assets (assets : list SeedAsset) (asset_ids : gset string) : result unit SeedError :=
  match assets with
  | [] => Ok ()
  | a :: assets =>
      if blank (sa_id a) then Err (BlankField "asset" "id")
      else if blank (sa_name a) then Err (BlankField "asset" "name")
      else if bool_decide (sa_id a ∈ asset_ids) then Err (DuplicateAsset (sa_id a))
      else validate_assets assets ({[sa_id a]} ∪ asset_ids)
  end.

Definition account_key (a : SeedAccount) : string := sc_book a +:+ ":" +:+ sc_path a.

Fixpoint validate_accounts (accounts : list SeedAccount) (account_keys : gset string) : result unit SeedError :=
  match accounts with
  | [] => Ok ()
  | a :: accounts =>
      if blank (sc_book a) then Err (BlankField "account" "book")
      else if blank (sc_path a) then Err (BlankField "account" "path")
      else if blank (sc_asset a) then Err (BlankField "account" "asset")
      else if is_reserved (sc_book a) then Err (ReservedBook (sc_book a))
      else if bool_decide (account_key a ∈ account_keys) then Err (DuplicateAccount (account_key a))
      else validate_accounts accounts ({[account_key a]} ∪ account_keys)
  end.

Definition validate (seed : SeedFile) : result unit SeedError :=
  let? _ := validate_assets (sf_assets seed) ∅ in
  validate_accounts (sf_accounts seed) ∅.

(** [parse], after what the TOML parser makes of the text. *)
Definition parse (toml : result SeedFile string) : result SeedFile SeedError :=
  let? seed := map_err Parse toml in
  let? _ := validate seed in
  Ok seed.

(** ** Application *)

Record ApplySummary := mkApplySummary { assets_created : nat; assets_existing : nat; accounts_ensured : nat }.

Definition diff_assets `{Texts} (existing new : AssetDef) : string :=
  String.concat ", "
    ((if asset_precision existing =? asset_precision new then []
      else ["precision " +:+ u64_to_string (asset_precision existing) +:+ " vs " +:+ u64_to_string (asset_precision new)]) ++
     (if String.eqb (asset_name existing) (asset_name new) then []
      else ["name " +:+ debug_str (asset_name existing) +:+ " vs " +:+ debug_str (asset_name new)]) ++
     (if bool_decide (asset_class existing = asset_class new) then [] else ["class differs"%string]))%list.

Section apply.
Context {S : Type} `{Store S} `{Texts}.

Fixpoint apply_assets (assets : list SeedAsset) (summary : ApplySummary) (s : S) : result ApplySummary SeedError * S :=
  match assets with
  | [] => (Ok summary, s)
  | a :: assets =>
      let def := SeedAsset_to_def a in
      match store_asset (asset_id def) s with
      | (Err e, s1) => (Err (StoreFailed e), s1)
      | (Ok (Some existing), s1) =>
          if bool_decide (existing = def) then
            apply_assets assets (mkApplySummary (assets_created summary) (assets_existing summary + 1) (accounts_ensured summary)) s1
          else (Err (AssetConflict (sa_id a) (diff_assets existing def)), s1)
      | (Ok None, s1) =>
          match store_register_asset def s1 with
          | (Err e, s2) => (Err (StoreFailed e), s2)
          | (Ok _, s2) =>
              apply_assets assets (mkApplySummary (assets_created summary + 1) (assets_existing summary) (accounts_ensured summary)) s2
          end
      end
  end.

(** Whether an account's asset is missing: neither in the file nor in the store. *)
Definition asset_missing (file_assets : gset string) (a : SeedAccount) (s : S) : result bool StoreError * S :=
  if bool_decide (sc_asset a ∈ file_assets) then (Ok false, s)
  else match store_asset (sc_asset a) s with
       | (Ok o, s1) => (Ok (match o with None => true | Some _ => false end), s1)
       | (Err e, s1) => (Err e, s1)
       end.

Fixpoint apply_accounts (file_assets : gset string) (accounts : list SeedAccount) (summary : ApplySummary) (s : S) :
    result ApplySummary SeedError * S :=
  match accounts with
  | [] => (Ok summary, s)
  | a :: accounts =>
      let '(def, cfg) := SeedAccount_to_def a in
      match asset_missing file_assets a s with
      | (Err e, s1) => (Err (StoreFailed e), s1)
      | (Ok true, s1) => (Err (MissingAsset (to_key (acct_id def)) (sc_asset a)), s1)
      | (Ok false, s1) =>
          match store_open_account def cfg s1 with
          | (Err e, s2) => (Err (StoreFailed e), s2)
          | (Ok _, s2) =>
              apply_accounts file_assets accounts
                (mkApplySummary (assets_created summary) (assets_existing summary) (accounts_ensured summary + 1)) s2
          end
      end
  end.

Definition apply (seed : SeedFile) (s : S) : result ApplySummary SeedError * S :=
  match apply_assets (sf_assets seed) (mkApplySummary 0 0 0) s with
  | (Err e, s1) => (Err e, s1)
  | (Ok summary, s1) => apply_accounts (list_to_set (map sa_id (sf_assets seed))) (sf_accounts seed) summary s1
  end.
End apply.

(** ** What is valid *)

Lemma validate_assets_ok assets seen :
  validate_assets assets seen = Ok () <->
  Forall (fun a => blank (sa_id a) = false /\ blank (sa_name a) = false) assets /\ NoDup (map sa_id assets) /\
  (forall id, id ∈ map sa_id assets -> id ∉ seen).
Proof.
  revert seen. induction assets as [|a assets IH]; intros seen; cbn [validate_assets map].
  { split; [|done]. intros _. split; [constructor|]. split; [constructor|]. by intros id ?%elem_of_nil. }
  rewrite Forall_cons, NoDup_cons. destruct (blank (sa_id a)); [split; [done|]; by intros [[[? _] _] _]|].
  destruct (blank (sa_name a)); [split; [done|]; by intros [[[_ ?] _] _]|]. case_bool_decide as Hin.
  - split; [done|]. intros (_ & _ & Hn). destruct (Hn (sa_id a)); [left|done].
  - rewrite IH. set_solver.
Qed.

Lemma validate_accounts_ok accounts seen :
  validate_accounts accounts seen = Ok () <->
  Forall (fun a => (blank (sc_book a) = false /\ blank (sc_path a) = false /\ blank (sc_asset a) = false) /\ is_reserved (sc_book a) = false) accounts /\
  NoDup (map account_key accounts) /\ (forall k, k ∈ map account_key accounts -> k ∉ seen).
Proof.
  revert seen. induction accounts as [|a accounts IH]; intros seen; cbn [validate_accounts map].
  { split; [|done]. intros _. split; [constructor|]. split; [constructor|]. by intros id ?%elem_of_nil. }
  rewrite Forall_cons, NoDup_cons. destruct (blank (sc_book a)); [split; [done|]; naive_solver|].
  destruct (blank (sc_path a)); [split; [done|]; naive_solver|]. destruct (blank (sc_asset a)); [split; [done|]; naive_solver|].
  destruct (is_reserved (sc_book a)); [split; [done|]; naive_solver|]. case_bool_decide as Hin.
  - split; [done|]. intros (_ & _ & Hn). destruct (Hn (account_key a)); [left|done].
  - rewrite IH. set_solver.
Qed.

(** A seed file is accepted exactly when no field that names something is blank,
    no book is reserved, no asset is named twice and no two accounts have the same
    text "book:path". *)
Theorem seed_validate_exact (seed : SeedFile) :
  validate seed = Ok () <->
  Forall (fun a => blank (sa_id a) = false /\ blank (sa_name a) = false) (sf_assets seed) /\ NoDup (map sa_id (sf_assets seed)) /\
  Forall (fun a => (blank (sc_book a) = false /\ blank (sc_path a) = false /\ blank (sc_asset a) = false) /\ is_reserved (sc_book a) = false)
    (sf_accounts seed) /\
  NoDup (map account_key (sf_accounts seed)).
Proof.
  unfold validate. destruct (validate_assets (sf_assets seed) ∅) as [[]|e] eqn:E.
  - apply validate_assets_ok in E as (Ha & Hn & _). rewrite validate_accounts_ok. set_solver.
  - split; [done|]. intros (Ha & Hn & _). assert (validate_assets (sf_assets seed) ∅ = Ok ()); [|congruence].
    apply validate_assets_ok. set_solver.
Qed.

(** The text is not the account's key: two accounts with different keys can have
    it, and are then refused as duplicates. *)
Definition twins : list SeedAccount :=
  [mkSeedAccount "a:b" "c" "USD" Asset None None; mkSeedAccount "a" "b:c" "USD" Asset None None].

Lemma twins_refused :
  validate (mkSeedFile [] twins) = Err (DuplicateAccount "a:b:c") /\
  NoDup (map (fun a => to_key (acct_id (SeedAccount_to_def a).1)) twins).
Proof. split; [reflexivity|]. apply NoDup_ListNoDup. repeat constructor; cbn; intuition discriminate. Qed.

(** ** Applying twice *)

(** A store that keeps the assets and accounts it was given. *)
Class Definitions (S : Type) `{Store S} := {
  def_ok : S -> Prop;
  has_asset : S -> AssetDef -> Prop;
  has_account : S -> AccountDef -> AccountCfg -> Prop;
  def_keeps s s' := def_ok s' /\ (forall d, has_asset s d -> has_asset s' d) /\ (forall d c, has_account s d c -> has_account s' d c);
  asset_read id s : def_ok s ->
    let '(r, s') := store_asset id s in def_keeps s s' /\ forall d, r = Ok (Some d) -> asset_id d = id /\ has_asset s d;
  asset_found d s : def_ok s -> has_asset s d -> (store_asset (asset_id d) s).1 = Ok (Some d);
  asset_registered d s : def_ok s -> 0 <= asset_precision d < 256 ->
    let '(r, s') := store_register_asset d s in r = Ok () -> def_keeps s s' /\ has_asset s' d;
  account_opened d c s : def_ok s ->
    let '(r, s') := store_open_account d c s in r = Ok () -> def_keeps s s' /\ has_account s' d c;
  account_open d c s : def_ok s -> has_account s d c -> (store_open_account d c s).1 = Ok ()
}.

Section twice.
Context {S : Type} `{Store S} `{!Definitions S} `{Texts}.

Lemma def_keeps_refl s : def_ok s -> def_keeps s s.
Proof. by split. Qed.
Lemma def_keeps_trans s1 s2 s3 : def_keeps s1 s2 -> def_keeps s2 s3 -> def_keeps s1 s3.
Proof. intros (_ & Ha & Hc) (Hok & Ha' & Hc'). split; [done|]. split; auto. Qed.

Definition seed_width (seed : SeedFile) : Prop := Forall (fun a => 0 <= sa_precision a < 256) (sf_assets seed).

Lemma apply_assets_first assets summary s summary' s' :
  def_ok s -> Forall (fun a => 0 <= sa_precision a < 256) assets -> apply_assets assets summary s = (Ok summary', s') ->
  def_keeps s s' /\ Forall (fun a => has_asset s' (SeedAsset_to_def a)) assets.
Proof.
  revert summary s. induction assets as [|a assets IH]; intros summary s Hok Hp Ha; cbn [apply_assets] in Ha.
  { injection Ha as <- <-. split; [by apply def_keeps_refl|constructor]. }
  inversion Hp; subst. pose proof (asset_read (asset_id (SeedAsset_to_def a)) s Hok) as Hr.
  destruct (store_asset _ s) as [[[existing|]|e] s1]; [| |done]; destruct Hr as [Hk Hd].
  - case_bool_decide as He; [|done]. destruct (Hd existing eq_refl) as [_ Hhas]. subst existing.
    destruct (IH _ _ (proj1 Hk) ltac:(done) Ha) as [Hk' Hf].
    split; [by eapply def_keeps_trans|]. constructor; [by apply Hk', Hk|done].
  - pose proof (asset_registered (SeedAsset_to_def a) s1 (proj1 Hk) ltac:(done)) as Hreg.
    destruct (store_register_asset _ s1) as [[[]|e] s2]; [|done]. destruct (Hreg eq_refl) as [Hk2 Hhas].
    destruct (IH _ _ (proj1 Hk2) ltac:(done) Ha) as [Hk' Hf].
    split; [by eapply def_keeps_trans; [|eapply def_keeps_trans]|]. constructor; [by apply Hk'|done].
Qed.

Lemma apply_assets_again assets summary s :
  def_ok s -> Forall (fun a => has_asset s (SeedAsset_to_def a)) assets ->
  exists s', apply_assets assets summary s =
    (Ok (mkApplySummary (assets_created summary) (assets_existing summary + length assets) (accounts_ensured summary)), s') /\ def_keeps s s'.
Proof.
  revert summary s. induction assets as [|a assets IH]; intros summary s Hok Hf; cbn [apply_assets length].
  { exists s. rewrite Nat.add_0_r. split; [by destruct summary|by apply def_keeps_refl]. }
  inversion Hf as [|? ? Ha Hrest]; subst. pose proof (asset_read (asset_id (SeedAsset_to_def a)) s Hok) as Hr.
  pose proof (asset_found _ s Hok Ha) as Hfound. destruct (store_asset _ s) as [r s1]. cbn [fst] in Hfound. subst r. destruct Hr as [Hk _].
  rewrite bool_decide_true by done.
  destruct (IH (mkApplySummary (assets_created summary) (assets_existing summary + 1) (accounts_ensured summary)) s1 (proj1 Hk)) as (s2 & Hr2 & Hk2).
  { eapply Forall_impl; [exact Hrest|]. intros x Hx. by apply Hk. }
  exists s2. split; [|by eapply def_keeps_trans]. rewrite Hr2. cbn [assets_created assets_existing accounts_ensured]. do 3 f_equal. lia.
Qed.

(** The store has an account's asset, or the file does. *)
Definition covered (file_assets : gset string) (a : SeedAccount) (s : S) : Prop :=
  sc_asset a ∈ file_assets \/ exists d, asset_id d = sc_asset a /\ has_asset s d.

Lemma asset_missing_keeps file_assets a s :
  def_ok s -> let '(r, s') := asset_missing file_assets a s in def_keeps s s' /\ (r = Ok false -> covered file_assets a s').
Proof.
  intros Hok. unfold asset_missing, covered. case_bool_decide as Hin; [split; [by apply def_keeps_refl|]; auto|].
  pose proof (asset_read (sc_asset a) s Hok) as Hr. destruct (store_asset _ s) as [[[d|]|e] s1]; destruct Hr as [Hk Hd]; (split; [done|]); try done.
  intros _. right. destruct (Hd d eq_refl) as [Hid Hhas]. exists d. split; [done|]. by apply Hk.
Qed.

Lemma asset_not_missing file_assets a s :
  def_ok s -> covered file_assets a s -> exists s', asset_missing file_assets a s = (Ok false, s') /\ def_keeps s s'.
Proof.
  intros Hok Hc. pose proof (asset_missing_keeps file_assets a s Hok) as Hk. unfold asset_missing in *.
  case_bool_decide as Hin; [exists s; by destruct Hk|]. destruct Hc as [?|(d & Hid & Hhas)]; [done|].
  pose proof (asset_found d s Hok Hhas) as Hf. rewrite Hid in Hf. destruct (store_asset (sc_asset a) s) as [r s1]. cbn [fst] in Hf. subst r.
  exists s1. by destruct Hk.
Qed.

Lemma apply_accounts_first file_assets accounts summary s summary' s' :
  def_ok s -> apply_accounts file_assets accounts summary s = (Ok summary', s') ->
  def_keeps s s' /\
  Forall (fun a => has_account s' (SeedAccount_to_def a).1 (SeedAccount_to_def a).2 /\ covered file_assets a s') accounts.
Proof.
  revert summary s. induction accounts as [|a accounts IH]; intros summary s Hok Ha; cbn [apply_accounts] in Ha.
  { injection Ha as <- <-. split; [by apply def_keeps_refl|constructor]. }
  pose proof (asset_missing_keeps file_assets a s Hok) as Hm. unfold SeedAccount_to_def in Ha.
  destruct (asset_missing file_assets a s) as [[[]|e] s1]; [done| |done]. destruct Hm as [Hk Hc]. specialize (Hc eq_refl).
  pose proof (account_opened (SeedAccount_to_def a).1 (SeedAccount_to_def a).2 s1 (proj1 Hk)) as Ho. unfold SeedAccount_to_def in Ho. cbn [fst snd] in Ho.
  destruct (store_open_account _ _ s1) as [[[]|e] s2]; [|done]. destruct (Ho eq_refl) as [Hk2 Hhas].
  destruct (IH _ _ (proj1 Hk2) Ha) as [Hk' Hf]. split; [by eapply def_keeps_trans; [|eapply def_keeps_trans]|].
  constructor; [|done]. split; [by apply Hk'|]. destruct Hc as [?|(d & ? & ?)]; [by left|right]. exists d. split; [done|]. by apply Hk', Hk2.
Qed.

Lemma apply_accounts_again file_assets accounts summary s :
  def_ok s -> Forall (fun a => has_account s (SeedAccount_to_def a).1 (SeedAccount_to_def a).2 /\ covered file_assets a s) accounts ->
  exists s', apply_accounts file_assets accounts summary s =
    (Ok (mkApplySummary (assets_created summary) (assets_existing summary) (accounts_ensured summary + length accounts)), s') /\ def_keeps s s'.
Proof.
  revert summary s. induction accounts as [|a accounts IH]; intros summary s Hok Hf; cbn [apply_accounts length].
  { exists s. rewrite Nat.add_0_r. split; [by destruct summary|by apply def_keeps_refl]. }
  inversion Hf as [|? ? [Hhas Hc] Hrest]; subst. destruct (asset_not_missing file_assets a s Hok Hc) as (s1 & Hm & Hk).
  unfold SeedAccount_to_def at 1. rewrite Hm. pose proof (account_opened (SeedAccount_to_def a).1 (SeedAccount_to_def a).2 s1 (proj1 Hk)) as Ho.
  pose proof (account_open (SeedAccount_to_def a).1 (SeedAccount_to_def a).2 s1 (proj1 Hk) ltac:(by apply Hk)) as Hopen.
  unfold SeedAccount_to_def in Ho, Hopen. cbn [fst snd] in Ho, Hopen. destruct (store_open_account _ _ s1) as [r s2]. cbn [fst] in Hopen. subst r.
  destruct (Ho eq_refl) as [Hk2 _].
  destruct (IH (mkApplySummary (assets_created summary) (assets_existing summary) (accounts_ensured summary + 1)) s2 (proj1 Hk2)) as (s3 & Hr3 & Hk3).
  { eapply Forall_impl; [exact Hrest|]. intros x [Hx Hcx]. split; [by apply Hk2, Hk|].
    destruct Hcx as [?|(d & ? & ?)]; [by left|right]. exists d. split; [done|]. by apply Hk2, Hk. }
  exists s3. split; [|by eapply def_keeps_trans; [|eapply def_keeps_trans]]. rewrite Hr3. cbn [assets_created assets_existing accounts_ensured]. do 3 f_equal. lia.
Qed.

(** All of the seed is in the store. *)
Definition seed_there (seed : SeedFile) (s : S) : Prop :=
  Forall (fun a => has_asset s (SeedAsset_to_def a)) (sf_assets seed) /\
  Forall (fun a => has_account s (SeedAccount_to_def a).1 (SeedAccount_to_def a).2 /\ covered (list_to_set (map sa_id (sf_assets seed))) a s)
    (sf_accounts seed).

Lemma seed_there_kept seed s s' : def_keeps s s' -> seed_there seed s -> seed_there seed s'.
Proof.
  intros (_ & Ha & Hc) [Hassets Haccounts]. split; (eapply Forall_impl; [eassumption|]); [by auto|].
  intros a [Hhas Hcov]. split; [by auto|]. destruct Hcov as [?|(d & ? & ?)]; [by left|right]. exists d. by auto.
Qed.

Lemma apply_first seed s summary s1 :
  def_ok s -> seed_width seed -> apply seed s = (Ok summary, s1) -> def_keeps s s1 /\ seed_there seed s1.
Proof.
  intros Hok Hw Ha. unfold apply in Ha. destruct (apply_assets _ _ s) as [[summary1|e] s0] eqn:E; [|done].
  destruct (apply_assets_first _ _ _ _ _ Hok Hw E) as [Hk Hassets].
  destruct (apply_accounts_first _ _ _ _ _ _ (proj1 Hk) Ha) as [Hk1 Haccounts]. split; [by eapply def_keeps_trans|]. split; [|done].
  eapply Forall_impl; [exact Hassets|]. intros a ?. by apply Hk1.
Qed.

Lemma apply_again seed s :
  def_ok s -> seed_there seed s ->
  exists s2, apply seed s = (Ok (mkApplySummary 0 (length (sf_assets seed)) (length (sf_accounts seed))), s2) /\ def_keeps s s2.
Proof.
  intros Hok Hthere. unfold apply.
  destruct (apply_assets_again (sf_assets seed) (mkApplySummary 0 0 0) s Hok (proj1 Hthere)) as (s2 & Hr & Hk2). rewrite Hr.
  destruct (apply_accounts_again (list_to_set (map sa_id (sf_assets seed))) (sf_accounts seed)
              (mkApplySummary 0 (length (sf_assets seed)) 0) s2 (proj1 Hk2)) as (s3 & Hr3 & Hk3).
  { by apply (seed_there_kept seed s s2 Hk2). }
  exists s3. split; [exact Hr3|by eapply def_keeps_trans].
Qed.

(** A seed that was applied is in the store, and applying it again succeeds,
    creates no asset and keeps what the store has. *)
Theorem seed_apply_idempotent (seed : SeedFile) (summary : ApplySummary) (s s1 : S) :
  def_ok s -> seed_width seed -> apply seed s = (Ok summary, s1) ->
  Forall (fun a => has_asset s1 (SeedAsset_to_def a)) (sf_assets seed) /\
  Forall (fun a => has_account s1 (SeedAccount_to_def a).1 (SeedAccount_to_def a).2) (sf_accounts seed) /\
  exists s2, apply seed s1 = (Ok (mkApplySummary 0 (length (sf_assets seed)) (length (sf_accounts seed))), s2) /\ def_keeps s1 s2.
Proof.
  intros Hok Hw Ha. destruct (apply_first _ _ _ _ Hok Hw Ha) as [Hk [Hassets Haccounts]]. split; [done|].
  split; [eapply Forall_impl; [exact Haccounts|]; by intros a [? _]|]. by apply apply_again; [apply Hk|].
Qed.
End twice.
