(* ===== verification/Startup.v ===== *)
(** Starting up, talea-server/src/run.rs and talead/src/init.rs: which store a
    database URL names and with what options, for the server and for
    [talead init], and the server's way from its configuration to its listeners.

    Connecting to a database and migrating it is what the stores' libraries make
    of an [Opening]. *)

From S2P Require Import Prelude Decimal ParseInt Core Api Service Router Http Config.
From S2P Require Import LogOpen.
Open Scope Z_scope.

(** [str::starts_with] and [str::contains]. *)
Definition starts_with (p s : string) : bool := match strip_prefix p s with Some _ => true | None => false end.

Fixpoint contains (pat s : string) : bool :=
  starts_with pat s || match s with EmptyString => false | String _ s => contains pat s end.

(** What a store is opened with: a pool of the given or of the library's default
    size, or a directory and its options. *)
Inductive Opening :=
| Open_postgres (url : string) (max_connections : option Z)
| Open_sqlite (url : string) (max_connections : option Z)
| Open_log (path : string) (opts : LogStoreOptions).

(** ** The server (run.rs) *)

Section server.
Context {SocketAddr : Type}.
#[local] Abbreviation Cfg := (Config SocketAddr).

Definition is_postgres (url : string) : bool := starts_with "postgres://" url || starts_with "postgresql://" url.

Definition server_log_opts (c : Cfg) : LogStoreOptions :=
  if bool_decide (is_Some (log_snapshot_every c)) || bool_decide (is_Some (log_idem_hot_cap c)) || bool_decide (is_Some (log_segment_max c)) then
    let defaults := LogStoreOptions_default in
    mkLogStoreOptions (match log_idem_hot_cap c with Some n => Z.to_nat n | None => idem_hot_cap defaults end)
      (default (snapshot_every defaults) (log_snapshot_every c)) (default (opt_segment_max defaults) (log_segment_max c))
  else LogStoreOptions_default.

(** The scheme of the URL chooses the store and its name in the metrics. *)
Definition server_opening (c : Cfg) : result (Opening * string) string :=
  if is_postgres (db_url c) then Ok (Open_postgres (db_url c) (Some (db_pool c)), "postgres"%string)
  else if starts_with "sqlite:" (db_url c) then
    if contains ":memory:" (db_url c) then
      Err ("sqlite::memory: is not supported by the server (each pooled connection would get its own database); use a file path")%string
    else Ok (Open_sqlite (db_url c) (Some (db_pool c)), "sqlite"%string)
  else match strip_prefix "log://" (db_url c) with
       | Some path => Ok (Open_log path (server_log_opts c), "log"%string)
       | None => Err ("unsupported TALEA_DB_URL scheme: " +:+ db_url c +:+ " (expected postgres://..., sqlite://..., or log://<dir>)")
       end.

(** The warning about a pool that subscribers can starve: [max_inflight as u32]
    keeps the low 32 bits. *)
Definition starve_warning (c : Cfg) : bool := is_postgres (db_url c) && (db_pool c <? max_inflight c mod 2 ^ 32).

(** [open] connects and migrates the database [S]; [bind] listens on an address. *)
Context {S : Type} `{Toml}.
Variable install : result unit string.
Variable open : Opening -> S -> result unit string * S.
Variable read_to_string : string -> result string string.
Variable bind_to : SocketAddr -> result unit string.

Definition server_connect_store (c : Cfg) (s : S) : result string string * S :=
  match server_opening c with
  | Err e => (Err e, s)
  | Ok (o, backend) => match open o s with (Ok _, s') => (Ok backend, s') | (Err e, s') => (Err e, s') end
  end.

(** What a running server was started with. *)
Record Serving := mkServing {
  sv_backend : string;
  sv_entries : AuthConfig;
  sv_write : WriteConfig;
  sv_max_inflight : Z;
  sv_http_batch_max : Z
}.

Inductive Listener := Metrics_at (a : SocketAddr) | Api_at (a : SocketAddr).

(** [run] up to serving, with the listeners it has bound when it returns. *)
Definition run (c : Cfg) (s : S) : result Serving string * list Listener * S :=
  match install with
  | Err e => (Err e, [], s)
  | Ok _ =>
      match server_connect_store c s with
      | (Err e, s1) => (Err e, [], s1)
      | (Ok backend, s1) =>
          match server_entries read_to_string (api_token c) (tokens_file c) with
          | Err e => (Err e, [], s1)
          | Ok entries =>
              match (match metrics_bind c with
                     | None => Ok []
                     | Some a => match bind_to a with Ok _ => Ok [Metrics_at a] | Err e => Err e end
                     end) with
              | Err e => (Err e, [], s1)
              | Ok metrics =>
                  let write := mkWriteConfig (Z.to_nat (write_queue_depth c)) (Z.to_nat (write_batch_max c)) (idle_reap WriteConfig_default) in
                  let serving := mkServing backend entries write (max_inflight c) (http_batch_max c) in
                  match bind_to (bind c) with
                  | Err e => (Err e, metrics, s1)
                  | Ok _ => (Ok serving, (metrics ++ [Api_at (bind c)])%list, s1)
                  end
              end
          end
      end
  end.

(** *** What it promises *)

Lemma server_entries_open (read : string -> result string string) (token file : option string) (entries : AuthConfig) :
  server_entries read token file = Ok entries -> (entries = [] <-> token = None /\ file = None).
Proof.
  unfold server_entries, AuthConfig_single. destruct file as [path|].
  - destruct (map_err _ (read path)) as [text|]; [|done]. destruct (map_err _ (parse_tokens text)) as [[|e es]|]; [done| |done].
    destruct (find _ _) as [[? ?]|]; [done|]. intros [= <-]. split; [|by intros [_ ?]]. intros Hnil%app_eq_nil. by destruct Hnil.
  - intros [= <-]. by destruct token; split; [|intros [? _]| |].
Qed.

(** The server listens for requests exactly when it starts; it is open to everyone
    exactly when neither a token nor a tokens file is configured, and a token
    configuration it refuses binds no listener at all. *)
Theorem server_starts_guarded (c : Cfg) (s : S) :
  let '(r, listeners, s') := run c s in
  (Api_at (bind c) ∈ listeners <-> is_ok r = true) /\
  (forall sv, r = Ok sv ->
    (sv_entries sv = [] <-> api_token c = None /\ tokens_file c = None) /\
    server_entries read_to_string (api_token c) (tokens_file c) = Ok (sv_entries sv) /\
    (exists o, server_opening c = Ok (o, sv_backend sv) /\ open o s = (Ok (), s'))) /\
  (is_ok (server_entries read_to_string (api_token c) (tokens_file c)) = false -> listeners = []).
Proof.
  unfold run. destruct install as [[]|]; [|cbn; split; [set_solver|done]].
  destruct (server_connect_store c s) as [[backend|e] s1] eqn:Ec; [|cbn; split; [set_solver|done]].
  destruct (server_entries _ _ _) as [entries|] eqn:Ee; [|cbn; split; [set_solver|done]].
  assert (exists o, server_opening c = Ok (o, backend) /\ open o s = (Ok (), s1)) as Ho.
  { unfold server_connect_store in Ec. destruct (server_opening c) as [[o b]|]; [|done]. destruct (open o s) as [[[]|] s'] eqn:Eo; simplify_eq. by exists o. }
  assert (forall l : list Listener, (forall a, Api_at a ∉ l) -> Api_at (bind c) ∈ l <-> false = true) as Hnone by (intros l Hl; split; [by intros ?%Hl|done]).
  destruct (match metrics_bind c with Some _ => _ | None => _ end) as [metrics|] eqn:Em; [|cbn; split; [by apply Hnone; intros ? ?%elem_of_nil|done]].
  assert (forall a, Api_at a ∉ metrics) as Hm.
  { intros a. destruct (metrics_bind c) as [m|]; [destruct (bind_to m) as [[]|]|]; simplify_eq; [by intros ?%list_elem_of_singleton|by intros ?%elem_of_nil]. }
  destruct (bind_to (bind c)) as [[]|]; (split; [|split; [|done]]).
  - cbn. split; [done|]. intros _. apply elem_of_app. right. by apply list_elem_of_singleton.
  - intros sv [= <-]. cbn. split; [by eapply server_entries_open|]. by split.
  - by apply Hnone.
  - done.
Qed.
End server.

(** ** [talead init] (init.rs) *)

(** The closure [parse_opt], whose error names the variable. *)
Definition parse_opt {A} (parse : string -> result A string) (var : string) (val : option string) : result (option A) string :=
  match val with
  | None => Ok None
  | Some v => match parse v with Ok a => Ok (Some a) | Err e => Err ("invalid " +:+ var +:+ ": " +:+ e) end
  end.

Definition parse_log_store_opts_from (get : Lookup) : result LogStoreOptions string :=
  let? snapshot := parse_opt parse_u64_text "TALEA_LOG_SNAPSHOT_EVERY" (get "TALEA_LOG_SNAPSHOT_EVERY"%string) in
  let? hot_cap := parse_opt parse_usize_text "TALEA_LOG_IDEM_HOT_CAP" (get "TALEA_LOG_IDEM_HOT_CAP"%string) in
  let? segment := parse_opt parse_u64_text "TALEA_LOG_SEGMENT_MAX" (get "TALEA_LOG_SEGMENT_MAX"%string) in
  match snapshot, hot_cap, segment with
  | None, None, None => Ok LogStoreOptions_default
  | _, _, _ =>
      let defaults := LogStoreOptions_default in
      Ok (mkLogStoreOptions (match hot_cap with Some n => Z.to_nat n | None => idem_hot_cap defaults end)
            (default (snapshot_every defaults) snapshot) (default (opt_segment_max defaults) segment))
  end.

(** The URL's scheme, with the environment [get] of the process. *)
Definition init_opening (get : Lookup) (url : string) : result Opening string :=
  if contains ":memory:" url then Err "sqlite::memory: is not supported (nothing would persist); use a file path"
  else if is_postgres url then Ok (Open_postgres url None)
  else if starts_with "sqlite:" url then Ok (Open_sqlite url None)
  else match strip_prefix "log://" url with
       | Some path => let? opts := parse_log_store_opts_from get in Ok (Open_log path opts)
       | None => Err ("unsupported db url scheme: " +:+ url +:+ " (expected postgres://..., sqlite://..., or log://<dir>)")
       end.

Definition connect_context (o : Opening) (e : string) : string :=
  match o with
  | Open_postgres url _ => "couldn't reach " +:+ url +:+ ": " +:+ e +:+ " (is the database up?)"
  | Open_sqlite url _ => "couldn't open " +:+ url +:+ ": " +:+ e
  | Open_log path _ => "couldn't open log store at " +:+ path +:+ ": " +:+ e
  end.

(** ** Init and the server name the same store *)

(** The same database or directory, with the same log options; only the pools may
    differ. *)
Definition same_store (o o' : Opening) : Prop :=
  match o, o' with
  | Open_postgres url _, Open_postgres url' _ | Open_sqlite url _, Open_sqlite url' _ => url = url'
  | Open_log path opts, Open_log path' opts' => path = path' /\ opts = opts'
  | _, _ => False
  end.

Section agree.
Context {SocketAddr : Type} (parse_socket_addr : string -> result SocketAddr string).

(** The log options are read from the same variables. *)
Lemma from_lookup_log_opts (get : Lookup) c :
  from_lookup parse_socket_addr get = Ok c ->
  parse_var parse_u64_text get "TALEA_LOG_SNAPSHOT_EVERY" = Ok (log_snapshot_every c) /\
  parse_var parse_usize_text get "TALEA_LOG_IDEM_HOT_CAP" = Ok (log_idem_hot_cap c) /\
  parse_var parse_u64_text get "TALEA_LOG_SEGMENT_MAX" = Ok (log_segment_max c).
Proof. unfold from_lookup. intros H. by repeat (case_match; [|done]); simplify_eq. Qed.

Lemma parse_opt_var {A} (parse : string -> result A string) get var o :
  parse_var parse get var = Ok o -> parse_opt parse var (get var) = Ok o.
Proof. unfold parse_var, parse_opt. destruct (get var) as [v|]; [|congruence]. destruct (parse v); congruence. Qed.

Lemma log_opts_agree (get : Lookup) c :
  from_lookup parse_socket_addr get = Ok c -> parse_log_store_opts_from get = Ok (server_log_opts c).
Proof.
  intros (Hs & Hi & Hm)%from_lookup_log_opts. unfold parse_log_store_opts_from, server_log_opts.
  rewrite (parse_opt_var _ _ _ _ Hs), (parse_opt_var _ _ _ _ Hi), (parse_opt_var _ _ _ _ Hm).
  by destruct (log_snapshot_every c), (log_idem_hot_cap c), (log_segment_max c).
Qed.

(** Under an environment the server accepts, [talead init] and the server choose
    the same store with the same options for the same URL, and refuse the same
    URLs, except that init alone refuses ":memory:" outside of sqlite URLs. *)
Lemma openings_agree (get : Lookup) (c : Config SocketAddr) :
  from_lookup parse_socket_addr get = Ok c ->
  match init_opening get (db_url c), server_opening c with
  | Ok o, Ok (o', _) => same_store o o'
  | Err _, Err _ => True
  | Err _, Ok (o', _) => contains ":memory:" (db_url c) = true /\ (forall url n, o' <> Open_sqlite url n)
  | Ok _, Err _ => False
  end.
Proof.
  intros Hc. unfold init_opening, server_opening. rewrite (log_opts_agree _ _ Hc).
  destruct (contains ":memory:" (db_url c)), (is_postgres (db_url c)), (starts_with "sqlite:" (db_url c)), (strip_prefix "log://" (db_url c)); try done.
Qed.
End agree.

(** A [max_inflight] of 2^32 gives no warning about a pool of one connection. *)
Lemma starve_warning_wraps (a : unit) :
  starve_warning (mkConfig "postgres://h/db" a None 1 (2 ^ 32) None 256 64 None 500 None None None) = false.
Proof. vm_compute. reflexivity. Qed.
