(* ===== verification/Init.v ===== *)
(** The daemon, talead/src/init.rs and serve.rs: [talead init] (connect, seed,
    write the environment file) and the configuration of [talead serve], and that
    the second starts what the first set up.

    A file system is the texts of its files.  A read or the write can fail; a
    write that fails may have truncated the file or written part of it. *)

From Stdlib Require Import Strings.Byte.
From S2P Require Import Prelude Decimal Core Api Service Http Config LogOpen Startup Seed.
Open Scope Z_scope.

Definition newline : string := String "010" EmptyString.

(** ** The environment file *)

(** [hex::encode]. *)
Class Hex := hex_encode : list byte -> string.

(** [random] is what the generator fills 32 bytes with. *)
Definition generate_token `{Hex} (random : list byte) : string := hex_encode random.

Definition render_env (db_url token : string) : string :=
  "TALEA_DB_URL=" +:+ db_url +:+ newline +:+
  "TALEA_API_TOKEN=" +:+ token +:+ newline +:+
  "TALEA_BIND=127.0.0.1:8080" +:+ newline +:+
  "# TALEA_DB_POOL=10" +:+ newline +:+
  "# TALEA_MAX_INFLIGHT=256" +:+ newline +:+
  "# TALEA_METRICS_BIND=127.0.0.1:9100" +:+ newline.

Inductive EnvOutcome := Written | KeptExisting.

(** A failing write: its error, and how much of the text is in the file then,
    unless it could not be opened. *)
Record WriteFault := mkWriteFault { wf_error : string; wf_written : option nat }.

Abbreviation Files := (gmap string string).

(** [std::fs::write] *)
Definition fs_write (path contents : string) (fault : option WriteFault) (files : Files) : result unit string * Files :=
  match fault with
  | None => (Ok (), <[path := contents]> files)
  | Some (mkWriteFault e None) => (Err e, files)
  | Some (mkWriteFault e (Some n)) => (Err e, <[path := String.substring 0 n contents]> files)
  end.

Definition write_env (path contents : string) (force : bool) (fault : option WriteFault) (files : Files) :
    result EnvOutcome string * Files :=
  if bool_decide (is_Some (files !! path)) && negb force then (Ok KeptExisting, files)
  else match fs_write path contents fault files with
       | (Ok _, files') => (Ok Written, files')
       | (Err e, files') => (Err e, files')
       end.

(** ** [run_init] *)

Record InitOpts := mkInitOpts { io_db_url : string; io_seed : option string; io_env_out : string; io_force : bool }.

Record InitReport := mkInitReport { ir_seed : option ApplySummary; ir_env : EnvOutcome }.

(** What [Box<dyn Error>] holds: a text, an error of the file system or of the seed. *)
Inductive InitError := Init_text (e : string) | Init_io (e : string) | Init_seed (e : SeedError).

(** What fails of the files. *)
Record Faults := mkFaults { ft_read : option string; ft_write : option WriteFault }.
Definition no_faults : Faults := mkFaults None None.

(** What the TOML parser makes of a seed file. *)
Class SeedToml := seed_toml : string -> result SeedFile string.

Definition DEFAULT_SEED : string := "talea.seed.toml".

Section init.
Context {S : Type} `{Store S} `{Texts} `{SeedToml} `{Hex}.

(** [open] connects and migrates the database [S]. *)
Variable open : Opening -> S -> result unit string * S.

Definition connect_store (get : Lookup) (url : string) (s : S) : result unit string * S :=
  match init_opening get url with
  | Err e => (Err e, s)
  | Ok o => match open o s with (Ok _, s') => (Ok (), s') | (Err e, s') => (Err (connect_context o e), s') end
  end.

(** The seed file to apply: the one given, which must be there, or the default one
    if it is there. *)
Definition seed_path (opts : InitOpts) (files : Files) : result (option string) InitError :=
  match io_seed opts with
  | Some p => if bool_decide (is_Some (files !! p)) then Ok (Some p) else Err (Init_text ("seed file not found: " +:+ p))
  | None => Ok (if bool_decide (is_Some (files !! DEFAULT_SEED)) then Some DEFAULT_SEED else None)
  end.

Definition read_to_string (path : string) (fault : option string) (files : Files) : result string InitError :=
  match fault with
  | Some e => Err (Init_io e)
  | None => ok_or (files !! path) (Init_io "No such file or directory (os error 2)")
  end.

Definition apply_seed (path : option string) (faults : Faults) (files : Files) (s : S) : result (option ApplySummary) InitError * S :=
  match path with
  | None => (Ok None, s)
  | Some p =>
      match (let? text := read_to_string p (ft_read faults) files in map_err Init_seed (parse (seed_toml text))) with
      | Err e => (Err e, s)
      | Ok parsed =>
          match apply parsed s with
          | (Err e, s') => (Err (Init_seed e), s')
          | (Ok summary, s') => (Ok (Some summary), s')
          end
      end
  end.

Definition run_init (get : Lookup) (opts : InitOpts) (random : list byte) (faults : Faults) (files : Files) (s : S) :
    result InitReport InitError * Files * S :=
  match connect_store get (io_db_url opts) s with
  | (Err e, s1) => (Err (Init_text e), files, s1)
  | (Ok _, s1) =>
      match seed_path opts files with
      | Err e => (Err e, files, s1)
      | Ok path =>
          match apply_seed path faults files s1 with
          | (Err e, s2) => (Err e, files, s2)
          | (Ok seed, s2) =>
              match write_env (io_env_out opts) (render_env (io_db_url opts) (generate_token random)) (io_force opts) (ft_write faults) files with
              | (Ok env, files') => (Ok (mkInitReport seed env), files', s2)
              | (Err e, files') => (Err (Init_io e), files', s2)
              end
          end
      end
  end.
End init.

(** ** [load_config] (serve.rs) *)

(** [dotenvy::from_path_iter] over a file's text: its variables in order, or the
    first error. *)
Class DotEnv := dotenv_iter : string -> result (list (string * string)) string.

Inductive LoadError := Load_env (e : string) | Load_config (e : ConfigError).

(** Collected into a [HashMap]: the last value of a name stays. *)
Definition file_vars `{DotEnv} (text : string) : result (gmap string string) string :=
  let? vars := dotenv_iter text in
  Ok (foldl (fun m kv => <[kv.1 := kv.2]> m) ∅ vars).

Definition merged (base : Lookup) (vars : gmap string string) : Lookup :=
  fun k => match base k with Some v => Some v | None => vars !! k end.

Section load.
Context `{DotEnv} {SocketAddr : Type} (parse_socket_addr : string -> result SocketAddr string).

(** [env_file] is the file's text, if there is one. *)
Definition load_config (env_file : option string) (base : Lookup) : result (Config SocketAddr) LoadError :=
  let? vars := match env_file with Some text => map_err Load_env (file_vars text) | None => Ok ∅ end in
  map_err Load_config (from_lookup parse_socket_addr (merged base vars)).

(** The configuration of [Command::Serve] (main.rs): ".env" if it is there. *)
Definition serve_config (files : Files) (base : Lookup) : result (Config SocketAddr) LoadError :=
  load_config (files !! ".env"%string) base.
End load.

(** ** The command line (cli.rs, main.rs) *)

(** [talead init] without arguments. *)
Definition default_init : InitOpts := mkInitOpts "sqlite://talea.db" None ".env" false.

(** What [talead init] prints about a report. *)
Definition report_lines (opts : InitOpts) (report : InitReport) : list string :=
  [match ir_seed report with
   | Some s => "seed: " +:+ u64_to_string (Z.of_nat (assets_created s)) +:+ " assets created, " +:+
       u64_to_string (Z.of_nat (assets_existing s)) +:+ " already present, " +:+ u64_to_string (Z.of_nat (accounts_ensured s)) +:+ " accounts ensured"
   | None => "seed: no seed file found, skipped"
   end;
   match ir_env report with
   | Written => "wrote " +:+ io_env_out opts
   | KeptExisting => io_env_out opts +:+ " exists; left untouched (re-run with --force to overwrite)"
   end;
   "ready. next: talead serve"]%string.

(** ** What init does to the files *)

Section init_files.
Context {S : Type} `{Store S} `{Texts} `{SeedToml} `{Hex}.
Variable open : Opening -> S -> result unit string * S.

Lemma fs_write_elsewhere path contents fault files other :
  other <> path -> (fs_write path contents fault files).2 !! other = files !! other.
Proof. intros Hne. destruct fault as [[e [n|]]|]; cbn; try done; by rewrite lookup_insert_ne. Qed.

Lemma write_env_files path contents force fault files :
  let '(r, files') := write_env path contents force fault files in
  (forall other, other <> path -> files' !! other = files !! other) /\
  (is_Some (files !! path) -> force = false -> r = Ok KeptExisting /\ files' = files) /\
  (r = Ok Written -> files' !! path = Some contents).
Proof.
  unfold write_env. destruct (bool_decide (is_Some (files !! path)) && negb force) eqn:E.
  { split; [done|]. split; [done|]. done. }
  pose proof (fun other => fs_write_elsewhere path contents fault files other) as He.
  destruct (fs_write path contents fault files) as [r files'] eqn:Ew. cbn [snd] in He.
  assert (is_Some (files !! path) -> force = false -> False) as Hno.
  { intros Hs ->. by rewrite bool_decide_true in E. }
  destruct r as [[]|e]; (split; [exact He|]); (split; [by intros Hs Hf; destruct (Hno Hs Hf)|]); [|done].
  intros _. destruct fault as [[e [n|]]|]; cbn in Ew; simplify_eq. by rewrite lookup_insert_eq.
Qed.

(** Init writes no file but the environment file, and that one only when it is not
    there or [--force] is given; while nothing failed of the write, an error of init
    leaves it as it was.  What it writes names the URL and the new token. *)
Lemma init_writes_env_only get opts random faults (files : Files) (s : S) :
  let '(r, files', _) := run_init open get opts random faults files s in
  (forall other, other <> io_env_out opts -> files' !! other = files !! other) /\
  (is_Some (files !! io_env_out opts) -> io_force opts = false -> files' = files) /\
  (is_ok r = false -> ft_write faults = None -> files' = files) /\
  (forall report, r = Ok report ->
    match ir_env report with
    | Written => files' !! io_env_out opts = Some (render_env (io_db_url opts) (generate_token random))
    | KeptExisting => files' = files /\ is_Some (files !! io_env_out opts) /\ io_force opts = false
    end).
Proof.
  unfold run_init. destruct (connect_store open get _ s) as [[[]|e] s1]; [|done].
  destruct (seed_path opts files) as [path|e]; [|done]. destruct (apply_seed path faults files s1) as [[seed|e] s2]; [|done].
  set (contents := render_env _ _). pose proof (write_env_files (io_env_out opts) contents (io_force opts) (ft_write faults) files) as Hw.
  assert (forall files', write_env (io_env_out opts) contents (io_force opts) (ft_write faults) files = (Ok KeptExisting, files') ->
    files' = files /\ is_Some (files !! io_env_out opts) /\ io_force opts = false) as Hkept.
  { intros files'. unfold write_env. destruct (bool_decide _ && negb _) eqn:E; [|by destruct (fs_write _ _ _ _) as [[]]].
    intros [= <-]. bool_to_prop. done. }
  destruct (write_env _ _ _ _ _) as [[env|e] files'] eqn:E; destruct Hw as (Hother & Hexists & Hwritten).
  - split; [exact Hother|]. split; [intros Hs Hf; by apply Hexists|]. split; [done|].
    intros report [= <-]. cbn. destruct env; [by apply Hwritten|by apply Hkept].
  - split; [exact Hother|]. split; [intros Hs Hf; by destruct (Hexists Hs Hf)|]. split; [|done].
    intros _ Hnone. unfold write_env in E. destruct (_ && _); [done|]. by rewrite Hnone in E.
Qed.
End init_files.

(** ** Init, repeated *)

Section init_twice.
Context {S : Type} `{Store S} `{!Definitions S} `{Texts} `{SeedToml} `{Hex}.
Variable open : Opening -> S -> result unit string * S.

(** Connecting to a database that is there, and migrating it again, keeps what is
    defined in it. *)
Definition open_keeps : Prop :=
  forall o s, def_ok s -> match open o s with (Ok _, s') | (Err _, s') => def_keeps s s' end.

(** What a summary says when all of the seed was there. *)
Definition nothing_created (seed : option ApplySummary) : Prop :=
  match seed with None => True | Some summary => assets_created summary = 0%nat end.

Lemma seed_repeated path faults (files files1 : Files) s s1 seed :
  def_ok s -> (forall text seed, seed_toml text = Ok seed -> seed_width seed) ->
  (forall p, path = Some p -> files1 !! p = files !! p) ->
  apply_seed path faults files s = (Ok seed, s1) ->
  def_ok s1 /\ forall s2, def_keeps s1 s2 ->
    exists seed' s3, apply_seed path no_faults files1 s2 = (Ok seed', s3) /\ nothing_created seed' /\ (seed' = None <-> seed = None) /\ def_keeps s2 s3.
Proof.
  intros Hok Hw Hread Ha. destruct path as [p|]; cbn [apply_seed] in *.
  2:{ injection Ha as <- <-. split; [done|]. intros s2 Hk. exists None, s2. split; [done|]. split; [done|]. split; [done|]. apply def_keeps_refl, Hk. }
  unfold read_to_string in *. rewrite (Hread p eq_refl). cbn [ft_read no_faults]. destruct (ft_read faults); [done|].
  destruct (files !! p) as [text|]; [|done]. cbn [ok_or] in *. unfold parse in *.
  destruct (seed_toml text) as [sd|] eqn:Et; [|done]. cbn [map_err] in *. destruct (validate sd) as [[]|]; [|done]. cbn [map_err] in *.
  destruct (apply sd s) as [[summary|] s1'] eqn:Eap; [|done]. injection Ha as <- <-.
  destruct (apply_first _ _ _ _ Hok (Hw _ _ Et) Eap) as [Hk1 Hthere]. split; [apply Hk1|]. intros s2 Hk2.
  destruct (apply_again sd s2 (proj1 Hk2) (seed_there_kept _ _ _ Hk2 Hthere)) as (s3 & Hr & Hk3). rewrite Hr.
  by eexists _, s3.
Qed.

(** C17: Init that succeeded can be run again: it keeps every file, the token with it,
    creates no asset, and keeps every definition of the database. *)
Theorem init_twice (Hopen : open_keeps) get opts random random' faults (files files1 : Files) (s s1 : S) report :
  def_ok s -> (forall text seed, seed_toml text = Ok seed -> seed_width seed) ->
  io_env_out opts <> default DEFAULT_SEED (io_seed opts) ->
  run_init open get opts random faults files s = (Ok report, files1, s1) ->
  (forall o, init_opening get (io_db_url opts) = Ok o -> (open o s1).1 = Ok ()) ->
  exists seed s2,
    run_init open get (mkInitOpts (io_db_url opts) (io_seed opts) (io_env_out opts) false) random' no_faults files1 s1 =
      (Ok (mkInitReport seed KeptExisting), files1, s2) /\
    nothing_created seed /\ (seed = None <-> ir_seed report = None) /\ def_keeps s1 s2.
Proof.
  intros Hok Hw Hne Hrun Hagain. pose proof (init_writes_env_only open get opts random faults files s) as Hfiles. rewrite Hrun in Hfiles.
  destruct Hfiles as (Hother & _ & _ & Henv). specialize (Henv report eq_refl).
  assert (is_Some (files1 !! io_env_out opts)) as Hthere.
  { destruct (ir_env report); [by eexists|]. by destruct Henv as (-> & ? & _). }
  unfold run_init, connect_store in Hrun |- *. cbn [io_db_url io_env_out io_force].
  destruct (init_opening get (io_db_url opts)) as [o|]; [|done]. specialize (Hagain o eq_refl).
  pose proof (Hopen o s Hok) as Hk. destruct (open o s) as [[[]|] s0]; [|done].
  assert (seed_path opts files1 = seed_path opts files) as Hpath.
  { unfold seed_path. destruct (io_seed opts) as [p|]; cbn in Hne; by rewrite Hother by done. }
  destruct (seed_path opts files) as [path|] eqn:Ep; [|done].
  unfold seed_path in *. cbn [io_seed] in *.
  assert (forall p, path = Some p -> files1 !! p = files !! p) as Hread.
  { intros p ->. apply Hother. destruct (io_seed opts) as [q|]; cbn in Hne; case_bool_decide; by simplify_eq. }
  destruct (apply_seed path faults files s0) as [[seed|] s0'] eqn:Ea; [|done].
  destruct (write_env _ _ _ _ files) as [[env|] files'] eqn:Ew; [|done]. injection Hrun as <- <- <-.
  destruct (seed_repeated path faults files files' s0 s0' seed (proj1 Hk) Hw Hread Ea) as [Hok' Hrep].
  pose proof (Hopen o s0' Hok') as Hk'. destruct (open o s0') as [r s2]. cbn [fst] in Hagain. subst r.
  destruct (Hrep s2 Hk') as (seed' & s3 & Ha & Hn & Hiff & Hk3). exists seed', s3.
  rewrite Hpath, Ha. unfold write_env. rewrite bool_decide_true by done. cbn.
  split; [done|]. split; [done|]. split; [done|by eapply def_keeps_trans].
Qed.
End init_twice.

(** ** Serve reads what init wrote *)

Fixpoint all_chars (p : ascii -> bool) (s : string) : bool :=
  match s with EmptyString => true | String a s => p a && all_chars p s end.

Lemma all_chars_weaken (p q : ascii -> bool) s : (forall a, p a = true -> q a = true) -> all_chars p s = true -> all_chars q s = true.
Proof. intros Hpq. induction s as [|a s IH]; cbn; [done|]. intros [? ?]%andb_true_iff. apply andb_true_iff. auto. Qed.

(** A printable character that no quoting, escaping or substitution of the file's
    format touches; in a value also none that could begin a comment. *)
Definition unquoted (a : ascii) : bool :=
  let n := N_of_ascii a in
  ((32 <=? n) && (n <=? 126))%N && negb (existsb (fun b => Ascii.eqb b a) ["034"; "036"; "039"; "092"; "096"]%char).
Definition value_char (a : ascii) : bool := unquoted a && negb (Ascii.eqb a " ") && negb (Ascii.eqb a "#").
Definition key_char (a : ascii) : bool :=
  let n := N_of_ascii a in ((65 <=? n) && (n <=? 90))%N || Ascii.eqb a "_".
Definition hex_char (a : ascii) : bool :=
  let n := N_of_ascii a in ((48 <=? n) && (n <=? 57))%N || ((97 <=? n) && (n <=? 102))%N.

(** The lines of an environment file that need no quoting. *)
Inductive EnvLine := Assign (k v : string) | Remark (text : string).

Definition line_text (l : EnvLine) : string :=
  match l with Assign k v => k +:+ "=" +:+ v | Remark text => "#" +:+ text end.

Definition plain_line (l : EnvLine) : bool :=
  match l with
  | Assign k v => negb (String.eqb k "") && all_chars key_char k && all_chars value_char v
  | Remark text => all_chars unquoted text
  end.

Definition document (ls : list EnvLine) : string := foldr (fun l acc => line_text l +:+ newline +:+ acc) EmptyString ls.

Definition assignment (l : EnvLine) : option (string * string) := match l with Assign k v => Some (k, v) | Remark _ => None end.

(** What the crates document: plain lines are read as they are written, and
    [hex::encode] gives lower-case hexadecimal digits. *)
Class DotEnvLaws `{DotEnv} : Prop :=
  dotenv_plain : forall ls, forallb plain_line ls = true -> dotenv_iter (document ls) = Ok (omap assignment ls).
Class HexLaws `{Hex} : Prop := hex_digits : forall l, all_chars hex_char (hex_encode l) = true.

Section serve.
Context {S : Type} `{Store S} `{Texts} `{SeedToml} `{DotEnvLaws} `{HexLaws} `{Toml} {SocketAddr : Type}.
Variable parse_socket_addr : string -> result SocketAddr string.
Variable open : Opening -> S -> result unit string * S.
Variable read_file : string -> result string string.

Definition env_lines (url token : string) : list EnvLine :=
  [Assign "TALEA_DB_URL" url; Assign "TALEA_API_TOKEN" token; Assign "TALEA_BIND" "127.0.0.1:8080";
   Remark " TALEA_DB_POOL=10"; Remark " TALEA_MAX_INFLIGHT=256"; Remark " TALEA_METRICS_BIND=127.0.0.1:9100"].

Lemma render_env_document url token : render_env url token = document (env_lines url token).
Proof. unfold render_env, document, env_lines. cbn [foldr line_text]. by rewrite !append_assoc. Qed.

Lemma hex_plain a : hex_char a = true -> value_char a = true.
Proof. destruct a as [[] [] [] [] [] [] [] []]; vm_compute; done. Qed.

Definition env_vars (url token : string) : gmap string string :=
  <["TALEA_BIND" := "127.0.0.1:8080"]> (<["TALEA_API_TOKEN" := token]> {["TALEA_DB_URL" := url]})%string.

Lemma load_rendered url random base :
  all_chars value_char url = true ->
  load_config parse_socket_addr (Some (render_env url (generate_token random))) base =
  map_err Load_config (from_lookup parse_socket_addr (merged base (env_vars url (generate_token random)))).
Proof.
  intros Hu. unfold load_config, file_vars. rewrite render_env_document, dotenv_plain; [done|].
  pose proof (all_chars_weaken _ _ _ hex_plain (hex_digits random)) as Ht. unfold generate_token.
  cbn [forallb env_lines plain_line]. by rewrite Hu, Ht.
Qed.

Lemma merged_base base vars k : vars !! k = None -> merged base vars k = base k.
Proof. unfold merged. intros ->. by destruct (base k). Qed.

Lemma merged_url base url token : merged base (env_vars url token) "TALEA_DB_URL" = Some (default url (base "TALEA_DB_URL"%string)).
Proof. unfold merged. by destruct (base _). Qed.
Lemma merged_token base url token : merged base (env_vars url token) "TALEA_API_TOKEN" = Some (default token (base "TALEA_API_TOKEN"%string)).
Proof. unfold merged. by destruct (base _). Qed.

Lemma run_init_opens base opts random faults files s report files' s' :
  run_init open base opts random faults files s = (Ok report, files', s') -> exists o, init_opening base (io_db_url opts) = Ok o.
Proof. unfold run_init, connect_store. destruct (init_opening base _) as [o|]; [by exists o|done]. Qed.

(** The store init opened for a URL, and the one serve opens. *)
Lemma served_store base url token c :
  from_lookup parse_socket_addr (merged base (env_vars url token)) = Ok c -> db_url c = url ->
  forall o, init_opening base url = Ok o -> exists o' backend, server_opening c = Ok (o', backend) /\ same_store o o'.
Proof.
  intros Hc Hu o Ho. pose proof (openings_agree _ _ _ Hc) as Ha. rewrite Hu in Ha.
  assert (init_opening (merged base (env_vars url token)) url = Ok o) as Ho'.
  { rewrite <- Ho. unfold init_opening, parse_log_store_opts_from. by rewrite !merged_base by done. }
  rewrite Ho' in Ha. destruct (server_opening c) as [[o' backend]|]; [|done]. by exists o', backend.
Qed.

(** C18: [talead serve] in the directory where [talead init] wrote the environment file,
    for a plain URL: the configuration is accepted when nothing else is set; the store
    is the one of init with the same options unless the process names another; the
    API token is the generated one unless the process sets one, and there always is
    one, so that the server is not open to everyone. *)
Theorem serve_starts_what_init_set_up (opts : InitOpts) (random : list byte) faults (base : Lookup) files files' (s s' : S) seed :
  run_init open base opts random faults files s = (Ok (mkInitReport seed Written), files', s') ->
  io_env_out opts = ".env"%string -> all_chars value_char (io_db_url opts) = true ->
  let r := serve_config parse_socket_addr files' base in
  ((forall k, base k = None) -> is_ok (parse_socket_addr "127.0.0.1:8080") = true -> is_ok r = true) /\
  (forall c, r = Ok c ->
    (base "TALEA_DB_URL"%string = None -> db_url c = io_db_url opts /\
      exists o o' backend, init_opening base (io_db_url opts) = Ok o /\ server_opening c = Ok (o', backend) /\ same_store o o') /\
    (forall url, base "TALEA_DB_URL"%string = Some url -> db_url c = url) /\
    api_token c = Some (default (generate_token random) (base "TALEA_API_TOKEN"%string)) /\
    server_entries read_file (api_token c) (tokens_file c) <> Ok []).
Proof.
  intros Hrun Henv Hu. cbn zeta. unfold serve_config. rewrite <- Henv.
  pose proof (init_writes_env_only open base opts random faults files s) as Hf. rewrite Hrun in Hf.
  destruct Hf as (_ & _ & _ & Hw). rewrite (Hw _ eq_refl), load_rendered by done. split.
  - intros Hbase Hp. unfold from_lookup, parse_var, parse_nonzero, merged. rewrite !Hbase. cbn.
    by destruct (parse_socket_addr _).
  - intros c Hc. destruct (from_lookup _ _) as [c'|] eqn:E; [|done]. cbn in Hc. injection Hc as ->.
    destruct (from_lookup_texts _ _ _ E) as (Hurl & Htok & _). rewrite merged_url in Hurl. injection Hurl as Hurl.
    rewrite merged_token in Htok. split; [|split; [|split; [by rewrite <- Htok|]]].
    + intros Hnone. rewrite Hnone in Hurl. cbn in Hurl. split; [done|]. destruct (run_init_opens _ _ _ _ _ _ _ _ _ Hrun) as [o Ho].
      destruct (served_store _ _ _ _ E (eq_sym Hurl) o Ho) as (o' & backend & ? & ?). by exists o, o', backend.
    + intros url Hsome. rewrite Hsome in Hurl. by cbn in Hurl.
    + rewrite <- Htok. intros Hnil%server_entries_open. by destruct (proj1 Hnil eq_refl).
Qed.
End serve.
