(* ===== verification/Client.v ===== *)
(** The HTTP client, talea-client/src (retry.rs, http.rs, sse.rs, lib.rs):
    bounded retries, the decoding of answers, and the subscription that resumes
    from its cursor.

    Sending a request is an operation of the network and the server behind it;
    URLs, the JSON texts of the answers and the reading of an event stream are
    those of their libraries.  Durations are in nanoseconds. *)

From S2P Require Import Prelude Decimal Core Api.
Open Scope Z_scope.

(** ** Retries (retry.rs) *)

Definition Duration : Type := Z.

(** [Duration::MAX] *)
Definition duration_max : Duration := (2 ^ 64 - 1) * 10 ^ 9 + 999999999.

Definition from_millis (ms : Z) : Duration := ms * 10 ^ 6.
Definition from_secs (s : Z) : Duration := s * 10 ^ 9.

Definition saturating_mul (d : Duration) (k : Z) : Duration := Z.min (d * k) duration_max.

(** [2u32.saturating_pow(n)] *)
Definition saturating_pow2 (n : Z) : Z := Z.min (2 ^ n) (2 ^ 32 - 1).

Record RetryPolicy := mkRetryPolicy { max_attempts : Z;  (* u32 *) base_delay : Duration; max_delay : Duration }.

Definition RetryPolicy_default : RetryPolicy := mkRetryPolicy 3 (from_millis 200) (from_secs 5).

Definition RetryPolicy_none : RetryPolicy := mkRetryPolicy 1 (base_delay RetryPolicy_default) (max_delay RetryPolicy_default).

Definition delay_for (self : RetryPolicy) (attempt : Z) (retry_after : option Duration) : Duration :=
  match retry_after with
  | Some ra => Z.min ra (max_delay self)
  | None => Z.min (saturating_mul (base_delay self) (saturating_pow2 attempt)) (max_delay self)
  end.

(** ** Texts: [String::from_utf8_lossy] and its characters *)

Definition between (lo hi : N) (a : ascii) : bool := let n := N_of_ascii a in ((lo <=? n) && (n <=? hi))%N.
Definition continuation : ascii -> bool := between 128 191.

(** The second bytes a three- or four-byte sequence may have after its first. *)
Definition second_of_three (a b : ascii) : bool :=
  (Ascii.eqb a "224" && between 160 191 b) || (Ascii.eqb a "237" && between 128 159 b) ||
  ((between 225 236 a || between 238 239 a) && continuation b).
Definition second_of_four (a b : ascii) : bool :=
  (Ascii.eqb a "240" && between 144 191 b) || (Ascii.eqb a "244" && between 128 143 b) ||
  (between 241 243 a && continuation b).

(** U+FFFD *)
Definition replacement : string := String "239" (String "191" (String "189" EmptyString)).

(** The characters of a byte string, each with its UTF-8 bytes; a maximal
    ill-formed part is one replacement character. *)
Fixpoint lossy_chars (s : string) : list string :=
  match s with
  | EmptyString => []
  | String a s1 =>
      if between 0 127 a then String a EmptyString :: lossy_chars s1
      else if between 194 223 a then
        match s1 with
        | String b s2 => if continuation b then String a (String b EmptyString) :: lossy_chars s2 else replacement :: lossy_chars s1
        | EmptyString => [replacement]
        end
      else if between 224 239 a then
        match s1 with
        | String b s2 =>
            if second_of_three a b then
              match s2 with
              | String c s3 =>
                  if continuation c then String a (String b (String c EmptyString)) :: lossy_chars s3 else replacement :: lossy_chars s2
              | EmptyString => [replacement]
              end
            else replacement :: lossy_chars s1
        | EmptyString => [replacement]
        end
      else if between 240 244 a then
        match s1 with
        | String b s2 =>
            if second_of_four a b then
              match s2 with
              | String c s3 =>
                  if continuation c then
                    match s3 with
                    | String d s4 =>
                        if continuation d then String a (String b (String c (String d EmptyString))) :: lossy_chars s4
                        else replacement :: lossy_chars s3
                    | EmptyString => [replacement]
                    end
                  else replacement :: lossy_chars s2
              | EmptyString => [replacement]
              end
            else replacement :: lossy_chars s1
        | EmptyString => [replacement]
        end
      else replacement :: lossy_chars s1
  end.

(** [text.chars().take(n).collect::<String>()] *)
Definition excerpt_of (n : nat) (body : string) : string := foldr String.append EmptyString (take n (lossy_chars body)).

(** ** Answers (http.rs) *)

(** A response: its body may fail to arrive. *)
Record HttpResponse := mkHttpResponse { hr_status : Z; hr_retry_after : option string; hr_bytes : result string string }.

Definition is_success (status : Z) : bool := (200 <=? status) && (status <? 300).
Definition is_client_error (status : Z) : bool := (400 <=? status) && (status <? 500).
Definition is_server_error (status : Z) : bool := (500 <=? status) && (status <? 600).

(** The JSON texts the client decodes, and the text of a status code. *)
Class ClientText := {
  error_of_json : string -> result ApiError string;
  envelope_of_json : string -> result EventEnvelope string;
  batch_of_json : string -> result (list (result Posted ApiError)) string;
  status_to_string : Z -> string
}.

Definition transport {A} (message : string) : ApiResult A := Err (Api_Transport message).

Section client.
Context `{ClientText}.

Definition decode_error (status : Z) (body : string) : ApiError :=
  match error_of_json body with
  | Ok api => api
  | Err _ =>
      let excerpt := excerpt_of 200 body in
      if status =? 401 then Api_Unauthorized
      else if (status =? 503) || (status =? 408) || is_server_error status then
        Api_Transport (status_to_string status +:+ ": " +:+ excerpt)
      else if is_client_error status then
        Api_InvalidDraft "request" (status_to_string status +:+ ": " +:+ excerpt)
      else Api_Transport ("unexpected status " +:+ status_to_string status +:+ ": " +:+ excerpt)
  end.

(** ** Sending (http.rs) *)

Section sending.
Context {W : Type}.
Variable policy : RetryPolicy.
(** One request: a response, or the text of the transport's error. *)
Variable send : W -> result HttpResponse string * W.

Definition retryable (outcome : result HttpResponse string) : bool :=
  match outcome with
  | Ok resp => (hr_status resp =? 503) || (hr_status resp =? 408) || (hr_status resp =? 429)
  | Err _ => true
  end.

(** The Retry-After of an answer, in whole seconds ([u64]). *)
Definition retry_after_of (outcome : result HttpResponse string) : option Duration :=
  match outcome with
  | Ok resp => from_secs <$> (hr_retry_after resp ≫= parse_u64)
  | Err _ => None
  end.

Definition exhausted (attempt : Z) (outcome : result HttpResponse string) : ApiResult HttpResponse :=
  match outcome with
  | Ok resp => Ok resp
  | Err e => transport ("request failed after " +:+ u64_to_string attempt +:+ " attempts: " +:+ e)
  end.

(** The loop of [send_with_retry]: what it returns, and the delays it slept. *)
Fixpoint send_loop (fuel : nat) (attempt : Z) (w : W) : option (ApiResult HttpResponse * list Duration * W) :=
  match fuel with
  | O => None
  | S fuel =>
      let '(outcome, w1) := send w in
      match outcome, retryable outcome with
      | Ok resp, false => Some (Ok resp, [], w1)
      | _, _ =>
          let attempt := attempt + 1 in
          if max_attempts policy <=? attempt then Some (exhausted attempt outcome, [], w1)
          else
            let delay := delay_for policy (attempt - 1) (retry_after_of outcome) in
            '(r, delays, w2) ← send_loop fuel attempt w1; Some (r, delay :: delays, w2)
      end
  end.

(** One more than the attempts there can be is fuel enough. *)
Definition send_with_retry (w : W) : option (ApiResult HttpResponse * list Duration * W) :=
  send_loop (S (Z.to_nat (max_attempts policy))) 0 w.

(** The answer of [execute] once the response is there. *)
Definition decode_response {T} (decode : string -> result T string) (response : HttpResponse) : ApiResult T :=
  match hr_bytes response with
  | Err e => transport ("reading response body: " +:+ e)
  | Ok bytes =>
      if is_success (hr_status response) then map_err (fun e => Api_Transport ("decoding response body: " +:+ e)) (decode bytes)
      else Err (decode_error (hr_status response) bytes)
  end.

Definition execute {T} (decode : string -> result T string) (w : W) : option (ApiResult T * W) :=
  '(r, _, w') ← send_with_retry w;
  Some (let? response := r in decode_response decode response, w').

(** [execute_unit]: no body is expected of a success, and a missing body of a
    failure reads as empty. *)
Definition unit_response (response : HttpResponse) : ApiResult unit :=
  if is_success (hr_status response) then Ok ()
  else Err (decode_error (hr_status response) (match hr_bytes response with Ok bytes => bytes | Err _ => EmptyString end)).

Definition execute_unit (w : W) : option (ApiResult unit * W) :=
  '(r, _, w') ← send_with_retry w;
  Some (let? response := r in unit_response response, w').

(** [execute_batch]: a failure of the whole request fills every slot. *)
Definition batch_response (n : nat) (r : ApiResult HttpResponse) : list (ApiResult Posted) :=
  match r with
  | Err e => replicate n (Err e)
  | Ok response =>
      match hr_bytes response with
      | Err e => replicate n (transport ("reading batch response body: " +:+ e))
      | Ok bytes =>
          if negb (is_success (hr_status response)) then replicate n (Err (decode_error (hr_status response) bytes))
          else match batch_of_json bytes with
               | Ok items => items
               | Err e => replicate n (transport ("decoding batch response: " +:+ e))
               end
      end
  end.

Definition execute_batch (n : nat) (w : W) : option (list (ApiResult Posted) * W) :=
  '(r, _, w') ← send_with_retry w; Some (batch_response n r, w').

End sending.

(** ** Subscriptions (sse.rs) *)

(** A frame of an event stream; the event's name is "message" by default. *)
Record Frame := mkFrame { fr_event : string; fr_data : string }.

(** What a connection comes to: refused, answered with a status, or a stream of
    frames that ends by closing, or by an error. *)
Inductive Connection :=
| Refused (e : string)
| Rejected (status : Z) (body : result string string)
| Streaming (frames : list Frame) (dropped : option string).

(** The cursor and the failures in a row. *)
Record Progress := mkProgress { cursor : option Seq; failures : Z }.

(** The loop over the frames: what it yields, and the progress it leaves. *)
Fixpoint read_frames (frames : list Frame) (p : Progress) : list (ApiResult EventEnvelope) * Progress :=
  match frames with
  | [] => ([], p)
  | ev :: frames =>
      let '(item, p1) :=
        if String.eqb (fr_event ev) "error" then
          (Err (match error_of_json (fr_data ev) with Ok e => e | Err _ => Api_Internal (fr_data ev) end), p)
        else match envelope_of_json (fr_data ev) with
             | Ok env => (Ok env, mkProgress (Some (ee_seq env)) 0)
             | Err e => (Err (Api_Transport ("undecodable event: " +:+ e)), p)
             end in
      let '(items, p2) := read_frames frames p1 in (item :: items, p2)
  end.

Section subscribing.
Context {W : Type}.
Variable policy : RetryPolicy.
(** A connection with the query's [from] and the Last-Event-ID header. *)
Variable connect : Seq -> option string -> W -> Connection * W.

(** One turn of the reconnecting loop: what it yields, the delay it sleeps
    before the next, or none when the stream ends. *)
Definition turn (url_from : Seq) (p : Progress) (w : W) : list (ApiResult EventEnvelope) * option (Duration * Progress) * W :=
  let '(connection, w') := connect url_from (i64_to_string <$> cursor p) w in
  let retry p := Some (delay_for policy (failures p - 1) None, p) in
  let fail p := mkProgress (cursor p) (failures p + 1) in
  match connection with
  | Refused e =>
      let p := fail p in
      if max_attempts policy <=? failures p then
        ([transport ("subscribe failed after " +:+ u64_to_string (failures p) +:+ " attempts: " +:+ e)], None, w')
      else ([], retry p, w')
  | Rejected status body =>
      let err := decode_error status (match body with Ok b => b | Err _ => EmptyString end) in
      match err with
      | Api_Transport _ =>
          let p := fail p in
          if max_attempts policy <=? failures p then ([Err err], None, w') else ([Err err], retry p, w')
      | _ => ([Err err], None, w')
      end
  | Streaming frames dropped =>
      let '(items, p) := read_frames frames p in
      let p := fail p in
      if max_attempts policy <=? failures p then
        (items ++ [transport (match dropped with
                              | Some e => "subscribe stream failed after " +:+ u64_to_string (failures p) +:+ " attempts: " +:+ e
                              | None => "subscribe stream closed " +:+ u64_to_string (failures p) +:+ " times"
                              end)], None, w')
      else (items, retry p, w')
  end.

(** The stream's items over at most [fuel] connections, and whether it ended. *)
Fixpoint reconnecting (fuel : nat) (url_from : Seq) (p : Progress) (w : W) : list (ApiResult EventEnvelope) * bool * W :=
  match fuel with
  | O => ([], false, w)
  | S fuel =>
      match turn url_from p w with
      | (items, None, w1) => (items, true, w1)
      | (items, Some (_, p1), w1) =>
          let '(rest, ended, w2) := reconnecting fuel url_from p1 w1 in (items ++ rest, ended, w2)
      end
  end.

(** [subscribe]: the query names the last event seen ([from - 1], wrapping). *)
Definition client_subscribe (fuel : nat) (from : Seq) (w : W) : list (ApiResult EventEnvelope) * bool * W :=
  reconnecting fuel (wrap_i64 (from - 1)) (mkProgress None 0) w.
End subscribing.
End client.
