(* ===== verification/ClientSpec.v ===== *)
(** The client's promises: bounded retries with bounded delays, the server's
    answers and errors as they were, a post that lost answers cannot repeat, and
    a subscription without a gap or a repetition. *)

From S2P Require Import Prelude Decimal Core Api Service Http Client.
Open Scope Z_scope.

(** ** Retries *)

Section sending.
Context `{ClientText} {W : Type}.
Variable policy : RetryPolicy.
Variable send : W -> result HttpResponse string * W.

(** [n] requests, one after the other. *)
Fixpoint sends (n : nat) (w : W) : list (result HttpResponse string) * W :=
  match n with
  | O => ([], w)
  | S n => let '(o, w1) := send w in let '(os, w2) := sends n w1 in (o :: os, w2)
  end.

(** The attempts a policy has: there is always one. *)
Definition budget : nat := Nat.max 1 (Z.to_nat (max_attempts policy)).

(** A run of the loop from attempt [i]: every outcome but the last is
    retryable, and so is the last only when the attempts are used up. *)
Record retry_run (i : nat) (w : W) (outs : list (result HttpResponse string)) (last : result HttpResponse string)
    (delays : list Duration) (w' : W) : Prop := {
  rr_sends : sends (S (length outs)) w = (outs ++ [last], w');
  rr_retried : Forall (fun o => retryable o = true) outs;
  rr_within : (i + length outs < Nat.max (S i) (Z.to_nat (max_attempts policy)))%nat;
  rr_given_up : retryable last = true -> S (i + length outs) = Nat.max (S i) (Z.to_nat (max_attempts policy));
  rr_delays : delays = imap (fun j o => delay_for policy (Z.of_nat (i + j)) (retry_after_of o)) outs
}.

Lemma send_loop_run fuel i w :
  (Z.to_nat (max_attempts policy) <= fuel + i)%nat -> (0 < fuel)%nat ->
  exists outs last delays w',
    send_loop policy send fuel (Z.of_nat i) w = Some (exhausted (Z.of_nat (S (i + length outs))) last, delays, w') /\
    retry_run i w outs last delays w'.
Proof.
  revert i w. induction fuel as [|fuel IH]; intros i w Hf Hp; [lia|]. cbn [send_loop].
  destruct (send w) as [o w1] eqn:Es.
  destruct (retryable o) eqn:Er.
  - replace (Z.of_nat i + 1) with (Z.of_nat (S i)) by lia.
    destruct (max_attempts policy <=? Z.of_nat (S i)) eqn:Em.
    + apply Z.leb_le in Em. exists [], o, [], w1. cbn [length]. rewrite Nat.add_0_r. split; [by destruct o; rewrite ?Er|].
      split; cbn; rewrite ?Es; [done|constructor|lia|lia|done].
    + apply Z.leb_gt in Em. destruct (IH (S i) w1) as (outs & last & delays & w2 & Hl & [Hs Hrt Hw Hg Hd]); [lia|lia|].
      exists (o :: outs), last, (delay_for policy (Z.of_nat i) (retry_after_of o) :: delays), w2. split.
      * rewrite Hl. cbn [length]. replace (Z.of_nat (S i) - 1) with (Z.of_nat i) by lia.
        replace (S i + length outs)%nat with (i + S (length outs))%nat by lia. by destruct o; rewrite ?Er.
      * split; cbn [length].
        -- change (sends (S (S (length outs))) w) with (let '(o, w1) := send w in let '(os, w2) := sends (S (length outs)) w1 in (o :: os, w2)).
           by rewrite Es, Hs.
        -- by constructor.
        -- lia.
        -- intros Hlast. specialize (Hg Hlast). lia.
        -- rewrite imap_cons, Nat.add_0_r. f_equal. rewrite Hd. apply imap_ext. intros j x _. cbn. do 2 f_equal. lia.
  - destruct o as [resp|e]; [|done]. exists [], (Ok resp), [], w1. cbn [length]. rewrite Nat.add_0_r. split; [by rewrite Er|].
    split; cbn [length]; [cbn; by rewrite Es|constructor|lia|by rewrite Er|done].
Qed.

(** C16: Sending terminates for every policy and network.  It makes at least one
    request and at most [max_attempts] (one if that is zero), repeats only after a
    retryable outcome, gives up only when the attempts are used up, and returns
    the last outcome.  Before the [i]-th repetition it sleeps the backoff of the
    policy or what the answer's Retry-After asked for, never longer than the
    policy's longest delay. *)
Theorem send_with_retry_exact (w : W) :
  exists outs last delays w',
    send_with_retry policy send w = Some (exhausted (Z.of_nat (S (length outs))) last, delays, w') /\
    sends (S (length outs)) w = (outs ++ [last], w') /\
    (length outs < budget)%nat /\
    Forall (fun o => retryable o = true) outs /\
    (retryable last = true -> S (length outs) = budget) /\
    delays = imap (fun j o => delay_for policy (Z.of_nat j) (retry_after_of o)) outs /\
    Forall (fun d => d <= max_delay policy) delays.
Proof.
  destruct (send_loop_run (S (Z.to_nat (max_attempts policy))) 0 w) as (outs & last & delays & w' & Hl & [Hs Hr Hw Hg Hd]); [lia|lia|].
  exists outs, last, delays, w'. split; [exact Hl|]. split; [done|]. split; [exact Hw|]. split; [done|]. split; [exact Hg|]. split; [done|].
  rewrite Hd. apply Forall_forall. intros d Hin. apply elem_of_lookup_imap in Hin as (j & o & -> & _).
  unfold delay_for. destruct (retry_after_of o); lia.
Qed.

(** Any answer reaches the caller: [execute] decides with fuel to spare. *)
Lemma send_with_retry_total w : exists r delays w', send_with_retry policy send w = Some (r, delays, w').
Proof. destruct (send_with_retry_exact w) as (? & ? & ? & ? & H' & _). eauto. Qed.
End sending.

(** ** A client, a network that loses messages, a server *)

(** What becomes of a request: it is answered, it is lost on the way, or the
    server handles it and its answer is lost. *)
Inductive Delivery := Delivered | Request_lost (e : string) | Answer_lost (e : string).

(** The fate of the next requests (all is delivered after them), the number of
    requests the server has handled, and its store. *)
Record Net (S : Type) := mkNet { net_deliveries : list Delivery; net_requests : nat; net_server : S }.
Arguments mkNet {S}.
Arguments net_deliveries {S}.
Arguments net_requests {S}.
Arguments net_server {S}.

(** A store that keeps what was committed under a book's idempotency keys, with
    [submit] a transaction's way into it. *)
Class KeyedStore (S : Type) (submit : Transaction -> S -> result Committed SubmitError * S) := {
  keyed_ok : S -> Prop;
  committed_as : S -> Book -> string -> option Committed;
  submit_keyed tx s : keyed_ok s ->
    let '(r, s') := submit tx s in
    keyed_ok s' /\
    (forall c, r = Ok c -> committed_as s' (tx_book tx) (tx_idem tx) = Some c) /\
    (forall b k c, committed_as s b k = Some c -> committed_as s' b k = Some c)
}.

Section network.
Context {S : Type} `{Store S} `{HashIter} `{Texts} `{EventText} `{ClientText}.
Variable submit_all : list Transaction -> S -> list (result Committed SubmitError) * S.
Variable stamps : nat -> nat -> TxId * DateTime.
Variable store_subscribe : Book -> Seq -> S -> list (result (Sequenced LedgerEvent) StoreError).
Variable batch_max : Z.
Variable auth : AuthConfig.
Variable authorization : option string.
Variable policy : RetryPolicy.

(** The texts of bodies, and the client's decoder of a posting. *)
Variable body_text : Body -> string.
Variable posted_of_json : string -> result Posted string.
Hypothesis posted_text : forall p, posted_of_json (body_text (Posted_body p)) = Ok p.
Hypothesis error_text : forall e, error_of_json (body_text (Error_body e)) = Ok e.

Definition wire (r : Response) : HttpResponse := mkHttpResponse (rs_status r) (rs_retry_after r) (Ok (body_text (rs_body r))).

(** The server at its [n]-th request, whose drafts have their own ids and times. *)
Definition serve_nth (n : nat) : Call -> S -> Response * S :=
  serve submit_all (stamps n) store_subscribe batch_max auth authorization.

(** A request over the network, given the server's answer to its [n]-th request. *)
Definition over (answer : nat -> S -> HttpResponse * S) (net : Net S) : result HttpResponse string * Net S :=
  let '(d, ds) := match net_deliveries net with [] => (Delivered, []) | d :: ds => (d, ds) end in
  match d with
  | Request_lost e => (Err e, mkNet ds (net_requests net) (net_server net))
  | Delivered =>
      let '(r, s') := answer (net_requests net) (net_server net) in
      (Ok r, mkNet ds (Datatypes.S (net_requests net)) s')
  | Answer_lost e =>
      let '(_, s') := answer (net_requests net) (net_server net) in
      (Err e, mkNet ds (Datatypes.S (net_requests net)) s')
  end.

Definition over_network (c : Call) : Net S -> result HttpResponse string * Net S :=
  over (fun n s => let '(r, s') := serve_nth n c s in (wire r, s')).

(** [TaleaClient::post] *)
Definition client_post (draft : TransactionDraft) (net : Net S) : option (ApiResult Posted * Net S) :=
  execute policy (over_network (PostTransaction (Ok draft))) posted_of_json net.

(** What the server makes of the post of its [n]-th request. *)
Definition server_post (n : nat) (draft : TransactionDraft) (s : S) : ApiResult Posted * S :=
  match require_bearer auth authorization with
  | Ok scope => post_transaction submit_all (stamps n) scope draft s
  | Err e => (Err e, s)
  end.

Lemma serve_post n draft s :
  serve_nth n (PostTransaction (Ok draft)) s = respond_in OK Posted_body (server_post n draft s).
Proof. unfold serve_nth, serve, server_post. destruct (require_bearer _ _); [done|]. done. Qed.

Lemma into_response_decoded {T} (decode : string -> result T string) e : decode_response decode (wire (into_response e)) = Err e.
Proof.
  unfold decode_response, wire. assert (is_success (rs_status (into_response e)) = false) as Hs by (by destruct e).
  cbn [hr_bytes hr_status]. rewrite Hs. f_equal. unfold decode_error.
  assert (rs_body (into_response e) = Error_body e) as -> by (by destruct e). by rewrite error_text.
Qed.

Lemma post_decoded r : decode_response posted_of_json (wire (respond OK Posted_body r)) = r.
Proof.
  destruct r as [p|e]; [|apply into_response_decoded]. unfold decode_response, wire. cbn. by rewrite posted_text.
Qed.

Lemma sends_last {W} (send : W -> result HttpResponse string * W) (I : W -> Prop) (Q : result HttpResponse string -> W -> Prop) n w outs last w' :
  (forall w, I w -> let '(o, w1) := send w in I w1 /\ Q o w1) ->
  I w -> sends send (Datatypes.S n) w = (outs ++ [last], w') -> I w' /\ Q last w'.
Proof.
  intros Hstep. revert w outs. induction n as [|n IH]; intros w outs Hi Hs.
  - cbn in Hs. pose proof (Hstep w Hi) as Hw. destruct (send w) as [o w1]. injection Hs as Ho <-.
    destruct outs as [|x [|]]; [|done|done]. injection Ho as <-. done.
  - change (sends send (Datatypes.S (Datatypes.S n)) w)
      with (let '(o, w1) := send w in let '(os, w2) := sends send (Datatypes.S n) w1 in (o :: os, w2)) in Hs.
    pose proof (Hstep w Hi) as Hw. destruct (send w) as [o w1]. destruct (sends send (Datatypes.S n) w1) as [os w2] eqn:E.
    injection Hs as Ho <-. destruct outs as [|x outs]; [|injection Ho as -> ->; by eapply IH; [apply Hw|]].
    injection Ho as _ ->. cbn in E. destruct (send w1) as [? w3]. by destruct (sends send n w3).
Qed.

Context `{!KeyedStore S (submit submit_all)}.

Lemma server_post_keyed n draft s :
  keyed_ok s ->
  let '(r, s') := server_post n draft s in
  keyed_ok s' /\ (forall b k c, committed_as s b k = Some c -> committed_as s' b k = Some c) /\
  (forall p, r = Ok p -> exists c, committed_as s' (td_book draft) (td_idempotency_key draft) = Some c /\
     po_tx_id p = uuid_to_string (c_txid c) /\ po_seq p = c_seq c /\ po_at p = c_at c).
Proof.
  intros Hok. unfold server_post. destruct (require_bearer auth authorization) as [scope|e]; [|done].
  unfold post_transaction. destruct (negb _); [done|]. unfold post.
  destruct (build_transaction _ _ draft) as [tx|e] eqn:Eb; [|done].
  assert (tx_book tx = td_book draft /\ tx_idem tx = td_idempotency_key draft) as [Hbk Hid].
  { unfold build_transaction, parse_book, parse_book_lax in Eb. destruct_results. done. }
  pose proof (submit_keyed tx s Hok) as Hk. destruct (submit submit_all tx s) as [r s']. destruct Hk as (Hok' & Hc & Hkeep).
  split; [done|]. split; [done|]. intros p Hp. destruct r as [c|[| |]]; cbn in Hp; try done. injection Hp as <-.
  exists c. rewrite <- Hbk, <- Hid. split; [by apply Hc|done].
Qed.

(** C20: Posting through a network that loses any requests and answers: the client
    always gets a result.  It is a transport error, or what the server answered
    last, errors included.  A success names the posting that is recorded under
    the draft's key, however often the post was repeated, and a posting that was
    recorded under a key before remains the one. *)
Theorem client_post_exactly_once (draft : TransactionDraft) (net : Net S) :
  keyed_ok (net_server net) ->
  exists r net', client_post draft net = Some (r, net') /\
    ((exists message, r = Err (Api_Transport message)) \/
     exists n s, server_post n draft s = (r, net_server net')) /\
    (forall p, r = Ok p ->
       exists c, committed_as (net_server net') (td_book draft) (td_idempotency_key draft) = Some c /\
         po_tx_id p = uuid_to_string (c_txid c) /\ po_seq p = c_seq c /\ po_at p = c_at c) /\
    (forall b k c, committed_as (net_server net) b k = Some c -> committed_as (net_server net') b k = Some c).
Proof.
  intros Hok. unfold client_post, execute. set (send := over_network (PostTransaction (Ok draft))).
  destruct (send_with_retry_exact policy send net) as (outs & last & delays & net' & Hr & Hs & _ & _ & _ & _ & _).
  rewrite Hr. cbn [mbind option_bind].
  assert (forall w, keyed_ok (net_server w) /\ (forall b k c, committed_as (net_server net) b k = Some c -> committed_as (net_server w) b k = Some c) ->
            let '(o, w1) := send w in
            (keyed_ok (net_server w1) /\ (forall b k c, committed_as (net_server net) b k = Some c -> committed_as (net_server w1) b k = Some c)) /\
            forall resp, o = Ok resp -> exists n s r, keyed_ok s /\ server_post n draft s = (r, net_server w1) /\ decode_response posted_of_json resp = r)
    as Hstep.
  { intros w [Hw Hst]. unfold send, over_network, over. pose proof (server_post_keyed (net_requests w) draft (net_server w) Hw) as Hk.
    destruct (match net_deliveries w with [] => _ | d :: ds => _ end) as [[|e|e] ds]; [| |].
    - rewrite serve_post. destruct (server_post _ _ _) as [r s'] eqn:Ep. destruct Hk as (Hk1 & Hk2 & _). cbn [respond_in fst snd net_server].
      split; [split; [done|]; eauto|]. intros resp [= <-]. exists (net_requests w), (net_server w), r. split; [done|]. split; [done|]. apply post_decoded.
    - cbn [net_server]. split; [done|]. done.
    - rewrite serve_post. destruct (server_post _ _ _) as [r s'] eqn:Ep. destruct Hk as (Hk1 & Hk2 & _). cbn [respond_in fst snd net_server].
      split; [split; [done|]; eauto|]. done. }
  apply (sends_last send _ _ _ _ _ _ _ Hstep) in Hs as [[Hok' Hkeep] Hlast]; [|done].
  destruct last as [resp|e]; cbn [exhausted]; eexists _, _; (split; [reflexivity|]).
  - destruct (Hlast resp eq_refl) as (n & s & r & Hoks & Hp & Hd). rewrite Hd. split; [right; by exists n, s|]. split; [|done].
    intros p ->. pose proof (server_post_keyed n draft s Hoks) as Hk. rewrite Hp in Hk. by apply Hk.
  - split; [left; by eexists|]. done.
Qed.
End network.

(** ** Subscriptions over connections that fail *)

(** What becomes of a connection: it fails, something before the route answers
    it, or the server streams the book's events as far as they are logged (and
    then perhaps an error of the store), of which some frames arrive. *)
Inductive Attempt :=
| Fails (e : string)
| Answered (r : Response)
| Streams (log : list EventEnvelope) (error : option ApiError) (arriving : nat) (dropped : option string).

Section subscription.
Context `{EventText} `{ClientText}.
Variable policy : RetryPolicy.
Variable body_text : Body -> string.
Hypothesis envelope_text : forall env data, envelope_to_json env = Ok data -> envelope_of_json data = Ok env.

(** The eventsource reader's frame: an event without a name is a message. *)
Definition frame_of (ev : SseEvent) : Frame := mkFrame (default "message"%string (sse_event ev)) (sse_data ev).

(** The stream of a book's events from a sequence number on. *)
Definition served_from (start : Seq) (log : list EventEnvelope) (error : option ApiError) : list SseEvent :=
  sse_stream (map Ok (filter (fun env => start <= ee_seq env) log) ++ match error with Some e => [Err e] | None => [] end).

Definition connect (url_from : Seq) (last_event_id : option string) (attempts : list Attempt) : Connection * list Attempt :=
  match attempts with
  | [] => (Refused "connection refused", [])
  | Fails e :: attempts => (Refused e, attempts)
  | Answered r :: attempts => (Rejected (rs_status r) (Ok (body_text (rs_body r))), attempts)
  | Streams log error arriving dropped :: attempts =>
      (Streaming (map frame_of (take arriving (served_from (start_seq last_event_id (Some url_from)) log error))) dropped, attempts)
  end.

Definition oks {A E} (l : list (result A E)) : list A := omap (fun r => match r with Ok a => Some a | Err _ => None end) l.

Lemma oks_app {A E} (l r : list (result A E)) : oks (l ++ r) = oks l ++ oks r.
Proof. apply omap_app. Qed.

(** A book's log: its events are numbered from one. *)
Definition numbered (log : list EventEnvelope) : Prop :=
  Z.of_nat (length log) < i64_max /\ forall i env, log !! i = Some env -> ee_seq env = Z.of_nat i + 1.

Lemma numbered_filter log a : numbered log -> filter (fun env => a <= ee_seq env) log = drop (Z.to_nat (a - 1)) log.
Proof.
  intros [_ Hn]. rewrite <- (take_drop (Z.to_nat (a - 1)) log) at 1. rewrite filter_app, filter_none, filter_all; [done| |].
  - apply Forall_lookup. intros i env Hi. rewrite lookup_drop in Hi. rewrite (Hn _ _ Hi). lia.
  - apply Forall_lookup. intros i env Hi. apply lookup_take_Some in Hi as [Hi Hlt]. rewrite (Hn _ _ Hi). lia.
Qed.

(** Where the subscription goes on. *)
Definition next_seq_of (from : Seq) (p : Progress) : Seq := match cursor p with Some c => c + 1 | None => from end.

(** Reading the frames of a stream: the events among them are the first of the
    stream's, and the cursor is at the last. *)
Lemma read_frames_stream l error n p :
  exists m, oks (read_frames (map frame_of (take n (sse_stream (map Ok l ++ match error with Some e => [Err e] | None => [] end)))) p).1 = take m l /\
    cursor (read_frames (map frame_of (take n (sse_stream (map Ok l ++ match error with Some e => [Err e] | None => [] end)))) p).2 =
      match last (take m l) with Some env => Some (ee_seq env) | None => cursor p end /\
    ((length l <= n)%nat -> Forall (fun env => is_ok (envelope_to_json env) = true) l -> take m l = l).
Proof.
  revert n p. induction l as [|env l IH]; intros n p; cbn [map app sse_stream].
  - exists 0%nat. destruct error as [e|]; cbn [sse_stream]; [|rewrite take_nil; done]. destruct n as [|n]; [done|]. cbn.
    rewrite take_nil. cbn. done.
  - destruct n as [|n]; [exists 0%nat; split_and!; [done|done|cbn; lia]|].
    destruct (envelope_to_json env) as [data|e] eqn:Ej.
    + cbn [take map]. cbn [read_frames frame_of fr_event fr_data sse_event sse_data default from_option]. change (String.eqb "message" "error") with false. cbn iota.
      rewrite (envelope_text _ _ Ej). destruct (IH n (mkProgress (Some (ee_seq env)) 0)) as (m & Ho & Hc & Hall).
      destruct (read_frames _ _) as [items p2]. cbn [fst snd] in *. exists (S m). split; [change (env :: oks items = env :: take m l); by rewrite Ho|]. split.
      * rewrite Hc. cbn [take]. rewrite last_cons. by destruct (last (take m l)).
      * intros Hn Hf. cbn [take]. f_equal. inversion Hf; subst. apply Hall; [cbn in Hn; lia|done].
    + exists 0%nat. split; [|split].
      * cbn. rewrite take_nil. cbn. done.
      * cbn. rewrite take_nil. cbn. done.
      * intros _ Hf. inversion Hf as [|? ? Hbad]. by rewrite Ej in Hbad.
Qed.

(** A number's text reads back as the number. *)
Lemma parse_i64_to_string z : in_i64 z = true -> parse_i64 (i64_to_string z) = Some z.
Proof.
  intros Hi. pose proof Hi as Hr%in_i64_spec. unfold i64_min, i64_max in Hr. unfold i64_to_string. case_match; bool_to_prop.
  - rewrite parse_i64_neg by (apply u64_to_string_digits || apply u64_to_string_nonempty; unfold u64_max; lia).
    rewrite val_u64_to_string by (unfold u64_max; lia). apply checked_i64_Some. unfold i64_min, i64_max. lia.
  - rewrite parse_i64_digits by (apply u64_to_string_digits || apply u64_to_string_nonempty; unfold u64_max; lia).
    rewrite val_u64_to_string by (unfold u64_max; lia). apply checked_i64_Some. unfold i64_min, i64_max. lia.
Qed.

Lemma wrap_succ x : wrap_i64 (wrap_i64 (x - 1) + 1) = wrap_i64 x.
Proof.
  unfold wrap_i64. f_equal. replace ((x - 1 - i64_min) mod 2 ^ 64 + i64_min + 1 - i64_min) with ((x - 1 - i64_min) mod 2 ^ 64 + 1) by lia.
  rewrite Z.add_mod_idemp_l by lia. f_equal. lia.
Qed.

Section delivery.
Variable L : list EventEnvelope.
Hypothesis HL : numbered L.
Variable from : Seq.
Hypothesis Hfrom : i64_min <= from <= i64_max.

(** A connection streams a log as it was at some time of the book. *)
Definition of_log (a : Attempt) : Prop := match a with Streams log _ _ _ => log `prefix_of` L | _ => True end.

Definition good_cursor (p : Progress) : Prop := forall c, cursor p = Some c -> 1 <= c <= Z.of_nat (length L).

(** The events still to be delivered. *)
Definition remaining (p : Progress) : list EventEnvelope := drop (Z.to_nat (next_seq_of from p - 1)) L.

Lemma start_seq_next p : good_cursor p -> start_seq (i64_to_string <$> cursor p) (Some (wrap_i64 (from - 1))) = next_seq_of from p.
Proof.
  intros Hg. unfold start_seq, next_seq_of. destruct HL as [Hlen _]. destruct (cursor p) as [c|] eqn:Ec; cbn.
  - specialize (Hg c Ec). rewrite parse_i64_to_string by (apply in_i64_spec; unfold i64_min; lia).
    apply wrap_i64_id. unfold i64_min. lia.
  - rewrite wrap_succ. by apply wrap_i64_id.
Qed.

Lemma last_take_seq m j env : last (take m (drop j L)) = Some env ->
  ee_seq env = Z.of_nat (j + length (take m (drop j L))) /\ (j + length (take m (drop j L)) <= length L)%nat.
Proof.
  intros Hl. rewrite last_lookup in Hl. set (n := length (take m (drop j L))) in *.
  assert (0 < n)%nat as Hn. { destruct n eqn:E; [|lia]. apply lookup_lt_Some in Hl. subst n. lia. }
  assert (L !! (j + pred n)%nat = Some env) as HLn.
  { rewrite <- lookup_drop. apply lookup_take_Some in Hl as [Hl _]. exact Hl. }
  destruct HL as [_ Hseq]. rewrite (Hseq _ _ HLn). apply lookup_lt_Some in HLn. lia.
Qed.

(** A turn yields the next of the remaining events, and goes on after them. *)
Lemma turn_next p attempts :
  good_cursor p -> Forall of_log attempts ->
  let '(items, next, attempts') := turn policy connect (wrap_i64 (from - 1)) p attempts in
  Forall of_log attempts' /\
  exists rest, remaining p = oks items ++ rest /\ forall d p', next = Some (d, p') -> good_cursor p' /\ remaining p' = rest.
Proof.
  intros Hg Ha. unfold turn. destruct attempts as [|a attempts]; cbn [connect].
  { destruct (max_attempts policy <=? _); (split; [constructor|]); exists (remaining p); (split; [done|]); [done|]. by intros d p' [= <- <-]. }
  inversion Ha as [|? ? Hlog Hrest]; subst. destruct a as [e|r|log error n dropped]; cbn [connect].
  - destruct (max_attempts policy <=? _); (split; [done|]); exists (remaining p); (split; [done|]); [done|]. by intros d p' [= <- <-].
  - assert (forall e : ApiError, oks [@Err EventEnvelope ApiError e] = []) as Hnone by done.
    destruct (decode_error _ _); try (split; [done|]; exists (remaining p); by split).
    destruct (max_attempts policy <=? _); (split; [done|]); exists (remaining p); (split; [done|]); [done|]. by intros d' p' [= <- <-].
  - rewrite (start_seq_next p Hg). unfold served_from.
    assert (numbered log) as Hnum.
    { destruct HL as [Hlen Hseq]. split; [apply prefix_length in Hlog; lia|]. intros i env Hi. apply Hseq. by eapply prefix_lookup_Some. }
    rewrite (numbered_filter log _ Hnum). destruct Hlog as [later HLl].
    set (j := Z.to_nat (next_seq_of from p - 1)) in *.
    destruct (read_frames_stream (drop j log) error n p) as (m & Ho & Hc & _). destruct (read_frames _ p) as [items p1]. cbn [fst snd] in *.
    assert (exists k, take m (drop j log) = take k (drop j L)) as [k Hk].
    { exists (length (take m (drop j log))). rewrite HLl, drop_app. rewrite <- (take_drop m (drop j log)) at 3.
      by rewrite <- app_assoc, take_app_length. }
    rewrite Hk in Ho, Hc.
    assert (forall p2, cursor p2 = cursor p1 -> good_cursor p2 /\ remaining p2 = drop k (drop j L)) as Hp1.
    { intros p2 Hp2. unfold good_cursor, remaining, next_seq_of. rewrite Hp2, Hc. destruct (last (take k (drop j L))) as [env|] eqn:El.
      - assert (0 < length (take k (drop j L)))%nat as Hpos by (destruct (take k (drop j L)); [done|cbn; lia]).
        apply last_take_seq in El as [-> Hle]. split; [intros c [= <-]; lia|].
        assert (length (take k (drop j L)) = k \/ drop k (drop j L) = [] /\ (j + length (take k (drop j L)) = length L)%nat) as [Hlen|[Hnil Hlen]].
        { rewrite length_take, length_drop in *. destruct (decide (k <= length L - j)%nat); [left; lia|right].
          split; [apply drop_ge; rewrite length_drop; lia|lia]. }
        + rewrite drop_drop. f_equal. lia.
        + rewrite Hnil. apply drop_ge. lia.
      - apply last_None in El. split; [exact Hg|]. fold (next_seq_of from p). fold j. pose proof (take_drop k (drop j L)) as Htd. by rewrite El in Htd. }
    destruct (max_attempts policy <=? _); (split; [done|]); exists (drop k (drop j L));
      rewrite ?oks_app, Ho, ?app_nil_r; (split; [unfold remaining; by rewrite take_drop|]); [done|].
    intros d p' [= <- <-]. by apply Hp1.
Qed.

Lemma turn_tail url p a attempts : (turn policy connect url p (a :: attempts)).2 = attempts.
Proof. unfold turn. destruct a; cbn [connect]; try destruct (decode_error _ _); try destruct (read_frames _ _); by repeat case_match; simplify_eq. Qed.

Lemma reconnecting_prefix fuel p attempts :
  good_cursor p -> Forall of_log attempts ->
  oks (reconnecting policy connect fuel (wrap_i64 (from - 1)) p attempts).1.1 `prefix_of` remaining p.
Proof.
  revert p attempts. induction fuel as [|fuel IH]; intros p attempts Hg Ha; cbn [reconnecting]; [apply prefix_nil|].
  pose proof (turn_next p attempts Hg Ha) as Ht. destruct (turn _ _ _ p attempts) as [[items next] attempts'].
  destruct Ht as (Ha' & rest & Hr & Hn). destruct next as [[d p']|]; cbn [fst]; [|rewrite Hr; by eexists].
  destruct (Hn d p' eq_refl) as [Hg' Hr']. specialize (IH p' attempts' Hg' Ha'). rewrite Hr' in IH.
  destruct (reconnecting _ _ _ _ p' attempts') as [[items' ended] w]. cbn [fst] in *. rewrite oks_app, Hr. by apply prefix_app.
Qed.

(** A connection that brings every frame brings every remaining event. *)
Lemma turn_all p arriving dropped attempts :
  good_cursor p -> (length L <= arriving)%nat -> Forall (fun env => is_ok (envelope_to_json env) = true) L ->
  oks (turn policy connect (wrap_i64 (from - 1)) p (Streams L None arriving dropped :: attempts)).1.1 = remaining p.
Proof.
  intros Hg Hn Hj. unfold turn. cbn [connect]. rewrite (start_seq_next p Hg). unfold served_from. rewrite (numbered_filter L _ HL).
  fold (remaining p). destruct (read_frames_stream (remaining p) None arriving p) as (m & Ho & _ & Hall).
  destruct (read_frames _ p) as [items p1]. cbn [fst snd] in *.
  assert (take m (remaining p) = remaining p) as Hm by (apply Hall; [unfold remaining; rewrite length_drop; lia|by apply Forall_drop]).
  destruct (max_attempts policy <=? _); cbn [fst]; rewrite ?oks_app, Ho, Hm, ?app_nil_r; done.
Qed.

Lemma reconnecting_all pre p arriving dropped :
  good_cursor p -> Forall of_log pre -> (length L <= arriving)%nat -> Forall (fun env => is_ok (envelope_to_json env) = true) L ->
  (reconnecting policy connect (length pre) (wrap_i64 (from - 1)) p (pre ++ [Streams L None arriving dropped])).1.2 = false ->
  oks (reconnecting policy connect (S (length pre)) (wrap_i64 (from - 1)) p (pre ++ [Streams L None arriving dropped])).1.1 = remaining p.
Proof.
  intros Hg Hp Hn Hj. revert p Hg Hp. induction pre as [|a pre IH]; intros p Hg Hp He.
  - cbn [length reconnecting app]. pose proof (turn_all p arriving dropped [] Hg Hn Hj) as Ht.
    destruct (turn _ _ _ _ _) as [[items [[d p']|]] w]; cbn [fst] in *; [rewrite app_nil_r|]; exact Ht.
  - cbn [length app] in *. set (final := [Streams L None arriving dropped]) in *.
    assert (Forall of_log (a :: pre ++ final)) as Ha.
    { inversion Hp; subst. constructor; [done|]. apply Forall_app. split; [done|]. apply Forall_singleton. cbn. reflexivity. }
    pose proof (turn_next p _ Hg Ha) as Ht. pose proof (turn_tail (wrap_i64 (from - 1)) p a (pre ++ final)) as Htail.
    change (reconnecting policy connect (S (S (length pre))) (wrap_i64 (from - 1)) p (a :: pre ++ final)) with
      (match turn policy connect (wrap_i64 (from - 1)) p (a :: pre ++ final) with
       | (items, None, w1) => (items, true, w1)
       | (items, Some (_, p1), w1) =>
           let '(rest, ended, w2) := reconnecting policy connect (S (length pre)) (wrap_i64 (from - 1)) p1 w1 in (items ++ rest, ended, w2)
       end).
    cbn [reconnecting] in He. destruct (turn _ _ _ p (a :: pre ++ final)) as [[items next] w1]. cbn [snd] in Htail. subst w1.
    destruct Ht as (_ & rest & Hr & Hnext). destruct next as [[d p']|]; [|done]. destruct (Hnext d p' eq_refl) as [Hg' Hr'].
    inversion Hp; subst. specialize (IH p' Hg' ltac:(done)).
    destruct (reconnecting _ _ (length pre) _ p' _) as [[i1 e1] w1]. cbn [fst snd] in He. subst e1. specialize (IH eq_refl).
    destruct (reconnecting _ _ (S (length pre)) _ p' _) as [[i2 e2] w2]. cbn [fst] in *. by rewrite oks_app, IH, Hr.
Qed.
End delivery.

(** C21: However its connections fail, a subscription delivers the book's events
    from its start on in order, each once and none left out.  As long as it has not
    ended, one connection that brings what the server streams brings it all the
    rest. *)
Theorem subscription_resumes (L : list EventEnvelope) (from : Seq) (attempts : list Attempt) (fuel : nat) :
  numbered L -> i64_min <= from <= i64_max -> Forall (of_log L) attempts ->
  oks (client_subscribe policy connect fuel from attempts).1.1 `prefix_of` filter (fun env => from <= ee_seq env) L /\
  forall arriving dropped,
    (length L <= arriving)%nat -> Forall (fun env => is_ok (envelope_to_json env) = true) L ->
    (client_subscribe policy connect (length attempts) from (attempts ++ [Streams L None arriving dropped])).1.2 = false ->
    oks (client_subscribe policy connect (S (length attempts)) from (attempts ++ [Streams L None arriving dropped])).1.1 =
      filter (fun env => from <= ee_seq env) L.
Proof.
  intros HL Hf Ha. rewrite (numbered_filter L from HL). unfold client_subscribe.
  assert (good_cursor L (mkProgress None 0)) as Hg by (by intros c).
  split; [by apply (reconnecting_prefix L HL from Hf fuel (mkProgress None 0))|].
  intros arriving dropped Hn Hj He. by apply (reconnecting_all L HL from Hf attempts (mkProgress None 0)).
Qed.

(** The server's answer to an overload does not fail the subscription's
    connection but ends it: the 503 of the admission layer has the body of an
    Overloaded error, which the client takes for an error that reconnecting cannot
    help. *)
Theorem overload_ends_subscription (from : Seq) (attempts : list Attempt) (fuel : nat) :
  (forall e, error_of_json (body_text (Error_body e)) = Ok e) ->
  client_subscribe policy connect (S fuel) from (Answered (handle_middleware_error LoadShed) :: attempts) =
    ([Err Api_Overloaded], true, attempts).
Proof.
  intros Ht. unfold client_subscribe. cbn [reconnecting]. unfold turn. cbn [connect handle_middleware_error rs_status rs_body].
  unfold decode_error. by rewrite Ht.
Qed.
End subscription.
