(* ===== verification/ClientApi.v ===== *)
(** The client as an implementation of [LedgerApi], talea-client/src/lib.rs and
    [Http::url] of http.rs, and the routes of talea-server/src/http/routes.rs: an
    operation becomes a URL and a body, the server's router and extractors turn them
    into a call.

    The editing and the encoding of URLs, the texts of JSON bodies and of times, and
    the answers of the framework to what has no route are their libraries'. *)

From S2P Require Import Prelude Decimal Core Api Service LedgerApi Http Client ClientSpec.
Open Scope Z_scope.

(** ** URLs *)

(** The [url] crate.  [path_segments_mut] and [query_pairs_mut] edit a URL in place;
    a URL like mailto: has no segments to edit.  What a server reads in a URL are its
    path's segments and its query's pairs, decoded. *)
Class UrlLib := {
  Url : Type;
  has_segments : Url -> bool;
  pop_if_empty : Url -> Url;
  push : Url -> string -> Url;
  append_pair : Url -> string -> string -> Url;
  path_of : Url -> list string;
  query_of : Url -> list (string * string)
}.

Inductive Method := GET | POST.

#[export] Instance Method_eq_dec : EqDecision Method.
Proof. solve_decision. Defined.

Record Request `{UrlLib} := mkRequest {
  rq_method : Method;
  rq_url : Url;
  rq_last_event_id : option string;
  rq_body : option string
}.

(** A type's JSON: [serde_json::to_string], and what the extractor of bodies makes
    of a text. *)
Class Serde (A : Type) := { to_body : A -> string; from_body : string -> result A string }.

(** Texts of times, and the extractors of queries: [AsOfQuery], [HistoryQuery] and
    the [from] of the events. *)
Class QueryText := {
  to_rfc3339 : DateTime -> string;
  as_of_query : list (string * string) -> result (option DateTime) string;
  history_query : list (string * string) -> result (option Seq * option Z) string;
  from_query : list (string * string) -> result (option Z) string
}.

(** The decoders of the answers. *)
Class Answers := {
  posted_of_json : string -> result Posted string;
  balance_of_json : string -> result BalanceView string;
  history_of_json : string -> result (Paged PostingView) string;
  transaction_of_json : string -> result TransactionView string;
  trial_balance_of_json : string -> result TrialBalance string
}.

Section url.
Context `{UrlLib}.

(** [Http::url] *)
Definition url (base : Url) (segments : list string) : ApiResult Url :=
  if has_segments base then Ok (fold_left push segments (push (pop_if_empty base) "v1"))
  else Err (Api_Transport "base URL cannot be a base").
End url.

(** ** The routes *)

Section routes.
Context `{UrlLib} `{QueryText} `{Serde AssetDraft} `{Serde AccountDraft} `{Serde TransactionDraft} `{Serde (list TransactionDraft)}.

(** [Json<T>]: the body and its content type come together. *)
Definition json_body {A} `{Serde A} (body : option string) : result A JsonRejection :=
  match body with
  | None => Err MissingJsonContentType
  | Some text => map_err OtherRejection (from_body text)
  end.

(** A segment of a route: itself, or a parameter, which is not empty. *)
Inductive Pattern := Lit (s : string) | Param.

Fixpoint match_path (pattern : list Pattern) (path : list string) : option (list string) :=
  match pattern, path with
  | [], [] => Some []
  | Lit s :: pattern, s' :: path => if String.eqb s s' then match_path pattern path else None
  | Param :: pattern, s' :: path => if String.eqb s' "" then None else cons s' <$> match_path pattern path
  | _, _ => None
  end.

Definition param (params : list string) (i : nat) : string := nth i params EmptyString.

(** The routes under /v1, a fixed path before one with a parameter in its place. *)
Definition routes : list (list Pattern * (Method * (list string -> Request -> Call))) := [
  ([Lit "assets"], (POST, fun _ rq => RegisterAsset (json_body (rq_body rq))));
  ([Lit "accounts"], (POST, fun _ rq => OpenAccount (json_body (rq_body rq))));
  ([Lit "transactions"], (POST, fun _ rq => PostTransaction (json_body (rq_body rq))));
  ([Lit "transactions"; Lit "batch"], (POST, fun _ rq => PostBatch (json_body (rq_body rq))));
  ([Lit "transactions"; Param], (GET, fun ps _ => GetTransaction (param ps 0)));
  ([Lit "books"; Param; Lit "accounts"; Param; Lit "balance"],
    (GET, fun ps rq => GetBalance (param ps 0) (param ps 1) (as_of_query (query_of (rq_url rq)))));
  ([Lit "books"; Param; Lit "accounts"; Param; Lit "history"],
    (GET, fun ps rq => GetHistory (param ps 0) (param ps 1) (history_query (query_of (rq_url rq)))));
  ([Lit "books"; Param; Lit "trial-balance"], (GET, fun ps rq => GetTrialBalance (param ps 0) (as_of_query (query_of (rq_url rq)))));
  ([Lit "books"; Param; Lit "events"],
    (GET, fun ps rq => GetEvents (param ps 0) (rq_last_event_id rq) (from_query (query_of (rq_url rq)))))]%string.

(** What the router makes of a request: a call, or nothing to call.  The pages of
    the interface's documentation are not among the routes. *)
Inductive Routed := Called (c : Call) | WrongMethod | Unmatched.

Fixpoint find_route (table : list (list Pattern * (Method * (list string -> Request -> Call)))) (path : list string) (rq : Request) : Routed :=
  match table with
  | [] => Unmatched
  | (pattern, (method, handler)) :: table =>
      match match_path pattern path with
      | Some params => if decide (rq_method rq = method) then Called (handler params rq) else WrongMethod
      | None => find_route table path rq
      end
  end.

Definition route (rq : Request) : Routed :=
  match path_of (rq_url rq) with
  | [] => Unmatched
  | root :: path =>
      if String.eqb root "v1" then find_route routes path rq
      else if String.eqb root "health" && bool_decide (path = []) then
        if decide (rq_method rq = GET) then Called GetHealth else WrongMethod
      else Unmatched
  end.
End routes.

(** ** Building a client *)

(** [Url::parse] and [reqwest::Client::builder().build()]. *)
Class Reqwest `{UrlLib} := { url_parse : string -> result Url string; build_http_client : result unit string }.

Section builder.
Context `{UrlLib}.

(** The client: where its server is, its token, its timeout, its retries.  The
    [reqwest] client it sends with is the network. *)
Record TaleaClient := mkTaleaClient { tc_base : Url; tc_token : option string; tc_timeout : Duration; tc_retry : RetryPolicy }.

Record ClientBuilder := mkClientBuilder {
  cb_base_url : string;
  cb_token : option string;
  cb_timeout : Duration;
  cb_retry : RetryPolicy;
  cb_http_client : bool  (* whether the caller brings one *)
}.

Definition builder (base_url : string) : ClientBuilder := mkClientBuilder base_url None (from_secs 30) RetryPolicy_default false.

Definition bearer_token (token : string) (self : ClientBuilder) : ClientBuilder :=
  mkClientBuilder (cb_base_url self) (Some token) (cb_timeout self) (cb_retry self) (cb_http_client self).
Definition timeout (d : Duration) (self : ClientBuilder) : ClientBuilder :=
  mkClientBuilder (cb_base_url self) (cb_token self) d (cb_retry self) (cb_http_client self).
Definition retry (policy : RetryPolicy) (self : ClientBuilder) : ClientBuilder :=
  mkClientBuilder (cb_base_url self) (cb_token self) (cb_timeout self) policy (cb_http_client self).
Definition with_http_client (self : ClientBuilder) : ClientBuilder :=
  mkClientBuilder (cb_base_url self) (cb_token self) (cb_timeout self) (cb_retry self) true.

Definition build `{!Reqwest} (self : ClientBuilder) : ApiResult TaleaClient :=
  let? base := map_err (fun e => Api_Transport ("invalid base url: " +:+ e)) (url_parse (cb_base_url self)) in
  let? _ :=
    if cb_http_client self then Ok ()
    else map_err (fun e => Api_Transport ("building http client: " +:+ e)) build_http_client in
  Ok (mkTaleaClient base (cb_token self) (cb_timeout self) (cb_retry self)).
End builder.

(** ** The client over a network *)

Section client_api.
Context {S : Type} `{Store S} `{HashIter} `{Texts} `{EventText} `{ClientText} `{Answers}.
Context `{UrlLib} `{QueryText} `{Serde AssetDraft} `{Serde AccountDraft} `{Serde TransactionDraft} `{Serde (list TransactionDraft)}.
Variable submit_all : list Transaction -> S -> list (result Committed SubmitError) * S.
Variable stamps : nat -> nat -> TxId * DateTime.
Variable store_subscribe : Book -> Seq -> S -> list (result (Sequenced LedgerEvent) StoreError).
Variable batch_max : Z.
Variable auth : AuthConfig.
Variable body_text : Body -> string.
(** The framework's answer to a request without a route. *)
Variable unrouted : Routed -> HttpResponse.

Variable client : TaleaClient.

(** [bearer_auth] *)
Definition authorization : option string := String.append "Bearer " <$> tc_token client.

(** The server's answer to its [n]-th request. *)
Definition answer_request (rq : Request) (n : nat) (s : S) : HttpResponse * S :=
  match route rq with
  | Called c => let '(r, s') := serve_nth submit_all stamps store_subscribe batch_max auth authorization n c s in (wire body_text r, s')
  | r => (unrouted r, s)
  end.

Definition send (rq : Request) : Net S -> result HttpResponse string * Net S := over (answer_request rq).

Definition get_request (u : Url) : Request := mkRequest _ GET u None None.
Definition post_request {A} `{Serde A} (u : Url) (draft : A) : Request := mkRequest _ POST u None (Some (to_body draft)).

(** [?] on the URL, before anything is sent. *)
Definition with_url {A} (u : ApiResult Url) (net : Net S) (k : Url -> option (ApiResult A * Net S)) : option (ApiResult A * Net S) :=
  match u with Ok u => k u | Err e => Some (Err e, net) end.

Definition with_as_of (u : Url) (as_of : option DateTime) : Url :=
  match as_of with Some t => append_pair u "as_of" (to_rfc3339 t) | None => u end.

Definition with_page (u : Url) (page : Page) : Url :=
  let u := match pg_after_seq page with Some after => append_pair u "after_seq" (i64_to_string after) | None => u end in
  append_pair u "limit" (u64_to_string (pg_limit page)).

(** [impl LedgerApi for TaleaClient] *)
Definition client_api : Implementation (Net S) := fun op net =>
  let policy := tc_retry client in
  let base := tc_base client in
  match op return option (answer op * Net S) with
  | Op_register_asset draft => with_url (url base ["assets"]) net (fun u => execute_unit policy (send (post_request u draft)) net)
  | Op_open_account draft => with_url (url base ["accounts"]) net (fun u => execute_unit policy (send (post_request u draft)) net)
  | Op_post draft => with_url (url base ["transactions"]) net (fun u => execute policy (send (post_request u draft)) posted_of_json net)
  | Op_post_batch drafts =>
      match drafts with
      | [] => Some ([], net)
      | _ =>
          match url base ["transactions"; "batch"] with
          | Err e => Some (replicate (length drafts) (Err e), net)
          | Ok u => execute_batch policy (send (post_request u drafts)) (length drafts) net
          end
      end
  | Op_balance book path as_of =>
      with_url (url base ["books"; book; "accounts"; path; "balance"]) net (fun u =>
        execute policy (send (get_request (with_as_of u as_of))) balance_of_json net)
  | Op_account_history book path page =>
      with_url (url base ["books"; book; "accounts"; path; "history"]) net (fun u =>
        execute policy (send (get_request (with_page u page))) history_of_json net)
  | Op_transaction txid =>
      with_url (url base ["transactions"; txid]) net (fun u => execute policy (send (get_request u)) transaction_of_json net)
  | Op_trial_balance book as_of =>
      with_url (url base ["books"; book; "trial-balance"]) net (fun u =>
        execute policy (send (get_request (with_as_of u as_of))) trial_balance_of_json net)
  end.
End client_api.
