(* ===== verification/ClientApiSpec.v ===== *)
(** The trait's promise: code written against [LedgerApi] runs unchanged against the
    service and against a client of the server that has it. *)

From S2P Require Import Prelude Decimal Core Api Service ServiceSpec LedgerApi Http HttpSpec Client ClientSpec ClientApi.
Open Scope Z_scope.

(** ** What the client needs of the libraries *)

(** Segments are pushed at the end, except for "." and "..", which are ignored. *)
Class UrlLaws `{UrlLib} := {
  pop_segments u : has_segments (pop_if_empty u) = has_segments u;
  pop_empty u : path_of u = [EmptyString] -> path_of (pop_if_empty u) = [];
  pop_query u : query_of (pop_if_empty u) = query_of u;
  push_segments u s : has_segments (push u s) = has_segments u;
  push_path u s : has_segments u = true -> path_of u <> [EmptyString] -> s <> "."%string -> s <> ".."%string ->
    path_of (push u s) = path_of u ++ [s];
  push_query u s : query_of (push u s) = query_of u;
  append_pair_path u k v : path_of (append_pair u k v) = path_of u;
  append_pair_query u k v : query_of (append_pair u k v) = query_of u ++ [(k, v)]
}.

(** The bytes of a body the server reads, axum's default limit. *)
Definition body_limit : Z := 2 * 2 ^ 20.

Definition fits (body : string) : Prop := Z.of_nat (String.length body) <= body_limit.

Class SerdeLaws (A : Type) `{Serde A} := body_back : forall a, fits (to_body a) -> from_body (to_body a) = Ok a.

(** A page's query: after_seq if there is one, and limit. *)
Definition page_pairs (page : Page) : list (string * string) :=
  match pg_after_seq page with Some after => [("after_seq"%string, i64_to_string after)] | None => [] end ++
  [("limit"%string, u64_to_string (pg_limit page))].

(** A page of the types of its fields, an i64 and a u32. *)
Definition page_in_range (page : Page) : Prop :=
  0 <= pg_limit page < 2 ^ 32 /\ match pg_after_seq page with Some after => in_i64 after = true | None => True end.

(** RFC 3339 has years of four digits. *)
Class QueryLaws `{QueryText} := {
  four_digit_year : DateTime -> Prop;
  as_of_none : as_of_query [] = Ok None;
  as_of_back t : four_digit_year t -> as_of_query [("as_of"%string, to_rfc3339 t)] = Ok (Some t);
  history_back page : page_in_range page -> history_query (page_pairs page) = Ok (pg_after_seq page, Some (pg_limit page))
}.

Definition writable_time `{QueryLaws} (as_of : option DateTime) : Prop :=
  match as_of with Some t => four_digit_year t | None => True end.

(** The decoders read what the server wrote. *)
Class AnswerLaws `{ClientText} `{Answers} (body_text : Body -> string) := {
  error_back e : error_of_json (body_text (Error_body e)) = Ok e;
  posted_back p : posted_of_json (body_text (Posted_body p)) = Ok p;
  batch_back l : batch_of_json (body_text (Batch_body (map item_of l))) = Ok l;
  balance_back v : balance_of_json (body_text (Balance_body v)) = Ok v;
  history_page_back v : history_of_json (body_text (History_body v)) = Ok v;
  transaction_back v : transaction_of_json (body_text (Transaction_body v)) = Ok v;
  trial_balance_back v : trial_balance_of_json (body_text (Trial_balance_body v)) = Ok v
}.

(** ** URLs *)

Section urls.
Context `{UrlLaws}.

(** A server's address, without a path or a query of its own. *)
Definition address (base : Url) : Prop := has_segments base = true /\ path_of base = [EmptyString] /\ query_of base = [].

Definition plain_segment (s : string) : Prop := s <> EmptyString /\ s <> "."%string /\ s <> ".."%string.

#[export] Instance plain_segment_dec s : Decision (plain_segment s).
Proof. unfold plain_segment. apply _. Defined.

Lemma push_all segments u :
  has_segments u = true -> path_of u <> [EmptyString] -> Forall plain_segment segments ->
  path_of (fold_left push segments u) = path_of u ++ segments /\ query_of (fold_left push segments u) = query_of u.
Proof.
  intros Hs Hp Hf. revert u Hs Hp. induction Hf as [|s segments (Hne & Hd & Hdd) _ IH]; intros u Hs Hp; cbn; [by rewrite app_nil_r|].
  assert (path_of (push u s) = path_of u ++ [s]) as Hps by (by apply push_path).
  destruct (IH (push u s)) as [Hpath Hq]; [by rewrite push_segments| |].
  - rewrite Hps. destruct (path_of u) as [|x l] eqn:E; cbn; [congruence|]. destruct l; cbn; congruence.
  - rewrite Hpath, Hq, Hps, push_query, <- app_assoc. done.
Qed.

Lemma url_read base segments :
  address base -> Forall plain_segment segments ->
  exists u, url base segments = Ok u /\ path_of u = "v1"%string :: segments /\ query_of u = [].
Proof.
  intros (Hs & Hp & Hq) Hf. unfold url. rewrite Hs. eexists. split; [done|].
  change (fold_left push segments (push (pop_if_empty base) "v1")) with (fold_left push ("v1"%string :: segments) (pop_if_empty base)).
  assert (path_of (pop_if_empty base) = []) as Hpop by (by apply pop_empty).
  destruct (push_all ("v1"%string :: segments) (pop_if_empty base)) as [-> ->].
  - by rewrite pop_segments.
  - by rewrite Hpop.
  - by constructor.
  - rewrite Hpop, pop_query. done.
Qed.
End urls.

(** ** An operation, its call and its answer *)

Section operations.
Context {S : Type} `{Store S} `{HashIter} `{Texts} `{EventText} `{ClientText} `{Answers} `{UrlLaws} `{QueryLaws}.
Context `{SerdeLaws AssetDraft} `{SerdeLaws AccountDraft} `{SerdeLaws TransactionDraft} `{SerdeLaws (list TransactionDraft)}.
Variable submit_all : list Transaction -> S -> list (result Committed SubmitError) * S.
Variable stamps : nat -> nat -> TxId * DateTime.
Variable store_subscribe : Book -> Seq -> S -> list (result (Sequenced LedgerEvent) StoreError).
Variable batch_max : Z.
Variable auth : AuthConfig.
Variable body_text : Body -> string.
Variable unrouted : Routed -> HttpResponse.
Variable client : TaleaClient.

(** What can be asked over HTTP: texts that a path holds, a body and a batch within
    the server's limits, a time RFC 3339 can write.  No transaction is asked for by
    the id "batch", the name of a route. *)
Definition plain_op (op : ApiOp) : Prop :=
  match op with
  | Op_register_asset d => fits (to_body d)
  | Op_open_account d => fits (to_body d)
  | Op_post d => fits (to_body d)
  | Op_post_batch ds => Z.of_nat (length ds) <= batch_max /\ fits (to_body ds)
  | Op_balance book path as_of => plain_segment book /\ plain_segment path /\ writable_time as_of
  | Op_account_history book path page => plain_segment book /\ plain_segment path /\ page_in_range page
  | Op_transaction txid => plain_segment txid /\ txid <> "batch"%string
  | Op_trial_balance book as_of => plain_segment book /\ writable_time as_of
  end.

(** The call an operation is on the server. *)
Definition op_call (op : ApiOp) : Call :=
  match op with
  | Op_register_asset d => RegisterAsset (Ok d)
  | Op_open_account d => OpenAccount (Ok d)
  | Op_post d => PostTransaction (Ok d)
  | Op_post_batch ds => PostBatch (Ok ds)
  | Op_balance book path as_of => GetBalance book path (Ok as_of)
  | Op_account_history book path page => GetHistory book path (Ok (pg_after_seq page, Some (pg_limit page)))
  | Op_transaction txid => GetTransaction txid
  | Op_trial_balance book as_of => GetTrialBalance book (Ok as_of)
  end.

(** The response an answer is sent as. *)
Definition op_response (op : ApiOp) : answer op -> Response :=
  match op with
  | Op_register_asset _ | Op_open_account _ => respond NO_CONTENT (fun _ => No_body)
  | Op_post _ => respond OK Posted_body
  | Op_post_batch _ => fun l => mkResponse OK None (Batch_body (map item_of l))
  | Op_balance _ _ _ => respond OK Balance_body
  | Op_account_history _ _ _ => respond OK History_body
  | Op_transaction _ => respond OK Transaction_body
  | Op_trial_balance _ _ => respond OK Trial_balance_body
  end.

(** What the client makes of the last response, or of having none. *)
Definition finish (op : ApiOp) : ApiResult HttpResponse -> answer op :=
  match op return ApiResult HttpResponse -> answer op with
  | Op_register_asset _ | Op_open_account _ => fun r => let? response := r in unit_response response
  | Op_post _ => fun r => let? response := r in decode_response posted_of_json response
  | Op_post_batch ds => batch_response (length ds)
  | Op_balance _ _ _ => fun r => let? response := r in decode_response balance_of_json response
  | Op_account_history _ _ _ => fun r => let? response := r in decode_response history_of_json response
  | Op_transaction _ => fun r => let? response := r in decode_response transaction_of_json response
  | Op_trial_balance _ _ => fun r => let? response := r in decode_response trial_balance_of_json response
  end.

Abbreviation api := (client_api submit_all stamps store_subscribe batch_max auth body_text unrouted client).
Abbreviation service := (service_api submit_all stamps).
Abbreviation sender := (send submit_all stamps store_subscribe batch_max auth body_text unrouted client).

(** ** From the operation to the call *)

Lemma as_of_read as_of u :
  query_of u = [] -> writable_time as_of -> as_of_query (query_of (with_as_of u as_of)) = Ok as_of.
Proof.
  intros Hq Hy. destruct as_of as [t|]; cbn; [|by rewrite Hq, as_of_none]. rewrite append_pair_query, Hq. cbn. by apply as_of_back.
Qed.

Lemma page_read page u :
  query_of u = [] -> page_in_range page ->
  history_query (query_of (with_page u page)) = Ok (pg_after_seq page, Some (pg_limit page)).
Proof.
  intros Hq Hr. rewrite <- (history_back page Hr). f_equal. unfold with_page, page_pairs.
  destruct (pg_after_seq page); by rewrite ?append_pair_query, Hq.
Qed.

Lemma with_as_of_path u as_of : path_of (with_as_of u as_of) = path_of u.
Proof. destruct as_of; cbn; by rewrite ?append_pair_path. Qed.

Lemma with_page_path u page : path_of (with_page u page) = path_of u.
Proof. unfold with_page. destruct (pg_after_seq page); by rewrite !append_pair_path. Qed.

Hypothesis Haddress : address (tc_base client).

(** The segments of a route are plain, those given by hypothesis. *)
Ltac plain_segments :=
  repeat first [apply Forall_nil | apply Forall_cons; split];
  first [done | by apply (bool_decide_eq_true_1 (plain_segment _))].

(** Every operation that is a request at all sends one that the server's router
    makes the operation's call of. *)
Lemma client_sends op net :
  plain_op op -> requests op = 1%nat ->
  exists rq, route rq = Called (op_call op) /\
    api op net = ('(r, _, net') ← send_with_retry (tc_retry client) (sender rq) net; Some (finish op r, net')).
Proof.
  intros Hop Hreq. assert (forall s, plain_segment s -> String.eqb s "" = false) as Hseg by (intros s [Hs _]; by apply String.eqb_neq).
  assert (forall segments, Forall plain_segment segments -> exists u, url (tc_base client) segments = Ok u /\ path_of u = "v1"%string :: segments /\ query_of u = [])
    as Hurl by (intros; by apply url_read).
  assert (forall rq path, path_of (rq_url rq) = "v1"%string :: path -> route rq = find_route routes path rq) as Hroute
    by (intros rq path Hp; unfold route; by rewrite Hp).
  destruct op as [d|d|d|ds|book path as_of|book path page|txid|book as_of]; cbn [plain_op] in Hop; unfold client_api, with_url.
  - destruct (Hurl ["assets"%string]) as (u & -> & Hp & _); [plain_segments|].
    eexists. split; [|reflexivity]. erewrite Hroute by exact Hp. cbn. by rewrite body_back.
  - destruct (Hurl ["accounts"%string]) as (u & -> & Hp & _); [plain_segments|].
    eexists. split; [|reflexivity]. erewrite Hroute by exact Hp. cbn. by rewrite body_back.
  - destruct (Hurl ["transactions"%string]) as (u & -> & Hp & _); [plain_segments|].
    eexists. split; [|reflexivity]. erewrite Hroute by exact Hp. cbn. by rewrite body_back.
  - destruct ds as [|d ds]; [done|]. destruct (Hurl ["transactions"; "batch"]%string) as (u & -> & Hp & _); [plain_segments|].
    eexists. split; [|reflexivity]. erewrite Hroute by exact Hp. cbn. by rewrite body_back by apply Hop.
  - destruct Hop as (Hb & Hpa & Ha). destruct (Hurl ["books"; book; "accounts"; path; "balance"]%string) as (u & -> & Hp & Hq);
      [plain_segments|].
    eexists. split; [|reflexivity]. erewrite Hroute by (cbn; rewrite with_as_of_path; exact Hp). cbn. rewrite !Hseg by done. cbn. by rewrite as_of_read.
  - destruct Hop as (Hb & Hpa & Ha). destruct (Hurl ["books"; book; "accounts"; path; "history"]%string) as (u & -> & Hp & Hq);
      [plain_segments|].
    eexists. split; [|reflexivity]. erewrite Hroute by (cbn; rewrite with_page_path; exact Hp). cbn. rewrite !Hseg by done. cbn. by rewrite page_read.
  - destruct Hop as (Hb & Hne). destruct (Hurl ["transactions"; txid]%string) as (u & -> & Hp & Hq); [plain_segments|].
    eexists. split; [|reflexivity]. erewrite Hroute by exact Hp.
    assert (String.eqb "batch" txid = false) as Hbatch by (apply String.eqb_neq; congruence).
    cbn [routes find_route match_path]. rewrite Hbatch, (Hseg txid) by done. cbn. done.
  - destruct Hop as (Hb & Ha). destruct (Hurl ["books"; book; "trial-balance"]%string) as (u & -> & Hp & Hq); [plain_segments|].
    eexists. split; [|reflexivity]. erewrite Hroute by (cbn; rewrite with_as_of_path; exact Hp). cbn. rewrite !Hseg by done. cbn. by rewrite as_of_read.
Qed.
(** ** From the call to the answer *)

Variable scope : TokenScope.

(** A token without restrictions. *)
Definition full_rights : Prop :=
  (forall book, allows_write scope book = true) /\ (forall book, allows_read scope book = true) /\ allows_registry scope = true.

Hypothesis Hrights : full_rights.

Lemma post_answers_length built answers : length (post_answers built answers) = length built.
Proof. revert answers. induction built as [|[tx|e] built IH]; intros answers; cbn; by rewrite ?IH. Qed.

Lemma post_batch_length stamp ds s : length (post_batch submit_all stamp ds s).1 = length ds.
Proof. unfold post_batch. destruct (submit_all _ s). cbn [fst]. by rewrite post_answers_length, length_imap. Qed.

Lemma in_place_allowed drafts results :
  length results = length drafts -> in_place scope drafts results = map item_of results.
Proof.
  revert results. induction drafts as [|d drafts IH]; intros [|r results]; cbn; try done. unfold allowed.
  rewrite (proj1 Hrights). intros [= Hl]. f_equal. by apply IH.
Qed.

Lemma batch_handled stamp ds s :
  ds <> [] -> Z.of_nat (length ds) <= batch_max ->
  post_batch_transactions submit_all stamp batch_max scope ds s =
    (Ok (map item_of (post_batch submit_all stamp ds s).1), (post_batch submit_all stamp ds s).2).
Proof.
  intros Hne Hcap. unfold post_batch_transactions. apply Z.ltb_ge in Hcap as ->. destruct ds as [|d0 ds0]; [done|]. set (ds := d0 :: ds0) in *.
  pose proof (partition_drafts_spec scope ds [] []) as Hpart. cbn [app length] in Hpart. rewrite Hpart.
  assert (map snd (in_scope_from scope 0 ds) = ds) as Hall.
  { rewrite in_scope_drafts. clear -Hrights. induction ds as [|d ds IH]; cbn; [done|]. unfold allowed at 1. by rewrite (proj1 Hrights), IH. }
  destruct (in_scope_from scope 0 ds) as [|x l] eqn:El; [done|]. rewrite <- El in *. rewrite Hall.
  destruct (post_batch submit_all stamp ds s) as [results s'] eqn:Eb.
  pose proof (post_batch_length stamp ds s) as Hlen. rewrite Eb in Hlen.
  pose proof (fill_slots_spec scope ds results []) as Hfill. cbn [app length map] in Hfill.
  rewrite in_place_allowed in Hfill by exact Hlen. cbn [fst snd]. by rewrite Hfill.
Qed.

Lemma clamp_min limit : clamp_limit (Z.min limit 1000) = clamp_limit limit.
Proof. unfold clamp_limit. lia. Qed.

(** The server's handler of the call answers as the service does. *)
Lemma call_handled op n s :
  plain_op op -> requests op = 1%nat ->
  handle submit_all (stamps n) store_subscribe batch_max scope (op_call op) s =
    (op_response op (service_answer submit_all stamps n op s).1, (service_answer submit_all stamps n op s).2).
Proof.
  destruct Hrights as (Hw & Hr & Hg). intros Hop Hreq.
  destruct op as [d|d|d|ds|book path as_of|book path page|txid|book as_of]; cbn [op_call handle with_body with_query op_response service_answer].
  - unfold Http.register_asset. by rewrite Hg.
  - unfold Http.open_account. by rewrite Hw.
  - unfold post_transaction. by rewrite Hw.
  - rewrite batch_handled; [done| |apply Hop]. by intros ->.
  - unfold get_balance. by rewrite Hr.
  - unfold get_history. rewrite Hr. cbn [negb]. unfold account_history. cbn [pg_limit pg_after_seq default from_option]. by rewrite clamp_min.
  - unfold get_transaction. destruct (transaction txid s) as [[view|e] s']; cbn; [by rewrite Hr|done].
  - unfold get_trial_balance. by rewrite Hr.
Qed.

Hypothesis Hscope : require_bearer auth (authorization client) = Ok scope.

Lemma request_answered rq op n s :
  route rq = Called (op_call op) -> plain_op op -> requests op = 1%nat ->
  answer_request submit_all stamps store_subscribe batch_max auth body_text unrouted client rq n s =
    (wire body_text (op_response op (service_answer submit_all stamps n op s).1), (service_answer submit_all stamps n op s).2).
Proof.
  intros Hroute Hop Hreq. unfold answer_request. rewrite Hroute. unfold serve_nth, serve. rewrite Hscope.
  pose proof (call_handled op n s Hop Hreq) as Hh. by destruct op; cbn [op_call] in *; rewrite Hh.
Qed.

(** ** From the response to the answer *)

Context `{!AnswerLaws body_text}.

Lemma respond_decoded {A} (decode : string -> result A string) (body : A -> Body) r :
  (forall a, decode (body_text (body a)) = Ok a) -> decode_response decode (wire body_text (respond OK body r)) = r.
Proof.
  intros Hd. destruct r as [a|e]; [|apply into_response_decoded, error_back]. unfold decode_response, wire. cbn. by rewrite Hd.
Qed.

Lemma respond_unit r : unit_response (wire body_text (respond NO_CONTENT (fun _ => No_body) r)) = r.
Proof.
  destruct r as [[]|e]; [done|]. unfold unit_response, wire.
  assert (is_success (rs_status (into_response e)) = false) as Hs by (by destruct e).
  cbn [respond hr_status hr_bytes]. rewrite Hs. unfold decode_error.
  assert (rs_body (into_response e) = Error_body e) as -> by (by destruct e). by rewrite error_back.
Qed.

(** The client reads the answer back. *)
Lemma response_finished op (a : answer op) : finish op (Ok (wire body_text (op_response op a))) = a.
Proof.
  destruct op; cbn [finish op_response answer] in *; cbn [wire]; try apply respond_unit; try apply respond_decoded.
  - apply posted_back.
  - unfold batch_response, wire. cbn. by rewrite batch_back.
  - apply balance_back.
  - apply history_page_back.
  - apply transaction_back.
  - apply trial_balance_back.
Qed.

(** The answers a client asks again for: 408 and 429. *)
Definition again {A} (r : ApiResult A) : bool := match r with Err Api_Overloaded | Err Api_Timeout => true | _ => false end.

Definition asked_again (op : ApiOp) : answer op -> bool :=
  match op return answer op -> bool with Op_post_batch _ => fun _ => false | _ => again end.

Lemma response_retryable op (a : answer op) : retryable (Ok (wire body_text (op_response op a))) = asked_again op a.
Proof.
  assert (forall A st (body : A -> Body) r, st = OK \/ st = NO_CONTENT ->
            retryable (Ok (wire body_text (respond st body r))) = again r) as Hr.
  { intros A st body [x|e] Hst; [by destruct Hst as [-> | ->]|by destruct e]. }
  destruct op; cbn [op_response asked_again answer] in *; try (apply Hr; tauto). done.
Qed.
(** ** One operation *)

(** The router answers nothing to no transactions. *)
Hypothesis Hnothing : forall s, submit_all [] s = ([], s).

Lemma no_request op : requests op = 0%nat -> op = Op_post_batch [].
Proof. by destruct op as [| | |[]| | | |]. Qed.

Lemma empty_batch n s : service_answer submit_all stamps n (Op_post_batch []) s = ([], s).
Proof. cbn. unfold post_batch. cbn. by rewrite Hnothing. Qed.

Lemma sent_once rq n s r s' :
  answer_request submit_all stamps store_subscribe batch_max auth body_text unrouted client rq n s = (r, s') ->
  retryable (Ok r) = false \/ max_attempts (tc_retry client) <= 1 ->
  send_with_retry (tc_retry client) (sender rq) (mkNet [] n s) = Some (Ok r, [], mkNet [] (Datatypes.S n) s').
Proof.
  intros Ha Hr. unfold send_with_retry. cbn [send_loop]. unfold send at 1, over. cbn [net_deliveries net_requests net_server]. rewrite Ha.
  destruct (retryable (Ok r)); [|done]. destruct Hr as [?|Hm%Z.leb_le]; [done|]. change (0 + 1) with 1. by rewrite Hm.
Qed.

(** Over a network that delivers, an operation the client does not ask for again is
    the service's. *)
Lemma client_op_once op n s :
  plain_op op ->
  let '(a, s') := service_answer submit_all stamps n op s in
  asked_again op a = false \/ max_attempts (tc_retry client) <= 1 ->
  api op (mkNet [] n s) = Some (a, mkNet [] (n + requests op) s').
Proof.
  intros Hop. destruct (service_answer submit_all stamps n op s) as [a s'] eqn:Ea. intros Hr.
  destruct (requests op) as [|[|k]] eqn:Hreq.
  - apply no_request in Hreq as ->. rewrite empty_batch in Ea. injection Ea as <- <-. by rewrite Nat.add_0_r.
  - destruct (client_sends op (mkNet [] n s) Hop Hreq) as (rq & Hroute & ->).
    pose proof (request_answered rq op n s Hroute Hop Hreq) as Hans. rewrite Ea in Hans.
    rewrite (sent_once _ _ _ _ _ Hans) by (by rewrite response_retryable). cbn. by rewrite response_finished, Nat.add_1_r.
  - destruct op as [| | |[]| | | |]; done.
Qed.

(** ** Code *)

(** The operations a run of the code against the service asks for are plain, and
    none is answered by asking to come back. *)
Fixpoint asks_once {R} (c : LedgerCode R) (n : nat) (s : S) : Prop :=
  match c with
  | Return _ => True
  | Ask op k =>
      let '(a, s') := service_answer submit_all stamps n op s in
      plain_op op /\ (asked_again op a = false \/ max_attempts (tc_retry client) <= 1) /\ asks_once (k a) (n + requests op) s'
  end.

(** C7: Code written against the trait runs unchanged against a client of the
    server: over a network that delivers, with a token that may do everything, it
    ends with the same result and leaves the same ledger as against the service
    itself, as long as what it asks for can be said in a URL and a body (path
    segments that are not empty, "." or "..", bodies and batches within the server's
    caps, times in years of four digits, no transaction by the id "batch") and no
    answer is one the client asks again for, unless it makes one attempt only.  The
    write router answers nothing to no transactions. *)
Theorem code_runs_unchanged {R} (c : LedgerCode R) (n : nat) (s : S) :
  asks_once c n s ->
  exists r n' s', run service c (n, s) = Some (r, (n', s')) /\ run api c (mkNet [] n s) = Some (r, mkNet [] n' s').
Proof.
  revert n s. induction c as [r|op k IH]; intros n s Hc; [by exists r, n, s|]. cbn [asks_once] in Hc. cbn [run service_api].
  pose proof (client_op_once op n s) as Hop. destruct (service_answer submit_all stamps n op s) as [a s1].
  destruct Hc as (Hplain & Hr & Hk). rewrite (Hop Hplain Hr). cbn. by apply IH.
Qed.

(** ** Any network *)

(** The answer to an operation that did not get through. *)
Definition unreachable (op : ApiOp) (message : string) : answer op := finish op (transport message).

(** Whatever the network does, an operation ends, and its answer is that of the
    service to the last of its requests or tells that there was none. *)
Theorem client_answers_as_the_service (op : ApiOp) (net : Net S) :
  plain_op op ->
  exists a net', api op net = Some (a, net') /\
    ((exists message, a = unreachable op message) \/
     exists n s, service_answer submit_all stamps n op s = (a, net_server net')).
Proof.
  intros Hop. destruct (requests op) as [|[|k]] eqn:Hreq.
  - apply no_request in Hreq as ->. exists [], net. split; [done|]. right. exists 0%nat, (net_server net). apply empty_batch.
  - destruct (client_sends op net Hop Hreq) as (rq & Hroute & ->).
    destruct (send_with_retry_exact (tc_retry client) (sender rq) net) as (outs & final & delays & net' & Hr & Hs & _).
    rewrite Hr. cbn [mbind option_bind]. eexists _, _. split; [reflexivity|].
    assert (forall w, True -> let '(o, w1) := sender rq w in True /\
              forall resp, o = Ok resp -> exists n s, (finish op (Ok resp), net_server w1) = service_answer submit_all stamps n op s) as Hstep.
    { intros w _. unfold send, over. pose proof (request_answered rq op (net_requests w) (net_server w) Hroute Hop Hreq) as Hans. rewrite Hans.
      destruct (match net_deliveries w with [] => _ | d :: ds => _ end) as [[|e|e] ds]; (split; [done|]); try done.
      intros resp [= <-]. rewrite response_finished. exists (net_requests w), (net_server w). cbn. by rewrite <- surjective_pairing. }
    apply (sends_last _ _ _ _ _ _ _ _ Hstep) in Hs as [_ Hlast]; [|done].
    destruct final as [resp|e]; cbn [exhausted]; [right|left; by eexists].
    destruct (Hlast resp eq_refl) as (n & s & Hns). by exists n, s.
  - destruct op as [| | |[]| | | |]; done.
Qed.
End operations.
