(* ===== verification/Command.v ===== *)
(** The command line, talea-cli/src/cli/mod.rs: a command becomes an operation of
    [LedgerApi], its answer is printed.

    The parsing of arguments, the texts of completions and manual pages are clap's;
    JSON texts, times, files and the standard input are their libraries'. *)

From S2P Require Import Prelude Decimal Core Api Service LedgerApi Http Client ClientSpec ClientApi ClientApiSpec Cli.
Open Scope Z_scope.

(** ** Commands *)

Inductive AssetCmd :=
| Register (id class : string) (network native_id : option string) (precision : Z  (* u8 *)) (name : string).

Inductive AccountCmd :=
| Open (book path asset kind : string) (normal_side : option string) (min_balance : option Z).

Inductive Command :=
| Command_Asset (cmd : AssetCmd)
| Command_Account (cmd : AccountCmd)
| Command_Post (book idem : option string) (debit credit : list string) (occurred_at metadata draft : option string)
| Command_Balance (book path : string) (as_of : option string)
| Command_History (book path : string) (after_seq : option Seq) (limit : Z  (* u32 *))
| Command_Tx (tx_id : string)
| Command_TrialBalance (book : string) (as_of : option string)
| Command_Tail (book : string) (from : Seq)
| Command_Completions (shell : string)
| Command_Man (out_dir : string).

Record CliArgs := mkCliArgs { cli_url : string; cli_token : option string; cli_timeout_secs : Z; cli_command : Command }.

(** Texts of the command line's libraries, and what it reads. *)
Class CliTexts := {
  parse_from_rfc3339 : string -> result DateTime string;
  draft_from_str : string -> result TransactionDraft string;
  value_from_str : string -> result JsonValue string;
  posted_to_value : Posted -> result JsonValue string;
  balance_to_value : BalanceView -> result JsonValue string;
  history_to_value : Paged PostingView -> result JsonValue string;
  transaction_to_value : TransactionView -> result JsonValue string;
  trial_balance_to_value : TrialBalance -> result JsonValue string;
  value_pretty : JsonValue -> result string string;
  api_error_debug : ApiError -> string
}.

Definition invalid (reason : string) : ApiError := Api_InvalidDraft "args" reason.

(** [.as_deref().map(f).transpose()] *)
Definition transpose {A B E} (f : A -> result B E) (o : option A) : result (option B) E :=
  match o with
  | None => Ok None
  | Some a => match f a with Ok b => Ok (Some b) | Err e => Err e end
  end.

(** [.iter().map(f).collect::<Result<Vec<_>, _>>()] *)
Fixpoint collect {A B E} (f : A -> result B E) (l : list A) : result (list B) E :=
  match l with
  | [] => Ok []
  | a :: l => let? b := f a in let? bs := collect f l in Ok (b :: bs)
  end.

Definition parse_side (s : string) : ApiResult Direction :=
  if String.eqb s "debit" then Ok Debit
  else if String.eqb s "credit" then Ok Credit
  else Err (invalid ("normal side '" +:+ s +:+ "' (want debit|credit)")).

Section commands.
Context `{CliTexts}.
(** The standard input and the files. *)
Variable read_stdin : result string string.
Variable read_to_string : string -> result string string.

Definition to_json {A} (to_value : A -> result JsonValue string) (a : A) : ApiResult JsonValue :=
  map_err (fun e => invalid ("serializing response: " +:+ e)) (to_value a).

Definition parse_rfc3339 (s : string) : result DateTime string := map_err (fun e => "timestamp: " +:+ e) (parse_from_rfc3339 s).

(** [--as-of] *)
Definition parse_as_of (as_of : option string) : ApiResult (option DateTime) := map_err invalid (transpose parse_rfc3339 as_of).

(** [--draft]: a file, or the standard input. *)
Definition read_draft (src : string) : ApiResult TransactionDraft :=
  let? raw :=
    if String.eqb src "-" then map_err (fun e => invalid ("reading stdin: " +:+ e)) read_stdin
    else map_err (fun e => invalid ("reading " +:+ src +:+ ": " +:+ e)) (read_to_string src) in
  map_err (fun e => invalid ("draft json: " +:+ e)) (draft_from_str raw).

(** The draft that [talea post] sends. *)
Definition post_draft (book idem : option string) (debit credit : list string) (occurred_at metadata draft : option string) :
    ApiResult TransactionDraft :=
  let? base := transpose read_draft draft in
  let? debits := map_err invalid (collect (fun s => parse_posting s Debit) debit) in
  let? credits := map_err invalid (collect (fun s => parse_posting s Credit) credit) in
  let? occurred_at := map_err invalid (transpose parse_rfc3339 occurred_at) in
  let? metadata := map_err (fun e => invalid ("metadata json: " +:+ e)) (transpose value_from_str metadata) in
  map_err invalid (build_draft base book idem debits credits occurred_at metadata).

(** An operation whose answer is printed. *)
Definition shown {A} (to_value : A -> result JsonValue string) (answered : LedgerCode (ApiResult A)) : LedgerCode (ApiResult (option JsonValue)) :=
  and_ok answered (fun a => lift (let? value := to_json to_value a in Ok (Some value))).

(** [execute], once the client is there. *)
Definition execute_command (command : Command) : LedgerCode (ApiResult (option JsonValue)) :=
  match command with
  | Command_Asset (Register id class network native_id precision name) =>
      and_ok (ask (Op_register_asset (mkAssetDraft id class network native_id precision name))) (fun _ => lift (Ok None))
  | Command_Account (Open book path asset kind normal_side min_balance) =>
      and_ok (lift (transpose parse_side normal_side)) (fun normal_side =>
      and_ok (ask (Op_open_account (mkAccountDraft book path asset kind normal_side min_balance))) (fun _ => lift (Ok None)))
  | Command_Post book idem debit credit occurred_at metadata draft =>
      and_ok (lift (post_draft book idem debit credit occurred_at metadata draft)) (fun draft =>
      shown posted_to_value (ask (Op_post draft)))
  | Command_Balance book path as_of =>
      and_ok (lift (parse_as_of as_of)) (fun as_of => shown balance_to_value (ask (Op_balance book path as_of)))
  | Command_History book path after_seq limit =>
      shown history_to_value (ask (Op_account_history book path (mkPage after_seq limit)))
  | Command_Tx tx_id => shown transaction_to_value (ask (Op_transaction tx_id))
  | Command_TrialBalance book as_of =>
      and_ok (lift (parse_as_of as_of)) (fun as_of => shown trial_balance_to_value (ask (Op_trial_balance book as_of)))
  | Command_Tail _ _ => lift (Err (invalid "tail is a streaming command; call run()"))
  | Command_Completions _ | Command_Man _ => lift (Err (invalid "local command; call run()"))
  end.

(** ** Running *)

Section running.
Context `{UrlLib} `{!Reqwest} `{EventText}.
Context {W : Type}.
(** What a client does over the network, and the items of its subscriptions. *)
Variable api_of : TaleaClient -> Implementation W.
Variable subscribe_of : TaleaClient -> Book -> Seq -> W -> ApiResult (list (ApiResult EventEnvelope)) * W.

Definition build_client (cli : CliArgs) : ApiResult TaleaClient :=
  let b := retry RetryPolicy_default (timeout (from_secs (cli_timeout_secs cli)) (builder (cli_url cli))) in
  build (match cli_token cli with Some t => bearer_token t b | None => b end).

Definition execute (cli : CliArgs) (w : W) : option (ApiResult (option JsonValue) * W) :=
  match build_client cli with
  | Err e => Some (Err e, w)
  | Ok client => run (api_of client) (execute_command (cli_command cli)) w
  end.

(** A line printed. *)
Inductive Line := Stdout (line : string) | Stderr (line : string).

Definition tail_line (item : ApiResult EventEnvelope) : Line :=
  match item with
  | Ok env =>
      match envelope_to_json env with
      | Ok line => Stdout line
      | Err e => Stderr ("failed to serialize event envelope: " +:+ e)
      end
  | Err e =>
      match error_to_json e with
      | Ok line => Stderr line
      | Err ser => Stderr ("failed to serialize stream error: " +:+ ser)
      end
  end.

(** What the commands that need no server print, clap's texts. *)
Variable run_local : Command -> list Line * ApiResult unit.

(** [cli::run]: the lines, then the result. *)
Definition run_cli (cli : CliArgs) (w : W) : option ((list Line * ApiResult unit) * W) :=
  match cli_command cli with
  | Command_Completions _ | Command_Man _ => Some (run_local (cli_command cli), w)
  | Command_Tail book from =>
      match build_client cli with
      | Err e => Some (([], Err e), w)
      | Ok client =>
          let '(r, w') := subscribe_of client book from w in
          Some (match r with Ok items => (map tail_line items, Ok ()) | Err e => ([], Err e) end, w')
      end
  | _ =>
      '(r, w') ← execute cli w;
      Some (match r with
            | Err e => ([], Err e)
            | Ok None => ([], Ok ())
            | Ok (Some value) =>
                match value_pretty value with
                | Ok pretty => ([Stdout pretty], Ok ())
                | Err e => ([], Err (invalid ("serializing output: " +:+ e)))
                end
            end, w')
  end.

(** [main]: the lines and the exit code. *)
Definition main (cli : CliArgs) (w : W) : option ((list Line * Z) * W) :=
  '((lines, r), w') ← run_cli cli w;
  Some (match r with
        | Ok _ => (lines, 0)
        | Err e => (lines ++ [Stderr (match error_to_json e with Ok s => s | Err _ => api_error_debug e end)], 1)
        end, w').
End running.
End commands.

(** ** What a command asks for *)

(** The error an operation is answered with. *)
Definition answer_error (op : ApiOp) : answer op -> option ApiError :=
  match op return answer op -> option ApiError with
  | Op_post_batch _ => fun _ => None
  | _ => fun r => match r with Ok _ => None | Err e => Some e end
  end.

Section asking.
Context `{CliTexts}.
Variable read_stdin : result string string.
Variable read_to_string : string -> result string string.

(** Refused for its arguments, or an argument read. *)
Definition read_or_refused {A} (r : ApiResult A) : Prop := (exists reason, r = Err (invalid reason)) \/ exists a, r = Ok a.

Lemma read_map_err {A} (f : string -> string) (r : result A string) : read_or_refused (map_err (fun e => invalid (f e)) r).
Proof. destruct r; [right|left]; by eexists. Qed.

Lemma read_transpose {A B} (f : A -> ApiResult B) o : (forall a, read_or_refused (f a)) -> read_or_refused (transpose f o).
Proof. intros Hf. destruct o as [a|]; cbn; [|right; by eexists]. destruct (Hf a) as [[e ->]|[b ->]]; [left|right]; by eexists. Qed.

Lemma read_bind {A B} (r : ApiResult A) (k : A -> ApiResult B) :
  read_or_refused r -> (forall a, read_or_refused (k a)) -> read_or_refused (let? a := r in k a).
Proof. intros [[e ->]|[a ->]] Hk; [left; by eexists|apply Hk]. Qed.

Lemma read_side s : read_or_refused (parse_side s).
Proof. unfold parse_side. repeat case_match; try (by right; eexists). left. by eexists. Qed.

Lemma read_draft_or src : read_or_refused (read_draft read_stdin read_to_string src).
Proof. unfold read_draft. apply read_bind; [destruct (String.eqb src "-")|intros raw]; apply read_map_err. Qed.

Lemma post_draft_or book idem debit credit occurred_at metadata draft :
  read_or_refused (post_draft read_stdin read_to_string book idem debit credit occurred_at metadata draft).
Proof.
  unfold post_draft. apply read_bind; [apply read_transpose, read_draft_or|intros base].
  repeat (apply read_bind; [apply (read_map_err id) || apply read_map_err|intros ?]). apply (read_map_err id).
Qed.

(** One operation is asked for, and its error is the command's. *)
Definition asks_one (c : LedgerCode (ApiResult (option JsonValue))) : Prop :=
  exists op k, c = Ask op k /\ forall a, exists r, k a = Return r /\ forall e, answer_error op a = Some e -> r = Err e.

(** A command for the server is refused for its arguments and nothing is sent, or it
    asks for one operation and passes on the error it is answered with; the other
    commands are refused. *)
Theorem command_asks_once (command : Command) :
  let code := execute_command read_stdin read_to_string command in
  (exists reason, code = Return (Err (invalid reason))) \/ asks_one code.
Proof.
  assert (forall A (r : ApiResult A) (k : A -> LedgerCode (ApiResult (option JsonValue))),
            read_or_refused r -> (forall a, asks_one (k a)) ->
            (exists reason, and_ok (lift r) k = Return (Err (invalid reason))) \/ asks_one (and_ok (lift r) k)) as Hread.
  { intros A r k [[reason ->]|[a ->]] Hk; [left; by eexists|right; apply Hk]. }
  assert (forall op k, (forall a, exists r, k a = Return r /\ forall e, answer_error op a = Some e -> r = Err e) -> asks_one (Ask op k)) as Hask.
  { intros op k Hk. by exists op, k. }
  assert (forall s : option string, read_or_refused (parse_as_of s)) as Htime by (intros; apply (read_map_err id)).
  destruct command as [[]|[]| | | | | | | |]; cbn [execute_command].
  - right. apply Hask. intros [a|e]; eexists; (split; [reflexivity|]); cbn; congruence.
  - apply Hread; [apply read_transpose, read_side|]. intros side. apply Hask. intros [a|e]; eexists; (split; [reflexivity|]); cbn; congruence.
  - apply Hread; [apply post_draft_or|]. intros d. apply Hask. intros [a|e]; eexists; (split; [reflexivity|]); cbn; congruence.
  - apply Hread; [apply Htime|]. intros d. apply Hask. intros [a|e]; eexists; (split; [reflexivity|]); cbn; congruence.
  - right. apply Hask. intros [a|e]; eexists; (split; [reflexivity|]); cbn; congruence.
  - right. apply Hask. intros [a|e]; eexists; (split; [reflexivity|]); cbn; congruence.
  - apply Hread; [apply Htime|]. intros d. apply Hask. intros [a|e]; eexists; (split; [reflexivity|]); cbn; congruence.
  - left. by eexists.
  - left. by eexists.
  - left. by eexists.
Qed.

(** ** A post from its arguments *)

(** A posting as an argument of --debit or --credit. *)
Definition posting_arg (p : PostingDraft) : string :=
  pd_account p +:+ String ":" (wa_asset (pd_amount p) +:+ String ":" (i64_to_string (wa_minor (pd_amount p)))).

(** Accounts may have colons, assets may not. *)
Definition writable_posting (side : Direction) (p : PostingDraft) : Prop :=
  pd_direction p = side /\ pd_account p <> EmptyString /\ wa_asset (pd_amount p) <> EmptyString /\
  no_colon (wa_asset (pd_amount p)) /\ in_i64 (wa_minor (pd_amount p)) = true.

Lemma no_colon_cons a s : a <> ":"%char -> no_colon s -> no_colon (String a s).
Proof. unfold no_colon. intros Ha Hs. cbn. rewrite Hs. by apply Ascii.eqb_neq in Ha as ->. Qed.

Lemma digits_no_colon s : all_digits s -> no_colon s.
Proof. induction 1 as [|a s d Ha _ IH]; [done|]. apply no_colon_cons; [by intros ->|done]. Qed.

Lemma i64_no_colon z : in_i64 z = true -> no_colon (i64_to_string z).
Proof.
  intros Hz%in_i64_spec. unfold i64_min, i64_max in Hz. unfold i64_to_string. case_match; bool_to_prop.
  - apply no_colon_cons; [done|]. apply digits_no_colon, u64_to_string_digits. lia.
  - apply digits_no_colon, u64_to_string_digits. lia.
Qed.

Lemma posting_arg_read side p : writable_posting side p -> parse_posting (posting_arg p) side = Ok p.
Proof.
  intros (Hs & Hac & Has & Hn & Hm). apply parse_posting_exact.
  exists (pd_account p), (wa_asset (pd_amount p)), (i64_to_string (wa_minor (pd_amount p))), (wa_minor (pd_amount p)).
  split_and!; try done; [by apply i64_no_colon|by apply parse_i64_to_string|]. subst side. by destruct p as [? [] ?].
Qed.

Lemma collect_args side l :
  Forall (writable_posting side) l -> collect (fun s => parse_posting s side) (map posting_arg l) = Ok l.
Proof. induction 1 as [|p l Hp _ IH]; [done|]. cbn [map collect]. by rewrite posting_arg_read, IH. Qed.

(** The arguments of [talea post] for a draft's postings make that draft. *)
Lemma post_draft_read book idem debits credits :
  book <> EmptyString -> idem <> EmptyString -> debits ++ credits <> [] ->
  Forall (writable_posting Debit) debits -> Forall (writable_posting Credit) credits ->
  post_draft read_stdin read_to_string (Some book) (Some idem) (map posting_arg debits) (map posting_arg credits) None None None =
    Ok (mkTransactionDraft book idem (debits ++ credits) [] "null" None).
Proof.
  intros Hb Hi Hne Hd Hc. apply String.eqb_neq in Hb, Hi. unfold post_draft. cbn [transpose].
  rewrite (collect_args _ _ Hd), (collect_args _ _ Hc). cbn [map_err]. unfold build_draft.
  cbn [default from_option id td_book td_idempotency_key td_postings td_external_refs td_metadata td_occurred_at].
  rewrite Hb, Hi. destruct debits, credits; done.
Qed.
End asking.

(** ** Over the network *)

Section over_http.
Context {S : Type} `{Store S} `{HashIter} `{Texts} `{EventText} `{ClientText} `{Answers} `{UrlLaws} `{!Reqwest} `{QueryLaws} `{CliTexts}.
Context `{SerdeLaws AssetDraft} `{SerdeLaws AccountDraft} `{SerdeLaws TransactionDraft} `{SerdeLaws (list TransactionDraft)}.
Variable submit_all : list Transaction -> S -> list (result Committed SubmitError) * S.
Variable stamps : nat -> nat -> TxId * DateTime.
Variable store_subscribe : Book -> Seq -> S -> list (result (Sequenced LedgerEvent) StoreError).
Variable batch_max : Z.
Variable auth : AuthConfig.
Variable body_text : Body -> string.
Variable unrouted : Routed -> HttpResponse.
Variable scope : TokenScope.
Context `{!AnswerLaws body_text}.
Variable read_stdin : result string string.
Variable read_to_string : string -> result string string.

Definition http_api : TaleaClient -> Implementation (Net S) := client_api submit_all stamps store_subscribe batch_max auth body_text unrouted.

(** C38: [talea post] with a book, a key and an argument for each posting posts
    exactly that draft: over a network that delivers, with a token that may do
    everything, a body within the server's cap and an answer that does not ask to
    come back, the ledger is left as the service leaves it, and the command shows
    the service's posting or gives its error. *)
Theorem talea_post_posts (cli : CliArgs) (client : TaleaClient) (book idem : string) (debits credits : list PostingDraft) (n : nat) (s : S) :
  cli_command cli = Command_Post (Some book) (Some idem) (map posting_arg debits) (map posting_arg credits) None None None ->
  build_client cli = Ok client -> address (tc_base client) ->
  require_bearer auth (authorization client) = Ok scope -> full_rights scope ->
  (forall s, submit_all [] s = ([], s)) ->
  book <> EmptyString -> idem <> EmptyString -> debits ++ credits <> [] ->
  Forall (writable_posting Debit) debits -> Forall (writable_posting Credit) credits ->
  let draft := mkTransactionDraft book idem (debits ++ credits) [] "null" None in
  fits (to_body draft) ->
  let '(r, s') := service_answer submit_all stamps n (Op_post draft) s in
  again r = false ->
  execute read_stdin read_to_string http_api cli (mkNet [] n s) =
    Some (let? posted := r in let? value := to_json posted_to_value posted in Ok (Some value), mkNet [] (Datatypes.S n) s').
Proof.
  intros Hcmd Hbuild Haddr Hscope Hrights Hnothing Hb Hi Hne Hd Hc draft Hfits.
  pose proof (client_op_once submit_all stamps store_subscribe batch_max auth body_text unrouted client Haddr scope Hrights Hscope Hnothing
                (Op_post draft) n s Hfits) as Hop.
  destruct (service_answer submit_all stamps n (Op_post draft) s) as [r s']. intros Hr.
  unfold execute. rewrite Hbuild, Hcmd. cbn [execute_command]. rewrite post_draft_read by done. fold draft.
  cbn [and_ok lift and_then shown ask run]. unfold http_api. rewrite (Hop (or_introl Hr)). cbn [mbind option_bind requests].
  rewrite Nat.add_1_r. by destruct r.
Qed.
End over_http.
