(* ===== verification/SqliteClient.v ===== *)
(** The SQLite store behind the HTTP server: an instance of the [Store] trait and
    of the promise the client's exactly-once theorem needs, and that theorem at
    a concrete run. *)

From S2P Require Import Prelude Decimal Core Disk Frame Sql Sqlite SqliteSpec SqliteCommit SqliteHistory SqliteBatch SqliteReads SqliteDemo.
From S2P Require Import Api Service Http Client ClientSpec EventCodec.
Open Scope Z_scope.

Section instance.
Context `{HashIterLaws} `{UuidTextLaws} `{Json LedgerEvent} `{!JsonLaws LedgerEvent} `{Json (list ExternalRef)}.

(** An operation's result.  A panic takes the request's task with it and leaves
    no answer. *)
Definition answered {A} (m : sq A) (s : Conn) : result A StoreError * Conn :=
  match m s with
  | (Done a, s') => (Ok a, s')
  | (Fail e, s') => (Err (to_store_error e), s')
  | (Panicked, s') => (Err (Io "the task panicked"), s')
  end.

Definition answered_batch (txs : list Transaction) (s : Conn) : list (result Committed StoreError) * Conn :=
  match commit_batch txs s with
  | (Done rs, s') => (map (map_err to_store_error) rs, s')
  | (_, s') => ([], s')
  end.

#[export] Instance sqlite_store : Store Conn := {|
  store_register_asset asset := answered (Sqlite.register_asset asset);
  store_open_account def cfg := answered (Sqlite.open_account def cfg);
  store_commit_batch := answered_batch;
  store_balance a as_of := answered (Sqlite.balance a as_of);
  store_asset id := answered (Sqlite.asset id);
  store_account_history a after limit := answered (Sqlite.account_history a after limit);
  store_transaction id := answered (Sqlite.transaction id);
  store_trial_balance book as_of := answered (Sqlite.trial_balance book as_of)
|}.

(** The router's answers when each transaction is alone in its batch, on a
    backend that does not fail. *)
Fixpoint sqlite_submit_all (txs : list Transaction) (s : Conn) : list (result Committed SubmitError) * Conn :=
  match txs with
  | [] => ([], s)
  | tx :: txs =>
      let '(r, s1) := submit_alone tx (set_script [] s) in
      let '(rs, s2) := sqlite_submit_all txs s1 in (r :: rs, s2)
  end.

(** A draft that panics panics in its batch. *)
Lemma panic_in_batch h tx s :
  script s = [] -> db_ok (committed s) h -> (commit tx s).1 = Panicked -> (commit_batch [tx] s).1 = Panicked.
Proof.
  intros Hs Hdb Hp. unfold commit, begin_write, checked in Hp. unfold commit_batch. rewrite begin_healthy by done.
  set (b := set_saves _ _). cbn [commit_drafts]. unfold sq_bind, sq_try, commit_in_savepoint.
  destruct (is_reserved (tx_book tx)); [done|]. unfold sq_bind, sq_try, checked in *. rewrite begin_healthy in Hp by done.
  rewrite savepoint_healthy by done. fold b in Hp. set (b1 := set_saves _ b).
  destruct (oblivious_commit_draft tx b1 b) as [Ho _]; [by split|].
  destruct (commit_draft_healthy h tx b Hs Hdb) as (evs & Hspec & _). pose proof (local_commit_draft tx b) as Hl.
  destruct (commit_draft tx b) as [o b2] eqn:Ed. destruct (commit_draft tx b1) as [o' b3]. cbn [fst snd] in *. subst o'.
  destruct o as [c|e|]; [| |done].
  - unfold db_commit, checked in Hp. rewrite commit_stmt_healthy in Hp by (by apply Hl). done.
  - exfalso. destruct (is_unique_violation e); [|done]. rewrite begin_healthy in Hp by (by apply Hl).
    rewrite (find_committed_healthy h) in Hp; [|by apply Hl|cbn; rewrite (lo_committed _ _ Hl); apply Hdb].
    cbn in Hp. repeat case_match; done.
Qed.

(** A transaction alone in its batch: its event on success, nothing on an error. *)
Lemma submit_alone_sqlite h tx s :
  script s = [] -> db_ok (committed s) h ->
  exists evs, db_ok (committed (submit_alone tx s).2) (h ++ evs) /\
    match (submit_alone tx s).1 with Ok c => draft_spec h tx (now s) (Some c) evs | Err _ => evs = [] end.
Proof.
  intros Hs Hdb. unfold submit_alone. cbn [store_commit_batch sqlite_store]. unfold answered_batch.
  destruct (panicked (commit tx s).1) eqn:Hpan.
  - assert ((commit tx s).1 = Panicked) as Hp by (by destruct (commit tx s).1).
    pose proof (panic_in_batch h tx s Hs Hdb Hp) as Hb. pose proof (batch_run h [tx] s Hdb) as Hr. rewrite Hb in Hr.
    destruct (commit_batch [tx] s) as [o s1]. cbn [fst snd] in *. subst o. exists []. cbn [fst snd]. by rewrite app_nil_r, Hr.
  - assert (forallb (fun o => negb (panicked o)) (commit_each [tx] s).1 = true) as Hnp.
    { cbn [commit_each]. destruct (commit tx s) as [o s1]. cbn in *. by rewrite Hpan. }
    destruct (batch_sequential h [tx] s Hdb Hs Hnp) as (Hr & Hc & _).
    destruct (commit_run h tx s Hdb) as (evs & Hdb1 & _ & Hspec).
    cbn [commit_each] in *. destruct (commit tx s) as [o s1]. cbn [fst snd map] in *.
    destruct (commit_batch [tx] s) as [o2 s2]. cbn [fst snd] in *. subst o2. cbn [map fst snd]. exists evs. rewrite Hc. split; [done|].
    by destruct o.
Qed.

(** What the tables hold under a key. *)
Definition sqlite_committed_as (s : Conn) (b : Book) (k : string) : option Committed :=
  match (find_committed b k (set_script [] (set_work (committed s) s))).1 with Done o => o | _ => None end.

Lemma committed_as_prior h s b k :
  db_ok (committed s) h -> sqlite_committed_as s b k = (e ← prior h b k; committed_of e).
Proof. intros Hdb. unfold sqlite_committed_as. rewrite (find_committed_healthy h); [done|done|apply Hdb]. Qed.

#[export] Instance sqlite_keyed : KeyedStore Conn (submit sqlite_submit_all).
Proof.
  refine {| keyed_ok s := exists h, db_ok (committed s) h; committed_as := sqlite_committed_as |}.
  intros tx s [h Hdb]. unfold submit. cbn [sqlite_submit_all].
  destruct (submit_alone_sqlite h tx (set_script [] s) eq_refl Hdb) as (evs & Hdb1 & Hc).
  destruct (submit_alone tx (set_script [] s)) as [r s1]. cbn [head default from_option id fst snd] in *. split; [by exists (h ++ evs)|]. split.
  - intros c ->. destruct (draft_on_record _ _ _ _ _ _ Hc) as (e & He & Hce). rewrite (committed_as_prior _ _ _ _ Hdb1), He. exact Hce.
  - intros b k c. rewrite (committed_as_prior _ _ _ _ Hdb), (committed_as_prior _ _ _ _ Hdb1), prior_app.
    by destruct (prior h b k).
Defined.
End instance.

(** ** A sale over a bad connection *)

Section client_demo.
Import SqliteDemo.

#[local] Instance plain_texts : Texts := {|
  uuid_to_string := u64_to_string;
  uuid_parse := fun s => ok_or (parse_u64 s) "invalid character"%string;
  debug_str := fun s => s;
  event_to_value := fun e => Ok (LedgerEvent_kind e)
|}.

(** JSON texts: the bits of a value's encoding. *)
Definition text_of {A} `{Countable A} (a : A) : string := bits_text (encode a).
Definition of_text {A} `{Countable A} (s : string) : result A string := ok_or (decode (text_bits s)) "invalid"%string.

Lemma of_text_of {A} `{Countable A} (a : A) : of_text (text_of a) = Ok a.
Proof. unfold of_text, text_of. by rewrite text_bits_text, decode_encode. Qed.

Definition posted_fields (p : Posted) : string * Z * Z * bool := (po_tx_id p, po_seq p, po_at p, deduplicated p).
Definition posted_of_fields (f : string * Z * Z * bool) : Posted := let '(id, seq, at_, d) := f in mkPosted id seq at_ d.

Definition envelope_fields (e : EventEnvelope) : Z * Z * string * string := (ee_seq e, ee_at e, ee_kind e, ee_payload e).
Definition envelope_of_fields (f : Z * Z * string * string) : EventEnvelope := let '(seq, at_, k, p) := f in mkEventEnvelope seq at_ k p.

Definition demo_body_text (b : Body) : string :=
  match b with
  | Posted_body p => text_of (posted_fields p)
  | Error_body e => text_of (error_fields e)
  | Text_body s => s
  | _ => EmptyString
  end.

Definition demo_posted_of_json (s : string) : result Posted string := let? f := of_text s in Ok (posted_of_fields f).

#[local] Instance demo_event_text : EventText := {|
  envelope_to_json := fun e => Ok (text_of (envelope_fields e));
  error_to_json := fun e => Ok (text_of (error_fields e))
|}.

#[local] Instance demo_client_text : ClientText := {|
  error_of_json := fun s => let? f := of_text s in error_of_fields f;
  envelope_of_json := fun s => let? f := of_text s in Ok (envelope_of_fields f);
  batch_of_json := fun s => Err "expected an array"%string;
  status_to_string := i64_to_string
|}.

Lemma demo_posted_text p : demo_posted_of_json (demo_body_text (Posted_body p)) = Ok p.
Proof. unfold demo_posted_of_json. cbn [demo_body_text]. rewrite of_text_of. by destruct p. Qed.

Lemma demo_error_text e : error_of_json (demo_body_text (Error_body e)) = Ok e.
Proof. cbn [error_of_json demo_client_text demo_body_text]. rewrite of_text_of. by destruct e. Qed.

Lemma demo_envelope_text env data : envelope_to_json env = Ok data -> envelope_of_json data = Ok env.
Proof. cbn. intros [= <-]. rewrite of_text_of. by destruct env. Qed.

Definition order_draft : TransactionDraft :=
  mkTransactionDraft "shop" "order-1"
    [mkPostingDraft "cash" (mkWireAmount 50 "USD") Debit; mkPostingDraft "sales" (mkWireAmount 50 "USD") Credit] [] "null" None.

(** The server's answer is lost, then the repeated request is. *)
Definition bad_net : Net Conn := mkNet [Answer_lost "reset"; Request_lost "refused"] 0 shop.

Definition demo_stamps : nat -> nat -> TxId * DateTime := fun n i => (Z.of_nat (100 + n + i), 1000).

Definition demo_subscribe : Book -> Seq -> Conn -> list (result (Sequenced LedgerEvent) StoreError) := fun _ _ _ => [].

Definition demo_post : option (ApiResult Posted * Net Conn) :=
  client_post sqlite_submit_all demo_stamps demo_subscribe 500 [] None RetryPolicy_default demo_body_text demo_posted_of_json order_draft bad_net.

Lemma client_post_exactly_once_witness :
  keyed_ok (net_server bad_net) /\
  exists r net', demo_post = Some (r, net') /\
    ((exists message, r = Err (Api_Transport message)) \/
     exists n s, server_post sqlite_submit_all demo_stamps [] None n order_draft s = (r, net_server net')) /\
    (forall p, r = Ok p ->
       exists c, committed_as (net_server net') "shop" "order-1" = Some c /\
         po_tx_id p = uuid_to_string (c_txid c) /\ po_seq p = c_seq c /\ po_at p = c_at c) /\
    (forall b k c, committed_as (net_server bad_net) b k = Some c -> committed_as (net_server net') b k = Some c).
Proof.
  assert (keyed_ok (net_server bad_net)) as Hok by (exists shop_history; exact (proj1 shop_ok)).
  split; [exact Hok|].
  exact (client_post_exactly_once sqlite_submit_all demo_stamps demo_subscribe 500 [] None RetryPolicy_default
           demo_body_text demo_posted_of_json demo_posted_text demo_error_text order_draft bad_net Hok).
Defined.

(** What the client gets in the end: the posting of the first request. *)
Example order_posted :
  (fun r => (r.1, net_requests r.2)) <$> demo_post = Some (Ok (mkPosted "100" 3 3000000 true), 2%nat).
Proof. vm_compute. reflexivity. Qed.

(** A subscription from event 2 on over three connections. *)
Definition book_log : list EventEnvelope :=
  [mkEventEnvelope 1 0 "account_opened" "a"; mkEventEnvelope 2 0 "account_opened" "b"; mkEventEnvelope 3 9 "transaction_posted" "c"].

Definition bad_connections : list Attempt := [Streams (take 2 book_log) None 5 (Some "reset"%string); Fails "refused"].

Lemma subscription_resumes_witness :
  Forall (of_log book_log) bad_connections /\
  oks (client_subscribe RetryPolicy_default (connect demo_body_text) 3 2 (bad_connections ++ [Streams book_log None 3 None])).1.1 =
    filter (fun env => 2 <= ee_seq env) book_log.
Proof.
  assert (Forall (of_log book_log) bad_connections) as Hlog.
  { constructor; [by exists (drop 2 book_log)|]. by repeat constructor. }
  assert (numbered book_log) as Hnum.
  { split; [reflexivity|]. intros i env Hi. destruct i as [|[|[|i]]]; cbn in Hi; by simplify_eq. }
  split; [exact Hlog|].
  refine (proj2 (subscription_resumes RetryPolicy_default demo_body_text demo_envelope_text book_log 2 bad_connections 0 Hnum _ Hlog) 3%nat None _ _ _).
  - unfold i64_min, i64_max. lia.
  - cbn. lia.
  - by repeat constructor.
  - vm_compute. reflexivity.
Defined.

Lemma overload_ends_subscription_witness :
  client_subscribe RetryPolicy_default (connect demo_body_text) 5 2
    [Answered (handle_middleware_error LoadShed); Streams book_log None 3 None] =
    ([Err Api_Overloaded], true, [Streams book_log None 3 None]).
Proof. apply (overload_ends_subscription RetryPolicy_default demo_body_text 2 [Streams book_log None 3 None] 4 demo_error_text). Defined.
End client_demo.
