(* ===== verification/InitDemo.v ===== *)
(** Seeding the SQLite store: on a backend that does not fail it is a store a seed
    can be applied to twice, and a seed file applied to an empty ledger.  Then the
    daemon on concrete inputs: [talead init] and [talead serve] with a reader of
    environment files that knows only plain lines, a seed file, and the SQLite store's
    tables in memory; and an environment file that was written in part. *)

From Stdlib Require Import Strings.Byte.
From S2P Require Import Prelude Decimal Core Disk Frame LogOpen Api Service Router Sql Sqlite SqliteSpec SqliteCommit.
From S2P Require Import SqliteHistory SqliteBatch SqliteReads SqliteDemo Http Config Seed Startup Init SqliteClient.
Open Scope Z_scope.

Section instance.
Context `{HashIterLaws} `{UuidTextLaws} `{Json LedgerEvent} `{!JsonLaws LedgerEvent} `{Json (list ExternalRef)}.

(** An operation on a backend that does not fail. *)
Definition healthy {A} (m : sq A) (s : Conn) : result A StoreError * Conn := answered m (set_script [] s).

#[local] Instance healthy_sqlite : Store Conn := {|
  store_register_asset asset := healthy (Sqlite.register_asset asset);
  store_open_account def cfg := healthy (Sqlite.open_account def cfg);
  store_commit_batch txs s := answered_batch txs (set_script [] s);
  store_balance a as_of := healthy (Sqlite.balance a as_of);
  store_asset id := healthy (Sqlite.asset id);
  store_account_history a after limit := healthy (Sqlite.account_history a after limit);
  store_transaction id := healthy (Sqlite.transaction id);
  store_trial_balance book as_of := healthy (Sqlite.trial_balance book as_of)
|}.

(** What the tables define. *)
Definition table_asset (s : Conn) (d : AssetDef) : Prop :=
  0 <= asset_precision d < 256 /\ t_assets (committed s) !! asset_id d = Some (asset_row d).
Definition table_account (s : Conn) (d : AccountDef) (c : AccountCfg) : Prop :=
  is_reserved (acct_book (acct_id d)) = false /\ is_Some (t_assets (committed s) !! acct_asset d) /\
  t_accounts (committed s) !! to_key (acct_id d) = Some (accounts_row d c).

Lemma definitions_kept h evs s s' :
  db_ok (committed s) h -> db_ok (committed s') (h ++ evs) ->
  (forall d, table_asset s d -> table_asset s' d) /\ (forall d c, table_account s d c -> table_account s' d c).
Proof.
  intros Hdb Hdb'.
  assert (forall id r, t_assets (committed s) !! id = Some r -> t_assets (committed s') !! id = Some r) as Hassets.
  { intros id r. rewrite (do_assets _ _ Hdb), (do_assets _ _ Hdb'), registered_app. by destruct (registered h id). }
  split; [intros d [Hp Hd]; split; auto|]. intros d c (Hr & [r Ha] & Hd). split; [done|]. split; [exists r; by apply Hassets|].
  revert Hd. rewrite (do_accounts _ _ Hdb), (do_accounts _ _ Hdb'), opened_app. by destruct (opened h _).
Qed.

Lemma asset_healthy id s : answered (Sqlite.asset id) (set_script [] s) =
  (Ok (decode_asset id <$> t_assets (committed s) !! id), set_script [] s).
Proof. reflexivity. Qed.

Lemma open_again h d c s :
  db_ok (committed s) h -> script s = [] -> is_reserved (acct_book (acct_id d)) = false ->
  is_Some (t_assets (committed s) !! acct_asset d) -> t_accounts (committed s) !! to_key (acct_id d) = Some (accounts_row d c) ->
  (Sqlite.open_account d c s).1 = Done ().
Proof.
  intros Hdb Hs Hres [ar Ha] Hacc. rewrite open_account_eq. cbn zeta. rewrite Hres.
  unfold sq_bind at 1, begin_write, checked. rewrite begin_healthy by done.
  unfold sq_bind at 1. rewrite stmt_healthy by done. cbn [work set_work set_saves]. rewrite Ha.
  unfold sq_bind at 1. rewrite stmt_healthy by done. cbn [work set_work set_saves]. rewrite Hacc.
  by rewrite same_account_spec, bool_decide_true.
Qed.

#[local] Instance sqlite_definitions : Definitions Conn.
Proof.
  refine {| def_ok s := exists h, db_ok (committed s) h; has_asset := table_asset; has_account := table_account |}; cbn [store_asset store_register_asset store_open_account healthy_sqlite]; unfold healthy.
  - intros id s [h Hdb]. rewrite asset_healthy. split; [split; [by exists h|]; done|]. intros d [= Hd].
    rewrite (do_assets _ _ Hdb) in Hd. destruct (registered h id) as [d'|] eqn:Er; [|done]. injection Hd as Hd.
    pose proof (registered_id _ _ _ Er) as Hid. pose proof (ho_precision _ (do_history _ _ Hdb) _ _ Er) as Hp.
    rewrite <- Hid in Hd. rewrite (decode_asset_row _ Hp) in Hd. subst d'. split; [done|]. split; [done|].
    by rewrite (do_assets _ _ Hdb), Hid, Er.
  - intros d s _ [Hp Hd]. rewrite asset_healthy. cbn. rewrite Hd. cbn. by rewrite decode_asset_row.
  - intros d s [h Hdb] Hp. unfold answered. pose proof (register_asset_healthy h d (set_script [] s) Hdb eq_refl Hp) as Hr.
    destruct (register_spec h d (now (set_script [] s))) as [r evs] eqn:Es. destruct (Sqlite.register_asset d _) as [[[]|e|] s']; [|done..].
    intros _. destruct Hr as (-> & Hdb' & _). split; [split; [by eexists|]; by apply (definitions_kept h evs)|]. split; [done|].
    rewrite (do_assets _ _ Hdb'), registered_app. unfold register_spec in Es. destruct (registered h (asset_id d)) as [existing|] eqn:Er.
    + case_bool_decide; by simplify_eq.
    + injection Es as <-. unfold registered. cbn. unfold asset_of. cbn. by case_decide.
  - intros d c s [h Hdb]. unfold answered. pose proof (open_account_healthy h d c (set_script [] s) Hdb eq_refl) as Hr.
    destruct (open_spec h d c (now (set_script [] s))) as [r evs] eqn:Es. destruct (Sqlite.open_account d c _) as [[[]|e|] s']; [|done..].
    intros _. destruct Hr as (-> & Hdb' & _). split; [split; [by eexists|]; by apply (definitions_kept h evs)|].
    unfold open_spec in Es. destruct (is_reserved _) eqn:Eres; [done|]. destruct (registered h (acct_asset d)) as [ad|] eqn:Er; [|done].
    split; [done|]. split; [rewrite (do_assets _ _ Hdb'), registered_app, Er; by eexists|].
    rewrite (do_accounts _ _ Hdb'), opened_app. destruct (opened h (to_key (acct_id d))) as [[d' c']|] eqn:Eo.
    + case_bool_decide as Hsame; [|done]. by destruct Hsame as [-> ->].
    + injection Es as <-. unfold opened. cbn. unfold account_of. cbn. by case_decide.
  - intros d c s [h Hdb] (Hres & Hasset & Hacc). unfold answered.
    pose proof (open_again h d c (set_script [] s) Hdb eq_refl Hres Hasset Hacc) as Hr.
    destruct (Sqlite.open_account d c _) as [o s']. cbn [fst] in Hr. by subst o.
Defined.
End instance.

(** ** A seed, applied to an empty ledger and again *)

Section seed_demo.
Import SqliteDemo.
#[local] Existing Instance healthy_sqlite.
#[local] Existing Instance sqlite_definitions.
#[local] Existing Instance plain_texts.

Definition shop_seed : SeedFile :=
  mkSeedFile [mkSeedAsset "USD" Fiat 2 "US dollar"]
    [mkSeedAccount "shop" "cash" "USD" Asset (Some 0) (Some Debit); mkSeedAccount "shop" "sales" "USD" Income None (Some Credit)].

Lemma seed_applied : (apply shop_seed fresh).1 = Ok (mkApplySummary 1 0 2).
Proof. vm_compute. reflexivity. Qed.

Lemma seed_apply_idempotent_witness :
  (apply shop_seed fresh).1 = Ok (mkApplySummary 1 0 2) /\
  exists s2, apply shop_seed (apply shop_seed fresh).2 = (Ok (mkApplySummary 0 1 2), s2).
Proof.
  split; [exact seed_applied|].
  assert (def_ok fresh) as Hok by (exists []; exact db_ok_empty).
  assert (seed_width shop_seed) as Hw by (repeat constructor; cbn; lia).
  assert (apply shop_seed fresh = (Ok (mkApplySummary 1 0 2), (apply shop_seed fresh).2)) as Ha.
  { rewrite <- seed_applied. by destruct (apply shop_seed fresh). }
  destruct (seed_apply_idempotent shop_seed (mkApplySummary 1 0 2) fresh (apply shop_seed fresh).2 Hok Hw Ha) as (_ & _ & s2 & H2 & _).
  exists s2. exact H2.
Defined.
End seed_demo.

(** ** A reader of plain lines *)

Section plain_reader.
Definition newline_char : ascii := "010"%char.

Fixpoint split_on (c : ascii) (s : string) : list string :=
  match s with
  | EmptyString => [EmptyString]
  | String a s =>
      if Ascii.eqb a c then EmptyString :: split_on c s
      else match split_on c s with l :: ls => String a l :: ls | [] => [] end
  end.

Fixpoint split_first (c : ascii) (s : string) : option (string * string) :=
  match s with
  | EmptyString => None
  | String a s =>
      if Ascii.eqb a c then Some (EmptyString, s)
      else match split_first c s with Some (k, v) => Some (String a k, v) | None => None end
  end.

Definition read_line (l : string) : result (list (string * string)) string :=
  match l with
  | EmptyString => Ok []
  | String a _ => if Ascii.eqb a "#" then Ok [] else ok_or ((fun kv => [kv]) <$> split_first "=" l) "no assignment"%string
  end.

Fixpoint read_lines (ls : list string) : result (list (string * string)) string :=
  match ls with
  | [] => Ok []
  | l :: ls => let? kv := read_line l in let? kvs := read_lines ls in Ok (kv ++ kvs)%list
  end.

#[local] Instance plain_dotenv : DotEnv := fun text => read_lines (split_on newline_char text).

Definition is_not (c : ascii) (a : ascii) : bool := negb (Ascii.eqb a c).

Lemma split_on_app c s rest : all_chars (is_not c) s = true -> split_on c (s +:+ String c rest) = s :: split_on c rest.
Proof.
  unfold is_not. induction s as [|a s IH]; cbn; [by rewrite Ascii.eqb_refl|].
  intros [Ha%negb_true_iff Hs]%andb_true_iff. by rewrite Ha, IH.
Qed.

Lemma split_first_app c k v : all_chars (is_not c) k = true -> split_first c (k +:+ String c v) = Some (k, v).
Proof.
  unfold is_not. induction k as [|a k IH]; cbn; [by rewrite Ascii.eqb_refl|].
  intros [Ha%negb_true_iff Hk]%andb_true_iff. by rewrite Ha, IH.
Qed.

Lemma all_chars_app p s t : all_chars p (s +:+ t) = all_chars p s && all_chars p t.
Proof. induction s as [|a s IH]; cbn; [done|]. by rewrite IH, andb_assoc. Qed.

Lemma no_newline a : unquoted a = true -> is_not newline_char a = true.
Proof. destruct a as [[] [] [] [] [] [] [] []]; vm_compute; done. Qed.
Lemma value_unquoted a : value_char a = true -> unquoted a = true.
Proof. destruct a as [[] [] [] [] [] [] [] []]; vm_compute; done. Qed.
Lemma key_unquoted a : key_char a = true -> unquoted a = true.
Proof. destruct a as [[] [] [] [] [] [] [] []]; vm_compute; done. Qed.
Lemma key_no_equals a : key_char a = true -> is_not "=" a = true.
Proof. destruct a as [[] [] [] [] [] [] [] []]; vm_compute; done. Qed.
Lemma key_no_hash a : key_char a = true -> Ascii.eqb a "#" = false.
Proof. destruct a as [[] [] [] [] [] [] [] []]; vm_compute; done. Qed.

Lemma line_no_newline l : plain_line l = true -> all_chars (is_not newline_char) (line_text l) = true.
Proof.
  destruct l as [k v|t]; cbn [plain_line line_text].
  - intros [[_ Hk]%andb_true_iff Hv]%andb_true_iff. rewrite !all_chars_app.
    rewrite (all_chars_weaken key_char _ _ (fun a Ha => no_newline a (key_unquoted a Ha)) Hk).
    by rewrite (all_chars_weaken value_char _ _ (fun a Ha => no_newline a (value_unquoted a Ha)) Hv).
  - intros Ht. cbn. by apply (all_chars_weaken unquoted); [apply no_newline|].
Qed.

Lemma read_plain_line l : plain_line l = true -> read_line (line_text l) = Ok (match assignment l with Some kv => [kv] | None => [] end).
Proof.
  destruct l as [k v|t]; cbn [plain_line line_text assignment]; [|done].
  intros [[Hne Hk]%andb_true_iff _]%andb_true_iff. destruct k as [|a k]; [done|].
  pose proof (split_first_app "=" (String a k) v (all_chars_weaken _ _ _ key_no_equals Hk)) as E.
  cbn in Hk. apply andb_true_iff in Hk as [Ha Hk]. cbn [String.append] in *. unfold read_line. by rewrite (key_no_hash _ Ha), E.
Qed.

#[local] Instance plain_dotenv_laws : DotEnvLaws.
Proof.
  intros ls. unfold dotenv_iter, plain_dotenv. induction ls as [|l ls IH]; [done|]. cbn [forallb].
  intros [Hl Hls]%andb_true_iff. change (document (l :: ls)) with (line_text l +:+ String newline_char (document ls)).
  rewrite split_on_app by by apply line_no_newline. cbn [read_lines]. rewrite read_plain_line, (IH Hls) by done. by destruct l.
Qed.
End plain_reader.

(** ** Init and serve *)

Section init_demo.
Import SqliteDemo.
#[local] Existing Instance healthy_sqlite.
#[local] Existing Instance sqlite_definitions.
#[local] Existing Instance plain_texts.
#[local] Existing Instance plain_dotenv.
#[local] Existing Instance plain_dotenv_laws.

(** Two hexadecimal digits a byte, high nibble first. *)
Definition hex_digit (n : N) : ascii := ascii_of_N (if (n <? 10)%N then 48 + n else 87 + n).
#[local] Instance two_digits : Hex :=
  fun l => foldr (fun b acc => String (hex_digit (Byte.to_N b / 16)) (String (hex_digit (Byte.to_N b mod 16)) acc)) EmptyString l.

#[local] Instance two_digits_laws : HexLaws.
Proof.
  intros l. unfold hex_encode, two_digits. induction l as [|b l IH]; [done|]. cbn [foldr all_chars]. rewrite IH.
  by destruct b.
Qed.

(** A parser that knows one seed file. *)
#[local] Instance shop_toml : SeedToml := fun text => if String.eqb text "shop" then Ok shop_seed else Err "not a seed file"%string.

(** Connecting and migrating does not fail and keeps the tables. *)
Definition open_tables (o : Opening) (s : Conn) : result unit string * Conn := (Ok (), s).

Definition shop_opts : InitOpts := mkInitOpts "sqlite://talea.db" None ".env" false.
Definition shop_files : gmap string string := {["talea.seed.toml" := "shop"]}%string.
Definition no_env : Lookup := fun _ => None.
Definition zeros : list byte := replicate 32 x00.
Definition ones : list byte := replicate 32 xff.
Definition first_run := run_init open_tables no_env shop_opts zeros no_faults shop_files fresh.

Lemma init_twice_witness :
  exists s2, run_init open_tables no_env shop_opts ones no_faults first_run.1.2 first_run.2 =
    (Ok (mkInitReport (Some (mkApplySummary 0 1 2)) KeptExisting), first_run.1.2, s2).
Proof.
  assert (first_run = (Ok (mkInitReport (Some (mkApplySummary 1 0 2)) Written), first_run.1.2, first_run.2)) as Hrun by (vm_compute; reflexivity).
  assert (def_ok fresh) as Hok by (exists []; exact db_ok_empty).
  destruct (init_twice open_tables (fun o s Hs => def_keeps_refl s Hs) no_env shop_opts zeros ones no_faults shop_files
              first_run.1.2 fresh first_run.2 (mkInitReport (Some (mkApplySummary 1 0 2)) Written) Hok) as (seed & s2 & Hr & _).
  - intros text seed. unfold seed_toml, shop_toml. destruct (String.eqb _ _); [|done]. intros [= <-]. repeat constructor; cbn; lia.
  - done.
  - exact Hrun.
  - done.
  - exists s2. assert ((run_init open_tables no_env shop_opts ones no_faults first_run.1.2 first_run.2).1.1 =
      Ok (mkInitReport (Some (mkApplySummary 0 1 2)) KeptExisting)) as Hs by (vm_compute; reflexivity).
    change (mkInitOpts _ _ _ false) with shop_opts in Hr. rewrite Hr in Hs. cbn in Hs. injection Hs as ->. exact Hr.
Defined.

#[local] Instance no_toml : Toml := fun _ => Err "not a tokens file"%string.
Definition no_file (path : string) : result string string := Err "No such file or directory (os error 2)"%string.

Lemma serve_starts_what_init_set_up_witness :
  exists c, serve_config any_addr first_run.1.2 no_env = Ok c /\
    db_url c = "sqlite://talea.db"%string /\ api_token c = Some (generate_token zeros) /\
    server_opening c = Ok (Open_sqlite "sqlite://talea.db" (Some 10), "sqlite"%string).
Proof.
  assert (first_run = (Ok (mkInitReport (Some (mkApplySummary 1 0 2)) Written), first_run.1.2, first_run.2)) as Hrun by (vm_compute; reflexivity).
  destruct (serve_starts_what_init_set_up any_addr open_tables no_file shop_opts zeros no_faults no_env shop_files
              first_run.1.2 fresh first_run.2 _ Hrun eq_refl eq_refl) as [Hok Hc].
  specialize (Hok (fun _ => eq_refl) eq_refl). destruct (serve_config any_addr first_run.1.2 no_env) as [c|] eqn:E; [|done]. exists c.
  destruct (Hc c eq_refl) as (Hu & _ & Ht & _). split; [done|]. split; [by apply Hu|]. split; [exact Ht|].
  vm_compute in E. injection E as <-. reflexivity.
Defined.

(** A write of the environment file that fails after its first line: init reports the
    error, but run again it keeps the file and reports success, and serve starts a
    server that is open to everyone. *)
Definition disk_full : Faults := mkFaults None (Some (mkWriteFault "No space left on device (os error 28)" (Some 31%nat))).
Definition failed_run := run_init open_tables no_env shop_opts zeros disk_full ∅ fresh.
Definition repeated_run := run_init open_tables no_env shop_opts zeros no_faults failed_run.1.2 failed_run.2.

Lemma truncated_env_opens_server :
  failed_run.1.1 = Err (Init_io "No space left on device (os error 28)") /\
  repeated_run.1.1 = Ok (mkInitReport None KeptExisting) /\
  match serve_config any_addr repeated_run.1.2 no_env with
  | Ok c => db_url c = "sqlite://talea.db"%string /\ server_entries no_file (api_token c) (tokens_file c) = Ok []
  | Err _ => False
  end.
Proof. vm_compute. repeat split. Qed.
End init_demo.
