(* ===== verification/SqliteSubscribe.v ===== *)
(** Subscriptions of the SQLite store, [subscribe] of
    talea-store-sqlite/src/lib.rs: wake-ups travel on a broadcast channel of
    1024, after the commit they announce.

    The store's operations are those of Sqlite.v; the subscription runs beside
    any number of them. *)

From S2P Require Import Prelude Core Disk Sql Sqlite SqliteSpec SqliteCommit SqliteHistory SqliteBatch SqliteReads SqlSubscribe.
Open Scope Z_scope.

(** ** The stream *)

(** What [wakeups.recv()] gives. *)
Inductive Wake := Woken (book : Book) | Lagged | Closed.

(** A turn of the loop that waits. *)
Definition on_wake (book : Book) (w : Wake) (next : Seq) : SubPhase :=
  match w with
  | Woken b => if String.eqb b book then Catching next else Waiting next
  | Lagged => Catching next
  | Closed => Over
  end.

(** [broadcast::channel(1024)]: a receiver that is further behind is told so
    and continues with the oldest message that is kept. *)
Definition CHANNEL : nat := 1024.

Definition recv (sent : list Book) (read : nat) (closed : bool) : option (Wake * nat) :=
  if (read + CHANNEL <? length sent)%nat then Some (Lagged, (length sent - CHANNEL)%nat)
  else match sent !! read with
       | Some b => Some (Woken b, S read)
       | None => if closed then Some (Closed, read) else None
       end.

(** The store and one subscription: the committed tables, the wake-ups of
    commits whose [publish] is still to come, those that were sent, how many of
    these the receiver has taken, and whether the store was dropped. *)
Record SqSub := mkSqSub {
  sb_tables : Tables;
  sb_unsent : list Book;
  sb_sent : list Book;
  sb_read : nat;
  sb_closed : bool;
  sb_phase : SubPhase;
  sb_out : list Item
}.

(** The receiver is created when [subscribe] is called. *)
Definition subscribed (t : Tables) (unsent sent : list Book) (from : Seq) : SqSub :=
  mkSqSub t unsent sent (length sent) false (Catching from) [].

Definition streamed (p : SubPhase) (l : list Item) (read : nat) (y : SqSub) : SqSub :=
  mkSqSub (sb_tables y) (sb_unsent y) (sb_sent y) read (sb_closed y) p (sb_out y ++ l).

Section subscription.
Context `{HashIterLaws} `{UuidTextLaws} `{Json LedgerEvent} `{!JsonLaws LedgerEvent} `{Json (list ExternalRef)}.

(** A pool connection over some tables. *)
Definition reader (script : list (option SqlxError)) (t : Tables) : Conn := mkConn t t [] script (fun _ => 0) 0 [].

(** One turn of the stream, between two of its suspension points; [None] when
    it waits in vain or is over. *)
Definition sub_turn (book : Book) (script : list (option SqlxError)) (y : SqSub) : option SqSub :=
  match sb_phase y with
  | Catching next =>
      let '(l, p) := on_page next (fetch_events book next PAGE (reader script (sb_tables y))).1 in
      Some (streamed p l (sb_read y) y)
  | Waiting next =>
      '(w, read) ← recv (sb_sent y) (sb_read y) (sb_closed y);
      Some (streamed (on_wake book w next) [] read y)
  | Over => None
  end.

Definition sq_run (o : StoreOp) (s : Conn) : Conn :=
  match o with
  | RegisterOp asset => (register_asset asset s).2
  | OpenOp def cfg => (open_account def cfg s).2
  | CommitOp tx => (commit tx s).2
  | BatchOp txs => (commit_batch txs s).2
  end.

(** Any statement may fail, of a batch none: a draft whose RELEASE fails is
    committed with the batch and answered with an error. *)
Definition sq_fits (o : StoreOp) (s : Conn) : Prop :=
  match o with
  | RegisterOp asset => 0 <= asset_precision asset < 256
  | BatchOp _ => script s = []
  | _ => True
  end.

(** The store commits and sends wake-ups, is dropped, or the stream goes on. *)
Inductive sub_step (book : Book) : SqSub -> SqSub -> Prop :=
| sub_write y o s :
    sb_closed y = false -> committed s = sb_tables y -> woken s = [] -> sq_fits o s ->
    sub_step book y (mkSqSub (committed (sq_run o s)) (sb_unsent y ++ woken (sq_run o s)) (sb_sent y) (sb_read y) false (sb_phase y) (sb_out y))
| sub_send y l b l' :
    sb_unsent y = l ++ b :: l' ->
    sub_step book y (mkSqSub (sb_tables y) (l ++ l') (sb_sent y ++ [b]) (sb_read y) (sb_closed y) (sb_phase y) (sb_out y))
| sub_drop y :
    sb_unsent y = [] ->
    sub_step book y (mkSqSub (sb_tables y) [] (sb_sent y) (sb_read y) true (sb_phase y) (sb_out y))
| sub_own y script y' : sub_turn book script y = Some y' -> sub_step book y y'.

(** ** Every operation announces its events *)

Definition announces (s s' : Conn) : Prop := forall h, db_ok (committed s) h ->
  exists evs, db_ok (committed s') (h ++ evs) /\ announced evs s'.

Lemma announces_nothing s s' : committed s' = committed s -> announces s s'.
Proof. intros Hc h Hdb. exists []. rewrite app_nil_r, Hc. split; [done|apply announced_nil]. Qed.

Lemma definition_announces {A} (m : sq A) s :
  all_or_nothing m -> quiet m ->
  (forall s0 a s1, script s0 = [] -> committed s0 = committed s -> m s0 = (Done a, s1) -> announces s0 s1) ->
  announces s (m s).2.
Proof.
  intros Haon Hq Hok. destruct (Haon s) as [Hd|Hc]; [|by apply announces_nothing].
  destruct (m s) as [[a|e|] s'] eqn:Em; [|done..]. apply Hq in Em. intros h Hdb.
  exact (Hok (set_script [] s) a (set_script [] s') eq_refl eq_refl Em h Hdb).
Qed.

Lemma announced_more evs l s : woken s = l ++ map en_book evs -> announced evs s.
Proof. intros Hw e He. rewrite Hw. apply elem_of_app. right. by apply list_elem_of_fmap_2. Qed.

Lemma register_announces asset s : 0 <= asset_precision asset < 256 -> announces s (register_asset asset s).2.
Proof.
  intros Hp. destruct (register_asset_aon asset) as [Haon Hq]. apply definition_announces; [done..|].
  intros s0 a s1 Hs Hc Hr h Hdb. pose proof (register_asset_healthy h asset s0 Hdb Hs Hp) as Hspec.
  destruct (register_spec h asset (now s0)) as [r evs]. rewrite Hr in Hspec. destruct Hspec as (_ & ? & Hw). exists evs.
  split; [done|]. by eapply announced_more.
Qed.

Lemma open_announces def cfg s : announces s (open_account def cfg s).2.
Proof.
  destruct (open_account_aon def cfg) as [Haon Hq]. apply definition_announces; [done..|].
  intros s0 a s1 Hs Hc Hr h Hdb. pose proof (open_account_healthy h def cfg s0 Hdb Hs) as Hspec.
  destruct (open_spec h def cfg (now s0)) as [r evs]. rewrite Hr in Hspec. destruct Hspec as (_ & ? & Hw). exists evs.
  split; [done|]. by eapply announced_more.
Qed.

Lemma commit_announces tx s : announces s (commit tx s).2.
Proof. intros h Hdb. destruct (commit_run h tx s Hdb) as (evs & ? & ? & _). by exists evs. Qed.

(** *** ... and a batch, on a backend that does not fail *)

Lemma savepoint_books h i tx s : script s = [] -> db_ok (work s) h ->
  match commit_in_savepoint i tx s with
  | (Done _, s') => script s' = [] /\ exists evs, db_ok (work s') (h ++ evs) /\ Forall (fun e => en_book e = tx_book tx) evs
  | (Fail _, s') => script s' = [] /\ work s' = work s
  | (Panicked, _) => True
  end.
Proof.
  intros Hs Hdb. unfold commit_in_savepoint, checked. destruct (is_reserved (tx_book tx)); [done|].
  unfold sq_bind, sq_try. rewrite savepoint_healthy by done. set (s1 := set_saves _ s).
  destruct (commit_draft_healthy h tx s1 Hs Hdb) as (evs & Hspec & Hdone). pose proof (local_commit_draft tx s1) as Hlo.
  destruct (commit_draft tx s1) as [[c|e|] s2]; cbn [fst snd done_of is_done] in *; [| |done].
  - rewrite (release_healthy i s2 (work s) (saves s)) by (apply Hlo; done). cbn. split; [by apply Hlo|]. exists evs. split.
    + destruct (Hdone eq_refl) as [[-> ->]|(t & -> & Ht)]; [by rewrite app_nil_r|done].
    + inversion Hspec; subst; by repeat constructor.
  - rewrite (undo_healthy i s2 (work s) (saves s)) by (apply Hlo; done). set (s3 := set_saves _ (set_work _ s2)).
    assert (script s3 = []) as Hs3 by (by apply Hlo). destruct (is_unique_violation e); [|done].
    inversion Hspec as [| |Hp _]; subst. rewrite (find_committed_healthy h s3) by (done || apply Hdb). by rewrite Hp.
Qed.

Lemma drafts_books txs : forall h i s, script s = [] -> db_ok (work s) h ->
  match commit_drafts i txs s with
  | (Done rs, s') => script s' = [] /\ exists evs, db_ok (work s') (h ++ evs) /\
      forall e, e ∈ evs -> exists p, p ∈ zip txs rs /\ is_ok p.2 = true /\ tx_book p.1 = en_book e
  | _ => True
  end.
Proof.
  induction txs as [|tx txs IH]; intros h i s Hs Hdb; cbn [commit_drafts].
  { split; [done|]. exists []. rewrite app_nil_r. split; [done|]. by intros e ?%elem_of_nil. }
  unfold sq_bind at 1, sq_try. pose proof (savepoint_books h i tx s Hs Hdb) as Hsp.
  assert (forall r s1 evs, script s1 = [] -> db_ok (work s1) (h ++ evs) -> (evs = [] \/ is_ok r = true /\ Forall (fun e => en_book e = tx_book tx) evs) ->
    match (let& rs := commit_drafts (S i) txs in sq_ret (r :: rs)) s1 with
    | (Done rs, s') => script s' = [] /\ exists evs', db_ok (work s') (h ++ evs') /\
        forall e, e ∈ evs' -> exists p, p ∈ zip (tx :: txs) rs /\ is_ok p.2 = true /\ tx_book p.1 = en_book e
    | _ => True
    end) as Hrest.
  { intros r s1 evs Hs1 Hdb1 Hr. specialize (IH _ (S i) s1 Hs1 Hdb1). unfold sq_bind. destruct (commit_drafts (S i) txs s1) as [[rs|e|] s2]; [|done..].
    destruct IH as (Hs2 & evs2 & Hdb2 & Hz). split; [done|]. exists (evs ++ evs2). rewrite app_assoc. split; [done|].
    intros e [He|He]%elem_of_app.
    - destruct Hr as [->|[Hok Hb]]; [by apply elem_of_nil in He|]. rewrite Forall_forall in Hb. exists (tx, r). cbn. split_and!; [by left|done|]. symmetry. by apply Hb.
    - destruct (Hz e He) as (p & Hp & ? & ?). exists p. cbn. by split; [right|]. }
  destruct (commit_in_savepoint i tx s) as [[c|e|] s1]; [| |done].
  - destruct Hsp as (Hs1 & evs & Hdb1 & Hb). apply (Hrest (Ok c) s1 evs); auto.
  - destruct Hsp as [Hs1 Hw]. apply (Hrest (Err e) s1 []); [done|by rewrite Hw, app_nil_r|by left].
Qed.

Lemma publish_books_woken l : forall published s, (forall b, b ∈ published -> b ∈ woken s) ->
  forall b, b ∈ woken s \/ (exists p, p ∈ l /\ is_ok p.2 = true /\ tx_book p.1 = b) -> b ∈ woken (publish_books l published s).2.
Proof.
  induction l as [|[tx r] l IH]; intros published s Hpub b Hb; cbn [publish_books].
  { destruct Hb as [|(p & Hp & _)]; [done|]. by apply elem_of_nil in Hp. }
  assert (b ∈ woken s \/ (is_ok r = true /\ tx_book tx = b) \/ exists p, p ∈ l /\ is_ok p.2 = true /\ tx_book p.1 = b) as Hb'.
  { destruct Hb as [|(p & [->|]%elem_of_cons & ?)]; [by left|by right; left|right; right; by exists p]. }
  destruct (is_ok r) eqn:Er; cbn [andb].
  - case_bool_decide as Hin; cbn [negb].
    + apply IH; [done|]. destruct Hb' as [|[[_ <-]|]]; [by left|left; by apply Hpub|by right].
    + unfold sq_bind. cbn. apply IH.
      * intros b' [Hb0|Hb0%list_elem_of_singleton]%elem_of_app; cbn; apply elem_of_app; [left; by apply Hpub|right; subst; by left].
      * cbn. rewrite elem_of_app. destruct Hb' as [|[[_ <-]|]]; [by left; left|left; right; by left|by right].
  - apply IH; [done|]. destruct Hb' as [|[[]|]]; [by left|done|by right].
Qed.

Lemma batch_announces txs s : script s = [] -> announces s (commit_batch txs s).2.
Proof.
  intros Hs. destruct txs as [|tx txs]; [by apply announces_nothing|]. intros h Hdb. cbv beta iota delta [commit_batch]. rewrite begin_healthy by done.
  set (b := set_saves _ _). unfold sq_bind. pose proof (drafts_books (tx :: txs) h 0 b Hs Hdb) as Hd. pose proof (safe_drafts (tx :: txs) 0 b) as Hsd.
  destruct (commit_drafts 0 (tx :: txs) b) as [[rs|e|] s1]; cbn [fst snd] in *;
    [|exists []; rewrite app_nil_r, (sd_committed _ _ Hsd); split; [exact Hdb|apply announced_nil]..].
  destruct Hd as (Hs1 & evs & Hdb1 & Hz). rewrite commit_stmt_healthy by done. set (s2 := set_committed _ s1).
  destruct (publish_books_Done (zip (tx :: txs) rs) [] s2) as (s3 & Hp & Hc & _).
  pose proof (publish_books_woken (zip (tx :: txs) rs) [] s2 ltac:(by intros b' ?%elem_of_nil)) as Hw. rewrite Hp in *. cbn [fst snd sq_ret] in *.
  exists evs. rewrite Hc. split; [done|]. intros e He. apply Hw. right. by apply Hz.
Qed.

Lemma sq_announces o s : sq_fits o s -> announces s (sq_run o s).
Proof.
  destruct o; cbn; [apply register_announces|intros _; apply open_announces|intros _; apply commit_announces|apply batch_announces].
Qed.

(** ** The stream beside its store *)

Lemma fetch_page book n h t : db_ok t h -> (fetch_events book n PAGE (reader [] t)).1 = Done (map sequenced_entry (page book n h)).
Proof.
  intros Hdb. rewrite (fetch_events_spec (reader [] t) h) by done. unfold sql_limit. cbn [Z.ltb Z.compare PAGE]. by rewrite (filter_from (reader [] t) h).
Qed.

Lemma fetch_page_or_error book n script h t : db_ok t h ->
  let x := (fetch_events book n PAGE (reader script t)).1 in
  x = Done (map sequenced_entry (page book n h)) \/ exists e, x = Fail e.
Proof.
  intros Hdb. cbn zeta. assert (quiet (fetch_events book n PAGE)) as Hq by (unfold fetch_events; auto with talea).
  destruct (fetch_events book n PAGE (reader script t)) as [[l|e|] s'] eqn:Ef; cbn [fst]; [|by right; exists e|].
  - left. apply Hq in Ef. change (set_script [] (reader script t)) with (reader [] t) in Ef. pose proof (fetch_page book n h t Hdb) as Hp. rewrite Ef in Hp. exact Hp.
  - exfalso. unfold fetch_events, sq_bind, pool_query in Ef. destruct (reach _) as [[e|] s1]; [done|]. by destruct (decode_events _).
Qed.

Section system.
Variable book : Book.
Variable from : Seq.

(** A wake-up for the book is on its way, or in the channel. *)
Definition on_its_way (y : SqSub) : Prop := book ∈ sb_unsent y \/ book ∈ drop (sb_read y) (sb_sent y).

Record sqsub_ok (y : SqSub) (h : list Entry) : Prop := {
  so_tables : db_ok (sb_tables y) h;
  so_read : (sb_read y <= length (sb_sent y))%nat;
  so_dropped : sb_closed y = true -> sb_unsent y = [];
  so_stream : sub_inv book from h (sb_phase y) (sb_out y) (on_its_way y);
  so_over : sb_phase y = Over -> (sb_closed y = true /\ caught_up book from h (sb_out y)) \/ exists e, last (sb_out y) = Some (Err e)
}.

Lemma recv_cases sent read closed w r : recv sent read closed = Some (w, r) -> (read <= length sent)%nat ->
  (r <= length sent)%nat /\
  match w with
  | Woken b => (read < r)%nat /\ drop read sent = b :: drop r sent
  | Lagged => (read < r)%nat
  | Closed => closed = true /\ drop read sent = []
  end.
Proof.
  unfold recv. destruct (Nat.ltb_spec (read + CHANNEL) (length sent)).
  - intros [= <- <-] Hr. unfold CHANNEL in *. lia.
  - destruct (sent !! read) as [b|] eqn:Eb.
    + intros [= <- <-] Hr. pose proof (lookup_lt_Some _ _ _ Eb). split_and!; [lia..|]. by apply drop_S.
    + destruct closed; [|done]. intros [= <- <-] Hr. split_and!; [lia|done|]. apply drop_ge. by apply lookup_ge_None.
Qed.

(** The channel is closed when nothing is in it. *)
Lemma closed_caught_up y h n : sqsub_ok y h -> sb_phase y = Waiting n -> sb_unsent y = [] -> drop (sb_read y) (sb_sent y) = [] ->
  caught_up book from h (sb_out y).
Proof.
  intros Hok Hp Hu Hdr. destruct (si_awake _ _ _ _ _ _ (so_stream _ _ Hok) n Hp) as [|[Hin|Hin]]; [done|rewrite Hu in Hin|rewrite Hdr in Hin]; by apply elem_of_nil in Hin.
Qed.

Lemma turn_ok script y y' h : sqsub_ok y h -> sub_turn book script y = Some y' -> sqsub_ok y' h.
Proof.
  intros Hok Ht. pose proof Hok as [Hdb Hr Hd Hst _]. unfold sub_turn in Ht. destruct (sb_phase y) as [n|n|] eqn:Ep; [| |done].
  - pose proof (fetch_page_or_error book n script h _ Hdb) as Hf.
    pose proof (sub_inv_page book from h n (sb_out y) _ _ (do_history _ _ Hdb) Hst Hf) as Hp.
    assert ((on_page n (fetch_events book n PAGE (reader script (sb_tables y))).1).2 = Over ->
      exists e, (on_page n (fetch_events book n PAGE (reader script (sb_tables y))).1).1 = [Err e]) as Hover.
    { cbn zeta in Hf. destruct Hf as [->|[e ->]]; [by destruct (map sequenced_entry _)|]. by exists e. }
    destruct (on_page n _) as [l p]. injection Ht as <-. split; [done..|]. intros Ho. right. destruct (Hover Ho) as [e He]. cbn in *. exists e.
    by rewrite He, last_snoc.
  - destruct (recv _ _ _) as [[w r]|] eqn:Er; [|done]. injection Ht as <-. apply recv_cases in Er as [Hr' Hw]; [|done].
    split; [done..| |]; cbn [streamed sb_phase sb_out sb_closed]; rewrite app_nil_r; destruct w as [b| |]; cbn [on_wake].
    + destruct Hw as [Hlt Hdrop]. destruct (String.eqb_spec b book) as [->|Hne]; [by eapply sub_inv_catch|].
      eapply sub_inv_mono; [|exact Hst]. unfold on_its_way. cbn. rewrite Hdrop, elem_of_cons. naive_solver.
    + by eapply sub_inv_catch.
    + by eapply sub_inv_over.
    + by destruct (String.eqb b book).
    + done.
    + intros _. left. destruct Hw as [Hcl Hdr]. split; [done|]. by apply (closed_caught_up y h n); auto.
Qed.

Lemma step_ok y y' h : sub_step book y y' -> sqsub_ok y h -> exists evs, sqsub_ok y' (h ++ evs).
Proof.
  intros Hs Hok. pose proof Hok as [Hdb Hr Hd Hst Hov]. destruct Hs as [y o s Hop Hc Hw Hf|y l b l' Hu|y Hu|y script y' Ht].
  - rewrite <- Hc in Hdb. destruct (sq_announces o s Hf h Hdb) as (evs & Hdb' & Ha). exists evs.
    split; [done..| |]; cbn.
    + eapply sub_inv_write; [| |exact Hst]; unfold on_its_way; cbn; [intros; rewrite elem_of_app; naive_solver|].
      intros e He <-. left. apply elem_of_app. right. by apply Ha.
    + intros Ho. right. destruct (Hov Ho) as [[Hcl _]|]; [congruence|done].
  - exists []. rewrite app_nil_r. split; [done|cbn; rewrite length_app; lia|cbn; intros Hcl; by destruct l; rewrite (Hd Hcl) in Hu| |done].
    cbn. eapply sub_inv_mono; [|exact Hst]. unfold on_its_way. cbn. rewrite Hu, drop_app_le by done. rewrite !elem_of_app, !elem_of_cons. naive_solver.
  - exists []. rewrite app_nil_r. split; [done..| |]; cbn.
    + eapply sub_inv_mono; [|exact Hst]. unfold on_its_way. cbn. by rewrite Hu.
    + intros Ho. destruct (Hov Ho) as [[]|]; auto.
  - exists []. rewrite app_nil_r. by eapply turn_ok.
Qed.

Lemma steps_ok y y' h : rtc (sub_step book) y y' -> sqsub_ok y h -> exists evs, sqsub_ok y' (h ++ evs).
Proof.
  intros Hr. revert h. induction Hr as [y|y y1 y' Hs _ IH]; intros h Hok; [exists []; by rewrite app_nil_r|].
  destruct (step_ok _ _ _ Hs Hok) as [evs Hok1]. destruct (IH _ Hok1) as [evs' Hok2]. exists (evs ++ evs'). by rewrite app_assoc.
Qed.

Lemma subscribed_ok t h unsent sent : db_ok t h -> sqsub_ok (subscribed t unsent sent from) h.
Proof. intros Hdb. split; try done. split; [|by intros n]. cbn. unfold cursor_ok, slice, upto, items. split; [lia|]. by rewrite skipn_firstn_comm, Nat.sub_diag, take_0. Qed.

(** A stream that waits in vain. *)
Lemma parked y h : sqsub_ok y h -> sub_turn book [] y = None -> sb_unsent y = [] -> sb_phase y <> Over -> caught_up book from h (sb_out y).
Proof.
  intros Hok Ht Hu Hno. unfold sub_turn in Ht. destruct (sb_phase y) as [n|n|] eqn:Ep; [by destruct (on_page n _)| |done].
  unfold recv in Ht. destruct (_ <? _)%nat; [done|]. destruct (sb_sent y !! sb_read y) eqn:El; [done|].
  apply (closed_caught_up y h n Hok Ep Hu). apply drop_ge. by apply lookup_ge_None.
Qed.

(** *** ... comes to its end *)

Definition sb_turns_left (y : SqSub) (h : list Entry) : nat := turns_left book (length (sb_sent y) - sb_read y) (sb_phase y) h.

Lemma turn_progress y y' h : sqsub_ok y h -> sub_turn book [] y = Some y' ->
  (sb_turns_left y' h < sb_turns_left y h)%nat /\ sb_tables y' = sb_tables y /\ sb_unsent y' = sb_unsent y.
Proof.
  intros [Hdb Hr Hd Hst _] Ht. unfold sub_turn in Ht. unfold sb_turns_left. destruct (sb_phase y) as [n|n|] eqn:Ep; [| |done].
  - rewrite (fetch_page book n h _ Hdb) in Ht.
    pose proof (turns_page book from (length (sb_sent y) - sb_read y) n h (sb_out y) (do_history _ _ Hdb) (si_ok _ _ _ _ _ _ Hst)) as [Hp _].
    destruct (on_page n _) as [l p]. by injection Ht as <-.
  - destruct (recv _ _ _) as [[w r]|] eqn:Er; [|done]. injection Ht as <-. cbn. split; [|done]. apply recv_cases in Er as [Hr' Hw]; [|done].
    destruct w as [b| |]; cbn [on_wake].
    + destruct Hw as [Hlt _]. apply (turns_wake book _ _ n); [lia|]. destruct (String.eqb b book); auto.
    + apply (turns_wake book _ _ n); [lia|auto].
    + apply (turns_over book _ _ n).
Qed.

Fixpoint sub_turns (fuel : nat) (y : SqSub) : SqSub :=
  match fuel with
  | O => y
  | S fuel => match sub_turn book [] y with Some y' => sub_turns fuel y' | None => y end
  end.

(** Without failures a stream ends only when it has yielded everything. *)
Lemma turn_over y y' h : sqsub_ok y h -> sub_turn book [] y = Some y' -> sb_phase y' = Over -> caught_up book from h (sb_out y').
Proof.
  intros Hok Ht Ho. destruct (so_over _ _ (turn_ok [] y y' h Hok Ht) Ho) as [[_ ?]|[e He]]; [done|]. exfalso.
  pose proof Hok as [Hdb Hr _ Hst _]. unfold sub_turn in Ht. destruct (sb_phase y) as [n|n|] eqn:Ep; [| |done].
  - rewrite (fetch_page book n h _ Hdb) in Ht.
    pose proof (turns_page book from 0 n h (sb_out y) (do_history _ _ Hdb) (si_ok _ _ _ _ _ _ Hst)) as [_ Hp].
    destruct (on_page n _) as [l p]. injection Ht as <-. done.
  - destruct (recv _ _ _) as [[w r]|]; [|done]. injection Ht as <-. cbn in He. rewrite app_nil_r in He.
    destruct (si_ok _ _ _ _ _ _ Hst) as [_ Hout]. rewrite Hout in He. by apply items_no_error in He.
Qed.

Lemma turns_settle fuel : forall y h, sqsub_ok y h -> sb_unsent y = [] -> (sb_phase y = Over -> caught_up book from h (sb_out y)) ->
  (sb_turns_left y h < fuel)%nat ->
  let y' := sub_turns fuel y in sub_turn book [] y' = None /\ sb_tables y' = sb_tables y /\ caught_up book from h (sb_out y').
Proof.
  induction fuel as [|fuel IH]; intros y h Hok Hu Hov Hf; [lia|]. cbn [sub_turns]. destruct (sub_turn book [] y) as [y'|] eqn:Et.
  - destruct (turn_progress _ _ _ Hok Et) as (Hlt & Ht & Hu'). rewrite <- Ht. apply IH; [by eapply turn_ok|congruence|by eapply turn_over|lia].
  - split_and!; [done..|]. destruct (decide (sb_phase y = Over)) as [|Hno]; [auto|by apply (parked y h)].
Qed.

(** C26: A subscription beside the store: whatever is written, sent late, skipped by
    the channel or fails, it has yielded the book's events from where it was
    asked to start, each once, in order and without a gap, and after them an
    error at most; when it waits and no wake-up is still to come, it has
    yielded all there are. *)
Theorem sqlite_subscription_exact t h unsent sent y :
  db_ok t h -> rtc (sub_step book) (subscribed t unsent sent from) y ->
  exists evs, db_ok (sb_tables y) (h ++ evs) /\ sub_ok book from (h ++ evs) (sb_phase y) (sb_out y) /\
    (sub_turn book [] y = None -> sb_unsent y = [] -> sb_phase y <> Over -> caught_up book from (h ++ evs) (sb_out y)).
Proof.
  intros Hdb Hr. destruct (steps_ok _ _ h Hr (subscribed_ok t h unsent sent Hdb)) as [evs Hok]. exists evs.
  split_and!; [apply Hok|apply (so_stream _ _ Hok)|]. by apply parked.
Qed.

(** A subscription gets there: from any state of it that is not over, once every
    write has sent its wake-up, finitely many turns without a failure yield the
    rest of the book. *)
Theorem sqlite_subscription_drains t h unsent sent y :
  db_ok t h -> rtc (sub_step book) (subscribed t unsent sent from) y -> sb_unsent y = [] -> sb_phase y <> Over ->
  exists evs fuel, db_ok (sb_tables y) (h ++ evs) /\
    let y' := sub_turns fuel y in sub_turn book [] y' = None /\ sb_tables y' = sb_tables y /\ caught_up book from (h ++ evs) (sb_out y').
Proof.
  intros Hdb Hr Hu Hno. destruct (steps_ok _ _ h Hr (subscribed_ok t h unsent sent Hdb)) as [evs Hok].
  exists evs, (S (sb_turns_left y (h ++ evs))). split; [apply Hok|]. apply turns_settle; [done..|lia].
Qed.
End system.
End subscription.
