(* ===== verification/Pg.v ===== *)
(** The database of talea-store-postgres as talea-store-postgres/src uses it:
    transactions of one session beside others, over the tables of Sql.v (the
    schema of migrations/ has the same columns: a UUID is its canonical text, a
    JSONB the bytes of its document, a BIGINT an [Int]).

    PostgreSQL and sqlx are third-party code; what is written out here is what
    their documentation says of the statements the source contains:
    - under read committed a statement sees what is durable when it starts, and
      its own transaction's writes;
    - an error aborts the transaction: statements fail until it is rolled back,
      wholly or to a savepoint, and COMMIT of an aborted transaction rolls back
      and reports no error;
    - a BIGINT out of range is an error, [SUM] is exact and its cast is checked, a
      negative LIMIT is an error;
    - [pg_notify] queues a notification that COMMIT sends, and refuses a channel
      name of 64 bytes or more.

    Other sessions are [peers]: what each does to the durable tables between two
    statements of this one.  While this session holds the counter of a book, the
    others' commits to other books commute with its writes, so that they are
    taken to come after it: [peers] advance only while the transaction has
    written nothing. *)

From S2P Require Import Prelude Core Disk Sql.
Open Scope Z_scope.

(** ** Sessions *)

(** What becomes of one statement: it runs, fails, or takes effect with its
    answer lost (for COMMIT; the loss of another statement's answer is the loss
    of its transaction). *)
Inductive Fault := Runs | Fails (e : SqlxError) | Lost (e : SqlxError).

(** A transaction: its tables, once it has written, and the notifications it
    will send. *)
Record Txn := mkTxn {
  x_work : option Tables;
  x_queue : list (string * string)
}.

Definition fresh_txn : Txn := mkTxn None [].

Record Session := mkSession {
  durable : Tables;
  txn : Txn;
  spots : list (nat * Txn);
  aborted : bool;
  faults : list Fault;
  peers : list (Tables -> Tables);
  wall : nat -> DateTime;
  reads_of_wall : nat;
  delivered : list (string * string)
}.

Definition pg (A : Type) : Type := db Session A.

Definition set_durable (t : Tables) (s : Session) : Session :=
  mkSession t (txn s) (spots s) (aborted s) (faults s) (peers s) (wall s) (reads_of_wall s) (delivered s).
Definition set_txn (x : Txn) (s : Session) : Session :=
  mkSession (durable s) x (spots s) (aborted s) (faults s) (peers s) (wall s) (reads_of_wall s) (delivered s).
Definition set_spots (l : list (nat * Txn)) (s : Session) : Session :=
  mkSession (durable s) (txn s) l (aborted s) (faults s) (peers s) (wall s) (reads_of_wall s) (delivered s).
Definition set_aborted (b : bool) (s : Session) : Session :=
  mkSession (durable s) (txn s) (spots s) b (faults s) (peers s) (wall s) (reads_of_wall s) (delivered s).
Definition set_faults (l : list Fault) (s : Session) : Session :=
  mkSession (durable s) (txn s) (spots s) (aborted s) l (peers s) (wall s) (reads_of_wall s) (delivered s).
Definition set_peers (l : list (Tables -> Tables)) (s : Session) : Session :=
  mkSession (durable s) (txn s) (spots s) (aborted s) (faults s) l (wall s) (reads_of_wall s) (delivered s).
Definition set_delivered (l : list (string * string)) (s : Session) : Session :=
  mkSession (durable s) (txn s) (spots s) (aborted s) (faults s) (peers s) (wall s) (reads_of_wall s) l.

(** What the transaction's next statement sees. *)
Definition view (s : Session) : Tables := default (durable s) (x_work (txn s)).

Definition contact (s : Session) : Fault * Session :=
  match faults s with [] => (Runs, s) | f :: fs => (f, set_faults fs s) end.

(** Another session's commit becomes visible. *)
Definition peer_commits (s : Session) : Session :=
  match peers s with [] => s | f :: fs => set_peers fs (set_durable (f (durable s)) s) end.

Definition interleave (s : Session) : Session :=
  match x_work (txn s) with None => peer_commits s | Some _ => s end.

Definition in_failed_transaction : SqlxError :=
  SqlError "current transaction is aborted, commands ignored until end of transaction block".

(** A statement of the open transaction, given what it does with a session it
    can run in. *)
Definition statement {A} (run : Session -> result (A * Session) SqlxError) : Session -> result A SqlxError * Session := fun s =>
  match contact s with
  | (Fails e, s) | (Lost e, s) => (Err e, set_aborted true s)
  | (Runs, s) =>
      if aborted s then (Err in_failed_transaction, s)
      else
        let s := interleave s in
        match run s with
        | Ok (a, s) => (Ok a, s)
        | Err e => (Err e, set_aborted true s)
        end
  end.

(** [map_err(io_err)?] *)
Definition tried {A} (c : Session -> result A SqlxError * Session) : pg A := fun s =>
  match c s with (Ok a, s) => (Done a, s) | (Err e, s) => (Fail (io_err (SqlxE e)), s) end.

(** A query, and a statement that writes. *)
Definition fetch {A} (q : Tables -> A) : pg A :=
  tried (statement (fun s => Ok (q (view s), s))).

Definition write_tables {A} (q : Tables -> result (A * Tables) SqlxError) (s : Session) : result (A * Session) SqlxError :=
  match q (view s) with
  | Ok (a, t) => Ok (a, set_txn (mkTxn (Some t) (x_queue (txn s))) s)
  | Err e => Err e
  end.

Definition modify {A} (q : Tables -> result (A * Tables) SqlxError) : pg A := tried (statement (write_tables q)).

(** "clock_timestamp()", in microseconds, as nanoseconds. *)
Definition clock_timestamp : pg DateTime := fun s =>
  (Done (wall s (reads_of_wall s) / 1000 * 1000),
   mkSession (durable s) (txn s) (spots s) (aborted s) (faults s) (peers s) (wall s) (S (reads_of_wall s)) (delivered s)).

(** "SELECT pg_notify(channel, payload)" *)
Definition NAMEDATALEN : nat := 64.

Definition pg_notify (channel payload : string) : pg unit :=
  tried (statement (fun s =>
    if (NAMEDATALEN <=? String.length channel)%nat then Err (SqlError "channel name too long")
    else Ok ((), set_txn (mkTxn (x_work (txn s)) (x_queue (txn s) ++ [(channel, payload)])) s))).

(** A query of the pool, in a transaction of its own. *)
Definition pool_fetch {A} (q : Tables -> result A SqlxError) : pg A := fun s =>
  match contact s with
  | (Fails e, s) | (Lost e, s) => (Fail (io_err (SqlxE e)), s)
  | (Runs, s) =>
      let s := peer_commits s in
      match q (durable s) with
      | Ok a => (Done a, s)
      | Err e => (Fail (io_err (SqlxE e)), s)
      end
  end.

(** ** Transactions *)

Definition pool_begin : Session -> result unit SqlxError * Session := fun s =>
  match contact s with
  | (Fails e, s) | (Lost e, s) => (Err e, s)
  | (Runs, s) => (Ok (), set_aborted false (set_spots [] (set_txn fresh_txn s)))
  end.

(** The writes become durable and the notifications are sent. *)
Definition land (s : Session) : Session :=
  set_txn fresh_txn (set_delivered (delivered s ++ x_queue (txn s)) (set_durable (view s) s)).

Definition pg_commit : Session -> result unit SqlxError * Session := fun s =>
  match contact s with
  | (Fails e, s) => (Err e, s)
  | (Lost e, s) => (Err e, if aborted s then s else land s)
  | (Runs, s) => (Ok (), if aborted s then set_txn fresh_txn s else land s)
  end.

Definition pg_savepoint (i : nat) : Session -> result unit SqlxError * Session :=
  statement (fun s => Ok ((), set_spots ((i, txn s) :: spots s) s)).

Fixpoint spot_of (i : nat) (l : list (nat * Txn)) : option (Txn * list (nat * Txn)) :=
  match l with
  | [] => None
  | (j, x) :: l' => if (j =? i)%nat then Some (x, l') else spot_of i l'
  end.

Definition savepoint_missing : SqlxError := SqlError "savepoint does not exist".

Definition pg_release (i : nat) : Session -> result unit SqlxError * Session :=
  statement (fun s =>
    match spot_of i (spots s) with
    | Some (_, l) => Ok ((), set_spots l s)
    | None => Err savepoint_missing
    end).

(** ROLLBACK TO runs in an aborted transaction too, and ends that state; the
    savepoint stays. *)
Definition pg_rollback_to (i : nat) : Session -> result unit SqlxError * Session := fun s =>
  match contact s with
  | (Fails e, s) | (Lost e, s) => (Err e, set_aborted true s)
  | (Runs, s) =>
      match spot_of i (spots s) with
      | Some (x, l) => (Ok (), set_aborted false (set_spots ((i, x) :: l) (set_txn x s)))
      | None => (Err savepoint_missing, set_aborted true s)
      end
  end.

(** ** Values *)

(** A BIGINT column, and addition to it. *)
Definition bigint (c : Cell) : Z := match c with Int z => z | Real => 0 end.

Definition to_bigint (z : Z) : result Z SqlxError :=
  if in_i64 z then Ok z else Err (SqlError "bigint out of range").

(** [Row::get] of a UUID column. *)
Definition get_row {S A} (r : result A string) : db S A := match r with Ok a => sq_ret a | Err _ => sq_panic end.

(** "COALESCE(SUM(..), 0)::BIGINT" *)
Definition sum_bigint (l : list Z) : result Z SqlxError := to_bigint (foldr Z.add 0 l).

(** "LIMIT n" *)
Definition pg_limit {A} (n : Z) (l : list A) : result (list A) SqlxError :=
  if n <? 0 then Err (SqlError "LIMIT must not be negative") else Ok (take (Z.to_nat n) l).

(** "ORDER BY" on text: the database's collation. *)
Class Collation := text_leb : string -> string -> bool.

(** The rows of one INSERT against a unique constraint, each against the rows
    before it. *)
Fixpoint insert_rows {R} (clash : R -> R -> bool) (constraint : string) (rows old : list R) : result (list R) SqlxError :=
  match rows with
  | [] => Ok old
  | row :: rows =>
      if existsb (clash row) old
      then Err (UniqueConstraint ("duplicate key value violates unique constraint " +:+ constraint))
      else insert_rows clash constraint rows (old ++ [row])
  end.

Definition foreign_key_violation : SqlxError := SqlError "insert or update violates foreign key constraint".
