(* ===== verification/Postgres.v ===== *)
(** The PostgreSQL store, talea-store-postgres/src/lib.rs and helpers.rs: the
    operations of [PgTaleaStore], over the database of Pg.v.

    The helpers that the two SQL stores have word for word ([effective],
    [posting_delta], [AccountRow], [Pending], [decode_account], [decode_asset],
    [check_min_balances], [batch_failure], the rows of assets, accounts and
    postings) are those of Sqlite.v.  The batch's fast path is PgBatch.v. *)

From S2P Require Import Prelude Decimal Core Disk Sql Sqlite Pg.
Open Scope Z_scope.

(** ** helpers.rs *)

Definition FNV_OFFSET : Z := 0xcbf29ce484222325.
Definition FNV_PRIME : Z := 0x100000001b3.

(** The FNV-1a hash of a string's bytes. *)
Definition fnv1a (s : string) : Z :=
  foldl (fun hash c => (Z.lxor hash (Z.of_nat (nat_of_ascii c)) * FNV_PRIME) mod 2 ^ 64) FNV_OFFSET (String.list_ascii_of_string s).

Definition hex_digit (d : Z) : ascii := ascii_of_nat (Z.to_nat (if d <? 10 then 48 + d else 87 + d)).

(** "{:0w$x}", for a number of at most [w] digits. *)
Fixpoint hex_padded (w : nat) (z : Z) : string :=
  match w with O => EmptyString | S w => hex_padded w (z / 16) +:+ String (hex_digit (z mod 16)) EmptyString end.

(** [str::is_char_boundary]: the byte there does not continue a character. *)
Definition is_char_boundary (s : string) (i : nat) : bool :=
  if (i =? 0)%nat || (i =? String.length s)%nat then true
  else match String.get i s with
       | Some c => negb ((128 <=? nat_of_ascii c)%nat && (nat_of_ascii c <? 192)%nat)
       | None => false
       end.

(** The loop that steps back to a boundary: it stops at 0 at the latest. *)
Fixpoint boundary_before (s : string) (i : nat) : nat :=
  match i with
  | O => O
  | S j => if is_char_boundary s i then i else boundary_before s j
  end.

Definition book_channel_name (book : Book) : string :=
  let full := "talea_" +:+ book in
  if (String.length full <=? 63)%nat then full
  else
    let hash := fnv1a full in
    let end_ := boundary_before full (Nat.min 46 (String.length full)) in
    String.substring 0 end_ full +:+ "_" +:+ hex_padded 16 hash.

(** ** lib.rs: shared helpers *)

Definition load_account (key : string) : pg (option AccountRow) :=
  pool_fetch (fun t => Ok (decode_account <$> t_accounts t !! key)).

(** "SELECT key, .. FROM accounts WHERE key = ANY($1)" *)
Definition load_accounts (keys : list string) : pg (gmap string AccountRow) :=
  let& rows := fetch (fun t => omap (fun key => r ← t_accounts t !! key; Some (key, decode_account r)) keys) in
  sq_ret (list_to_map rows).

(** One posting's turn of the fold. *)
Definition fold_posting (accounts : gmap string AccountRow) (posting : Posting) (pending : gmap string Pending) :
    result (gmap string Pending) DbError :=
  let key := to_key (p_account posting) in
  let? entry :=
    match pending !! key with
    | Some o => Ok o
    | None =>
        match accounts !! key with
        | None => Err (Plain (UnknownAccount (p_account posting)))
        | Some row => Ok (mkPending (p_account posting) (row_asset row) (row_normal_side row) (row_min_balance row) 0)
        end
    end in
  if negb (bool_decide (pd_asset entry = amount_asset (p_amount posting)))
  then Err (Plain (AssetMismatch (p_account posting) (pd_asset entry) (amount_asset (p_amount posting))))
  else
    match checked_add (pd_delta entry) (posting_delta posting) with
    | None => Err (IoBox (OtherE ("posting delta overflow for account " +:+ key)))
    | Some delta =>
        Ok (<[key := mkPending (pd_account entry) (pd_asset entry) (pd_normal_side entry) (pd_min_balance entry) delta]> pending)
    end.

Fixpoint fold_pending (accounts : gmap string AccountRow) (ps : list Posting) (pending : gmap string Pending) :
    result (gmap string Pending) DbError :=
  match ps with
  | [] => Ok pending
  | posting :: ps =>
      let? pending := fold_posting accounts posting pending in
      fold_pending accounts ps pending
  end.

(** The counter's upsert by [n], returning the counter and the clock. *)
Definition claim_seqs (book : string) (n : Z) : pg (Seq * DateTime) :=
  let& seq := modify (fun t =>
    let? c := to_bigint (match t_books t !! book with None => 0 | Some c => bigint c end + n) in
    Ok (c, with_books (<[book := Int c]> (t_books t)) t)) in
  let& at_ := clock_timestamp in
  sq_ret (seq, at_).

Definition next_seq (book : string) : pg (Seq * DateTime) := claim_seqs book 1.

(** One row of the balance upsert. *)
Record BalanceDelta := mkBalanceDelta {
  bd_key : string;
  bd_asset : string;
  bd_delta : Z;
  bd_updated : Z
}.

Definition upsert_row (d : BalanceDelta) (old : option BalanceRow) : result BalanceRow SqlxError :=
  match old with
  | None => Ok (mkBalanceRow (bd_asset d) (Int (bd_delta d)) (bd_updated d))
  | Some old =>
      let? z := to_bigint (bigint (ba_balance old) + bd_delta d) in
      Ok (mkBalanceRow (ba_asset old) (Int z) (bd_updated d))
  end.

Fixpoint upsert_rows (ds : list BalanceDelta) (b : gmap string BalanceRow) :
    result (list (string * Z) * gmap string BalanceRow) SqlxError :=
  match ds with
  | [] => Ok ([], b)
  | d :: ds =>
      let? row := upsert_row d (b !! bd_key d) in
      let? (rows, b) := upsert_rows ds (<[bd_key d := row]> b) in
      Ok ((bd_key d, bigint (ba_balance row)) :: rows, b)
  end.

(** "INSERT INTO balances .. SELECT .. FROM UNNEST .. ON CONFLICT .. DO UPDATE
    .. RETURNING account_key, balance" *)
Definition upsert_balances (ds : list BalanceDelta) (t : Tables) : result (list (string * Z) * Tables) SqlxError :=
  if negb (bool_decide (NoDup (map bd_key ds)))
  then Err (SqlError "ON CONFLICT DO UPDATE command cannot affect row a second time")
  else
    let? (rows, b) := upsert_rows ds (t_balances t) in
    if forallb (fun d => bool_decide (is_Some (t_accounts t !! bd_key d))) ds
    then Ok (rows, with_balances b t)
    else Err foreign_key_violation.

Definition insert_transactions (rows : list TransactionRow) (t : Tables) : result (unit * Tables) SqlxError :=
  let? l := insert_rows transaction_pk "transactions_pkey, transactions_book_idempotency_key_key" rows (t_transactions t) in
  Ok ((), with_transactions l t).

Definition insert_postings (rows : list PostingRow) (t : Tables) : result (unit * Tables) SqlxError :=
  let? l := insert_rows posting_pk "postings_pkey" rows (t_postings t) in
  if forallb (fun r => bool_decide (is_Some (t_accounts t !! po_account_key r)) &&
                       existsb (fun x => String.eqb (tr_tx_id x) (po_tx_id r)) (t_transactions t)) rows
  then Ok ((), with_postings l t)
  else Err foreign_key_violation.

Definition event_clash (a b : EventRow) : bool := event_pk (ev_book a) (ev_seq a) b.

Definition insert_events (rows : list EventRow) (t : Tables) : result (unit * Tables) SqlxError :=
  let? l := insert_rows event_clash "events_pkey" rows (t_events t) in
  Ok ((), with_events l t).

Section postgres.
Context `{HashIter} `{Collation} `{UuidText} `{Json LedgerEvent} `{Json (list ExternalRef)}.

Definition insert_event (book : string) (seq : Seq) (at_ : DateTime) (event : LedgerEvent) : pg unit :=
  let& payload := lift_std (to_vec event) in
  modify (insert_events [mkEventRow book seq at_ (LedgerEvent_kind event) payload]).

Definition notify (book : Book) (seq : Seq) : pg unit := pg_notify (book_channel_name book) (i64_to_string seq).

Definition fold_postings (transaction : Transaction) (accounts : gmap string AccountRow) : result (list Pending) DbError :=
  let? pending := fold_pending accounts (tx_postings transaction) ∅ in
  Ok (sort_by pending_leb (map snd (hash_iter pending))).

Definition load_pending (transaction : Transaction) : pg (list Pending) :=
  let keys := dedup (sort_by String.leb (map (fun p => to_key (p_account p)) (tx_postings transaction))) in
  let& accounts := load_accounts keys in
  lift_db (fold_postings transaction accounts).

Definition pending_delta (seq : Seq) (p : Pending) : BalanceDelta :=
  mkBalanceDelta (to_key (pd_account p)) (pd_asset p) (pd_delta p) seq.

Definition write_transaction (transaction : Transaction) (pending : list Pending) : pg Committed :=
  let& (seq, at_) := next_seq (tx_book transaction) in
  let& rows := modify (upsert_balances (map (pending_delta seq) pending)) in
  let& _ := lift_db (check_min_balances (list_to_map rows) pending) in
  let& external_refs := lift_std (to_vec (tx_external_refs transaction)) in
  let& _ := modify (insert_transactions
    [mkTransactionRow (uuid_text (tx_id transaction)) (tx_book transaction) seq (tx_idem transaction)
       (tx_occurred_at transaction) at_ (tx_metadata transaction) external_refs]) in
  let& _ := modify (insert_postings (imap (posting_row transaction seq at_) (tx_postings transaction))) in
  let& _ := insert_event (tx_book transaction) seq at_ (TransactionPosted transaction) in
  let& _ := notify (tx_book transaction) seq in
  sq_ret (mkCommitted (tx_id transaction) seq at_).

(** A row of "transactions" as an answer. *)
Definition committed_row {S} (r : TransactionRow) : db S Committed :=
  let& txid := get_row (parse_uuid (tr_tx_id r)) in
  sq_ret (mkCommitted txid (tr_seq r) (tr_committed_at r)).

Definition find_committed (book : Book) (idem : IdempotencyKey) : pg (option Committed) :=
  let& row := fetch (fun t =>
    List.find (fun r => String.eqb (tr_book r) book && String.eqb (tr_idempotency_key r) idem) (t_transactions t)) in
  match row with
  | None => sq_ret None
  | Some r => let& c := committed_row r in sq_ret (Some c)
  end.

Definition commit_draft (transaction : Transaction) : pg Committed :=
  let& prior := find_committed (tx_book transaction) (tx_idem transaction) in
  match prior with
  | Some prior => sq_ret prior
  | None =>
      let& pending := load_pending transaction in
      write_transaction transaction pending
  end.

Definition undo (i : nat) : Session -> result unit SqlxError * Session := fun s =>
  match pg_rollback_to i s with
  | (Ok _, s) => pg_release i s
  | (Err e, s) => (Err e, s)
  end.

Definition commit_in_savepoint (i : nat) (transaction : Transaction) : pg Committed :=
  if is_reserved (tx_book transaction) then sq_fail (Plain (InvalidBook (tx_book transaction)))
  else
    let& _ := tried (pg_savepoint i) in
    let& r := sq_try (commit_draft transaction) in
    match r with
    | Ok committed => let& _ := tried (pg_release i) in sq_ret committed
    | Err e => fun s =>
        match undo i s with
        | (Err undo_err, s) =>
            (Fail (IoBox (OtherE ("draft failed (" +:+ store_error_text (to_store_error e) +:+
               "); savepoint rollback also failed: " +:+ sqlx_text undo_err))), s)
        | (Ok _, s) =>
            if is_unique_violation e then
              (let& prior := find_committed (tx_book transaction) (tx_idem transaction) in
               match prior with Some prior => sq_ret prior | None => sq_fail e end) s
            else (Fail e, s)
        end
    end.

Fixpoint commit_drafts (i : nat) (txs : list Transaction) : pg (list (result Committed DbError)) :=
  match txs with
  | [] => sq_ret []
  | tx :: txs =>
      let& r := sq_try (commit_in_savepoint i tx) in
      let& rs := commit_drafts (S i) txs in
      sq_ret (r :: rs)
  end.

Definition commit_batch_per_draft (txs : list Transaction) : pg (list (result Committed DbError)) :=
  match txs with
  | [] => sq_ret []
  | _ => fun s =>
      match pool_begin s with
      | (Err e, s) => (Done (batch_failure e "failed to begin batch transaction" (length txs)), s)
      | (Ok _, s) =>
          (let& results := commit_drafts 0 txs in
           fun s =>
             match pg_commit s with
             | (Err e, s) => (Done (batch_failure e "batch commit failed" (length txs)), s)
             | (Ok _, s) => (Done results, s)
             end) s
      end
  end.

(** ** The [Store] trait *)

(** Number, log and announce an event, and commit. *)
Definition record_event (book : Book) (event : LedgerEvent) : pg unit :=
  let& (seq, at_) := next_seq book in
  let& _ := insert_event book seq at_ event in
  let& _ := notify book seq in
  tried pg_commit.

Definition register_asset (asset : AssetDef) : pg unit :=
  let& _ := tried pool_begin in
  let& row := fetch (fun t => t_assets t !! asset_id asset) in
  match row with
  | Some row =>
      let existing := decode_asset (asset_id asset) row in
      if bool_decide (existing = asset) then sq_ret ()
      else sq_fail (Plain (AlreadyExists ("asset " +:+ asset_id asset)))
  | None =>
      let& _ := modify (fun t =>
        match t_assets t !! asset_id asset with
        | Some _ => Err (UniqueConstraint "duplicate key value violates unique constraint assets_pkey")
        | None => Ok ((), with_assets (<[asset_id asset := asset_row asset]> (t_assets t)) t)
        end) in
      record_event SYSTEM_BOOK (AssetRegistered asset)
  end.

Definition open_account (def : AccountDef) (cfg : AccountCfg) : pg unit :=
  let book := acct_book (acct_id def) in
  if is_reserved book then sq_fail (Plain (InvalidBook book))
  else
    let key := to_key (acct_id def) in
    let& _ := tried pool_begin in
    let& asset_exists := fetch (fun t => t_assets t !! acct_asset def) in
    match asset_exists with
    | None => sq_fail (Plain (UnknownAsset (acct_asset def)))
    | Some _ =>
        let& row := fetch (fun t => t_accounts t !! key) in
        match row with
        | Some row =>
            if same_account row def cfg then sq_ret ()
            else sq_fail (Plain (AlreadyExists ("account " +:+ key)))
        | None =>
            let& _ := modify (fun t =>
              match t_accounts t !! key, t_assets t !! acct_asset def with
              | Some _, _ => Err (UniqueConstraint "duplicate key value violates unique constraint accounts_pkey")
              | None, None => Err foreign_key_violation
              | None, Some _ => Ok ((), with_accounts (<[key := accounts_row def cfg]> (t_accounts t)) t)
              end) in
            record_event book (AccountOpened def cfg)
        end
    end.

Definition commit (transaction : Transaction) : pg Committed :=
  if is_reserved (tx_book transaction) then sq_fail (Plain (InvalidBook (tx_book transaction)))
  else
    let& _ := tried pool_begin in
    let& r := sq_try (commit_draft transaction) in
    match r with
    | Ok committed => let& _ := tried pg_commit in sq_ret committed
    | Err e =>
        if is_unique_violation e then
          let& _ := tried pool_begin in
          let& prior := find_committed (tx_book transaction) (tx_idem transaction) in
          match prior with Some prior => sq_ret prior | None => sq_fail e end
        else sq_fail e
    end.

(** *** Reads *)

Definition signed_minor (r : PostingRow) : result Z SqlxError :=
  if String.eqb (po_direction r) "D" then Ok (po_minor r) else to_bigint (- po_minor r).

Fixpoint all_ok {A E} (l : list (result A E)) : result (list A) E :=
  match l with [] => Ok [] | r :: l => let? a := r in let? rest := all_ok l in Ok (a :: rest) end.

(** The aggregate of an account's postings up to a commit time. *)
Definition select_raw_at (key : string) (at_ : DateTime) (t : Tables) : result (Z * Z) SqlxError :=
  let rows := filter (fun r => po_account_key r = key /\ po_committed_at r <= at_) (t_postings t) in
  let? minors := all_ok (map signed_minor rows) in
  let? raw := sum_bigint minors in
  Ok (raw, sql_max (map po_seq rows)).

Definition balance (account : AccountId) (as_of : option DateTime) : pg BalanceSnapshot :=
  let key := to_key account in
  let& acct := load_account key in
  match acct with
  | None => sq_fail (Plain (UnknownAccount account))
  | Some acct =>
      let& (raw, updated_seq) :=
        match as_of with
        | None => pool_fetch (fun t =>
            Ok (match t_balances t !! key with Some r => (bigint (ba_balance r), ba_updated_seq r) | None => (0, 0) end))
        | Some at_ => pool_fetch (select_raw_at key at_)
        end in
      sq_ret (mkBalanceSnapshot (Amount_new (effective raw (row_normal_side acct)) (row_asset acct)) updated_seq)
  end.

Definition asset (id : AssetId) : pg (option AssetDef) :=
  let& row := pool_fetch (fun t => Ok (t_assets t !! id)) in
  sq_ret (decode_asset id <$> row).

Definition select_history (key : string) (after limit : Z) (t : Tables) : result (list PostingRow) SqlxError :=
  let rows := filter (fun r => po_account_key r = key /\ after < po_seq r) (t_postings t) in
  let? page := pg_limit limit (distinct_seqs rows) in
  Ok (sort_by posting_leb (filter (fun r => po_seq r <= sql_max page) rows)).

Fixpoint decode_postings {S} (account : AccountId) (rows : list PostingRow) : db S (list PostingRecord) :=
  match rows with
  | [] => sq_ret []
  | r :: rows =>
      let& direction := lift_db (ok_or (Direction_from_db (po_direction r)) (IoBox (OtherE "corrupt direction column"))) in
      let& txid := get_row (parse_uuid (po_tx_id r)) in
      let& rest := decode_postings account rows in
      sq_ret (mkPostingRecord (po_seq r) txid account (Amount_new (po_minor r) (po_asset r)) direction (po_committed_at r) :: rest)
  end.

Definition account_history (account : AccountId) (after_seq : option Seq) (limit : Z) : pg (list PostingRecord) :=
  let key := to_key account in
  let& acct := load_account key in
  match acct with
  | None => sq_fail (Plain (UnknownAccount account))
  | Some _ =>
      let& rows := pool_fetch (select_history key (default 0 after_seq) (limit_i64 limit)) in
      decode_postings account rows
  end.

(** "SELECT .. WHERE book = $1 AND seq >= $2 ORDER BY seq LIMIT $3" *)
Definition select_events (book : Book) (from : Seq) (limit : Z) (t : Tables) : result (list EventRow) SqlxError :=
  pg_limit limit (sort_by (fun a b => ev_seq a <=? ev_seq b)
    (filter (fun r => ev_book r = book /\ from <= ev_seq r) (t_events t))).

Definition fetch_events (book : Book) (from : Seq) (limit : Z) : pg (list (Sequenced LedgerEvent)) :=
  let& rows := pool_fetch (select_events book from limit) in
  lift_db (decode_events rows).

Definition transaction (txid : TxId) : pg (option StoredTransaction) :=
  let& row := pool_fetch (fun t => Ok (List.find (fun r => String.eqb (tr_tx_id r) (uuid_text txid)) (t_transactions t))) in
  match row with
  | None => sq_ret None
  | Some row =>
      let& events := fetch_events (tr_book row) (tr_seq row) 1 in
      let missing := IoBox (OtherE ("event log missing transaction_posted for tx " +:+ uuid_text txid)) in
      match events with
      | ev :: _ =>
          match s_event ev with
          | TransactionPosted transaction =>
              if tx_id transaction =? txid
              then sq_ret (Some (mkStoredTransaction transaction (tr_seq row) (tr_committed_at row)))
              else sq_fail missing
          | _ => sq_fail missing
          end
      | [] => sq_fail missing
      end
  end.

Definition side_minor (side : string) (r : PostingRow) : Z := if String.eqb (po_direction r) side then po_minor r else 0.

(** "GROUP BY asset ORDER BY asset" *)
Fixpoint group_rows (assets : list string) (rows : list PostingRow) : result (list TrialBalanceRow) SqlxError :=
  match assets with
  | [] => Ok []
  | a :: assets =>
      let mine := filter (fun r => po_asset r = a) rows in
      let? debits := sum_bigint (map (side_minor "D") mine) in
      let? credits := sum_bigint (map (side_minor "C") mine) in
      let? rest := group_rows assets rows in
      Ok (mkTrialBalanceRow a debits credits :: rest)
  end.

Definition select_trial (book : Book) (as_of : option DateTime) (t : Tables) : result (list TrialBalanceRow) SqlxError :=
  let rows := filter (fun r => po_book r = book /\ match as_of with None => true | Some at_ => po_committed_at r <=? at_ end = true)
                (t_postings t) in
  group_rows (sort_by text_leb (remove_dups (map po_asset rows))) rows.

Definition trial_balance (book : Book) (as_of : option DateTime) : pg (list TrialBalanceRow) :=
  pool_fetch (select_trial book as_of).

Definition read_events (book : Book) (from : Seq) (limit : Z) : pg (list (Sequenced LedgerEvent)) :=
  fetch_events book from (limit_i64 limit).
End postgres.
