(* ===== verification/PgSpec.v ===== *)
(** The PostgreSQL store (Pg.v, Postgres.v): the names of its notification channels
    (talea-store-postgres/src/helpers.rs), and its statements against a history,
    what one leaves in a session that nothing disturbs, what other sessions may
    have added before it, and the upserts and inserts it is made of. *)

From S2P Require Import Prelude Decimal Core Disk Sql Sqlite SqliteSpec SqliteCommit SqliteHistory Pg Postgres.
Open Scope Z_scope.

Lemma hex_padded_length w z : String.length (hex_padded w z) = w.
Proof. revert z. induction w as [|w IH]; intros z; [done|]. cbn [hex_padded]. rewrite length_append, IH. cbn. lia. Qed.

Lemma substring_length n s : (n <= String.length s)%nat -> String.length (String.substring 0 n s) = n.
Proof. revert n. induction s as [|c s IH]; intros [|n] Hn; cbn in *; [done|lia|done|]. rewrite IH; lia. Qed.

Lemma boundary_before_spec s i : (boundary_before s i <= i)%nat /\ is_char_boundary s (boundary_before s i) = true /\
  forall j, (boundary_before s i < j <= i)%nat -> is_char_boundary s j = false.
Proof.
  induction i as [|i (IHl & IHb & IHn)]; cbn [boundary_before]; [split; [done|split; [done|lia]]|].
  destruct (is_char_boundary s (S i)) eqn:E; [split; [done|split; [done|lia]]|]. split; [lia|]. split; [done|].
  intros j Hj. destruct (decide (j = S i)) as [->|]; [done|]. apply IHn. lia.
Qed.

Lemma channel_fits book : (String.length (book_channel_name book) <= 63)%nat.
Proof.
  unfold book_channel_name. destruct (_ <=? 63)%nat eqn:E; bool_to_prop; [done|].
  set (full := "talea_" +:+ book) in *. destruct (boundary_before_spec full (Nat.min 46 (String.length full))) as (Hl & _).
  rewrite length_append, substring_length by lia. cbn [String.append String.length]. rewrite hex_padded_length. lia.
Qed.

(** C40: Every book has a channel that PostgreSQL accepts unshortened: a name of
    up to 57 bytes is used whole, a longer one is a prefix of whole characters,
    of at most 46 bytes and as long as that allows, and the 16 hexadecimal
    digits of the whole name's hash. *)
Theorem channel_name_exact book :
  let channel := book_channel_name book in
  let full := "talea_" +:+ book in
  (String.length channel < NAMEDATALEN)%nat /\
  ((String.length book <= 57)%nat -> channel = full) /\
  ((57 < String.length book)%nat -> exists n,
     channel = String.substring 0 n full +:+ "_" +:+ hex_padded 16 (fnv1a full) /\
     (n <= 46)%nat /\ is_char_boundary full n = true /\ forall j, (n < j <= 46)%nat -> is_char_boundary full j = false).
Proof.
  cbn zeta. split; [pose proof (channel_fits book); unfold NAMEDATALEN; lia|]. unfold book_channel_name. cbn zeta.
  assert (String.length ("talea_" +:+ book) = 6 + String.length book)%nat as -> by apply length_append. split.
  - intros Hb. destruct (_ <=? 63)%nat eqn:E; [done|]. bool_to_prop. lia.
  - intros Hb. destruct (_ <=? 63)%nat eqn:E; bool_to_prop; [lia|]. rewrite Nat.min_l by lia.
    destruct (boundary_before_spec ("talea_" +:+ book) 46) as (Hl & Hc & Hn). by eexists.
Qed.

Lemma notify_calm_channel book : (NAMEDATALEN <=? String.length (book_channel_name book))%nat = false.
Proof. apply Nat.leb_gt. pose proof (channel_fits book). unfold NAMEDATALEN. lia. Qed.

(** ** A session that nothing disturbs *)

Record calm (s : Session) : Prop := {
  cm_faults : faults s = [];
  cm_peers : peers s = [];
  cm_aborted : aborted s = false
}.

Lemma statement_calm {A} (run : Session -> result (A * Session) SqlxError) s :
  calm s -> statement run s = match run s with Ok (a, s) => (Ok a, s) | Err e => (Err e, set_aborted true s) end.
Proof.
  intros [Hf Hp Ha]. unfold statement, contact, interleave, peer_commits. rewrite Hf, Ha, Hp. by destruct (x_work (txn s)).
Qed.

Lemma fetch_calm {A} (q : Tables -> A) s : calm s -> fetch q s = (Done (q (view s)), s).
Proof. intros Hs. unfold fetch, tried. by rewrite statement_calm. Qed.

(** The session after a write. *)
Definition wrote (t : Tables) (s : Session) : Session := set_txn (mkTxn (Some t) (x_queue (txn s))) s.

Lemma modify_calm {A} (q : Tables -> result (A * Tables) SqlxError) s :
  calm s -> modify q s = match q (view s) with Ok (a, t) => (Done a, wrote t s) | Err e => (Fail (io_err (SqlxE e)), set_aborted true s) end.
Proof. intros Hs. unfold modify, tried. rewrite statement_calm by done. unfold write_tables. by destruct (q (view s)) as [[a t]|e]. Qed.

Lemma calm_wrote t s : calm s -> calm (wrote t s).
Proof. by intros []. Qed.
Lemma view_wrote t s : view (wrote t s) = t.
Proof. done. Qed.
Lemma wrote_wrote t t' s : wrote t' (wrote t s) = wrote t' s.
Proof. done. Qed.
#[export] Hint Resolve calm_wrote : talea.

(** ** A session among others *)

(** The other sessions keep the tables a history. *)
Definition peer_ok `{UuidText} `{Json LedgerEvent} `{Json (list ExternalRef)} (f : Tables -> Tables) : Prop :=
  forall t h, db_ok t h -> exists evs, db_ok (f t) (h ++ evs).

(** What the others do to a session that only reads. *)
Record env (s s' : Session) : Prop := {
  ev_txn : txn s' = txn s;
  ev_spots : spots s' = spots s;
  ev_aborted : aborted s' = aborted s;
  ev_wall : wall s' = wall s;
  ev_reads : reads_of_wall s' = reads_of_wall s;
  ev_delivered : delivered s' = delivered s;
  ev_peers : exists l, peers s = l ++ peers s' /\ durable s' = foldl (fun t f => f t) (durable s) l;
  ev_steady : x_work (txn s) <> None -> durable s' = durable s
}.

#[export] Instance env_preorder : PreOrder env.
Proof.
  split; [intros s; split; try done; by exists []|]. intros a b c Hab Hbc.
  destruct (ev_peers _ _ Hab) as (l & Hl & Hd), (ev_peers _ _ Hbc) as (l' & Hl' & Hd').
  destruct Hab as [T1 S1 A1 W1 R1 D1 _ E1], Hbc as [T2 S2 A2 W2 R2 D2 _ E2].
  split; try congruence; [|intros Hw; rewrite <- (E1 Hw); apply E2; by rewrite T1].
  exists (l ++ l'). split; [by rewrite Hl, Hl', app_assoc|]. by rewrite Hd', Hd, foldl_app.
Qed.

Lemma env_interleave s : env s (interleave s).
Proof.
  unfold interleave. destruct (x_work (txn s)) eqn:E; [done|]. unfold peer_commits.
  destruct (peers s) as [|f fs] eqn:Ep; [done|]. split; try done. exists [f]. by rewrite Ep.
Qed.

Lemma env_faults l s : env s (set_faults l s).
Proof. split; try done. by exists []. Qed.

(** The session freed from others and faults. *)
Definition calmed (s : Session) : Session := set_faults [] (set_peers [] s).

Lemma calm_calmed s : aborted s = false -> calm (calmed s).
Proof. by split. Qed.

Lemma statement_Ok {A} (run : Session -> result (A * Session) SqlxError) s a s' :
  statement run s = (Ok a, s') ->
  aborted s = false /\ exists s1, env s s1 /\ (x_work (txn s) <> None -> peers s1 = peers s) /\
    calmed (interleave s) = calmed s1 /\ run s1 = Ok (a, s').
Proof.
  unfold statement, contact. intros Hr.
  assert (exists l, (if aborted s then (Err in_failed_transaction, set_faults l s) else
    match run (interleave (set_faults l s)) with Ok (a0, s2) => (Ok a0, s2) | Err e => (Err e, set_aborted true (interleave (set_faults l s))) end) = (Ok a, s')) as [l Hl].
  { destruct (faults s) as [|[|e|e] fs] eqn:E; [exists []|by exists fs|done..].
    replace (set_faults [] s) with s by (destruct s; cbn in *; by subst). done. }
  destruct (aborted s); [done|]. split; [done|]. exists (interleave (set_faults l s)).
  split; [etrans; [apply (env_faults l)|apply env_interleave]|].
  assert (peers (interleave (set_faults l s)) = peers (interleave s) /\ calmed (interleave s) = calmed (interleave (set_faults l s))) as [-> Hc].
  { unfold interleave. cbn. destruct (x_work (txn s)); [done|]. unfold peer_commits. cbn. by destruct (peers s). }
  split; [unfold interleave; by destruct (x_work (txn s))|]. split; [done|].
  destruct (run _) as [[a0 s2]|e]; [congruence|done].
Qed.

Lemma tried_Done {A} (c : Session -> result A SqlxError * Session) s a s' : tried c s = (Done a, s') <-> c s = (Ok a, s').
Proof. unfold tried. destruct (c s) as [[x|e] s1]; naive_solver. Qed.

(** A query sees the transaction's tables, or what is durable by then. *)
Lemma fetch_Done {A} (q : Tables -> A) s a s' : fetch q s = (Done a, s') -> aborted s = false /\ env s s' /\ a = q (view s').
Proof.
  intros (Ha & s1 & He & _ & _ & [= <- <-])%tried_Done%statement_Ok. by split_and!.
Qed.

Section peers.
Context `{UuidText} `{Json LedgerEvent} `{Json (list ExternalRef)}.

Definition peers_ok (s : Session) : Prop := Forall peer_ok (peers s).

Lemma peers_history l t h : Forall peer_ok l -> db_ok t h -> exists evs, db_ok (foldl (fun t f => f t) t l) (h ++ evs).
Proof.
  intros Hl. revert t h. induction Hl as [|f l Hf _ IH]; intros t h Hdb; cbn; [exists []; by rewrite app_nil_r|].
  destruct (Hf t h Hdb) as [evs Hdb1]. destruct (IH _ _ Hdb1) as [evs2 Hdb2]. exists (evs ++ evs2). by rewrite app_assoc.
Qed.

Lemma env_peers s s' : peers_ok s -> env s s' -> peers_ok s'.
Proof. unfold peers_ok. intros Hp He. destruct (ev_peers _ _ He) as (l & Hl & _). rewrite Hl in Hp. by apply Forall_app in Hp as [_ ?]. Qed.

Lemma env_history s s' h : peers_ok s -> env s s' -> db_ok (view s) h -> exists evs, db_ok (view s') (h ++ evs).
Proof.
  intros Hp He Hdb. unfold view in *. rewrite (ev_txn _ _ He). destruct (x_work (txn s)) as [t|] eqn:E; cbn in *.
  - exists []. by rewrite app_nil_r.
  - destruct (ev_peers _ _ He) as (l & Hl & ->). unfold peers_ok in Hp. rewrite Hl in Hp. apply Forall_app in Hp as [Hp _].
    by apply peers_history.
Qed.

(** What others add: nothing, when there are none. *)
Definition alone (s : Session) (others : list Entry) : Prop := peers s = [] -> others = [].

Lemma env_alone s s' : env s s' -> peers s = [] -> peers s' = [] /\ durable s' = durable s.
Proof. intros He Hp. destruct (ev_peers _ _ He) as (l & Hl & ->). rewrite Hp in Hl. symmetry in Hl. by apply app_nil in Hl as [-> ->]. Qed.

Lemma env_grown s s' h : peers_ok s -> env s s' -> db_ok (view s) h -> exists others, db_ok (view s') (h ++ others) /\ alone s others.
Proof.
  intros Hp He Hdb. destruct (peers s) eqn:E.
  - exists []. rewrite app_nil_r. split; [|done]. destruct (env_alone _ _ He E) as [_ Hd]. unfold view in *. by rewrite (ev_txn _ _ He), Hd.
  - destruct (env_history _ _ _ Hp He Hdb) as [o Ho]. exists o. split; [done|]. unfold alone. by rewrite E.
Qed.

Lemma alone_nil s : alone s [].
Proof. done. Qed.

Lemma alone_env s s1 o1 o2 : env s s1 -> alone s o1 -> alone s1 o2 -> alone s (o1 ++ o2).
Proof. intros He Ha1 Ha2 Hp. destruct (env_alone _ _ He Hp) as [Hp1 _]. by rewrite (Ha1 Hp), (Ha2 Hp1). Qed.
End peers.

(** *** Once the transaction has written *)

(** A computation in a transaction that has written, and succeeds, does what it
    does undisturbed. *)
Definition steady {A} (m : pg A) : Prop := forall s a s', x_work (txn s) <> None -> m s = (Done a, s') ->
  m (calmed s) = (Done a, calmed s') /\ x_work (txn s') <> None /\ peers s' = peers s.

Lemma steady_ret {A} (a : A) : steady (sq_ret a).
Proof. by intros s b s' Hw [= -> ->]. Qed.
Lemma steady_fail {A} e : steady (@sq_fail Session A e).
Proof. by intros s b s' Hw. Qed.
Lemma steady_panic {A} : steady (@sq_panic Session A).
Proof. by intros s b s' Hw. Qed.
Lemma steady_bind {A B} (m : pg A) (k : A -> pg B) : steady m -> (forall a, steady (k a)) -> steady (sq_bind m k).
Proof.
  intros Hm Hk s b s' Hw (a & s1 & H1 & H2)%sq_bind_Done. destruct (Hm _ _ _ Hw H1) as (H1' & Hw1 & Hp1).
  destruct (Hk _ _ _ _ Hw1 H2) as (H2' & Hw2 & Hp2). split; [|split; [done|congruence]]. apply sq_bind_Done. by exists a, (calmed s1).
Qed.
Lemma steady_lift_std {A} (r : result A string) : steady (lift_std r).
Proof. destruct r; by intros s b s' Hw [= <- <-]. Qed.
Lemma steady_lift_db {A} (r : result A DbError) : steady (lift_db r).
Proof. destruct r; by intros s b s' Hw [= <- <-]. Qed.
Lemma steady_get_row {A} (r : result A string) : steady (get_row r).
Proof. destruct r; by intros s b s' Hw [= <- <-]. Qed.
Lemma steady_clock : steady clock_timestamp.
Proof. by intros s a s' Hw [= <- <-]. Qed.

(** A statement whose run does not look at the others. *)
Lemma steady_statement {A} (run : Session -> result (A * Session) SqlxError) :
  (forall s a s', run s = Ok (a, s') -> run (calmed s) = Ok (a, calmed s') /\ peers s' = peers s /\
     (x_work (txn s) <> None -> x_work (txn s') <> None)) ->
  steady (tried (statement run)).
Proof.
  intros Hrun s a s' Hw Hs%tried_Done. apply statement_Ok in Hs as (Ha & s1 & He & Hp & Hc & Hr).
  destruct (Hrun _ _ _ Hr) as (Hr' & Hp' & Hw'). split.
  - apply tried_Done. rewrite statement_calm by by apply calm_calmed.
    assert (calmed s = calmed s1) as ->; [|by rewrite Hr']. rewrite <- Hc. unfold interleave. by destruct (x_work (txn s)).
  - split; [apply Hw'; by rewrite (ev_txn _ _ He)|]. rewrite Hp'. auto.
Qed.

Lemma steady_fetch {A} (q : Tables -> A) : steady (fetch q).
Proof. apply steady_statement. by intros s a s' [= <- <-]. Qed.

Lemma steady_modify {A} (q : Tables -> result (A * Tables) SqlxError) : steady (modify q).
Proof.
  apply steady_statement. intros s a s'. unfold write_tables. change (view (calmed s)) with (view s).
  destruct (q (view s)) as [[x t]|e]; [|done]. by intros [= <- <-].
Qed.

Lemma steady_notify c p : steady (pg_notify c p).
Proof. apply steady_statement. intros s a s'. destruct (_ <=? _)%nat; [done|]. by intros [= <- <-]. Qed.
#[export] Hint Resolve steady_ret steady_fail steady_panic steady_bind steady_lift_std steady_lift_db steady_get_row steady_clock
  steady_fetch steady_modify steady_notify : talea.

(** The first write of a transaction: others commit before it. *)
Lemma modify_Done {A} (q : Tables -> result (A * Tables) SqlxError) s a s' :
  modify q s = (Done a, s') -> aborted s = false /\ exists s1, env s s1 /\
    modify q (calmed s1) = (Done a, calmed s') /\ x_work (txn s') <> None /\ peers s' = peers s1.
Proof.
  intros Hm. apply tried_Done, statement_Ok in Hm as (Ha & s1 & He & _ & _ & Hr). split; [done|]. exists s1. split; [done|].
  unfold write_tables in Hr. destruct (q (view s1)) as [[x t]|e] eqn:Eq; [|done]. injection Hr as <- <-.
  rewrite modify_calm by (apply calm_calmed; by rewrite (ev_aborted _ _ He)). change (view (calmed s1)) with (view s1). by rewrite Eq.
Qed.

Lemma claim_Done book n s q s' :
  claim_seqs book n s = (Done q, s') -> aborted s = false /\ exists s1, env s s1 /\
    claim_seqs book n (calmed s1) = (Done q, calmed s') /\ x_work (txn s') <> None /\ peers s' = peers s1.
Proof.
  unfold claim_seqs. intros (z & s0 & Hm & Hk)%sq_bind_Done. apply modify_Done in Hm as (Ha & s1 & He & Hm & Hw & Hp).
  split; [done|]. exists s1. split; [done|].
  assert (forall a : Seq, steady (let& at_ := clock_timestamp in sq_ret (a, at_))) as Hst by auto with talea.
  destruct (Hst _ _ _ _ Hw Hk) as (Hk' & ? & ?). split; [apply sq_bind_Done; by exists z, (calmed s0)|]. split; congruence.
Qed.

(** ** The statements *)

Lemma to_bigint_Ok z x : to_bigint z = Ok x <-> x = z /\ in_i64 z = true.
Proof. unfold to_bigint. destruct (in_i64 z); naive_solver. Qed.

Lemma claim_calm s h b n :
  calm s -> (forall b, t_books (view s) !! b = match length (book_log b h) with O => None | n => Some (Int (Z.of_nat n)) end) ->
  0 <= n -> let last := Z.of_nat (length (book_log b h)) + n in
  match claim_seqs b n s with
  | (Done (q, at_), s') => q = last /\ last <= i64_max /\ at_ = wall s (reads_of_wall s) / 1000 * 1000 /\
      s' = wrote (with_books (<[b := Int last]> (t_books (view s))) (view s))
             (mkSession (durable s) (txn s) (spots s) (aborted s) (faults s) (peers s) (wall s) (S (reads_of_wall s)) (delivered s))
  | (Fail e, _) => ~ last <= i64_max /\ is_unique_violation e = false
  | (Panicked, _) => False
  end.
Proof.
  intros Hs Hb Hn last. unfold claim_seqs, sq_bind. rewrite modify_calm by done. rewrite Hb.
  assert (match (match length (book_log b h) with O => None | S n => Some (Int (Z.of_nat (S n))) end) with
          | None => 0 | Some c => bigint c end + n = last) as ->.
  { unfold last. by destruct (length (book_log b h)). }
  unfold to_bigint. destruct (in_i64 last) eqn:E; cbn.
  - apply in_i64_spec in E as [_ E]. done.
  - split; [|done]. intros Hl. apply not_true_iff_false in E. apply E, in_i64_spec. unfold i64_min in *. lia.
Qed.

Lemma upsert_rows_spec ds : forall b, NoDup (map bd_key ds) ->
  match upsert_rows ds b with
  | Ok (rows, b') => map fst rows = map bd_key ds /\
      (forall d, d ∈ ds -> exists row, upsert_row d (b !! bd_key d) = Ok row /\ b' !! bd_key d = Some row /\
         (bd_key d, bigint (ba_balance row)) ∈ rows) /\
      (forall k, k ∉ map bd_key ds -> b' !! k = b !! k)
  | Err e => exists d, d ∈ ds /\ upsert_row d (b !! bd_key d) = Err e
  end.
Proof.
  induction ds as [|d ds IH]; intros b Hnd; cbn [upsert_rows]; [split; [done|]; split; [by intros d ?%elem_of_nil|done]|].
  cbn [map] in Hnd. apply NoDup_cons in Hnd as [Hnin Hnd]. destruct (upsert_row d (b !! bd_key d)) as [row|e] eqn:Er; [|by exists d; split; [left|]].
  assert (forall d', d' ∈ ds -> <[bd_key d := row]> b !! bd_key d' = b !! bd_key d') as Hsame.
  { intros d' Hd'. apply lookup_insert_ne. intros He. apply Hnin. rewrite He. by apply (list_elem_of_fmap_2 bd_key). }
  specialize (IH (<[bd_key d := row]> b) Hnd). destruct (upsert_rows ds _) as [[rows b']|e].
  - destruct IH as (Hf & Hin & Hout). split; [cbn; by rewrite Hf|]. split.
    + intros d' [->|Hd']%elem_of_cons.
      * exists row. split; [done|]. rewrite Hout, lookup_insert_eq by done. split; [done|by left].
      * destruct (Hin d' Hd') as (row' & Hr' & Hb' & Hrow'). rewrite Hsame in Hr' by done. exists row'. split_and!; [done..|by right].
    + intros k Hk. cbn [map] in Hk. apply not_elem_of_cons in Hk as [Hne Hk]. rewrite Hout by done. by apply lookup_insert_ne.
  - destruct IH as (d' & Hd' & He). rewrite Hsame in He by done. exists d'. split; [by right|done].
Qed.

Lemma upsert_row_unique d old e : upsert_row d old = Err e -> is_unique_violation (io_err (SqlxE e)) = false.
Proof. unfold upsert_row, to_bigint. destruct old as [r|]; [|done]. destruct (in_i64 _); naive_solver. Qed.

(** The balance upsert on accounts that exist. *)
Lemma upsert_balances_calm ds t : NoDup (map bd_key ds) -> (forall d, d ∈ ds -> is_Some (t_accounts t !! bd_key d)) ->
  match upsert_balances ds t with
  | Ok (rows, t') => exists b, t' = with_balances b t /\
      (forall d, d ∈ ds -> exists row, upsert_row d (t_balances t !! bd_key d) = Ok row /\ b !! bd_key d = Some row /\
         (list_to_map rows : gmap string Z) !! bd_key d = Some (bigint (ba_balance row))) /\
      (forall k, k ∉ map bd_key ds -> b !! k = t_balances t !! k)
  | Err e => exists d, d ∈ ds /\ upsert_row d (t_balances t !! bd_key d) = Err e
  end.
Proof.
  intros Hnd Hacc. unfold upsert_balances. rewrite (bool_decide_eq_true_2 (NoDup _)) by done. cbn [negb].
  pose proof (upsert_rows_spec ds (t_balances t) Hnd) as Hu. destruct (upsert_rows ds (t_balances t)) as [[rows b]|e]; [|done].
  destruct Hu as (Hf & Hin & Hout). assert (forallb (fun d => bool_decide (is_Some (t_accounts t !! bd_key d))) ds = true) as ->.
  { apply forallb_forall. intros d Hd%list_elem_of_In. apply bool_decide_eq_true. auto. }
  exists b. split; [done|]. split; [|done]. intros d Hd. destruct (Hin d Hd) as (row & Hr & Hb & Hrow). exists row. split_and!; [done..|].
  apply elem_of_list_to_map_1; [|done]. change (NoDup (map fst rows)). by rewrite Hf.
Qed.

(** Inserting rows: no clash with what is there, or between them. *)
Lemma insert_rows_spec {R} (clash : R -> R -> bool) name rows : forall old,
  match insert_rows clash name rows old with
  | Ok l => l = old ++ rows /\ (forall i r r', rows !! i = Some r -> r' ∈ old ++ take i rows -> clash r r' = false)
  | Err e => (exists i r r', rows !! i = Some r /\ r' ∈ old ++ take i rows /\ clash r r' = true) /\
      is_unique_violation (io_err (SqlxE e)) = true
  end.
Proof.
  induction rows as [|r rows IH]; intros old; cbn [insert_rows]; [rewrite app_nil_r; by split; [|intros i ? ? ?]|].
  destruct (existsb (clash r) old) eqn:Ex.
  - apply existsb_exists in Ex as (r' & Hr'%list_elem_of_In & Hc). split; [|done]. exists 0%nat, r, r'. cbn. by rewrite app_nil_r.
  - specialize (IH (old ++ [r])). destruct (insert_rows clash name rows (old ++ [r])) as [l|e].
    + destruct IH as [-> Hn]. split; [by rewrite <- app_assoc|]. intros [|i] x r' Hx Hr'; cbn in Hx, Hr'.
      * injection Hx as <-. rewrite app_nil_r in Hr'. apply not_true_iff_false. intros Hc. apply not_true_iff_false in Ex. apply Ex.
        apply existsb_exists. exists r'. split; [by apply list_elem_of_In|done].
      * apply (Hn i); [done|]. by rewrite <- app_assoc.
    + destruct IH as [(i & x & r' & Hx & Hr' & Hc) ?]. split; [|done]. exists (S i), x, r'. cbn. rewrite <- app_assoc in Hr'. done.
Qed.

Lemma insert_row_spec {R} (clash : R -> R -> bool) name row old :
  insert_rows clash name [row] old =
  if existsb (clash row) old then Err (UniqueConstraint ("duplicate key value violates unique constraint " +:+ name)) else Ok (old ++ [row]).
Proof. done. Qed.

(** *** Folding postings *)

Lemma fold_posting_eq L0 past p loaded pending (accounts : gmap string AccountRow) :
  (forall k, L0 k = accounts !! k) -> fold_inv L0 past loaded pending ->
  fold_posting accounts p pending = let? (_, q) := Sqlite.fold_posting p loaded pending in Ok q.
Proof.
  intros HL [Hl Hp Hf]. unfold fold_posting, Sqlite.fold_posting. destruct (pending !! _) as [e|] eqn:Ee.
  - destruct (negb _); [done|]. by destruct (checked_add _ _).
  - rewrite Hl. unfold loaded_of. rewrite Hp in Ee. rewrite (pending_none _ _ _ Hf Ee). cbn [head]. rewrite HL.
    destruct (accounts !! _) as [row|]; [|done]. cbn. destruct (negb _); [done|]. by case_match.
Qed.

Lemma fold_pending_eq L0 (accounts : gmap string AccountRow) ps : (forall k, L0 k = accounts !! k) ->
  forall past loaded pending, fold_inv L0 past loaded pending -> fold_pending accounts ps pending = Sqlite.fold_pending ps loaded pending.
Proof.
  intros HL. induction ps as [|p ps IH]; intros past loaded pending Hinv; [done|]. cbn [fold_pending Sqlite.fold_pending].
  rewrite (fold_posting_eq L0 past p loaded pending accounts HL Hinv). pose proof (fold_posting_spec L0 past p loaded pending Hinv) as Hs.
  destruct (Sqlite.fold_posting p loaded pending) as [[l q]|e]; [|done]. by apply (IH (past ++ [p])).
Qed.

Lemma fold_postings_spec `{HashIterLaws} tx (accounts : gmap string AccountRow) :
  match fold_postings tx accounts with
  | Ok l => foldable (fun k => accounts !! k) (tx_postings tx) /\ pending_list (fun k => accounts !! k) (tx_postings tx) l
  | Err e => ~ foldable (fun k => accounts !! k) (tx_postings tx)
  end.
Proof.
  unfold fold_postings. set (L0 := fun k => accounts !! k).
  assert (fold_inv L0 [] accounts ∅) as Hinv.
  { split; [done| |]; [intros k; by rewrite lookup_empty|]. split; [constructor|]. intros n k. by rewrite take_nil. }
  rewrite (fold_pending_eq L0 accounts (tx_postings tx) ltac:(done) [] accounts ∅ Hinv).
  pose proof (fold_pending_spec L0 (tx_postings tx) [] accounts ∅ Hinv) as Hf. cbn [app] in Hf.
  destruct (Sqlite.fold_pending _ _ _) as [pend|e]; [|done]. destruct Hf as [Hf Hp]. split; [done|]. by apply pending_list_of.
Qed.

Lemma fold_postings_unique `{HashIter} tx accounts e : fold_postings tx accounts = Err e -> is_unique_violation e = false.
Proof.
  unfold fold_postings. generalize (∅ : gmap string Pending). induction (tx_postings tx) as [|p ps IH]; intros m; cbn [fold_pending]; [done|].
  destruct (fold_posting accounts p m) as [q|e'] eqn:Ef; [apply IH|]. intros [= <-]. revert Ef. unfold fold_posting.
  repeat case_match; naive_solver.
Qed.
