(* ===== verification/PgCommit.v ===== *)
(** What a draft of the PostgreSQL store writes
    (talea-store-postgres/src/lib.rs): the steps of [write_transaction] in a
    session nothing disturbs, and the tables after them. *)

From S2P Require Import Prelude Decimal Core Disk Sql Sqlite SqliteSpec SqliteCommit SqliteHistory Pg Postgres PgSpec.
Open Scope Z_scope.

Section commit.
Context `{HashIterLaws} `{UuidTextLaws} `{Json LedgerEvent} `{Json (list ExternalRef)}.

(** The tables hold the accounts and balances of a history. *)
Record accounts_of (h : list Entry) (t : Tables) : Prop := {
  af_balances : forall key, t_balances t !! key = balance_row h key;
  af_accounts : forall key, decode_account <$> t_accounts t !! key = account_row_of h key
}.

Lemma db_accounts h t : db_ok t h -> accounts_of h t.
Proof.
  intros Hdb. split; [apply Hdb|]. intros key. rewrite (do_accounts _ _ Hdb). unfold account_row_of.
  destruct (opened h key) as [[def cfg]|]; [|done]. cbn. by rewrite decode_accounts_row.
Qed.

(** ** The balances *)

(** A delta on an account's row, when the account's balance stays in range. *)
Lemma upsert_row_pending h ps key p q :
  foldable (account_row_of h) ps -> pending_of (account_row_of h) ps key = Some p ->
  upsert_row (pending_delta q p) (balance_row h key) =
    (let? _ := to_bigint (new_balance h ps key) in Ok (upserted q p (balance_row h key))) /\
  bigint (ba_balance (upserted q p (balance_row h key))) = (if in_i64 (new_balance h ps key) then new_balance h ps key else 0).
Proof.
  intros Hf Hp. rewrite (upserted_cell h ps q key p Hf Hp). split; [|by unfold cell, new_balance; destruct (in_i64 _)].
  apply pending_of_inv in Hp as (x & row & _ & _ & ->). unfold upsert_row, upserted, new_balance, balance_row.
  destruct (last (account_rows key h)) as [r|] eqn:El; cbn.
  - unfold to_bigint, cell. by destruct (in_i64 _).
  - apply last_None in El. unfold balance_of. rewrite El. cbn. rewrite Z.add_0_l. unfold to_bigint. by rewrite (delta_in_range _ _ key Hf).
Qed.

Section upsert.
Variable h : list Entry.
Variable ps : list Posting.
Variable l : list Pending.
Hypothesis Hf : foldable (account_row_of h) ps.
Hypothesis Hl : pending_list (account_row_of h) ps l.

Lemma delta_keys seq : map bd_key (map (pending_delta seq) l) = map pd_key l.
Proof. by rewrite map_map. Qed.

Lemma upsert_pending_calm seq t :
  accounts_of h t ->
  match upsert_balances (map (pending_delta seq) l) t with
  | Ok (rows, t') =>
      (forall e, e ∈ l -> in_i64 (new_balance h ps (pd_key e)) = true /\
         (list_to_map rows : gmap string Z) !! pd_key e = Some (new_balance h ps (pd_key e))) /\
      exists b, t' = with_balances b t /\
        (forall key p, pending_of (account_row_of h) ps key = Some p -> b !! key = Some (upserted seq p (balance_row h key))) /\
        (forall key, of_key key ps = [] -> b !! key = balance_row h key)
  | Err err => is_unique_violation (io_err (SqlxE err)) = false /\ exists p, p ∈ ps /\ in_i64 (new_balance h ps (to_key (p_account p))) = false
  end.
Proof using Hf Hl.
  intros [Hbal Hacc]. pose proof (upsert_balances_calm (map (pending_delta seq) l) t) as Hup.
  rewrite delta_keys in Hup. specialize (Hup (pl_nodup _ _ _ Hl)).
  assert (forall e, e ∈ l -> pending_of (account_row_of h) ps (pd_key e) = Some e) as Hpe by (intros e; apply (pl_elem _ _ _ Hl)).
  assert (forall e, e ∈ l -> upsert_row (pending_delta seq e) (t_balances t !! pd_key e) =
    let? _ := to_bigint (new_balance h ps (pd_key e)) in Ok (upserted seq e (balance_row h (pd_key e)))) as Hrow.
  { intros e He. rewrite Hbal. by apply (upsert_row_pending h ps (pd_key e) e seq Hf), Hpe. }
  assert (forall d, d ∈ map (pending_delta seq) l -> is_Some (t_accounts t !! bd_key d)) as Hin.
  { intros d (e & -> & He)%list_elem_of_fmap. apply Hpe, pending_of_inv in He as (_ & row & _ & Hr & _). rewrite <- Hacc in Hr.
    cbn. fold (pd_key e). destruct (t_accounts t !! pd_key e); [eauto|done]. }
  specialize (Hup Hin). destruct (upsert_balances _ t) as [[rows t']|err].
  - destruct Hup as (b & -> & Hbin & Hbout).
    assert (forall e, e ∈ l -> in_i64 (new_balance h ps (pd_key e)) = true /\ b !! pd_key e = Some (upserted seq e (balance_row h (pd_key e))) /\
      (list_to_map rows : gmap string Z) !! pd_key e = Some (new_balance h ps (pd_key e))) as Hall.
    { intros e He. destruct (Hbin (pending_delta seq e)) as (row & Hr & Hb & Hm); [by apply (list_elem_of_fmap_2 (pending_delta seq))|].
      cbn [bd_key pending_delta] in *. fold (pd_key e) in *. rewrite (Hrow e He) in Hr. unfold to_bigint in Hr.
      destruct (in_i64 (new_balance h ps (pd_key e))) eqn:Ei; [|done]. injection Hr as <-. split_and!; [done..|].
      rewrite Hm. destruct (upsert_row_pending h ps (pd_key e) e seq Hf (Hpe e He)) as [_ ->]. by rewrite Ei. }
    split; [intros e He; by destruct (Hall e He) as (? & _ & ?)|]. exists b. split; [done|]. split.
    + intros key p Hp. pose proof (pending_of_key _ _ _ _ Hp) as Hk. subst key. apply Hall. by apply (pl_elem _ _ _ Hl).
    + intros key Hk. rewrite Hbout; [done|]. intros (e & -> & He)%list_elem_of_fmap.
      destruct (pending_posting _ _ _ _ Hl He) as (p & Hp & Hpk & _).
      assert (p ∈ of_key (pd_key e) ps) as Hin' by (by apply of_key_elem). rewrite Hk in Hin'. by apply elem_of_nil in Hin'.
  - destruct Hup as (d & (e & -> & He)%list_elem_of_fmap & Hd). split; [by eapply upsert_row_unique|].
    cbn [bd_key pending_delta] in Hd. fold (pd_key e) in Hd. rewrite (Hrow e He) in Hd. unfold to_bigint in Hd.
    destruct (pending_posting _ _ _ _ Hl He) as (p & Hp & Hpk & _). exists p. split; [done|]. rewrite Hpk. by destruct (in_i64 _).
Qed.
End upsert.

(** ** The rows *)

Lemma prior_clash h tx seq at_ refs e : prior h (tx_book tx) (tx_idem tx) = Some e ->
  existsb (transaction_pk (mkTransactionRow (uuid_text (tx_id tx)) (tx_book tx) seq (tx_idem tx) (tx_occurred_at tx) at_ (tx_metadata tx) refs))
    (all_transactions h) = true.
Proof.
  intros Hp. pose proof (find_transaction_row h (tx_book tx) (tx_idem tx)) as Hf. rewrite Hp in Hf. cbn in Hf.
  destruct (prior_posts _ _ _ _ Hp) as (tx' & Hev & _). unfold transaction_row in Hf. rewrite Hev in Hf.
  apply List.find_some in Hf as [Hin Hk]. apply existsb_exists. eexists. split; [exact Hin|]. unfold transaction_pk. cbn in *.
  by rewrite Hk, orb_true_r.
Qed.

Lemma insert_postings_calm h tx at_ t (e := posted h tx at_) :
  uuid_text (tx_id tx) ∉ map tr_tx_id (all_transactions h) ->
  t_postings t = all_postings h -> t_transactions t = all_transactions (h ++ [e]) ->
  (forall p, p ∈ tx_postings tx -> is_Some (t_accounts t !! to_key (p_account p))) ->
  insert_postings (posting_rows e) t = Ok ((), with_postings (all_postings (h ++ [e])) t).
Proof.
  intros Hfresh Hp Ht Hacc. unfold insert_postings. rewrite Hp.
  pose proof (insert_rows_spec posting_pk "postings_pkey" (posting_rows e) (all_postings h)) as Hi.
  destruct (insert_rows _ _ _ _) as [l|err].
  - destruct Hi as [-> _]. rewrite all_postings_snoc.
    assert (forallb (fun r => bool_decide (is_Some (t_accounts t !! po_account_key r)) &&
      existsb (fun x => String.eqb (tr_tx_id x) (po_tx_id r)) (t_transactions t)) (posting_rows e) = true) as ->; [|done].
    apply forallb_forall. intros r Hr%list_elem_of_In. destruct (posted_rows_elem h tx at_ r Hr) as (p & Hpin & Hk & _ & Hid & _).
    apply andb_true_iff. split; [apply bool_decide_eq_true; rewrite Hk; auto|]. apply existsb_exists. rewrite Ht, all_transactions_snoc.
    eexists. split; [apply list_elem_of_In, elem_of_app; right; by left|]. cbn. by rewrite Hid, String.eqb_refl.
  - exfalso. destruct Hi as [(i & r & r' & Hr & Hr' & Hc) _]. unfold posting_pk in Hc. bool_to_prop.
    assert (r ∈ posting_rows e) as Hin by (by eapply list_elem_of_lookup_2). apply posted_rows_elem in Hin as (p & _ & _ & _ & Hid & _).
    apply elem_of_app in Hr' as [Hr'|Hr'].
    + apply Hfresh. rewrite <- Hid. replace (po_tx_id r) with (po_tx_id r') by done. by apply posting_txid.
    + apply list_elem_of_lookup in Hr' as [j Hj]. apply lookup_take_Some in Hj as [Hj Hlt]. cbn in Hr, Hj.
      rewrite list_lookup_imap in Hr, Hj. destruct (tx_postings tx !! i), (tx_postings tx !! j); cbn in *; simplify_eq. cbn in *. lia.
Qed.

Lemma insert_event_calm h tx at_ s (e := posted h tx at_) :
  calm s -> history_ok h -> t_events (view s) = map event_row h ->
  match insert_event (tx_book tx) (en_seq e) at_ (TransactionPosted tx) s with
  | (Done _, s') => is_ok (to_vec (TransactionPosted tx)) = true /\ s' = wrote (with_events (t_events (view s) ++ [event_row e]) (view s)) s
  | (Fail err, _) => is_ok (to_vec (TransactionPosted tx)) = false
  | (Panicked, _) => False
  end.
Proof.
  intros Hs Hh Hev. unfold insert_event, sq_bind, event_row, payload_of. cbn [en_event posted next_entry e].
  destruct (to_vec (TransactionPosted tx)) as [pl|m] eqn:Ee; cbn [lift_std sq_ret]; [|done].
  rewrite modify_calm by done. unfold insert_events. rewrite insert_row_spec, Hev.
  pose proof (event_pk_fresh h (tx_book tx) at_ (TransactionPosted tx) Hh) as Hpk. fold (posted h tx at_) in Hpk. fold e in Hpk.
  change (existsb _ _) with (existsb (event_pk (tx_book tx) (en_seq e)) (map event_row h)). by rewrite Hpk.
Qed.

(** ** [write_transaction] *)

(** The session after a draft that posted: the clock was read once, and the
    book's notification is queued. *)
Definition drafted_pg (t : Tables) (b : Book) (seq : Seq) (s : Session) : Session :=
  mkSession (durable s) (mkTxn (Some t) (x_queue (txn s) ++ [(book_channel_name b, i64_to_string seq)])) (spots s) (aborted s)
    (faults s) (peers s) (wall s) (S (reads_of_wall s)) (delivered s).

Definition now_pg (s : Session) : DateTime := wall s (reads_of_wall s) / 1000 * 1000.

(** The writes after the balances. *)
Definition rows_pg (tx : Transaction) (seq : Seq) (at_ : DateTime) : pg unit :=
  let& external_refs := lift_std (to_vec (tx_external_refs tx)) in
  let& _ := modify (insert_transactions
    [mkTransactionRow (uuid_text (tx_id tx)) (tx_book tx) seq (tx_idem tx) (tx_occurred_at tx) at_ (tx_metadata tx) external_refs]) in
  let& _ := modify (insert_postings (imap (posting_row tx seq at_) (tx_postings tx))) in
  let& _ := insert_event (tx_book tx) seq at_ (TransactionPosted tx) in
  notify (tx_book tx) seq.

Lemma notify_calm b seq s : calm s ->
  notify b seq s = (Done (), set_txn (mkTxn (x_work (txn s)) (x_queue (txn s) ++ [(book_channel_name b, i64_to_string seq)])) s).
Proof. intros Hs. unfold notify, pg_notify, tried. rewrite statement_calm by done. by rewrite notify_calm_channel. Qed.

Lemma rows_pg_calm h tx at_ s (e := posted h tx at_) :
  calm s -> history_ok h -> t_transactions (view s) = all_transactions h -> t_postings (view s) = all_postings h ->
  t_events (view s) = map event_row h ->
  (forall p, p ∈ tx_postings tx -> is_Some (t_accounts (view s) !! to_key (p_account p))) ->
  match rows_pg tx (en_seq e) at_ s with
  | (Done _, s') =>
      prior h (tx_book tx) (tx_idem tx) = None /\ uuid_text (tx_id tx) ∉ map tr_tx_id (all_transactions h) /\
      is_ok (to_vec (TransactionPosted tx)) = true /\ is_ok (to_vec (tx_external_refs tx)) = true /\
      s' = set_txn (mkTxn (Some (with_events (t_events (view s) ++ [event_row e]) (with_postings (all_postings (h ++ [e]))
             (with_transactions (all_transactions (h ++ [e])) (view s)))))
             (x_queue (txn s) ++ [(book_channel_name (tx_book tx), i64_to_string (en_seq e))])) s
  | (Fail _, _) => prior h (tx_book tx) (tx_idem tx) <> None \/ ~ postable h tx
  | (Panicked, _) => False
  end.
Proof.
  intros Hs Hh Ht Hp Hev Hacc. unfold rows_pg, sq_bind at 1. destruct (to_vec (tx_external_refs tx)) as [refs|m] eqn:Er; cbn [lift_std sq_ret].
  2: { right. intros Hac. pose proof (ac_encoded _ _ Hac) as [_ He]. by rewrite Er in He. }
  unfold sq_bind at 1. rewrite modify_calm by done. unfold insert_transactions. rewrite insert_row_spec, Ht.
  destruct (prior h (tx_book tx) (tx_idem tx)) as [e0|] eqn:Ep; [rewrite (prior_clash h tx _ at_ refs e0 Ep); by left|].
  rewrite transaction_pk_spec by done. case_bool_decide as Hfresh; [right; intros Hac; by apply (ac_fresh _ _ Hac)|].
  set (t1 := with_transactions _ (view s)).
  assert (t1 = with_transactions (all_transactions (h ++ [e])) (view s)) as Ht1.
  { unfold t1. rewrite all_transactions_snoc. cbn [transaction_row posted next_entry e en_event]. unfold refs_of. by rewrite Er. }
  unfold sq_bind at 1. rewrite modify_calm by auto with talea. rewrite view_wrote.
  change (imap (posting_row tx (en_seq e) at_) (tx_postings tx)) with (posting_rows (posted h tx at_)).
  rewrite (insert_postings_calm h tx at_ t1 Hfresh); [|by rewrite Ht1|by rewrite Ht1|by rewrite Ht1]. rewrite wrote_wrote.
  set (t2 := with_postings _ t1). unfold sq_bind.
  pose proof (insert_event_calm h tx at_ (wrote t2 s) (calm_wrote _ _ Hs) Hh) as Hie. fold e in Hie. rewrite view_wrote in Hie.
  specialize (Hie ltac:(by unfold t2; rewrite Ht1)). destruct (insert_event _ _ _ _ (wrote t2 s)) as [[u|err|] s1]; [| |done].
  2: { right. intros Hac. pose proof (ac_encoded _ _ Hac) as [He _]. by rewrite Hie in He. }
  destruct Hie as [Henc ->]. rewrite wrote_wrote, notify_calm by auto with talea. split_and!; [done..|].
  unfold t2. rewrite Ht1. done.
Qed.

Lemma write_pg_phases tx l s :
  write_transaction tx l s =
  (let& (seq, at_) := next_seq (tx_book tx) in
   let& rows := modify (upsert_balances (map (pending_delta seq) l)) in
   let& _ := lift_db (check_min_balances (list_to_map rows) l) in
   let& _ := rows_pg tx seq at_ in
   sq_ret (mkCommitted (tx_id tx) seq at_)) s.
Proof. unfold write_transaction, rows_pg, sq_bind. repeat (case_match; simplify_eq; try done). Qed.

Lemma write_calm h tx l s (e := posted h tx (now_pg s)) :
  calm s -> db_ok (view s) h -> foldable (account_row_of h) (tx_postings tx) ->
  pending_list (account_row_of h) (tx_postings tx) l ->
  match write_transaction tx l s with
  | (Done c, s') => prior h (tx_book tx) (tx_idem tx) = None /\ postable h tx /\ committed_of e = Some c /\
      exists t, s' = drafted_pg t (tx_book tx) (en_seq e) s /\ db_ok t (h ++ [e])
  | (Fail _, _) => prior h (tx_book tx) (tx_idem tx) <> None \/ ~ postable h tx
  | (Panicked, _) => False
  end.
Proof.
  intros Hs Hdb Hf Hl. rewrite write_pg_phases. unfold sq_bind at 1, next_seq.
  pose proof (claim_calm s h (tx_book tx) 1 Hs (do_books _ _ Hdb) ltac:(lia)) as Hseq. cbn zeta in Hseq. rewrite Z.add_comm in Hseq.
  change (1 + Z.of_nat (length (book_log (tx_book tx) h))) with (en_seq e) in Hseq.
  destruct (claim_seqs (tx_book tx) 1 s) as [[[q at_]|err|] s1]; [| |done].
  2: { right. intros Hac. pose proof (ac_seq _ _ Hac). cbn in Hseq. lia. }
  destruct Hseq as (-> & Hmax & -> & ->). fold (now_pg s). set (sx := mkSession _ _ _ _ _ _ _ _ _). set (t1 := with_books _ _).
  assert (calm sx) as Hsx by (by destruct Hs).
  unfold sq_bind at 1. rewrite modify_calm by auto with talea. rewrite view_wrote.
  assert (accounts_of h t1) as Hacc.
  { destruct (db_accounts h (view s) Hdb). by split. }
  pose proof (upsert_pending_calm h (tx_postings tx) l Hf Hl (en_seq e) t1 Hacc) as Hup.
  destruct (upsert_balances (map (pending_delta (en_seq e)) l) t1) as [[zs t2]|err].
  2: { right. intros Hac. destruct Hup as (_ & p & Hp & Hr). pose proof (ac_range _ _ Hac p Hp) as Hr'. cbn zeta in Hr'. unfold new_balance in Hr. congruence. }
  destruct Hup as (Hzs & b & -> & Hbin & Hbout). unfold sq_bind at 1.
  pose proof (check_phase h (tx_postings tx) l Hf Hl zs (fun x Hx => proj2 (Hzs x Hx))) as Hchk. cbn zeta in Hchk.
  destruct (check_min_balances (list_to_map zs) l) as [u|err]; cbn [lift_db sq_ret]; [|right; intros Hac; apply Hchk; apply (ac_min _ _ Hac)].
  rewrite wrote_wrote. set (s4 := wrote _ sx). unfold sq_bind.
  apply foldable_history in Hf as Hf'. destruct Hf' as [Hopen Hdeltas].
  pose proof (rows_pg_calm h tx (now_pg s) s4 (calm_wrote _ _ Hsx) (do_history _ _ Hdb) (do_transactions _ _ Hdb)
    (do_postings _ _ Hdb) (do_events _ _ Hdb)) as Hrows.
  specialize (Hrows ltac:(intros p Hp; cbn; rewrite (do_accounts _ _ Hdb); destruct (Hopen p Hp) as (def & cfg & -> & _); eauto)).
  fold e in Hrows. destruct (rows_pg tx (en_seq e) (now_pg s) s4) as [[u'|err|] s5]; [|done..].
  destruct Hrows as (Hprior & Hfresh & Henc & Hrefs & ->).
  assert (postable h tx) as Hac.
  { split; [done|done| |done|done| |done].
    - intros p Hp. destruct (pending_touched _ _ _ p Hl Hf Hp) as (x & Hx & <- & _). by apply Hzs.
    - cbn in Hmax. lia. }
  split; [done|]. split; [done|]. split; [done|]. eexists. split; [unfold drafted_pg; cbn; reflexivity|].
  by apply (db_ok_posted (view s)).
Qed.
End commit.
