(* ===== verification/PgHistory.v ===== *)
(** The writes of the PostgreSQL store against the history
    (talea-store-postgres/src/lib.rs): [commit] beside other sessions, with
    statements that fail and a COMMIT whose answer may be lost. *)

From S2P Require Import Prelude Decimal Core Disk Sql Sqlite SqliteSpec SqliteCommit SqliteHistory Pg Postgres PgSpec PgCommit.
Open Scope Z_scope.

Section history.
Context `{HashIterLaws} `{UuidTextLaws} `{Json LedgerEvent} `{Json (list ExternalRef)}.

(** ** Histories that grow *)

Lemma account_rows_agree h evs ps p : foldable (account_row_of h) ps -> p ∈ ps ->
  account_row_of h (to_key (p_account p)) = account_row_of (h ++ evs) (to_key (p_account p)).
Proof.
  intros [Hf _]%foldable_history Hp. destruct (Hf p Hp) as (def & cfg & Ho & _). unfold account_row_of. by rewrite opened_app, Ho.
Qed.

(** What was loaded stays right while others commit. *)
Lemma pending_list_app h evs ps l : foldable (account_row_of h) ps -> pending_list (account_row_of h) ps l ->
  foldable (account_row_of (h ++ evs)) ps /\ pending_list (account_row_of (h ++ evs)) ps l.
Proof.
  intros Hf [Hn He Hl]. pose proof (fun p => account_rows_agree h evs ps p Hf) as Ha. split; [eapply foldable_ext; eauto|]. split; [done| |done].
  intros e. rewrite He. by rewrite (pending_of_ext _ (account_row_of (h ++ evs)) ps (pd_key e)) by eauto.
Qed.

(** ** What a computation inside a transaction leaves alone *)

Record kept (s s' : Session) : Prop := {
  kp_others : exists l, peers s = l ++ peers s' /\ durable s' = foldl (fun t f => f t) (durable s) l;
  kp_spots : spots s' = spots s;
  kp_delivered : delivered s' = delivered s;
  kp_wall : wall s' = wall s;
  kp_faults : faults s = [] -> faults s' = []
}.

#[export] Instance kept_preorder : PreOrder kept.
Proof.
  split; [intros s; split; try done; by exists []|]. intros a b c [(l & Hl & Hd) ? ? ? ?] [(l' & Hl' & Hd') ? ? ? ?].
  split; try congruence; [|auto]. exists (l ++ l'). by rewrite foldl_app, <- Hd, Hl, Hl', app_assoc.
Qed.

Definition is_kept {A} (m : pg A) : Prop := forall s, kept s (m s).2.

Lemma kept_ret {A} (a : A) : is_kept (sq_ret a).
Proof. by intros s. Qed.
Lemma kept_fail {A} e : is_kept (@sq_fail Session A e).
Proof. by intros s. Qed.
Lemma kept_panic {A} : is_kept (@sq_panic Session A).
Proof. by intros s. Qed.
Lemma kept_bind {A B} (m : pg A) (k : A -> pg B) : is_kept m -> (forall a, is_kept (k a)) -> is_kept (sq_bind m k).
Proof.
  intros Hm Hk s. unfold sq_bind. specialize (Hm s). destruct (m s) as [[a|e|] s1]; cbn in *; [|done..]. etrans; [exact Hm|apply Hk].
Qed.
Lemma kept_try {A} (m : pg A) : is_kept m -> is_kept (sq_try m).
Proof. intros Hm s. unfold sq_try. specialize (Hm s). by destruct (m s) as [[]]. Qed.
Lemma kept_lift_std {A} (r : result A string) : is_kept (lift_std r).
Proof. by destruct r; intros s. Qed.
Lemma kept_lift_db {A} (r : result A DbError) : is_kept (lift_db r).
Proof. by destruct r; intros s. Qed.
Lemma kept_get_row {A} (r : result A string) : is_kept (get_row r).
Proof. by destruct r; intros s. Qed.
Lemma kept_clock : is_kept clock_timestamp.
Proof. intros s. split; try done. by exists []. Qed.

Lemma kept_contact s : kept s (contact s).2.
Proof. unfold contact. destruct (faults s) eqn:E; [done|]. split; try done; [by exists []|]. by rewrite E. Qed.

Lemma kept_env s s' : env s s' -> (faults s = [] -> faults s' = []) -> kept s s'.
Proof. intros [] Hf. by split. Qed.

Lemma interleave_faults s : faults (interleave s) = faults s.
Proof. unfold interleave, peer_commits. by destruct (x_work (txn s)), (peers s). Qed.

Lemma kept_statement {A} (run : Session -> result (A * Session) SqlxError) :
  (forall s a s', run s = Ok (a, s') -> kept s s') -> is_kept (tried (statement run)).
Proof.
  intros Hrun s. unfold tried, statement. pose proof (kept_contact s) as Hc.
  assert (forall s0 : Session, kept s0 (set_aborted true s0)) as Hab by (intros s0; split; try done; by exists []).
  destruct (contact s) as [[|e|e] s0]; cbn in *; [|etrans; [exact Hc|apply Hab]..]. destruct (aborted s0); [done|].
  etrans; [exact Hc|]. etrans; [apply (kept_env _ _ (env_interleave s0)); by rewrite interleave_faults|].
  destruct (run (interleave s0)) as [[a s2]|e] eqn:Er; cbn; [by eapply Hrun|apply Hab].
Qed.

Lemma kept_txn x s : kept s (set_txn x s).
Proof. split; try done. by exists []. Qed.

Lemma kept_fetch {A} (q : Tables -> A) : is_kept (fetch q).
Proof. apply kept_statement. by intros s a s' [= <- <-]. Qed.
Lemma kept_modify {A} (q : Tables -> result (A * Tables) SqlxError) : is_kept (modify q).
Proof.
  apply kept_statement. intros s a s'. unfold write_tables. destruct (q (view s)) as [[x t]|e]; [|done]. intros [= <- <-]. apply kept_txn.
Qed.
Lemma kept_notify b q : is_kept (notify b q).
Proof. apply kept_statement. intros s a s'. destruct (_ <=? _)%nat; [done|]. intros [= <- <-]. apply kept_txn. Qed.
#[local] Hint Resolve kept_ret kept_fail kept_panic kept_bind kept_try kept_lift_std kept_lift_db kept_get_row kept_clock
  kept_fetch kept_modify kept_notify : talea.

Lemma kept_claim b n : is_kept (claim_seqs b n).
Proof. unfold claim_seqs. auto with talea. Qed.
Lemma kept_insert_event b q a ev : is_kept (insert_event b q a ev).
Proof. unfold insert_event. auto with talea. Qed.
Lemma kept_find b k : is_kept (find_committed b k).
Proof. unfold find_committed, committed_row. apply kept_bind; [auto with talea|]. intros [r|]; auto with talea. Qed.
#[local] Hint Resolve kept_claim kept_insert_event kept_find : talea.

Lemma kept_draft tx : is_kept (commit_draft tx).
Proof.
  unfold commit_draft. apply kept_bind; [auto with talea|]. intros [c|]; [auto with talea|]. apply kept_bind.
  - unfold load_pending, load_accounts. auto with talea.
  - intros l. unfold write_transaction, next_seq. apply kept_bind; [auto with talea|]. intros [q a]. auto 20 with talea.
Qed.

(** What is durable is left to the others, and to nobody, when there are none. *)
Lemma kept_alone s s' : kept s s' -> peers s = [] -> durable s' = durable s /\ peers s' = [].
Proof. intros [(l & Hl & ->) _ _ _ _] Hp. rewrite Hp in Hl. symmetry in Hl. by apply app_nil in Hl as [-> ->]. Qed.

Lemma kept_durable s s' h : kept s s' -> peers_ok s -> db_ok (durable s) h ->
  exists others, db_ok (durable s') (h ++ others) /\ peers_ok s' /\ alone s others.
Proof.
  intros Hk Hp Hdb. destruct (peers s) as [|f fs] eqn:E.
  - destruct (kept_alone _ _ Hk E) as [-> Hp']. exists []. rewrite app_nil_r. split; [done|]. split; [by unfold peers_ok; rewrite Hp'|done].
  - destruct Hk as [(l & Hl & ->) _ _ _ _]. unfold peers_ok in *. rewrite Hl in Hp. apply Forall_app in Hp as [Hp Hp'].
    destruct (peers_history l _ h Hp Hdb) as [evs ?]. exists evs. split; [done|]. split; [done|]. unfold alone. by rewrite E.
Qed.

Lemma alone_kept s s1 o1 o2 : kept s s1 -> alone s o1 -> alone s1 o2 -> alone s (o1 ++ o2).
Proof. intros Hk Ha1 Ha2 Hp. destruct (kept_alone _ _ Hk Hp) as [_ Hp1]. by rewrite (Ha1 Hp), (Ha2 Hp1). Qed.

(** ** The reads of a draft *)

Lemma sq_bind_Fail {S A B} (m : db S A) (k : A -> db S B) s e s' :
  sq_bind m k s = (Fail e, s') <-> m s = (Fail e, s') \/ exists a s1, m s = (Done a, s1) /\ k a s1 = (Fail e, s').
Proof. unfold sq_bind. destruct (m s) as [[a|e0|] s1]; naive_solver. Qed.

(** The answer on record for a key. *)
Definition answer (h : list Entry) (b : Book) (k : IdempotencyKey) : option Committed := e ← prior h b k; committed_of e.

Lemma find_Done s h b k o s' : find_committed b k s = (Done o, s') -> db_ok (view s') h ->
  aborted s = false /\ env s s' /\ o = answer h b k.
Proof.
  unfold find_committed. intros (row & s1 & (Ha & He & ->)%fetch_Done & Hk)%sq_bind_Done Hdb.
  assert (s' = s1) as ->.
  { destruct (List.find _ _) as [r|]; [|by injection Hk as <- <-]. unfold committed_row, get_row, sq_bind in Hk.
    destruct (parse_uuid (tr_tx_id r)); [|done]. by injection Hk as <- <-. }
  split; [done|]. split; [done|]. rewrite (do_transactions _ _ Hdb), find_transaction_row in Hk. unfold answer.
  destruct (prior h b k) as [e|] eqn:Ep; cbn in *; [|by injection Hk as <-].
  destruct (prior_posts _ _ _ _ Ep) as (tx & Hev & _). unfold transaction_row, committed_of in *. rewrite Hev in *. cbn in Hk.
  unfold committed_row, sq_bind in Hk. cbn in Hk. rewrite parse_uuid_text in Hk. by injection Hk as <-.
Qed.

Lemma find_calm s h b k : calm s -> db_ok (view s) h -> find_committed b k s = (Done (answer h b k), s).
Proof.
  intros Hs Hdb. unfold find_committed, sq_bind. rewrite fetch_calm, (do_transactions _ _ Hdb), find_transaction_row by done. unfold answer.
  destruct (prior h b k) as [e|] eqn:Ep; cbn; [|done]. destruct (prior_posts _ _ _ _ Ep) as (tx & Hev & _).
  unfold transaction_row, committed_of. rewrite Hev. cbn. unfold committed_row, sq_bind. cbn. by rewrite parse_uuid_text.
Qed.

Lemma answer_prior h b k c : answer h b k = Some c -> exists e, prior h b k = Some e /\ committed_of e = Some c.
Proof. unfold answer. destruct (prior h b k) as [e|]; [|done]. cbn. intros Hc. by exists e. Qed.

Lemma answer_None h b k : answer h b k = None -> prior h b k = None.
Proof.
  unfold answer. destruct (prior h b k) as [e|] eqn:Ep; [|done]. destruct (prior_posts _ _ _ _ Ep) as (tx & Hev & _). cbn. unfold committed_of. by rewrite Hev.
Qed.

(** Loading the accounts of some postings. *)
Lemma loaded_spec (t : Tables) h keys k : db_ok t h -> k ∈ keys ->
  (list_to_map (omap (fun key => r ← t_accounts t !! key; Some (key, decode_account r)) keys) : gmap string AccountRow) !! k = account_row_of h k.
Proof. intros Hdb Hk. rewrite select_lookup, decide_True by done. apply (af_accounts _ _ (db_accounts h t Hdb)). Qed.

Lemma load_accounts_Done keys s m s' : load_accounts keys s = (Done m, s') ->
  aborted s = false /\ env s s' /\
  m = list_to_map (omap (fun key => r ← t_accounts (view s') !! key; Some (key, decode_account r)) keys).
Proof. unfold load_accounts. intros (rows & s1 & (Ha & He & ->)%fetch_Done & [= <- <-])%sq_bind_Done. done. Qed.

Lemma fold_loaded tx (m : gmap string AccountRow) h :
  (forall p, p ∈ tx_postings tx -> m !! to_key (p_account p) = account_row_of h (to_key (p_account p))) ->
  match fold_postings tx m with
  | Ok l => foldable (account_row_of h) (tx_postings tx) /\ pending_list (account_row_of h) (tx_postings tx) l
  | Err _ => ~ foldable (account_row_of h) (tx_postings tx)
  end.
Proof.
  intros Hm. pose proof (fold_postings_spec tx m) as Hs. destruct (fold_postings tx m) as [l|e].
  - destruct Hs as [Hf [Hn He Hl]]. split; [exact (foldable_ext (fun k => m !! k) _ _ Hm Hf)|]. split; [done| |done].
    intros e. rewrite He. by rewrite (pending_of_ext (fun k => m !! k) (account_row_of h) _ _ Hm).
  - intros Hf. apply Hs. apply (foldable_ext (account_row_of h) (fun k => m !! k)); [|done]. intros p Hp. symmetry. by apply Hm.
Qed.

Lemma load_Done tx s l s' h : load_pending tx s = (Done l, s') -> db_ok (view s') h ->
  env s s' /\ foldable (account_row_of h) (tx_postings tx) /\ pending_list (account_row_of h) (tx_postings tx) l.
Proof.
  unfold load_pending. intros (m & s1 & (Ha & He & ->)%load_accounts_Done & Hf)%sq_bind_Done Hdb.
  assert (s' = s1) as -> by (destruct (fold_postings _ _); [by injection Hf as <- <-|done]). split; [done|].
  set (m := list_to_map _) in *. pose proof (fold_loaded tx m h) as Hs.
  specialize (Hs ltac:(intros p Hp; apply loaded_spec; [done|by apply posting_keys_elem])).
  destruct (fold_postings tx m) as [l'|e]; [|done]. by injection Hf as <-.
Qed.

Lemma load_calm tx s h : calm s -> db_ok (view s) h ->
  match load_pending tx s with
  | (Done l, s') => s' = s /\ foldable (account_row_of h) (tx_postings tx) /\ pending_list (account_row_of h) (tx_postings tx) l
  | (Fail _, s') => ~ foldable (account_row_of h) (tx_postings tx)
  | (Panicked, _) => False
  end.
Proof.
  intros Hs Hdb. unfold load_pending, load_accounts, sq_bind. rewrite fetch_calm by done. cbn [sq_ret].
  set (m := list_to_map _). pose proof (fold_loaded tx m h) as Hf.
  specialize (Hf ltac:(intros p Hp; apply loaded_spec; [done|by apply posting_keys_elem])).
  destruct (fold_postings tx m) as [l|e]; cbn; by try split.
Qed.

(** ** A draft *)

Lemma write_Done tx l s c s' : write_transaction tx l s = (Done c, s') ->
  aborted s = false /\ exists s1, env s s1 /\ write_transaction tx l (calmed s1) = (Done c, calmed s') /\ peers s' = peers s1.
Proof.
  unfold write_transaction, next_seq. intros ([q a] & s0 & Hc & Hk)%sq_bind_Done. apply claim_Done in Hc as (Ha & s1 & He & Hc & Hw & Hp).
  split; [done|]. exists s1. split; [done|].
  match type of Hk with ?m s0 = _ => assert (steady m) as Hst end.
  { unfold insert_event, notify. auto 20 with talea. }
  destruct (Hst _ _ _ Hw Hk) as (Hk' & _ & Hp'). split; [|congruence]. apply sq_bind_Done. by exists (q, a), (calmed s0).
Qed.

(** The notification of an event. *)
Definition note_of (e : Entry) : string * string := (book_channel_name (en_book e), i64_to_string (en_seq e)).

(** What a draft that succeeded left: the answer on record, or the next event
    in the tables and its notification in the queue. *)
Record drafted_ok (h : list Entry) (tx : Transaction) (s : Session) (c : Committed) (s' : Session) (others evs : list Entry) : Prop := {
  dk_aborted : aborted s = false /\ aborted s' = false;
  dk_peers : peers_ok s';
  dk_alone : alone s others;
  dk_spots : spots s' = spots s;
  dk_delivered : delivered s' = delivered s;
  dk_view : db_ok (view s') (h ++ others ++ evs);
  dk_spec : exists at_, draft_spec_by postable (h ++ others) tx at_ (Some c) evs;
  dk_queue : x_queue (txn s') = x_queue (txn s) ++ map note_of evs
}.

Lemma draft_sound h tx s c s' :
  peers_ok s -> db_ok (view s) h -> commit_draft tx s = (Done c, s') -> exists others evs, drafted_ok h tx s c s' others evs.
Proof.
  intros Hp Hdb Hc. unfold commit_draft in Hc. apply sq_bind_Done in Hc as (o & s1 & Hf & Hc).
  assert (exists o1, db_ok (view s1) (h ++ o1) /\ alone s o1 /\ peers_ok s1 /\ aborted s = false /\ env s s1 /\ o = answer (h ++ o1) (tx_book tx) (tx_idem tx))
    as (o1 & Hdb1 & Hal1 & Hp1 & Ha & He1 & ->).
  { assert (aborted s = false /\ env s s1) as [Ha He].
    { unfold find_committed in Hf. apply sq_bind_Done in Hf as (r & s2 & (Ha & He & _)%fetch_Done & Hk). split; [done|].
      destruct r as [r|]; [|by injection Hk as <- <-]. unfold committed_row, sq_bind in Hk. destruct (parse_uuid (tr_tx_id r)); [|done].
      by injection Hk as <- <-. }
    destruct (env_grown _ _ _ Hp He Hdb) as (o1 & Hdb1 & Hal1). exists o1. destruct (find_Done _ _ _ _ _ _ Hf Hdb1) as (_ & _ & ->).
    split_and!; [done..| |done|done|done]. by eapply env_peers. }
  destruct (answer (h ++ o1) (tx_book tx) (tx_idem tx)) as [prior0|] eqn:Ean.
  { injection Hc as <- <-. exists o1, []. apply answer_prior in Ean as (e & He & Hce). split.
    - split; [done|]. by rewrite (ev_aborted _ _ He1).
    - done.
    - done.
    - apply He1.
    - apply He1.
    - by rewrite app_nil_r.
    - exists 0. by eapply spec_prior.
    - by rewrite (ev_txn _ _ He1), app_nil_r. }
  apply sq_bind_Done in Hc as (l & s2 & Hl & Hw).
  assert (env s1 s2) as He2.
  { unfold load_pending in Hl. apply sq_bind_Done in Hl as (m & s2' & (_ & He & _)%load_accounts_Done & Hl). destruct (fold_postings tx m); [by injection Hl as <- <-|done]. }
  destruct (env_grown _ _ _ Hp1 He2 Hdb1) as (o2 & Hdb2 & Hal2). destruct (load_Done _ _ _ _ _ Hl Hdb2) as (_ & Hf2 & Hl2).
  apply write_Done in Hw as (Ha2 & s3 & He3 & Hw & Hp3). pose proof (env_peers _ _ Hp1 He2) as Hpk2.
  destruct (env_grown _ _ _ Hpk2 He3 Hdb2) as (o3 & Hdb3 & Hal3). destruct (pending_list_app _ o3 _ _ Hf2 Hl2) as [Hf3 Hl3].
  assert (calm (calmed s3)) as Hs3 by (apply calm_calmed; by rewrite (ev_aborted _ _ He3)).
  pose proof (write_calm _ tx l (calmed s3) Hs3 Hdb3 Hf3 Hl3) as Hwc. rewrite Hw in Hwc. cbn zeta in Hwc.
  destruct Hwc as (Hprior & Hpost & Hcm & t & Hs' & Hdb'). set (e := posted _ _ _) in *.
  exists (o1 ++ o2 ++ o3), [e]. assert (h ++ o1 ++ o2 ++ o3 = ((h ++ o1) ++ o2) ++ o3) as Hh by by rewrite !app_assoc.
  assert (env s s3) as He by (etrans; [exact He1|etrans; [exact He2|exact He3]]).
  assert (txn s' = txn (calmed s')) as Htx by done. split.
  - split; [done|]. change (aborted s') with (aborted (calmed s')). rewrite Hs'. cbn. by rewrite (ev_aborted _ _ He).
  - unfold peers_ok. rewrite Hp3. by apply (env_peers s2 s3).
  - eapply alone_env; [exact He1|done|]. by eapply alone_env.
  - change (spots s') with (spots (calmed s')). rewrite Hs'. apply (ev_spots _ _ He).
  - change (delivered s') with (delivered (calmed s')). rewrite Hs'. apply (ev_delivered _ _ He).
  - rewrite app_assoc, Hh. unfold view. rewrite Htx, Hs'. exact Hdb'.
  - exists (now_pg (calmed s3)). rewrite Hh. by apply spec_posted.
  - rewrite Htx, Hs'. cbn. by rewrite (ev_txn _ _ He).
Qed.

Lemma draft_calm h tx s :
  calm s -> db_ok (view s) h ->
  exists evs, draft_spec_by postable h tx (now_pg s) (done_of (commit_draft tx s).1) evs /\
    match commit_draft tx s with
    | (Done _, s') => (evs = [] /\ s' = s) \/ exists t seq, s' = drafted_pg t (tx_book tx) seq s /\ evs = [posted h tx (now_pg s)] /\
        seq = en_seq (posted h tx (now_pg s)) /\ db_ok t (h ++ evs)
    | (Fail _, _) => evs = []
    | (Panicked, _) => False
    end.
Proof.
  intros Hs Hdb. unfold commit_draft, sq_bind at 1 3. rewrite (find_calm s h) by done.
  destruct (answer h (tx_book tx) (tx_idem tx)) as [c|] eqn:Ean.
  { apply answer_prior in Ean as (e & He & Hce). exists []. cbn. split; [by eapply spec_prior|by left]. }
  apply answer_None in Ean. unfold sq_bind. pose proof (load_calm tx s h Hs Hdb) as Hl.
  destruct (load_pending tx s) as [[l|err|] s1]; [| |done].
  2: { exists []. cbn. split; [|done]. apply spec_refused; [done|]. intros Hac. apply Hl, foldable_history. split; apply Hac. }
  destruct Hl as (-> & Hf & Hl). pose proof (write_calm h tx l s Hs Hdb Hf Hl) as Hw. cbn zeta in Hw.
  destruct (write_transaction tx l s) as [[c|err|] s2]; [| |done].
  - destruct Hw as (Hp & Hac & Hc & t & -> & Hdb'). exists [posted h tx (now_pg s)]. cbn. split; [by apply spec_posted|].
    right. by eexists t, _.
  - exists []. cbn. split; [|done]. apply spec_refused; [done|]. by destruct Hw.
Qed.

(** ** [commit] *)

Lemma begin_cases s :
  match pool_begin s with
  | (Ok _, s') => txn s' = fresh_txn /\ spots s' = [] /\ aborted s' = false /\ view s' = durable s
  | (Err _, _) => True
  end /\ durable (pool_begin s).2 = durable s /\ peers (pool_begin s).2 = peers s /\ delivered (pool_begin s).2 = delivered s /\
  now_pg (pool_begin s).2 = now_pg s.
Proof. unfold pool_begin, contact. by destruct (faults s) as [|[|e|e] fs]. Qed.

(** COMMIT of a transaction that is not aborted: it lands, or it fails, or it
    lands and its answer is lost. *)
Lemma commit_cases s : aborted s = false ->
  let s' := (pg_commit s).2 in
  peers s' = peers s /\
  ((durable s' = view s /\ delivered s' = delivered s ++ x_queue (txn s) /\
    forall e, (pg_commit s).1 = Err e -> (contact s).1 = Lost e) \/
   (durable s' = durable s /\ delivered s' = delivered s /\ exists e, (pg_commit s).1 = Err e)).
Proof.
  intros Ha. unfold pg_commit, contact. destruct (faults s) as [|[|e|e] fs]; cbn; rewrite ?Ha; cbn; split; try done; [by left..|right|left].
  - split; [done|]. split; [done|]. by exists e.
  - split; [done|]. split; [done|]. congruence.
Qed.

Lemma commit_calm s : calm s -> pg_commit s = (Ok (), land s).
Proof. intros [Hf _ Ha]. unfold pg_commit, contact. by rewrite Hf, Ha. Qed.

Lemma begin_calm s : calm s -> pool_begin s = (Ok (), set_spots [] (set_txn fresh_txn s)).
Proof. intros [Hf Hp Ha]. unfold pool_begin, contact. rewrite Hf. by destruct s; cbn in *; subst. Qed.

(** Reading the winner of a race. *)
Lemma find_winner h tx s c s' :
  peers_ok s -> db_ok (durable s) h -> x_work (txn s) = None -> find_committed (tx_book tx) (tx_idem tx) s = (Done (Some c), s') ->
  exists others e, db_ok (durable s') (h ++ others) /\ alone s others /\ prior (h ++ others) (tx_book tx) (tx_idem tx) = Some e /\ committed_of e = Some c.
Proof.
  intros Hp Hdb Hw Hf. destruct (kept_durable _ _ h (kept_find (tx_book tx) (tx_idem tx) s) Hp Hdb) as (others & Hdb' & _ & Hal). rewrite Hf in Hdb'. cbn in Hdb'.
  exists others. assert (db_ok (view s') (h ++ others)) as Hv.
  { assert (txn s' = txn s) as Ht.
    { unfold find_committed in Hf. apply sq_bind_Done in Hf as (r & s2 & (Ha & He & _)%fetch_Done & Hk). rewrite <- (ev_txn _ _ He).
      destruct r as [r|]; [|done]. unfold committed_row, sq_bind in Hk. destruct (parse_uuid (tr_tx_id r)); [|done]. by injection Hk as <- <-. }
    unfold view. by rewrite Ht, Hw. }
  destruct (find_Done _ _ _ _ _ _ Hf Hv) as (_ & _ & Ha). symmetry in Ha. apply answer_prior in Ha as (e & He & Hc). by exists e.
Qed.

(** The draft succeeded, and the COMMIT that followed took effect with its
    answer lost. *)
Definition commit_lost (tx : Transaction) (s : Session) (e : SqlxError) : Prop :=
  exists u s1 c s2, pool_begin s = (Ok u, s1) /\ commit_draft tx s1 = (Done c, s2) /\ (contact s2).1 = Lost e.

(** The outcomes of a commit among other sessions. *)
Definition commit_outcome (h : list Entry) (tx : Transaction) (s : Session) (o : outcome Committed) (evs : list Entry) : Prop :=
  match o with
  | Done c => exists at_, draft_spec_by postable h tx at_ (Some c) evs
  | Fail err => evs = [] \/ exists e c at_, commit_lost tx s e /\ err = io_err (SqlxE e) /\
      draft_spec_by postable h tx at_ (Some c) evs /\ answer (h ++ evs) (tx_book tx) (tx_idem tx) = Some c
  | Panicked => evs = []
  end.

Lemma commit_pg_run h tx s :
  peers_ok s -> db_ok (durable s) h ->
  exists others evs, db_ok (durable (commit tx s).2) (h ++ others ++ evs) /\ alone s others /\ commit_outcome (h ++ others) tx s (commit tx s).1 evs /\
    delivered (commit tx s).2 = delivered s ++ map note_of evs.
Proof.
  intros Hp Hdb. destruct (commit tx s) as [o s'] eqn:Ec. cbn [fst snd]. unfold commit in Ec.
  assert (forall s1 others, db_ok (durable s1) (h ++ others) -> alone s others -> delivered s1 = delivered s -> match o with Done _ => False | _ => True end -> s1 = s' ->
    exists others evs, db_ok (durable s') (h ++ others ++ evs) /\ alone s others /\ commit_outcome (h ++ others) tx s o evs /\ delivered s' = delivered s ++ map note_of evs) as Hnone.
  { intros s1 others Ht Hal Hl Ho <-. exists others, []. rewrite !app_nil_r. split; [done|]. split; [done|]. split; [|done]. destruct o; cbn; [done|by left|done]. }
  assert (db_ok (durable s) (h ++ [])) as Hdb0 by by rewrite app_nil_r.
  destruct (is_reserved (tx_book tx)); [injection Ec as <- <-; by apply (Hnone s [])|].
  unfold sq_bind at 1, tried at 1 in Ec. destruct (begin_cases s) as (Hb & Hbd & Hbp & Hbl & _).
  destruct (pool_begin s) as [[u|err] s1] eqn:Epb; cbn [snd] in *; [|injection Ec as <- <-; apply (Hnone s1 []); [by rewrite Hbd|done..]].
  destruct Hb as (Htx1 & Hsp1 & Ha1 & Hv1). assert (peers_ok s1) as Hp1 by (unfold peers_ok; by rewrite Hbp).
  assert (db_ok (durable s1) h) as Hdb1 by by rewrite Hbd. assert (db_ok (view s1) h) as Hvdb1 by by rewrite Hv1.
  assert (forall o, alone s1 o -> alone s o) as Hal by (intros o1; unfold alone; by rewrite Hbp).
  destruct (kept_durable _ _ h (kept_draft tx s1) Hp1 Hdb1) as (od & Hdb2 & Hp2 & Had%Hal). pose proof (kp_delivered _ _ (kept_draft tx s1)) as Hl2.
  unfold sq_bind at 1, sq_try in Ec. destruct (commit_draft tx s1) as [[c|err|] s2] eqn:Ed; cbn [snd] in Hdb2, Hp2, Hl2; rewrite Hbl in Hl2.
  - destruct (draft_sound h tx s1 c s2 Hp1 Hvdb1 Ed) as (others & evs & Hok). destruct (dk_aborted _ _ _ _ _ _ _ Hok) as [_ Ha2].
    destruct (dk_spec _ _ _ _ _ _ _ Hok) as [at_ Hspec]. unfold sq_bind, tried in Ec. pose proof (dk_queue _ _ _ _ _ _ _ Hok) as Hq. rewrite Htx1 in Hq.
    destruct (commit_cases s2 Ha2) as (_ & [(Hland & Hnote & Hlost)|(Hsame & Hnote & err & Herr)]).
    + rewrite Hq, Hl2 in Hnote. destruct (pg_commit s2) as [[u'|e] s3]; injection Ec as <- <-; exists others, evs; cbn in *; rewrite Hland;
        (split; [apply Hok|]); (split; [by apply Hal, Hok|]); (split; [|done]); [by exists at_|right].
      exists e, c, at_. split_and!; [exists u, s1, c, s2; split_and!; [done|done|by apply Hlost]|done|done|].
      destruct (draft_on_record _ _ _ _ _ _ Hspec) as (r0 & Hr0 & Hc0). unfold answer. by rewrite Hr0.
    + destruct (pg_commit s2) as [r s3]. cbn in *. subst r. injection Ec as <- <-. apply (Hnone s3 od); [by rewrite Hsame|done|congruence|done..].
  - destruct (is_unique_violation err); [|injection Ec as <- <-; by apply (Hnone s2 od)].
    unfold sq_bind at 1, tried in Ec. destruct (begin_cases s2) as (Hb2 & Hbd2 & Hbp2 & Hbl2 & _).
    destruct (pool_begin s2) as [[u'|e] s3]; cbn [snd] in *; [|injection Ec as <- <-; apply (Hnone s3 od); [by rewrite Hbd2|done|congruence|done..]].
    destruct Hb2 as (Htx3 & _). assert (peers_ok s3) as Hp3 by (unfold peers_ok; by rewrite Hbp2).
    assert (db_ok (durable s3) (h ++ od)) as Hdb3 by by rewrite Hbd2.
    unfold sq_bind in Ec. destruct (kept_durable _ _ _ (kept_find (tx_book tx) (tx_idem tx) s3) Hp3 Hdb3) as (o3 & Hdb4 & _ & Ha3).
    assert (forall o, alone s3 o -> alone s (od ++ o)) as Hal3.
    { intros o1 Ho1 Hn. destruct (kept_alone _ _ (kept_draft tx s1)) as [_ Hn2]; [by rewrite Hbp|]. rewrite Ed in Hn2. cbn in Hn2.
      by rewrite (Had Hn), Ho1 by by rewrite Hbp2. }
    pose proof (kp_delivered _ _ (kept_find (tx_book tx) (tx_idem tx) s3)) as Hl4. rewrite Hbl2, Hl2 in Hl4. rewrite <- app_assoc in Hdb4.
    destruct (find_committed (tx_book tx) (tx_idem tx) s3) as [[[c|]|e|] s4] eqn:Ef; cbn [snd] in Hdb4, Hl4; injection Ec as <- <-.
    2-4: by apply (Hnone s4 (od ++ o3)); try done; apply Hal3.
    destruct (find_winner _ tx s3 c s4 Hp3 Hdb3 ltac:(by rewrite Htx3) Ef) as (o4 & e & Hdb5 & Ha4 & Hpr & Hce). exists (od ++ o4), [].
    rewrite !app_nil_r, app_assoc. split; [done|]. split; [by apply Hal3|]. split; [|done]. exists 0. by eapply spec_prior.
  - injection Ec as <- <-. by apply (Hnone s2 od).
Qed.

(** C10: A commit beside other sessions, whatever fails: the history grows by what
    the others commit and by this transaction's event, or by what the others
    commit alone.  A success is on record.  An error leaves nothing behind, but
    for one case: the draft went through and the answer to its COMMIT was lost;
    then the error is that loss, and the event is on record, where a repetition
    finds it.  Exactly the event that was committed is notified. *)
Theorem pg_commit_atomic h tx s :
  peers_ok s -> db_ok (durable s) h ->
  exists others evs, db_ok (durable (commit tx s).2) (h ++ others ++ evs) /\ alone s others /\
    commit_outcome (h ++ others) tx s (commit tx s).1 evs /\ delivered (commit tx s).2 = delivered s ++ map note_of evs.
Proof. apply commit_pg_run. Qed.

Lemma commit_pg_calm h tx s :
  calm s -> db_ok (durable s) h -> is_reserved (tx_book tx) = false ->
  exists evs, draft_spec_by postable h tx (now_pg s) (done_of (commit tx s).1) evs /\ db_ok (durable (commit tx s).2) (h ++ evs) /\
    delivered (commit tx s).2 = delivered s ++ map note_of evs /\ (commit tx s).1 <> Panicked.
Proof.
  intros Hs Hdb Hres. destruct (commit tx s) as [o s'] eqn:Ec. cbn [fst snd]. unfold commit in Ec. rewrite Hres in Ec.
  unfold sq_bind at 1, tried at 1 in Ec. rewrite begin_calm in Ec by done. set (s1 := set_spots [] _) in *.
  assert (calm s1) as Hs1 by by destruct Hs. destruct (draft_calm h tx s1 Hs1 Hdb) as (evs & Hspec & Hcase). change (now_pg s1) with (now_pg s) in *.
  pose proof (kept_draft tx s1) as Hkept.
  unfold sq_bind at 1, sq_try in Ec. destruct (commit_draft tx s1) as [[c|err|] s2] eqn:Ed; cbn [fst snd done_of] in *; [| |done].
  - assert (calm s2 /\ db_ok (view s2) (h ++ evs) /\ delivered s2 ++ x_queue (txn s2) = delivered s ++ map note_of evs) as (Hs2 & Hv2 & Hq2).
    { destruct Hcase as [[-> ->]|(t & q & -> & -> & -> & Ht)]; [by rewrite !app_nil_r; split|]. split; [by destruct Hs1|by split]. }
    unfold sq_bind, tried in Ec. rewrite commit_calm in Ec by done. injection Ec as <- <-. exists evs. by rewrite <- Hq2.
  - subst evs. inversion Hspec as [| |Hpr Hno]; subst. assert (durable s2 = durable s /\ peers s2 = [] /\ faults s2 = []) as (Hd2 & Hp2 & Hf2).
    { destruct (kept_alone _ _ Hkept (cm_peers _ Hs1)) as [? ?]. split_and!; [done..|]. apply Hkept, Hs1. }
    destruct (is_unique_violation err).
    + unfold sq_bind at 1, tried in Ec. unfold pool_begin, contact in Ec. rewrite Hf2 in Ec. set (s3 := set_aborted false _) in *.
      assert (calm s3) as Hs3 by done. unfold sq_bind in Ec. rewrite (find_calm s3 h) in Ec by (done || cbn; by rewrite Hd2).
      unfold answer in Ec. rewrite Hpr in Ec. injection Ec as <- <-. exists []. rewrite !app_nil_r. cbn. rewrite Hd2. by split_and!; try apply Hkept.
    + injection Ec as <- <-. exists []. rewrite !app_nil_r, Hd2. by split_and!; try apply Hkept.
Qed.
End history.
