(* ===== verification/PgReads.v ===== *)
(** What the reads of the PostgreSQL store return, in terms of the history its
    tables project (talea-store-postgres/src/lib.rs): each statement reads what
    is durable when it starts, so that a read of two statements may see others
    commit in between. *)

From S2P Require Import Prelude Decimal Core Disk Sql Sqlite SqliteSpec SqliteCommit SqliteHistory SqliteReads Pg Postgres PgSpec.
From S2P Require Import PgCommit PgHistory.
Open Scope Z_scope.

Section reads.
Context `{HashIterLaws} `{Collation} `{UuidTextLaws} `{Json LedgerEvent} `{!JsonLaws LedgerEvent} `{Json (list ExternalRef)}.

(** A read of a session whose statements run, beside others, from a history
    on: its outcome against the history that it was answered from. *)
Definition reads_from {A} (h : list Entry) (m : pg A) (R : list Entry -> outcome A -> Prop) : Prop := forall s,
  faults s = [] -> peers_ok s -> db_ok (durable s) h ->
  exists others, R (h ++ others) (m s).1 /\ db_ok (durable (m s).2) (h ++ others) /\ peers_ok (m s).2 /\ faults (m s).2 = [].

Definition reads {A} (m : pg A) (R : list Entry -> outcome A -> Prop) : Prop := forall h, reads_from h m R.

Lemma reads_pool {A} (q : Tables -> result A SqlxError) (R : list Entry -> outcome A -> Prop) h :
  (forall t o, db_ok t (h ++ o) -> R (h ++ o) (match q t with Ok a => Done a | Err e => Fail (io_err (SqlxE e)) end)) ->
  reads_from h (pool_fetch q) R.
Proof.
  intros Hq s Hf Hp Hdb. unfold pool_fetch, contact. rewrite Hf.
  assert (exists o, db_ok (durable (peer_commits s)) (h ++ o) /\ peers_ok (peer_commits s) /\ faults (peer_commits s) = []) as (o & Hdb' & Hp' & Hf').
  { unfold peer_commits, peers_ok in *. destruct (peers s) as [|f fs] eqn:E; [exists []; rewrite app_nil_r, E; by split_and!|].
    apply Forall_cons in Hp as [Hfo Hp]. destruct (Hfo _ _ Hdb) as [o Ho]. by exists o. }
  exists o. specialize (Hq _ _ Hdb'). destruct (q _); by split_and!.
Qed.

Lemma reads_bind {A B} (m : pg A) (k : A -> pg B) (R : list Entry -> outcome A -> Prop) (Q : list Entry -> outcome B -> Prop) h :
  reads_from h m R ->
  (forall o a, R (h ++ o) (Done a) -> reads_from (h ++ o) (k a) Q) ->
  (forall o e, R (h ++ o) (Fail e) -> Q (h ++ o) (Fail e)) -> (forall o, ~ R (h ++ o) Panicked) ->
  reads_from h (sq_bind m k) Q.
Proof.
  intros Hm Hk He Hn s Hf Hp Hdb. destruct (Hm s Hf Hp Hdb) as (o & HR & Hdb1 & Hp1 & Hf1). unfold sq_bind.
  destruct (m s) as [[a|e|] s1]; cbn [fst snd] in *; [|exists o; by split_and!; [apply He|..]|by apply Hn in HR].
  destruct (Hk _ a HR s1 Hf1 Hp1 Hdb1) as (o' & HQ & Hdb2 & Hp2 & Hf2). exists (o ++ o'). by rewrite app_assoc.
Qed.

Lemma reads_ret {A} (x : outcome A) (m : pg A) (R : list Entry -> outcome A -> Prop) h : (forall s, m s = (x, s)) -> R h x -> reads_from h m R.
Proof. intros Hm HR s Hf Hp Hdb. exists []. rewrite app_nil_r, Hm. by split_and!. Qed.

(** ** The log *)

(** The connection over some tables that the SQLite reads are about. *)
Definition over (t : Tables) : Conn := mkConn t t [] [] (fun _ => 0) 0 [].

(** The first [n] events of a book from a number on. *)
Definition page_of (b : Book) (from n : Z) (h : list Entry) : list Entry := take (Z.to_nat n) (filter (fun e => from <= en_seq e) (book_log b h)).

Lemma select_events_pg t h b from n : db_ok t h -> 0 <= n ->
  Postgres.select_events b from n t = Ok (map event_row (page_of b from n h)).
Proof.
  intros Hdb Hn. unfold Postgres.select_events, pg_limit. assert (n <? 0 = false) as -> by lia.
  pose proof (select_events_spec (over t) h Hdb b from n) as Hs. unfold Sqlite.select_events, sql_limit in Hs.
  assert (n <? 0 = false) as E by lia. rewrite E in Hs. cbn [committed over] in Hs. by rewrite Hs.
Qed.

Lemma page_in_history b from n h e : e ∈ page_of b from n h -> e ∈ h.
Proof.
  unfold page_of. intros [i Hi]%list_elem_of_lookup. apply lookup_take_Some in Hi as [Hi _].
  apply list_elem_of_lookup_2, list_elem_of_filter in Hi as [_ Hi]. by apply list_elem_of_filter in Hi as [_ ?].
Qed.

Lemma fetch_events_pg b from n h : 0 <= n ->
  reads_from h (Postgres.fetch_events b from n) (fun h' x => x = Done (map sequenced_entry (page_of b from n h'))).
Proof.
  intros Hn. unfold Postgres.fetch_events.
  apply (reads_bind _ _ (fun h' x => x = Done (map event_row (page_of b from n h')) /\
    decode_events (map event_row (page_of b from n h')) = Ok (map sequenced_entry (page_of b from n h')))); [|..|by intros o [? _]].
  - apply reads_pool. intros t o Hdb. rewrite (select_events_pg t (h ++ o)) by done. split; [done|].
    apply (decode_events_spec (over t) (h ++ o)); [done|]. intros e. by apply page_in_history.
  - intros o a [[= ->] Hd]. eapply reads_ret; [intros s; by rewrite Hd|done].
  - by intros o e [? _].
Qed.

(** [read_events] pages through a book's events in order, and a limit beyond
    [i64::MAX] is an error of the database. *)
Theorem pg_read_events_exact b from limit h : 0 <= limit <= i64_max ->
  reads_from h (Postgres.read_events b from limit) (fun h' x => x = Done (map sequenced_entry (page_of b from limit h'))).
Proof. intros Hl. unfold Postgres.read_events, limit_i64. rewrite wrap_i64_id by (unfold i64_min; lia). apply fetch_events_pg. lia. Qed.

(** ** Transactions *)

Lemma find_app {A} (f : A -> bool) l k x : List.find f l = Some x -> List.find f (l ++ k) = Some x.
Proof. induction l as [|y l IH]; [done|]. cbn. by destruct (f y). Qed.

Lemma posted_page h txid e : history_ok h -> List.find (is_posting txid) h = Some e -> page_of (en_book e) (en_seq e) 1 h = [e].
Proof.
  intros Hh [Hin _]%List.find_some. apply list_elem_of_In in Hin.
  assert (e ∈ book_log (en_book e) h) as [i Hi]%list_elem_of_lookup by (by apply list_elem_of_filter).
  unfold page_of. change (Z.to_nat 1) with 1%nat. pose proof (ho_gapless _ Hh (en_book e)) as Hg.
  rewrite <- (take_drop_middle _ _ _ Hi), filter_app, filter_cons, decide_True by done.
  rewrite filter_none; [done|]. apply Forall_forall. intros x [j Hj]%list_elem_of_lookup. apply lookup_take_Some in Hj as [Hj Hlt].
  rewrite (Hg _ _ Hi), (Hg _ _ Hj). lia.
Qed.

(** A transaction is found by its id, as it was posted. *)
Theorem pg_transaction_exact txid h :
  reads_from h (Postgres.transaction txid) (fun h' x => x =
    Done (e ← List.find (is_posting txid) h';
          match en_event e with TransactionPosted tx => Some (mkStoredTransaction tx (en_seq e) (en_at e)) | _ => None end)).
Proof.
  unfold Postgres.transaction.
  apply (reads_bind _ _ (fun h' x => history_ok h' /\ x = Done (e ← List.find (is_posting txid) h'; transaction_row e))); [|..|by intros o [_ ?]].
  - apply reads_pool. intros t o Hdb. by rewrite (do_transactions _ _ Hdb), find_txid_row; split; [apply Hdb|].
  - intros o row [Hh [= ->]]. set (h1 := h ++ o) in *. destruct (List.find (is_posting txid) h1) as [e|] eqn:Ef; cbn [mbind option_bind].
    2: { eapply reads_ret; [done|]. by rewrite Ef. }
    pose proof Ef as [Hin Hk]%List.find_some. apply list_elem_of_In in Hin. unfold is_posting in Hk. unfold transaction_row.
    destruct (en_event e) as [| |tx] eqn:Eev; [done..|]. cbn [tr_book tr_seq].
    apply (reads_bind _ _ (fun h' x => x = Done [sequenced_entry e])); [|..|done].
    + intros s Hf Hp Hdb. destruct (fetch_events_pg (en_book e) (en_seq e) 1 h1 ltac:(lia) s Hf Hp Hdb) as (o' & HR & Hdb' & Hp' & Hf').
      exists o'. split_and!; [|done..]. rewrite HR, (posted_page _ txid); [done|apply Hdb'|by apply find_app].
    + intros o' a [= ->]. eapply reads_ret; [intros s; cbn; by rewrite Eev; cbn; rewrite Hk|]. rewrite (find_app _ _ _ _ Ef).
      cbn. by rewrite Eev.
    + done.
  - by intros o e [_ ?].
Qed.

(** ** Balances *)

Lemma load_account_pg key h : reads_from h (Postgres.load_account key) (fun h' x => x = Done (account_row_of h' key)).
Proof.
  apply reads_pool. intros t o Hdb. f_equal. rewrite (do_accounts _ _ Hdb). unfold account_row_of.
  destruct (opened (h ++ o) key) as [[def cfg]|]; [|done]. cbn. by rewrite decode_accounts_row.
Qed.

(** The current balance is the sum of the account's postings; an account that
    is not open is unknown. *)
Theorem pg_balance_exact account h (key := to_key account) :
  reads_from h (Postgres.balance account None) (fun h' x =>
    match opened h' key with
    | Some (def, cfg) => x = Done (mkBalanceSnapshot (mkAmount (effective (balance_of h' key) (normal_side cfg)) (acct_asset def))
                                    (default 0 (po_seq <$> last (account_rows key h'))))
    | None => x = Fail (Plain (UnknownAccount account))
    end).
Proof.
  unfold Postgres.balance. fold key. apply (reads_bind _ _ (fun h' x => x = Done (account_row_of h' key))); [apply load_account_pg|..|done].
  - intros o acct [= ->]. unfold account_row_of. destruct (opened (h ++ o) key) as [[def cfg]|] eqn:Eo.
    2: { eapply reads_ret; [done|]. by rewrite Eo. }
    apply (reads_bind _ _ (fun h' x => x = Done (balance_of h' key, default 0 (po_seq <$> last (account_rows key h'))))); [|..|done].
    + apply reads_pool. intros t o' Hdb. rewrite (do_balances _ _ Hdb). unfold balance_row.
      destruct (last (account_rows key _)) eqn:El; cbn; [done|]. apply last_None in El. unfold balance_of. by rewrite El.
    + intros o' p [= ->]. eapply reads_ret; [done|]. by rewrite opened_app, Eo.
    + done.
  - done.
Qed.

Lemma signed_minors rows : sum_abs (map po_minor rows) <= i64_max -> all_ok (map signed_minor rows) = Ok (map row_delta rows).
Proof.
  intros Hb. induction rows as [|r rows IH]; [done|]. cbn [map] in *. change (sum_abs (po_minor r :: map po_minor rows)) with (Z.abs (po_minor r) + sum_abs (map po_minor rows)) in Hb.
  pose proof (sum_abs_nonneg (map po_minor rows)). cbn [all_ok]. rewrite IH by lia.
  assert (signed_minor r = Ok (row_delta r)) as ->; [|done]. unfold signed_minor, row_delta. destruct (String.eqb _ _); [done|].
  unfold i64_max in *. rewrite wrap_i64_id by (unfold i64_min, i64_max; lia). apply to_bigint_Ok. split; [done|]. apply in_i64_spec. unfold i64_min, i64_max. lia.
Qed.

Lemma sum_bigint_exact l : sum_abs l <= i64_max -> sum_bigint l = Ok (sum_Z l).
Proof.
  intros Hb. apply to_bigint_Ok. split; [done|]. pose proof (sum_abs_bound l). change (foldr Z.add 0 l) with (sum_Z l).
  apply in_i64_spec. unfold i64_min, i64_max in *. lia.
Qed.

Lemma row_deltas_abs rows : sum_abs (map row_delta rows) <= sum_abs (map po_minor rows) \/ i64_max < sum_abs (map po_minor rows).
Proof.
  destruct (Z.le_gt_cases (sum_abs (map po_minor rows)) i64_max) as [Hb|]; [left|by right]. apply sum_abs_le. intros r Hr.
  rewrite row_delta_abs; [done|]. etrans; [apply (sum_abs_elem (map po_minor rows)); by apply list_elem_of_fmap_2|done].
Qed.

(** The balance at a time is the sum of the postings committed by then. *)
Theorem pg_balance_at_exact account at_ h (key := to_key account) :
  reads_from h (Postgres.balance account (Some at_)) (fun h' x =>
    match opened h' key with
    | Some (def, cfg) => let rows := filter (fun r => po_committed_at r <= at_) (account_rows key h') in
        sum_abs (map po_minor rows) <= i64_max ->
        x = Done (mkBalanceSnapshot (mkAmount (effective (sum_Z (map row_delta rows)) (normal_side cfg)) (acct_asset def)) (sql_max (map po_seq rows)))
    | None => x = Fail (Plain (UnknownAccount account))
    end).
Proof.
  unfold Postgres.balance. fold key. apply (reads_bind _ _ (fun h' x => x = Done (account_row_of h' key))); [apply load_account_pg|..|done].
  - intros o acct [= ->]. unfold account_row_of. destruct (opened (h ++ o) key) as [[def cfg]|] eqn:Eo.
    2: { eapply reads_ret; [done|]. by rewrite Eo. }
    set (rows h' := filter (fun r => po_committed_at r <= at_) (account_rows key h')).
    apply (reads_bind _ _ (fun h' x => x <> Panicked /\
      (sum_abs (map po_minor (rows h')) <= i64_max -> x = Done (sum_Z (map row_delta (rows h')), sql_max (map po_seq (rows h')))))); [|..|by intros o' [? _]].
    + apply reads_pool. intros t o' Hdb. unfold select_raw_at. rewrite (do_postings _ _ Hdb).
      assert (filter (fun r => po_account_key r = key /\ po_committed_at r <= at_) (all_postings ((h ++ o) ++ o')) = rows ((h ++ o) ++ o')) as ->.
      { unfold rows, account_rows. rewrite list_filter_filter. apply list_filter_iff. tauto. }
      set (l := rows _). split; [by destruct (let? _ := all_ok _ in _)|]. intros Hb. rewrite signed_minors by done.
      rewrite sum_bigint_exact; [done|]. by destruct (row_deltas_abs l); [lia|lia].
    + intros o' [raw q] [_ Hr]. eapply reads_ret; [done|]. rewrite opened_app, Eo. cbn zeta. intros Hb. by injection (Hr Hb) as -> ->.
    + intros o' e [_ Hr]. rewrite opened_app, Eo. cbn zeta. intros Hb. by specialize (Hr Hb).
  - done.
Qed.

(** ** Pages of postings *)

Lemma decode_postings_pg account rows l (s : Session) :
  Sqlite.decode_postings account rows = Ok l -> Postgres.decode_postings account rows s = (Done l, s).
Proof.
  revert l. induction rows as [|r rows IH]; intros l; cbn [Sqlite.decode_postings Postgres.decode_postings]; [by intros [= <-]|].
  destruct (parse_uuid (po_tx_id r)) as [u|m]; cbn [map_err]; [|done]. destruct (Direction_from_db (po_direction r)) as [d|]; cbn [ok_or]; [|done].
  destruct (Sqlite.decode_postings account rows) as [rest|e]; [|done]. intros [= <-]. unfold sq_bind. cbn. by rewrite (IH rest).
Qed.

(** [account_history] pages through an account's postings by whole
    transactions: at most [limit] numbers, all of them unless no posting is
    left, and what follows has larger numbers. *)
Theorem pg_history_pages account after limit h (key := to_key account) : 0 <= limit <= i64_max ->
  reads_from h (Postgres.account_history account after limit) (fun h' x =>
    match opened h' key with
    | None => x = Fail (Plain (UnknownAccount account))
    | Some _ => exists page rest, x = Done (map (record_of account) page) /\
        postings_after h' key (default 0 after) = page ++ rest /\
        length (distinct_seqs page) = Nat.min (Z.to_nat limit) (length (distinct_seqs (postings_after h' key (default 0 after)))) /\
        forall r r', r ∈ page -> r' ∈ rest -> po_seq r < po_seq r'
    end).
Proof.
  intros Hl. unfold Postgres.account_history. fold key.
  apply (reads_bind _ _ (fun h' x => x = Done (account_row_of h' key))); [apply load_account_pg|..|done].
  - intros o acct [= ->]. unfold account_row_of. destruct (opened (h ++ o) key) as [[def cfg]|] eqn:Eo.
    2: { eapply reads_ret; [done|]. by rewrite Eo. }
    apply (reads_bind _ _ (fun h' x => exists t, db_ok t h' /\ x = Done (Sqlite.select_history key (default 0 after) (limit_i64 limit) t))).
    + apply reads_pool. intros t o' Hdb. exists t. split; [done|]. unfold Postgres.select_history, Sqlite.select_history, pg_limit, sql_limit, limit_i64.
      rewrite wrap_i64_id by (unfold i64_min; lia). by assert (limit <? 0 = false) as -> by lia.
    + intros o' rows (t & Hdb & [= ->]). assert (opened ((h ++ o) ++ o') key = Some (def, cfg)) as Ho by by rewrite opened_app, Eo.
      destruct (sqlite_history_pages (over t) _ eq_refl Hdb account after limit) as (page & rest & Hrun & Hsplit & Hlen & Hlt); [by fold key; rewrite Ho|done|].
      fold key in Hsplit, Hlen. unfold Sqlite.account_history, sq_bind in Hrun. fold key in Hrun. rewrite (load_account_spec (over t) _ eq_refl Hdb) in Hrun.
      unfold account_row_of in Hrun. rewrite Ho in Hrun. cbn [option_map fmap option_fmap] in Hrun. rewrite pool_healthy in Hrun by done. cbn [over committed] in Hrun.
      destruct (Sqlite.decode_postings account _) as [recs|e] eqn:Ed; [|done]. injection Hrun as ->.
      eapply reads_ret; [intros s; by apply decode_postings_pg|]. rewrite Ho. by exists page, rest.
    + by intros o' e (t & _ & ?).
    + by intros o' (t & _ & ?).
  - done.
Qed.

(** ** Trial balances *)

Lemma group_rows_pg assets rows : sum_abs (map po_minor rows) <= i64_max ->
  Postgres.group_rows assets rows =
  Ok (map (fun a => let mine := filter (fun r => po_asset r = a) rows in mkTrialBalanceRow a (debits_of mine) (credits_of mine)) assets).
Proof.
  intros Hb. induction assets as [|a assets IH]; [done|]. cbn [Postgres.group_rows map]. set (mine := filter (fun r => po_asset r = a) rows).
  assert (sum_abs (map po_minor mine) <= i64_max) as Hm by (etrans; [apply sum_abs_filter|done]).
  assert (forall side, sum_bigint (map (side_minor side) mine) = Ok (sum_Z (map (side_minor side) mine))) as Hs.
  { intros side. apply sum_bigint_exact. etrans; [|exact Hm]. apply sum_abs_le. intros r _. unfold side_minor. case_match; lia. }
  rewrite !Hs, IH. done.
Qed.

(** One row for each asset of the book's postings, in the database's order,
    with the sums of its debits and credits. *)
Theorem pg_trial_balance_exact book as_of h :
  reads_from h (Postgres.trial_balance book as_of) (fun h' x =>
    let rows := book_rows h' book as_of in sum_abs (map po_minor rows) <= i64_max ->
    x = Done (map (fun a => let mine := filter (fun r => po_asset r = a) rows in mkTrialBalanceRow a (debits_of mine) (credits_of mine))
                (sort_by text_leb (remove_dups (map po_asset rows))))).
Proof.
  apply reads_pool. intros t o Hdb. cbn zeta. intros Hb. unfold Postgres.select_trial. rewrite (do_postings _ _ Hdb).
  fold (book_rows (h ++ o) book as_of). by rewrite group_rows_pg.
Qed.
End reads.
