(* ===== verification/PgDefs.v ===== *)
(** [register_asset] and [open_account] of the PostgreSQL store
    (talea-store-postgres/src/lib.rs) against the history. *)

From S2P Require Import Prelude Decimal Core Disk Sql Sqlite SqliteSpec SqliteCommit SqliteHistory Pg Postgres PgSpec PgCommit PgHistory.
Open Scope Z_scope.

Section definitions.
Context `{HashIterLaws} `{UuidTextLaws} `{Json LedgerEvent} `{Json (list ExternalRef)}.

(** ** Recording a definition: the common transaction of the two operations *)

Section record.
Variable upd : Tables -> result (unit * Tables) SqlxError.
Variable b : Book.
Variable ev : LedgerEvent.

(** The row that is inserted for the event, where there is none. *)
Hypothesis upd_row : forall t u t1, upd t = Ok (u, t1) ->
  t1 = match ev with
       | AssetRegistered d => with_assets (<[asset_id d := asset_row d]> (t_assets t)) t
       | AccountOpened def cfg => with_accounts (<[to_key (acct_id def) := accounts_row def cfg]> (t_accounts t)) t
       | _ => t
       end /\
  match ev with
  | AssetRegistered d => t_assets t !! asset_id d = None
  | AccountOpened def _ => t_accounts t !! to_key (acct_id def) = None
  | _ => True
  end.
Hypothesis ev_book : match ev with
  | TransactionPosted _ => False
  | AccountOpened def _ => b = acct_book (acct_id def)
  | AssetRegistered d => b = SYSTEM_BOOK /\ 0 <= asset_precision d < 256
  end.

(** ... up to COMMIT. *)
Definition define_body : pg unit :=
  let& _ := modify upd in
  let& (seq, at_) := next_seq b in
  let& _ := insert_event b seq at_ ev in
  notify b seq.

Lemma define_split s : (let& _ := modify upd in record_event b ev) s = (let& _ := define_body in tried pg_commit) s.
Proof. unfold record_event, define_body, sq_bind. repeat (case_match; simplify_eq; try done). Qed.

Lemma insert_plain_calm h at_ s (e := next_entry h b at_ ev) :
  calm s -> history_ok h -> t_events (view s) = map event_row h ->
  match insert_event b (en_seq e) at_ ev s with
  | (Done _, s') => is_ok (to_vec ev) = true /\ s' = wrote (with_events (t_events (view s) ++ [event_row e]) (view s)) s
  | (Fail err, _) => is_ok (to_vec ev) = false
  | (Panicked, _) => False
  end.
Proof using.
  intros Hs Hh Hev. unfold insert_event, sq_bind, event_row, payload_of. cbn [en_event next_entry e].
  destruct (to_vec ev) as [pl|m] eqn:Ee; cbn [lift_std sq_ret]; [|done].
  rewrite modify_calm by done. unfold insert_events. rewrite insert_row_spec, Hev.
  pose proof (event_pk_fresh h b at_ ev Hh) as Hpk. fold e in Hpk.
  change (existsb _ _) with (existsb (event_pk b (en_seq e)) (map event_row h)). by rewrite Hpk.
Qed.

Lemma define_calm h s (e := next_entry h b (now_pg s) ev) :
  calm s -> db_ok (view s) h ->
  match define_body s with
  | (Done _, s') => exists t, s' = drafted_pg t b (en_seq e) s /\ db_ok t (h ++ [e]) /\ is_ok (to_vec ev) = true
  | (Fail _, _) => ~ (has_room h b /\ is_ok (to_vec ev) = true) \/ exists err, upd (view s) = Err err
  | (Panicked, _) => False
  end.
Proof using upd_row ev_book.
  intros Hs Hdb. unfold define_body, sq_bind at 1. rewrite modify_calm by done.
  destruct (upd (view s)) as [[u t1]|err] eqn:Eu; [|right; by exists err]. destruct (upd_row _ _ _ Eu) as [Ht1 Hnew].
  assert (t_books t1 = t_books (view s) /\ t_events t1 = t_events (view s)) as [Hbk Hevs] by (rewrite Ht1; by destruct ev).
  unfold sq_bind at 1, next_seq. pose proof (claim_calm (wrote t1 s) h b 1 (calm_wrote _ _ Hs)) as Hc. rewrite view_wrote, Hbk in Hc.
  specialize (Hc (do_books _ _ Hdb) ltac:(lia)). cbn zeta in Hc. rewrite Z.add_comm in Hc.
  change (1 + Z.of_nat (length (book_log b h))) with (en_seq e) in Hc.
  destruct (claim_seqs b 1 (wrote t1 s)) as [[[q at_]|err|] s1]; [| |done].
  2: { left. intros [Hroom _]. unfold has_room in Hroom. cbn in Hc. lia. }
  destruct Hc as (-> & _ & -> & ->). change (wall _ _ / 1000 * 1000) with (now_pg s). set (sx := wrote _ _).
  assert (calm sx) as Hsx by by destruct Hs. unfold sq_bind.
  pose proof (insert_plain_calm h (now_pg s) sx Hsx (do_history _ _ Hdb)) as Hi. fold e in Hi.
  specialize (Hi ltac:(cbn; by rewrite Hevs, (do_events _ _ Hdb))).
  destruct (insert_event b (en_seq e) (now_pg s) ev sx) as [[u'|err|] s2]; [|left; intros [_ He]; congruence|done].
  destruct Hi as [Henc ->]. rewrite notify_calm by auto with talea. eexists. split; [unfold drafted_pg; cbn; reflexivity|]. split; [|done].
  cbn. rewrite Hevs. apply (db_ok_plain (view s) _ h b (now_pg s) ev Hdb Henc ev_book); [|done]. by rewrite Ht1.
Qed.

Lemma steady_define s u s' : x_work (txn s) <> None -> (let& (seq, at_) := next_seq b in let& _ := insert_event b seq at_ ev in notify b seq) s = (Done u, s') ->
  (let& (seq, at_) := next_seq b in let& _ := insert_event b seq at_ ev in notify b seq) (calmed s) = (Done u, calmed s') /\ peers s' = peers s.
Proof using.
  intros Hw Hk. match type of Hk with ?m s = _ => assert (steady m) as Hst end.
  { unfold next_seq, claim_seqs, insert_event, notify. apply steady_bind; [auto with talea|]. intros [q a]. auto 20 with talea. }
  destruct (Hst _ _ _ Hw Hk) as (? & _ & ?). done.
Qed.

Lemma define_Done s u s' : define_body s = (Done u, s') ->
  exists s1, env s s1 /\ define_body (calmed s1) = (Done u, calmed s') /\ peers s' = peers s1 /\ aborted s1 = false.
Proof using.
  unfold define_body. intros (v & s0 & Hm & Hk)%sq_bind_Done. apply modify_Done in Hm as (Ha & s1 & He & Hm & Hw & Hp).
  exists s1. destruct (steady_define _ _ _ Hw Hk) as [Hk' Hp']. split; [done|]. split; [apply sq_bind_Done; by exists v, (calmed s0)|].
  split; [congruence|]. by rewrite (ev_aborted _ _ He).
Qed.

Lemma kept_define : is_kept define_body.
Proof using.
  unfold define_body, next_seq. apply kept_bind; [apply kept_modify|]. intros _. apply kept_bind; [apply kept_claim|]. intros [q a].
  apply kept_bind; [apply kept_insert_event|]. intros _. apply kept_notify.
Qed.

(** Among other sessions: the event is recorded, or nothing is. *)
Lemma define_sound h s :
  peers_ok s -> db_ok (view s) h -> db_ok (durable s) h ->
  let r := (let& _ := modify upd in record_event b ev) s in
  x_queue (txn s) = [] ->
  exists others evs, db_ok (durable r.2) (h ++ others ++ evs) /\ alone s others /\
    (evs = [] \/ exists at_, evs = [next_entry (h ++ others) b at_ ev]) /\
    delivered r.2 = delivered s ++ map note_of evs.
Proof using upd_row ev_book.
  intros Hp Hv Hd r Hq. unfold r. rewrite define_split. clear r. unfold sq_bind.
  destruct (kept_durable _ _ h (kept_define s) Hp Hd) as (od & Hod & Hpd & Had). pose proof (kp_delivered _ _ (kept_define s)) as Hl.
  destruct (define_body s) as [[u|err|] s1] eqn:Eb; cbn [fst snd] in *;
    [|exists od, []; rewrite !app_nil_r; split_and!; [done|done|by left|done]..].
  destruct (define_Done _ _ _ Eb) as (s0 & He & Hb & _ & Ha). destruct (env_grown _ _ _ Hp He Hv) as (others & Hv0 & Hal).
  pose proof (define_calm _ (calmed s0) (calm_calmed _ Ha) Hv0) as Hc. rewrite Hb in Hc. destruct Hc as (t & Hs1 & Hdb1 & _).
  assert (aborted s1 = false) as Ha1.
  { change (aborted s1) with (aborted (calmed s1)). by rewrite Hs1. }
  assert (view s1 = t) as Hv1.
  { change (view s1) with (view (calmed s1)). by rewrite Hs1. }
  assert (x_queue (txn s1) = [note_of (next_entry (h ++ others) b (now_pg (calmed s0)) ev)]) as Hq1.
  { change (txn s1) with (txn (calmed s1)). rewrite Hs1. cbn. by rewrite (ev_txn _ _ He), Hq. }
  unfold tried. destruct (commit_cases s1 Ha1) as (_ & [(Hland & Hnote & _)|(Hsame & Hnote & err & Herr)]).
  - exists others, [next_entry (h ++ others) b (now_pg (calmed s0)) ev]. rewrite Hl, Hq1 in Hnote.
    destruct (pg_commit s1) as [[u'|e] s3]; cbn in *; rewrite Hland, Hv1, app_assoc; split_and!; try done; right; by eexists.
  - destruct (pg_commit s1) as [r s3]. cbn in *. subst r. exists od, []. cbn. rewrite Hsame, !app_nil_r, Hnote. split_and!; [done|done|by left|done].
Qed.

(** Alone: the event is recorded, if there is room for it. *)
Lemma define_alone h s (e := next_entry h b (now_pg s) ev) :
  calm s -> db_ok (view s) h ->
  match (let& _ := modify upd in record_event b ev) s with
  | (Done _, s') => db_ok (durable s') (h ++ [e]) /\ delivered s' = delivered s ++ x_queue (txn s) ++ [(book_channel_name b, i64_to_string (en_seq e))]
  | (Fail _, _) => ~ (has_room h b /\ is_ok (to_vec ev) = true) \/ exists err, upd (view s) = Err err
  | (Panicked, _) => False
  end.
Proof using upd_row ev_book.
  intros Hs Hv. rewrite define_split. unfold sq_bind. pose proof (define_calm h s Hs Hv) as Hc.
  destruct (define_body s) as [[u|err|] s1]; [|done..]. destruct Hc as (t & -> & Hdb & _). unfold tried.
  rewrite commit_calm by by destruct Hs. done.
Qed.
End record.

(** ** The two operations *)

Definition insert_asset (asset : AssetDef) (t : Tables) : result (unit * Tables) SqlxError :=
  match t_assets t !! asset_id asset with
  | Some _ => Err (UniqueConstraint "duplicate key value violates unique constraint assets_pkey")
  | None => Ok ((), with_assets (<[asset_id asset := asset_row asset]> (t_assets t)) t)
  end.

Definition insert_account (def : AccountDef) (cfg : AccountCfg) (t : Tables) : result (unit * Tables) SqlxError :=
  match t_accounts t !! to_key (acct_id def), t_assets t !! acct_asset def with
  | Some _, _ => Err (UniqueConstraint "duplicate key value violates unique constraint accounts_pkey")
  | None, None => Err foreign_key_violation
  | None, Some _ => Ok ((), with_accounts (<[to_key (acct_id def) := accounts_row def cfg]> (t_accounts t)) t)
  end.

Lemma insert_asset_row asset t u t1 : insert_asset asset t = Ok (u, t1) ->
  t1 = with_assets (<[asset_id asset := asset_row asset]> (t_assets t)) t /\ t_assets t !! asset_id asset = None.
Proof. unfold insert_asset. destruct (t_assets t !! asset_id asset); naive_solver. Qed.

Lemma insert_account_row def cfg t u t1 : insert_account def cfg t = Ok (u, t1) ->
  t1 = with_accounts (<[to_key (acct_id def) := accounts_row def cfg]> (t_accounts t)) t /\ t_accounts t !! to_key (acct_id def) = None.
Proof. unfold insert_account. destruct (t_accounts t !! to_key (acct_id def)), (t_assets t !! acct_asset def); naive_solver. Qed.

Lemma decode_registered h t asset existing : db_ok t h -> registered h (asset_id asset) = Some existing ->
  decode_asset (asset_id asset) (asset_row existing) = existing.
Proof.
  intros Hdb Hr. rewrite <- (registered_id _ _ _ Hr). apply decode_asset_row. by eapply (ho_precision _ (do_history _ _ Hdb)).
Qed.

Lemma register_pg_calm h asset s :
  calm s -> db_ok (durable s) h -> 0 <= asset_precision asset < 256 ->
  let '(r, evs) := register_spec h asset (now_pg s) in
  match register_asset asset s with
  | (Done _, s') => r = Ok () /\ db_ok (durable s') (h ++ evs) /\ delivered s' = delivered s ++ map note_of evs
  | (o, _) => outcome_result o = Some r \/ ~ (has_room h SYSTEM_BOOK /\ is_ok (to_vec (AssetRegistered asset)) = true)
  end.
Proof.
  intros Hs Hdb Hprec. unfold register_spec, register_asset, sq_bind at 1, tried at 1. rewrite begin_calm by done. set (s1 := set_spots [] _).
  assert (calm s1) as Hs1 by by destruct Hs. unfold sq_bind at 1. rewrite fetch_calm by done. change (view s1) with (durable s). rewrite (do_assets _ _ Hdb).
  destruct (registered h (asset_id asset)) as [existing|] eqn:Er; cbn [fmap option_fmap option_map].
  - rewrite (decode_registered h _ asset existing Hdb Er). case_bool_decide; cbn; [|by left]. by rewrite !app_nil_r.
  - pose proof (define_alone (insert_asset asset) SYSTEM_BOOK (AssetRegistered asset) (insert_asset_row asset) (conj eq_refl Hprec) h s1 Hs1 Hdb) as Hd.
    unfold insert_asset at 1 in Hd. destruct (sq_bind _ _ s1) as [[u|err|] s2]; [| |done].
    + destruct Hd as [? Hdel]. split_and!; done.
    + right. destruct Hd as [|[e He]]; [done|]. unfold insert_asset in He. change (view s1) with (durable s) in He. by rewrite (do_assets _ _ Hdb), Er in He.
Qed.

Lemma open_pg_calm h def cfg s :
  calm s -> db_ok (durable s) h ->
  let '(r, evs) := open_spec h def cfg (now_pg s) in
  match open_account def cfg s with
  | (Done _, s') => r = Ok () /\ db_ok (durable s') (h ++ evs) /\ delivered s' = delivered s ++ map note_of evs
  | (o, _) => outcome_result o = Some r \/ ~ (has_room h (acct_book (acct_id def)) /\ is_ok (to_vec (AccountOpened def cfg)) = true)
  end.
Proof.
  intros Hs Hdb. unfold open_spec, open_account. cbn zeta. destruct (is_reserved _); [by left|].
  unfold sq_bind at 1, tried at 1. rewrite begin_calm by done. set (s1 := set_spots [] _). assert (calm s1) as Hs1 by by destruct Hs.
  unfold sq_bind at 1. rewrite fetch_calm by done. change (view s1) with (durable s). rewrite (do_assets _ _ Hdb).
  destruct (registered h (acct_asset def)) as [d0|] eqn:Er; cbn [fmap option_fmap option_map]; [|by left].
  unfold sq_bind at 1. rewrite fetch_calm by done. change (view s1) with (durable s). rewrite (do_accounts _ _ Hdb).
  destruct (opened h (to_key (acct_id def))) as [[d c]|] eqn:Eo; cbn [fmap option_fmap option_map fst snd].
  - rewrite same_account_spec by (by apply to_key_injective; eapply opened_key). case_bool_decide; cbn; [|by left]. by rewrite !app_nil_r.
  - pose proof (define_alone (insert_account def cfg) (acct_book (acct_id def)) (AccountOpened def cfg) (insert_account_row def cfg) eq_refl h s1 Hs1 Hdb) as Hd.
    unfold insert_account at 1 in Hd. destruct (sq_bind _ _ s1) as [[u|err|] s2]; [| |done].
    + destruct Hd as [? Hdel]. split_and!; done.
    + right. destruct Hd as [|[e He]]; [done|]. unfold insert_account in He. change (view s1) with (durable s) in He.
      by rewrite (do_accounts _ _ Hdb), (do_assets _ _ Hdb), Eo, Er in He.
Qed.

(** *** ... among others *)

(** What a definition leaves: its event and the notification, or nothing. *)
Definition recorded (b : Book) (ev : LedgerEvent) (h : list Entry) (s s' : Session) : Prop :=
  exists others evs, db_ok (durable s') (h ++ others ++ evs) /\ alone s others /\
    (evs = [] \/ exists at_, evs = [next_entry (h ++ others) b at_ ev]) /\
    delivered s' = delivered s ++ map note_of evs.

Lemma recorded_nothing b ev h others s s' : db_ok (durable s') (h ++ others) -> alone s others -> delivered s' = delivered s -> recorded b ev h s s'.
Proof. intros Hdb Hal Hl. exists others, []. rewrite !app_nil_r. split; [done|]. split; [done|]. split; [by left|done]. Qed.

(** A definition that starts with reads. *)
Definition records (b : Book) (ev : LedgerEvent) (m : pg unit) : Prop := forall s h,
  peers_ok s -> db_ok (view s) h -> db_ok (durable s) h -> txn s = fresh_txn -> recorded b ev h s (m s).2.

Lemma records_kept b ev m : is_kept m -> records b ev m.
Proof.
  intros Hm s h Hp _ Hd _. destruct (kept_durable _ _ h (Hm s) Hp Hd) as (o & ? & _ & ?). by eapply recorded_nothing; [..|apply (kp_delivered _ _ (Hm s))].
Qed.

Lemma records_fetch {A} b ev (q : Tables -> A) (k : A -> pg unit) : (forall a, records b ev (k a)) -> records b ev (sq_bind (fetch q) k).
Proof.
  intros Hk s h Hp Hv Hd Hw. unfold sq_bind. pose proof (kept_fetch q s) as Hke. pose proof (kp_delivered _ _ Hke) as Hl.
  destruct (kept_durable _ _ h Hke Hp Hd) as (o & Hd1 & Hp1 & Hal1). destruct (fetch q s) as [[a|e|] s1] eqn:Ef; cbn [fst snd] in *; [|by eapply recorded_nothing..].
  apply fetch_Done in Ef as (_ & He & _).
  assert (txn s1 = fresh_txn) as Hw1 by (by rewrite (ev_txn _ _ He)). assert (view s1 = durable s1) as Hv1 by (unfold view; by rewrite Hw1).
  destruct (Hk a s1 (h ++ o) Hp1) as (o2 & evs & Hd2 & Hal2 & Hevs & Hl2); [by rewrite Hv1|done|done|].
  exists (o ++ o2), evs. rewrite Hl2, Hl. pose proof (alone_env _ _ _ _ He Hal1 Hal2). by rewrite (app_assoc h (o ++ o2) evs), (app_assoc h o o2), <- (app_assoc (h ++ o)).
Qed.

Lemma records_begin b ev (k : unit -> pg unit) : records b ev (k ()) -> forall s h, peers_ok s -> db_ok (durable s) h ->
  recorded b ev h s (sq_bind (tried pool_begin) k s).2.
Proof.
  intros Hk s h Hp Hd. unfold sq_bind, tried. destruct (begin_cases s) as (Hb & Hbd & Hbp & Hbl & _). destruct (pool_begin s) as [[[]|e] s1]; cbn [fst snd] in *.
  - destruct Hb as (Ht & _ & _ & Hv). destruct (Hk s1 h) as (o & evs & ? & Hal & ? & Hl); [unfold peers_ok; by rewrite Hbp|by rewrite Hv|by rewrite Hbd|done|].
    exists o, evs. unfold alone in *. rewrite Hbp in Hal. by rewrite Hl, Hbl.
  - apply (recorded_nothing _ _ _ []); [by rewrite Hbd, app_nil_r|done|done].
Qed.

Lemma register_pg_sound h asset s : peers_ok s -> db_ok (durable s) h -> 0 <= asset_precision asset < 256 ->
  recorded SYSTEM_BOOK (AssetRegistered asset) h s (register_asset asset s).2.
Proof.
  intros Hp Hd Hprec. unfold register_asset. apply records_begin; [|done..]. apply records_fetch. intros [row|].
  - apply records_kept. case_match; [apply kept_ret|apply kept_fail].
  - intros s0 h0 Hp0 Hv0 Hd0 Hq.
    apply (define_sound (insert_asset asset) SYSTEM_BOOK (AssetRegistered asset) (insert_asset_row asset) (conj eq_refl Hprec) h0 s0 Hp0 Hv0 Hd0). by rewrite Hq.
Qed.

Lemma open_pg_sound h def cfg s : peers_ok s -> db_ok (durable s) h ->
  recorded (acct_book (acct_id def)) (AccountOpened def cfg) h s (open_account def cfg s).2.
Proof.
  intros Hp Hd. unfold open_account. cbn zeta. destruct (is_reserved _); [apply (recorded_nothing _ _ _ []); [by rewrite app_nil_r|done|done]|].
  apply records_begin; [|done..]. apply records_fetch. intros [d|]; [|apply records_kept, kept_fail]. apply records_fetch. intros [row|].
  - apply records_kept. case_match; [apply kept_ret|apply kept_fail].
  - intros s0 h0 Hp0 Hv0 Hd0 Hq.
    apply (define_sound (insert_account def cfg) _ (AccountOpened def cfg) (insert_account_row def cfg) eq_refl h0 s0 Hp0 Hv0 Hd0). by rewrite Hq.
Qed.
End definitions.
