(* ===== verification/PgDrafts.v ===== *)
(** [commit_batch_per_draft] of the PostgreSQL store
    (talea-store-postgres/src/lib.rs): one transaction, a savepoint per draft.
    Undisturbed it does what committing the drafts in turn does; beside other
    sessions and with failing statements what is durable stays a history, and
    the answers are on record unless the transaction was aborted when COMMIT
    came: PostgreSQL rolls it back then and reports no error. *)

From S2P Require Import Prelude Decimal Core Disk Sql Sqlite SqliteSpec SqliteCommit SqliteHistory SqliteBatch Pg Postgres PgSpec.
From S2P Require Import PgCommit PgHistory PgDefs.
Open Scope Z_scope.

Section drafts.
Context `{HashIterLaws} `{UuidTextLaws} `{Json LedgerEvent} `{Json (list ExternalRef)}.

(** ** The reference: drafts in turn *)

(** What drafts do to a history one after the other, at commit times in [P]. *)
Inductive run_spec (P : DateTime -> Prop) : list Entry -> list Transaction -> list (option Committed) -> list Entry -> Prop :=
| run_nil h : run_spec P h [] [] []
| run_reserved h tx txs os evs : is_reserved (tx_book tx) = true -> run_spec P h txs os evs -> run_spec P h (tx :: txs) (None :: os) evs
| run_draft h tx txs o os at_ evs evs' : is_reserved (tx_book tx) = false -> P at_ -> draft_spec_by postable h tx at_ o evs ->
    run_spec P (h ++ evs) txs os evs' -> run_spec P h (tx :: txs) (o :: os) (evs ++ evs').

(** At one time there is one outcome. *)
Lemma draft_spec_det h tx at_ o o' evs evs' :
  draft_spec_by postable h tx at_ o evs -> draft_spec_by postable h tx at_ o' evs' -> o = o' /\ evs = evs'.
Proof. inversion 1; inversion 1; subst; try done; simplify_eq; split; try done; congruence. Qed.

Lemma run_spec_det T h txs os os' evs evs' : run_spec (eq T) h txs os evs -> run_spec (eq T) h txs os' evs' -> os = os' /\ evs = evs'.
Proof.
  intros Hr. revert os' evs'. induction Hr as [h|h tx txs os evs Hres _ IH|h tx txs o os at_ evs0 evs1 Hres <- Hd _ IH]; intros os' evs' Hr'.
  - by inversion Hr'.
  - inversion Hr' as [|? ? ? os2 evs2 _ Hr2|? ? ? ? ? ? ? ? Hres']; subst; [|congruence]. by destruct (IH _ _ Hr2) as [-> ->].
  - inversion Hr' as [|? ? ? ? ? Hres'|? ? ? o2 os2 at2 e2 e2' _ <- Hd2 Hr2]; subst; [congruence|].
    destruct (draft_spec_det _ _ _ _ _ _ _ Hd Hd2) as [-> ->]. by destruct (IH _ _ Hr2) as [-> ->].
Qed.

Definition ok_of {A E} (r : result A E) : option A := match r with Ok a => Some a | Err _ => None end.

(** ** Undisturbed *)

Lemma savepoint_calm i s : calm s -> pg_savepoint i s = (Ok (), set_spots ((i, txn s) :: spots s) s).
Proof. intros Hs. unfold pg_savepoint. by rewrite statement_calm. Qed.

Lemma release_calm i x l s : calm s -> spots s = (i, x) :: l -> pg_release i s = (Ok (), set_spots l s).
Proof. intros Hs Hl. unfold pg_release. rewrite statement_calm, Hl by done. cbn. by rewrite Nat.eqb_refl. Qed.

Lemma undo_calm i x l s : faults s = [] -> peers s = [] -> spots s = (i, x) :: l ->
  undo i s = (Ok (), set_spots l (set_aborted false (set_txn x s))).
Proof.
  intros Hf Hp Hl. unfold undo, pg_rollback_to, contact. rewrite Hf, Hl. cbn. rewrite Nat.eqb_refl.
  by rewrite (release_calm i x l).
Qed.

(** The session between two drafts of a batch nothing disturbs. *)
Record between (s s' : Session) (evs : list Entry) : Prop := {
  bw_calm : calm s';
  bw_durable : durable s' = durable s;
  bw_spots : spots s' = spots s;
  bw_wall : wall s' = wall s;
  bw_delivered : delivered s' = delivered s;
  bw_queue : x_queue (txn s') = x_queue (txn s) ++ map note_of evs
}.

Lemma in_savepoint_calm h i tx s :
  calm s -> db_ok (view s) h ->
  let r := commit_in_savepoint i tx s in
  exists evs, between s r.2 evs /\ db_ok (view r.2) (h ++ evs) /\ r.1 <> Panicked /\
    if is_reserved (tx_book tx) then done_of r.1 = None /\ evs = [] else draft_spec_by postable h tx (now_pg s) (done_of r.1) evs.
Proof.
  intros Hs Hdb r. assert (between s s []) as Hid by (split; try done; by rewrite app_nil_r).
  destruct (commit_in_savepoint i tx s) as [o s'] eqn:Ec. unfold r. clear r. cbn [fst snd]. unfold commit_in_savepoint in Ec.
  destruct (is_reserved (tx_book tx)); [injection Ec as <- <-; exists []; by rewrite app_nil_r|].
  unfold sq_bind at 1, tried at 1 in Ec. rewrite savepoint_calm in Ec by done. set (s1 := set_spots _ s) in *.
  assert (calm s1) as Hs1 by by destruct Hs. destruct (draft_calm h tx s1 Hs1 Hdb) as (evs & Hspec & Hcase).
  pose proof (kept_draft tx s1) as Hk. change (now_pg s1) with (now_pg s) in *.
  unfold sq_bind at 1, sq_try in Ec. destruct (commit_draft tx s1) as [[c|err|] s2]; cbn [fst snd done_of] in *; [| |done].
  - exists evs. assert (calm s2 /\ db_ok (view s2) (h ++ evs) /\ x_queue (txn s2) = x_queue (txn s) ++ map note_of evs) as (Hs2 & Hv2 & Hq2).
    { destruct Hcase as [[-> ->]|(t & q & -> & -> & -> & Ht)]; [by rewrite !app_nil_r|]. split; [by destruct Hs1|]. by split. }
    unfold sq_bind, tried in Ec. rewrite (release_calm i (txn s) (spots s)) in Ec; [|done|apply Hk]. injection Ec as <- <-.
    destruct (kept_alone _ _ Hk (cm_peers _ Hs1)) as [Hd2 _]. split; [|done]. split; try done; [by destruct Hs2|apply Hk|apply Hk].
  - subst evs. inversion Hspec as [| |Hpr Hno]; subst. exists []. rewrite app_nil_r.
    destruct (kept_alone _ _ Hk (cm_peers _ Hs1)) as [Hd2 Hp2]. pose proof (kp_faults _ _ Hk (cm_faults _ Hs1)) as Hf2.
    rewrite (undo_calm i (txn s) (spots s) s2 Hf2 Hp2 (kp_spots _ _ Hk)) in Ec. set (s3 := set_spots (spots s) (set_aborted false (set_txn (txn s) s2))) in *.
    assert (calm s3) as Hs3 by done. assert (view s3 = view s) as Hv3 by (unfold view, s3; cbn; by rewrite Hd2).
    assert (between s s3 []) as Hb3 by (split; try done; [apply Hk|apply Hk|by rewrite app_nil_r]).
    assert ((Fail err, s3) = (o, s')) as [= <- <-]; [|by rewrite Hv3].
    rewrite <- Ec. destruct (is_unique_violation err); [|done]. unfold sq_bind. rewrite (find_calm s3 h) by (done || by rewrite Hv3).
    unfold answer. by rewrite Hpr.
Qed.

Lemma between_trans s s1 s2 e1 e2 : between s s1 e1 -> between s1 s2 e2 -> between s s2 (e1 ++ e2).
Proof.
  intros [C1 D1 S1 W1 L1 Q1] [C2 D2 S2 W2 L2 Q2]. split; try congruence. by rewrite Q2, Q1, map_app, app_assoc.
Qed.

Lemma drafts_calm txs : forall h i s, calm s -> db_ok (view s) h ->
  exists rs s' evs, commit_drafts i txs s = (Done rs, s') /\ between s s' evs /\ db_ok (view s') (h ++ evs) /\
    run_spec (fun at_ => exists k, at_ = wall s k / 1000 * 1000) h txs (map ok_of rs) evs.
Proof.
  induction txs as [|tx txs IH]; intros h i s Hs Hdb; cbn [commit_drafts].
  { exists [], s, []. rewrite app_nil_r. split_and!; try done; [|constructor]. split; try done. by rewrite app_nil_r. }
  destruct (in_savepoint_calm h i tx s Hs Hdb) as (evs & Hb & Hv & Hnp & Hspec). cbn zeta in *.
  unfold sq_bind at 1, sq_try. destruct (commit_in_savepoint i tx s) as [o s1]. cbn [fst snd] in *.
  destruct (IH (h ++ evs) (S i) s1 (bw_calm _ _ _ Hb) Hv) as (rs & s2 & evs2 & Hr & Hb2 & Hv2 & Hrun).
  rewrite (bw_wall _ _ _ Hb) in Hrun. rewrite <- app_assoc in Hv2. pose proof (between_trans _ _ _ _ _ Hb Hb2) as Hb12.
  assert (forall r, ok_of r = done_of o -> run_spec (fun at_ => exists k, at_ = wall s k / 1000 * 1000) h (tx :: txs) (map ok_of (r :: rs)) (evs ++ evs2)) as Hgo.
  { intros r Hro. cbn [map]. rewrite Hro. destruct (is_reserved (tx_book tx)) eqn:Eres.
    - destruct Hspec as [-> ->]. rewrite app_nil_r in Hrun. by apply run_reserved.
    - eapply run_draft; [done| |exact Hspec|exact Hrun]. by eexists. }
  unfold sq_bind. destruct o as [c|e|]; [| |done]; rewrite Hr; eexists _, s2, (evs ++ evs2); split_and!; try done; by apply Hgo.
Qed.

Lemma per_draft_calm h txs s :
  calm s -> db_ok (durable s) h ->
  exists rs s' evs, commit_batch_per_draft txs s = (Done rs, s') /\ db_ok (durable s') (h ++ evs) /\
    delivered s' = delivered s ++ map note_of evs /\
    run_spec (fun at_ => exists k, at_ = wall s k / 1000 * 1000) h txs (map ok_of rs) evs.
Proof.
  intros Hs Hdb. destruct txs as [|tx txs].
  { exists [], s, []. rewrite !app_nil_r. split_and!; try done. constructor. }
  cbv beta iota delta [commit_batch_per_draft]. rewrite begin_calm by done. set (s1 := set_spots [] _).
  assert (calm s1) as Hs1 by by destruct Hs.
  destruct (drafts_calm (tx :: txs) h 0 s1 Hs1 Hdb) as (rs & s2 & evs & Hr & Hb & Hv & Hrun).
  unfold sq_bind at 1. rewrite Hr. rewrite commit_calm by apply Hb. exists rs, (land s2), evs. split_and!; try done.
  cbn. by rewrite (bw_delivered _ _ _ Hb), (bw_queue _ _ _ Hb).
Qed.

(** ** Beside other sessions, with failing statements *)

(** The durable tables are left to the others. *)
Definition others_only (s s' : Session) : Prop := exists l, peers s = l ++ peers s' /\ durable s' = foldl (fun t f => f t) (durable s) l.

#[local] Instance others_preorder : PreOrder others_only.
Proof.
  split; [intros s; by exists []|]. intros a b c (l & Hl & Hd) (l' & Hl' & Hd'). exists (l ++ l'). by rewrite foldl_app, <- Hd, Hl, Hl', app_assoc.
Qed.

Definition only_others {A} (m : pg A) : Prop := forall s, others_only s (m s).2.

Lemma others_kept {A} (m : pg A) : is_kept m -> only_others m.
Proof. intros Hm s. apply Hm. Qed.
Lemma others_bind {A B} (m : pg A) (k : A -> pg B) : only_others m -> (forall a, only_others (k a)) -> only_others (sq_bind m k).
Proof.
  intros Hm Hk s. unfold sq_bind. specialize (Hm s). destruct (m s) as [[a|e|] s1]; cbn in *; [|done..]. etrans; [exact Hm|apply Hk].
Qed.
Lemma others_tried {A} (c : Session -> result A SqlxError * Session) : (forall s, others_only s (c s).2) -> only_others (tried c).
Proof. intros Hc s. unfold tried. specialize (Hc s). by destruct (c s) as [[]]. Qed.
Lemma others_try {A} (m : pg A) : only_others m -> only_others (sq_try m).
Proof. intros Hm s. unfold sq_try. specialize (Hm s). by destruct (m s) as [[]]. Qed.

Lemma others_durable s s' h : others_only s s' -> peers_ok s -> db_ok (durable s) h -> exists o, db_ok (durable s') (h ++ o) /\ peers_ok s'.
Proof.
  intros (l & Hl & ->) Hp Hdb. unfold peers_ok in *. rewrite Hl in Hp. apply Forall_app in Hp as [Hp Hp'].
  destruct (peers_history l _ h Hp Hdb) as [evs ?]. by exists evs.
Qed.

Lemma others_statement {A} (run : Session -> result (A * Session) SqlxError) :
  (forall s a s', run s = Ok (a, s') -> durable s' = durable s /\ peers s' = peers s) -> forall s, others_only s (statement run s).2.
Proof.
  intros Hrun s. unfold statement. pose proof (kp_others _ _ (kept_contact s)) as Hc. fold (others_only s (contact s).2) in Hc.
  destruct (contact s) as [[|e|e] s0]; cbn in *; [|done..]. destruct (aborted s0); [done|]. etrans; [exact Hc|].
  etrans; [apply (ev_peers _ _ (env_interleave s0))|]. destruct (run (interleave s0)) as [[a s2]|e] eqn:Er; cbn; [|by exists []].
  destruct (Hrun _ _ _ Er) as [Hd Hp]. exists []. by rewrite Hd, Hp.
Qed.

Lemma others_savepoint i s : others_only s (pg_savepoint i s).2.
Proof. apply others_statement. by intros s0 a s' [= <- <-]. Qed.
Lemma others_release i s : others_only s (pg_release i s).2.
Proof. apply others_statement. intros s0 a s'. destruct (spot_of i (spots s0)) as [[x l]|]; [|done]. by intros [= <- <-]. Qed.
Lemma others_undo i s : others_only s (undo i s).2.
Proof.
  unfold undo. assert (others_only s (pg_rollback_to i s).2) as Hr.
  { unfold pg_rollback_to. pose proof (kp_others _ _ (kept_contact s)) as Hc. fold (others_only s (contact s).2) in Hc.
    destruct (contact s) as [[|e|e] s0]; cbn in *; [|done..]. by destruct (spot_of i (spots s0)) as [[x l]|]. }
  destruct (pg_rollback_to i s) as [[u|e] s1]; cbn in *; [|done]. etrans; [exact Hr|apply others_release].
Qed.

Lemma others_in_savepoint i tx : only_others (commit_in_savepoint i tx).
Proof.
  unfold commit_in_savepoint. destruct (is_reserved _); [apply others_kept, kept_fail|]. apply others_bind; [apply others_tried, others_savepoint|].
  intros _. apply others_bind; [apply others_try, others_kept, kept_draft|]. intros [c|e].
  - apply others_bind; [apply others_tried, others_release|]. intros _. apply others_kept, kept_ret.
  - intros s. pose proof (others_undo i s) as Hu. destruct (undo i s) as [[u|u] s1]; cbn in *; [|done].
    destruct (is_unique_violation e); [|done]. etrans; [exact Hu|].
    apply (others_bind (find_committed (tx_book tx) (tx_idem tx))); [apply others_kept, kept_find|]. intros [c|]; apply others_kept; [apply kept_ret|apply kept_fail].
Qed.

Lemma statement_Err {A} (run : Session -> result (A * Session) SqlxError) s e s' : statement run s = (Err e, s') -> aborted s' = true.
Proof.
  unfold statement. destruct (contact s) as [[|e0|e0] s0]; cbn; [|by intros [= <- <-]..]. destruct (aborted s0) eqn:Ea; [by intros [= <- <-]|].
  destruct (run (interleave s0)) as [[a s2]|e0]; [done|by intros [= <- <-]].
Qed.

(** After a read of the transaction: aborted, or the others' commits seen. *)
Lemma find_view b k s : aborted (find_committed b k s).2 = true \/ env s (find_committed b k s).2.
Proof.
  unfold find_committed, sq_bind, fetch, tried. destruct (statement _ s) as [[r|e] s1] eqn:Es.
  - right. apply statement_Ok in Es as (_ & s2 & He & _ & _ & [= <- <-]). destruct (List.find _ _) as [row|]; [|done].
    unfold committed_row, sq_bind, get_row. by destruct (parse_uuid (tr_tx_id row)).
  - left. by eapply statement_Err.
Qed.

(** A success of a draft is on record in the transaction's view. *)
Definition on_view (h : list Entry) (tx : Transaction) (o : outcome Committed) : Prop :=
  forall c, o = Done c -> exists e, prior h (tx_book tx) (tx_idem tx) = Some e /\ committed_of e = Some c.

Definition sound_view (h : list Entry) (tx : Transaction) (r : outcome Committed * Session) : Prop :=
  aborted r.2 = true \/ (peers_ok r.2 /\ exists evs, db_ok (view r.2) (h ++ evs) /\ on_view (h ++ evs) tx r.1).

Lemma env_sound h tx s s' o : peers_ok s -> db_ok (view s) h -> env s s' ->
  on_view h tx o -> sound_view h tx (o, s').
Proof.
  intros Hp Hdb He Ho. right. split; [by eapply env_peers|]. destruct (env_history _ _ _ Hp He Hdb) as [evs Hdb']. exists evs. split; [done|].
  intros c Hc. destruct (Ho c Hc) as (e & Hpr & Hce). exists e. cbn. by rewrite prior_app, Hpr.
Qed.

Lemma sound_more h evs tx r : sound_view (h ++ evs) tx r -> sound_view h tx r.
Proof. intros [|(Hp & e & ? & ?)]; [by left|]. right. split; [done|]. exists (evs ++ e). by rewrite app_assoc. Qed.

Lemma release_sound h i tx s o : peers_ok s -> db_ok (view s) h -> on_view h tx o -> sound_view h tx (o, (pg_release i s).2).
Proof.
  intros Hp Hdb Ho. destruct (pg_release i s) as [[u|e] s'] eqn:Er; cbn [snd]; [|left; by eapply statement_Err].
  apply statement_Ok in Er as (_ & s1 & He & _ & _ & Hr). destruct (spot_of i (spots s1)) as [[x l]|]; [|done]. injection Hr as _ <-.
  exact (env_sound h tx s s1 o Hp Hdb He Ho).
Qed.

Lemma on_view_fail h tx o : done_of o = None -> on_view h tx o.
Proof. by intros Hn c ->. Qed.

Lemma recover_sound h tx e s : peers_ok s -> db_ok (view s) h ->
  sound_view h tx ((let& prior := find_committed (tx_book tx) (tx_idem tx) in match prior with Some prior => sq_ret prior | None => sq_fail e end) s).
Proof.
  intros Hp Hdb. unfold sq_bind. pose proof (find_view (tx_book tx) (tx_idem tx) s) as Hv. destruct (find_committed _ _ s) as [o s'] eqn:Ef. cbn [snd] in Hv.
  destruct Hv as [Ha|He]; [left; by destruct o as [[c|]| |]|]. destruct (env_history _ _ _ Hp He Hdb) as [evs Hdb'].
  assert (peers_ok s') as Hp' by (by eapply env_peers).
  assert (forall o, on_view (h ++ evs) tx o -> sound_view h tx (o, s')) as Hgo by (intros o' Ho'; right; split; [done|by exists evs]).
  destruct o as [[c|]|err|]; try (apply Hgo; by apply on_view_fail).
  apply Hgo. intros c' [= <-]. destruct (find_Done _ _ _ _ _ _ Ef Hdb') as (_ & _ & Ha). symmetry in Ha. by apply answer_prior.
Qed.

(** A draft in its savepoint: the transaction is aborted, or its view is a
    history with the answer on record. *)
Lemma in_savepoint_sound h i tx s : peers_ok s -> (aborted s = true \/ db_ok (view s) h) ->
  (commit_in_savepoint i tx s).1 <> Panicked -> sound_view h tx (commit_in_savepoint i tx s).
Proof.
  intros Hp Hv Hnp. destruct (commit_in_savepoint i tx s) as [o s'] eqn:Ec. unfold commit_in_savepoint in Ec.
  destruct (is_reserved (tx_book tx)).
  { injection Ec as <- <-. destruct Hv as [|Hv]; [by left|]. apply (env_sound h tx s); [done..|by apply on_view_fail]. }
  unfold sq_bind at 1, tried at 1 in Ec. destruct (pg_savepoint i s) as [[u|e] s1] eqn:Es; [|injection Ec as <- <-; left; by eapply statement_Err].
  apply statement_Ok in Es as (Ha & s0 & He & _ & _ & [= _ <-]). destruct Hv as [Hv|Hv]; [congruence|].
  destruct (env_history _ _ _ Hp He Hv) as [o1 Hv0]. pose proof (env_peers _ _ Hp He) as Hp0. apply sound_more with o1.
  set (s1 := set_spots _ s0) in *. pose proof (kept_draft tx s1) as Hk.
  unfold sq_bind at 1, sq_try in Ec. destruct (commit_draft tx s1) as [[c|e|] s2] eqn:Ed; cbn [snd] in Hk.
  - destruct (draft_sound (h ++ o1) tx s1 c s2 Hp0 Hv0 Ed) as (others & evs & Hok).
    destruct (dk_spec _ _ _ _ _ _ _ Hok) as [at_ Hspec]. pose proof (draft_on_record _ _ _ _ _ _ Hspec) as Hrec.
    rewrite <- app_assoc in Hrec. apply sound_more with (others ++ evs).
    assert (sound_view ((h ++ o1) ++ others ++ evs) tx (o, (pg_release i s2).2)) as Hr.
    { apply release_sound; [apply Hok|apply Hok|]. intros c' ->. unfold sq_bind, tried in Ec. destruct (pg_release i s2) as [[]]; [|done].
      by injection Ec as <- <-. }
    unfold sq_bind, tried in Ec. destruct (pg_release i s2) as [[u'|e'] s3]; injection Ec as <- <-; exact Hr.
  - destruct (undo i s2) as [[u'|uerr] s3] eqn:Eu; unfold undo in Eu.
    + unfold pg_rollback_to in Eu. pose proof (kept_contact s2) as Hkc. destruct (contact s2) as [[|f|f] s2']; [|done..]. cbn [snd] in Hkc.
      assert (kept s1 s2') as Hk' by (etrans; [exact Hk|exact Hkc]). rewrite (kp_spots _ _ Hk') in Eu. cbn in Eu. rewrite Nat.eqb_refl in Eu.
      set (s4 := set_aborted false _) in *. assert (exists o2, db_ok (view s4) ((h ++ o1) ++ o2) /\ peers_ok s4) as (o2 & Hv4 & Hp4).
      { unfold view in *. cbn in *. destruct (x_work (txn s0)) as [w|]; cbn in *.
        - exists []. rewrite app_nil_r. split; [done|]. destruct (kp_others _ _ Hk') as (l & Hl & _). unfold peers_ok in *. cbn in *.
          rewrite Hl in Hp0. by apply Forall_app in Hp0 as [_ ?].
        - by destruct (kept_durable s1 s2' (h ++ o1) Hk' Hp0 Hv0) as (o2 & ? & ? & _); exists o2. }
      apply sound_more with o2. pose proof (release_sound _ i tx s4 (@Fail Committed e) Hp4 Hv4 ltac:(by apply on_view_fail)) as Hr.
      rewrite Eu in Hr. cbn [snd] in Hr. apply statement_Ok in Eu as (_ & s5 & He5 & _ & _ & Hr5).
      destruct (spot_of i (spots s5)) as [[x l]|]; [|done]. injection Hr5 as _ <-.
      destruct (is_unique_violation e); [|by injection Ec as <- <-]. rewrite <- Ec.
      destruct (env_history _ _ _ Hp4 He5 Hv4) as [o3 Hv5]. apply sound_more with o3. apply recover_sound; [exact (env_peers _ _ Hp4 He5)|exact Hv5].
    + injection Ec as <- <-. left. cbn. unfold pg_rollback_to in Eu. destruct (contact s2) as [[|f|f] s2']; [|by injection Eu as <- <-..].
      destruct (spot_of i (spots s2')) as [[x l]|]; [|by injection Eu as <- <-]. by eapply statement_Err.
  - injection Ec as <- <-. by destruct Hnp.
Qed.

Lemma aborted_savepoint i tx s : aborted s = true -> aborted (commit_in_savepoint i tx s).2 = true.
Proof.
  intros Ha. unfold commit_in_savepoint. destruct (is_reserved _); [done|]. unfold sq_bind at 1, tried at 1.
  destruct (pg_savepoint i s) as [[u|e] s1] eqn:Es; [|by eapply statement_Err]. apply statement_Ok in Es as [Hn _]. congruence.
Qed.

Lemma aborted_stays txs : forall i s rs s', aborted s = true -> commit_drafts i txs s = (Done rs, s') -> aborted s' = true.
Proof.
  induction txs as [|tx txs IH]; intros i s rs s' Ha Hr; cbn [commit_drafts] in Hr; [by injection Hr as _ <-|].
  apply sq_bind_Done in Hr as (r & s1 & Hc & Hr). apply sq_bind_Done in Hr as (rs1 & s2 & Er & Hr). injection Hr as _ <-.
  eapply IH; [|exact Er]. pose proof (aborted_savepoint i tx s Ha) as Ha1. unfold sq_try in Hc.
  destruct (commit_in_savepoint i tx s) as [[c|e|] s1']; [by injection Hc as _ <-|by injection Hc as _ <-|done].
Qed.

Lemma drafts_pg_sound txs : forall h i s rs s', peers_ok s -> (aborted s = true \/ db_ok (view s) h) -> commit_drafts i txs s = (Done rs, s') ->
  aborted s' = true \/ exists evs, db_ok (view s') (h ++ evs) /\ on_record (h ++ evs) txs rs.
Proof.
  induction txs as [|tx txs IH]; intros h i s rs s' Hp Hv Hr; cbn [commit_drafts] in Hr.
  { injection Hr as <- <-. destruct Hv as [|Hv]; [by left|]. right. exists []. rewrite app_nil_r. split; [done|]. by intros j tx c. }
  apply sq_bind_Done in Hr as (r & s1 & Hc & Hr). apply sq_bind_Done in Hr as (rs1 & s2 & Er & Hr). injection Hr as <- <-.
  unfold sq_try in Hc. assert ((commit_in_savepoint i tx s).1 <> Panicked) as Hnp by (intros Hn; destruct (commit_in_savepoint i tx s) as [[]]; done).
  pose proof (in_savepoint_sound h i tx s Hp Hv Hnp) as Hsv. pose proof (others_in_savepoint i tx s) as Ho.
  destruct (commit_in_savepoint i tx s) as [o s1']. cbn [fst snd] in *.
  assert (s1' = s1 /\ ok_of r = done_of o) as [-> Hro] by (destruct o; [by injection Hc as <- <-|by injection Hc as <- <-|done]).
  assert (peers_ok s1) as Hp1 by (destruct Ho as (l & Hl & _); unfold peers_ok in *; rewrite Hl in Hp; by apply Forall_app in Hp as [_ ?]).
  destruct Hsv as [Ha|(_ & evs & Hv1 & Hon)].
  - left. by apply (aborted_stays txs (S i) s1 rs1).
  - destruct (IH (h ++ evs) (S i) s1 rs1 s2 Hp1 (or_intror Hv1) Er) as [|(e & Hve & Hone)]; [by left|]. right. exists (evs ++ e).
    rewrite app_assoc. split; [done|]. intros [|j] tx' c' Ht Hj; [|by apply (Hone j)]. injection Ht as <-. injection Hj as ->.
    destruct (Hon c') as (e0 & He0 & Hc0); [cbn; destruct o; cbn in Hro; congruence|]. exists e0. by rewrite prior_app, He0.
Qed.

(** ** The batch *)

Lemma others_drafts txs : forall i, only_others (commit_drafts i txs).
Proof.
  induction txs as [|tx txs IH]; intros i; cbn [commit_drafts]; [apply others_kept, kept_ret|].
  apply others_bind; [apply others_try, others_in_savepoint|]. intros r. apply others_bind; [apply IH|]. intros rs. apply others_kept, kept_ret.
Qed.

Lemma pg_drafts_length txs : forall i s rs s', commit_drafts i txs s = (Done rs, s') -> length rs = length txs.
Proof.
  induction txs as [|tx txs IH]; intros i s rs s' Hr; cbn [commit_drafts] in Hr; [by injection Hr as <- <-|].
  apply sq_bind_Done in Hr as (r & s1 & _ & Hr). apply sq_bind_Done in Hr as (rs1 & s2 & Hrs & Hr). injection Hr as <- <-.
  cbn. f_equal. by eapply IH.
Qed.

(** COMMIT comes to an aborted transaction. *)
Definition commit_aborted (txs : list Transaction) (s : Session) : Prop :=
  aborted (commit_drafts 0 txs (pool_begin s).2).2 = true.

Lemma on_record_none h txs rs : (forall r, r ∈ rs -> is_ok r = false) -> on_record h txs rs.
Proof. intros Hn i tx c _ Hr%list_elem_of_lookup_2. by apply Hn in Hr. Qed.

Lemma commit_aborted_cases s : aborted s = true -> durable (pg_commit s).2 = durable s.
Proof. intros Ha. unfold pg_commit, contact. destruct (faults s) as [|[|e|e] fs]; cbn; by rewrite ?Ha. Qed.

Lemma per_draft_run h txs s :
  peers_ok s -> db_ok (durable s) h ->
  exists evs, db_ok (durable (commit_batch_per_draft txs s).2) (h ++ evs) /\
    match (commit_batch_per_draft txs s).1 with
    | Done rs => length rs = length txs /\ (commit_aborted txs s \/ on_record (h ++ evs) txs rs)
    | _ => True
    end.
Proof.
  intros Hp Hdb. destruct txs as [|tx txs]; [exists []; rewrite app_nil_r; split; [done|]; split; [done|]; right; by intros i tx c|].
  cbv beta iota delta [commit_batch_per_draft]. destruct (begin_cases s) as (Hb & Hbd & Hbp & _). unfold commit_aborted.
  assert (forall e ctx n r, r ∈ batch_failure e ctx n -> is_ok r = false) as Hbf by apply batch_failure_errs.
  assert (forall e ctx n, length (batch_failure e ctx n) = n) as Hlf by (intros; unfold batch_failure; destruct (is_pool_timeout _); by rewrite length_replicate).
  destruct (pool_begin s) as [[u|e] s1] eqn:E1; cbn [snd] in *.
  2: { exists []. cbn [fst snd]. rewrite Hbd, app_nil_r. split; [done|]. split; [apply Hlf|]. right. apply on_record_none. intros r Hr. by apply Hbf in Hr. }
  destruct Hb as (_ & _ & Ha1 & Hv1). assert (peers_ok s1) as Hp1 by (unfold peers_ok; by rewrite Hbp).
  assert (db_ok (durable s1) h) as Hdb1 by by rewrite Hbd.
  destruct (others_durable s1 _ h (others_drafts (tx :: txs) 0 s1) Hp1 Hdb1) as (o & Hdb2 & _).
  assert (aborted s1 = true \/ db_ok (view s1) h) as Hv by (right; by rewrite Hv1). unfold sq_bind.
  pose proof (drafts_pg_sound (tx :: txs) h 0 s1) as Hs. pose proof (pg_drafts_length (tx :: txs) 0 s1) as Hlen.
  destruct (commit_drafts 0 (tx :: txs) s1) as [[rs|e|] s2]; cbn [fst snd] in *; [|exists o; by split..].
  specialize (Hs rs s2 Hp1 Hv eq_refl). specialize (Hlen rs s2 eq_refl).
  destruct (aborted s2) eqn:Ea.
  - exists o. pose proof (commit_aborted_cases s2 Ea) as Hd. destruct (pg_commit s2) as [[u'|e] s3]; cbn [fst snd] in *; rewrite Hd.
    + split; [done|]. split; [done|by left].
    + split; [done|]. split; [apply Hlf|by left].
  - destruct Hs as [|(evs & Hve & Hon)]; [done|]. destruct (commit_cases s2 Ea) as (_ & [[Hland _]|(Hsame & _ & err & Herr)]).
    + exists evs. destruct (pg_commit s2) as [[u'|e] s3]; cbn [fst snd] in *; rewrite Hland; (split; [done|]).
      * split; [done|by right].
      * split; [apply Hlf|]. right. apply on_record_none. intros r Hr. by apply Hbf in Hr.
    + exists o. destruct (pg_commit s2) as [r s3]. cbn [fst snd] in *. subst r. cbn [fst snd]. rewrite Hsame. split; [done|].
      split; [apply Hlf|]. right. apply on_record_none. intros r Hr. by apply Hbf in Hr.
Qed.
End drafts.
