(* ===== verification/PgBatch.v ===== *)
(** The PostgreSQL store's [commit_batch] (talea-store-postgres/src/lib.rs) and
    its set-based fast path (batch.rs): one transaction and a number of round
    trips that does not depend on the batch; whatever surprises it abandons the
    attempt to the loop over savepoints, [Postgres.commit_batch_per_draft].

    A failure that the source maps to [None] is a failure of the model's
    computation, whose error [try_commit_batch_fast] forgets. *)

From S2P Require Import Prelude Decimal Core Disk Sql Sqlite Pg Postgres.
Open Scope Z_scope.

Inductive BatchPath := Fast | Fallback.

Record FastDraft := mkFastDraft {
  input_idx : nat;
  fast_tx : Transaction
}.

(** One account's contribution across the write set. *)
Record AcctAgg := mkAcctAgg {
  total_delta : Z;
  steps : list (nat * Z);
  last_touch_idx : nat
}.

(** One pending of draft [draft_idx].  The source adds with [+=]. *)
Definition agg_pending (draft_idx : nat) (agg : gmap string AcctAgg) (p : Pending) : gmap string AcctAgg :=
  let key := to_key (pd_account p) in
  let entry := default (mkAcctAgg 0 [] draft_idx) (agg !! key) in
  <[key := mkAcctAgg (wrap_i64 (total_delta entry + pd_delta p)) (steps entry ++ [(draft_idx, pd_delta p)]) draft_idx]> agg.

(** What the pass over the drafts builds. *)
Record Plan := mkPlan {
  pl_writes : list FastDraft;
  pl_dedup : list (nat * string);
  pl_seen : list string;
  pl_agg : gmap string AcctAgg
}.

Definition aborted_fast : DbError := IoBox (OtherE "fast path aborted").

Section batch.
Context `{HashIter} `{UuidText} `{Json LedgerEvent} `{Json (list ExternalRef)}.

Definition plan_draft (by_key : gmap string Committed) (accounts : gmap string AccountRow) (i : nat) (tx : Transaction)
    (st : Plan) : option Plan :=
  let key := tx_idem tx in
  if bool_decide (is_Some (by_key !! key)) || bool_decide (key ∈ pl_seen st)
  then Some (mkPlan (pl_writes st) (pl_dedup st ++ [(i, key)]) (pl_seen st) (pl_agg st))
  else
    match fold_postings tx accounts with
    | Err _ => None
    | Ok pendings =>
        let draft_idx := length (pl_writes st) in
        Some (mkPlan (pl_writes st ++ [mkFastDraft i tx]) (pl_dedup st) (key :: pl_seen st)
                (foldl (agg_pending draft_idx) (pl_agg st) pendings))
    end.

Fixpoint plan_drafts (by_key : gmap string Committed) (accounts : gmap string AccountRow) (i : nat) (txs : list Transaction)
    (st : Plan) : option Plan :=
  match txs with
  | [] => Some st
  | tx :: txs => st ← plan_draft by_key accounts i tx st; plan_drafts by_key accounts (S i) txs st
  end.

(** The replay of an account's steps from its balance before the batch. *)
Fixpoint prefix_ok (running : Z) (steps : list (nat * Z)) (side : option Direction) (min : Z) : bool :=
  match steps with
  | [] => true
  | (_, delta) :: steps =>
      let running := wrap_i64 (running + delta) in
      if effective running side <? min then false else prefix_ok running steps side min
  end.

(** [accounts[k]], [agg[k]], [finals[k]]: indexing panics on an absent key. *)
Definition index {S A} (m : gmap string A) (k : string) : db S A :=
  match m !! k with Some a => sq_ret a | None => sq_panic end.

Fixpoint mapM_db {S A B} (f : A -> db S B) (l : list A) : db S (list B) :=
  match l with
  | [] => sq_ret []
  | a :: l => let& b := f a in let& bs := mapM_db f l in sq_ret (b :: bs)
  end.

Definition check_prefix (accounts : gmap string AccountRow) (agg : gmap string AcctAgg) (finals : gmap string Z) (key : string) : pg unit :=
  let& acct := index accounts key in
  match row_min_balance acct with
  | None => sq_ret ()
  | Some min =>
      let& entry := index agg key in
      let& final := index finals key in
      if prefix_ok (wrap_i64 (final - total_delta entry)) (steps entry) (row_normal_side acct) min
      then sq_ret () else sq_fail aborted_fast
  end.

(** A row of the balance upsert: the account's last draft gives its seq. *)
Definition batch_delta (accounts : gmap string AccountRow) (agg : gmap string AcctAgg) (first : Seq) (key : string) : pg BalanceDelta :=
  let& acct := index accounts key in
  let& entry := index agg key in
  sq_ret (mkBalanceDelta key (row_asset acct) (total_delta entry) (first + Z.of_nat (last_touch_idx entry))).

Definition batch_transaction (first : Seq) (at_ : DateTime) (i : nat) (p : FastDraft * list byte) : TransactionRow :=
  let tx := fast_tx p.1 in
  mkTransactionRow (uuid_text (tx_id tx)) (tx_book tx) (first + Z.of_nat i) (tx_idem tx) (tx_occurred_at tx) at_ (tx_metadata tx) p.2.

Definition batch_postings (first : Seq) (at_ : DateTime) (i : nat) (w : FastDraft) : list PostingRow :=
  imap (posting_row (fast_tx w) (first + Z.of_nat i) at_) (tx_postings (fast_tx w)).

Definition batch_event (book : Book) (first : Seq) (at_ : DateTime) (i : nat) (p : FastDraft * list byte) : EventRow :=
  mkEventRow book (first + Z.of_nat i) at_ (LedgerEvent_kind (TransactionPosted (fast_tx p.1))) p.2.

Definition batch_committed (first : Seq) (at_ : DateTime) (i : nat) (w : FastDraft) : Committed :=
  mkCommitted (tx_id (fast_tx w)) (first + Z.of_nat i) at_.

Definition write_set (book : Book) (writes : list FastDraft) (accounts : gmap string AccountRow) (agg : gmap string AcctAgg) :
    pg (list (FastDraft * Committed)) :=
  let n := Z.of_nat (length writes) in
  let& (last, at_) := claim_seqs book n in
  let first := last - n + 1 in
  let b_keys := sort_by String.leb (map fst (hash_iter agg)) in
  let& deltas := mapM_db (batch_delta accounts agg first) b_keys in
  let& rows := modify (upsert_balances deltas) in
  let finals := list_to_map rows in
  let& _ := mapM_db (check_prefix accounts agg finals) b_keys in
  let& t_refs := lift_std (all_ok (map (fun w => to_vec (tx_external_refs (fast_tx w))) writes)) in
  let& _ := modify (insert_transactions (imap (batch_transaction first at_) (zip writes t_refs))) in
  let& _ := modify (insert_postings (concat (imap (batch_postings first at_) writes))) in
  let& e_payloads := lift_std (all_ok (map (fun w => to_vec (TransactionPosted (fast_tx w))) writes)) in
  let& _ := modify (insert_events (imap (batch_event book first at_) (zip writes e_payloads))) in
  let& _ := notify book last in
  sq_ret (imap (fun i w => (w, batch_committed first at_ i w)) writes).

(** The answers of the write set, by key and by input slot. *)
Definition record_answers (answers : list (FastDraft * Committed)) (by_key : gmap string Committed)
    (results : list (option (result Committed DbError))) :
    gmap string Committed * list (option (result Committed DbError)) :=
  foldl (fun acc p => (<[tx_idem (fast_tx p.1) := p.2]> acc.1, <[input_idx p.1 := Some (Ok p.2)]> acc.2)) (by_key, results) answers.

Definition record_dedup (by_key : gmap string Committed) (slots : list (nat * string))
    (results : list (option (result Committed DbError))) : pg (list (option (result Committed DbError))) :=
  let& found := mapM_db (fun p => let& c := index by_key p.2 in sq_ret (p.1, c)) slots in
  sq_ret (foldl (fun rs p => <[p.1 := Some (Ok p.2)]> rs) results found).

(** One query for every key of the batch. *)
Definition prior_rows (book : Book) (keys : list string) : pg (gmap string Committed) :=
  let& rows := fetch (fun t => filter (fun r => tr_book r = book /\ tr_idempotency_key r ∈ keys) (t_transactions t)) in
  let& found := mapM_db (fun r => let& c := committed_row r in sq_ret (tr_idempotency_key r, c)) rows in
  sq_ret (list_to_map found).

(** The steps of [try_commit_batch_fast] in its transaction; the panic on the
    empty batch ([txs[0]]) is in the first. *)
Definition batch_fast (txs : list Transaction) : pg (list (result Committed DbError)) :=
  match txs with
  | [] => sq_panic
  | tx0 :: _ =>
      let book := tx_book tx0 in
      if is_reserved book || existsb (fun t => negb (String.eqb (tx_book t) book)) txs then sq_fail aborted_fast
      else
        let& _ := tried pool_begin in
        let& by_key := prior_rows book (map tx_idem txs) in
        let acct_keys := dedup (sort_by String.leb (concat (map (fun t => map (fun p => to_key (p_account p)) (tx_postings t)) txs))) in
        let& accounts := load_accounts acct_keys in
        let& plan := lift_db (ok_or (plan_drafts by_key accounts 0 txs (mkPlan [] [] [] ∅)) aborted_fast) in
        let results := replicate (length txs) None in
        let& (by_key, results) :=
          match pl_writes plan with
          | [] => sq_ret (by_key, results)
          | writes =>
              let& answers := write_set book writes accounts (pl_agg plan) in
              let& _ := tried pg_commit in
              sq_ret (record_answers answers by_key results)
          end in
        let& results := record_dedup by_key (pl_dedup plan) results in
        lift_db (ok_or (mapM id results) aborted_fast)
  end.

(** [None] is a fallback; the transaction is dropped. *)
Definition try_commit_batch_fast (txs : list Transaction) : pg (option (list (result Committed DbError))) := fun s =>
  match batch_fast txs s with
  | (Done rs, s) => (Done (Some rs), s)
  | (Fail _, s) => (Done None, s)
  | (Panicked, s) => (Panicked, s)
  end.

Definition commit_batch_traced (txs : list Transaction) : pg (BatchPath * list (result Committed DbError)) :=
  match txs with
  | [] => sq_ret (Fast, [])
  | _ =>
      let& fast := try_commit_batch_fast txs in
      match fast with
      | Some results => sq_ret (Fast, results)
      | None => let& results := commit_batch_per_draft txs in sq_ret (Fallback, results)
      end
  end.

Definition commit_batch (txs : list Transaction) : pg (list (result Committed DbError)) :=
  let& (path, results) := commit_batch_traced txs in
  sq_ret results.
End batch.
