(* ===== verification/PgPlan.v ===== *)
(** The plan of the PostgreSQL store's fast path
    (talea-store-postgres/src/batch.rs): which drafts of a batch are new, what
    they add up to per account, and the history that writing them in turn
    would give. *)

From S2P Require Import Prelude Decimal Core Disk Sql Sqlite SqliteSpec SqliteCommit SqliteHistory Pg Postgres PgSpec PgCommit.
From S2P Require Import PgHistory PgDefs PgDrafts PgBatch.
Open Scope Z_scope.

(** ** Sums modulo 2^64 *)

Lemma wrap_i64_shift x : exists k, wrap_i64 x = x + k * 2 ^ 64.
Proof.
  unfold wrap_i64. exists (- ((x - i64_min) / 2 ^ 64)). pose proof (Z.div_mod (x - i64_min) (2 ^ 64) ltac:(lia)). lia.
Qed.

(** Adding a wrapped sum stays exact when both the sum and the addition fit. *)
Lemma wrap_exact a t : in_i64 (a + wrap_i64 t) = true -> in_i64 (a + t) = true -> wrap_i64 t = t.
Proof.
  rewrite !in_i64_spec. destruct (wrap_i64_shift t) as [k Hk]. rewrite Hk. unfold i64_min, i64_max. change (2 ^ 64) with 18446744073709551616.
  intros. assert (k = 0) as -> by lia. lia.
Qed.

(** ** The new drafts *)

Definition posts (ws : list Transaction) : list Posting := concat (map tx_postings ws).

Lemma posts_snoc ws tx : posts (ws ++ [tx]) = posts ws ++ tx_postings tx.
Proof. unfold posts. rewrite map_app, concat_app. cbn. by rewrite app_nil_r. Qed.

(** An account's steps: the drafts that touch it, with what they add. *)
Fixpoint steps_from (i : nat) (ws : list Transaction) (key : string) : list (nat * Z) :=
  match ws with
  | [] => []
  | tx :: ws =>
      match of_key key (tx_postings tx) with [] => [] | _ => [(i, delta_of key (tx_postings tx))] end ++ steps_from (S i) ws key
  end.

Lemma steps_snoc ws tx key : forall i,
  steps_from i (ws ++ [tx]) key =
  steps_from i ws key ++ match of_key key (tx_postings tx) with [] => [] | _ => [((i + length ws)%nat, delta_of key (tx_postings tx))] end.
Proof.
  induction ws as [|w ws IH]; intros i; cbn [app steps_from length]; [by rewrite app_nil_r, Nat.add_0_r|].
  rewrite IH, app_assoc. by replace (S i + length ws)%nat with (i + S (length ws))%nat by lia.
Qed.

Lemma untouched_delta key ws : forall i, steps_from i ws key = [] -> delta_of key (posts ws) = 0.
Proof.
  induction ws as [|w ws IH]; intros i; [done|]. cbn [steps_from]. intros [Hw Hs]%app_nil. unfold posts. cbn [map concat]. rewrite delta_of_app.
  fold (posts ws). rewrite (IH _ Hs). destruct (of_key key (tx_postings w)) eqn:E; [|done]. unfold delta_of. fold (of_key key (tx_postings w)). by rewrite E.
Qed.

(** What the plan has for an account. *)
Definition agg_of (ws : list Transaction) (key : string) : option AcctAgg :=
  match last (steps_from 0 ws key) with
  | None => None
  | Some (j, _) => Some (mkAcctAgg (wrap_i64 (delta_of key (posts ws))) (steps_from 0 ws key) j)
  end.

Lemma agg_of_snoc ws tx key :
  agg_of (ws ++ [tx]) key =
  match of_key key (tx_postings tx) with
  | [] => agg_of ws key
  | _ =>
      let entry := default (mkAcctAgg 0 [] (length ws)) (agg_of ws key) in
      Some (mkAcctAgg (wrap_i64 (total_delta entry + delta_of key (tx_postings tx)))
              (steps entry ++ [(length ws, delta_of key (tx_postings tx))]) (length ws))
  end.
Proof.
  unfold agg_of. rewrite steps_snoc, posts_snoc, delta_of_app. cbn [Nat.add].
  destruct (of_key key (tx_postings tx)) as [|p rest] eqn:E.
  - rewrite app_nil_r. destruct (last (steps_from 0 ws key)) as [[j d]|]; [|done].
    unfold delta_of at 2. fold (of_key key (tx_postings tx)). rewrite E. cbn. by rewrite Z.add_0_r.
  - rewrite last_snoc. destruct (last (steps_from 0 ws key)) as [[j d]|] eqn:El; cbn.
    + by rewrite wrap_i64_add.
    + apply last_None in El. rewrite El, (untouched_delta _ _ _ El). done.
Qed.

Lemma agg_of_None ws key : agg_of ws key = None -> steps_from 0 ws key = [].
Proof. unfold agg_of. destruct (last (steps_from 0 ws key)) as [[j d]|] eqn:E; [done|]. intros _. by apply last_None. Qed.

Lemma agg_of_Some ws key a : agg_of ws key = Some a ->
  total_delta a = wrap_i64 (delta_of key (posts ws)) /\ steps a = steps_from 0 ws key.
Proof. unfold agg_of. destruct (last _) as [[j d]|]; [|done]. by intros [= <-]. Qed.

(** Folding a draft's pendings into the plan. *)
Lemma agg_pendings L0 ps l idx : foldable L0 ps -> pending_list L0 ps l -> forall agg key,
  foldl (agg_pending idx) agg l !! key =
  match of_key key ps with
  | [] => agg !! key
  | _ =>
      let entry := default (mkAcctAgg 0 [] idx) (agg !! key) in
      Some (mkAcctAgg (wrap_i64 (total_delta entry + delta_of key ps)) (steps entry ++ [(idx, delta_of key ps)]) idx)
  end.
Proof.
  intros Hf Hl agg key.
  assert (forall l, NoDup (map pd_key l) -> (forall e, e ∈ l -> pending_of L0 ps (pd_key e) = Some e) -> forall agg,
    foldl (agg_pending idx) agg l !! key =
    match list_find (fun e => pd_key e = key) l with
    | None => agg !! key
    | Some _ =>
        let entry := default (mkAcctAgg 0 [] idx) (agg !! key) in
        Some (mkAcctAgg (wrap_i64 (total_delta entry + delta_of key ps)) (steps entry ++ [(idx, delta_of key ps)]) idx)
    end) as Hgo.
  { clear agg l Hl. induction l as [|e l IH]; intros Hnd He agg; [done|]. cbn [map] in Hnd. apply NoDup_cons in Hnd as [Hnin Hnd].
    cbn [foldl list_find]. rewrite IH; [|done|intros e' He'; apply He; by right]. case_decide as Hk.
    - assert (list_find (fun e => pd_key e = key) l = None) as ->.
      { apply list_find_None, Forall_forall. intros e' He' Hk'. apply Hnin. rewrite Hk, <- Hk'. by apply (list_elem_of_fmap_2 pd_key). }
      destruct (pending_of_inv _ _ _ _ (He e ltac:(by left))) as (p & row & _ & _ & Heq). rewrite Hk in Heq.
      unfold agg_pending. fold (pd_key e). rewrite Hk, lookup_insert_eq. by rewrite Heq.
    - assert (agg_pending idx agg e !! key = agg !! key) as ->; [unfold agg_pending; by apply lookup_insert_ne|].
      by destruct (list_find _ l) as [[]|]. }
  rewrite Hgo; [|apply Hl|intros e; by apply (pl_elem _ _ _ Hl)].
  destruct (list_find (fun e => pd_key e = key) l) as [[i e]|] eqn:Ef.
  - apply list_find_Some in Ef as (Hi & Hk & _). apply list_elem_of_lookup_2 in Hi. apply (pl_elem _ _ _ Hl) in Hi. rewrite Hk in Hi.
    apply pending_of_inv in Hi as (p & row & Hp & _). by destruct (of_key key ps).
  - destruct (of_key key ps) as [|p rest] eqn:E; [done|]. exfalso. assert (p ∈ of_key key ps) as [Hk Hp]%of_key_elem by (rewrite E; by left).
    destruct (pending_touched _ _ _ p Hl Hf Hp) as (e & He & Hke & _). apply list_find_None in Ef. rewrite Forall_forall in Ef.
    apply (Ef e He). congruence.
Qed.

(** ** The chain of entries the new drafts make *)

Section chain.
Context `{HashIterLaws} `{UuidTextLaws} `{Json LedgerEvent} `{Json (list ExternalRef)}.

Fixpoint chain (h : list Entry) (at_ : DateTime) (ws : list Transaction) : list Entry :=
  match ws with
  | [] => []
  | tx :: ws => let e := posted h tx at_ in e :: chain (h ++ [e]) at_ ws
  end.

Lemma chain_snoc ws tx at_ : forall h, chain h at_ (ws ++ [tx]) = chain h at_ ws ++ [posted (h ++ chain h at_ ws) tx at_].
Proof.
  induction ws as [|w ws IH]; intros h; cbn; [by rewrite app_nil_r|]. rewrite IH. by rewrite <- app_assoc.
Qed.

Lemma chain_length h at_ ws : length (chain h at_ ws) = length ws.
Proof. revert h. induction ws as [|w ws IH]; intros h; cbn; [done|]. by rewrite IH. Qed.

Lemma chain_take ws at_ h k : take k (chain h at_ ws) = chain h at_ (take k ws).
Proof. revert h k. induction ws as [|w ws IH]; intros h [|k]; cbn; [done..|]. by rewrite IH. Qed.

Lemma chain_lookup ws at_ h k tx : ws !! k = Some tx -> chain h at_ ws !! k = Some (posted (h ++ chain h at_ (take k ws)) tx at_).
Proof.
  revert h k. induction ws as [|w ws IH]; intros h [|k]; cbn; [done..|by intros [= ->]; rewrite app_nil_r|]. intros Hk.
  rewrite (IH _ _ Hk). by rewrite <- app_assoc.
Qed.

Lemma chain_opened h at_ ws key : opened (h ++ chain h at_ ws) key = opened h key.
Proof.
  induction ws as [|tx ws IH] using rev_ind; [by rewrite app_nil_r|]. rewrite chain_snoc, app_assoc, opened_snoc, IH. by destruct (opened h key).
Qed.

Lemma chain_registered h at_ ws id : registered (h ++ chain h at_ ws) id = registered h id.
Proof.
  induction ws as [|tx ws IH] using rev_ind; [by rewrite app_nil_r|]. rewrite chain_snoc, app_assoc, registered_snoc, IH. by destruct (registered h id).
Qed.

Lemma chain_balance h at_ ws key : balance_of (h ++ chain h at_ ws) key = balance_of h key + delta_of key (posts ws).
Proof.
  induction ws as [|tx ws IH] using rev_ind; [rewrite app_nil_r; cbn; by rewrite Z.add_0_r|].
  rewrite chain_snoc, app_assoc, balance_of_posted, IH, posts_snoc, delta_of_app. lia.
Qed.

Variable b : Book.

Lemma chain_log h at_ ws b' : Forall (fun tx => tx_book tx = b) ws ->
  length (book_log b' (h ++ chain h at_ ws)) = (length (book_log b' h) + (if decide (b = b') then length ws else 0))%nat.
Proof.
  induction ws as [|tx ws IH] using rev_ind; intros Hb; [rewrite app_nil_r; cbn; destruct (decide (b = b')); lia|].
  apply Forall_app in Hb as [Hb Htx]. rewrite Forall_singleton in Htx. rewrite chain_snoc, app_assoc, book_log_snoc, length_app, IH by done.
  cbn [en_book posted next_entry]. rewrite Htx, length_app. cbn. destruct (decide (b = b')); cbn; lia.
Qed.

Lemma chain_seq h at_ ws k e : Forall (fun tx => tx_book tx = b) ws -> chain h at_ ws !! k = Some e ->
  en_seq e = 1 + Z.of_nat (length (book_log b h)) + Z.of_nat k /\ en_book e = b /\ en_at e = at_ /\
  exists tx, ws !! k = Some tx /\ en_event e = TransactionPosted tx.
Proof.
  intros Hb He. assert (is_Some (ws !! k)) as [tx Htx].
  { apply lookup_lt_is_Some. rewrite <- (chain_length h at_ ws). by eapply lookup_lt_Some. }
  rewrite (chain_lookup _ _ _ _ _ Htx) in He. injection He as <-. cbn.
  assert (tx_book tx = b) as Hbook by (rewrite Forall_forall in Hb; apply Hb; by eapply list_elem_of_lookup_2). rewrite Hbook.
  assert (k < length ws)%nat as Hlt by (by eapply lookup_lt_Some).
  rewrite chain_log by by apply Forall_take. rewrite decide_True by done. rewrite length_take_le by lia.
  split; [lia|]. split_and!; try done. by exists tx.
Qed.

(** Drafts that a history takes one after the other. *)
Definition chain_ok (h : list Entry) (at_ : DateTime) (ws : list Transaction) : Prop := forall k tx, ws !! k = Some tx ->
  let h' := h ++ chain h at_ (take k ws) in prior h' (tx_book tx) (tx_idem tx) = None /\ postable h' tx.

Lemma chain_ok_take h at_ ws k : chain_ok h at_ ws -> chain_ok h at_ (take k ws).
Proof.
  intros Hc j tx Hj. pose proof Hj as Hj'. apply lookup_take_Some in Hj' as [Hj' Hlt]. rewrite take_take, Nat.min_l by lia. by apply Hc.
Qed.

Lemma chain_ok_snoc h at_ ws tx : chain_ok h at_ (ws ++ [tx]) ->
  chain_ok h at_ ws /\ prior (h ++ chain h at_ ws) (tx_book tx) (tx_idem tx) = None /\ postable (h ++ chain h at_ ws) tx.
Proof.
  intros Hc. split.
  - pose proof (chain_ok_take _ _ _ (length ws) Hc) as Ht. by rewrite take_app_length in Ht.
  - specialize (Hc (length ws) tx). rewrite take_app_length in Hc. apply Hc. rewrite lookup_app_r, Nat.sub_diag by lia. done.
Qed.

Lemma chain_history h at_ ws : history_ok h -> chain_ok h at_ ws -> history_ok (h ++ chain h at_ ws).
Proof.
  intros Hh. induction ws as [|tx ws IH] using rev_ind; [by rewrite app_nil_r|]. intros (Hc & Hp & Hac)%chain_ok_snoc.
  rewrite chain_snoc, app_assoc. apply history_ok_post; auto.
Qed.

(** The balance rows after the chain. *)
Lemma balance_row_shape h key row def cfg : history_ok h -> opened h key = Some (def, cfg) -> balance_row h key = Some row ->
  ba_asset row = acct_asset def /\ ba_balance row = Int (balance_of h key).
Proof.
  intros Hh Ho. unfold balance_row. destruct (last (account_rows key h)) as [r|] eqn:El; [|done]. intros [= <-]. split; [|done].
  assert (r ∈ account_rows key h) as [Hk Hr]%list_elem_of_filter by (by apply last_Some_elem_of).
  destruct (ho_postings _ Hh r Hr) as (def' & cfg' & Ho' & <-). rewrite Hk in Ho'. cbn; congruence.
Qed.

Lemma chain_balance_row h at_ ws key : history_ok h -> chain_ok h at_ ws -> Forall (fun tx => tx_book tx = b) ws ->
  match agg_of ws key with
  | None => balance_row (h ++ chain h at_ ws) key = balance_row h key
  | Some a => exists def cfg, opened h key = Some (def, cfg) /\
      balance_row (h ++ chain h at_ ws) key =
        Some (mkBalanceRow (acct_asset def) (Int (balance_of h key + delta_of key (posts ws)))
                (1 + Z.of_nat (length (book_log b h)) + Z.of_nat (last_touch_idx a)))
  end.
Proof.
  intros Hh. induction ws as [|tx ws IH] using rev_ind; intros Hc Hb; [by rewrite app_nil_r|].
  pose proof (chain_history _ _ _ Hh Hc) as Hh'. apply chain_ok_snoc in Hc as (Hc & Hp & Hac). apply Forall_app in Hb as [Hb Htx]. rewrite Forall_singleton in Htx.
  specialize (IH Hc Hb). rewrite agg_of_snoc. rewrite chain_snoc, app_assoc in *. set (h1 := h ++ chain h at_ ws) in *.
  destruct (of_key key (tx_postings tx)) as [|p rest] eqn:E.
  - rewrite balance_row_untouched by done. destruct (agg_of ws key) as [a|]; [|done]. destruct IH as (def & cfg & Ho & ->). exists def, cfg.
    split; [done|]. rewrite posts_snoc, delta_of_app. unfold delta_of at 3. fold (of_key key (tx_postings tx)). rewrite E. cbn. by rewrite Z.add_0_r.
  - cbn zeta. assert (p ∈ of_key key (tx_postings tx)) as [Hk Hpin]%of_key_elem by (rewrite E; by left).
    destruct (ac_accounts _ _ Hac p Hpin) as (def & cfg & Ho & _). rewrite Hk in Ho.
    assert (pending_of (account_row_of h1) (tx_postings tx) key <> None) as Hpn.
    { unfold pending_of, account_row_of. rewrite E, Ho. cbn. done. }
    destruct (pending_of (account_row_of h1) (tx_postings tx) key) as [pd|] eqn:Ep; [|done].
    pose proof (balance_row_posted h1 tx at_ key pd (chain_history _ _ _ Hh Hc) Hac Ep) as Hrow. cbn zeta in Hrow. symmetry in Hrow.
    destruct (balance_row_shape _ key _ def cfg Hh' ltac:(by apply opened_keep) Hrow) as [Ha Hbal]. exists def, cfg.
    split; [unfold h1 in Ho; by rewrite chain_opened in Ho|]. rewrite Hrow. f_equal. cbn [last_touch_idx].
    assert (ba_updated_seq (upserted (en_seq (posted h1 tx at_)) pd (balance_row h1 key)) = 1 + Z.of_nat (length (book_log b h)) + Z.of_nat (length ws)) as Hseq.
    { assert (forall q old, ba_updated_seq (upserted q pd old) = q) as -> by (by intros q [r|]). cbn. rewrite Htx. unfold h1.
      rewrite chain_log, decide_True by done. lia. }
    rewrite balance_of_posted in Hbal. change (balance_of h1 key) with (balance_of (h ++ chain h at_ ws) key) in Hbal. rewrite chain_balance in Hbal. rewrite posts_snoc, delta_of_app.
    destruct (upserted _ _ _) as [a bal q]. cbn in *. subst. f_equal. f_equal. lia.
Qed.
End chain.
