(* ===== verification/PgFast.v ===== *)
(** The write set of the PostgreSQL store's fast path
    (talea-store-postgres/src/batch.rs): when it goes through, the tables are
    those of committing its drafts one after the other. *)

From S2P Require Import Prelude Decimal Core Disk Sql Sqlite SqliteSpec SqliteCommit SqliteHistory Pg Postgres PgSpec PgCommit.
From S2P Require Import PgHistory PgDefs PgDrafts PgBatch PgPlan.
Open Scope Z_scope.

(** ** Steps of a calm session *)

Lemma modify_calm_Done {A} (q : Tables -> result (A * Tables) SqlxError) s a s' : calm s -> modify q s = (Done a, s') ->
  exists t, q (view s) = Ok (a, t) /\ s' = wrote t s.
Proof. intros Hs. rewrite modify_calm by done. destruct (q (view s)) as [[x t]|e]; [|done]. intros [= <- <-]. by exists t. Qed.

Lemma lift_std_Done {S A} (r : result A string) (s : S) a s' : lift_std r s = (Done a, s') -> r = Ok a /\ s' = s.
Proof. destruct r; [|done]. by intros [= <- <-]. Qed.

Lemma index_Done {S A} (m : gmap string A) k (s : S) a s' : index m k s = (Done a, s') -> m !! k = Some a /\ s' = s.
Proof. unfold index. destruct (m !! k); [|done]. by intros [= <- <-]. Qed.

Lemma mapM_Done {S A B} (f : A -> db S B) (R : A -> B -> Prop) l : (forall a s b s', f a s = (Done b, s') -> s' = s /\ R a b) ->
  forall s bs s', mapM_db f l s = (Done bs, s') -> s' = s /\ Forall2 R l bs.
Proof.
  intros Hf. induction l as [|a l IH]; intros s bs s'; cbn [mapM_db]; [by intros [= <- <-]|].
  intros (b & s1 & H1 & (bs1 & s2 & H2 & [= <- <-])%sq_bind_Done)%sq_bind_Done. destruct (Hf _ _ _ _ H1) as [-> ?]. destruct (IH _ _ _ H2) as [-> ?].
  split; [done|]. by constructor.
Qed.

Lemma all_ok_spec {A B E} (f : A -> result B E) l xs : all_ok (map f l) = Ok xs -> Forall2 (fun a x => f a = Ok x) l xs.
Proof.
  revert xs. induction l as [|a l IH]; intros xs; cbn; [by intros [= <-]|]. destruct (f a) as [x|e] eqn:Ef; [|done].
  destruct (all_ok (map f l)) as [rest|e]; [|done]. intros [= <-]. constructor; [done|by apply IH].
Qed.

Lemma zip_take {A B} (l : list A) (k : list B) n : take n (zip l k) = zip (take n l) (take n k).
Proof. revert k n. induction l as [|x l IH]; intros [|y k] [|n]; cbn; [done..|]. by rewrite IH. Qed.

Lemma imap_take {A B} (f : nat -> A -> B) l n : take n (imap f l) = imap f (take n l).
Proof. revert f n. induction l as [|x l IH]; intros f [|n]; cbn; [done..|]. by rewrite <- IH. Qed.

Section fast.
Context `{HashIterLaws} `{UuidTextLaws} `{Json LedgerEvent} `{Json (list ExternalRef)}.

Variable b : Book.

(** ** The rows are the chain's *)

Definition refs_ok (w : FastDraft) (r : list byte) : Prop := to_vec (tx_external_refs (fast_tx w)) = Ok r.
Definition payload_ok (w : FastDraft) (r : list byte) : Prop := to_vec (TransactionPosted (fast_tx w)) = Ok r.

Definition next_of (h : list Entry) : Z := 1 + Z.of_nat (length (book_log b h)).

Lemma next_of_posted h tx at_ : tx_book tx = b -> next_of (h ++ [posted h tx at_]) = next_of h + 1.
Proof. intros Hb. unfold next_of. rewrite book_log_snoc. cbn. rewrite Hb, decide_True, length_app by done. cbn. lia. Qed.

Lemma chain_transactions at_ W refs : forall h, Forall (fun w => tx_book (fast_tx w) = b) W -> Forall2 refs_ok W refs ->
  imap (batch_transaction (next_of h) at_) (zip W refs) = omap transaction_row (chain h at_ (map fast_tx W)).
Proof.
  intros h Hb Hr. revert h. induction Hr as [|w r W refs Hwr _ IH]; intros h; [done|]. apply Forall_cons in Hb as [Hwb Hb]. specialize (IH Hb).
  cbn [zip zip_with map chain omap list_omap]. rewrite imap_cons. cbn [transaction_row posted next_entry en_event]. f_equal.
  - unfold batch_transaction, refs_of. cbn. rewrite Hwr, Hwb, Z.add_0_r. done.
  - fold (posted h (fast_tx w) at_). rewrite <- IH, next_of_posted by done. apply imap_ext. intros i [w' r'] _. unfold batch_transaction, compose. cbn. f_equal. lia.
Qed.

Lemma chain_postings at_ W : forall h, Forall (fun w => tx_book (fast_tx w) = b) W ->
  concat (imap (batch_postings (next_of h) at_) W) = concat (map posting_rows (chain h at_ (map fast_tx W))).
Proof.
  induction W as [|w W IH]; intros h Hb; [done|]. apply Forall_cons in Hb as [Hwb Hb]. cbn [map chain]. rewrite imap_cons. cbn [concat]. f_equal.
  - unfold batch_postings. cbn [posting_rows posted next_entry en_event en_seq en_at]. rewrite Hwb, Z.add_0_r. done.
  - fold (posted h (fast_tx w) at_). rewrite <- (IH _ Hb), next_of_posted by done. f_equal. apply imap_ext. intros i w' _.
    unfold batch_postings, compose. apply imap_ext. intros j p _. f_equal. lia.
Qed.

Lemma chain_events at_ W pls : forall h, Forall (fun w => tx_book (fast_tx w) = b) W -> Forall2 payload_ok W pls ->
  imap (batch_event b (next_of h) at_) (zip W pls) = map event_row (chain h at_ (map fast_tx W)).
Proof.
  intros h Hb Hr. revert h. induction Hr as [|w r W pls Hwr _ IH]; intros h; [done|]. apply Forall_cons in Hb as [Hwb Hb]. specialize (IH Hb).
  cbn [zip zip_with map chain]. rewrite imap_cons. f_equal.
  - unfold batch_event, event_row, payload_of. cbn. rewrite Hwr, Hwb, Z.add_0_r. done.
  - fold (posted h (fast_tx w) at_). rewrite <- IH, next_of_posted by done. apply imap_ext. intros i [w' r'] _. unfold batch_event, compose. cbn. f_equal. lia.
Qed.

Lemma chain_all_transactions h at_ ws : all_transactions (h ++ chain h at_ ws) = all_transactions h ++ omap transaction_row (chain h at_ ws).
Proof. unfold all_transactions. apply omap_app. Qed.

Lemma chain_all_postings h at_ ws : all_postings (h ++ chain h at_ ws) = all_postings h ++ concat (map posting_rows (chain h at_ ws)).
Proof. unfold all_postings. by rewrite map_app, concat_app. Qed.

(** Inserting the transactions found no clash: each draft is new to the history
    of the drafts before it. *)
Lemma inserted_fresh h at_ W refs t t' :
  Forall (fun w => tx_book (fast_tx w) = b) W -> Forall2 refs_ok W refs -> t_transactions t = all_transactions h ->
  insert_transactions (imap (batch_transaction (next_of h) at_) (zip W refs)) t = Ok ((), t') ->
  t' = with_transactions (all_transactions (h ++ chain h at_ (map fast_tx W))) t /\
  forall k tx, map fast_tx W !! k = Some tx ->
    let h' := h ++ chain h at_ (take k (map fast_tx W)) in
    prior h' (tx_book tx) (tx_idem tx) = None /\ uuid_text (tx_id tx) ∉ map tr_tx_id (all_transactions h').
Proof.
  intros Hb Hr Ht Hi. unfold insert_transactions in Hi. rewrite Ht in Hi.
  match type of Hi with context [insert_rows ?c ?n ?r ?o] => pose proof (insert_rows_spec c n r o) as Hs end.
  destruct (insert_rows _ _ _ _) as [l|e]; [|done]. injection Hi as <-. destruct Hs as [-> Hno].
  split; [by rewrite chain_all_transactions, chain_transactions|]. intros k tx Hk h'.
  rewrite list_lookup_fmap in Hk. destruct (W !! k) as [w|] eqn:Ew; [|done]. injection Hk as <-.
  destruct (Forall2_lookup_l _ _ _ _ _ Hr Ew) as (r & Hrk & _).
  assert (existsb (transaction_pk (batch_transaction (next_of h) at_ k (w, r))) (all_transactions h') = false) as Hex.
  { apply existsb_false. intros x Hx. apply (Hno k).
    - rewrite list_lookup_imap. assert (zip W refs !! k = Some (w, r)) as -> by (by apply lookup_zip_Some). done.
    - unfold h' in Hx. rewrite chain_all_transactions in Hx. rewrite imap_take, zip_take, chain_transactions, fmap_take; [done|by apply Forall_take|].
      by apply Forall2_take. }
  unfold batch_transaction in Hex. cbn [fst snd] in Hex. destruct (prior h' _ _) as [e|] eqn:Ep; [by rewrite (prior_clash _ _ _ _ _ _ Ep) in Hex|].
  split; [done|]. rewrite transaction_pk_spec in Hex by done. by bool_to_prop.
Qed.

(** ** The balances *)

(** No running balance of the new drafts leaves the 64-bit range. *)
Definition runs_fit (h : list Entry) (ws : list Transaction) : Prop :=
  forall n key, in_i64 (balance_of h key + delta_of key (posts (take n ws))) = true.

Lemma prefix_ok_spec ws key side m : forall i running,
  (forall n, in_i64 (running + delta_of key (posts (take n ws))) = true) ->
  prefix_ok running (steps_from i ws key) side m = true ->
  forall k tx, ws !! k = Some tx -> of_key key (tx_postings tx) <> [] ->
    m <= effective (running + delta_of key (posts (take (S k) ws))) side.
Proof.
  induction ws as [|w ws IH]; intros i running Hfit Hok [|k] tx Hk Ht; [done..| |].
  - injection Hk as ->. cbn [steps_from] in Hok. destruct (of_key key (tx_postings tx)) as [|p rest] eqn:E; [done|]. cbn [app prefix_ok] in Hok.
    specialize (Hfit 1%nat). unfold posts in *. cbn [take map concat] in *. rewrite app_nil_r in *.
    apply in_i64_spec in Hfit. rewrite (wrap_i64_id _ Hfit) in Hok. destruct (_ <? _) eqn:El; [done|]. by bool_to_prop.
  - cbn in Hk. assert (forall n, delta_of key (posts (take (S n) (w :: ws))) = delta_of key (tx_postings w) + delta_of key (posts (take n ws))) as Hs.
    { intros n. unfold posts. cbn [take map concat]. by rewrite delta_of_app. }
    rewrite Hs. cbn [steps_from] in Hok. destruct (of_key key (tx_postings w)) as [|p rest] eqn:E.
    + assert (delta_of key (tx_postings w) = 0) as H0' by (unfold delta_of; fold (of_key key (tx_postings w)); by rewrite E).
      rewrite H0', Z.add_0_l. apply (IH (S i) running) with tx; [|done..]. intros n. specialize (Hfit (S n)). by rewrite Hs, H0', Z.add_0_l in Hfit.
    + cbn [app prefix_ok] in Hok. pose proof (Hfit 1%nat) as H1'. rewrite Hs in H1'. unfold posts in H1' at 1. cbn [take map concat] in H1'.
      unfold delta_of in H1' at 2. cbn in H1'. rewrite Z.add_0_r in H1'. apply in_i64_spec in H1'. rewrite (wrap_i64_id _ H1') in Hok.
      destruct (_ <? _); [done|]. rewrite Z.add_assoc. apply (IH (S i) (running + delta_of key (tx_postings w))) with tx; [|done..].
      intros n. specialize (Hfit (S n)). by rewrite Hs, Z.add_assoc in Hfit.
Qed.

Lemma agg_touched ws key a : agg_of ws key = Some a -> exists tx p, tx ∈ ws /\ p ∈ tx_postings tx /\ to_key (p_account p) = key.
Proof.
  induction ws as [|w ws IH] using rev_ind; [done|]. rewrite agg_of_snoc. destruct (of_key key (tx_postings w)) as [|p rest] eqn:E.
  - intros (tx & p & ? & ? & ?)%IH. exists tx, p. rewrite elem_of_app. auto.
  - intros _. assert (p ∈ of_key key (tx_postings w)) as [Hk Hp]%of_key_elem by (rewrite E; by left).
    exists w, p. split; [apply elem_of_app; right; by left|done].
Qed.

Lemma touched_agg ws k tx key : ws !! k = Some tx -> of_key key (tx_postings tx) <> [] -> agg_of ws key <> None.
Proof.
  intros Hk Hne. revert k Hk. induction ws as [|w ws IH] using rev_ind; intros k Hk; [done|]. rewrite agg_of_snoc.
  destruct (of_key key (tx_postings w)) eqn:E; [|done]. apply lookup_snoc_Some in Hk as [[_ Hk]|[_ ->]]; [by eapply IH|done].
Qed.

(** The row that the upsert of an aggregate leaves. *)
Lemma upsert_batch_row h key def cfg T q row :
  history_ok h -> opened h key = Some (def, cfg) -> in_i64 (balance_of h key + T) = true ->
  upsert_row (mkBalanceDelta key (acct_asset def) (wrap_i64 T) q) (balance_row h key) = Ok row ->
  row = mkBalanceRow (acct_asset def) (Int (balance_of h key + T)) q /\ wrap_i64 T = T.
Proof.
  intros Hh Ho Hfit. unfold upsert_row. cbn [bd_asset bd_delta bd_updated]. destruct (balance_row h key) as [old|] eqn:Eb.
  - destruct (balance_row_shape h key old def cfg Hh Ho Eb) as [Ha Hbal]. rewrite Hbal. cbn [bigint]. unfold to_bigint.
    destruct (in_i64 (balance_of h key + wrap_i64 T)) eqn:Ew; [|done]. intros [= <-]. rewrite (wrap_exact _ _ Ew Hfit), Ha. done.
  - assert (balance_of h key = 0) as H0'.
    { unfold balance_row in Eb. destruct (last (account_rows key h)) eqn:El; [done|]. apply last_None in El. unfold balance_of. by rewrite El. }
    rewrite H0', Z.add_0_l in *. intros [= <-]. apply in_i64_spec in Hfit. by rewrite wrap_i64_id.
Qed.

(** What the plan and the loaded accounts are, for the new drafts [ws]. *)
Record planned (h : list Entry) (ws : list Transaction) (accounts : gmap string AccountRow) (agg : gmap string AcctAgg) : Prop := {
  pn_agg : forall key, agg !! key = agg_of ws key;
  pn_accounts : forall tx p, tx ∈ ws -> p ∈ tx_postings tx -> accounts !! to_key (p_account p) = account_row_of h (to_key (p_account p));
  pn_fold : forall tx, tx ∈ ws -> foldable (account_row_of h) (tx_postings tx)
}.

Lemma planned_account h ws accounts agg key a : planned h ws accounts agg -> agg !! key = Some a ->
  agg_of ws key = Some a /\ exists def cfg, opened h key = Some (def, cfg) /\
    accounts !! key = Some (mkAccountRow (acct_asset def) (normal_side cfg) (min_balance cfg)).
Proof.
  intros [Hagg Hacc Hfold] Ha. rewrite Hagg in Ha. split; [done|]. destruct (agg_touched _ _ _ Ha) as (tx & p & Htx & Hp & <-).
  destruct (Hfold tx Htx) as [Hf _]. rewrite Forall_forall in Hf. destruct (Hf p Hp) as (row & Hr & _). rewrite (Hacc tx p Htx Hp), Hr.
  unfold account_row_of in Hr. destruct (opened h _) as [[def cfg]|]; [|done]. injection Hr as <-. by exists def, cfg.
Qed.

Definition agg_keys (agg : gmap string AcctAgg) : list string := sort_by String.leb (map fst (hash_iter agg)).

Lemma agg_keys_spec agg : NoDup (agg_keys agg) /\ forall key, key ∈ agg_keys agg <-> is_Some (agg !! key).
Proof.
  assert (agg_keys agg ≡ₚ map fst (map_to_list agg)) as Hp by (unfold agg_keys; by rewrite sort_by_perm, hash_iter_perm). split.
  - rewrite Hp. apply NoDup_fst_map_to_list.
  - intros key. rewrite Hp, list_elem_of_fmap. split.
    + intros ([k a] & -> & Hin%elem_of_map_to_list). by exists a.
    + intros [a Ha]. exists (key, a). split; [done|]. by apply elem_of_map_to_list.
Qed.

(** The deltas of the upsert: one per account of the plan. *)
Definition batch_ds (h : list Entry) (ws : list Transaction) (agg : gmap string AcctAgg) (ds : list BalanceDelta) : Prop :=
  map bd_key ds = agg_keys agg /\
  forall d, d ∈ ds -> exists a def cfg, agg !! bd_key d = Some a /\ opened h (bd_key d) = Some (def, cfg) /\
    d = mkBalanceDelta (bd_key d) (acct_asset def) (wrap_i64 (delta_of (bd_key d) (posts ws))) (next_of h + Z.of_nat (last_touch_idx a)).

Lemma batch_deltas_Done h ws accounts agg first s ds s' : planned h ws accounts agg ->
  mapM_db (batch_delta accounts agg first) (agg_keys agg) s = (Done ds, s') ->
  first = next_of h -> s' = s /\ batch_ds h ws agg ds.
Proof.
  intros Hpl Hm ->. apply (mapM_Done _ (fun key d => bd_key d = key /\ exists a def cfg, agg !! key = Some a /\ opened h key = Some (def, cfg) /\
    d = mkBalanceDelta key (acct_asset def) (wrap_i64 (delta_of key (posts ws))) (next_of h + Z.of_nat (last_touch_idx a)))) in Hm.
  - destruct Hm as [-> Hf]. split; [done|]. split.
    + clear -Hf. induction Hf as [|k d ks ds [Hk _] _ IH]; [done|]. cbn. by rewrite Hk, IH.
    + intros d [i Hi]%list_elem_of_lookup. destruct (Forall2_lookup_r _ _ _ _ _ Hf Hi) as (k & _ & <- & Hd). exact Hd.
  - intros key s0 d s1. unfold batch_delta. intros (acct & s2 & [Hac ->]%index_Done & (a & s3 & [Ha ->]%index_Done & [= <- <-])%sq_bind_Done)%sq_bind_Done.
    split; [done|]. split; [done|]. destruct (planned_account _ _ _ _ _ _ Hpl Ha) as (Hag & def & cfg & Ho & Hac'). rewrite Hac in Hac'. injection Hac' as ->.
    exists a, def, cfg. split; [done|]. split; [done|]. by destruct (agg_of_Some _ _ _ Hag) as [-> _].
Qed.

(** What the upsert leaves for each account of the plan. *)
Definition batch_rows (h : list Entry) (ws : list Transaction) (accounts : gmap string AccountRow) (agg : gmap string AcctAgg)
    (bal : gmap string BalanceRow) (finals : gmap string Z) : Prop := forall key a, agg !! key = Some a -> exists def cfg,
  opened h key = Some (def, cfg) /\
  accounts !! key = Some (mkAccountRow (acct_asset def) (normal_side cfg) (min_balance cfg)) /\
  wrap_i64 (delta_of key (posts ws)) = delta_of key (posts ws) /\
  bal !! key = Some (mkBalanceRow (acct_asset def) (Int (balance_of h key + delta_of key (posts ws))) (next_of h + Z.of_nat (last_touch_idx a))) /\
  finals !! key = Some (balance_of h key + delta_of key (posts ws)).

Lemma batch_upsert h ws accounts agg ds t t0 rows t' :
  planned h ws accounts agg -> runs_fit h ws -> db_ok t h -> batch_ds h ws agg ds ->
  t_balances t0 = t_balances t -> t_accounts t0 = t_accounts t -> upsert_balances ds t0 = Ok (rows, t') ->
  exists bal, t' = with_balances bal t0 /\ batch_rows h ws accounts agg bal (list_to_map rows) /\
    (forall key, agg !! key = None -> bal !! key = balance_row h key).
Proof.
  intros Hpl Hfit Hdb [Hkeys Hds] Hbal0 Hacc0 Hup. pose proof (do_history _ _ Hdb) as Hh. destruct (agg_keys_spec agg) as [Hnd Hin].
  pose proof (upsert_balances_calm ds t0) as Hu. rewrite Hkeys, Hup in Hu. destruct Hu as (bal & -> & Hrow & Hout); [done| |].
  { intros d Hd. destruct (Hds d Hd) as (a & def & cfg & _ & Ho & _). rewrite Hacc0, (do_accounts _ _ Hdb), Ho. eauto. }
  exists bal. split; [done|]. split.
  - intros key a Ha. assert (key ∈ map bd_key ds) as (d & -> & Hd)%list_elem_of_fmap by (rewrite Hkeys; apply Hin; eauto).
    destruct (Hds d Hd) as (a' & def & cfg & Ha' & Ho & Hdeq). rewrite Ha in Ha'. injection Ha' as <-.
    destruct (planned_account _ _ _ _ _ _ Hpl Ha) as (_ & def' & cfg' & Ho' & Hac). rewrite Ho in Ho'. injection Ho' as <- <-.
    destruct (Hrow d Hd) as (row & Hr & Hb' & Hm). rewrite Hbal0, (do_balances _ _ Hdb), Hdeq in Hr. cbn [bd_key] in Hr.
    assert (in_i64 (balance_of h (bd_key d) + delta_of (bd_key d) (posts ws)) = true) as Hf.
    { specialize (Hfit (length ws) (bd_key d)). by rewrite take_ge in Hfit. }
    destruct (upsert_batch_row _ _ _ _ _ _ _ Hh Ho Hf Hr) as [-> Hw]. exists def, cfg. by split_and!.
  - intros key Hn. rewrite Hout, Hbal0, (do_balances _ _ Hdb); [done|]. rewrite Hin, Hn. by intros [].
Qed.

(** The rows are the chain's. *)
Lemma batch_rows_chain h ws accounts agg at_ bal finals : planned h ws accounts agg -> history_ok h -> Forall (fun tx => tx_book tx = b) ws ->
  batch_rows h ws accounts agg bal finals -> (forall key, agg !! key = None -> bal !! key = balance_row h key) ->
  chain_ok h at_ ws -> forall key, bal !! key = balance_row (h ++ chain h at_ ws) key.
Proof.
  intros Hpl Hh Hbk Hrows Hout Hc key. pose proof (chain_balance_row b h at_ ws key Hh Hc Hbk) as Hcb. rewrite <- (pn_agg _ _ _ _ Hpl) in Hcb.
  destruct (agg !! key) as [a|] eqn:Ea; [|by rewrite Hout].
  destruct Hcb as (def & cfg & Ho & ->). destruct (Hrows key a Ea) as (def' & cfg' & Ho' & _ & _ & -> & _). rewrite Ho in Ho'. by injection Ho' as <- <-.
Qed.

Lemma check_prefix_Done accounts agg finals keys s u s' : mapM_db (check_prefix accounts agg finals) keys s = (Done u, s') ->
  s' = s /\ forall key acct m entry final, key ∈ keys -> accounts !! key = Some acct -> row_min_balance acct = Some m -> agg !! key = Some entry ->
    finals !! key = Some final -> prefix_ok (wrap_i64 (final - total_delta entry)) (steps entry) (row_normal_side acct) m = true.
Proof.
  intros Hck. apply (mapM_Done _ (fun key _ => forall acct m entry final, accounts !! key = Some acct -> row_min_balance acct = Some m ->
    agg !! key = Some entry -> finals !! key = Some final ->
    prefix_ok (wrap_i64 (final - total_delta entry)) (steps entry) (row_normal_side acct) m = true)) in Hck.
  - destruct Hck as [-> Hpre]. split; [done|]. intros key acct m entry final [j Hj]%list_elem_of_lookup.
    destruct (Forall2_lookup_l _ _ _ _ _ Hpre Hj) as (? & _ & Hpk). apply Hpk.
  - intros key s0 v s1. unfold check_prefix. intros (acct & s2 & [Hac ->]%index_Done & Hk)%sq_bind_Done.
    destruct (row_min_balance acct) as [m|] eqn:Em; [|injection Hk as _ <-; split; [done|]; intros ????; congruence].
    apply sq_bind_Done in Hk as (entry & s3 & [Hen ->]%index_Done & Hk). apply sq_bind_Done in Hk as (final & s4 & [Hfi ->]%index_Done & Hk).
    destruct (prefix_ok _ _ _ _) eqn:Epre; [|done]. injection Hk as _ <-. split; [done|]. intros. by simplify_eq.
Qed.

(** Every draft kept every minimum. *)
Lemma batch_minimums h ws accounts agg bal finals s u s' :
  planned h ws accounts agg -> runs_fit h ws -> history_ok h -> batch_rows h ws accounts agg bal finals ->
  mapM_db (check_prefix accounts agg finals) (agg_keys agg) s = (Done u, s') ->
  s' = s /\ forall k tx p def cfg m, ws !! k = Some tx -> p ∈ tx_postings tx -> opened h (to_key (p_account p)) = Some (def, cfg) ->
    min_balance cfg = Some m ->
    m <= effective (balance_of h (to_key (p_account p)) + delta_of (to_key (p_account p)) (posts (take (S k) ws))) (normal_side cfg).
Proof.
  intros Hpl Hfit Hh Hrows [-> Hpre]%check_prefix_Done. split; [done|]. intros k tx p def cfg m Hk Hp Ho Hm. set (key := to_key (p_account p)) in *.
  assert (of_key key (tx_postings tx) <> []) as Hne.
  { intros Hn. assert (p ∈ of_key key (tx_postings tx)) as Hx by (by apply of_key_elem). rewrite Hn in Hx. by apply elem_of_nil in Hx. }
  destruct (agg !! key) as [a|] eqn:Ea; [|rewrite (pn_agg _ _ _ _ Hpl) in Ea; by apply (touched_agg ws k tx key) in Ea].
  destruct (Hrows key a Ea) as (def' & cfg' & Ho' & Hac & Hw & _ & Hfin). rewrite Ho in Ho'. injection Ho' as <- <-.
  specialize (Hpre key _ m a _ ltac:(apply agg_keys_spec; eauto) Hac Hm Ea Hfin).
  rewrite (pn_agg _ _ _ _ Hpl) in Ea. destruct (agg_of_Some _ _ _ Ea) as [Htot Hst]. rewrite Htot, Hst, Hw in Hpre.
  replace (balance_of h key + delta_of key (posts ws) - delta_of key (posts ws)) with (balance_of h key) in Hpre by lia.
  rewrite wrap_i64_id in Hpre by (apply in_i64_spec, Hh). by apply (prefix_ok_spec ws key (normal_side cfg) m 0%nat (balance_of h key)) with tx.
Qed.

(** ** The write set *)

Lemma chain_ok_batch h at_ W refs pls accounts agg (ws := map fast_tx W) :
  planned h ws accounts agg -> runs_fit h ws -> Forall (fun tx => tx_book tx = b) ws -> Forall2 refs_ok W refs -> Forall2 payload_ok W pls ->
  Z.of_nat (length (book_log b h)) + Z.of_nat (length ws) <= i64_max ->
  (forall k tx, ws !! k = Some tx -> let h' := h ++ chain h at_ (take k ws) in
    prior h' (tx_book tx) (tx_idem tx) = None /\ uuid_text (tx_id tx) ∉ map tr_tx_id (all_transactions h')) ->
  (forall k tx p def cfg m, ws !! k = Some tx -> p ∈ tx_postings tx -> opened h (to_key (p_account p)) = Some (def, cfg) -> min_balance cfg = Some m ->
    m <= effective (balance_of h (to_key (p_account p)) + delta_of (to_key (p_account p)) (posts (take (S k) ws))) (normal_side cfg)) ->
  chain_ok h at_ ws.
Proof.
  intros Hpl Hfit Hbk Hrefs Hpls Hmax Hfresh Hmin k tx Hk h'. destruct (Hfresh k tx Hk) as [Hprior Hid]. split; [done|].
  pose proof (pn_fold _ _ _ _ Hpl tx ltac:(by eapply list_elem_of_lookup_2)) as [Hacc Hd]%foldable_history.
  assert (forall key, balance_of h' key + delta_of key (tx_postings tx) = balance_of h key + delta_of key (posts (take (S k) ws))) as Hbal.
  { intros key. unfold h'. rewrite chain_balance, (take_S_r _ _ _ Hk), posts_snoc, delta_of_app. lia. }
  assert (exists w, W !! k = Some w /\ fast_tx w = tx) as (w & Hw & Hwtx).
  { unfold ws in Hk. rewrite list_lookup_fmap in Hk. destruct (W !! k) as [w|]; [|done]. injection Hk as <-. by exists w. }
  split.
  - intros p Hp. destruct (Hacc p Hp) as (def & cfg & Ho & Ha). exists def, cfg. unfold h'. by rewrite chain_opened.
  - done.
  - intros p Hp. cbn zeta. rewrite Hbal. apply Hfit.
  - intros p def cfg m Hp. unfold h' at 1. rewrite chain_opened. intros Ho Hm. cbn zeta. rewrite Hbal. by apply (Hmin k tx p def cfg m).
  - done.
  - rewrite Forall_forall in Hbk. rewrite (Hbk tx ltac:(by eapply list_elem_of_lookup_2)). unfold h'. apply lookup_lt_Some in Hk.
    rewrite (chain_log b), decide_True, length_take_le by (done || lia || (apply Forall_take, Forall_forall; done)). lia.
  - destruct (Forall2_lookup_l _ _ _ _ _ Hrefs Hw) as (r & _ & Hr), (Forall2_lookup_l _ _ _ _ _ Hpls Hw) as (pl & _ & Hpl').
    unfold refs_ok, payload_ok in *. rewrite Hwtx in *. by rewrite Hr, Hpl'.
Qed.

(** The tables after the chain. *)
Lemma db_ok_chain t t' h at_ ws : db_ok t h -> chain_ok h at_ ws -> Forall (fun tx => tx_book tx = b) ws -> ws <> [] ->
  t_events t' = map event_row (h ++ chain h at_ ws) -> t_transactions t' = all_transactions (h ++ chain h at_ ws) ->
  t_postings t' = all_postings (h ++ chain h at_ ws) -> t_assets t' = t_assets t -> t_accounts t' = t_accounts t ->
  t_books t' = <[b := Int (Z.of_nat (length (book_log b h)) + Z.of_nat (length ws))]> (t_books t) ->
  (forall key, t_balances t' !! key = balance_row (h ++ chain h at_ ws) key) ->
  db_ok t' (h ++ chain h at_ ws).
Proof.
  intros Hdb Hc Hbk Hne Hev Htx Hpo Has Hac Hbo Hba. split; try done.
  - intros id. by rewrite Has, (do_assets _ _ Hdb), chain_registered.
  - intros key. by rewrite Hac, (do_accounts _ _ Hdb), chain_opened.
  - intros b'. rewrite Hbo, (chain_log b) by done. destruct (decide (b = b')) as [<-|Hn].
    + rewrite lookup_insert_eq. assert (0 < length ws)%nat by (destruct ws; [done|cbn; lia]).
      destruct (length (book_log b h) + length ws)%nat eqn:E; [lia|]. do 2 f_equal. lia.
    + by rewrite lookup_insert_ne, Nat.add_0_r, (do_books _ _ Hdb).
  - apply chain_history; [apply Hdb|done].
Qed.

Lemma insert_postings_Ok rows t u t' : insert_postings rows t = Ok (u, t') -> t' = with_postings (t_postings t ++ rows) t.
Proof.
  unfold insert_postings. pose proof (insert_rows_spec posting_pk "postings_pkey" rows (t_postings t)) as Hs.
  destruct (insert_rows _ _ rows _) as [l|e]; [|done]. destruct Hs as [-> _]. destruct (forallb _ _); [|done]. by intros [= _ <-].
Qed.

Lemma insert_events_Ok rows t u t' : insert_events rows t = Ok (u, t') -> t' = with_events (t_events t ++ rows) t.
Proof.
  unfold insert_events. pose proof (insert_rows_spec event_clash "events_pkey" rows (t_events t)) as Hs.
  destruct (insert_rows _ _ rows _) as [l|e]; [|done]. destruct Hs as [-> _]. by intros [= _ <-].
Qed.

Lemma write_set_calm h W accounts agg s answers s' (ws := map fast_tx W) (at_ := now_pg s) :
  calm s -> db_ok (view s) h -> W <> [] -> Forall (fun w => tx_book (fast_tx w) = b) W -> planned h ws accounts agg -> runs_fit h ws ->
  write_set b W accounts agg s = (Done answers, s') ->
  chain_ok h at_ ws /\ answers = imap (fun i w => (w, batch_committed (next_of h) at_ i w)) W /\
  exists t, s' = drafted_pg t b (Z.of_nat (length (book_log b h)) + Z.of_nat (length W)) s /\ db_ok t (h ++ chain h at_ ws).
Proof.
  intros Hs Hdb Hne HbW Hpl Hfit Hw. assert (Forall (fun tx => tx_book tx = b) ws) as Hbk by (by apply Forall_fmap).
  unfold write_set in Hw. apply sq_bind_Done in Hw as ([last at0] & s1 & Hcl & Hw).
  pose proof (claim_calm s h b (Z.of_nat (length W)) Hs (do_books _ _ Hdb) ltac:(lia)) as Hc. rewrite Hcl in Hc. cbn zeta in Hc.
  destruct Hc as (-> & Hmax & -> & ->). fold (now_pg s) in *. fold at_ in Hw. set (sx := mkSession _ _ _ _ _ _ _ _ _) in *.
  assert (calm sx) as Hsx by by destruct Hs. set (t1 := with_books _ _) in *.
  replace (Z.of_nat (length (book_log b h)) + Z.of_nat (length W) - Z.of_nat (length W) + 1) with (next_of h) in Hw by (unfold next_of; lia).
  cbn zeta in Hw. fold (agg_keys agg) in Hw.
  apply sq_bind_Done in Hw as (ds & s2 & Hds & Hw). apply (batch_deltas_Done h ws) in Hds as [-> Hds]; [|done|done].
  apply sq_bind_Done in Hw as (rows & s3 & (t2 & Hup & ->)%modify_calm_Done & Hw); [|auto with talea]. rewrite view_wrote in Hup.
  destruct (batch_upsert h ws accounts agg ds (view s) t1 rows t2 Hpl Hfit Hdb Hds eq_refl eq_refl Hup) as (bal & -> & Hrows & Hout).
  apply sq_bind_Done in Hw as (u & s4 & Hck & Hw).
  destruct (batch_minimums h ws accounts agg bal _ _ _ _ Hpl Hfit (do_history _ _ Hdb) Hrows Hck) as [-> Hmin]. rewrite wrote_wrote in Hw.
  apply sq_bind_Done in Hw as (refs & s5 & [Hrefs ->]%lift_std_Done & Hw). apply all_ok_spec in Hrefs.
  apply sq_bind_Done in Hw as ([] & s6 & (t3 & Hit & ->)%modify_calm_Done & Hw); [|auto with talea]. rewrite view_wrote in Hit.
  apply (inserted_fresh h at_ W refs) in Hit as [-> Hfresh]; [|done|done|apply (do_transactions _ _ Hdb)]. rewrite wrote_wrote in Hw.
  apply sq_bind_Done in Hw as ([] & s7 & (t4 & Hip%insert_postings_Ok & ->)%modify_calm_Done & Hw); [|auto with talea]. rewrite view_wrote in Hip.
  rewrite wrote_wrote in Hw. apply sq_bind_Done in Hw as (pls & s8 & [Hpls ->]%lift_std_Done & Hw). apply all_ok_spec in Hpls.
  apply sq_bind_Done in Hw as ([] & s9 & (t5 & Hie%insert_events_Ok & ->)%modify_calm_Done & Hw); [|auto with talea]. rewrite view_wrote in Hie.
  rewrite wrote_wrote in Hw. apply sq_bind_Done in Hw as ([] & s10 & Hn & Hw). rewrite notify_calm in Hn by auto with talea. injection Hn as <-.
  injection Hw as <- <-.
  assert (chain_ok h at_ ws) as Hcok.
  { apply (chain_ok_batch h at_ W refs pls accounts agg); try done. unfold ws. by rewrite length_map. }
  split; [done|]. split; [done|]. exists t5. split; [done|].
  rewrite chain_events in Hie by done. rewrite chain_postings in Hip by done. fold ws in Hie, Hip.
  apply (db_ok_chain (view s)); try done.
  - unfold ws. by destruct W.
  - rewrite Hie, Hip. cbn. by rewrite (do_events _ _ Hdb), map_app.
  - by rewrite Hie, Hip.
  - rewrite Hie, Hip. cbn. by rewrite (do_postings _ _ Hdb), chain_all_postings.
  - by rewrite Hie, Hip.
  - by rewrite Hie, Hip.
  - rewrite Hie, Hip. unfold ws. cbn. by rewrite length_map.
  - intros key. rewrite Hie, Hip. cbn. by apply (batch_rows_chain h ws accounts agg at_ bal (list_to_map rows)); [..|apply Hdb| | | |].
Qed.
End fast.
