(* ===== verification/PgAnswers.v ===== *)
(** What the PostgreSQL store's fast path (talea-store-postgres/src/batch.rs)
    answers.  First the room for a batch, balances that stay within 64 bits
    whichever of its drafts are written; then what it reads before it writes: the
    drafts already on record, the write set, the slots filled from either; then
    that each slot it fills holds the answer on record for its draft. *)

From S2P Require Import Prelude Decimal Core Disk Sql Sqlite SqliteSpec SqliteCommit SqliteHistory SqliteReads Pg Postgres PgSpec.
From S2P Require Import PgCommit PgHistory PgDefs PgDrafts PgBatch PgPlan PgFast.
Open Scope Z_scope.

(** What some postings move on an account, in either direction. *)
Definition volume (key : string) (ps : list Posting) : Z := sum_abs (map posting_delta (of_key key ps)).

Lemma volume_nonneg key ps : 0 <= volume key ps.
Proof. apply sum_abs_nonneg. Qed.

Lemma volume_app key l r : volume key (l ++ r) = volume key l + volume key r.
Proof. unfold volume, sum_abs. by rewrite of_key_app, !map_app, sum_Z_app. Qed.

Lemma delta_volume key ps : Z.abs (delta_of key ps) <= volume key ps.
Proof. apply sum_abs_bound. Qed.

Lemma volume_sublist key ws txs : ws `sublist_of` txs -> volume key (posts ws) <= volume key (posts txs).
Proof.
  intros Hs. induction Hs as [|tx ws txs _ IH|tx ws txs _ IH]; [done|..]; unfold posts in *; cbn [map concat]; rewrite ?volume_app.
  - lia.
  - pose proof (volume_nonneg key (tx_postings tx)). lia.
Qed.

Section room.
Context `{UuidText} `{Json LedgerEvent} `{Json (list ExternalRef)}.

(** Every account the batch posts to has room for all it moves. *)
Definition roomy (h : list Entry) (txs : list Transaction) : Prop :=
  Forall (fun p => let key := to_key (p_account p) in Z.abs (balance_of h key) + volume key (posts txs) <= i64_max) (posts txs).

#[export] Instance roomy_dec h txs : Decision (roomy h txs).
Proof. unfold roomy. apply _. Defined.

Lemma posts_take ws n p : p ∈ posts (take n ws) -> p ∈ posts ws.
Proof. intros Hp. unfold posts in *. rewrite <- (take_drop n ws), map_app, concat_app. apply elem_of_app. by left. Qed.

Lemma sublist_posts ws txs p : ws `sublist_of` txs -> p ∈ posts ws -> p ∈ posts txs.
Proof.
  intros Hs. induction Hs as [|tx ws txs _ IH|tx ws txs _ IH]; [done|..]; unfold posts in *; cbn [map concat]; rewrite ?elem_of_app; tauto.
Qed.

Lemma roomy_fit h ws txs : history_ok h -> ws `sublist_of` txs -> roomy h txs -> runs_fit h ws.
Proof.
  intros Hh Hs Hr n key. destruct (of_key key (posts (take n ws))) as [|p l] eqn:E.
  { assert (delta_of key (posts (take n ws)) = 0) as -> by (unfold delta_of; fold (of_key key (posts (take n ws))); by rewrite E).
    rewrite Z.add_0_r. apply Hh. }
  assert (p ∈ of_key key (posts (take n ws))) as [Hk Hp]%of_key_elem by (rewrite E; by left).
  apply posts_take in Hp. pose proof (sublist_posts _ _ _ Hs Hp) as Hin. unfold roomy in Hr. rewrite Forall_forall in Hr.
  specialize (Hr p Hin). rewrite Hk in Hr.
  pose proof (delta_volume key (posts (take n ws))). pose proof (volume_sublist key _ _ (sublist_take ws n)).
  pose proof (volume_sublist key _ _ Hs). apply in_i64_spec. unfold i64_min, i64_max in *. lia.
Qed.

(** A history determines its tables. *)
Lemma db_ok_unique t t' h : db_ok t h -> db_ok t' h -> t = t'.
Proof.
  intros [E1 T1 P1 A1 C1 B1 L1 _] [E2 T2 P2 A2 C2 B2 L2 _]. destruct t, t'. cbn in *. f_equal; try congruence; apply map_eq; intros k; first [by rewrite A1, A2|by rewrite C1, C2|by rewrite B1, B2|by rewrite L1, L2].
Qed.

Lemma balance_row_balance h key : balance_of h key = match balance_row h key with Some row => bigint (ba_balance row) | None => 0 end.
Proof.
  unfold balance_row. destruct (last (account_rows key h)) as [r|] eqn:El; cbn; [done|]. apply last_None in El. unfold balance_of. by rewrite El.
Qed.

Lemma roomy_det t h h' txs : db_ok t h -> db_ok t h' -> roomy h txs -> roomy h' txs.
Proof.
  intros Hd Hd' Hr. unfold roomy in *. rewrite Forall_forall in *. intros p Hp. specialize (Hr p Hp). cbn zeta in *.
  rewrite balance_row_balance in *. by rewrite <- (do_balances _ _ Hd'), (do_balances _ _ Hd).
Qed.

(** Room, read off the tables; and room whatever the others have committed by
    the time the batch is written. *)
Definition room_in (t : Tables) (txs : list Transaction) : Prop :=
  Forall (fun p => let key := to_key (p_account p) in
    Z.abs (match t_balances t !! key with Some row => bigint (ba_balance row) | None => 0 end) + volume key (posts txs) <= i64_max) (posts txs).

#[export] Instance room_in_dec t txs : Decision (room_in t txs).
Proof. unfold room_in. apply _. Defined.

Lemma room_roomy t h txs : db_ok t h -> room_in t txs -> roomy h txs.
Proof.
  intros Hd. unfold roomy, room_in. rewrite !Forall_forall. intros Hr p Hp. specialize (Hr p Hp). cbn zeta in *.
  by rewrite balance_row_balance, <- (do_balances _ _ Hd).
Qed.

Definition has_room (s : Session) (txs : list Transaction) : Prop :=
  forall l rest, peers s = l ++ rest -> room_in (foldl (fun t f => f t) (durable s) l) txs.
End room.

Section answers.
Context `{HashIterLaws} `{UuidTextLaws} `{Json LedgerEvent} `{Json (list ExternalRef)}.

Variable b : Book.

(** ** The pre-check *)

Lemma committed_row_posted e r (s : Session) : transaction_row e = Some r ->
  exists c, committed_row r s = (Done c, s) /\ committed_of e = Some c.
Proof.
  unfold transaction_row, committed_of. destruct (en_event e) as [| |tx]; [done..|]. intros [= <-].
  unfold committed_row, sq_bind. cbn. rewrite parse_uuid_text. by eexists.
Qed.

(** The rows of a book's keys, as answers: the first of a key is its answer. *)
Lemma prior_answers (keys : list string) (s : Session) h :
  exists found, mapM_db (fun r => let& c := committed_row r in sq_ret (tr_idempotency_key r, c))
    (filter (fun r => tr_book r = b /\ tr_idempotency_key r ∈ keys) (all_transactions h)) s = (Done found, s) /\
  forall k, (list_to_map found : gmap string Committed) !! k = if decide (k ∈ keys) then answer h b k else None.
Proof.
  induction h as [|e h (found & Hm & Hk)].
  - exists []. split; [done|]. intros k. cbn [list_to_map foldr]. rewrite lookup_empty. by destruct (decide _).
  - unfold all_transactions, answer, prior in *. cbn [omap list_omap List.find].
    destruct (transaction_row e) as [r|] eqn:Er.
    2: { exists found. split; [done|]. intros k. rewrite Hk. unfold transaction_row in Er. by destruct (en_event e). }
    destruct (committed_row_posted e r s Er) as (c & Hc & Hce).
    assert (exists tx, en_event e = TransactionPosted tx /\ tr_book r = en_book e /\ tr_idempotency_key r = tx_idem tx) as (tx & Hev & Hb & Hi).
    { unfold transaction_row in Er. destruct (en_event e) as [| |tx]; [done..|]. injection Er as <-. by exists tx. }
    rewrite Hev, <- Hb, <- Hi. rewrite filter_cons. destruct (decide _) as [[Hrb Hrk]|Hno].
    + exists ((tr_idempotency_key r, c) :: found). split; [cbn [mapM_db]; unfold sq_bind; rewrite Hc; cbn; unfold sq_bind in Hm; by rewrite Hm|].
      intros k. cbn [list_to_map foldr uncurry]. rewrite Hrb, String.eqb_refl. cbn [andb].
      destruct (String.eqb_spec (tr_idempotency_key r) k) as [<-|Hne].
      * rewrite lookup_insert_eq, decide_True by done. cbn. done.
      * rewrite lookup_insert_ne by done. apply Hk.
    + exists found. split; [done|]. intros k. rewrite Hk. destruct (decide (k ∈ keys)) as [Hin|]; [|done].
      destruct (String.eqb_spec (tr_book r) b); [|done]. destruct (String.eqb_spec (tr_idempotency_key r) k) as [<-|]; [|done].
      by destruct Hno.
Qed.

Lemma prior_rows_run keys s h : peers_ok s -> db_ok (view s) h ->
  match prior_rows b keys s with
  | (Done m, s') => aborted s = false /\ env s s' /\
      forall h', db_ok (view s') h' -> forall k, m !! k = if decide (k ∈ keys) then answer h' b k else None
  | (Fail _, _) => True
  | (Panicked, _) => False
  end.
Proof.
  intros Hp Hdb. unfold prior_rows, sq_bind at 1. destruct (fetch _ s) as [[rows|e|] s1] eqn:Ef; [|done|].
  - apply fetch_Done in Ef as (Ha & He & ->). destruct (env_history _ _ _ Hp He Hdb) as [o Hdb1]. rewrite (do_transactions _ _ Hdb1).
    destruct (prior_answers keys s1 (h ++ o)) as (found & Hm & Hk). unfold sq_bind. unfold sq_bind in Hm. rewrite Hm. cbn. split_and!; [done..|].
    intros h' Hdb'. destruct (prior_answers keys s1 h') as (found' & Hm' & Hk'). unfold sq_bind in Hm'.
    rewrite <- (do_transactions _ _ Hdb'), (do_transactions _ _ Hdb1), Hm in Hm'. injection Hm' as <-. exact Hk'.
  - unfold fetch, tried in Ef. by destruct (statement _ s) as [[]].
Qed.

(** ** The plan *)

(** The drafts of a batch that are new, and the slots of the others. *)
Fixpoint news (by_key : gmap string Committed) (i : nat) (seen : list string) (txs : list Transaction) : list FastDraft :=
  match txs with
  | [] => []
  | tx :: txs =>
      if bool_decide (is_Some (by_key !! tx_idem tx)) || bool_decide (tx_idem tx ∈ seen) then news by_key (S i) seen txs
      else mkFastDraft i tx :: news by_key (S i) (tx_idem tx :: seen) txs
  end.

Lemma news_sublist by_key txs : forall i seen, map fast_tx (news by_key i seen txs) `sublist_of` txs.
Proof.
  induction txs as [|tx txs IH]; intros i seen; cbn [news]; [done|].
  destruct (_ || _); [by apply sublist_cons|]. cbn. by apply sublist_skip.
Qed.

Lemma news_slot by_key txs w : forall i seen, w ∈ news by_key i seen txs ->
  exists j, input_idx w = (i + j)%nat /\ txs !! j = Some (fast_tx w).
Proof.
  induction txs as [|tx txs IH]; intros i seen; cbn [news]; [by intros ?%elem_of_nil|].
  assert (forall seen', w ∈ news by_key (S i) seen' txs -> exists j, input_idx w = (i + j)%nat /\ (tx :: txs) !! j = Some (fast_tx w)) as Hgo.
  { intros seen' (j & -> & Hj)%IH. exists (S j). split; [lia|done]. }
  destruct (_ || _); [apply Hgo|]. intros [->|Hin]%elem_of_cons; [|by eapply Hgo]. exists 0%nat. split; [cbn; lia|done].
Qed.

(** What the pass over the drafts does. *)
Record planning (h : list Entry) (by_key : gmap string Committed) (txs : list Transaction) (n : nat) (st : Plan) : Prop := {
  pg_agg : forall key, pl_agg st !! key = agg_of (map fast_tx (pl_writes st)) key;
  pg_fold : forall w, w ∈ pl_writes st -> foldable (account_row_of h) (tx_postings (fast_tx w));
  pg_cover : forall j, (j < n)%nat -> (exists w, w ∈ pl_writes st /\ input_idx w = j) \/ exists k, (j, k) ∈ pl_dedup st;
  pg_seen : forall k, k ∈ pl_seen st -> exists w, w ∈ pl_writes st /\ tx_idem (fast_tx w) = k;
  pg_dedup : forall j k, (j, k) ∈ pl_dedup st -> (exists tx, txs !! j = Some tx /\ tx_idem tx = k) /\
    (is_Some (by_key !! k) \/ exists w, w ∈ pl_writes st /\ tx_idem (fast_tx w) = k)
}.

Lemma plan_drafts_spec h by_key accounts all txs : forall i st st',
  (forall tx p, tx ∈ txs -> p ∈ tx_postings tx -> accounts !! to_key (p_account p) = account_row_of h (to_key (p_account p))) ->
  (forall j tx, txs !! j = Some tx -> all !! (i + j)%nat = Some tx) ->
  planning h by_key all i st -> plan_drafts by_key accounts i txs st = Some st' ->
  planning h by_key all (i + length txs) st' /\ pl_writes st' = pl_writes st ++ news by_key i (pl_seen st) txs.
Proof.
  induction txs as [|tx txs IH]; intros i st st' Hacc Hall Hst Hp; cbn [plan_drafts news] in *.
  { injection Hp as <-. by rewrite app_nil_r, Nat.add_0_r. }
  change (length (tx :: txs)) with (S (length txs)). rewrite <- Nat.add_succ_comm.
  destruct (plan_draft by_key accounts i tx st) as [st1|] eqn:E1; [|done]. cbn in Hp. unfold plan_draft in E1.
  assert (forall tx' p, tx' ∈ txs -> p ∈ tx_postings tx' -> accounts !! to_key (p_account p) = account_row_of h (to_key (p_account p))) as Hacc'
    by (intros tx' p Hin; apply Hacc; by right).
  assert (forall j tx', txs !! j = Some tx' -> all !! (S i + j)%nat = Some tx') as Hall'
    by (intros j tx' Hj; rewrite Nat.add_succ_comm; by apply (Hall (S j))).
  specialize (fun st0 => IH (S i) st0 st' Hacc' Hall').
  specialize (Hall 0%nat tx eq_refl). rewrite Nat.add_0_r in Hall.
  destruct (bool_decide _ || bool_decide _) eqn:Ed.
  - injection E1 as <-. apply (IH (mkPlan _ _ _ _)) in Hp; [exact Hp|]. destruct Hst as [Ha Hf Hv Hs Hd]. split; [done..| |done|]; cbn [pl_dedup pl_writes].
    { intros j Hj. destruct (decide (j = i)) as [->|Hne]; [right; exists (tx_idem tx); apply elem_of_app; right; by left|].
      destruct (Hv j ltac:(lia)) as [Hw|[k Hk]]; [by left|right]. exists k. apply elem_of_app. by left. }
    intros j k [Hin|[= -> ->]%list_elem_of_singleton]%elem_of_app; [by apply Hd|]. split; [by exists tx|].
    apply orb_true_iff in Ed as [Hb%bool_decide_eq_true|Hb%bool_decide_eq_true]; [by left|right; by apply Hs].
  - pose proof (fold_loaded tx accounts h (fun p Hin => Hacc tx p ltac:(by left) Hin)) as Hfl.
    destruct (fold_postings tx accounts) as [l|e]; [|done]. destruct Hfl as [Hfo Hl]. injection E1 as <-.
    destruct Hst as [Ha Hf Hv Hs Hd]. apply IH in Hp as [Hpl Hw]; [split; [exact Hpl|rewrite Hw; cbn [pl_writes pl_seen]; by rewrite <- app_assoc]|]. split; cbn [pl_writes pl_agg pl_seen pl_dedup].
    + intros key. rewrite (agg_pendings (account_row_of h) (tx_postings tx) l) by done.
      rewrite map_app. cbn [map fast_tx]. by rewrite agg_of_snoc, Ha, length_map.
    + intros w [Hin| ->%list_elem_of_singleton]%elem_of_app; [by apply Hf|done].
    + intros j Hj. destruct (decide (j = i)) as [->|Hne]; [left; eexists; split; [apply elem_of_app; right; by left|done]|].
      destruct (Hv j ltac:(lia)) as [(w & Hw & Hj')|Hk]; [left|by right]. exists w. split; [apply elem_of_app; by left|done].
    + intros k [->|Hin]%elem_of_cons; [eexists; split; [apply elem_of_app; right; by left|done]|].
      destruct (Hs k Hin) as (w & ? & ?). exists w. split; [apply elem_of_app; by left|done].
    + intros j k Hin. destruct (Hd j k Hin) as [Htx [Hk|(w & Hw & Hk)]]; (split; [done|]); [by left|right]. exists w.
      split; [apply elem_of_app; by left|done].
Qed.

(** ** The reference *)

Lemma chain_ok_cons h at_ tx ws : chain_ok h at_ (tx :: ws) ->
  prior h (tx_book tx) (tx_idem tx) = None /\ postable h tx /\ chain_ok (h ++ [posted h tx at_]) at_ ws.
Proof.
  intros Hc. pose proof (Hc 0%nat tx eq_refl) as H0'. cbn in H0'. rewrite app_nil_r in H0'. destruct H0' as [? ?]. split_and!; [done..|].
  intros k tx' Hk. specialize (Hc (S k) tx' Hk). cbn in Hc. by rewrite <- app_assoc.
Qed.

Lemma answer_app h evs k c : answer h b k = Some c -> answer (h ++ evs) b k = Some c.
Proof. unfold answer. rewrite prior_app. by destruct (prior h b k). Qed.

Lemma answer_posted h tx at_ : tx_book tx = b -> prior h (tx_book tx) (tx_idem tx) = None ->
  answer (h ++ [posted h tx at_]) b (tx_idem tx) = committed_of (posted h tx at_).
Proof. intros <- Hp. unfold answer. by rewrite prior_posted. Qed.

(** A draft of the chain is answered with its own entry. *)
Lemma chain_answer h at_ ws k tx : Forall (fun tx => tx_book tx = b) ws -> chain_ok h at_ ws -> ws !! k = Some tx ->
  answer (h ++ chain h at_ ws) b (tx_idem tx) = Some (mkCommitted (tx_id tx) (next_of b h + Z.of_nat k) at_).
Proof.
  intros Hb Hc Hk. destruct (Hc k tx Hk) as [Hpr _]. pose proof (chain_lookup ws at_ h k tx Hk) as He.
  destruct (chain_seq b h at_ ws k _ Hb He) as (Hseq & _). rewrite Forall_forall in Hb.
  pose proof (answer_posted _ tx at_ (Hb tx (list_elem_of_lookup_2 _ _ _ Hk)) Hpr) as Ha. cbn [committed_of en_event posted next_entry] in Ha.
  rewrite <- (take_drop_middle _ _ _ He) at 1. rewrite chain_take. rewrite (cons_middle _ (chain h at_ (take k ws))), !app_assoc.
  apply answer_app. rewrite Ha. unfold committed_of. cbn [en_event posted next_entry en_at en_seq]. do 2 f_equal. exact Hseq.
Qed.

(** Answering from the record and writing the new drafts in turn is what
    committing the batch's drafts in turn does. *)
Lemma run_news by_key at_ txs : forall h i seen,
  (forall k, is_Some (by_key !! k) \/ k ∈ seen -> is_Some (answer h b k)) ->
  Forall (fun tx => tx_book tx = b) txs -> is_reserved b = false ->
  let evs := chain h at_ (map fast_tx (news by_key i seen txs)) in
  chain_ok h at_ (map fast_tx (news by_key i seen txs)) ->
  exists cs, run_spec (eq at_) h txs (map Some cs) evs /\ Forall2 (fun tx c => answer (h ++ evs) b (tx_idem tx) = Some c) txs cs.
Proof.
  induction txs as [|tx txs IH]; intros h i seen Hold Hb Hres; cbn [news]; [exists []; by split; constructor|].
  apply Forall_cons in Hb as [Htx Hb]. destruct (bool_decide _ || bool_decide _) eqn:Ed; cbn zeta; intros Hc.
  - destruct (IH h (S i) seen Hold Hb Hres Hc) as (cs & Hrun & Hcs). cbn zeta in *.
    destruct (Hold (tx_idem tx)) as [c Ha]; [apply orb_true_iff in Ed as [Hx%bool_decide_eq_true|Hx%bool_decide_eq_true]; auto|].
    exists (c :: cs). split; [|constructor; [by apply answer_app|done]].
    destruct (answer_prior _ _ _ _ Ha) as (e & He & Hce). cbn [map]. set (evs := chain _ _ _) in *. change evs with ([] ++ evs).
    eapply (run_draft _ h tx txs (Some c) (map Some cs) at_); [by rewrite Htx|done| |by rewrite app_nil_r].
    eapply spec_prior; [by rewrite Htx|done].
  - cbn [map chain] in *. apply chain_ok_cons in Hc as (Hpr & Hpost & Hc). cbn [fast_tx] in *.
    assert (exists c, committed_of (posted h tx at_) = Some c) as [c Hce] by by eexists.
    destruct (IH (h ++ [posted h tx at_]) (S i) (tx_idem tx :: seen)) as (cs & Hrun & Hcs); [|done..|].
    { intros k Hk. destruct (String.eqb_spec k (tx_idem tx)) as [->|Hne]; [exists c; by rewrite answer_posted|].
      destruct (Hold k) as [c' Hc']; [destruct Hk as [|[->|]%elem_of_cons]; [by left|done|by right]|]. exists c'. by apply answer_app. }
    exists (c :: cs). split.
    + cbn [map]. set (evs := chain _ _ _) in *. change (posted h tx at_ :: evs) with ([posted h tx at_] ++ evs).
      eapply run_draft; [by rewrite Htx|done| |exact Hrun]. by apply spec_posted.
    + match type of Hcs with context [chain ?x ?y ?z] => set (evs := chain x y z) in * end.
      assert ((h ++ [posted h tx at_]) ++ evs = h ++ posted h tx at_ :: evs) as <- by (by rewrite <- app_assoc). constructor; [|done]. apply answer_app. by rewrite answer_posted.
Qed.
End answers.

Section record.
Context `{HashIterLaws} `{UuidTextLaws} `{Json LedgerEvent} `{Json (list ExternalRef)}.

Variable b : Book.

#[local] Abbreviation slots := (list (option (result Committed DbError))).

(** Slots that hold an answer keep one. *)
Definition filled (results : slots) (j : nat) : Prop := exists r, results !! j = Some (Some r).

Lemma filled_insert results i j r : (i < length results)%nat -> i = j \/ filled results j -> filled (<[i := Some r]> results) j.
Proof.
  intros Hi [->|[r' Hr']]; [exists r; by apply list_lookup_insert_eq|]. destruct (decide (i = j)) as [->|Hne]; [exists r; by apply list_lookup_insert_eq|].
  exists r'. by rewrite list_lookup_insert_ne.
Qed.

Section on.
Variable h : list Entry.
Variable txs : list Transaction.

Definition right_keys (by_key : gmap string Committed) : Prop := forall k c, by_key !! k = Some c -> answer h b k = Some c.

Definition right_slots (results : slots) : Prop := length results = length txs /\
  forall j r, results !! j = Some (Some r) -> exists tx c, txs !! j = Some tx /\ answer h b (tx_idem tx) = Some c /\ r = Ok c.

Lemma right_empty : right_slots (replicate (length txs) None).
Proof. split; [apply length_replicate|]. by intros j r [? _]%lookup_replicate. Qed.

Lemma right_insert results j tx c : right_slots results -> txs !! j = Some tx -> answer h b (tx_idem tx) = Some c ->
  right_slots (<[j := Some (Ok c)]> results).
Proof.
  intros [Hl Hr] Htx Ha. split; [by rewrite length_insert|]. intros i r Hi. apply list_lookup_insert_Some in Hi as [(-> & [= <-] & _)|[_ Hi]]; [|by apply Hr].
  by exists tx, c.
Qed.

Lemma record_answers_right answers : (forall w c, (w, c) ∈ answers -> txs !! input_idx w = Some (fast_tx w) /\ answer h b (tx_idem (fast_tx w)) = Some c) ->
  forall by_key results, right_keys by_key -> right_slots results ->
  right_keys (record_answers answers by_key results).1 /\ right_slots (record_answers answers by_key results).2.
Proof.
  unfold record_answers. induction answers as [|[w c] answers IH]; intros Hans by_key results Hk Hr; cbn [foldl]; [done|].
  destruct (Hans w c ltac:(by left)) as [Htx Ha]. apply IH; [intros w' c' Hin; apply Hans; by right| |by eapply right_insert].
  intros k c' Hc'. cbn in Hc'. apply lookup_insert_Some in Hc' as [[<- <-]|[_ Hc']]; [done|by apply Hk].
Qed.

Lemma record_dedup_right by_key ds results (s : Session) : (forall j k, (j, k) ∈ ds -> is_Some (by_key !! k)) ->
  exists results', record_dedup by_key ds results s = (Done results', s) /\
    ((forall j k, (j, k) ∈ ds -> exists tx, txs !! j = Some tx /\ tx_idem tx = k) -> right_keys by_key -> right_slots results -> right_slots results') /\
    ((forall j k, (j, k) ∈ ds -> (j < length results)%nat) ->
     length results' = length results /\ forall j, filled results j \/ (exists k, (j, k) ∈ ds) -> filled results' j).
Proof.
  intros Hds. unfold record_dedup, sq_bind.
  assert (exists found, mapM_db (fun p => fun s0 => match index by_key p.2 s0 with (Done a, s1) => sq_ret (p.1, a) s1 | (Fail e, s1) => (Fail e, s1) | (Panicked, s1) => (Panicked, s1) end) ds s = (Done found, s) /\
    Forall2 (fun p q => q.1 = p.1 /\ by_key !! p.2 = Some q.2) ds found) as (found & Hf & Hall).
  { induction ds as [|[j k] ds IH]; [exists []; by split; [|constructor]|]. destruct IH as (found & Hf & Hall); [intros j' k' Hin; apply (Hds j'); by right|].
    destruct (Hds j k ltac:(by left)) as [c Hc]. exists ((j, c) :: found). split; [|by constructor].
    cbn [mapM_db]. unfold sq_bind. unfold index at 1. cbn [fst snd]. rewrite Hc. cbn. by rewrite Hf. }
  rewrite Hf. eexists. split; [done|]. clear Hf Hds. split.
  { intros Htx Hk. revert results. induction Hall as [|[j k] [j' c] ds found [Hj Hc] _ IH]; intros results Hr; cbn; [done|].
  cbn in Hj, Hc. subst j'. apply IH; [intros j' k' Hin; apply Htx; by right|]. destruct (Htx j k ltac:(by left)) as (tx & Hj & <-).
    eapply right_insert; eauto. }
  revert results. induction Hall as [|[j k] [j' c] ds found [Hj _] _ IH]; intros results Hlt; cbn [foldl].
  { split; [done|]. by intros j [|(k & ?%elem_of_nil)]. }
  cbn in Hj. subst j'. cbn [fst snd]. destruct (IH (<[j := Some (Ok c)]> results)) as [Hl Hf]; [intros j' k' Hin; rewrite length_insert; apply (Hlt j' k'); by right|].
  rewrite length_insert in Hl. split; [done|]. pose proof (Hlt j k ltac:(by left)) as Hj. intros i Hi. apply Hf.
  destruct Hi as [Hi|(k' & [[= -> ->]|Hin]%elem_of_cons)]; [left; apply filled_insert; [done|by right]|left; apply filled_insert; [done|by left]|].
  right. by exists k'.
Qed.

Lemma right_all results rs cs : right_slots results -> mapM id results = Some rs ->
  Forall2 (fun tx c => answer h b (tx_idem tx) = Some c) txs cs -> rs = map Ok cs.
Proof.
  intros [Hl Hr] Hm%mapM_Some Hcs. apply list_eq. intros j. rewrite list_lookup_fmap.
  destruct (txs !! j) as [tx|] eqn:Etx.
  - destruct (Forall2_lookup_l _ _ _ _ _ Hcs Etx) as (c & Hc & Ha). rewrite Hc. cbn.
    assert (is_Some (results !! j)) as [o Ho] by (apply lookup_lt_is_Some; rewrite Hl; by eapply lookup_lt_Some).
    destruct (Forall2_lookup_l _ _ _ _ _ Hm Ho) as (r & Hrj & Hor). rewrite Hrj. cbn in Hor. subst o.
    destruct (Hr j r Ho) as (tx' & c' & Htx' & Ha' & ->). congruence.
  - assert (cs !! j = None) as ->. { apply lookup_ge_None. rewrite <- (Forall2_length _ _ _ Hcs). by apply lookup_ge_None. }
    cbn. apply lookup_ge_None. rewrite <- (Forall2_length _ _ _ Hm), Hl. by apply lookup_ge_None.
Qed.
End on.

(** The keys that have an answer once the write set's are recorded. *)
Lemma record_keys answers : forall by_key results,
  (forall k, is_Some (by_key !! k) -> is_Some ((record_answers answers by_key results).1 !! k)) /\
  (forall w c, (w, c) ∈ answers -> is_Some ((record_answers answers by_key results).1 !! tx_idem (fast_tx w))).
Proof.
  unfold record_answers. induction answers as [|[w c] answers IH]; intros by_key results; cbn [foldl]; [split; [done|by intros w c ?%elem_of_nil]|].
  destruct (IH (<[tx_idem (fast_tx w) := c]> by_key) (<[input_idx w := Some (Ok c)]> results)) as [Hold Hnew].
  assert (forall k, k = tx_idem (fast_tx w) \/ is_Some (by_key !! k) -> is_Some (<[tx_idem (fast_tx w) := c]> by_key !! k)) as Hin.
  { intros k Hk. destruct (decide (k = tx_idem (fast_tx w))) as [->|Hne]; [by rewrite lookup_insert_eq|].
    rewrite lookup_insert_ne by done. by destruct Hk. }
  split; [intros k Hk; apply Hold, Hin; by right|]. intros w' c' [[= -> ->]|Hin']%elem_of_cons; [apply Hold, Hin; by left|by eapply Hnew].
Qed.

Lemma record_answers_filled answers : forall by_key results, (forall w c, (w, c) ∈ answers -> (input_idx w < length results)%nat) ->
  let results' := (record_answers answers by_key results).2 in
  length results' = length results /\
  forall j, filled results j \/ (exists w c, (w, c) ∈ answers /\ input_idx w = j) -> filled results' j.
Proof.
  unfold record_answers. induction answers as [|[w c] answers IH]; intros by_key results Hlt; cbn [foldl].
  { split; [done|]. by intros j [|(w & c & ?%elem_of_nil & _)]. }
  destruct (IH (<[tx_idem (fast_tx w) := c]> by_key) (<[input_idx w := Some (Ok c)]> results)) as [Hl Hf].
  { intros w' c' Hin. rewrite length_insert. apply (Hlt w' c'). by right. }
  rewrite length_insert in Hl. split; [done|]. pose proof (Hlt w c ltac:(by left)) as Hw. intros j Hj. apply Hf.
  destruct Hj as [Hj|(w' & c' & [[= -> ->]|Hin]%elem_of_cons & Hj)]; [left; apply filled_insert; [done|by right]|left; apply filled_insert; [done|by left]|].
  right. by exists w', c'.
Qed.

(** The end of the fast path. *)
Definition finish (by_key : gmap string Committed) (ds : list (nat * string)) (results : slots) : pg (list (result Committed DbError)) :=
  let& results := record_dedup by_key ds results in
  lift_db (ok_or (mapM id results) aborted_fast).

Lemma finish_run h txs by_key ds results (s : Session) :
  (forall j k, (j, k) ∈ ds -> is_Some (by_key !! k) /\ exists tx, txs !! j = Some tx /\ tx_idem tx = k) ->
  length results = length txs -> (forall j, (j < length txs)%nat -> filled results j \/ exists k, (j, k) ∈ ds) ->
  exists rs, finish by_key ds results s = (Done rs, s) /\
    forall cs, right_keys h by_key -> right_slots h txs results -> Forall2 (fun tx c => answer h b (tx_idem tx) = Some c) txs cs -> rs = map Ok cs.
Proof.
  intros Hds Hlen Hcov.
  destruct (record_dedup_right h txs by_key ds results s (fun j k Hin => proj1 (Hds j k Hin))) as (results' & Hrec & Hright & Hfill).
  destruct Hfill as [Hlen' Hfill]; [intros j k Hin; destruct (Hds j k Hin) as (_ & tx & Hj & _); apply lookup_lt_Some in Hj; by rewrite Hlen|].
  assert (is_Some (mapM id results')) as [rs Hrs].
  { apply mapM_is_Some, Forall_lookup. intros j o Ho. assert (j < length txs)%nat as Hj by (rewrite <- Hlen, <- Hlen'; by eapply lookup_lt_Some).
    destruct (Hfill j (Hcov j Hj)) as [r Hr]. rewrite Hr in Ho. injection Ho as <-. by exists r. }
  exists rs. unfold finish, sq_bind. rewrite Hrec, Hrs. split; [done|]. intros cs Hk Hs Hcs.
  apply (right_all h txs results'); [apply Hright; [apply Hds|done|done]|done|done].
Qed.

(** ** Panics *)

(** The source's indexings and column reads that could panic do not. *)
Definition no_panic {S A} (m : db S A) (s : S) : Prop := (m s).1 <> Panicked.

Lemma np_bind {S A B} (m : db S A) (k : A -> db S B) s :
  no_panic m s -> (forall a s1, m s = (Done a, s1) -> no_panic (k a) s1) -> no_panic (sq_bind m k) s.
Proof.
  unfold no_panic, sq_bind. intros Hm Hk. destruct (m s) as [[a|e|] s1]; [by apply Hk|done|by destruct Hm].
Qed.

Lemma np_tried {A} (c : Session -> result A SqlxError * Session) s : no_panic (tried c) s.
Proof. unfold no_panic, tried. by destruct (c s) as [[]]. Qed.
Lemma np_ret {S A} (a : A) (s : S) : no_panic (sq_ret a) s.
Proof. done. Qed.
Lemma np_lift_std {S A} (r : result A string) (s : S) : no_panic (lift_std r) s.
Proof. by destruct r. Qed.
Lemma np_lift_db {S A} (r : result A DbError) (s : S) : no_panic (lift_db r) s.
Proof. by destruct r. Qed.
Lemma np_index {S A} (m : gmap string A) k (s : S) : is_Some (m !! k) -> no_panic (index m k) s.
Proof. unfold no_panic, index. by intros [a ->]. Qed.
Lemma np_mapM {S A B} (f : A -> db S B) l : (forall a s, a ∈ l -> no_panic (f a) s) -> forall s, no_panic (mapM_db f l) s.
Proof.
  induction l as [|a l IH]; intros Hf s; cbn [mapM_db]; [done|]. apply np_bind; [apply Hf; by left|]. intros c s1 _.
  apply np_bind; [apply IH; intros a' s' Hin; apply Hf; by right|]. intros cs s2 _. apply np_ret.
Qed.

Lemma upsert_balances_keys ds t rows t' : upsert_balances ds t = Ok (rows, t') -> map fst rows = map bd_key ds.
Proof.
  unfold upsert_balances. case_bool_decide as Hnd; [|done]. cbn [negb]. pose proof (upsert_rows_spec ds (t_balances t) Hnd) as Hs.
  destruct (upsert_rows ds (t_balances t)) as [[rows' m]|e]; [|done]. destruct (forallb _ _); [|done]. intros [= <- <-]. by destruct Hs.
Qed.

Lemma batch_deltas_keys accounts agg first l s ds s' : mapM_db (batch_delta accounts agg first) l s = (Done ds, s') -> map bd_key ds = l.
Proof.
  intros Hm. apply (mapM_Done _ (fun k d => bd_key d = k)) in Hm as [_ Hf].
  - clear s s'. induction Hf as [|k d l ds Hk _ IH]; [done|]. cbn. by rewrite Hk, IH.
  - intros key s0 d s1. unfold batch_delta. by intros (acct & s2 & [_ ->]%index_Done & (a & s3 & [_ ->]%index_Done & [= <- <-])%sq_bind_Done)%sq_bind_Done.
Qed.

Lemma write_set_np W accounts agg s : (forall key, is_Some (agg !! key) -> is_Some (accounts !! key)) -> no_panic (write_set b W accounts agg) s.
Proof.
  intros Hacc. assert (forall key, key ∈ agg_keys agg -> is_Some (agg !! key)) as Hkeys by (intros key; apply agg_keys_spec).
  unfold write_set. fold (agg_keys agg). apply np_bind.
  { unfold claim_seqs. apply np_bind; [apply np_tried|]. intros z s1 _. apply np_bind; [done|]. intros z' s2 _. apply np_ret. }
  intros [last at_] s1 _. cbn zeta. apply np_bind.
  { apply np_mapM. intros key s0 Hin%Hkeys. unfold batch_delta. apply np_bind; [apply np_index; auto|]. intros acct s2 _.
    apply np_bind; [by apply np_index|]. intros a s3 _. apply np_ret. }
  intros ds s2 Hds%batch_deltas_keys. apply np_bind; [apply np_tried|]. intros rows s3 Hup. apply np_bind.
  { assert (map fst rows = agg_keys agg) as Hrows.
    { rewrite <- Hds. apply modify_Done in Hup as (Ha & sx & He & Hup & _). apply modify_calm_Done in Hup as (t & Hup & _).
      - by eapply upsert_balances_keys.
      - apply calm_calmed. by rewrite (ev_aborted _ _ He). }
    apply np_mapM. intros key s0 Hin. unfold check_prefix. apply np_bind; [apply np_index; auto|]. intros acct s4 _. destruct (row_min_balance acct); [|apply np_ret].
    apply np_bind; [apply np_index; auto|]. intros entry s5 _. apply np_bind.
    - apply np_index. apply not_eq_None_Some. intros Hn. apply not_elem_of_list_to_map in Hn. apply Hn. change (fmap fst) with (map (@fst string Z)). by rewrite Hrows.
    - intros final s6 _. by destruct (prefix_ok _ _ _ _). }
  intros u s4 _. apply np_bind; [apply np_lift_std|]. intros refs s5 _. apply np_bind; [apply np_tried|]. intros u1 s6 _.
  apply np_bind; [apply np_tried|]. intros u2 s7 _. apply np_bind; [apply np_lift_std|]. intros pls s8 _. apply np_bind; [apply np_tried|]. intros u3 s9 _.
  apply np_bind; [apply np_tried|]. intros u4 s10 _. apply np_ret.
Qed.
End record.
