(* ===== verification/PgFastRun.v ===== *)
(** The PostgreSQL store's fast path (talea-store-postgres/src/batch.rs) against
    the history, beside other sessions and with failing statements: when it
    answers, it did what committing the batch's drafts in turn does. *)

From S2P Require Import Prelude Decimal Core Disk Sql Sqlite SqliteSpec SqliteCommit SqliteHistory Pg Postgres PgSpec PgCommit.
From S2P Require Import PgHistory PgDefs PgDrafts PgBatch PgPlan PgFast PgAnswers.
Open Scope Z_scope.

Section fast.
Context `{HashIterLaws} `{UuidTextLaws} `{Json LedgerEvent} `{Json (list ExternalRef)}.

(** ** What others add *)

Lemma only_grown s s' h : others_only s s' -> peers_ok s -> db_ok (durable s) h ->
  exists others, db_ok (durable s') (h ++ others) /\ alone s others /\ peers_ok s'.
Proof.
  intros Ho Hp Hdb. destruct (peers s) eqn:E.
  - exists []. rewrite app_nil_r. destruct Ho as (l & Hl & ->). rewrite E in Hl. symmetry in Hl. apply app_nil in Hl as [-> Hs'].
    split_and!; [done..|]. unfold peers_ok. by rewrite Hs'.
  - destruct (others_durable _ _ _ Ho Hp Hdb) as (o & ? & ?). exists o. split_and!; [done| |done]. unfold alone. by rewrite E.
Qed.

(** What others added by the time some of them had their turn. *)
Definition among (s : Session) (h others : list Entry) : Prop :=
  alone s others /\ exists l rest, peers s = l ++ rest /\ db_ok (foldl (fun t f => f t) (durable s) l) (h ++ others).

Lemma among_room s h o txs : among s h o -> has_room s txs -> roomy (h ++ o) txs.
Proof. intros (_ & l & rest & Hl & Hdb) Hr. by apply (room_roomy _ _ _ Hdb), (Hr l rest). Qed.

Lemma among_trans s s' h o1 o : others_only s s' -> alone s o1 -> among s' (h ++ o1) o -> among s h (o1 ++ o).
Proof.
  intros (l & Hl & Hd) Ha (Ha' & l' & rest & Hl' & Hdb). split.
  - intros Hp. rewrite (Ha Hp). apply Ha'. rewrite Hp in Hl. symmetry in Hl. by apply app_nil in Hl as [_ ?].
  - exists (l ++ l'), rest. rewrite Hl, Hl', app_assoc. split; [done|]. by rewrite foldl_app, <- Hd, app_assoc.
Qed.

Lemma among_here s s' h o : others_only s s' -> alone s o -> db_ok (durable s') (h ++ o) -> among s h o.
Proof. intros (l & Hl & Hd) Ha Hdb. split; [done|]. exists l, (peers s'). split; [done|]. by rewrite <- Hd. Qed.

Lemma env_now s s' : env s s' -> now_pg s' = now_pg s.
Proof. intros He. unfold now_pg. by rewrite (ev_wall _ _ He), (ev_reads _ _ He). Qed.

(** ** The write set beside other sessions *)

Lemma steady_mapM {A B} (f : A -> pg B) l : (forall a, steady (f a)) -> steady (mapM_db f l).
Proof. intros Hf. induction l as [|a l IH]; cbn [mapM_db]; auto with talea. Qed.
Lemma steady_index {A} (m : gmap string A) k : steady (index m k).
Proof. unfold index. destruct (m !! k); auto with talea. Qed.
#[local] Hint Resolve steady_mapM steady_index : talea.

Lemma steady_check accounts agg finals key : steady (check_prefix accounts agg finals key).
Proof.
  unfold check_prefix. apply steady_bind; [auto with talea|]. intros acct. destruct (row_min_balance acct); [|auto with talea].
  apply steady_bind; [auto with talea|]. intros entry. apply steady_bind; [auto with talea|]. intros final. destruct (prefix_ok _ _ _ _); auto with talea.
Qed.
Lemma steady_delta accounts agg first key : steady (batch_delta accounts agg first key).
Proof. unfold batch_delta. auto with talea. Qed.
#[local] Hint Resolve steady_check steady_delta : talea.

Lemma write_set_Done b W accounts agg s a s' : write_set b W accounts agg s = (Done a, s') ->
  aborted s = false /\ exists s1, env s s1 /\ write_set b W accounts agg (calmed s1) = (Done a, calmed s') /\ peers s' = peers s1.
Proof.
  unfold write_set. intros ([q at_] & s0 & Hc & Hk)%sq_bind_Done. apply claim_Done in Hc as (Ha & s1 & He & Hc & Hw & Hp).
  split; [done|]. exists s1. split; [done|].
  match type of Hk with ?m s0 = _ => assert (steady m) as Hst end.
  { unfold notify. cbn zeta. auto 30 with talea. }
  destruct (Hst _ _ _ Hw Hk) as (Hk' & _ & Hp'). split; [|congruence]. apply sq_bind_Done. by exists (q, at_), (calmed s0).
Qed.

#[local] Hint Resolve kept_ret kept_fail kept_panic kept_bind kept_lift_std kept_lift_db kept_fetch kept_modify kept_notify kept_claim : talea.
Lemma kept_mapM {A B} (f : A -> pg B) l : (forall a, is_kept (f a)) -> is_kept (mapM_db f l).
Proof. intros Hf. induction l as [|a l IH]; cbn [mapM_db]; auto with talea. Qed.
Lemma kept_index {A} (m : gmap string A) k : is_kept (index m k).
Proof. unfold index. destruct (m !! k); auto with talea. Qed.
#[local] Hint Resolve kept_mapM kept_index : talea.

Lemma kept_write_set b W accounts agg : is_kept (write_set b W accounts agg).
Proof.
  assert (forall first key, is_kept (batch_delta accounts agg first key)) by (intros; unfold batch_delta; auto with talea).
  assert (forall finals key, is_kept (check_prefix accounts agg finals key)).
  { intros finals key. unfold check_prefix. apply kept_bind; [auto with talea|]. intros acct. destruct (row_min_balance acct); [|auto with talea].
    apply kept_bind; [auto with talea|]. intros entry. apply kept_bind; [auto with talea|]. intros final. destruct (prefix_ok _ _ _ _); auto with talea. }
  unfold write_set. apply kept_bind; [auto with talea|]. intros [q at_]. cbn zeta. auto 30 with talea.
Qed.

Lemma kept_prior b keys : is_kept (prior_rows b keys).
Proof.
  unfold prior_rows. apply kept_bind; [auto with talea|]. intros rows. apply kept_bind; [|auto with talea]. apply kept_mapM. intros r.
  apply kept_bind; [|auto with talea]. unfold committed_row. apply kept_bind; [apply kept_get_row|auto with talea].
Qed.

Lemma kept_accounts keys : is_kept (load_accounts keys).
Proof. unfold load_accounts. auto with talea. Qed.

(** ** Reading and planning *)

(** A plan made for a history fits it while it grows. *)
Lemma planned_grown h o ws accounts agg : planned h ws accounts agg -> planned (h ++ o) ws accounts agg.
Proof.
  intros [Ha Hc Hf]. split; [done| |].
  - intros tx p Htx Hp. rewrite (Hc tx p Htx Hp). by apply (account_rows_agree h o (tx_postings tx)); [apply Hf|].
  - intros tx Htx. apply (foldable_ext (account_row_of h)); [|by apply Hf]. intros p Hp. by apply (account_rows_agree h o (tx_postings tx)); [apply Hf|].
Qed.

Definition empty_plan : Plan := mkPlan [] [] [] ∅.

Definition batch_keys (txs : list Transaction) : list string :=
  dedup (sort_by String.leb (concat (map (fun t => map (fun p => to_key (p_account p)) (tx_postings t)) txs))).

Lemma posts_elem txs tx p : tx ∈ txs -> p ∈ tx_postings tx -> p ∈ posts txs.
Proof.
  intros Htx Hp. induction txs as [|t txs IH]; [by apply elem_of_nil in Htx|]. unfold posts in *. cbn [map concat]. apply elem_of_app.
  apply elem_of_cons in Htx as [<-|Htx]; [by left|right; by apply IH].
Qed.

Lemma batch_keys_elem txs tx p : tx ∈ txs -> p ∈ tx_postings tx -> to_key (p_account p) ∈ batch_keys txs.
Proof.
  intros Htx Hp. assert (batch_keys txs = posting_keys (posts txs)) as ->; [|by eapply posting_keys_elem, posts_elem].
  unfold batch_keys, posting_keys, posts. by rewrite concat_map, map_map.
Qed.

(** ** The fast path *)

(** Nothing of this session's is durable. *)
Record left_alone (s s' : Session) : Prop := {
  la_others : others_only s s';
  la_delivered : delivered s' = delivered s;
  la_wall : wall s' = wall s;
  la_faults : faults s = [] -> faults s' = []
}.

Lemma left_alone_trans s1 s2 s3 : left_alone s1 s2 -> left_alone s2 s3 -> left_alone s1 s3.
Proof.
  intros [(l & Hl & Hd) ? ? ?] [(l' & Hl' & Hd') ? ? ?]. split; try congruence; [|auto]. exists (l ++ l'). by rewrite foldl_app, <- Hd, Hl, Hl', app_assoc.
Qed.

Lemma left_kept s s' : kept s s' -> left_alone s s'.
Proof. by intros []. Qed.

Lemma left_begin s : left_alone s (pool_begin s).2.
Proof.
  unfold pool_begin, contact. destruct (faults s) as [|[|e|e] fs] eqn:E; cbn; (split; [by exists []|done|done|cbn; congruence]).
Qed.

(** What an answer of the fast path says: the drafts went in turn, and one
    notification announced the last. *)
Record fast_ok (h : list Entry) (txs : list Transaction) (s s' : Session) (rs : list (result Committed DbError)) (evs : list Entry) : Prop := {
  fo_run : exists cs, rs = map Ok cs /\ run_spec (eq (now_pg s)) h txs (map Some cs) evs;
  fo_delivered : delivered s' = delivered s ++ map note_of (option_list (last evs))
}.

(** Among other sessions. *)
Definition fast_result (h : list Entry) (txs : list Transaction) (s : Session) (r : outcome (list (result Committed DbError)) * Session) : Prop :=
  r.1 <> Panicked /\ peers_ok r.2 /\
  (is_done r.1 = false -> faults s = [] -> left_alone s r.2) /\
  exists others, among s h others /\ (roomy (h ++ others) txs -> exists evs,
    db_ok (durable r.2) (h ++ others ++ evs) /\ forall rs, r.1 = Done rs -> fast_ok (h ++ others) txs s r.2 rs evs).

Lemma fast_left h txs s e s' : peers_ok s -> db_ok (durable s) h -> left_alone s s' -> fast_result h txs s (Fail e, s').
Proof.
  intros Hp Hdb Hl. destruct (only_grown s s' h (la_others _ _ Hl) Hp Hdb) as (o & Ho & Hal & Hp'). split; [done|]. split; [done|]. split; [done|].
  exists o. split; [by apply (among_here s s'), Ho; [apply Hl|]|]. intros _. exists []. rewrite app_nil_r. by split.
Qed.

Section body.
Variable b : Book.

(** The write set and the COMMIT. *)
Definition write_all (W : list FastDraft) (accounts : gmap string AccountRow) (agg : gmap string AcctAgg)
    (by_key : gmap string Committed) (results : list (option (result Committed DbError))) :
    pg (gmap string Committed * list (option (result Committed DbError))) :=
  match W with
  | [] => sq_ret (by_key, results)
  | _ => let& answers := write_set b W accounts agg in let& _ := tried pg_commit in sq_ret (record_answers answers by_key results)
  end.

Lemma imap_fst {A B} (f : nat -> A -> B) l : map fst (imap (fun i w => (w, f i w)) l) = l.
Proof. revert f. induction l as [|x l IH]; intros f; [done|]. cbn. f_equal. apply (IH (fun i => f (S i))). Qed.

Lemma write_set_notified W accounts agg s a s' : write_set b W accounts agg s = (Done a, s') -> aborted s' = false /\ map fst a = W.
Proof.
  unfold write_set. intros ([q at_] & s1 & _ & Hw)%sq_bind_Done. cbn zeta in Hw. do 8 apply sq_bind_Done in Hw as (? & ? & _ & Hw).
  apply sq_bind_Done in Hw as (u & s3 & Hn & [= <- <-]). split.
  - apply tried_Done, statement_Ok in Hn as (Ha & s4 & He & _ & _ & Hr). destruct (_ <=? _)%nat; [done|]. injection Hr as _ <-. cbn.
    by rewrite (ev_aborted _ _ He).
  - apply imap_fst.
Qed.

Lemma chain_last_note h at_ W : W <> [] -> Forall (fun w => tx_book (fast_tx w) = b) W ->
  map note_of (option_list (last (chain h at_ (map fast_tx W)))) =
  [(book_channel_name b, i64_to_string (Z.of_nat (length (book_log b h)) + Z.of_nat (length W)))].
Proof.
  intros Hne Hb. destruct W as [|w W] using rev_ind; [done|]. clear IHW. apply Forall_app in Hb as [Hb Hw]. rewrite Forall_singleton in Hw.
  rewrite map_app. cbn [map]. rewrite chain_snoc, last_snoc. cbn [option_list map note_of posted next_entry en_book en_seq].
  unfold note_of. cbn. rewrite Hw, (chain_log b), decide_True by (by apply Forall_fmap || done). rewrite length_map, length_app. cbn. do 3 f_equal. lia.
Qed.

(** What the write set and the COMMIT leave. *)
Definition written (h : list Entry) (txs : list Transaction) (W : list FastDraft) (s : Session) (answers : list (FastDraft * Committed))
    (s' : Session) (o : list Entry) : Prop :=
  let ws := map fast_tx W in let evs := chain (h ++ o) (now_pg s) ws in
  chain_ok (h ++ o) (now_pg s) ws /\ answers = imap (fun i w => (w, batch_committed (next_of b (h ++ o)) (now_pg s) i w)) W /\
  db_ok (durable s') (h ++ o ++ evs) /\ delivered s' = delivered s ++ map note_of (option_list (last evs)).

Lemma write_all_run h txs W accounts agg by_key results s :
  peers_ok s -> db_ok (view s) h -> txn s = fresh_txn -> planned h (map fast_tx W) accounts agg ->
  Forall (fun w => tx_book (fast_tx w) = b) W -> map fast_tx W `sublist_of` txs ->
  match write_all W accounts agg by_key results s with
  | (Done r, s') => peers_ok s' /\ exists answers, map fst answers = W /\ r = record_answers answers by_key results /\
      exists o, among s h o /\ (roomy (h ++ o) txs -> written h txs W s answers s' o)
  | (Fail _, s') => peers_ok s' /\ (faults s = [] -> left_alone s s') /\
      exists o, among s h o /\ (roomy (h ++ o) txs -> exists evs, db_ok (durable s') (h ++ o ++ evs))
  | (Panicked, _) => False
  end.
Proof.
  intros Hp Hdb Htx Hpl Hb Hsub. assert (db_ok (durable s) h) as Hdur by (unfold view in Hdb; by rewrite Htx in Hdb).
  assert (forall s', left_alone s s' -> peers_ok s' /\ exists o, among s h o /\ db_ok (durable s') (h ++ o)) as Hleft.
  { intros s' Hl. destruct (only_grown s s' h (la_others _ _ Hl) Hp Hdur) as (o & ? & ? & ?). split; [done|].
    exists o. split; [|done]. by apply (among_here s s'); [apply Hl|..]. }
  unfold write_all. destruct W as [|w0 W0] eqn:EW.
  { split; [done|]. exists []. split_and!; [done..|]. exists []. split; [apply (among_here s s); [by exists []|done|by rewrite app_nil_r]|]. intros _. unfold written. cbn [map chain imap option_list last].
    rewrite !app_nil_r. split_and!; [|done..]. by intros k tx. }
  assert (w0 :: W0 <> []) as Hne by done. rewrite <- EW in *. clear w0 W0 EW.
  unfold sq_bind. pose proof (kept_write_set b W accounts agg s) as Hk. pose proof (write_set_np b W accounts agg s) as Hnp.
  destruct (write_set b W accounts agg s) as [[answers|e|] s1] eqn:Ew; cbn [snd] in Hk.
  - destruct (write_set_notified _ _ _ _ _ _ Ew) as [Ha1 Hans]. destruct (write_set_Done _ _ _ _ _ _ _ Ew) as (Ha & s0 & He & Hcalm & Hp1).
    destruct (env_grown _ _ h Hp He Hdb) as (o & Hdb0 & Hal0). assert (among s h o) as Hal.
    { apply (among_here s s0); [apply (ev_peers _ _ He)|done|]. unfold view in Hdb0. by rewrite (ev_txn _ _ He), Htx in Hdb0. }
    assert (peers_ok s1) as Hps1 by (unfold peers_ok; rewrite Hp1; by eapply env_peers).
    assert (roomy (h ++ o) txs -> forall s2, durable s2 = view s1 -> delivered s2 = delivered s1 ++ x_queue (txn s1) -> written h txs W s answers s2 o) as Hok.
    { intros Hr s2 Hd Hq. assert (aborted s0 = false) as Ha0 by (by rewrite (ev_aborted _ _ He)).
      pose proof (write_set_calm b (h ++ o) W accounts agg (calmed s0) answers (calmed s1) (calm_calmed _ Ha0) Hdb0 Hne Hb (planned_grown _ _ _ _ _ Hpl)
        (roomy_fit _ _ _ (do_history _ _ Hdb0) Hsub Hr) Hcalm) as Hw. cbn zeta in Hw. change (now_pg (calmed s0)) with (now_pg s0) in Hw.
      rewrite (env_now _ _ He) in Hw. destruct Hw as (Hc & -> & t & Hs1 & Ht). unfold written. split; [done|]. split; [done|].
      assert (txn s1 = txn (calmed s1) /\ delivered s1 = delivered (calmed s1)) as [Htx1 Hdel1] by done.
      rewrite Hd, Hq. unfold view. rewrite Htx1, Hdel1, Hs1. cbn. split; [by rewrite app_assoc|].
      rewrite chain_last_note by done. by rewrite (ev_delivered _ _ He), (ev_txn _ _ He), Htx. }
    destruct (commit_cases s1 Ha1) as (Hp2 & Hcase). unfold tried.
    assert (faults s = [] -> faults s1 = []) as Hf by apply Hk.
    assert (peers_ok (pg_commit s1).2) as Hps2 by (unfold peers_ok; by rewrite Hp2).
    destruct (pg_commit s1) as [[u|e] s2] eqn:Ec; cbn [fst snd] in *.
    + split; [done|]. exists answers. split_and!; [done..|]. exists o. split; [done|]. intros Hr.
      destruct Hcase as [(Hd & Hq & _)|(_ & _ & err & ?)]; [|done]. by apply Hok.
    + split; [done|]. split.
      { intros Hf0. exfalso. unfold pg_commit, contact in Ec. by rewrite (Hf Hf0) in Ec. }
      destruct Hcase as [(Hd & Hq & _)|(Hd & _)].
      * exists o. split; [done|]. intros Hr. eexists. by apply (Hok Hr s2 Hd Hq).
      * destruct (Hleft s1 (left_kept _ _ Hk)) as (_ & o' & Hal' & Hdb'). exists o'. split; [done|]. intros _. exists []. by rewrite Hd, app_nil_r.
  - destruct (Hleft s1 (left_kept _ _ Hk)) as (? & o' & ? & Hdb'). split; [done|]. split; [intros _; by apply left_kept|].
    exists o'. split; [done|]. intros _. exists []. by rewrite app_nil_r.
  - unfold no_panic in Hnp. rewrite Ew in Hnp. destruct Hnp; [|done]. intros key [a Hag].
    destruct (planned_account _ _ _ _ _ _ Hpl Hag) as (_ & def & cfg & _ & ->). eauto.
Qed.

(** The fast path on a batch of one book. *)
Definition fast_body (txs : list Transaction) : pg (list (result Committed DbError)) :=
  let& _ := tried pool_begin in
  let& by_key := prior_rows b (map tx_idem txs) in
  let& accounts := load_accounts (batch_keys txs) in
  let& plan := lift_db (ok_or (plan_drafts by_key accounts 0 txs empty_plan) aborted_fast) in
  let& (by_key, results) := write_all (pl_writes plan) accounts (pl_agg plan) by_key (replicate (length txs) None) in
  finish by_key (pl_dedup plan) results.

Lemma planning_empty h by_key txs : planning h by_key txs 0 empty_plan.
Proof.
  split; cbn; [intros key; by rewrite lookup_empty|by intros w ?%elem_of_nil|lia|by intros k ?%elem_of_nil|by intros j k ?%elem_of_nil].
Qed.

Lemma sublist_elem {A} (x : A) l k : l `sublist_of` k -> x ∈ l -> x ∈ k.
Proof. intros Hs. induction Hs as [|y l k _ IH|y l k _ IH]; [done|..]; rewrite ?elem_of_cons; tauto. Qed.

Lemma planning_planned h by_key txs n st accounts : planning h by_key txs n st -> map fast_tx (pl_writes st) `sublist_of` txs ->
  (forall tx p, tx ∈ txs -> p ∈ tx_postings tx -> accounts !! to_key (p_account p) = account_row_of h (to_key (p_account p))) ->
  planned h (map fast_tx (pl_writes st)) accounts (pl_agg st).
Proof.
  intros Hpl Hsub Hacc. split; [apply Hpl| |].
  - intros tx p Htx Hp. apply (Hacc tx); [|done]. by apply (sublist_elem _ _ _ Hsub).
  - intros tx (w & -> & Hw)%list_elem_of_fmap. by apply (pg_fold _ _ _ _ _ Hpl).
Qed.

(** The answers, once the batch is written. *)
Lemma finish_written h txs by_key st (s2 s3 : Session) answers (W := pl_writes st)
    (R := record_answers answers by_key (replicate (length txs) None)) :
  planning h by_key txs (length txs) st -> W = news by_key 0 [] txs -> map fst answers = W ->
  exists rs, finish R.1 (pl_dedup st) R.2 s3 = (Done rs, s3) /\
    forall o, (forall k c, by_key !! k = Some c -> answer h b k = Some c) -> Forall (fun tx => tx_book tx = b) txs -> is_reserved b = false ->
      written h txs W s2 answers s3 o -> fast_ok (h ++ o) txs s2 s3 rs (chain (h ++ o) (now_pg s2) (map fast_tx W)).
Proof.
  intros Hpl HW Hans. assert (forall w, w ∈ W -> txs !! input_idx w = Some (fast_tx w)) as Hslot.
  { intros w Hw. rewrite HW in Hw. by destruct (news_slot _ _ _ _ _ Hw) as (j & -> & ?). }
  assert (forall w c, (w, c) ∈ answers -> w ∈ W) as HinW by (intros w c Hin; rewrite <- Hans; by apply (list_elem_of_fmap_2 fst _ (w, c))).
  assert (forall w, w ∈ W -> exists c, (w, c) ∈ answers) as HWin.
  { intros w Hw. rewrite <- Hans in Hw. apply list_elem_of_fmap in Hw as ([w' c] & -> & Hin). by exists c. }
  destruct (record_keys answers by_key (replicate (length txs) None)) as [Hold Hnew].
  destruct (record_answers_filled answers by_key (replicate (length txs) None)) as [Hlen Hfill].
  { intros w c Hin%HinW%Hslot%lookup_lt_Some. by rewrite length_replicate. }
  fold R in Hold, Hnew, Hlen, Hfill. rewrite length_replicate in Hlen.
  assert (forall j k, (j, k) ∈ pl_dedup st -> is_Some (R.1 !! k) /\ exists tx, txs !! j = Some tx /\ tx_idem tx = k) as Hds.
  { intros j k Hin. destruct (pg_dedup _ _ _ _ _ Hpl j k Hin) as [Htx [Hk|(w & Hw & <-)]]; (split; [|done]); [by apply Hold|].
    destruct (HWin w Hw) as [c Hc]. by apply (Hnew w c). }
  assert (forall j, (j < length txs)%nat -> filled R.2 j \/ exists k, (j, k) ∈ pl_dedup st) as Hcov.
  { intros j Hj. destruct (pg_cover _ _ _ _ _ Hpl j Hj) as [(w & Hw & <-)|]; [left|by right]. apply Hfill. right.
    destruct (HWin w Hw) as [c Hc]. by exists w, c. }
  destruct (finish_run b h txs R.1 (pl_dedup st) R.2 s3 Hds Hlen Hcov) as (rs & Hfin & _). exists rs. split; [done|].
  intros o Hkeys Hb Hres (Hc & Heq & Hdb & Hdel). set (evs := chain (h ++ o) (now_pg s2) (map fast_tx W)) in *.
  assert (Forall (fun tx => tx_book tx = b) (map fast_tx W)) as HbW.
  { rewrite HW, Forall_forall. rewrite Forall_forall in Hb. intros tx Htx. apply Hb. by apply (sublist_elem _ _ _ (news_sublist by_key txs 0%nat [])). }
  assert (right_keys b (h ++ o ++ evs) by_key) as Hrk by (intros k c Hk; by apply answer_app, Hkeys).
  destruct (record_answers_right b (h ++ o ++ evs) txs answers) with (by_key := by_key) (results := replicate (length txs) (@None (result Committed DbError))) as [Hk Hs].
  { intros w c Hin. split; [by eapply Hslot, HinW|]. rewrite Heq in Hin. apply list_elem_of_lookup in Hin as [k Hlk]. rewrite list_lookup_imap in Hlk.
    destruct (W !! k) as [w'|] eqn:Ew; [|done]. injection Hlk as -> <-. rewrite app_assoc. apply chain_answer; [done..|].
    by rewrite list_lookup_fmap, Ew. }
  { exact Hrk. }
  { apply right_empty. }
  destruct (run_news b by_key (now_pg s2) txs (h ++ o) 0%nat []) as (cs & Hrun & Hcs); [|done|done|by rewrite <- HW|].
  { intros k [[c Hk']|?%elem_of_nil]; [|done]. exists c. by apply answer_app, Hkeys. }
  rewrite <- HW in Hrun, Hcs. fold evs in Hrun, Hcs. rewrite <- app_assoc in Hcs.
  split; [|exact Hdel]. exists cs. split; [|done].
  destruct (finish_run b (h ++ o ++ evs) txs R.1 (pl_dedup st) R.2 s3 Hds Hlen Hcov) as (rs' & Hfin' & Hright).
  rewrite Hfin in Hfin'. injection Hfin' as <-. by apply Hright.
Qed.

Lemma fast_body_run h txs s :
  is_reserved b = false -> Forall (fun tx => tx_book tx = b) txs -> peers_ok s -> db_ok (durable s) h ->
  fast_result h txs s (fast_body txs s).
Proof.
  intros Hres Hb Hp Hdb. pose proof (fast_left h txs s) as Hleft. unfold fast_body, sq_bind at 1, tried at 1.
  pose proof (left_begin s) as L1. destruct (begin_cases s) as (Hb1 & Hbd & Hbp & Hbl & Hnow).
  destruct (pool_begin s) as [[u|e] s1]; cbn [snd] in *; [|by apply Hleft]. destruct Hb1 as (Htx1 & _ & Ha1 & Hv1).
  assert (peers_ok s1) as Hp1 by (unfold peers_ok; by rewrite Hbp). assert (db_ok (view s1) h) as Hdb1 by by rewrite Hv1.
  unfold sq_bind at 1. pose proof (prior_rows_run b (map tx_idem txs) s1 h Hp1 Hdb1) as Hpr.
  pose proof (left_alone_trans _ _ _ L1 (left_kept _ _ (kept_prior b (map tx_idem txs) s1))) as L2.
  destruct (prior_rows b _ s1) as [[by_key|e|] s2]; cbn [snd] in *; [|by apply Hleft|done]. destruct Hpr as (_ & He2 & Hkey).
  destruct (env_grown _ _ h Hp1 He2 Hdb1) as (o1 & Hdb2 & Hal1). pose proof (env_peers _ _ Hp1 He2) as Hp2. specialize (Hkey _ Hdb2).
  unfold sq_bind at 1. pose proof (left_alone_trans _ _ _ L2 (left_kept _ _ (kept_accounts (batch_keys txs) s2))) as L3.
  assert (no_panic (load_accounts (batch_keys txs)) s2) as Hnp by (apply np_bind; [apply np_tried|intros rows sx _; apply np_ret]).
  destruct (load_accounts (batch_keys txs) s2) as [[accounts|e|] s3] eqn:El; cbn [snd] in *; [|by apply Hleft|by unfold no_panic in Hnp; rewrite El in Hnp].
  apply load_accounts_Done in El as (_ & He3 & Hacc). destruct (env_grown _ _ _ Hp2 He3 Hdb2) as (o2 & Hdb3 & Hal2). pose proof (env_peers _ _ Hp2 He3) as Hp3.
  unfold sq_bind at 1. destruct (plan_drafts by_key accounts 0 txs empty_plan) as [st|] eqn:Epl; cbn [ok_or lift_db sq_ret]; [|by apply Hleft].
  assert (env s1 s3) as He13 by (etrans; [exact He2|exact He3]). set (h3 := (h ++ o1) ++ o2) in *.
  assert (forall tx p, tx ∈ txs -> p ∈ tx_postings tx -> accounts !! to_key (p_account p) = account_row_of h3 (to_key (p_account p))) as Hacc3.
  { intros tx p Htx Hpin. rewrite Hacc. apply loaded_spec; [done|]. by apply (batch_keys_elem txs tx). }
  destruct (plan_drafts_spec h3 by_key accounts txs txs 0 empty_plan st Hacc3 ltac:(done) (planning_empty _ _ _) Epl) as [Hpl HW]. cbn [empty_plan pl_writes pl_seen app Nat.add] in *.
  assert (map fast_tx (pl_writes st) `sublist_of` txs) as Hsub by (rewrite HW; apply news_sublist).
  assert (Forall (fun w => tx_book (fast_tx w) = b) (pl_writes st)) as HbW.
  { apply Forall_forall. intros w Hw. rewrite Forall_forall in Hb. apply Hb, (sublist_elem _ _ _ Hsub). by apply (list_elem_of_fmap_2 fast_tx). }
  pose proof (write_all_run h3 txs (pl_writes st) accounts (pl_agg st) by_key (replicate (length txs) None) s3 Hp3 Hdb3) as Hwr.
  specialize (Hwr ltac:(by rewrite (ev_txn _ _ He13)) (planning_planned _ _ _ _ _ _ Hpl Hsub Hacc3) HbW Hsub).
  assert (forall o, among s3 h3 o -> among s h (o1 ++ o2 ++ o)) as Hal.
  { intros o Ho. unfold h3 in Ho. apply (among_trans s2 _ _ _ _ (ev_peers _ _ He3) Hal2), (among_trans s1 _ _ _ _ (ev_peers _ _ He2) Hal1) in Ho.
    destruct Ho as [Ho (l & rest & Hl & Hdbl)]. split; [unfold alone; by rewrite <- Hbp|]. exists l, rest. by rewrite <- Hbp, <- Hbd. }
  assert (forall o evs, h3 ++ o ++ evs = h ++ (o1 ++ o2 ++ o) ++ evs) as Happ by (intros; unfold h3; by rewrite <- !app_assoc).
  assert (forall o, h3 ++ o = h ++ o1 ++ o2 ++ o) as Happ' by (intros; unfold h3; by rewrite <- !app_assoc).
  unfold sq_bind at 1. destruct (write_all _ _ _ _ _ s3) as [[R|e|] s4]; [| |done].
  - destruct Hwr as (Hp4 & answers & Hans & -> & o & Hao & Hw).
    destruct (finish_written h3 txs by_key st s3 s4 answers Hpl HW Hans) as (rs & Hfin & Hfo).
    destruct (record_answers answers by_key _) as [bk res]. cbn [fst snd] in Hfin. rewrite Hfin. split; [done|]. split; [done|]. split; [done|].
    exists (o1 ++ o2 ++ o). split; [by apply Hal|]. rewrite <- Happ'. intros Hr. specialize (Hw Hr).
    eexists. split; [rewrite <- Happ; by apply Hw|]. intros rs' [= <-].
    destruct (Hfo o) as [Hrun Hdel]; [|done..|].
    { intros k c Hk. rewrite Hkey in Hk. destruct (decide _); [|done]. unfold h3. by apply answer_app. }
    assert (now_pg s3 = now_pg s) as Hn by (by rewrite (env_now _ _ He13), Hnow). rewrite Hn in Hrun.
    split; [by rewrite Hn|]. cbn [fst snd]. by rewrite Hdel, (ev_delivered _ _ He13), Hbl.
  - destruct Hwr as (Hp4 & Hl4 & o & Hao & Hw). split; [done|]. split; [done|]. split; [intros _ Hf; exact (left_alone_trans _ _ _ L3 (Hl4 (la_faults _ _ L3 Hf)))|].
    exists (o1 ++ o2 ++ o). split; [by apply Hal|]. rewrite <- Happ'. intros Hr. destruct (Hw Hr) as [evs Hevs]. exists evs. rewrite <- Happ. by split.
Qed.
End body.
End fast.
