(* ===== verification/PgBatchSpec.v ===== *)
(** [commit_batch] of the PostgreSQL store (talea-store-postgres/src/lib.rs and
    batch.rs): the fast path with its fallback, against the reference that
    commits the drafts one after the other in savepoints; and a database used by
    any number of stores, the operations as steps on its tables and what every
    run of them keeps. *)

From S2P Require Import Prelude Decimal Core Disk Sql Sqlite SqliteSpec SqliteCommit SqliteHistory SqliteBatch SqlSubscribe Pg.
From S2P Require Import Postgres PgSpec PgCommit PgHistory PgDefs PgDrafts PgBatch PgPlan PgFast PgAnswers PgFastRun.
Open Scope Z_scope.

(** ** Up to the times of commit *)

Definition undated_event (r : EventRow) : EventRow := mkEventRow (ev_book r) (ev_seq r) 0 (ev_kind r) (ev_payload r).
Definition undated_transaction (r : TransactionRow) : TransactionRow :=
  mkTransactionRow (tr_tx_id r) (tr_book r) (tr_seq r) (tr_idempotency_key r) (tr_occurred_at r) 0 (tr_metadata r) (tr_external_refs r).
Definition undated_posting (r : PostingRow) : PostingRow :=
  mkPostingRow (po_tx_id r) (po_idx r) (po_account_key r) (po_asset r) (po_minor r) (po_direction r) (po_book r) (po_seq r) 0.

(** Tables without the columns the clock fills. *)
Definition undated (t : Tables) : Tables :=
  mkTables (t_assets t) (t_accounts t) (t_books t) (map undated_event (t_events t)) (map undated_transaction (t_transactions t))
    (map undated_posting (t_postings t)) (t_balances t).

Definition undated_committed (c : Committed) : Committed := mkCommitted (c_txid c) (c_seq c) 0.

(** The answers agree in all but the time of commit; errors are the same. *)
Definition undated_answer {E} (r : result Committed E) : result Committed E :=
  match r with Ok c => Ok (undated_committed c) | Err e => Err e end.

Section times.
Context `{HashIter} `{UuidText} `{Json LedgerEvent} `{Json (list ExternalRef)}.

Definition same_txn (x x' : Txn) : Prop := undated <$> x_work x = undated <$> x_work x' /\ x_queue x = x_queue x'.

(** Sessions nothing disturbs, whose tables agree up to those times; their
    clocks are any. *)
Record same_session (s s' : Session) : Prop := {
  ss_durable : undated (durable s) = undated (durable s');
  ss_txn : same_txn (txn s) (txn s');
  ss_spots : Forall2 (fun p p' => p.1 = p'.1 /\ same_txn p.2 p'.2) (spots s) (spots s');
  ss_aborted : aborted s = aborted s';
  ss_calm : faults s = [] /\ faults s' = [] /\ peers s = [] /\ peers s' = []
}.

Definition same_outcome {A A'} (R : A -> A' -> Prop) (o : outcome A) (o' : outcome A') : Prop :=
  match o, o' with Done a, Done a' => R a a' | Fail e, Fail e' => e = e' | Panicked, Panicked => True | _, _ => False end.

Definition sim {A A'} (R : A -> A' -> Prop) (m : pg A) (m' : pg A') : Prop :=
  forall s s', same_session s s' -> same_outcome R (m s).1 (m' s').1 /\ same_session (m s).2 (m' s').2.

Lemma sim_ret {A A'} (R : A -> A' -> Prop) a a' : R a a' -> sim R (sq_ret a) (sq_ret a').
Proof. by intros HR s s' Hs. Qed.
Lemma sim_fail {A A'} (R : A -> A' -> Prop) e : sim R (sq_fail e) (sq_fail e).
Proof. by intros s s' Hs. Qed.
Lemma sim_panic {A A'} (R : A -> A' -> Prop) : sim R sq_panic sq_panic.
Proof. by intros s s' Hs. Qed.
Lemma sim_bind {A A' B B'} (R : A -> A' -> Prop) (Q : B -> B' -> Prop) m m' k k' :
  sim R m m' -> (forall a a', R a a' -> sim Q (k a) (k' a')) -> sim Q (sq_bind m k) (sq_bind m' k').
Proof.
  intros Hm Hk s s' Hs. unfold sq_bind. specialize (Hm s s' Hs). destruct (m s) as [[a|e|] s1], (m' s') as [[a'|e'|] s1']; cbn in *;
    try (by destruct Hm); destruct Hm as [HR Hs1]; by apply Hk.
Qed.
Lemma sim_try {A A'} (R : A -> A' -> Prop) m m' :
  sim R m m' -> sim (fun r r' => match r, r' with Ok a, Ok a' => R a a' | Err e, Err e' => e = e' | _, _ => False end) (sq_try m) (sq_try m').
Proof.
  intros Hm s s' Hs. unfold sq_try. specialize (Hm s s' Hs). destruct (m s) as [[a|e|] s1], (m' s') as [[a'|e'|] s1']; cbn in *; by destruct Hm.
Qed.
Lemma sim_lift_std {A} (r : result A string) : sim eq (lift_std r) (lift_std r).
Proof. destruct r; [by apply sim_ret|apply sim_fail]. Qed.
Lemma sim_lift_db {A} (r : result A DbError) : sim eq (lift_db r) (lift_db r).
Proof. destruct r; [by apply sim_ret|apply sim_fail]. Qed.
Lemma sim_clock : sim (fun _ _ => True) clock_timestamp clock_timestamp.
Proof. intros s s' []. by split. Qed.

Definition simc {A A'} (R : A -> A' -> Prop) (c : Session -> result A SqlxError * Session) (c' : Session -> result A' SqlxError * Session) : Prop :=
  forall s s', same_session s s' -> match c s, c' s' with
    | (Ok a, s1), (Ok a', s1') => R a a' /\ same_session s1 s1'
    | (Err e, s1), (Err e', s1') => e = e' /\ same_session s1 s1'
    | _, _ => False
    end.

Lemma sim_tried {A A'} (R : A -> A' -> Prop) c c' : simc R c c' -> sim R (tried c) (tried c').
Proof.
  intros Hc s s' Hs. unfold tried. specialize (Hc s s' Hs). destruct (c s) as [[a|e] s1], (c' s') as [[a'|e'] s1']; try done.
  by destruct Hc as [-> ?].
Qed.

Lemma same_view s s' : same_session s s' -> undated (view s) = undated (view s').
Proof.
  intros [Hd [Hw _] _ _ _]. unfold view. destruct (x_work (txn s)), (x_work (txn s')); cbn in *; congruence.
Qed.

Lemma same_set_aborted b s s' : same_session s s' -> same_session (set_aborted b s) (set_aborted b s').
Proof. by intros []. Qed.

Lemma sim_statement {A A'} (R : A -> A' -> Prop) run run' :
  (forall s s', same_session s s' -> match run s, run' s' with
    | Ok (a, s1), Ok (a', s1') => R a a' /\ same_session s1 s1' | Err e, Err e' => e = e' | _, _ => False end) ->
  simc R (statement run) (statement run').
Proof.
  intros Hr s s' Hs. unfold statement, contact. destruct (ss_calm _ _ Hs) as (-> & -> & Hp & Hp').
  rewrite (ss_aborted _ _ Hs). destruct (aborted s'); [done|].
  assert (interleave s = s /\ interleave s' = s') as [-> ->].
  { unfold interleave, peer_commits. rewrite Hp, Hp'. by destruct (x_work (txn s)), (x_work (txn s')). }
  specialize (Hr s s' Hs). destruct (run s) as [[a s1]|e], (run' s') as [[a' s1']|e']; try done. subst. split; [done|]. by apply same_set_aborted.
Qed.

Lemma sim_fetch {A A'} (R : A -> A' -> Prop) q q' :
  (forall t t', undated t = undated t' -> R (q t) (q' t')) -> sim R (fetch q) (fetch q').
Proof. intros Hq. apply sim_tried, sim_statement. intros s s' Hs. split; [by apply Hq, same_view|done]. Qed.

Lemma sim_modify {A A'} (R : A -> A' -> Prop) q q' :
  (forall t t', undated t = undated t' -> match q t, q' t' with
    | Ok (a, t1), Ok (a', t1') => R a a' /\ undated t1 = undated t1' | Err e, Err e' => e = e' | _, _ => False end) ->
  sim R (modify q) (modify q').
Proof.
  intros Hq. apply sim_tried, sim_statement. intros s s' Hs. unfold write_tables. specialize (Hq _ _ (same_view _ _ Hs)).
  destruct (q (view s)) as [[a t1]|e], (q' (view s')) as [[a' t1']|e']; try done. destruct Hq as [HR Ht]. split; [done|].
  destruct Hs as [? [_ Hqu] ? ? ?]. split; try done. split; cbn; [by rewrite Ht|done].
Qed.

Lemma sim_notify b q : sim eq (notify b q) (notify b q).
Proof.
  apply sim_tried, sim_statement. intros s s' Hs. destruct (_ <=? _)%nat; [done|]. split; [done|].
  destruct Hs as [? [Hw Hq] ? ? ?]. split; try done. split; cbn; [done|by rewrite Hq].
Qed.

(** *** The statements of a draft *)

Lemma sim_claim b n : sim (fun p p' => p.1 = p'.1) (claim_seqs b n) (claim_seqs b n).
Proof.
  unfold claim_seqs. eapply (sim_bind eq).
  - apply sim_modify. intros t t' Ht. pose proof (f_equal t_books Ht) as Hb. cbn in Hb. rewrite Hb. destruct (to_bigint _) as [c|e]; cbn; [|done].
    split; [done|]. unfold undated in *. cbn. injection Ht as -> -> _ -> -> -> ->. done.
  - intros q ? <-. eapply sim_bind; [apply sim_clock|]. intros a a' _. by apply sim_ret.
Qed.

Lemma insert_rows_map {R} (f : R -> R) clash cn rows old : (forall a b, clash (f a) (f b) = clash a b) ->
  insert_rows clash cn (map f rows) (map f old) = match insert_rows clash cn rows old with Ok l => Ok (map f l) | Err e => Err e end.
Proof.
  intros Hf. revert old. induction rows as [|r rows IH]; intros old; cbn [insert_rows map]; [done|].
  assert (existsb (clash (f r)) (map f old) = existsb (clash r) old) as ->.
  { clear IH. induction old as [|o old IHo]; cbn; [done|]. by rewrite Hf, IHo. }
  destruct (existsb _ old); [done|]. rewrite <- IH. by rewrite map_app.
Qed.

Lemma insert_rows_same {R} (f : R -> R) clash cn rows rows' old old' : (forall a b, clash (f a) (f b) = clash a b) ->
  map f rows = map f rows' -> map f old = map f old' ->
  match insert_rows clash cn rows old, insert_rows clash cn rows' old' with
  | Ok l, Ok l' => map f l = map f l' | Err e, Err e' => e = e' | _, _ => False end.
Proof.
  intros Hf Hr Ho. pose proof (insert_rows_map f clash cn rows old Hf) as H1'. pose proof (insert_rows_map f clash cn rows' old' Hf) as H2'.
  rewrite Hr, Ho, H2' in H1'. destruct (insert_rows _ _ rows old), (insert_rows _ _ rows' old'); congruence.
Qed.

Lemma sim_insert_transactions rows rows' : map undated_transaction rows = map undated_transaction rows' ->
  sim eq (modify (insert_transactions rows)) (modify (insert_transactions rows')).
Proof.
  intros Hr. apply sim_modify. intros t t' Ht. unfold insert_transactions.
  pose proof (insert_rows_same undated_transaction transaction_pk "transactions_pkey, transactions_book_idempotency_key_key" rows rows'
    (t_transactions t) (t_transactions t') ltac:(done) Hr (f_equal t_transactions Ht)) as Hi.
  destruct (insert_rows _ _ rows _) as [l|e], (insert_rows _ _ rows' _) as [l'|e']; try done. cbn. split; [done|].
  unfold undated in *. cbn. rewrite Hi. injection Ht as -> -> -> -> _ -> ->. done.
Qed.

Lemma sim_insert_events rows rows' : map undated_event rows = map undated_event rows' ->
  sim eq (modify (insert_events rows)) (modify (insert_events rows')).
Proof.
  intros Hr. apply sim_modify. intros t t' Ht. unfold insert_events.
  pose proof (insert_rows_same undated_event event_clash "events_pkey" rows rows' (t_events t) (t_events t') ltac:(done) Hr (f_equal t_events Ht)) as Hi.
  destruct (insert_rows _ _ rows _) as [l|e], (insert_rows _ _ rows' _) as [l'|e']; try done. cbn. split; [done|].
  unfold undated in *. cbn. rewrite Hi. injection Ht as -> -> -> _ -> -> ->. done.
Qed.

Lemma forallb_map_same {A} (f : A -> A) (P Q : A -> bool) l l' : map f l = map f l' ->
  (forall a, P a = P (f a)) -> (forall a, Q a = Q (f a)) -> (forall a, P a = Q a) -> forallb P l = forallb Q l'.
Proof.
  intros Hm HP HQ Hpq. revert l' Hm. induction l as [|a l IH]; intros [|a' l'] Hm; try done. cbn in *. injection Hm as Ha Hm.
  rewrite (IH _ Hm). f_equal. by rewrite HP, Ha, Hpq, <- HQ.
Qed.

Lemma sim_insert_postings rows rows' : map undated_posting rows = map undated_posting rows' ->
  sim eq (modify (insert_postings rows)) (modify (insert_postings rows')).
Proof.
  intros Hr. apply sim_modify. intros t t' Ht. unfold insert_postings.
  pose proof (insert_rows_same undated_posting posting_pk "postings_pkey" rows rows' (t_postings t) (t_postings t') ltac:(done) Hr (f_equal t_postings Ht)) as Hi.
  destruct (insert_rows _ _ rows _) as [l|e], (insert_rows _ _ rows' _) as [l'|e']; try done. cbn.
  assert (forall (l l' : list TransactionRow) id, map undated_transaction l = map undated_transaction l' ->
    existsb (fun x => String.eqb (tr_tx_id x) id) l = existsb (fun x => String.eqb (tr_tx_id x) id) l') as Hex.
  { clear. intros l. induction l as [|a l IH]; intros [|a' l'] id Hm; try done. cbn in *. injection Hm as Hid _ _ _ _ _ _ Hm.
    by rewrite Hid, (IH l' id Hm). }
  rewrite (forallb_map_same undated_posting _ (fun r => bool_decide (is_Some (t_accounts t' !! po_account_key r)) &&
    existsb (fun x => String.eqb (tr_tx_id x) (po_tx_id r)) (t_transactions t')) rows rows' Hr); [|done|done|].
  - destruct (forallb _ rows'); [|done]. split; [done|]. unfold undated in *. cbn. rewrite Hi. injection Ht as -> -> -> -> -> _ ->. done.
  - intros a. pose proof (f_equal t_accounts Ht) as Ha. cbn in Ha. rewrite Ha. f_equal. apply Hex. exact (f_equal t_transactions Ht).
Qed.

Lemma sim_upsert ds : sim eq (modify (upsert_balances ds)) (modify (upsert_balances ds)).
Proof.
  apply sim_modify. intros t t' Ht. unfold upsert_balances.
  pose proof (f_equal t_balances Ht) as Hb. pose proof (f_equal t_accounts Ht) as Ha. cbn in Hb, Ha. rewrite Hb, Ha.
  destruct (negb _); [done|]. destruct (upsert_rows ds _) as [[rows b]|e]; cbn; [|done]. destruct (forallb _ ds); [|done]. split; [done|].
  unfold undated in *. cbn. injection Ht as -> -> -> -> -> -> _. done.
Qed.

Definition same_committed (c c' : Committed) : Prop := undated_committed c = undated_committed c'.

Lemma find_same (P : TransactionRow -> bool) l l' : (forall r, P (undated_transaction r) = P r) ->
  map undated_transaction l = map undated_transaction l' -> undated_transaction <$> List.find P l = undated_transaction <$> List.find P l'.
Proof.
  intros HP. revert l'. induction l as [|a l IH]; intros [|a' l'] Hm; try done. cbn [map] in Hm.
  assert (undated_transaction a = undated_transaction a') as E by exact (f_equal (fun l => default (undated_transaction a) (head l)) Hm).
  apply (f_equal tail) in Hm. cbn in Hm |- *. rewrite <- (HP a), <- (HP a').
  rewrite E. destruct (P _); cbn; [by rewrite E|by apply IH].
Qed.

Lemma sim_find b k : sim (fun o o' => undated_committed <$> o = undated_committed <$> o') (find_committed b k) (find_committed b k).
Proof.
  unfold find_committed. eapply (sim_bind (fun r r' => undated_transaction <$> r = undated_transaction <$> r')).
  - apply sim_fetch. intros t t' Ht. apply find_same; [done|]. exact (f_equal t_transactions Ht).
  - intros [r|] [r'|] Hr; try done. cbn in Hr. unfold undated_transaction in Hr. injection Hr as Hid _ Hseq _ _ _ _.
    eapply (sim_bind same_committed).
    + unfold committed_row. rewrite Hid. eapply (sim_bind eq).
      * unfold get_row. destruct (parse_uuid _); [by apply sim_ret|apply sim_panic].
      * intros x ? <-. apply sim_ret. unfold same_committed, undated_committed. cbn. by rewrite Hseq.
    + intros c c' Hc. apply sim_ret. cbn. by rewrite Hc.
Qed.

Lemma sim_load tx : sim eq (load_pending tx) (load_pending tx).
Proof.
  unfold load_pending, load_accounts. eapply (sim_bind eq).
  - eapply (sim_bind eq); [|intros x ? <-; by apply sim_ret]. apply sim_fetch. intros t t' Ht. pose proof (f_equal t_accounts Ht) as Ha.
    cbn in Ha. by rewrite Ha.
  - intros accounts ? <-. apply sim_lift_db.
Qed.

Lemma sim_write tx l : sim same_committed (write_transaction tx l) (write_transaction tx l).
Proof.
  unfold write_transaction, next_seq. eapply sim_bind; [apply sim_claim|]. intros [q a] [q' a'] Hq. cbn in Hq. subst q'.
  eapply sim_bind; [apply sim_upsert|]. intros rows ? <-. eapply sim_bind; [apply sim_lift_db|]. intros u ? <-.
  eapply sim_bind; [apply sim_lift_std|]. intros refs ? <-. eapply sim_bind; [by apply sim_insert_transactions|]. intros u1 ? <-.
  eapply sim_bind.
  { apply sim_insert_postings. change (map undated_posting) with (fmap (M := list) undated_posting). rewrite !fmap_imap. by apply imap_ext. }
  intros u2 ? <-. eapply sim_bind.
  { unfold insert_event. eapply sim_bind; [apply sim_lift_std|]. intros pl ? <-. by apply sim_insert_events. }
  intros u3 ? <-. eapply sim_bind; [apply sim_notify|]. intros u4 ? <-. by apply sim_ret.
Qed.

Lemma sim_draft tx : sim same_committed (commit_draft tx) (commit_draft tx).
Proof.
  unfold commit_draft. eapply sim_bind; [apply sim_find|]. intros [c|] [c'|] Hc; try done.
  - apply sim_ret. cbn in Hc. unfold same_committed. congruence.
  - eapply sim_bind; [apply sim_load|]. intros l ? <-. apply sim_write.
Qed.

(** *** Savepoints *)

Lemma simc_savepoint i : simc eq (pg_savepoint i) (pg_savepoint i).
Proof. apply sim_statement. intros s s' []. split; [done|]. split; try done. by constructor. Qed.

Lemma spot_same i l l' : Forall2 (fun p p' => p.1 = p'.1 /\ same_txn p.2 p'.2) l l' ->
  match spot_of i l, spot_of i l' with
  | Some (x, r), Some (x', r') => same_txn x x' /\ Forall2 (fun p p' => p.1 = p'.1 /\ same_txn p.2 p'.2) r r'
  | None, None => True
  | _, _ => False
  end.
Proof.
  induction 1 as [|[j x] [j' x'] l l' [Hj Hx] Hl IH]; cbn in *; [done|]. subst j'. by destruct (j =? i)%nat.
Qed.

Lemma simc_release i : simc eq (pg_release i) (pg_release i).
Proof.
  apply sim_statement. intros s s' [Hd Ht Hs Ha Hc]. pose proof (spot_same i _ _ Hs) as Hsp.
  destruct (spot_of i (spots s)) as [[x l]|], (spot_of i (spots s')) as [[x' l']|]; try done. destruct Hsp. by split.
Qed.

Lemma simc_undo i : simc eq (undo i) (undo i).
Proof.
  intros s s' Hss. unfold undo, pg_rollback_to, contact. destruct (ss_calm _ _ Hss) as (-> & -> & _).
  pose proof (spot_same i _ _ (ss_spots _ _ Hss)) as Hsp.
  destruct (spot_of i (spots s)) as [[x l]|], (spot_of i (spots s')) as [[x' l']|]; try done; [|by split; [|apply same_set_aborted]].
  destruct Hsp as [Hx Hl]. apply simc_release. destruct Hss. split; try done. by constructor.
Qed.

Lemma sim_in_savepoint i tx : sim same_committed (commit_in_savepoint i tx) (commit_in_savepoint i tx).
Proof.
  unfold commit_in_savepoint. destruct (is_reserved _); [apply sim_fail|]. eapply sim_bind; [apply sim_tried, simc_savepoint|]. intros u ? <-.
  eapply sim_bind; [apply sim_try, sim_draft|]. intros [c|e] [c'|e'] Hr; try done.
  - eapply sim_bind; [apply sim_tried, simc_release|]. intros u' ? <-. by apply sim_ret.
  - subst e'. intros s s' Hs. pose proof (simc_undo i s s' Hs) as Hu. destruct (undo i s) as [[u1|e1] s1], (undo i s') as [[u1'|e1'] s1']; try done.
    + destruct Hu as [_ Hs1]. destruct (is_unique_violation e); [|done].
      revert s1 s1' Hs1. change (sim same_committed (let& prior := find_committed (tx_book tx) (tx_idem tx) in match prior with Some prior => sq_ret prior | None => sq_fail e end)
        (let& prior := find_committed (tx_book tx) (tx_idem tx) in match prior with Some prior => sq_ret prior | None => sq_fail e end)).
      eapply sim_bind; [apply sim_find|]. intros [c|] [c'|] Hc; try done. apply sim_ret. cbn in Hc. unfold same_committed. congruence.
    + by destruct Hu as [-> ?].
Qed.

Lemma sim_drafts txs : forall i, sim (fun rs rs' => map undated_answer rs = map undated_answer rs') (commit_drafts i txs) (commit_drafts i txs).
Proof.
  induction txs as [|tx txs IH]; intros i; cbn [commit_drafts]; [by apply sim_ret|].
  eapply sim_bind; [apply sim_try, sim_in_savepoint|]. intros r r' Hr. eapply sim_bind; [apply IH|]. intros rs rs' Hrs.
  apply sim_ret. cbn [map]. rewrite Hrs. f_equal. destruct r, r'; try done; cbn; congruence.
Qed.

(** The loop over savepoints does the same on two sessions that nothing
    disturbs, over the same tables, whatever their clocks show. *)
Lemma per_draft_same txs s s' rs rs' s1 s1' :
  undated (durable s) = undated (durable s') -> faults s = [] -> peers s = [] -> faults s' = [] -> peers s' = [] ->
  commit_batch_per_draft txs s = (Done rs, s1) -> commit_batch_per_draft txs s' = (Done rs', s1') ->
  map undated_answer rs = map undated_answer rs' /\ undated (durable s1) = undated (durable s1').
Proof.
  intros Hd Hf Hp Hf' Hp'. destruct txs as [|tx txs]; [by intros [= <- <-] [= <- <-]|].
  cbv beta iota delta [commit_batch_per_draft]. unfold pool_begin, contact. rewrite Hf, Hf'.
  set (s0 := set_aborted _ _). set (s0' := set_aborted _ (set_spots _ (set_txn _ s'))).
  assert (same_session s0 s0') as Hs0 by (split; try done; by constructor).
  destruct (sim_drafts (tx :: txs) 0%nat s0 s0' Hs0) as [Ho Hs2]. unfold sq_bind.
  destruct (commit_drafts 0 _ s0) as [[l|e|] s2], (commit_drafts 0 _ s0') as [[l'|e'|] s2']; try done; cbn [fst snd same_outcome] in *.
  destruct Hs2 as [Hd2 Ht2 Hsp2 Ha2 (Hf2 & Hf2' & Hp2 & Hp2')]. assert (undated (view s2) = undated (view s2')) as Hv by (by apply same_view).
  unfold pg_commit, contact. rewrite Hf2, Hf2', Ha2. intros [= <- <-] [= <- <-]. split; [done|]. by destruct (aborted s2').
Qed.
End times.

Section batch.
Context `{HashIterLaws} `{UuidTextLaws} `{Json LedgerEvent} `{Json (list ExternalRef)}.

(** ** The fast path *)

Lemma batch_fast_eq tx txs s : batch_fast (tx :: txs) s =
  (if is_reserved (tx_book tx) || existsb (fun t => negb (String.eqb (tx_book t) (tx_book tx))) (tx :: txs)
   then sq_fail aborted_fast else fast_body (tx_book tx) (tx :: txs)) s.
Proof.
  unfold batch_fast. destruct (_ || _); [done|]. unfold fast_body, sq_bind. destruct (tried pool_begin s) as [[u|e|] s1]; [|done..].
  destruct (prior_rows _ _ s1) as [[by_key|e|] s2]; [|done..]. change (dedup _) with (batch_keys (tx :: txs)).
  destruct (load_accounts _ s2) as [[accounts|e|] s3]; [|done..]. change (mkPlan [] [] [] ∅) with empty_plan.
  destruct (lift_db _ s3) as [[plan|e|] s4]; [|done..]. by destruct (pl_writes plan).
Qed.

Lemma batch_fast_run h txs s : txs <> [] -> peers_ok s -> db_ok (durable s) h -> fast_result h txs s (batch_fast txs s).
Proof.
  intros Hne Hp Hdb. destruct txs as [|tx0 txs0] eqn:E; [done|]. rewrite <- E in *.
  rewrite E, batch_fast_eq, <- E.
  destruct (is_reserved (tx_book tx0)) eqn:Eres; cbn [orb]; [by apply fast_left, left_kept|].
  destruct (existsb _ txs) eqn:Eb; [by apply fast_left, left_kept|]. apply fast_body_run; [done| |done..].
  apply Forall_forall. intros tx Htx. destruct (String.eqb_spec (tx_book tx) (tx_book tx0)) as [|Hno]; [done|]. exfalso.
  apply not_true_iff_false in Eb. apply Eb, existsb_exists. exists tx. split; [by apply list_elem_of_In|].
  by destruct (String.eqb_spec (tx_book tx) (tx_book tx0)).
Qed.

(** ** Beside other sessions, with failing statements *)

(** The attempt was abandoned, and COMMIT came to an aborted transaction in the
    loop that follows. *)
Definition batch_aborted (txs : list Transaction) (s : Session) : Prop :=
  exists s1, try_commit_batch_fast txs s = (Done None, s1) /\ commit_aborted txs s1.

Lemma commit_batch_eq txs s : txs <> [] ->
  commit_batch txs s = (let& fast := try_commit_batch_fast txs in
    match fast with Some results => sq_ret results | None => commit_batch_per_draft txs end) s.
Proof.
  intros Hne. destruct txs as [|tx txs]; [done|]. unfold commit_batch, commit_batch_traced, sq_bind.
  destruct (try_commit_batch_fast _ s) as [[[rs|]|e|] s1]; [done| |done..]. by destruct (commit_batch_per_draft _ s1) as [[]].
Qed.

Lemma run_length P h txs os evs : run_spec P h txs os evs -> length os = length txs.
Proof. induction 1; cbn; congruence. Qed.

Lemma run_on_record P h txs os evs : run_spec P h txs os evs -> forall i tx c, txs !! i = Some tx -> os !! i = Some (Some c) ->
  exists e, prior (h ++ evs) (tx_book tx) (tx_idem tx) = Some e /\ committed_of e = Some c.
Proof.
  induction 1 as [h|h tx0 txs os evs Hres _ IH|h tx0 txs o os at_ evs evs' Hres _ Hd _ IH]; intros [|i] tx c Htx Ho; try done.
  - by apply (IH i).
  - injection Htx as ->. injection Ho as ->. destruct (draft_on_record _ _ _ _ _ _ Hd) as (e & He & Hc). exists e. by rewrite app_assoc, prior_app, He.
  - rewrite app_assoc. by apply (IH i).
Qed.

Lemma commit_batch_run h txs s :
  peers_ok s -> db_ok (durable s) h ->
  exists others, among s h others /\ (roomy (h ++ others) txs -> exists evs,
    db_ok (durable (commit_batch txs s).2) (h ++ others ++ evs) /\
    match (commit_batch txs s).1 with
    | Done rs => length rs = length txs /\ (batch_aborted txs s \/ on_record (h ++ others ++ evs) txs rs)
    | Fail _ => True
    | Panicked => True
    end).
Proof.
  intros Hp Hdb. destruct txs as [|tx0 txs0] eqn:E.
  { exists []. split; [by apply (among_here s s); [exists []|done|rewrite app_nil_r]|]. intros _. exists []. rewrite !app_nil_r. split; [done|]. split; [done|]. right. by intros i tx c. }
  rewrite <- E in *. assert (txs <> []) as Hne by by rewrite E.
  rewrite (commit_batch_eq txs s Hne).
  pose proof (batch_fast_run h txs s Hne Hp Hdb) as (Hnp & Hp1 & _ & o & Hal & Hrun). unfold batch_aborted, try_commit_batch_fast, sq_bind.
  exists o. split; [done|]. intros Hr. destruct (Hrun Hr) as (evs & Hdb1 & Hdone). clear Hrun.
  destruct (batch_fast txs s) as [[rs|e|] s1] eqn:Ef; cbn [fst snd] in *; [| |done].
  - destruct (fo_run _ _ _ _ _ _ (Hdone rs eq_refl)) as (cs & -> & Hspec). exists evs. split; [done|]. split.
    + apply run_length in Hspec. by rewrite length_map in *.
    + right. intros i tx c Htx Hc. rewrite app_assoc. apply (run_on_record _ _ _ _ _ Hspec i); [done|].
      rewrite list_lookup_fmap in Hc. rewrite list_lookup_fmap. destruct (cs !! i); [|done]. cbn in *. congruence.
  - destruct (per_draft_run _ txs s1 Hp1 Hdb1) as (evs' & Hdb2 & Hres). exists (evs ++ evs').
    assert (h ++ o ++ evs ++ evs' = (h ++ o ++ evs) ++ evs') as -> by by rewrite <- !app_assoc.
    destruct (commit_batch_per_draft txs s1) as [[rs|e'|] s2]; cbn [fst snd] in *; (split; [done|]); [|done..].
    destruct Hres as [Hlen [Hab|Hon]]; (split; [done|]); [left|by right]. by exists s1.
Qed.

(** C11: A batch beside other sessions, whatever fails, when its accounts have room
    for it whatever the others have committed by then: what is durable is the history
    with events appended, by the others and by the batch; every answer that reports a
    success is on record there, unless the loop over savepoints brought COMMIT to
    an aborted transaction. *)
Theorem pg_batch_atomic h txs s :
  peers_ok s -> db_ok (durable s) h -> has_room s txs ->
  exists others evs, alone s others /\ db_ok (durable (commit_batch txs s).2) (h ++ others ++ evs) /\
    match (commit_batch txs s).1 with
    | Done rs => length rs = length txs /\ (batch_aborted txs s \/ on_record (h ++ others ++ evs) txs rs)
    | _ => True
    end.
Proof.
  intros Hp Hdb Hr. destruct (commit_batch_run h txs s Hp Hdb) as (others & Hal & Hrun).
  destruct (Hrun (among_room _ _ _ _ Hal Hr)) as (evs & Hdb' & Hres). exists others, evs. split; [apply Hal|]. split; [done|].
  by destruct (commit_batch txs s).1.
Qed.

(** ** Undisturbed: the fast path is the reference *)

Lemma run_spec_mono (P Q : DateTime -> Prop) h txs os evs : (forall a, P a -> Q a) -> run_spec P h txs os evs -> run_spec Q h txs os evs.
Proof. intros HPQ. induction 1; [constructor|by constructor|econstructor; eauto]. Qed.

(** The clock shows one time. *)
Definition frozen (s : Session) : Prop := forall k, wall s k = wall s 0%nat.

Lemma per_draft_frozen h txs s : faults s = [] -> peers s = [] -> frozen s -> txs <> [] -> db_ok (durable s) h ->
  exists rs s' evs, commit_batch_per_draft txs s = (Done rs, s') /\ db_ok (durable s') (h ++ evs) /\
    delivered s' = delivered s ++ map note_of evs /\ run_spec (eq (wall s 0%nat / 1000 * 1000)) h txs (map ok_of rs) evs.
Proof.
  intros Hf Hp Hw Hne Hdb. assert (commit_batch_per_draft txs s = commit_batch_per_draft txs (set_aborted false s)) as ->.
  { destruct txs; [done|]. cbv beta iota delta [commit_batch_per_draft]. unfold pool_begin, contact. rewrite Hf. cbn. by rewrite Hf. }
  destruct (per_draft_calm h txs (set_aborted false s)) as (rs & s' & evs & Hrun & Hdb' & Hdel & Hspec); [by split|done|].
  exists rs, s', evs. split_and!; [done..|]. revert Hspec. apply run_spec_mono. intros a [k ->]. cbn. by rewrite (Hw k).
Qed.

Lemma batch_fast_calm h txs s : calm s -> txs <> [] -> db_ok (durable s) h -> roomy h txs ->
  match batch_fast txs s with
  | (Done rs, s') => exists cs evs, rs = map Ok cs /\ run_spec (eq (now_pg s)) h txs (map Some cs) evs /\
      db_ok (durable s') (h ++ evs) /\ delivered s' = delivered s ++ map note_of (option_list (last evs))
  | (Fail _, s') => faults s' = [] /\ peers s' = [] /\ wall s' = wall s /\ durable s' = durable s /\ delivered s' = delivered s
  | (Panicked, _) => False
  end.
Proof.
  intros Hs Hne Hdb Hr. assert (peers_ok s) as Hp by (unfold peers_ok; by rewrite (cm_peers _ Hs)).
  destruct (batch_fast_run h txs s Hne Hp Hdb) as (Hnp & _ & Hfail & o & [Hal _] & Hrun). rewrite (Hal (cm_peers _ Hs)), app_nil_r in Hrun. specialize (Hrun Hr).
  destruct (batch_fast txs s) as [[rs|e|] s'] eqn:Ef; cbn [fst snd] in *; [| |done].
  - destruct Hrun as (evs & Hdb' & Hok). destruct (Hok rs eq_refl) as [(cs & -> & Hspec) Hdel]. by exists cs, evs.
  - destruct (Hfail eq_refl (cm_faults _ Hs)) as [(l & Hl & Hd) Hdel Hwall Hfa]. rewrite (cm_peers _ Hs) in Hl. symmetry in Hl. apply app_nil in Hl as [-> Hp'].
    cbn in Hd. split_and!; try done. by apply Hfa, Hs.
Qed.

(** The session at a clock that stopped. *)
Definition stopped (s : Session) : Session :=
  mkSession (durable s) (txn s) (spots s) (aborted s) (faults s) (peers s) (fun _ => wall s (reads_of_wall s)) (reads_of_wall s) (delivered s).

Lemma answers_all_ok (rs : list (result Committed DbError)) cs : map ok_of rs = map Some cs -> rs = map Ok cs.
Proof. revert cs. induction rs as [|[c|e] rs IH]; intros [|c' cs] Hm; try done. cbn in *. injection Hm as -> Hm. f_equal. by apply IH. Qed.

Lemma undated_ok_eq (rs rs' : list (result Committed DbError)) :
  map undated_answer rs = map undated_answer rs' -> map ok_of rs = map ok_of rs' -> rs = rs'.
Proof.
  revert rs'. induction rs as [|r rs IH]; intros [|r' rs'] Hu Ho; try done. cbn in *.
  apply (f_equal (fun l => (head l, tail l))) in Hu, Ho. cbn in Hu, Ho. injection Hu as Hr Hu. injection Ho as Hr' Ho. f_equal; [|by apply IH].
  destruct r, r'; cbn in *; congruence.
Qed.

(** C9: On a session nothing disturbs, with room for the batch, the fast path with
    its fallback answers what the loop over savepoints answers, error for
    error, and leaves the same tables, up to the times of commit, which the fast
    path reads off the clock once and the loop once per draft; under a clock that
    shows one time they agree in the times too. *)
Theorem pg_batch_is_per_draft h txs s :
  calm s -> db_ok (durable s) h -> roomy h txs ->
  exists rs s1 rs' s2, commit_batch txs s = (Done rs, s1) /\ commit_batch_per_draft txs s = (Done rs', s2) /\
    map undated_answer rs = map undated_answer rs' /\ undated (durable s1) = undated (durable s2) /\
    (frozen s -> rs = rs' /\ durable s1 = durable s2).
Proof.
  intros Hs Hdb Hr. destruct txs as [|tx0 txs0] eqn:E; [by exists [], s, [], s|]. rewrite <- E in *. assert (txs <> []) as Hne by by rewrite E.
  pose proof (cm_faults _ Hs) as Hf. pose proof (cm_peers _ Hs) as Hp.
  destruct (per_draft_calm h txs s Hs Hdb) as (rs' & s2 & evs & Href & Hdb2 & _ & _).
  pose proof (batch_fast_calm h txs s Hs Hne Hdb Hr) as Hfast.
  rewrite (commit_batch_eq txs s Hne).
  unfold try_commit_batch_fast, sq_bind. destruct (batch_fast txs s) as [[rs|e|] s1]; [| |done].
  - destruct Hfast as (cs & evs1 & -> & Hspec1 & Hdb1 & _). exists (map Ok cs), s1, rs', s2. split; [done|]. split; [done|].
    assert (forall t rst st evst, faults t = [] -> durable t = durable s -> peers t = [] -> commit_batch_per_draft txs t = (Done rst, st) ->
      db_ok (durable st) (h ++ evst) -> run_spec (eq (now_pg s)) h txs (map ok_of rst) evst -> rst = map Ok cs /\ durable st = durable s1) as Hsame.
    { intros t rst st evst _ _ _ _ Hdbt Hspect. destruct (run_spec_det _ _ _ _ _ _ _ Hspect Hspec1) as [Hos ->].
      split; [by apply answers_all_ok|by eapply db_ok_unique]. }
    destruct (per_draft_frozen h txs (stopped s) Hf Hp ltac:(done) Hne Hdb) as (rf & sf & evf & Hrf & Hdbf & _ & Hspecf).
    destruct (Hsame (stopped s) rf sf evf Hf eq_refl Hp Hrf Hdbf Hspecf) as [-> Hdf].
    destruct (per_draft_same txs (stopped s) s _ _ _ _ eq_refl Hf Hp Hf Hp Hrf Href) as [Ha Ht]. rewrite Hdf in Ht.
    split; [exact Ha|]. split; [exact Ht|]. intros Hw.
    destruct (per_draft_frozen h txs s Hf Hp Hw Hne Hdb) as (rz & sz & evz & Hrz & Hdbz & _ & Hspecz). rewrite Href in Hrz. injection Hrz as <- <-.
    assert (wall s 0%nat / 1000 * 1000 = now_pg s) as Hnow by (unfold now_pg; by rewrite (Hw (reads_of_wall s))). rewrite Hnow in Hspecz.
    by destruct (Hsame s rs' s2 evz Hf eq_refl Hp Href Hdbz Hspecz) as [-> ->].
  - destruct Hfast as (Hf1 & Hp1 & Hwall & Hd1 & _).
    destruct (per_draft_calm h txs (set_aborted false s1)) as (rs & s3 & evs3 & Hrun & Hdb3 & _ & _); [by split|cbn; by rewrite Hd1|].
    assert (commit_batch_per_draft txs s1 = commit_batch_per_draft txs (set_aborted false s1)) as Hab.
    { rewrite E. cbv beta iota delta [commit_batch_per_draft]. unfold pool_begin, contact. rewrite Hf1. cbn. by rewrite Hf1. }
    rewrite <- Hab in Hrun. rewrite Hrun. exists rs, s3, rs', s2. split; [done|]. split; [done|].
    destruct (per_draft_same txs s1 s rs rs' s3 s2) as [Ha Ht]; [by rewrite Hd1|done..|]. split; [done|]. split; [done|]. intros Hw.
    rewrite <- Hd1 in Hdb. assert (frozen s1) as Hw1 by (unfold frozen; by rewrite Hwall).
    destruct (per_draft_frozen h txs s1 Hf1 Hp1 Hw1 Hne Hdb) as (rz & sz & evz & Hrz & Hdbz & _ & Hspecz). rewrite Hrun in Hrz. injection Hrz as <- <-.
    rewrite Hwall, Hd1 in *. destruct (per_draft_frozen h txs s Hf Hp Hw Hne Hdb) as (ry & sy & evy & Hry & Hdby & _ & Hspecy). rewrite Href in Hry. injection Hry as <- <-.
    destruct (run_spec_det _ _ _ _ _ _ _ Hspecz Hspecy) as [Hos <-]. split; [by apply undated_ok_eq|by eapply db_ok_unique].
Qed.
End batch.

Section system.
Context `{HashIterLaws} `{UuidTextLaws} `{Json LedgerEvent} `{Json (list ExternalRef)}.

Definition run_op (o : StoreOp) (s : Session) : Session :=
  match o with
  | RegisterOp asset => (register_asset asset s).2
  | OpenOp def cfg => (open_account def cfg s).2
  | CommitOp tx => (commit tx s).2
  | BatchOp txs => (commit_batch txs s).2
  end.

(** What the caller owes: a precision of a byte, and for a batch room for it in its
    accounts, whatever the others have committed by then. *)
Definition op_fits (o : StoreOp) (s : Session) : Prop :=
  match o with
  | RegisterOp asset => 0 <= asset_precision asset < 256
  | BatchOp txs => has_room s txs
  | _ => True
  end.

Lemma op_grows o s h : peers_ok s -> op_fits o s -> db_ok (durable s) h -> exists evs, db_ok (durable (run_op o s)) (h ++ evs).
Proof.
  intros Hp Hf Hdb. destruct o as [asset|def cfg|tx|txs]; cbn [run_op op_fits] in *.
  - destruct (register_pg_sound h asset s Hp Hdb Hf) as (others & evs & Hdb' & _). by exists (others ++ evs).
  - destruct (open_pg_sound h def cfg s Hp Hdb) as (others & evs & Hdb' & _). by exists (others ++ evs).
  - destruct (commit_pg_run h tx s Hp Hdb) as (others & evs & Hdb' & _). by exists (others ++ evs).
  - destruct (commit_batch_run h txs s Hp Hdb) as (others & Hal & Hrun).
    destruct (Hrun (among_room _ _ _ _ Hal Hf)) as (evs & Hdb' & _). by exists (others ++ evs).
Qed.

(** A store's own operations are sessions its peers may be. *)
Lemma op_is_peer o s : peers s = [] -> match o with BatchOp _ => False | RegisterOp asset => 0 <= asset_precision asset < 256 | _ => True end ->
  peer_ok (fun t => durable (run_op o (set_durable t s))).
Proof.
  intros Hp Ho t h Hdb. apply op_grows; [unfold peers_ok; cbn; by rewrite Hp| |done]. by destruct o.
Qed.

(** One operation of some store: its faults, its clock and what others commit
    meanwhile are the session's. *)
Inductive pg_step : Tables -> Tables -> Prop :=
| step_op o s : peers_ok s -> op_fits o s -> pg_step (durable s) (durable (run_op o s)).

End system.
