(* ===== verification/PgSubscribe.v ===== *)
(** Subscriptions of the PostgreSQL store, [subscribe] of
    talea-store-postgres/src/lib.rs: a LISTEN on the book's channel, and NOTIFY
    within each transaction that logs an event.

    A notification is sent when its transaction commits, to the sessions that
    listen then.  [sqlx::postgres::PgListener::recv] connects again by itself when
    its connection is lost; its documentation says that notifications sent
    meanwhile are not received. *)

From S2P Require Import Prelude Decimal Core Disk Sql Sqlite SqliteSpec SqliteCommit SqliteHistory SqliteBatch SqliteReads SqlSubscribe.
From S2P Require Import Pg Postgres PgSpec PgCommit PgHistory PgReads PgDefs PgDrafts PgBatch PgPlan PgFast PgAnswers.
From S2P Require Import PgFastRun PgBatchSpec.
Open Scope Z_scope.

(** ** The stream *)

(** Before it is connected, before it listens, and from then on: how many of the
    database's notifications the listener has taken or missed. *)
Inductive PgPhase := Connecting | Connected | Streaming (read : nat) (p : SubPhase).

(** The database and one subscription: the tables, the notifications of all
    commits in their order, the stream, and whether the listener was connected
    anew since it last read the log. *)
Record PgSub := mkPgSub {
  pb_tables : Tables;
  pb_sent : list (string * string);
  pb_phase : PgPhase;
  pb_out : list Item;
  pb_renewed : bool
}.

Definition pg_subscribed (t : Tables) (sent : list (string * string)) : PgSub := mkPgSub t sent Connecting [] false.

Definition pg_streamed (p : PgPhase) (l : list Item) (renewed : bool) (y : PgSub) : PgSub :=
  mkPgSub (pb_tables y) (pb_sent y) p (pb_out y ++ l) renewed.

(** The next notification of a channel: the listener's place after it. *)
Definition pg_recv (channel : string) (sent : list (string * string)) (read : nat) : option nat :=
  '(i, _) ← list_find (fun n => n.1 = channel) (drop read sent); Some (read + S i)%nat.

Section subscription.
Context `{HashIterLaws} `{Collation} `{UuidTextLaws} `{Json LedgerEvent} `{!JsonLaws LedgerEvent} `{Json (list ExternalRef)}.

(** A pool connection over some tables. *)
Definition pg_reader (l : list Fault) (t : Tables) : Session := mkSession t fresh_txn [] false l [] (fun _ => 0) 0 [].

Definition broken (l : list Fault) : option SqlxError := match l with Fails e :: _ | Lost e :: _ => Some e | _ => None end.

(** One turn of the stream, between two of its suspension points, whose
    statement may fail; [None] when it waits in vain or is over. *)
Definition pg_turn (book : Book) (from : Seq) (l : list Fault) (y : PgSub) : option PgSub :=
  match pb_phase y with
  | Connecting =>
      Some match broken l with
           | Some e => pg_streamed (Streaming 0 Over) [Err (io_err (SqlxE e))] false y
           | None => pg_streamed Connected [] false y
           end
  | Connected =>
      Some match broken l with
           | Some e => pg_streamed (Streaming 0 Over) [Err (io_err (SqlxE e))] false y
           | None => pg_streamed (Streaming (length (pb_sent y)) (Catching from)) [] false y
           end
  | Streaming read (Catching next) =>
      let '(out, p) := on_page next (fetch_events book next PAGE (pg_reader l (pb_tables y))).1 in
      Some (pg_streamed (Streaming read p) out (pb_renewed y) y)
  | Streaming read (Waiting next) =>
      read' ← pg_recv (book_channel_name book) (pb_sent y) read;
      Some (pg_streamed (Streaming read' (Catching next)) [] false y)
  | Streaming _ Over => None
  end.

(** An operation that announces what it commits: it may fail at any statement;
    a batch is undisturbed and has room. *)
Definition op_clear (o : StoreOp) (s : Session) : Prop :=
  peers s = [] /\
  match o with
  | RegisterOp asset => 0 <= asset_precision asset < 256
  | BatchOp txs => calm s /\ forall h, db_ok (durable s) h -> roomy h txs
  | _ => True
  end.

(** A store commits, the stream goes on, or its listener's connection is lost:
    for good, or for as long as it takes to connect again. *)
Inductive pg_sub_step (book : Book) (from : Seq) : PgSub -> PgSub -> Prop :=
| pg_sub_write y o s :
    durable s = pb_tables y -> delivered s = pb_sent y -> op_clear o s ->
    pg_sub_step book from y (mkPgSub (durable (run_op o s)) (delivered (run_op o s)) (pb_phase y) (pb_out y) (pb_renewed y))
| pg_sub_own l y y' : pg_turn book from l y = Some y' -> pg_sub_step book from y y'
| pg_sub_cut y read next e :
    pb_phase y = Streaming read (Waiting next) ->
    pg_sub_step book from y (pg_streamed (Streaming read Over) [Err (io_err (SqlxE e))] (pb_renewed y) y)
| pg_sub_renew y read next :
    pb_phase y = Streaming read (Waiting next) ->
    pg_sub_step book from y (pg_streamed (Streaming (length (pb_sent y)) (Waiting next)) [] true y).

(** ** Every operation announces its events *)

Definition tells (s s' : Session) : Prop := forall h, db_ok (durable s) h ->
  exists evs notes, db_ok (durable s') (h ++ evs) /\ delivered s' = delivered s ++ notes /\
    forall e, e ∈ evs -> book_channel_name (en_book e) ∈ map fst notes.

Lemma noted evs e : e ∈ evs -> book_channel_name (en_book e) ∈ map fst (map note_of evs).
Proof. intros He. by apply (list_elem_of_fmap_2 fst _ (note_of e)), list_elem_of_fmap_2. Qed.

Lemma tells_recorded b ev s s' : peers s = [] -> (forall h, db_ok (durable s) h -> recorded b ev h s s') -> tells s s'.
Proof.
  intros Hp Hr h Hdb. destruct (Hr h Hdb) as (others & evs & Hdb' & Hal & _ & Hl). rewrite (Hal Hp) in Hdb'.
  exists evs, (map note_of evs). split_and!; [done..|apply noted].
Qed.

Lemma run_spec_books P h txs os evs : run_spec P h txs os evs -> forall e, e ∈ evs -> exists tx, tx ∈ txs /\ en_book e = tx_book tx.
Proof.
  induction 1 as [h|h tx0 txs os evs Hres _ IH|h tx0 txs o os at_ evs evs' Hres _ Hd _ IH]; intros e He.
  - by apply elem_of_nil in He.
  - destruct (IH e He) as (tx & ? & ?). exists tx. by split; [right|].
  - apply elem_of_app in He as [He|He].
    + exists tx0. split; [by left|]. inversion Hd; subst; try by apply elem_of_nil in He. by apply list_elem_of_singleton in He as ->.
    + destruct (IH e He) as (tx & ? & ?). exists tx. by split; [right|].
Qed.

(** The fast path takes batches of one book. *)
Lemma batch_fast_book txs s : is_done (batch_fast txs s).1 = true -> exists b, forall tx, tx ∈ txs -> tx_book tx = b.
Proof.
  destruct txs as [|tx0 txs]; [intros _; exists EmptyString; by intros tx ?%elem_of_nil|]. rewrite batch_fast_eq.
  destruct (_ || _) eqn:E; [done|]. intros _. exists (tx_book tx0). intros tx Htx. apply orb_false_iff in E as [_ E].
  destruct (String.eqb_spec (tx_book tx) (tx_book tx0)) as [|Hne]; [done|]. exfalso. apply not_true_iff_false in E. apply E, existsb_exists.
  exists tx. split; [by apply list_elem_of_In|]. by destruct (String.eqb_spec (tx_book tx) (tx_book tx0)).
Qed.

Lemma batch_tells txs s : calm s -> (forall h, db_ok (durable s) h -> roomy h txs) -> tells s (commit_batch txs s).2.
Proof.
  intros Hs Hr h Hdb. destruct (decide (txs = [])) as [->|Hne].
  { exists [], []. rewrite !app_nil_r. split_and!; [done..|]. by intros e ?%elem_of_nil. }
  rewrite (commit_batch_eq txs s Hne). unfold try_commit_batch_fast, sq_bind.
  assert (peers_ok s) as Hp by (unfold peers_ok; by rewrite (cm_peers _ Hs)).
  destruct (batch_fast_run h txs s Hne Hp Hdb) as (Hnp & _ & Hfail & o & Hal & Hrun).
  rewrite (proj1 Hal (cm_peers _ Hs)), app_nil_r in Hrun. destruct (Hrun (Hr h Hdb)) as (evs & Hdb1 & Hok).
  pose proof (batch_fast_book txs s) as Hb. destruct (batch_fast txs s) as [[rs|e|] s1]; cbn [fst snd is_done] in *; [| |done].
  - destruct (Hok rs eq_refl) as [(cs & -> & Hspec) Hdel]. exists evs, (map note_of (option_list (last evs))). split_and!; [done..|].
    intros e He. destruct (Hb eq_refl) as [b Hbk]. destruct evs as [|e1 evs] using rev_ind; [by apply elem_of_nil in He|]. clear IHevs.
    rewrite last_snoc. cbn. assert (forall x, x ∈ evs ++ [e1] -> en_book x = b) as Hbook.
    { intros x Hx. destruct (run_spec_books _ _ _ _ _ Hspec x Hx) as (tx & Htx & ->). by apply Hbk. }
    rewrite (Hbook e He), <- (Hbook e1) by (apply elem_of_app; right; by left). by left.
  - destruct (Hfail eq_refl (cm_faults _ Hs)) as [(l & Hl & Hd) Hdel _ Hfa]. rewrite (cm_peers _ Hs) in Hl. symmetry in Hl. apply app_nil in Hl as [-> Hp'].
    cbn in Hd. rewrite <- Hd in Hdb. destruct txs as [|tx txs]; [done|].
    assert (commit_batch_per_draft (tx :: txs) s1 = commit_batch_per_draft (tx :: txs) (set_aborted false s1)) as ->.
    { cbv beta iota delta [commit_batch_per_draft]. unfold pool_begin, contact. rewrite (Hfa (cm_faults _ Hs)). cbn. by rewrite (Hfa (cm_faults _ Hs)). }
    destruct (per_draft_calm h (tx :: txs) (set_aborted false s1)) as (rs & s2 & evs2 & -> & Hdb2 & Hdel2 & _); [by split; [apply Hfa, Hs|..]|done|].
    exists evs2, (map note_of evs2). cbn. cbn in Hdel2. rewrite Hdel in Hdel2. split_and!; [done..|apply noted].
Qed.

Lemma op_tells o s : op_clear o s -> tells s (run_op o s).
Proof.
  intros [Hp Hf]. assert (peers_ok s) as Hpo by (unfold peers_ok; by rewrite Hp).
  destruct o as [asset|def cfg|tx|txs]; cbn [run_op] in *.
  - eapply tells_recorded; [done|]. intros h Hdb. by apply register_pg_sound.
  - eapply tells_recorded; [done|]. intros h Hdb. by apply open_pg_sound.
  - intros h Hdb. destruct (commit_pg_run h tx s Hpo Hdb) as (others & evs & Hdb' & Hal & _ & Hl). rewrite (Hal Hp) in Hdb'.
    exists evs, (map note_of evs). split_and!; [done..|apply noted].
  - destruct Hf as [Hs Hr]. by apply batch_tells.
Qed.

(** ** The stream beside the stores *)

Lemma fetch_page_pg book n l h t : db_ok t h ->
  let x := (fetch_events book n PAGE (pg_reader l t)).1 in
  (l = [] -> x = Done (map sequenced_entry (page book n h))) /\
  (x = Done (map sequenced_entry (page book n h)) \/ exists e, x = Fail e).
Proof.
  intros Hdb. cbn zeta.
  assert (forall l', (fetch_events book n PAGE (pg_reader l' t)).1 = Done (map sequenced_entry (page book n h)) \/ broken l' <> None) as Hrun.
  { intros l'. destruct l' as [|[|e|e] fs]; [left|left|by right..];
      (unfold fetch_events, sq_bind, pool_fetch; cbn [contact pg_reader faults set_faults peer_commits peers durable];
       rewrite (select_events_pg t h) by done; unfold page_of; rewrite (filter_from (over t) h Hdb);
       rewrite (decode_events_spec (over t) h Hdb); [done|];
       intros e He; apply elem_of_take in He as (i & Hi%list_elem_of_lookup_2 & _); rewrite <- (filter_from (over t) h Hdb) in Hi;
       apply list_elem_of_filter in Hi as [_ Hi]; by apply list_elem_of_filter in Hi as [_ ?]). }
  split; [intros ->; by destruct (Hrun [])|]. destruct (Hrun l) as [|Hb]; [by left|right].
  unfold fetch_events, sq_bind, pool_fetch, contact. destruct l as [|[|e|e] fs]; [done|done|by eexists..].
Qed.

Section system.
Variable book : Book.
Variable from : Seq.

Definition unread (read : nat) (y : PgSub) : list string := map fst (drop read (pb_sent y)).

(** A notification of the book's channel is to be read, or one may have been
    missed. *)
Definition told (read : nat) (y : PgSub) : Prop := book_channel_name book ∈ unread read y \/ pb_renewed y = true.

Record pgsub_ok (y : PgSub) (h : list Entry) : Prop := {
  po_tables : db_ok (pb_tables y) h;
  po_stream : match pb_phase y with
    | Connecting | Connected => pb_out y = []
    | Streaming read p => (read <= length (pb_sent y))%nat /\ sub_inv book from h p (pb_out y) (told read y)
    end
}.

Lemma recv_pg_cases channel sent read :
  match pg_recv channel sent read with
  | Some r => (read < r <= length sent)%nat
  | None => ~ channel ∈ map fst (drop read sent)
  end.
Proof.
  unfold pg_recv. destruct (list_find _ _) as [[i n]|] eqn:E; cbn.
  - apply list_find_Some in E as (Hi%lookup_lt_Some & _). rewrite length_drop in Hi. lia.
  - intros (x & -> & Hx)%list_elem_of_fmap. apply list_find_None in E. rewrite Forall_forall in E. by apply (E x).
Qed.

(** Before the first page nothing was yielded. *)
Lemma started h (P : Prop) : sub_inv book from h (Catching from) [] P.
Proof. split; [|by intros n]. cbn. unfold cursor_ok, slice, upto, items. split; [lia|]. by rewrite skipn_firstn_comm, Nat.sub_diag, take_0. Qed.

Lemma refused h e (P : Prop) : sub_inv book from h Over [Err e] P.
Proof. pose proof (error_ok book from from h [] e (si_ok _ _ _ _ _ _ (started h P))) as Ho. split; [exact Ho|by intros n]. Qed.

Lemma pg_turn_ok l y y' h : pgsub_ok y h -> pg_turn book from l y = Some y' -> pgsub_ok y' h.
Proof.
  intros [Hdb Hst] Ht. unfold pg_turn in Ht. destruct (pb_phase y) as [| |read [n|n|]]; [..|done].
  - injection Ht as <-. destruct (broken l) as [e|]; (split; [done|]); cbn; rewrite Hst; [|done]. split; [lia|apply refused].
  - injection Ht as <-. destruct (broken l) as [e|]; (split; [done|]); cbn; rewrite Hst; (split; [lia|]); [apply refused|apply started].
  - destruct Hst as [Hr Hst]. destruct (fetch_page_pg book n l h _ Hdb) as [_ Hf].
    pose proof (sub_inv_page book from h n (pb_out y) _ _ (do_history _ _ Hdb) Hst Hf) as Hp.
    destruct (on_page n _) as [out p]. injection Ht as <-. by split.
  - destruct Hst as [Hr Hst]. pose proof (recv_pg_cases (book_channel_name book) (pb_sent y) read) as Hrv.
    destruct (pg_recv _ _ _) as [r|]; [|done]. injection Ht as <-. split; [done|]. cbn. rewrite app_nil_r. split; [lia|]. by eapply sub_inv_catch.
Qed.

Lemma pg_sub_step_ok y y' h : pg_sub_step book from y y' -> pgsub_ok y h -> exists evs, pgsub_ok y' (h ++ evs).
Proof.
  intros Hs Hok. pose proof Hok as [Hdb Hst]. destruct Hs as [y o s Hd Hn Hc|l y y' Ht|y read next e Hp|y read next Hp].
  - rewrite <- Hd in Hdb. destruct (op_tells o s Hc h Hdb) as (evs & notes & Hdb' & Hl & Ha). exists evs. split; [done|]. cbn.
    destruct (pb_phase y) as [| |read p]; [done..|]. destruct Hst as [Hr Hst]. rewrite Hl, Hn. split; [rewrite length_app; lia|].
    eapply sub_inv_write; [| |exact Hst]; unfold told, unread; cbn; rewrite drop_app_le, map_app by done.
    + intros [|]; [left; apply elem_of_app; by left|by right].
    + intros e He <-. left. apply elem_of_app. right. by apply Ha.
  - exists []. rewrite app_nil_r. by eapply pg_turn_ok.
  - exists []. rewrite app_nil_r. split; [done|]. rewrite Hp in Hst. destruct Hst as [Hr Hst]. cbn. split; [done|].
    pose proof (error_ok book from next h (pb_out y) (io_err (SqlxE e)) (si_ok _ _ _ _ _ _ Hst)) as Ho. split; [exact Ho|by intros n].
  - exists []. rewrite app_nil_r. split; [done|]. rewrite Hp in Hst. destruct Hst as [Hr Hst]. cbn. rewrite app_nil_r. split; [done|].
    eapply sub_inv_mono; [|exact Hst]. by right.
Qed.

Lemma pg_sub_steps_ok y y' h : rtc (pg_sub_step book from) y y' -> pgsub_ok y h -> exists evs, pgsub_ok y' (h ++ evs).
Proof.
  intros Hr. revert h. induction Hr as [y|y y1 y' Hs _ IH]; intros h Hok; [exists []; by rewrite app_nil_r|].
  destruct (pg_sub_step_ok _ _ _ Hs Hok) as [evs Hok1]. destruct (IH _ Hok1) as [evs' Hok2]. exists (evs ++ evs'). by rewrite app_assoc.
Qed.

(** A stream that waits in vain, whose listener missed nothing. *)
Definition ended (y : PgSub) : bool := match pb_phase y with Streaming _ Over => true | _ => false end.

Lemma pg_parked y h : pgsub_ok y h -> pg_turn book from [] y = None -> pb_renewed y = false -> ended y = false ->
  caught_up book from h (pb_out y).
Proof.
  intros [Hdb Hst] Ht Hn Ho. unfold pg_turn, ended in *. destruct (pb_phase y) as [| |read [n|n|]]; [done..|by destruct (on_page n _)| |done].
  destruct Hst as [_ Hst]. pose proof (recv_pg_cases (book_channel_name book) (pb_sent y) read) as Hrv.
  destruct (pg_recv _ _ _) as [r|]; [done|]. destruct (si_awake _ _ _ _ _ _ Hst n eq_refl) as [|[|]]; [done|done|congruence].
Qed.

(** *** ... comes to its end *)

Definition pb_turns_left (y : PgSub) (h : list Entry) : nat :=
  match pb_phase y with
  | Streaming read p => turns_left book (length (pb_sent y) - read) p h
  | Connected => S (turns_left book 0 (Catching from) h)
  | Connecting => S (S (turns_left book 0 (Catching from) h))
  end.

Lemma pg_turn_progress y y' h : pgsub_ok y h -> pg_turn book from [] y = Some y' ->
  (pb_turns_left y' h < pb_turns_left y h)%nat /\ pb_tables y' = pb_tables y /\ ended y' = false /\ (pb_renewed y = false -> pb_renewed y' = false).
Proof.
  intros [Hdb Hst] Ht. unfold pg_turn, pb_turns_left in *. destruct (pb_phase y) as [| |read [n|n|]] eqn:Ep; [..|done].
  - injection Ht as <-. cbn. split_and!; [lia|done..].
  - injection Ht as <-. cbn. rewrite Nat.sub_diag. split_and!; [lia|done..].
  - destruct Hst as [Hr Hst]. destruct (fetch_page_pg book n [] h _ Hdb) as [Hf _]. cbn zeta in Hf. rewrite (Hf eq_refl) in Ht.
    pose proof (turns_page book from (length (pb_sent y) - read) n h (pb_out y) (do_history _ _ Hdb) (si_ok _ _ _ _ _ _ Hst)) as [Hp Hno].
    destruct (on_page n _) as [out p]. injection Ht as <-. split_and!; [done..| |done]. unfold ended. cbn in *. by destruct p.
  - pose proof (recv_pg_cases (book_channel_name book) (pb_sent y) read) as Hrv. destruct (pg_recv _ _ _) as [r|]; [|done]. injection Ht as <-.
    split_and!; [|done..]. cbn [pb_phase pg_streamed pb_sent]. apply (turns_wake book _ _ n); [lia|by left].
Qed.

Fixpoint pg_turns (fuel : nat) (y : PgSub) : PgSub :=
  match fuel with
  | O => y
  | S fuel => match pg_turn book from [] y with Some y' => pg_turns fuel y' | None => y end
  end.

Lemma pg_turns_settle fuel : forall y h, pgsub_ok y h -> ended y = false -> pb_renewed y = false -> (pb_turns_left y h < fuel)%nat ->
  let y' := pg_turns fuel y in pg_turn book from [] y' = None /\ pb_tables y' = pb_tables y /\ caught_up book from h (pb_out y').
Proof.
  induction fuel as [|fuel IH]; intros y h Hok Ho Hn Hf; [lia|]. cbn [pg_turns]. destruct (pg_turn book from [] y) as [y'|] eqn:Et.
  - destruct (pg_turn_progress _ _ _ Hok Et) as (Hlt & Ht & Ho' & Hn'). rewrite <- Ht. apply IH; [by eapply pg_turn_ok|done|auto|lia].
  - split_and!; [done..|]. by apply (pg_parked y h).
Qed.

Lemma pg_subscribed_ok t h sent : db_ok t h -> pgsub_ok (pg_subscribed t sent) h.
Proof. by split. Qed.


(** C28: A subscription gets there: from any state of it that is not over and missed
    nothing, finitely many turns without a failure yield the rest of the book. *)
Theorem pg_subscription_drains t h sent y :
  db_ok t h -> rtc (pg_sub_step book from) (pg_subscribed t sent) y -> ended y = false -> pb_renewed y = false ->
  exists evs fuel, db_ok (pb_tables y) (h ++ evs) /\
    let y' := pg_turns fuel y in pg_turn book from [] y' = None /\ pb_tables y' = pb_tables y /\ caught_up book from (h ++ evs) (pb_out y').
Proof.
  intros Hdb Hr Ho Hn. destruct (pg_sub_steps_ok _ _ h Hr (pg_subscribed_ok t h sent Hdb)) as [evs Hok].
  exists evs, (S (pb_turns_left y (h ++ evs))). split; [apply Hok|]. apply pg_turns_settle; [done..|lia].
Qed.
End system.
End subscription.
