(* ===== verification/PgDemo.v ===== *)
(** The PostgreSQL store, evaluated (talea-store-postgres/src): a shop's tables,
    another session beside this one, and two batches that go wrong; and the
    subscriptions of the SQL stores: a shop's events while a sale is made, and two
    ways for an event not to be announced.  Here the theorems of these files are
    applied. *)

From S2P Require Import Prelude Decimal Core Disk Frame Sql Sqlite SqliteSpec SqliteCommit SqliteHistory SqliteBatch SqliteReads.
From S2P Require Import SqlSubscribe SqliteDemo SqliteSubscribe Pg Postgres PgSpec PgCommit PgHistory PgReads PgDefs PgDrafts.
From S2P Require Import PgBatch PgPlan PgFast PgAnswers PgFastRun PgBatchSpec PgSubscribe.
Open Scope Z_scope.

Section demo.
Import SqliteDemo.

(** A session over a shop's tables, with a clock that stands still. *)
Definition pg_shop : Session := mkSession (committed shop) fresh_txn [] false [] [] (fun _ => 5000000) 0 [].

Lemma pg_shop_ok : db_ok (durable pg_shop) shop_history.
Proof. apply shop_ok. Qed.

Lemma pg_shop_calm : calm pg_shop.
Proof. done. Qed.

(** Another store's session, which sells too. *)
Definition other_sale : Transaction := transfer 11 "order-9" "sales" "cash" 30.
Definition other_till : Tables -> Tables := fun t => durable (run_op (CommitOp other_sale) (set_durable t pg_shop)).

Lemma other_till_ok : peer_ok other_till.
Proof. by apply (op_is_peer (CommitOp other_sale) pg_shop). Qed.

(** Beside it, and with statements that fail. *)
Definition pg_busy (l : list Fault) : Session := set_faults l (set_peers [other_till] pg_shop).

Lemma pg_busy_peers l : peers_ok (pg_busy l).
Proof. repeat constructor; apply other_till_ok. Qed.

(** The answer to COMMIT is lost. *)
Definition lost_answer : list Fault := replicate 9 Runs ++ [Lost PoolTimedOut].

(** *** Evaluations *)

(** A sale, a refund and the sale again: the fast path takes them; it leaves a
    batch with an overdraft to the loop. *)
Example fast_batch : (commit_batch_traced [sale; refund; sale] pg_shop).1 =
  Done (Fast, [Ok (mkCommitted 7 3 5000000); Ok (mkCommitted 8 4 5000000); Ok (mkCommitted 7 3 5000000)]).
Proof. vm_compute. reflexivity. Qed.

Example fallback_batch : (commit_batch_traced [sale; overdraft; refund] pg_shop).1 =
  Done (Fallback, [Ok (mkCommitted 7 3 5000000); Err (Plain (ConstraintViolation (acc "cash") 0 (-450))); Ok (mkCommitted 8 4 5000000)]).
Proof. vm_compute. reflexivity. Qed.

(** The other till's sale comes between this session's statements: this one's
    gets the next number. *)
Example beside_another : (commit sale (pg_busy [])).1 = Done (mkCommitted 7 4 5000000).
Proof. vm_compute. reflexivity. Qed.

(** An error whose sale is durable all the same, and found by the repetition. *)
Example lost_commit : (commit sale (pg_busy lost_answer)).1 = Fail (Plain Saturated) /\
  (commit sale (set_faults [] (commit sale (pg_busy lost_answer)).2)).1 = Done (mkCommitted 7 4 5000000).
Proof. vm_compute. split; reflexivity. Qed.

(** *** A batch that wraps *)

(** Two accounts without a minimum. *)
Definition till (path : string) : AccountDef := mkAccountDef (acc path) "USD" Asset.
Definition no_cfg : AccountCfg := mkAccountCfg None None.
Definition pg_tills : Session := (open_account (till "vault") no_cfg (open_account (till "till") no_cfg pg_shop).2).2.
Definition huge (id : Z) (key : string) : Transaction := transfer id key "till" "vault" (2 ^ 62).

(** The fast path adds the drafts of an account up in an [i64] that wraps around
    (batch.rs, [entry.total_delta += p.delta]) and checks no sum: two transfers
    of 2^62 are both answered with success, and the vault's balance is -2^63. *)
Theorem pg_batch_wraps :
  (commit_batch_traced [huge 21 "a"; huge 22 "b"] pg_tills).1 = Done (Fast, [Ok (mkCommitted 21 5 5000000); Ok (mkCommitted 22 6 5000000)]) /\
  t_balances (durable (commit_batch [huge 21 "a"; huge 22 "b"] pg_tills).2) !! "shop:vault"%string = Some (mkBalanceRow "USD" (Int (- 2 ^ 63)) 6) /\
  t_balances (durable (commit_batch [huge 21 "a"; huge 22 "b"] pg_tills).2) !! "shop:till"%string = Some (mkBalanceRow "USD" (Int (- 2 ^ 63)) 6) /\
  (commit_batch_per_draft [huge 21 "a"; huge 22 "b"] pg_tills).1 =
    Done [Ok (mkCommitted 21 5 5000000); Err (IoBox (SqlxE (SqlError "bigint out of range")))].
Proof. vm_compute. split_and!; reflexivity. Qed.

(** *** A batch that is lost *)

(** A statement of the loop fails outside a draft: here the second SAVEPOINT. *)
Definition broken_savepoint : list Fault := replicate 11 Runs ++ [Fails (SqlError "canceling statement")].

(** PostgreSQL has aborted the transaction; the loop goes on, COMMIT reports no
    error, and the first draft, which is answered with success, is nowhere. *)
Theorem pg_batch_lost :
  (commit_batch_per_draft [sale; refund] (set_faults broken_savepoint pg_shop)).1 =
    Done [Ok (mkCommitted 7 3 5000000); Err (IoBox (SqlxE (SqlError "canceling statement")))] /\
  t_transactions (durable (commit_batch_per_draft [sale; refund] (set_faults broken_savepoint pg_shop)).2) = [].
Proof. vm_compute. split; reflexivity. Qed.

(** *** The theorems at work *)

(** A clock that moves at every reading: the two paths stamp different times. *)
Definition pg_ticking : Session := mkSession (committed shop) fresh_txn [] false [] [] (fun n => 5000000 + 1000 * Z.of_nat n) 0 [].

Example ticking_paths_differ :
  (commit_batch [sale; refund; sale] pg_ticking).1 <> (commit_batch_per_draft [sale; refund; sale] pg_ticking).1.
Proof. vm_compute. discriminate. Qed.

Lemma pg_batch_is_per_draft_witness : calm pg_ticking /\ db_ok (durable pg_ticking) shop_history /\ roomy shop_history [sale; overdraft; refund; sale] /\
  exists rs s1 rs' s2, commit_batch [sale; overdraft; refund; sale] pg_ticking = (Done rs, s1) /\
    commit_batch_per_draft [sale; overdraft; refund; sale] pg_ticking = (Done rs', s2) /\
    map undated_answer rs = map undated_answer rs' /\ undated (durable s1) = undated (durable s2) /\
    (frozen pg_ticking -> rs = rs' /\ durable s1 = durable s2).
Proof.
  assert (calm pg_ticking) as Hc by done.
  assert (roomy shop_history [sale; overdraft; refund; sale]) as Hr by (apply (bool_decide_eq_true_1 _); vm_compute; reflexivity).
  exact (conj Hc (conj pg_shop_ok (conj Hr (pg_batch_is_per_draft shop_history _ pg_ticking Hc pg_shop_ok Hr)))).
Defined.

(** There is room before the other till's sale and after it. *)
Lemma pg_busy_room l : has_room (pg_busy l) [sale; refund].
Proof.
  intros l1 rest He. apply (bool_decide_eq_true_1 _). destruct l1 as [|f l1]; [vm_compute; reflexivity|].
  injection He as <- He. symmetry in He. apply app_nil in He as [-> _]. vm_compute. reflexivity.
Qed.

Lemma pg_batch_atomic_witness : peers_ok (pg_busy lost_answer) /\ has_room (pg_busy lost_answer) [sale; refund] /\
  exists others evs, alone (pg_busy lost_answer) others /\
    db_ok (durable (commit_batch [sale; refund] (pg_busy lost_answer)).2) (shop_history ++ others ++ evs) /\
    match (commit_batch [sale; refund] (pg_busy lost_answer)).1 with
    | Done rs => length rs = 2%nat /\ (batch_aborted [sale; refund] (pg_busy lost_answer) \/ on_record (shop_history ++ others ++ evs) [sale; refund] rs)
    | _ => True
    end.
Proof.
  split; [apply pg_busy_peers|]. split; [apply pg_busy_room|].
  apply (pg_batch_atomic shop_history [sale; refund] (pg_busy lost_answer)); [apply pg_busy_peers|apply pg_shop_ok|apply pg_busy_room].
Defined.

Lemma pg_commit_atomic_witness : peers_ok (pg_busy lost_answer) /\ exists others evs,
  db_ok (durable (commit sale (pg_busy lost_answer)).2) (shop_history ++ others ++ evs) /\ alone (pg_busy lost_answer) others /\
  commit_outcome (shop_history ++ others) sale (pg_busy lost_answer) (commit sale (pg_busy lost_answer)).1 evs /\
  delivered (commit sale (pg_busy lost_answer)).2 = delivered (pg_busy lost_answer) ++ map note_of evs.
Proof. split; [apply pg_busy_peers|]. apply (pg_commit_atomic shop_history sale (pg_busy lost_answer)); [apply pg_busy_peers|apply pg_shop_ok]. Defined.

End demo.

Section streams_demo.
Import SqliteDemo.

#[local] Instance demo_collation : Collation := String.leb.

Definition opened_event (seq at_ : Z) (def : AccountDef) (cfg : AccountCfg) : Item := Ok (mkSequenced seq at_ (AccountOpened def cfg)).

(** ** SQLite *)

(** A subscription from event 2 on; it yields a page and finds the next empty. *)
Definition sub_new : SqSub := subscribed (committed shop) [] [] 2.
Definition sub_paged : SqSub := default sub_new (sub_turn "shop" [] sub_new).
Definition sub_waiting : SqSub := default sub_paged (sub_turn "shop" [] sub_paged).

(** A sale is committed; its wake-up follows. *)
Definition till_conn : Conn := reader [] (sb_tables sub_waiting).
Definition sub_written : SqSub :=
  mkSqSub (committed (sq_run (CommitOp sale) till_conn)) (sb_unsent sub_waiting ++ woken (sq_run (CommitOp sale) till_conn)) (sb_sent sub_waiting)
    (sb_read sub_waiting) false (sb_phase sub_waiting) (sb_out sub_waiting).
Definition sub_sent : SqSub :=
  mkSqSub (sb_tables sub_written) ([] ++ []) (sb_sent sub_written ++ ["shop"%string]) (sb_read sub_written) (sb_closed sub_written)
    (sb_phase sub_written) (sb_out sub_written).

Example sub_waits : sb_phase sub_written = Waiting 3 /\ sub_turn "shop" [] sub_written = None /\ sb_unsent sub_written = ["shop"%string] /\
  sb_out sub_written = [opened_event 2 2000000 sales sales_cfg].
Proof. vm_compute. split_and!; reflexivity. Qed.

Example sub_delivers : sb_out (sub_turns "shop" 3 sub_sent) = [opened_event 2 2000000 sales sales_cfg; Ok (mkSequenced 3 0 (TransactionPosted sale))].
Proof. vm_compute. reflexivity. Qed.

(** The channel keeps 1024 wake-ups: a receiver that is behind is told. *)
Example lagging : recv (replicate 2000 "shop"%string) 10 false = Some (Lagged, 976%nat).
Proof. vm_compute. reflexivity. Qed.

Lemma sub_run : rtc (sub_step "shop") sub_new sub_sent.
Proof.
  apply (rtc_l _ _ sub_paged); [by apply (sub_own "shop" sub_new [] sub_paged); vm_compute; reflexivity|].
  apply (rtc_l _ _ sub_waiting); [by apply (sub_own "shop" sub_paged [] sub_waiting); vm_compute; reflexivity|].
  apply (rtc_l _ _ sub_written); [apply sub_write; by vm_compute|].
  apply rtc_once, sub_send. vm_compute. reflexivity.
Qed.

Lemma sqlite_subscription_exact_witness : db_ok (committed shop) shop_history /\ rtc (sub_step "shop") sub_new sub_sent /\
  exists evs, db_ok (sb_tables sub_sent) (shop_history ++ evs) /\ sub_ok "shop" 2 (shop_history ++ evs) (sb_phase sub_sent) (sb_out sub_sent) /\
    (sub_turn "shop" [] sub_sent = None -> sb_unsent sub_sent = [] -> sb_phase sub_sent <> Over -> caught_up "shop" 2 (shop_history ++ evs) (sb_out sub_sent)).
Proof.
  exact (conj (proj1 shop_ok) (conj sub_run (sqlite_subscription_exact "shop" 2 (committed shop) shop_history [] [] sub_sent (proj1 shop_ok) sub_run))).
Defined.

Lemma sqlite_subscription_drains_witness : sb_unsent sub_sent = [] /\ sb_phase sub_sent <> Over /\
  exists evs fuel, db_ok (sb_tables sub_sent) (shop_history ++ evs) /\
    let y' := sub_turns "shop" fuel sub_sent in
    sub_turn "shop" [] y' = None /\ sb_tables y' = sb_tables sub_sent /\ caught_up "shop" 2 (shop_history ++ evs) (sb_out y').
Proof.
  assert (sb_phase sub_sent <> Over) as Hno by (vm_compute; discriminate). split; [reflexivity|]. split; [exact Hno|].
  exact (sqlite_subscription_drains "shop" 2 (committed shop) shop_history [] [] sub_sent (proj1 shop_ok) sub_run eq_refl Hno).
Defined.

(** A draft whose RELEASE fails is answered with an error and stays in the
    batch's transaction: it is committed, and no wake-up tells. *)
Definition release_fails : Conn := set_script (replicate 9 None ++ [Some (SqlError "interrupted")]) (reader [] (committed shop)).

Theorem unannounced_draft :
  (Sqlite.commit_batch [sale] release_fails).1 = Done [Err (IoBox (SqlxE (SqlError "interrupted")))] /\
  t_books (committed (Sqlite.commit_batch [sale] release_fails).2) !! "shop"%string = Some (Int 3) /\
  woken (Sqlite.commit_batch [sale] release_fails).2 = [].
Proof. vm_compute. split_and!; reflexivity. Qed.

(** ** PostgreSQL *)

(** A subscription from event 1 on: it connects, listens, yields a page and
    finds the next empty. *)
Definition pg_new : PgSub := pg_subscribed (committed shop) [].
Fixpoint pg_go (n : nat) (y : PgSub) : PgSub := match n with O => y | S n => pg_go n (default y (pg_turn "shop" 1 [] y)) end.
Definition pg_waiting : PgSub := pg_go 4 pg_new.

Lemma pg_go_run n y : rtc (pg_sub_step "shop" 1) y (pg_go n y).
Proof.
  revert y. induction n as [|n IH]; intros y; [done|]. cbn [pg_go]. destruct (pg_turn "shop" 1 [] y) as [y'|] eqn:E; cbn; [|apply IH].
  eapply rtc_l; [by eapply pg_sub_own|apply IH].
Qed.

(** A sale is committed, by a session over the same tables. *)
Definition pg_till (y : PgSub) : Session := set_delivered (pb_sent y) (set_durable (pb_tables y) pg_shop).
Definition pg_sale (y : PgSub) : PgSub :=
  mkPgSub (durable (run_op (CommitOp sale) (pg_till y))) (delivered (run_op (CommitOp sale) (pg_till y))) (pb_phase y) (pb_out y) (pb_renewed y).

Lemma pg_sale_step y : pg_sub_step "shop" 1 y (pg_sale y).
Proof. by apply pg_sub_write. Qed.

Definition pg_sold : PgSub := pg_sale pg_waiting.

Example pg_delivers : pb_out (pg_go 2 pg_sold) =
  [opened_event 1 1000000 cash cash_cfg; opened_event 2 2000000 sales sales_cfg; Ok (mkSequenced 3 5000000 (TransactionPosted sale))] /\
  pg_turn "shop" 1 [] (pg_go 3 pg_sold) = None.
Proof. vm_compute. split; reflexivity. Qed.

Lemma pg_sold_run : rtc (pg_sub_step "shop" 1) pg_new pg_sold.
Proof. eapply rtc_r; [apply (pg_go_run 4)|apply pg_sale_step]. Qed.


Lemma pg_subscription_drains_witness : ended pg_sold = false /\ pb_renewed pg_sold = false /\
  exists evs fuel, db_ok (pb_tables pg_sold) (shop_history ++ evs) /\
    let y' := pg_turns "shop" 1 fuel pg_sold in
    pg_turn "shop" 1 [] y' = None /\ pb_tables y' = pb_tables pg_sold /\ caught_up "shop" 1 (shop_history ++ evs) (pb_out y').
Proof.
  assert (ended pg_sold = false) as Ho by (vm_compute; reflexivity). assert (pb_renewed pg_sold = false) as Hn by (vm_compute; reflexivity).
  exact (conj Ho (conj Hn (pg_subscription_drains "shop" 1 (committed shop) shop_history [] pg_sold (proj1 shop_ok) pg_sold_run Ho Hn))).
Defined.

(** The connection is lost while the sale is made, and the listener connects
    again by itself. *)
Definition pg_stalled : PgSub := pg_streamed (Streaming (length (pb_sent pg_sold)) (Waiting 3)) [] true pg_sold.

(** The stream is not over, waits in vain, and the sale it has not yielded is in
    the log: no error tells its reader, and only the next event of the book
    will wake it. *)
Theorem pg_subscription_stalls :
  rtc (pg_sub_step "shop" 1) pg_new pg_stalled /\ pg_turn "shop" 1 [] pg_stalled = None /\ ended pg_stalled = false /\
  length (pb_out pg_stalled) = 2%nat /\ t_books (pb_tables pg_stalled) !! "shop"%string = Some (Int 3).
Proof.
  split.
  - eapply rtc_r; [apply pg_sold_run|]. apply (pg_sub_renew "shop" 1 pg_sold 0 3). vm_compute. reflexivity.
  - vm_compute. split_and!; reflexivity.
Qed.
End streams_demo.
