(* ===== verification/StoresConform.v ===== *)
(** The three stores pass the conformance suite, evaluated: each from an empty
    database, twice on the same one, with joined commits in either order.

    The clock of a store's process advances at every reading.  The next item of a
    stream is what a bounded number of its turns yields. *)

From S2P Require Import Prelude Decimal Assoc Core Bloom Disk PostingIndex Idem BookState Frame Replay Segment Snapshot.
From S2P Require Import Writer WriterBatch WriterLog WriterSpec LogOpen LogStore StoreReads Subscribe Api Service ServiceSpec StoreImpl.
From S2P Require Import Sql Sqlite SqliteSpec SqliteCommit SqliteHistory SqliteBatch SqliteReads SqlSubscribe SqliteDemo SqliteClient SqliteSubscribe.
From S2P Require Import Pg Postgres PgBatch PgSubscribe Conformance EventCodec.
Open Scope Z_scope.

(** Ids in the order they are drawn, and their decimal text. *)
#[export] Instance counted : Uuids := {| new_v4 := fun n => Z.of_nat n + 1; simple := u64_to_string |}.

Section sql.
Context `{HashIter} `{Collation} `{UuidText} `{Json LedgerEvent} `{Json (list ExternalRef)}.

(** ** SQLite *)

Definition sq_clock (s : Conn) : DateTime * Conn :=
  (clock s (tick s), mkConn (committed s) (work s) (saves s) (script s) (clock s) (1 + tick s) (woken s)).

(** A stream and how many of its items were taken. *)
Fixpoint sq_next (fuel : nat) (book : Book) (y : SqSub) (taken : nat) : option (result (Sequenced LedgerEvent) StoreError) * (SqSub * nat) :=
  match sb_out y !! taken with
  | Some item => (Some (map_err to_store_error item), (y, 1 + taken)%nat)
  | None =>
      match fuel with
      | O => (None, (y, taken))
      | S fuel => match sub_turn book [] y with Some y' => sq_next fuel book y' taken | None => (None, (y, taken)) end
      end
  end.

(** The stream finds the tables and the wake-ups as the store has left them. *)
Definition sq_seen (s : Conn) (y : SqSub) : SqSub := mkSqSub (committed s) [] (woken s) (sb_read y) (sb_closed y) (sb_phase y) (sb_out y).

#[export] Instance sqlite_backend : Backend Conn := {|
  be_commit tx := answered (Sqlite.commit tx);
  be_read_events book from limit := answered (Sqlite.read_events book from limit);
  be_now := sq_clock;
  be_stream := Book * (SqSub * nat);
  be_subscribe book from s := ((book, (SqliteSubscribe.subscribed (committed s) [] (woken s) from, 0%nat)), s);
  be_next st s := let '(item, st') := sq_next 8 st.1 (sq_seen s st.2.1) st.2.2 in (item, (st.1, st'), s)
|}.

(** ** PostgreSQL *)

Definition pg_answered {A} (m : pg A) (s : Session) : result A StoreError * Session :=
  match m s with
  | (Done a, s') => (Ok a, s')
  | (Fail e, s') => (Err (to_store_error e), s')
  | (Panicked, s') => (Err (Io "the task panicked"), s')
  end.

Definition pg_answered_batch (txs : list Transaction) (s : Session) : list (result Committed StoreError) * Session :=
  match PgBatch.commit_batch txs s with
  | (Done rs, s') => (map (map_err to_store_error) rs, s')
  | (_, s') => ([], s')
  end.

#[export] Instance pg_store : Store Session := {|
  store_register_asset asset := pg_answered (Postgres.register_asset asset);
  store_open_account def cfg := pg_answered (Postgres.open_account def cfg);
  store_commit_batch := pg_answered_batch;
  store_balance a as_of := pg_answered (Postgres.balance a as_of);
  store_asset id := pg_answered (Postgres.asset id);
  store_account_history a after limit := pg_answered (Postgres.account_history a after limit);
  store_transaction id := pg_answered (Postgres.transaction id);
  store_trial_balance book as_of := pg_answered (Postgres.trial_balance book as_of)
|}.

Definition pg_clock (s : Session) : DateTime * Session :=
  (wall s (reads_of_wall s),
   mkSession (durable s) (txn s) (spots s) (aborted s) (Pg.faults s) (peers s) (wall s) (1 + reads_of_wall s) (delivered s)).

Fixpoint pg_next (fuel : nat) (book : Book) (from : Seq) (y : PgSub) (taken : nat) :
    option (result (Sequenced LedgerEvent) StoreError) * (PgSub * nat) :=
  match pb_out y !! taken with
  | Some item => (Some (map_err to_store_error item), (y, 1 + taken)%nat)
  | None =>
      match fuel with
      | O => (None, (y, taken))
      | S fuel => match pg_turn book from [] y with Some y' => pg_next fuel book from y' taken | None => (None, (y, taken)) end
      end
  end.

Definition pg_seen (s : Session) (y : PgSub) : PgSub := mkPgSub (durable s) (delivered s) (pb_phase y) (pb_out y) (pb_renewed y).

#[export] Instance pg_backend : Backend Session := {|
  be_commit tx := pg_answered (Postgres.commit tx);
  be_read_events book from limit := pg_answered (Postgres.read_events book from limit);
  be_now := pg_clock;
  be_stream := (Book * Seq) * (PgSub * nat);
  be_subscribe book from s := (((book, from), (pg_subscribed (durable s) (delivered s), 0%nat)), s);
  be_next st s := let '(item, st') := pg_next 8 st.1.1 st.1.2 (pg_seen s st.2.1) st.2.2 in (item, (st.1, st'), s)
|}.
End sql.

(** ** The log store *)

Section log.
Context `{HashIter} `{KeyHashes} `{Crc32} `{Json (list Pair)} `{Json WireEvent} `{Json StateImage}.

(** The store and its process's clock, a microsecond for every operation. *)
Definition Timed : Type := LogStore * DateTime.

Definition timed {A} (op : (nat -> nat -> DateTime) -> LogStore -> A * LogStore) (s : Timed) : A * Timed :=
  let '(a, s') := op (fun _ _ => s.2) s.1 in (a, (s', s.2 + 1000)).

#[export] Instance timed_log : Store Timed := {|
  store_register_asset a := timed (fun c => LogStore.register_asset c a);
  store_open_account def cfg := timed (fun c => LogStore.open_account c def cfg);
  store_commit_batch txs := timed (fun c => LogStore.commit_batch c txs);
  store_balance a as_of := timed (fun _ => LogStore.balance a as_of);
  store_asset id := timed (fun _ => LogStore.asset id);
  store_account_history a after limit := timed (fun _ => LogStore.account_history a after limit);
  store_transaction id := timed (fun _ => LogStore.transaction id);
  store_trial_balance book as_of := timed (fun _ => LogStore.trial_balance book as_of)
|}.

(** A subscription: its phase, what it has yielded and was not taken, and up to
    which event the writer's broadcasts have been received. *)
Record LogSub := mkLogSub { lg_book : string; lg_phase : Phase; lg_queue : list (Sequenced LedgerEvent); lg_received : Seq }.

Definition log_subscribe (book : Book) (from : Seq) (s : LogStore) : LogSub * LogStore :=
  let '(r, s') := subscribe_writer book s in
  match r with
  | Ok h => (mkLogSub book (Paging from) [] (ceiling_of (wr_state (h_writer h))), s')
  | Err _ => (mkLogSub book Ended [] 0, s')
  end.

(** The broadcasts a receiver has not read: the events since. *)
Definition broadcasts (book : Book) (after : Seq) (s : LogStore) : list (Sequenced LedgerEvent) :=
  match LogStore.read_events book (after + 1) 1024 s with (Ok evs, _) => evs | _ => [] end.

Definition log_turn (y : LogSub) (s : LogStore) : LogSub :=
  match lg_phase y with
  | Live last =>
      match broadcasts (lg_book y) (lg_received y) s with
      | ev :: _ => let '(out, p) := receive (RecvOk ev) (Live last) in mkLogSub (lg_book y) p (lg_queue y ++ out) (s_seq ev)
      | [] => y
      end
  | p =>
      match books s !! lg_book y with
      | Some h =>
          match catch_up 8 (wr_state (h_writer h)) (catalog (wr_segments (h_writer h))) p (book_dir s (lg_book y)) with
          | (Ok (out, p'), _) => mkLogSub (lg_book y) p' (lg_queue y ++ out) (lg_received y)
          | (Err e, _) => mkLogSub (lg_book y) (Failed e) (lg_queue y) (lg_received y)
          end
      | None => y
      end
  end.

Fixpoint log_next (fuel : nat) (y : LogSub) (s : LogStore) : option (result (Sequenced LedgerEvent) StoreError) * LogSub :=
  match lg_queue y with
  | ev :: rest => (Some (Ok ev), mkLogSub (lg_book y) (lg_phase y) rest (lg_received y))
  | [] => match fuel with O => (None, y) | S fuel => log_next fuel (log_turn y s) s end
  end.

#[export] Instance log_backend : Backend Timed := {|
  be_commit tx := timed (fun c => LogStore.commit c tx);
  be_read_events book from limit := timed (fun _ => LogStore.read_events book from limit);
  be_now s := (s.2, (s.1, s.2 + 1000));
  be_stream := LogSub;
  be_subscribe book from := timed (fun _ => log_subscribe book from);
  be_next y s := let '(item, y') := log_next 8 y s.1 in (item, y', s)
|}.
End log.

(** ** The suite, run *)

Section run.
Import WriterDemo SqliteDemo.
#[local] Instance compact_event : Json LedgerEvent := codec_json LedgerEvent.
#[local] Instance compact_wire : Json WireEvent := codec_json WireEvent.
#[local] Instance compact_refs : Json (list ExternalRef) := codec_json (list ExternalRef).
#[local] Instance bytewise : Collation := String.leb.

Definition empty_log : Timed := (mkLogStore ∅ ∅ ∅ LogStoreOptions_default false, 0).
Definition empty_session : Session := mkSession Tables_empty fresh_txn [] false [] [] (fun n => 1000000 * Z.of_nat n) 0 [].

(** The whole suite on one store, and again on what it left. *)
Definition run_twice {S : Type} `{Backend S} (backwards : bool) (s : S) : list (string * string) :=
  (failures (suite backwards ++ suite backwards) (mkFixture s 0)).1.

(** Each test on a store of its own, as the log store's tests do. *)
Definition run_alone {S : Type} `{Backend S} (tests : list (string * test unit)) (s : S) : list (string * string) :=
  concat (map (fun t => (failures [t] (mkFixture s 0)).1) tests).

(** The log store's process ends, and another opens the directories. *)
Definition reopened (s : Timed) : Timed :=
  match open_with LogStoreOptions_default (dirs s.1) with Ok s' => (s', s.2) | Err _ => empty_log end.

Definition run_restarted (tests : list (string * test unit)) (s : Timed) : list (string * string) :=
  let '(l1, f) := failures tests (mkFixture s 0) in
  (l1 ++ (failures tests (mkFixture (reopened (fx_store f)) (fx_drawn f))).1)%list.

Definition named (names : list string) {A} (tests : list (string * A)) : list (string * A) :=
  filter (fun t => existsb (String.eqb t.1) names) tests.

Definition joining : list string := ["concurrent_same_key_commits_once"; "committed_at_is_monotonic_per_book"]%string.
Definition restarting : list string := ["commit_is_idempotent"; "account_history_pages_exclusively"]%string.

(** The stores pass the program's conformance suite.  The SQL stores pass it from
    an empty database, and again on the database it has left, with joined commits in
    either order; the log store passes each test from an empty directory, those that
    join commits in either order, and two also on the directory they have left, opened
    anew. *)
Theorem stores_conform :
  (run_twice false fresh = [] /\ run_twice true fresh = []) /\
  (run_twice false empty_session = [] /\ run_twice true empty_session = []) /\
  (run_alone (suite false) empty_log = [] /\ run_alone (named joining (suite true)) empty_log = [] /\
   run_restarted (named restarting (suite false)) empty_log = []).
Proof. vm_compute. split_and!; reflexivity. Qed.

(** The suite notices: a store that forgets its commits fails half of the tests. *)
Definition forgetful : Backend Conn :=
  let b := sqlite_backend in
  @Build_Backend Conn sqlite_store (fun tx s => ((be_commit tx s).1, s)) be_read_events be_now be_stream be_subscribe be_next.

Example suite_notices : length (failures (@suite Conn _ forgetful counted false) (mkFixture fresh 0)).1 = 15%nat.
Proof. vm_compute. reflexivity. Qed.
End run.
