(* ===== verification/ClientDemo.v ===== *)
(** A day at the shop, written against [LedgerApi] and run against the service over
    the SQLite store and against a client of its server; and [talea post] and
    [talea balance] against such a server. *)

From S2P Require Import Prelude Decimal Core Disk Frame Sql Sqlite SqliteDemo.
From S2P Require Import Api Service LedgerApi Http Client ClientSpec EventCodec SqliteClient ClientApi ClientApiSpec Cli Command.
Open Scope Z_scope.

(** ** Libraries that can be computed with *)

(** A URL is its segments and its query's pairs. *)
#[export] Instance demo_urls : UrlLib := {|
  Url := list string * list (string * string);
  has_segments _ := true;
  pop_if_empty u := match last u.1 with Some EmptyString => (removelast u.1, u.2) | _ => u end;
  push u s :=
    if String.eqb s "." || String.eqb s ".." then u
    else (match u.1 with [EmptyString] => [s] | path => path ++ [s] end, u.2);
  append_pair u k v := (u.1, u.2 ++ [(k, v)]);
  path_of := fst;
  query_of := snd
|}.

#[export] Instance demo_urls_laws : UrlLaws.
Proof.
  split; try done.
  - intros [path q]. cbn. by intros ->.
  - intros [path q]. cbn. by destruct (last path) as [[]|].
  - intros [path q] s _ Hp Hd Hdd. cbn in *. apply String.eqb_neq in Hd as ->, Hdd as ->. cbn. by destruct path as [|[] []].
  - intros [path q] s. cbn. by destruct (String.eqb s "." || String.eqb s "..").
Qed.

Definition pair (query : list (string * string)) (key : string) : option string :=
  snd <$> List.find (fun kv => String.eqb kv.1 key) query.

(** A pair that is there is a number. *)
Definition number (query : list (string * string)) (key : string) : result (option Z) string :=
  match pair query key with
  | None => Ok None
  | Some text => match parse_i64 text with Some z => Ok (Some z) | None => Err "invalid digit found in string"%string end
  end.

#[export] Instance demo_queries : QueryText := {|
  to_rfc3339 := i64_to_string;
  as_of_query q := number q "as_of";
  history_query q := let? after := number q "after_seq" in let? limit := number q "limit" in Ok (after, limit);
  from_query q := number q "from"
|}.

Lemma number_there query key text z : pair query key = Some text -> parse_i64 text = Some z -> number query key = Ok (Some z).
Proof. unfold number. by intros -> ->. Qed.

Lemma number_absent query key : pair query key = None -> number query key = Ok None.
Proof. unfold number. by intros ->. Qed.

#[export] Instance demo_queries_laws : QueryLaws.
Proof.
  refine {| four_digit_year t := in_i64 t = true |}.
  - done.
  - intros t Ht. eapply number_there; [reflexivity|]. by apply parse_i64_to_string.
  - intros [after limit] [Hl Ha]. cbn [pg_limit pg_after_seq] in *.
    assert (parse_i64 (u64_to_string limit) = Some limit) as Hlim.
    { clear Ha. rewrite <- (parse_i64_to_string limit) by (apply in_i64_spec; unfold i64_min, i64_max; lia). unfold i64_to_string. case_match; [|done]. bool_to_prop. lia. }
    unfold history_query, demo_queries. destruct after as [a|].
    + rewrite (number_there _ "after_seq" (i64_to_string a) a), (number_there _ "limit" (u64_to_string limit) limit); try done.
      by apply parse_i64_to_string.
    + rewrite number_absent, (number_there _ "limit" (u64_to_string limit) limit); done.
Defined.

#[export] Instance codec_serde {A} `{Codec A} : Serde A := {| to_body := text_of_value; from_body := value_of_text |}.
#[export] Instance codec_serde_laws {A} `{Codec A} : SerdeLaws A.
Proof. intros a _. apply value_of_text_of. Qed.

#[export] Instance codec_answers : Answers := {|
  posted_of_json := value_of_text;
  balance_of_json := value_of_text;
  history_of_json := value_of_text;
  transaction_of_json := value_of_text;
  trial_balance_of_json := value_of_text
|}.

#[export] Instance codec_client_text : ClientText := {|
  error_of_json := value_of_text;
  envelope_of_json := fun s => let? f := of_text s in Ok (envelope_of_fields f);
  batch_of_json := value_of_text;
  status_to_string := i64_to_string
|}.

Definition result_of_item (i : BatchItem) : ApiResult Posted := match i with Item_Ok p => Ok p | Item_Err e => Err e end.

Definition codec_body_text (b : Body) : string :=
  match b with
  | Error_body e => text_of_value e
  | Posted_body p => text_of_value p
  | Batch_body l => text_of_value (map result_of_item l)
  | Balance_body v => text_of_value v
  | History_body v => text_of_value v
  | Transaction_body v => text_of_value v
  | Trial_balance_body v => text_of_value v
  | Text_body s => s
  | No_body | Event_stream _ => EmptyString
  end.

#[export] Instance codec_answers_laws : AnswerLaws codec_body_text.
Proof.
  split; try (intros; apply value_of_text_of). intros l. cbn [batch_of_json codec_client_text codec_body_text].
  rewrite map_map, value_of_text_of. f_equal. rewrite <- (map_id l) at 2. apply map_ext. by intros [].
Qed.

(** ** The shop *)

Section shop_day.
Import SqliteDemo.
#[local] Existing Instance plain_texts.
#[local] Existing Instance demo_event_text.

Definition draft (key from to : string) (m : Z) : TransactionDraft :=
  mkTransactionDraft "shop" key
    [mkPostingDraft to (mkWireAmount m "USD") Debit; mkPostingDraft from (mkWireAmount m "USD") Credit] [] "null" None.

(** The till opens, sells, gives change in a batch with an overdraft in it, and
    reads the books. *)
Definition shop_day : LedgerCode (list string) :=
  and_then (ask (Op_register_asset (mkAssetDraft "USD" "fiat" None None 2 "US dollar"))) (fun _ =>
  and_then (ask (Op_open_account (mkAccountDraft "shop" "cash" "USD" "asset" (Some Debit) (Some 0)))) (fun _ =>
  and_then (ask (Op_open_account (mkAccountDraft "shop" "sales:eu" "USD" "income" (Some Credit) None))) (fun _ =>
  and_then (ask (Op_post (draft "order-1" "sales:eu" "cash" 50))) (fun posted =>
  and_then (ask (Op_post_batch [draft "order-2" "cash" "sales:eu" 20; draft "order-3" "cash" "sales:eu" 500; draft "order-2" "cash" "sales:eu" 20])) (fun batch =>
  and_then (ask (Op_balance "shop" "sales:eu" (Some 7000000))) (fun sales =>
  and_then (ask (Op_account_history "shop" "cash" (mkPage (Some 3) 5000))) (fun page =>
  and_then (ask (Op_transaction (match posted with Ok p => po_tx_id p | Err _ => "none" end))) (fun view =>
  and_then (ask (Op_trial_balance "shop" None)) (fun lines =>
  Return [
    match posted with Ok p => i64_to_string (po_seq p) | Err e => ApiError_fmt e end;
    String.concat "; " (map (fun r => match r with Ok p => i64_to_string (po_seq p) | Err e => ApiError_fmt e end) batch);
    match sales with Ok v => bv_balance v | Err e => ApiError_fmt e end;
    match page with Ok p => String.concat " " (map (fun v => i64_to_string (wa_minor (pv_amount v))) (items p)) | Err e => ApiError_fmt e end;
    match view with Ok v => tv_book v | Err e => ApiError_fmt e end;
    match lines with Ok t => String.concat " " (map (fun l => i64_to_string (tl_debits l)) (tb_lines t)) | Err e => ApiError_fmt e end])))))))))%string.

Definition shop_stamps : nat -> nat -> TxId * DateTime := fun n i => (Z.of_nat (100 * n + i), 1000).

Definition till_client : TaleaClient := mkTaleaClient ([EmptyString], []) (Some "adm1n"%string) (from_secs 30) RetryPolicy_default.
Definition shop_auth : AuthConfig := AuthConfig_single (Some "adm1n"%string).
Definition no_route : Routed -> HttpResponse := fun r =>
  mkHttpResponse (match r with WrongMethod => 405 | _ => 404 end) None (Ok EmptyString).

Definition shop_client : Implementation (Net Conn) :=
  client_api sqlite_submit_all shop_stamps demo_subscribe 500 shop_auth codec_body_text no_route till_client.

Definition till_scope : TokenScope := all_access "legacy".

(** What the day asks for can be said over HTTP. *)
Lemma shop_day_asks_once : asks_once sqlite_submit_all shop_stamps 500 till_client shop_day 0 fresh.
Proof. vm_compute. split_and!; try done; by left. Qed.

Lemma code_runs_unchanged_witness :
  asks_once sqlite_submit_all shop_stamps 500 till_client shop_day 0 fresh /\
  exists r n' s', run (service_api sqlite_submit_all shop_stamps) shop_day (0%nat, fresh) = Some (r, (n', s')) /\
    run shop_client shop_day (mkNet [] 0 fresh) = Some (r, mkNet [] n' s').
Proof.
  split; [exact shop_day_asks_once|].
  refine (code_runs_unchanged sqlite_submit_all shop_stamps demo_subscribe 500 shop_auth codec_body_text no_route till_client _
            till_scope _ _ _ shop_day 0 fresh shop_day_asks_once).
  - by repeat split.
  - by repeat split.
  - reflexivity.
  - reflexivity.
Defined.

Example shop_day_told :
  fst <$> run shop_client shop_day (mkNet [] 0 fresh) =
    Some ["3"; "4; constraint violation for account shop:cash: minimum balance is 0, would be -470; 4"; "0.30"; "20"; "shop"; "70"]%string.
Proof. vm_compute. reflexivity. Qed.

(** What [plain_op] leaves out is answered otherwise: an account whose path is a dot
    has no URL of its own. *)
Definition dot_account : LedgerCode (list (ApiResult BalanceView)) :=
  and_then (ask (Op_register_asset (mkAssetDraft "USD" "fiat" None None 2 "US dollar"))) (fun _ =>
  and_then (ask (Op_open_account (mkAccountDraft "shop" "." "USD" "asset" (Some Debit) None))) (fun _ =>
  and_then (ask (Op_balance "shop" "." None)) (fun r => Return [r]))).

Example dot_account_unreadable :
  (fst <$> run (service_api sqlite_submit_all shop_stamps) dot_account (0%nat, fresh)) =
    Some [Ok (mkBalanceView "shop:." "USD" "0.00" None 0)] /\
  (fst <$> run shop_client dot_account (mkNet [] 0 fresh)) = Some [Err (Api_InvalidDraft "request" "404: ")].
Proof. vm_compute. split; reflexivity. Qed.
End shop_day.

Section command_demo.
Import SqliteDemo.
#[local] Existing Instance plain_texts.
#[local] Existing Instance demo_event_text.

(** The address of one server. *)
#[local] Instance demo_reqwest : Reqwest := {|
  url_parse := fun s => if String.eqb s "http://till" then Ok ([EmptyString], []) else Err "relative URL without a base"%string;
  build_http_client := Ok ()
|}.

#[local] Instance demo_cli_texts : CliTexts := {|
  parse_from_rfc3339 := fun s => ok_or (parse_i64 s) "premature end of input"%string;
  draft_from_str := value_of_text;
  value_from_str := fun s => Ok s;
  posted_to_value := fun p => Ok ("seq " +:+ i64_to_string (po_seq p));
  balance_to_value := fun v => Ok (bv_balance v +:+ " " +:+ bv_asset v);
  history_to_value := fun p => Ok (text_of_value p);
  transaction_to_value := fun v => Ok (text_of_value v);
  trial_balance_to_value := fun t => Ok (text_of_value t);
  value_pretty := fun v => Ok v;
  api_error_debug := ApiError_fmt
|}.

(** Without a standard input, and with one file. *)
Definition no_stdin : result string string := Err "closed"%string.
Definition files (path : string) : result string string :=
  if String.eqb path "order.json" then Ok (text_of_value (mkTransactionDraft "shop" "order-7" [] [] "null" None)) else Err "not found"%string.

Definition debits : list PostingDraft := [mkPostingDraft "cash" (mkWireAmount 30 "USD") Debit].
Definition credits : list PostingDraft := [mkPostingDraft "sales" (mkWireAmount 30 "USD") Credit].

Definition till_args (command : Command) : CliArgs := mkCliArgs "http://till" (Some "adm1n"%string) 30 command.

Definition post_args : CliArgs :=
  till_args (Command_Post (Some "shop") (Some "order-7") (map posting_arg debits) (map posting_arg credits) None None None)%string.

Definition till_api : TaleaClient -> Implementation (Net Conn) :=
  http_api sqlite_submit_all shop_stamps demo_subscribe 500 shop_auth codec_body_text no_route.

Lemma talea_post_posts_witness :
  again (service_answer sqlite_submit_all shop_stamps 0 (Op_post (mkTransactionDraft "shop" "order-7" (debits ++ credits) [] "null" None)) shop).1 = false /\
  let '(r, s') := service_answer sqlite_submit_all shop_stamps 0 (Op_post (mkTransactionDraft "shop" "order-7" (debits ++ credits) [] "null" None)) shop in
  again r = false ->
  execute no_stdin files till_api post_args (mkNet [] 0 shop) =
    Some (let? posted := r in let? value := to_json posted_to_value posted in Ok (Some value), mkNet [] 1 s').
Proof.
  split; [vm_compute; reflexivity|].
  refine (talea_post_posts sqlite_submit_all shop_stamps demo_subscribe 500 shop_auth codec_body_text no_route till_scope no_stdin files
            post_args till_client "shop" "order-7" debits credits 0 shop eq_refl eq_refl _ eq_refl _ _ _ _ _ _ _ _).
  - by repeat split.
  - by repeat split.
  - reflexivity.
  - done.
  - done.
  - done.
  - by repeat constructor.
  - by repeat constructor.
  - vm_compute. done.
Defined.

Definition told (cli : CliArgs) : option (list Line * Z) :=
  fst <$> main no_stdin files till_api (fun _ _ _ net => (Ok [], net)) (fun _ => ([], Ok ())) cli (mkNet [] 0 shop).

(** A post and what it says; a draft from a file without postings; an argument that
    is no posting; a balance. *)
Example commands_told :
  told post_args = Some ([Stdout "seq 3"], 0) /\
  told (till_args (Command_Post None None [] [] None None (Some "order.json")))%string =
    Some ([Stderr (text_of (error_fields (Command.invalid "at least one --debit/--credit is required (or postings in --draft)")))], 1) /\
  told (till_args (Command_Post (Some "shop") (Some "k") ["cash:USD"] [] None None None))%string =
    Some ([Stderr (text_of (error_fields (Command.invalid "missing account (want <account>:<asset>:<minor>)")))], 1) /\
  told (till_args (Command_Balance "shop" "cash" None))%string = Some ([Stdout "0.00 USD"], 0).
Proof. vm_compute. split_and!; reflexivity. Qed.
End command_demo.
