(* ===== verification/BenchDemo.v ===== *)
(** The benchmark of one book, run: the service over the SQLite store is a ledger that
    counts, also behind a network that loses answers; a run whose answers are lost is
    accepted with a warning; and a batch whose answer is lost, which is not. *)

From S2P Require Import Prelude Decimal Core Disk Frame Sql Sqlite SqliteSpec SqliteCommit SqliteHistory SqliteBatch SqliteReads SqliteDemo.
From S2P Require Import Api Service ServiceSpec LedgerApi Http Client ClientSpec EventCodec SqliteClient Workload Runner BenchSpec BenchReads.
Open Scope Z_scope.

(** ** The service over the SQLite store *)

Section instance.
Context `{HashIterLaws} `{UuidTextLaws} `{Json LedgerEvent} `{!JsonLaws LedgerEvent} `{Json (list ExternalRef)} `{Texts}.
Variable stamps : nat -> nat -> TxId * DateTime.

Definition sqlite_api : Implementation (nat * Conn) := service_api sqlite_submit_all stamps.

Definition sqlite_counted (w : nat * Conn) : Prop := exists h, db_ok (committed w.2) h.
Definition sqlite_top (w : nat * Conn) (b : Book) : Z :=
  match t_books (committed w.2) !! b with Some (Int n) => n | _ => 0 end.
Definition sqlite_recorded (w : nat * Conn) (b : Book) (k : string) : Prop := is_Some (sqlite_committed_as w.2 b k).

Lemma top_history h n s b : db_ok (committed s) h -> sqlite_top (n, s) b = Z.of_nat (length (SqliteSpec.book_log b h)).
Proof. intros Hdb. unfold sqlite_top. cbn. rewrite (do_books _ _ Hdb). by destruct (length (SqliteSpec.book_log b h)). Qed.

Lemma recorded_history h n s b k : db_ok (committed s) h -> sqlite_recorded (n, s) b k <-> is_Some (prior h b k).
Proof.
  intros Hdb. unfold sqlite_recorded. cbn. rewrite (committed_as_prior h) by done.
  destruct (prior h b k) as [e|] eqn:Ep; cbn; [|split; by intros []].
  destruct (prior_posts _ _ _ _ Ep) as (tx & Hev & _). unfold committed_of. rewrite Hev. split; by eexists.
Qed.

(** ** A post *)

Lemma build_names id at_ d tx : build_transaction id at_ d = Ok tx -> tx_book tx = td_book d /\ tx_idem tx = td_idempotency_key d.
Proof. by intros [_ ->]%build_transaction_ok. Qed.

Lemma post_service d n s h :
  db_ok (committed s) h ->
  let '(r, s') := service_answer sqlite_submit_all stamps n (Op_post d) s in
  exists evs, db_ok (committed s') (h ++ evs) /\
    match r with
    | Ok p => exists tx c at_, tx_book tx = td_book d /\ tx_idem tx = td_idempotency_key d /\ po_seq p = c_seq c /\
                draft_spec h tx at_ (Some c) evs
    | Err _ => evs = []
    end.
Proof.
  intros Hdb. cbn [service_answer]. unfold post. destruct (build_transaction _ _ d) as [tx|e] eqn:Eb.
  2: { exists []. by rewrite app_nil_r. }
  destruct (build_names _ _ _ _ Eb) as [Hb Hk]. unfold submit_one. cbn [sqlite_submit_all].
  destruct (submit_alone_sqlite h tx (set_script [] s) eq_refl Hdb) as (evs & Hdb1 & Hc).
  destruct (submit_alone tx (set_script [] s)) as [r s1]. cbn [fst snd head default from_option id] in *. exists evs. split; [done|].
  destruct r as [c|[]]; [|done..]. exists tx, c. by eexists.
Qed.

Lemma post_sqlite d w r w' : sqlite_counted w -> sqlite_api (Op_post d) w = Some (r, w') ->
  sqlite_counted w' /\ exists new : bool,
    (new = true -> ~ sqlite_recorded w (td_book d) (td_idempotency_key d)) /\
    (forall b, sqlite_top w' b = sqlite_top w b + if new && String.eqb b (td_book d) then 1 else 0) /\
    (forall b k, sqlite_recorded w' b k <-> sqlite_recorded w b k \/ new = true /\ b = td_book d /\ k = td_idempotency_key d) /\
    match r with
    | Ok p => sqlite_recorded w' (td_book d) (td_idempotency_key d) /\ (new = true -> po_seq p = sqlite_top w' (td_book d))
    | Err e => new = true -> exists message, e = Api_Transport message /\ String.prefix "503" message = false
    end.
Proof.
  destruct w as [n s]. intros [h Hdb] Ha. cbn in Hdb. unfold sqlite_api, service_api in Ha.
  pose proof (post_service d n s h Hdb) as Hp. destruct (service_answer _ _ n (Op_post d) s) as [r0 s']. injection Ha as <- <-.
  destruct Hp as (evs & Hdb' & Hr). split; [by exists (h ++ evs)|].
  assert (forall b k, sqlite_recorded (n, s) b k <-> is_Some (prior h b k)) as Hrec by (intros; by apply recorded_history).
  assert (forall m b k, sqlite_recorded (m, s') b k <-> is_Some (prior (h ++ evs) b k)) as Hrec' by (intros; by apply recorded_history).
  assert (evs = [] -> forall m b, sqlite_top (m, s') b = sqlite_top (n, s) b + 0) as Htop0.
  { intros -> m b. rewrite (top_history _ _ _ _ Hdb), (top_history _ _ _ _ Hdb'), app_nil_r. lia. }
  destruct r0 as [p|e]; [destruct Hr as (tx & c & at_ & Hb & Hk & Hseq & Hspec)|subst evs].
  - rewrite <- Hb, <- Hk. inversion Hspec as [e c' Hpr Hce| c' Hpr Hac Hce|]; subst.
    + exists false. split; [done|]. split; [intros b; by apply Htop0|]. split.
      * intros b k. rewrite Hrec, Hrec', app_nil_r. naive_solver.
      * split; [|done]. rewrite Hrec', app_nil_r, Hpr. by eexists.
    + exists true. split; [intros _; rewrite Hrec, Hpr; by intros []|]. split; [|split].
      * intros b. rewrite (top_history _ _ _ _ Hdb), (top_history _ _ _ _ Hdb'), book_log_snoc, length_app. cbn [posted next_entry en_book].
        destruct (String.eqb_spec b (tx_book tx)) as [->|Hne]; [rewrite decide_True by done; cbn; lia|].
        rewrite decide_False by done. cbn. lia.
      * intros b k. rewrite Hrec, Hrec', prior_app. destruct (prior h b k) as [e|] eqn:Ep.
        { split; [intros _; left|intros _]; by eexists. }
        cbn. destruct (String.eqb_spec (tx_book tx) b) as [<-|], (String.eqb_spec (tx_idem tx) k) as [<-|]; cbn;
          try (split; [by intros [? [=]]|intros [[? [=]]|(_ & ? & ?)]; by subst]).
        split; [by right|by eexists].
      * split; [rewrite Hrec', prior_posted by done; by eexists|]. intros _. rewrite (top_history _ _ _ _ Hdb'), book_log_snoc, decide_True by done.
        rewrite length_app, Hseq. injection Hce as <-. cbn. lia.
  - exists false. split; [done|]. split; [intros b; by apply Htop0|]. split; [|done].
    intros b k. rewrite Hrec, Hrec', app_nil_r. naive_solver.
Qed.

(** ** Definitions and reads *)

Definition unposted (evs : list Entry) : Prop :=
  Forall (fun e => match en_event e with TransactionPosted _ => False | _ => True end) evs.

Lemma prior_unposted h evs b k : unposted evs -> prior (h ++ evs) b k = prior h b k.
Proof.
  intros Hu. rewrite prior_app. destruct (prior h b k); [done|]. unfold prior. induction Hu as [|e evs He _ IH]; [done|].
  cbn. by destruct (en_event e).
Qed.

(** What an operation that posts nothing leaves of a history. *)
Definition adds_no_post (h : list Entry) (s : Conn) : Prop := exists evs, db_ok (committed s) (h ++ evs) /\ unposted evs.

Lemma adds_nothing h s s' : db_ok (committed s) h -> committed s' = committed s -> adds_no_post h s'.
Proof. intros Hdb Hc. exists []. rewrite app_nil_r, Hc. by split; [|constructor]. Qed.

Lemma definition_unposted {A} (m : sq A) h s :
  all_or_nothing m -> quiet m -> db_ok (committed s) h ->
  (forall s0 a s1, script s0 = [] -> committed s0 = committed s -> m s0 = (Done a, s1) -> adds_no_post h s1) ->
  adds_no_post h (m s).2.
Proof.
  intros Haon Hq Hdb Hok. destruct (Haon s) as [Hd|Hc]; [|by eapply adds_nothing].
  destruct (m s) as [[a|e|] s'] eqn:Em; [|done..]. apply Hq in Em.
  exact (Hok (set_script [] s) a (set_script [] s') eq_refl eq_refl Em).
Qed.

Lemma register_unposted asset h s : 0 <= asset_precision asset < 256 -> db_ok (committed s) h -> adds_no_post h (Sqlite.register_asset asset s).2.
Proof.
  intros Hp Hdb. destruct (register_asset_aon asset) as [Haon Hq]. apply definition_unposted; [done..|].
  intros s0 a s1 Hs Hc Hr. rewrite <- Hc in Hdb. pose proof (register_asset_healthy h asset s0 Hdb Hs Hp) as Hspec.
  destruct (register_spec h asset (now s0)) as [r evs] eqn:Es. rewrite Hr in Hspec. destruct Hspec as (_ & ? & _). exists evs.
  split; [done|]. unfold register_spec in Es. destruct (registered h (asset_id asset)); injection Es as _ <-; by repeat constructor.
Qed.

Lemma open_unposted def cfg h s : db_ok (committed s) h -> adds_no_post h (Sqlite.open_account def cfg s).2.
Proof.
  intros Hdb. destruct (open_account_aon def cfg) as [Haon Hq]. apply definition_unposted; [done..|].
  intros s0 a s1 Hs Hc Hr. rewrite <- Hc in Hdb. pose proof (open_account_healthy h def cfg s0 Hdb Hs) as Hspec.
  destruct (open_spec h def cfg (now s0)) as [r evs] eqn:Es. rewrite Hr in Hspec. destruct Hspec as (_ & ? & _). exists evs.
  split; [done|]. unfold open_spec in Es. cbn zeta in Es. repeat case_match; injection Es as _ <-; by repeat constructor.
Qed.

Lemma answered_state {A} (m : sq A) s : (answered m s).2 = (m s).2.
Proof. unfold answered. by destruct (m s) as [[] ?]. Qed.

Lemma local_state {A} (m : sq A) s : is_local m -> committed (answered m s).2 = committed s.
Proof. intros Hm. rewrite answered_state. apply (lo_committed _ _ (Hm s)). Qed.

(** The parts of a read. *)
Ltac local_steps :=
  repeat first [solve [auto with talea] | apply local_bind; intros | progress cbn beta iota | case_match].

Lemma local_trial_rows rows : is_local (Sqlite.get_trial_rows rows).
Proof. induction rows as [|[k [c d]] rows IH]; cbn; local_steps. Qed.

Lemma local_balance a as_of : is_local (Sqlite.balance a as_of).
Proof. unfold Sqlite.balance, load_account. local_steps. Qed.

Lemma local_asset i : is_local (Sqlite.asset i).
Proof. unfold Sqlite.asset. local_steps. Qed.

Lemma local_history a after limit : is_local (Sqlite.account_history a after limit).
Proof. unfold Sqlite.account_history, load_account. local_steps. Qed.

Lemma local_transaction i : is_local (Sqlite.transaction i).
Proof. unfold Sqlite.transaction, fetch_events. local_steps. Qed.

Lemma local_trial book as_of : is_local (Sqlite.trial_balance book as_of).
Proof. unfold Sqlite.trial_balance. apply local_bind; [local_steps|]. intros rows. apply local_trial_rows. Qed.

Lemma call_state {A B} (m : sq A) (k : A -> ApiResult B) s : committed (api_call (answered m s) k).2 = committed (m s).2.
Proof. rewrite <- answered_state. by destruct (answered m s) as [[] ?]. Qed.

Lemma adds_call {A B} (m : sq A) (k : A -> ApiResult B) h s :
  adds_no_post h (m s).2 -> adds_no_post h (api_call (answered m s) k).2.
Proof. intros (evs & Hdb & Hu). exists evs. by rewrite call_state. Qed.

Lemma reads_call {A B} (m : sq A) (k : A -> ApiResult B) s : is_local m -> committed (api_call (answered m s) k).2 = committed s.
Proof. intros Hm. rewrite call_state. apply (lo_committed _ _ (Hm s)). Qed.

(** What the service's operations that do not post leave. *)
Lemma other_service op n s h :
  posts op = false -> typed op -> db_ok (committed s) h ->
  let s' := (service_answer sqlite_submit_all stamps n op s).2 in
  adds_no_post h s' /\ (defines op = false -> committed s' = committed s).
Proof.
  intros Hp Hty Hdb. cbn zeta.
  assert (forall s' : Conn, committed s' = committed s -> adds_no_post h s' /\ (defines op = false -> committed s' = committed s)) as Hread
    by (intros; split; [by eapply adds_nothing|done]).
  destruct op as [d|d|d|ds|book path as_of|book path page|txid|book as_of]; try done; cbn [service_answer].
  - split; [|done]. unfold Service.register_asset. destruct (parse_asset_draft d) as [def|e] eqn:Ep; [|by eapply adds_nothing].
    apply adds_call, register_unposted; [|done]. cbn in Hty. revert Ep. unfold parse_asset_draft. repeat (case_match; simplify_eq); by intros [= <-].
  - split; [|done]. unfold Service.open_account. destruct (parse_account_draft d) as [[def cfg]|e]; [|by eapply adds_nothing].
    by apply adds_call, open_unposted.
  - apply Hread. unfold Service.balance. destruct (parse_book_lax book); [|done]. cbn [store_balance sqlite_store].
    pose proof (local_state (Sqlite.balance (mkAccountId a path) as_of) s (local_balance _ _)) as Hb.
    destruct (answered (Sqlite.balance (mkAccountId a path) as_of) s) as [[b|e] s1]; [|done]. etrans; [apply reads_call, local_asset|exact Hb].
  - apply Hread. unfold Service.account_history. destruct (parse_book_lax book); [|done]. apply reads_call, local_history.
  - apply Hread. unfold Service.transaction. destruct (uuid_parse txid); [|done]. apply reads_call, local_transaction.
  - apply Hread. unfold Service.trial_balance. destruct (parse_book_lax book); [|done]. apply reads_call, local_trial.
Qed.

Lemma other_sqlite op w a w' : posts op = false -> typed op -> sqlite_counted w -> sqlite_api op w = Some (a, w') ->
  sqlite_counted w' /\ (defines op = false -> forall b, sqlite_top w' b = sqlite_top w b) /\
  (forall b k, sqlite_recorded w' b k <-> sqlite_recorded w b k).
Proof.
  destruct w as [n s]. intros Hp Hty [h Hdb] Ha. cbn in Hdb. unfold sqlite_api, service_api in Ha.
  destruct (other_service op n s h Hp Hty Hdb) as [(evs & Hdb' & Hu) Hd]. destruct (service_answer _ _ n op s) as [a0 s']. cbn [snd] in *.
  injection Ha as _ <-. split; [by exists (h ++ evs)|]. split; [intros Hdef b; unfold sqlite_top; cbn; by rewrite Hd|].
  intros b k. rewrite (recorded_history (h ++ evs)), (recorded_history h) by done. by rewrite prior_unposted.
Qed.

#[export] Instance sqlite_counts : CountedLedger sqlite_api := {|
  counted := sqlite_counted; top := sqlite_top; recorded := sqlite_recorded;
  post_counted := post_sqlite; other_counted := other_sqlite
|}.
End instance.

(** ** A network that loses answers *)

(** The posts whose flag is set take effect, and their callers get [e]. *)
Definition lost_answer (e : ApiError) (op : ApiOp) : answer op -> answer op :=
  match op with
  | Op_post _ => fun _ => Err e
  | Op_post_batch ds => fun _ => map (fun _ => Err e) ds
  | _ => fun a => a
  end.

Definition losing {W} (e : ApiError) (api : Implementation W) : Implementation (list bool * W) := fun op '(lost, w) =>
  '(a, w') ← api op w;
  Some (if posts op then (if default false (head lost) then lost_answer e op a else a, (tail lost, w')) else (a, (lost, w'))).

Definition no_answer : ApiError := Api_Transport "connection reset by peer".

#[export] Instance losing_counts {W} (api : Implementation W) `{!CountedLedger api} : CountedLedger (losing no_answer api).
Proof.
  refine {| counted w := counted w.2; top w := top w.2; recorded w := recorded w.2 |}.
  - intros d [lost w] r [lost' w'] Hc Ha. cbn in *. destruct (api (Op_post d) w) as [[a w1]|] eqn:Ea; [|done].
    destruct (post_counted _ _ _ _ Hc Ea) as (Hc1 & new & Hn & Ht & Hr & Hres). injection Ha as <- _ <-.
    split; [done|]. exists new. split; [done|]. split; [done|]. split; [done|]. destruct (default false (head lost)); [|done].
    intros _. by exists "connection reset by peer".
  - intros op [lost w] a [lost' w'] Hp Hty Hc Ha. cbn in *. destruct (api op w) as [[a1 w1]|] eqn:Ea; [|done].
    cbn in Ha. rewrite Hp in Ha. injection Ha as _ _ <-. by apply (other_counted op _ _ _ Hp Hty Hc Ea).
Defined.

Lemma losing_answers {W} e (api : Implementation W) :
  (forall op w, is_Some (api op w)) -> forall op w, is_Some (losing e api op w).
Proof. intros Ha op [lost w]. cbn. destruct (Ha op w) as [[a w'] ->]. by eexists. Qed.

(** ** Runs *)

Section bench_demo.
Import SqliteDemo.
#[local] Existing Instance plain_texts.
#[local] Instance compact_events : Json LedgerEvent := codec_json LedgerEvent.
#[local] Instance compact_events_laws : JsonLaws LedgerEvent := codec_json_laws LedgerEvent.
#[local] Instance compact_refs : Json (list ExternalRef) := codec_json (list ExternalRef).

(** A histogram is what was recorded. *)
#[local] Instance demo_histograms : Histograms := {|
  Histogram := list Z; histogram_new := []; histogram_record := cons; histogram_add a b := Some (a ++ b)
|}.

Definition bench_stamps : nat -> nat -> TxId * DateTime := fun n i => (Z.of_nat (100 * n + i), 1000).

Definition bench_api (e : ApiError) : Implementation (list bool * (nat * Conn)) := losing e (sqlite_api bench_stamps).

Lemma bench_api_answers e op w : is_Some (bench_api e op w).
Proof. apply losing_answers. intros op' [n s]. cbn. by destruct (service_answer _ _ n op' s). Qed.

(** One worker, then two; the second post of each step starts after the warm-up. *)
Definition demo_schedule : list (Z * list Turn) :=
  [(0, [mkTurn 0 5 3; mkTurn 0 12 4; mkTurn 0 200 1]); (300, [mkTurn 1 302 9; mkTurn 0 315 2; mkTurn 1 316 5])].

(** The third and the fourth post lose their answers; the first is a probe. *)
Definition some_lost : list bool := [false; false; true; true; false].

Definition bench (e : ApiError) (s : Scenario) : option (result (list (string * StepReport)) string * (list bool * (nat * Conn))) :=
  run_scenario (bench_api e) ApiError_fmt "r1" 10 100 s demo_schedule (some_lost, (0%nat, fresh)).

Definition told (r : result (list (string * StepReport)) string) : result (list (string * Z * Z * Z)) string :=
  match r with
  | Ok steps => Ok (map (fun s => (s.1, sr_successes s.2, sr_total_committed s.2, sr_total_ambiguous s.2)) steps)
  | Err e => Err e
  end.

(** Five posts, two of them without an answer; the answers after the warm-up are
    successes. *)
Example one_book_accepted :
  (fun r => told r.1) <$> bench no_answer (Post_one_book [1; 2] 2 1) = Some (Ok [("c1", 0, 1, 1); ("c2", 2, 2, 1)]%string).
Proof. vm_compute. reflexivity. Qed.

(** The probe of the third book has no answer. *)
Example many_books_unprobed :
  (fun r => told r.1) <$> bench no_answer (Post_many_books [1; 3] 2 4) =
    Some (Err "probe post on bench-2 failed: transport error: connection reset by peer"%string).
Proof. vm_compute. reflexivity. Qed.

(** A worker's requests are a post, two balances, a page and a trial balance, in turn. *)
Definition demo_mix : MixWeights := mkMixWeights 1 2 1 1.

Example mixed_accepted :
  (fun r => told r.1) <$> bench no_answer (Mixed [1; 2] 2 demo_mix) = Some (Ok [("c1", 1, 0, 1); ("c2", 2, 1, 1)]%string).
Proof. vm_compute. reflexivity. Qed.

(** A batch without an answer may have committed all of its drafts, and is counted as
    one that may have. *)
Example lost_batch_accused :
  (fun r => told r.1) <$> bench no_answer (Post_one_book [1; 2] 2 2) =
    Some (Err "SEQ MISMATCH: observed 11 new events across 1 book(s), expected 7..=9 (committed=6, after-probes=1, ambiguous=2)"%string).
Proof. vm_compute. reflexivity. Qed.

(** A post that was answered 408 and committed all the same is counted as one that
    cannot have. *)
Example timed_out_post_accused :
  (fun r => told r.1) <$> bench Api_Timeout (Post_one_book [1; 2] 2 1) =
    Some (Err "SEQ MISMATCH: observed 6 new events across 1 book(s), expected 4..=4 (committed=3, after-probes=1, ambiguous=0)"%string).
Proof. vm_compute. reflexivity. Qed.

(** Reads of a book of three transactions, twice: the second run adds its probe only. *)
Definition reads (run_id : string) (w : list bool * (nat * Conn)) :=
  run_reads (bench_api no_answer) ApiError_fmt run_id 10 100 [1; 2] 3 2 [0; 1; 0; 1; 0; 0]%nat
    [(0, [mkTurn 0 12 3]); (0, [mkTurn 0 15 1; mkTurn 0 16 4])] w.

Example reads_again_add_a_probe :
  (fun r => (sqlite_top r.1.2.2 READ_BOOK, sqlite_top r.2.2.2 READ_BOOK, told r.2.1)) <$>
    (first ← reads "r1" ([], (0%nat, fresh)); second ← reads "r2" first.2; Some (first, second)) =
  Some (6, 7, Ok [("balance/c1", 1, 0, 0); ("history/c1", 2, 0, 0); ("trial-balance/c1", 0, 0, 0);
                  ("balance/c2", 0, 0, 0); ("history/c2", 0, 0, 0); ("trial-balance/c2", 0, 0, 0)]%string).
Proof. vm_compute. reflexivity. Qed.

Lemma demo_histograms_add (a b : Histogram) : is_Some (histogram_add a b).
Proof. by eexists. Qed.

Lemma benchmark_never_alarms_witness :
  sqlite_counted (0%nat, fresh) /\
  exists r w', bench no_answer (Mixed [1; 2] 2 demo_mix) = Some (r, w') /\ sqlite_counted w'.2 /\
    match r with
    | Ok steps => map fst steps = ["c1"; "c2"]%string
    | Err e => mismatch e = false
    end.
Proof.
  assert (sqlite_counted (0%nat, fresh)) as Hc by (exists []; exact db_ok_empty).
  split; [exact Hc|].
  refine (benchmark_never_alarms (bench_api no_answer) ApiError_fmt "r1" 10 100 (bench_api_answers _) demo_histograms_add
            (Mixed [1; 2] 2 demo_mix) demo_schedule (some_lost, (0%nat, fresh)) _ Hc _ _).
  - split; [by repeat constructor|]. by repeat split.
  - intros b k _. change (~ sqlite_recorded (0%nat, fresh) b k). rewrite (recorded_history []) by exact db_ok_empty. by intros [].
  - vm_compute. discriminate.
Defined.
End bench_demo.
